(* ===== verification/_CoqProject ===== *)
-Q . S2P
Prelude.v
CoreTypes.v
Naming.v
RowCodec.v
Watermarks.v
ReadSnapshot.v
Dialect.v
MergeSql.v
IndexSeek.v
Plan.v
SnapshotScan.v
IndexSelect.v
Effects.v
TxLog.v
Session.v
TxLedger.v
TxLedgerInv.v
TxLedgerTheorems.v
ForkPoint.v
ForkPointTheorems.v
TableStore.v
Ordered.v
Chunker.v
BatchUtil.v
SeekBatch.v
SegmentStats.v
Packer.v
PackLemmas.v
PackMerge.v
PackStream.v
PackTheorems.v
PackCycle.v
PackProps.v
CarryForward.v
CarryTheorems.v
SnapshotMeta.v
SnapshotWrite.v
SnapshotFrame.v
SnapshotPost.v
SnapshotLayout.v
SnapshotPlanned.v
SnapshotCycle.v
SnapshotCommit.v
SnapshotStep.v
SnapshotHistory.v
SnapshotTheorems.v
ReadPath.v
AuditReads.v
Lifecycle.v
ReadLemmas.v
ReadData.v
Tiers.v
ReadCorrect.v
ReadTheorems.v
System.v
SystemInv.v
SystemPersist.v
SystemSnapshot.v
SystemTheorems.v
AuditSystem.v
Fork.v
NamingTheorems.v
ForkCopy.v
ForkCoherent.v
AuditTheorems.v
ForkTheorems.v
BranchMerge.v
BranchMergeTheorems.v
AuditFork.v
WriteTheorems.v
Catalog.v
CatalogReads.v
CatalogTheorems.v
Dml.v
DmlTheorems.v
Schedules.v
CompactPlan.v
ColdStore.v
ColdLemmas.v
ColdTheorems.v
