(* ===== verification/Prelude.v ===== *)
(** * penca: a branchable, versioned HTAP store

    penca keeps a table in three tiers.  Writes go to Postgres "hot" logs (one
    upsert log and one delete log per table and branch, stamped by a
    transaction log); PERSIST copies committed hot rows into cold segment files;
    SNAPSHOT folds the cold segments into a baseline of live rows with sorted
    index artifacts; PURGE clears the hot rows a snapshot covers.  A read plans
    over the metadata, picks the snapshot, the segments and the hot window that
    its visibility point needs, and merges them.  This development models that
    core and proves that the tiering is invisible to readers.

    ** Files, in dependency order

    - Prelude: machine integers, optional bounds, the [result] monad, generic
      list lemmas, the [penca] hint database, the tactics [zbool] and [i64].
    - CoreTypes (penca-core log_kind.rs, format.rs, types/mod.rs): the
      closed-set enums and their text and wire codecs, the canonical types.
    - Naming (penca-core naming/uuids.rs, tables.rs, uris.rs): the derived uuids,
      Postgres names and file uris; NamingTheorems (after the components whose
      naming laws it discharges).
    - RowCodec (penca-storage-hot row_codec.rs, data.rs, pg.rs): cells as SQL
      literals, the VALUES of a write, cells decoded from a hot read.
    - Watermarks (penca-storage-meta watermarks.rs): the pure watermark
      arithmetic of snapshot, purge and transaction-log GC.
    - ReadSnapshot (penca-merge snapshot.rs): the visibility point of a read.
    - Dialect, MergeSql (penca-sql, penca-merge/src/sql.rs, the two dialects):
      the statements as relations.  [Dialect] is a class with one instance per
      engine; its law, latest row per partition, is what the merge uses, so
      Postgres' DISTINCT ON and DataFusion's window function are
      interchangeable.
    - IndexSeek (penca-format/src/index/mod.rs): artifact build, binary-search
      seek, sorted intersection.
    - Plan (penca-core plan.rs, penca-api/src/query/meta_plan.rs): the metadata
      of one table and the planner, retention floor and tier-shape included.
    - SnapshotScan (penca-dl provider.rs, driver.rs): seeks and scans of
      snapshot segments.
    - IndexSelect (penca-api/src/query/index_select.rs): covering-index
      selection for an equality request.
    - TxLog (penca-storage-hot tx.rs, penca-api/src/write/mod.rs,
      query/meta_resolve.rs): begin, commit, abort, auto-commit, transaction
      status, resolution of a read's snapshot.
    - Session (penca-sql-server session.rs, tx.rs, set.rs, flight_sql/): the SQL
      session of a connection over the transaction log, as a step relation of
      interleaved requests.
    - Effects: the monad of operations whose effects can each fail.
    - TxLedger (lifecycle/persist_tx_log.rs, purge_tx_log.rs, storage-meta
      tx_log.rs, lifecycle.rs): the cold transaction ledger, its flush and the GC
      of the hot transaction logs; TxLedgerInv, TxLedgerTheorems.
    - ForkPoint (query/mod.rs, write/mod.rs): the resolution of a fork point to a
      commit of the source branch, hot log first, then one segment of the ledger;
      ForkPointTheorems.
    - TableStore (penca-storage-hot data.rs, write/mod.rs): the hot logs and
      [write_data].
    - Ordered: the lexicographic order of byte encodings, ordered maps and
      grouping, shared by the packing files.
    - Chunker (lifecycle/chunker.rs): the byte cost of rows, size-bounded
      row ranges.
    - BatchUtil (lifecycle/batch_util.rs): partition labels and typed order,
      the split of a batch, the clustering sort.
    - SeekBatch (penca-datafusion pk_ids.rs, expr_to_sql.rs, table.rs, penca-api
      pk_batch.rs): the point lookup a SQL scan derives from its filters, and the
      row identities the server derives from it.
    - SegmentStats (penca-dl stats.rs): the statistics of a segment, their
      payload, pruning, and the partition key read back from them.
    - Packer (lifecycle/packer.rs): [SegmentPacker], [PartitionMerger] and
      [pack_merged_partition_stream].  PackLemmas, PackMerge, PackStream,
      PackTheorems, PackCycle, PackProps: whole-partition packing as
      the reference, and the packing cycle.
    - CarryForward (lifecycle/snapshot_op.rs): the gate, the attribution of
      deletes and moves, the split, the two write paths;
      CarryTheorems.
    - SnapshotMeta (storage-meta snapshot.rs and segment_index.rs,
      query/meta_plan.rs): the four snapshot tables, one definition per
      statement, and the planning read.
    - SnapshotWrite (lifecycle/durable_writer.rs, snapshot_op.rs, retire.rs):
      the write tail and retirement in a monad of faulty effects.
    - SnapshotCycle (snapshot_op.rs): [snapshot_locked] over them.
    - SnapshotFrame (what a run may change), SnapshotPost (what a run that
      returns has done), SnapshotLayout, SnapshotPlanned
      (what a plan reads), SnapshotCommit, SnapshotStep, SnapshotHistory
      (one cycle after another), SnapshotTheorems.
    - ReadPath, ReadData (penca-merge resolve.rs, lib.rs, output.rs,
      query/cold_read.rs, query/mod.rs): tier resolve, union, exclusion, the
      inherited base of a fork, snapshot streams, the whole [read_data].
    - AuditReads (query/mod.rs, penca-merge audit.rs, penca-storage-hot audit.rs): the
      plan and the two streams of [audit_data]; AuditSystem (the
      table beside its ledger), AuditTheorems, AuditFork.
    - Lifecycle (lifecycle/persist.rs, snapshot_op.rs, purge.rs and their
      storage-meta counterparts): [persist_locked], [snapshot_locked],
      [purge_locked] of one table, each one atomic step, the snapshot's rows
      laid out through the interface [SnapshotLayout].
    - ReadLemmas, Tiers, ReadCorrect, ReadTheorems: the read
      refines the committed history.
    - System, SystemInv, SystemPersist (with the purge), SystemSnapshot,
      SystemTheorems, WriteTheorems: the table under every interleaving of
      client and lifecycle operations, its invariant, and the theorems that
      follow from it.
    - Catalog (write/mod.rs, query/meta_resolve.rs, scope.rs, resolve.rs, storage-meta
      schema.rs, table.rs, index.rs, ddl.rs, penca-db pg.rs, resolve.rs): the system
      tables of a branch, the lookups over them, the schema, table and index
      handlers, the bootstrap; CatalogReads (the tables as maps), CatalogTheorems.
    - Dml (penca-sql-server dml.rs, write/mod.rs): INSERT, UPDATE and DELETE down
      to [write_data]; DmlTheorems.
    - Fork (storage-meta fork_copy.rs, write/mod.rs, lifecycle/branch_op.rs,
      server-grpc write.rs): [CreateBranch], from the flush of the source to the
      fork's own transaction.  ForkCopy (segments and
      their headers, what is copied), ForkCoherent (reads of a segment cut at the
      fork, the child's tiers, the child under its clients), ForkTheorems.
    - BranchMerge (penca-storage-hot merge.rs, write/mod.rs): [MergeBranch], its
      fast-forward guard and the compaction of the source's logs;
      BranchMergeTheorems.
    - Schedules: runs outside the schedule those theorems assume.
    - CompactPlan (lifecycle/compact_plan.rs): the planner of a compaction wave.
    - ColdStore (lifecycle/compact.rs, compact_op.rs, sweep.rs, storage-meta
      compact.rs and persist.rs, storage-cold lib.rs): the files behind the
      persist segments, compaction and the grace-window sweep.
    - ColdLemmas, ColdTheorems: compaction and sweep keep every segment.

    ** What the theorems show

    The specification of a table is its committed history: the upsert and
    delete versions of every commit, from which [table_at] defines the rows a
    visibility point shows.  [coherent] says what the tiers must hold of it.
    Under [coherent], [read_data_refines] states that [read_data] returns
    exactly those rows of the history that satisfy the request, each once, whichever
    tiers it dispatches to (hot only, cold only, merged, snapshot scan, point
    seek), and refuses exactly the reads below the retention floor.  The
    read is not below a fork's own start ([self_contained]), and an index seek comes
    with a filter ([seek_filtered]); without one the point seek of row ids returns rows
    the index columns exclude ([bypass_drops_index_residual]).  The record
    [Inv] of System.v implies [coherent] and holds in every state reachable by
    begin, write, commit, abort, persist, snapshot and purge; hence
    [lifecycle_transparent] (a tiered table reads as the table that was never
    tiered) and [write_visible] (a committed change replaces exactly the rows it
    names).  [insert_exact], [update_exact] and [delete_exact] carry this to
    SQL: an auto-committed INSERT that succeeds adds every row of its source, cast to the table's schema, and counts them;
    an UPDATE stores in its SET columns the cast results of its SELECT and leaves the
    others (moving a row when its key changes); a DELETE removes the rows it selects;
    a statement that fails changes nothing.  The last two rest on a SELECT answered as
    SQL does ([select_sound]) and on rows stored under their identities ([keyed]), which
    UPDATE keeps.  [insert_ignores_column_list] and the
    example run [open_tx_dml_loses_rows] are what the code does outside that contract.

    The catalog is three such tables.  Read as maps from uuids to rows, they are
    the specification of DDL: [ddl_refines] states that a request that succeeds
    changes them by the [effect] of its kind, [catalog_consistent] that names stay
    unique and tables housed from the bootstrap on, [catalog_seeks_agree] that a
    seek finds what a scan finds, [create_table_outcome] that a taken name is the
    one reason to refuse a valid CreateTable.  These runs ([cat_step]) auto-commit
    their DDL, address an UpdateIndex by the index's name, draw unused uuids, follow the
    schedule below on each system table, and stay among uuids ([known]) on whose
    texts the hash does not collide; [open_creates_collide] and [rename_moves_index]
    are runs outside the first two, and [purged_table_undeletable] a request that fails
    within them.

    The transaction-log theorems give the order of commits on both axes,
    that a transaction ends once, and which commits an open transaction sees.
    [ledger_keeps_commits]: whatever fault cuts a flush short and however GC and
    purges interleave, the ledger reads back exactly the commits up to its
    watermark and the rest is hot; [flush_covers_target] and [gc_invisible] are
    the contracts of the two operations.  [audit_exact] composes ledger, life
    cycle and audit: an audit is the committed history of its window with the
    right author and comment; [fork_audit_once]: a fork's two arms and two ledgers
    do not overlap; [audit_double_reports] is a run in which the persist
    segments overlap.  [fork_point_exact]: a fork point resolves to the commit it
    names, whatever the GC has removed.  [fork_reads_parent]: a branch created
    there, whose parent has followed the schedule (the fork's own flush included) with
    no GC of its transaction log and whose own clients alone have worked on it,
    reads as its parent's commits up to the fork followed by its own;
    [merge_reads_source]: between two such branches a merge is refused when the target
    has moved on and otherwise makes it read as the source.  The example runs
    [merge_loses_commits] are outside: the hot logs, all a merge looks at, no longer
    hold what it needs.
    [logical_segments] reads a segment row through its file slice; it is the
    [segment_meta] list the planner and the lifecycle work with.
    [cold_maintenance_transparent] states that compaction cycles and sweeps, in
    any order, leave it unchanged, [plan_outlives_maintenance] that a plan stays
    readable for the query timeout, [compact_drains] that waves terminate in one
    file per scope; [plan_wave_sound] and [plan_wave_idle_exact] are the planner's
    contract.

    The snapshot write path is verified from the rows down to the statements.
    [streamed_is_whole]: the streaming packer returns what whole-partition
    packing returns, however the prior scan is sliced; [partition_merge_stable]
    and [pack_cycle_exact] say what that is, and that its output is what the next
    cycle accepts, so [rewrites_live].  [carry_forward_is_rewrite]: carrying
    untouched partitions by reference shows the rows of the full rewrite.
    [snapshot_write_atomic]: under any pattern of faults, cleanup included, the
    write tail leaves every plan as it was or commits exactly the packed
    segments, from a store that holds nothing of an earlier attempt at the same
    snapshot beyond what this one overwrites ([write_start]).  [snapshots_live] composes
    them: cycle after cycle of windows that fit the table ([history_fits]; among others,
    partition labels tell the partitions of the data apart) succeeds, through
    metadata, files and statistics, and keeps exactly the rows of the
    history.  [retire_keeps_latest] is the same for retirement, and
    [pruned_segment_has_no_match] the soundness of statistics pruning, for statistics
    written under one schema and read by column name under another.
    [null_label_wedges], [rekey_wedges] and [stale_attempt_resurfaces] are runs
    outside those hypotheses in which the code fails.

    At the client's end, [session_owns_once]: however the requests of one
    connection interleave and whatever their calls to the write service meet,
    every transaction the session opens has at most one owner, and the planner's
    mirror agrees with the session; [session_closes_clean]: when the
    client waits for its answers and none is lost, a closed connection leaves no
    transaction open.  [scan_loses_no_row]: the keys a
    scan seeks and the filters it drops never lose a row the filters accept.
    [derived_names_exact]: whatever the hash, two derived identities coincide only when
    they derive from the same source or from an explicit pair of hashed texts on which
    it collides; [row_identity_exact] and [pg_names_distinct] are the same for row
    identities and for the names of Postgres tables.
    [insert_values_exact]: a reader of SQL literals gets back from the VALUES text
    the cells that were written; [read_scalar_typed]: a decoded cell is a value of
    its column's type or an error.

    The component theorems characterise the index seek, the covering-index
    selection, the chunker, the GC cutoffs and the codecs exactly.

    The steps of System.v carry a schedule ([scheduled]): a persist runs after
    the purge has caught up with the snapshots and under a target no earlier
    persist used, a snapshot does not stop short of the persist watermark.  The
    code does not enforce it; the theorems of Schedules.v are the runs that break
    without it.

    ** Modelling choices

    An [i64] is a [Z]; saturating operations are written out and the bounds
    appear where a theorem needs them ([in_i64]).  uuids are [Z]; the derived
    ones of versions, persists and segments are functions assumed not to collide
    ([env_ok], the idealisation of a 128-bit hash; [derived_names_keep_laws] gives it
    for the functions of the source from a hash without any collision), those of the
    catalog are assumed not to collide on the texts a run can hash.  Column values are
    abstract: a row is an identity with a value of type [V], a cell is read by
    [value].  A Postgres table is a list or map with its unique keys checked; a
    statement is the relation it denotes.  In System.v each operation is one
    atomic step (it runs under the table lock or in one transaction).  In
    SnapshotWrite.v and TxLedger.v a run is a sequence of effects, one per statement or file
    operation, and [fault] says of each whether it runs, is refused, loses its
    answer or kills the process.  AuditSystem.v joins the ledger's level with the
    system's; the snapshot's is not connected yet.
    Loops are structural or run on their length, so no fuel can run out; the
    wave count of [compact_drains] is the number of files of the scope;
    [drain_loop] runs on the number of carried and delta partitions and
    [delta_below] on the number of delta rows, each of which loses one per
    round; the reader [sql_values] of a VALUES text takes one step per tuple and
    runs on the length of the text.  Parameters
    stand for code outside the repository or behind an interface: DataFusion's segment
    pruning ([may_match], [prune_sound]) and equality extraction
    ([equality_bindings], [bindings_sound]), the Arrow layout of a cold batch
    ([ColdBatch]), the packing of a snapshot's rows ([SnapshotLayout]), Arrow's
    display, row encoding and sort ([ArrowKernels] with [ArrowKernelsLaws]), the
    JSON of statistics ([StatsCodec]), the derived names ([SegmentNaming],
    [IndexNaming], [SnapshotNaming], [LedgerNaming], [ForkNaming]), the draws of
    [gen_random_uuid] ([gen]), the 128-bit hash ([ContentHash];
    [CollisionFree] says of a set of texts that it does not collide on them), the casts,
    comparisons and display of DataFusion scalars ([Arrow] with
    [ArrowLaws]), a column's cast ([ColumnCast]), the texts of chrono, Arrow and
    floats ([RowText] with [PlainTexts]), DataFusion's run of a SELECT
    ([run_sql], [select_sound]), the author and comment of a
    transaction ([note_of]) and the persist tier's answer to a snapshot
    cycle ([cold_log]).  The Demo modules instantiate all of them.

    ** Not modelled

    Delete and rename of a branch; persists, snapshots and purges of a fork after
    its creation (its clients' operations are modelled); the catalog rows a fork
    copies; the primary-key columns a tombstone carries; failure cleanup of
    persist; the resolution of retention settings; creating, renaming and
    dropping whole catalogs; the list endpoints; dropping the log tables of a
    deleted table; the planning and classification of SQL statements and their
    result streams, which are DataFusion's and the gateway's; the gRPC server's
    checks of identifiers and names; the lifecycle scheduler (timers); the file
    formats; the content digests of files; caches, deadlines and metrics. *)

From stdpp Require Import base numbers list gmap option sorting.


(** ** Machine integers

    The Rust code keeps every watermark, timestamp and sequence number in an
    [i64].  The model keeps them in [Z]; the bounds and the saturating
    operations are written out where the source uses them. *)

Definition I64_MAX : Z := 9223372036854775807.
Definition I64_MIN : Z := -9223372036854775808.

Definition in_i64 (z : Z) : Prop := (I64_MIN ≤ z ≤ I64_MAX)%Z.

(** The wrapping arithmetic of a release build. *)
Definition wrap_i64 (z : Z) : Z := ((z - I64_MIN) mod (2 ^ 64) + I64_MIN)%Z.

(** [i64::saturating_add] / [i64::saturating_sub]. *)
Definition clamp_i64 (z : Z) : Z := Z.max I64_MIN (Z.min I64_MAX z).
Definition sat_add (a b : Z) : Z := clamp_i64 (a + b).
Definition sat_sub (a b : Z) : Z := clamp_i64 (a - b).

(** ** Automation *)

Create HintDb penca discriminated.

Ltac i64 := unfold sat_add, sat_sub, clamp_i64, in_i64, I64_MAX, I64_MIN in *; lia.

(** Boolean tests on [Z] turned into the propositions [lia] understands. *)
Ltac zbool :=
  repeat match goal with
  | H : (_ && _)%bool = true |- _ => apply andb_prop in H; destruct H
  | H : (_ && _)%bool = false |- _ => apply andb_false_iff in H
  | H : (_ || _)%bool = true |- _ => apply orb_true_iff in H
  | H : (_ || _)%bool = false |- _ => apply orb_false_iff in H; destruct H
  | H : negb _ = true |- _ => apply negb_true_iff in H
  | H : negb _ = false |- _ => apply negb_false_iff in H
  | H : (_ <? _)%Z = true |- _ => apply Z.ltb_lt in H
  | H : (_ <? _)%Z = false |- _ => apply Z.ltb_ge in H
  | H : (_ <=? _)%Z = true |- _ => apply Z.leb_le in H
  | H : (_ <=? _)%Z = false |- _ => apply Z.leb_gt in H
  | H : (_ =? _)%Z = true |- _ => apply Z.eqb_eq in H
  | H : (_ =? _)%Z = false |- _ => apply Z.eqb_neq in H
  end.

Lemma sat_add_exact (a b : Z) : in_i64 (a + b) → sat_add a b = (a + b)%Z.
Proof. i64. Qed.

Lemma sat_add_in (a b : Z) : in_i64 (sat_add a b).
Proof. i64. Qed.

Lemma sat_add_1_lt (t m : Z) :
  in_i64 t → in_i64 m → t ≠ I64_MAX → (m < sat_add t 1)%Z ↔ (m ≤ t)%Z.
Proof. i64. Qed.

#[export] Hint Resolve sat_add_in : penca.

(** ** Optional bounds

    SQL [MAX] / [MIN] aggregates over a possibly empty set: [None] is the
    SQL [NULL]. *)

Definition omax (a b : option Z) : option Z :=
  match a, b with
  | Some x, Some y => Some (Z.max x y)
  | Some x, None => Some x
  | None, o => o
  end.

Definition omin (a b : option Z) : option Z :=
  match a, b with
  | Some x, Some y => Some (Z.min x y)
  | Some x, None => Some x
  | None, o => o
  end.

Definition zmax_list (l : list Z) : option Z := foldr (λ x acc, omax (Some x) acc) None l.
Definition zmin_list (l : list Z) : option Z := foldr (λ x acc, omin (Some x) acc) None l.

Lemma zmax_list_None l : zmax_list l = None ↔ l = [].
Proof. destruct l as [|x l]; simpl; [done|]. destruct (zmax_list l); done. Qed.

Lemma zmin_list_None l : zmin_list l = None ↔ l = [].
Proof. destruct l as [|x l]; simpl; [done|]. destruct (zmin_list l); done. Qed.

Lemma zmax_list_Some l m :
  zmax_list l = Some m ↔ m ∈ l ∧ ∀ x, x ∈ l → (x ≤ m)%Z.
Proof.
  revert m; induction l as [|y l IH]; intros m; simpl.
  - split; [done|]. intros [H _]; by apply not_elem_of_nil in H.
  - destruct (zmax_list l) as [k|] eqn:E; simpl.
    + destruct (proj1 (IH k) eq_refl) as [Hk Hle]. split.
      * intros [= <-]. split.
        -- destruct (Z.max_spec y k) as [[_ ->]|[_ ->]]; set_solver.
        -- intros x [->|Hx]%elem_of_cons; [lia|]. specialize (Hle x Hx). lia.
      * intros [[->|Hm]%elem_of_cons Hall].
        -- f_equal. specialize (Hall k ltac:(set_solver)). lia.
        -- f_equal. pose proof (Hle m Hm). pose proof (Hall y ltac:(set_solver)).
           pose proof (Hall k ltac:(set_solver)). lia.
    + apply zmax_list_None in E as ->. split.
      * intros [= ->]. split; [set_solver|]. intros x ->%list_elem_of_singleton; lia.
      * intros [->%list_elem_of_singleton _]; done.
Qed.

Lemma zmin_list_Some l m :
  zmin_list l = Some m ↔ m ∈ l ∧ ∀ x, x ∈ l → (m ≤ x)%Z.
Proof.
  revert m; induction l as [|y l IH]; intros m; simpl.
  - split; [done|]. intros [H _]; by apply not_elem_of_nil in H.
  - destruct (zmin_list l) as [k|] eqn:E; simpl.
    + destruct (proj1 (IH k) eq_refl) as [Hk Hle]. split.
      * intros [= <-]. split.
        -- destruct (Z.min_spec y k) as [[_ ->]|[_ ->]]; set_solver.
        -- intros x [->|Hx]%elem_of_cons; [lia|]. specialize (Hle x Hx). lia.
      * intros [[->|Hm]%elem_of_cons Hall].
        -- f_equal. specialize (Hall k ltac:(set_solver)). lia.
        -- f_equal. pose proof (Hle m Hm). pose proof (Hall y ltac:(set_solver)).
           pose proof (Hall k ltac:(set_solver)). lia.
    + apply zmin_list_None in E as ->. split.
      * intros [= ->]. split; [set_solver|]. intros x ->%list_elem_of_singleton; lia.
      * intros [->%list_elem_of_singleton _]; done.
Qed.

(** ** Lists with a unique key *)

Lemma NoDup_fmap_eq {A B} (f : A → B) (l : list A) x y :
  NoDup (f <$> l) → x ∈ l → y ∈ l → f x = f y → x = y.
Proof.
  intros Hnd [i Hi]%list_elem_of_lookup [j Hj]%list_elem_of_lookup Heq.
  assert (i = j) as ->; [|congruence].
  eapply NoDup_lookup; [exact Hnd| |]; rewrite list_lookup_fmap; [rewrite Hi|rewrite Hj];
    simpl; by rewrite ?Heq.
Qed.

Lemma NoDup_fmap_filter {A B} (f : A → B) (P : A → Prop) `{!∀ x, Decision (P x)} (l : list A) :
  NoDup (f <$> l) → NoDup (f <$> filter P l).
Proof.
  induction l as [|x l IH]; simpl; [done|]. rewrite NoDup_cons, filter_cons.
  intros [Hx Hl]. case_decide; [|by apply IH]. simpl. constructor; [|by apply IH].
  intros (y & Hy & [_ Hin]%list_elem_of_filter)%list_elem_of_fmap.
  apply Hx, list_elem_of_fmap. eauto.
Qed.

(** ** Enumeration *)

Lemma filter_all {A} (P : A → Prop) `{!∀ x, Decision (P x)} (l : list A) : (∀ x, x ∈ l → P x) → filter P l = l.
Proof.
  induction l as [|x l IH]; intros Hp; [done|]. rewrite filter_cons_True by (apply Hp; by left).
  rewrite IH; [done|]. intros y Hy. apply Hp. by right.
Qed.

Lemma elem_of_imap_pair {A} (l : list A) (i : nat) (x : A) : (i, x) ∈ imap pair l ↔ l !! i = Some x.
Proof.
  rewrite list_elem_of_lookup. split.
  - intros [k Hk]. rewrite list_lookup_imap in Hk.
    destruct (l !! k) eqn:E; simplify_eq/=. done.
  - intros Hi. exists i. rewrite list_lookup_imap, Hi. done.
Qed.

(** ** Fallible code *)

Inductive result (E A : Type) := Ok (a : A) | Err (e : E).
Arguments Ok {E A}. Arguments Err {E A}.

Definition result_bind {E A B} (r : result E A) (f : A → result E B) : result E B :=
  match r with Ok a => f a | Err e => Err e end.

Declare Scope result_scope.
Delimit Scope result_scope with result.
Notation "'let?' x ':=' r 'in' k" := (result_bind r (λ x, k))
  (at level 200, x binder, r at level 100, k at level 200) : result_scope.

(** ** Sorting and deduplication *)

(** [Vec::dedup]: drop consecutive repeats. *)
Fixpoint vec_dedup (l : list Z) : list Z :=
  match l with
  | [] => []
  | x :: l' => match l' with
               | [] => [x]
               | y :: _ => if decide (x = y) then vec_dedup l' else x :: vec_dedup l'
               end
  end.

Lemma elem_of_vec_dedup l x : x ∈ vec_dedup l ↔ x ∈ l.
Proof.
  induction l as [|y [|z l] IH]; [done|done|].
  cbn [vec_dedup]. case_decide as H; [subst|]; rewrite elem_of_cons, ?IH.
  - set_solver.
  - set_solver.
Qed.

Lemma vec_dedup_sorted l : StronglySorted Z.le l → StronglySorted Z.lt (vec_dedup l).
Proof.
  induction l as [|y [|z l] IH]; intros Hs; [constructor|repeat constructor|].
  cbn [vec_dedup]. inversion Hs as [|? ? Hs' Hall]; subst.
  case_decide; [by apply IH|]. constructor; [by apply IH|].
  apply Forall_forall. intros x Hx. apply (proj1 (elem_of_vec_dedup (z :: l) x)) in Hx.
  inversion Hs' as [|? ? Hs'' Hall']; subst. rewrite !Forall_forall in Hall, Hall'.
  assert (y ≤ z)%Z by (apply Hall; set_solver).
  assert (z ≤ x)%Z by (apply elem_of_cons in Hx as [->|?]; [lia|auto]). lia.
Qed.

(** Rows taken at strictly ascending positions form a sublist. *)
Lemma mapM_lookup_sublist {A} (l : list A) : ∀ (idxs : list nat) rows,
  StronglySorted lt idxs → mapM (λ i, l !! i) idxs = Some rows → rows `sublist_of` l.
Proof.
  induction l as [|x l IH]; intros idxs rows Hs Hm.
  { apply mapM_Some in Hm. destruct Hm as [|? ? ? ? Hx _]; [constructor|].
    by rewrite lookup_nil in Hx. }
  assert (∀ js rs, StronglySorted lt js → Forall (λ j, (0 < j)%nat) js →
            mapM (λ i, (x :: l) !! i) js = Some rs → rs `sublist_of` l) as Hpos.
  { intros js rs Hjs Hp Hr. apply (IH (pred <$> js)).
    - clear Hr. induction Hjs as [|j js Hjs IHj Hall]; simpl; constructor.
      + apply IHj. by inversion Hp.
      + inversion Hp as [|? ? Hj Hp']; subst. rewrite Forall_forall in *.
        intros k (k' & -> & Hk')%list_elem_of_fmap.
        specialize (Hall k' Hk'). specialize (Hp' k' Hk'). lia.
    - apply mapM_Some in Hr. apply mapM_Some.
      induction Hr as [|j r js rs Hjr Hr IHr]; simpl; constructor.
      + inversion Hp; subst. by destruct j; [lia|].
      + apply IHr; [by inversion Hjs|by inversion Hp]. }
  destruct idxs as [|[|i] idxs].
  - injection Hm as <-. apply sublist_nil_l.
  - inversion Hs as [|? ? Hs' Hall]; subst. apply mapM_Some in Hm.
    inversion Hm as [|? r ? rs Hr Hrs]; subst. simplify_eq/=.
    apply sublist_skip. apply (Hpos idxs); [done|done|by apply mapM_Some].
  - inversion Hs as [|? ? Hs' Hall]; subst. apply sublist_cons. apply (Hpos (S i :: idxs)); [done| |done].
    constructor; [lia|]. eapply Forall_impl; [exact Hall|]. simpl. lia.
Qed.
