(* ===== verification/CoreTypes.v ===== *)
(** * Closed-set enums and the canonical column types (penca-core/src/log_kind.rs,
      penca-core/src/format.rs, penca-core/src/types/mod.rs) *)

From S2P Require Import Prelude.
From stdpp Require Import base numbers list option strings.

Open Scope Z_scope.

(** ** Log kinds and storage formats *)

Inductive LogKind := UpsertLog | DeleteLog.

#[export] Instance LogKind_eq_dec : EqDecision LogKind.
Proof. solve_decision. Defined.

Definition log_kind_as_str (k : LogKind) : string :=
  match k with
  | UpsertLog => "upsert_log"
  | DeleteLog => "delete_log"
  end.

(** The error carries the offending text. *)
Definition log_kind_from_str (s : string) : result string LogKind :=
  if decide (s = "upsert_log") then Ok UpsertLog
  else if decide (s = "delete_log") then Ok DeleteLog
  else Err s.

Inductive Format := Lance | Parquet.

#[export] Instance Format_eq_dec : EqDecision Format.
Proof. solve_decision. Defined.

Definition extension (f : Format) : string :=
  match f with Lance => "lance" | Parquet => "parquet" end.

Definition as_wire_code (f : Format) : Z :=
  match f with Lance => 1 | Parquet => 2 end.

Definition format_from_str (s : string) : result string Format :=
  if decide (s = "lance") then Ok Lance
  else if decide (s = "parquet") then Ok Parquet
  else Err s.

Definition format_from_wire_code (code : Z) : result Z Format :=
  if code =? 1 then Ok Lance
  else if code =? 2 then Ok Parquet
  else Err code.

(** ** Arrow data types

    The part of Arrow's [DataType] the registry distinguishes; the types outside
    the supported set are collapsed into [OtherType]. *)

Inductive TimeUnit := Second | Millisecond | Microsecond | Nanosecond.

#[export] Instance TimeUnit_eq_dec : EqDecision TimeUnit.
Proof. solve_decision. Defined.

(** A list child field: its name, type and nullability. *)
Inductive DataType :=
  | DtInt8 | DtInt16 | DtInt32 | DtInt64
  | DtUInt8 | DtUInt16 | DtUInt32 | DtUInt64
  | DtFloat16 | DtFloat32 | DtFloat64
  | DtBoolean
  | DtUtf8 | DtLargeUtf8 | DtUtf8View
  | DtBinary | DtLargeBinary | DtBinaryView
  | DtDecimal128 (precision scale : Z)
  | DtDecimal256 (precision scale : Z)
  | DtDate32 | DtDate64
  | DtTime32 (unit : TimeUnit) | DtTime64 (unit : TimeUnit)
  | DtTimestamp (unit : TimeUnit) (tz : option string)
  | DtList (name : string) (item : DataType) (nullable : bool)
  | DtLargeList (name : string) (item : DataType) (nullable : bool)
  | DtFixedSizeList (name : string) (item : DataType) (nullable : bool) (len : Z)
  | OtherType (tag : Z).

Inductive CanonicalType :=
  | CInt8 | CInt16 | CInt32 | CInt64
  | CUInt8 | CUInt16 | CUInt32 | CUInt64
  | CFloat16 | CFloat32 | CFloat64
  | CBoolean
  | CUtf8 | CLargeUtf8 | CUtf8View
  | CBinary | CLargeBinary | CBinaryView
  | CDecimal128 (precision scale : Z)
  | CDecimal256 (precision scale : Z)
  | CDate32 | CDate64
  | CTime32 (unit : TimeUnit) | CTime64 (unit : TimeUnit)
  | CTimestamp (unit : TimeUnit) (tz : option string)
  | CList (child : CanonicalType)
  | CLargeList (child : CanonicalType)
  | CFixedSizeList (child : CanonicalType) (len : Z).

Definition is_scalar (c : CanonicalType) : bool :=
  match c with CList _ | CLargeList _ | CFixedSizeList _ _ => false | _ => true end.

(** [scalar_child]: the error names the parent type. *)
Definition scalar_child (parent : DataType) (child : result DataType CanonicalType) :
    result DataType CanonicalType :=
  match child with
  | Err _ => Err parent
  | Ok c => if is_scalar c then Ok c else Err parent
  end.

Definition map_ok {E A B} (f : A → B) (r : result E A) : result E B :=
  match r with Ok a => Ok (f a) | Err e => Err e end.

Fixpoint from_arrow (dt : DataType) : result DataType CanonicalType :=
  match dt with
  | DtInt8 => Ok CInt8 | DtInt16 => Ok CInt16 | DtInt32 => Ok CInt32 | DtInt64 => Ok CInt64
  | DtUInt8 => Ok CUInt8 | DtUInt16 => Ok CUInt16 | DtUInt32 => Ok CUInt32 | DtUInt64 => Ok CUInt64
  | DtFloat16 => Ok CFloat16 | DtFloat32 => Ok CFloat32 | DtFloat64 => Ok CFloat64
  | DtBoolean => Ok CBoolean
  | DtUtf8 => Ok CUtf8 | DtLargeUtf8 => Ok CLargeUtf8 | DtUtf8View => Ok CUtf8View
  | DtBinary => Ok CBinary | DtLargeBinary => Ok CLargeBinary | DtBinaryView => Ok CBinaryView
  | DtDecimal128 p s => if (1 <=? p) && (p <=? 38) then Ok (CDecimal128 p s) else Err dt
  | DtDecimal256 p s => if (1 <=? p) && (p <=? 76) then Ok (CDecimal256 p s) else Err dt
  | DtDate32 => Ok CDate32 | DtDate64 => Ok CDate64
  | DtTime32 u => Ok (CTime32 u) | DtTime64 u => Ok (CTime64 u)
  | DtTimestamp u tz => Ok (CTimestamp u tz)
  | DtList _ item _ => map_ok CList (scalar_child dt (from_arrow item))
  | DtLargeList _ item _ => map_ok CLargeList (scalar_child dt (from_arrow item))
  | DtFixedSizeList _ item _ len =>
      map_ok (λ c, CFixedSizeList c len) (scalar_child dt (from_arrow item))
  | OtherType _ => Err dt
  end.

Fixpoint to_arrow (c : CanonicalType) : DataType :=
  match c with
  | CInt8 => DtInt8 | CInt16 => DtInt16 | CInt32 => DtInt32 | CInt64 => DtInt64
  | CUInt8 => DtUInt8 | CUInt16 => DtUInt16 | CUInt32 => DtUInt32 | CUInt64 => DtUInt64
  | CFloat16 => DtFloat16 | CFloat32 => DtFloat32 | CFloat64 => DtFloat64
  | CBoolean => DtBoolean
  | CUtf8 => DtUtf8 | CLargeUtf8 => DtLargeUtf8 | CUtf8View => DtUtf8View
  | CBinary => DtBinary | CLargeBinary => DtLargeBinary | CBinaryView => DtBinaryView
  | CDecimal128 p s => DtDecimal128 p s
  | CDecimal256 p s => DtDecimal256 p s
  | CDate32 => DtDate32 | CDate64 => DtDate64
  | CTime32 u => DtTime32 u | CTime64 u => DtTime64 u
  | CTimestamp u tz => DtTimestamp u tz
  | CList child => DtList "item" (to_arrow child) true
  | CLargeList child => DtLargeList "item" (to_arrow child) true
  | CFixedSizeList child len => DtFixedSizeList "item" (to_arrow child) true len
  end.

Definition is_prunable (c : CanonicalType) : bool :=
  match c with
  | CInt8 | CInt16 | CInt32 | CInt64 | CUInt8 | CUInt16 | CUInt32 | CUInt64
  | CFloat16 | CFloat32 | CFloat64 | CBoolean | CUtf8
  | CDecimal128 _ _ | CDecimal256 _ _ | CDate32 | CDate64
  | CTime32 _ | CTime64 _ | CTimestamp _ _ => true
  | CLargeUtf8 | CUtf8View | CBinary | CLargeBinary | CBinaryView
  | CList _ | CLargeList _ | CFixedSizeList _ _ => false
  end.

Definition fixed_width_bytes (c : CanonicalType) : option Z :=
  match c with
  | CBoolean | CInt8 | CUInt8 => Some (1 + 1)
  | CInt16 | CUInt16 | CFloat16 => Some (2 + 1)
  | CInt32 | CUInt32 | CFloat32 | CDate32 | CTime32 _ => Some (4 + 1)
  | CInt64 | CUInt64 | CFloat64 | CDate64 | CTime64 _ | CTimestamp _ _ => Some (8 + 1)
  | CDecimal128 _ _ => Some (16 + 1)
  | CDecimal256 _ _ => Some (32 + 1)
  | CUtf8 | CLargeUtf8 | CUtf8View | CBinary | CLargeBinary | CBinaryView
  | CList _ | CLargeList _ | CFixedSizeList _ _ => None
  end.

(** ** Properties *)

(** Canonical types as [from_arrow] builds them: decimals in Arrow's precision
    range, list children scalar. *)
Fixpoint canonical (c : CanonicalType) : Prop :=
  match c with
  | CDecimal128 p _ => 1 ≤ p ≤ 38
  | CDecimal256 p _ => 1 ≤ p ≤ 76
  | CList child | CLargeList child | CFixedSizeList child _ =>
      is_scalar child = true ∧ canonical child
  | _ => True
  end.

Lemma scalar_child_Ok parent r c :
  scalar_child parent r = Ok c ↔ r = Ok c ∧ is_scalar c = true.
Proof.
  unfold scalar_child. destruct r as [c'|e]; [|by split; [|intros [? _]]].
  destruct (is_scalar c') eqn:E; split; [intros [= ->]|intros [[= ->] ?]|intros [=]|intros [[= ->] ?]]; auto; congruence.
Qed.

Lemma map_ok_Ok {E A B} (f : A → B) (r : result E A) b :
  map_ok f r = Ok b ↔ ∃ a, r = Ok a ∧ b = f a.
Proof. destruct r; simpl; naive_solver. Qed.

(** Support is decided once: every type [from_arrow] accepts is canonical
    (in-range decimals, single-level lists), converting it back and classifying
    it again gives the same type, and on scalar types the round trip through
    Arrow is the identity on the declared type itself. *)
Theorem from_arrow_roundtrip (dt : DataType) (c : CanonicalType)
    (H : from_arrow dt = Ok c) :
  canonical c ∧ from_arrow (to_arrow c) = Ok c ∧ (is_scalar c = true → to_arrow c = dt).
Proof.
  revert c H. induction dt; intros c H; simpl in H; simplify_eq/=; try by auto.
  1,2: destruct (_ && _) eqn:E; simplify_eq/=; rewrite E; zbool; auto.
  all: apply map_ok_Ok in H as (child & [Hc Hs]%scalar_child_Ok & ->).
  all: destruct (IHdt child Hc) as (Hcan & Hrt & _); simpl; split; [auto|].
  all: split; [|done]; by rewrite Hrt; simpl; rewrite Hs.
Qed.

Lemma from_arrow_roundtrip_witness :
  from_arrow (DtList "xs" (DtDecimal128 10 2) false) = Ok (CList (CDecimal128 10 2)) ∧
  from_arrow (to_arrow (CList (CDecimal128 10 2))) = Ok (CList (CDecimal128 10 2)).
Proof.
  split; [reflexivity|].
  apply (from_arrow_roundtrip (DtList "xs" (DtDecimal128 10 2) false)). reflexivity.
Defined.

(** The text and wire forms of the closed-set enums round-trip, and parsing
    accepts nothing else: an unknown log kind, extension or wire code is an
    error carrying the offending value, never a default. *)
Theorem closed_set_roundtrips :
  (∀ k, log_kind_from_str (log_kind_as_str k) = Ok k) ∧
  (∀ s k, log_kind_from_str s = Ok k → s = log_kind_as_str k) ∧
  (∀ f, format_from_str (extension f) = Ok f) ∧
  (∀ s f, format_from_str s = Ok f → s = extension f) ∧
  (∀ f, format_from_wire_code (as_wire_code f) = Ok f) ∧
  (∀ n f, format_from_wire_code n = Ok f → n = as_wire_code f) ∧
  (∀ s, (∀ k, s ≠ log_kind_as_str k) → log_kind_from_str s = Err s) ∧
  (∀ n, (∀ f, n ≠ as_wire_code f) → format_from_wire_code n = Err n).
Proof.
  unfold log_kind_from_str, format_from_str, format_from_wire_code.
  split_and!.
  - by intros [].
  - intros s k. repeat case_decide; naive_solver.
  - by intros [].
  - intros s f. repeat case_decide; naive_solver.
  - by intros [].
  - intros n f. destruct (Z.eqb_spec n 1), (Z.eqb_spec n 2); naive_solver.
  - intros s Hs. rewrite !decide_False; [done|apply (Hs DeleteLog)|apply (Hs UpsertLog)].
  - intros n Hn. destruct (Z.eqb_spec n 1) as [->|]; [by destruct (Hn Lance)|].
    destruct (Z.eqb_spec n 2) as [->|]; [by destruct (Hn Parquet)|done].
Qed.
