(* ===== verification/Naming.v ===== *)
(** * Derived names (penca-core/src/naming/{uuids,tables,uris}.rs)

    The deterministic identities: every derived uuid is a 128-bit hash of the
    [\x00]-joined text of its parts.  The hash is a parameter; what the source
    itself contributes is that the hashed texts of different objects differ, and
    that the Postgres names stay apart after the truncation to 63 bytes. *)

From S2P Require Import Prelude CoreTypes.
From Stdlib Require Import Ascii.
From stdpp Require Import base numbers list option strings pretty countable.

Open Scope string_scope.
Open Scope Z_scope.

(** ** Joining *)

Definition NUL : ascii := Ascii.Ascii false false false false false false false false.

(** [parts.join(sep)] *)
Fixpoint join_with (sep : ascii) (parts : list string) : string :=
  match parts with
  | [] => ""
  | [p] => p
  | p :: rest => p +:+ String sep (join_with sep rest)
  end.

Notation join_nul := (join_with NUL).

(** The parts of a joined text. *)
Fixpoint split_on (sep : ascii) (s : string) : list string :=
  match s with
  | "" => [""]
  | String a r =>
      if decide (a = sep) then "" :: split_on sep r
      else match split_on sep r with p :: ps => String a p :: ps | [] => [String a ""] end
  end.

Fixpoint count_char (c : ascii) (s : string) : nat :=
  match s with
  | "" => 0
  | String a r => (if decide (a = c) then 1 else 0) + count_char c r
  end.

(** [s] has no [c] in it. *)
Definition lacks (c : ascii) (s : string) : Prop := count_char c s = 0%nat.

#[export] Instance lacks_dec c s : Decision (lacks c s).
Proof. unfold lacks. apply _. Defined.

(** ** The text of a uuid *)

Definition hex_digit (z : Z) : ascii :=
  match z with
  | 0 => "0" | 1 => "1" | 2 => "2" | 3 => "3" | 4 => "4" | 5 => "5" | 6 => "6" | 7 => "7"
  | 8 => "8" | 9 => "9" | 10 => "a" | 11 => "b" | 12 => "c" | 13 => "d" | 14 => "e" | _ => "f"
  end%char.

(** The [k] low hexadecimal digits of [z]. *)
Fixpoint hex_fixed (k : nat) (z : Z) (acc : string) : string :=
  match k with
  | O => acc
  | S k => hex_fixed k (z / 16) (String (hex_digit (z mod 16)) acc)
  end.

Definition is_u128 (z : Z) : Prop := 0 ≤ z < 2 ^ 128.

(** The hyphenated lower-case form, 8-4-4-4-12 digits.  The model lets a hash
    take any integer value; outside the 128 bits the text is some other one. *)
Definition uuid_to_string (u : Z) : string :=
  if decide (is_u128 u) then
    hex_fixed 8 (u / 2 ^ 96) (String "-" (hex_fixed 4 (u / 2 ^ 80) (String "-" (hex_fixed 4 (u / 2 ^ 64)
      (String "-" (hex_fixed 4 (u / 2 ^ 48) (String "-" (hex_fixed 12 u ""))))))))
  else "u128:" +:+ pretty u.

(** ** Derived uuids *)

(** [xxh3_128] of the bytes of a text. *)
Class ContentHash := xxh3_128 : string → Z.

(** No two of the given texts share a hash.  A user of derived uuids relies on it
    for the texts it hashes; no 128-bit hash has it for all texts. *)
Class CollisionFree (H : ContentHash) (texts : string → Prop) : Prop :=
  xxh3_inj : ∀ a b, texts a → texts b → xxh3_128 a = xxh3_128 b → a = b.

Definition SYSTEM_SCHEMA_NAME : string := "__penca_system__".

Section uuids.
Context {H : ContentHash}.

Definition deterministic_uuid_from (parts : list string) : Z := xxh3_128 (join_nul parts).

Definition row_uuid_for_pk (table_uuid : Z) (pk_values : list string) : Z :=
  deterministic_uuid_from (uuid_to_string table_uuid :: pk_values).

Definition version_uuid (row_uuid tx_uuid : Z) : Z :=
  deterministic_uuid_from [uuid_to_string row_uuid; uuid_to_string tx_uuid].

Definition genesis_tx_uuid (catalog_uuid : Z) : Z :=
  deterministic_uuid_from [uuid_to_string catalog_uuid].

Definition system_schema_uuid (catalog_uuid : Z) : Z :=
  deterministic_uuid_from [uuid_to_string catalog_uuid; SYSTEM_SCHEMA_NAME].

Definition system_schemas_table_uuid (catalog_uuid : Z) : Z :=
  deterministic_uuid_from [uuid_to_string catalog_uuid; "__penca_system__.schemas"].

Definition system_tables_table_uuid (catalog_uuid : Z) : Z :=
  deterministic_uuid_from [uuid_to_string catalog_uuid; "__penca_system__.tables"].

Definition system_indexes_table_uuid (catalog_uuid : Z) : Z :=
  deterministic_uuid_from [uuid_to_string catalog_uuid; "__penca_system__.indexes"].

Definition system_name_index_uuid (system_table_uuid : Z) : Z :=
  row_uuid_for_pk system_table_uuid ["name_index"].

Definition table_persist_uuid (catalog_uuid branch_uuid table_uuid persisted_at_micros : Z) (log_kind : LogKind) : Z :=
  row_uuid_for_pk catalog_uuid
    [uuid_to_string branch_uuid; uuid_to_string table_uuid; pretty persisted_at_micros; log_kind_as_str log_kind].

Definition purge_anchor (catalog_uuid : Z) : Z :=
  deterministic_uuid_from [uuid_to_string catalog_uuid; "purge"].

Definition table_purge_uuid (catalog_uuid branch_uuid table_uuid pu_seq pa_seq : Z) : Z :=
  row_uuid_for_pk (purge_anchor catalog_uuid)
    [uuid_to_string branch_uuid; uuid_to_string table_uuid; pretty pu_seq; pretty pa_seq].

Definition table_persist_segment_uuid (table_persist_uuid chunk_idx : Z) : Z :=
  row_uuid_for_pk table_persist_uuid [pretty chunk_idx].

Definition tx_log_persist_anchor (catalog_uuid : Z) : Z :=
  deterministic_uuid_from [uuid_to_string catalog_uuid; "tx_log_persist"].

Definition tx_log_persist_segment_uuid (catalog_uuid branch_uuid max_commit_seq_num : Z) : Z :=
  row_uuid_for_pk (tx_log_persist_anchor catalog_uuid) [uuid_to_string branch_uuid; pretty max_commit_seq_num].

Definition table_snapshot_uuid (catalog_uuid branch_uuid table_uuid snapshotted_at_micros : Z) : Z :=
  row_uuid_for_pk catalog_uuid
    [uuid_to_string branch_uuid; uuid_to_string table_uuid; pretty snapshotted_at_micros].

Definition table_snapshot_segment_uuid (table_snapshot_uuid chunk_idx : Z) : Z :=
  row_uuid_for_pk table_snapshot_uuid [pretty chunk_idx].

(** The discriminator of an index: its uuid, or [row_uuid] for the identity index. *)
Definition index_disc (index_uuid : option Z) : string :=
  match index_uuid with Some uuid => uuid_to_string uuid | None => "row_uuid" end.

Definition table_snapshot_index_uuid (table_snapshot_uuid : Z) (index_uuid : option Z) : Z :=
  row_uuid_for_pk table_snapshot_uuid [index_disc index_uuid].

End uuids.

(** ** Postgres names *)

(** The per-catalog tables, by the constant that is their suffix. *)
Inductive base_table :=
  | COMMIT_TX_LOG | BEGIN_TX_LOG | ABORT_TX_LOG | TX_TABLE_LOG | COMMIT_TX_LOG_SEQ_NUM | ABORT_SEQ_NUM
  | TABLE_PERSIST_METADATA | TABLE_PERSIST_SEGMENT_METADATA | TX_LOG_PERSIST_SEGMENT_METADATA
  | TABLE_PURGE_METADATA | TABLE_SNAPSHOT_METADATA | TABLE_SNAPSHOT_SEGMENT_METADATA
  | COMPACT_SEGMENT_METADATA | SEGMENT_DELETE_SET | TABLE_SNAPSHOT_INDEX_METADATA
  | TABLE_SNAPSHOT_SEGMENT_INDEX_METADATA | BRANCH_STORE.

#[export] Instance base_table_eq_dec : EqDecision base_table.
Proof. solve_decision. Defined.

Definition tag_text (t : base_table) : string :=
  match t with
  | COMMIT_TX_LOG => "commit_tx_log"
  | BEGIN_TX_LOG => "begin_tx_log"
  | ABORT_TX_LOG => "abort_tx_log"
  | TX_TABLE_LOG => "tx_table_log"
  | COMMIT_TX_LOG_SEQ_NUM => "commit_tx_log_seq_num"
  | ABORT_SEQ_NUM => "abort_seq_num"
  | TABLE_PERSIST_METADATA => "table_persist_metadata"
  | TABLE_PERSIST_SEGMENT_METADATA => "table_persist_segment_metadata"
  | TX_LOG_PERSIST_SEGMENT_METADATA => "tx_log_persist_segment_metadata"
  | TABLE_PURGE_METADATA => "table_purge_metadata"
  | TABLE_SNAPSHOT_METADATA => "table_snapshot_metadata"
  | TABLE_SNAPSHOT_SEGMENT_METADATA => "table_snapshot_segment_metadata"
  | COMPACT_SEGMENT_METADATA => "compact_segment_metadata"
  | SEGMENT_DELETE_SET => "segment_delete_set"
  | TABLE_SNAPSHOT_INDEX_METADATA => "table_snapshot_index_metadata"
  | TABLE_SNAPSHOT_SEGMENT_INDEX_METADATA => "table_snapshot_segment_index_metadata"
  | BRANCH_STORE => "branch_store"
  end.

Section tables.
Context {H : ContentHash}.

(** [{catalog_uuid}_{tag}] *)
Definition parent_table (catalog_uuid : Z) (t : base_table) : string :=
  uuid_to_string catalog_uuid +:+ "_" +:+ tag_text t.

Definition data_object_prefix (table_uuid branch_uuid : Z) : Z :=
  row_uuid_for_pk table_uuid [uuid_to_string branch_uuid].

Definition data_log_table (table_uuid branch_uuid : Z) (kind : LogKind) : string :=
  uuid_to_string (data_object_prefix table_uuid branch_uuid) +:+ "_data_" +:+ log_kind_as_str kind.

Definition write_sequence (table_uuid branch_uuid : Z) : string :=
  uuid_to_string (data_object_prefix table_uuid branch_uuid) +:+ "_data_write_seq".

Definition partition_uuid (catalog_uuid branch_uuid : Z) (t : base_table) : Z :=
  row_uuid_for_pk catalog_uuid [uuid_to_string branch_uuid; tag_text t].

Definition partition_name (catalog_uuid branch_uuid : Z) (t : base_table) : string :=
  uuid_to_string (partition_uuid catalog_uuid branch_uuid t) +:+ "_" +:+ tag_text t +:+ "_partition".

(** The built-in name index of the three system tables. *)
Definition system_name_index_spec (catalog_uuid table_uuid : Z) : option (Z * list string) :=
  (λ key_columns, (system_name_index_uuid table_uuid, key_columns)) <$>
  if decide (table_uuid = system_schemas_table_uuid catalog_uuid) then Some ["schema_name"]
  else if decide (table_uuid = system_tables_table_uuid catalog_uuid) then Some ["schema_uuid"; "table_name"]
  else if decide (table_uuid = system_indexes_table_uuid catalog_uuid) then Some ["table_uuid"; "index_name"]
  else None.

End tables.

(** Postgres keeps the first 63 bytes of an identifier. *)
Definition pg_truncate (name : string) : string := String.substring 0 63 name.

(** ** Cold file names *)

Section uris.
Context (base_uri : string).

Definition segment_uri (catalog_uuid branch_uuid : Z) (kind : string) (parent_uuid segment_uuid : Z) (ext : string) : string :=
  base_uri +:+ "/" +:+ uuid_to_string catalog_uuid +:+ "/" +:+ uuid_to_string branch_uuid +:+ "/" +:+ kind +:+ "/" +:+
  uuid_to_string parent_uuid +:+ "/" +:+ uuid_to_string segment_uuid +:+ "/data." +:+ ext.

Definition persist_segment_uri (catalog_uuid branch_uuid table_persist_uuid segment_uuid : Z) (ext : string) : string :=
  segment_uri catalog_uuid branch_uuid "persist" table_persist_uuid segment_uuid ext.

Definition tx_log_persist_segment_uri (catalog_uuid branch_uuid segment_uuid : Z) (ext : string) : string :=
  base_uri +:+ "/" +:+ uuid_to_string catalog_uuid +:+ "/" +:+ uuid_to_string branch_uuid +:+ "/tx_log/" +:+
  uuid_to_string segment_uuid +:+ "/data." +:+ ext.

Definition snapshot_segment_uri (catalog_uuid branch_uuid table_snapshot_uuid segment_uuid : Z) (ext : string) : string :=
  segment_uri catalog_uuid branch_uuid "snapshot" table_snapshot_uuid segment_uuid ext.

Definition segment_index_uri (catalog_uuid branch_uuid table_snapshot_uuid segment_uuid : Z) (index_slug ext : string) : string :=
  base_uri +:+ "/" +:+ uuid_to_string catalog_uuid +:+ "/" +:+ uuid_to_string branch_uuid +:+ "/snapshot/" +:+
  uuid_to_string table_snapshot_uuid +:+ "/" +:+ uuid_to_string segment_uuid +:+ "/idx_" +:+ index_slug +:+ "." +:+ ext.

End uris.

(** ** Joined texts can be taken apart *)

Section joined.
Context (sep : ascii).
Implicit Types (s t : string) (parts xs ys : list string).

Lemma count_char_app s t : count_char sep (s +:+ t) = (count_char sep s + count_char sep t)%nat.
Proof. induction s as [|a s IH]; simpl; [done|]. rewrite IH. lia. Qed.

Lemma lacks_app s t : lacks sep (s +:+ t) ↔ lacks sep s ∧ lacks sep t.
Proof. unfold lacks. rewrite count_char_app. lia. Qed.

Lemma lacks_cons a s : lacks sep (String a s) ↔ a ≠ sep ∧ lacks sep s.
Proof. unfold lacks. simpl. destruct (decide (a = sep)); naive_solver lia. Qed.

Lemma split_lacks s : lacks sep s → split_on sep s = [s].
Proof.
  induction s as [|a s IH]; simpl; [done|]. intros [Ha Hs]%lacks_cons. rewrite decide_False by done. by rewrite IH.
Qed.

Lemma split_app s t : lacks sep s → split_on sep (s +:+ String sep t) = s :: split_on sep t.
Proof.
  induction s as [|a s IH]; simpl; [by rewrite decide_True|]. intros [Ha Hs]%lacks_cons. rewrite decide_False by done.
  by rewrite IH.
Qed.

Lemma split_join parts : parts ≠ [] → Forall (lacks sep) parts → split_on sep (join_with sep parts) = parts.
Proof.
  intros Hne Hf. induction Hf as [|p parts Hp Hf IH]; [done|]. destruct parts as [|q parts]; [by apply split_lacks|].
  change (join_with sep (p :: q :: parts)) with (p +:+ String sep (join_with sep (q :: parts))).
  rewrite split_app by done. by rewrite IH.
Qed.

Lemma join_count parts :
  parts ≠ [] → (S (count_char sep (join_with sep parts)) = length parts + sum_list (count_char sep <$> parts))%nat.
Proof.
  induction parts as [|p parts IH]; [done|]. intros _. destruct parts as [|q parts]; [simpl; lia|].
  change (join_with sep (p :: q :: parts)) with (p +:+ String sep (join_with sep (q :: parts))).
  rewrite count_char_app.
  assert (count_char sep (String sep (join_with sep (q :: parts))) = S (count_char sep (join_with sep (q :: parts)))) as ->.
  { cbn [count_char]. by rewrite decide_True. }
  rewrite IH by done. rewrite (fmap_cons _ p). simpl. lia.
Qed.

Lemma lacks_all parts : sum_list (count_char sep <$> parts) = 0%nat ↔ Forall (lacks sep) parts.
Proof.
  induction parts as [|p parts IH]; [split; [by constructor|done]|]. rewrite list.Forall_cons, <- IH. unfold lacks.
  rewrite fmap_cons. simpl. lia.
Qed.

(** One side without separators is enough when the number of parts agrees. *)
Lemma join_inj_arity xs ys :
  length xs = length ys → Forall (lacks sep) xs → join_with sep xs = join_with sep ys → xs = ys.
Proof.
  intros Hl Hx Hj. destruct (decide (xs = [])) as [->|Hne]; [by destruct ys|].
  assert (ys ≠ []) as Hne' by (by destruct ys; [destruct xs|]).
  assert (Forall (lacks sep) ys) as Hy.
  { apply lacks_all. pose proof (join_count xs Hne) as Ha. pose proof (join_count ys Hne') as Hb.
    rewrite Hj in Ha. apply lacks_all in Hx. lia. }
  rewrite <- (split_join xs), <- (split_join ys) by done. by rewrite Hj.
Qed.

Lemma join_inj xs ys :
  xs ≠ [] → ys ≠ [] → Forall (lacks sep) xs → Forall (lacks sep) ys → join_with sep xs = join_with sep ys → xs = ys.
Proof. intros ?? Hx Hy Hj. rewrite <- (split_join xs), <- (split_join ys) by done. by rewrite Hj. Qed.
End joined.

(** ** The texts of numbers and uuids *)

(** The separators of names, of paths and of SQL text: none is a digit, a letter
    of a uuid or a dash. *)
Definition separators : list ascii := [NUL; "/"; "'"; "("; ")"; "["; "]"; ","; " "]%char.

Class Separator (c : ascii) := separator : c ∈ separators.

#[export] Instance separator_nul : Separator NUL.
Proof. unfold Separator, separators. repeat constructor. Qed.
#[export] Instance separator_slash : Separator "/".
Proof. unfold Separator, separators. repeat constructor. Qed.

Ltac each_separator :=
  match goal with H : Separator ?c |- _ =>
    unfold Separator, separators in H;
    repeat (apply elem_of_cons in H as [-> | H]; [done|]); by apply elem_of_nil in H end.

Section texts.
Context (sep : ascii) `{!Separator sep}.

Lemma pretty_N_go_lacks x s : lacks sep s → lacks sep (pretty_N_go x s).
Proof.
  revert s. induction (N.lt_wf_0 x) as [x _ IH]; intros s Hs.
  destruct (decide (x = 0)%N) as [->|Hx]; [by rewrite pretty_N_go_0|].
  rewrite pretty_N_go_step by lia. apply IH; [apply N.div_lt; lia|]. apply lacks_cons. split; [|done].
  unfold pretty_N_char. repeat case_match; each_separator.
Qed.

Lemma pretty_lacks (z : Z) : lacks sep (pretty z).
Proof.
  assert (∀ x : N, lacks sep (pretty x)) as HN.
  { intros x. unfold pretty, pretty_N. destruct (decide _); [each_separator|]. by apply pretty_N_go_lacks. }
  unfold pretty, pretty_Z. destruct z as [|p|p]; [each_separator|apply HN|].
  apply lacks_app. split; [each_separator|apply HN].
Qed.

Lemma hex_fixed_lacks k z s : lacks sep s → lacks sep (hex_fixed k z s).
Proof.
  revert z s. induction k as [|k IH]; intros z s Hs; simpl; [done|]. apply IH. apply lacks_cons. split; [|done].
  unfold hex_digit. repeat case_match; each_separator.
Qed.

Lemma uuid_lacks u : lacks sep (uuid_to_string u).
Proof.
  assert (∀ s, lacks sep s → lacks sep (String "-" s)) as Hdash.
  { intros s Hs. apply lacks_cons. split; [each_separator|done]. }
  unfold uuid_to_string. destruct (decide _).
  - repeat first [apply hex_fixed_lacks|apply Hdash]. each_separator.
  - apply lacks_app. split; [each_separator|apply pretty_lacks].
Qed.

Lemma kind_lacks k : lacks sep (log_kind_as_str k).
Proof. destruct k; each_separator. Qed.

Lemma disc_lacks x : lacks sep (index_disc x).
Proof. destruct x as [u|]; [apply uuid_lacks|each_separator]. Qed.
End texts.

#[export] Hint Resolve pretty_lacks uuid_lacks kind_lacks disc_lacks : penca.

Lemma hex_digit_inj a b : 0 ≤ a < 16 → 0 ≤ b < 16 → hex_digit a = hex_digit b → a = b.
Proof.
  intros Ha Hb.
  assert (∀ z, 0 ≤ z < 16 → z = 0 ∨ z = 1 ∨ z = 2 ∨ z = 3 ∨ z = 4 ∨ z = 5 ∨ z = 6 ∨ z = 7 ∨ z = 8 ∨ z = 9 ∨ z = 10 ∨
    z = 11 ∨ z = 12 ∨ z = 13 ∨ z = 14 ∨ z = 15) as Hz by lia.
  pose proof (Hz a Ha) as Ca. pose proof (Hz b Hb) as Cb. clear Hz Ha Hb.
  repeat (destruct Ca as [->|Ca]); try subst a; repeat (destruct Cb as [->|Cb]); try subst b; (done || (intros Hd; vm_compute in Hd; discriminate)).
Qed.

Lemma length_hex_fixed k z s : String.length (hex_fixed k z s) = (k + String.length s)%nat.
Proof. revert z s. induction k as [|k IH]; intros z s; simpl; [done|]. rewrite IH. simpl. lia. Qed.

Lemma hex_fixed_inj k a b s t :
  hex_fixed k a s = hex_fixed k b t → a mod 16 ^ Z.of_nat k = b mod 16 ^ Z.of_nat k ∧ s = t.
Proof.
  revert a b s t. induction k as [|k IH]; intros a b s t Heq; simpl in Heq.
  { change (16 ^ Z.of_nat 0) with 1. by rewrite !Z.mod_1_r. }
  apply IH in Heq as [Hq Hs]. injection Hs as Hd ->. split; [|done].
  apply hex_digit_inj in Hd; [|apply Z.mod_pos_bound; lia..].
  rewrite Nat2Z.inj_succ, Z.pow_succ_r by lia.
  rewrite !(Z.rem_mul_r _ 16 (16 ^ Z.of_nat k)) by lia. by rewrite Hd, Hq.
Qed.

Lemma hex_fixed_head k z s : (0 < k)%nat → ∃ d r, hex_fixed k z s = String (hex_digit d) r.
Proof.
  revert z s. induction k as [|k IH]; intros z s Hk; [lia|]. simpl. destruct k as [|k]; [by eauto|]. apply IH. lia.
Qed.

Lemma uuid_to_string_length u : is_u128 u → String.length (uuid_to_string u) = 36%nat.
Proof.
  intros Hu. unfold uuid_to_string. rewrite decide_True by done.
  do 5 (rewrite ?length_hex_fixed; cbn [String.length]). done.
Qed.

(** Two numbers that agree above bit [n + k] and on the [k] bits from [n] agree above [n]. *)
Lemma glue_digits u v n k :
  0 ≤ n → 0 ≤ k → u / 2 ^ (n + k) = v / 2 ^ (n + k) → (u / 2 ^ n) mod 2 ^ k = (v / 2 ^ n) mod 2 ^ k →
  u / 2 ^ n = v / 2 ^ n.
Proof.
  intros Hn Hk Hq Hm. rewrite !Z.pow_add_r in Hq by lia. rewrite <- !Z.div_div in Hq by lia.
  rewrite (Z.div_mod (u / 2 ^ n) (2 ^ k)), (Z.div_mod (v / 2 ^ n) (2 ^ k)) by lia. by rewrite Hq, Hm.
Qed.

Lemma same_tail a s t : String a s = String a t → s = t.
Proof. by injection 1. Qed.

#[export] Instance uuid_to_string_inj : Inj (=) (=) uuid_to_string.
Proof.
  intros u v. unfold uuid_to_string. destruct (decide (is_u128 u)) as [Hu|Hu], (decide (is_u128 v)) as [Hv|Hv]; intros Heq.
  - apply hex_fixed_inj in Heq as [E1 [E2 [E3 [E4 [E5 _]%same_tail%hex_fixed_inj]%same_tail%hex_fixed_inj]%same_tail%hex_fixed_inj]%same_tail%hex_fixed_inj].
    assert (u / 2 ^ 128 = v / 2 ^ 128) as E0 by (unfold is_u128 in *; by rewrite !Z.div_small by lia).
    pose proof (glue_digits u v 96 32 ltac:(lia) ltac:(lia) E0 E1) as G1.
    pose proof (glue_digits u v 80 16 ltac:(lia) ltac:(lia) G1 E2) as G2.
    pose proof (glue_digits u v 64 16 ltac:(lia) ltac:(lia) G2 E3) as G3.
    pose proof (glue_digits u v 48 16 ltac:(lia) ltac:(lia) G3 E4) as G4.
    pose proof (glue_digits u v 0 48 ltac:(lia) ltac:(lia) G4) as G5. rewrite !Z.div_1_r in G5. by apply G5.
  - destruct (hex_fixed_head 8 (u / 2 ^ 96) (String "-" (hex_fixed 4 (u / 2 ^ 80) (String "-" (hex_fixed 4 (u / 2 ^ 64)
      (String "-" (hex_fixed 4 (u / 2 ^ 48) (String "-" (hex_fixed 12 u "")))))))) ) as (d & r & Hd); [lia|]. rewrite Hd in Heq.
    exfalso. injection Heq as Hd' _. revert Hd'. unfold hex_digit. by repeat case_match.
  - destruct (hex_fixed_head 8 (v / 2 ^ 96) (String "-" (hex_fixed 4 (v / 2 ^ 80) (String "-" (hex_fixed 4 (v / 2 ^ 64)
      (String "-" (hex_fixed 4 (v / 2 ^ 48) (String "-" (hex_fixed 12 v "")))))))) ) as (d & r & Hd); [lia|]. rewrite Hd in Heq.
    exfalso. injection Heq as Hd' _. revert Hd'. unfold hex_digit. by repeat case_match.
  - injection Heq as Heq. by apply (inj pretty).
Qed.
