(* ===== verification/RowCodec.v ===== *)
(** * The hot row codec (penca-storage-hot/src/row_codec.rs, penca-db/src/dialect/pg.rs)

    A cell of a write is rendered as a SQL literal of an INSERT; a cell of a hot
    read is decoded from the driver's value of a column of the mapped Postgres
    type.  The texts of chrono, Arrow and Rust's float formatting, [BigDecimal]'s
    rescaling and Postgres' reading of a literal are parameters. *)

From S2P Require Import Prelude CoreTypes Naming.
From Stdlib Require Import Ascii.
From stdpp Require Import base numbers list option strings pretty.

Open Scope string_scope.
Open Scope list_scope.
Open Scope Z_scope.
Open Scope result_scope.

(** ** Cells and column types *)

(** A slot of an Arrow array: integers, decimals (unscaled), dates, times and
    timestamps by their stored integer, floats by their bits. *)
Inductive slot :=
  | ANull
  | ABool (b : bool)
  | ANum (z : Z)
  | AFloat (bits : Z)
  | AText (s : string)
  | ABytes (bs : list Z)
  | AList (vs : list slot).

(** What the driver returns for a column value. *)
Inductive pg_value :=
  | PgNull
  | PgBool (b : bool)
  | PgInt (bytes : nat) (z : Z)
  | PgNum (unscaled scale : Z)
  | PgFloat (bytes : nat) (bits : Z)
  | PgText (s : string)
  | PgUuid (u : Z)
  | PgBytes (bs : list Z)
  | PgDate (days : Z)
  | PgTime (micros : Z)
  | PgStamp (tz : bool) (micros : Z)
  | PgArray (vs : list pg_value).

Inductive HotStorageError := UnsupportedType | ArrowError | DriverError | Panicked.

Fixpoint pg_column_type (ct : CanonicalType) : string :=
  match ct with
  | CInt8 | CInt16 | CUInt8 => "SMALLINT"
  | CInt32 | CUInt16 => "INTEGER"
  | CInt64 | CUInt32 => "BIGINT"
  | CUInt64 => "NUMERIC"
  | CFloat16 | CFloat32 => "REAL"
  | CFloat64 => "DOUBLE PRECISION"
  | CBoolean => "BOOLEAN"
  | CUtf8 | CLargeUtf8 | CUtf8View => "TEXT"
  | CBinary | CLargeBinary | CBinaryView => "BYTEA"
  | CDecimal128 precision scale | CDecimal256 precision scale =>
      "NUMERIC(" +:+ pretty precision +:+ ", " +:+ pretty scale +:+ ")"
  | CDate32 | CDate64 => "DATE"
  | CTime32 _ | CTime64 _ => "TIME"
  | CTimestamp _ None => "TIMESTAMP"
  | CTimestamp _ (Some _) => "TIMESTAMPTZ"
  | CList child | CLargeList child | CFixedSizeList child _ => pg_column_type child +:+ "[]"
  end.

(** ** Texts of the libraries *)

Class RowText := {
  (** [Display] of floats and of chrono's dates, times and datetimes, given in
      days, nanoseconds of the day and nanoseconds since the epoch; [None] where
      chrono has no such value. *)
  f64_display : Z → string;
  f32_display : Z → string;
  f16_to_f32 : Z → Z;
  f32_to_f16 : Z → Z;
  date_display : Z → option string;
  time_display : Z → option string;
  datetime_display : Z → option string;
  (** [value_as_string] of a decimal *)
  decimal_display : Z → Z → string;
  (** the unscaled integer of [BigDecimal::with_scale] *)
  with_scale : Z * Z → Z → Z;
}.

(** [v.replace('\'', "''")] in quotes. *)
Fixpoint double_quotes (s : string) : string :=
  match s with
  | "" => ""
  | String a r => if decide (a = "'"%char) then String a (String a (double_quotes r)) else String a (double_quotes r)
  end.

Definition text_literal (s : string) : string := "'" +:+ double_quotes s +:+ "'".

(** [format!("{b:02x}")] of every byte. *)
Definition hex (bs : list Z) : string := foldr (λ b acc, hex_fixed 2 b acc) "" bs.

Definition bytea_literal (bs : list Z) : string := "'\x" +:+ hex bs +:+ "'::bytea".

Fixpoint join_comma (parts : list string) : string :=
  match parts with
  | [] => ""
  | [p] => p
  | p :: rest => p +:+ "," +:+ join_comma rest
  end.

Definition unit_nanos (u : TimeUnit) : Z :=
  match u with Second => 1000000000 | Millisecond => 1000000 | Microsecond => 1000 | Nanosecond => 1 end.

Definition expect {A} (o : option A) : result HotStorageError A := match o with Some a => Ok a | None => Err Panicked end.

Fixpoint all_ok {A B} (f : A → result HotStorageError B) (l : list A) : result HotStorageError (list B) :=
  match l with
  | [] => Ok []
  | x :: rest => let? y := f x in let? ys := all_ok f rest in Ok (y :: ys)
  end.

Section codec.
Context {T : RowText}.

(** ** Writing *)

(** A value that is not of its column's kind would fail the downcast. *)
Definition scalar_literal (ct : CanonicalType) (v : slot) : result HotStorageError string :=
  match ct, v with
  | _, ANull => Ok "NULL"
  | (CUtf8 | CLargeUtf8 | CUtf8View), AText s => Ok (text_literal s)
  | (CInt64 | CUInt64 | CInt32 | CInt16 | CInt8 | CUInt8 | CUInt16 | CUInt32), ANum z => Ok (pretty z)
  | CFloat64, AFloat bits => Ok (f64_display bits)
  | CFloat32, AFloat bits => Ok (f32_display bits)
  | CFloat16, AFloat bits => Ok (f32_display (f16_to_f32 bits))
  | CBoolean, ABool b => Ok (if b then "TRUE" else "FALSE")
  | CDate32, ANum d => let? t := expect (date_display d) in Ok ("'" +:+ t +:+ "'::date")
  | CDate64, ANum ms => let? t := expect (date_display (ms / 86400000)) in Ok ("'" +:+ t +:+ "'::date")
  | CTime32 u, ANum n =>
      match u with
      | Second | Millisecond => let? t := expect (time_display (n * unit_nanos u)) in Ok ("'" +:+ t +:+ "'::time")
      | _ => Err UnsupportedType
      end
  | CTime64 u, ANum n =>
      match u with
      | Microsecond | Nanosecond => let? t := expect (time_display (n * unit_nanos u)) in Ok ("'" +:+ t +:+ "'::time")
      | _ => Err UnsupportedType
      end
  | CTimestamp u tz, ANum n =>
      let? t := expect (datetime_display (n * unit_nanos u)) in
      Ok match tz with Some _ => "'" +:+ t +:+ "+00'::timestamptz" | None => "'" +:+ t +:+ "'::timestamp" end
  | (CDecimal128 _ scale | CDecimal256 _ scale), ANum u => Ok (decimal_display u scale)
  | (CBinary | CLargeBinary | CBinaryView), ABytes bs => Ok (bytea_literal bs)
  | _, _ => Err Panicked
  end.

Definition arrow_to_sql_literal (ct : CanonicalType) (v : slot) : result HotStorageError string :=
  match ct, v with
  | _, ANull => Ok "NULL"
  | (CList child | CLargeList child | CFixedSizeList child _), AList vs =>
      let? literals := all_ok (scalar_literal child) vs in
      Ok ("ARRAY[" +:+ join_comma literals +:+ "]::" +:+ pg_column_type child +:+ "[]")
  | _, _ => scalar_literal ct v
  end.

(** ** Reading *)

(** A checked narrowing: [TryFrom] of the wider Postgres integer. *)
Definition narrow (lo hi z : Z) : result HotStorageError slot :=
  if decide (lo ≤ z ≤ hi) then Ok (ANum z) else Err ArrowError.

Definition bigdecimal_to_u64 (n : Z * Z) : result HotStorageError slot := narrow 0 (2 ^ 64 - 1) (with_scale n 0).
Definition bigdecimal_to_i128 (n : Z * Z) (scale : Z) : result HotStorageError slot := narrow (-2 ^ 127) (2 ^ 127 - 1) (with_scale n scale).
Definition bigdecimal_to_i256 (n : Z * Z) (scale : Z) : result HotStorageError slot := narrow (-2 ^ 255) (2 ^ 255 - 1) (with_scale n scale).

(** [as i32], and the products of a release build. *)
Definition wrap (w z : Z) : Z := (z + 2 ^ (w - 1)) `mod` 2 ^ w - 2 ^ (w - 1).

(** [num_seconds], [num_milliseconds], ... of a time of day in microseconds. *)
Definition time_of_day (u : TimeUnit) (micros : Z) : Z :=
  match u with
  | Second => micros / 1000000
  | Millisecond => micros / 1000
  | Microsecond => micros
  | Nanosecond => micros * 1000
  end.

(** One value of [timestamp_array]. *)
Definition timestamp_unit (u : TimeUnit) (micros : Z) : Z :=
  match u with
  | Second => micros / 1000000
  | Millisecond => micros / 1000
  | Microsecond => micros
  | Nanosecond => wrap 64 (micros * 1000)
  end.

(** One slot of [rows_to_batch]; a value of another kind fails the driver's
    conversion. *)
Definition read_scalar (ct : CanonicalType) (v : pg_value) : result HotStorageError slot :=
  match ct, v with
  | _, PgNull => Ok ANull
  | CUtf8, PgUuid u => Ok (AText (uuid_to_string u))
  | (CUtf8 | CLargeUtf8 | CUtf8View), PgText s => Ok (AText s)
  | CInt64, PgInt 8 z | CInt32, PgInt 4 z | CInt16, PgInt 2 z => Ok (ANum z)
  | CUInt64, PgNum u s => bigdecimal_to_u64 (u, s)
  | CInt8, PgInt 2 z => narrow (-128) 127 z
  | CUInt8, PgInt 2 z => narrow 0 255 z
  | CUInt16, PgInt 4 z => narrow 0 65535 z
  | CUInt32, PgInt 8 z => narrow 0 4294967295 z
  | CBoolean, PgBool b => Ok (ABool b)
  | CFloat64, PgFloat 8 bits | CFloat32, PgFloat 4 bits => Ok (AFloat bits)
  | CFloat16, PgFloat 4 bits => Ok (AFloat (f32_to_f16 bits))
  | CDate32, PgDate d => Ok (ANum (wrap 32 d))
  | CDate64, PgDate d => Ok (ANum (d * 86400000))
  | CTime32 u, PgTime m => match u with Second | Millisecond => Ok (ANum (time_of_day u m)) | _ => Err UnsupportedType end
  | CTime64 u, PgTime m => match u with Microsecond | Nanosecond => Ok (ANum (time_of_day u m)) | _ => Err UnsupportedType end
  | CTimestamp u tz, PgStamp stored m =>
      if decide (stored = bool_decide (is_Some tz)) then Ok (ANum (timestamp_unit u m)) else Err DriverError
  | CDecimal128 _ scale, PgNum u s => bigdecimal_to_i128 (u, s) scale
  | CDecimal256 _ scale, PgNum u s => bigdecimal_to_i256 (u, s) scale
  | (CBinary | CLargeBinary | CBinaryView), PgBytes bs => Ok (ABytes bs)
  | _, _ => Err DriverError
  end.

(** ** List columns *)

(** An element of a list is read as the scalar is, but for a text element there
    is no uuid reading. *)
Definition read_item (child : CanonicalType) (v : pg_value) : result HotStorageError slot :=
  match child, v with
  | CUtf8, PgUuid _ => Err DriverError
  | _, _ => read_scalar child v
  end.

(** The flat child slots and the length of every row; a null row of a
    fixed-size column is padded with null children. *)
Fixpoint read_flat (child : CanonicalType) (fixed_len : option Z) (rows : list pg_value) :
    result HotStorageError (list slot * list (option Z)) :=
  match rows with
  | [] => Ok ([], [])
  | PgArray items :: rest =>
      let? slots := all_ok (read_item child) items in
      let? '(flat, lens) := read_flat child fixed_len rest in
      Ok (slots ++ flat, Some (wrap 32 (Z.of_nat (length items))) :: lens)
  | PgNull :: rest =>
      let? '(flat, lens) := read_flat child fixed_len rest in
      Ok (replicate (Z.to_nat (default 0 fixed_len)) ANull ++ flat, None :: lens)
  | _ :: _ => Err DriverError
  end.

(** [offs]: the running sum of the lengths in the offset's width.  A sum past it
    wraps to a negative offset, which [OffsetBuffer::new] refuses by a panic. *)
Fixpoint offsets (w acc : Z) (lens : list (option Z)) : result HotStorageError (list Z) :=
  match lens with
  | [] => Ok [acc]
  | len :: rest =>
      let next := wrap w (acc + default 0 len) in
      if decide (next < acc) then Err Panicked else let? offs := offsets w next rest in Ok (acc :: offs)
  end.

(** A list array: its offsets or its fixed size, its validity and its child. *)
Inductive list_array :=
  | OffsetList (offs : list Z) (valid : list bool) (values : list slot)
  | FixedList (size : Z) (valid : list bool) (values : list slot).

Definition read_scalar_list (ct : CanonicalType) (rows : list pg_value) : result HotStorageError list_array :=
  match ct with
  | CList child | CLargeList child =>
      if negb (is_scalar child) then Err UnsupportedType else
      let? '(values, lens) := read_flat child None rows in
      let? offs := offsets (match ct with CList _ => 32 | _ => 64 end) 0 lens in
      Ok (OffsetList offs ((λ l, bool_decide (is_Some l)) <$> lens) values)
  | CFixedSizeList child n =>
      if negb (is_scalar child) then Err UnsupportedType else
      let? '(values, lens) := read_flat child (Some n) rows in
      if decide (Forall (λ l, l = None ∨ l = Some n) lens)
      then Ok (FixedList n ((λ l, bool_decide (is_Some l)) <$> lens) values)
      else Err ArrowError
  | _ => Err UnsupportedType
  end.

(** ** The VALUES of an INSERT (data.rs) *)

Definition quoted (s : string) : string := "'" +:+ s +:+ "'".

(** [join(", ")] *)
Fixpoint join_list (parts : list string) : string :=
  match parts with
  | [] => ""
  | [p] => p
  | p :: rest => p +:+ ", " +:+ join_list rest
  end.

(** The literals of one row of a batch given by its typed columns. *)
Definition row_literals (columns : list (CanonicalType * list slot)) (row : nat) : result HotStorageError (list string) :=
  all_ok (λ column, let? cell := expect (snd column !! row) in arrow_to_sql_literal (fst column) cell) columns.

Definition tuple_text (vals : list string) : string := "(" +:+ join_list vals +:+ ")".

(** The VALUES text of [insert_upserts]. *)
Definition upsert_values (version_uuids row_uuids : list string) (tx_uuid : string)
    (columns : list (CanonicalType * list slot)) (num_rows : nat) : result HotStorageError (list (list string)) :=
  all_ok (λ row,
    let? version := expect (version_uuids !! row) in
    let? id := expect (row_uuids !! row) in
    let? cells := row_literals columns row in
    Ok (quoted version :: quoted id :: quoted tx_uuid :: cells)) (seq 0 num_rows).

(** The VALUES of [insert_deletes], the ids parsed. *)
Definition delete_values `{!ContentHash} (row_uuids : list Z) (tx_uuid : Z)
    (columns : list (CanonicalType * list slot)) : result HotStorageError (list (list string)) :=
  all_ok (λ '(row, id),
    let? cells := row_literals columns row in
    Ok (quoted (uuid_to_string (version_uuid id tx_uuid)) :: quoted (uuid_to_string id) :: cells ++
        [quoted (uuid_to_string tx_uuid)])) (zip (seq 0 (length row_uuids)) row_uuids).

Definition values_text (tuples : list (list string)) : string := join_list (tuple_text <$> tuples).

End codec.

(** Arrow's reading of a list array: row [i]. *)
Definition list_row (a : list_array) (i : nat) : option slot :=
  match a with
  | OffsetList offs valid values =>
      match valid !! i, offs !! i, offs !! S i with
      | Some true, Some from, Some to => Some (AList (take (Z.to_nat (to - from)) (drop (Z.to_nat from) values)))
      | Some false, _, _ => Some ANull
      | _, _, _ => None
      end
  | FixedList size valid values =>
      match valid !! i with
      | Some true => Some (AList (take (Z.to_nat size) (drop (i * Z.to_nat size) values)))
      | Some false => Some ANull
      | None => None
      end
  end.

(** ** Reading SQL text back *)

#[local] Arguments String.append !_ _ / : simpl nomatch.

Notation quote := ("'"%char) (only parsing).

Definition is_open (a : ascii) : bool := bool_decide (a = "("%char ∨ a = "["%char).
Definition is_close (a : ascii) : bool := bool_decide (a = ")"%char ∨ a = "]"%char).

(** A string constant at the head of a text: its contents and what follows. *)
Fixpoint string_body (s : string) : option (string * string) :=
  match s with
  | "" => None
  | String a r =>
      if decide (a = quote) then
        match r with
        | String b r' => if decide (b = quote) then prod_map (String a) id <$> string_body r' else Some ("", r)
        | "" => Some ("", "")
        end
      else prod_map (String a) id <$> string_body r
  end.

Definition sql_string (s : string) : option (string * string) :=
  match s with String a r => if decide (a = quote) then string_body r else None | "" => None end.

Definition hex_val (a : ascii) : option Z :=
  list_find (λ d, hex_digit (Z.of_nat d) = a) (seq 0 16) ≫= λ '(_, d), Some (Z.of_nat d).

(** The bytes of a hex text. *)
Fixpoint unhex (s : string) : option (list Z) :=
  match s with
  | "" => Some []
  | String a (String b r) =>
      match hex_val a, hex_val b, unhex r with
      | Some x, Some y, Some bs => Some (x * 16 + y :: bs)
      | _, _, _ => None
      end
  | _ => None
  end.

(** The cells of a tuple, up to its closing parenthesis: commas count outside
    strings and inner brackets only. *)
Fixpoint read_cells (d : nat) (q : bool) (cell s : string) : option (list string * string) :=
  match s with
  | "" => None
  | String a r =>
      let on := cell +:+ String a "" in
      if q then read_cells d (negb (bool_decide (a = quote))) on r
      else if decide (a = quote) then read_cells d true on r
      else if is_open a then read_cells (S d) false on r
      else if is_close a then match d with O => Some ([cell], r) | S d' => read_cells d' false on r end
      else if decide (a = ","%char ∧ d = 0%nat) then prod_map (cons cell) id <$> read_cells 0 false "" r
      else if decide (a = " "%char ∧ cell = "") then read_cells d false "" r
      else read_cells d false on r
  end.

Fixpoint read_tuples (fuel : nat) (s : string) : option (list (list string)) :=
  match fuel, s with
  | S fuel, String "("%char r =>
      match read_cells 0 false "" r with
      | Some (cells, "") => Some [cells]
      | Some (cells, String ","%char (String " "%char rest)) => cons cells <$> read_tuples fuel rest
      | _ => None
      end
  | _, _ => None
  end.

(** Fuel: one step per tuple, and a tuple has a character. *)
Definition sql_values (s : string) : option (list (list string)) := read_tuples (String.length s) s.

(** ** Strings and bytes *)

Lemma string_body_double s rest :
  (∀ r, rest ≠ String quote r) → string_body (double_quotes s +:+ String quote rest) = Some (s, rest).
Proof.
  intros Hrest. induction s as [|a s IH]; simpl.
  - destruct rest as [|b r]; [done|]. rewrite decide_False; [done|]. intros ->. by apply (Hrest r).
  - destruct (decide (a = quote)) as [->|Ha]; simpl.
    + by rewrite IH.
    + rewrite decide_False by done. by rewrite IH.
Qed.

Lemma app_assoc_str s t u : (s +:+ t) +:+ u = s +:+ (t +:+ u).
Proof. induction s as [|a s IH]; [done|]. change (String a ((s +:+ t) +:+ u) = String a (s +:+ (t +:+ u))). by rewrite IH. Qed.

Lemma text_literal_reads s rest :
  (∀ r, rest ≠ String quote r) → sql_string (text_literal s +:+ rest) = Some (s, rest).
Proof. intros Hrest. unfold text_literal. simpl. rewrite app_assoc_str. by apply string_body_double. Qed.

Lemma double_quotes_lacks s : lacks quote s → double_quotes s = s.
Proof.
  induction s as [|a s IH]; [done|]. rewrite lacks_cons. intros [Ha Hs]. simpl. rewrite decide_False by done. by rewrite IH.
Qed.

Lemma hex_val_digit d : 0 ≤ d < 16 → hex_val (hex_digit d) = Some d.
Proof.
  intros Hd. assert (Forall (λ k, hex_val (hex_digit (Z.of_nat k)) = Some (Z.of_nat k)) (seq 0 16)) as Hall
    by (repeat constructor).
  rewrite Forall_forall in Hall. specialize (Hall (Z.to_nat d)). rewrite Z2Nat.id in Hall by lia.
  apply Hall, elem_of_seq. lia.
Qed.

Lemma unhex_hex bs : Forall (λ b, 0 ≤ b < 256) bs → unhex (hex bs) = Some bs.
Proof.
  induction 1 as [|b bs Hb Hbs IH]; [done|].
  assert (hex (b :: bs) = String (hex_digit (b `div` 16 `mod` 16)) (String (hex_digit (b `mod` 16)) (hex bs))) as -> by done.
  simpl unhex. rewrite !hex_val_digit by (apply Z.mod_pos_bound; lia). rewrite IH. f_equal. f_equal.
  rewrite (Z.mod_small (b `div` 16)) by (split; [apply Z.div_pos|apply Z.div_lt_upper_bound]; lia).
  pose proof (Z.div_mod b 16). lia.
Qed.

#[export] Instance separator_quote : Separator quote.
Proof. unfold Separator, separators. repeat constructor. Qed.

Lemma hex_lacks c bs : Separator c → lacks c (hex bs).
Proof.
  intros Hc. induction bs as [|b bs IH]; [unfold hex; simpl; each_separator|]. by apply (hex_fixed_lacks c 2 b (hex bs)).
Qed.

Lemma bytea_literal_reads bs : sql_string (bytea_literal bs) = Some ("\x" +:+ hex bs, "::bytea").
Proof.
  assert (lacks quote ("\x" +:+ hex bs)) as Hlacks by (apply lacks_app; split; [done|apply hex_lacks; apply _]).
  replace (bytea_literal bs) with (text_literal ("\x" +:+ hex bs) +:+ "::bytea"); [by apply text_literal_reads|].
  unfold text_literal, bytea_literal. rewrite double_quotes_lacks by done. simpl. by rewrite !app_assoc_str.
Qed.

(** ** Closed texts *)

(** The state of [read_cells] after a text that neither ends the tuple nor
    starts a cell. *)
Definition scan_step (st : nat * bool) (a : ascii) : option (nat * bool) :=
  let '(d, q) := st in
  if q then Some (d, negb (bool_decide (a = quote)))
  else if decide (a = quote) then Some (d, true)
  else if is_open a then Some (S d, false)
  else if is_close a then match d with O => None | S d' => Some (d', false) end
  else if decide (a = ","%char ∧ d = 0%nat) then None
  else Some (d, false).

Fixpoint scan (st : nat * bool) (s : string) : option (nat * bool) :=
  match s with "" => Some st | String a r => scan_step st a ≫= λ st', scan st' r end.

Lemma scan_app st s t : scan st (s +:+ t) = scan st s ≫= λ st', scan st' t.
Proof.
  revert st. induction s as [|a s IH]; intros st; [done|]. simpl. destruct (scan_step st a) as [st'|]; simpl; [apply IH|done].
Qed.

Lemma scan_snoc st st' s a : scan st s = Some st' → scan st (s +:+ String a "") = scan_step st' a.
Proof. intros Hs. rewrite scan_app, Hs. simpl. by destruct (scan_step st' a). Qed.

(** A text that a tuple holds as one cell, at any nesting. *)
Definition closed (s : string) : Prop := ∀ d, scan (d, false) s = Some (d, false).

(** A closed text that does not vanish or start with a blank. *)
Definition is_cell (s : string) : Prop := closed s ∧ ∃ a r, s = String a r ∧ a ≠ " "%char.

Lemma read_cells_scan d q d' q' cell s rest :
  scan (d, q) s = Some (d', q') → cell ≠ "" ∨ (∃ a r, s = String a r ∧ a ≠ " "%char) ∨ s = "" →
  read_cells d q cell (s +:+ rest) = read_cells d' q' (cell +:+ s) rest.
Proof.
  revert d q cell. induction s as [|a s IH]; intros d q cell Hs Hstart.
  { simpl in Hs. simplify_eq. simpl. f_equal. clear. induction cell as [|b cell IH]; simpl; [done|]. by f_equal. }
  assert (cell +:+ String a s = (cell +:+ String a "") +:+ s) as -> by by rewrite app_assoc_str.
  assert (cell +:+ String a "" ≠ "") as Hon by by destruct cell.
  assert (¬ (a = " "%char ∧ cell = "")) as Hblank.
  { intros [-> ->]. destruct Hstart as [?|[(b & r & [= <- <-] & ?)|?]]; congruence. }
  simpl in Hs |- *. destruct q; [by apply IH; [exact Hs|left]|].
  destruct (decide (a = quote)); [by apply IH; [exact Hs|left]|].
  destruct (is_open a); [by apply IH; [exact Hs|left]|].
  destruct (is_close a); [destruct d as [|d]; [done|by apply IH; [exact Hs|left]]|].
  destruct (decide (a = ","%char ∧ d = 0%nat)); [done|]. rewrite decide_False by done. by apply IH; [exact Hs|left].
Qed.

Lemma read_cells_cell cell rest : is_cell cell → read_cells 0 false "" (cell +:+ rest) = read_cells 0 false cell rest.
Proof. intros [Hc Hstart]. by rewrite (read_cells_scan 0 false 0 false) by (first [apply Hc|right; by left]). Qed.

Lemma read_cells_join cells rest :
  cells ≠ [] → Forall is_cell cells → read_cells 0 false "" (join_list cells +:+ String ")" rest) = Some (cells, rest).
Proof.
  intros Hne Hcells. induction Hcells as [|c cells Hc Hcells IH]; [done|]. destruct cells as [|c' cells].
  - simpl. by rewrite read_cells_cell.
  - change (join_list (c :: c' :: cells)) with (c +:+ ", " +:+ join_list (c' :: cells)).
    rewrite !app_assoc_str, read_cells_cell by done.
    change (prod_map (cons c) id <$> read_cells 0 false "" (join_list (c' :: cells) +:+ String ")" rest) =
            Some (c :: c' :: cells, rest)). by rewrite IH.
Qed.

Lemma length_app_str s t : String.length (s +:+ t) = (String.length s + String.length t)%nat.
Proof. induction s as [|a s IH]; simpl; [done|]. by rewrite IH. Qed.

Lemma read_tuples_text tuples fuel :
  tuples ≠ [] → Forall (λ cells, cells ≠ [] ∧ Forall is_cell cells) tuples → (length tuples ≤ fuel)%nat →
  read_tuples fuel (values_text tuples) = Some tuples.
Proof.
  intros Hne Htuples. revert fuel. induction Htuples as [|cells tuples [Hc Hcells] Htuples IH]; intros fuel Hfuel; [done|].
  destruct fuel as [|fuel]; [simpl in Hfuel; lia|]. unfold values_text. destruct tuples as [|cells' tuples].
  - simpl. by rewrite read_cells_join.
  - rewrite !fmap_cons.
    change (join_list (tuple_text cells :: tuple_text cells' :: (tuple_text <$> tuples)))
      with (tuple_text cells +:+ ", " +:+ values_text (cells' :: tuples)).
    unfold tuple_text at 1. simpl. rewrite !app_assoc_str. simpl. rewrite read_cells_join by done.
    rewrite IH by (simpl in *; lia || done). done.
Qed.

Lemma sql_values_text tuples :
  tuples ≠ [] → Forall (λ cells, cells ≠ [] ∧ Forall is_cell cells) tuples → sql_values (values_text tuples) = Some tuples.
Proof.
  intros Hne Htuples. apply read_tuples_text; [done|done|]. clear Hne Htuples. unfold values_text.
  induction tuples as [|cells tuples IH]; [simpl; lia|]. destruct tuples as [|cells' tuples]; [simpl; lia|].
  rewrite !fmap_cons in *.
  change (join_list (tuple_text cells :: tuple_text cells' :: (tuple_text <$> tuples)))
    with (tuple_text cells +:+ ", " +:+ join_list (tuple_text cells' :: (tuple_text <$> tuples))).
  rewrite !length_app_str. simpl in *. lia.
Qed.

(** ** Every literal is one cell *)

Definition plain (s : string) : Prop := Forall (λ c, lacks c s) separators.

Lemma plain_cons a s : plain (String a s) ↔ a ∉ separators ∧ plain s.
Proof.
  unfold plain. rewrite !Forall_forall. split.
  - intros Hs. split; [intros Ha; specialize (Hs a Ha); by apply lacks_cons in Hs as [[] _]|].
    intros c Hc. by apply (lacks_cons c a s), Hs.
  - intros [Ha Hs] c Hc. apply lacks_cons. split; [congruence|by apply Hs].
Qed.

Lemma closed_plain s : plain s → closed s.
Proof.
  induction s as [|a s IH]; intros Hs d; [done|]. apply plain_cons in Hs as [Ha Hs]. simpl. unfold separators in Ha.
  assert (∀ c, c ∈ separators → a ≠ c) as Hne by (intros c Hc ->; by apply Ha).
  unfold is_open, is_close. rewrite decide_False by (apply Hne; repeat constructor).
  rewrite !bool_decide_eq_false_2 by (intros [?|?]; revert select (a = _); apply Hne; repeat constructor).
  rewrite decide_False by (intros [? _]; revert select (a = _); apply Hne; repeat constructor). by apply IH.
Qed.

Lemma closed_app s t : closed s → closed t → closed (s +:+ t).
Proof. intros Hs Ht d. rewrite scan_app, Hs. apply Ht. Qed.

Lemma scan_double s d : scan (d, true) (double_quotes s) = Some (d, true).
Proof.
  induction s as [|a s IH]; [done|]. simpl. destruct (decide (a = quote)) as [->|Ha]; [done|].
  simpl. by rewrite bool_decide_eq_false_2 by done.
Qed.

Lemma closed_text s : closed (text_literal s).
Proof. intros d. unfold text_literal. simpl. by rewrite scan_app, scan_double. Qed.

Lemma quoted_text s : lacks quote s → quoted s = text_literal s.
Proof. intros Hs. unfold quoted, text_literal. by rewrite double_quotes_lacks. Qed.

Lemma is_cell_text s : is_cell (text_literal s).
Proof. split; [apply closed_text|]. by eexists _, _. Qed.

Lemma is_cell_quoted s : lacks quote s → is_cell (quoted s).
Proof. intros Hs. rewrite quoted_text by done. apply is_cell_text. Qed.

Lemma is_cell_app s t : is_cell s → closed t → is_cell (s +:+ t).
Proof. intros [Hs (a & r & -> & Ha)] Ht. split; [by apply closed_app|]. by exists a, (r +:+ t). Qed.

Lemma is_cell_plain s : plain s → s ≠ "" → is_cell s.
Proof.
  intros Hs Hne. split; [by apply closed_plain|]. destruct s as [|a r]; [done|]. exists a, r. split; [done|].
  intros ->. apply plain_cons in Hs as [[] _]. repeat constructor.
Qed.

Lemma plain_pretty (z : Z) : plain (pretty z).
Proof. unfold plain. apply Forall_forall. intros c Hc. by apply pretty_lacks. Qed.

Lemma pretty_nonempty (z : Z) : pretty z ≠ "".
Proof.
  assert (∀ x s, s ≠ "" → pretty_N_go x s ≠ "") as Hgo.
  { intros x. induction (N.lt_wf_0 x) as [x _ IH]; intros s Hs. destruct (decide (x = 0)%N) as [->|Hx]; [by rewrite pretty_N_go_0|].
    rewrite pretty_N_go_step by lia. apply IH; [apply N.div_lt; lia|done]. }
  assert (∀ x : N, pretty x ≠ "") as HN.
  { intros x. unfold pretty, pretty_N. destruct (decide _); [done|]. rewrite pretty_N_go_step by lia. by apply Hgo. }
  unfold pretty, pretty_Z. destruct z; [done|apply HN|done].
Qed.

(** Texts inside brackets: a comma is allowed. *)
Definition nested (s : string) : Prop := ∀ d, scan (S d, false) s = Some (S d, false).

Lemma nested_app s t : nested s → nested t → nested (s +:+ t).
Proof. intros Hs Ht d. rewrite scan_app, Hs. apply Ht. Qed.

Lemma nested_closed s : closed s → nested s.
Proof. intros Hs d. apply Hs. Qed.

Lemma nested_join parts : Forall closed parts → nested (join_comma parts).
Proof.
  intros Hparts. induction Hparts as [|p parts Hp Hparts IH]; [done|]. destruct parts as [|p' parts]; [by apply nested_closed|].
  change (nested (p +:+ "," +:+ join_comma (p' :: parts))). apply nested_app; [by apply nested_closed|]. by apply nested_app.
Qed.

Lemma closed_paren s : nested s → closed ("(" +:+ s +:+ ")") ∧ closed ("[" +:+ s +:+ "]").
Proof. intros Hs. split; intros d; simpl; by rewrite scan_app, Hs. Qed.

Lemma closed_type ct : closed (pg_column_type ct).
Proof.
  assert (∀ p s : Z, closed ("NUMERIC(" +:+ pretty p +:+ ", " +:+ pretty s +:+ ")")) as Hnum.
  { intros p s. rewrite <- (app_assoc_str ", "), <- (app_assoc_str (pretty p)).
    apply (closed_app "NUMERIC"); [by intros d|]. apply closed_paren, nested_app; [apply nested_closed, closed_plain, plain_pretty|].
    apply nested_app; [by intros d|apply nested_closed, closed_plain, plain_pretty]. }
  assert (∀ child, closed child → closed (child +:+ "[]")) as Hlist by (intros child Hc; by apply closed_app).
  induction ct as [| | | | | | | | | | | | | | | | | |p s|p s| | |u|u|u tz|child IH|child IH|child IH n];
    cbn [pg_column_type].
  all: lazymatch goal with
    | |- closed (_ +:+ "[]") => by apply Hlist
    | |- closed ("NUMERIC(" +:+ _) => apply Hnum
    | _ => idtac
    end.
  all: try destruct tz; intros d; reflexivity.
Qed.

(** What the texts of the libraries look like: floats and decimals have no
    separator; dates and times no quote. *)
Class PlainTexts (T : RowText) : Prop := {
  f64_plain : ∀ bits, plain (f64_display bits) ∧ f64_display bits ≠ "";
  f32_plain : ∀ bits, plain (f32_display bits) ∧ f32_display bits ≠ "";
  decimal_plain : ∀ u s, plain (decimal_display u s) ∧ decimal_display u s ≠ "";
  date_plain : ∀ d t, date_display d = Some t → lacks quote t;
  time_plain : ∀ n t, time_display n = Some t → lacks quote t;
  datetime_plain : ∀ n t, datetime_display n = Some t → lacks quote t;
}.

Section literals.
Context {T : RowText} `{!PlainTexts T}.

Lemma expect_ok {A} (o : option A) a : expect o = Ok a → o = Some a.
Proof. destruct o; simpl; congruence. Qed.

Lemma is_cell_cast t mid suffix :
  lacks quote t → lacks quote mid → closed suffix → is_cell ("'" +:+ t +:+ mid +:+ "'" +:+ suffix).
Proof.
  intros Ht Hm Hs. replace ("'" +:+ t +:+ mid +:+ "'" +:+ suffix) with (quoted (t +:+ mid) +:+ suffix).
  - apply is_cell_app; [by apply is_cell_quoted, lacks_app|done].
  - unfold quoted. simpl. by rewrite !app_assoc_str.
Qed.

Lemma cell_pretty (z : Z) : is_cell (pretty z).
Proof. apply is_cell_plain; [apply plain_pretty|apply pretty_nonempty]. Qed.

Lemma cell_bytea bs : is_cell (bytea_literal bs).
Proof.
  apply (is_cell_cast ("\x" +:+ hex bs) "" "::bytea"); [|done|by intros d].
  apply lacks_app. split; [done|apply hex_lacks; apply _].
Qed.

Lemma cell_f64 bits : is_cell (f64_display bits).
Proof. apply is_cell_plain; apply f64_plain. Qed.

Lemma cell_f32 bits : is_cell (f32_display bits).
Proof. apply is_cell_plain; apply f32_plain. Qed.

Lemma cell_decimal u s : is_cell (decimal_display u s).
Proof. apply is_cell_plain; apply decimal_plain. Qed.

Lemma cell_word s : closed s → s = "NULL" ∨ s = "TRUE" ∨ s = "FALSE" → is_cell s.
Proof. intros Hs Hw. split; [done|]. destruct Hw as [->|[->| ->]]; by eexists _, _. Qed.

Lemma cell_date d t : date_display d = Some t → is_cell ("'" +:+ t +:+ "'::date").
Proof. intros Ht. apply (is_cell_cast t "" "::date"); [by eapply date_plain|done|by intros ?]. Qed.

Lemma cell_time n t : time_display n = Some t → is_cell ("'" +:+ t +:+ "'::time").
Proof. intros Ht. apply (is_cell_cast t "" "::time"); [by eapply time_plain|done|by intros ?]. Qed.

Lemma cell_stamp n t (tz : option string) :
  datetime_display n = Some t →
  is_cell match tz with Some _ => "'" +:+ t +:+ "+00'::timestamptz" | None => "'" +:+ t +:+ "'::timestamp" end.
Proof.
  intros Ht%datetime_plain. destruct tz.
  - apply (is_cell_cast t "+00" "::timestamptz"); [done|done|by intros ?].
  - apply (is_cell_cast t "" "::timestamp"); [done|done|by intros ?].
Qed.

#[local] Hint Resolve cell_pretty cell_bytea cell_f64 cell_f32 cell_decimal cell_date cell_time cell_stamp is_cell_text : cells.

Lemma scalar_literal_cell ct v lit : scalar_literal ct v = Ok lit → is_cell lit.
Proof.
  assert (is_cell "NULL" ∧ is_cell "TRUE" ∧ is_cell "FALSE") as (Hn & Ht & Hf)
    by (split_and!; (apply cell_word; [by intros d|tauto])).
  destruct v as [|b|z|bits|s|bs|vs]; destruct ct as [| | | | | | | | | | | | | | | | | |p s'|p s'| | |u|u|u tz|child|child|child n];
    cbn [scalar_literal]; try discriminate; try (intros [= <-]; by eauto with cells).
  - intros [= <-]. by destruct b.
  - destruct (date_display z) eqn:Hd; [|done]. intros [= <-]. by eapply cell_date.
  - destruct (date_display _) eqn:Hd; [|done]. intros [= <-]. by eapply cell_date.
  - destruct u; try discriminate; destruct (time_display _) eqn:Hd; try done; intros [= <-]; by eapply cell_time.
  - destruct u; try discriminate; destruct (time_display _) eqn:Hd; try done; intros [= <-]; by eapply cell_time.
  - destruct (datetime_display _) eqn:Hd; [|done]. intros [= <-]. by eapply (cell_stamp _ _ tz).
Qed.

Lemma all_ok_Forall2 {A B} (f : A → result HotStorageError B) l ys :
  all_ok f l = Ok ys → Forall2 (λ x y, f x = Ok y) l ys.
Proof.
  revert ys. induction l as [|x l IH]; intros ys; simpl; [by intros [= <-]|].
  destruct (f x) as [y|] eqn:Hx; simpl; [|done]. destruct (all_ok f l) as [ys'|]; simpl; [|done]. intros [= <-].
  constructor; [done|by apply IH].
Qed.

Lemma list_literal_cell child literals :
  Forall is_cell literals → is_cell ("ARRAY[" +:+ join_comma literals +:+ "]::" +:+ pg_column_type child +:+ "[]").
Proof.
  intros Hl. split; [|by eexists _, _].
  replace ("ARRAY[" +:+ join_comma literals +:+ "]::" +:+ pg_column_type child +:+ "[]")
    with ("ARRAY" +:+ ("[" +:+ join_comma literals +:+ "]") +:+ "::" +:+ pg_column_type child +:+ "[]")
    by (simpl; by rewrite app_assoc_str).
  apply closed_app; [by intros d|]. apply closed_app.
  - apply closed_paren, nested_join. eapply Forall_impl; [exact Hl|]. by intros s [Hs _].
  - apply closed_app; [by intros d|]. apply closed_app; [apply closed_type|by intros d].
Qed.

Lemma literal_cell ct v lit : arrow_to_sql_literal ct v = Ok lit → is_cell lit.
Proof.
  assert (∀ child vs, (let? literals := all_ok (scalar_literal child) vs in
      Ok ("ARRAY[" +:+ join_comma literals +:+ "]::" +:+ pg_column_type child +:+ "[]")) = Ok lit → is_cell lit) as Hlist.
  { intros child vs. destruct (all_ok (scalar_literal child) vs) as [ls|] eqn:Hvs; simpl; [|done]. intros [= <-].
    apply list_literal_cell. apply all_ok_Forall2 in Hvs. induction Hvs; constructor; [by eapply scalar_literal_cell|done]. }
  destruct ct, v; cbn [arrow_to_sql_literal]; first [apply Hlist|apply scalar_literal_cell|
    intros [= <-]; apply cell_word; [by intros d|by left]].
Qed.

(** ** What an INSERT carries *)

(** A cell's literal, and what a reader of SQL text finds in it. *)
Definition cell_reads (ct : CanonicalType) (v : slot) (lit : string) : Prop :=
  arrow_to_sql_literal ct v = Ok lit ∧
  match v with
  | AText s => sql_string lit = Some (s, "")
  | ABytes bs =>
      Forall (λ b, 0 ≤ b < 256) bs → ∃ digits, sql_string lit = Some ("\x" +:+ digits, "::bytea") ∧ unhex digits = Some bs
  | _ => True
  end.

Lemma literal_reads ct v lit : arrow_to_sql_literal ct v = Ok lit → cell_reads ct v lit.
Proof.
  intros Hlit. split; [done|]. destruct v; try done.
  - assert (lit = text_literal s) as ->.
    { destruct ct; cbn [arrow_to_sql_literal scalar_literal] in Hlit; congruence. }
    rewrite <- (text_literal_reads s "") by done. f_equal. unfold text_literal. simpl. by rewrite !app_assoc_str.
  - intros Hbs. exists (hex bs). split; [|by apply unhex_hex]. rewrite <- bytea_literal_reads.
    destruct ct; cbn [arrow_to_sql_literal scalar_literal] in Hlit; congruence.
Qed.

(** The cells of one row of the columns. *)
Definition row_reads (columns : list (CanonicalType * list slot)) (row : nat) (cells : list string) : Prop :=
  Forall2 (λ column lit, ∃ v, snd column !! row = Some v ∧ cell_reads (fst column) v lit) columns cells.

Lemma row_literals_read columns row cells :
  row_literals columns row = Ok cells → row_reads columns row cells ∧ Forall is_cell cells.
Proof.
  intros Hcells%all_ok_Forall2. unfold row_reads. induction Hcells as [|col lit columns cells Hlit Hcells [IH IHc]]; [done|].
  destruct (snd col !! row) as [v|] eqn:Hv; simpl in Hlit; [|done]. split; constructor; try done.
  - exists v. split; [done|by apply literal_reads].
  - by eapply literal_cell.
Qed.

Lemma quoted_reads s : lacks quote s → sql_string (quoted s) = Some (s, "").
Proof.
  intros Hs. rewrite quoted_text by done. rewrite <- (text_literal_reads s "") by done. f_equal.
  unfold text_literal. simpl. by rewrite !app_assoc_str.
Qed.

Lemma uuid_quote u : lacks quote (uuid_to_string u).
Proof. apply uuid_lacks. apply _. Qed.

Lemma tuples_read {A} (f : A → result HotStorageError (list string)) l tuples :
  l ≠ [] → (∀ x vals, x ∈ l → f x = Ok vals → vals ≠ [] ∧ Forall is_cell vals) → all_ok f l = Ok tuples →
  sql_values (values_text tuples) = Some tuples.
Proof.
  intros Hne Hf Hl%all_ok_Forall2. apply sql_values_text; [by destruct Hl|].
  clear Hne. induction Hl as [|x y l ys Hx Hl IH]; constructor; [by apply (Hf x); [left|]|].
  apply IH. intros x' vals Hx'. apply Hf. by right.
Qed.

(** C33 The VALUES text of an upsert or of a delete splits back, by the rules of
    SQL text, into exactly the literals that were put into it: one tuple per
    row, one cell per column, in order.  A text cell reads back as the stored
    text whatever quotes, commas or brackets it has; a binary cell as its
    bytes.  So no value of a row ends its literal early. *)
Theorem insert_values_exact `{!ContentHash} version_uuids row_uuids tx_uuid ids tx columns n ups dels :
  (0 < n)%nat → ids ≠ [] → Forall (lacks quote) version_uuids → Forall (lacks quote) row_uuids → lacks quote tx_uuid →
  upsert_values version_uuids row_uuids tx_uuid columns n = Ok ups → delete_values ids tx columns = Ok dels →
  (sql_values (values_text ups) = Some ups ∧ length ups = n ∧
   ∀ row vals, ups !! row = Some vals → ∃ version id cells,
     vals = quoted version :: quoted id :: quoted tx_uuid :: cells ∧
     version_uuids !! row = Some version ∧ row_uuids !! row = Some id ∧ row_reads columns row cells ∧
     sql_string (quoted version) = Some (version, "") ∧ sql_string (quoted id) = Some (id, "")) ∧
  (sql_values (values_text dels) = Some dels ∧ length dels = length ids ∧
   ∀ row vals, dels !! row = Some vals → ∃ id cells,
     ids !! row = Some id ∧ row_reads columns row cells ∧
     vals = quoted (uuid_to_string (version_uuid id tx)) :: quoted (uuid_to_string id) :: cells ++
            [quoted (uuid_to_string tx)]).
Proof.
  intros Hn Hids Hvs Hrs Htx Hups Hdels.
  pose proof (all_ok_Forall2 _ _ _ Hups) as HU. pose proof (all_ok_Forall2 _ _ _ Hdels) as HD.
  split; split_and!.
  - eapply tuples_read; [|clear HU|exact Hups]; [destruct n; [lia|done]|]. intros row vals _ Hvals.
    simpl in Hvals. destruct (version_uuids !! row) as [v|] eqn:Hv; simpl in Hvals; [|done].
    destruct (row_uuids !! row) as [r|] eqn:Hr; simpl in Hvals; [|done]. destruct (row_literals columns row) as [cells|] eqn:Hc; simplify_eq/=.
    rewrite Forall_lookup in Hvs, Hrs. split; [done|].
    repeat (constructor; [apply is_cell_quoted; first [by eapply Hvs|by eapply Hrs|done]|]). by apply row_literals_read in Hc as [_ Hc].
  - apply Forall2_length in HU. by rewrite length_seq in HU.
  - intros row vals Hrow. eapply Forall2_lookup_r in HU as (i & Hi & Hvals); [|done]. apply lookup_seq in Hi as [-> Hi]. simpl in Hvals.
    simpl in Hvals. destruct (version_uuids !! row) as [v|] eqn:Hv; simpl in Hvals; [|done].
    destruct (row_uuids !! row) as [r|] eqn:Hr; simpl in Hvals; [|done]. destruct (row_literals columns row) as [cells|] eqn:Hc; simplify_eq/=.
    rewrite Forall_lookup in Hvs, Hrs. apply row_literals_read in Hc as [Hc _].
    eexists _, _, _. split_and!; try done; apply quoted_reads; [by eapply Hvs|by eapply Hrs].
  - eapply tuples_read; [|clear HD|exact Hdels]; [by destruct ids|]. intros [row id] vals _ Hvals. simpl in Hvals.
    destruct (row_literals columns row) as [cells|] eqn:Hc; simplify_eq/=. split; [done|].
    apply row_literals_read in Hc as [_ Hc].
    repeat (constructor; [apply is_cell_quoted, uuid_quote|]). apply Forall_app. split; [done|].
    constructor; [apply is_cell_quoted, uuid_quote|done].
  - apply Forall2_length in HD. rewrite length_zip_with, length_seq in HD. lia.
  - intros row vals Hrow. eapply Forall2_lookup_r in HD as ([i id] & Hi & Hvals); [|done].
    apply lookup_zip_Some in Hi as [[-> Hi]%lookup_seq Hid]. simpl in Hvals.
    destruct (row_literals columns row) as [cells|] eqn:Hc; simplify_eq/=. apply row_literals_read in Hc as [Hc _]. by eexists _, _.
Qed.

End literals.

(** ** Types of what is read *)

Definition int_range (ct : CanonicalType) : option (Z * Z) :=
  match ct with
  | CInt8 => Some (-128, 127) | CInt16 => Some (-32768, 32767)
  | CInt32 => Some (-2147483648, 2147483647) | CInt64 => Some (- 2 ^ 63, 2 ^ 63 - 1)
  | CUInt8 => Some (0, 255) | CUInt16 => Some (0, 65535)
  | CUInt32 => Some (0, 4294967295) | CUInt64 => Some (0, 2 ^ 64 - 1)
  | _ => None
  end.

(** The bytes of the Postgres integer behind a declared integer type. *)
Definition int_width (ct : CanonicalType) : option nat :=
  match ct with
  | CInt8 | CInt16 | CUInt8 => Some 2%nat
  | CInt32 | CUInt16 => Some 4%nat
  | CInt64 | CUInt32 => Some 8%nat
  | _ => None
  end.

Definition in_range (r : Z * Z) (z : Z) : Prop := fst r ≤ z ≤ snd r.

(** Units in a day. *)
Definition day_units (u : TimeUnit) : Z := 86400 * (1000000000 / unit_nanos u).

(** A slot an array of the declared type holds. *)
Definition slot_typed (ct : CanonicalType) (s : slot) : Prop :=
  match ct, s with
  | _, ANull => True
  | CBoolean, ABool _ | (CUtf8 | CLargeUtf8 | CUtf8View), AText _ | (CFloat16 | CFloat32 | CFloat64), AFloat _ => True
  | (CBinary | CLargeBinary | CBinaryView), ABytes bs => Forall (in_range (0, 255)) bs
  | CDate32, ANum d => in_range (-2147483648, 2147483647) d
  | CDate64, ANum ms => (86400000 | ms)
  | CTime32 u, ANum n => (u = Second ∨ u = Millisecond) ∧ in_range (0, day_units u - 1) n
  | CTime64 u, ANum n => (u = Microsecond ∨ u = Nanosecond) ∧ in_range (0, day_units u - 1) n
  | CTimestamp _ _, ANum n => in_range (- 2 ^ 63, 2 ^ 63 - 1) n
  | CDecimal128 _ _, ANum u => in_range (- 2 ^ 127, 2 ^ 127 - 1) u
  | CDecimal256 _ _, ANum u => in_range (- 2 ^ 255, 2 ^ 255 - 1) u
  | _, ANum z => match int_range ct with Some r => in_range r z | None => False end
  | _, _ => False
  end.

(** What the driver returns: integers of their width, a time within a day. *)
Definition pg_wf (v : pg_value) : Prop :=
  match v with
  | PgInt bytes z => - 2 ^ (8 * Z.of_nat bytes - 1) ≤ z < 2 ^ (8 * Z.of_nat bytes - 1)
  | PgBytes bs => Forall (in_range (0, 255)) bs
  | PgTime m => 0 ≤ m < 86400000000
  | PgStamp _ m => - 2 ^ 63 ≤ m < 2 ^ 63
  | _ => True
  end.

Lemma wrap_range w z : 0 < w → - 2 ^ (w - 1) ≤ wrap w z < 2 ^ (w - 1).
Proof.
  intros Hw. unfold wrap. pose proof (Z.mod_pos_bound (z + 2 ^ (w - 1)) (2 ^ w) ltac:(by apply Z.pow_pos_nonneg; lia)).
  assert (2 ^ w = 2 * 2 ^ (w - 1)) by (rewrite <- Z.pow_succ_r by lia; f_equal; lia). lia.
Qed.

Lemma wrap_id w z : 0 < w → - 2 ^ (w - 1) ≤ z < 2 ^ (w - 1) → wrap w z = z.
Proof.
  intros Hw Hz. unfold wrap. assert (2 ^ w = 2 * 2 ^ (w - 1)) by (rewrite <- Z.pow_succ_r by lia; f_equal; lia).
  rewrite Z.mod_small; lia.
Qed.

Section typed.
Context {T : RowText}.

Lemma narrow_typed lo hi z s : narrow lo hi z = Ok s → ∃ z', s = ANum z' ∧ in_range (lo, hi) z'.
Proof. unfold narrow, in_range. case_decide; intros [= <-]; eauto. Qed.

Lemma time_typed u m : 0 ≤ m < 86400000000 → in_range (0, day_units u - 1) (time_of_day u m).
Proof. unfold in_range, day_units. intros Hm. destruct u; simpl; Z.to_euclidean_division_equations; lia. Qed.

Lemma stamp_typed u m : - 2 ^ 63 ≤ m < 2 ^ 63 → in_range (- 2 ^ 63, 2 ^ 63 - 1) (timestamp_unit u m).
Proof.
  unfold in_range. intros Hm. assert (∀ k, 0 < k → - 2 ^ 63 ≤ m `div` k ≤ 2 ^ 63 - 1) as Hdiv.
  { intros k Hk. split; [apply Z.div_le_lower_bound; nia|]. apply Zlt_succ_le, Z.div_lt_upper_bound; nia. }
  destruct u; simpl.
  - by apply Hdiv.
  - by apply Hdiv.
  - lia.
  - pose proof (wrap_range 64 (m * 1000)). simpl in *. lia.
Qed.

Ltac narrowed :=
  match goal with H : narrow _ _ _ = Ok _ |- _ => apply narrow_typed in H as (? & -> & ?); done end.

(** Keeps only the branch of the right width. *)
Ltac right_width w H := repeat (destruct w as [|w]; try discriminate H).

Lemma read_scalar_slot ct v s : pg_wf v → read_scalar ct v = Ok s → slot_typed ct s.
Proof.
  intros Hwf. destruct v as [|b|w z|u sc|w bits|t|u|bs|d|m|z m|vs];
    destruct ct as [| | | | | | | | | | | | | | | | | |p s'|p s'| | |u'|u'|u' tz|child|child|child n];
    cbn [read_scalar]; intros Hs; simplify_eq/=; try done; unfold bigdecimal_to_u64, bigdecimal_to_i128, bigdecimal_to_i256 in *;
    try narrowed; try (right_width w Hs; first [narrowed|simplify_eq/=; unfold in_range; simpl in *; lia|by simplify_eq/=]).
  - pose proof (wrap_range 32 d). unfold in_range. simpl in *. lia.
  - by exists d.
  - pose proof (time_typed u' m Hwf). destruct u'; simplify_eq; (split; [tauto|done]).
  - pose proof (time_typed u' m Hwf). destruct u'; simplify_eq; (split; [tauto|done]).
  - pose proof (stamp_typed u' m Hwf). case_decide; by simplify_eq.
Qed.

(** C34 What a hot read puts into a column is a value of the column's declared
    type: whatever Postgres holds in the wider column, an integer, decimal,
    date, time or timestamp is in the declared range.  An integer that does
    not fit is refused with an Arrow error and one that fits is kept as it is:
    no narrowing wraps. *)
Theorem read_scalar_typed ct v :
  pg_wf v →
  (∀ s, read_scalar ct v = Ok s → slot_typed ct s) ∧
  (∀ w z r, v = PgInt w z → int_width ct = Some w → int_range ct = Some r →
     (in_range r z → read_scalar ct v = Ok (ANum z)) ∧ (¬ in_range r z → read_scalar ct v = Err ArrowError)).
Proof.
  intros Hwf. split; [intros s; by apply read_scalar_slot|]. intros w z r -> Hw Hr.
  assert (∀ lo hi, (in_range (lo, hi) z → narrow lo hi z = Ok (ANum z)) ∧ (¬ in_range (lo, hi) z → narrow lo hi z = Err ArrowError)) as Hnarrow.
  { intros lo hi. unfold narrow, in_range. simpl. by split; intros ?; case_decide. }
  destruct ct; simplify_eq/=; first [apply Hnarrow|split; [done|]; unfold in_range; simpl in *; lia].
Qed.

End typed.

(** ** List columns, row by row *)

Section lists.
Context {T : RowText}.

(** The element type and the fixed size of a list type. *)
Definition list_shape (ct : CanonicalType) : option (CanonicalType * option Z) :=
  match ct with
  | CList child | CLargeList child => Some (child, None)
  | CFixedSizeList child n => Some (child, Some n)
  | _ => None
  end.

(** A row decodes to nothing or to its elements, as many as the size says. *)
Definition row_decodes (child : CanonicalType) (size : option Z) (v : pg_value) (row : option (list slot)) : Prop :=
  match row with
  | None => v = PgNull
  | Some slots =>
      (∃ items, v = PgArray items ∧ all_ok (read_item child) items = Ok slots) ∧
      (∀ n, size = Some n → Z.of_nat (length slots) = n)
  end.

(** The child slots a row takes up. *)
Definition padded (size : option Z) (row : option (list slot)) : list slot :=
  match row with Some slots => slots | None => replicate (Z.to_nat (default 0 size)) ANull end.

Definition row_len (row : option (list slot)) : option Z := (λ l, Z.of_nat (length l)) <$> row.

Definition list_slot (row : option (list slot)) : slot := match row with Some slots => AList slots | None => ANull end.

Lemma all_ok_length {A B} (f : A → result HotStorageError B) l ys : all_ok f l = Ok ys → length ys = length l.
Proof. intros Hl%all_ok_Forall2. by apply Forall2_length in Hl. Qed.

Lemma mjoin_middle {A} (l : list (list A)) i x :
  l !! i = Some x → mjoin l = mjoin (take i l) ++ x ++ mjoin (drop (S i) l).
Proof. intros Hi. rewrite <- (take_drop_middle l i x Hi) at 1. by rewrite join_app. Qed.

Lemma part_le {A} (parts : list (list A)) i x : parts !! i = Some x → (length x ≤ length (mjoin parts))%nat.
Proof. intros Hi. rewrite (mjoin_middle parts i x Hi), !length_app. lia. Qed.

Lemma read_flat_rows child size vs rows :
  Forall2 (row_decodes child size) vs rows → Z.of_nat (length (mjoin (padded size <$> rows))) < 2 ^ 31 →
  read_flat child size vs = Ok (mjoin (padded size <$> rows), row_len <$> rows).
Proof.
  induction 1 as [|v row vs rows Hv Hvs IH]; [done|]. rewrite !fmap_cons; simpl mjoin; rewrite length_app. intros Hsmall.
  rewrite Nat2Z.inj_add in Hsmall. specialize (IH ltac:(lia)).
  destruct row as [slots|]; simpl in Hv.
  - destruct Hv as [(items & -> & Hitems) _]. simpl. rewrite Hitems. simpl. rewrite IH. simpl.
    rewrite wrap_id; [|done|]; rewrite <- (all_ok_length _ _ _ Hitems); [done|]. simpl in *. lia.
  - subst v. simpl. by rewrite IH.
Qed.

Lemma offsets_rows w acc rows :
  0 < w → 0 ≤ acc → acc + Z.of_nat (length (mjoin (padded None <$> rows))) < 2 ^ (w - 1) →
  ∃ offs, offsets w acc (row_len <$> rows) = Ok offs ∧
    ∀ i, (i ≤ length rows)%nat → offs !! i = Some (acc + Z.of_nat (length (mjoin (padded None <$> take i rows)))).
Proof.
  intros Hw. revert acc. induction rows as [|row rows IH]; intros acc Hacc Hsmall.
  - exists [acc]. split; [done|]. intros [|i] Hi; simpl in *; [f_equal; lia|lia].
  - rewrite fmap_cons in Hsmall; simpl mjoin in Hsmall; rewrite length_app, Nat2Z.inj_add in Hsmall.
    assert (default 0 (row_len row) = Z.of_nat (length (padded None row))) as Hlen by by destruct row.
    destruct (IH (acc + Z.of_nat (length (padded None row)))) as (offs & Hoffs & Hat); [lia|lia|].
    exists (acc :: offs). split.
    + rewrite fmap_cons. cbn [offsets]. rewrite Hlen, wrap_id by (try done; lia). rewrite decide_False by lia. by rewrite Hoffs.
    + intros [|i] Hi; [simpl; f_equal; lia|]. simpl in Hi. change ((acc :: offs) !! S i) with (offs !! i). rewrite Hat by lia.
      f_equal. rewrite firstn_cons, fmap_cons. simpl mjoin. rewrite length_app. lia.
Qed.

Lemma padded_fixed child n vs rows i :
  0 ≤ n → Forall2 (row_decodes child (Some n)) vs rows → (i ≤ length rows)%nat →
  length (mjoin (padded (Some n) <$> take i rows)) = (i * Z.to_nat n)%nat.
Proof.
  intros Hn Hrows. revert i. induction Hrows as [|v row vs rows Hv Hvs IH]; intros [|i] Hi; try done; simpl in *; [lia|].
  rewrite length_app, IH by lia. f_equal. destruct row as [slots|]; simpl in *.
  - destruct Hv as [_ Hlen]. specialize (Hlen n eq_refl). lia.
  - apply length_replicate.
Qed.

Lemma slice_between {A} (values pre x post : list A) n :
  values = pre ++ x ++ post → n = length pre → take (length x) (drop n values) = x.
Proof. intros -> ->. rewrite drop_app_length. by rewrite take_app_length. Qed.

Lemma flat_slice size (rows : list (option (list slot))) i row n :
  rows !! i = Some row → n = length (mjoin (padded size <$> take i rows)) →
  take (length (padded size row)) (drop n (mjoin (padded size <$> rows))) = padded size row.
Proof.
  intros Hi Hn. eapply slice_between; [|exact Hn]. rewrite fmap_take. apply mjoin_middle. by rewrite list_lookup_fmap, Hi.
Qed.

Lemma valid_lookup (rows : list (option (list slot))) i :
  ((λ l, bool_decide (is_Some l)) <$> (row_len <$> rows)) !! i = (λ row, bool_decide (is_Some row)) <$> rows !! i.
Proof. rewrite !list_lookup_fmap. by destruct (rows !! i) as [[slots|]|]. Qed.

Lemma offset_list_row w rows :
  0 < w → Z.of_nat (length (mjoin (padded None <$> rows))) < 2 ^ (w - 1) →
  ∃ offs, offsets w 0 (row_len <$> rows) = Ok offs ∧
    ∀ i, list_row (OffsetList offs ((λ l, bool_decide (is_Some l)) <$> (row_len <$> rows)) (mjoin (padded None <$> rows))) i =
         list_slot <$> rows !! i.
Proof.
  intros Hw Hsmall. destruct (offsets_rows w 0 rows) as (offs & Hoffs & Hat); [done|done|lia|]. exists offs. split; [done|].
  intros i. unfold list_row. rewrite valid_lookup. destruct (rows !! i) as [row|] eqn:Hi; [|done].
  pose proof (lookup_lt_Some _ _ _ Hi) as Hlt. rewrite !Hat by lia. destruct row as [slots|]; [|done]. simpl. f_equal. f_equal.
  rewrite (take_S_r _ _ _ Hi), fmap_app, join_app, length_app. simpl. rewrite app_nil_r.
  match goal with |- take ?k _ = _ => replace k with (length (padded None (Some slots))) by (cbn [padded]; lia) end.
  apply (flat_slice None rows i (Some slots)); [done|lia].
Qed.

Lemma fixed_list_row child n vs rows i :
  0 ≤ n → Forall2 (row_decodes child (Some n)) vs rows →
  list_row (FixedList n ((λ l, bool_decide (is_Some l)) <$> (row_len <$> rows)) (mjoin (padded (Some n) <$> rows))) i =
  list_slot <$> rows !! i.
Proof.
  intros Hn Hrows. unfold list_row. rewrite valid_lookup. destruct (rows !! i) as [row|] eqn:Hi; [|done].
  pose proof (lookup_lt_Some _ _ _ Hi) as Hlt. destruct row as [slots|]; [|done]. simpl. f_equal. f_equal.
  destruct (Forall2_lookup_r _ _ _ _ _ Hrows Hi) as (v & _ & _ & Hlen). specialize (Hlen n eq_refl).
  replace (Z.to_nat n) with (length (padded (Some n) (Some slots))) at 1 by (simpl; lia).
  apply (flat_slice (Some n) rows i (Some slots)); [done|]. symmetry. by apply (padded_fixed child n vs); [| |lia].
Qed.

(** A list column is rebuilt row by row: when every stored row is null or an
    array whose elements decode, as many as a fixed-size type declares, the
    read returns an array whose row [i] is null exactly when the stored row is,
    and otherwise has the decoded elements of that row, in order.  The null
    rows of a fixed-size column do not shift the ones after them. *)
Theorem read_list_rows ct child size vs rows :
  list_shape ct = Some (child, size) → is_scalar child = true → 0 ≤ default 0 size →
  Forall2 (row_decodes child size) vs rows → Z.of_nat (length (mjoin (padded size <$> rows))) < 2 ^ 31 →
  ∃ a, read_scalar_list ct vs = Ok a ∧ ∀ i, list_row a i = list_slot <$> rows !! i.
Proof.
  intros Hshape Hscalar Hsize Hrows Hsmall. pose proof (read_flat_rows _ _ _ _ Hrows Hsmall) as Hflat.
  destruct ct; simplify_eq/=; rewrite Hscalar, Hflat; simpl.
  - destruct (offset_list_row 32 rows) as (offs & -> & Hrow); [done|done|]. eexists. by split.
  - destruct (offset_list_row 64 rows) as (offs & -> & Hrow); [done|simpl in *; lia|]. eexists. by split.
  - rewrite decide_True; [eexists; split; [done|]; intros i; by eapply fixed_list_row|].
    apply Forall_fmap, Forall_lookup. intros i row Hi. destruct (Forall2_lookup_r _ _ _ _ _ Hrows Hi) as (v & _ & Hv).
    destruct row as [slots|]; [right|by left]. destruct Hv as [_ Hlen]. simpl. by rewrite (Hlen len).
Qed.

End lists.

(** ** A small instance *)
Module CodecDemo.

Definition texts : RowText := {|
  f64_display := pretty; f32_display := pretty; f16_to_f32 := id; f32_to_f16 := id;
  date_display := λ d, Some (pretty d); time_display := λ n, Some (pretty n); datetime_display := λ n, Some (pretty n);
  decimal_display := λ u _, pretty u; with_scale := λ n _, fst n
|}.

#[local] Existing Instance texts.

#[local] Instance plain_texts : PlainTexts texts.
Proof.
  split; simpl; intros *; try (split; [apply plain_pretty|apply pretty_nonempty]); intros [= <-]; apply pretty_lacks; apply _.
Qed.

Definition hash : ContentHash := λ s, Z.of_nat (String.length s).
#[local] Existing Instance hash.

(** A quote, a comma and a closing parenthesis in a text; an array of texts; bytes. *)
Definition columns : list (CanonicalType * list slot) :=
  [(CUtf8, [AText "a'), ('b"; ANull]);
   (CList CUtf8, [AList [AText "x,]'"; ANull]; AList []]);
   (CBinary, [ABytes [0; 255]; ABytes []]);
   (CInt64, [ANum (-5); ANum 7])].

Lemma insert_values_exact_witness :
  sql_values "('u', 'v', 't', 'a''), (''b', ARRAY['x,]''',NULL]::TEXT[], '\x00ff'::bytea, -5), ('u2', 'v2', 't', NULL, ARRAY[]::TEXT[], '\x'::bytea, 7)" =
  Some [["'u'"; "'v'"; "'t'"; "'a''), (''b'"; "ARRAY['x,]''',NULL]::TEXT[]"; "'\x00ff'::bytea"; "-5"];
        ["'u2'"; "'v2'"; "'t'"; "NULL"; "ARRAY[]::TEXT[]"; "'\x'::bytea"; "7"]].
Proof.
  destruct (upsert_values ["u"; "u2"] ["v"; "v2"] "t" columns 2) as [ups|] eqn:Hups; [|vm_compute in Hups; discriminate].
  destruct (delete_values [1; 2] 3 columns) as [dels|] eqn:Hdels; [|vm_compute in Hdels; discriminate].
  destruct (insert_values_exact ["u"; "u2"] ["v"; "v2"] "t" [1; 2] 3 columns 2 ups dels) as [(Hread & _) _];
    [lia|done|repeat constructor|repeat constructor|done|done|done|].
  vm_compute in Hups. injection Hups as <-. exact Hread.
Defined.

Lemma read_scalar_typed_witness :
  pg_wf (PgInt 2 300) ∧ read_scalar CUInt8 (PgInt 2 300) = Err ArrowError ∧ read_scalar CInt16 (PgInt 2 300) = Ok (ANum 300).
Proof.
  assert (pg_wf (PgInt 2 300)) as Hwf by (simpl; lia). split; [done|]. split.
  - apply (proj2 (read_scalar_typed CUInt8 _ Hwf) 2%nat 300 (0, 255)); [done|done|done|unfold in_range; simpl; lia].
  - apply (proj2 (read_scalar_typed CInt16 _ Hwf) 2%nat 300 (-32768, 32767)); [done|done|done|unfold in_range; simpl; lia].
Defined.

Lemma read_list_rows_witness :
  ∃ a, read_scalar_list (CFixedSizeList CInt8 2) [PgArray [PgInt 2 1; PgNull]; PgNull; PgArray [PgInt 2 3; PgInt 2 4]] = Ok a ∧
       list_row a 2 = Some (AList [ANum 3; ANum 4]) ∧ list_row a 1 = Some ANull.
Proof.
  destruct (read_list_rows (CFixedSizeList CInt8 2) CInt8 (Some 2)
    [PgArray [PgInt 2 1; PgNull]; PgNull; PgArray [PgInt 2 3; PgInt 2 4]]
    [Some [ANum 1; ANull]; None; Some [ANum 3; ANum 4]]) as (a & Ha & Hrow); [done|done|done| |done|].
  - repeat constructor; try (by intros n [= <-]); by eexists.
  - exists a. split; [done|]. by rewrite !Hrow.
Defined.

End CodecDemo.
