(* ===== verification/Watermarks.v ===== *)
(** * Watermark computations (penca-storage-meta/src/watermarks.rs)

    The pure helpers behind the snapshot picker, the snapshot watermark, the
    purge gate and the two transaction-log GC cutoffs. *)

From S2P Require Import Prelude.
From stdpp Require Import base numbers list option sets.

Open Scope Z_scope.

(** [as_of_micros.min(cutoff_micros - 1)] *)
Definition compute_snapshot_picker_as_of (as_of_micros cutoff_micros : Z) : Z :=
  Z.min as_of_micros (cutoff_micros - 1).

Definition SNAPSHOT_SEQ_GENESIS : Z := -1.

Definition compute_snapshot_seq_watermark
    (prev_snapshot_seq : option Z) (included_segment_max_seqs : list Z) : Z :=
  let segments_max := zmax_list included_segment_max_seqs in
  Z.max (default SNAPSHOT_SEQ_GENESIS prev_snapshot_seq)
        (default SNAPSHOT_SEQ_GENESIS segments_max).

(** The durable rung of a new snapshot ([snapshot_op.rs]): one per density window. *)
Definition decide_durable (last_durable_at_micros : option Z) (snapshotted_at_micros : Z)
    (density_seconds : option Z) : bool :=
  match last_durable_at_micros, density_seconds with
  | None, _ => true
  | Some _, None => true
  | Some last, Some d => d * 1000000 <=? snapshotted_at_micros - last
  end.

(** The monotone strict-advance gate of [purge_locked]. *)
Definition compute_purge_watermark (candidate last_purged : option Z) : option Z :=
  match candidate with
  | None => None
  | Some c =>
      match last_purged with
      | Some lp => if c <=? lp then None else Some c
      | None => Some c
      end
  end.

Record PurgeTxLogCutoffs := {
  pu_cutoff : option Z;
  pa_cutoff : option Z;
}.

(** The [for] loop of the source with its early return ([v?]). *)
Fixpoint branch_min_watermark_loop (acc : option Z) (vals : list (option Z)) : option Z :=
  match vals with
  | [] => acc
  | None :: _ => None
  | Some v :: vals' =>
      branch_min_watermark_loop
        (Some (match acc with None => v | Some a => Z.min a v end)) vals'
  end.

Definition branch_min_watermark (vals : list (option Z)) : option Z :=
  branch_min_watermark_loop None vals.

Definition compute_purge_tx_log_cutoffs
    (table_watermarks : list (Z * option Z * option Z)) : PurgeTxLogCutoffs :=
  {| pu_cutoff := branch_min_watermark (map (λ '(_, pu, _), pu) table_watermarks);
     pa_cutoff := branch_min_watermark (map (λ '(_, _, pa), pa) table_watermarks) |}.

(** ** Lemmas *)

Lemma branch_min_watermark_loop_Some vals : ∀ acc m,
  branch_min_watermark_loop acc vals = Some m ↔
    (∀ v, v ∈ vals → is_Some v) ∧
    zmin_list (option_list acc ++ omap id vals) = Some m.
Proof.
  induction vals as [|[v|] vals IH]; intros acc m; cbn [branch_min_watermark_loop].
  - simpl. rewrite app_nil_r. destruct acc; simpl; set_solver.
  - rewrite IH. simpl.
    assert (zmin_list (match acc with None => v | Some a => Z.min a v end :: omap id vals)
            = zmin_list (option_list acc ++ v :: omap id vals)) as Heq.
    { destruct acc as [a|]; simpl; [|done].
      destruct (zmin_list (omap id vals)); simpl; f_equal; lia. }
    simpl in Heq. rewrite Heq.
    split; intros [H1 H2]; split; try done.
    + intros w [->|Hw]%elem_of_cons; eauto.
    + intros w Hw. apply H1. by right.
  - split; [done|]. intros [H _]. destruct (H None) as [? [=]]. by left.
Qed.

Lemma branch_min_watermark_Some vals m :
  branch_min_watermark vals = Some m ↔
    (∀ v, v ∈ vals → is_Some v) ∧ Some m ∈ vals ∧ (∀ w, Some w ∈ vals → m ≤ w).
Proof.
  unfold branch_min_watermark. rewrite branch_min_watermark_loop_Some. simpl.
  rewrite zmin_list_Some. rewrite !list_elem_of_omap. unfold id.
  split.
  - intros [H1 [(x & Hx & ->) H3]]. split_and!; [done|done|].
    intros w Hw. apply H3. rewrite list_elem_of_omap. eauto.
  - intros (H1 & H2 & H3). split_and!; [done|eauto|].
    intros x (y & Hy & ->)%list_elem_of_omap. eauto.
Qed.

(** The transaction-log GC cutoffs are exact.  A committed (aborted) cutoff
    exists iff the branch has a table and every table has been purged on that
    axis, and it is then the least of their watermarks: every commit at or below
    it has left the hot logs of every table, and an unpurged table blocks. *)
Theorem purge_tx_log_cutoffs_exact (ws : list (Z * option Z * option Z)) (m : Z) :
  (pu_cutoff (compute_purge_tx_log_cutoffs ws) = Some m ↔
     (∀ t pu pa, (t, pu, pa) ∈ ws → ∃ p, pu = Some p ∧ m ≤ p) ∧ ∃ t pa, (t, Some m, pa) ∈ ws) ∧
  (pa_cutoff (compute_purge_tx_log_cutoffs ws) = Some m ↔
     (∀ t pu pa, (t, pu, pa) ∈ ws → ∃ p, pa = Some p ∧ m ≤ p) ∧ ∃ t pu, (t, pu, Some m) ∈ ws).
Proof.
  unfold compute_purge_tx_log_cutoffs. cbn [pu_cutoff pa_cutoff].
  rewrite !branch_min_watermark_Some. setoid_rewrite list_elem_of_fmap. split; split.
  - intros (H1 & ([[t p] pa] & Heq & Hin) & H3). split; [|subst; eauto].
    intros t' pu' pa' Hin'. destruct (H1 pu') as [q ->]; [by exists (t', pu', pa')|].
    exists q. split; [done|]. apply H3. by exists (t', Some q, pa').
  - intros [H1 (t & pa & Hin)]. split_and!.
    + intros v ([[t' pu'] pa'] & -> & Hin'). destruct (H1 _ _ _ Hin') as (q & -> & _). eauto.
    + by exists (t, Some m, pa).
    + intros w ([[t' pu'] pa'] & Heq & Hin'). destruct (H1 _ _ _ Hin') as (q & -> & ?). by simplify_eq.
  - intros (H1 & ([[t p] pa] & Heq & Hin) & H3). split; [|subst; eauto].
    intros t' pu' pa' Hin'. destruct (H1 pa') as [q ->]; [by exists (t', pu', pa')|].
    exists q. split; [done|]. apply H3. by exists (t', pu', Some q).
  - intros [H1 (t & pu & Hin)]. split_and!.
    + intros v ([[t' pu'] pa'] & -> & Hin'). destruct (H1 _ _ _ Hin') as (q & -> & _). eauto.
    + by exists (t, pu, Some m).
    + intros w ([[t' pu'] pa'] & Heq & Hin'). destruct (H1 _ _ _ Hin') as (q & -> & ?). by simplify_eq.
Qed.
