(* ===== verification/ReadSnapshot.v ===== *)
(** * Which snapshot a merge-on-read draws from (penca-merge/src/snapshot.rs)

    The visibility point of a read and the bounds the planner and the two
    tiers derive from it. *)

From S2P Require Import Prelude.
From stdpp Require Import base numbers list option.

Open Scope Z_scope.

Inductive ReadSnapshot :=
  | AsOfMicros (ts : Z)
  | AsOfSeq (seq : Z)
  | LatestSeq (seq : Z)
  | OpenTx (began_at_seq_num : Z) (tx_uuid : Z).

#[export] Instance ReadSnapshot_eq_dec : EqDecision ReadSnapshot.
Proof. solve_decision. Defined.

Definition open_tx_uuid (s : ReadSnapshot) : option Z :=
  match s with
  | OpenTx _ tx => Some tx
  | AsOfMicros _ | AsOfSeq _ | LatestSeq _ => None
  end.

Definition plan_as_of_micros (s : ReadSnapshot) : Z :=
  match s with
  | AsOfMicros ts => ts
  | AsOfSeq _ | LatestSeq _ | OpenTx _ _ => I64_MAX
  end.

Definition plan_commit_seq_upper (s : ReadSnapshot) : option Z :=
  match s with
  | AsOfSeq n | LatestSeq n => Some n
  | OpenTx b _ => Some (b - 1)
  | AsOfMicros _ => None
  end.

Definition tighten_for_hot (s : ReadSnapshot) (hot_max : option Z) : ReadSnapshot :=
  match s with
  | AsOfMicros ts =>
      match hot_max with
      | Some hm => AsOfMicros (Z.min ts hm)
      | None => s
      end
  | AsOfSeq _ | LatestSeq _ | OpenTx _ _ => s
  end.

(** ** Specification: which committed versions a snapshot sees

    A version committed at [(micros, seq)]; the open transaction's own writes
    are handled where the hot tier injects them. *)

Definition sees (s : ReadSnapshot) (micros seq : Z) : Prop :=
  match s with
  | AsOfMicros ts => micros ≤ ts
  | AsOfSeq n | LatestSeq n => seq ≤ n
  | OpenTx b _ => seq < b
  end.

#[export] Instance sees_dec s m n : Decision (sees s m n).
Proof. destruct s; simpl; apply _. Defined.

(** The planner's two upper bounds describe [sees] exactly, as long as the
    micros fit an [i64]. *)
Lemma sees_plan_bounds s m n :
  m ≤ I64_MAX →
  sees s m n ↔
    m ≤ plan_as_of_micros s ∧ (∀ u, plan_commit_seq_upper s = Some u → n ≤ u).
Proof.
  intros Hm. destruct s; simpl; split; intros H.
  all: try (split; [lia | intros u [= <-]; lia]).
  all: try (split; [lia | intros u [=]]).
  all: try (destruct H as [H1 H2]).
  all: try (specialize (H2 _ eq_refl)); lia.
Qed.

Lemma sees_tighten s h m n :
  sees (tighten_for_hot s h) m n ↔
    sees s m n ∧ match s, h with AsOfMicros _, Some hm => m ≤ hm | _, _ => True end.
Proof. destruct s, h; simpl; lia. Qed.

Lemma open_tx_uuid_tighten s h : open_tx_uuid (tighten_for_hot s h) = open_tx_uuid s.
Proof. by destruct s, h. Qed.
