(* ===== verification/Dialect.v ===== *)
(** * The SQL dialect contract (penca-sql/src/dialect.rs,
      penca-db/src/dialect/pg.rs, penca-dl/src/dialect.rs)

    The merge builders emit one SQL text for two engines.  The only
    dialect-specific construct, "latest row per partition", is a method of the
    class [Dialect]; [DialectLaws] is what the builders rely on, and both
    engines' statements are proved to satisfy it. *)

From S2P Require Import Prelude.
From stdpp Require Import base numbers list option sets sorting.

Open Scope Z_scope.

(** ** The dialect contract *)

(** [ORDER BY c1 DESC, c2 DESC, ...]: [x] comes before or ties with [y]. *)
Fixpoint desc_le {A} (order_cols : list (A → Z)) (x y : A) : bool :=
  match order_cols with
  | [] => true
  | c :: cs => (c y <? c x) || ((c x =? c y) && desc_le cs x y)
  end.

Definition desc_lt {A} (order_cols : list (A → Z)) (x y : A) : bool :=
  desc_le order_cols x y && negb (desc_le order_cols y x).

Class Dialect := {
  latest_per_partition :
    ∀ {A : Type}, list A → (A → Z) → list (A → Z) → list A
}.

(** What a dialect promises to the merge builders: one row per partition, and
    that row is a maximum of its partition. *)
Record latest_ok {A} (inner : list A) (part : A → Z) (cols : list (A → Z))
    (out : list A) : Prop := {
  latest_nodup : NoDup (part <$> out);
  latest_sound : ∀ x, x ∈ out →
    x ∈ inner ∧ ∀ y, y ∈ inner → part y = part x → desc_le cols x y = true;
  latest_complete : ∀ y, y ∈ inner → ∃ x, x ∈ out ∧ part x = part y;
}.

Class DialectLaws (D : Dialect) : Prop :=
  latest_per_partition_ok : ∀ A (inner : list A) part cols,
    latest_ok inner part cols (latest_per_partition inner part cols).

(** *** Postgres: [SELECT DISTINCT ON (p) ... ORDER BY p, c1 DESC, ...] *)

Definition pg_order {A} (part : A → Z) (cols : list (A → Z)) (x y : A) : Prop :=
  part x < part y ∨ (part x = part y ∧ desc_le cols x y = true).

#[export] Instance pg_order_dec {A} (part : A → Z) cols : RelDecision (pg_order part cols).
Proof. intros x y. unfold pg_order. apply _. Defined.

Fixpoint distinct_on {A} (part : A → Z) (prev : option Z) (l : list A) : list A :=
  match l with
  | [] => []
  | x :: l' =>
      if decide (prev = Some (part x)) then distinct_on part prev l'
      else x :: distinct_on part (Some (part x)) l'
  end.

Definition pg_latest_per_partition {A} (inner : list A) (part : A → Z)
    (order_cols : list (A → Z)) : list A :=
  distinct_on part None (merge_sort (pg_order part order_cols) inner).

#[export] Instance PgDialect : Dialect :=
  {| latest_per_partition := @pg_latest_per_partition |}.

(** *** DataFusion: [ROW_NUMBER() OVER (PARTITION BY p ORDER BY ...) = 1]

    The row number of a row is one more than the number of rows of its
    partition that sort before it; ties are numbered in input order. *)

Definition row_number {A} (part : A → Z) (cols : list (A → Z))
    (pre : list A) (x : A) (suf : list A) : nat :=
  S (length (filter (λ y, part y = part x ∧ desc_le cols y x = true) pre)
     + length (filter (λ y, part y = part x ∧ desc_lt cols y x = true) suf)).

Fixpoint row_numbers {A} (part : A → Z) (cols : list (A → Z))
    (pre l : list A) : list (A * nat) :=
  match l with
  | [] => []
  | x :: l' => (x, row_number part cols pre x l') :: row_numbers part cols (pre ++ [x]) l'
  end.

Definition df_latest_per_partition {A} (inner : list A) (part : A → Z)
    (order_cols : list (A → Z)) : list A :=
  fst <$> filter (λ p, p.2 = 1%nat) (row_numbers part order_cols [] inner).

Definition DfDialect : Dialect :=
  {| latest_per_partition := @df_latest_per_partition |}.

(** *** The order is a total preorder *)

Section desc_order.
Context {A : Type} (cols : list (A → Z)).

Lemma desc_le_refl x : desc_le cols x x = true.
Proof. induction cols as [|c cs IH]; simpl; [done|]. rewrite IH, Z.eqb_refl. apply orb_true_r. Qed.

Lemma desc_le_total x y : desc_le cols x y = true ∨ desc_le cols y x = true.
Proof.
  induction cols as [|c cs IH]; simpl; [by left|].
  destruct (Z.ltb_spec (c y) (c x)), (Z.ltb_spec (c x) (c y)); simpl; auto.
  assert (c x = c y) as -> by lia. rewrite Z.eqb_refl. apply IH.
Qed.

Lemma desc_le_trans x y z :
  desc_le cols x y = true → desc_le cols y z = true → desc_le cols x z = true.
Proof.
  induction cols as [|c cs IH]; simpl; [done|].
  rewrite !orb_true_iff, !andb_true_iff, !Z.ltb_lt, !Z.eqb_eq.
  intros [?|[? ?]] [?|[? ?]]; [left; lia..|]. right. split; [lia|auto].
Qed.

Lemma desc_lt_false x y : desc_lt cols x y = false ↔ desc_le cols y x = true.
Proof.
  unfold desc_lt. pose proof (desc_le_total x y).
  destruct (desc_le cols x y), (desc_le cols y x); simpl; naive_solver.
Qed.

Lemma desc_le_false x y : desc_le cols x y = false → desc_le cols y x = true.
Proof. destruct (desc_le_total x y); congruence. Qed.
End desc_order.

(** *** The Postgres dialect keeps the contract *)

Section pg.
Context {A : Type} (part : A → Z) (cols : list (A → Z)).

#[local] Instance pg_order_total : Total (pg_order part cols).
Proof.
  intros x y. unfold pg_order. pose proof (desc_le_total cols x y).
  destruct (Ztrichotomy (part x) (part y)) as [?|[?|?]]; naive_solver lia.
Qed.

#[local] Instance pg_order_trans : Transitive (pg_order part cols).
Proof.
  intros x y z. unfold pg_order. intros [?|[? ?]] [?|[? ?]]; [left; lia..|].
  right. split; [lia|]. eapply desc_le_trans; eauto.
Qed.

Lemma distinct_on_sub prev l : ∀ x, x ∈ distinct_on part prev l → x ∈ l.
Proof.
  revert prev; induction l as [|y l IH]; intros prev x; simpl; [done|].
  case_decide; [intros ?%IH|intros [->|?%IH]%elem_of_cons]; set_solver.
Qed.

(** On a list sorted by [pg_order] whose rows are not below [prev]. *)
Lemma distinct_on_ok l : ∀ prev,
  StronglySorted (pg_order part cols) l →
  (∀ p x, prev = Some p → x ∈ l → p ≤ part x) →
  NoDup (part <$> distinct_on part prev l) ∧
  (∀ x, x ∈ distinct_on part prev l → prev ≠ Some (part x) ∧
        ∀ y, y ∈ l → part y = part x → desc_le cols x y = true) ∧
  (∀ y, y ∈ l → prev = Some (part y) ∨ ∃ x, x ∈ distinct_on part prev l ∧ part x = part y).
Proof.
  induction l as [|z l IH]; intros prev Hs Hprev; simpl.
  { split_and!; [constructor| |]; intros ? H; by apply not_elem_of_nil in H. }
  inversion Hs as [|? ? Hs' Hall]; subst. rewrite Forall_forall in Hall.
  case_decide as Hd.
  - destruct (IH prev Hs') as (H1 & H2 & H3); [set_solver|].
    split_and!; [done| |].
    + intros x Hx. destruct (H2 x Hx) as [Hne Hle]. split; [done|].
      intros y [->|Hy]%elem_of_cons; [|by apply Hle]. congruence.
    + intros y [->|Hy]%elem_of_cons; [by left|auto].
  - destruct (IH (Some (part z)) Hs') as (H1 & H2 & H3).
    { intros p x [= <-] Hx. destruct (Hall x Hx) as [?|[? ?]]; lia. }
    split_and!.
    + simpl. constructor; [|done]. intros (x & Hp & Hx)%list_elem_of_fmap.
      destruct (H2 x Hx) as [Hne _]. congruence.
    + intros x [->|Hx]%elem_of_cons.
      * split; [done|]. intros y [->|Hy]%elem_of_cons Hp; [apply desc_le_refl|].
        destruct (Hall y Hy) as [?|[? ?]]; [lia|done].
      * destruct (H2 x Hx) as [Hne Hle]. split.
        -- intros ->. pose proof (Hprev _ z eq_refl ltac:(set_solver)).
           destruct (Hall x (distinct_on_sub _ _ _ Hx)) as [?|[? ?]]; [lia|congruence].
        -- intros y [->|Hy]%elem_of_cons Hp; [congruence|by apply Hle].
    + intros y [->|Hy]%elem_of_cons.
      * right. exists z. set_solver.
      * destruct (H3 y Hy) as [[= Heq]|(x & Hx & Hp)]; right; set_solver.
Qed.

Lemma pg_latest_ok inner : latest_ok inner part cols (pg_latest_per_partition inner part cols).
Proof.
  unfold pg_latest_per_partition.
  pose proof (merge_sort_Permutation (pg_order part cols) inner) as HP.
  destruct (distinct_on_ok (merge_sort (pg_order part cols) inner) None) as (H1 & H2 & H3).
  { apply StronglySorted_merge_sort; apply _. }
  { done. }
  split; [done| |].
  - intros x Hx. split.
    + rewrite <- HP. by eapply distinct_on_sub.
    + intros y Hy. apply (proj2 (H2 x Hx)). by rewrite HP.
  - intros y Hy. destruct (H3 y) as [?|?]; [by rewrite HP|done|done].
Qed.
End pg.

#[export] Instance PgDialect_laws : DialectLaws PgDialect.
Proof. intros A inner part cols. apply pg_latest_ok. Qed.

(** *** The DataFusion dialect keeps the contract *)

Section df.
Context {A : Type} (part : A → Z) (cols : list (A → Z)).

Lemma row_numbers_elem l : ∀ pre x n,
  (x, n) ∈ row_numbers part cols pre l ↔
  ∃ l1 l2, l = l1 ++ x :: l2 ∧ n = row_number part cols (pre ++ l1) x l2.
Proof.
  induction l as [|y l IH]; intros pre x n; simpl.
  - split; [by intros ?%not_elem_of_nil|]. intros (l1 & l2 & H & _). by destruct l1.
  - rewrite elem_of_cons, IH. split.
    + intros [[= -> ->]|(l1 & l2 & -> & ->)].
      * exists [], l. by rewrite app_nil_r.
      * exists (y :: l1), l2. by rewrite <- app_assoc.
    + intros ([|y' l1] & l2 & [= <- ->] & ->).
      * left. by rewrite app_nil_r.
      * right. exists l1, l2. by rewrite <- app_assoc.
Qed.

Lemma row_number_1 pre x suf :
  row_number part cols pre x suf = 1%nat ↔
  (∀ y, y ∈ pre → part y = part x → desc_le cols y x = false) ∧
  (∀ y, y ∈ suf → part y = part x → desc_le cols x y = true).
Proof.
  unfold row_number. split.
  - intros H. assert (Hp := H). split.
    + destruct (filter (λ y, part y = part x ∧ desc_le cols y x = true) pre) eqn:E; [|done].
      intros y Hy Hpy. destruct (desc_le cols y x) eqn:Hle; [|done].
      assert (y ∈ @nil A) as []%not_elem_of_nil. rewrite <- E. by apply list_elem_of_filter.
    + destruct (filter (λ y, part y = part x ∧ desc_lt cols y x = true) suf) eqn:E;
        [|simpl in H; lia].
      intros y Hy Hpy. apply desc_lt_false. destruct (desc_lt cols y x) eqn:Hlt; [|done].
      assert (y ∈ @nil A) as []%not_elem_of_nil. rewrite <- E. by apply list_elem_of_filter.
  - intros [H1 H2]. f_equal.
    assert (filter (λ y, part y = part x ∧ desc_le cols y x = true) pre = []) as ->.
    { destruct (filter _ pre) as [|y k] eqn:E; [done|].
      assert (y ∈ y :: k) as Hy by set_solver. rewrite <- E in Hy.
      apply list_elem_of_filter in Hy as [[Hp Hle] Hy]. rewrite (H1 y Hy Hp) in Hle. done. }
    assert (filter (λ y, part y = part x ∧ desc_lt cols y x = true) suf = []) as ->; [|done].
    destruct (filter _ suf) as [|y k] eqn:E; [done|].
    assert (y ∈ y :: k) as Hy by set_solver. rewrite <- E in Hy.
    apply list_elem_of_filter in Hy as [[Hp Hlt] Hy].
    specialize (H2 y Hy Hp). apply desc_lt_false in H2. congruence.
Qed.

(** Every non-empty partition has a row numbered one. *)
Lemma first_max_exists k l :
  (∃ y, y ∈ l ∧ part y = k) →
  ∃ l1 x l2, l = l1 ++ x :: l2 ∧ part x = k ∧
    (∀ y, y ∈ l1 → part y = k → desc_le cols y x = false) ∧
    (∀ y, y ∈ l2 → part y = k → desc_le cols x y = true).
Proof.
  induction l as [|z l IH]; [intros (y & []%not_elem_of_nil & _)|]. intros Hex.
  destruct (decide (Exists (λ y, part y = k) l)) as [Hl|Hl].
  - apply Exists_exists in Hl as (y & Hy & Hpy).
    destruct IH as (l1 & x & l2 & -> & Hp & H1 & H2); [eauto|].
    destruct (decide (part z = k ∧ desc_le cols z x = true)) as [[Hz Hzx]|Hz].
    + exists [], z, (l1 ++ x :: l2). split_and!; [done|done|set_solver|].
      intros w [Hw|[->|Hw]%elem_of_cons]%elem_of_app Hpw; [|done|].
      * eapply desc_le_trans; [exact Hzx|]. apply desc_le_false. by apply H1.
      * eapply desc_le_trans; [exact Hzx|]. by apply H2.
    + exists (z :: l1), x, l2. split_and!; [done|done| |done].
      intros w [->|Hw]%elem_of_cons Hpw; [|by apply H1].
      destruct (desc_le cols z x) eqn:E; naive_solver.
  - destruct Hex as (y & [->|Hy]%elem_of_cons & Hp).
    + exists [], z, l. split_and!; [done|done|set_solver|].
      intros w Hw Hpw. exfalso. apply Hl, Exists_exists. eauto.
    + exfalso. apply Hl, Exists_exists. eauto.
Qed.

Lemma df_elem inner x :
  x ∈ df_latest_per_partition inner part cols ↔
  ∃ l1 l2, inner = l1 ++ x :: l2 ∧
    (∀ y, y ∈ l1 → part y = part x → desc_le cols y x = false) ∧
    (∀ y, y ∈ l2 → part y = part x → desc_le cols x y = true).
Proof.
  unfold df_latest_per_partition. rewrite list_elem_of_fmap. split.
  - intros ([x' n] & -> & [Hn (l1 & l2 & -> & ->)%row_numbers_elem]%list_elem_of_filter).
    simpl in Hn. apply row_number_1 in Hn. exists l1, l2. naive_solver.
  - intros (l1 & l2 & -> & H). exists (x, 1%nat). split; [done|].
    apply list_elem_of_filter. split; [done|]. apply row_numbers_elem.
    exists l1, l2. split; [done|]. symmetry. by apply row_number_1.
Qed.

Lemma df_nodup l : ∀ pre,
  NoDup (part <$> (fst <$> filter (λ p, p.2 = 1%nat) (row_numbers part cols pre l))).
Proof.
  induction l as [|x l IH]; intros pre; simpl; [constructor|].
  rewrite filter_cons. case_decide as Hd; [|apply IH]. simpl. constructor; [|apply IH].
  intros (y & Hp & ([y' n] & -> & [Hn Hy]%list_elem_of_filter)%list_elem_of_fmap)%list_elem_of_fmap.
  simpl in *. apply row_numbers_elem in Hy as (l1 & l2 & -> & ->).
  apply row_number_1 in Hn as [Hn _]. apply row_number_1 in Hd as [_ Hd].
  specialize (Hd y' ltac:(set_solver) ltac:(done)).
  specialize (Hn x ltac:(set_solver) ltac:(done)). congruence.
Qed.

Lemma df_latest_ok inner : latest_ok inner part cols (df_latest_per_partition inner part cols).
Proof.
  split.
  - apply df_nodup.
  - intros x (l1 & l2 & -> & H1 & H2)%df_elem. split; [set_solver|].
    intros y [Hy|[->|Hy]%elem_of_cons]%elem_of_app Hp.
    + apply desc_le_false. auto.
    + apply desc_le_refl.
    + auto.
  - intros y Hy. destruct (first_max_exists (part y) inner) as (l1 & x & l2 & -> & Hp & H); [eauto|].
    exists x. split; [|done]. apply df_elem. exists l1, l2. rewrite Hp. naive_solver.
Qed.
End df.

#[export] Instance DfDialect_laws : DialectLaws DfDialect.
Proof. intros A inner part cols. apply df_latest_ok. Qed.
