(* ===== verification/MergeSql.v ===== *)
(** * Merge-on-read SQL (penca-sql/src/merge_resolution.rs, penca-merge/src/sql.rs)

    A statement is modelled by the relation it denotes: a FROM source is the
    list of its rows, a CTE is a list, a predicate a boolean function.  The
    builders below mirror the Rust builders one to one and compose the same
    way: tier-specific sources, the shared composite resolution, the two-arm
    final SELECT. *)

From S2P Require Import Prelude ReadSnapshot Dialect.
From stdpp Require Import base numbers list option sets.

Open Scope Z_scope.

(** ** Rows *)

(** A canonical-shape source row: [(row_uuid, <cols>, commit_micros,
    write_seq_num, commit_seq_num)]; deletes carry no user columns. *)
Record src_row (A : Type) := SrcRow {
  row_uuid : Z;
  cols : A;
  commit_micros : Z;
  write_seq_num : Z;
  commit_seq_num : Z;
}.
Arguments SrcRow {A}. Arguments row_uuid {A}. Arguments cols {A}.
Arguments commit_micros {A}. Arguments write_seq_num {A}. Arguments commit_seq_num {A}.

(** A row of a hot upsert or delete log. *)
Record log_row (A : Type) := LogRow {
  lr_version_uuid : Z;
  lr_row_uuid : Z;
  lr_tx_uuid : Z;
  lr_write_seq_num : Z;
  lr_cols : A;
}.
Arguments LogRow {A}. Arguments lr_version_uuid {A}. Arguments lr_row_uuid {A}.
Arguments lr_tx_uuid {A}. Arguments lr_write_seq_num {A}. Arguments lr_cols {A}.

(** A row of [commit_tx_log]. *)
Record commit_row := CommitRow {
  ct_tx_uuid : Z;
  ct_commit_micros : Z;
  ct_commit_seq_num : Z;
}.

(** A row of the two-arm resolve. *)
Record resolved_row (V : Type) := ResolvedRow {
  rr_row_uuid : Z;
  rr_cols : option V;
  rr_commit_micros : Z;
  rr_is_delete : bool;
}.
Arguments ResolvedRow {V}. Arguments rr_row_uuid {V}. Arguments rr_cols {V}.
Arguments rr_commit_micros {V}. Arguments rr_is_delete {V}.

(** ** The composite tiebreaker *)

(** [(left_a, left_b) > (right_a, right_b)], or [>=] when not [strict_tie]. *)
Definition lex_compare_predicate (left_a left_b right_a right_b : Z) (strict_tie : bool) : bool :=
  (right_a <? left_a) ||
  ((left_a =? right_a) && (if strict_tie then right_b <? left_b else right_b <=? left_b)).

(** The primary ordering column: [commit_seq_num] for reads,
    [commit_micros] for the branch merge. *)
Inductive order_primary := OrderCommitSeqNum | OrderCommitMicros.

Definition primary_col {A} (o : order_primary) (x : src_row A) : Z :=
  match o with
  | OrderCommitSeqNum => commit_seq_num x
  | OrderCommitMicros => commit_micros x
  end.

Definition order_cols {A} (o : order_primary) : list (src_row A → Z) :=
  [primary_col o; write_seq_num].

Record CompositeMergeResolution (V : Type) := {
  latest_cte : list (src_row V);
  deletes_cte : list (src_row unit);
  upsert_visible_predicate : src_row V → option (src_row unit) → bool;
  delete_visible_predicate : src_row unit → option (src_row V) → bool;
}.
Arguments latest_cte {V}. Arguments deletes_cte {V}.
Arguments upsert_visible_predicate {V}. Arguments delete_visible_predicate {V}.

Definition build_composite_merge_resolution `{Dialect} {V}
    (upsert_source : list (src_row V)) (delete_source : list (src_row unit))
    (o : order_primary) : CompositeMergeResolution V :=
  {| latest_cte := latest_per_partition upsert_source row_uuid (order_cols o);
     deletes_cte := latest_per_partition delete_source row_uuid (order_cols o);
     upsert_visible_predicate := λ l d,
       match d with
       | None => true
       | Some d => lex_compare_predicate (primary_col o l) (write_seq_num l)
                                         (primary_col o d) (write_seq_num d) false
       end;
     delete_visible_predicate := λ d l,
       match l with
       | None => true
       | Some l => lex_compare_predicate (primary_col o d) (write_seq_num d)
                                         (primary_col o l) (write_seq_num l) true
       end |}.

(** [FROM l LEFT JOIN r ON l.row_uuid = r.row_uuid] *)
Definition left_join {A B} (l : list (src_row A)) (r : list (src_row B)) :
    list (src_row A * option (src_row B)) :=
  mbind (λ x, match filter (λ y, row_uuid x = row_uuid y) r with
              | [] => [(x, None)]
              | ys => (λ y, (x, Some y)) <$> ys
              end) l.

Definition two_arm_resolve_select {V} (c : CompositeMergeResolution V) : list (resolved_row V) :=
  ((λ p : src_row V * option (src_row unit),
      ResolvedRow (row_uuid p.1) (Some (cols p.1)) (commit_micros p.1) false)
   <$> filter (λ p, upsert_visible_predicate c p.1 p.2 = true)
              (left_join (latest_cte c) (deletes_cte c)))
  ++
  ((λ p : src_row unit * option (src_row V),
      ResolvedRow (row_uuid p.1) (cols <$> p.2) (commit_micros p.1) true)
   <$> filter (λ p, delete_visible_predicate c p.1 p.2 = true)
              (left_join (deletes_cte c) (latest_cte c))).

(** ** Clauses *)

(** [row_uuid IN (...)]; an absent or empty list emits no restriction. *)
Definition row_uuid_in_clause (row_uuids : option (list Z)) (r : Z) : bool :=
  match row_uuids with
  | Some (u :: us) => bool_decide (r ∈ u :: us)
  | _ => true
  end.

Definition cold_visibility_clause {A} (committed_from committed_to commit_seq_upper : option Z)
    (x : src_row A) : bool :=
  match committed_from with Some mn => mn <=? commit_micros x | None => true end &&
  match committed_to with Some mx => commit_micros x <? mx | None => true end &&
  match commit_seq_upper with Some s => commit_seq_num x <=? s | None => true end.

Definition read_snapshot_clause (tier_seq_lower : option Z) (snapshot : ReadSnapshot)
    (c : commit_row) : bool :=
  match tier_seq_lower with Some w => w <? ct_commit_seq_num c | None => true end &&
  match snapshot with
  | AsOfMicros ts => ct_commit_micros c <=? ts
  | AsOfSeq seq | LatestSeq seq => ct_commit_seq_num c <=? seq
  | OpenTx began_at_seq_num _ => ct_commit_seq_num c <? began_at_seq_num
  end.

Definition open_tx_union_clause (snapshot : ReadSnapshot) : list commit_row :=
  match snapshot with
  | AsOfMicros _ | AsOfSeq _ | LatestSeq _ => []
  | OpenTx _ tx => [CommitRow tx I64_MAX I64_MAX]
  end.

(** ** Builders *)

Definition committed_tx (tier_seq_lower : option Z) (snapshot : ReadSnapshot)
    (commit_tx_log : list commit_row) : list commit_row :=
  filter (λ c, read_snapshot_clause tier_seq_lower snapshot c = true) commit_tx_log
  ++ open_tx_union_clause snapshot.

(** [log JOIN committed_tx USING (tx_uuid) WHERE row_uuid IN (...)] *)
Definition hot_source {A} (row_uuids : option (list Z)) (log : list (log_row A))
    (committed : list commit_row) : list (src_row A) :=
  mbind (λ u, (λ c, SrcRow (lr_row_uuid u) (lr_cols u) (ct_commit_micros c)
                           (lr_write_seq_num u) (ct_commit_seq_num c))
              <$> filter (λ c, ct_tx_uuid c = lr_tx_uuid u) committed)
    (filter (λ u, row_uuid_in_clause row_uuids (lr_row_uuid u) = true) log).

Definition build_merge_resolved `{Dialect} {V}
    (upsert_log : list (log_row V)) (delete_log : list (log_row unit))
    (commit_tx_log : list commit_row)
    (tier_seq_lower : option Z) (snapshot : ReadSnapshot) (row_uuids : option (list Z)) :
    list (resolved_row V) :=
  let committed := committed_tx tier_seq_lower snapshot commit_tx_log in
  let upsert_source := hot_source row_uuids upsert_log committed in
  let delete_source := hot_source row_uuids delete_log committed in
  two_arm_resolve_select
    (build_composite_merge_resolution upsert_source delete_source OrderCommitSeqNum).

Definition cold_source {A} (committed_from committed_to commit_seq_upper : option Z)
    (row_uuids : option (list Z)) (log : list (src_row A)) : list (src_row A) :=
  filter (λ x, cold_visibility_clause committed_from committed_to commit_seq_upper x = true ∧
               row_uuid_in_clause row_uuids (row_uuid x) = true) log.

Definition build_cold_merge_resolved `{Dialect} {V}
    (upsert_log : list (src_row V)) (delete_log : list (src_row unit))
    (committed_from committed_to commit_seq_upper : option Z) (row_uuids : option (list Z)) :
    list (resolved_row V) :=
  two_arm_resolve_select
    (build_composite_merge_resolution
       (cold_source committed_from committed_to commit_seq_upper row_uuids upsert_log)
       (cold_source committed_from committed_to commit_seq_upper row_uuids delete_log)
       OrderCommitSeqNum).

(** The user predicate of a read: absent (or empty) filters nothing. *)
Definition user_filter {V} (f : option (Z * V → bool)) (x : Z * V) : bool :=
  match f with Some p => p x | None => true end.

Definition build_cold_snapshot_scan {V} (snapshot_rows : list (Z * V)) (exclusion : list Z)
    (f : option (Z * V → bool)) (row_uuids : option (list Z)) : list (Z * V) :=
  filter (λ x, x.1 ∉ exclusion ∧ row_uuid_in_clause row_uuids x.1 = true ∧
               user_filter f x = true) snapshot_rows.

Definition build_cold_snapshot_scan_plain {V} (snapshot_rows : list (Z * V))
    (f : option (Z * V → bool)) : list (Z * V) :=
  filter (λ x, user_filter f x = true) snapshot_rows.

(** ** Specification: the winning version of a row

    Versions are ordered by [(primary, write_seq_num)]; on equal keys an upsert
    beats a delete. *)

Section spec.
Context (o : order_primary).

Definition kle {A B} (x : src_row A) (y : src_row B) : Prop :=
  primary_col o x < primary_col o y ∨
  (primary_col o x = primary_col o y ∧ write_seq_num x ≤ write_seq_num y).

Definition klt {A B} (x : src_row A) (y : src_row B) : Prop :=
  primary_col o x < primary_col o y ∨
  (primary_col o x = primary_col o y ∧ write_seq_num x < write_seq_num y).

(** [u] is the version of its row that a reader of the upserts [U] and the
    deletes [D] must see. *)
Definition live_version {V} (U : list (src_row V)) (D : list (src_row unit)) (u : src_row V) : Prop :=
  u ∈ U ∧
  (∀ u', u' ∈ U → row_uuid u' = row_uuid u → kle u' u) ∧
  (∀ d, d ∈ D → row_uuid d = row_uuid u → kle d u).

(** [d] is the tombstone that wins its row. *)
Definition dead_version {V} (U : list (src_row V)) (D : list (src_row unit)) (d : src_row unit) : Prop :=
  d ∈ D ∧
  (∀ d', d' ∈ D → row_uuid d' = row_uuid d → kle d' d) ∧
  (∀ u, u ∈ U → row_uuid u = row_uuid d → klt u d).

Definition touched {V} (U : list (src_row V)) (D : list (src_row unit)) (r : Z) : Prop :=
  (∃ u, u ∈ U ∧ row_uuid u = r) ∨ (∃ d, d ∈ D ∧ row_uuid d = r).
End spec.

(** ** The order and the winner *)

Section order.
Context (o : order_primary).

Lemma order_cols_kle {A} (x y : src_row A) :
  desc_le (order_cols o) x y = true ↔ kle o y x.
Proof.
  unfold order_cols, kle; simpl.
  rewrite !orb_true_iff, !andb_true_iff, !Z.ltb_lt, !Z.eqb_eq, orb_true_iff, andb_true_iff,
    Z.ltb_lt, Z.eqb_eq.
  intuition lia.
Qed.

Lemma lex_compare_kle {A B} (x : src_row A) (y : src_row B) :
  lex_compare_predicate (primary_col o x) (write_seq_num x)
    (primary_col o y) (write_seq_num y) false = true ↔ kle o y x.
Proof.
  unfold lex_compare_predicate, kle.
  rewrite orb_true_iff, andb_true_iff, Z.ltb_lt, Z.eqb_eq, Z.leb_le. lia.
Qed.

Lemma lex_compare_klt {A B} (x : src_row A) (y : src_row B) :
  lex_compare_predicate (primary_col o x) (write_seq_num x)
    (primary_col o y) (write_seq_num y) true = true ↔ klt o y x.
Proof.
  unfold lex_compare_predicate, klt.
  rewrite orb_true_iff, andb_true_iff, Z.ltb_lt, Z.eqb_eq, Z.ltb_lt. lia.
Qed.

Lemma kle_trans {A B C} (x : src_row A) (y : src_row B) (z : src_row C) :
  kle o x y → kle o y z → kle o x z.
Proof. unfold kle. lia. Qed.

Lemma kle_klt_trans {A B C} (x : src_row A) (y : src_row B) (z : src_row C) :
  kle o x y → klt o y z → klt o x z.
Proof. unfold kle, klt. lia. Qed.

Lemma not_klt_kle {A B} (x : src_row A) (y : src_row B) : ¬ klt o x y ↔ kle o y x.
Proof. unfold kle, klt. lia. Qed.

Lemma live_dead_disjoint {V} U D (u : src_row V) d :
  live_version o U D u → dead_version o U D d → row_uuid u ≠ row_uuid d.
Proof.
  intros (Hu & _ & Hd) (Hd' & _ & Hlt) Heq.
  apply (not_klt_kle u d); [by apply Hd|by apply Hlt].
Qed.

Lemma live_touched {V} U D (u : src_row V) : live_version o U D u → touched U D (row_uuid u).
Proof. intros [? _]; left; eauto. Qed.
End order.

#[export] Instance kle_dec o {A B} (x : src_row A) (y : src_row B) : Decision (kle o x y).
Proof. unfold kle. apply _. Defined.

Section left_join.
Context {A B : Type}.

Lemma filter_row_uuid_unique (r : list (src_row B)) k :
  NoDup (row_uuid <$> r) →
  filter (λ y, k = row_uuid y) r = option_list (head (filter (λ y, k = row_uuid y) r)).
Proof.
  induction r as [|y r IH]; [done|]. rewrite fmap_cons, NoDup_cons, filter_cons.
  intros [Hy Hnd]. case_decide as Hk; [|by apply IH].
  destruct (filter _ r) as [|z zs] eqn:E; [done|].
  assert (z ∈ z :: zs) as Hz by set_solver. rewrite <- E in Hz.
  apply list_elem_of_filter in Hz as [Hz1 Hz2].
  destruct Hy. apply list_elem_of_fmap. exists z. split; congruence.
Qed.

Lemma left_join_fmap (l : list (src_row A)) (r : list (src_row B)) :
  NoDup (row_uuid <$> r) →
  left_join l r = (λ x, (x, head (filter (λ y, row_uuid x = row_uuid y) r))) <$> l.
Proof.
  intros Hnd. unfold left_join. induction l as [|x l IH]; [done|].
  rewrite bind_cons, fmap_cons, IH, (filter_row_uuid_unique _ _ Hnd). simpl.
  destruct (head _); done.
Qed.

Lemma left_join_elem (l : list (src_row A)) (r : list (src_row B)) x d :
  (x, d) ∈ left_join l r → x ∈ l ∧
    match d with
    | Some y => y ∈ r ∧ row_uuid x = row_uuid y
    | None => ∀ y, y ∈ r → row_uuid x ≠ row_uuid y
    end.
Proof.
  unfold left_join. intros (x' & Hin & Hx')%list_elem_of_bind.
  destruct (filter _ r) as [|z zs] eqn:E.
  - apply list_elem_of_singleton in Hin as [= -> ->]. split; [done|]. intros y Hy Heq.
    assert (y ∈ @nil (src_row B)) as []%not_elem_of_nil. rewrite <- E.
    by apply list_elem_of_filter.
  - apply list_elem_of_fmap in Hin as (y & [= -> ->] & Hy). rewrite <- E in Hy.
    apply list_elem_of_filter in Hy. naive_solver.
Qed.

Lemma left_join_total (l : list (src_row A)) (r : list (src_row B)) x :
  x ∈ l → ∃ d, (x, d) ∈ left_join l r.
Proof.
  intros Hx. unfold left_join. setoid_rewrite list_elem_of_bind.
  destruct (filter (λ y, row_uuid x = row_uuid y) r) as [|z zs] eqn:E.
  - exists None, x. rewrite E. set_solver.
  - exists (Some z), x. rewrite E. set_solver.
Qed.
End left_join.

(** ** What a resolve promises

    The output of the two-arm SELECT over the upserts [U] and the deletes [D]:
    every touched row exactly once, as its live version or its tombstone. *)

Record resolve_ok (o : order_primary) {V} (U : list (src_row V)) (D : list (src_row unit))
    (out : list (resolved_row V)) : Prop := {
  ro_nodup : NoDup (rr_row_uuid <$> out);
  ro_sound : ∀ x, x ∈ out →
    (rr_is_delete x = false ∧ ∃ u, live_version o U D u ∧ rr_row_uuid x = row_uuid u ∧
        rr_cols x = Some (cols u) ∧ rr_commit_micros x = commit_micros u) ∨
    (rr_is_delete x = true ∧ ∃ d, dead_version o U D d ∧ rr_row_uuid x = row_uuid d ∧
        rr_commit_micros x = commit_micros d);
  ro_complete : ∀ r, touched U D r → r ∈ rr_row_uuid <$> out;
}.

Section two_arm.
Context {Dl : Dialect} {DL : DialectLaws Dl} {V : Type} (o : order_primary).
Context (U : list (src_row V)) (T : list (src_row unit)).

Let c := build_composite_merge_resolution U T o.
Let HL : latest_ok U row_uuid (order_cols o) (latest_cte c) := latest_per_partition_ok _ _ _ _.
Let HD : latest_ok T row_uuid (order_cols o) (deletes_cte c) := latest_per_partition_ok _ _ _ _.

Lemma latest_max l : l ∈ latest_cte c →
  l ∈ U ∧ ∀ u, u ∈ U → row_uuid u = row_uuid l → kle o u l.
Proof using HL.
  intros Hl. destruct (latest_sound _ _ _ _ HL l Hl) as [? Hmax]. split; [done|].
  intros u Hu Heq. apply order_cols_kle. auto.
Qed.

Lemma deletes_max d : d ∈ deletes_cte c →
  d ∈ T ∧ ∀ d', d' ∈ T → row_uuid d' = row_uuid d → kle o d' d.
Proof using HD.
  intros Hd. destruct (latest_sound _ _ _ _ HD d Hd) as [? Hmax]. split; [done|].
  intros u Hu Heq. apply order_cols_kle. auto.
Qed.

Lemma upsert_arm_live l d :
  (l, d) ∈ left_join (latest_cte c) (deletes_cte c) →
  upsert_visible_predicate c l d = true → live_version o U T l.
Proof using HL HD.
  intros [Hl Hd]%left_join_elem Hvis. destruct (latest_max l Hl) as [HlU Hmax].
  split_and!; [done|done|]. intros t Ht Heq.
  destruct (latest_complete _ _ _ _ HD t Ht) as (t' & Ht' & Hrow).
  destruct (deletes_max t' Ht') as [_ Hmax'].
  destruct d as [d|]; simpl in *.
  - destruct Hd as [Hd Hrd]. apply lex_compare_kle in Hvis.
    assert (kle o t d); [|by eapply kle_trans].
    destruct (deletes_max d Hd) as [_ Hm]. apply Hm; [done|congruence].
  - exfalso. apply (Hd t' Ht'). congruence.
Qed.

Lemma delete_arm_dead d l :
  (d, l) ∈ left_join (deletes_cte c) (latest_cte c) →
  delete_visible_predicate c d l = true → dead_version o U T d.
Proof using HL HD.
  intros [Hd Hl]%left_join_elem Hvis. destruct (deletes_max d Hd) as [HdT Hmax].
  split_and!; [done|done|]. intros u Hu Heq.
  destruct (latest_complete _ _ _ _ HL u Hu) as (u' & Hu' & Hrow).
  destruct l as [l|]; simpl in *.
  - destruct Hl as [Hl Hrl]. apply lex_compare_klt in Hvis.
    eapply kle_klt_trans; [|exact Hvis].
    destruct (latest_max l Hl) as [_ Hm]. apply Hm; [done|congruence].
  - exfalso. apply (Hl u' Hu'). congruence.
Qed.

(** One of the two arms emits each touched row. *)
Lemma two_arm_complete r :
  touched U T r → r ∈ rr_row_uuid <$> two_arm_resolve_select c.
Proof using HL HD.
  intros Htouch. unfold two_arm_resolve_select. rewrite fmap_app, elem_of_app.
  rewrite <- !list_fmap_compose, !list_elem_of_fmap.
  destruct (decide (Exists (λ l, row_uuid l = r) (latest_cte c))) as [Hl|Hl].
  - apply Exists_exists in Hl as (l & Hl & <-).
    destruct (left_join_total (latest_cte c) (deletes_cte c) l Hl) as [d Hd].
    destruct (upsert_visible_predicate c l d) eqn:Hvis.
    { left. exists (l, d). split; [done|]. by apply list_elem_of_filter. }
    right. pose proof (left_join_elem _ _ _ _ Hd) as [_ Hd0].
    destruct d as [d|]; [|done]. destruct Hd0 as [Hd0 Hrow].
    assert (klt o l d) as Hlt.
    { simpl in Hvis. destruct (decide (kle o d l)) as [Hk|Hk].
      - apply lex_compare_kle in Hk. congruence.
      - unfold kle, klt in *. lia. }
    destruct (left_join_total (deletes_cte c) (latest_cte c) d Hd0) as [l' Hl'].
    exists (d, l'). split; [done|]. apply list_elem_of_filter. split; [|done].
    apply left_join_elem in Hl' as [_ Hl']. destruct l' as [l'|]; [|done].
    destruct Hl' as [Hl' Hr']. apply lex_compare_klt.
    by rewrite (NoDup_fmap_eq row_uuid (latest_cte c) l' l (latest_nodup _ _ _ _ HL) Hl' Hl ltac:(congruence)).
  - assert (∃ d, d ∈ deletes_cte c ∧ row_uuid d = r) as (d & Hd & Hr).
    { destruct Htouch as [(u & Hu & Hr)|(t & Ht & Hr)].
      - destruct (latest_complete _ _ _ _ HL u Hu) as (l & Hl' & Hrow).
        destruct Hl. apply Exists_exists. exists l. split; congruence.
      - destruct (latest_complete _ _ _ _ HD t Ht) as (d & Hd & Hrow).
        exists d. split; congruence. }
    right. destruct (left_join_total (deletes_cte c) (latest_cte c) d Hd) as [l Hl'].
    exists (d, l). split; [done|]. apply list_elem_of_filter. split; [|done].
    apply left_join_elem in Hl' as [_ Hl']. destruct l as [l|]; [|done].
    destruct Hl, Hl'. apply Exists_exists. exists l. split; congruence.
Qed.

Lemma two_arm_ok : resolve_ok o U T (two_arm_resolve_select c).
Proof using HL HD.
  split; [|intros x|apply two_arm_complete].
  - unfold two_arm_resolve_select. rewrite fmap_app, <- !list_fmap_compose. apply NoDup_app.
    pose proof (latest_nodup _ _ _ _ HL) as HndL. pose proof (latest_nodup _ _ _ _ HD) as HndD.
    split_and!.
    + rewrite left_join_fmap by done. apply NoDup_fmap_filter.
      by rewrite <- list_fmap_compose.
    + intros r ([l d] & -> & [Hv Hj]%list_elem_of_filter)%list_elem_of_fmap
        ([d' l'] & Hr & [Hv' Hj']%list_elem_of_filter)%list_elem_of_fmap.
      eapply live_dead_disjoint;
        [eapply upsert_arm_live; eauto|eapply delete_arm_dead; eauto|exact Hr].
    + rewrite left_join_fmap by done. apply NoDup_fmap_filter.
      by rewrite <- list_fmap_compose.
  - unfold two_arm_resolve_select. rewrite elem_of_app, !list_elem_of_fmap.
    intros [([l d] & -> & [Hv Hj]%list_elem_of_filter)|([d l] & -> & [Hv Hj]%list_elem_of_filter)].
    + left. split; [done|]. exists l. split; [eapply upsert_arm_live; eauto|done].
    + right. split; [done|]. exists d. split; [eapply delete_arm_dead; eauto|done].
Qed.
End two_arm.

(** ** Consequences of [resolve_ok] *)

(** Versions of a row are told apart by their key. *)
Definition keys_unique (o : order_primary) {A} (l : list (src_row A)) : Prop :=
  ∀ x y, x ∈ l → y ∈ l → row_uuid x = row_uuid y → kle o x y → kle o y x → x = y.

Section consequences.
Context (o : order_primary) {V : Type}.
Implicit Types (U : list (src_row V)) (D : list (src_row unit)).

Lemma live_unique U D u u' :
  keys_unique o U → live_version o U D u → live_version o U D u' →
  row_uuid u = row_uuid u' → u = u'.
Proof. intros Hk (H1 & H2 & _) (H1' & H2' & _) Heq. apply Hk; auto. Qed.

Lemma resolve_touched U D out r :
  resolve_ok o U D out → r ∈ rr_row_uuid <$> out ↔ touched U D r.
Proof.
  intros [_ Hs Hc]. split; [|apply Hc].
  intros (x & -> & [(_ & u & [Hu _] & -> & _)|(_ & d & [Hd _] & -> & _)]%Hs)%list_elem_of_fmap.
  - left; eauto.
  - right; eauto.
Qed.

Lemma resolve_live U D out u :
  keys_unique o U → resolve_ok o U D out → live_version o U D u →
  ResolvedRow (row_uuid u) (Some (cols u)) (commit_micros u) false ∈ out.
Proof.
  intros Hk Hok Hl. destruct Hok as [Hnd Hs Hc].
  destruct (proj1 (list_elem_of_fmap _ _ _) (Hc _ (live_touched o U D u Hl))) as (x & Hr & Hx).
  destruct (Hs x Hx) as [(Hdel & u' & Hl' & Hr' & Hcol & Hm)|(_ & d & Hd & Hr' & _)].
  - assert (u' = u) as -> by (eapply live_unique; eauto; congruence).
    destruct x; simpl in *; congruence.
  - destruct (live_dead_disjoint o U D u d Hl Hd). congruence.
Qed.

(** The live output rows are exactly the live versions. *)
Lemma resolve_live_iff U D out r v :
  keys_unique o U → resolve_ok o U D out →
  (∃ x, x ∈ out ∧ rr_is_delete x = false ∧ rr_row_uuid x = r ∧ rr_cols x = Some v) ↔
  (∃ u, live_version o U D u ∧ row_uuid u = r ∧ cols u = v).
Proof.
  intros Hk Hok. split.
  - intros (x & Hx & Hd & <- & Hc). destruct (ro_sound _ _ _ _ Hok x Hx) as [(_ & u & Hl & Hr & Hc' & _)|(? & _)].
    + exists u. naive_solver congruence.
    + congruence.
  - intros (u & Hl & <- & <-). eexists. split; [by eapply resolve_live|done].
Qed.
End consequences.
