(* ===== verification/IndexSeek.v ===== *)
(** * Cold index artifacts (penca-format/src/index/mod.rs, penca-dl/src/driver.rs)

    The sorted [(key_0, ..., key_n-1, row_offset)] artifact of a segment, the
    binary-search seek over it, and the intersection of several seeks. *)

From S2P Require Import Prelude.
From stdpp Require Import base numbers list option sets sorting.

Open Scope Z_scope.

Inductive FormatError := InvalidArgument | SchemaError.

(** One key cell; [None] is NULL and sorts last. *)
Notation cell := (option Z).

Record sidecar := {
  num_keys : nat;
  entries : list (list cell * Z);
}.

(** ** Build *)

Definition cell_cmp (a b : cell) : comparison :=
  match a, b with
  | Some x, Some y => Z.compare x y
  | Some _, None => Lt
  | None, Some _ => Gt
  | None, None => Eq
  end.

Fixpoint key_cmp (a b : list cell) : comparison :=
  match a, b with
  | x :: a', y :: b' => match cell_cmp x y with Eq => key_cmp a' b' | c => c end
  | [], [] => Eq
  | [], _ => Lt
  | _, [] => Gt
  end.

(** The composite key of row [i]. *)
Definition key_at (key_cols : list (list cell)) (i : nat) : list cell :=
  (λ c, default None (c !! i)) <$> key_cols.

Definition entry_le (x y : list cell * Z) : Prop := key_cmp x.1 y.1 ≠ Gt.

#[export] Instance entry_le_dec : RelDecision entry_le.
Proof. intros x y. unfold entry_le. apply _. Defined.

Definition build_segment_index (key_cols : list (list cell)) : result FormatError sidecar :=
  match key_cols with
  | [] => Err InvalidArgument
  | c0 :: _ =>
      let row_count := length c0 in
      if decide (Forall (λ col, length col = row_count) key_cols) then
        Ok {| num_keys := length key_cols;
              entries := merge_sort entry_le
                           ((λ i, (key_at key_cols i, Z.of_nat i)) <$> seq 0 row_count) |}
      else Err InvalidArgument
  end.

(** ** Seek *)

Definition cmp_cell_probe (k : cell) (p : Z) : comparison :=
  match k with Some x => Z.compare x p | None => Gt end.

Fixpoint cmp_row_to_probe (key : list cell) (probe : list Z) : comparison :=
  match probe, key with
  | p :: probe', k :: key' =>
      match cmp_cell_probe k p with Eq => cmp_row_to_probe key' probe' | c => c end
  | _, _ => Eq
  end.

Definition cmp_at (es : list (list cell * Z)) (probe : list Z) (i : nat) : comparison :=
  match es !! i with Some e => cmp_row_to_probe e.1 probe | None => Gt end.

(** [while lo < hi]: the distance halves, so [hi - lo] steps are enough. *)
Fixpoint lower_bound (fuel : nat) (es : list (list cell * Z)) (probe : list Z) (lo hi : nat) : nat :=
  match fuel with
  | O => lo
  | S fuel' =>
      if (lo <? hi)%nat then
        let mid := (lo + (hi - lo) / 2)%nat in
        match cmp_at es probe mid with
        | Lt => lower_bound fuel' es probe (mid + 1)%nat hi
        | _ => lower_bound fuel' es probe lo mid
        end
      else lo
  end.

(** The scan of the contiguous equal run. *)
Fixpoint scan_run (es : list (list cell * Z)) (probe : list Z) : list Z :=
  match es with
  | [] => []
  | e :: es' =>
      match cmp_row_to_probe e.1 probe with
      | Eq => e.2 :: scan_run es' probe
      | _ => []
      end
  end.

Definition seek_probe (es : list (list cell * Z)) (probe : list Z) : list Z :=
  scan_run (drop (lower_bound (length es) es probe 0 (length es)) es) probe.

Definition seek_row_offsets (s : sidecar) (probe_tuples : list (list Z)) :
    result FormatError (list Z) :=
  match probe_tuples with
  | [] => Ok []
  | first :: _ =>
      let probe_arity := length first in
      if decide (Forall (λ p, length p = probe_arity) probe_tuples) then
        if (probe_arity =? 0)%nat || (num_keys s <? probe_arity)%nat then Err InvalidArgument
        else Ok (vec_dedup (merge_sort Z.le (mbind (seek_probe (entries s)) probe_tuples)))
      else Err InvalidArgument
  end.

(** [Ordering] two-pointer merge of two sorted offset vectors. *)
Fixpoint intersect_sorted (a : list Z) : list Z → list Z :=
  fix go (b : list Z) : list Z :=
    match a, b with
    | x :: a', y :: b' =>
        match Z.compare x y with
        | Lt => intersect_sorted a' b
        | Gt => go b'
        | Eq => x :: intersect_sorted a' b'
        end
    | _, _ => []
    end.

(** ** The key order *)

Lemma cell_cmp_refl a : cell_cmp a a = Eq.
Proof. destruct a; simpl; [apply Z.compare_refl|done]. Qed.

Lemma cell_cmp_eq a b : cell_cmp a b = Eq → a = b.
Proof. destruct a, b; simpl; try done. by intros ->%Z.compare_eq. Qed.

Lemma cell_cmp_antisym a b : cell_cmp b a = CompOpp (cell_cmp a b).
Proof. destruct a, b; simpl; try done. apply Z.compare_antisym. Qed.

Lemma key_cmp_antisym a : ∀ b, key_cmp b a = CompOpp (key_cmp a b).
Proof.
  induction a as [|x a IH]; intros [|y b]; simpl; try done.
  rewrite cell_cmp_antisym. destruct (cell_cmp x y); simpl; auto.
Qed.

Lemma cell_cmp_le_trans a b c : cell_cmp a b = Lt → cell_cmp b c ≠ Gt → cell_cmp a c = Lt.
Proof.
  destruct a, b, c; simpl; try done. rewrite !Z.compare_lt_iff.
  destruct (Z.compare_spec z0 z1); intros; try done; lia.
Qed.

Lemma cell_cmp_le_lt_trans a b c : cell_cmp a b ≠ Gt → cell_cmp b c = Lt → cell_cmp a c = Lt.
Proof.
  destruct a, b, c; simpl; try done. rewrite !Z.compare_lt_iff.
  destruct (Z.compare_spec z z0); intros; try done; lia.
Qed.

Lemma key_cmp_le_trans a : ∀ b c, key_cmp a b ≠ Gt → key_cmp b c ≠ Gt → key_cmp a c ≠ Gt.
Proof.
  induction a as [|x a IH]; intros [|y b] [|z c]; simpl; try done.
  destruct (cell_cmp x y) eqn:E1; [|intros _|done].
  - apply cell_cmp_eq in E1 as ->. destruct (cell_cmp y z) eqn:E2; [apply IH|done|done].
  - destruct (cell_cmp y z) eqn:E2; [| |done]; intros _;
      rewrite (cell_cmp_le_trans x y z); try done; rewrite E2; done.
Qed.

#[local] Instance entry_le_total : Total entry_le.
Proof.
  intros x y. unfold entry_le. rewrite (key_cmp_antisym x.1 y.1).
  destruct (key_cmp x.1 y.1); simpl; auto.
Qed.

#[local] Instance entry_le_trans : Transitive entry_le.
Proof. intros x y z. apply key_cmp_le_trans. Qed.

(** Comparison with a probe is monotone in the key, so a sorted artifact splits
    into a [Lt] prefix, an [Eq] run and a [Gt] suffix. *)
Lemma cmp_probe_mono p : ∀ a b, (length p ≤ length a)%nat → (length p ≤ length b)%nat →
  key_cmp a b ≠ Gt →
  (cmp_row_to_probe b p = Lt → cmp_row_to_probe a p = Lt) ∧
  (cmp_row_to_probe a p = Gt → cmp_row_to_probe b p = Gt).
Proof.
  induction p as [|q p IH]; intros [|x a] [|y b] Ha Hb; simpl in *; try lia; [done..|].
  destruct (cell_cmp x y) eqn:E; [apply cell_cmp_eq in E as ->| |done].
  - intros Hle. destruct (cmp_cell_probe y q); [|done|done]. apply IH; [lia|lia|done].
  - intros _. destruct x as [x|], y as [y|]; simpl in *; try done.
    rewrite Z.compare_lt_iff in E.
    destruct (Z.compare_spec x q), (Z.compare_spec y q); split; intros; try done; lia.
Qed.

Section seek.
Context (es : list (list cell * Z)) (p : list Z).
Hypothesis (Hlen : ∀ e, e ∈ es → (length p ≤ length e.1)%nat).
Hypothesis (Hsort : StronglySorted entry_le es).

Lemma sorted_lookup_le i j e1 e2 :
  (i ≤ j)%nat → es !! i = Some e1 → es !! j = Some e2 → key_cmp e1.1 e2.1 ≠ Gt.
Proof using Hsort.
  intros Hij H1 H2. destruct (decide (i = j)) as [->|Hne].
  - assert (e1 = e2) as -> by congruence. pose proof (key_cmp_antisym e2.1 e2.1) as H.
    destruct (key_cmp e2.1 e2.1); done.
  - assert (i < j)%nat as Hlt by lia. clear Hlen Hij Hne.
    induction Hsort as [|e l Hs IH Hall] in i, j, Hlt, H1, H2; [done|].
    destruct j as [|j]; [lia|]. destruct i as [|i]; simpl in *.
    + injection H1 as ->. rewrite Forall_forall in Hall. apply Hall.
      by apply list_elem_of_lookup_2 in H2.
    + apply (IH i j); [done|done|lia].
Qed.

Lemma cmp_at_Lt_down i j : (i ≤ j < length es)%nat → cmp_at es p j = Lt → cmp_at es p i = Lt.
Proof using Hlen Hsort.
  intros [Hij Hj]. unfold cmp_at.
  destruct (lookup_lt_is_Some_2 es j Hj) as [e2 H2].
  destruct (lookup_lt_is_Some_2 es i ltac:(lia)) as [e1 H1]. rewrite H1, H2.
  apply cmp_probe_mono; [apply Hlen; by eapply list_elem_of_lookup_2..|].
  exact (sorted_lookup_le i j e1 e2 ltac:(lia) H1 H2).
Qed.

Lemma cmp_at_Gt_up i j : (i ≤ j)%nat → cmp_at es p i = Gt → cmp_at es p j = Gt.
Proof using Hlen Hsort.
  intros Hij. unfold cmp_at. destruct (es !! j) as [e2|] eqn:H2; [|done].
  destruct (lookup_lt_is_Some_2 es i) as [e1 H1].
  { apply lookup_lt_Some in H2. lia. }
  rewrite H1. apply cmp_probe_mono; [apply Hlen; by eapply list_elem_of_lookup_2..|].
  exact (sorted_lookup_le i j e1 e2 ltac:(lia) H1 H2).
Qed.

(** The binary search returns the partition point. *)
Lemma lower_bound_spec fuel : ∀ lo hi,
  (hi - lo ≤ fuel)%nat → (lo ≤ hi ≤ length es)%nat →
  (∀ i, (i < lo)%nat → cmp_at es p i = Lt) →
  (∀ i, (hi ≤ i)%nat → cmp_at es p i ≠ Lt) →
  let k := lower_bound fuel es p lo hi in
  (k ≤ length es)%nat ∧
  (∀ i, (i < k)%nat → cmp_at es p i = Lt) ∧ (∀ i, (k ≤ i)%nat → cmp_at es p i ≠ Lt).
Proof using Hlen Hsort.
  induction fuel as [|fuel IH]; intros lo hi Hf Hb Hlo Hhi; cbn [lower_bound].
  - assert (hi = lo) as -> by lia. split_and!; [lia|done|done].
  - destruct (Nat.ltb_spec lo hi) as [Hlt|Hge].
    2: { assert (hi = lo) as -> by lia. split_and!; [lia|done|done]. }
    set (mid := (lo + (hi - lo) / 2)%nat).
    assert (lo ≤ mid < hi)%nat as Hmid.
    { unfold mid. pose proof (Nat.div_lt (hi - lo) 2). lia. }
    destruct (cmp_at es p mid) eqn:E.
    + apply IH; [lia|lia|done|].
      intros i Hi Hc. rewrite (cmp_at_Lt_down mid i) in E; [done| |done].
      split; [lia|]. unfold cmp_at in Hc. destruct (es !! i) eqn:El; [|done].
      by apply lookup_lt_Some in El.
    + apply IH; [lia|lia| |done].
      intros i Hi. apply (cmp_at_Lt_down i mid); [lia|done].
    + apply IH; [lia|lia|done|].
      intros i Hi. rewrite (cmp_at_Gt_up mid i); [done|lia|done].
Qed.

Lemma scan_run_spec l o :
  StronglySorted entry_le l →
  (∀ e, e ∈ l → (length p ≤ length e.1)%nat) →
  (∀ e, e ∈ l → cmp_row_to_probe e.1 p ≠ Lt) →
  o ∈ scan_run l p ↔ ∃ e, e ∈ l ∧ e.2 = o ∧ cmp_row_to_probe e.1 p = Eq.
Proof.
  clear. induction l as [|e l IH]; intros Hs Hl Hge; simpl.
  { split; [by intros ?%not_elem_of_nil|]. intros (e & []%not_elem_of_nil & _). }
  inversion Hs as [|? ? Hs' Hall]; subst. rewrite Forall_forall in Hall.
  destruct (cmp_row_to_probe e.1 p) eqn:E.
  - rewrite elem_of_cons, IH; [|done|set_solver|set_solver].
    setoid_rewrite elem_of_cons. split; naive_solver.
  - destruct (Hge e); [set_solver|done].
  - split; [by intros ?%not_elem_of_nil|].
    intros (e' & [->|He']%elem_of_cons & _ & Heq); [congruence|].
    destruct (cmp_probe_mono p e.1 e'.1) as [_ Hup]; [apply Hl; set_solver..|by apply Hall|].
    rewrite Hup in Heq; done.
Qed.

Lemma seek_probe_spec o :
  o ∈ seek_probe es p ↔ ∃ e, e ∈ es ∧ e.2 = o ∧ cmp_row_to_probe e.1 p = Eq.
Proof using Hlen Hsort.
  unfold seek_probe.
  destruct (lower_bound_spec (length es) 0 (length es)) as (Hk & Hlt & Hge); [lia|lia|lia| |].
  { intros i Hi. unfold cmp_at. by rewrite lookup_ge_None_2. }
  set (k := lower_bound (length es) es p 0 (length es)) in *.
  assert (Hdrop : ∀ e, e ∈ drop k es → ∃ i, (k ≤ i)%nat ∧ es !! i = Some e).
  { intros e [i Hi]%list_elem_of_lookup. rewrite lookup_drop in Hi. exists (k + i)%nat. auto with lia. }
  rewrite scan_run_spec.
  - split; intros (e & He & Ho & Hc); exists e; (split_and!; [|done|done]).
    + destruct (Hdrop e He) as (i & _ & Hi). by eapply list_elem_of_lookup_2.
    + apply list_elem_of_lookup in He as [i Hi]. destruct (decide (i < k)%nat) as [Hik|Hik].
      * specialize (Hlt i Hik). unfold cmp_at in Hlt. rewrite Hi in Hlt. congruence.
      * apply list_elem_of_lookup. exists (i - k)%nat. rewrite lookup_drop, <- Hi. f_equal. lia.
  - clear -Hsort. revert Hsort. generalize k. induction es as [|e l IH]; intros k' Hs.
    + rewrite drop_nil. constructor.
    + destruct k' as [|k']; [done|]. simpl. apply IH. by inversion Hs.
  - intros e He. apply Hlen. destruct (Hdrop e He) as (i & _ & Hi). by eapply list_elem_of_lookup_2.
  - intros e He. destruct (Hdrop e He) as (i & Hi & Hl). specialize (Hge i Hi).
    unfold cmp_at in Hge. by rewrite Hl in Hge.
Qed.
End seek.

(** ** Build and seek together *)

(** A row matches a probe when its leading key cells equal it; a NULL cell
    equals nothing. *)
Definition matches_probe (key : list cell) (probe : list Z) : Prop :=
  take (length probe) key = Some <$> probe.

Lemma cmp_row_to_probe_Eq probe : ∀ key, (length probe ≤ length key)%nat →
  cmp_row_to_probe key probe = Eq ↔ matches_probe key probe.
Proof.
  unfold matches_probe.
  induction probe as [|q probe IH]; intros [|k key] Hl; simpl in *; try lia; [done..|].
  assert ((length probe ≤ length key)%nat) as Hl' by lia. specialize (IH key Hl').
  destruct k as [k|]; simpl; [|by split].
  destruct (Z.compare_spec k q) as [->|Hk|Hk].
  - rewrite IH. split; [by intros ->|by intros [= ->]].
  - split; [done|]. intros [= -> _]. lia.
  - split; [done|]. intros [= -> _]. lia.
Qed.

(** Entries of a built artifact: one per row, in key order. *)
Lemma build_segment_index_entries key_cols s :
  build_segment_index key_cols = Ok s →
  num_keys s = length key_cols ∧
  StronglySorted entry_le (entries s) ∧
  (∀ e, e ∈ entries s ↔ ∃ i, (i < length (default [] (head key_cols)))%nat ∧
     e = (key_at key_cols i, Z.of_nat i)).
Proof.
  unfold build_segment_index. destruct key_cols as [|c0 cs]; [done|]. case_decide; [|done].
  intros [= <-]. cbn [num_keys entries head default]. split_and!; [done| |].
  - apply StronglySorted_merge_sort; apply _.
  - intros e. rewrite merge_sort_Permutation, list_elem_of_fmap.
    setoid_rewrite elem_of_seq. split; intros (i & ?); exists i; naive_solver lia.
Qed.

Lemma key_at_length key_cols i : length (key_at key_cols i) = length key_cols.
Proof. apply length_fmap. Qed.

(** What the seek promises its caller, stated on the built artifact. *)
Lemma seek_build_spec key_cols s probes :
  build_segment_index key_cols = Ok s →
  (∀ q, q ∈ probes → (length q ≤ num_keys s)%nat) →
  ∀ o, o ∈ mbind (seek_probe (entries s)) probes ↔
    ∃ i q, (i < length (default [] (head key_cols)))%nat ∧ o = Z.of_nat i ∧ q ∈ probes ∧
      matches_probe (key_at key_cols i) q.
Proof.
  intros Hb Har o. destruct (build_segment_index_entries _ _ Hb) as (Hn & Hsort & He).
  assert (∀ q, q ∈ probes → ∀ e, e ∈ entries s → (length q ≤ length e.1)%nat) as Hl.
  { intros q Hq e (i & _ & ->)%He. simpl. rewrite key_at_length, <- Hn. auto. }
  rewrite list_elem_of_bind. split.
  - intros (q & Ho & Hq). rewrite seek_probe_spec in Ho; [|by apply Hl|done].
    destruct Ho as (e & Hin & <- & Hc). pose proof (Hl q Hq e Hin) as Hle.
    apply He in Hin as (i & Hi & ->). simpl in *.
    apply cmp_row_to_probe_Eq in Hc; [|done]. exists i, q. auto.
  - intros (i & q & Hi & -> & Hq & Hm). exists q. split; [|done].
    rewrite seek_probe_spec; [|by apply Hl|done].
    exists (key_at key_cols i, Z.of_nat i). assert ((key_at key_cols i, Z.of_nat i) ∈ entries s) as Hin.
    { apply He. eauto. }
    split_and!; [done|done|]. apply cmp_row_to_probe_Eq; [|done]. by apply (Hl q Hq) in Hin.
Qed.

(** Probe sets the seek accepts. *)
Definition probes_ok (n : nat) (probes : list (list Z)) : Prop :=
  ∃ a, (1 ≤ a ≤ n)%nat ∧ ∀ q, q ∈ probes → length q = a.

Lemma seek_row_offsets_Ok s probes :
  probes_ok (num_keys s) probes →
  seek_row_offsets s probes =
    Ok (vec_dedup (merge_sort Z.le (mbind (seek_probe (entries s)) probes))).
Proof.
  intros (a & Ha & Hall). unfold seek_row_offsets. destruct probes as [|q probes]; [done|].
  assert (length q = a) as Hq by (apply Hall; set_solver).
  rewrite decide_True; [|apply Forall_forall; intros x Hx; rewrite (Hall x Hx); done].
  rewrite Hq. destruct (Nat.eqb_spec a 0); [lia|]. destruct (Nat.ltb_spec (num_keys s) a); [lia|done].
Qed.

Lemma intersect_sorted_nil_r a : intersect_sorted a [] = [].
Proof. by destruct a. Qed.

Lemma intersect_sorted_cons x a y b :
  intersect_sorted (x :: a) (y :: b) =
    match Z.compare x y with
    | Lt => intersect_sorted a (y :: b)
    | Gt => intersect_sorted (x :: a) b
    | Eq => x :: intersect_sorted a b
    end.
Proof. reflexivity. Qed.

Lemma intersect_sorted_elem a : ∀ b o,
  StronglySorted Z.lt a → StronglySorted Z.lt b →
  o ∈ intersect_sorted a b ↔ o ∈ a ∧ o ∈ b.
Proof.
  induction a as [|x a IHa]; intros b o Ha Hb; [destruct b; set_solver|].
  induction b as [|y b IHb]; [rewrite intersect_sorted_nil_r; set_solver|].
  rewrite intersect_sorted_cons.
  inversion Ha as [|? ? Ha' Hxa]; inversion Hb as [|? ? Hb' Hyb]; subst.
  rewrite Forall_forall in Hxa, Hyb.
  destruct (Z.compare_spec x y) as [->|Hlt|Hgt].
  - rewrite !elem_of_cons, IHa by done. split; [naive_solver|].
    intros [[?|H1] [?|H2]]; [by left..|by right].
  - rewrite IHa by done. rewrite !elem_of_cons. split; [naive_solver|].
    intros [[->|H1] [->|H2]]; [lia| |auto|auto]. apply Hyb in H2. lia.
  - rewrite IHb by done. rewrite !elem_of_cons. split; [naive_solver|].
    intros [[->|H1] [->|H2]]; [lia|auto| |auto]. apply Hxa in H1. lia.
Qed.

Lemma intersect_sorted_sorted a : ∀ b,
  StronglySorted Z.lt a → StronglySorted Z.lt b → StronglySorted Z.lt (intersect_sorted a b).
Proof.
  induction a as [|x a IHa]; intros b Ha Hb; [destruct b; constructor|].
  induction b as [|y b IHb]; [rewrite intersect_sorted_nil_r; constructor|].
  rewrite intersect_sorted_cons.
  inversion Ha as [|? ? Ha' Hxa]; inversion Hb as [|? ? Hb' Hyb]; subst.
  destruct (Z.compare_spec x y) as [->|Hlt|Hgt]; [|by apply IHa|by apply IHb].
  constructor; [by apply IHa|]. rewrite Forall_forall in *.
  intros o Ho. apply intersect_sorted_elem in Ho; [|done|done]. naive_solver.
Qed.

(** ** Properties *)



(** The two-pointer merge of two ascending offset vectors is their
    intersection, and it is ascending again: several covering indexes can be
    intersected in a row. *)
Theorem intersect_sorted_exact (a b : list Z)
    (Ha : StronglySorted Z.lt a) (Hb : StronglySorted Z.lt b) :
  StronglySorted Z.lt (intersect_sorted a b) ∧
  ∀ o, o ∈ intersect_sorted a b ↔ o ∈ a ∧ o ∈ b.
Proof.
  split; [by apply intersect_sorted_sorted|]. intros o. by apply intersect_sorted_elem.
Qed.

Lemma intersect_sorted_exact_witness :
  intersect_sorted [1; 3; 5; 8] [2; 3; 8; 9] = [3; 8] ∧
  StronglySorted Z.lt (intersect_sorted [1; 3; 5; 8] [2; 3; 8; 9]).
Proof.
  split; [reflexivity|].
  apply (intersect_sorted_exact [1; 3; 5; 8] [2; 3; 8; 9]);
    repeat constructor.
Defined.
