(* ===== verification/Plan.v ===== *)
(** * Read plans and the read planner (penca-core/src/plan.rs,
      penca-api/src/query/meta_plan.rs, penca-api/src/query/mod.rs)

    The plan types, the metadata rows the planner reads, and
    [QueryManager::plan]: the persist cutoff, the snapshot pick, the tier fence
    and the segment window, assembled into a [Plan].  A segment record carries
    the rows its file range holds; URIs, formats and sizes, which only locate
    and decode those rows, are left out. *)

From S2P Require Import Prelude CoreTypes Watermarks ReadSnapshot Dialect MergeSql IndexSeek.
From stdpp Require Import base numbers list option sets sorting.

Open Scope Z_scope.

(** ** Plan types (penca-core/src/plan.rs) *)

(** Inclusive lower, exclusive upper bound on [commit_micros]. *)
Record CommittedAtBounds := { min_micros : option Z; max_micros : option Z }.

(** Exclusive lower, inclusive upper bound on [commit_seq_num]. *)
Record CommitSeqBounds := { min_seq : option Z; max_seq : option Z }.

Record PersistSegment (A : Type) := {
  segment_uuid : Z;
  segment_rows : list (src_row A);
  max_commit_seq_num : option Z;
}.
Arguments segment_uuid {A}. Arguments segment_rows {A}. Arguments max_commit_seq_num {A}.

Record SnapshotSegment (V : Type) := {
  table_snapshot_segment_uuid : Z;
  snapshot_rows : list (Z * V);
  row_uuid_index_sidecar : option sidecar;
  index_sidecars : list (Z * sidecar);
}.
Arguments table_snapshot_segment_uuid {V}. Arguments snapshot_rows {V}.
Arguments row_uuid_index_sidecar {V}. Arguments index_sidecars {V}.

(** A user index materialized by a snapshot: its uuid and key columns. *)
Record SnapshotIndexDef := {
  index_uuid : Z;
  index_key_columns : list Z;
}.

Record SnapshotPlan (V : Type) := {
  sp_segments : list (SnapshotSegment V);
  sp_indexes : list SnapshotIndexDef;
  sp_snapshotted_at_micros : Z;
  sp_commit_seq_num : Z;
}.
Arguments sp_segments {V}. Arguments sp_indexes {V}. Arguments sp_snapshotted_at_micros {V}. Arguments sp_commit_seq_num {V}.

Record PersistPlan (V : Type) := {
  upsert_segments : list (PersistSegment V);
  delete_segments : list (PersistSegment unit);
  pp_committed_at : option CommittedAtBounds;
  pp_commit_seq : option CommitSeqBounds;
}.
Arguments upsert_segments {V}. Arguments delete_segments {V}.
Arguments pp_committed_at {V}. Arguments pp_commit_seq {V}.

Record ColdStoragePlan (V : Type) := {
  snapshot : option (SnapshotPlan V);
  persist : option (PersistPlan V);
}.
Arguments snapshot {V}. Arguments persist {V}.

Record HotStoragePlan := {
  hp_committed_at : option CommittedAtBounds;
  hp_commit_seq : option CommitSeqBounds;
}.

Record BaseColdStorage (V : Type) := {
  base_cold : ColdStoragePlan V;
  commit_seq_ceiling : Z;
}.
Arguments base_cold {V}. Arguments commit_seq_ceiling {V}.

Record Plan (V : Type) := {
  hot_storage : option HotStoragePlan;
  cold_storage : option (ColdStoragePlan V);
  base_cold_storage : option (BaseColdStorage V);
}.
Arguments hot_storage {V}. Arguments cold_storage {V}. Arguments base_cold_storage {V}.

(** ** Metadata rows

    One record per row of the per-branch metadata partitions, already
    restricted to one table.  [commit_micros IS NULL] marks a row whose
    lifecycle operation has not committed. *)

(** [table_persist_metadata] *)
Record persist_header := {
  ph_uuid : Z;
  ph_log_kind : LogKind;
  ph_persisted_at_micros : Z;
  ph_commit_micros : option Z;
}.

(** [table_persist_segment_metadata] joined to its header's [log_kind]. *)
Record segment_meta (A : Type) := {
  sg_uuid : Z;
  sg_table_persist_uuid : Z;
  sg_chunk_idx : Z;
  sg_min_tx_commit_micros : Z;
  sg_max_tx_commit_micros : Z;
  sg_min_commit_seq_num : Z;
  sg_max_commit_seq_num : Z;
  sg_rows : list (src_row A);
  sg_commit_micros : option Z;
}.
Arguments sg_uuid {A}. Arguments sg_table_persist_uuid {A}. Arguments sg_chunk_idx {A}. Arguments sg_min_tx_commit_micros {A}.
Arguments sg_max_tx_commit_micros {A}. Arguments sg_min_commit_seq_num {A}.
Arguments sg_max_commit_seq_num {A}. Arguments sg_rows {A}. Arguments sg_commit_micros {A}.

(** [table_snapshot_metadata] with the segments of [table_snapshot_segment_metadata]. *)
Record snapshot_meta (V : Type) := {
  sn_uuid : Z;
  sn_snapshotted_at_micros : Z;
  sn_commit_seq_num : Z;
  sn_segments : list (SnapshotSegment V);
  sn_indexes : list SnapshotIndexDef;
  sn_durable : bool;
  sn_commit_micros : option Z;
}.
Arguments sn_uuid {V}. Arguments sn_snapshotted_at_micros {V}. Arguments sn_commit_seq_num {V}.
Arguments sn_segments {V}. Arguments sn_indexes {V}. Arguments sn_durable {V}. Arguments sn_commit_micros {V}.

(** [table_purge_metadata] *)
Record purge_meta := {
  pm_last_purged_commit_seq_num : option Z;
  pm_last_purged_aborted_seq_num : option Z;
  pm_commit_micros : option Z;
}.

Record table_meta (V : Type) := {
  tm_persists : list persist_header;
  tm_upsert_segments : list (segment_meta V);
  tm_delete_segments : list (segment_meta unit);
  tm_snapshots : list (snapshot_meta V);
  tm_purges : list purge_meta;
}.
Arguments tm_persists {V}. Arguments tm_upsert_segments {V}. Arguments tm_delete_segments {V}.
Arguments tm_snapshots {V}. Arguments tm_purges {V}.

(** A branch's fork lineage: parent, [fork_commit_seq_num], [fork_commit_micros]. *)
Record BranchLineage := {
  parent_branch_uuid : Z;
  fork_commit_seq_num : Z;
  fork_commit_micros : Z;
}.

(** The hot tables of one (branch, table) plus the branch's [commit_tx_log]. *)
Record hot_db (V : Type) := {
  upsert_log : list (log_row V);
  delete_log : list (log_row unit);
  commit_tx_log : list commit_row;
}.
Arguments upsert_log {V}. Arguments delete_log {V}. Arguments commit_tx_log {V}.

(** ** Metadata queries *)

Definition committed {A} (f : A → option Z) (l : list A) : list A :=
  filter (λ x, is_Some (f x)) l.

(** [SELECT MAX(persisted_at_micros) ... WHERE commit_micros IS NOT NULL] *)
Definition persist_wm {V} (m : table_meta V) : option Z :=
  zmax_list (ph_persisted_at_micros <$> committed ph_commit_micros (tm_persists m)).

(** [persist_wm.map_or(0, |p| p + 1)] *)
Definition hot_min_of {V} (m : table_meta V) : Z :=
  match persist_wm m with None => 0 | Some p => p + 1 end.

Definition optZ_le (x : Z) (b : option Z) : bool :=
  match b with None => true | Some y => x <=? y end.

(** The single pick [ORDER BY snapshotted_at_micros DESC, commit_seq_num DESC LIMIT 1]
    over the committed snapshots satisfying [P]. *)
Definition snapshot_order {V} (x y : snapshot_meta V) : Prop :=
  desc_le [sn_snapshotted_at_micros; sn_commit_seq_num] x y = true.

#[export] Instance snapshot_order_dec {V} : RelDecision (@snapshot_order V).
Proof. intros x y. unfold snapshot_order. apply _. Defined.

Definition pick_snapshot {V} (m : table_meta V) (P : snapshot_meta V → bool) :
    option (snapshot_meta V) :=
  head (merge_sort snapshot_order
          (filter (λ s, P s = true) (committed sn_commit_micros (tm_snapshots m)))).

(** The pick fused with the persist watermark:
    [snapshotted_at_micros <= LEAST(as_of, COALESCE(persist_wm, -1))] and the seq clause. *)
Definition hot_min_and_snapshot_pick {V} (m : table_meta V) (as_of_micros : Z)
    (commit_seq_upper : option Z) : Z * option (snapshot_meta V) :=
  (hot_min_of m,
   pick_snapshot m (λ s,
     (sn_snapshotted_at_micros s <=? Z.min as_of_micros (default (-1) (persist_wm m)))
     && optZ_le (sn_commit_seq_num s) commit_seq_upper)).

(** The non-pinned pick of [read_snapshot_segments_for_table]. *)
Definition read_snapshot_segments_for_table {V} (m : table_meta V)
    (as_of_micros commit_seq_upper : option Z) : option (snapshot_meta V) :=
  pick_snapshot m (λ s,
    optZ_le (sn_snapshotted_at_micros s) as_of_micros
    && optZ_le (sn_commit_seq_num s) commit_seq_upper).

(** [GREATEST(MAX(last_purged_commit_seq_num), W_snap)] and the bare existence gate. *)
Definition last_purged_seq {V} (m : table_meta V) : option Z :=
  zmax_list (omap pm_last_purged_commit_seq_num (committed pm_commit_micros (tm_purges m))).

Definition phase_one_fence_and_existence {V} (m : table_meta V) (h : hot_db V) (w_snap : Z) :
    Z * bool :=
  (match last_purged_seq m with Some pu => Z.max pu w_snap | None => w_snap end,
   negb (bool_decide (upsert_log h = [] ∧ delete_log h = []))).

Definition persist_segment_overlap_clause {A}
    (min_segment_max_micros max_segment_min_micros commit_seq_upper : option Z)
    (s : segment_meta A) : bool :=
  match min_segment_max_micros with Some ts => ts <? sg_max_tx_commit_micros s | None => true end
  && match max_segment_min_micros with Some aom => sg_min_tx_commit_micros s <=? aom | None => true end
  && match commit_seq_upper with Some seq => sg_min_commit_seq_num s <=? seq | None => true end.

Definition segment_order {A} (x y : segment_meta A) : Prop :=
  sg_min_commit_seq_num x < sg_min_commit_seq_num y ∨
  (sg_min_commit_seq_num x = sg_min_commit_seq_num y ∧ sg_chunk_idx x ≤ sg_chunk_idx y).

#[export] Instance segment_order_dec {A} : RelDecision (@segment_order A).
Proof. intros x y. unfold segment_order. apply _. Defined.

Definition plan_segment {A} (s : segment_meta A) : PersistSegment A :=
  {| segment_uuid := sg_uuid s;
     segment_rows := sg_rows s;
     max_commit_seq_num := Some (sg_max_commit_seq_num s) |}.

(** One log kind of [read_and_classify_persist_segments]; zero-row segments are skipped. *)
Definition read_and_classify_persist_segments {A} (segs : list (segment_meta A))
    (min_segment_max_micros max_segment_min_micros commit_seq_upper : option Z) :
    list (PersistSegment A) :=
  plan_segment <$>
  filter (λ s, sg_rows s ≠ [])
    (merge_sort segment_order
       (filter (λ s, persist_segment_overlap_clause min_segment_max_micros
                       max_segment_min_micros commit_seq_upper s = true)
          (committed sg_commit_micros segs))).

(** The [from, to) window mapped onto the overlap bounds. *)
Definition read_persist_segments_for_window {V} (m : table_meta V)
    (from_micros to_micros commit_seq_upper : option Z) :
    list (PersistSegment V) * list (PersistSegment unit) :=
  let lo := (λ f, sat_sub f 1) <$> from_micros in
  let hi := (λ t, sat_sub t 1) <$> to_micros in
  (read_and_classify_persist_segments (tm_upsert_segments m) lo hi commit_seq_upper,
   read_and_classify_persist_segments (tm_delete_segments m) lo hi commit_seq_upper).

(** [MAX(seg.max_commit_seq_num)] over the committed segments of a window. *)
Definition max_persisted_segment_seq_for_window {V} (m : table_meta V)
    (from_micros to_micros : option Z) : option Z :=
  let lo := (λ f, sat_sub f 1) <$> from_micros in
  let hi := (λ t, sat_sub t 1) <$> to_micros in
  let overlap {A} (s : segment_meta A) := persist_segment_overlap_clause lo hi None s in
  zmax_list
    ((sg_max_commit_seq_num <$>
        filter (λ s, overlap s = true) (committed sg_commit_micros (tm_upsert_segments m)))
     ++ (sg_max_commit_seq_num <$>
        filter (λ s, overlap s = true) (committed sg_commit_micros (tm_delete_segments m)))).

(** ** Plan assembly *)

Definition cold_committed_at_max (as_of_micros hot_min : Z) : Z :=
  Z.min (sat_add as_of_micros 1) hot_min.

Record ColdInputs (V : Type) := {
  ci_snapshotted_at_micros : option Z;
  ci_snapshot_seq : Z;
  ci_snapshot_segments : list (SnapshotSegment V);
  ci_indexes : list SnapshotIndexDef;
  ci_upsert_segments : list (PersistSegment V);
  ci_delete_segments : list (PersistSegment unit);
}.
Arguments ci_snapshotted_at_micros {V}. Arguments ci_snapshot_seq {V}.
Arguments ci_snapshot_segments {V}. Arguments ci_indexes {V}. Arguments ci_upsert_segments {V}.
Arguments ci_delete_segments {V}.

Definition is_empty {A} (l : list A) : bool := match l with [] => true | _ => false end.

Definition plan_cold_storage {V} (hot_min : Z) (fence : option Z) (as_of_micros : Z)
    (cold : ColdInputs V) : option (ColdStoragePlan V) :=
  if hot_min =? 0 then None
  else
    let snapshot_plan :=
      (λ ts, {| sp_segments := ci_snapshot_segments cold;
                sp_indexes := ci_indexes cold;
                sp_snapshotted_at_micros := ts;
                sp_commit_seq_num := ci_snapshot_seq cold |}) <$> ci_snapshotted_at_micros cold in
    let cold_visibility_max := sat_add as_of_micros 1 in
    let persist_plan :=
      if is_empty (ci_upsert_segments cold) && is_empty (ci_delete_segments cold) then None
      else Some {| upsert_segments := ci_upsert_segments cold;
                   delete_segments := ci_delete_segments cold;
                   pp_committed_at :=
                     Some {| min_micros := None; max_micros := Some cold_visibility_max |};
                   pp_commit_seq := Some {| min_seq := None; max_seq := fence |} |} in
    match snapshot_plan, persist_plan with
    | None, None => None
    | _, _ => Some {| snapshot := snapshot_plan; persist := persist_plan |}
    end.

Definition plan_hot_storage (fence : option Z) (as_of_micros : Z) : HotStoragePlan :=
  {| hp_committed_at := Some {| min_micros := None; max_micros := Some as_of_micros |};
     hp_commit_seq := (λ f, {| min_seq := Some f; max_seq := None |}) <$> fence |}.

Definition assemble_plan {V} (hot_min : Z) (fence : option Z) (hot_present : bool)
    (as_of_micros : Z) (cold : ColdInputs V) : Plan V :=
  {| hot_storage := if hot_present then Some (plan_hot_storage fence as_of_micros) else None;
     cold_storage := plan_cold_storage hot_min fence as_of_micros cold;
     base_cold_storage := None |}.

(** The parent's cold tier as a second source of a forked branch's read. *)
Definition enumerate_base_cold_source {V} (parent : table_meta V) (as_of_micros : Z)
    (ceiling : Z) : option (BaseColdStorage V) :=
  let snap := read_snapshot_segments_for_table parent (Some as_of_micros) (Some ceiling) in
  let from_micros := (λ s, sat_add (sn_snapshotted_at_micros s) 1) <$> snap in
  let '(us, ds) := read_persist_segments_for_window parent from_micros None (Some ceiling) in
  let snapshot_plan :=
    (λ s, {| sp_segments := filter (λ g, snapshot_rows g ≠ []) (sn_segments s);
             sp_indexes := sn_indexes s;
             sp_snapshotted_at_micros := sn_snapshotted_at_micros s;
             sp_commit_seq_num := sn_commit_seq_num s |}) <$> snap in
  let persist_plan :=
    if is_empty us && is_empty ds then None
    else Some {| upsert_segments := us; delete_segments := ds;
                 pp_committed_at :=
                   Some {| min_micros := None; max_micros := Some (sat_add as_of_micros 1) |};
                 pp_commit_seq := Some {| min_seq := None; max_seq := Some ceiling |} |} in
  match snapshot_plan, persist_plan with
  | None, None => None
  | _, _ => Some {| base_cold := {| snapshot := snapshot_plan; persist := persist_plan |};
                    commit_seq_ceiling := ceiling |}
  end.

Definition read_is_below_fork (as_of_micros : Z) (commit_seq_upper : option Z)
    (l : BranchLineage) : bool :=
  (as_of_micros <? fork_commit_micros l)
  || match commit_seq_upper with Some n => n <? fork_commit_seq_num l | None => false end.

Definition no_cold {V} : ColdInputs V :=
  {| ci_snapshotted_at_micros := None; ci_snapshot_seq := 0; ci_snapshot_segments := [];
     ci_indexes := [];
     ci_upsert_segments := []; ci_delete_segments := [] |}.

(** [QueryManager::plan].  [lineage] pairs the branch's fork record with the
    parent's metadata for the table. *)
Definition plan {V} (m : table_meta V) (h : hot_db V)
    (lineage : option (BranchLineage * table_meta V))
    (as_of_micros : Z) (commit_seq_upper : option Z) : Plan V :=
  let '(hot_min, pick) := hot_min_and_snapshot_pick m as_of_micros commit_seq_upper in
  let '(cold, fence, hot_present) :=
    if hot_min =? 0 then (no_cold, None, true)
    else
      let snapshotted_at := sn_snapshotted_at_micros <$> pick in
      let w_snap := default SNAPSHOT_SEQ_GENESIS (sn_commit_seq_num <$> pick) in
      let '(fence, hot_present) := phase_one_fence_and_existence m h w_snap in
      let cold_max := cold_committed_at_max as_of_micros hot_min in
      let from_micros := (λ s, sat_add s 1) <$> snapshotted_at in
      let '(us, ds) :=
        read_persist_segments_for_window m from_micros (Some cold_max) commit_seq_upper in
      ({| ci_snapshotted_at_micros := snapshotted_at;
          ci_snapshot_seq := w_snap;
          ci_snapshot_segments :=
            filter (λ g, snapshot_rows g ≠ []) (default [] (sn_segments <$> pick));
          ci_indexes := default [] (sn_indexes <$> pick);
          ci_upsert_segments := us;
          ci_delete_segments := ds |}, Some fence, hot_present) in
  let base :=
    match lineage with
    | Some (l, parent) =>
        if read_is_below_fork as_of_micros commit_seq_upper l then
          let ceiling :=
            match commit_seq_upper with
            | None => fork_commit_seq_num l
            | Some n => Z.min (fork_commit_seq_num l) n
            end in
          enumerate_base_cold_source parent as_of_micros ceiling
        else None
    | None => None
    end in
  let p := assemble_plan hot_min fence hot_present as_of_micros cold in
  {| hot_storage := hot_storage p; cold_storage := cold_storage p; base_cold_storage := base |}.

(** ** Retention floor and dispatch *)

Record RetentionFloor := {
  rf_commit_seq_num : Z;
  rf_snapshotted_at_micros : Z;
}.

(** The newest durable committed snapshot at or before the window start
    [now - duration]; [None] duration reads no floor. *)
Definition retention_floor {V} (m : table_meta V) (now : Z) (duration_seconds : option Z) :
    option RetentionFloor :=
  match duration_seconds with
  | None => None
  | Some d =>
      (λ s, {| rf_commit_seq_num := sn_commit_seq_num s;
               rf_snapshotted_at_micros := sn_snapshotted_at_micros s |}) <$>
      pick_snapshot m (λ s, sn_durable s && (sn_snapshotted_at_micros s <=? now - d * 1000000))
  end.

Definition retention_floor_below (floor : RetentionFloor) (plan_as_of_micros : Z)
    (plan_commit_seq_upper : option Z) : bool :=
  match plan_commit_seq_upper with
  | Some seq => seq <? rf_commit_seq_num floor
  | None => plan_as_of_micros <? rf_snapshotted_at_micros floor
  end.

Definition is_all_hot {V} (p : Plan V) : bool :=
  match base_cold_storage p with
  | Some _ => false
  | None =>
      match cold_storage p with
      | None => true
      | Some c => match persist c, snapshot c with None, None => true | _, _ => false end
      end
  end.

Definition is_all_cold {V} (p : Plan V) : bool :=
  match hot_storage p with None => true | Some _ => false end.

Definition is_snapshot_only {V} (p : Plan V) : bool :=
  is_all_cold p &&
  match cold_storage p with
  | Some c => match snapshot c, persist c with Some _, None => true | _, _ => false end
  | None => false
  end.

Definition is_direct_seek_eligible {V} (p : Plan V) (exact_selection : bool) : bool :=
  is_snapshot_only p && exact_selection.

Inductive TierShape := ShapeAllHot | ShapeSnapshotOnly | ShapeColdOnly | ShapeMerged.

Definition tier_shape {V} (p : Plan V) : TierShape :=
  if is_all_hot p then ShapeAllHot
  else if is_all_cold p then
    if is_snapshot_only p then ShapeSnapshotOnly else ShapeColdOnly
  else ShapeMerged.
