(* ===== verification/SnapshotScan.v ===== *)
(** * The snapshot-tier scan (penca-dl/src/provider.rs, penca-dl/src/driver.rs)

    Reading the rows of planned snapshot segments: the plain segment read, the
    read that intersects the offsets of every seek entry a segment can resolve,
    and the aggregate point seek.  A seek is selection only: it may return more
    rows than the predicate admits, never fewer. *)

From S2P Require Import Prelude ReadSnapshot Dialect MergeSql IndexSeek Plan.
From stdpp Require Import base numbers list option sets sorting.

Open Scope Z_scope.

(** A seek entry: [None] is the identity ([row_uuid]) index. *)
Record SeekSpec := {
  ss_index_uuid : option Z;
  ss_key_columns : list Z;
  ss_tuples : list (list Z);
}.

Inductive DlError := DlFormat (e : FormatError) | DlTakeOutOfRange.

Section scan.
Context {V : Type}.
Implicit Types (seg : SnapshotSegment V) (spec : SeekSpec).

Definition sidecar_for_index seg (index_uuid : option Z) : option sidecar :=
  match index_uuid with
  | None => row_uuid_index_sidecar seg
  | Some u => snd <$> head (filter (λ p, p.1 = u) (index_sidecars seg))
  end.

Definition resolve_seek_entries seg (seeks : option (list SeekSpec)) :
    list (sidecar * SeekSpec) :=
  match seeks with
  | None => []
  | Some es => omap (λ spec, (λ sc, (sc, spec)) <$> sidecar_for_index seg (ss_index_uuid spec)) es
  end.

(** [key_column_types]: [None] when a key column is not in the table schema. *)
Definition key_columns_known (schema : list Z) (key_columns : list Z) : bool :=
  forallb (λ c, bool_decide (c ∈ schema)) key_columns.

(** [take_matched_rows]: an offset outside the segment is an error. *)
Definition take_matched_rows seg (offsets : list Z) : result DlError (list (Z * V)) :=
  match mapM (λ o : Z, if decide (0 ≤ o) then snapshot_rows seg !! Z.to_nat o else None) offsets with
  | Some rows => Ok rows
  | None => Err DlTakeOutOfRange
  end.

Definition seek_entry_offsets (sc : sidecar) (tuples : list (list Z)) : result DlError (list Z) :=
  match seek_row_offsets sc tuples with
  | Ok o => Ok o
  | Err e => Err (DlFormat e)
  end.

(** The loop over the resolved entries; [None] means no entry seeked. *)
Fixpoint intersect_entries (schema : list Z) (intersected : option (list Z))
    (es : list (sidecar * SeekSpec)) : result DlError (option (list Z)) :=
  match es with
  | [] => Ok intersected
  | (sc, spec) :: es' =>
      if is_empty (ss_tuples spec) then Ok (Some [])
      else if negb (key_columns_known schema (ss_key_columns spec)) then
        intersect_entries schema intersected es'
      else
        match seek_entry_offsets sc (ss_tuples spec) with
        | Err e => Err e
        | Ok offsets =>
            let next := match intersected with
                        | None => offsets
                        | Some prev => intersect_sorted prev offsets
                        end in
            if is_empty next then Ok (Some []) else intersect_entries schema (Some next) es'
        end
  end.

Definition read_intersect_seeked_snapshot_segment (schema : list Z) seg
    (es : list (sidecar * SeekSpec)) : result DlError (list (Z * V)) :=
  match intersect_entries schema None es with
  | Err e => Err e
  | Ok None => Ok (snapshot_rows seg)
  | Ok (Some offsets) => take_matched_rows seg offsets
  end.

(** One segment of [SnapshotPartitionStream::execute]. *)
Definition scan_segment (schema : list Z) (seeks : option (list SeekSpec)) seg :
    result DlError (list (Z * V)) :=
  match resolve_seek_entries seg seeks with
  | [] => Ok (snapshot_rows seg)
  | es => read_intersect_seeked_snapshot_segment schema seg es
  end.

Fixpoint scan_segments (schema : list Z) (seeks : option (list SeekSpec))
    (segs : list (SnapshotSegment V)) : result DlError (list (Z * V)) :=
  match segs with
  | [] => Ok []
  | seg :: segs' =>
      match scan_segment schema seeks seg with
      | Err e => Err e
      | Ok rows => match scan_segments schema seeks segs' with
                   | Err e => Err e
                   | Ok rest => Ok (rows ++ rest)
                   end
      end
  end.

(** The aggregate seek of a single entry; [Ok None] falls back to the merge. *)
Fixpoint seek_segments (tuples : list (list Z)) (index_uuid : option Z)
    (segs : list (SnapshotSegment V)) : result DlError (option (list (Z * V))) :=
  match segs with
  | [] => Ok (Some [])
  | seg :: segs' =>
      match sidecar_for_index seg index_uuid with
      | None => Ok None
      | Some sc =>
          let rows :=
            if is_empty tuples then Ok []
            else match seek_entry_offsets sc tuples with
                 | Err e => Err e
                 | Ok offsets => take_matched_rows seg offsets
                 end in
          match rows with
          | Err e => Err e
          | Ok rows =>
              match seek_segments tuples index_uuid segs' with
              | Ok (Some rest) => Ok (Some (rows ++ rest))
              | other => other
              end
          end
      end
  end.

Definition seek_snapshot_point (schema : list Z) (segs : list (SnapshotSegment V))
    (tuples : list (list Z)) (index_uuid : option Z) (key_columns : list Z) :
    result DlError (option (list (Z * V))) :=
  if existsb (λ seg, match sidecar_for_index seg index_uuid with None => true | _ => false end) segs
  then Ok None
  else if negb (key_columns_known schema key_columns) then Ok None
  else seek_segments tuples index_uuid segs.

(** ** Well-formed sidecars

    [index_key] gives the key cells an index reads off a row; the identity
    index reads the [row_uuid].  A segment's sidecars are the artifacts built
    from its rows. *)
Context (index_key : Z → Z * V → list cell).

Definition key_of (index_uuid : option Z) (x : Z * V) : list cell :=
  match index_uuid with None => [Some x.1] | Some u => index_key u x end.

Definition built_for seg (index_uuid : option Z) (sc : sidecar) : Prop :=
  ∃ key_cols, build_segment_index key_cols = Ok sc ∧
    length (default [] (head key_cols)) = length (snapshot_rows seg) ∧
    ∀ i x, snapshot_rows seg !! i = Some x → key_at key_cols i = key_of index_uuid x.

Definition seg_wf seg : Prop :=
  ∀ u sc, sidecar_for_index seg u = Some sc → built_for seg u sc.

Definition spec_matches spec (x : Z * V) : Prop :=
  ∃ q, q ∈ ss_tuples spec ∧ matches_probe (key_of (ss_index_uuid spec) x) q.

(** Probe tuples of one entry have one arity, within the index's key count. *)
Definition spec_ok seg spec : Prop :=
  ∀ sc, sidecar_for_index seg (ss_index_uuid spec) = Some sc →
    ss_tuples spec = [] ∨ probes_ok (num_keys sc) (ss_tuples spec).

(** ** Lemmas *)

Definition offsets_ok seg (o : list Z) : Prop :=
  StronglySorted Z.lt o ∧ ∀ z, z ∈ o → ∃ i, z = Z.of_nat i ∧ (i < length (snapshot_rows seg))%nat.

Lemma seek_entry_offsets_spec seg u sc tuples :
  built_for seg u sc → probes_ok (num_keys sc) tuples →
  ∃ o, seek_entry_offsets sc tuples = Ok o ∧ offsets_ok seg o ∧
    ∀ i x, snapshot_rows seg !! i = Some x →
      Z.of_nat i ∈ o ↔ ∃ q, q ∈ tuples ∧ matches_probe (key_of u x) q.
Proof.
  intros (kc & Hb & Hlen & Hkey) Hp.
  assert (∀ q, q ∈ tuples → (length q ≤ num_keys sc)%nat) as Har.
  { destruct Hp as (a & Ha & Hall). intros q Hq. rewrite (Hall q Hq). lia. }
  pose proof (seek_build_spec kc sc tuples Hb Har) as Hs.
  unfold seek_entry_offsets. rewrite (seek_row_offsets_Ok sc tuples Hp).
  eexists. split; [done|]. split.
  - split; [apply vec_dedup_sorted, StronglySorted_merge_sort; apply _|].
    intros z. rewrite elem_of_vec_dedup, merge_sort_Permutation, Hs.
    intros (i & q & Hi & -> & _). exists i. split; [done|]. by rewrite <- Hlen.
  - intros i x Hx. rewrite elem_of_vec_dedup, merge_sort_Permutation, Hs. split.
    + intros (j & q & Hj & ->%Nat2Z.inj & Hq & Hm). exists q. split; [done|]. by rewrite <- (Hkey j x Hx).
    + intros (q & Hq & Hm). exists i, q. split_and!; [|done|done|by rewrite (Hkey i x Hx)].
      rewrite Hlen. by eapply lookup_lt_Some.
Qed.

Lemma take_matched_rows_spec seg o :
  offsets_ok seg o →
  ∃ rows, take_matched_rows seg o = Ok rows ∧ rows `sublist_of` snapshot_rows seg ∧
    (∀ x, x ∈ rows ↔ ∃ i, Z.of_nat i ∈ o ∧ snapshot_rows seg !! i = Some x).
Proof.
  intros [Hsort Ho]. unfold take_matched_rows.
  assert (∃ rows, mapM (λ o : Z, if decide (0 ≤ o) then snapshot_rows seg !! Z.to_nat o else None) o = Some rows)
    as [rows Hrows].
  { apply mapM_is_Some_2, Forall_forall. intros z Hz. destruct (Ho z Hz) as (i & -> & Hi).
    unfold compose; case_decide; [|lia]. rewrite Nat2Z.id. by apply lookup_lt_is_Some_2. }
  rewrite Hrows. exists rows. split; [done|]. apply mapM_Some in Hrows. split.
  { apply (mapM_lookup_sublist _ (Z.to_nat <$> o)).
    - clear Hrows. induction Hsort as [|z o Hsort IH Hall]; simpl; constructor.
      + apply IH. set_solver.
      + apply Forall_forall. intros k (z' & -> & Hz')%list_elem_of_fmap.
        rewrite Forall_forall in Hall. specialize (Hall z' Hz'). destruct (Ho z') as (? & -> & _); [set_solver|].
        destruct (Ho z) as (? & -> & _); [set_solver|]. lia.
    - apply mapM_Some. clear Hsort. induction Hrows as [|z r o rows Hz Hrows IH]; simpl; constructor.
      + by case_decide.
      + apply IH. set_solver. }
  intros x. split.
  - intros Hx. apply list_elem_of_lookup in Hx as [k Hk].
    destruct (Forall2_lookup_r _ _ _ _ _ Hrows Hk) as (z & Hz & Heq).
    destruct (Ho z) as (i & -> & _); [by eapply list_elem_of_lookup_2|].
    case_decide; [|lia]. rewrite Nat2Z.id in Heq. exists i. split; [by eapply list_elem_of_lookup_2|done].
  - intros (i & Hi & Hx). apply list_elem_of_lookup in Hi as [k Hk].
    destruct (Forall2_lookup_l _ _ _ _ _ Hrows Hk) as (y & Hy & Heq).
    case_decide; [|lia]. rewrite Nat2Z.id in Heq.
    assert (x = y) as -> by congruence. by eapply list_elem_of_lookup_2.
Qed.

(** What the offsets accumulated so far mean: every row that matches all the
    entries is still selected. *)
Lemma intersect_entries_spec schema seg es : ∀ acc,
  seg_wf seg →
  (∀ sc spec, (sc, spec) ∈ es → sidecar_for_index seg (ss_index_uuid spec) = Some sc ∧ spec_ok seg spec) →
  (∀ o, acc = Some o → offsets_ok seg o) →
  ∃ res, intersect_entries schema acc es = Ok res ∧
    (∀ o, res = Some o → offsets_ok seg o) ∧
    ∀ i x o, snapshot_rows seg !! i = Some x →
      (∀ sc spec, (sc, spec) ∈ es → spec_matches spec x) →
      (∀ o', acc = Some o' → Z.of_nat i ∈ o') →
      res = Some o → Z.of_nat i ∈ o.
Proof.
  induction es as [|[sc spec] es IH]; intros acc Hwf Hes Hacc.
  { exists acc. split; [done|]. split; [done|]. naive_solver. }
  cbn [intersect_entries].
  destruct (Hes sc spec ltac:(set_solver)) as [Hsc Hok].
  assert (∀ sc' spec', (sc', spec') ∈ es → sidecar_for_index seg (ss_index_uuid spec') = Some sc' ∧ spec_ok seg spec') as Hes'.
  { intros ? ? ?. apply Hes. set_solver. }
  destruct (ss_tuples spec) as [|t ts] eqn:Ht; simpl is_empty; cbn iota.
  { eexists. split; [done|]. split; [intros o [= <-]; split; [constructor|set_solver]|].
    intros i x o Hx Hm _ [= <-]. destruct (Hm sc spec ltac:(set_solver)) as (q & Hq & _).
    rewrite Ht in Hq. by apply not_elem_of_nil in Hq. }
  destruct (negb _).
  { destruct (IH acc Hwf Hes' Hacc) as (res & ? & ? & Hres). exists res. split_and!; [done|done|].
    intros i x o Hx Hm. apply (Hres i x o Hx). intros sc0 ? ?. apply (Hm sc0). set_solver. }
  destruct (seek_entry_offsets_spec seg (ss_index_uuid spec) sc (t :: ts)) as (off & -> & Hoff & Hsel).
  { by apply Hwf. }
  { destruct (Hok sc Hsc) as [?|?]; congruence. }
  set (next := match acc with None => off | Some prev => intersect_sorted prev off end).
  assert (offsets_ok seg next) as Hnext.
  { unfold next. destruct acc as [prev|]; [|done]. destruct (Hacc prev eq_refl) as [Hs1 Hin1].
    destruct Hoff as [Hs2 Hin2]. split; [by apply intersect_sorted_sorted|].
    intros z Hz. apply intersect_sorted_elem in Hz; [|done|done]. naive_solver. }
  assert (∀ i x, snapshot_rows seg !! i = Some x → spec_matches spec x →
            (∀ o', acc = Some o' → Z.of_nat i ∈ o') → Z.of_nat i ∈ next) as Hinext.
  { intros i x Hx Hm Hin. assert (Z.of_nat i ∈ off) as Hio.
    { apply (Hsel i x Hx). destruct Hm as (q & Hq & Hm). exists q. by rewrite <- Ht. }
    unfold next. destruct acc as [prev|]; [|done].
    apply intersect_sorted_elem; [by apply Hacc|apply Hoff|]. split; [by apply Hin|done]. }
  destruct (is_empty next) eqn:Hemp.
  { exists (Some []). split; [done|]. split; [intros o [= <-]; split; [constructor|set_solver]|].
    intros i x o Hx Hm Hin [= <-]. assert (next = []) as Hn by (destruct next; [done|done]).
    rewrite <- Hn. apply (Hinext i x); [done|apply (Hm sc); set_solver|done]. }
  destruct (IH (Some next) Hwf Hes') as (res & Hr1 & Hr2 & Hr3); [naive_solver|].
  exists res. split_and!; [done|done|]. intros i x o Hx Hm Hin Ho.
  apply (Hr3 i x o Hx); [intros sc0 ? ?; apply (Hm sc0); set_solver| |done].
  intros o' [= <-]. apply (Hinext i x); [done|apply (Hm sc); set_solver|done].
Qed.

Lemma resolve_seek_entries_elem seg seeks sc spec :
  (sc, spec) ∈ resolve_seek_entries seg seeks →
  sidecar_for_index seg (ss_index_uuid spec) = Some sc ∧ ∃ es, seeks = Some es ∧ spec ∈ es.
Proof.
  unfold resolve_seek_entries. destruct seeks as [es|]; [|by intros ?%not_elem_of_nil].
  intros (spec' & Hin & Heq)%list_elem_of_omap.
  destruct (sidecar_for_index seg (ss_index_uuid spec')) eqn:E; simplify_eq/=. eauto.
Qed.

(** A segment scan selects a sub-multiset of the rows that contains every row
    all entries match. *)
Lemma scan_segment_spec schema seeks seg :
  seg_wf seg → (∀ es spec, seeks = Some es → spec ∈ es → spec_ok seg spec) →
  ∃ rows, scan_segment schema seeks seg = Ok rows ∧
    rows `sublist_of` snapshot_rows seg ∧
    (∀ x, x ∈ snapshot_rows seg →
       (∀ es spec, seeks = Some es → spec ∈ es → spec_matches spec x) → x ∈ rows).
Proof.
  intros Hwf Hok. unfold scan_segment.
  pose proof (resolve_seek_entries_elem seg seeks) as Hel.
  destruct (resolve_seek_entries seg seeks) as [|e es] eqn:E.
  { eexists. split; [done|]. naive_solver. }
  unfold read_intersect_seeked_snapshot_segment.
  destruct (intersect_entries_spec schema seg (e :: es) None) as (res & -> & Hres & Hsel); [done| |done|].
  { intros sc spec Hin. destruct (Hel sc spec Hin) as (Hsc & es' & Hs & Hspec). eauto. }
  destruct res as [o|]; [|eexists; split; [done|]; naive_solver].
  destruct (take_matched_rows_spec seg o (Hres o eq_refl)) as (rows & -> & Hsub & Hrows).
  exists rows. split_and!; [done|done|].
  intros x Hx Hm. apply Hrows. apply list_elem_of_lookup in Hx as [i Hi]. exists i.
  split; [|done]. apply (Hsel i x o); [done| |done|done].
  intros sc spec Hin. destruct (Hel sc spec Hin) as (_ & es' & Hs & Hspec). eauto.
Qed.

Lemma scan_segments_spec schema seeks segs :
  (∀ seg, seg ∈ segs → seg_wf seg) →
  (∀ seg es spec, seg ∈ segs → seeks = Some es → spec ∈ es → spec_ok seg spec) →
  ∃ rows, scan_segments schema seeks segs = Ok rows ∧
    rows `sublist_of` mbind snapshot_rows segs ∧
    (∀ x, x ∈ mbind snapshot_rows segs →
       (∀ es spec, seeks = Some es → spec ∈ es → spec_matches spec x) → x ∈ rows).
Proof.
  induction segs as [|seg segs IH]; intros Hwf Hok; cbn [scan_segments].
  { exists []. split_and!; [done|done|]. set_solver. }
  destruct (scan_segment_spec schema seeks seg) as (r1 & -> & Hs1 & Hc1); [set_solver|set_solver|].
  destruct IH as (r2 & -> & Hs2 & Hc2); [set_solver|set_solver|].
  exists (r1 ++ r2). split; [done|]. rewrite bind_cons.
  split; [by apply sublist_app|]. intros x; rewrite !elem_of_app; naive_solver.
Qed.

(** The aggregate seek is exact: it returns the rows its one entry matches. *)
Lemma seek_segments_spec spec segs :
  (∀ seg, seg ∈ segs → seg_wf seg ∧ spec_ok seg spec ∧
     ∃ sc, sidecar_for_index seg (ss_index_uuid spec) = Some sc) →
  ∃ rows, seek_segments (ss_tuples spec) (ss_index_uuid spec) segs = Ok (Some rows) ∧
    rows `sublist_of` mbind snapshot_rows segs ∧
    (∀ x, x ∈ rows ↔ x ∈ mbind snapshot_rows segs ∧ spec_matches spec x).
Proof.
  induction segs as [|seg segs IH]; intros Hall; cbn [seek_segments].
  { exists []. split_and!; [done|done|]. intros x; simpl. split; [by intros ?%not_elem_of_nil|by intros [? _]]. }
  destruct (Hall seg) as (Hwf & Hok & sc & Hsc); [set_solver|].
  destruct IH as (rest & Hrest & Hsub & Hel); [set_solver|]. rewrite Hsc, Hrest.
  assert (∃ rows, (if is_empty (ss_tuples spec) then Ok []
            else match seek_entry_offsets sc (ss_tuples spec) with
                 | Err e => Err e | Ok offsets => take_matched_rows seg offsets end) = Ok rows ∧
            rows `sublist_of` snapshot_rows seg ∧
            (∀ x, x ∈ rows ↔ x ∈ snapshot_rows seg ∧ spec_matches spec x)) as (rows & -> & Hs & Hr).
  { destruct (ss_tuples spec) as [|t ts] eqn:Ht; simpl is_empty; cbn iota.
    - exists []. split_and!; [done|apply sublist_nil_l|]. intros x. split; [by intros ?%not_elem_of_nil|].
      intros (_ & q & Hq & _). rewrite Ht in Hq. by apply not_elem_of_nil in Hq.
    - destruct (seek_entry_offsets_spec seg (ss_index_uuid spec) sc (t :: ts)) as (o & -> & Ho & Hsel).
      { by apply Hwf. }
      { destruct (Hok sc Hsc) as [?|?]; congruence. }
      destruct (take_matched_rows_spec seg o Ho) as (rows & -> & Hs & Hr).
      exists rows. split_and!; [done|done|]. intros x. rewrite Hr. unfold spec_matches. rewrite Ht. split.
      + intros (i & Hi & Hx). split; [by eapply list_elem_of_lookup_2|]. by apply (Hsel i x Hx).
      + intros [[i Hi]%list_elem_of_lookup Hm]. exists i. split; [by apply (Hsel i x Hi)|done]. }
  exists (rows ++ rest). split; [done|]. rewrite bind_cons. split; [by apply sublist_app|].
  intros x. rewrite !elem_of_app, Hr, Hel. naive_solver.
Qed.

Lemma seek_snapshot_point_spec schema spec segs :
  (∀ seg, seg ∈ segs → seg_wf seg ∧ spec_ok seg spec) →
  seek_snapshot_point schema segs (ss_tuples spec) (ss_index_uuid spec) (ss_key_columns spec) = Ok None ∨
  ∃ rows, seek_snapshot_point schema segs (ss_tuples spec) (ss_index_uuid spec) (ss_key_columns spec)
            = Ok (Some rows) ∧
    rows `sublist_of` mbind snapshot_rows segs ∧
    (∀ x, x ∈ rows ↔ x ∈ mbind snapshot_rows segs ∧ spec_matches spec x).
Proof.
  intros Hall. unfold seek_snapshot_point. destruct (existsb _ segs) eqn:Hex; [by left|].
  destruct (negb _); [by left|]. right. apply seek_segments_spec.
  intros seg Hseg. destruct (Hall seg Hseg). split_and!; [done|done|].
  destruct (sidecar_for_index seg (ss_index_uuid spec)) eqn:E; [eauto|].
  assert (existsb (λ seg, match sidecar_for_index seg (ss_index_uuid spec) with None => true | _ => false end) segs = true) as Ht.
  { apply existsb_exists. exists seg. split; [by apply list_elem_of_In|by rewrite E]. }
  congruence.
Qed.
End scan.
