(* ===== verification/IndexSelect.v ===== *)
(** * Covering-index seek selection (penca-api/src/query/index_select.rs)

    The wire batch of equality values is decoded into per-column bindings and a
    residual predicate; every materialized index whose key columns are all bound
    becomes a seek entry probing the cartesian product of the bindings.  Column
    names and key values are modelled by [Z], values being compared by the
    equality their display strings denote. *)

From S2P Require Import Prelude ReadSnapshot Dialect MergeSql IndexSeek Plan SnapshotScan.
From stdpp Require Import base numbers list option sets sorting gmap.

Open Scope Z_scope.

Definition USIZE_MAX : Z := 2 ^ 64 - 1.

Inductive ApiError :=
  | InvalidRequest
  | NotFound
  | FailedPrecondition
  | Internal
  | DbUniqueViolation
  | DbOutOfRange
  | ColdStorage
  | Unimplemented
  | AlreadyExists
  | ApiArrow
  | DataTable
  | DbProtocol.

(** ** Decoding the wire batch *)

(** The single non-empty record batch of the IPC stream: its columns with their
    types, and its rows of possibly-NULL cells. *)
Record IndexBatch := {
  ib_columns : list (Z * Z);
  ib_rows : list (list cell);
}.

Record DecodedIndexSeek := {
  bindings : gmap Z (list Z);
  residual : list (list (Z * Z));
}.

(** Column [i] of the batch; [None] when it holds a NULL. *)
Definition batch_column (rows : list (list cell)) (i : nat) : option (list Z) :=
  mapM (λ row, mjoin (row !! i)) rows.

(** The equalities one batch row contributes to the residual. *)
Definition residual_row (columns : list Z) (row : list cell) : list (Z * Z) :=
  omap (λ p : nat * Z, (λ v, (p.2, v)) <$> mjoin (row !! p.1)) (imap pair columns).

(** The key columns and types the batch may use: [defined] are the key columns
    of the defined indexes, [schema] the declared column types. *)
Definition decode_index_seek (batches : list IndexBatch) (schema : gmap Z Z)
    (defined : list (list Z)) : result ApiError DecodedIndexSeek :=
  match filter (λ b, ib_rows b ≠ []) batches with
  | [] => Err InvalidRequest
  | _ :: _ :: _ => Err InvalidRequest
  | [b] =>
      let columns := fst <$> ib_columns b in
      if decide (Forall (λ c, c ∈ mjoin defined) columns) then
        if decide (Forall (λ p : Z * Z, schema !! p.1 = Some p.2) (ib_columns b)) then
          match mapM (batch_column (ib_rows b)) (seq 0 (length columns)) with
          | None => Err InvalidRequest
          | Some cols =>
              Ok {| bindings := foldl (λ m p, <[p.1 := p.2]> m) ∅ (zip columns cols);
                    residual := residual_row columns <$> ib_rows b |}
          end
        else Err InvalidRequest
      else Err InvalidRequest
  end.

(** The residual: a disjunction over the batch rows of conjunctions of
    equalities ([index_residual]); [value] reads a column off a row. *)
Definition index_residual {R} (value : Z → R → cell) (res : list (list (Z * Z))) (x : R) : bool :=
  existsb (forallb (λ p : Z * Z, bool_decide (value p.1 x = Some p.2))) res.

(** ** Matching bindings against the materialized indexes *)

Definition checked_mul (a b : Z) : option Z := if a * b <=? USIZE_MAX then Some (a * b) else None.

Fixpoint checked_product (acc : Z) (per_column : list (list Z)) : option Z :=
  match per_column with
  | [] => Some acc
  | vs :: rest => checked_mul acc (Z.of_nat (length vs)) ≫= λ acc', checked_product acc' rest
  end.

(** One round of the cartesian product: every tuple extended by every value. *)
Definition extend_tuples (tuples : list (list Z)) (values : list Z) : list (list Z) :=
  mbind (λ tuple, (λ value, tuple ++ [value]) <$> values) tuples.

Definition bind_index_tuples (key_columns : list Z) (bs : gmap Z (list Z)) (max_probe_tuples : Z) :
    option (list (list Z)) :=
  match mapM (λ column, bs !! column) key_columns with
  | None => None
  | Some per_column =>
      match checked_product 1 per_column with
      | None => None
      | Some product =>
          if product =? 0 then None
          else if max_probe_tuples <? product then None
          else Some (foldl extend_tuples [[]] per_column)
      end
  end.

Fixpoint select_loop (bs : gmap Z (list Z)) (max_probe_tuples : Z) (defs : list SnapshotIndexDef)
    (seen_key_sets : list (list Z)) : list SeekSpec :=
  match defs with
  | [] => []
  | def :: rest =>
      let sorted_keys := merge_sort Z.le (index_key_columns def) in
      if decide (sorted_keys ∈ seen_key_sets) then select_loop bs max_probe_tuples rest seen_key_sets
      else
        match bind_index_tuples (index_key_columns def) bs max_probe_tuples with
        | None => select_loop bs max_probe_tuples rest seen_key_sets
        | Some tuples =>
            {| ss_index_uuid := Some (index_uuid def);
               ss_key_columns := index_key_columns def;
               ss_tuples := tuples |}
            :: select_loop bs max_probe_tuples rest (sorted_keys :: seen_key_sets)
        end
  end.

Definition select_from_bindings {V} (bs : gmap Z (list Z)) (sp : SnapshotPlan V)
    (max_probe_tuples : Z) : list SeekSpec :=
  if decide (bs = ∅) then [] else select_loop bs max_probe_tuples (sp_indexes sp) [].

(** The filter re-parse path; [equality_bindings] is DataFusion's equality
    extraction from the predicate, [max_probe_tuples = 0] the kill switch. *)
Definition select_index_seeks {V} (equality_bindings : gmap Z (list Z)) (sp : SnapshotPlan V)
    (max_probe_tuples : Z) : list SeekSpec :=
  if max_probe_tuples =? 0 then [] else select_from_bindings equality_bindings sp max_probe_tuples.

(** ** Selection lemmas *)

Lemma extend_tuples_elem tuples values t :
  t ∈ extend_tuples tuples values ↔ ∃ t0 v, t = t0 ++ [v] ∧ t0 ∈ tuples ∧ v ∈ values.
Proof.
  unfold extend_tuples. rewrite list_elem_of_bind. setoid_rewrite list_elem_of_fmap. naive_solver.
Qed.

Lemma length_extend_tuples tuples values :
  length (extend_tuples tuples values) = (length tuples * length values)%nat.
Proof.
  unfold extend_tuples. induction tuples as [|t ts IH]; [done|].
  rewrite bind_cons, length_app, length_fmap, IH. simpl. lia.
Qed.

(** The fold is the cartesian product in column order. *)
Lemma cartesian_elem per_column : ∀ acc t,
  t ∈ foldl extend_tuples acc per_column ↔
  ∃ t0 vs, t = t0 ++ vs ∧ t0 ∈ acc ∧ Forall2 (λ v col, v ∈ col) vs per_column.
Proof.
  induction per_column as [|col cols IH]; intros acc t; simpl.
  - split.
    + intros H. exists t, []. rewrite app_nil_r. by split_and!.
    + by intros (t0 & vs & -> & Ht0 & ->%Forall2_nil_inv_r); rewrite app_nil_r.
  - rewrite IH. setoid_rewrite extend_tuples_elem. split.
    + intros (t1 & vs & -> & (t0 & v & -> & Ht0 & Hv) & Hvs). exists t0, (v :: vs).
      rewrite <- app_assoc. auto.
    + intros (t0 & vs' & -> & Ht0 & (v & vs & Hv & Hvs & ->)%Forall2_cons_inv_r).
      exists (t0 ++ [v]), vs. rewrite <- app_assoc. naive_solver.
Qed.

Lemma cartesian_length per_column : ∀ acc p,
  checked_product (Z.of_nat (length acc)) per_column = Some p →
  Z.of_nat (length (foldl extend_tuples acc per_column)) = p.
Proof.
  induction per_column as [|col cols IH]; intros acc p; simpl; [congruence|].
  unfold checked_mul. destruct (_ <=? _); [|done]. simpl. intros H. apply IH.
  rewrite length_extend_tuples. by rewrite Nat2Z.inj_mul.
Qed.

Lemma bind_index_tuples_spec key_columns bs mx tuples :
  bind_index_tuples key_columns bs mx = Some tuples →
  (1 ≤ Z.of_nat (length tuples) ≤ mx) ∧
  ∀ t, t ∈ tuples ↔ Forall2 (λ v c, ∃ vs, bs !! c = Some vs ∧ v ∈ vs) t key_columns.
Proof.
  unfold bind_index_tuples. destruct (mapM _ key_columns) as [per|] eqn:Hper; [|done].
  destruct (checked_product 1 per) as [p|] eqn:Hp; [|done].
  destruct (Z.eqb_spec p 0); [done|]. destruct (Z.ltb_spec mx p); [done|]. intros [= <-].
  split.
  - rewrite (cartesian_length per [[]] p) by done.
    assert (p = Z.of_nat (length (foldl extend_tuples [[]] per))) as -> by (symmetry; by apply cartesian_length).
    lia.
  - apply mapM_Some in Hper. intros t. rewrite cartesian_elem. split.
    + intros (t0 & vs & -> & ->%list_elem_of_singleton & Hvs). simpl.
      clear Hp. revert vs Hvs. induction Hper as [|c col cs cols Hc Hper IH]; intros vs Hvs.
      * apply Forall2_nil_inv_r in Hvs as ->. constructor.
      * apply Forall2_cons_inv_r in Hvs as (v & vs' & Hv & Hvs & ->). constructor; eauto.
    + intros Ht. exists [], t. split_and!; [done|set_solver|].
      clear Hp. revert t Ht. induction Hper as [|c col cs cols Hc Hper IH]; intros t Ht.
      * apply Forall2_nil_inv_r in Ht as ->. constructor.
      * apply Forall2_cons_inv_r in Ht as (v & vs' & (vs & Hvs & Hv) & Ht & ->).
        constructor; [congruence|eauto].
Qed.

Lemma select_loop_elem bs mx defs : ∀ seen e,
  e ∈ select_loop bs mx defs seen →
  ∃ def, def ∈ defs ∧ ss_index_uuid e = Some (index_uuid def) ∧
    ss_key_columns e = index_key_columns def ∧
    bind_index_tuples (index_key_columns def) bs mx = Some (ss_tuples e).
Proof.
  induction defs as [|def defs IH]; intros seen e; simpl; [by intros ?%not_elem_of_nil|].
  case_decide; [intros (d & ? & ?)%IH; set_solver|].
  destruct (bind_index_tuples _ bs mx) as [tuples|] eqn:E; [|intros (d & ? & ?)%IH; set_solver].
  intros [->|(d & ? & ?)%IH]%elem_of_cons; [|set_solver]. exists def. set_solver.
Qed.

Lemma select_loop_nodup bs mx defs : ∀ seen,
  NoDup ((λ e, merge_sort Z.le (ss_key_columns e)) <$> select_loop bs mx defs seen) ∧
  ∀ e, e ∈ select_loop bs mx defs seen → merge_sort Z.le (ss_key_columns e) ∉ seen.
Proof.
  induction defs as [|def defs IH]; intros seen; simpl; [split; [constructor|set_solver]|].
  case_decide as Hs; [apply IH|].
  destruct (bind_index_tuples _ bs mx) as [tuples|]; [|apply IH].
  destruct (IH (merge_sort Z.le (index_key_columns def) :: seen)) as [Hnd Hns]. split.
  - rewrite fmap_cons, NoDup_cons. split; [|done]. simpl.
    intros (e & Heq & He)%list_elem_of_fmap. apply (Hns e He). rewrite <- Heq. set_solver.
  - intros e [->|He]%elem_of_cons; [done|]. specialize (Hns e He). set_solver.
Qed.

Section selection.
Context {V : Type} (value : Z → Z * V → cell) (index_key : Z → Z * V → list cell).

(** An index reads its key columns off the row. *)
Definition index_keys_ok (sp : SnapshotPlan V) : Prop :=
  ∀ def x, def ∈ sp_indexes sp → index_key (index_uuid def) x = (λ c, value c x) <$> index_key_columns def.

(** A row is within the bindings when every bound column has one of its values. *)
Definition within_bindings (bs : gmap Z (list Z)) (x : Z * V) : Prop :=
  ∀ c vs, bs !! c = Some vs → ∃ v, v ∈ vs ∧ value c x = Some v.

Lemma select_from_bindings_def bs (sp : SnapshotPlan V) mx e :
  e ∈ select_from_bindings bs sp mx →
  ∃ def, def ∈ sp_indexes sp ∧ ss_index_uuid e = Some (index_uuid def) ∧
    ss_key_columns e = index_key_columns def ∧
    bind_index_tuples (index_key_columns def) bs mx = Some (ss_tuples e).
Proof.
  unfold select_from_bindings. case_decide; [by intros ?%not_elem_of_nil|apply select_loop_elem].
Qed.

Lemma select_covers_within bs (sp : SnapshotPlan V) mx e x :
  index_keys_ok sp → e ∈ select_from_bindings bs sp mx →
  within_bindings bs x → spec_matches index_key e x.
Proof.
  intros Hkeys (def & Hdef & Hu & _ & Hb)%select_from_bindings_def Hx.
  apply bind_index_tuples_spec in Hb as [Hlen Hts].
  assert (∀ c, c ∈ index_key_columns def → ∃ vs, bs !! c = Some vs) as Hbound.
  { destruct (ss_tuples e) as [|t ts]; [simpl in *; lia|].
    assert (t ∈ t :: ts) as Ht%Hts by set_solver. intros c [i Hc]%list_elem_of_lookup.
    destruct (Forall2_lookup_r _ _ _ _ _ Ht Hc) as (? & _ & vs & ? & _). eauto. }
  assert (∃ q, Forall2 (λ v c, (∃ vs, bs !! c = Some vs ∧ v ∈ vs) ∧ value c x = Some v) q
                 (index_key_columns def)) as [q Hq].
  { clear Hts Hdef Hu Hlen. induction (index_key_columns def) as [|c cs IH]; [by exists []|].
    destruct IH as [q Hq]; [set_solver|]. destruct (Hbound c) as [vs Hvs]; [set_solver|].
    destruct (Hx c vs Hvs) as (v & Hv & Hval). exists (v :: q). constructor; eauto. }
  exists q. split.
  { apply Hts. eapply Forall2_impl; [exact Hq|]. naive_solver. }
  unfold matches_probe, key_of. rewrite Hu, Hkeys by done.
  rewrite (Forall2_length _ _ _ Hq), <- (length_fmap (λ c, value c x)), firstn_all.
  clear -Hq. induction Hq as [|v c q cs [_ Hv] Hq IH]; [done|]. by rewrite !fmap_cons, Hv, IH.
Qed.
End selection.

(** A row the residual admits is within the decoded bindings. *)
Lemma foldl_insert_lookup (l : list (Z * list Z)) : ∀ (m : gmap Z (list Z)) c vs,
  foldl (λ m p, <[p.1 := p.2]> m) m l !! c = Some vs → (c, vs) ∈ l ∨ m !! c = Some vs.
Proof.
  induction l as [|[c0 vs0] l IH]; intros m c vs; simpl; [by right|].
  intros [?|H]%IH; [left; set_solver|]. apply lookup_insert_Some in H as [[<- <-]|[_ ?]]; [left; set_solver|by right].
Qed.

Lemma decoded_within {V} (value : Z → Z * V → cell) batches schema defined k x :
  decode_index_seek batches schema defined = Ok k →
  index_residual value (residual k) x = true → within_bindings value (bindings k) x.
Proof.
  unfold decode_index_seek. destruct (filter _ batches) as [|b [|]]; [done| |done].
  repeat case_decide; [|done|done]. destruct (mapM _ (seq 0 _)) as [cols|] eqn:Hcols; [|done].
  intros [= <-]. cbn [bindings residual]. unfold index_residual. rewrite existsb_exists.
  intros (eqs & (row & -> & Hrow)%list_elem_of_In%list_elem_of_fmap & Hall). rewrite forallb_forall in Hall.
  intros c vs [Hin|?]%foldl_insert_lookup; [|by rewrite lookup_empty in *].
  apply list_elem_of_lookup in Hin as [i Hi]. apply lookup_zip_Some in Hi as [Hc Hvs].
  apply mapM_Some in Hcols. destruct (Forall2_lookup_r _ _ _ _ _ Hcols Hvs) as (i' & Hi' & Hbc).
  apply lookup_seq in Hi' as [-> _]. simpl in Hbc. apply mapM_Some in Hbc.
  apply list_elem_of_lookup in Hrow as [j Hj].
  destruct (Forall2_lookup_l _ _ _ _ _ Hbc Hj) as (v & Hv & Hcell).
  exists v. split; [by eapply list_elem_of_lookup_2|].
  specialize (Hall (c, v)). rewrite bool_decide_eq_true in Hall. apply Hall, list_elem_of_In.
  unfold residual_row. apply list_elem_of_omap. exists (i, c). split; [by apply elem_of_imap_pair|].
  simpl. by rewrite Hcell.
Qed.

(** Covering-index selection is a sound accelerator: every selected entry
    names a materialized index of the snapshot and its declared key columns, no
    two entries share a key-column set, each carries between one and the
    configured maximum of probe tuples of full key arity, and every row whose
    bound columns hold bound values matches every entry, so intersecting the
    entries never loses a row the bindings admit. *)
Theorem select_from_bindings_sound {V} (value : Z → Z * V → cell)
    (index_key : Z → Z * V → list cell) (bs : gmap Z (list Z)) (sp : SnapshotPlan V) (mx : Z)
    (Hkeys : index_keys_ok value index_key sp) :
  (∀ e, e ∈ select_from_bindings bs sp mx →
     (∃ def, def ∈ sp_indexes sp ∧ ss_index_uuid e = Some (index_uuid def) ∧
             ss_key_columns e = index_key_columns def) ∧
     1 ≤ Z.of_nat (length (ss_tuples e)) ≤ mx ∧
     (∀ t, t ∈ ss_tuples e → length t = length (ss_key_columns e)) ∧
     (∀ x, within_bindings value bs x → spec_matches index_key e x)) ∧
  NoDup ((λ e, merge_sort Z.le (ss_key_columns e)) <$> select_from_bindings bs sp mx).
Proof.
  split.
  - intros e He. pose proof (select_covers_within value index_key bs sp mx e) as Hcov.
    destruct (select_from_bindings_def bs sp mx e He) as (def & Hd & Hu & Hc & Hb).
    apply bind_index_tuples_spec in Hb as [Hlen Hts].
    split_and!; [by exists def|apply Hlen|apply Hlen| |auto].
    intros t Ht%Hts. rewrite Hc. by eapply Forall2_length.
  - unfold select_from_bindings. case_decide; [constructor|].
    apply (select_loop_nodup bs mx (sp_indexes sp) []).
Qed.

Lemma select_from_bindings_sound_witness :
  let sp := {| sp_segments := @nil (SnapshotSegment (Z * Z));
               sp_indexes := [{| index_uuid := 7; index_key_columns := [1; 2] |}];
               sp_snapshotted_at_micros := 0; sp_commit_seq_num := 0 |} in
  let value c (x : Z * (Z * Z)) := Some (if c =? 1 then x.2.1 else x.2.2) in
  let ikey (u : Z) x := [value 1 x; value 2 x] in
  spec_matches ikey
    {| ss_index_uuid := Some 7; ss_key_columns := [1; 2]; ss_tuples := [[10; 20]; [10; 21]] |}
    (99, (10, 21)).
Proof.
  intros sp value ikey.
  assert (index_keys_ok value ikey sp) as Hk
    by (intros def x ->%list_elem_of_singleton; reflexivity).
  apply (proj1 (select_from_bindings_sound value ikey {[1 := [10]; 2 := [20; 21]]} sp 8 Hk)).
  - change (select_from_bindings {[1 := [10]; 2 := [20; 21]]} sp 8) with
      [{| ss_index_uuid := Some 7; ss_key_columns := [1; 2]; ss_tuples := [[10; 20]; [10; 21]] |}].
    by apply list_elem_of_singleton.
  - intros c vs Hc. apply lookup_insert_Some in Hc as [[<- <-]|[_ Hc]].
    + exists 10. split; [set_solver|reflexivity].
    + apply lookup_singleton_Some in Hc as [<- <-]. exists 21. split; [set_solver|reflexivity].
Defined.
