(* ===== verification/Effects.v ===== *)
(** * Effects that can fail

    A run of an operation whose statements and file operations each take effect
    on their own: a state, the number of effects so far, and for every effect
    whether it runs, is refused, loses its answer or is the last thing the
    process does. *)

From S2P Require Import Prelude IndexSelect.
From stdpp Require Import base list.

(** What happens to the [n]-th effect of a run. *)
Inductive fault :=
  | Runs     (* done, and reported *)
  | Refused  (* not done, an error reported *)
  | Lost     (* done, an error reported *)
  | Dies.    (* the process is gone *)

Inductive outcome (A : Type) :=
  | Returns (a : A)
  | Raises (e : ApiError)
  | Dead.
Arguments Returns {A} _.
Arguments Raises {A} _.
Arguments Dead {A}.

Definition effect (W A : Type) : Type := W → W * outcome A.

Section effects.
Context {W : Type}.

Definition returns {A} (a : A) : effect W A := λ w, (w, Returns a).
Definition raises {A} (e : ApiError) : effect W A := λ w, (w, Raises e).

Definition bind {A B} (m : effect W A) (k : A → effect W B) : effect W B := λ w,
  match m w with
  | (w', Returns a) => k a w'
  | (w', Raises e) => (w', Raises e)
  | (w', Dead) => (w', Dead)
  end.

(** [let _ = ...] and [match outcome]: an error becomes a value. *)
Definition attempt {A} (m : effect W A) : effect W (result ApiError A) := λ w,
  match m w with
  | (w', Returns a) => (w', Returns (Ok a))
  | (w', Raises e) => (w', Returns (Err e))
  | (w', Dead) => (w', Dead)
  end.

Fixpoint for_each {A} (l : list A) (f : A → effect W unit) : effect W unit :=
  match l with
  | [] => returns tt
  | x :: rest => bind (f x) (λ _, for_each rest f)
  end.

Definition local (f : W → W) : effect W unit := λ w, (f w, Returns tt).
Definition get {A} (f : W → A) : effect W A := λ w, (w, Returns (f w)).

End effects.

Declare Scope effect_scope.
Delimit Scope effect_scope with effect.
Notation "x ←! m ; k" := (bind m (λ x, k)) (at level 100, m at next level, k at level 200, right associativity) : effect_scope.
Notation "m ;! k" := (bind m (λ _, k)) (at level 100, k at level 200, right associativity) : effect_scope.
