(* ===== verification/TxLog.v ===== *)
(** * Transaction logs (penca-storage-hot/src/tx.rs, penca-api/src/write/mod.rs,
      penca-api/src/query/meta_resolve.rs)

    One branch's [begin_tx_log], [commit_tx_log] and [abort_tx_log] with the two
    serial counters.  Every operation takes the database clock as an argument;
    a unique-index conflict fails the statement and rolls its transaction back,
    so an [Err] result leaves the state unchanged.  Attribution columns
    (comment, author) are payload and left out. *)

From S2P Require Import Prelude Watermarks ReadSnapshot Dialect MergeSql IndexSelect.
From stdpp Require Import base numbers list option sets gmap sorting.

Open Scope Z_scope.
Open Scope result_scope.

(** ** Rows and state *)

Record begin_row := {
  began_at_micros : Z;
  began_at_seq_num : Z;
  expires_at_micros : Z;
}.

Record abort_row := AbortRow {
  at_tx_uuid : Z;
  at_aborted_at_micros : Z;
  at_aborted_at_seq_num : Z;
}.

Record tx_logs := {
  begin_tx_log : gmap Z begin_row;
  tx_commit_log : list commit_row;
  abort_tx_log : list abort_row;
  commit_tx_log_seq_num : Z;
  abort_seq_num : Z;
}.

Definition empty_tx_logs : tx_logs :=
  {| begin_tx_log := ∅; tx_commit_log := []; abort_tx_log := [];
     commit_tx_log_seq_num := 0; abort_seq_num := 0 |}.

Inductive TxStatus :=
  | Open (began_at_micros began_at_seq_num : Z)
  | Expired (expired_at_micros : Z)
  | Aborted (aborted_at_micros aborted_at_seq_num : Z)
  | Committed (commit_micros : Z).

(** ** Hot-storage statements *)

Definition find_commit (l : tx_logs) (tx : Z) : option commit_row :=
  head (filter (λ c, ct_tx_uuid c = tx) (tx_commit_log l)).
Definition find_abort (l : tx_logs) (tx : Z) : option abort_row :=
  head (filter (λ a, at_tx_uuid a = tx) (abort_tx_log l)).

Definition get_tx_status (l : tx_logs) (now tx : Z) : option TxStatus :=
  match begin_tx_log l !! tx with
  | None => None
  | Some b => Some
      match find_abort l tx with
      | Some a => Aborted (at_aborted_at_micros a) (at_aborted_at_seq_num a)
      | None =>
          match find_commit l tx with
          | Some c => Committed (ct_commit_micros c)
          | None =>
              if expires_at_micros b <? now then Expired (expires_at_micros b)
              else Open (began_at_micros b) (began_at_seq_num b)
          end
      end
  end.

Definition begin_tx (l : tx_logs) (now tx timeout_seconds : Z) : result ApiError (tx_logs * (Z * Z)) :=
  match begin_tx_log l !! tx with
  | Some _ => Err DbUniqueViolation
  | None =>
      let b := {| began_at_micros := now;
                  began_at_seq_num := commit_tx_log_seq_num l;
                  expires_at_micros := now + timeout_seconds * 1000000 |} in
      Ok ({| begin_tx_log := <[tx := b]> (begin_tx_log l);
             tx_commit_log := tx_commit_log l; abort_tx_log := abort_tx_log l;
             commit_tx_log_seq_num := commit_tx_log_seq_num l; abort_seq_num := abort_seq_num l |},
          (began_at_micros b, expires_at_micros b))
  end.

(** The commit insert: allocate the serial, stamp the clock, insert under the
    primary key and the two unique indexes; the [BIGINT] counter does not wrap. *)
Definition commit_tx_log_insert (l : tx_logs) (now tx : Z) : result ApiError (tx_logs * commit_row) :=
  let c := CommitRow tx now (commit_tx_log_seq_num l) in
  if I64_MAX <=? commit_tx_log_seq_num l then Err DbOutOfRange
  else if decide (Exists (λ c', ct_tx_uuid c' = ct_tx_uuid c ∨ ct_commit_micros c' = ct_commit_micros c ∨
                           ct_commit_seq_num c' = ct_commit_seq_num c) (tx_commit_log l))
  then Err DbUniqueViolation
  else Ok ({| begin_tx_log := begin_tx_log l;
              tx_commit_log := tx_commit_log l ++ [c]; abort_tx_log := abort_tx_log l;
              commit_tx_log_seq_num := commit_tx_log_seq_num l + 1;
              abort_seq_num := abort_seq_num l |}, c).

(** [INSERT ... SELECT FROM begin_tx_log]; no begin row means no returned row. *)
Definition commit_open_tx (l : tx_logs) (now tx : Z) : result ApiError (tx_logs * commit_row) :=
  match begin_tx_log l !! tx with
  | None => Err Internal
  | Some _ => commit_tx_log_insert l now tx
  end.

Definition hot_abort_tx (l : tx_logs) (now tx : Z) : result ApiError (tx_logs * Z) :=
  match begin_tx_log l !! tx with
  | None => Err Internal
  | Some _ =>
      if I64_MAX <=? abort_seq_num l then Err DbOutOfRange
      else if decide (Exists (λ a, at_tx_uuid a = tx) (abort_tx_log l)) then Err DbUniqueViolation
      else Ok ({| begin_tx_log := begin_tx_log l; tx_commit_log := tx_commit_log l;
                  abort_tx_log := abort_tx_log l ++ [AbortRow tx now (abort_seq_num l)];
                  commit_tx_log_seq_num := commit_tx_log_seq_num l;
                  abort_seq_num := abort_seq_num l + 1 |}, now)
  end.

Definition auto_commit_tx (l : tx_logs) (now tx : Z) : result ApiError (tx_logs * commit_row) :=
  commit_tx_log_insert l now tx.

(** ** API operations *)

Definition commit_tx (l : tx_logs) (now tx : Z) : result ApiError (tx_logs * commit_row) :=
  match get_tx_status l now tx with
  | None => Err NotFound
  | Some (Aborted _ _) | Some (Committed _) | Some (Expired _) => Err FailedPrecondition
  | Some (Open _ _) => commit_open_tx l now tx
  end.

Definition abort_tx (l : tx_logs) (now tx : Z) : result ApiError (tx_logs * Z) :=
  match get_tx_status l now tx with
  | None => Err NotFound
  | Some (Aborted aborted_at_micros _) => Ok (l, aborted_at_micros)
  | Some (Expired expired_at_micros) => Ok (l, expired_at_micros)
  | Some (Committed _) => Err FailedPrecondition
  | Some (Open _ _) => hot_abort_tx l now tx
  end.

Definition resolve_tx (l : tx_logs) (now tx : Z) : result ApiError Z :=
  match get_tx_status l now tx with
  | None => Err NotFound
  | Some (Open _ began_at_seq_num) => Ok began_at_seq_num
  | Some (Aborted _ _) | Some (Expired _) | Some (Committed _) => Err FailedPrecondition
  end.

(** [None] auto-commits under the freshly drawn uuid [fresh]. *)
Definition resolve_or_auto_commit_tx (l : tx_logs) (now fresh : Z) (request_tx_uuid : option Z) :
    result ApiError (tx_logs * (Z * option commit_row)) :=
  match request_tx_uuid with
  | Some tx => let? _ := resolve_tx l now tx in Ok (l, (tx, None))
  | None => let? '(l', c) := auto_commit_tx l now fresh in Ok (l', (fresh, Some c))
  end.

Definition seq_frontier_from_counter (counter_seq_num : option Z) : Z :=
  default 0 counter_seq_num - 1.

Definition branch_seq_frontier (l : tx_logs) : Z :=
  seq_frontier_from_counter (Some (commit_tx_log_seq_num l)).

Definition resolve_read_snapshot (l : tx_logs) (now : Z)
    (open_tx_uuid as_of_micros as_of_seq default_frontier : option Z) : result ApiError ReadSnapshot :=
  if decide (is_Some open_tx_uuid ∧ (is_Some as_of_micros ∨ is_Some as_of_seq)) then Err InvalidRequest
  else
    match open_tx_uuid with
    | Some tx => let? began := resolve_tx l now tx in Ok (OpenTx began tx)
    | None =>
        match as_of_micros with
        | Some ts => Ok (AsOfMicros ts)
        | None =>
            match as_of_seq with
            | Some seq => Ok (AsOfSeq seq)
            | None => Ok (LatestSeq (default (branch_seq_frontier l) default_frontier))
            end
        end
    end.

(** ** Steps *)

(** The database clock is never behind a commit it has stamped, and an
    auto-commit draws an unused uuid. *)
Definition clock_ok (l : tx_logs) (now : Z) : Prop :=
  0 < now < I64_MAX ∧ ∀ c, c ∈ tx_commit_log l → ct_commit_micros c ≤ now.

Definition fresh_tx (l : tx_logs) (tx : Z) : Prop :=
  begin_tx_log l !! tx = None ∧ (∀ c, c ∈ tx_commit_log l → ct_tx_uuid c ≠ tx) ∧
  (∀ a, a ∈ abort_tx_log l → at_tx_uuid a ≠ tx).

(** What clients do to the logs.  The garbage collection of the logs (PurgeTxLog)
    is not one of these steps: it forgets finished transactions, whose status is
    then not found.  TxLedger.v models it. *)
Inductive tx_step : tx_logs → tx_logs → Prop :=
  | StepBegin l now tx timeout l' out :
      clock_ok l now → begin_tx l now tx timeout = Ok (l', out) → tx_step l l'
  | StepCommit l now tx l' c :
      clock_ok l now → commit_tx l now tx = Ok (l', c) → tx_step l l'
  | StepAbort l now tx l' t :
      clock_ok l now → abort_tx l now tx = Ok (l', t) → tx_step l l'
  | StepAutoCommit l now tx l' c :
      clock_ok l now → fresh_tx l tx → auto_commit_tx l now tx = Ok (l', c) → tx_step l l'.

(** ** Invariant *)

Definition commit_lt (a b : commit_row) : Prop :=
  ct_commit_seq_num a < ct_commit_seq_num b ∧ ct_commit_micros a < ct_commit_micros b.

Lemma commit_lt_inj (l : list commit_row) c c' :
  StronglySorted commit_lt l → c ∈ l → c' ∈ l →
  (ct_commit_seq_num c < ct_commit_seq_num c' ↔ ct_commit_micros c < ct_commit_micros c') ∧
  (ct_commit_seq_num c = ct_commit_seq_num c' → c = c').
Proof.
  intros Hs. revert c c'. induction Hs as [|a l Hl IH Hall]; intros c c'; [by intros ?%not_elem_of_nil|].
  rewrite Forall_forall in Hall.
  intros [->|Hc]%elem_of_cons [->|Hc']%elem_of_cons; [split; [lia|done]| | |by apply IH].
  - destruct (Hall c' Hc'). split; [lia|intros; exfalso; lia].
  - destruct (Hall c Hc). split; [lia|intros; exfalso; lia].
Qed.

Record tx_wf (l : tx_logs) : Prop := {
  wf_commits_sorted : StronglySorted commit_lt (tx_commit_log l);
  wf_commits_range : ∀ c, c ∈ tx_commit_log l →
    0 ≤ ct_commit_seq_num c < commit_tx_log_seq_num l ∧ 0 < ct_commit_micros c < I64_MAX;
  wf_commits_nodup : NoDup (ct_tx_uuid <$> tx_commit_log l);
  wf_counter : 0 ≤ commit_tx_log_seq_num l ≤ I64_MAX;
  wf_begins : ∀ tx b, begin_tx_log l !! tx = Some b →
    0 ≤ began_at_seq_num b ≤ commit_tx_log_seq_num l;
  wf_aborts_sorted : StronglySorted Z.lt (at_aborted_at_seq_num <$> abort_tx_log l);
  wf_aborts_range : ∀ a, a ∈ abort_tx_log l → 0 ≤ at_aborted_at_seq_num a < abort_seq_num l;
  wf_aborts_nodup : NoDup (at_tx_uuid <$> abort_tx_log l);
  wf_abort_counter : 0 ≤ abort_seq_num l ≤ I64_MAX;
  wf_disjoint : ∀ c a, c ∈ tx_commit_log l → a ∈ abort_tx_log l → ct_tx_uuid c ≠ at_tx_uuid a;
}.

(** ** Lemmas *)

Lemma head_filter_None {A} (P : A → Prop) `{!∀ x, Decision (P x)} (l : list A) :
  head (filter P l) = None ↔ ∀ x, x ∈ l → ¬ P x.
Proof.
  split.
  - intros Hn x Hx HP. assert (x ∈ filter P l) as Hin by by apply list_elem_of_filter.
    destruct (filter P l); [by apply not_elem_of_nil in Hin|done].
  - intros Hn. destruct (filter P l) as [|y k] eqn:E; [done|].
    assert (y ∈ filter P l) as [? ?]%list_elem_of_filter by (rewrite E; by left). by destruct (Hn y).
Qed.

Lemma StronglySorted_snoc {A} (R : A → A → Prop) (l : list A) x :
  StronglySorted R l → (∀ y, y ∈ l → R y x) → StronglySorted R (l ++ [x]).
Proof.
  induction 1 as [|y l Hl IH Hall]; intros H; simpl; [repeat constructor|].
  constructor; [apply IH; intros; apply H; by right|].
  apply Forall_app. split; [done|]. repeat constructor. apply H. by left.
Qed.

Lemma NoDup_snoc {A} (l : list A) x : NoDup l → x ∉ l → NoDup (l ++ [x]).
Proof.
  intros Hl Hx. apply NoDup_app. split_and!; [done| |apply NoDup_singleton].
  by intros y Hy ->%list_elem_of_singleton.
Qed.

Lemma open_not_terminal l now tx a b :
  get_tx_status l now tx = Some (Open a b) →
  (∃ r, begin_tx_log l !! tx = Some r ∧ began_at_seq_num r = b ∧ now ≤ expires_at_micros r) ∧
  (∀ c, c ∈ tx_commit_log l → ct_tx_uuid c ≠ tx) ∧ (∀ x, x ∈ abort_tx_log l → at_tx_uuid x ≠ tx).
Proof.
  unfold get_tx_status. destruct (begin_tx_log l !! tx) as [r|]; [|done].
  destruct (find_abort l tx) eqn:Ha; [done|]. destruct (find_commit l tx) eqn:Hc; [done|].
  destruct (Z.ltb_spec (expires_at_micros r) now); intros; simplify_eq.
  split_and!; [eauto|by apply (proj1 (head_filter_None _ _))|by apply (proj1 (head_filter_None _ _))].
Qed.

Lemma commit_insert_Ok l now tx l' c :
  commit_tx_log_insert l now tx = Ok (l', c) →
  c = CommitRow tx now (commit_tx_log_seq_num l) ∧
  l' = {| begin_tx_log := begin_tx_log l; tx_commit_log := tx_commit_log l ++ [c];
          abort_tx_log := abort_tx_log l; commit_tx_log_seq_num := commit_tx_log_seq_num l + 1;
          abort_seq_num := abort_seq_num l |} ∧
  commit_tx_log_seq_num l < I64_MAX ∧
  ∀ c', c' ∈ tx_commit_log l → ct_tx_uuid c' ≠ tx ∧ ct_commit_micros c' ≠ now.
Proof.
  unfold commit_tx_log_insert. cbv zeta. destruct (Z.leb_spec I64_MAX (commit_tx_log_seq_num l)); [done|].
  case_decide as Hd; [done|]. intros [= <- <-]. split_and!; [done|done|done|].
  intros c' Hc'. apply not_Exists_Forall in Hd; [|apply _]. rewrite Forall_forall in Hd.
  specialize (Hd c' Hc'). simpl in Hd. naive_solver.
Qed.

Lemma tx_wf_commit l now tx l' c :
  tx_wf l → clock_ok l now → (∀ a, a ∈ abort_tx_log l → at_tx_uuid a ≠ tx) →
  commit_tx_log_insert l now tx = Ok (l', c) → tx_wf l'.
Proof.
  intros Hwf [Hnow Hclk] Hab (-> & -> & Hlt & Hfresh)%commit_insert_Ok. destruct Hwf as [H1 H2 H3 H4 H5 H6 H7 H8 H9 H10].
  split; simpl; try done.
  - apply StronglySorted_snoc; [done|]. intros c Hc. destruct (H2 c Hc). destruct (Hfresh c Hc) as [_ ?].
    specialize (Hclk c Hc). split; simpl; lia.
  - intros c [Hc| ->%list_elem_of_singleton]%elem_of_app; [|simpl; lia]. destruct (H2 c Hc). lia.
  - rewrite fmap_app. apply NoDup_snoc; [done|]. intros (c & Heq & Hc)%list_elem_of_fmap.
    by destruct (Hfresh c Hc).
  - lia.
  - intros tx' b Hb. specialize (H5 tx' b Hb). lia.
  - intros c a [Hc| ->%list_elem_of_singleton]%elem_of_app Ha; [by apply H10|]. simpl. intros ?. by apply (Hab a).
Qed.

Lemma tx_wf_step l l' : tx_wf l → tx_step l l' → tx_wf l'.
Proof.
  intros Hwf Hstep. destruct Hstep as [l now tx tmo l' out Hclk Hop|l now tx l' c Hclk Hop
                                     |l now tx l' t Hclk Hop|l now tx l' c Hclk Hfr Hop].
  - unfold begin_tx in Hop. destruct (begin_tx_log l !! tx) eqn:E; simplify_eq.
    destruct Hwf as [H1 H2 H3 H4 H5 H6 H7 H8 H9 H10]. split; simpl; try done.
    intros tx' b. rewrite lookup_insert_Some. intros [[<- <-]|[_ Hb]]; [simpl; lia|by eapply H5].
  - unfold commit_tx in Hop. destruct (get_tx_status l now tx) as [[]|] eqn:Hst; try done.
    destruct (open_not_terminal _ _ _ _ _ Hst) as (_ & _ & Hab).
    unfold commit_open_tx in Hop. destruct (begin_tx_log l !! tx); [|done]. by eapply tx_wf_commit.
  - unfold abort_tx in Hop. destruct (get_tx_status l now tx) as [[]|] eqn:Hst; simplify_eq; try done.
    destruct (open_not_terminal _ _ _ _ _ Hst) as (_ & Hco & Hab).
    unfold hot_abort_tx in Hop. destruct (begin_tx_log l !! tx); [|done].
    destruct (Z.leb_spec I64_MAX (abort_seq_num l)); [done|]. case_decide; simplify_eq.
    destruct Hwf as [H1 H2 H3 H4 H5 H6 H7 H8 H9 H10]. split; simpl; try done.
    + rewrite fmap_app. apply StronglySorted_snoc; [done|]. simpl.
      intros y (a & -> & Ha)%list_elem_of_fmap. apply (H7 a Ha).
    + intros a [Ha| ->%list_elem_of_singleton]%elem_of_app; [specialize (H7 a Ha); lia|simpl; lia].
    + rewrite fmap_app. apply NoDup_snoc; [done|]. intros (a & Heq & Ha)%list_elem_of_fmap. by apply (Hab a).
    + lia.
    + intros c a Hc [Ha| ->%list_elem_of_singleton]%elem_of_app; [by apply H10|]. simpl. by apply Hco.
  - eapply tx_wf_commit; [done|done| |done]. apply Hfr.
Qed.

Lemma tx_wf_empty : tx_wf empty_tx_logs.
Proof.
  split; simpl; try (unfold I64_MAX; lia); try apply SSorted_nil; try apply NoDup_nil_2.
  - by intros c ?%not_elem_of_nil.
  - intros tx b. by rewrite lookup_empty.
  - by intros a ?%not_elem_of_nil.
  - by intros c a ?%not_elem_of_nil.
Qed.

Lemma tx_wf_reachable l : rtc tx_step empty_tx_logs l → tx_wf l.
Proof.
  intros H. remember empty_tx_logs as e. assert (tx_wf e) as He by (subst; apply tx_wf_empty). clear Heqe.
  induction H; eauto using tx_wf_step.
Qed.

(** A step only appends: earlier commits and aborts stay, the counter grows. *)
Lemma tx_step_grows l l' : tx_step l l' →
  (∃ k, tx_commit_log l' = tx_commit_log l ++ k ∧
        ∀ c, c ∈ k → ct_commit_seq_num c = commit_tx_log_seq_num l) ∧
  (∃ k, abort_tx_log l' = abort_tx_log l ++ k) ∧
  commit_tx_log_seq_num l ≤ commit_tx_log_seq_num l' ∧
  (∀ tx b, begin_tx_log l !! tx = Some b → begin_tx_log l' !! tx = Some b).
Proof.
  assert (∀ now tx l' c, commit_tx_log_insert l now tx = Ok (l', c) →
    (∃ k, tx_commit_log l' = tx_commit_log l ++ k ∧ ∀ c, c ∈ k → ct_commit_seq_num c = commit_tx_log_seq_num l) ∧
    (∃ k, abort_tx_log l' = abort_tx_log l ++ k) ∧ commit_tx_log_seq_num l ≤ commit_tx_log_seq_num l' ∧
    (∀ tx b, begin_tx_log l !! tx = Some b → begin_tx_log l' !! tx = Some b)) as Hins.
  { intros now tx l'' c (-> & -> & _ & _)%commit_insert_Ok; simpl. split_and!; [|exists []|lia|done].
    - eexists. split; [done|]. by intros c ->%list_elem_of_singleton.
    - by rewrite app_nil_r. }
  intros Hstep. destruct Hstep as [l now tx tmo l' out Hclk Hop|l now tx l' c Hclk Hop
                                  |l now tx l' t Hclk Hop|l now tx l' c Hclk Hfr Hop].
  - unfold begin_tx in Hop. destruct (begin_tx_log l !! tx) eqn:E; simplify_eq; simpl.
    split_and!; [exists []; rewrite app_nil_r; set_solver|exists []; by rewrite app_nil_r|lia|].
    intros tx' b Hb. rewrite lookup_insert_ne; [done|congruence].
  - unfold commit_tx in Hop. destruct (get_tx_status l now tx) as [[]|]; try done.
    unfold commit_open_tx in Hop. destruct (begin_tx_log l !! tx); [|done]. by eapply Hins.
  - unfold abort_tx in Hop. destruct (get_tx_status l now tx) as [[]|]; simplify_eq; try done.
    + unfold hot_abort_tx in Hop. destruct (begin_tx_log l !! tx); [|done].
    destruct (Z.leb_spec I64_MAX (abort_seq_num l)); [done|]. case_decide; simplify_eq; simpl.
      split_and!; [exists []; rewrite app_nil_r; set_solver|eauto|lia|done].
    + split_and!; [exists []; rewrite app_nil_r; set_solver|exists []; by rewrite app_nil_r|lia|done].
    + split_and!; [exists []; rewrite app_nil_r; set_solver|exists []; by rewrite app_nil_r|lia|done].
  - by eapply Hins.
Qed.

Lemma tx_steps_grow l l' : rtc tx_step l l' →
  (∃ k, tx_commit_log l' = tx_commit_log l ++ k ∧
        ∀ c, c ∈ k → commit_tx_log_seq_num l ≤ ct_commit_seq_num c) ∧
  (∃ k, abort_tx_log l' = abort_tx_log l ++ k) ∧
  commit_tx_log_seq_num l ≤ commit_tx_log_seq_num l' ∧
  (∀ tx b, begin_tx_log l !! tx = Some b → begin_tx_log l' !! tx = Some b).
Proof.
  induction 1 as [l|l l1 l2 Hs _ ((k2 & Hk2 & Hc2) & (j2 & Hj2) & Hn2 & Hb2)].
  - split_and!; [exists []|exists []|lia|done]; rewrite app_nil_r; [split; [done|set_solver]|done].
  - destruct (tx_step_grows _ _ Hs) as ((k1 & Hk1 & Hc1) & (j1 & Hj1) & Hn1 & Hb1).
    split_and!; [exists (k1 ++ k2)|exists (j1 ++ j2)|lia|auto].
    + rewrite Hk2, Hk1, app_assoc. split; [done|].
      intros c [Hc|Hc]%elem_of_app; [rewrite (Hc1 c Hc); lia|specialize (Hc2 c Hc); lia].
    + by rewrite Hj2, Hj1, app_assoc.
Qed.

Lemma seqZ_snoc (n : Z) : 0 ≤ n → seqZ 0 (n + 1) = seqZ 0 n ++ [n].
Proof. intros Hn. rewrite seqZ_app by lia. by rewrite Z.add_0_l. Qed.

Lemma gapless_step l l' :
  0 ≤ commit_tx_log_seq_num l → 0 ≤ abort_seq_num l →
  ct_commit_seq_num <$> tx_commit_log l = seqZ 0 (commit_tx_log_seq_num l) →
  at_aborted_at_seq_num <$> abort_tx_log l = seqZ 0 (abort_seq_num l) →
  tx_step l l' →
  ct_commit_seq_num <$> tx_commit_log l' = seqZ 0 (commit_tx_log_seq_num l') ∧
  at_aborted_at_seq_num <$> abort_tx_log l' = seqZ 0 (abort_seq_num l').
Proof.
  intros Hn Ha Hc Hab Hstep.
  assert (∀ now tx l' c, commit_tx_log_insert l now tx = Ok (l', c) →
    ct_commit_seq_num <$> tx_commit_log l' = seqZ 0 (commit_tx_log_seq_num l') ∧
    at_aborted_at_seq_num <$> abort_tx_log l' = seqZ 0 (abort_seq_num l')) as Hins.
  { intros now tx l'' c (-> & -> & _ & _)%commit_insert_Ok; simpl. split; [|done].
    by rewrite fmap_app, Hc, seqZ_snoc. }
  destruct Hstep as [l now tx tmo l' out Hclk Hop|l now tx l' c Hclk Hop
                    |l now tx l' t Hclk Hop|l now tx l' c Hclk Hfr Hop].
  - unfold begin_tx in Hop. destruct (begin_tx_log l !! tx); simplify_eq; done.
  - unfold commit_tx in Hop. destruct (get_tx_status l now tx) as [[]|]; try done.
    unfold commit_open_tx in Hop. destruct (begin_tx_log l !! tx); [|done]. by eapply Hins.
  - unfold abort_tx in Hop. destruct (get_tx_status l now tx) as [[]|]; simplify_eq; try done.
    unfold hot_abort_tx in Hop. destruct (begin_tx_log l !! tx); [|done].
    destruct (Z.leb_spec I64_MAX (abort_seq_num l)); [done|]. case_decide; simplify_eq; simpl.
    split; [done|]. by rewrite fmap_app, Hab, seqZ_snoc.
  - by eapply Hins.
Qed.

(** C25 Commit order.  In every state the operations reach from an empty branch,
    the committed transactions carry the serials 0, 1, ..., n-1 without a gap,
    their timestamps strictly increase with the serial, no transaction commits
    twice, aborts carry their own gapless serials, and no transaction is both
    committed and aborted. *)
Theorem commit_order (l : tx_logs) (Hr : rtc tx_step empty_tx_logs l) :
  ct_commit_seq_num <$> tx_commit_log l = seqZ 0 (commit_tx_log_seq_num l) ∧
  StronglySorted (λ a b, ct_commit_micros a < ct_commit_micros b) (tx_commit_log l) ∧
  NoDup (ct_tx_uuid <$> tx_commit_log l) ∧
  at_aborted_at_seq_num <$> abort_tx_log l = seqZ 0 (abort_seq_num l) ∧
  (∀ tx, tx ∈ ct_tx_uuid <$> tx_commit_log l → tx ∈ at_tx_uuid <$> abort_tx_log l → False).
Proof.
  pose proof (tx_wf_reachable l Hr) as Hwf.
  assert (ct_commit_seq_num <$> tx_commit_log l = seqZ 0 (commit_tx_log_seq_num l) ∧
          at_aborted_at_seq_num <$> abort_tx_log l = seqZ 0 (abort_seq_num l)) as [Hc Ha].
  { clear Hwf. revert l Hr. apply rtc_ind_r; [done|]. intros l1 l2 Hr Hs [IHc IHa].
    pose proof (tx_wf_reachable l1 Hr) as Hwf. apply (gapless_step l1 l2); try done; apply Hwf. }
  split_and!; [done| |apply Hwf|done|].
  - pose proof (wf_commits_sorted _ Hwf) as Hs. clear -Hs.
    induction Hs as [|c k Hs IH Hall]; constructor; [done|].
    eapply Forall_impl; [exact Hall|]. by intros c' [_ ?].
  - intros tx (c & -> & Hc')%list_elem_of_fmap (a & Heq & Ha')%list_elem_of_fmap.
    by apply (wf_disjoint _ Hwf c a).
Qed.

(** A history of five operations: two begins, a commit, an auto-commit, an abort. *)
Definition sample_tx_logs : result ApiError tx_logs :=
  let? '(l1, _) := begin_tx empty_tx_logs 1 101 60 in
  let? '(l2, _) := begin_tx l1 2 102 60 in
  let? '(l3, _) := commit_tx l2 3 101 in
  let? '(l4, _) := auto_commit_tx l3 4 103 in
  let? '(l5, _) := abort_tx l4 5 102 in
  Ok l5.

Ltac clock := split; [unfold I64_MAX; lia|]; let c := fresh in let Hc := fresh in intros c Hc; simpl in Hc;
  repeat (apply elem_of_cons in Hc as [->|Hc]; [simpl; lia|]); by apply not_elem_of_nil in Hc.

Lemma sample_reachable : ∃ l, sample_tx_logs = Ok l ∧ rtc tx_step empty_tx_logs l.
Proof.
  eexists. split; [vm_compute; reflexivity|].
  eapply rtc_l; [eapply (StepBegin empty_tx_logs 1 101 60); [clock|vm_compute; reflexivity]|].
  eapply rtc_l; [eapply (StepBegin _ 2 102 60); [clock|vm_compute; reflexivity]|].
  eapply rtc_l; [eapply (StepCommit _ 3 101); [clock|vm_compute; reflexivity]|].
  eapply rtc_l; [eapply (StepAutoCommit _ 4 103); [clock| |vm_compute; reflexivity]|].
  { split; [reflexivity|]. split; intros x Hx; simpl in Hx;
      [apply list_elem_of_singleton in Hx as ->; done|by apply not_elem_of_nil in Hx]. }
  eapply rtc_l; [eapply (StepAbort _ 5 102); [clock|vm_compute; reflexivity]|].
  apply rtc_refl.
Qed.

Lemma commit_order_witness :
  ∃ l, sample_tx_logs = Ok l ∧ ct_commit_seq_num <$> tx_commit_log l = [0; 1] ∧
    (∀ tx, tx ∈ ct_tx_uuid <$> tx_commit_log l → tx ∈ at_tx_uuid <$> abort_tx_log l → False).
Proof.
  destruct sample_reachable as (l & Hl & Hr). exists l. split; [done|]. split.
  - vm_compute in Hl. by injection Hl as <-.
  - apply (commit_order l Hr).
Defined.

Lemma find_commit_elem l c : tx_wf l → c ∈ tx_commit_log l → find_commit l (ct_tx_uuid c) = Some c.
Proof.
  intros Hwf Hc. unfold find_commit. destruct (head _) as [c'|] eqn:E.
  - assert (c' ∈ filter (λ x, ct_tx_uuid x = ct_tx_uuid c) (tx_commit_log l)) as [Heq Hin]%list_elem_of_filter.
    { destruct (filter _ _); simplify_eq/=. by left. }
    f_equal. by eapply (NoDup_fmap_eq ct_tx_uuid); [apply (wf_commits_nodup _ Hwf)|..].
  - exfalso. by apply (proj1 (head_filter_None _ _) E c Hc).
Qed.

Lemma find_abort_elem l a : tx_wf l → a ∈ abort_tx_log l → find_abort l (at_tx_uuid a) = Some a.
Proof.
  intros Hwf Ha. unfold find_abort. destruct (head _) as [a'|] eqn:E.
  - assert (a' ∈ filter (λ x, at_tx_uuid x = at_tx_uuid a) (abort_tx_log l)) as [Heq Hin]%list_elem_of_filter.
    { destruct (filter _ _); simplify_eq/=. by left. }
    f_equal. by eapply (NoDup_fmap_eq at_tx_uuid); [apply (wf_aborts_nodup _ Hwf)|..].
  - exfalso. by apply (proj1 (head_filter_None _ _) E a Ha).
Qed.

(** Statuses that do not change any more. *)
Definition terminal (s : option TxStatus) : Prop :=
  match s with Some (Committed _) | Some (Aborted _ _) => True | _ => False end.

Lemma terminal_stable l l' now now' tx :
  tx_wf l' → rtc tx_step l l' → terminal (get_tx_status l now tx) →
  get_tx_status l' now' tx = get_tx_status l now tx.
Proof.
  intros Hwf Hs. destruct (tx_steps_grow _ _ Hs) as ((k & Hk & _) & (j & Hj) & _ & Hb).
  unfold get_tx_status. destruct (begin_tx_log l !! tx) as [b|] eqn:Eb; [|done]. rewrite (Hb _ _ Eb).
  assert (∀ a, find_abort l tx = Some a → find_abort l' tx = Some a) as Hab.
  { intros a Ha. assert (a ∈ filter (λ x, at_tx_uuid x = tx) (abort_tx_log l)) as [<- Hin]%list_elem_of_filter.
    { unfold find_abort in Ha. destruct (filter _ _); simplify_eq/=. by left. }
    apply find_abort_elem; [done|]. rewrite Hj. apply elem_of_app. by left. }
  assert (∀ c, find_commit l tx = Some c → find_commit l' tx = Some c ∧ find_abort l' tx = None) as Hco.
  { intros c Hc. assert (c ∈ filter (λ x, ct_tx_uuid x = tx) (tx_commit_log l)) as [<- Hin]%list_elem_of_filter.
    { unfold find_commit in Hc. destruct (filter _ _); simplify_eq/=. by left. }
    assert (c ∈ tx_commit_log l') as Hin' by (rewrite Hk; apply elem_of_app; by left).
    split; [by apply find_commit_elem|]. apply head_filter_None. intros a Ha Heq.
    by apply (wf_disjoint _ Hwf c a). }
  destruct (find_abort l tx) as [a|]; [by rewrite (Hab a eq_refl)|].
  destruct (find_commit l tx) as [c|]; [by destruct (Hco c eq_refl) as [-> ->]|].
  by destruct (_ <? _).
Qed.

(** C26 A transaction ends once.  In runs without the GC of the transaction log,
    after a successful commit the transaction is [Committed] in every later state,
    and every later commit, abort or append to it fails with a failed
    precondition; after a successful abort of an open transaction every later
    commit and append fails the same way, while a repeated abort succeeds, returns
    the same timestamp and changes nothing. *)
Theorem tx_ends_once (l l' l'' : tx_logs) (now now' tx : Z)
    (Hr : rtc tx_step empty_tx_logs l) (Hclk : clock_ok l now) (Hs : rtc tx_step l' l'') :
  (∀ c, commit_tx l now tx = Ok (l', c) →
     get_tx_status l'' now' tx = Some (Committed now) ∧
     commit_tx l'' now' tx = Err FailedPrecondition ∧
     abort_tx l'' now' tx = Err FailedPrecondition ∧
     resolve_tx l'' now' tx = Err FailedPrecondition) ∧
  (∀ t a b, get_tx_status l now tx = Some (Open a b) → abort_tx l now tx = Ok (l', t) →
     commit_tx l'' now' tx = Err FailedPrecondition ∧
     resolve_tx l'' now' tx = Err FailedPrecondition ∧
     abort_tx l'' now' tx = Ok (l'', t)).
Proof.
  pose proof (tx_wf_reachable l Hr) as Hwf. split.
  - intros c Hc. assert (tx_step l l') as Hst by (by eapply StepCommit).
    assert (tx_wf l'') as Hwf''.
    { apply tx_wf_reachable. etrans; [exact Hr|]. by eapply rtc_l. }
    assert (get_tx_status l' now tx = Some (Committed now)) as Hnow.
    { unfold commit_tx in Hc. destruct (get_tx_status l now tx) as [[]|] eqn:E; try done.
      destruct (open_not_terminal _ _ _ _ _ E) as ((b & Hb & _) & _ & Hab).
      unfold commit_open_tx in Hc. rewrite Hb in Hc.
      assert (tx_wf l') as Hwf' by (by apply (tx_wf_step l)).
      apply commit_insert_Ok in Hc as (-> & -> & _ & _). unfold get_tx_status. cbn [begin_tx_log]. rewrite Hb.
      replace (find_abort _ tx) with (@None abort_row)
        by (symmetry; apply (proj2 (head_filter_None _ _)), Hab).
      match goal with |- context [find_commit ?L tx] =>
        pose proof (find_commit_elem L (CommitRow tx now (commit_tx_log_seq_num l)) Hwf'
          ltac:(apply elem_of_app; right; by left)) as Hf end.
      cbn [ct_tx_uuid] in Hf. by rewrite Hf. }
    assert (get_tx_status l'' now' tx = Some (Committed now)) as Heq
      by (rewrite <- Hnow; apply terminal_stable; [done|done|by rewrite Hnow]).
    unfold commit_tx, abort_tx, resolve_tx. by rewrite Heq.
  - intros t a b Hop Ha. assert (tx_step l l') as Hst by (by eapply StepAbort).
    assert (tx_wf l'') as Hwf''.
    { apply tx_wf_reachable. etrans; [exact Hr|]. by eapply rtc_l. }
    assert (∃ n, get_tx_status l' now tx = Some (Aborted t n)) as [n Hnow].
    { unfold abort_tx in Ha. rewrite Hop in Ha.
      destruct (open_not_terminal _ _ _ _ _ Hop) as ((r & Hb & _) & _ & Hab).
      assert (tx_wf l') as Hwf' by (by apply (tx_wf_step l)).
      unfold hot_abort_tx in Ha. rewrite Hb in Ha. destruct (I64_MAX <=? _); [done|]. case_decide; simplify_eq.
      unfold get_tx_status. cbn [begin_tx_log]. rewrite Hb.
      match goal with |- context [find_abort ?L tx] =>
        pose proof (find_abort_elem L (AbortRow tx t (abort_seq_num l)) Hwf'
          ltac:(apply elem_of_app; right; by left)) as Hf end.
      cbn [at_tx_uuid] in Hf. rewrite Hf. simpl. eauto. }
    assert (get_tx_status l'' now' tx = Some (Aborted t n)) as Heq
      by (rewrite <- Hnow; apply terminal_stable; [done|done|by rewrite Hnow]).
    unfold commit_tx, abort_tx, resolve_tx. by rewrite Heq.
Qed.

Lemma tx_ends_once_witness :
  ∃ l l' c, rtc tx_step empty_tx_logs l ∧ commit_tx l 3 101 = Ok (l', c) ∧
    commit_tx l' 4 101 = Err FailedPrecondition ∧ abort_tx l' 4 101 = Err FailedPrecondition.
Proof.
  destruct (begin_tx empty_tx_logs 1 101 60) as [[l out]|] eqn:Hb; [|by vm_compute in Hb].
  destruct (commit_tx l 3 101) as [[l' c]|] eqn:Hc;
    [|vm_compute in Hb; injection Hb as <- _; by vm_compute in Hc].
  assert (rtc tx_step empty_tx_logs l) as Hr.
  { eapply rtc_once, (StepBegin empty_tx_logs 1 101 60); [clock|done]. }
  assert (clock_ok l 3) as Hclk.
  { vm_compute in Hb. injection Hb as <- _. clock. }
  exists l, l', c. split_and!; [done|done| |];
    apply (proj1 (tx_ends_once l l' l' 3 4 101 Hr Hclk (rtc_refl _ _)) c Hc).
Defined.

(** C27 Snapshot isolation.  A transaction that begins when the commit log is
    [tx_commit_log l0] resolves, as long as it is open, to a snapshot that sees
    exactly those commits, however many have committed since; a read with no
    explicit snapshot sees every commit so far. *)
Theorem open_tx_snapshot (l0 l1 l2 : tx_logs) (now0 tx timeout now : Z) (out : Z * Z) (s : ReadSnapshot)
    (Hr : rtc tx_step empty_tx_logs l0) (Hclk : clock_ok l0 now0)
    (Hb : begin_tx l0 now0 tx timeout = Ok (l1, out)) (Hs : rtc tx_step l1 l2)
    (Hres : resolve_read_snapshot l2 now (Some tx) None None None = Ok s) :
  (∀ c, c ∈ tx_commit_log l2 →
     sees s (ct_commit_micros c) (ct_commit_seq_num c) ↔ c ∈ tx_commit_log l0) ∧
  (∃ n, resolve_read_snapshot l2 now None None None None = Ok (LatestSeq n) ∧
     ∀ c, c ∈ tx_commit_log l2 → sees (LatestSeq n) (ct_commit_micros c) (ct_commit_seq_num c)).
Proof.
  assert (tx_step l0 l1) as Hst by (by eapply StepBegin).
  assert (tx_wf l2) as Hwf2.
  { apply tx_wf_reachable. etrans; [exact Hr|]. by eapply rtc_l. }
  pose proof (tx_wf_reachable l0 Hr) as Hwf0.
  destruct (tx_steps_grow l1 l2 Hs) as ((k & Hk & Hkc) & _ & _ & Hbeg).
  unfold begin_tx in Hb. destruct (begin_tx_log l0 !! tx) eqn:E0; simplify_eq; simpl in *. split.
  - unfold resolve_read_snapshot in Hres. rewrite decide_False in Hres by (intros [_ [[? ?]|[? ?]]]; done).
    assert (begin_tx_log l2 !! tx = Some {| began_at_micros := now0; began_at_seq_num := commit_tx_log_seq_num l0;
              expires_at_micros := now0 + timeout * 1000000 |}) as Hb2.
    { apply Hbeg. apply lookup_insert_eq. }
    assert (s = OpenTx (commit_tx_log_seq_num l0) tx) as ->.
    { unfold result_bind, resolve_tx, get_tx_status in Hres. rewrite Hb2 in Hres.
      destruct (find_abort l2 tx), (find_commit l2 tx); try done. by destruct (_ <? _); simplify_eq/=. }
    intros c Hc. rewrite Hk in Hc. simpl. split.
    + intros Hlt. apply elem_of_app in Hc as [?|Hc]; [done|]. specialize (Hkc c Hc). lia.
    + intros Hin. apply (wf_commits_range _ Hwf0 c Hin).
  - exists (commit_tx_log_seq_num l2 - 1). split; [done|]. intros c Hc.
    destruct (wf_commits_range _ Hwf2 c Hc) as [? _]. simpl. lia.
Qed.

Lemma open_tx_snapshot_witness :
  ∃ l2 s, resolve_read_snapshot l2 4 (Some 101) None None None = Ok s ∧
    (∀ c, c ∈ tx_commit_log l2 →
       sees s (ct_commit_micros c) (ct_commit_seq_num c) ↔ c ∈ tx_commit_log empty_tx_logs) ∧
    length (tx_commit_log l2) = 1%nat.
Proof.
  destruct (begin_tx empty_tx_logs 1 101 60) as [[l1 out]|] eqn:Hb; [|by vm_compute in Hb].
  destruct (auto_commit_tx l1 3 103) as [[l2 c]|] eqn:Hc;
    [|vm_compute in Hb; injection Hb as <- _; by vm_compute in Hc].
  exists l2, (OpenTx 0 101).
  assert (clock_ok empty_tx_logs 1) as Hclk by clock.
  assert (rtc tx_step l1 l2) as Hs.
  { eapply rtc_once, (StepAutoCommit l1 3 103); [| |done]; vm_compute in Hb; injection Hb as <- _; [clock|].
    split; [reflexivity|]. split; by intros x ?%not_elem_of_nil. }
  assert (resolve_read_snapshot l2 4 (Some 101) None None None = Ok (OpenTx 0 101)) as Hres.
  { clear Hs. vm_compute in Hb. injection Hb as <- _. vm_compute in Hc. injection Hc as <- _. reflexivity. }
  split; [done|]. split.
  - apply (proj1 (open_tx_snapshot empty_tx_logs l1 l2 1 101 60 4 out _ (rtc_refl _ _) Hclk Hb Hs Hres)).
  - clear Hs Hres. vm_compute in Hb. injection Hb as <- _. vm_compute in Hc. by injection Hc as <- _.
Defined.
