(* ===== verification/Session.v ===== *)
(** * SQL sessions (penca-sql-server/src/{session,tx,set,gateway}.rs,
      penca-sql-server/src/flight_sql/{session_options,headers,pin}.rs)

    One session per TCP connection, shared by the connection's HTTP/2 streams:
    the open transaction, kept in a locked field and mirrored in a cell the
    planner reads, the pinned catalog and branch, and the default schema.  A
    transaction statement is two or three atomic pieces with a remote call to the
    write service between them; the streams of a connection interleave. *)

From S2P Require Import Prelude Watermarks ReadSnapshot Dialect MergeSql IndexSelect TxLog.
From Stdlib Require Import Ascii.
From stdpp Require Import base numbers list option strings gmap sets relations.

Open Scope string_scope.
Open Scope list_scope.
Open Scope Z_scope.
Open Scope result_scope.

(** ** Session state *)

Inductive Status :=
  | StInvalidArgument | StNotFound | StFailedPrecondition | StAlreadyExists | StUnimplemented | StInternal | StUnavailable.

#[export] Instance Status_eq_dec : EqDecision Status.
Proof. solve_decision. Defined.

Record ConnSession := {
  cs_catalog_uuid : Z;
  cs_catalog_name : string;
  cs_branch_uuid : Z;
  cs_branch_name : string;
  cs_open_tx_uuid : option Z;
  cs_open_tx_cell : option Z;
  cs_default_schema : string;
}.

Record SessionSnapshot := {
  ss_catalog_uuid : Z;
  ss_catalog_name : string;
  ss_branch_uuid : Z;
  ss_branch_name : string;
  ss_open_tx_uuid : option Z;
}.

Definition snapshot (c : ConnSession) : SessionSnapshot :=
  {| ss_catalog_uuid := cs_catalog_uuid c; ss_catalog_name := cs_catalog_name c;
     ss_branch_uuid := cs_branch_uuid c; ss_branch_name := cs_branch_name c;
     ss_open_tx_uuid := cs_open_tx_uuid c |}.

(** The field and the cell, written in one critical section. *)
Definition with_open_tx (c : ConnSession) (tx : option Z) : ConnSession :=
  {| cs_catalog_uuid := cs_catalog_uuid c; cs_catalog_name := cs_catalog_name c;
     cs_branch_uuid := cs_branch_uuid c; cs_branch_name := cs_branch_name c;
     cs_open_tx_uuid := tx; cs_open_tx_cell := tx; cs_default_schema := cs_default_schema c |}.

Definition set_open_tx (c : ConnSession) (tx_uuid : Z) : result Status ConnSession :=
  match cs_open_tx_uuid c with
  | Some _ => Err StFailedPrecondition
  | None => Ok (with_open_tx c (Some tx_uuid))
  end.

Definition take_open_tx (c : ConnSession) : option ((Z * Z) * ConnSession) :=
  match cs_open_tx_uuid c with
  | None => None
  | Some tx_uuid => Some ((cs_catalog_uuid c, tx_uuid), with_open_tx c None)
  end.

(** [read_snapshot_fields]: the open transaction, or else the pinned frontier. *)
Definition read_snapshot_fields (c : ConnSession) (pinned_as_of_seq : option Z) : option Z * option Z :=
  let open_tx_uuid := cs_open_tx_cell c in
  (open_tx_uuid, match open_tx_uuid with Some _ => None | None => pinned_as_of_seq end).

Definition pin_as_of_seq (open_tx : option Z) (seq_frontier : Z) : option Z :=
  match open_tx with Some _ => None | None => Some seq_frontier end.

Definition resolve_tx_uuid_for_dml (s : SessionSnapshot) (explicit_tx_uuid : option Z) : option Z :=
  match explicit_tx_uuid with Some tx => Some tx | None => ss_open_tx_uuid s end.

Definition validate_session_catalog (s : SessionSnapshot) (target_catalog_uuid : Z) : result Status unit :=
  if decide (ss_catalog_uuid s = target_catalog_uuid) then Ok tt else Err StFailedPrecondition.

Definition validate_session_catalog_name (s : SessionSnapshot) (target_catalog_name : string) : result Status unit :=
  if decide (ss_catalog_name s = target_catalog_name) then Ok tt else Err StFailedPrecondition.

(** The headers of a later request on the connection. *)
Definition validate_header (supplied : option string) (pinned : string) : result Status unit :=
  match supplied with
  | None => Ok tt
  | Some s => if decide (s = pinned) then Ok tt else Err StFailedPrecondition
  end.

(** ** Calls to the write service *)

(** The call is answered, executed but its answer lost, or never delivered. *)
Inductive fate := Answered | AnswerLost | Undelivered.

Definition api_status (e : ApiError) : Status :=
  match e with
  | InvalidRequest => StInvalidArgument
  | NotFound => StNotFound
  | FailedPrecondition => StFailedPrecondition
  | Unimplemented => StUnimplemented
  | AlreadyExists => StAlreadyExists
  | _ => StInternal
  end.

Definition map_write_service_status (s : Status) : Status :=
  match s with
  | StFailedPrecondition | StNotFound | StInvalidArgument => s
  | _ => StInternal
  end.

Definition call {A} (f : fate) (op : tx_logs → result ApiError (tx_logs * A)) (l : tx_logs) : tx_logs * result Status A :=
  let run := match op l with Ok (l', a) => (l', Ok a) | Err e => (l, Err (map_write_service_status (api_status e))) end in
  match f with
  | Answered => run
  | AnswerLost => (run.1, Err (map_write_service_status StUnavailable))
  | Undelivered => (l, Err (map_write_service_status StUnavailable))
  end.

(** ** Statements *)

(** The parts of [Statement::StartTransaction] that are inspected. *)
Record StartTransaction := {
  st_modes : list string;
  st_modifier : option string;
  st_statements : list string;
  st_exception : option string;
  st_has_end_keyword : bool;
}.

Definition validate_start_transaction (s : StartTransaction) : result Status unit :=
  if decide (st_modes s ≠ []) then Err StUnimplemented
  else if decide (is_Some (st_modifier s)) then Err StUnimplemented
  else if decide (st_statements s ≠ [] ∨ is_Some (st_exception s) ∨ st_has_end_keyword s = true) then Err StUnimplemented
  else Ok tt.

(** [handle_begin] up to its remote call. *)
Definition begin_check (s : SessionSnapshot) : result Status unit :=
  match ss_open_tx_uuid s with Some _ => Err StFailedPrecondition | None => Ok tt end.

(** The pieces of [handle_begin], [handle_commit] and [handle_rollback] put
    together, on a stream that runs alone. *)
Definition handle_begin (c : ConnSession) (s : SessionSnapshot) (f : fate) (l : tx_logs) (now tx timeout : Z) :
    (ConnSession * tx_logs) * result Status (Z * Z) :=
  match begin_check s with
  | Err e => ((c, l), Err e)
  | Ok _ =>
      let '(l', r) := call f (λ l, begin_tx l now tx timeout) l in
      match r with
      | Err e => ((c, l'), Err e)
      | Ok _ =>
          match set_open_tx c tx with
          | Err e => ((c, l'), Err e)
          | Ok c' => ((c', l'), Ok (ss_catalog_uuid s, tx))
          end
      end
  end.

Definition handle_commit (c : ConnSession) (f : fate) (l : tx_logs) (now : Z) : (ConnSession * tx_logs) * result Status unit :=
  match take_open_tx c with
  | None => ((c, l), Err StFailedPrecondition)
  | Some ((_, tx), c') =>
      let '(l', r) := call f (λ l, commit_tx l now tx) l in
      ((c', l'), match r with Ok _ => Ok tt | Err e => Err e end)
  end.

Definition handle_rollback (c : ConnSession) (f : fate) (l : tx_logs) (now : Z) : (ConnSession * tx_logs) * result Status unit :=
  match take_open_tx c with
  | None => ((c, l), Err StFailedPrecondition)
  | Some ((_, tx), c') =>
      let '(l', r) := call f (λ l, abort_tx l now tx) l in
      ((c', l'), match r with Ok _ => Ok tt | Err e => Err e end)
  end.

(** The connection closes: the open transaction is aborted, errors ignored. *)
Definition drop_session (c : ConnSession) (f : fate) (l : tx_logs) (now : Z) : tx_logs :=
  match cs_open_tx_uuid c with
  | None => l
  | Some tx => (call f (λ l, abort_tx l now tx) l).1
  end.

(** ** Session options *)

Inductive SetOptionSurface := SurfaceSql | SurfaceWire.
Inductive SetOptionError := InvalidName | Rejected.
Inductive SetOptionPlan := NoOp | WriteSchema (schema : string).

Definition lower_ascii (a : ascii) : ascii :=
  let n := nat_of_ascii a in if ((65 <=? n) && (n <=? 90))%nat then ascii_of_nat (n + 32) else a.

Fixpoint to_ascii_lowercase (s : string) : string :=
  match s with "" => "" | String a r => String (lower_ascii a) (to_ascii_lowercase r) end.

Definition handle_branch (surface : SetOptionSurface) : SetOptionError :=
  match surface with SurfaceSql => Rejected | SurfaceWire => InvalidName end.

Definition plan_catalog (s : SessionSnapshot) (new_catalog : string) : result SetOptionError SetOptionPlan :=
  if decide (new_catalog = ss_catalog_name s) then Ok NoOp else Err Rejected.

Definition plan_set_option (s : SessionSnapshot) (surface : SetOptionSurface) (key value : string) :
    result SetOptionError SetOptionPlan :=
  let key_lower := to_ascii_lowercase key in
  if decide (key_lower = "search_path" ∨ key_lower = "db_schema" ∨ key_lower = "schema") then Ok (WriteSchema value)
  else if decide (key_lower = "branch") then Err (handle_branch surface)
  else if decide (key_lower = "catalog") then plan_catalog s value
  else Err InvalidName.

Definition write_default_schema (c : ConnSession) (schema : string) : ConnSession :=
  {| cs_catalog_uuid := cs_catalog_uuid c; cs_catalog_name := cs_catalog_name c;
     cs_branch_uuid := cs_branch_uuid c; cs_branch_name := cs_branch_name c;
     cs_open_tx_uuid := cs_open_tx_uuid c; cs_open_tx_cell := cs_open_tx_cell c; cs_default_schema := schema |}.

Definition apply_plan (c : ConnSession) (p : SetOptionPlan) : ConnSession :=
  match p with NoOp => c | WriteSchema schema => write_default_schema c schema end.

Definition handle_set_option (s : SessionSnapshot) (c : ConnSession) (surface : SetOptionSurface) (key value : string) :
    result SetOptionError ConnSession :=
  let? plan := plan_set_option s surface key value in Ok (apply_plan c plan).

Definition normalize_set_key (names : list string) : option string :=
  match to_ascii_lowercase <$> names with
  | [name] => if decide (name = "search_path" ∨ name = "branch" ∨ name = "catalog") then Some name else None
  | [ns; name] => if decide (ns = "penca" ∧ (name = "branch" ∨ name = "catalog")) then Some name else None
  | _ => None
  end.

(** A parsed [SET]: the assigned names, when the shape is one of the two that
    are intercepted, and the single string of a one-value assignment. *)
Record SetStatement := { set_names : option (list string); set_single_string : option string }.

(** What [SET] does; [fall_through] is the planner's own handling. *)
Definition handle_set (fall_through : ConnSession → result Status ConnSession) (s : SessionSnapshot) (c : ConnSession)
    (set : SetStatement) : result Status ConnSession :=
  match set_names set ≫= normalize_set_key with
  | None => fall_through c
  | Some key =>
      match set_single_string set with
      | None => Err StInvalidArgument
      | Some value =>
          match handle_set_option s c SurfaceSql key value with
          | Ok c' => Ok c'
          | Err InvalidName => fall_through c
          | Err Rejected => Err StFailedPrecondition
          end
      end
  end.

Inductive ErrorValue := EvInvalidValue | EvInvalidName.

(** The planning pass over the entries of a [SetSessionOptions] request; a value
    that is not a string is [None]. *)
Fixpoint plan_entries (s : SessionSnapshot) (entries : list (string * option string)) :
    result Status (list SetOptionPlan * list (string * ErrorValue)) :=
  match entries with
  | [] => Ok ([], [])
  | (key, None) :: rest => let? '(plans, errors) := plan_entries s rest in Ok (plans, (key, EvInvalidValue) :: errors)
  | (key, Some value) :: rest =>
      match plan_set_option s SurfaceWire key value with
      | Ok plan => let? '(plans, errors) := plan_entries s rest in Ok (plan :: plans, errors)
      | Err InvalidName => let? '(plans, errors) := plan_entries s rest in Ok (plans, (key, EvInvalidName) :: errors)
      | Err Rejected => Err StFailedPrecondition
      end
  end.

Definition handle_set_session_options (s : SessionSnapshot) (c : ConnSession) (entries : list (string * option string)) :
    ConnSession * result Status (list (string * ErrorValue)) :=
  match plan_entries s entries with
  | Err e => (c, Err e)
  | Ok (plans, errors) => (foldl apply_plan c plans, Ok errors)
  end.

Definition handle_get_session_options (s : SessionSnapshot) (c : ConnSession) : list (string * string) :=
  [("catalog", ss_catalog_name s); ("db_schema", cs_default_schema c); ("schema", cs_default_schema c);
   ("search_path", cs_default_schema c)].

(** ** Streams of one connection *)

(** A request between two of its atomic pieces. *)
Inductive task :=
  | TBegin (s : SessionSnapshot)
  | TBegun (tx : Z)
  | TCommitting (tx : Z)
  | TRollingBack (tx : Z).

(** [sw_begun] are the transactions the write service opened for this connection,
    [sw_forgotten] those that nothing on the connection refers to any more while
    they were still open. *)
Record session_world := {
  sw_conn : ConnSession;
  sw_logs : tx_logs;
  sw_tasks : list task;
  sw_begun : list Z;
  sw_forgotten : list Z;
  sw_now : Z;
}.

(** The transaction is committed, aborted or expired. *)
Definition over (l : tx_logs) (now tx : Z) : bool :=
  match get_tx_status l now tx with Some (Open _ _) | None => false | Some _ => true end.

Definition forget_unless_over (l : tx_logs) (now tx : Z) (forgotten : list Z) : list Z :=
  if over l now tx then forgotten else tx :: forgotten.

Inductive session_label :=
  | LArrive (* a request enters *)
  | LCall (f : fate) (* a remote call *)
  | LLocal. (* anything else *)

Inductive session_step : session_world → session_label → session_world → Prop :=
  (** BEGIN enters and takes its snapshot *)
  | SArrive c l ts bs fs now :
      session_step {| sw_conn := c; sw_logs := l; sw_tasks := ts; sw_begun := bs; sw_forgotten := fs; sw_now := now |} LArrive
        {| sw_conn := c; sw_logs := l; sw_tasks := TBegin (snapshot c) :: ts; sw_begun := bs; sw_forgotten := fs; sw_now := now |}
  | SBeginRefused c l ts ts' s e bs fs now :
      begin_check s = Err e →
      session_step {| sw_conn := c; sw_logs := l; sw_tasks := ts ++ TBegin s :: ts'; sw_begun := bs; sw_forgotten := fs; sw_now := now |} LLocal
        {| sw_conn := c; sw_logs := l; sw_tasks := ts ++ ts'; sw_begun := bs; sw_forgotten := fs; sw_now := now |}
  (** [BeginTx]: the answer carries the minted uuid *)
  | SBeginCall c l l' r ts ts' s f tx timeout bs fs now now' :
      begin_check s = Ok tt → now ≤ now' → clock_ok l now' → fresh_tx l tx → 0 < timeout →
      call f (λ l, begin_tx l now' tx timeout) l = (l', r) →
      session_step {| sw_conn := c; sw_logs := l; sw_tasks := ts ++ TBegin s :: ts'; sw_begun := bs; sw_forgotten := fs; sw_now := now |} (LCall f)
        {| sw_conn := c; sw_logs := l';
           sw_tasks := match r with Ok _ => ts ++ TBegun tx :: ts' | Err _ => ts ++ ts' end;
           sw_begun := match f with Undelivered => bs | _ => tx :: bs end;
           sw_forgotten := match f with AnswerLost => tx :: fs | _ => fs end; sw_now := now' |}
  | SBeginSet c l ts ts' tx bs fs now :
      session_step {| sw_conn := c; sw_logs := l; sw_tasks := ts ++ TBegun tx :: ts'; sw_begun := bs; sw_forgotten := fs; sw_now := now |} LLocal
        {| sw_conn := match set_open_tx c tx with Ok c' => c' | Err _ => c end; sw_logs := l; sw_tasks := ts ++ ts'; sw_begun := bs;
           sw_forgotten := match set_open_tx c tx with Ok _ => fs | Err _ => forget_unless_over l now tx fs end; sw_now := now |}
  (** COMMIT and ROLLBACK take the transaction, then call *)
  | STake c c' l ts cat tx (commit : bool) bs fs now :
      take_open_tx c = Some ((cat, tx), c') →
      session_step {| sw_conn := c; sw_logs := l; sw_tasks := ts; sw_begun := bs; sw_forgotten := fs; sw_now := now |} LArrive
        {| sw_conn := c'; sw_logs := l; sw_tasks := (if commit then TCommitting tx else TRollingBack tx) :: ts;
           sw_begun := bs; sw_forgotten := fs; sw_now := now |}
  | SCommitCall c l l' r ts ts' tx f bs fs now now' :
      now ≤ now' → clock_ok l now' → call f (λ l, commit_tx l now' tx) l = (l', r) →
      session_step {| sw_conn := c; sw_logs := l; sw_tasks := ts ++ TCommitting tx :: ts'; sw_begun := bs; sw_forgotten := fs; sw_now := now |} (LCall f)
        {| sw_conn := c; sw_logs := l'; sw_tasks := ts ++ ts'; sw_begun := bs;
           sw_forgotten := forget_unless_over l' now' tx fs; sw_now := now' |}
  | SRollbackCall c l l' r ts ts' tx f bs fs now now' :
      now ≤ now' → clock_ok l now' → call f (λ l, abort_tx l now' tx) l = (l', r) →
      session_step {| sw_conn := c; sw_logs := l; sw_tasks := ts ++ TRollingBack tx :: ts'; sw_begun := bs; sw_forgotten := fs; sw_now := now |} (LCall f)
        {| sw_conn := c; sw_logs := l'; sw_tasks := ts ++ ts'; sw_begun := bs;
           sw_forgotten := forget_unless_over l' now' tx fs; sw_now := now' |}
  (** SET and SetSessionOptions *)
  | SOptions c l ts entries bs fs now :
      session_step {| sw_conn := c; sw_logs := l; sw_tasks := ts; sw_begun := bs; sw_forgotten := fs; sw_now := now |} LArrive
        {| sw_conn := (handle_set_session_options (snapshot c) c entries).1; sw_logs := l; sw_tasks := ts; sw_begun := bs;
           sw_forgotten := fs; sw_now := now |}
  | SSetSchema c l ts schema bs fs now :
      session_step {| sw_conn := c; sw_logs := l; sw_tasks := ts; sw_begun := bs; sw_forgotten := fs; sw_now := now |} LArrive
        {| sw_conn := write_default_schema c schema; sw_logs := l; sw_tasks := ts; sw_begun := bs; sw_forgotten := fs; sw_now := now |}
  (** other connections *)
  | SOther c l l' ts bs fs now now' :
      now ≤ now' → tx_step l l' →
      session_step {| sw_conn := c; sw_logs := l; sw_tasks := ts; sw_begun := bs; sw_forgotten := fs; sw_now := now |} LLocal
        {| sw_conn := c; sw_logs := l'; sw_tasks := ts; sw_begun := bs; sw_forgotten := fs; sw_now := now' |}.

(** A client that waits for each answer, calls that are answered, and a clock
    that has moved on since the last commit. *)
Definition calm (w : session_world) (lab : session_label) (w' : session_world) : Prop :=
  match lab with
  | LArrive => sw_tasks w = []
  | LCall f => f = Answered ∧ (∀ c, c ∈ tx_commit_log (sw_logs w) → ct_commit_micros c < sw_now w') ∧
      commit_tx_log_seq_num (sw_logs w) < I64_MAX ∧ abort_seq_num (sw_logs w) < I64_MAX
  | LLocal => True
  end.

Definition any_step (w w' : session_world) : Prop := ∃ lab, session_step w lab w'.
Definition calm_step (w w' : session_world) : Prop := ∃ lab, session_step w lab w' ∧ calm w lab w'.

Definition fresh_session (c : ConnSession) (l : tx_logs) (now : Z) : session_world :=
  {| sw_conn := with_open_tx c None; sw_logs := l; sw_tasks := []; sw_begun := []; sw_forgotten := []; sw_now := now |}.

Definition task_tx (t : task) : option Z :=
  match t with TBegin _ => None | TBegun tx | TCommitting tx | TRollingBack tx => Some tx end.

(** The transactions the connection still refers to. *)
Definition held (w : session_world) : list Z := option_list (cs_open_tx_uuid (sw_conn w)) ++ omap task_tx (sw_tasks w).

(** ** The invariant *)

Record session_inv (c0 : ConnSession) (w : session_world) : Prop := {
  si_cell : cs_open_tx_cell (sw_conn w) = cs_open_tx_uuid (sw_conn w);
  si_pinned : cs_catalog_uuid (sw_conn w) = cs_catalog_uuid c0 ∧ cs_catalog_name (sw_conn w) = cs_catalog_name c0 ∧
              cs_branch_uuid (sw_conn w) = cs_branch_uuid c0 ∧ cs_branch_name (sw_conn w) = cs_branch_name c0;
  si_wf : tx_wf (sw_logs w);
  si_once : NoDup (held w);
  si_begun : ∀ tx, tx ∈ held w → tx ∈ sw_begun w;
  si_logged : ∀ tx, tx ∈ sw_begun w → is_Some (begin_tx_log (sw_logs w) !! tx);
  si_accounted : ∀ tx, tx ∈ sw_begun w → over (sw_logs w) (sw_now w) tx = true ∨ tx ∈ held w ∨ tx ∈ sw_forgotten w;
}.

(** The clock and the logs only move a transaction towards its end. *)
Lemma over_stable l l' now now' tx :
  tx_wf l' → rtc tx_step l l' → now ≤ now' → over l now tx = true → over l' now' tx = true.
Proof.
  intros Hwf Hs Hn Ho.
  assert (terminal (get_tx_status l now tx) ∨ ∃ t, get_tx_status l now tx = Some (Expired t)) as [Ht|[t Ht]].
  { unfold over in Ho. destruct (get_tx_status l now tx) as [[]|]; try done; [right; eauto|left|left]; done. }
  - unfold over. rewrite (terminal_stable l l' now now' tx Hwf Hs Ht). by destruct (get_tx_status l now tx) as [[]|].
  - destruct (tx_steps_grow _ _ Hs) as (_ & _ & _ & Hb). unfold get_tx_status in Ht. unfold over, get_tx_status.
    destruct (begin_tx_log l !! tx) as [b|] eqn:Eb; [|done]. rewrite (Hb _ _ Eb).
    destruct (find_abort l tx); [done|]. destruct (find_commit l tx); [done|].
    destruct (Z.ltb_spec (expires_at_micros b) now); [|done].
    destruct (find_abort l' tx); [done|]. destruct (find_commit l' tx); [done|].
    by destruct (Z.ltb_spec (expires_at_micros b) now'); [|lia].
Qed.

Lemma call_steps {A} f (op : tx_logs → result ApiError (tx_logs * A)) l l' r :
  (∀ l1 a, op l = Ok (l1, a) → tx_step l l1) → call f op l = (l', r) → rtc tx_step l l'.
Proof.
  intros Hop. unfold call. destruct (op l) as [[l1 a]|e] eqn:E; destruct f; intros [= <- <-]; try reflexivity; by eapply rtc_once, Hop.
Qed.

Lemma rtc_wf l l' : tx_wf l → rtc tx_step l l' → tx_wf l'.
Proof. intros Hw Hs. induction Hs; eauto using tx_wf_step. Qed.

Lemma forget_accounts l now tx fs x : over l now x = true ∨ x ∈ fs → over l now x = true ∨ x ∈ forget_unless_over l now tx fs.
Proof. unfold forget_unless_over. destruct (over l now tx); [done|]. rewrite elem_of_cons. naive_solver. Qed.

Lemma forget_self l now tx fs : over l now tx = true ∨ tx ∈ forget_unless_over l now tx fs.
Proof. unfold forget_unless_over. destruct (over l now tx); [by left|]. rewrite elem_of_cons. auto. Qed.

Lemma omap_middle (ts ts' : list task) t : omap task_tx (ts ++ t :: ts') ≡ₚ option_list (task_tx t) ++ omap task_tx (ts ++ ts').
Proof.
  rewrite !omap_app. cbn [omap list_omap]. destruct (task_tx t) as [tx|]; simpl; [|done]. by rewrite <- Permutation_middle.
Qed.

(** What a step must show: the connection's references are accounted for. *)
Lemma inv_intro c0 w w' gone :
  session_inv c0 w →
  cs_open_tx_cell (sw_conn w') = cs_open_tx_uuid (sw_conn w') →
  cs_catalog_uuid (sw_conn w') = cs_catalog_uuid (sw_conn w) ∧ cs_catalog_name (sw_conn w') = cs_catalog_name (sw_conn w) ∧
  cs_branch_uuid (sw_conn w') = cs_branch_uuid (sw_conn w) ∧ cs_branch_name (sw_conn w') = cs_branch_name (sw_conn w) →
  rtc tx_step (sw_logs w) (sw_logs w') → sw_now w ≤ sw_now w' → sw_begun w' = sw_begun w →
  held w ≡ₚ gone ++ held w' → (∀ tx, tx ∈ sw_forgotten w → tx ∈ sw_forgotten w') →
  (∀ tx, tx ∈ gone → over (sw_logs w') (sw_now w') tx = true ∨ tx ∈ sw_forgotten w') →
  session_inv c0 w'.
Proof.
  intros [Hcell (P1 & P2 & P3 & P4) Hwf Honce Hbegun Hlog Hacc] Hcell' (Q1 & Q2 & Q3 & Q4) Hs Hn Hb Hheld Hf Hgone.
  assert (tx_wf (sw_logs w')) as Hwf' by (by eapply rtc_wf).
  assert (∀ tx, tx ∈ held w ↔ tx ∈ gone ∨ tx ∈ held w') as Hin by (intros tx; by rewrite Hheld, elem_of_app).
  split; [done|by rewrite Q1, Q2, Q3, Q4|done|..]; rewrite ?Hb.
  - rewrite Hheld, NoDup_app in Honce. naive_solver.
  - intros tx Htx. apply Hbegun, Hin. by right.
  - intros tx Htx. destruct (Hlog tx Htx) as [b Hbx]. destruct (tx_steps_grow _ _ Hs) as (_ & _ & _ & Hgrow). rewrite (Hgrow _ _ Hbx). eauto.
  - intros tx Htx. destruct (Hacc tx Htx) as [Ho|[Hh|Hfo]].
    + left. by eapply over_stable.
    + apply Hin in Hh as [Hg|Hh]; [destruct (Hgone tx Hg); auto|auto].
    + auto.
Qed.

Lemma begin_fresh_ok l now tx timeout :
  fresh_tx l tx → ∃ l' out, begin_tx l now tx timeout = Ok (l', out) ∧ begin_tx_log l' !! tx = Some
    {| began_at_micros := now; began_at_seq_num := commit_tx_log_seq_num l; expires_at_micros := now + timeout * 1000000 |}.
Proof. intros (Hb & _). unfold begin_tx. rewrite Hb. do 2 eexists. split; [done|]. simpl. by rewrite lookup_insert_eq. Qed.

(** A transaction is begun for the connection. *)
Lemma inv_begun c0 w w' tx held' forgotten' :
  session_inv c0 w → sw_conn w' = sw_conn w → rtc tx_step (sw_logs w) (sw_logs w') → sw_now w ≤ sw_now w' →
  fresh_tx (sw_logs w) tx → is_Some (begin_tx_log (sw_logs w') !! tx) →
  sw_begun w' = tx :: sw_begun w → held w' ≡ₚ held' ++ held w → sw_forgotten w' = forgotten' ++ sw_forgotten w →
  (held' = [tx] ∧ forgotten' = [] ∨ held' = [] ∧ forgotten' = [tx]) →
  session_inv c0 w'.
Proof.
  intros [Hcell Hpin Hwf Honce Hbegun Hlog Hacc] Hc Hs Hn (Hfr & _) Hbl Hb Hheld Hfo Hcase.
  assert (tx_wf (sw_logs w')) as Hwf' by (by eapply rtc_wf).
  assert (tx ∉ held w) as Hnh. { intros Hx%Hbegun%Hlog. rewrite Hfr in Hx. by destruct Hx. }
  destruct (tx_steps_grow _ _ Hs) as (_ & _ & _ & Hgrow).
  assert (∀ x, x ∈ held w' ↔ x ∈ held' ∨ x ∈ held w) as Hin by (intros x; by rewrite Hheld, elem_of_app).
  split; rewrite ?Hc, ?Hb; try done.
  - rewrite Hheld. destruct Hcase as [[-> _]|[-> _]]; [|done]. by constructor.
  - intros x Hx. apply elem_of_cons. apply Hin in Hx as [Hx|Hx]; [|right; auto].
    destruct Hcase as [[-> _]|[-> _]]; [left; by apply list_elem_of_singleton|by apply elem_of_nil in Hx].
  - intros x [->|Hx]%elem_of_cons; [done|]. destruct (Hlog x Hx) as [b Hbx]. rewrite (Hgrow _ _ Hbx). eauto.
  - intros x [->|Hx]%elem_of_cons.
    + right. rewrite Hin, Hfo, elem_of_app. destruct Hcase as [[-> _]|[_ ->]]; rewrite list_elem_of_singleton; auto.
    + rewrite Hin, Hfo, elem_of_app. destruct (Hacc x Hx) as [Ho|[Hh|Hf]]; [|auto..]. left. by eapply over_stable.
Qed.

Lemma options_keep (c : ConnSession) entries :
  let c' := (handle_set_session_options (snapshot c) c entries).1 in
  cs_open_tx_uuid c' = cs_open_tx_uuid c ∧ cs_open_tx_cell c' = cs_open_tx_cell c ∧
  cs_catalog_uuid c' = cs_catalog_uuid c ∧ cs_catalog_name c' = cs_catalog_name c ∧
  cs_branch_uuid c' = cs_branch_uuid c ∧ cs_branch_name c' = cs_branch_name c.
Proof.
  unfold handle_set_session_options. destruct (plan_entries _ entries) as [[plans errors]|e]; simpl; [|by split_and!].
  revert c. induction plans as [|p plans IH]; intros c; simpl; [by split_and!|].
  destruct (IH (apply_plan c p)) as (-> & -> & -> & -> & -> & ->). by destruct p.
Qed.

Lemma held_perm w w' :
  cs_open_tx_uuid (sw_conn w') = cs_open_tx_uuid (sw_conn w) → sw_tasks w' = sw_tasks w → held w' = held w.
Proof. intros Hc Ht. unfold held. by rewrite Hc, Ht. Qed.

(** A request with [tx] in flight is over. *)
Lemma inv_dropped c0 w w' tx ts t ts' :
  session_inv c0 w → sw_conn w' = sw_conn w → rtc tx_step (sw_logs w) (sw_logs w') → sw_now w ≤ sw_now w' → sw_begun w' = sw_begun w →
  sw_tasks w = ts ++ t :: ts' → sw_tasks w' = ts ++ ts' → task_tx t = Some tx →
  sw_forgotten w' = forget_unless_over (sw_logs w') (sw_now w') tx (sw_forgotten w) →
  session_inv c0 w'.
Proof.
  intros Hi Hc Hs Hn Hb Ht Ht' Htx Hf. apply (inv_intro c0 w w' [tx]); try done.
  - rewrite Hc. apply (si_cell _ _ Hi).
  - by rewrite Hc.
  - unfold held. rewrite Hc, Ht, Ht', omap_middle, Htx. simpl. by rewrite <- Permutation_middle.
  - intros x Hx. rewrite Hf. unfold forget_unless_over. destruct (over _ _ tx); [done|by right].
  - intros x ->%list_elem_of_singleton. rewrite Hf. apply forget_self.
Qed.

Lemma inv_session_step c0 w lab w' : session_inv c0 w → session_step w lab w' → session_inv c0 w'.
Proof.
  intros Hi Hstep. destruct Hstep as [c l ts bs fs now|c l ts ts' s e bs fs now Hck|c l l' r ts ts' s f tx timeout bs fs now now' Hck Hn Hclk Hfr Hto Hcall
    |c l ts ts' tx bs fs now|c c' l ts cat tx commit bs fs now Htake|c l l' r ts ts' tx f bs fs now now' Hn Hclk Hcall
    |c l l' r ts ts' tx f bs fs now now' Hn Hclk Hcall|c l ts entries bs fs now|c l ts schema bs fs now|c l l' ts bs fs now now' Hn Hstep].
  - apply (inv_intro c0 _ _ [] Hi); try done; [apply (si_cell _ _ Hi)|by intros tx ?%elem_of_nil].
  - apply (inv_intro c0 _ _ [] Hi); try done; [apply (si_cell _ _ Hi)| |by intros tx ?%elem_of_nil].
    unfold held. simpl. by rewrite omap_middle.
  - destruct (begin_fresh_ok l now' tx timeout Hfr) as (l1 & out & Hb & Hbl). unfold call in Hcall. rewrite Hb in Hcall.
    assert (tx_step l l1) as Hst by (exact (StepBegin _ _ _ _ _ _ Hclk Hb)).
    destruct f; injection Hcall as <- <-.
    + eapply (inv_begun c0 _ _ tx [tx] []); [exact Hi|done|by apply rtc_once|done|done|(eexists; exact Hbl)|done| |done|by left].
      unfold held. simpl. rewrite !omap_middle. simpl. by rewrite <- Permutation_middle.
    + eapply (inv_begun c0 _ _ tx [] [tx]); [exact Hi|done|by apply rtc_once|done|done|(eexists; exact Hbl)|done| |done|by right].
      unfold held. simpl. by rewrite omap_middle.
    + apply (inv_intro c0 _ _ [] Hi); try done; [apply (si_cell _ _ Hi)| |by intros x ?%elem_of_nil].
      unfold held. simpl. by rewrite omap_middle.
  - unfold set_open_tx. destruct (cs_open_tx_uuid c) as [tx0|] eqn:Eo.
    + eapply (inv_dropped c0 _ _ tx ts (TBegun tx) ts'); [exact Hi|done..].
    + apply (inv_intro c0 _ _ [] Hi); try done; [|by intros x ?%elem_of_nil].
      unfold held. simpl. rewrite Eo, omap_middle. done.
  - unfold take_open_tx in Htake. destruct (cs_open_tx_uuid c) as [tx0|] eqn:Eo; [|done]. injection Htake as <- <- <-.
    apply (inv_intro c0 _ _ [] Hi); try done; [|by intros x ?%elem_of_nil]. unfold held. simpl. rewrite Eo. by destruct commit.
  - eapply (inv_dropped c0 _ _ tx ts (TCommitting tx) ts'); [exact Hi|done| |done..]. eapply call_steps; [|exact Hcall].
    intros l1 a Ha. exact (StepCommit _ _ _ _ _ Hclk Ha).
  - eapply (inv_dropped c0 _ _ tx ts (TRollingBack tx) ts'); [exact Hi|done| |done..]. eapply call_steps; [|exact Hcall].
    intros l1 a Ha. exact (StepAbort _ _ _ _ _ Hclk Ha).
  - destruct (options_keep c entries) as (Ho & Hcell & P1 & P2 & P3 & P4).
    apply (inv_intro c0 _ _ [] Hi); cbn [sw_conn sw_logs sw_now sw_begun sw_forgotten]; try done; [| |by intros x ?%elem_of_nil].
    + rewrite Ho, Hcell. apply (si_cell _ _ Hi).
    + unfold held. cbn [sw_conn sw_tasks]. by rewrite Ho.
  - apply (inv_intro c0 _ _ [] Hi); try done; [apply (si_cell _ _ Hi)|by intros tx ?%elem_of_nil].
  - apply (inv_intro c0 _ _ [] Hi); try done; [apply (si_cell _ _ Hi)|by apply rtc_once|by intros tx ?%elem_of_nil].
Qed.

Lemma inv_fresh c l now : tx_wf l → session_inv c (fresh_session c l now).
Proof. intros Hwf. split; try done; simpl; [constructor|by intros tx ?%elem_of_nil..]. Qed.

Lemma inv_session c l now w : tx_wf l → rtc any_step (fresh_session c l now) w → session_inv c w.
Proof.
  intros Hwf Hr. remember (fresh_session c l now) as w0. assert (session_inv c w0) as Hi by (subst; by apply inv_fresh). clear Heqw0.
  induction Hr as [|w0 w1 w2 [lab Hs] _ IH]; [done|]. apply IH. by eapply inv_session_step.
Qed.

(** ** A calm client *)

Lemma find_abort_snoc l tx a k : find_abort l tx = None → at_tx_uuid a = tx →
  find_abort {| begin_tx_log := begin_tx_log l; tx_commit_log := tx_commit_log l; abort_tx_log := abort_tx_log l ++ [a];
                commit_tx_log_seq_num := commit_tx_log_seq_num l; abort_seq_num := k |} tx = Some a.
Proof.
  unfold find_abort. simpl. intros Hn Ha. rewrite filter_app. rewrite head_filter_None in Hn.
  assert (filter (λ a0, at_tx_uuid a0 = tx) (abort_tx_log l) = []) as ->.
  { destruct (filter _ (abort_tx_log l)) as [|x xs] eqn:Ef; [done|]. exfalso.
    assert (x ∈ filter (λ a0, at_tx_uuid a0 = tx) (abort_tx_log l)) as [Hx Hin]%list_elem_of_filter by (rewrite Ef; left). by apply (Hn x). }
  rewrite filter_cons_True by done. done.
Qed.

(** An answered abort of a known transaction ends it. *)
Lemma abort_ends l now tx : is_Some (begin_tx_log l !! tx) → abort_seq_num l < I64_MAX →
  over (call Answered (λ l, abort_tx l now tx) l).1 now tx = true.
Proof.
  intros [b Hb] Hc. unfold call, abort_tx. destruct (get_tx_status l now tx) as [st|] eqn:Es; [|by unfold get_tx_status in Es; rewrite Hb in Es].
  assert (over l now tx = match st with Open _ _ => false | _ => true end) as Ho by (unfold over; by rewrite Es; destruct st).
  destruct st; simpl; try done. unfold hot_abort_tx. rewrite Hb. destruct (Z.leb_spec I64_MAX (abort_seq_num l)); [lia|].
  assert (find_abort l tx = None) as Hfa.
  { unfold get_tx_status in Es. rewrite Hb in Es. by destruct (find_abort l tx). }
  case_decide as Hex.
  { exfalso. apply Exists_exists in Hex as (a & Ha & Heq). unfold find_abort in Hfa. rewrite head_filter_None in Hfa. by apply (Hfa a). }
  simpl. unfold over, get_tx_status. simpl. rewrite Hb. rewrite find_abort_snoc by done. done.
Qed.

(** An answered commit, once the clock has moved on, ends it too. *)
Lemma commit_ends l now tx : tx_wf l → is_Some (begin_tx_log l !! tx) → (∀ c, c ∈ tx_commit_log l → ct_commit_micros c < now) →
  commit_tx_log_seq_num l < I64_MAX → over (call Answered (λ l, commit_tx l now tx) l).1 now tx = true.
Proof.
  intros Hwf [b Hb] Hmic Hc. unfold call, commit_tx.
  destruct (get_tx_status l now tx) as [st|] eqn:Es; [|by unfold get_tx_status in Es; rewrite Hb in Es].
  assert (over l now tx = match st with Open _ _ => false | _ => true end) as Ho by (unfold over; by rewrite Es; destruct st).
  destruct st; simpl; try done. unfold commit_open_tx. rewrite Hb. unfold commit_tx_log_insert.
  destruct (Z.leb_spec I64_MAX (commit_tx_log_seq_num l)); [lia|].
  assert (find_abort l tx = None ∧ find_commit l tx = None) as [Hfa Hfc].
  { unfold get_tx_status in Es. rewrite Hb in Es. destruct (find_abort l tx); [done|]. by destruct (find_commit l tx). }
  rewrite decide_False.
  - simpl. unfold over, get_tx_status. simpl. rewrite Hb. unfold find_abort in *. simpl. rewrite Hfa.
    unfold find_commit in *. simpl. rewrite filter_app. rewrite head_filter_None in Hfc.
    destruct (filter _ (tx_commit_log l)) as [|x xs] eqn:Ef; [by rewrite filter_cons_True|]. exfalso.
    assert (x ∈ filter (λ c, ct_tx_uuid c = tx) (tx_commit_log l)) as [Hx Hin]%list_elem_of_filter by (rewrite Ef; left). by apply (Hfc x).
  - intros Hex. apply Exists_exists in Hex as (c & Hin & [Heq|[Heq|Heq]]); simpl in Heq.
    + unfold find_commit in Hfc. rewrite head_filter_None in Hfc. by apply (Hfc c).
    + specialize (Hmic c Hin). lia.
    + destruct (wf_commits_range _ Hwf c Hin). lia.
Qed.

Definition calm_inv (w : session_world) : Prop :=
  sw_forgotten w = [] ∧
  (sw_tasks w = [] ∨ ∃ t, sw_tasks w = [t] ∧
    match t with
    | TBegin s => ss_open_tx_uuid s = cs_open_tx_uuid (sw_conn w)
    | TBegun _ => cs_open_tx_uuid (sw_conn w) = None
    | _ => True
    end).

Lemma one_task (ts ts' : list task) t t' : ts ++ t :: ts' = [t'] → t = t' ∧ ts ++ ts' = [].
Proof. destruct ts as [|x [|y ts]]; simpl; intros Heq; simplify_eq; done. Qed.

Lemma one_of (ts ts' : list task) t (P : task → Prop) :
  ts ++ t :: ts' = [] ∨ (∃ t', ts ++ t :: ts' = [t'] ∧ P t') → P t ∧ ts ++ ts' = [].
Proof.
  intros [Hnil|(t' & Heq & Hp)]; [by destruct ts|]. by apply one_task in Heq as [-> ->].
Qed.

Lemma no_tasks_around (ts ts' : list task) t : ts ++ ts' = [] → ts ++ t :: ts' = [t].
Proof. by intros [-> ->]%app_nil. Qed.

Lemma calm_inv_step c0 w w' : session_inv c0 w → calm_inv w → calm_step w w' → calm_inv w'.
Proof.
  intros Hi [Hf Ht] (lab & Hstep & Hcalm). unfold calm_inv.
  destruct Hstep as [c l ts bs fs now|c l ts ts' s e bs fs now Hck|c l l' r ts ts' s f tx timeout bs fs now now' Hck Hn Hclk Hfr Hto Hcall
    |c l ts ts' tx bs fs now|c c' l ts cat tx commit bs fs now Htake|c l l' r ts ts' tx f bs fs now now' Hn Hclk Hcall
    |c l l' r ts ts' tx f bs fs now now' Hn Hclk Hcall|c l ts entries bs fs now|c l ts schema bs fs now|c l l' ts bs fs now now' Hn Hstep];
    cbn [sw_conn sw_logs sw_tasks sw_begun sw_forgotten sw_now] in *; subst fs.
  - cbn in Hcalm. subst ts. split; [done|right]. by eexists.
  - apply one_of in Ht as [_ ->]. auto.
  - destruct Hcalm as (-> & _ & _). apply one_of in Ht as [Hs Hnil]. split; [done|].
    destruct (begin_fresh_ok l now' tx timeout Hfr) as (l1 & out & Hb & _). unfold call in Hcall. rewrite Hb in Hcall.
    injection Hcall as <- <-. right. exists (TBegun tx). split; [by apply no_tasks_around|]. unfold begin_check in Hck. rewrite <- Hs. by destruct (ss_open_tx_uuid s).
  - apply one_of in Ht as [Hs Hnil]. unfold set_open_tx. rewrite Hs. auto.
  - cbn in Hcalm. subst ts. split; [done|right]. eexists. split; [done|]. by destruct commit.
  - destruct Hcalm as (-> & Hmic & Hcnt & _). apply one_of in Ht as [_ Hnil]. rewrite Hnil. split; [|by left].
    unfold forget_unless_over. pose proof (commit_ends l now' tx (si_wf _ _ Hi)) as He. rewrite Hcall in He. simpl in He.
    rewrite He; try done. apply (si_logged _ _ Hi). apply (si_begun _ _ Hi). unfold held. cbn [sw_tasks sw_conn]. rewrite omap_middle.
    rewrite !elem_of_app. right. left. by apply list_elem_of_singleton.
  - destruct Hcalm as (-> & _ & _ & Hcnt). apply one_of in Ht as [_ Hnil]. rewrite Hnil. split; [|by left].
    unfold forget_unless_over. pose proof (abort_ends l now' tx) as He. rewrite Hcall in He. simpl in He.
    rewrite He; try done. apply (si_logged _ _ Hi). apply (si_begun _ _ Hi). unfold held. cbn [sw_tasks sw_conn]. rewrite omap_middle.
    rewrite !elem_of_app. right. left. by apply list_elem_of_singleton.
  - cbn in Hcalm. subst ts. auto.
  - cbn in Hcalm. subst ts. auto.
  - auto.
Qed.

Lemma calm_any w w' : calm_step w w' → any_step w w'.
Proof. intros (lab & Hs & _). by exists lab. Qed.

(** C28 No transaction has two owners.  However the streams of a connection
    interleave and whichever of their calls are lost, the cell the planner reads
    agrees with the locked field, the catalog and the branch are the ones of the
    handshake, every transaction the connection refers to was begun for it and is
    referred to once, as the open transaction or by one request, and every
    transaction begun for it has ended, is referred to, or is recorded as
    forgotten. *)
Theorem session_owns_once (c : ConnSession) (l : tx_logs) (now : Z) (w : session_world) :
  tx_wf l → rtc any_step (fresh_session c l now) w → session_inv c w.
Proof. apply inv_session. Qed.

(** C29 A calm session leaves nothing open.  When the client waits for each answer,
    every call is answered and the clock moves between commits, a session forgets
    no transaction: when its connection closes, every transaction it began is
    committed, aborted or expired. *)
Theorem session_closes_clean (c : ConnSession) (l : tx_logs) (now now' : Z) (w : session_world) :
  tx_wf l → rtc calm_step (fresh_session c l now) w → sw_tasks w = [] →
  sw_now w ≤ now' → clock_ok (sw_logs w) now' → abort_seq_num (sw_logs w) < I64_MAX →
  Forall (λ tx, over (drop_session (sw_conn w) Answered (sw_logs w) now') now' tx = true) (sw_begun w).
Proof.
  intros Hwf Hr Hnil Hn Hclk Hcnt.
  assert (session_inv c w ∧ calm_inv w) as [Hi [Hf _]].
  { remember (fresh_session c l now) as w0. assert (session_inv c w0 ∧ calm_inv w0) as Hw.
    { subst. split; [by apply inv_fresh|]. split; [done|by left]. }
    clear Heqw0 Hnil Hn Hclk Hcnt. induction Hr as [|w0 w1 w2 Hs _ IH]; [done|]. apply IH. destruct Hw as [Hi Hc].
    destruct (calm_any _ _ Hs) as [lab Hs']. split; [by eapply inv_session_step|by eapply calm_inv_step]. }
  apply Forall_forall. intros tx Htx.
  assert (rtc tx_step (sw_logs w) (drop_session (sw_conn w) Answered (sw_logs w) now')) as Hsteps.
  { unfold drop_session. destruct (cs_open_tx_uuid (sw_conn w)) as [x|]; [|done].
    eapply call_steps; [|apply surjective_pairing]. intros l1 a Ha. exact (StepAbort _ _ _ _ _ Hclk Ha). }
  destruct (si_accounted _ _ Hi tx Htx) as [Ho|[Hh|Hx]].
  - eapply over_stable; [|exact Hsteps|exact Hn|exact Ho]. eapply rtc_wf; [apply (si_wf _ _ Hi)|exact Hsteps].
  - unfold held in Hh. rewrite Hnil, app_nil_r in Hh. unfold drop_session.
    destruct (cs_open_tx_uuid (sw_conn w)) as [x|]; [|by apply elem_of_nil in Hh]. apply list_elem_of_singleton in Hh as <-.
    apply abort_ends; [by apply (si_logged _ _ Hi)|done].
  - rewrite Hf in Hx. by apply elem_of_nil in Hx.
Qed.

(** ** Session options *)

(** The schema names the entries write. *)
Definition written (s : SessionSnapshot) (entries : list (string * option string)) : list string :=
  omap (λ e : string * option string,
    match e.2 with
    | Some v => match plan_set_option s SurfaceWire e.1 v with Ok (WriteSchema x) => Some x | _ => None end
    | None => None
    end) entries.

Definition rejects (s : SessionSnapshot) (e : string * option string) : Prop :=
  ∃ v, e.2 = Some v ∧ plan_set_option s SurfaceWire e.1 v = Err Rejected.

Definition entry_error (s : SessionSnapshot) (e : string * option string) : option (string * ErrorValue) :=
  match e.2 with
  | None => Some (e.1, EvInvalidValue)
  | Some v => match plan_set_option s SurfaceWire e.1 v with Err InvalidName => Some (e.1, EvInvalidName) | _ => None end
  end.

Definition schema_writes (plans : list SetOptionPlan) : list string :=
  omap (λ p, match p with WriteSchema x => Some x | NoOp => None end) plans.

Lemma plan_entries_spec s entries :
  match plan_entries s entries with
  | Err e => e = StFailedPrecondition ∧ Exists (rejects s) entries
  | Ok (plans, errors) => Forall (λ e, ¬ rejects s e) entries ∧ schema_writes plans = written s entries ∧ errors = omap (entry_error s) entries
  end.
Proof.
  induction entries as [|[key [v|]] entries IH]; cbn [plan_entries]; [done|..].
  - destruct (plan_set_option s SurfaceWire key v) as [p|[]] eqn:Ep.
    + destruct (plan_entries s entries) as [[plans errors]|e]; simpl; [|destruct IH; split; [done|by right]].
      destruct IH as (Hr & Hw & He). split_and!.
      * constructor; [|done]. intros (x & [= <-] & Hx). simpl in Hx. congruence.
      * unfold written, schema_writes in *. cbn [omap list_omap fst snd]. rewrite Ep. destruct p; simpl; by rewrite Hw.
      * unfold entry_error at 1. cbn [omap list_omap fst snd]. by rewrite Ep.
    + destruct (plan_entries s entries) as [[plans errors]|e]; simpl; [|destruct IH; split; [done|by right]].
      destruct IH as (Hr & Hw & He). split_and!.
      * constructor; [|done]. intros (x & [= <-] & Hx). simpl in Hx. congruence.
      * unfold written in *. cbn [omap list_omap fst snd]. by rewrite Ep.
      * unfold entry_error at 1. cbn [omap list_omap fst snd]. rewrite Ep. simpl. by rewrite He.
    + split; [done|]. left. by exists v.
  - destruct (plan_entries s entries) as [[plans errors]|e]; simpl; [|destruct IH; split; [done|by right]].
    destruct IH as (Hr & Hw & He). split_and!.
    + constructor; [|done]. by intros (x & Hx & _).
    + unfold written in *. by cbn [omap list_omap fst snd].
    + by rewrite He.
Qed.

Lemma apply_plans c plans :
  foldl apply_plan c plans = match last (schema_writes plans) with Some x => write_default_schema c x | None => c end.
Proof.
  induction plans as [|p plans IH] using rev_ind; [done|]. rewrite foldl_app. unfold schema_writes in *. rewrite omap_app. simpl.
  destruct p as [|x]; simpl.
  - by rewrite app_nil_r.
  - rewrite last_snoc, IH. by destruct (last _).
Qed.

Lemma last_perm_const {A} (l l' : list A) : l ≡ₚ l' → (∀ x y, x ∈ l → y ∈ l → x = y) → last l = last l'.
Proof.
  intros Hp Hc. destruct (last l) as [x|] eqn:E.
  - apply last_Some in E as [k ->]. destruct (last l') as [y|] eqn:E'.
    + apply last_Some in E' as [k' ->]. f_equal. apply Hc; [apply elem_of_app; right; by left|].
      rewrite Hp. apply elem_of_app. right. by left.
    + apply last_None in E' as ->. symmetry in Hp. by apply Permutation_nil, app_nil in Hp as [_ ?].
  - apply last_None in E as ->. by apply Permutation_nil in Hp as ->.
Qed.

(** Setting several session options is all or nothing and does not depend on
    the order of the request's map.  Any order of the entries gives the same
    outcome: a request with a rejected key changes nothing, any other reports the
    same per-key errors and, if its schema keys agree on one value, leaves the
    same session. *)
Theorem set_options_unordered (c : ConnSession) (s : SessionSnapshot) (entries entries' : list (string * option string)) :
  entries ≡ₚ entries' →
  let '(c1, r1) := handle_set_session_options s c entries in
  let '(c2, r2) := handle_set_session_options s c entries' in
  match r1 with
  | Err e => Exists (rejects s) entries ∧ r2 = Err e ∧ c1 = c ∧ c2 = c
  | Ok errors => Forall (λ e, ¬ rejects s e) entries ∧ (∃ errors', r2 = Ok errors' ∧ errors ≡ₚ errors') ∧
      ((∀ x y, x ∈ written s entries → y ∈ written s entries → x = y) → c1 = c2)
  end.
Proof.
  intros Hp. unfold handle_set_session_options. pose proof (plan_entries_spec s entries) as H1. pose proof (plan_entries_spec s entries') as H2.
  destruct (plan_entries s entries) as [[plans errors]|e].
  - destruct H1 as (Hr & Hw & He). destruct (plan_entries s entries') as [[plans' errors']|e'].
    + destruct H2 as (Hr' & Hw' & He'). split; [done|]. split; [exists errors'; split; [done|by rewrite He, He', Hp]|].
      intros Hc. rewrite !apply_plans, Hw, Hw'. rewrite (last_perm_const (written s entries) (written s entries')); [done| |done].
      unfold written. by rewrite Hp.
    + destruct H2 as [_ Hx]. exfalso. rewrite <- Hp in Hx. apply Exists_exists in Hx as (x & Hin & Hx). rewrite Forall_forall in Hr. by apply (Hr x).
  - destruct H1 as [-> Hx]. destruct (plan_entries s entries') as [[plans' errors']|e'].
    + destruct H2 as (Hr' & _ & _). exfalso. rewrite <- Hp in Hr'. apply Exists_exists in Hx as (x & Hin & Hx). rewrite Forall_forall in Hr'. by apply (Hr' x).
    + destruct H2 as [-> _]. done.
Qed.

Module SessionDemo.

Definition conn : ConnSession :=
  {| cs_catalog_uuid := 1; cs_catalog_name := "public"; cs_branch_uuid := 2; cs_branch_name := "main";
     cs_open_tx_uuid := None; cs_open_tx_cell := None; cs_default_schema := "public" |}.

Definition start : session_world := fresh_session conn empty_tx_logs 10.

(** Runs are built from the worlds between their steps. *)
Definition world (open : option Z) (l : tx_logs) (ts : list task) (bs fs : list Z) (now : Z) : session_world :=
  {| sw_conn := with_open_tx conn open; sw_logs := l; sw_tasks := ts; sw_begun := bs; sw_forgotten := fs; sw_now := now |}.

Definition ok_logs {A} (l : tx_logs) (r : result ApiError (tx_logs * A)) : tx_logs := match r with Ok (l', _) => l' | Err _ => l end.

Definition l1 : tx_logs := ok_logs empty_tx_logs (begin_tx empty_tx_logs 20 101 30).
Definition l2 : tx_logs := ok_logs l1 (begin_tx l1 21 102 30).
Definition l3 : tx_logs := ok_logs l1 (commit_tx l1 22 101).
Definition l4 : tx_logs := ok_logs l1 (auto_commit_tx l1 25 900).

Lemma clock_at (l : tx_logs) (now : Z) :
  bool_decide (0 < now < I64_MAX) && forallb (λ c, ct_commit_micros c <=? now) (tx_commit_log l) = true → clock_ok l now.
Proof.
  intros [Hn%bool_decide_eq_true_1 Hc]%andb_prop. split; [done|]. intros c Hin. rewrite forallb_forall in Hc.
  apply Z.leb_le, Hc. by apply list_elem_of_In.
Qed.

Lemma fresh_at (l : tx_logs) (tx : Z) :
  bool_decide (begin_tx_log l !! tx = None) && forallb (λ c, negb (ct_tx_uuid c =? tx)) (tx_commit_log l) &&
  forallb (λ a, negb (at_tx_uuid a =? tx)) (abort_tx_log l) = true → fresh_tx l tx.
Proof.
  intros [[Hb%bool_decide_eq_true_1 Hc]%andb_prop Ha]%andb_prop. rewrite forallb_forall in Hc, Ha. split_and!; [done|..].
  - intros c Hin. apply Z.eqb_neq, negb_true_iff, Hc. by apply list_elem_of_In.
  - intros a Hin. apply Z.eqb_neq, negb_true_iff, Ha. by apply list_elem_of_In.
Qed.

(** BEGIN, then COMMIT, each waited for. *)
Lemma calm_run : rtc calm_step start (world None l3 [] [101] [] 22).
Proof.
  eapply rtc_l; [exists LArrive; split; [apply (SArrive (with_open_tx conn None))|reflexivity]|].
  eapply rtc_l; [exists (LCall Answered); split;
    [apply (SBeginCall (with_open_tx conn None) empty_tx_logs l1 (Ok (20, 30000020)) [] [] (snapshot conn) Answered 101 30 [] [] 10 20);
     [reflexivity|lia|by apply clock_at|by apply fresh_at|lia|reflexivity]|]|].
  { split_and!; [done|by intros c ?%elem_of_nil|done|done]. }
  eapply rtc_l; [exists LLocal; split; [apply (SBeginSet (with_open_tx conn None) l1 [] [] 101)|done]|].
  eapply rtc_l; [exists LArrive; split;
    [apply (STake (with_open_tx conn (Some 101)) (with_open_tx conn None) l1 [] 1 101 true [101] [] 20 eq_refl)|reflexivity]|].
  eapply rtc_l; [exists (LCall Answered); split;
    [apply (SCommitCall (with_open_tx conn None) l1 l3 (Ok (CommitRow 101 22 0)) [] [] 101 Answered [101] [] 20 22);
     [lia|by apply clock_at|reflexivity]|]|].
  { split_and!; [done|by intros c ?%elem_of_nil|done|done]. }
  apply rtc_refl.
Qed.

Lemma session_closes_clean_witness :
  Forall (λ tx, over (drop_session (with_open_tx conn None) Answered l3 23) 23 tx = true) [101].
Proof.
  apply (session_closes_clean conn empty_tx_logs 10 23 (world None l3 [] [101] [] 22) tx_wf_empty calm_run);
    [reflexivity|simpl; lia|by apply clock_at|reflexivity].
Defined.

(** Two BEGINs that both took their snapshot before either was recorded. *)
Lemma racing_run : rtc any_step start (world (Some 101) l2 [] [102; 101] [102] 21).
Proof.
  eapply rtc_l; [exists LArrive; apply (SArrive (with_open_tx conn None))|].
  eapply rtc_l; [exists LArrive; apply (SArrive (with_open_tx conn None))|].
  eapply rtc_l; [exists (LCall Answered);
    apply (SBeginCall (with_open_tx conn None) empty_tx_logs l1 (Ok (20, 30000020)) [] [TBegin (snapshot conn)] (snapshot conn) Answered 101 30 [] [] 10 20);
    [reflexivity|lia|by apply clock_at|by apply fresh_at|lia|reflexivity]|].
  eapply rtc_l; [exists (LCall Answered);
    apply (SBeginCall (with_open_tx conn None) l1 l2 (Ok (21, 30000021)) [TBegun 101] [] (snapshot conn) Answered 102 30 [101] [] 20 21);
    [reflexivity|lia|by apply clock_at|by apply fresh_at|lia|reflexivity]|].
  eapply rtc_l; [exists LLocal; apply (SBeginSet (with_open_tx conn None) l2 [] [TBegun 102] 101)|].
  eapply rtc_l; [exists LLocal; apply (SBeginSet (with_open_tx conn (Some 101)) l2 [] [] 102)|].
  apply rtc_refl.
Qed.

Lemma session_owns_once_witness : session_inv conn (world (Some 101) l2 [] [102; 101] [102] 21).
Proof. exact (session_owns_once conn empty_tx_logs 10 _ tx_wf_empty racing_run). Defined.

(** A COMMIT in the microsecond of another connection's commit. *)
Lemma colliding_run : rtc any_step start (world None l4 [] [101] [101] 25).
Proof.
  eapply rtc_l; [exists LArrive; apply (SArrive (with_open_tx conn None))|].
  eapply rtc_l; [exists (LCall Answered);
    apply (SBeginCall (with_open_tx conn None) empty_tx_logs l1 (Ok (20, 30000020)) [] [] (snapshot conn) Answered 101 30 [] [] 10 20);
    [reflexivity|lia|by apply clock_at|by apply fresh_at|lia|reflexivity]|].
  eapply rtc_l; [exists LLocal; apply (SBeginSet (with_open_tx conn None) l1 [] [] 101)|].
  eapply rtc_l; [exists LLocal; apply (SOther (with_open_tx conn (Some 101)) l1 l4 [] [101] [] 20 25); [lia|]|].
  { apply (StepAutoCommit l1 25 900 l4 (CommitRow 900 25 0)); [by apply clock_at|by apply fresh_at|reflexivity]. }
  eapply rtc_l; [exists LArrive;
    apply (STake (with_open_tx conn (Some 101)) (with_open_tx conn None) l4 [] 1 101 true [101] [] 25 eq_refl)|].
  eapply rtc_l; [exists (LCall Answered);
    apply (SCommitCall (with_open_tx conn None) l4 l4 (Err StInternal) [] [] 101 Answered [101] [] 25 25);
    [lia|by apply clock_at|reflexivity]|].
  apply rtc_refl.
Qed.

(** A session can lose an open transaction.  Two BEGINs on one connection that
    both take their snapshot first are both begun at the write service, and only
    one is recorded; and a COMMIT whose commit row is refused, because another
    commit has the same microsecond, has already given its transaction up, so
    that a following ROLLBACK is refused.  In both runs every call is answered,
    and the lost transaction stays open after the connection has closed. *)
Theorem session_loses_tx :
  (∃ w, rtc any_step start w ∧ sw_tasks w = [] ∧ cs_open_tx_uuid (sw_conn w) = Some 101 ∧
     get_tx_status (drop_session (sw_conn w) Answered (sw_logs w) 30) 30 101 = Some (Aborted 30 0) ∧
     get_tx_status (drop_session (sw_conn w) Answered (sw_logs w) 30) 30 102 = Some (Open 21 0)) ∧
  (∃ w, rtc any_step start w ∧ sw_tasks w = [] ∧ handle_rollback (sw_conn w) Answered (sw_logs w) 30 = ((sw_conn w, sw_logs w), Err StFailedPrecondition) ∧
     get_tx_status (drop_session (sw_conn w) Answered (sw_logs w) 30) 30 101 = Some (Open 20 0)).
Proof.
  split.
  - eexists. split; [exact racing_run|]. by vm_compute.
  - eexists. split; [exact colliding_run|]. by vm_compute.
Qed.

Lemma set_options_unordered_witness :
  (handle_set_session_options (snapshot conn) conn [("schema", Some "sales"); ("catalog", Some "other")]).1 = conn.
Proof.
  pose proof (set_options_unordered conn (snapshot conn) [("schema", Some "sales"); ("catalog", Some "other")]
    [("catalog", Some "other"); ("schema", Some "sales")] (Permutation_swap _ _ _)) as Hx.
  vm_compute in Hx. destruct Hx as (_ & _ & Hx & _). exact Hx.
Defined.

(** The schema keys of one request are aliases; when they differ the map's order
    decides. *)
Lemma aliases_race :
  cs_default_schema (handle_set_session_options (snapshot conn) conn [("schema", Some "a"); ("db_schema", Some "b")]).1 = "b" ∧
  cs_default_schema (handle_set_session_options (snapshot conn) conn [("db_schema", Some "b"); ("schema", Some "a")]).1 = "a".
Proof. by vm_compute. Qed.

End SessionDemo.
