(* ===== verification/TxLedger.v ===== *)
(** * The cold transaction ledger and its GC (penca-api/src/lifecycle/
      {persist_tx_log,purge_tx_log}.rs, penca-storage-meta/src/{tx_log,lifecycle}.rs)

    [persist_tx_log] flushes the commit map of a branch (sequence number, clock,
    author and comment of every commit) to cold segments in two phases;
    [purge_tx_log] then drops hot transaction rows no table needs any more.  The
    flush runs effect by effect, each of which may fault. *)

From S2P Require Import Prelude Watermarks ReadSnapshot Dialect MergeSql IndexSelect Effects TxLog.
From stdpp Require Import base numbers list option sets gmap sorting.

Open Scope Z_scope.
Open Scope result_scope.
Open Scope effect_scope.

(** ** Rows *)

(** One commit as the cold tier keeps it; [Note] is the pair of author and
    comment. *)
Record ledger_row (Note : Type) := LedgerRow {
  lg_seq : Z;
  lg_micros : Z;
  lg_note : Note;
}.
Arguments LedgerRow {Note}. Arguments lg_seq {Note}. Arguments lg_micros {Note}. Arguments lg_note {Note}.

(** [tx_log_persist_segment_metadata] *)
Record TxLogSegment := {
  tl_min_commit_seq_num : Z;
  tl_max_commit_seq_num : Z;
  tl_min_commit_micros : Z;
  tl_max_commit_micros : Z;
  tl_object_uri : Z;
  tl_row_count : nat;
  tl_committed_at_micros : option Z;
}.

Record ledger_store (Note : Type) := {
  lg_segments : gmap Z TxLogSegment;
  lg_files : gmap Z (list (ledger_row Note));
}.
Arguments lg_segments {Note}. Arguments lg_files {Note}.

(** The hash-derived name of a segment by its last commit, and of its file. *)
Class LedgerNaming := {
  tx_log_persist_segment_uuid : Z → Z;
  tx_log_persist_segment_uri : Z → Z;
}.

Class LedgerNamingLaws (N : LedgerNaming) : Prop := {
  segment_uuid_inj : ∀ a b, tx_log_persist_segment_uuid a = tx_log_persist_segment_uuid b → a = b;
  segment_uri_inj : ∀ a b, tx_log_persist_segment_uri a = tx_log_persist_segment_uri b → a = b;
}.

(** ** Statements *)

Section statements.
Context {Note : Type}.
Implicit Types (st : ledger_store Note).

Definition on_segments (f : gmap Z TxLogSegment → gmap Z TxLogSegment) st : ledger_store Note :=
  {| lg_segments := f (lg_segments st); lg_files := lg_files st |}.
Definition on_ledger_files (f : gmap Z (list (ledger_row Note)) → gmap Z (list (ledger_row Note))) st :
    ledger_store Note :=
  {| lg_segments := lg_segments st; lg_files := f (lg_files st) |}.

(** On a conflict everything but the stamp is replaced. *)
Definition insert_tx_log_persist_segment (u min_seq max_seq min_micros max_micros uri : Z) (row_count : nat) st :
    ledger_store Note :=
  on_segments (λ m,
    <[u := {| tl_min_commit_seq_num := min_seq; tl_max_commit_seq_num := max_seq; tl_min_commit_micros := min_micros;
              tl_max_commit_micros := max_micros; tl_object_uri := uri; tl_row_count := row_count;
              tl_committed_at_micros := m !! u ≫= tl_committed_at_micros |}]> m) st.

Definition stamp_ledger_segment (now : Z) (g : TxLogSegment) : TxLogSegment :=
  {| tl_min_commit_seq_num := tl_min_commit_seq_num g; tl_max_commit_seq_num := tl_max_commit_seq_num g;
     tl_min_commit_micros := tl_min_commit_micros g; tl_max_commit_micros := tl_max_commit_micros g;
     tl_object_uri := tl_object_uri g; tl_row_count := tl_row_count g; tl_committed_at_micros := Some now |}.

Definition commit_tx_log_persist_segment (now u : Z) st : ledger_store Note :=
  on_segments (alter (stamp_ledger_segment now) u) st.

Definition list_uncommitted_tx_log_segments st : list (Z * Z) :=
  (λ p : Z * TxLogSegment, (p.1, tl_object_uri p.2)) <$>
    map_to_list (filter (λ p : Z * TxLogSegment, tl_committed_at_micros p.2 = None) (lg_segments st)).

Definition delete_uncommitted_tx_log_persist_segment (u : Z) st : ledger_store Note :=
  on_segments (λ m, match m !! u ≫= tl_committed_at_micros with Some _ => m | None => delete u m end) st.

Definition committed_ledger st : gmap Z TxLogSegment :=
  filter (λ p : Z * TxLogSegment, is_Some (tl_committed_at_micros p.2)) (lg_segments st).

Definition tx_log_persist_watermark st : option Z :=
  zmax_list (tl_max_commit_seq_num <$> (snd <$> map_to_list (committed_ledger st))).

Definition ledger_order (x y : Z * TxLogSegment) : Prop := tl_min_commit_seq_num x.2 ≤ tl_min_commit_seq_num y.2.

#[export] Instance ledger_order_dec : RelDecision ledger_order.
Proof. intros x y. unfold ledger_order. apply _. Defined.

Definition read_committed_tx_log_segments st : list (Z * TxLogSegment) :=
  merge_sort ledger_order (map_to_list (committed_ledger st)).

(** The rows of one segment's file; [None] when the file is gone. *)
Definition read_ledger_segment st (g : TxLogSegment) : option (list (ledger_row Note)) := lg_files st !! tl_object_uri g.

End statements.

(** ** The flush *)

Section flush.
Context {Note : Type} (note_of : Z → Note) {N : LedgerNaming}.

Record ledger_world := { lw_store : ledger_store Note; lw_tick : nat }.

Context (faults : nat → fault) (now : Z).

Definition ledger_exec (f : ledger_store Note → ledger_store Note) : effect ledger_world unit := λ w,
  let w1 st := {| lw_store := st; lw_tick := S (lw_tick w) |} in
  match faults (lw_tick w) with
  | Runs => (w1 (f (lw_store w)), Returns tt)
  | Refused => (w1 (lw_store w), Raises ColdStorage)
  | Lost => (w1 (f (lw_store w)), Raises ColdStorage)
  | Dies => (w1 (lw_store w), Dead)
  end.

Definition ledger_fetch {A} (f : ledger_store Note → A) : effect ledger_world A := λ w,
  let w1 := {| lw_store := lw_store w; lw_tick := S (lw_tick w) |} in
  match faults (lw_tick w) with
  | Runs => (w1, Returns (f (lw_store w)))
  | Refused | Lost => (w1, Raises ColdStorage)
  | Dies => (w1, Dead)
  end.

(** [ORDER BY commit_seq_num] *)
Definition seq_order (x y : commit_row) : Prop := ct_commit_seq_num x ≤ ct_commit_seq_num y.

#[export] Instance seq_order_dec : RelDecision seq_order.
Proof. intros x y. unfold seq_order. apply _. Defined.

Definition commits_between (w target : Z) (clog : list commit_row) : list commit_row :=
  merge_sort seq_order (filter (λ c, w < ct_commit_seq_num c ∧ ct_commit_seq_num c ≤ target) clog).

Definition ledger_row_of (c : commit_row) : ledger_row Note :=
  LedgerRow (ct_commit_seq_num c) (ct_commit_micros c) (note_of (ct_tx_uuid c)).

(** Reclaim what a crashed run left: the file first, then its row. *)
Definition reclaim (p : Z * Z) : effect ledger_world unit :=
  gone ←! attempt (ledger_exec (on_ledger_files (delete p.2))) ;
  match gone with
  | Ok _ => attempt (ledger_exec (delete_uncommitted_tx_log_persist_segment p.1)) ;! returns tt
  | Err _ => returns tt
  end.

(** The segment of [rows]: phase 1, the file, phase 2. *)
Definition write_ledger_segment (rows : list commit_row) (min_seq max_seq min_micros max_micros : Z) :
    effect ledger_world unit :=
  let u := tx_log_persist_segment_uuid max_seq in
  let uri := tx_log_persist_segment_uri u in
  ledger_exec (insert_tx_log_persist_segment u min_seq max_seq min_micros max_micros uri (length rows)) ;!
  r ←! attempt (ledger_exec (on_ledger_files (insert uri (ledger_row_of <$> rows)))) ;
  match r with
  | Err e =>
      attempt (ledger_exec (on_ledger_files (delete uri))) ;!
      attempt (ledger_exec (delete_uncommitted_tx_log_persist_segment u)) ;!
      raises e
  | Ok _ => ledger_exec (commit_tx_log_persist_segment now u)
  end.

Definition persist_tx_log_locked (clog : list commit_row) (target : Z) : effect ledger_world unit :=
  uncommitted ←! ledger_fetch list_uncommitted_tx_log_segments ;
  for_each uncommitted reclaim ;!
  w_txlog ←! ledger_fetch (λ st, default (-1) (tx_log_persist_watermark st)) ;
  if target <=? w_txlog then returns tt
  else
    rows ←! ledger_fetch (λ _, commits_between w_txlog target clog) ;
    match head (ct_commit_seq_num <$> rows), last (ct_commit_seq_num <$> rows),
          zmin_list (ct_commit_micros <$> rows), zmax_list (ct_commit_micros <$> rows) with
    | Some min_seq, Some max_seq, Some min_micros, Some max_micros =>
        write_ledger_segment rows min_seq max_seq min_micros max_micros
    | _, _, _, _ => returns tt
    end.

(** The unlocked read of a watermark that already covers the target returns. *)
Definition persist_tx_log (clog : list commit_row) (target : Z) : effect ledger_world unit :=
  w_txlog ←! ledger_fetch (λ st, default (-1) (tx_log_persist_watermark st)) ;
  if target <=? w_txlog then returns tt else persist_tx_log_locked clog target.

End flush.

(** ** The GC of the hot transaction logs *)

(** [table_purge_metadata] of a branch. *)
Record purge_row := {
  pr_table : Z;
  pr_pu : option Z;
  pr_pa : option Z;
  pr_commit_micros : option Z;
}.

(** The branch: its transaction logs, [tx_table_log], its tables' purges, its
    cold ledger. *)
Record ledger_state (Note : Type) := {
  ls_tx : tx_logs;
  ls_tx_table : gset (Z * Z);
  ls_purges : list purge_row;
  ls_cold : ledger_store Note;
}.
Arguments ls_tx {Note}. Arguments ls_tx_table {Note}. Arguments ls_purges {Note}. Arguments ls_cold {Note}.

Definition purged_by (started : Z) (r : purge_row) : Prop :=
  match pr_commit_micros r with Some c => c ≤ started | None => False end.

#[export] Instance purged_by_dec started r : Decision (purged_by started r).
Proof. unfold purged_by. destruct (pr_commit_micros r); apply _. Defined.

(** The tables the settled transactions touched, with [MAX(Pu)] and [MAX(Pa)] of
    the purges committed by [started]. *)
Definition tx_table_log_purge_watermarks_for_branch (l : tx_logs) (tx_table : gset (Z * Z)) (purges : list purge_row)
    (started : Z) : list (Z * option Z * option Z) :=
  let settled := (ct_tx_uuid <$> filter (λ c, ct_commit_micros c ≤ started) (tx_commit_log l)) ++
                 (at_tx_uuid <$> filter (λ a, at_aborted_at_micros a ≤ started) (abort_tx_log l)) in
  let tables := remove_dups (snd <$> filter (λ p : Z * Z, p.1 ∈ settled) (elements tx_table)) in
  (λ t, let mine := filter (λ r, pr_table r = t ∧ purged_by started r) purges in
        (t, zmax_list (omap pr_pu mine), zmax_list (omap pr_pa mine))) <$> tables.

(** The four branches of [eligible]. *)
Definition eligible_txs (l : tx_logs) (tx_table : gset (Z * Z)) (pu pa : option Z) (started expiry_bound : Z) : list Z :=
  match pu with
  | Some pu => ct_tx_uuid <$> filter (λ c, ct_commit_seq_num c ≤ pu) (tx_commit_log l)
  | None => []
  end ++
  match pa with
  | Some pa => at_tx_uuid <$> filter (λ a, at_aborted_at_seq_num a < pa) (abort_tx_log l)
  | None => []
  end ++
  (at_tx_uuid <$> filter (λ a, at_aborted_at_micros a ≤ started ∧ ¬ Exists (λ p : Z * Z, p.1 = at_tx_uuid a) (elements tx_table))
     (abort_tx_log l)) ++
  (fst <$> filter (λ p : Z * begin_row, expires_at_micros p.2 < expiry_bound ∧
              ¬ Exists (λ c, ct_tx_uuid c = p.1) (tx_commit_log l) ∧ ¬ Exists (λ a, at_tx_uuid a = p.1) (abort_tx_log l))
     (map_to_list (begin_tx_log l))).

Definition delete_purge_tx_log_eligible (l : tx_logs) (tx_table : gset (Z * Z)) (pu pa : option Z) (started grace : Z) :
    tx_logs * gset (Z * Z) :=
  let eligible := eligible_txs l tx_table pu pa started (sat_sub started grace) in
  ({| begin_tx_log := filter (λ p : Z * begin_row, p.1 ∉ eligible) (begin_tx_log l);
      tx_commit_log := filter (λ c, ct_tx_uuid c ∉ eligible) (tx_commit_log l);
      abort_tx_log := filter (λ a, at_tx_uuid a ∉ eligible) (abort_tx_log l);
      commit_tx_log_seq_num := commit_tx_log_seq_num l; abort_seq_num := abort_seq_num l |},
   filter (λ p : Z * Z, p.1 ∉ eligible) tx_table).

(** The committed cutoff is held back to the ledger's watermark. *)
Definition committed_cutoff (pu w_txlog : option Z) : option Z :=
  match pu, w_txlog with
  | Some pu, Some w => Some (Z.min pu w)
  | pu, _ => pu
  end.

Definition purge_tx_log_locked {Note} (purge_sweep_interval_micros hot_purge_grace_micros : Z) (s : ledger_state Note)
    (cleanup_started_at_micros : Z) : ledger_state Note :=
  let rows := tx_table_log_purge_watermarks_for_branch (ls_tx s) (ls_tx_table s) (ls_purges s) cleanup_started_at_micros in
  let cutoffs := compute_purge_tx_log_cutoffs rows in
  let '(l, tt_) := delete_purge_tx_log_eligible (ls_tx s) (ls_tx_table s)
                     (committed_cutoff (pu_cutoff cutoffs) (tx_log_persist_watermark (ls_cold s))) (pa_cutoff cutoffs)
                     cleanup_started_at_micros (Z.max purge_sweep_interval_micros hot_purge_grace_micros) in
  {| ls_tx := l; ls_tx_table := tt_; ls_purges := ls_purges s; ls_cold := ls_cold s |}.

(** ** Steps of a branch *)

Section steps.
Context {Note : Type} (note_of : Z → Note) {N : LedgerNaming} (sweep_interval purge_grace : Z).

(** A state and every commit ever made on the branch. *)
Inductive ledger_step : ledger_state Note * list commit_row → ledger_state Note * list commit_row → Prop :=
  | LTx s ever l k :
      tx_step (ls_tx s) l → tx_commit_log l = tx_commit_log (ls_tx s) ++ k →
      ledger_step (s, ever)
        ({| ls_tx := l; ls_tx_table := ls_tx_table s; ls_purges := ls_purges s; ls_cold := ls_cold s |}, ever ++ k)
  | LTouch s ever tx table :
      ledger_step (s, ever)
        ({| ls_tx := ls_tx s; ls_tx_table := {[(tx, table)]} ∪ ls_tx_table s; ls_purges := ls_purges s; ls_cold := ls_cold s |}, ever)
  (** a flush, cut short anywhere *)
  | LFlush s ever faults now target :
      ledger_step (s, ever)
        ({| ls_tx := ls_tx s; ls_tx_table := ls_tx_table s; ls_purges := ls_purges s;
            ls_cold := lw_store (persist_tx_log note_of faults now (tx_commit_log (ls_tx s)) target
                                   {| lw_store := ls_cold s; lw_tick := 0 |}).1 |}, ever)
  (** a table purge; what it purged was persisted, so a flush ran before *)
  | LPurge s ever r :
      (is_Some (pr_pu r) → is_Some (tx_log_persist_watermark (ls_cold s))) →
      ledger_step (s, ever)
        ({| ls_tx := ls_tx s; ls_tx_table := ls_tx_table s; ls_purges := r :: ls_purges s; ls_cold := ls_cold s |}, ever)
  | LGc s ever now :
      ledger_step (s, ever) (purge_tx_log_locked sweep_interval purge_grace s now, ever).

Definition empty_ledger : ledger_state Note :=
  {| ls_tx := empty_tx_logs; ls_tx_table := ∅; ls_purges := []; ls_cold := {| lg_segments := ∅; lg_files := ∅ |} |}.

(** The commit map as a reader gets it: the segments in order, through their
    files. *)
Definition cold_ledger (st : ledger_store Note) : option (list (ledger_row Note)) :=
  @concat _ <$> mapM (λ p : Z * TxLogSegment, read_ledger_segment st p.2) (read_committed_tx_log_segments st).

End steps.
