(* ===== verification/TxLedgerInv.v ===== *)
(** * What a flush of the commit map preserves

    The rows of the committed segments are exactly the commits up to the
    ledger's watermark, whatever fault ends the flush. *)

From S2P Require Import Prelude Watermarks ReadSnapshot Dialect MergeSql IndexSelect Effects TxLog TxLedger.
From stdpp Require Import base numbers list option sets gmap sorting.

Open Scope Z_scope.
Open Scope effect_scope.

(** ** Triples

    [triple I P m Q]: from a store with [P], every outcome of [m] leaves [I], and
    a result [a] leaves [Q a]. *)

Section triples.
Context {Note : Type} (faults : nat → fault) (I : ledger_store Note → Prop).
Implicit Types (P : ledger_store Note → Prop).

Definition triple {A} P (m : effect ledger_world A) (Q : A → ledger_store Note → Prop) : Prop :=
  ∀ w, P (lw_store w) → I (lw_store (m w).1) ∧ ∀ a, (m w).2 = Returns a → Q a (lw_store (m w).1).

Lemma triple_returns {A} (a : A) P Q : (∀ st, P st → I st ∧ Q a st) → triple P (returns a) Q.
Proof. intros H w Hp. destruct (H _ Hp). split; [done|]. by intros b [= <-]. Qed.

Lemma triple_raises {A} e P (Q : A → _) : (∀ st, P st → I st) → triple P (raises e) Q.
Proof. intros H w Hp. split; [by apply H|done]. Qed.

Lemma triple_bind {A B} P (m : effect ledger_world A) R (k : A → effect ledger_world B) Q :
  triple P m R → (∀ a, triple (R a) (k a) Q) → triple P (bind m k) Q.
Proof.
  intros Hm Hk w Hp. destruct (Hm w Hp) as [Hi Hr]. unfold bind. destruct (m w) as [w' [a|e|]]; cbn in *; [|done..].
  apply Hk. by apply Hr.
Qed.

Lemma triple_attempt {A} P (m : effect ledger_world A) Q :
  triple P m (λ a, Q (Ok a)) → (∀ e st, I st → Q (Err e) st) → triple P (attempt m) Q.
Proof.
  intros Hm He w Hp. destruct (Hm w Hp) as [Hi Hr]. unfold attempt. destruct (m w) as [w' [a|e|]]; cbn in *; (split; [done|]).
  - intros r [= <-]. by apply Hr.
  - intros r [= <-]. by apply He.
  - done.
Qed.

Lemma triple_for_each {A} P (l : list A) (f : A → effect ledger_world unit) :
  (∀ st, P st → I st) → (∀ x, x ∈ l → triple P (f x) (λ _, P)) → triple P (for_each l f) (λ _, P).
Proof.
  intros HI. induction l as [|x l IH]; intros Hf; cbn [for_each].
  - apply triple_returns. eauto.
  - eapply triple_bind; [apply Hf; by left|]. intros u. apply IH. intros y Hy. apply Hf. by right.
Qed.

Lemma triple_exec P f Q :
  (∀ st, P st → I st ∧ I (f st) ∧ Q tt (f st)) → triple P (ledger_exec faults f) Q.
Proof.
  intros H w Hp. destruct (H _ Hp) as (Hi & Hf & Hq). unfold ledger_exec.
  destruct (faults (lw_tick w)); cbn; (split; [done|]); try done. by intros [] _.
Qed.

(** An effect whose error is swallowed. *)
Lemma triple_quiet P f :
  (∀ st, P st → I st) → (∀ st, P st → P (f st)) → triple P (attempt (ledger_exec faults f)) (λ _, P).
Proof.
  intros HI Hf w HP. unfold attempt, ledger_exec.
  destruct (faults (lw_tick w)); cbn; split; intros; try done; eauto.
Qed.

Lemma triple_fetch {A} P (f : ledger_store Note → A) :
  (∀ st, P st → I st) → triple P (ledger_fetch faults f) (λ a st, P st ∧ a = f st).
Proof.
  intros HI w Hp. unfold ledger_fetch. destruct (faults (lw_tick w)); cbn; (split; [by apply HI|]); try done.
  by intros a [= <-].
Qed.

Lemma triple_pre {A} P P' (m : effect ledger_world A) Q : (∀ st, P' st → P st) → triple P m Q → triple P' m Q.
Proof. intros H Hm w Hp. apply Hm. by apply H. Qed.

(** A pure part of a precondition. *)
Lemma triple_assume {A} (φ : Prop) P (m : effect ledger_world A) Q :
  (φ → triple P m Q) → triple (λ st, P st ∧ φ) m Q.
Proof. intros H w [Hp Hφ]. by apply H. Qed.

End triples.

(** ** Runs without faults *)

Definition answers {W A} (m : effect W A) : Prop := ∀ w, ∃ a, (m w).2 = Returns a.

Lemma answers_bind {W A B} (m : effect W A) (k : A → effect W B) : answers m → (∀ a, answers (k a)) → answers (bind m k).
Proof. intros Hm Hk w. destruct (Hm w) as [a Ha]. unfold bind. destruct (m w) as [w' r]. cbn in Ha. subst r. apply Hk. Qed.

Lemma answers_for_each {W A} (l : list A) (f : A → effect W unit) : (∀ x, answers (f x)) → answers (for_each l f).
Proof. intros Hf. induction l as [|x l IH]; cbn [for_each]; [by eexists|]. by apply answers_bind. Qed.

Lemma answers_attempt {W A} (m : effect W A) : answers m → answers (attempt m).
Proof. intros Hm w. destruct (Hm w) as [a Ha]. unfold attempt. destruct (m w) as [w' r]. cbn in Ha. subst r. by eexists. Qed.

(** ** Lists *)

Lemma elem_of_concat {B} (ls : list (list B)) x : x ∈ concat ls ↔ ∃ l, l ∈ ls ∧ x ∈ l.
Proof. rewrite list_elem_of_In, in_concat. by setoid_rewrite list_elem_of_In. Qed.

Lemma sorted_bounds (l : list Z) a b : StronglySorted Z.le l → head l = Some a → last l = Some b → a ∈ l ∧ b ∈ l ∧ ∀ x, x ∈ l → a ≤ x ≤ b.
Proof.
  intros Hs Ha Hb. split_and!; [by apply head_Some_elem_of|by apply last_Some_elem_of|].
  revert a b Ha Hb. induction Hs as [|y l Hs IH Hall]; intros a b Ha Hb; [done|]. injection Ha as ->.
  intros x [->|Hx]%elem_of_cons.
  - split; [lia|]. destruct l as [|z l]; [by injection Hb as ->|]. rewrite last_cons_cons in Hb.
    rewrite Forall_forall in Hall. apply Hall. by apply last_Some_elem_of.
  - destruct l as [|z l]; [by apply not_elem_of_nil in Hx|]. rewrite last_cons_cons in Hb.
    destruct (IH z b eq_refl Hb x Hx). rewrite Forall_forall in Hall. split; [by apply Hall|done].
Qed.

Lemma commits_between_elem w target clog c :
  c ∈ commits_between w target clog ↔ c ∈ clog ∧ w < ct_commit_seq_num c ≤ target.
Proof. unfold commits_between. rewrite merge_sort_Permutation, list_elem_of_filter. naive_solver. Qed.

#[export] Instance seq_order_total : Total seq_order.
Proof. intros x y. unfold seq_order. lia. Qed.

#[export] Instance seq_order_trans : Transitive seq_order.
Proof. intros x y z. unfold seq_order. lia. Qed.

Lemma commits_between_sorted w target clog : StronglySorted Z.le (ct_commit_seq_num <$> commits_between w target clog).
Proof.
  pose proof (StronglySorted_merge_sort seq_order (filter (λ c, w < ct_commit_seq_num c ∧ ct_commit_seq_num c ≤ target) clog)) as Hs.
  unfold commits_between. induction Hs as [|c l Hs IH Hall]; cbn; [constructor|]. constructor; [done|].
  rewrite Forall_fmap. done.
Qed.

(** ** The ledger *)

Section ledger.
Context {Note : Type} (note_of : Z → Note) {N : LedgerNaming} (Hn : LedgerNamingLaws N).
Implicit Types (st : ledger_store Note).

Definition ledger_mark st : Z := default (-1) (tx_log_persist_watermark st).

Definition row_bounded (g : TxLogSegment) (r : ledger_row Note) : Prop :=
  tl_min_commit_seq_num g ≤ lg_seq r ≤ tl_max_commit_seq_num g ∧
  tl_min_commit_micros g ≤ lg_micros r ≤ tl_max_commit_micros g.

Definition rows_of st (p : Z * TxLogSegment) : list (ledger_row Note) := default [] (read_ledger_segment st p.2).

Record ledger_ok (ever : list commit_row) st : Prop := {
  lk_named : ∀ u g, lg_segments st !! u = Some g →
    u = tx_log_persist_segment_uuid (tl_max_commit_seq_num g) ∧ tl_object_uri g = tx_log_persist_segment_uri u;
  lk_files : ∀ u g, committed_ledger st !! u = Some g →
    ∃ rows, read_ledger_segment st g = Some rows ∧ ∀ r, r ∈ rows → row_bounded g r;
  lk_rows : concat (rows_of st <$> map_to_list (committed_ledger st)) ≡ₚ
    ledger_row_of note_of <$> filter (λ c, ct_commit_seq_num c ≤ ledger_mark st) ever;
  lk_tight : ∀ u g rows, committed_ledger st !! u = Some g → read_ledger_segment st g = Some rows →
    ∃ r, r ∈ rows ∧ lg_micros r = tl_min_commit_micros g;
  lk_apart : ∀ u g v h, committed_ledger st !! u = Some g → committed_ledger st !! v = Some h →
    u = v ∨ tl_max_commit_seq_num g < tl_min_commit_seq_num h ∨ tl_max_commit_seq_num h < tl_min_commit_seq_num g;
}.

Lemma committed_ledger_Some st u g :
  committed_ledger st !! u = Some g ↔ lg_segments st !! u = Some g ∧ is_Some (tl_committed_at_micros g).
Proof. unfold committed_ledger. by rewrite map_lookup_filter_Some. Qed.

Lemma mark_bound st u g : committed_ledger st !! u = Some g → tl_max_commit_seq_num g ≤ ledger_mark st.
Proof.
  intros Hg. unfold ledger_mark, tx_log_persist_watermark.
  assert (tl_max_commit_seq_num g ∈ tl_max_commit_seq_num <$> (snd <$> map_to_list (committed_ledger st))) as Hin.
  { apply list_elem_of_fmap. exists g. split; [done|]. apply list_elem_of_fmap. exists (u, g). split; [done|].
    by apply elem_of_map_to_list. }
  destruct (zmax_list _) as [m|] eqn:E; cbn.
  - apply zmax_list_Some in E as [_ E]. by apply E.
  - apply zmax_list_None in E. rewrite E in Hin. by apply not_elem_of_nil in Hin.
Qed.

(** Stores that differ outside the committed segments and their files. *)
Definition agree st st' : Prop :=
  committed_ledger st' = committed_ledger st ∧
  ∀ u g, committed_ledger st !! u = Some g → read_ledger_segment st' g = read_ledger_segment st g.

Lemma agree_watermark st st' : agree st st' → tx_log_persist_watermark st' = tx_log_persist_watermark st.
Proof. intros [Hc _]. unfold tx_log_persist_watermark. by rewrite Hc. Qed.

Lemma agree_mark st st' : agree st st' → ledger_mark st' = ledger_mark st.
Proof. intros Ha. unfold ledger_mark. by rewrite (agree_watermark _ _ Ha). Qed.

Lemma agree_ok ever st st' :
  agree st st' →
  (∀ u g, lg_segments st' !! u = Some g →
    u = tx_log_persist_segment_uuid (tl_max_commit_seq_num g) ∧ tl_object_uri g = tx_log_persist_segment_uri u) →
  ledger_ok ever st → ledger_ok ever st'.
Proof.
  intros Ha Hnm [_ Hf Hr Ht Hap]. pose proof (agree_mark _ _ Ha) as Hm. destruct Ha as [Hc Hfs]. split; [done|..].
  - intros u g Hg. rewrite Hc in Hg. rewrite (Hfs u g Hg). by eapply Hf.
  - rewrite Hc, Hm, <- Hr. apply Permutation_refl'. f_equal. apply list_fmap_ext. intros i [u g] Hi. unfold rows_of. cbn.
    rewrite (Hfs u g); [done|]. apply elem_of_map_to_list. by eapply list_elem_of_lookup_2.
  - intros u g rows Hg. rewrite Hc in Hg. rewrite (Hfs u g Hg). by apply (Ht u).
  - by rewrite Hc.
Qed.

(** *** The effects of a flush *)

Lemma agree_files ever st uri f :
  ledger_ok ever st → (∀ u g, committed_ledger st !! u = Some g → tl_object_uri g ≠ uri) →
  (∀ v : Z, v ≠ uri → ∀ m : gmap Z (list (ledger_row Note)), f m !! v = m !! v) → agree st (on_ledger_files f st).
Proof. intros _ Hu Hf. split; [done|]. intros u g Hg. unfold read_ledger_segment. cbn. apply Hf. by eapply Hu. Qed.

Lemma ok_files ever st uri f :
  ledger_ok ever st → (∀ u g, committed_ledger st !! u = Some g → tl_object_uri g ≠ uri) →
  (∀ v : Z, v ≠ uri → ∀ m : gmap Z (list (ledger_row Note)), f m !! v = m !! v) →
  agree st (on_ledger_files f st) ∧ ledger_ok ever (on_ledger_files f st).
Proof.
  intros Hok Hu Hf. pose proof (agree_files _ _ _ _ Hok Hu Hf) as Ha. split; [done|].
  eapply agree_ok; [done| |done]. intros u g Hg. by apply (lk_named _ _ Hok).
Qed.

Lemma ok_delete_row ever st u :
  ledger_ok ever st →
  agree st (delete_uncommitted_tx_log_persist_segment u st) ∧ ledger_ok ever (delete_uncommitted_tx_log_persist_segment u st).
Proof.
  intros Hok. assert (agree st (delete_uncommitted_tx_log_persist_segment u st)) as Ha.
  { split; [|done]. apply map_eq. intros v. apply option_eq. intros g. rewrite !committed_ledger_Some. cbn.
    destruct (lg_segments st !! u ≫= tl_committed_at_micros) as [c|] eqn:E; [done|].
    destruct (decide (v = u)) as [->|Hne]; [|by rewrite lookup_delete_ne]. rewrite lookup_delete_eq. split; [by intros []|].
    intros [Hg [c Hc]]. rewrite Hg in E. cbn in E. congruence. }
  split; [done|]. eapply agree_ok; [done| |done]. cbn. intros v g Hg. apply (lk_named _ _ Hok).
  destruct (lg_segments st !! u ≫= tl_committed_at_micros); [done|]. by apply lookup_delete_Some in Hg as [].
Qed.

(** A name past the watermark belongs to no committed segment. *)
Lemma name_free ever st m : ledger_ok ever st → ledger_mark st < m →
  committed_ledger st !! tx_log_persist_segment_uuid m = None ∧
  ∀ u g, committed_ledger st !! u = Some g → tl_object_uri g ≠ tx_log_persist_segment_uri (tx_log_persist_segment_uuid m).
Proof using Hn.
  intros Hok Hm.
  assert (∀ u g, committed_ledger st !! u = Some g → u ≠ tx_log_persist_segment_uuid m) as Hne.
  { intros u g Hg ->. pose proof (mark_bound _ _ _ Hg). apply committed_ledger_Some in Hg as [Hg _].
    apply (lk_named _ _ Hok) in Hg as [Hg _]. apply segment_uuid_inj in Hg. lia. }
  split.
  - destruct (committed_ledger st !! tx_log_persist_segment_uuid m) as [g|] eqn:E; [|done]. by destruct (Hne _ _ E).
  - intros u g Hg Heq. pose proof Hg as [Hg' _]%committed_ledger_Some. apply (lk_named _ _ Hok) in Hg' as [_ Hu].
    rewrite Hu in Heq. apply segment_uri_inj in Heq. by apply (Hne u g).
Qed.

Lemma ok_insert ever st mn mx mm mM n :
  ledger_ok ever st → ledger_mark st < mx →
  let u := tx_log_persist_segment_uuid mx in
  let st' := insert_tx_log_persist_segment u mn mx mm mM (tx_log_persist_segment_uri u) n st in
  agree st st' ∧ ledger_ok ever st' ∧
  lg_segments st' !! u = Some {| tl_min_commit_seq_num := mn; tl_max_commit_seq_num := mx; tl_min_commit_micros := mm;
    tl_max_commit_micros := mM; tl_object_uri := tx_log_persist_segment_uri u; tl_row_count := n; tl_committed_at_micros := None |}.
Proof using Hn.
  intros Hok Hm u st'. destruct (name_free _ _ _ Hok Hm) as [Hfree _].
  assert (lg_segments st !! u ≫= tl_committed_at_micros = None) as Hun.
  { destruct (lg_segments st !! u) as [g|] eqn:E; [|done]. cbn. destruct (tl_committed_at_micros g) as [c|] eqn:Ec; [|done].
    assert (committed_ledger st !! u = Some g) as Hg by (apply committed_ledger_Some; rewrite Ec; eauto). unfold u in Hg. congruence. }
  assert (agree st st') as Ha.
  { split; [|done]. apply map_eq. intros v. apply option_eq. intros g. rewrite !committed_ledger_Some. unfold st'. cbn.
    destruct (decide (v = u)) as [->|Hne]; [|by rewrite lookup_insert_ne]. rewrite lookup_insert_eq. split.
    - intros [[= <-] Hc]. cbn in Hc. rewrite Hun in Hc. by destruct Hc.
    - intros [Hg [c Hc]]. rewrite Hg in Hun. cbn in Hun. congruence. }
  split_and!; [done| |unfold st'; cbn; by rewrite lookup_insert_eq, Hun].
  eapply agree_ok; [done| |done]. unfold st'. cbn. intros v g [[<- <-]|[Hne Hg]]%lookup_insert_Some; [done|].
  by apply (lk_named _ _ Hok).
Qed.

(** *** The commit *)

Lemma ok_commit ever st now mx g rows :
  ledger_ok ever st → ledger_mark st < mx →
  let u := tx_log_persist_segment_uuid mx in
  lg_segments st !! u = Some g → tl_max_commit_seq_num g = mx →
  read_ledger_segment st g = Some (ledger_row_of note_of <$> rows) →
  (∀ r, r ∈ ledger_row_of note_of <$> rows → row_bounded g r) →
  ledger_mark st < tl_min_commit_seq_num g → tl_min_commit_micros g ∈ ct_commit_micros <$> rows →
  filter (λ c, ct_commit_seq_num c ≤ mx) ever ≡ₚ rows ++ filter (λ c, ct_commit_seq_num c ≤ ledger_mark st) ever →
  let st' := commit_tx_log_persist_segment now u st in
  tx_log_persist_watermark st' = Some mx ∧ ledger_ok ever st'.
Proof using Hn.
  intros Hok Hm u Hg Hmx Hfile Hb Hmin Htight Hperm st'. destruct (name_free _ _ _ Hok Hm) as [Hfree _]. fold u in Hfree.
  set (g' := stamp_ledger_segment now g).
  assert (lg_segments st' = <[u := g']> (lg_segments st)) as Hs'.
  { unfold st'. cbn. apply map_eq. intros v. destruct (decide (v = u)) as [->|Hne].
    - by rewrite lookup_alter_eq, Hg, lookup_insert_eq.
    - by rewrite lookup_alter_ne, lookup_insert_ne. }
  assert (committed_ledger st' = <[u := g']> (committed_ledger st)) as Hc.
  { unfold committed_ledger. rewrite Hs', map_filter_insert_True; [done|]. cbn. by eexists. }
  assert (map_to_list (committed_ledger st') ≡ₚ (u, g') :: map_to_list (committed_ledger st)) as Hl.
  { rewrite Hc. by apply map_to_list_insert. }
  assert (tx_log_persist_watermark st' = Some mx) as Hwm.
  { unfold tx_log_persist_watermark.
    assert (tl_max_commit_seq_num <$> (snd <$> map_to_list (committed_ledger st')) ≡ₚ
      mx :: (tl_max_commit_seq_num <$> (snd <$> map_to_list (committed_ledger st)))) as Hp by (rewrite Hl; cbn; by rewrite Hmx).
    apply zmax_list_Some. split; [rewrite Hp; by left|]. intros x. rewrite Hp. intros [->|Hx]%elem_of_cons; [lia|].
    apply list_elem_of_fmap in Hx as (h & -> & ([v h'] & -> & Hh)%list_elem_of_fmap). apply elem_of_map_to_list in Hh.
    cbn. pose proof (mark_bound _ _ _ Hh). lia. }
  assert (ledger_mark st' = mx) as Hmark by (unfold ledger_mark; by rewrite Hwm).
  split; [done|]. split.
  - rewrite Hs'. intros v h [[<- <-]|[Hne Hh]]%lookup_insert_Some; [|by apply (lk_named _ _ Hok)].
    cbn. by apply (lk_named _ _ Hok).
  - rewrite Hc. intros v h [[<- <-]|[Hne Hh]]%lookup_insert_Some; [by eexists|]. by apply (lk_files _ _ Hok v).
  - rewrite Hmark, Hperm, fmap_app, Hl, fmap_cons. cbn [concat]. apply Permutation_app.
    + unfold rows_of. change (read_ledger_segment st' (u, g').2) with (read_ledger_segment st g). by rewrite Hfile.
    + apply (lk_rows _ _ Hok).
  - rewrite Hc. intros v h rows' [[<- <-]|[Hne Hh]]%lookup_insert_Some; [|by apply (lk_tight _ _ Hok v)].
    change (read_ledger_segment st' g') with (read_ledger_segment st g). rewrite Hfile. intros [= <-].
    apply list_elem_of_fmap in Htight as (c & Hcm & Hin). exists (ledger_row_of note_of c). split; [by apply list_elem_of_fmap_2|done].
  - rewrite Hc. intros v h v' h' [[<- <-]|[Hne Hh]]%lookup_insert_Some [[<- <-]|[Hne' Hh']]%lookup_insert_Some; [by left| | |].
    + pose proof (mark_bound _ _ _ Hh'). right. right. cbn. lia.
    + pose proof (mark_bound _ _ _ Hh). right. left. cbn. lia.
    + by apply (lk_apart _ _ Hok).
Qed.

(** *** The flush *)

Section flush.
Context (clog ever : list commit_row) (faults : nat → fault) (now target : Z).
Context (Hsub : ∀ c, c ∈ clog → c ∈ ever) (Hnd : NoDup clog) (Hnde : NoDup ever) (flushed : Prop) (floor : Z).

(** The ledger is exact, what it lacks is in the hot log, and its
    watermark never falls. *)
Record flush_inv st : Prop := {
  fi_ok : ledger_ok ever st;
  fi_tail : ∀ c, c ∈ ever → ledger_mark st < ct_commit_seq_num c → c ∈ clog;
  fi_mark : ledger_mark st = -1 ∨ ∃ c, c ∈ ever ∧ ct_commit_seq_num c = ledger_mark st;
  fi_flushed : flushed → is_Some (tx_log_persist_watermark st);
  fi_floor : floor ≤ ledger_mark st;
}.

Lemma flush_agree st st' : agree st st' → ledger_ok ever st' → flush_inv st → flush_inv st'.
Proof. intros Ha Hok [_ Ht Hm Hf Hfo]. split; [done|..]; by rewrite ?(agree_mark _ _ Ha), ?(agree_watermark _ _ Ha). Qed.

Lemma reclaim_triple st0 p :
  flush_inv st0 → p ∈ list_uncommitted_tx_log_segments st0 →
  triple flush_inv (λ st, flush_inv st ∧ committed_ledger st = committed_ledger st0) (reclaim faults p)
    (λ _ st, flush_inv st ∧ committed_ledger st = committed_ledger st0).
Proof using Hn.
  intros [Hok0 _ _ _] Hp. unfold reclaim.
  assert (∀ u g, committed_ledger st0 !! u = Some g → tl_object_uri g ≠ p.2) as Hne.
  { unfold list_uncommitted_tx_log_segments in Hp. apply list_elem_of_fmap in Hp as ([v h] & -> & Hh).
    apply elem_of_map_to_list, map_lookup_filter_Some in Hh as [Hh Hc]. cbn in *.
    intros u g [Hg [c Hgc]]%committed_ledger_Some Heq. pose proof (lk_named _ _ Hok0 _ _ Hh) as [_ Hv].
    pose proof (lk_named _ _ Hok0 _ _ Hg) as [_ Hu]. rewrite Hv, Hu in Heq. apply segment_uri_inj in Heq as ->. congruence. }
  set (P := λ st, flush_inv st ∧ committed_ledger st = committed_ledger st0).
  assert (∀ f st, P st → agree st (f st) → ledger_ok ever (f st) → P (f st)) as Hstep.
  { intros f st [Hi Hc] Ha Hok. split; [by eapply flush_agree|]. by rewrite (proj1 Ha). }
  assert (∀ st, P st → P (on_ledger_files (delete p.2) st)) as Hdel.
  { intros st HP. destruct (ok_files ever st p.2 (delete p.2)) as [Ha Hok]; [apply HP| | |by apply (Hstep (on_ledger_files _))].
    - intros u g. rewrite (proj2 HP). apply Hne.
    - intros v Hv m. by apply lookup_delete_ne. }
  assert (∀ st, P st → P (delete_uncommitted_tx_log_persist_segment p.1 st)) as Hdr.
  { intros st HP. destruct (ok_delete_row ever st p.1) as [Ha Hok]; [apply HP|]. by apply (Hstep (delete_uncommitted_tx_log_persist_segment _)). }
  assert (∀ st, P st → flush_inv st) as HI by by intros st [].
  eapply triple_bind with (R := λ _, P); [by apply triple_quiet|].
  intros [[]|e]; [|apply triple_returns; eauto].
  eapply triple_bind with (R := λ _, P); [by apply triple_quiet|]. intros r. apply triple_returns. eauto.
Qed.

(** The rows of the window, with the bounds the segment records. *)
Definition window_rows (w mn mx mm mM : Z) (rows : list commit_row) : Prop :=
  rows = commits_between w target clog ∧ head (ct_commit_seq_num <$> rows) = Some mn ∧
  last (ct_commit_seq_num <$> rows) = Some mx ∧ zmin_list (ct_commit_micros <$> rows) = Some mm ∧
  zmax_list (ct_commit_micros <$> rows) = Some mM.

Lemma window_facts w mn mx mm mM rows :
  window_rows w mn mx mm mM rows → (∀ c, c ∈ ever → w < ct_commit_seq_num c → c ∈ clog) →
  w < mn ∧ mm ∈ ct_commit_micros <$> rows ∧ w < mx ∧ (∃ c, c ∈ ever ∧ ct_commit_seq_num c = mx) ∧ (∀ c, c ∈ rows → mn ≤ ct_commit_seq_num c ≤ mx ∧ mm ≤ ct_commit_micros c ≤ mM) ∧
  (∀ c, c ∈ ever → ct_commit_seq_num c ≤ target → ct_commit_seq_num c ≤ mx) ∧
  filter (λ c, ct_commit_seq_num c ≤ mx) ever ≡ₚ rows ++ filter (λ c, ct_commit_seq_num c ≤ w) ever.
Proof using Hsub Hnd Hnde.
  intros (-> & Hh & Hl & Hm & HM) Ht.
  destruct (sorted_bounds _ _ _ (commits_between_sorted w target clog) Hh Hl) as (Hin0 & Hin & Hb).
  apply list_elem_of_fmap in Hin0 as (c0 & Hc0 & [_ Hmn]%commits_between_elem).
  apply list_elem_of_fmap in Hin as (cx & Hcx & [Hcl Hmx]%commits_between_elem).
  apply zmin_list_Some in Hm as [Hmin Hm]. apply zmax_list_Some in HM as [_ HM].
  assert (∀ c, c ∈ commits_between w target clog → mn ≤ ct_commit_seq_num c ≤ mx) as Hseq.
  { intros c Hc. apply Hb. apply list_elem_of_fmap. eauto. }
  assert (∀ c, c ∈ ever → w < ct_commit_seq_num c → ct_commit_seq_num c ≤ target → c ∈ commits_between w target clog) as Hcov.
  { intros c Hc Hw Hct. apply commits_between_elem. split; [by apply Ht|lia]. }
  split_and!; [lia|done|lia|exists cx; split; [by apply Hsub|done]| | |].
  - intros c Hc. split; [by apply Hseq|]. split; [apply Hm|apply HM]; apply list_elem_of_fmap; eauto.
  - intros c Hc Hct. destruct (decide (w < ct_commit_seq_num c)); [|lia]. by apply Hseq, Hcov.
  - apply NoDup_Permutation.
    + by apply NoDup_filter.
    + apply NoDup_app. split_and!; [|intros c Hc Hc2|by apply NoDup_filter].
      * unfold commits_between. rewrite merge_sort_Permutation. by apply NoDup_filter.
      * apply commits_between_elem in Hc as [_ Hc]. apply list_elem_of_filter in Hc2 as [Hc2 _]. lia.
    + intros c. rewrite elem_of_app, !list_elem_of_filter. split.
      * intros [Hle Hc]. destruct (decide (w < ct_commit_seq_num c)); [left; apply Hcov; [done|done|lia]|right; split; [lia|done]].
      * intros [Hc|[Hle Hc]]; [|split; [lia|done]]. split; [by apply Hseq|]. apply Hsub. by apply commits_between_elem in Hc as [].
Qed.

Lemma write_triple w mn mx mm mM rows :
  window_rows w mn mx mm mM rows →
  triple flush_inv (λ st, flush_inv st ∧ ledger_mark st = w)
    (write_ledger_segment note_of faults now rows mn mx mm mM)
    (λ _ st, ∀ c, c ∈ ever → ct_commit_seq_num c ≤ target → ct_commit_seq_num c ≤ ledger_mark st).
Proof using Hn Hsub Hnd Hnde.
  intros Hw. unfold write_ledger_segment. cbv zeta. set (u := tx_log_persist_segment_uuid mx). set (uri := tx_log_persist_segment_uri u).
  set (g := {| tl_min_commit_seq_num := mn; tl_max_commit_seq_num := mx; tl_min_commit_micros := mm; tl_max_commit_micros := mM;
               tl_object_uri := uri; tl_row_count := length rows; tl_committed_at_micros := None |}).
  assert (∀ st, flush_inv st → ledger_mark st = w → ledger_mark st < mx) as Hlt.
  { intros st [Hok Ht _ _ _] Hm. rewrite Hm in Ht. destruct (window_facts _ _ _ _ _ _ Hw Ht) as (_ & _ & ? & _). lia. }
  set (P := λ st, flush_inv st ∧ ledger_mark st = w ∧ (lg_segments st !! u = Some g ∨ lg_segments st !! u = None)).
  assert (∀ st f, P st → (∀ v : Z, v ≠ uri → ∀ m : gmap Z (list (ledger_row Note)), f m !! v = m !! v) → P (on_ledger_files f st)) as Hfile.
  { intros st f (Hi & Hm & Hg) Hf. destruct (name_free ever st mx (fi_ok _ Hi)) as [_ Hu]; [by apply Hlt|].
    destruct (ok_files ever st uri f (fi_ok _ Hi) Hu Hf) as [Ha Hok]. split; [by eapply flush_agree|].
    split; [rewrite <- Hm; by apply agree_mark|done]. }
  eapply triple_bind with (R := λ _ st, P st ∧ lg_segments st !! u = Some g).
  { apply triple_exec. intros st [Hi Hm]. pose proof (Hlt st Hi Hm) as Hl.
    destruct (ok_insert ever st mn mx mm mM (length rows) (fi_ok _ Hi) Hl) as (Ha & Hok & Hg).
    assert (flush_inv (insert_tx_log_persist_segment u mn mx mm mM uri (length rows) st)) as Hi' by (by eapply flush_agree).
    split_and!; [done|done| |done]. split; [done|]. split; [rewrite <- Hm; by apply agree_mark|by left]. }
  intros []. eapply triple_bind with (R := λ r st, P st ∧
    (r = Ok tt → lg_segments st !! u = Some g ∧ lg_files st !! uri = Some (ledger_row_of note_of <$> rows))).
  { intros w0 [HP Hg]. assert (P (on_ledger_files (insert uri (ledger_row_of note_of <$> rows)) (lw_store w0))) as HP'.
    { apply Hfile; [done|]. intros v Hv m. by apply lookup_insert_ne. }
    unfold attempt, ledger_exec. destruct (faults (lw_tick w0)); cbn; (split; [apply HP || apply HP'|]); try done; intros r [= <-]; (split; [done|]); try done.
    intros _. split; [done|]. cbn. by rewrite lookup_insert_eq. }
  intros [[]|e].
  - apply triple_exec. intros st [HP HF]. destruct (HF eq_refl) as [Hg Hf]. destruct HP as (Hi & Hm & _). pose proof (Hlt st Hi Hm) as Hl.
    destruct Hi as [Hok Ht Hmk Hfl Hfo]. rewrite Hm in Ht. destruct (window_facts _ _ _ _ _ _ Hw Ht) as (Hmn & Hti & _ & Hmx & Hb & Hcov & Hperm).
    destruct (ok_commit ever st now mx g rows Hok Hl Hg eq_refl Hf) as [Hwm Hok'].
    { intros r (c & -> & Hc)%list_elem_of_fmap. by apply Hb. }
    { cbn. by rewrite Hm. }
    { done. }
    { by rewrite Hm. }
    fold u in Hwm, Hok'. assert (ledger_mark (commit_tx_log_persist_segment now u st) = mx) as Hmark by (unfold ledger_mark; by rewrite Hwm).
    split_and!; [split; [done|by rewrite Hm|done..]| |by rewrite Hmark]. split; [done|..|right; by rewrite Hmark|by rewrite Hwm|rewrite Hmark; lia]. rewrite Hmark. intros c Hc Hcm.
    apply Ht; [done|]. rewrite <- Hm. lia.
  - assert (∀ st, P st → flush_inv st) as HI by by intros st [].
    eapply triple_bind with (R := λ _, P).
    { apply (triple_pre _ P); [by intros st []|]. apply triple_quiet; [done|]. intros st HP. apply Hfile; [done|].
      intros v Hv m. by apply lookup_delete_ne. }
    intros r. eapply triple_bind with (R := λ _, P); [|intros r'; by apply triple_raises].
    apply triple_quiet; [done|]. intros st (Hi & Hm & Hg). destruct (ok_delete_row ever st u (fi_ok _ Hi)) as [Ha Hok].
    split; [by eapply flush_agree|]. split; [rewrite <- Hm; by apply agree_mark|]. right. cbn.
    destruct Hg as [Hg|Hg]; rewrite Hg; cbn; [by apply lookup_delete_eq|by apply lookup_delete_eq].
Qed.

Lemma reclaim_all listed :
  triple flush_inv (λ st, flush_inv st ∧ listed = list_uncommitted_tx_log_segments st) (for_each listed (reclaim faults)) (λ _, flush_inv).
Proof using Hn.
  intros w [Hi Hl]. destruct (triple_for_each flush_inv
    (λ st, flush_inv st ∧ committed_ledger st = committed_ledger (lw_store w)) listed (reclaim faults)) with (w := w) as [H1 H2].
  - by intros st [].
  - intros p Hp. apply reclaim_triple; [done|]. by rewrite <- Hl.
  - done.
  - split; [done|]. intros a Ha. by destruct (H2 a Ha).
Qed.

Definition target_covered st : Prop := ∀ c, c ∈ ever → ct_commit_seq_num c ≤ target → ct_commit_seq_num c ≤ ledger_mark st.

(** An empty window means nothing is missing. *)
Lemma window_none w : (∀ c, c ∈ ever → w < ct_commit_seq_num c → c ∈ clog) →
  let rows := commits_between w target clog in
  (∃ mn mx mm mM, head (ct_commit_seq_num <$> rows) = Some mn ∧ last (ct_commit_seq_num <$> rows) = Some mx ∧
     zmin_list (ct_commit_micros <$> rows) = Some mm ∧ zmax_list (ct_commit_micros <$> rows) = Some mM) ∨
  (rows = [] ∧ ∀ c, c ∈ ever → ct_commit_seq_num c ≤ target → ct_commit_seq_num c ≤ w).
Proof.
  intros Ht rows. destruct rows as [|c0 l] eqn:E.
  - right. split; [done|]. intros c Hc Hct. destruct (decide (w < ct_commit_seq_num c)) as [Hw|]; [|lia]. exfalso.
    assert (c ∈ rows) as Hin by (apply commits_between_elem; split; [by apply Ht|lia]). rewrite E in Hin. by apply not_elem_of_nil in Hin.
  - left. destruct (zmin_list (ct_commit_micros <$> c0 :: l)) as [mm|] eqn:Em; [|by apply zmin_list_None in Em].
    destruct (zmax_list (ct_commit_micros <$> c0 :: l)) as [mM|] eqn:EM; [|by apply zmax_list_None in EM].
    destruct (last (ct_commit_seq_num <$> c0 :: l)) as [mx|] eqn:El; [|by apply last_None in El].
    by exists (ct_commit_seq_num c0), mx, mm, mM.
Qed.

Lemma flush_locked_triple : triple flush_inv flush_inv (persist_tx_log_locked note_of faults now clog target) (λ _, target_covered).
Proof using Hn Hsub Hnd Hnde.
  unfold persist_tx_log_locked. eapply triple_bind; [by apply triple_fetch|]. intros listed. cbn beta.
  eapply triple_bind; [apply reclaim_all|]. intros []. eapply triple_bind; [by apply triple_fetch|]. intros w. cbn beta.
  destruct (Z.leb_spec target w) as [Hle|Hlt].
  - apply triple_returns. intros st [Hi ->]. split; [done|]. intros c Hc Hct. fold (ledger_mark st) in Hle. lia.
  - eapply triple_bind; [apply triple_fetch; by intros st []|]. intros rows. cbn beta.
    intros w0 [[Hi Hm] ->]. fold (ledger_mark (lw_store w0)) in Hm. subst w.
    destruct (window_none (ledger_mark (lw_store w0)) (fi_tail _ Hi)) as [(mn & mx & mm & mM & Hw)|[Hnil Hcov]].
    + pose proof Hw as (E1 & E2 & E3 & E4). rewrite E1, E2, E3, E4.
      apply (write_triple (ledger_mark (lw_store w0))); [by split|done].
    + rewrite Hnil. cbn. split; [done|]. intros a _. done.
Qed.

Lemma flush_triple : triple flush_inv flush_inv (persist_tx_log note_of faults now clog target) (λ _, target_covered).
Proof using Hn Hsub Hnd Hnde.
  unfold persist_tx_log. eapply triple_bind; [by apply triple_fetch|]. intros w. cbn beta. destruct (Z.leb_spec target w) as [Hle|Hlt].
  - apply triple_returns. intros st [Hi ->]. split; [done|]. intros c Hc Hct. fold (ledger_mark st) in Hle. lia.
  - eapply triple_pre; [|apply flush_locked_triple]. by intros st [].
Qed.

End flush.

(** Without faults a flush answers. *)
Lemma exec_answers f : answers (ledger_exec (Note := Note) (λ _, Runs) f).
Proof. intros w. by eexists. Qed.

Lemma fetch_answers {A} (f : ledger_store Note → A) : answers (ledger_fetch (λ _, Runs) f).
Proof. intros w. by eexists. Qed.

Lemma flush_answers now clog target : answers (persist_tx_log note_of (λ _, Runs) now clog target).
Proof.
  assert (∀ f, answers (attempt (ledger_exec (Note := Note) (λ _, Runs) f))) as Hq by (intros; apply answers_attempt, exec_answers).
  unfold persist_tx_log. apply answers_bind; [apply fetch_answers|]. intros w. case_match; [by eexists|].
  unfold persist_tx_log_locked. apply answers_bind; [apply fetch_answers|]. intros listed.
  apply answers_bind; [apply answers_for_each; intros p; unfold reclaim; apply answers_bind; [done|]; intros [[]|];
    [apply answers_bind; [done|]; by eexists|by eexists]|]. intros [].
  apply answers_bind; [apply fetch_answers|]. intros w'. case_match; [by eexists|].
  apply answers_bind; [apply fetch_answers|]. intros rows. repeat case_match; try by eexists.
Qed.

End ledger.
