(* ===== verification/TxLedgerTheorems.v ===== *)
(** * No commit is ever lost

    The invariant of a branch's transaction logs, hot and cold, over every
    interleaving of transactions, flushes cut short anywhere, table purges and
    passes of the GC; and that the GC takes nothing a reader or an open
    transaction still needs. *)

From S2P Require Import Prelude Watermarks ReadSnapshot Dialect MergeSql IndexSelect Effects TxLog TxLedger TxLedgerInv.
From stdpp Require Import base numbers list option sets gmap sorting.

Open Scope Z_scope.

(** ** The GC on the logs *)

Lemma StronglySorted_fmap_filter {A B} (R : B → B → Prop) (f : A → B) (P : A → Prop) `{!∀ x, Decision (P x)} (l : list A) :
  StronglySorted R (f <$> l) → StronglySorted R (f <$> filter P l).
Proof.
  induction l as [|x l IH]; [done|]. cbn [fmap list_fmap]. intros [Hs Hall]%StronglySorted_inv. rewrite filter_cons. case_decide; [|by apply IH].
  cbn. constructor; [by apply IH|]. rewrite Forall_fmap in Hall |- *. rewrite Forall_forall in Hall |- *. intros y [_ Hy]%list_elem_of_filter. by apply Hall.
Qed.

Lemma StronglySorted_filter {A} (R : A → A → Prop) (P : A → Prop) `{!∀ x, Decision (P x)} (l : list A) :
  StronglySorted R l → StronglySorted R (filter P l).
Proof. intros Hs. rewrite <- (list_fmap_id (filter P l)). apply StronglySorted_fmap_filter. by rewrite list_fmap_id. Qed.

Lemma gc_wf l tt pu pa started grace : tx_wf l → tx_wf (delete_purge_tx_log_eligible l tt pu pa started grace).1.
Proof.
  intros Hwf. split; cbn.
  - by apply StronglySorted_filter, wf_commits_sorted.
  - intros c [_ Hc]%list_elem_of_filter. by apply wf_commits_range.
  - by apply NoDup_fmap_filter, wf_commits_nodup.
  - by apply wf_counter.
  - intros tx b [Hb _]%map_lookup_filter_Some. by eapply wf_begins.
  - by apply StronglySorted_fmap_filter, wf_aborts_sorted.
  - intros a [_ Ha]%list_elem_of_filter. by apply wf_aborts_range.
  - by apply NoDup_fmap_filter, wf_aborts_nodup.
  - by apply wf_abort_counter.
  - intros c a [_ Hc]%list_elem_of_filter [_ Ha]%list_elem_of_filter. by apply (wf_disjoint l).
Qed.

(** A committed transaction the GC takes is at or below the committed cutoff. *)
Lemma eligible_committed l tt pu pa started bound c :
  tx_wf l → c ∈ tx_commit_log l → ct_tx_uuid c ∈ eligible_txs l tt pu pa started bound →
  ∃ p, pu = Some p ∧ ct_commit_seq_num c ≤ p.
Proof.
  intros Hwf Hc. unfold eligible_txs. rewrite !elem_of_app. intros [H|[H|[H|H]]].
  - destruct pu as [p|]; [|by apply not_elem_of_nil in H]. exists p. split; [done|].
    apply list_elem_of_fmap in H as (c' & Heq & [Hp Hc']%list_elem_of_filter).
    by rewrite (NoDup_fmap_eq _ _ _ _ (wf_commits_nodup _ Hwf) Hc Hc' Heq).
  - destruct pa as [p|]; [|by apply not_elem_of_nil in H].
    apply list_elem_of_fmap in H as (a & Heq & [_ Ha]%list_elem_of_filter). by destruct (wf_disjoint _ Hwf c a).
  - apply list_elem_of_fmap in H as (a & Heq & [_ Ha]%list_elem_of_filter). by destruct (wf_disjoint _ Hwf c a).
  - apply list_elem_of_fmap in H as ([tx b] & Heq & [(_ & Hn & _) _]%list_elem_of_filter). cbn in *. destruct Hn.
    apply Exists_exists. eauto.
Qed.

(** ** The invariant *)

Section invariant.
Context {Note : Type} (note_of : Z → Note) {N : LedgerNaming} (Hn : LedgerNamingLaws N) (sweep_interval purge_grace : Z).

Record branch_ok (s : ledger_state Note) (ever : list commit_row) : Prop := {
  bo_wf : tx_wf (ls_tx s);
  bo_ever : StronglySorted Z.lt (ct_commit_seq_num <$> ever);
  bo_range : ∀ c, c ∈ ever → 0 ≤ ct_commit_seq_num c < commit_tx_log_seq_num (ls_tx s);
  bo_hot : ∀ c, c ∈ tx_commit_log (ls_tx s) → c ∈ ever;
  bo_flush : flush_inv note_of (tx_commit_log (ls_tx s)) ever (∃ r, r ∈ ls_purges s ∧ is_Some (pr_pu r))
    (ledger_mark (ls_cold s)) (ls_cold s);
}.

Lemma ever_nodup s ever : branch_ok s ever → NoDup ever.
Proof.
  intros [_ Hs _ _ _]. apply (NoDup_fmap_1 ct_commit_seq_num). apply StronglySorted_Sorted in Hs as Hso.
  revert Hs. generalize (ct_commit_seq_num <$> ever). clear. induction 1 as [|x l Hs IH Hall]; constructor; [|done].
  intros Hin. rewrite Forall_forall in Hall. specialize (Hall _ Hin). lia.
Qed.

Lemma clog_nodup s ever : branch_ok s ever → NoDup (tx_commit_log (ls_tx s)).
Proof. intros [Hwf _ _ _ _]. by eapply NoDup_fmap_1, wf_commits_nodup. Qed.

Lemma branch_ok_start : branch_ok empty_ledger [].
Proof.
  split; cbn.
  - apply tx_wf_empty.
  - constructor.
  - by intros c ?%not_elem_of_nil.
  - by intros c ?%not_elem_of_nil.
  - split; [split|..].
    + intros u g Hg. cbn in Hg. by rewrite lookup_empty in Hg.
    + intros u g [Hg _]%committed_ledger_Some. cbn in Hg. by rewrite lookup_empty in Hg.
    + cbn. unfold committed_ledger. cbn. by rewrite map_filter_empty, map_to_list_empty.
    + intros u g rows [Hg _]%committed_ledger_Some. cbn in Hg. by rewrite lookup_empty in Hg.
    + intros u g v h [Hg _]%committed_ledger_Some. cbn in Hg. by rewrite lookup_empty in Hg.
    + by intros c ?%not_elem_of_nil.
    + by left.
    + by intros (r & ?%not_elem_of_nil & _).
    + done.
Qed.

(** A transaction step commits at most one transaction. *)
Lemma one_commit l l' k : tx_wf l → tx_step l l' → tx_commit_log l' = tx_commit_log l ++ k →
  k = [] ∨ ∃ c, k = [c] ∧ ct_commit_seq_num c = commit_tx_log_seq_num l ∧ commit_tx_log_seq_num l < commit_tx_log_seq_num l'.
Proof.
  intros Hwf Hst Hk. destruct (tx_step_grows _ _ Hst) as ((k' & Hk' & Hseq) & _).
  assert (k' = k) as -> by (apply (app_inv_head (tx_commit_log l)); congruence). pose proof (tx_wf_step _ _ Hwf Hst) as Hwf'.
  destruct k as [|c k]; [by left|]. right. exists c.
  assert (c ∈ tx_commit_log l') as [[_ Hr] _]%(wf_commits_range _ Hwf') by (rewrite Hk; apply elem_of_app; right; by left).
  rewrite (Hseq c) in Hr |- * by by left. split_and!; [|done|done]. destruct k as [|c' k]; [done|]. exfalso.
  pose proof (wf_commits_sorted _ Hwf') as Hs. rewrite Hk in Hs. clear -Hs Hseq.
  induction (tx_commit_log l) as [|x m IH]; cbn in Hs; apply StronglySorted_inv in Hs as [Hs Hall]; [|done].
  apply Forall_cons in Hall as [[Hlt _] _]. rewrite (Hseq c), (Hseq c') in Hlt by set_solver. lia.
Qed.

Lemma mark_below s ever : branch_ok s ever → ledger_mark (ls_cold s) < commit_tx_log_seq_num (ls_tx s).
Proof.
  intros [Hwf _ Hrg _ [_ _ Hm _ _]]. pose proof (wf_counter _ Hwf). destruct Hm as [->|(c & Hc & <-)]; [lia|]. by apply Hrg.
Qed.

Lemma branch_ok_tx s ever l k :
  branch_ok s ever → tx_step (ls_tx s) l → tx_commit_log l = tx_commit_log (ls_tx s) ++ k →
  branch_ok {| ls_tx := l; ls_tx_table := ls_tx_table s; ls_purges := ls_purges s; ls_cold := ls_cold s |} (ever ++ k).
Proof.
  intros Hok Hst Hk. pose proof (mark_below _ _ Hok) as Hmk. destruct Hok as [Hwf Hev Hrg Hhot [[Hnm Hfs Hrows Hti Hap] Htail Hm Hfl Hfo]].
  pose proof (tx_wf_step _ _ Hwf Hst) as Hwf'. destruct (tx_step_grows _ _ Hst) as (_ & _ & Hcnt & _).
  assert (∀ c, c ∈ ever → 0 ≤ ct_commit_seq_num c < commit_tx_log_seq_num l) as Hrg' by (intros c Hc; specialize (Hrg c Hc); lia).
  destruct (one_commit _ _ _ Hwf Hst Hk) as [->|(c & -> & Hc & Hlt)].
  { rewrite app_nil_r in Hk |- *. split; cbn; try done; [by rewrite Hk|split; [by split|by rewrite Hk|done..]]. }
  pose proof (wf_counter _ Hwf) as Hc0. split; cbn.
  - done.
  - rewrite fmap_app. apply StronglySorted_snoc; [done|]. intros y (x & -> & Hx)%list_elem_of_fmap. rewrite Hc. by apply Hrg.
  - intros x [Hx| ->%list_elem_of_singleton]%elem_of_app; [by apply Hrg'|lia].
  - intros x. rewrite Hk, !elem_of_app. intros [?|?]; [left; by apply Hhot|by right].
  - split; [split|..]; cbn.
    + done.
    + done.
    + rewrite filter_app, filter_cons_False by lia. by rewrite app_nil_r.
    + done.
    + done.
    + intros x [Hx|Hx]%elem_of_app Hxm; rewrite Hk, elem_of_app; [left; by apply Htail|by right].
    + destruct Hm as [?|(x & Hx & ?)]; [by left|]. right. exists x. split; [apply elem_of_app; by left|done].
    + done.
    + done.
Qed.

Lemma flush_refloor clog ever flushed floor st :
  flush_inv note_of clog ever flushed floor st → flush_inv note_of clog ever flushed (ledger_mark st) st.
Proof. by intros []. Qed.

Lemma branch_ok_flush s ever faults now target :
  branch_ok s ever →
  branch_ok {| ls_tx := ls_tx s; ls_tx_table := ls_tx_table s; ls_purges := ls_purges s;
    ls_cold := lw_store (persist_tx_log note_of faults now (tx_commit_log (ls_tx s)) target {| lw_store := ls_cold s; lw_tick := 0 |}).1 |} ever.
Proof using Hn.
  intros Hok. pose proof (ever_nodup _ _ Hok) as Hnde. pose proof (clog_nodup _ _ Hok) as Hnd. destruct Hok as [Hwf Hev Hrg Hhot Hfl].
  split; cbn; try done.
  eapply flush_refloor, (flush_triple note_of Hn (tx_commit_log (ls_tx s)) ever faults now target Hhot Hnd Hnde
    (∃ r, r ∈ ls_purges s ∧ is_Some (pr_pu r)) (ledger_mark (ls_cold s))). done.
Qed.

(** The committed cutoff the GC uses is covered by the ledger. *)
Lemma cutoff_covered s ever now p :
  branch_ok s ever →
  committed_cutoff (pu_cutoff (compute_purge_tx_log_cutoffs
    (tx_table_log_purge_watermarks_for_branch (ls_tx s) (ls_tx_table s) (ls_purges s) now)))
    (tx_log_persist_watermark (ls_cold s)) = Some p → p ≤ ledger_mark (ls_cold s).
Proof.
  intros Hok. unfold committed_cutoff, ledger_mark. destruct (pu_cutoff _) as [pu|] eqn:E; [|done].
  destruct (tx_log_persist_watermark (ls_cold s)) as [w|] eqn:Ew; [intros [= <-]; cbn; lia|]. exfalso.
  unfold compute_purge_tx_log_cutoffs in E. cbn in E. apply branch_min_watermark_Some in E as (_ & Hin & _).
  apply list_elem_of_fmap in Hin as ([[t pu'] pa'] & [= <-] & Hin). unfold tx_table_log_purge_watermarks_for_branch in Hin.
  apply list_elem_of_fmap in Hin as (t' & [= _ Hpu _] & _). symmetry in Hpu. apply zmax_list_Some in Hpu as [Hpu _].
  apply list_elem_of_omap in Hpu as (r & [_ Hr]%list_elem_of_filter & Hpr).
  destruct (fi_flushed _ _ _ _ _ _ (bo_flush _ _ Hok)) as [w Hw]; [|congruence]. exists r. split; [done|]. by rewrite Hpr.
Qed.

Lemma branch_ok_gc s ever now : branch_ok s ever → branch_ok (purge_tx_log_locked sweep_interval purge_grace s now) ever.
Proof.
  intros Hok. pose proof (cutoff_covered s ever now) as Hcut. specialize (λ p, Hcut p Hok).
  destruct Hok as [Hwf Hev Hrg Hhot [Hl Htail Hm Hfl Hfo]]. unfold purge_tx_log_locked. cbv zeta.
  set (cut := committed_cutoff _ _) in *. set (pa := pa_cutoff _). set (grace := Z.max _ _).
  destruct (delete_purge_tx_log_eligible (ls_tx s) (ls_tx_table s) cut pa now grace) as [l tt_] eqn:E.
  pose proof (gc_wf (ls_tx s) (ls_tx_table s) cut pa now grace Hwf) as Hwf'. rewrite E in Hwf'. cbn in Hwf'.
  injection E as <- <-. split; cbn.
  - done.
  - done.
  - done.
  - intros c [_ Hc]%list_elem_of_filter. by apply Hhot.
  - split; [done| |done..]. intros c Hc Hcm. pose proof (Htail c Hc Hcm) as Hin. apply list_elem_of_filter. split; [|done].
    intros Hel. destruct (eligible_committed _ _ _ _ _ _ _ Hwf Hin Hel) as (p & Hp & Hle). specialize (Hcut p Hp). lia.
Qed.

Lemma branch_ok_step x y : ledger_step note_of sweep_interval purge_grace x y → branch_ok x.1 x.2 → branch_ok y.1 y.2.
Proof using Hn.
  intros Hst Hok. destruct Hst as [s ever l k Hl Hk|s ever tx t|s ever faults now target|s ever r Hr|s ever now]; cbn [fst snd] in *.
  - by apply branch_ok_tx.
  - by destruct Hok; split.
  - by apply branch_ok_flush.
  - destruct Hok as [Hwf Hev Hrg Hhot [Hl Htail Hm Hfl Hfo]]. split; cbn; try done. split; [done..| |done].
    intros (r' & [->|Hr']%elem_of_cons & Hs); [by apply Hr|]. apply Hfl. eauto.
  - by apply branch_ok_gc.
Qed.

Lemma branch_ok_reachable s ever :
  rtc (ledger_step note_of sweep_interval purge_grace) (empty_ledger, []) (s, ever) → branch_ok s ever.
Proof using Hn.
  intros Hr. change (branch_ok (s, ever).1 (s, ever).2). set (x0 := (empty_ledger, [])) in Hr.
  assert (branch_ok x0.1 x0.2) as Hs by apply branch_ok_start. clearbody x0. revert Hs.
  induction Hr as [x|x y z Hxy _ IH]; [done|]. intros Hx. by eapply IH, branch_ok_step.
Qed.

End invariant.

(** ** Reading the ledger back *)

Lemma mapM_default {A B} (f : A → option (list B)) (l : list A) :
  (∀ x, x ∈ l → is_Some (f x)) → mapM f l = Some ((λ x, default [] (f x)) <$> l).
Proof.
  intros H. apply mapM_Some. induction l as [|x l IH]; constructor.
  - destruct (H x) as [y Hy]; [by left|]. by rewrite Hy.
  - apply IH. intros y Hy. apply H. by right.
Qed.

Lemma cold_ledger_rows {Note} (note_of : Z → Note) {N : LedgerNaming} ever (st : ledger_store Note) :
  ledger_ok note_of ever st →
  ∃ rows, cold_ledger st = Some rows ∧
    rows ≡ₚ ledger_row_of note_of <$> filter (λ c, ct_commit_seq_num c ≤ ledger_mark st) ever.
Proof.
  intros [_ Hf Hr _ _]. unfold cold_ledger. rewrite (mapM_default (λ p : Z * TxLogSegment, read_ledger_segment st p.2)).
  - eexists. split; [done|]. rewrite <- Hr. unfold read_committed_tx_log_segments. 
    by rewrite merge_sort_Permutation.
  - intros [u g] Hin. unfold read_committed_tx_log_segments in Hin. rewrite merge_sort_Permutation in Hin.
    apply elem_of_map_to_list in Hin. destruct (Hf u g Hin) as (rows & Hrows & _). cbn. by rewrite Hrows.
Qed.

(** C21 No commit is lost between the tiers.  Over every interleaving of
    transactions, flushes cut short by any fault at any effect, table purges and
    GC passes, the cold ledger reads back and holds exactly the commits up to
    its watermark, each once, with its clock, author and comment; every later
    commit is still in the hot log. *)
Theorem ledger_keeps_commits {Note} (note_of : Z → Note) {N : LedgerNaming} (Hn : LedgerNamingLaws N)
    (sweep_interval purge_grace : Z) (s : ledger_state Note) (ever : list commit_row)
    (Hr : rtc (ledger_step note_of sweep_interval purge_grace) (empty_ledger, []) (s, ever)) :
  let mark := default (-1) (tx_log_persist_watermark (ls_cold s)) in
  (∃ rows, cold_ledger (ls_cold s) = Some rows ∧
     rows ≡ₚ ledger_row_of note_of <$> filter (λ c, ct_commit_seq_num c ≤ mark) ever) ∧
  ∀ c, c ∈ ever → mark < ct_commit_seq_num c → c ∈ tx_commit_log (ls_tx s).
Proof.
  cbv zeta. pose proof (branch_ok_reachable note_of Hn _ _ _ _ Hr) as [_ _ _ _ [Hl Htail _ _ _]].
  split; [by eapply cold_ledger_rows|done].
Qed.

(** C22 A flush does its work.  A flush that reports success, whatever errors it
    swallowed while it reclaimed what crashed runs left, has put every commit up
    to its target in the ledger; and a flush that meets no fault reports
    success. *)
Theorem flush_covers_target {Note} (note_of : Z → Note) {N : LedgerNaming} (Hn : LedgerNamingLaws N)
    (sweep_interval purge_grace : Z) (s : ledger_state Note) (ever : list commit_row)
    (Hr : rtc (ledger_step note_of sweep_interval purge_grace) (empty_ledger, []) (s, ever)) (now target : Z) :
  let run faults := persist_tx_log note_of faults now (tx_commit_log (ls_tx s)) target {| lw_store := ls_cold s; lw_tick := 0 |} in
  (∀ faults, (run faults).2 = Returns tt →
     ∃ rows, cold_ledger (lw_store (run faults).1) = Some rows ∧
       ∀ c, c ∈ ever → ct_commit_seq_num c ≤ target → ledger_row_of note_of c ∈ rows) ∧
  (run (λ _, Runs)).2 = Returns tt.
Proof.
  intros run. pose proof (branch_ok_reachable note_of Hn _ _ _ _ Hr) as Hok.
  pose proof (ever_nodup note_of _ _ Hok) as Hnde. pose proof (clog_nodup note_of _ _ Hok) as Hnd.
  destruct Hok as [_ _ _ Hhot Hfl]. split.
  - intros faults Hret. destruct (flush_triple note_of Hn _ ever faults now target Hhot Hnd Hnde _ _ {| lw_store := ls_cold s; lw_tick := 0 |} Hfl) as [Hi Hq].
    destruct (cold_ledger_rows note_of ever _ (fi_ok _ _ _ _ _ _ Hi)) as (rows & Hrows & Hp). exists rows. split; [done|].
    intros c Hc Hct. rewrite Hp. apply list_elem_of_fmap. exists c. split; [done|]. apply list_elem_of_filter. split; [|done].
    by apply (Hq tt Hret).
  - destruct (flush_answers note_of now (tx_commit_log (ls_tx s)) target {| lw_store := ls_cold s; lw_tick := 0 |}) as [[] Ha]. done.
Qed.

(** ** What the GC may take *)

(** A table a settled transaction touched bounds the committed cutoff by its own
    purge watermark. *)
Lemma cutoff_purged {Note} (s : ledger_state Note) now table c p :
  c ∈ tx_commit_log (ls_tx s) → ct_commit_micros c ≤ now → (ct_tx_uuid c, table) ∈ ls_tx_table s →
  pu_cutoff (compute_purge_tx_log_cutoffs
    (tx_table_log_purge_watermarks_for_branch (ls_tx s) (ls_tx_table s) (ls_purges s) now)) = Some p →
  ∃ r pu, r ∈ ls_purges s ∧ pr_table r = table ∧ purged_by now r ∧ pr_pu r = Some pu ∧ p ≤ pu.
Proof.
  intros Hc Hm Ht E. unfold compute_purge_tx_log_cutoffs in E. cbn in E. apply branch_min_watermark_Some in E as (Hall & _ & Hmin).
  set (mine := filter (λ r, pr_table r = table ∧ purged_by now r) (ls_purges s)).
  assert (zmax_list (omap pr_pu mine) ∈ (λ '(_, pu, _), pu) <$>
    tx_table_log_purge_watermarks_for_branch (ls_tx s) (ls_tx_table s) (ls_purges s) now) as Hin.
  { apply list_elem_of_fmap. exists (table, zmax_list (omap pr_pu mine), zmax_list (omap pr_pa mine)). split; [done|].
    unfold tx_table_log_purge_watermarks_for_branch. apply list_elem_of_fmap. exists table. split; [done|].
    apply elem_of_remove_dups, list_elem_of_fmap. exists (ct_tx_uuid c, table). split; [done|]. apply list_elem_of_filter.
    split; [|by apply elem_of_elements]. cbn. apply elem_of_app. left. apply list_elem_of_fmap. exists c. split; [done|].
    by apply list_elem_of_filter. }
  destruct (Hall _ Hin) as [pu Hpu]. pose proof (Hmin pu) as Hle. rewrite Hpu in Hin. specialize (Hle Hin).
  apply zmax_list_Some in Hpu as [Hpu _]. apply list_elem_of_omap in Hpu as (r & [[Hrt Hrp] Hr]%list_elem_of_filter & Hrpu).
  by exists r, pu.
Qed.

Lemma filter_filter_same {A} (P Q : A → Prop) `{!∀ x, Decision (P x), !∀ x, Decision (Q x)} (l : list A) :
  (∀ x, x ∈ l → P x → Q x) → filter P (filter Q l) = filter P l.
Proof.
  induction l as [|x l IH]; intros Hpq; [done|]. rewrite !filter_cons. destruct (decide (Q x)) as [HQ|HQ].
  - rewrite filter_cons, IH by (intros y Hy; apply Hpq; by right). done.
  - rewrite IH by (intros y Hy; apply Hpq; by right). destruct (decide (P x)) as [HP|]; [|done]. destruct HQ. apply Hpq; [by left|done].
Qed.

(** An open transaction is in none of the four branches. *)
Lemma open_not_eligible l tt pu pa now grace tx b q :
  tx_wf l → 0 < now → 0 ≤ grace → get_tx_status l now tx = Some (Open b q) →
  tx ∉ eligible_txs l tt pu pa now (sat_sub now grace).
Proof.
  intros Hwf Hnow Hg Hs Hel. unfold get_tx_status in Hs. destruct (begin_tx_log l !! tx) as [br|] eqn:Eb; [|done].
  destruct (find_abort l tx) eqn:Ea; [done|]. destruct (find_commit l tx) eqn:Ec; [done|].
  unfold find_abort in Ea. unfold find_commit in Ec. rewrite head_filter_None in Ea. rewrite head_filter_None in Ec.
  destruct (Z.ltb_spec (expires_at_micros br) now) as [|Hexp]; [done|]. clear Hs.
  unfold eligible_txs in Hel. rewrite !elem_of_app in Hel. destruct Hel as [H|[H|[H|H]]].
  - destruct pu; [|by apply not_elem_of_nil in H]. apply list_elem_of_fmap in H as (c & -> & [_ Hc]%list_elem_of_filter). by apply (Ec c).
  - destruct pa; [|by apply not_elem_of_nil in H]. apply list_elem_of_fmap in H as (a & -> & [_ Ha]%list_elem_of_filter). by apply (Ea a).
  - apply list_elem_of_fmap in H as (a & -> & [_ Ha]%list_elem_of_filter). by apply (Ea a).
  - apply list_elem_of_fmap in H as ([tx' br'] & Heq & [(He & _) Hb]%list_elem_of_filter). cbn in *. subst tx'.
    apply elem_of_map_to_list in Hb. rewrite Eb in Hb. injection Hb as <-. revert He. i64.
Qed.

Lemma open_status_kept l tt pu pa now grace tx b q :
  tx_wf l → 0 < now → 0 ≤ grace → get_tx_status l now tx = Some (Open b q) →
  get_tx_status (delete_purge_tx_log_eligible l tt pu pa now grace).1 now tx = Some (Open b q).
Proof.
  intros Hwf Hnow Hg Hs. pose proof (open_not_eligible l tt pu pa now grace tx b q Hwf Hnow Hg Hs) as Hne. rewrite <- Hs.
  unfold get_tx_status, find_abort, find_commit. cbn.
  rewrite !filter_filter_same by (intros x _ <-; done).
  destruct (begin_tx_log l !! tx) as [br|] eqn:E.
  - by rewrite (map_lookup_filter_Some_2 _ _ _ br).
  - by rewrite map_lookup_filter_None_2 by (by left).
Qed.

(** C38 The GC of the transaction logs is invisible.  A pass drops the commit row
    of no hot row any table still holds, so the committed versions of every
    table's hot log are unchanged, on every reachable state and whatever the
    ledger holds; and it leaves every open transaction open, with its snapshot. *)
Theorem gc_invisible {Note} (note_of : Z → Note) {N : LedgerNaming} (Hn : LedgerNamingLaws N)
    (sweep_interval purge_grace : Z) (s : ledger_state Note) (ever : list commit_row)
    (Hr : rtc (ledger_step note_of sweep_interval purge_grace) (empty_ledger, []) (s, ever))
    (now : Z) (Hnow : 0 < now) (Hgrace : 0 ≤ purge_grace)
    (Hclock : ∀ c, c ∈ tx_commit_log (ls_tx s) → ct_commit_micros c ≤ now) :
  let s' := purge_tx_log_locked sweep_interval purge_grace s now in
  (∀ A table (log : list (log_row A)) row_uuids,
     (** a write records the table it touches *)
     (∀ u, u ∈ log → (lr_tx_uuid u, table) ∈ ls_tx_table s) →
     (** a purge has deleted the rows up to its watermark *)
     (∀ u c r pu, u ∈ log → c ∈ tx_commit_log (ls_tx s) → ct_tx_uuid c = lr_tx_uuid u →
        r ∈ ls_purges s → pr_table r = table → purged_by now r → pr_pu r = Some pu → pu < ct_commit_seq_num c) →
     hot_source row_uuids log (tx_commit_log (ls_tx s')) = hot_source row_uuids log (tx_commit_log (ls_tx s))) ∧
  ∀ tx began seq, get_tx_status (ls_tx s) now tx = Some (Open began seq) → get_tx_status (ls_tx s') now tx = Some (Open began seq).
Proof.
  cbv zeta. pose proof (bo_wf note_of _ _ (branch_ok_reachable note_of Hn _ _ _ _ Hr)) as Hwf. unfold purge_tx_log_locked. cbv zeta.
  set (pu := pu_cutoff _). set (pa := pa_cutoff _). set (grace := Z.max _ _). set (cut := committed_cutoff _ _).
  destruct (delete_purge_tx_log_eligible (ls_tx s) (ls_tx_table s) cut pa now grace) as [l tt_] eqn:E. cbn [ls_tx].
  change l with (l, tt_).1. rewrite <- E. split; [|intros tx began seq; apply open_status_kept; [done|done|lia]].
  intros A table log row_uuids Htouch Hpurge. unfold hot_source. apply Forall_bind_ext, Forall_forall. intros u Hu. f_equal. cbn.
  apply list_elem_of_filter in Hu as [_ Hu]. apply filter_filter_same. intros c Hc Heq Hel.
  destruct (eligible_committed _ _ _ _ _ _ _ Hwf Hc Hel) as (p & Hp & Hle).
  assert (∃ p', pu = Some p' ∧ p ≤ p') as (p' & Hp' & Hpp).
  { unfold cut, committed_cutoff in Hp. destruct pu as [p'|]; [|done]. exists p'. split; [done|].
    destruct (tx_log_persist_watermark (ls_cold s)); simplify_eq; lia. }
  destruct (cutoff_purged s now table c p' Hc (Hclock c Hc)) as (r & pw & H1 & H2 & H3 & H4 & H5); [rewrite Heq; by apply Htouch|done|].
  specialize (Hpurge u c r pw Hu Hc Heq H1 H2 H3 H4). lia.
Qed.

(** ** A branch that crashes in a flush, flushes again and is cleaned *)

Module LedgerDemo.

#[export] Instance naming : LedgerNaming := {| tx_log_persist_segment_uuid := λ z, z; tx_log_persist_segment_uri := λ z, z |}.

#[export] Instance naming_laws : LedgerNamingLaws naming.
Proof. by split. Qed.

Definition note (tx : Z) : Z := tx * 10.

Definition ok_logs {A} (l : tx_logs) (r : result ApiError (tx_logs * A)) : tx_logs := match r with Ok p => p.1 | Err _ => l end.

Definition logs1 : tx_logs := ok_logs empty_tx_logs (auto_commit_tx empty_tx_logs 1 101).
Definition logs2 : tx_logs := ok_logs logs1 (begin_tx logs1 2 102 60).
Definition logs3 : tx_logs := ok_logs logs2 (auto_commit_tx logs2 3 103).

Definition ever : list commit_row := [CommitRow 101 1 0; CommitRow 103 3 1].

Definition flushed (faults : nat → fault) (target : Z) (st : ledger_store Z) : ledger_store Z :=
  lw_store (persist_tx_log note faults 4 (tx_commit_log logs3) target {| lw_store := st; lw_tick := 0 |}).1.

(** The process dies before the commit of its segment; the next flush runs. *)
Definition crashed : ledger_store Z := flushed (λ n, if (n =? 6)%nat then Dies else Runs) 0 {| lg_segments := ∅; lg_files := ∅ |}.
Definition purge : purge_row := {| pr_table := 7; pr_pu := Some 0; pr_pa := None; pr_commit_micros := Some 4 |}.

Definition state : ledger_state Z :=
  {| ls_tx := logs3; ls_tx_table := {[(103, 7)]} ∪ ({[(101, 7)]} ∪ ∅); ls_purges := [purge]; ls_cold := flushed (λ _, Runs) 1 crashed |}.

Notation lstep := (ledger_step note 100 50).

Lemma state_reachable : rtc lstep (empty_ledger, []) (state, ever).
Proof.
  eapply rtc_l; [eapply (LTx note 100 50 empty_ledger [] logs1); [|done];
    eapply (StepAutoCommit _ 1 101); [clock|split; [done|split; by intros ? ?%not_elem_of_nil]|reflexivity]|].
  eapply rtc_l; [eapply (LTouch note 100 50 _ _ 101 7)|]. eapply rtc_l; [eapply (LTx note 100 50 _ _ logs2 []); [|done];
    eapply (StepBegin _ 2 102 60); [clock|vm_compute; reflexivity]|].
  eapply rtc_l; [eapply (LTx note 100 50 _ _ logs3); [|vm_compute; reflexivity]; eapply (StepAutoCommit _ 3 103);
    [clock|split; [done|split; intros ?; cbn; [intros ->%list_elem_of_singleton; done|by intros ?%not_elem_of_nil]]|vm_compute; reflexivity]|].
  eapply rtc_l; [eapply (LTouch note 100 50 _ _ 103 7)|].
  eapply rtc_l; [eapply (LFlush note 100 50 _ _ (λ n, if (n =? 6)%nat then Dies else Runs) 4 0)|].
  eapply rtc_l; [eapply (LFlush note 100 50 _ _ (λ _, Runs) 4 1)|].
  eapply rtc_l; [eapply (LPurge note 100 50 _ _ purge); intros _; vm_compute; by eexists|]. apply rtc_refl.
Qed.

Lemma ledger_keeps_commits_witness :
  let s := purge_tx_log_locked 100 50 state 5 in
  cold_ledger crashed = Some [] ∧ tx_commit_log (ls_tx s) = [CommitRow 103 3 1] ∧
  cold_ledger (ls_cold s) = Some [LedgerRow 0 1 1010; LedgerRow 1 3 1030] ∧
  ∀ c, c ∈ ever → 1 < ct_commit_seq_num c → c ∈ tx_commit_log (ls_tx s).
Proof.
  cbv zeta. split; [vm_compute; reflexivity|]. split; [vm_compute; reflexivity|]. split; [vm_compute; reflexivity|].
  pose proof (rtc_r _ _ _ state_reachable (LGc note 100 50 state ever 5)) as Hr.
  exact (proj2 (ledger_keeps_commits note naming_laws 100 50 _ ever Hr)).
Defined.

Lemma flush_covers_target_witness :
  let run := persist_tx_log note (λ _, Runs) 6 (tx_commit_log (ls_tx state)) 1 {| lw_store := ls_cold state; lw_tick := 0 |} in
  run.2 = Returns tt ∧
  ∃ rows, cold_ledger (lw_store run.1) = Some rows ∧ ∀ c, c ∈ ever → ct_commit_seq_num c ≤ 1 → ledger_row_of note c ∈ rows.
Proof.
  destruct (flush_covers_target note naming_laws 100 50 state ever state_reachable 6 1) as [H1 H2].
  cbv zeta. split; [exact H2|]. apply H1, H2.
Defined.

(** The hot rows after the purge: the first transaction's are gone. *)
Definition hot_log : list (log_row Z) := [LogRow 2 8 103 0 80].

Lemma gc_invisible_witness :
  let s' := purge_tx_log_locked 100 50 state 5 in
  hot_source None hot_log (tx_commit_log (ls_tx s')) = [SrcRow 8 80 3 0 1] ∧
  get_tx_status (ls_tx s') 5 102 = Some (Open 2 1).
Proof.
  assert (∀ c, c ∈ tx_commit_log (ls_tx state) → ct_commit_micros c ≤ 5) as Hclock.
  { intros c Hc. change (c ∈ ever) in Hc. unfold ever in Hc. rewrite !elem_of_cons in Hc. destruct Hc as [->|[->|Hc]]; [cbn; lia..|]. by apply not_elem_of_nil in Hc. }
  destruct (gc_invisible note naming_laws 100 50 state ever state_reachable 5 ltac:(lia) ltac:(lia) Hclock) as [H1 H2].
  cbv zeta. split.
  - rewrite (H1 _ 7 hot_log None); [vm_compute; reflexivity|..].
    + intros u ->%list_elem_of_singleton. by apply (bool_decide_unpack _).
    + intros u c r pu ->%list_elem_of_singleton Hc Heq ->%list_elem_of_singleton _ _ [= <-]. change (c ∈ ever) in Hc. unfold ever in Hc. rewrite !elem_of_cons in Hc.
      destruct Hc as [->|[->|Hc]]; [done|cbn; lia|]. by apply not_elem_of_nil in Hc.
  - apply H2. vm_compute. reflexivity.
Defined.

End LedgerDemo.
