(* ===== verification/ForkPoint.v ===== *)
(** * Fork points (penca-api/src/query/mod.rs, penca-api/src/write/mod.rs)

    [resolve_fork_watermark]: a fork point, given as a sequence number, as a
    clock value or as nothing for the head, is resolved to a commit of the
    source branch, first in the hot commit log and then in the cold ledger,
    of which one segment is read. *)

From S2P Require Import Prelude Watermarks ReadSnapshot Dialect MergeSql IndexSelect Effects TxLog TxLedger.
From stdpp Require Import base numbers list option sets gmap sorting.

Open Scope Z_scope.
Open Scope result_scope.

Inductive ForkPoint := CommitSeqNum (seq : Z) | CommitMicros (micros : Z).

Record Watermark := { wm_commit_seq_num : Z; wm_commit_micros : Z }.

#[export] Instance Watermark_eq_dec : EqDecision Watermark.
Proof. solve_decision. Defined.

Definition watermark_of (c : commit_row) : Watermark :=
  {| wm_commit_seq_num := ct_commit_seq_num c; wm_commit_micros := ct_commit_micros c |}.

(** The condition of the SQL statements and of the scan: the position itself,
    anything at or before a clock value, anything at all for the head. *)
Definition point_matches (fork_point : option ForkPoint) (seq micros : Z) : bool :=
  match fork_point with
  | Some (CommitSeqNum k) => seq =? k
  | Some (CommitMicros t) => micros <=? t
  | None => true
  end.

(** ** The hot half *)

(** [ORDER BY commit_seq_num DESC] *)
Definition seq_desc (x y : commit_row) : Prop := ct_commit_seq_num y ≤ ct_commit_seq_num x.

#[export] Instance seq_desc_dec : RelDecision seq_desc.
Proof. intros x y. unfold seq_desc. apply _. Defined.

Definition resolve_committed_tx_from_hot (clog : list commit_row) (fork_point : option ForkPoint) : option Watermark :=
  watermark_of <$>
  match fork_point with
  | Some (CommitSeqNum seq) => head (filter (λ c, ct_commit_seq_num c = seq) clog)
  | Some (CommitMicros micros) => head (merge_sort seq_desc (filter (λ c, ct_commit_micros c ≤ micros) clog))
  | None => head (merge_sort seq_desc clog)
  end.

(** ** The cold half *)

Section cold.
Context {Note : Type}.
Implicit Types (st : ledger_store Note).

(** [iter().find] *)
Fixpoint find_segment (p : TxLogSegment → bool) (segments : list (Z * TxLogSegment)) : option TxLogSegment :=
  match segments with
  | [] => None
  | s :: rest => if p s.2 then Some s.2 else find_segment p rest
  end.

(** The one segment that can hold the answer. *)
Definition candidate_segment (segments : list (Z * TxLogSegment)) (fork_point : option ForkPoint) : option TxLogSegment :=
  match fork_point with
  | Some (CommitSeqNum k) => find_segment (λ s, (tl_min_commit_seq_num s <=? k) && (k <=? tl_max_commit_seq_num s)) segments
  | Some (CommitMicros t) => find_segment (λ s, tl_min_commit_micros s <=? t) (reverse segments)
  | None => snd <$> last segments
  end.

Definition seek_step (fork_point : option ForkPoint) (best : option Watermark) (r : ledger_row Note) : option Watermark :=
  if point_matches fork_point (lg_seq r) (lg_micros r)
     && match best with None => true | Some b => wm_commit_seq_num b <? lg_seq r end
  then Some {| wm_commit_seq_num := lg_seq r; wm_commit_micros := lg_micros r |}
  else best.

Definition seek_committed_tx_in_batches (rows : list (ledger_row Note)) (fork_point : option ForkPoint) : option Watermark :=
  foldl (seek_step fork_point) None rows.

Definition resolve_committed_tx_from_cold st (fork_point : option ForkPoint) : result ApiError (option Watermark) :=
  match candidate_segment (read_committed_tx_log_segments st) fork_point with
  | None => Ok None
  | Some segment =>
      match read_ledger_segment st segment with
      | None => Err ColdStorage
      | Some rows => Ok (seek_committed_tx_in_batches rows fork_point)
      end
  end.

(** Hot first; a miss may only mean the row was collected. *)
Definition resolve_committed_tx (clog : list commit_row) st (fork_point : option ForkPoint) :
    result ApiError (option Watermark) :=
  match resolve_committed_tx_from_hot clog fork_point with
  | Some w => Ok (Some w)
  | None => resolve_committed_tx_from_cold st fork_point
  end.

Definition resolve_fork_watermark (clog : list commit_row) st (fork_point : option ForkPoint) : result ApiError Watermark :=
  let? found := resolve_committed_tx clog st fork_point in
  match found with Some w => Ok w | None => Err InvalidRequest end.

End cold.
