(* ===== verification/ForkPointTheorems.v ===== *)
(** * A fork point resolves to the commit it names

    Over every history of a branch, cleaned by the GC or not, the hot-then-cold
    resolution answers as a scan of all commits ever made would. *)

From S2P Require Import Prelude Watermarks ReadSnapshot Dialect MergeSql IndexSelect Effects TxLog TxLedger TxLedgerInv TxLedgerTheorems ForkPoint.
From stdpp Require Import base numbers list option sets gmap sorting.

Open Scope Z_scope.

(** [c] is the latest commit of [l] the fork point matches. *)
Definition named_by (fork_point : option ForkPoint) (l : list commit_row) (c : commit_row) : Prop :=
  c ∈ l ∧ point_matches fork_point (ct_commit_seq_num c) (ct_commit_micros c) = true ∧
  ∀ c', c' ∈ l → point_matches fork_point (ct_commit_seq_num c') (ct_commit_micros c') = true →
    ct_commit_seq_num c' ≤ ct_commit_seq_num c.

(** ** The hot half *)

Lemma head_desc (l : list commit_row) c :
  head (merge_sort seq_desc l) = Some c → c ∈ l ∧ ∀ c', c' ∈ l → ct_commit_seq_num c' ≤ ct_commit_seq_num c.
Proof.
  assert (Transitive seq_desc) by (intros x y z; unfold seq_desc; lia).
  assert (Total seq_desc) by (intros x y; unfold seq_desc; lia).
  pose proof (StronglySorted_merge_sort seq_desc l) as Hs. intros Hh.
  assert (∀ x, x ∈ l ↔ x ∈ merge_sort seq_desc l) as Hel by (intros x; by rewrite merge_sort_Permutation).
  destruct (merge_sort seq_desc l) as [|x k]; simplify_eq/=. apply StronglySorted_inv in Hs as [_ Hall]. rewrite Forall_forall in Hall.
  split; [apply Hel; by left|]. intros c' [->|Hc']%Hel%elem_of_cons; [lia|]. by apply Hall.
Qed.

Lemma head_none (l : list commit_row) : head (merge_sort seq_desc l) = None → l = [].
Proof.
  intros Hh. pose proof (merge_sort_Permutation seq_desc l) as Hp. destruct (merge_sort seq_desc l); [|done]. by apply Permutation_nil_l in Hp.
Qed.

Lemma hot_resolves_named clog fp w :
  resolve_committed_tx_from_hot clog fp = Some w → ∃ c, named_by fp clog c ∧ w = watermark_of c.
Proof.
  unfold resolve_committed_tx_from_hot, named_by. rewrite fmap_Some. intros (c & Hc & ->). exists c. split; [|done].
  destruct fp as [[k|t]|]; cbn.
  - apply head_Some_elem_of in Hc as [Hk Hc]%list_elem_of_filter. rewrite Z.eqb_eq. split_and!; [done..|]. intros c' _. lia.
  - apply head_desc in Hc as [[Ht Hc]%list_elem_of_filter Hle]. rewrite Z.leb_le. split_and!; [done..|].
    intros c' Hc' Ht'%Z.leb_le. apply Hle. by apply list_elem_of_filter.
  - apply head_desc in Hc as [Hc Hle]. auto.
Qed.

Lemma hot_misses clog fp c :
  resolve_committed_tx_from_hot clog fp = None → c ∈ clog →
  point_matches fp (ct_commit_seq_num c) (ct_commit_micros c) = true → False.
Proof.
  unfold resolve_committed_tx_from_hot. rewrite fmap_None. destruct fp as [[k|t]|]; cbn; intros Hh Hc Hm.
  - rewrite head_filter_None in Hh. apply (Hh c Hc). by apply Z.eqb_eq.
  - apply head_none in Hh. assert (c ∈ filter (λ c, ct_commit_micros c ≤ t) clog) as Hin by (apply list_elem_of_filter; by apply Z.leb_le in Hm).
    rewrite Hh in Hin. by apply not_elem_of_nil in Hin.
  - apply head_none in Hh. subst. by apply not_elem_of_nil in Hc.
Qed.

(** ** The scan of one segment *)

Section seek.
Context {Note : Type} (fp : option ForkPoint).

Definition row_matches (r : ledger_row Note) : Prop := point_matches fp (lg_seq r) (lg_micros r) = true.
Definition row_mark (r : ledger_row Note) : Watermark := {| wm_commit_seq_num := lg_seq r; wm_commit_micros := lg_micros r |}.

(** The running best is the greatest match so far. *)
Definition best_of (best : option Watermark) (seen : list (ledger_row Note)) : Prop :=
  match best with
  | None => ∀ r, r ∈ seen → ¬ row_matches r
  | Some b => (∃ r, r ∈ seen ∧ row_matches r ∧ b = row_mark r) ∧ ∀ r, r ∈ seen → row_matches r → lg_seq r ≤ wm_commit_seq_num b
  end.

Lemma seek_step_best best seen r : best_of best seen → best_of (seek_step fp best r) (seen ++ [r]).
Proof.
  intros Hb. unfold seek_step. destruct (point_matches fp (lg_seq r) (lg_micros r)) eqn:Em; cbn.
  - destruct best as [b|]; cbn in Hb |- *.
    + destruct Hb as [(r0 & Hr0 & Hm0 & ->) Hle]. destruct (Z.ltb_spec (wm_commit_seq_num (row_mark r0)) (lg_seq r)) as [Hlt|Hge]; cbn in *.
      * split; [exists r; split_and!; [apply elem_of_app; right; by left|done|done]|].
        intros r' [Hr'| ->%list_elem_of_singleton]%elem_of_app Hm'; [specialize (Hle r' Hr' Hm')|]; cbn in *; lia.
      * split; [exists r0; split_and!; [apply elem_of_app; by left|done|done]|].
        intros r' [Hr'| ->%list_elem_of_singleton]%elem_of_app Hm'; [by apply Hle|cbn; lia].
    + split; [exists r; split_and!; [apply elem_of_app; right; by left|done|done]|].
      intros r' [Hr'| ->%list_elem_of_singleton]%elem_of_app Hm'; [by destruct (Hb r' Hr')|cbn; lia].
  - destruct best as [b|]; cbn in Hb |- *.
    + destruct Hb as [(r0 & Hr0 & Hm0 & ->) Hle]. split; [exists r0; split_and!; [apply elem_of_app; by left|done|done]|].
      intros r' [Hr'| ->%list_elem_of_singleton]%elem_of_app Hm'; [by apply Hle|]. unfold row_matches in Hm'. congruence.
    + intros r' [Hr'| ->%list_elem_of_singleton]%elem_of_app; [by apply Hb|]. unfold row_matches. congruence.
Qed.

Lemma seek_best rows : best_of (seek_committed_tx_in_batches rows fp) rows.
Proof.
  unfold seek_committed_tx_in_batches. assert (best_of None ([] : list (ledger_row Note))) as Hb by (intros r ?%not_elem_of_nil; done).
  change rows with ([] ++ rows) at 2. revert Hb. generalize (None : option Watermark), ([] : list (ledger_row Note)).
  induction rows as [|r rows IH]; intros best seen Hb; cbn; [by rewrite app_nil_r|].
  rewrite (cons_middle r seen rows). rewrite app_assoc. by apply IH, seek_step_best.
Qed.
End seek.

(** ** The cold half *)

Lemma find_segment_Some p segs g : find_segment p segs = Some g →
  ∃ pre u post, segs = pre ++ (u, g) :: post ∧ p g = true ∧ ∀ q, q ∈ pre → p q.2 = false.
Proof.
  induction segs as [|[u h] segs IH]; cbn; [done|]. destruct (p h) eqn:E.
  - intros [= ->]. exists [], u, segs. split_and!; [done..|]. by intros q ?%not_elem_of_nil.
  - intros (pre & v & post & -> & Hp & Hpre)%IH. exists ((u, h) :: pre), v, post. split_and!; [done..|].
    by intros q [->|Hq]%elem_of_cons; [|apply Hpre].
Qed.

Lemma find_segment_None p segs : find_segment p segs = None → ∀ q, q ∈ segs → p q.2 = false.
Proof.
  induction segs as [|[u h] segs IH]; cbn; [intros _ q ?%not_elem_of_nil; done|]. destruct (p h) eqn:E; [done|].
  intros Hf q [->|Hq]%elem_of_cons; [done|by apply IH].
Qed.

Section cold.
Context {Note : Type} (note_of : Z → Note) {N : LedgerNaming} (ever : list commit_row) (st : ledger_store Note).
Context (Hok : ledger_ok note_of ever st) (Hclock : StronglySorted commit_lt ever) (fp : option ForkPoint).
Notation segments := (read_committed_tx_log_segments st).

Lemma segment_committed u g : (u, g) ∈ segments ↔ committed_ledger st !! u = Some g.
Proof using. unfold read_committed_tx_log_segments. rewrite merge_sort_Permutation. apply elem_of_map_to_list. Qed.

Lemma segment_row u g rows r :
  committed_ledger st !! u = Some g → read_ledger_segment st g = Some rows → r ∈ rows →
  ∃ c, c ∈ ever ∧ r = ledger_row_of note_of c ∧ row_bounded g r.
Proof using Hok.
  intros Hg Hrows Hr. destruct (lk_files _ _ _ Hok _ _ Hg) as (rows' & Hrows' & Hb). simplify_eq.
  assert (r ∈ concat (rows_of st <$> map_to_list (committed_ledger st))) as Hin.
  { apply elem_of_concat. exists rows. split; [|done]. apply list_elem_of_fmap. exists (u, g). split; [unfold rows_of; cbn; by rewrite Hrows|].
    by apply elem_of_map_to_list. }
  rewrite (lk_rows _ _ _ Hok) in Hin. apply list_elem_of_fmap in Hin as (c & -> & [_ Hc]%list_elem_of_filter). exists c. auto.
Qed.

Lemma commit_segment c : c ∈ ever → ct_commit_seq_num c ≤ ledger_mark st →
  ∃ u g rows, committed_ledger st !! u = Some g ∧ read_ledger_segment st g = Some rows ∧ ledger_row_of note_of c ∈ rows ∧
    row_bounded g (ledger_row_of note_of c).
Proof using Hok.
  intros Hc Hm. assert (ledger_row_of note_of c ∈ concat (rows_of st <$> map_to_list (committed_ledger st))) as Hin.
  { rewrite (lk_rows _ _ _ Hok). apply list_elem_of_fmap. exists c. split; [done|]. by apply list_elem_of_filter. }
  apply elem_of_concat in Hin as (rows & ([u g] & -> & Hg)%list_elem_of_fmap & Hr). apply elem_of_map_to_list in Hg.
  destruct (lk_files _ _ _ Hok _ _ Hg) as (rows & Hrows & Hb). unfold rows_of in Hr. cbn in Hr. rewrite Hrows in Hr. cbn in Hr.
  exists u, g, rows. auto.
Qed.

(** A later segment holds a later commit, at its earliest clock. *)
Lemma later_commit pre u g post v h :
  segments = pre ++ (u, g) :: post → (v, h) ∈ post →
  ∃ c, c ∈ ever ∧ ct_commit_micros c = tl_min_commit_micros h ∧ tl_max_commit_seq_num g < ct_commit_seq_num c.
Proof using Hok.
  intros Hs Hv. assert (committed_ledger st !! u = Some g) as Hg by (apply segment_committed; rewrite Hs; apply elem_of_app; right; by left).
  assert (committed_ledger st !! v = Some h) as Hh by (apply segment_committed; rewrite Hs; apply elem_of_app; right; by right).
  assert (tl_min_commit_seq_num g ≤ tl_min_commit_seq_num h) as Hle.
  { assert (Total ledger_order) by (intros x y; unfold ledger_order; lia). assert (Transitive ledger_order) by (intros x y z; unfold ledger_order; lia).
    pose proof (StronglySorted_merge_sort ledger_order (map_to_list (committed_ledger st))) as Hso. fold segments in Hso. rewrite Hs in Hso.
    apply StronglySorted_app_1_r in Hso. apply StronglySorted_inv in Hso as [_ Hall]. rewrite Forall_forall in Hall. by apply (Hall (v, h)). }
  destruct (lk_files _ _ _ Hok _ _ Hh) as (rows & Hrows & _). destruct (lk_tight _ _ _ Hok _ _ _ Hh Hrows) as (r & Hr & Hm).
  destruct (segment_row _ _ _ _ Hh Hrows Hr) as (c & Hc & -> & [Hb _]). exists c. split_and!; [done..|]. cbn in *.
  destruct (lk_apart _ _ _ Hok _ _ _ _ Hg Hh) as [->|[?|?]]; [|lia|].
  - exfalso. assert (NoDup (segments.*1)) as Hnd.
    { unfold read_committed_tx_log_segments. rewrite merge_sort_Permutation. apply NoDup_fst_map_to_list. }
    rewrite Hs, fmap_app, NoDup_app, fmap_cons, NoDup_cons in Hnd. destruct Hnd as (_ & _ & Hn & _). apply Hn. cbn.
    by apply (list_elem_of_fmap_2 fst _ (v, h)).
  - pose proof (segment_row _ _ _ _ Hh Hrows Hr) as (_ & _ & _ & [Hb' _]). cbn in Hb'. lia.
Qed.

(** A segment before another one holds no latest match of a clock the other
    starts at. *)
Lemma earlier_beaten l1 v h l2 u g c t :
  segments = l1 ++ (v, h) :: l2 → (u, g) ∈ l1 → ct_commit_seq_num c ≤ tl_max_commit_seq_num g →
  (tl_min_commit_micros h ≤ t) → (∀ c', c' ∈ ever → ct_commit_micros c' ≤ t → ct_commit_seq_num c' ≤ ct_commit_seq_num c) → False.
Proof using Hok.
  intros Hs (k1 & k2 & ->)%list_elem_of_split Hc Ht Hmax. rewrite <- app_assoc in Hs.
  destruct (later_commit k1 u g (k2 ++ (v, h) :: l2) v h) as (c' & Hc' & Hm & Hlt); [done|apply elem_of_app; right; by left|].
  specialize (Hmax c' Hc'). lia.
Qed.

Lemma candidate_found c :
  named_by fp ever c → ct_commit_seq_num c ≤ ledger_mark st →
  ∃ u g rows, committed_ledger st !! u = Some g ∧ candidate_segment segments fp = Some g ∧
    read_ledger_segment st g = Some rows ∧ ledger_row_of note_of c ∈ rows.
Proof using Hok.
  intros (Hc & Hm & Hmax) Hmark. destruct (commit_segment c Hc Hmark) as (u & g & rows & Hg & Hrows & Hr & [Hbs Hbm]). cbn in Hbs, Hbm.
  exists u, g, rows. split_and!; [done| |done|done]. pose proof (proj2 (segment_committed u g) Hg) as Hin.
  destruct fp as [[k|t]|]; cbn in *.
  - apply Z.eqb_eq in Hm. destruct (find_segment _ segments) as [g'|] eqn:Ef.
    + apply find_segment_Some in Ef as (pre & v & post & Hs & Hp & _). apply andb_prop in Hp as [H1%Z.leb_le H2%Z.leb_le].
      assert (committed_ledger st !! v = Some g') as Hg' by (apply segment_committed; rewrite Hs; apply elem_of_app; right; by left).
      destruct (lk_apart _ _ _ Hok _ _ _ _ Hg Hg') as [->|[?|?]]; [congruence|lia..].
    + pose proof (find_segment_None _ _ Ef _ Hin) as Hf. cbn in Hf. apply andb_false_iff in Hf as [Hf%Z.leb_gt|Hf%Z.leb_gt]; lia.
  - apply Z.leb_le in Hm. destruct (find_segment _ (reverse segments)) as [g'|] eqn:Ef.
    + apply find_segment_Some in Ef as (pre & v & post & Hs & Hp%Z.leb_le & Hpre). apply (f_equal reverse) in Hs.
      rewrite reverse_involutive, reverse_app, reverse_cons in Hs. rewrite <- app_assoc in Hs. cbn in Hs.
      rewrite Hs in Hin. apply elem_of_app in Hin as [Hin|[[= -> ->]|Hin]%elem_of_cons]; [|done|].
      * exfalso. eapply (earlier_beaten (reverse post) v g' (reverse pre) u g c t); [done..|lia|done|]. intros c' Hc' Ht'. apply Hmax; [done|by apply Z.leb_le].
      * rewrite elem_of_reverse in Hin. specialize (Hpre _ Hin). cbn in Hpre. apply Z.leb_gt in Hpre. lia.
    + assert ((u, g) ∈ reverse segments) as Hin' by by rewrite elem_of_reverse.
      pose proof (find_segment_None _ _ Ef _ Hin') as Hf. cbn in Hf. apply Z.leb_gt in Hf. lia.
  - destruct (last segments) as [[v g']|] eqn:El; cbn.
    + apply last_Some in El as (l & Hs). rewrite Hs in Hin. apply elem_of_app in Hin as [Hin|[= -> ->]%list_elem_of_singleton]; [|done].
      exfalso. eapply (earlier_beaten l v g' [] u g c (tl_min_commit_micros g')); [done..|lia|lia|]. intros c' Hc' _. by apply Hmax.
    + apply last_None in El. rewrite El in Hin. by apply not_elem_of_nil in Hin.
Qed.

Lemma cold_finds c :
  named_by fp ever c → ct_commit_seq_num c ≤ ledger_mark st →
  resolve_committed_tx_from_cold st fp = Ok (Some (watermark_of c)).
Proof using Hok Hclock.
  intros Hn Hmark. destruct (candidate_found c Hn Hmark) as (u & g & rows & Hg & Hcand & Hrows & Hr). destruct Hn as (Hc & Hm & Hmax).
  unfold resolve_committed_tx_from_cold. rewrite Hcand, Hrows. do 2 f_equal.
  pose proof (seek_best fp rows) as Hb. destruct (seek_committed_tx_in_batches rows fp) as [b|]; cbn in Hb.
  - destruct Hb as [(r & Hr' & Hm' & ->) Hle]. destruct (segment_row _ _ _ _ Hg Hrows Hr') as (c' & Hc' & -> & _).
    specialize (Hle _ Hr Hm). specialize (Hmax c' Hc' Hm'). cbn in *.
    assert (c' = c) as -> by (apply (commit_lt_inj ever c' c Hclock Hc' Hc); lia). done.
  - by destruct (Hb _ Hr).
Qed.

Lemma cold_misses :
  (∀ c, c ∈ ever → point_matches fp (ct_commit_seq_num c) (ct_commit_micros c) = false) →
  resolve_committed_tx_from_cold st fp = Ok None.
Proof using Hok.
  intros Hno. unfold resolve_committed_tx_from_cold. destruct (candidate_segment segments fp) as [g|] eqn:Ec; [|done].
  assert (∃ u, (u, g) ∈ segments) as (u & Hg%segment_committed).
  { unfold candidate_segment in Ec. destruct fp as [[k|t]|].
    - apply find_segment_Some in Ec as (pre & u & post & -> & _). exists u. apply elem_of_app. right. by left.
    - apply find_segment_Some in Ec as (pre & u & post & Hs & _). exists u. rewrite <- elem_of_reverse, Hs. apply elem_of_app. right. by left.
    - apply fmap_Some in Ec as ([u h] & Hl & ->). exists u. by apply last_Some_elem_of. }
  destruct (lk_files _ _ _ Hok _ _ Hg) as (rows & Hrows & _). rewrite Hrows. do 2 f_equal.
  pose proof (seek_best fp rows) as Hb. destruct (seek_committed_tx_in_batches rows fp) as [b|]; [|done]. cbn in Hb. exfalso.
  destruct Hb as [(r & Hr & Hm & _) _]. destruct (segment_row _ _ _ _ Hg Hrows Hr) as (c & Hc & -> & _). specialize (Hno c Hc).
  unfold row_matches in Hm. cbn in Hm. congruence.
Qed.
End cold.

(** ** The hot log is the tail of the history *)

Section suffix.
Context {Note : Type} (note_of : Z → Note) {N : LedgerNaming} (Hn : LedgerNamingLaws N) (sweep_interval purge_grace : Z).

Definition hot_tail (s : ledger_state Note) (ever : list commit_row) : Prop :=
  ∃ cut, cut < commit_tx_log_seq_num (ls_tx s) ∧ ∀ c, c ∈ ever → c ∈ tx_commit_log (ls_tx s) ↔ cut < ct_commit_seq_num c.

Lemma hot_tail_tx s ever l k :
  tx_wf (ls_tx s) → hot_tail s ever → tx_step (ls_tx s) l → tx_commit_log l = tx_commit_log (ls_tx s) ++ k → StronglySorted Z.lt (ct_commit_seq_num <$> ever ++ k) →
  hot_tail {| ls_tx := l; ls_tx_table := ls_tx_table s; ls_purges := ls_purges s; ls_cold := ls_cold s |} (ever ++ k).
Proof.
  intros Hwf (cut & Hcut & Hel) Hst Hk Hs. destruct (tx_step_grows _ _ Hst) as (_ & _ & Hcnt & _). exists cut. cbn. split; [lia|].
  intros c. rewrite Hk, !elem_of_app. intros Hc. destruct (one_commit _ _ _ Hwf Hst Hk) as [->|(c0 & -> & Hc0 & _)].
  - destruct Hc as [Hc|?%not_elem_of_nil]; [|done]. rewrite <- (Hel c Hc). split; [intros [?|?%not_elem_of_nil]; done|by left].
  - destruct Hc as [Hc| ->%list_elem_of_singleton]; [|split; [lia|intros _; right; by left]].
    rewrite <- (Hel c Hc). split; [|by left]. intros [?| ->%list_elem_of_singleton]; [done|]. exfalso.
    rewrite fmap_app in Hs. assert (ct_commit_seq_num c0 < ct_commit_seq_num c0); [|lia].
    eapply (StronglySorted_app_1_elem_of _ _ _ _ _ Hs); [by apply list_elem_of_fmap_2|by left].
Qed.

Lemma eligible_below l tt_ p pa started bound c :
  c ∈ tx_commit_log l → ct_commit_seq_num c ≤ p → ct_tx_uuid c ∈ eligible_txs l tt_ (Some p) pa started bound.
Proof.
  intros Hc Hle. unfold eligible_txs. apply elem_of_app. left. apply list_elem_of_fmap. exists c. split; [done|]. by apply list_elem_of_filter.
Qed.

Lemma hot_tail_gc s ever now :
  branch_ok note_of s ever → hot_tail s ever → hot_tail (purge_tx_log_locked sweep_interval purge_grace s now) ever.
Proof.
  intros Hok (cut & Hcut & Hel). pose proof (mark_below note_of _ _ Hok) as Hmk. pose proof (λ p, cutoff_covered note_of s ever now p Hok) as Hcov.
  unfold purge_tx_log_locked. cbv zeta. set (cu := committed_cutoff _ _) in *. set (pa := pa_cutoff _). set (grace := Z.max _ _).
  destruct (delete_purge_tx_log_eligible (ls_tx s) (ls_tx_table s) cu pa now grace) as [l tt_] eqn:E. injection E as <- <-.
  exists (match cu with Some p => Z.max cut p | None => cut end). cbn. split.
  { destruct cu as [p|]; [|done]. specialize (Hcov p eq_refl). lia. }
  intros c Hc. rewrite list_elem_of_filter, (Hel c Hc). split.
  - intros [Hne Hlt]. destruct cu as [p|]; [|done]. destruct (decide (ct_commit_seq_num c ≤ p)); [|lia]. destruct Hne.
    apply eligible_below; [by apply Hel|done].
  - intros Hlt. assert (cut < ct_commit_seq_num c) as Hcl by (destruct cu; lia). split; [|done].
    intros (p & -> & Hle)%eligible_committed; [lia|apply Hok|by apply Hel].
Qed.

Lemma hot_tail_step x y :
  ledger_step note_of sweep_interval purge_grace x y → branch_ok note_of x.1 x.2 → branch_ok note_of y.1 y.2 → hot_tail x.1 x.2 → hot_tail y.1 y.2.
Proof.
  intros Hst Hok Hok' Ht. destruct Hst as [s ever l k Hl Hk|s ever tx t|s ever faults now target|s ever r Hr|s ever now]; cbn [fst snd] in *; try exact Ht.
  - apply hot_tail_tx; [apply Hok|done..|apply (bo_ever _ _ _ Hok')].
  - by apply hot_tail_gc.
Qed.

Lemma hot_tail_reachable s ever :
  rtc (ledger_step note_of sweep_interval purge_grace) (empty_ledger, []) (s, ever) → hot_tail s ever.
Proof using Hn.
  intros Hr. change (hot_tail (s, ever).1 (s, ever).2). set (x0 := (empty_ledger, [])) in Hr.
  assert (branch_ok note_of x0.1 x0.2) as Hs by apply branch_ok_start.
  assert (hot_tail x0.1 x0.2) as Ht by (exists (-1); split; [done|by intros c ?%not_elem_of_nil]). clearbody x0. revert Hs Ht.
  induction Hr as [x|x y z Hxy _ IH]; [done|]. intros Hx Ht. pose proof (branch_ok_step note_of Hn _ _ _ _ Hxy Hx). apply IH; [done|]. by eapply hot_tail_step.
Qed.
End suffix.

Lemma named_or_none fp (l : list commit_row) :
  (∃ c, named_by fp l c) ∨ ∀ c, c ∈ l → point_matches fp (ct_commit_seq_num c) (ct_commit_micros c) = false.
Proof.
  induction l as [|c l IH]; [right; by intros c ?%not_elem_of_nil|].
  destruct (point_matches fp (ct_commit_seq_num c) (ct_commit_micros c)) eqn:Em; destruct IH as [(b & Hb & Hm & Hmax)|Hno].
  - left. destruct (decide (ct_commit_seq_num b ≤ ct_commit_seq_num c)) as [Hle|Hgt].
    + exists c. split_and!; [by left|done|]. intros c' [->|Hc']%elem_of_cons Hm'; [lia|]. specialize (Hmax c' Hc' Hm'). lia.
    + exists b. split_and!; [by right|done|]. intros c' [->|Hc']%elem_of_cons Hm'; [lia|]. by apply Hmax.
  - left. exists c. split_and!; [by left|done|]. intros c' [->|Hc']%elem_of_cons Hm'; [lia|]. rewrite Hno in Hm' by done. done.
  - left. exists b. split_and!; [by right|done|]. intros c' [->|Hc']%elem_of_cons Hm'; [congruence|]. by apply Hmax.
  - right. intros c' [->|Hc']%elem_of_cons; [done|by apply Hno].
Qed.

(** C24 A fork point is resolved exactly.  Over every interleaving of transactions,
    flushes cut short anywhere, purges and GC passes under a clock that does not
    run back, a sequence number, a clock value or the head resolves to the latest
    commit it names of all commits ever made on the branch, read from the hot log
    or from one segment of the cold ledger; a point that names none is rejected. *)
Theorem fork_point_exact {Note} (note_of : Z → Note) {N : LedgerNaming} (Hn : LedgerNamingLaws N)
    (sweep_interval purge_grace : Z) (s : ledger_state Note) (ever : list commit_row)
    (Hr : rtc (ledger_step note_of sweep_interval purge_grace) (empty_ledger, []) (s, ever))
    (Hclock : StronglySorted commit_lt ever) (fork_point : option ForkPoint) :
  (∃ c, named_by fork_point ever c ∧
     resolve_fork_watermark (tx_commit_log (ls_tx s)) (ls_cold s) fork_point = Ok (watermark_of c)) ∨
  (∀ c, c ∈ ever → point_matches fork_point (ct_commit_seq_num c) (ct_commit_micros c) = false) ∧
    resolve_fork_watermark (tx_commit_log (ls_tx s)) (ls_cold s) fork_point = Err InvalidRequest.
Proof.
  pose proof (branch_ok_reachable note_of Hn _ _ _ _ Hr) as Hok. pose proof (hot_tail_reachable note_of Hn _ _ _ _ Hr) as (cut & _ & Htail).
  pose proof (fi_ok _ _ _ _ _ _ (bo_flush _ _ _ Hok)) as Hl. unfold resolve_fork_watermark, resolve_committed_tx.
  destruct (resolve_committed_tx_from_hot (tx_commit_log (ls_tx s)) fork_point) as [w|] eqn:Eh.
  - left. apply hot_resolves_named in Eh as (c & (Hc & Hm & Hmax) & ->). exists c. split; [|done].
    pose proof (bo_hot _ _ _ Hok c Hc) as Hce. split_and!; [done..|]. intros c' Hc' Hm'.
    destruct (decide (cut < ct_commit_seq_num c')) as [Hlt|Hge]; [apply Hmax; [by apply Htail|done]|]. apply Htail in Hc; [lia|done].
  - destruct (named_or_none fork_point ever) as [(c & Hnc)|Hno].
    + left. exists c. split; [done|]. rewrite (cold_finds note_of ever _ Hl Hclock fork_point c Hnc); [done|]. destruct Hnc as (Hc & Hm & _).
      destruct (decide (ct_commit_seq_num c ≤ ledger_mark (ls_cold s))) as [|Hgt]; [done|]. exfalso.
      apply (hot_misses _ _ c Eh); [|done]. apply (fi_tail _ _ _ _ _ _ (bo_flush _ _ _ Hok)); [done|lia].
    + right. split; [done|]. by rewrite (cold_misses note_of ever _ Hl fork_point Hno).
Qed.

(** ** A branch whose first commit is only in the ledger *)
Module ForkPointDemo.
Import LedgerDemo.

Definition cleaned : ledger_state Z := purge_tx_log_locked 100 50 state 5.

Lemma fork_point_exact_witness :
  tx_commit_log (ls_tx cleaned) = [CommitRow 103 3 1] ∧
  resolve_fork_watermark (tx_commit_log (ls_tx cleaned)) (ls_cold cleaned) (Some (CommitMicros 2)) =
    Ok {| wm_commit_seq_num := 0; wm_commit_micros := 1 |} ∧
  resolve_fork_watermark (tx_commit_log (ls_tx cleaned)) (ls_cold cleaned) (Some (CommitSeqNum 2)) = Err InvalidRequest ∧
  ∃ c, named_by (Some (CommitMicros 2)) ever c ∧
    resolve_fork_watermark (tx_commit_log (ls_tx cleaned)) (ls_cold cleaned) (Some (CommitMicros 2)) = Ok (watermark_of c).
Proof.
  split; [vm_compute; reflexivity|]. split; [vm_compute; reflexivity|]. split; [vm_compute; reflexivity|].
  pose proof (rtc_r _ _ _ state_reachable (LGc note 100 50 state ever 5)) as Hr.
  assert (StronglySorted commit_lt ever) as Hclock by repeat constructor.
  destruct (fork_point_exact note naming_laws 100 50 _ ever Hr Hclock (Some (CommitMicros 2))) as [(c & Hc & He)|[_ He]].
  - exists c. done.
  - exfalso. revert He. vm_compute. discriminate.
Defined.
End ForkPointDemo.
