(* ===== verification/TableStore.v ===== *)
(** * Writes to a table's hot logs (penca-storage-hot/src/data.rs,
      penca-api/src/write/mod.rs)

    The per-(branch, table) upsert and delete logs with their shared write
    sequence, and [write_data]: resolve or auto-commit the transaction, then
    apply the change, deletes first.  A rejected write rolls its database
    transaction back, so it leaves no trace. *)

From S2P Require Import Prelude Watermarks ReadSnapshot Dialect MergeSql Plan IndexSelect TxLog.
From stdpp Require Import base numbers list option sets gmap sorting.

Open Scope Z_scope.
Open Scope result_scope.

Section store.
Context {V : Type}.

(** [version_uuid row tx]: the 128-bit hash of the pair (ADR 0013). *)
Context (version_uuid : Z → Z → Z).

Record table_store := {
  ts_upserts : list (log_row V);
  ts_deletes : list (log_row unit);
  ts_write_sequence : Z;
  ts_tx_table_log : gset Z;
  ts_meta : table_meta V;
}.

Record branch_state := {
  bs_tx : tx_logs;
  bs_table : table_store;
}.

Definition hot_view (st : branch_state) : hot_db V :=
  {| upsert_log := ts_upserts (bs_table st);
     delete_log := ts_deletes (bs_table st);
     commit_tx_log := tx_commit_log (bs_tx st) |}.

(** A change: upserted rows (identity and columns) and deleted identities. *)
Record Change := { ch_upserts : list (Z * V); ch_deletes : list Z }.

(** [ON CONFLICT (version_uuid) DO UPDATE SET <user cols>] *)
Definition update_cols (vu : Z) (v : V) (log : list (log_row V)) : list (log_row V) :=
  (λ u, if decide (lr_version_uuid u = vu)
        then LogRow (lr_version_uuid u) (lr_row_uuid u) (lr_tx_uuid u) (lr_write_seq_num u) v
        else u) <$> log.

(** Rows draw [nextval] whether or not they conflict. *)
Fixpoint insert_upserts (tx : Z) (rows : list (Z * V)) (log : list (log_row V)) (seq : Z) :
    list (log_row V) * Z :=
  match rows with
  | [] => (log, seq)
  | (r, v) :: rest =>
      let vu := version_uuid r tx in
      if decide (vu ∈ lr_version_uuid <$> log)
      then insert_upserts tx rest (update_cols vu v log) (seq + 1)
      else insert_upserts tx rest (log ++ [LogRow vu r tx seq v]) (seq + 1)
  end.

(** [ON CONFLICT (version_uuid) DO NOTHING] *)
Fixpoint insert_deletes (tx : Z) (rows : list Z) (log : list (log_row unit)) (seq : Z) :
    list (log_row unit) * Z :=
  match rows with
  | [] => (log, seq)
  | r :: rest =>
      let vu := version_uuid r tx in
      if decide (vu ∈ lr_version_uuid <$> log)
      then insert_deletes tx rest log (seq + 1)
      else insert_deletes tx rest (log ++ [LogRow vu r tx seq tt]) (seq + 1)
  end.

(** Deletes first; a repeated upsert identity is rejected. *)
Definition apply_change (ts : table_store) (change : Change) (tx : Z) :
    result ApiError table_store :=
  if decide (ch_upserts change = [] ∧ ch_deletes change = []) then Ok ts
  else
    let '(deletes, seq) := insert_deletes tx (ch_deletes change) (ts_deletes ts) (ts_write_sequence ts) in
    if decide (NoDup (fst <$> ch_upserts change)) then
      let '(upserts, seq') := insert_upserts tx (ch_upserts change) (ts_upserts ts) seq in
      Ok {| ts_upserts := upserts; ts_deletes := deletes; ts_write_sequence := seq';
            ts_tx_table_log := {[tx]} ∪ ts_tx_table_log ts; ts_meta := ts_meta ts |}
    else Err InvalidRequest.

Definition write_data (st : branch_state) (now fresh : Z) (request_tx_uuid : option Z)
    (change : option Change) : result ApiError (branch_state * option Z) :=
  let? '(l', (tx, committed)) := resolve_or_auto_commit_tx (bs_tx st) now fresh request_tx_uuid in
  let? ts' := match change with
              | Some ch => apply_change (bs_table st) ch tx
              | None => Ok (bs_table st)
              end in
  Ok ({| bs_tx := l'; bs_table := ts' |}, ct_commit_micros <$> committed).

(** ** The logs after an insert *)

Definition log_unique {A} (log : list (log_row A)) : Prop :=
  ∀ x y, x ∈ log → y ∈ log → lr_row_uuid x = lr_row_uuid y → lr_tx_uuid x = lr_tx_uuid y → x = y.

Definition versions_ok {A} (log : list (log_row A)) : Prop :=
  ∀ x, x ∈ log → lr_version_uuid x = version_uuid (lr_row_uuid x) (lr_tx_uuid x).

(** The hash is collision-free on the pairs it is asked for. *)
Context (version_inj : ∀ r tx r' tx', version_uuid r tx = version_uuid r' tx' → r = r' ∧ tx = tx').

Lemma insert_row_ok {A} (log : list (log_row A)) r tx seq (v : A) :
  log_unique log → versions_ok log → version_uuid r tx ∉ lr_version_uuid <$> log →
  log_unique (log ++ [LogRow (version_uuid r tx) r tx seq v]) ∧
  versions_ok (log ++ [LogRow (version_uuid r tx) r tx seq v]).
Proof using.
  intros Hu Hv Hn. split.
  - intros x y [Hx| ->%list_elem_of_singleton]%elem_of_app [Hy| ->%list_elem_of_singleton]%elem_of_app;
      simpl; [by apply Hu| | |done]; intros Hr Ht; destruct Hn; apply list_elem_of_fmap;
      [exists x|exists y]; (split; [|done]); by rewrite Hv, ?Hr, ?Ht by done.
  - intros x [Hx| ->%list_elem_of_singleton]%elem_of_app; [by apply Hv|done].
Qed.

Lemma update_cols_ok vu v log :
  log_unique log → versions_ok log → log_unique (update_cols vu v log) ∧ versions_ok (update_cols vu v log).
Proof using.
  intros Hu Hv. split.
  - intros x y (x0 & -> & Hx)%list_elem_of_fmap (y0 & -> & Hy)%list_elem_of_fmap Hr Ht.
    assert (x0 = y0) as ->; [|done]. apply Hu; [done|done| |]; repeat case_decide; done.
  - intros x (x0 & -> & Hx)%list_elem_of_fmap. case_decide; simpl; by apply Hv.
Qed.

Lemma insert_upserts_ok tx rows : ∀ log seq,
  log_unique log → versions_ok log →
  log_unique (insert_upserts tx rows log seq).1 ∧ versions_ok (insert_upserts tx rows log seq).1 ∧
  ∀ x, lr_tx_uuid x ≠ tx → x ∈ (insert_upserts tx rows log seq).1 ↔ x ∈ log.
Proof using version_inj.
  induction rows as [|[r v] rows IH]; intros log seq Hu Hv; simpl; [done|]. case_decide as Hc.
  - destruct (update_cols_ok (version_uuid r tx) v log Hu Hv) as [Hu' Hv'].
    destruct (IH _ (seq + 1) Hu' Hv') as (? & ? & Hel). split_and!; [done|done|].
    intros x Hx. rewrite (Hel x Hx). unfold update_cols. rewrite list_elem_of_fmap. split.
    + intros (y & -> & Hy). case_decide; [|done]. simpl in Hx.
      destruct (version_inj (lr_row_uuid y) (lr_tx_uuid y) r tx); [by rewrite <- Hv|done].
    + intros Hin. exists x. rewrite decide_False; [done|]. rewrite (Hv x Hin). intros [_ ?]%version_inj. done.
  - destruct (insert_row_ok log r tx seq v Hu Hv Hc) as [Hu' Hv'].
    destruct (IH _ (seq + 1) Hu' Hv') as (? & ? & Hel). split_and!; [done|done|].
    intros x Hx. rewrite (Hel x Hx), elem_of_app, list_elem_of_singleton. split; [|by left].
    intros [?| ->]; [done|by destruct Hx].
Qed.

Lemma insert_deletes_ok tx rows : ∀ log seq,
  log_unique log → versions_ok log →
  log_unique (insert_deletes tx rows log seq).1 ∧ versions_ok (insert_deletes tx rows log seq).1 ∧
  ∀ x, lr_tx_uuid x ≠ tx → x ∈ (insert_deletes tx rows log seq).1 ↔ x ∈ log.
Proof using.
  induction rows as [|r rows IH]; intros log seq Hu Hv; simpl; [done|]. case_decide as Hc; [by apply IH|].
  destruct (insert_row_ok log r tx seq tt Hu Hv Hc) as [Hu' Hv'].
  destruct (IH _ (seq + 1) Hu' Hv') as (? & ? & Hel). split_and!; [done|done|].
  intros x Hx. rewrite (Hel x Hx), elem_of_app, list_elem_of_singleton. split; [|by left].
  intros [?| ->]; [done|by destruct Hx].
Qed.
(** ** Inserts and purged transactions

    A log cleared of the transactions [gone] behaves like the full log under the
    inserts of any other transaction. *)

Definition surviving {A} (gone : list Z) (log : list (log_row A)) : list (log_row A) :=
  filter (λ u, lr_tx_uuid u ∉ gone) log.

Lemma surviving_version {A} gone tx r (log : list (log_row A)) :
  tx ∉ gone → versions_ok log →
  version_uuid r tx ∈ lr_version_uuid <$> surviving gone log ↔ version_uuid r tx ∈ lr_version_uuid <$> log.
Proof using version_inj.
  intros Htx Hv. rewrite !list_elem_of_fmap. split; intros (u & Heq & Hu); exists u; (split; [done|]).
  - by apply list_elem_of_filter in Hu as [_ ?].
  - apply list_elem_of_filter. split; [|done]. rewrite (Hv u Hu) in Heq. apply version_inj in Heq as [_ <-]. done.
Qed.

Lemma surviving_update gone vu v log :
  update_cols vu v (surviving gone log) = surviving gone (update_cols vu v log).
Proof using.
  unfold surviving, update_cols. induction log as [|u log IH]; [done|].
  rewrite fmap_cons, !filter_cons.
  destruct (decide (lr_version_uuid u = vu)) eqn:Ev; simpl;
    (destruct (decide (lr_tx_uuid u ∉ gone)); [rewrite fmap_cons, Ev|]; by rewrite IH).
Qed.

Lemma surviving_snoc {A} gone (log : list (log_row A)) u :
  lr_tx_uuid u ∉ gone → surviving gone (log ++ [u]) = surviving gone log ++ [u].
Proof using. intros Hu. unfold surviving. rewrite filter_app, filter_cons, decide_True by done. done. Qed.

Lemma insert_upserts_surviving gone tx rows : ∀ log seq,
  tx ∉ gone → log_unique log → versions_ok log →
  insert_upserts tx rows (surviving gone log) seq =
    (surviving gone (insert_upserts tx rows log seq).1, (insert_upserts tx rows log seq).2).
Proof using version_inj.
  induction rows as [|[r v] rows IH]; intros log seq Htx Hu Hv; simpl; [done|].
  pose proof (surviving_version gone tx r log Htx Hv) as Hiff.
  destruct (decide (version_uuid r tx ∈ lr_version_uuid <$> log)) as [Hc|Hc].
  - rewrite decide_True by by apply Hiff. rewrite surviving_update.
    destruct (update_cols_ok (version_uuid r tx) v log Hu Hv). by apply IH.
  - rewrite decide_False by by rewrite Hiff. rewrite <- surviving_snoc by done.
    destruct (insert_row_ok log r tx seq v Hu Hv Hc). by apply IH.
Qed.

Lemma insert_deletes_surviving gone tx rows : ∀ log seq,
  tx ∉ gone → log_unique log → versions_ok log →
  insert_deletes tx rows (surviving gone log) seq =
    (surviving gone (insert_deletes tx rows log seq).1, (insert_deletes tx rows log seq).2).
Proof using version_inj.
  induction rows as [|r rows IH]; intros log seq Htx Hu Hv; simpl; [done|].
  pose proof (surviving_version gone tx r log Htx Hv) as Hiff.
  destruct (decide (version_uuid r tx ∈ lr_version_uuid <$> log)) as [Hc|Hc].
  - rewrite decide_True by by apply Hiff. by apply IH.
  - rewrite decide_False by by rewrite Hiff. rewrite <- surviving_snoc by done.
    destruct (insert_row_ok log r tx seq tt Hu Hv Hc). by apply IH.
Qed.
(** ** What a transaction's first inserts add *)

Lemma version_fresh {A} tx r (log : list (log_row A)) :
  versions_ok log → (∀ u, u ∈ log → lr_tx_uuid u = tx → lr_row_uuid u ≠ r) →
  version_uuid r tx ∉ lr_version_uuid <$> log.
Proof using version_inj.
  intros Hv Hn (u & Heq & Hu)%list_elem_of_fmap. rewrite (Hv u Hu) in Heq. apply version_inj in Heq as [-> ->].
  by apply (Hn u Hu).
Qed.

Lemma versions_snoc {A} (log : list (log_row A)) r tx seq v :
  versions_ok log → versions_ok (log ++ [LogRow (version_uuid r tx) r tx seq v]).
Proof using. intros Hv x [Hx| ->%list_elem_of_singleton]%elem_of_app; [by apply Hv|done]. Qed.

Lemma insert_upserts_new tx rows : ∀ log seq,
  NoDup (fst <$> rows) → versions_ok log →
  (∀ u, u ∈ log → lr_tx_uuid u = tx → lr_row_uuid u ∉ fst <$> rows) →
  insert_upserts tx rows log seq =
    (log ++ imap (λ i x, LogRow (version_uuid x.1 tx) x.1 tx (seq + Z.of_nat i) x.2) rows, seq + Z.of_nat (length rows)).
Proof using version_inj.
  induction rows as [|[r v] rows IH]; intros log seq Hnd Hv Hn; simpl; [rewrite app_nil_r; f_equal; lia|].
  rewrite fmap_cons, NoDup_cons in Hnd. destruct Hnd as [Hr Hnd].
  rewrite decide_False by (apply version_fresh; [done|]; intros u Hu Htx Heq; apply (Hn u Hu Htx); rewrite Heq; by left).
  rewrite IH; [|done|by apply versions_snoc|].
  - rewrite <- app_assoc. simpl. rewrite Z.add_0_r. f_equal; [|lia]. do 2 f_equal.
    apply imap_ext. intros i x _. simpl. f_equal. lia.
  - intros u [Hu| ->%list_elem_of_singleton]%elem_of_app Htx; [|done].
    intros Hin. apply (Hn u Hu Htx). by right.
Qed.

Lemma insert_deletes_new tx rows : ∀ log seq,
  versions_ok log → (∀ u, u ∈ log → lr_tx_uuid u = tx → lr_write_seq_num u < seq) →
  let out := insert_deletes tx rows log seq in
  out.2 = seq + Z.of_nat (length rows) ∧
  (∀ u, u ∈ log → u ∈ out.1) ∧
  (∀ u, u ∈ out.1 → u ∈ log ∨ lr_tx_uuid u = tx ∧ lr_row_uuid u ∈ rows) ∧
  (∀ u, u ∈ out.1 → lr_tx_uuid u = tx → lr_write_seq_num u < out.2) ∧
  (∀ r, r ∈ rows → ∃ u, u ∈ out.1 ∧ lr_tx_uuid u = tx ∧ lr_row_uuid u = r).
Proof using version_inj.
  induction rows as [|r rows IH]; intros log seq Hv Hlt; cbv zeta; simpl.
  { split_and!; [lia|done|auto|done|by intros r ?%not_elem_of_nil]. }
  case_decide as Hc.
  - destruct (IH log (seq + 1) Hv) as (H1 & H2 & H3 & H4 & H5); [intros u Hu Htx; specialize (Hlt u Hu Htx); lia|].
    split_and!; [rewrite H1; lia|done| |done|].
    + intros u [?|[? ?]]%H3; [by left|right]. split; [done|by right].
    + intros r' [->|Hr']%elem_of_cons; [|by apply H5]. apply list_elem_of_fmap in Hc as (u & Heq & Hu).
      rewrite (Hv u Hu) in Heq. apply version_inj in Heq as [-> ->]. eauto.
  - destruct (IH (log ++ [LogRow (version_uuid r tx) r tx seq tt]) (seq + 1)) as (H1 & H2 & H3 & H4 & H5).
    { by apply versions_snoc. }
    { intros u [Hu| ->%list_elem_of_singleton]%elem_of_app Htx; [specialize (Hlt u Hu Htx)|simpl]; lia. }
    split_and!; [rewrite H1; lia|intros u Hu; apply H2, elem_of_app; by left| |done|].
    + intros u [[?| ->%list_elem_of_singleton]%elem_of_app|[? ?]]%H3; [by left|right; split; [done|by left]|right].
      split; [done|by right].
    + intros r' [->|Hr']%elem_of_cons; [|by apply H5]. eexists. split; [apply H2, elem_of_app; right; by left|done].
Qed.
End store.
Arguments table_store : clear implicits. Arguments branch_state : clear implicits.
Arguments Change : clear implicits.
