(* ===== verification/Ordered.v ===== *)
(** * Total orders and ordered maps

    Comparison functions with their laws, as the derived [Ord] of the source's
    key types composes them (lexicographic on byte strings, [None] first on
    options, field by field on structs), and the standard library's [BTreeMap]
    as a strictly ascending association list. *)

From S2P Require Import Prelude.
From stdpp Require Import base numbers list option sets sorting.

Open Scope Z_scope.

(** ** Comparison functions *)

Class Cmp (A : Type) := cmp : A → A → comparison.

Class CmpLaws (A : Type) `{Cmp A} := {
  cmp_eq : ∀ x y : A, cmp x y = Eq ↔ x = y;
  cmp_opp : ∀ x y : A, cmp y x = CompOpp (cmp x y);
  cmp_lt_trans : ∀ x y z : A, cmp x y = Lt → cmp y z = Lt → cmp x z = Lt;
}.

#[export] Instance Z_cmp : Cmp Z := Z.compare.

#[export] Instance Z_cmp_laws : CmpLaws Z.
Proof.
  split; unfold cmp, Z_cmp.
  - intros x y. apply Z.compare_eq_iff.
  - intros x y. apply Z.compare_antisym.
  - intros x y z. rewrite !Z.compare_lt_iff. lia.
Qed.

Fixpoint list_compare {A} `{Cmp A} (l k : list A) : comparison :=
  match l, k with
  | [], [] => Eq
  | [], _ => Lt
  | _, [] => Gt
  | x :: l', y :: k' => match cmp x y with Eq => list_compare l' k' | c => c end
  end.

#[export] Instance list_cmp {A} `{Cmp A} : Cmp (list A) := list_compare.

#[export] Instance list_cmp_laws {A} `{CmpLaws A} : CmpLaws (list A).
Proof.
  split; unfold cmp, list_cmp.
  - intros l. induction l as [|x l IH]; intros [|y k]; simpl; try done.
    pose proof (cmp_eq x y) as He. destruct (cmp x y).
    + rewrite IH. destruct He as [He _]. rewrite (He eq_refl). split; congruence.
    + split; [done|]. intros [= -> ->]. destruct He as [_ He]. by rewrite He.
    + split; [done|]. intros [= -> ->]. destruct He as [_ He]. by rewrite He.
  - intros l. induction l as [|x l IH]; intros [|y k]; simpl; try done.
    rewrite (cmp_opp x y). destruct (cmp x y); simpl; [apply IH|done|done].
  - intros l. induction l as [|x l IH]; intros [|y k] [|z m]; simpl; try done.
    destruct (cmp x y) eqn:Exy; try done; destruct (cmp y z) eqn:Eyz; try done.
    + apply cmp_eq in Exy as ->. apply cmp_eq in Eyz as ->.
      destruct (cmp_eq z z) as [_ Hz]. rewrite (Hz eq_refl). apply IH.
    + apply cmp_eq in Exy as ->. by rewrite Eyz.
    + apply cmp_eq in Eyz as ->. by rewrite Exy.
    + by rewrite (cmp_lt_trans _ _ _ Exy Eyz).
Qed.

#[export] Instance option_cmp {A} `{Cmp A} : Cmp (option A) := λ a b,
  match a, b with
  | None, None => Eq
  | None, Some _ => Lt
  | Some _, None => Gt
  | Some x, Some y => cmp x y
  end.

#[export] Instance option_cmp_laws {A} `{CmpLaws A} : CmpLaws (option A).
Proof.
  split; unfold cmp, option_cmp.
  - intros [x|] [y|]; try done. rewrite (cmp_eq x y). split; congruence.
  - intros [x|] [y|]; try done. apply cmp_opp.
  - intros [x|] [y|] [z|]; try done. apply cmp_lt_trans.
Qed.

(** The derived order of a two-field struct. *)
Definition lex {A B} `{Cmp A, Cmp B} (p q : A * B) : comparison :=
  match cmp p.1 q.1 with Eq => cmp p.2 q.2 | c => c end.

#[export] Instance prod_cmp {A B} `{Cmp A, Cmp B} : Cmp (A * B) := lex.

#[export] Instance prod_cmp_laws {A B} `{CmpLaws A, CmpLaws B} : CmpLaws (A * B).
Proof.
  split; unfold cmp, prod_cmp, lex.
  - intros [a b] [c d]; simpl. pose proof (cmp_eq a c) as He. destruct (cmp a c).
    + rewrite (cmp_eq b d). destruct He as [He _]. rewrite (He eq_refl). split; congruence.
    + split; [done|]. intros [= -> ->]. destruct He as [_ He]. by rewrite He.
    + split; [done|]. intros [= -> ->]. destruct He as [_ He]. by rewrite He.
  - intros [a b] [c d]; simpl. rewrite (cmp_opp a c). destruct (cmp a c); simpl; [apply cmp_opp|done|done].
  - intros [a b] [c d] [e f]; simpl.
    destruct (cmp a c) eqn:E1; try done; destruct (cmp c e) eqn:E2; try done.
    + apply cmp_eq in E1 as ->. apply cmp_eq in E2 as ->.
      destruct (cmp_eq e e) as [_ He]. rewrite (He eq_refl). apply cmp_lt_trans.
    + apply cmp_eq in E1 as ->. by rewrite E2.
    + apply cmp_eq in E2 as ->. by rewrite E1.
    + by rewrite (cmp_lt_trans _ _ _ E1 E2).
Qed.

(** ** Strict and weak order *)

Section order.
Context {A : Type} `{CmpLaws A}.

Definition oltb (x y : A) : bool := match cmp x y with Lt => true | _ => false end.
Definition oleb (x y : A) : bool := match cmp x y with Gt => false | _ => true end.
Definition olt (x y : A) : Prop := cmp x y = Lt.
Definition ole (x y : A) : Prop := cmp x y ≠ Gt.

#[export] Instance lt_dec : RelDecision olt.
Proof. intros x y. unfold olt. apply _. Defined.

#[export] Instance le_dec : RelDecision ole.
Proof. intros x y. unfold ole. apply _. Defined.

Lemma cmp_refl x : cmp x x = Eq.
Proof. by apply cmp_eq. Qed.

Lemma oltb_lt x y : oltb x y = true ↔ olt x y.
Proof. unfold oltb, olt. by destruct (cmp x y). Qed.

Lemma oleb_le x y : oleb x y = true ↔ ole x y.
Proof. unfold oleb, ole. by destruct (cmp x y). Qed.

Lemma oltb_ge x y : oltb x y = false ↔ ole y x.
Proof. unfold oltb, ole. rewrite (cmp_opp x y). by destruct (cmp x y). Qed.

Lemma olt_irrefl x : ¬ olt x x.
Proof. unfold olt. by rewrite cmp_refl. Qed.

Lemma olt_le x y : olt x y → ole x y.
Proof. unfold olt, ole. by intros ->. Qed.

Lemma ole_refl x : ole x x.
Proof. unfold ole. by rewrite cmp_refl. Qed.

Lemma olt_ne x y : olt x y → x ≠ y.
Proof. intros Hl ->. by apply olt_irrefl in Hl. Qed.

Lemma ole_lt_or_eq x y : ole x y ↔ olt x y ∨ x = y.
Proof. unfold ole, olt. rewrite <- (cmp_eq x y). destruct (cmp x y); naive_solver. Qed.

Lemma olt_le_trans x y z : olt x y → ole y z → olt x z.
Proof. intros Hxy [Hyz| ->]%ole_lt_or_eq; [by eapply cmp_lt_trans|done]. Qed.

Lemma ole_lt_trans x y z : ole x y → olt y z → olt x z.
Proof. intros [Hxy| ->]%ole_lt_or_eq Hyz; [by eapply cmp_lt_trans|done]. Qed.

Lemma onot_lt x y : ¬ olt x y ↔ ole y x.
Proof. unfold olt, ole. rewrite (cmp_opp x y). destruct (cmp x y); naive_solver. Qed.

Lemma olt_trichotomy x y : olt x y ∨ x = y ∨ olt y x.
Proof. unfold olt. rewrite (cmp_opp x y), <- (cmp_eq x y). destruct (cmp x y); simpl; auto. Qed.

#[export] Instance lt_trans_inst : Transitive olt.
Proof. intros x y z. apply cmp_lt_trans. Qed.

#[export] Instance le_trans_inst : Transitive ole.
Proof.
  intros x y z Hxy [Hyz| ->]%ole_lt_or_eq; [|done]. apply olt_le. by eapply ole_lt_trans.
Qed.

#[export] Instance le_total_inst : Total ole.
Proof. intros x y. destruct (olt_trichotomy x y) as [?|[->|?]]; auto using olt_le, ole_refl. Qed.

#[export] Instance le_antisymm_inst : AntiSymm (=) ole.
Proof.
  intros x y [Hxy| ->]%ole_lt_or_eq Hyx; [|done]. exfalso. apply (olt_irrefl x). by eapply olt_le_trans.
Qed.

End order.

(** ** [BTreeMap] *)

Section btree.
Context {K V : Type} `{CmpLaws K}.

Implicit Types m : list (K * V).

Definition BTreeMap := list (K * V).

Definition first_key_value m : option (K * V) := head m.

Fixpoint bt_get (k : K) m : option V :=
  match m with
  | [] => None
  | (k', v) :: m' => match cmp k k' with Eq => Some v | Lt => None | Gt => bt_get k m' end
  end.

Definition contains_key (k : K) m : bool := match bt_get k m with Some _ => true | None => false end.

Fixpoint bt_insert (k : K) (v : V) m : list (K * V) :=
  match m with
  | [] => [(k, v)]
  | (k', v') :: m' =>
      match cmp k k' with
      | Lt => (k, v) :: (k', v') :: m'
      | Eq => (k, v) :: m'
      | Gt => (k', v') :: bt_insert k v m'
      end
  end.

Fixpoint bt_remove (k : K) m : list (K * V) :=
  match m with
  | [] => []
  | (k', v') :: m' =>
      match cmp k k' with
      | Lt => (k', v') :: m'
      | Eq => m'
      | Gt => (k', v') :: bt_remove k m'
      end
  end.

(** [m.entry(k).or_default()] updated in place. *)
Definition bt_entry (dflt : V) (k : K) (f : V → V) m : list (K * V) :=
  bt_insert k (f (default dflt (bt_get k m))) m.

Definition ascending m : Prop := StronglySorted olt (m.*1).

Lemma ascending_cons k v m : ascending ((k, v) :: m) ↔ ascending m ∧ ∀ k', k' ∈ m.*1 → olt k k'.
Proof.
  unfold ascending. rewrite fmap_cons. simpl. split.
  - intros [Hs Hf]%StronglySorted_inv. split; [done|]. by apply Forall_forall.
  - intros [Hs Hf]. constructor; [done|]. by apply Forall_forall.
Qed.

Lemma ascending_NoDup m : ascending m → NoDup (m.*1).
Proof.
  induction m as [|[k v] m IH]; [constructor|]. intros [Hm Hk]%ascending_cons.
  rewrite fmap_cons. constructor; [|by apply IH]. intros Hin. by apply (olt_irrefl k), Hk.
Qed.

Lemma bt_get_Some k v m : ascending m → bt_get k m = Some v ↔ (k, v) ∈ m.
Proof.
  induction m as [|[k' v'] m IH]; simpl; [by rewrite elem_of_nil|].
  intros [Hm Hk]%ascending_cons. rewrite elem_of_cons.
  destruct (cmp k k') eqn:E.
  - apply cmp_eq in E as ->. split; [intros [= ->]; by left|]. intros [[= ->]|Hin]; [done|].
    exfalso. apply (olt_irrefl k'), Hk. by apply (list_elem_of_fmap_2 fst) in Hin.
  - split; [done|]. intros [[= -> ->]|Hin]; [by rewrite cmp_refl in E|].
    apply (list_elem_of_fmap_2 fst), Hk in Hin. simpl in Hin.
    exfalso. apply (olt_irrefl k). eapply cmp_lt_trans; [exact E|exact Hin].
  - rewrite (IH Hm). split; [by right|]. intros [[= -> ->]|Hin]; [by rewrite cmp_refl in E|done].
Qed.

Lemma bt_get_None k m : ascending m → bt_get k m = None ↔ k ∉ m.*1.
Proof.
  intros Hm. split.
  - intros HN [[k' v] [-> Hin]]%list_elem_of_fmap. simpl in HN.
    apply (bt_get_Some k' v m Hm) in Hin. congruence.
  - intros Hn. destruct (bt_get k m) as [v|] eqn:E; [|done].
    apply bt_get_Some in E; [|done]. by apply (list_elem_of_fmap_2 fst) in E.
Qed.

Lemma bt_insert_keys k v m k' : k' ∈ (bt_insert k v m).*1 ↔ k' = k ∨ k' ∈ m.*1.
Proof.
  induction m as [|[k0 v0] m IH]; simpl; [set_solver|].
  destruct (cmp k k0) eqn:E; simpl; [apply cmp_eq in E as ->; set_solver|set_solver|].
  rewrite !elem_of_cons, IH. tauto.
Qed.

Lemma bt_insert_ascending k v m : ascending m → ascending (bt_insert k v m).
Proof.
  induction m as [|[k0 v0] m IH]; simpl; [intros _; apply ascending_cons; split; [constructor|set_solver]|].
  intros [Hm Hk]%ascending_cons. destruct (cmp k k0) eqn:E.
  - apply cmp_eq in E as ->. by apply ascending_cons.
  - apply ascending_cons. split; [by apply ascending_cons|]. intros k'. rewrite fmap_cons, elem_of_cons.
    intros [->|Hin]; [done|]. eapply cmp_lt_trans; [exact E|]. by apply Hk.
  - apply ascending_cons. split; [by apply IH|]. intros k' [->|Hin]%bt_insert_keys; [|by apply Hk].
    unfold olt. rewrite (cmp_opp k k0), E. done.
Qed.

Lemma bt_insert_fresh k v m : ascending m → k ∉ m.*1 → bt_insert k v m ≡ₚ (k, v) :: m.
Proof.
  induction m as [|[k0 v0] m IH]; simpl; [done|]. intros [Hm Hk]%ascending_cons Hn.
  destruct (cmp k k0) eqn:E; [apply cmp_eq in E; set_solver|done|].
  rewrite IH; [by apply Permutation_swap|done|set_solver].
Qed.

Lemma bt_remove_elem k m p : ascending m → p ∈ bt_remove k m ↔ p ∈ m ∧ p.1 ≠ k.
Proof.
  induction m as [|[k0 v0] m IH]; simpl; [intros _; set_solver|].
  intros [Hm Hk]%ascending_cons.
  assert (∀ q, q ∈ m → olt k0 q.1) as Hq.
  { intros q Hin. apply Hk. by apply (list_elem_of_fmap_2 fst). }
  destruct (cmp k k0) eqn:E; rewrite ?elem_of_cons.
  - apply cmp_eq in E as ->. split.
    + intros Hin. split; [by right|]. intros Heq. apply (olt_irrefl k0). rewrite <- Heq at 2. by apply Hq.
    + intros [[->|Hin] Hne]; [done|done].
  - split; [|tauto]. intros Hin. split; [done|]. intros Heq. apply (olt_irrefl k0).
    destruct Hin as [->|Hin]; simpl in *; subst.
    + by rewrite cmp_refl in E.
    + eapply cmp_lt_trans; [by apply Hq|exact E].
  - rewrite (IH Hm). split; [|tauto]. intros [->|?]; [|tauto]. split; [by left|]. simpl. intros ->.
    by rewrite cmp_refl in E.
Qed.

Lemma bt_remove_ascending k m : ascending m → ascending (bt_remove k m).
Proof.
  induction m as [|[k0 v0] m IH]; simpl; [done|]. intros Ha. pose proof Ha as [Hm Hk]%ascending_cons.
  destruct (cmp k k0) eqn:E; [done|done|]. apply ascending_cons. split; [by apply IH|].
  intros k' [q [-> Hq]]%list_elem_of_fmap. apply bt_remove_elem in Hq as [Hq _]; [|done].
  apply Hk. by apply (list_elem_of_fmap_2 fst).
Qed.

Lemma bt_remove_head k v m : bt_remove k ((k, v) :: m) = m.
Proof. simpl. by rewrite cmp_refl. Qed.

Lemma bt_remove_perm k v m : ascending m → bt_get k m = Some v → m ≡ₚ (k, v) :: bt_remove k m.
Proof.
  induction m as [|[k0 v0] m IH]; simpl; [done|]. intros [Hm _]%ascending_cons.
  destruct (cmp k k0) eqn:E; [|done|].
  - apply cmp_eq in E as ->. by intros [= ->].
  - intros Hg. rewrite (IH Hm Hg) at 1. apply Permutation_swap.
Qed.

Lemma bt_remove_absent k m : bt_get k m = None → bt_remove k m = m.
Proof.
  induction m as [|[k0 v0] m IH]; simpl; [done|].
  destruct (cmp k k0); [done|done|]. intros Hg. by rewrite IH.
Qed.

End btree.

(** ** Grouping by a key

    The loop [for x in xs { m.entry(key(x)).or_default().push(val(x)) }]. *)

Section group.
Context {A K V : Type} `{CmpLaws K, EqDecision K} (kf : A → K) (vf : A → V).

Definition group_by (xs : list A) : list (K * list V) :=
  foldl (λ m x, bt_entry [] (kf x) (λ g, g ++ [vf x]) m) [] xs.

Lemma group_by_snoc xs x : group_by (xs ++ [x]) = bt_entry [] (kf x) (λ g, g ++ [vf x]) (group_by xs).
Proof. unfold group_by. by rewrite foldl_app. Qed.

Lemma group_by_ascending xs : ascending (group_by xs).
Proof.
  induction xs as [|x xs IH] using rev_ind; [constructor|].
  rewrite group_by_snoc. by apply bt_insert_ascending.
Qed.

Lemma bt_insert_elem_other (k : K) (v : list V) m p :
  ascending m → p.1 ≠ k → p ∈ bt_insert k v m ↔ p ∈ m.
Proof.
  intros Hm Hp. induction m as [|[k0 v0] m IH]; simpl.
  - rewrite list_elem_of_singleton. split; [intros ->; done|by intros ?%elem_of_nil].
  - apply ascending_cons in Hm as [Hm _]. destruct (cmp k k0) eqn:E; rewrite !elem_of_cons.
    + apply cmp_eq in E as ->. split; intros [->|?]; auto; done.
    + split; [intros [->|?]; auto; done|auto].
    + by rewrite (IH Hm).
Qed.

Lemma bt_insert_get (k : K) (v : list V) m : bt_get k (bt_insert k v m) = Some v.
Proof.
  induction m as [|[k0 v0] m IH]; simpl; [by rewrite cmp_refl|].
  destruct (cmp k k0) eqn:E; simpl; rewrite ?cmp_refl, ?E; auto.
Qed.

(** A group is its key's values, in input order; no group is empty. *)
Lemma group_by_elem xs k g : (k, g) ∈ group_by xs ↔ g = vf <$> filter (λ x, kf x = k) xs ∧ g ≠ [].
Proof.
  revert g. induction xs as [|x xs IH] using rev_ind; intros g.
  { unfold group_by. simpl. rewrite elem_of_nil. naive_solver. }
  pose proof (group_by_ascending xs) as Ha. rewrite group_by_snoc, filter_app, fmap_app. unfold bt_entry.
  destruct (decide (k = kf x)) as [->|Hne].
  - rewrite (filter_cons_True _ x), filter_nil by done.
    rewrite <- bt_get_Some by (by apply bt_insert_ascending). rewrite bt_insert_get.
    assert (default [] (bt_get (kf x) (group_by xs)) = vf <$> filter (λ y, kf y = kf x) xs) as ->.
    { destruct (bt_get (kf x) (group_by xs)) as [g0|] eqn:E; simpl.
      - apply bt_get_Some in E; [|done]. by apply IH in E as [-> _].
      - apply bt_get_None in E; [|done]. destruct (vf <$> filter (λ y, kf y = kf x) xs) as [|v0 g0] eqn:Ef; [done|].
        exfalso. apply E, list_elem_of_fmap. exists (kf x, v0 :: g0). split; [done|]. by apply IH. }
    split; [intros [= <-]; split; [done|by destruct (vf <$> filter _ xs)]|intros [-> _]; done].
  - rewrite (filter_cons_False _ x), filter_nil by (intros Heq; by apply Hne). simpl. rewrite app_nil_r.
    rewrite (bt_insert_elem_other _ _ _ (k, g)) by done. apply IH.
Qed.

Lemma group_by_concat xs : concat ((group_by xs).*2) ≡ₚ vf <$> xs.
Proof.
  induction xs as [|x xs IH] using rev_ind; [done|].
  rewrite group_by_snoc, fmap_app. unfold bt_entry. pose proof (group_by_ascending xs) as Ha.
  rewrite <- IH. generalize dependent (group_by xs). intros m _ Ha. simpl.
  destruct (bt_get (kf x) m) as [g|] eqn:E.
  - induction m as [|[k0 v0] m IHm]; [done|]. simpl in E |- *. apply ascending_cons in Ha as [Ha _].
    destruct (cmp (kf x) k0) eqn:Ec; simpl in E; [|done|].
    + injection E as ->. simpl. rewrite <- !app_assoc. f_equiv. apply Permutation_app_comm.
    + simpl. rewrite <- app_assoc. f_equiv. by apply IHm.
  - rewrite (bt_insert_fresh (kf x) _ m Ha) by (by apply bt_get_None). simpl. apply Permutation_cons_append.
Qed.

End group.
