(* ===== verification/Chunker.v ===== *)
(** * The segment chunker (penca-api/src/lifecycle/chunker.rs)

    Splits a record batch into row ranges whose in-memory footprint is bounded,
    by the per-row cost model the type registry induces. *)

From S2P Require Import Prelude CoreTypes MergeSql IndexSelect.
From stdpp Require Import base numbers list option sets.

Open Scope Z_scope.
Open Scope result_scope.

(** ** Batches

    A column value as far as its footprint goes: the byte length of a string or
    binary value, the children of a list value. *)
Inductive arr_val :=
  | VFixed
  | VBytes (len : Z)
  | VList (children : list arr_val).

Record column := { col_type : DataType; col_vals : list arr_val }.
Record batch := { num_rows : nat; columns : list column }.

(** ** Row cost *)

Definition fixed_width_byte_width (dtype : DataType) : option Z :=
  match from_arrow dtype with Ok ct => fixed_width_bytes ct | Err _ => None end.

(** [child_sum]: the loop over a list value's children. *)
Definition child_sum (child_fixed : option Z) (cost : arr_val → result ApiError Z) :
    Z → list arr_val → result ApiError Z :=
  fix go acc children :=
    match children with
    | [] => Ok acc
    | v :: rest =>
        match child_fixed with
        | Some w => go (acc + w) rest
        | None => let? b := cost v in go (acc + b) rest
        end
    end.

Fixpoint variable_width_row_bytes (dtype : DataType) (v : arr_val) : result ApiError Z :=
  match dtype, v with
  | DtUtf8, VBytes n | DtBinary, VBytes n => Ok (n + 4 + 1)
  | DtLargeUtf8, VBytes n | DtLargeBinary, VBytes n => Ok (n + 8 + 1)
  | DtUtf8View, VBytes n | DtBinaryView, VBytes n => Ok (n + 16 + 1)
  | DtList _ item _, VList vs =>
      let? s := child_sum (fixed_width_byte_width item) (variable_width_row_bytes item) 0 vs in Ok (s + 4 + 1)
  | DtLargeList _ item _, VList vs =>
      let? s := child_sum (fixed_width_byte_width item) (variable_width_row_bytes item) 0 vs in Ok (s + 8 + 1)
  | DtFixedSizeList _ item _ _, VList vs =>
      let? s := child_sum (fixed_width_byte_width item) (variable_width_row_bytes item) 0 vs in Ok (s + 1)
  | _, _ => Err InvalidRequest
  end.

Record RowCostModel := { fixed_per_row : Z; variable_cols : list column }.

Fixpoint build_loop (m : RowCostModel) (cols : list column) : RowCostModel :=
  match cols with
  | [] => m
  | c :: rest =>
      build_loop
        match fixed_width_byte_width (col_type c) with
        | Some w => {| fixed_per_row := fixed_per_row m + w; variable_cols := variable_cols m |}
        | None => {| fixed_per_row := fixed_per_row m; variable_cols := variable_cols m ++ [c] |}
        end rest
  end.

Definition build (b : batch) : RowCostModel :=
  build_loop {| fixed_per_row := 0; variable_cols := [] |} (columns b).

Fixpoint row_bytes_loop (acc : Z) (cols : list column) (idx : nat) : result ApiError Z :=
  match cols with
  | [] => Ok acc
  | c :: rest =>
      match col_vals c !! idx with
      | None => Err Internal
      | Some v => let? w := variable_width_row_bytes (col_type c) v in row_bytes_loop (acc + w) rest idx
      end
  end.

Definition row_bytes (m : RowCostModel) (idx : nat) : result ApiError Z :=
  row_bytes_loop (fixed_per_row m) (variable_cols m) idx.

(** ** Chunking *)

(** The [for] loop from row [i], [n] rows to go. *)
Fixpoint chunk_loop (m : RowCostModel) (max_bytes : Z) (n i chunk_start : nat) (running : Z)
    (ranges : list (nat * nat * Z)) : result ApiError (list (nat * nat * Z)) :=
  match n with
  | O => Ok (ranges ++ [(chunk_start, (i - chunk_start)%nat, running)])
  | S n' =>
      let? rb := row_bytes m i in
      if (max_bytes <? running + rb) && (chunk_start <? i)%nat
      then chunk_loop m max_bytes n' (S i) i rb
             (ranges ++ [(chunk_start, (i - chunk_start)%nat, running)])
      else chunk_loop m max_bytes n' (S i) chunk_start (running + rb) ranges
  end.

Definition chunk_row_ranges (b : batch) (max_bytes : Z) : result ApiError (list (nat * nat * Z)) :=
  if (num_rows b =? 0)%nat then Ok []
  else chunk_loop (build b) max_bytes (num_rows b) 0 0 0 [].

Fixpoint batch_bytes_loop (m : RowCostModel) (n i : nat) (total : Z) : result ApiError Z :=
  match n with
  | O => Ok total
  | S n' => let? rb := row_bytes m i in batch_bytes_loop m n' (S i) (total + rb)
  end.

Definition batch_in_memory_bytes (b : batch) : result ApiError Z :=
  batch_bytes_loop (build b) (num_rows b) 0 0.

(** ** Specification *)

(** Every row of the batch has a cost. *)
Definition costed (m : RowCostModel) (cost : nat → Z) (lo hi : nat) : Prop :=
  ∀ i, (lo ≤ i < hi)%nat → row_bytes m i = Ok (cost i).

Definition range_cost (cost : nat → Z) (lo len : nat) : Z :=
  foldr Z.add 0 (cost <$> seq lo len).

(** The ranges tile [lo, hi) by non-empty runs that carry their own cost, stay
    within the cap unless they are a single row, and could not have taken the
    next row. *)
Fixpoint tiles (cost : nat → Z) (cap : Z) (lo hi : nat) (ranges : list (nat * nat * Z)) : Prop :=
  match ranges with
  | [] => lo = hi
  | (off, len, bytes) :: rest =>
      off = lo ∧ (1 ≤ len)%nat ∧ bytes = range_cost cost lo len ∧
      (bytes ≤ cap ∨ len = 1%nat) ∧
      (rest ≠ [] → cap < bytes + cost (lo + len)%nat) ∧
      tiles cost cap (lo + len) hi rest
  end.

Lemma range_cost_snoc cost lo len :
  range_cost cost lo (S len) = range_cost cost lo len + cost (lo + len)%nat.
Proof.
  unfold range_cost. rewrite seq_S, fmap_app, foldr_app. simpl.
  generalize (cost <$> seq lo len). intros l. induction l; simpl; lia.
Qed.

Lemma tiles_snoc cost cap lo mid hi ranges len bytes :
  tiles cost cap lo mid ranges →
  (∀ r, last ranges = Some r → cap < r.2 + cost mid) →
  (1 ≤ len)%nat → (mid + len)%nat = hi → bytes = range_cost cost mid len → (bytes ≤ cap ∨ len = 1%nat) →
  tiles cost cap lo hi (ranges ++ [(mid, len, bytes)]).
Proof.
  revert lo. induction ranges as [|[[off l] by0] rest IH]; intros lo; simpl.
  - intros -> _ Hlen <- -> Hcap. split_and!; done.
  - intros (-> & Hl & -> & Hc & Hmax & Ht) Hlast Hlen Hhi Hb Hcap.
    assert (rest = [] → mid = (lo + l)%nat) as Hend by (intros ->; by simpl in Ht).
    split_and!; [done|done|done|done| |].
    + intros _. destruct rest as [|r rest]; [|by apply Hmax].
      rewrite <- (Hend eq_refl). by apply (Hlast _ eq_refl).
    + apply IH; try done. intros r Hr. apply Hlast. destruct rest; [done|]. by rewrite last_cons_cons.
Qed.

Lemma chunk_loop_tiles m cap cost n : ∀ i start running ranges,
  costed m cost i (i + n) →
  tiles cost cap 0 start ranges → (∀ r, last ranges = Some r → cap < r.2 + cost start) →
  (start ≤ i)%nat → running = range_cost cost start (i - start) →
  (running ≤ cap ∨ (i - start ≤ 1)%nat) → (start < i + n)%nat →
  ∃ out, chunk_loop m cap n i start running ranges = Ok out ∧ tiles cost cap 0 (i + n) out.
Proof.
  induction n as [|n IH]; intros i start running ranges Hc Ht Hlast Hi Hrun Hcap Hlt; simpl.
  - eexists. split; [done|]. eapply tiles_snoc; [exact Ht|done|lia|lia|done|lia].
  - rewrite (Hc i) by lia. cbn [result_bind]. replace (i + S n)%nat with (S i + n)%nat by lia.
    destruct (Z.ltb_spec cap (running + cost i)), (Nat.ltb_spec start i); simpl.
    + apply IH.
      * intros j Hj. apply Hc. lia.
      * eapply tiles_snoc; [exact Ht|done|lia|lia|done|lia].
      * intros r. rewrite last_snoc. intros [= <-]. simpl. lia.
      * lia.
      * replace (S i - i)%nat with 1%nat by lia. unfold range_cost. simpl. lia.
      * lia.
      * lia.
    + apply IH; try done; try lia; [intros j Hj; apply Hc; lia|].
      replace (S i - start)%nat with (S (i - start)) by lia. rewrite range_cost_snoc, Hrun.
      do 2 f_equal. lia.
    + apply IH; try done; try lia; [intros j Hj; apply Hc; lia|].
      replace (S i - start)%nat with (S (i - start)) by lia. rewrite range_cost_snoc, Hrun.
      do 2 f_equal. lia.
    + apply IH; try done; try lia; [intros j Hj; apply Hc; lia|].
      replace (S i - start)%nat with (S (i - start)) by lia. rewrite range_cost_snoc, Hrun.
      do 2 f_equal. lia.
Qed.

Lemma batch_bytes_loop_costed m cost n : ∀ i total,
  costed m cost i (i + n) → batch_bytes_loop m n i total = Ok (total + range_cost cost i n).
Proof.
  induction n as [|n IH]; intros i total Hc; simpl.
  - f_equal. unfold range_cost. simpl. lia.
  - rewrite (Hc i) by lia. cbn [result_bind]. rewrite IH by (intros j Hj; apply Hc; lia).
    f_equal. change (range_cost cost i (S n)) with (cost i + range_cost cost (S i) n). lia.
Qed.

Lemma range_cost_app cost lo a b :
  range_cost cost lo (a + b) = range_cost cost lo a + range_cost cost (lo + a) b.
Proof.
  induction b as [|b IH]; [rewrite Nat.add_0_r; unfold range_cost; simpl; lia|].
  rewrite Nat.add_succ_r, !range_cost_snoc, IH, Nat.add_assoc. lia.
Qed.

Lemma tiles_total cost cap hi ranges : ∀ lo, (lo ≤ hi)%nat →
  tiles cost cap lo hi ranges →
  foldr Z.add 0 ((λ r : nat * nat * Z, r.2) <$> ranges) = range_cost cost lo (hi - lo).
Proof.
  induction ranges as [|[[off len] b] rest IH]; intros lo Hlo; cbn [tiles].
  - intros ->. by rewrite Nat.sub_diag.
  - intros (-> & Hl & -> & _ & _ & Ht). rewrite fmap_cons. cbn [foldr snd].
    assert (lo + len ≤ hi)%nat as Hle.
    { clear -Ht. revert Ht. generalize (lo + len)%nat. induction rest as [|[[o l] b] rest IH]; intros k; simpl; [lia|].
      intros (-> & ? & _ & _ & _ & Ht). specialize (IH _ Ht). lia. }
    rewrite (IH (lo + len)%nat Hle Ht). replace (hi - lo)%nat with (len + (hi - (lo + len)))%nat by lia.
    by rewrite range_cost_app.
Qed.

Lemma chunk_ranges_ok (b : batch) (max_bytes : Z) (cost : nat → Z) :
  costed (build b) cost 0 (num_rows b) →
  ∃ ranges, chunk_row_ranges b max_bytes = Ok ranges ∧ tiles cost max_bytes 0 (num_rows b) ranges.
Proof.
  intros Hc. unfold chunk_row_ranges. destruct (Nat.eqb_spec (num_rows b) 0) as [->|Hn]; [by exists []|].
  apply (chunk_loop_tiles (build b) max_bytes cost (num_rows b) 0 0 0 []); try done; lia.
Qed.

(** C36 Chunking tiles the batch.  When every row has a cost under the batch's
    cost model, [chunk_row_ranges] succeeds; the ranges are consecutive and
    non-empty, cover exactly the rows of the batch, each carries the exact sum
    of its rows' costs, none exceeds the cap unless it is a single oversized
    row, none could have taken its next row, and together they add up to
    [batch_in_memory_bytes]. *)
Theorem chunk_row_ranges_tiles (b : batch) (max_bytes : Z) (cost : nat → Z)
    (Hc : costed (build b) cost 0 (num_rows b)) :
  ∃ ranges total, chunk_row_ranges b max_bytes = Ok ranges ∧
    tiles cost max_bytes 0 (num_rows b) ranges ∧
    batch_in_memory_bytes b = Ok total ∧
    foldr Z.add 0 ((λ r : nat * nat * Z, r.2) <$> ranges) = total.
Proof.
  destruct (chunk_ranges_ok b max_bytes cost Hc) as (ranges & Hr & Ht).
  exists ranges, (range_cost cost 0 (num_rows b)). split_and!; [done|done| |].
  - unfold batch_in_memory_bytes. by rewrite (batch_bytes_loop_costed _ cost).
  - rewrite (tiles_total cost max_bytes (num_rows b) ranges 0) by (done || lia). by rewrite Nat.sub_0_r.
Qed.

(** Three rows of an Int64 and a Utf8 column: 9 fixed bytes and [len + 5]. *)
Definition sample_batch : batch :=
  {| num_rows := 3;
     columns := [{| col_type := DtInt64; col_vals := [VFixed; VFixed; VFixed] |};
                 {| col_type := DtUtf8; col_vals := [VBytes 10; VBytes 100; VBytes 1] |}] |}.

Lemma chunk_row_ranges_tiles_witness :
  ∃ ranges total, chunk_row_ranges sample_batch 60 = Ok ranges ∧
    ranges = [(0%nat, 1%nat, 24); (1%nat, 1%nat, 114); (2%nat, 1%nat, 15)] ∧
    batch_in_memory_bytes sample_batch = Ok total ∧
    foldr Z.add 0 ((λ r : nat * nat * Z, r.2) <$> ranges) = total.
Proof.
  assert (costed (build sample_batch) (λ i, nth i [24; 114; 15] 0) 0 (num_rows sample_batch)) as Hc.
  { intros [|[|[|i]]] Hi; [reflexivity..|simpl in Hi; lia]. }
  destruct (chunk_row_ranges_tiles sample_batch 60 _ Hc) as (ranges & total & H1 & _ & H3 & H4).
  exists ranges, total. split_and!; [done| |done|done].
  vm_compute in H1. by injection H1 as <-.
Defined.
