(* ===== verification/BatchUtil.v ===== *)
(** * Record batches, partition identity and the clustering sort

    penca-api/src/lifecycle/batch_util.rs: the partition label and the typed
    partition order of a row, the split of a batch into partitions and the sort
    of a batch by its clustering keys, over record batches given row by row. *)

From S2P Require Import Prelude CoreTypes IndexSelect Ordered Chunker.
From stdpp Require Import base numbers list option sets sorting.

Open Scope Z_scope.
Open Scope result_scope.

(** ** Cells, schemas and rows *)

(** A cell: numbers, dates and times by their order-preserving integer, strings
    and binaries by their bytes, list values by their children. *)
Inductive value :=
  | VNull
  | VInt (z : Z)
  | VBin (bs : list Z)
  | VArr (vs : list value).

Record field := { field_name : Z; field_type : DataType }.
Notation schema := (list field).

(** A row is anything that shows one cell per field of the schema. *)
Class RowCells (R : Type) := cells : R → list value.

Definition cell_at {R} `{RowCells R} (i : nat) (r : R) : value := default VNull (cells r !! i).

Definition index_of (s : schema) (key : Z) : option nat :=
  fst <$> list_find (λ f, field_name f = key) s.

(** The column positions of [keys]; [e] is the error of a missing key. *)
Fixpoint key_indices (e : ApiError) (s : schema) (keys : list Z) : result ApiError (list nat) :=
  match keys with
  | [] => Ok []
  | key :: rest =>
      match index_of s key with
      | None => Err e
      | Some i => let? is_ := key_indices e s rest in Ok (i :: is_)
      end
  end.

Definition field_types (s : schema) (idxs : list nat) : list DataType :=
  omap (λ i, field_type <$> s !! i) idxs.

Definition key_cells {R} `{RowCells R} (idxs : list nat) (r : R) : list value :=
  (λ i, cell_at i r) <$> idxs.

(** ** The footprint of a batch *)

(** A cell as the chunker sees it; a null string is empty, a null list has no
    children, a null fixed-size list keeps its slots. *)
Fixpoint footprint (dt : DataType) (v : value) : arr_val :=
  match dt with
  | DtUtf8 | DtBinary | DtLargeUtf8 | DtLargeBinary | DtUtf8View | DtBinaryView =>
      VBytes (match v with VBin bs => Z.of_nat (length bs) | _ => 0 end)
  | DtList _ item _ | DtLargeList _ item _ =>
      VList (match v with VArr vs => footprint item <$> vs | _ => [] end)
  | DtFixedSizeList _ item _ size =>
      VList (match v with VArr vs => footprint item <$> vs
             | _ => replicate (Z.to_nat size) (footprint item VNull) end)
  | _ => VFixed
  end.

Definition record_batch {R} `{RowCells R} (s : schema) (rows : list R) : batch :=
  {| num_rows := length rows;
     columns := imap (λ i f, {| col_type := field_type f;
                                col_vals := (λ r, footprint (field_type f) (cell_at i r)) <$> rows |}) s |}.

(** ** Kernels of the Arrow and JSON libraries *)

Class ArrowKernels := {
  (** [arrow::util::display::array_value_to_string] of one slot *)
  array_value_to_string : DataType → value → list Z;
  (** [serde_json::to_string] of a list of strings *)
  json_string_list : list (list Z) → list Z;
  (** [arrow::row]: the comparable encoding of one row over typed columns *)
  convert_row : list DataType → list value → list Z;
  (** [arrow::compute::lexsort_to_indices] over the key cells of each row *)
  lexsort_to_indices : list DataType → list (list value) → list nat;
}.

(** What the source relies on: the sort is a permutation into the ascending
    order of the row encoding (ties in any order). *)
Class ArrowKernelsLaws (K : ArrowKernels) := {
  lexsort_permutes : ∀ ts ks, lexsort_to_indices ts ks ≡ₚ seq 0 (length ks);
  lexsort_ascends : ∀ ts ks,
    Sorted ole ((λ i, convert_row ts (default [] (ks !! i))) <$> lexsort_to_indices ts ks);
}.

Section batch_util.
Context {R : Type} `{RowCells R} {K : ArrowKernels}.

(** ** Partition identity *)

Definition partition_label (ts : list DataType) (vals : list value) : list Z :=
  let parts := zip_with array_value_to_string ts vals in
  if (length vals =? 1)%nat then default [] (head parts) else json_string_list parts.

Definition partition_sort_fields (s : schema) (keys : list Z) : result ApiError (list DataType) :=
  let? idxs := key_indices Internal s keys in Ok (field_types s idxs).

(** [PartitionOrderKey]: ordered by the typed encoding, then the label. *)
Definition PartitionOrderKey : Type := option (list Z) * option (list Z).
Definition sort_row (k : PartitionOrderKey) : option (list Z) := k.1.
Definition label (k : PartitionOrderKey) : option (list Z) := k.2.

Record PartitionOrdering := { po_keys : list Z; converter : option (list DataType) }.

Definition PartitionOrdering_new (s : schema) (keys : list Z) : result ApiError PartitionOrdering :=
  match keys with
  | [] => Ok {| po_keys := keys; converter := None |}
  | _ => let? fs := partition_sort_fields s keys in Ok {| po_keys := keys; converter := Some fs |}
  end.

Definition order_key_from_key_arrays (o : PartitionOrdering) (vals : list value) (l : option (list Z)) :
    PartitionOrderKey :=
  ((λ ts, convert_row ts vals) <$> converter o, l).

Definition order_key_at (o : PartitionOrdering) (idxs : list nat) (r : R) (l : option (list Z)) :
    PartitionOrderKey :=
  order_key_from_key_arrays o (key_cells idxs r) l.

(** ** The clustering sort *)

Definition sort_record_batch_by_keys (s : schema) (rows : list R) (keys : list Z) :
    result ApiError (list R) :=
  match keys, rows with
  | [], _ | _, [] => Ok rows
  | _, _ =>
      let? idxs := key_indices Internal s keys in
      Ok (omap (rows !!.) (lexsort_to_indices (field_types s idxs) (key_cells idxs <$> rows)))
  end.

(** ** Splitting a batch into partitions *)

Definition group_rows (ts : list DataType) (idxs : list nat) (rows : list R) : list (list Z * list R) :=
  group_by (λ r, partition_label ts (key_cells idxs r)) id rows.

(** The group's order key: row 0 stands for the group. *)
Definition group_order_key (o : PartitionOrdering) (idxs : list nat) (g : list Z * list R) :
    PartitionOrderKey :=
  order_key_from_key_arrays o (match g.2 with r :: _ => key_cells idxs r | [] => [] end) (Some g.1).

Definition partition_record_batch (s : schema) (rows : list R) (partition_keys : list Z) :
    result ApiError (list (option (list Z) * list R)) :=
  match partition_keys with
  | [] => Ok [(None, rows)]
  | _ =>
      let? idxs := key_indices InvalidRequest s partition_keys in
      let ts := field_types s idxs in
      let groups := group_rows ts idxs rows in
      let? o := PartitionOrdering_new s partition_keys in
      let out := (λ g, (group_order_key o idxs g, g)) <$> groups in
      Ok ((λ p, (Some p.2.1, p.2.2)) <$> merge_sort (λ a b, ole a.1 b.1) out)
  end.

End batch_util.

(** ** The cost of a row *)

Section row_cost.
Context {R : Type} `{RowCells R} (s : schema).

(** The footprint the chunker's model gives a row on its own. *)
Definition row_cost (r : R) : result ApiError Z := row_bytes (build (record_batch s [r])) 0.

Definition same_slot (i j : nat) (c d : column) : Prop :=
  col_type c = col_type d ∧ col_vals c !! i = col_vals d !! j.

Lemma build_loop_slots i j cols1 cols2 m1 m2 :
  Forall2 (same_slot i j) cols1 cols2 →
  fixed_per_row m1 = fixed_per_row m2 → Forall2 (same_slot i j) (variable_cols m1) (variable_cols m2) →
  fixed_per_row (build_loop m1 cols1) = fixed_per_row (build_loop m2 cols2) ∧
  Forall2 (same_slot i j) (variable_cols (build_loop m1 cols1)) (variable_cols (build_loop m2 cols2)).
Proof.
  intros HF. revert m1 m2. induction HF as [|c d cols1 cols2 [Ht Hv] HF IH]; intros m1 m2 Hf Hc; simpl; [done|].
  rewrite Ht. destruct (fixed_width_byte_width (col_type d)); apply IH; simpl; try done; [by f_equal|].
  apply Forall2_app; [done|]. by constructor.
Qed.

Lemma row_bytes_loop_slots i j cols1 cols2 acc :
  Forall2 (same_slot i j) cols1 cols2 → row_bytes_loop acc cols1 i = row_bytes_loop acc cols2 j.
Proof.
  intros HF. revert acc. induction HF as [|c d cols1 cols2 [Ht Hv] HF IH]; intros acc; simpl; [done|].
  rewrite Hv, Ht. destruct (col_vals d !! j); [|done].
  destruct (variable_width_row_bytes (col_type d) _); [apply IH|done].
Qed.

(** A row's cost does not depend on the batch it is in. *)
Lemma row_bytes_row_cost rows i r :
  rows !! i = Some r → row_bytes (build (record_batch s rows)) i = row_cost r.
Proof.
  intros Hr. unfold row_cost, row_bytes, build.
  assert (Forall2 (same_slot i 0) (columns (record_batch s rows)) (columns (record_batch s [r]))) as HF.
  { simpl. apply Forall2_same_length_lookup_2; [by rewrite !length_imap|].
    intros k c d Hc Hd. rewrite list_lookup_imap in Hc, Hd. destruct (s !! k) as [f|]; simplify_eq/=.
    split; simpl; [done|]. by rewrite list_lookup_fmap, Hr. }
  destruct (build_loop_slots i 0 _ _ {| fixed_per_row := 0; variable_cols := [] |}
              {| fixed_per_row := 0; variable_cols := [] |} HF eq_refl (List.Forall2_nil _)) as [-> HF'].
  by apply row_bytes_loop_slots.
Qed.

Lemma fixed_width_bytes_nonneg c w : fixed_width_bytes c = Some w → 0 ≤ w.
Proof. destruct c; simpl; intros [= <-]; lia. Qed.

Lemma fixed_width_byte_width_nonneg dt w : fixed_width_byte_width dt = Some w → 0 ≤ w.
Proof.
  unfold fixed_width_byte_width. destruct (from_arrow dt); [|done]. apply fixed_width_bytes_nonneg.
Qed.

Lemma child_sum_nonneg fw (cost : arr_val → result ApiError Z) vs : ∀ acc n,
  (∀ w, fw = Some w → 0 ≤ w) → (∀ v n, v ∈ vs → cost v = Ok n → 0 ≤ n) →
  child_sum fw cost acc vs = Ok n → acc ≤ n.
Proof.
  induction vs as [|v vs IH]; intros acc n Hw Hc; simpl; [intros [= ->]; lia|].
  assert (∀ v n, v ∈ vs → cost v = Ok n → 0 ≤ n) as Hc' by (intros ? ? ?; apply Hc; by right).
  destruct fw as [w|].
  - intros Hs. apply IH in Hs; [|done|done]. specialize (Hw w eq_refl). lia.
  - destruct (cost v) as [b|] eqn:E; [|done]. simpl. intros Hs. apply IH in Hs; [|done|done].
    apply Hc in E; [lia|by left].
Qed.

Lemma footprint_cost_nonneg dt : ∀ v n,
  variable_width_row_bytes dt (footprint dt v) = Ok n → 0 ≤ n.
Proof.
  induction dt; intros v n; simpl; try done;
    try (intros [= <-]; destruct v; lia);
    (destruct (child_sum _ _ _ _) as [b|] eqn:E; [|done]; simpl; intros [= <-];
     apply child_sum_nonneg in E;
     [lia|apply fixed_width_byte_width_nonneg|
      intros w k Hin; destruct v; try (by apply elem_of_nil in Hin);
      first [apply list_elem_of_fmap in Hin as (x & -> & _) | apply elem_of_replicate in Hin as [-> _]];
      apply IHdt]).
Qed.

Lemma build_loop_nonneg cols m : 0 ≤ fixed_per_row m → 0 ≤ fixed_per_row (build_loop m cols).
Proof.
  revert m. induction cols as [|c cols IH]; intros m Hm; simpl; [done|]. apply IH.
  destruct (fixed_width_byte_width (col_type c)) eqn:E; simpl; [|done].
  apply fixed_width_byte_width_nonneg in E. lia.
Qed.

Lemma build_loop_variable cols m c :
  c ∈ variable_cols (build_loop m cols) → c ∈ variable_cols m ∨ c ∈ cols.
Proof.
  revert m. induction cols as [|d cols IH]; intros m; simpl; [auto|]. intros [Hin|Hin]%IH; [|set_solver].
  destruct (fixed_width_byte_width (col_type d)); simpl in Hin; set_solver.
Qed.

Lemma row_bytes_loop_nonneg cols i acc n :
  (∀ c v m, c ∈ cols → col_vals c !! i = Some v → variable_width_row_bytes (col_type c) v = Ok m → 0 ≤ m) →
  row_bytes_loop acc cols i = Ok n → acc ≤ n.
Proof.
  revert acc. induction cols as [|c cols IH]; intros acc Hc; simpl; [intros [= ->]; lia|].
  destruct (col_vals c !! i) as [v|] eqn:Ev; [|done].
  destruct (variable_width_row_bytes (col_type c) v) as [w|] eqn:Ew; [|done]. simpl.
  intros Hn. apply IH in Hn; [|intros ? ? ? ?; apply Hc; by right].
  apply (Hc c v w) in Ew; [lia|by left|done].
Qed.

Lemma row_cost_nonneg r n : row_cost r = Ok n → 0 ≤ n.
Proof.
  unfold row_cost, row_bytes. intros Hn.
  apply row_bytes_loop_nonneg in Hn.
  - pose proof (build_loop_nonneg (columns (record_batch s [r])) {| fixed_per_row := 0; variable_cols := [] |}).
    unfold build in Hn. simpl in *. lia.
  - intros c v m [Hin|Hin]%build_loop_variable Hv; [by apply elem_of_nil in Hin|].
    simpl in Hin. apply elem_of_lookup_imap in Hin as (k & f & -> & _). simpl in *.
    injection Hv as <-. apply footprint_cost_nonneg.
Qed.

End row_cost.

(** ** The sort and the split *)

Lemma omap_lookup_seq {A} (l : list A) : omap (l !!.) (seq 0 (length l)) = l.
Proof.
  induction l as [|x l IH] using rev_ind; [done|].
  rewrite length_app. simpl. rewrite seq_app, omap_app. simpl.
  rewrite list_lookup_middle by done. f_equal. rewrite <- IH at 2.
  apply list_omap_ext. apply Forall2_same_length_lookup_2; [done|].
  intros i x' y' Hx Hy. simplify_eq. apply lookup_seq in Hx as [-> Hi]. simpl.
  by rewrite lookup_app_l.
Qed.

Section sort_split.
Context {R : Type} `{RowCells R} {K : ArrowKernels} (s : schema).

(** A row's position in the clustering order. *)
Definition sort_code (idxs : list nat) (r : R) : list Z := convert_row (field_types s idxs) (key_cells idxs r).

Lemma sort_unfold (rows : list R) keys :
  keys ≠ [] → rows ≠ [] →
  sort_record_batch_by_keys s rows keys =
    let? idxs := key_indices Internal s keys in
    Ok (omap (rows !!.) (lexsort_to_indices (field_types s idxs) (key_cells idxs <$> rows))).
Proof. by destruct keys, rows. Qed.

Lemma sort_trivial (rows : list R) keys :
  keys = [] ∨ rows = [] → sort_record_batch_by_keys s rows keys = Ok rows.
Proof. intros [-> | ->]; [done|by destruct keys]. Qed.

Lemma sort_permutes `{!ArrowKernelsLaws K} (rows out : list R) keys :
  sort_record_batch_by_keys s rows keys = Ok out → out ≡ₚ rows.
Proof.
  destruct (decide (keys = [])) as [Hk|Hk]; [rewrite sort_trivial by auto; by intros [= ->]|].
  destruct rows as [|r rows]; [rewrite sort_trivial by auto; by intros [= ->]|].
  rewrite sort_unfold by done. generalize (r :: rows). intros all.
  destruct (key_indices Internal s keys) as [idxs|]; [|done]. cbn [result_bind]. intros [= <-].
  rewrite (lexsort_permutes (field_types s idxs) (key_cells idxs <$> all)), length_fmap.
  by rewrite omap_lookup_seq.
Qed.

Lemma sort_ascends `{!ArrowKernelsLaws K} (rows out : list R) keys idxs :
  key_indices Internal s keys = Ok idxs → keys ≠ [] →
  sort_record_batch_by_keys s rows keys = Ok out → Sorted ole (sort_code idxs <$> out).
Proof.
  intros Hi Hk. destruct rows as [|r rows]; [rewrite sort_trivial by auto; intros [= <-]; constructor|].
  rewrite sort_unfold by done. generalize (r :: rows). intros all.
  rewrite Hi. cbn [result_bind]. intros [= <-]. set (ts := field_types s idxs).
  pose proof (lexsort_ascends ts (key_cells idxs <$> all)) as Hs.
  pose proof (lexsort_permutes ts (key_cells idxs <$> all)) as Hp. rewrite length_fmap in Hp.
  assert (sort_code idxs <$> omap (all !!.) (lexsort_to_indices ts (key_cells idxs <$> all)) =
          (λ i, convert_row ts (default [] ((key_cells idxs <$> all) !! i))) <$>
            lexsort_to_indices ts (key_cells idxs <$> all)) as ->; [|done].
  assert (∀ i, i ∈ lexsort_to_indices ts (key_cells idxs <$> all) → (i < length all)%nat) as Hlt.
  { intros i. rewrite Hp, elem_of_seq. lia. }
  clear Hs Hp. induction (lexsort_to_indices ts (key_cells idxs <$> all)) as [|i l IH]; [done|].
  cbn [omap list_omap fmap list_fmap]. destruct (lookup_lt_is_Some_2 all i) as [x Hx]; [apply Hlt; by left|].
  rewrite Hx, list_lookup_fmap, Hx. cbn. f_equal. apply IH. intros j Hj. apply Hlt. by right.
Qed.

(** *** Groups *)

Lemma group_rows_ascending ts idxs (rows : list R) : ascending (group_rows ts idxs rows).
Proof. apply group_by_ascending. Qed.

Definition labelled (ts : list DataType) (idxs : list nat) (l : list Z) (r : R) : Prop :=
  partition_label ts (key_cells idxs r) = l.

#[export] Instance labelled_dec ts idxs l r : Decision (labelled ts idxs l r).
Proof. unfold labelled. apply _. Defined.

(** A group is its label's rows, in batch order; no group is empty. *)
Lemma group_rows_elem ts idxs (rows : list R) l g :
  (l, g) ∈ group_rows ts idxs rows ↔ g = filter (labelled ts idxs l) rows ∧ g ≠ [].
Proof.
  unfold group_rows. rewrite group_by_elem, list_fmap_id.
  by rewrite (list_filter_iff _ (labelled ts idxs l)) by (intros r; done).
Qed.

Lemma group_rows_concat ts idxs (rows : list R) : concat ((group_rows ts idxs rows).*2) ≡ₚ rows.
Proof. unfold group_rows. by rewrite group_by_concat, list_fmap_id. Qed.

End sort_split.
