(* ===== verification/SeekBatch.v ===== *)
(** * Point lookups from filters (penca-datafusion/src/{pk_ids,expr_to_sql,table}.rs,
      penca-api/src/pk_batch.rs)

    The scan of a SQL table looks for the key columns its filters pin to
    literals and sends the values as a batch; the server derives the row
    identities of a primary-key batch and reads only those rows.  Expressions,
    their evaluation and their rendering are DataFusion's: a row's truth value of
    a filter is defined here for the shapes the code inspects, every other
    expression being opaque. *)

From S2P Require Import Prelude CoreTypes Naming IndexSelect BatchUtil.
From stdpp Require Import base numbers list option strings pretty countable gmap sets.

Open Scope Z_scope.

#[export] Instance DataType_eq_dec : EqDecision DataType.
Proof. solve_decision. Defined.

#[export] Instance value_eq_dec : EqDecision value.
Proof.
  refine (fix go (x y : value) : Decision (x = y) :=
    match x, y with
    | VNull, VNull => left eq_refl
    | VInt a, VInt b => cast_if (decide (a = b))
    | VBin a, VBin b => cast_if (decide (a = b))
    | VArr a, VArr b => cast_if (@decide (a = b) (@list_eq_dec _ go a b))
    | _, _ => right _
    end); congruence.
Defined.

(** ** Expressions *)

Record ScalarValue := { sv_type : DataType; sv_value : value }.

#[export] Instance ScalarValue_eq_dec : EqDecision ScalarValue.
Proof. solve_decision. Defined.

Definition is_null (s : ScalarValue) : bool := bool_decide (sv_value s = VNull).

Inductive Operator :=
  | OpEq | OpNotEq | OpLt | OpLtEq | OpGt | OpGtEq | OpAnd | OpOr
  | OpPlus | OpMinus | OpMultiply | OpDivide | OpModulo | OpOther (n : Z).

#[export] Instance Operator_eq_dec : EqDecision Operator.
Proof. solve_decision. Defined.

(** The one-argument forms [is_translatable] lists. *)
Inductive UnaryForm :=
  | IsNull | IsNotNull | IsTrue | IsFalse | IsNotTrue | IsNotFalse | Not | Negative.

Inductive Expr :=
  | Column (name : Z)
  | Literal (s : ScalarValue)
  | BinaryExpr (left : Expr) (op : Operator) (right : Expr)
  | Unary (form : UnaryForm) (inner : Expr)
  | InList (e : Expr) (items : list Expr) (negated : bool)
  | Like (e pattern : Expr)
  | SimilarTo (e pattern : Expr)
  | Between (e low high : Expr)
  | OtherExpr (n : Z).

(** [split_conjunction] and [split_binary] of DataFusion. *)
Fixpoint split_binary (op : Operator) (e : Expr) : list Expr :=
  match e with
  | BinaryExpr l o r => if decide (o = op) then split_binary op l ++ split_binary op r else [e]
  | _ => [e]
  end.

Definition split_conjunction (e : Expr) : list Expr := split_binary OpAnd e.

(** ** The seek batch *)

Record Batch := { b_fields : list field; b_columns : list (list value) }.

(** Arrow's casts, the type two types are compared in ([None] when a bare
    comparison of them is not evaluated), the comparison of two scalars of one
    type, the IPC codec and the display of a slot. *)
Class Arrow := {
  cast_to : ScalarValue → DataType → option ScalarValue;
  comparison_type : DataType → DataType → option DataType;
  eq_kernel : ScalarValue → ScalarValue → bool;
  encode_batch_ipc : Batch → option (list Z);
  read_ipc : list Z → option (list Batch);
  array_value_to_string : DataType → value → option string;
}.

Definition is_float (dt : DataType) : bool :=
  match dt with DtFloat16 | DtFloat32 | DtFloat64 => true | _ => false end.

(** The literal of a bare equality on exactly the named column. *)
Definition eq_literal_for (e : Expr) (pk : Z) : option ScalarValue :=
  match e with
  | BinaryExpr (Column c) OpEq (Literal l) => if decide (c = pk) then Some l else None
  | BinaryExpr (Literal l) OpEq (Column c) => if decide (c = pk) then Some l else None
  | _ => None
  end.

Definition as_literal (e : Expr) : option ScalarValue := match e with Literal l => Some l | _ => None end.

Fixpoint pk_literals (conjuncts : list Expr) (pk : Z) (allow_multi_row : bool) : option (list ScalarValue) :=
  match conjuncts with
  | [] => None
  | e :: rest =>
      match e with
      | BinaryExpr _ OpEq _ =>
          match eq_literal_for e pk with
          | Some l => Some [l]
          | None => pk_literals rest pk allow_multi_row
          end
      | BinaryExpr _ OpOr _ =>
          if allow_multi_row then
            match mapM (λ d, eq_literal_for d pk) (split_binary OpOr e) with
            | Some (v :: vs) => Some (v :: vs)
            | _ => pk_literals rest pk allow_multi_row
            end
          else pk_literals rest pk allow_multi_row
      | InList e' items negated =>
          if allow_multi_row && negb negated then
            match e' with
            | Column c =>
                if decide (c ≠ pk ∨ items = []) then pk_literals rest pk allow_multi_row
                else mapM as_literal items
            | _ => pk_literals rest pk allow_multi_row
            end
          else pk_literals rest pk allow_multi_row
      | _ => pk_literals rest pk allow_multi_row
      end
  end.

(** SQL's [=] of two scalars: null when either is null, otherwise the comparison
    of both cast to their comparison type. *)
Definition sql_eq `{Arrow} (a b : ScalarValue) : option bool :=
  if is_null a || is_null b then None
  else
    dt ← comparison_type (sv_type a) (sv_type b);
    x ← cast_to a dt;
    y ← cast_to b dt;
    if is_null x || is_null y then None else Some (eq_kernel x y).

Section seek.
Context {A : Arrow}.

Definition lossless_cast (value : ScalarValue) (declared : DataType) : option ScalarValue :=
  if is_null value then None
  else if is_float (sv_type value) then None
  else if decide (sv_type value = declared) then Some value
  else
    casted ← cast_to value declared;
    if is_null casted then None
    else
      round_tripped ← cast_to casted (sv_type value);
      if decide (round_tripped = value) then Some casted else None.

(** [ScalarValue::iter_to_array]: one or more scalars of one type. *)
Definition iter_to_array (values : list ScalarValue) : option (list value) :=
  match values with
  | [] => None
  | v :: _ => if decide (Forall (λ w, sv_type w = sv_type v) values) then Some (sv_value <$> values) else None
  end.

Definition field_with_name (s : schema) (name : Z) : option field := list_find (λ f, field_name f = name) s ≫= λ p, Some p.2.

(** [RecordBatch::try_new]: columns of one length. *)
Definition batch_try_new (fields : list field) (columns : list (list value)) : option Batch :=
  match columns with
  | [] => None
  | c :: _ => if decide (Forall (λ d, length d = length c) columns) then Some {| b_fields := fields; b_columns := columns |} else None
  end.

Definition num_rows (b : Batch) : nat := default 0%nat (length <$> head (b_columns b)).

Record PkIds := { ipc_bytes : list Z; row_count : nat }.

(** One key column: its declared field and its values. *)
Definition key_column (conjuncts : list Expr) (arrow_schema : schema) (allow_multi_row : bool) (key : Z) :
    option (field * list value) :=
  f ← field_with_name arrow_schema key;
  if is_float (field_type f) then None
  else
    literals ← pk_literals conjuncts key allow_multi_row;
    values ← mapM (λ v, lossless_cast v (field_type f)) literals;
    column ← iter_to_array values;
    Some ({| field_name := key; field_type := field_type f |}, column).

Definition build_seek_batch (filters : list Expr) (arrow_schema : schema) (key_columns : list Z) : option PkIds :=
  match key_columns with
  | [] => None
  | _ =>
      let conjuncts := filters ≫= split_conjunction in
      let allow_multi_row := bool_decide (length key_columns = 1%nat) in
      cols ← mapM (key_column conjuncts arrow_schema allow_multi_row) key_columns;
      batch ← batch_try_new (fst <$> cols) (snd <$> cols);
      bytes ← encode_batch_ipc batch;
      Some {| ipc_bytes := bytes; row_count := num_rows batch |}
  end.

End seek.

(** One conjunct is an equality shape on a seeked column. *)
Definition is_seeked_equality (seeked_columns : list Z) (e : Expr) : bool :=
  match e with
  | BinaryExpr _ OpEq _ => existsb (λ column, bool_decide (is_Some (eq_literal_for e column))) seeked_columns
  | BinaryExpr _ OpOr _ =>
      let disjuncts := split_binary OpOr e in
      bool_decide (disjuncts ≠ []) &&
      existsb (λ column, forallb (λ d, bool_decide (is_Some (eq_literal_for d column))) disjuncts) seeked_columns
  | InList e' items false =>
      bool_decide (items ≠ []) &&
      match e' with Column c => bool_decide (c ∈ seeked_columns) | _ => false end &&
      forallb (λ i, match i with Literal _ => true | _ => false end) items
  | _ => false
  end.

Definition all_conjuncts_seeked (filters : list Expr) (seeked_columns : list Z) : bool :=
  let conjuncts := filters ≫= split_conjunction in
  bool_decide (conjuncts ≠ []) && forallb (is_seeked_equality seeked_columns) conjuncts.

(** ** The pushed filter *)

Definition is_translatable_op (op : Operator) : bool := match op with OpOther _ => false | _ => true end.

Fixpoint is_translatable (e : Expr) : bool :=
  match e with
  | Column _ | Literal _ => true
  | BinaryExpr l op r => is_translatable_op op && is_translatable l && is_translatable r
  | Unary _ inner => is_translatable inner
  | InList e' items _ => is_translatable e' && forallb is_translatable items
  | Like e' p | SimilarTo e' p => is_translatable e' && is_translatable p
  | Between e' low high => is_translatable e' && is_translatable low && is_translatable high
  | OtherExpr _ => false
  end.

(** The conjunction sent as the WHERE fragment, by its parts; [unparse] is
    whether the Postgres unparser renders an expression. *)
Definition exprs_to_where_fragment (unparse : Expr → bool) (filters : list Expr) : option (list Expr) :=
  match filter (λ e, is_translatable e = true ∧ unparse e = true) filters with
  | [] => None
  | parts => Some parts
  end.

(** ** The scan's request *)

Record ScanRequest := {
  req_ids : option PkIds;
  req_index_columns : list Z;
  req_indexes : option PkIds;
  req_filter : option (list Expr);
}.

Section scan.
Context {A : Arrow} (unparse : Expr → bool).

(** The union, in order of first use, of the key columns of the bound indexes. *)
Definition bound_columns (filters : list Expr) (arrow_schema : schema) (indexes : list (list Z)) : list Z :=
  foldl (λ acc key_columns,
    match build_seek_batch filters arrow_schema key_columns with
    | Some _ => foldl (λ (acc : list Z) (column : Z), if decide (column ∈ acc) then acc else acc ++ [column]) acc key_columns
    | None => acc
    end) [] indexes.

Definition scan (arrow_schema : schema) (primary_keys : list Z) (indexes : list (list Z)) (filters : list Expr) : ScanRequest :=
  let pk_ids := build_seek_batch filters arrow_schema primary_keys in
  let index_columns := bound_columns filters arrow_schema indexes in
  let index_seek := build_seek_batch filters arrow_schema index_columns in
  let seeked_columns :=
    (match pk_ids with Some _ => primary_keys | None => [] end) ++
    (match index_seek with Some _ => index_columns | None => [] end) in
  {| req_ids := pk_ids;
     req_index_columns := index_columns;
     req_indexes := index_seek;
     req_filter := if all_conjuncts_seeked filters seeked_columns then None
                   else exprs_to_where_fragment unparse filters |}.
End scan.

(** ** Row identities of a primary-key batch *)

Open Scope result_scope.

Section server.
Context {A : Arrow} {H : ContentHash}.

Definition ensure_no_null_pks (pk_columns : list (list value)) : result ApiError unit :=
  if decide (Forall (λ c, VNull ∉ c) pk_columns) then Ok tt else Err InvalidRequest.

Fixpoint pk_types_match (fields : list field) (user_schema : schema) (primary_keys : list Z) : result ApiError unit :=
  match primary_keys, fields with
  | pk :: pks, f :: fs =>
      match field_with_name user_schema pk with
      | None => Err InvalidRequest
      | Some declared =>
          if decide (field_type f = field_type declared) then pk_types_match fs user_schema pks else Err InvalidRequest
      end
  | _, _ => Ok tt
  end.

Definition validate_pk_batch_schema (batch : Batch) (user_schema : schema) (primary_keys : list Z) : result ApiError unit :=
  if decide (field_name <$> b_fields batch = primary_keys) then
    let? _ := pk_types_match (b_fields batch) user_schema primary_keys in
    ensure_no_null_pks (b_columns batch)
  else Err InvalidRequest.

(** The cells of row [i]. *)
Definition batch_row (batch : Batch) (i : nat) : list value := (λ c, default VNull (c !! i)) <$> b_columns batch.

(** The row-identity kernel: display every key cell, hash them. *)
Definition row_uuid_for_row (types : list DataType) (cells : list value) (table_uuid : Z) : result ApiError Z :=
  match mapM (λ p : DataType * value, array_value_to_string p.1 p.2) (zip types cells) with
  | Some pk_values => Ok (row_uuid_for_pk table_uuid pk_values)
  | None => Err Internal
  end.

Fixpoint collect {X} (rs : list (result ApiError X)) : result ApiError (list X) :=
  match rs with
  | [] => Ok []
  | r :: rest => let? x := r in let? xs := collect rest in Ok (x :: xs)
  end.

Definition derive_row_uuids (batch : Batch) (table_uuid : Z) : result ApiError (list Z) :=
  collect ((λ i, row_uuid_for_row (field_type <$> b_fields batch) (batch_row batch i) table_uuid) <$> seq 0 (num_rows batch)).

Definition validated_row_uuids_from_batch (batch : Batch) (table_uuid : Z) (user_schema : schema) (primary_keys : list Z) :
    result ApiError (list Z) :=
  let? _ := validate_pk_batch_schema batch user_schema primary_keys in derive_row_uuids batch table_uuid.

Definition row_uuids_from_pk_ipc (bytes : list Z) (table_uuid : Z) (user_schema : schema) (primary_keys : list Z) :
    result ApiError (list Z) :=
  match read_ipc bytes with
  | None => Err InvalidRequest
  | Some batches =>
      let? uuids := collect ((λ b, validated_row_uuids_from_batch b table_uuid user_schema primary_keys) <$>
                             filter (λ b, num_rows b ≠ 0%nat) batches) in
      match mjoin uuids with
      | [] => Err InvalidRequest
      | row_uuids => Ok row_uuids
      end
  end.

Definition optional_row_uuids (ids_bytes : list Z) (table_uuid : Z) (user_schema : schema) (primary_keys : list Z) :
    result ApiError (option (list Z)) :=
  match ids_bytes with
  | [] => Ok None
  | _ => let? uuids := row_uuids_from_pk_ipc ids_bytes table_uuid user_schema primary_keys in Ok (Some uuids)
  end.

End server.

(** ** What a filter says of a row *)

(** The laws of the engine the extraction relies on.  A cast has its target type
    and keeps a value of that type; comparing is symmetric; two equal scalars of a
    non-float type are the same scalar (floats have two zeros).  Two non-float
    types are compared in a non-float type that tells the values of each apart
    (between a float and an integer it would be the float's, where integers above
    2^53 collapse).  A cast that can be undone keeps the value: the original and
    the cast are the same when compared.  What is encoded is read back. *)
Class ArrowLaws (A : Arrow) : Prop := {
  cast_typed : ∀ v dt w, cast_to v dt = Some w → sv_type w = dt;
  comparison_sym : ∀ t u, comparison_type t u = comparison_type u t;
  eq_kernel_sym : ∀ a b, eq_kernel a b = eq_kernel b a;
  eq_kernel_exact : ∀ a b, sv_type a = sv_type b → is_float (sv_type a) = false → eq_kernel a b = true → a = b;
  comparison_exact : ∀ t u dt, is_float t = false → is_float u = false → comparison_type t u = Some dt →
    is_float dt = false ∧
    ∀ a b x, sv_type a = t → sv_type b = t → cast_to a dt = Some x → cast_to b dt = Some x → a = b;
  cast_undone : ∀ l w dt x, cast_to l (sv_type w) = Some w → cast_to w (sv_type l) = Some l →
    comparison_type (sv_type w) (sv_type l) = Some dt → cast_to l dt = Some x → cast_to w dt = Some x;
  ipc_roundtrip : ∀ b bytes, encode_batch_ipc b = Some bytes → bytes ≠ [] ∧ read_ipc bytes = Some [b];
}.

Section truth.
Context {A : Arrow} (opaque : Expr → (Z → ScalarValue) → ScalarValue).
Context (opaque_truth : Expr → (Z → ScalarValue) → option bool).

Definition and3 (a b : option bool) : option bool :=
  match a, b with
  | Some false, _ | _, Some false => Some false
  | Some true, Some true => Some true
  | _, _ => None
  end.

Definition or3 (a b : option bool) : option bool :=
  match a, b with
  | Some true, _ | _, Some true => Some true
  | Some false, Some false => Some false
  | _, _ => None
  end.

Definition scalar_of (e : Expr) (r : Z → ScalarValue) : ScalarValue :=
  match e with
  | Column c => r c
  | Literal l => l
  | _ => opaque e r
  end.

(** SQL's three-valued truth of a filter. *)
Fixpoint truth (e : Expr) (r : Z → ScalarValue) : option bool :=
  match e with
  | BinaryExpr l OpAnd x => and3 (truth l r) (truth x r)
  | BinaryExpr l OpOr x => or3 (truth l r) (truth x r)
  | BinaryExpr l OpEq x => sql_eq (scalar_of l r) (scalar_of x r)
  | InList e' items false => foldr or3 (Some false) ((λ i, sql_eq (scalar_of e' r) (scalar_of i r)) <$> items)
  | _ => opaque_truth e r
  end.

End truth.

(** ** Extraction *)

Section extraction.
Context {A : Arrow} `{!ArrowLaws A} (opaque : Expr → (Z → ScalarValue) → ScalarValue).
Context (opaque_truth : Expr → (Z → ScalarValue) → option bool).
Context (r : Z → ScalarValue).

Notation true_on := (λ e, truth opaque opaque_truth e r = Some true).

Lemma sql_eq_sym a b : sql_eq a b = sql_eq b a.
Proof.
  unfold sql_eq. rewrite orb_comm, comparison_sym. destruct (is_null b || is_null a); [done|].
  destruct (comparison_type _ _) as [dt|]; [|done]. simpl. destruct (cast_to a dt) as [x|], (cast_to b dt) as [y|]; simpl; try done.
  by rewrite orb_comm, eq_kernel_sym.
Qed.

Lemma sql_eq_null a b : is_null a = true → sql_eq a b = None.
Proof. unfold sql_eq. by intros ->. Qed.

(** Two non-float scalars that compare equal are one value of the comparison type. *)
Lemma sql_eq_casts a b :
  is_float (sv_type a) = false → is_float (sv_type b) = false → sql_eq a b = Some true →
  ∃ dt x, comparison_type (sv_type a) (sv_type b) = Some dt ∧ cast_to a dt = Some x ∧ cast_to b dt = Some x.
Proof using ArrowLaws0.
  intros Ha Hb. unfold sql_eq. destruct (is_null a || is_null b); [done|].
  destruct (comparison_type (sv_type a) (sv_type b)) as [dt|] eqn:Ec; [|done]. simpl.
  destruct (cast_to a dt) as [x|] eqn:Ex; [|done]. simpl. destruct (cast_to b dt) as [y|] eqn:Ey; [|done]. simpl.
  destruct (is_null x || is_null y); [done|]. intros [= Heq]. destruct (comparison_exact _ _ _ Ha Hb Ec) as [Hf _].
  exists dt, x. split_and!; [done|done|]. rewrite Ey. f_equal. symmetry.
  apply eq_kernel_exact; [|by rewrite (cast_typed _ _ _ Ex)|done]. by rewrite (cast_typed _ _ _ Ex), (cast_typed _ _ _ Ey).
Qed.

(** The guard is enough: a cell of a non-float column that SQL finds equal to a
    literal is what [lossless_cast] made of the literal. *)
Lemma lossless_cast_exact c l w :
  is_float (sv_type c) = false → lossless_cast l (sv_type c) = Some w → sql_eq c l = Some true → c = w.
Proof using ArrowLaws0.
  intros Hc. unfold lossless_cast. destruct (is_null l); [done|]. destruct (is_float (sv_type l)) eqn:Hl; [done|].
  intros Hw Heq. destruct (sql_eq_casts c l Hc Hl Heq) as (dt & x & Hdt & Hcx & Hlx).
  destruct (comparison_exact _ _ _ Hc Hl Hdt) as [_ Hinj].
  destruct (decide (sv_type l = sv_type c)) as [Ht|]; [simplify_eq; by apply (Hinj c w x)|].
  destruct (cast_to l (sv_type c)) as [w'|] eqn:Ew; [|done]. simpl in Hw. destruct (is_null w'); [done|].
  destruct (cast_to w' (sv_type l)) as [l'|] eqn:El; [|done]. simpl in Hw. destruct (decide (l' = l)) as [->|]; [|done].
  simplify_eq. pose proof (cast_typed _ _ _ Ew) as Htw. apply (Hinj c w x); [done|done|done|].
  apply (cast_undone l); rewrite ?Htw; done.
Qed.

Lemma and3_true a b : and3 a b = Some true ↔ a = Some true ∧ b = Some true.
Proof. destruct a as [[]|], b as [[]|]; naive_solver. Qed.

Lemma or3_true a b : or3 a b = Some true ↔ a = Some true ∨ b = Some true.
Proof. destruct a as [[]|], b as [[]|]; naive_solver. Qed.

Lemma foldr_or3_true l : foldr or3 (Some false) l = Some true → Some true ∈ l.
Proof. induction l as [|a l IH]; simpl; [done|]. intros [->|Hl]%or3_true; [left|right; auto]. Qed.

Lemma conjuncts_true e : true_on e → Forall true_on (split_conjunction e).
Proof.
  unfold split_conjunction. induction e as [| |l IHl op x IHx| | | | | |]; cbn [split_binary]; intros He; try by repeat constructor.
  destruct (decide (op = OpAnd)) as [->|]; [|by repeat constructor]. apply and3_true in He as [Hl Hx].
  apply Forall_app. auto.
Qed.

Lemma disjunct_true e : true_on e → ∃ d, d ∈ split_binary OpOr e ∧ true_on d.
Proof.
  induction e as [| |l IHl op x IHx| | | | | |]; cbn [split_binary]; intros He; try (eexists; split; [by apply list_elem_of_singleton|done]).
  destruct (decide (op = OpOr)) as [->|]; [|eexists; split; [by apply list_elem_of_singleton|done]].
  apply or3_true in He as [He|He]; [apply IHl in He|apply IHx in He]; destruct He as (d & Hd & Ht);
    exists d; rewrite elem_of_app; auto.
Qed.

Lemma eq_literal_true e pk l : eq_literal_for e pk = Some l → true_on e → sql_eq (r pk) l = Some true.
Proof.
  destruct e as [| |x op y| | | | | |]; try done. destruct x, op, y; simpl; try done;
    destruct (decide _) as [->|]; try done; intros [= ->] Ht; [done|by rewrite sql_eq_sym].
Qed.

Lemma mapM_literal (ds : list Expr) pk lits d :
  mapM (λ d, eq_literal_for d pk) ds = Some lits → d ∈ ds → true_on d → ∃ l, l ∈ lits ∧ sql_eq (r pk) l = Some true.
Proof.
  intros Hm Hd Ht. apply mapM_Some in Hm. apply list_elem_of_lookup in Hd as [i Hi].
  destruct (Forall2_lookup_l _ _ _ _ _ Hm Hi) as (l & Hl & He). exists l. split; [by eapply list_elem_of_lookup_2|].
  by eapply eq_literal_true.
Qed.

Lemma in_list_literal c items lits :
  mapM as_literal items = Some lits → true_on (InList (Column c) items false) → ∃ l, l ∈ lits ∧ sql_eq (r c) l = Some true.
Proof.
  intros Hm Ht. cbn [truth] in Ht. apply foldr_or3_true, list_elem_of_fmap in Ht as (i & Hi & Hin).
  apply mapM_Some in Hm. apply list_elem_of_lookup in Hin as [k Hk].
  destruct (Forall2_lookup_l _ _ _ _ _ Hm Hk) as (l & Hl & He). destruct i; simplify_eq/=.
  exists l. split; [by eapply list_elem_of_lookup_2|done].
Qed.

(** One of the literals is what the row holds. *)
Lemma pk_literals_sound conjuncts pk m lits :
  Forall true_on conjuncts → pk_literals conjuncts pk m = Some lits → ∃ l, l ∈ lits ∧ sql_eq (r pk) l = Some true.
Proof.
  induction 1 as [|e conjuncts He Hc IH]; cbn [pk_literals]; [done|].
  destruct e as [| |x op y| |e' items negated| | | |]; try done.
  - destruct op; try done.
    + destruct (eq_literal_for _ _) as [l|] eqn:El; [|done]. intros [= <-]. exists l.
      split; [by apply list_elem_of_singleton|by eapply eq_literal_true].
    + destruct m; [|done]. destruct (mapM _ _) as [[|v vs]|] eqn:Em; [done| |done]. intros [= <-].
      destruct (disjunct_true _ He) as (d & Hd & Ht). by eapply mapM_literal.
  - destruct (m && negb negated) eqn:Eb; [|done]. destruct e' as [c| | | | | | | |]; try done.
    destruct (decide _) as [|Hn]; [done|]. apply andb_prop in Eb as [_ Hneg]. destruct negated; [done|]. intros Hm.
    destruct (decide (c = pk)) as [->|]; [|naive_solver]. by eapply in_list_literal.
Qed.

Lemma pk_literals_single conjuncts pk lits : pk_literals conjuncts pk false = Some lits → length lits = 1%nat.
Proof.
  induction conjuncts as [|e conjuncts IH]; cbn [pk_literals]; [done|].
  destruct e as [| |x op y| |e' items negated| | | |]; try done. destruct op; try done.
  destruct (eq_literal_for _ _); [by intros [= <-]|done].
Qed.

Lemma lossless_typed v dt w : lossless_cast v dt = Some w → sv_type w = dt ∧ is_null w = false.
Proof.
  unfold lossless_cast. destruct (is_null v) eqn:En; [done|]. destruct (is_float _); [done|].
  destruct (decide _) as [<-|]; [by intros [= <-]|]. destruct (cast_to v dt) as [x|] eqn:Ec; [|done]. simpl.
  destruct (is_null x) eqn:Ex; [done|]. destruct (cast_to x _) as [y|]; [|done]. simpl. destruct (decide _); [|done].
  intros [= <-]. split; [by eapply cast_typed|done].
Qed.

(** The row's cell is in the column of its key. *)
Lemma key_column_sound conjuncts s m key f col :
  Forall true_on conjuncts → key_column conjuncts s m key = Some (f, col) →
  (∀ g, field_with_name s key = Some g → sv_type (r key) = field_type g) →
  field_name f = key ∧ (∃ g, field_with_name s key = Some g ∧ field_type f = field_type g) ∧
  VNull ∉ col ∧ sv_value (r key) ∈ col ∧ (m = false → length col = 1%nat).
Proof.
  intros Hc. unfold key_column. destruct (field_with_name s key) as [g|] eqn:Eg; [|done]. simpl.
  destruct (is_float (field_type g)) eqn:Ef; [done|]. destruct (pk_literals conjuncts key m) as [lits|] eqn:El; [|done]. simpl.
  destruct (mapM _ lits) as [vals|] eqn:Em; [|done]. simpl. destruct (iter_to_array vals) as [c|] eqn:Ei; [|done]. simpl.
  intros [= <- <-] Ht. specialize (Ht g eq_refl).
  assert (c = sv_value <$> vals) as ->. { unfold iter_to_array in Ei. destruct vals; [done|]. by case_decide; simplify_eq. }
  apply mapM_Some in Em. split; [done|]. split; [by exists g|].
  assert (VNull ∉ sv_value <$> vals) as Hnn.
  { intros (w & Hw & Hin)%list_elem_of_fmap. apply list_elem_of_lookup in Hin as [i Hi].
    destruct (Forall2_lookup_r _ _ _ _ _ Em Hi) as (l & _ & Hl). apply lossless_typed in Hl as [_ Hl].
    unfold is_null in Hl. by rewrite <- Hw, bool_decide_eq_true_2 in Hl. }
  split; [done|]. split.
  - destruct (pk_literals_sound _ _ _ _ Hc El) as (l & Hl & Heq). apply list_elem_of_lookup in Hl as [i Hi].
    destruct (Forall2_lookup_l _ _ _ _ _ Em Hi) as (w & Hw & Hcast).
    assert (r key = w) as <-; [|apply list_elem_of_fmap; eexists; split; [done|by eapply list_elem_of_lookup_2]].
    eapply lossless_cast_exact; [by rewrite Ht|by rewrite Ht|done].
  - intros ->. rewrite length_fmap. apply Forall2_length in Em as <-. by eapply pk_literals_single.
Qed.

End extraction.

(** ** The batch names the row *)

Section batch.
Context {A : Arrow} `{!ArrowLaws A} (opaque : Expr → (Z → ScalarValue) → ScalarValue).
Context (opaque_truth : Expr → (Z → ScalarValue) → option bool).
Context (s : schema) (r : Z → ScalarValue) (filters : list Expr).
Context (Htyped : ∀ k g, field_with_name s k = Some g → sv_type (r k) = field_type g).
Context (Htrue : Forall (λ e, truth opaque opaque_truth e r = Some true) filters).

(** The batch of [keys]: their fields as declared, one row per tuple, no nulls. *)
Record names_keys (keys : list Z) (b : Batch) : Prop := {
  nk_fields : field_name <$> b_fields b = keys;
  nk_types : Forall2 (λ f k, ∃ g, field_with_name s k = Some g ∧ field_type f = field_type g) (b_fields b) keys;
  nk_nulls : Forall (λ c, VNull ∉ c) (b_columns b);
  nk_width : length (b_columns b) = length keys;
}.

Lemma conjunction_true : Forall (λ e, truth opaque opaque_truth e r = Some true) (filters ≫= split_conjunction).
Proof.
  apply Forall_forall. intros c (e & Hc & He)%list_elem_of_bind. rewrite Forall_forall in Htrue.
  pose proof (conjuncts_true opaque opaque_truth r e (Htrue e He)) as Ha. rewrite Forall_forall in Ha. by apply Ha.
Qed.

Lemma key_columns_sound m keys cols :
  mapM (key_column (filters ≫= split_conjunction) s m) keys = Some cols →
  Forall2 (λ k (p : field * list value), field_name p.1 = k ∧ (∃ g, field_with_name s k = Some g ∧ field_type p.1 = field_type g) ∧
    VNull ∉ p.2 ∧ sv_value (r k) ∈ p.2 ∧ (m = false → length p.2 = 1%nat)) keys cols.
Proof.
  intros Hm%mapM_Some. eapply Forall2_impl; [exact Hm|]. intros k [f c] Hk.
  by eapply key_column_sound; [exact conjunction_true|exact Hk|eauto].
Qed.

Lemma row_of_singletons keys (cols : list (field * list value)) :
  Forall2 (λ k p, sv_value (r k) ∈ p.2 ∧ length p.2 = 1%nat) keys cols →
  (λ c, default VNull (c !! 0%nat)) <$> (snd <$> cols) = (λ k, sv_value (r k)) <$> keys.
Proof.
  induction 1 as [|k [f c] keys cols [Hin Hl] _ IH]; [done|]. rewrite !fmap_cons, IH. f_equal. simpl in *.
  destruct c as [|v [|]]; try done. by apply list_elem_of_singleton in Hin as ->.
Qed.

Lemma seek_batch_names keys ids :
  build_seek_batch filters s keys = Some ids →
  ∃ b i, encode_batch_ipc b = Some (ipc_bytes ids) ∧ names_keys keys b ∧ (i < num_rows b)%nat ∧
    batch_row b i = (λ k, sv_value (r k)) <$> keys.
Proof.
  unfold build_seek_batch. destruct keys as [|k0 keys']; [done|]. set (keys := k0 :: keys').
  destruct (mapM _ keys) as [cols|] eqn:Em; [|done]. simpl. destruct (batch_try_new _ _) as [b|] eqn:Eb; [|done]. simpl.
  destruct (encode_batch_ipc b) as [bytes|] eqn:Ee; [|done]. simpl. intros [= <-].
  apply key_columns_sound in Em.
  assert (b = {| b_fields := fst <$> cols; b_columns := snd <$> cols |}) as ->.
  { unfold batch_try_new in Eb. destruct (snd <$> cols) eqn:Es; [done|]. by case_decide; simplify_eq. }
  clear Eb.
  assert (∃ i, (i < num_rows {| b_fields := fst <$> cols; b_columns := snd <$> cols |})%nat ∧
    (λ c, default VNull (c !! i)) <$> (snd <$> cols) = (λ k, sv_value (r k)) <$> keys) as (i & Hi & Hrow).
  { destruct keys' as [|k1 keys']; subst keys.
    - inversion Em as [|? [f c] ? ? (_ & _ & _ & Hin & _) Hnil]; subst. inversion Hnil; subst.
      apply list_elem_of_lookup in Hin as [i Hi]. simpl in Hi. exists i. split; [by eapply lookup_lt_Some|].
      simpl. by rewrite Hi.
    - assert (bool_decide (length (k0 :: k1 :: keys') = 1%nat) = false) as Hmf by (by apply bool_decide_eq_false_2).
      exists 0%nat. split.
      + inversion Em as [|? [f c] ? ? (_ & _ & _ & _ & Hl) _]; subst. specialize (Hl Hmf). unfold num_rows. simpl in *. lia.
      + apply row_of_singletons. eapply Forall2_impl; [exact Em|]. intros k p (_ & _ & _ & Hin & Hl). by auto. }
  exists {| b_fields := fst <$> cols; b_columns := snd <$> cols |}, i. split; [done|]. split; [|done].
  clear Hi Hrow. split; simpl.
  - rewrite <- list_fmap_compose. clear Ee. induction Em as [|k p ks ps (Hn & _) _ IH]; [done|]. by rewrite fmap_cons, IH; simpl; rewrite Hn.
  - clear Ee. induction Em as [|k p ks ps (_ & Ht & _) _ IH]; [constructor|]. by constructor.
  - clear Ee. induction Em as [|k p ks ps (_ & _ & Hn & _) _ IH]; [constructor|]. by constructor.
  - rewrite length_fmap. symmetry. exact (Forall2_length _ _ _ Em).
Qed.
End batch.

(** ** The server names the row *)

Section identity.
Context {A : Arrow} `{!ArrowLaws A} {H : ContentHash}.

Lemma collect_ok {X} (rs : list (result ApiError X)) xs :
  collect rs = Ok xs ↔ Forall2 (λ r x, r = Ok x) rs xs.
Proof.
  revert xs. induction rs as [|r rs IH]; intros xs; simpl.
  - split; [by intros [= <-]|by inversion 1].
  - split.
    + destruct r as [x|e]; simpl; [|done]. destruct (collect rs) as [ys|e] eqn:Er; simpl; [|done]. intros [= <-].
      constructor; [done|]. by apply IH.
    + inversion 1 as [|? x ? ys -> Hr]; subst. simpl. apply IH in Hr as ->. done.
Qed.

Lemma collect_total {X} (rs : list (result ApiError X)) :
  (∀ r, r ∈ rs → ∃ x, r = Ok x) → ∃ xs, collect rs = Ok xs.
Proof.
  induction rs as [|r rs IH]; intros Hr; [by exists []|]. destruct (Hr r) as [x ->]; [left|].
  destruct IH as [xs Hxs]; [intros r' Hr'; apply Hr; by right|]. exists (x :: xs). simpl. by rewrite Hxs.
Qed.

Lemma pk_types_match_ok (s : schema) fields keys :
  Forall2 (λ f k, ∃ g, field_with_name s k = Some g ∧ field_type f = field_type g) fields keys →
  pk_types_match fields s keys = Ok tt.
Proof. induction 1 as [|f k fs ks (g & Hg & Ht) _ IH]; simpl; [done|]. by rewrite Hg, decide_True. Qed.

Lemma validate_ok (s : schema) keys b : names_keys s keys b → validate_pk_batch_schema b s keys = Ok tt.
Proof.
  intros [Hf Ht Hn _]. unfold validate_pk_batch_schema. rewrite decide_True by done. rewrite (pk_types_match_ok s) by done. simpl.
  unfold ensure_no_null_pks. by rewrite decide_True.
Qed.

(** Every type of the batch displays. *)
Definition displays (types : list DataType) : Prop := Forall (λ dt, ∀ v, is_Some (array_value_to_string dt v)) types.

Lemma row_uuid_total types cells t : displays types → ∃ u, row_uuid_for_row types cells t = Ok u.
Proof.
  intros Hd. unfold row_uuid_for_row.
  assert (is_Some (mapM (λ p : DataType * value, array_value_to_string p.1 p.2) (zip types cells))) as [ps ->]; [|by eexists].
  apply mapM_is_Some. clear t. revert cells. induction Hd as [|dt types Hdt _ IH]; intros [|c cells]; simpl; constructor; auto.
Qed.

Lemma derive_total b t : displays (field_type <$> b_fields b) →
  ∃ us, derive_row_uuids b t = Ok us ∧ length us = num_rows b ∧
    ∀ i u, (i < num_rows b)%nat → us !! i = Some u ↔ row_uuid_for_row (field_type <$> b_fields b) (batch_row b i) t = Ok u.
Proof.
  intros Hd. unfold derive_row_uuids.
  destruct (collect_total ((λ i, row_uuid_for_row (field_type <$> b_fields b) (batch_row b i) t) <$> seq 0 (num_rows b))) as [us Hus].
  { intros r (i & -> & _)%list_elem_of_fmap. by apply row_uuid_total. }
  exists us. split; [done|]. apply collect_ok in Hus. pose proof (Forall2_length _ _ _ Hus) as Hl. rewrite length_fmap, length_seq in Hl.
  split; [done|]. intros i u Hi.
  assert (∃ u', us !! i = Some u' ∧ row_uuid_for_row (field_type <$> b_fields b) (batch_row b i) t = Ok u') as (u' & Hu' & Hr).
  { destruct (lookup_lt_is_Some_2 us i) as [u' Hu']; [lia|]. exists u'. split; [done|].
    destruct (Forall2_lookup_r _ _ _ _ _ Hus Hu') as (x & Hx & ->). apply list_lookup_fmap_Some in Hx as (j & Hx & Hj).
    apply lookup_seq in Hj as [-> _]. done. }
  rewrite Hu', Hr. naive_solver.
Qed.
End identity.

(** ** The theorems *)

Definition key_types (s : schema) (keys : list Z) : list DataType := omap (λ k, field_type <$> field_with_name s k) keys.

Definition key_values (r : Z → ScalarValue) (keys : list Z) : list value := (λ k, sv_value (r k)) <$> keys.

Lemma names_keys_types (s : schema) keys b : names_keys s keys b → field_type <$> b_fields b = key_types s keys.
Proof.
  intros [_ Ht _ _]. unfold key_types. induction Ht as [|f k fs ks (g & Hg & Hty) _ IH]; [done|].
  rewrite fmap_cons. cbn [omap list_omap]. rewrite Hg. simpl. by rewrite Hty, IH.
Qed.

(** The server reads the encoded batch and derives one identity per row. *)
Lemma server_derives {A : Arrow} `{!ArrowLaws A} {H : ContentHash} (s : schema) keys b bytes t :
  encode_batch_ipc b = Some bytes → names_keys s keys b → (0 < num_rows b)%nat → displays (key_types s keys) →
  ∃ us, optional_row_uuids bytes t s keys = Ok (Some us) ∧
    ∀ i u, (i < num_rows b)%nat → row_uuid_for_row (key_types s keys) (batch_row b i) t = Ok u → u ∈ us.
Proof.
  intros He Hk Hn Hd. destruct (ipc_roundtrip _ _ He) as [Hne Hr]. rewrite <- (names_keys_types s keys b Hk) in *.
  destruct (derive_total b t Hd) as (us & Hus & Hl & Hlook).
  exists us. split; [|intros i u Hi Hu; eapply list_elem_of_lookup_2; by apply Hlook].
  unfold optional_row_uuids. destruct bytes as [|z zs]; [done|]. unfold row_uuids_from_pk_ipc. rewrite Hr.
  rewrite filter_cons_True by lia. rewrite filter_nil. rewrite fmap_cons. cbn [collect fmap list_fmap].
  unfold validated_row_uuids_from_batch. rewrite (validate_ok s keys b Hk). simpl. rewrite Hus. simpl.
  rewrite app_nil_r. destruct us; [simpl in Hl; lia|done].
Qed.

Lemma seek_eq_stable {A : Arrow} opaque opaque_truth (r r' : Z → ScalarValue) e c :
  is_Some (eq_literal_for e c) → r c = r' c → truth opaque opaque_truth e r = truth opaque opaque_truth e r'.
Proof.
  intros [l Hl] Hc. destruct e as [| |x op y| | | | | |]; try done. destruct x, op, y; simpl in *; try done; case_decide; simplify_eq; by rewrite Hc.
Qed.

Lemma seek_or_stable {A : Arrow} opaque opaque_truth (r r' : Z → ScalarValue) e c :
  Forall (λ d, is_Some (eq_literal_for d c)) (split_binary OpOr e) → r c = r' c →
  truth opaque opaque_truth e r = truth opaque opaque_truth e r'.
Proof.
  intros Hd Hc. induction e as [| |x IHx op y IHy| | | | | |]; cbn [split_binary] in Hd;
    try (rewrite Forall_singleton in Hd; exact (seek_eq_stable _ _ _ _ _ c Hd Hc)).
  destruct (decide (op = OpOr)) as [->|Hop]; [|rewrite Forall_singleton in Hd; exact (seek_eq_stable _ _ _ _ _ c Hd Hc)].
  apply Forall_app in Hd as [Hx Hy]. cbn [truth]. by rewrite IHx, IHy.
Qed.

Lemma seeked_stable {A : Arrow} opaque opaque_truth (r r' : Z → ScalarValue) cols e :
  is_seeked_equality cols e = true → (∀ c, c ∈ cols → r c = r' c) →
  truth opaque opaque_truth e r = truth opaque opaque_truth e r'.
Proof.
  intros Hs Hc. destruct e as [| |x op y| |e' items negated| | | |]; try done.
  - destruct op; try done; cbn [is_seeked_equality] in Hs.
    + apply existsb_exists in Hs as (c & Hin & Hb). apply bool_decide_eq_true_1 in Hb.
      eapply seek_eq_stable; [done|]. apply Hc. by apply list_elem_of_In.
    + apply andb_prop in Hs as [_ Hs]. apply existsb_exists in Hs as (c & Hin & Hb).
      eapply seek_or_stable; [|apply Hc; by apply list_elem_of_In]. apply Forall_forall. intros d Hd.
      rewrite forallb_forall in Hb. specialize (Hb d). rewrite <- list_elem_of_In in Hb.
      by eapply bool_decide_eq_true_1, Hb.
  - destruct negated; [done|]. cbn [is_seeked_equality] in Hs. apply andb_prop in Hs as [Hs Hl]. apply andb_prop in Hs as [_ Hs].
    destruct e' as [c| | | | | | | |]; try done. apply bool_decide_eq_true_1 in Hs. cbn [truth scalar_of]. rewrite (Hc c Hs). f_equal.
    apply list_fmap_ext. intros i x Hx. rewrite forallb_forall in Hl. specialize (Hl x).
    rewrite <- list_elem_of_In in Hl. specialize (Hl (list_elem_of_lookup_2 _ _ _ Hx)). by destruct x.
Qed.

Lemma split_truth {A : Arrow} opaque opaque_truth (r r' : Z → ScalarValue) e :
  Forall (λ c, truth opaque opaque_truth c r = truth opaque opaque_truth c r') (split_conjunction e) →
  truth opaque opaque_truth e r = truth opaque opaque_truth e r'.
Proof.
  unfold split_conjunction. induction e as [| |x IHx op y IHy| | | | | |]; cbn [split_binary];
    try (intros Hd; by rewrite Forall_singleton in Hd).
  destruct (decide (op = OpAnd)) as [->|]; [|intros Hd; by rewrite Forall_singleton in Hd].
  intros [Hx Hy]%Forall_app. cbn [truth]. by rewrite IHx, IHy.
Qed.

(** C32 A point-lookup scan loses no row.  Whatever the filters are, a row of the
    table that satisfies them all survives the request the scan sends: when the
    request carries primary-key ids, the server accepts them and the row's own
    identity is among the identities it derives; when it carries an index batch,
    the row's key is one of its tuples; and the row satisfies the pushed filter.
    That a literal's lossless cast is the only cell it can equal is proved from
    the laws of casts and comparisons ([lossless_cast_exact]). *)
Theorem scan_loses_no_row {A : Arrow} (HA : ArrowLaws A) {H : ContentHash} opaque opaque_truth unparse
    (s : schema) (primary_keys : list Z) (indexes : list (list Z)) (filters : list Expr) (t u : Z) (r : Z → ScalarValue) :
  (∀ k g, field_with_name s k = Some g → sv_type (r k) = field_type g) →
  displays (key_types s primary_keys) →
  Forall (λ e, truth opaque opaque_truth e r = Some true) filters →
  row_uuid_for_row (key_types s primary_keys) (key_values r primary_keys) t = Ok u →
  let req := scan unparse s primary_keys indexes filters in
  (∀ ids, req_ids req = Some ids → ∃ us, optional_row_uuids (ipc_bytes ids) t s primary_keys = Ok (Some us) ∧ u ∈ us) ∧
  (∀ ids, req_indexes req = Some ids → ∃ b i, read_ipc (ipc_bytes ids) = Some [b] ∧
     field_name <$> b_fields b = req_index_columns req ∧ (i < num_rows b)%nat ∧
     batch_row b i = key_values r (req_index_columns req)) ∧
  (∀ parts, req_filter req = Some parts → Forall (λ e, truth opaque opaque_truth e r = Some true) parts).
Proof.
  intros Ht Hd Htrue Hu req. split_and!.
  - intros ids Hids. destruct (seek_batch_names opaque opaque_truth s r filters Ht Htrue _ _ Hids) as (b & i & He & Hk & Hi & Hrow).
    destruct (server_derives s primary_keys b (ipc_bytes ids) t He Hk ltac:(lia) Hd) as (us & Hus & Hin).
    exists us. split; [done|]. apply (Hin i); [done|]. by rewrite Hrow.
  - intros ids Hids. destruct (seek_batch_names opaque opaque_truth s r filters Ht Htrue _ _ Hids) as (b & i & He & Hk & Hi & Hrow).
    destruct (ipc_roundtrip _ _ He) as [_ Hr]. exists b, i. split; [done|]. split; [apply (nk_fields _ _ _ Hk)|done].
  - intros parts. cbn [req_filter scan req]. destruct (all_conjuncts_seeked _ _); [done|].
    unfold exprs_to_where_fragment. destruct (filter _ filters) as [|e es] eqn:Ef; [done|]. intros [= <-]. rewrite <- Ef.
    apply Forall_forall. intros x [_ Hx]%list_elem_of_filter. rewrite Forall_forall in Htrue. by apply Htrue.
Qed.

(** A filter is dropped only when the sought keys decide it.  When the scan
    pushes no filter because every conjunct is an equality on a sought column,
    two rows that agree on the sought columns agree on every filter. *)
Theorem dropped_filter_is_keyed {A : Arrow} opaque opaque_truth (filters : list Expr) (cols : list Z) (r r' : Z → ScalarValue) :
  all_conjuncts_seeked filters cols = true → (∀ c, c ∈ cols → r c = r' c) →
  Forall (λ e, truth opaque opaque_truth e r = truth opaque opaque_truth e r') filters.
Proof.
  intros Ha Hc. apply andb_prop in Ha as [_ Ha]. rewrite forallb_forall in Ha. apply Forall_forall. intros e He.
  apply split_truth. apply Forall_forall. intros c Hin. eapply seeked_stable; [|done]. apply Ha. apply list_elem_of_In.
  apply list_elem_of_bind. by exists e.
Qed.

Lemma mapM_display_length {A : Arrow} types cells ps :
  mapM (λ p : DataType * value, array_value_to_string p.1 p.2) (zip types cells) = Some ps → length ps = length (zip types cells).
Proof. intros Hm%mapM_Some. symmetry. by eapply Forall2_length. Qed.

(** A row identity stands for one displayed key.  With a hash that does not
    collide on the two keys' texts, given a key whose texts have
    no NUL character, as every key Postgres has stored, another key of the table
    has the same [row_uuid] exactly when it displays as the same texts, even if
    that other key has NULs in it. *)
Theorem row_identity_exact {A : Arrow} {H : ContentHash} {hashed} (Hcf : CollisionFree H hashed) (types : list DataType)
    (cells cells' : list value) (t u : Z) (texts : list string) :
  length cells = length types → length cells' = length types →
  mapM (λ p : DataType * value, array_value_to_string p.1 p.2) (zip types cells) = Some texts → Forall (lacks NUL) texts →
  (∀ texts', texts' = texts ∨ mapM (λ p : DataType * value, array_value_to_string p.1 p.2) (zip types cells') = Some texts' →
     hashed (join_nul (uuid_to_string t :: texts'))) →
  row_uuid_for_row types cells t = Ok u →
  row_uuid_for_row types cells' t = Ok u ↔
  mapM (λ p : DataType * value, array_value_to_string p.1 p.2) (zip types cells') = Some texts.
Proof.
  intros Hl Hl' Ht Hf Hin. unfold row_uuid_for_row. rewrite Ht. intros [= <-]. split; [|by intros ->].
  destruct (mapM _ (zip types cells')) as [texts'|] eqn:Ht'; [|done]. intros [= Heq].
  apply (xxh3_inj (join_nul (uuid_to_string t :: texts')) (join_nul (uuid_to_string t :: texts))) in Heq; [|apply Hin; by auto..].
  symmetry in Heq.
  apply join_inj_arity in Heq; [by simplify_eq| |].
  - apply mapM_display_length in Ht, Ht'. rewrite length_zip in Ht, Ht'. simpl. lia.
  - constructor; [auto with penca typeclass_instances|done].
Qed.

Module SeekDemo.

(** Integers and booleans: a cast to boolean is whether the integer is not zero,
    so 2 does not come back from it; types of different kinds are compared as
    integers.  The batch of one column is its name followed by its values. *)
Definition truthy (v : value) : value := match v with VInt z => VInt (if z =? 0 then 0 else 1) | _ => v end.

Definition cast_int (v : ScalarValue) (dt : DataType) : ScalarValue :=
  if decide (sv_type v = dt) then v
  else {| sv_type := dt; sv_value := if decide (dt = DtBoolean) then truthy (sv_value v) else sv_value v |}.

Definition encode_column (b : Batch) : option (list Z) :=
  match b with
  | {| b_fields := [ {| field_name := k; field_type := DtInt64 |} ]; b_columns := [c] |} =>
      (λ zs, k :: zs) <$> mapM (λ v, match v with VInt z => Some z | _ => None end) c
  | _ => None
  end.

#[local] Instance ints : Arrow := {|
  cast_to v dt := Some (cast_int v dt);
  comparison_type t u := Some (if decide (t = u) then t else DtInt64);
  eq_kernel a b := bool_decide (a = b);
  encode_batch_ipc := encode_column;
  read_ipc bytes :=
    match bytes with
    | k :: zs => Some [ {| b_fields := [ {| field_name := k; field_type := DtInt64 |} ]; b_columns := [VInt <$> zs] |} ]
    | [] => None
    end;
  array_value_to_string _ v := Some (match v with VInt z => pretty.pretty z | _ => EmptyString end);
|}.

Lemma cast_int_type v dt : sv_type (cast_int v dt) = dt.
Proof. unfold cast_int. by case_decide. Qed.

Lemma cast_int_value v : sv_value (cast_int v DtInt64) = sv_value v.
Proof. unfold cast_int. by case_decide. Qed.

Lemma scalar_eq (a b : ScalarValue) : sv_type a = sv_type b → sv_value a = sv_value b → a = b.
Proof. destruct a, b. simpl. by intros -> ->. Qed.

Lemma ints_laws : ArrowLaws ints.
Proof.
  split.
  - intros v dt w [= <-]. apply cast_int_type.
  - intros t u. simpl. destruct (decide (t = u)) as [->|Hn]; [by rewrite decide_True|]. by rewrite decide_False.
  - intros a b. simpl. apply bool_decide_ext. split; by intros ->.
  - by intros a b _ _ Heq%bool_decide_eq_true_1.
  - intros t u dt Ht _ [= <-]. split; [by case_decide|]. intros a b x Ha Hb [= <-] [= Heq]. case_decide; [subst|].
    + unfold cast_int in Heq. rewrite !decide_True in Heq by done. done.
    + apply (f_equal sv_value) in Heq. rewrite !cast_int_value in Heq. apply scalar_eq; [by rewrite Ha|done].
  - intros l w dt x [= Hw] [= Hl] [= <-] [= <-]. cbn [cast_to ints]. f_equal. case_decide as Ht.
    + unfold cast_int in Hw. rewrite decide_True in Hw by done. by rewrite Hw.
    + apply scalar_eq; rewrite ?cast_int_type, ?cast_int_value; [done|].
      pose proof (f_equal sv_value Hw) as H1. pose proof (f_equal sv_value Hl) as H2. revert H1 H2. unfold cast_int.
      rewrite (decide_False (P := sv_type l = sv_type w)), (decide_False (P := sv_type w = sv_type l)) by congruence. simpl.
      destruct (decide (sv_type w = DtBoolean)) as [Hb|]; [|congruence].
      rewrite (decide_False (P := sv_type l = DtBoolean)) by congruence. congruence.
  - intros [[|[k []] []] [|c []]] bytes; simpl; try done. destruct (mapM _ c) as [zs|] eqn:Em; simpl; [|done]. intros [= <-].
    split; [done|]. do 4 f_equal. clear k. revert zs Em. induction c as [|v c IH]; intros zs; simpl; [by intros [= <-]|].
    destruct v as [|z| |]; try done. simpl. destruct (mapM _ c) as [zs'|]; [|done]. simpl. intros [= <-].
    rewrite fmap_cons. f_equal. by apply IH.
Qed.

#[local] Instance code_hash : ContentHash := λ s, Zpos (countable.encode s).

#[local] Instance code_hash_free : CollisionFree code_hash (λ _, True).
Proof. intros a b _ _ Heq. injection Heq as Heq. by apply (inj countable.encode) in Heq. Qed.

Definition id_schema : schema := [ {| field_name := 1; field_type := DtInt64 |}; {| field_name := 2; field_type := DtInt64 |} ].

Definition int_literal (z : Z) : Expr := Literal {| sv_type := DtInt32; sv_value := VInt z |}.

(** [(id = 3 OR 5 = id) AND y = 9] *)
Definition two_ids : list Expr :=
  [ BinaryExpr (BinaryExpr (BinaryExpr (Column 1) OpEq (int_literal 3)) OpOr (BinaryExpr (int_literal 5) OpEq (Column 1)))
      OpAnd (BinaryExpr (Column 2) OpEq (int_literal 9)) ].

Definition row_five : Z → ScalarValue := λ k, {| sv_type := DtInt64; sv_value := VInt (if decide (k = 1) then 5 else 9) |}.

Definition no_value : Expr → (Z → ScalarValue) → ScalarValue := λ _ _, {| sv_type := DtInt64; sv_value := VNull |}.
Definition no_truth : Expr → (Z → ScalarValue) → option bool := λ _ _, None.

Lemma scan_loses_no_row_witness :
  ∃ us, optional_row_uuids [1; 3; 5] 77 id_schema [1] = Ok (Some us) ∧ row_uuid_for_pk 77 ["5"%string] ∈ us.
Proof.
  destruct (scan_loses_no_row ints_laws no_value no_truth (λ _, true) id_schema [1] [[2]] two_ids 77
    (row_uuid_for_pk 77 ["5"%string]) row_five) as (Hids & _).
  - intros k g Hk. unfold field_with_name in Hk. destruct (list_find _ id_schema) as [[i f]|] eqn:Ef; [|done].
    simpl in Hk. simplify_eq. apply list_find_Some in Ef as (Hi & _). by destruct i as [|[|i]]; simplify_eq/=.
  - constructor; [intros v; by eexists|constructor].
  - repeat constructor.
  - reflexivity.
  - exact (Hids {| ipc_bytes := [1; 3; 5]; row_count := 2 |} eq_refl).
Defined.

Lemma dropped_filter_is_keyed_witness :
  truth no_value no_truth (BinaryExpr (Column 1) OpEq (int_literal 3)) row_five =
  truth no_value no_truth (BinaryExpr (Column 1) OpEq (int_literal 3)) (λ _, row_five 1).
Proof.
  pose proof (dropped_filter_is_keyed no_value no_truth [BinaryExpr (Column 1) OpEq (int_literal 3)] [1] row_five (λ _, row_five 1)
    eq_refl) as Hd.
  assert (∀ c, c ∈ [1] → row_five c = row_five 1) as Hc by (by intros c ->%list_elem_of_singleton).
  specialize (Hd Hc). by inversion Hd.
Defined.

Lemma row_identity_exact_witness :
  row_uuid_for_row [DtInt64; DtInt64] [VInt 1; VInt 23] 77 ≠ Ok (row_uuid_for_pk 77 ["12"%string; "3"%string]).
Proof.
  intros Heq.
  pose proof (row_identity_exact code_hash_free [DtInt64; DtInt64] [VInt 12; VInt 3] [VInt 1; VInt 23] 77 (row_uuid_for_pk 77 ["12"%string; "3"%string])
    ["12"%string; "3"%string] eq_refl eq_refl eq_refl ltac:(by repeat constructor) ltac:(done) eq_refl) as [Hx _].
  specialize (Hx Heq). discriminate Hx.
Defined.

End SeekDemo.
