(* ===== verification/SegmentStats.v ===== *)
(** * Segment statistics (penca-dl/src/stats.rs)

    What the writer records per segment and column, how a reader resolves it by
    column name, the table-level fold of the planner, statistics pruning, and the
    derivation of a prior segment's partition key from its statistics
    ([partition_order_key_from_statistics], batch_util.rs). *)

From S2P Require Import Prelude CoreTypes IndexSelect Ordered Chunker BatchUtil.
From stdpp Require Import base numbers list option sets sorting.

Open Scope Z_scope.
Open Scope result_scope.

(** ** Which columns have bounds *)

Definition stats_has_builder (ct : CanonicalType) : bool :=
  match ct with
  | CBoolean | CInt8 | CInt16 | CInt32 | CInt64 | CUInt8 | CUInt16 | CUInt32 | CUInt64
  | CFloat16 | CFloat32 | CFloat64 | CUtf8 | CDate32 | CDate64
  | CTimestamp Microsecond None | CDecimal128 _ _ | CDecimal256 _ _ => true
  | _ => false
  end.

Definition data_type_is_prunable (dt : DataType) : bool :=
  match from_arrow dt with Ok ct => is_prunable ct && stats_has_builder ct | Err _ => false end.

(** ** Scalars and their order *)

(** The comparison of two scalars of one type; [None] for a mismatched pair. *)
Definition scalar_less (a b : value) : option bool :=
  match a, b with
  | VInt x, VInt y => Some (x <? y)
  | VBin x, VBin y => Some (oltb x y)
  | _, _ => None
  end.

Definition is_null (v : value) : bool := match v with VNull => true | _ => false end.

(** Arrow's [min]/[max] kernels: nulls skipped, [None] on nothing. *)
Definition pick (better : value → value → bool) (acc : option value) (v : value) : option value :=
  if is_null v then acc
  else match acc with
       | None => Some v
       | Some cur => if better v cur then Some v else acc
       end.

Definition less (a b : value) : bool := default false (scalar_less a b).

Definition column_min_max (vals : list value) : option value * option value :=
  (foldl (pick less) None vals, foldl (pick (λ v cur, less cur v)) None vals).

Definition null_count (vals : list value) : Z := Z.of_nat (length (filter (λ v, is_null v = true) vals)).

(** ** The payload *)

Record ColumnStatsV0 := {
  cs_name : Z;
  cs_min : option value;
  cs_max : option value;
  cs_null_count : option Z;
}.

Record SegmentStatsV0 := { st_row_count : Z; st_per_column : list ColumnStatsV0 }.

(** [serde_json] over the payload; a payload it cannot represent (a non-finite
    float) does not read back. *)
Class StatsCodec := {
  to_vec : SegmentStatsV0 → list Z;
  from_slice : list Z → option SegmentStatsV0;
}.

Class StatsCodecLaws (C : StatsCodec) := {
  from_to : ∀ p q, from_slice (to_vec p) = Some q → q = p;
}.

Section stats.
Context {R : Type} `{RowCells R} {C : StatsCodec}.

Definition column_stats (rows : list R) (idx : nat) (f : field) : ColumnStatsV0 :=
  let vals := cell_at idx <$> rows in
  if data_type_is_prunable (field_type f) then
    let '(mn, mx) := column_min_max vals in
    {| cs_name := field_name f; cs_min := mn; cs_max := mx; cs_null_count := Some (null_count vals) |}
  else {| cs_name := field_name f; cs_min := None; cs_max := None; cs_null_count := Some (null_count vals) |}.

Definition segment_stats (s : schema) (rows : list R) : SegmentStatsV0 :=
  {| st_row_count := Z.of_nat (length rows); st_per_column := imap (column_stats rows) s |}.

Definition compute_segment_statistics (s : schema) (rows : list R) : list Z := to_vec (segment_stats s rows).

Record ParsedColumnStats := { pc_min : option value; pc_max : option value; pc_null_count : option Z }.
Record ParsedSegmentStats := { row_count : Z; per_column : list ParsedColumnStats }.

Definition no_stats : ParsedColumnStats := {| pc_min := None; pc_max := None; pc_null_count := None |}.

Definition parsed_column (p : SegmentStatsV0) (f : field) : ParsedColumnStats :=
  match list_find (λ c, cs_name c = field_name f) (st_per_column p) with
  | Some (_, c) => {| pc_min := cs_min c; pc_max := cs_max c; pc_null_count := cs_null_count c |}
  | None => no_stats
  end.

Definition parse_segment_statistics (bytes : list Z) (s : schema) : ParsedSegmentStats :=
  let empty := {| row_count := 0; per_column := (λ _, no_stats) <$> s |} in
  match bytes with
  | [] => empty
  | _ => match from_slice bytes with
         | None => empty
         | Some p => {| row_count := st_row_count p; per_column := parsed_column p <$> s |}
         end
  end.

(** ** The table-level fold *)

Record fold_acc := { min_acc : option value; max_acc : option value; null_acc : Z; have_null : bool }.

Definition fold_one (idx : nat) (a : fold_acc) (seg : ParsedSegmentStats) : fold_acc :=
  match per_column seg !! idx with
  | None => a
  | Some c =>
      {| min_acc := match pc_min c with
                    | None => min_acc a
                    | Some m => match min_acc a with
                                | None => Some m
                                | Some cur => if less m cur then Some m else Some cur
                                end
                    end;
         max_acc := match pc_max c with
                    | None => max_acc a
                    | Some m => match max_acc a with
                                | None => Some m
                                | Some cur => if less cur m then Some m else Some cur
                                end
                    end;
         null_acc := match pc_null_count c with Some n => null_acc a + n | None => null_acc a end;
         have_null := match pc_null_count c with Some _ => true | None => have_null a end |}
  end.

Record ColumnStatistics := { null_count_stat : option Z; max_value : option value; min_value : option value }.

Definition fold_column_stats (parsed : list ParsedSegmentStats) (idx : nat) : ColumnStatistics :=
  let a := foldl (fold_one idx) {| min_acc := None; max_acc := None; null_acc := 0; have_null := false |} parsed in
  {| null_count_stat := if have_null a then Some (null_acc a) else None;
     max_value := max_acc a; min_value := min_acc a |}.

(** [None] rows: the unknown statistics of a table with no parsed segment. *)
Definition aggregate_table_statistics (parsed : list ParsedSegmentStats) (s : schema) :
    option Z * list ColumnStatistics :=
  match parsed with
  | [] => (None, (λ _, {| null_count_stat := None; max_value := None; min_value := None |}) <$> s)
  | _ => (Some (foldr Z.add 0 (row_count <$> parsed)), fold_column_stats parsed <$> seq 0 (length s))
  end.

(** ** Pruning *)

Definition column_index (s : schema) (name : Z) : option nat := index_of s name.

(** [PerSegmentBuilders::push_scalar]: a scalar of another kind than the reader's
    column is a null. *)
Definition push_scalar (dt : DataType) (v : option value) : option value :=
  match v with
  | Some (VBin b) => match dt with DtUtf8 => Some (VBin b) | _ => None end
  | Some (VInt z) => match dt with DtUtf8 => None | _ => Some (VInt z) end
  | _ => None
  end.

(** [SegmentPruningStats::build_array]: per segment the bound of a column, or no
    array for a column without bounds. *)
Definition bound_array (s : schema) (parsed : list ParsedSegmentStats) (get : ParsedColumnStats → option value)
    (name : Z) : option (list (option value)) :=
  match column_index s name with
  | None => None
  | Some idx =>
      match s !! idx with
      | None => None
      | Some f => if data_type_is_prunable (field_type f)
                  then Some ((λ seg, match per_column seg !! idx with
                                     | Some c => push_scalar (field_type f) (get c)
                                     | None => None
                                     end) <$> parsed)
                  else None
      end
  end.

Record pruning_stats := {
  min_values : Z → option (list (option value));
  max_values : Z → option (list (option value));
  null_counts : Z → option (list (option Z));
  row_counts : list Z;
}.

Definition SegmentPruningStats (s : schema) (parsed : list ParsedSegmentStats) : pruning_stats :=
  {| min_values := bound_array s parsed pc_min;
     max_values := bound_array s parsed pc_max;
     null_counts := λ name,
       match column_index s name with
       | None => None
       | Some idx => Some ((λ seg, match per_column seg !! idx with Some c => pc_null_count c | None => None end) <$> parsed)
       end;
     row_counts := row_count <$> parsed |}.

(** [prune_segments_by_stats]; [pruner] is DataFusion's [PruningPredicate] built
    for the residual predicate, [None] when it cannot be built, and its [prune]
    may fail. *)
Definition prune_segments_by_stats {S} (segments : list S) (get_stats : S → list Z) (s : schema)
    (predicate : option (option (pruning_stats → nat → option (list bool)))) : list nat :=
  let all := seq 0 (length segments) in
  match predicate with
  | None => all
  | Some None => all
  | Some (Some prune) =>
      let parsed := (λ x, parse_segment_statistics (get_stats x) s) <$> segments in
      match prune (SegmentPruningStats s parsed) (length segments) with
      | None => all
      | Some mask => omap (λ p : nat * bool, if p.2 then Some p.1 else None) (imap pair mask)
      end
  end.

(** ** The partition key of a prior segment *)

Context {K : ArrowKernels}.

(** One partition column's scalar, when the statistics pin it. *)
Definition pinned_scalar (p : ParsedSegmentStats) (idx : nat) : option value :=
  match per_column p !! idx with
  | None => None
  | Some c =>
      match pc_min c, pc_max c with
      | Some mn, Some mx => match mn, mx with
                            | VInt a, VInt b => if a =? b then Some mn else None
                            | VBin a, VBin b => if decide (a = b) then Some mn else None
                            | _, _ => None
                            end
      | None, None => match pc_null_count c with
                      | Some n => if n =? row_count p then Some VNull else None
                      | None => None
                      end
      | _, _ => None
      end
  end.

Fixpoint pinned_scalars (s : schema) (p : ParsedSegmentStats) (keys : list Z) : option (list value) :=
  match keys with
  | [] => Some []
  | key :: rest =>
      match index_of s key with
      | None => None
      | Some idx => match pinned_scalar p idx with
                    | None => None
                    | Some v => match pinned_scalars s p rest with Some vs => Some (v :: vs) | None => None end
                    end
      end
  end.

Definition partition_order_key_from_statistics (s : schema) (o : PartitionOrdering) (statistics : list Z)
    (partition_keys : list Z) : option PartitionOrderKey :=
  match partition_keys with
  | [] => Some (order_key_from_key_arrays o [] None)
  | _ =>
      let parsed := parse_segment_statistics statistics s in
      if row_count parsed =? 0 then None
      else match pinned_scalars s parsed partition_keys with
           | None => None
           | Some vals =>
               let ts := match key_indices Internal s partition_keys with Ok idxs => field_types s idxs | Err _ => [] end in
               Some (order_key_from_key_arrays o vals (Some (partition_label ts vals)))
           end
  end.

End stats.

(** ** Bounds are bounds *)

Definition code (v : value) : list Z := match v with VInt z => [z] | VBin bs => bs | _ => [] end.

(** A cell of a column with bounds: null, bytes in a string column, an integer
    in any other. *)
Definition cell_typed (dt : DataType) (v : value) : Prop :=
  match v with
  | VNull => True
  | VBin _ => dt = DtUtf8
  | VInt _ => dt ≠ DtUtf8
  | VArr _ => False
  end.

Lemma less_code dt a b :
  cell_typed dt a → cell_typed dt b → is_null a = false → is_null b = false → less a b = oltb (code a) (code b).
Proof.
  destruct a, b; simpl; try done; intros _ _ _ _. unfold less, oltb, cmp, list_cmp, Z.ltb. simpl.
  unfold Z.ltb, cmp, Z_cmp. by destruct (Z.compare z z0).
Qed.

(** [m] is the value of [vals] that no other beats. *)
Definition extremum (beats : value → value → bool) (vals : list value) (m : option value) : Prop :=
  match m with
  | None => Forall (λ v, is_null v = true) vals
  | Some m => m ∈ vals ∧ is_null m = false ∧ ∀ v, v ∈ vals → is_null v = false → beats v m = false
  end.

Lemma pick_extremum (beats : value → value → bool) dt (ord : list Z → list Z → bool) vals :
  (∀ a b, cell_typed dt a → cell_typed dt b → is_null a = false → is_null b = false → beats a b = ord (code a) (code b)) →
  (∀ x, ord x x = false) →
  (∀ x y z, ord x y = false → ord z y = true → ord x z = false) →
  Forall (cell_typed dt) vals → extremum beats vals (foldl (pick beats) None vals).
Proof.
  intros Hb Hirr Htr. induction vals as [|v vals IH] using rev_ind; intros Ht; [constructor|].
  apply Forall_app in Ht as [Ht Hv]. apply Forall_cons in Hv as [Hv _]. specialize (IH Ht).
  rewrite foldl_app. simpl. rewrite Forall_forall in Ht. unfold pick at 1.
  destruct (is_null v) eqn:En.
  { destruct (foldl (pick beats) None vals) as [m|]; simpl in *.
    - destruct IH as (Hin & Hm & Hall). split_and!; [set_solver|done|]. intros w [Hw|Hw%list_elem_of_singleton]%elem_of_app; [by apply Hall|congruence].
    - apply Forall_app. split; [done|]. by constructor. }
  destruct (foldl (pick beats) None vals) as [m|]; simpl in *.
  - destruct IH as (Hin & Hm & Hall). destruct (beats v m) eqn:Ebt; simpl.
    + split_and!; [set_solver|done|]. intros w [Hw|Hw%list_elem_of_singleton]%elem_of_app Hwn.
      * rewrite Hb by auto. rewrite Hb in Ebt by auto. specialize (Hall w Hw Hwn). rewrite Hb in Hall by auto. by eapply Htr.
      * subst w. rewrite Hb by auto. apply Hirr.
    + split_and!; [set_solver|done|]. intros w [Hw|Hw%list_elem_of_singleton]%elem_of_app Hwn; [by apply Hall|by subst w].
  - split_and!; [set_solver|done|]. intros w [Hw|Hw%list_elem_of_singleton]%elem_of_app Hwn.
    + rewrite Forall_forall in IH. apply IH in Hw. congruence.
    + subst w. rewrite Hb by auto. apply Hirr.
Qed.

Lemma min_extremum dt vals : Forall (cell_typed dt) vals → extremum less vals (column_min_max vals).1.
Proof.
  apply (pick_extremum less dt oltb).
  - intros a b. apply less_code.
  - intros x. apply oltb_ge, ole_refl.
  - intros x y z Hxy%oltb_ge Hzy%oltb_lt. apply oltb_ge, olt_le. by eapply olt_le_trans.
Qed.

Lemma max_extremum dt vals :
  Forall (cell_typed dt) vals → extremum (λ v cur, less cur v) vals (column_min_max vals).2.
Proof.
  apply (pick_extremum (λ v cur, less cur v) dt (λ x y, oltb y x)).
  - intros a b Ha Hb Hna Hnb. by apply (less_code dt).
  - intros x. apply oltb_ge, ole_refl.
  - intros x y z Hyx%oltb_ge Hyz%oltb_lt. apply oltb_ge, olt_le. by eapply ole_lt_trans.
Qed.

(** ** Reading a segment's own statistics back *)

Section readback.
Context {R : Type} `{RowCells R} {C : StatsCodec} `{!StatsCodecLaws C} {K : ArrowKernels}.
Context (s : schema) (Hnames : NoDup (field_name <$> s)).

Lemma index_of_lookup key idx : index_of s key = Some idx → ∃ f, s !! idx = Some f ∧ field_name f = key.
Proof.
  unfold index_of. destruct (list_find (λ f, field_name f = key) s) as [[i f]|] eqn:E; simpl; [|done].
  intros [= <-]. apply list_find_Some in E as (Hf & Hn & _). by exists f.
Qed.

Lemma index_of_own idx f : s !! idx = Some f → index_of s (field_name f) = Some idx.
Proof using Hnames.
  intros Hf. unfold index_of. assert (list_find (λ g, field_name g = field_name f) s = Some (idx, f)) as ->; [|done].
  apply list_find_Some. split_and!; [done|done|]. intros j g Hj Hlt Heq. assert (j = idx); [|lia].
  apply (NoDup_lookup (field_name <$> s) j idx (field_name f) Hnames); rewrite list_lookup_fmap, ?Hj, ?Hf; simpl; congruence.
Qed.

Lemma column_stats_name (rows : list R) idx f : cs_name (column_stats rows idx f) = field_name f.
Proof. unfold column_stats. by destruct (data_type_is_prunable (field_type f)). Qed.

Lemma find_own_column (rows : list R) idx f :
  s !! idx = Some f →
  list_find (λ c, cs_name c = field_name f) (imap (column_stats rows) s) = Some (idx, column_stats rows idx f).
Proof using Hnames.
  intros Hf. apply list_find_Some. split_and!.
  - rewrite list_lookup_imap, Hf. done.
  - apply column_stats_name.
  - intros j c Hj Hlt. rewrite list_lookup_imap in Hj. destruct (s !! j) as [g|] eqn:Eg; simplify_eq/=.
    rewrite column_stats_name. intros Heq. assert (j = idx); [|lia].
    apply (NoDup_lookup (field_name <$> s) j idx (field_name f) Hnames); rewrite list_lookup_fmap; [by rewrite Eg; simpl; rewrite Heq|by rewrite Hf].
Qed.

(** What a reader with a schema of its own finds: nothing, or the segment's row
    count and, for each of its columns, what was recorded under that name. *)
Lemma parse_by_name (sr : schema) (rows : list R) :
  let p := parse_segment_statistics (compute_segment_statistics s rows) sr in
  p = {| row_count := 0; per_column := (λ _, no_stats) <$> sr |} ∨
  row_count p = Z.of_nat (length rows) ∧
  ∀ idx f, sr !! idx = Some f →
    per_column p !! idx = Some (match index_of s (field_name f) with
      | Some j => match s !! j with
                  | Some g => let c := column_stats rows j g in
                      {| pc_min := cs_min c; pc_max := cs_max c; pc_null_count := cs_null_count c |}
                  | None => no_stats
                  end
      | None => no_stats
      end).
Proof using Hnames StatsCodecLaws0.
  unfold parse_segment_statistics, compute_segment_statistics. destruct (to_vec (segment_stats s rows)) eqn:E; [by left|].
  rewrite <- E. destruct (from_slice (to_vec (segment_stats s rows))) as [q|] eqn:Eq; [|by left].
  apply from_to in Eq as ->. right. split; [done|]. intros idx f Hf. cbn [per_column]. rewrite list_lookup_fmap, Hf.
  cbn [fmap option_fmap option_map]. unfold parsed_column, segment_stats. cbn [st_per_column].
  destruct (index_of s (field_name f)) as [j|] eqn:Ej.
  - destruct (index_of_lookup _ _ Ej) as (g & Hg & Hn). by rewrite Hg, <- Hn, (find_own_column rows j g Hg).
  - destruct (list_find _ (imap _ s)) as [[k c]|] eqn:Ec; [|done]. exfalso.
    apply list_find_Some in Ec as (Hc & Hn & _). rewrite list_lookup_imap in Hc.
    destruct (s !! k) as [g|] eqn:Eg; simplify_eq/=. rewrite column_stats_name in Hn.
    unfold index_of in Ej. destruct (list_find _ s) as [[? ?]|] eqn:El; [done|]. apply list_find_None in El.
    rewrite Forall_forall in El. by apply (El g); [eapply list_elem_of_lookup_2|].
Qed.

(** With the writer's schema: the segment's own columns. *)
Lemma parse_own (rows : list R) :
  let p := parse_segment_statistics (compute_segment_statistics s rows) s in
  p = {| row_count := 0; per_column := (λ _, no_stats) <$> s |} ∨
  row_count p = Z.of_nat (length rows) ∧
  ∀ idx f, s !! idx = Some f →
    per_column p !! idx = Some (let c := column_stats rows idx f in
      {| pc_min := cs_min c; pc_max := cs_max c; pc_null_count := cs_null_count c |}).
Proof using Hnames StatsCodecLaws0.
  destruct (parse_by_name s rows) as [Hp|[Hrows Hp]]; [by left|]. right. split; [done|]. intros idx f Hf.
  by rewrite (Hp idx f Hf), (index_of_own idx f Hf), Hf.
Qed.

(** Rows whose cells have their columns' types, where the column has bounds. *)
Definition rows_typed (rows : list R) : Prop :=
  ∀ idx f r, s !! idx = Some f → data_type_is_prunable (field_type f) = true → r ∈ rows →
    cell_typed (field_type f) (cell_at idx r).

(** The bounds a reader finds under a name hold of what every row has there; a
    name the segment was written without has none. *)
Lemma parsed_bounds (sr : schema) (rows : list R) idx f c r :
  rows_typed rows → sr !! idx = Some f → r ∈ rows →
  per_column (parse_segment_statistics (compute_segment_statistics s rows) sr) !! idx = Some c →
  c = no_stats ∨
  ∃ j, index_of s (field_name f) = Some j ∧
    (∀ mn, pc_min c = Some mn → is_null (cell_at j r) = false → less (cell_at j r) mn = false) ∧
    (∀ mx, pc_max c = Some mx → is_null (cell_at j r) = false → less mx (cell_at j r) = false) ∧
    (∀ n, pc_null_count c = Some n → n = null_count (cell_at j <$> rows)).
Proof using Hnames StatsCodecLaws0.
  intros Ht Hf Hr Hc. destruct (parse_by_name sr rows) as [Hp|[_ Hp]].
  { rewrite Hp in Hc. simpl in Hc. rewrite list_lookup_fmap, Hf in Hc. injection Hc as <-. by left. }
  rewrite (Hp idx f Hf) in Hc. injection Hc as <-. destruct (index_of s (field_name f)) as [j|] eqn:Ej; [|by left].
  destruct (index_of_lookup _ _ Ej) as (g & Hg & _). rewrite Hg. right. exists j. split; [done|]. unfold column_stats.
  destruct (data_type_is_prunable (field_type g)) eqn:Epr; simpl; [|by split_and!; [done|done|intros n [= <-]]].
  assert (Forall (cell_typed (field_type g)) (cell_at j <$> rows)) as Hall.
  { apply Forall_fmap, Forall_forall. intros x Hx. by apply (Ht j g x Hg Epr). }
  assert (cell_at j r ∈ cell_at j <$> rows) as Hin by (by apply list_elem_of_fmap_2).
  pose proof (min_extremum _ _ Hall) as Hmin. pose proof (max_extremum _ _ Hall) as Hmax.
  unfold column_min_max in Hmin, Hmax. simpl in Hmin, Hmax. split_and!.
  - intros mn Hmn Hn. rewrite Hmn in Hmin. by apply Hmin.
  - intros mx Hmx Hn. rewrite Hmx in Hmax. by apply Hmax.
  - by intros n [= <-].
Qed.

(** *** The partition key *)

Lemma column_stats_const (rows : list R) idx f v :
  rows ≠ [] → (∀ r, r ∈ rows → cell_at idx r = v) →
  (∀ m, cs_min (column_stats rows idx f) = Some m → m = v) ∧
  (cs_null_count (column_stats rows idx f) = Some (Z.of_nat (length rows)) → v = VNull).
Proof.
  intros Hne Hv. set (vals := cell_at idx <$> rows).
  assert (∀ x, x ∈ vals → x = v) as Hall by (intros x (r & -> & Hr)%list_elem_of_fmap; by apply Hv).
  assert (null_count vals = Z.of_nat (length rows) → v = VNull) as Hnull.
  { unfold null_count, vals. intros Heq. destruct rows as [|r rows]; [done|]. rewrite fmap_cons in Heq.
    rewrite (Hv r) in Heq by (by left). rewrite filter_cons in Heq. case_decide as Hd; [by destruct v|].
    exfalso. pose proof (length_filter (λ v, is_null v = true) (cell_at idx <$> rows)) as Hl.
    rewrite length_fmap in Hl. simpl in Heq. lia. }
  unfold column_stats. fold vals. destruct (data_type_is_prunable (field_type f)); simpl.
  - split; [|by intros [= Heq]; apply Hnull]. intros m Hm. apply Hall.
    assert (∀ (l : list value) acc, foldl (pick less) acc l = Some m → m ∈ l ∨ acc = Some m) as Hpick.
    { induction l as [|x l IH]; intros acc; simpl; [by right|]. intros [Hin|Hacc]%IH; [left; by right|].
      unfold pick in Hacc. destruct (is_null x); [by right|]. destruct acc as [cur|]; [|left; injection Hacc as ->; by left].
      destruct (less x cur); [left; injection Hacc as ->; by left|by right]. }
    by destruct (Hpick vals None Hm).
  - split; [done|by intros [= Heq]; apply Hnull].
Qed.

Lemma pinned_const (rows : list R) idx f v w p :
  rows ≠ [] → (∀ r, r ∈ rows → cell_at idx r = v) → s !! idx = Some f →
  p = parse_segment_statistics (compute_segment_statistics s rows) s → row_count p ≠ 0 →
  pinned_scalar p idx = Some w → w = v.
Proof using Hnames StatsCodecLaws0.
  intros Hne Hv Hf -> Hrc. destruct (parse_own rows) as [Hp|[Hrows Hp]]; [by rewrite Hp in Hrc|].
  destruct (column_stats_const rows idx f v Hne Hv) as [Hmin Hnull].
  unfold pinned_scalar. rewrite (Hp idx f Hf), Hrows. simpl.
  destruct (cs_min (column_stats rows idx f)) as [mn|], (cs_max (column_stats rows idx f)) as [mx|]; [|done|done|].
  - specialize (Hmin mn eq_refl). subst mn. destruct v, mx; try done.
    + destruct (z =? z0); [by intros [= <-]|done].
    + case_decide; [by intros [= <-]|done].
  - destruct (cs_null_count (column_stats rows idx f)) as [n|]; [|done].
    destruct (Z.eqb_spec n (Z.of_nat (length rows))) as [->|]; [|done]. intros [= <-]. symmetry. by apply Hnull.
Qed.

Lemma pinned_scalars_const (rows : list R) r0 p : ∀ keys pidx vals,
  rows ≠ [] → (∀ r, r ∈ rows → key_cells pidx r = key_cells pidx r0) →
  key_indices Internal s keys = Ok pidx →
  p = parse_segment_statistics (compute_segment_statistics s rows) s → row_count p ≠ 0 →
  pinned_scalars s p keys = Some vals → vals = key_cells pidx r0.
Proof using Hnames StatsCodecLaws0.
  induction keys as [|key keys IH]; intros pidx vals Hne Hconst Hi Hp Hrc; simpl in Hi |- *.
  { injection Hi as <-. by intros [= <-]. }
  destruct (index_of s key) as [idx|] eqn:Eidx; [|done]. destruct (index_of_lookup key idx Eidx) as (f & Hf & _).
  destruct (key_indices Internal s keys) as [idxs|] eqn:Eks; [|done]. cbn [result_bind] in Hi. injection Hi as <-.
  destruct (pinned_scalar p idx) as [v|] eqn:Ev; [|done].
  destruct (pinned_scalars s p keys) as [vs|] eqn:Evs; [|done]. intros [= <-].
  unfold key_cells in Hconst |- *. rewrite fmap_cons. f_equal.
  - apply (pinned_const rows idx f (cell_at idx r0) v p Hne) in Ev; try done.
    intros r Hr. specialize (Hconst r Hr). rewrite !fmap_cons in Hconst. by injection Hconst.
  - apply (IH idxs vs Hne); try done. intros r Hr. specialize (Hconst r Hr). rewrite !fmap_cons in Hconst.
    by injection Hconst.
Qed.

(** The key statistics give a segment of one partition is its rows' key. *)
Lemma stats_key_sound (rows : list R) r0 o partition_keys pidx k :
  partition_keys ≠ [] → r0 ∈ rows → (∀ r, r ∈ rows → key_cells pidx r = key_cells pidx r0) →
  key_indices Internal s partition_keys = Ok pidx →
  partition_order_key_from_statistics s o (compute_segment_statistics s rows) partition_keys = Some k →
  k = order_key_at o pidx r0 (Some (partition_label (field_types s pidx) (key_cells pidx r0))).
Proof using Hnames StatsCodecLaws0.
  intros Hk Hr0 Hconst Hi. unfold partition_order_key_from_statistics.
  destruct partition_keys as [|key keys] eqn:Ek; [done|]. rewrite <- Ek in *. rewrite Hi.
  destruct (Z.eqb_spec (row_count (parse_segment_statistics (compute_segment_statistics s rows) s)) 0) as [|Hrc]; [done|].
  destruct (pinned_scalars s _ partition_keys) as [vals|] eqn:Ev; [|done]. intros [= <-].
  assert (rows ≠ []) as Hne by (intros ->; by apply elem_of_nil in Hr0).
  by rewrite (pinned_scalars_const rows r0 _ partition_keys pidx vals Hne Hconst Hi eq_refl Hrc Ev).
Qed.

End readback.

(** ** Pruning *)

Section prune.
Context {R : Type} `{RowCells R} {C : StatsCodec}.

(** A row, by column name. *)
Definition named (s : schema) (r : R) (name : Z) : value :=
  match index_of s name with Some idx => cell_at idx r | None => VNull end.

(** A row the statistics of container [i] do not rule out. *)
Definition fits_container (st : pruning_stats) (i : nat) (cell : Z → value) : Prop :=
  ∀ name,
    (∀ a mn, min_values st name = Some a → a !! i = Some (Some mn) → is_null (cell name) = false → less (cell name) mn = false) ∧
    (∀ a mx, max_values st name = Some a → a !! i = Some (Some mx) → is_null (cell name) = false → less mx (cell name) = false) ∧
    (∀ a, null_counts st name = Some a → a !! i = Some (Some 0) → is_null (cell name) = false) ∧
    (∀ a n, null_counts st name = Some a → a !! i = Some (Some n) → row_counts st !! i = Some n → is_null (cell name) = true).

(** DataFusion's contract for [PruningPredicate::prune]: one answer per
    container, and [false] only when no row that fits the container matches. *)
Definition prunes_soundly (prune : pruning_stats → nat → option (list bool)) (matches : (Z → value) → bool) : Prop :=
  ∀ st n mask, prune st n = Some mask → length mask = n ∧
    ∀ i, mask !! i = Some false → ∀ cell, fits_container st i cell → matches cell = false.

Lemma null_count_all (vals : list value) v :
  v ∈ vals → null_count vals = Z.of_nat (length vals) → is_null v = true.
Proof.
  unfold null_count. induction vals as [|x vals IH]; [by intros ?%elem_of_nil|].
  rewrite filter_cons, elem_of_cons. pose proof (length_filter (λ v, is_null v = true) vals) as Hl.
  case_decide as Hd; simpl; [|lia]. intros [->|Hin] Heq; [done|]. apply IH; [done|lia].
Qed.

Lemma null_count_none (vals : list value) v : v ∈ vals → null_count vals = 0 → is_null v = false.
Proof.
  unfold null_count. induction vals as [|x vals IH]; [by intros ?%elem_of_nil|].
  rewrite filter_cons, elem_of_cons. case_decide as Hd; simpl; [lia|]. intros [->|Hin] Heq; [by destruct (is_null x)|].
  by apply IH.
Qed.

(** [cell] is the row as a reader with schema [sr] sees it: a column of the
    segment it asks for has the row's value, and what it puts in a column the
    segment was written without is its own affair. *)
Definition read_as (s sr : schema) (r : R) (cell : Z → value) : Prop :=
  ∀ name, is_Some (index_of sr name) → is_Some (index_of s name) → cell name = named s r name.

Lemma push_scalar_Some dt v m : push_scalar dt v = Some m → v = Some m.
Proof. unfold push_scalar. destruct v as [[| | |]|]; try done; by destruct dt. Qed.

Lemma read_stats_fit `{!StatsCodecLaws C} (s sr : schema) (Hnames : NoDup (field_name <$> s)) (segs : list (list R)) i rows r cell :
  segs !! i = Some rows → rows_typed s rows → r ∈ rows → read_as s sr r cell →
  fits_container
    (SegmentPruningStats sr ((λ x, parse_segment_statistics (compute_segment_statistics s x) sr) <$> segs)) i cell.
Proof.
  intros Hi Ht Hr Hcell name. simpl. unfold bound_array, column_index.
  destruct (index_of sr name) as [idx|] eqn:Eidx; [|by split_and!].
  destruct (index_of_lookup sr name idx Eidx) as (f & Hf & Hfn). rewrite Hf.
  set (p := parse_segment_statistics (compute_segment_statistics s rows) sr).
  assert (∀ {B} (g : ParsedSegmentStats → B), (g <$> ((λ x, parse_segment_statistics (compute_segment_statistics s x) sr) <$> segs)) !! i
    = Some (g p)) as Hg by (intros B g; by rewrite !list_lookup_fmap, Hi).
  assert (∀ c, per_column p !! idx = Some c → c = no_stats ∨
    cell name ∈ ((λ x, named s x name) <$> rows) ∧
    (∀ mn, pc_min c = Some mn → is_null (cell name) = false → less (cell name) mn = false) ∧
    (∀ mx, pc_max c = Some mx → is_null (cell name) = false → less mx (cell name) = false) ∧
    (∀ n, pc_null_count c = Some n → n = null_count ((λ x, named s x name) <$> rows))) as Hb.
  { intros c Hc. destruct (parsed_bounds s Hnames sr rows idx f c r Ht Hf Hr Hc) as [->|(j & Hj & Hbs)]; [by left|]. right.
    rewrite Hfn in Hj. rewrite (Hcell name) by eauto. split; [by apply (list_elem_of_fmap_2 (λ x, named s x name))|].
    unfold named. by rewrite Hj. }
  split_and!.
  - intros a mn. destruct (data_type_is_prunable (field_type f)); [|done]. intros [= <-]. rewrite Hg. intros [= Hmn].
    destruct (per_column p !! idx) as [c|]; [|done]. apply push_scalar_Some in Hmn.
    destruct (Hb c eq_refl) as [->|(_ & Hlo & _)]; [done|by apply Hlo].
  - intros a mx. destruct (data_type_is_prunable (field_type f)); [|done]. intros [= <-]. rewrite Hg. intros [= Hmx].
    destruct (per_column p !! idx) as [c|]; [|done]. apply push_scalar_Some in Hmx.
    destruct (Hb c eq_refl) as [->|(_ & _ & Hhi & _)]; [done|by apply Hhi].
  - intros a [= <-]. rewrite Hg. intros [= Hn]. destruct (per_column p !! idx) as [c|]; [|done].
    destruct (Hb c eq_refl) as [->|(Hin & _ & _ & Hcount)]; [done|]. apply Hcount in Hn. by apply (null_count_none _ _ Hin).
  - intros a n [= <-]. rewrite !Hg. intros [= Hn] [= Hrc]. destruct (per_column p !! idx) as [c|] eqn:Ec; [|done].
    destruct (Hb c eq_refl) as [->|(Hin & _ & _ & Hcount)]; [done|]. apply Hcount in Hn as Hn'.
    destruct (parse_by_name s Hnames sr rows) as [Hp|[Hrows _]].
    + fold p in Hp. rewrite Hp in Ec. simpl in Ec. rewrite list_lookup_fmap, Hf in Ec. injection Ec as <-. done.
    + fold p in Hrows. apply (null_count_all _ _ Hin). rewrite <- Hn', <- Hrc, Hrows, length_fmap. done.
Qed.

(** C31 Statistics pruning drops no matching row.  Segments written under one
    schema (the snapshot's, with the row id in front) are pruned by a reader with
    a schema of its own: a projection, a reordering, columns the segment was
    written without.  Whenever the pruning predicate keeps its contract, a
    segment [prune_segments_by_stats] leaves out of the scan holds no row the
    residual predicate accepts as the reader sees it: the recorded bounds and
    null counts, resolved by column name, hold of every row of the segment that
    was written with them, and statistics that do not read back prune nothing. *)
Theorem pruned_segment_has_no_match (s sr : schema) (prune : pruning_stats → nat → option (list bool))
    (matches : (Z → value) → bool) (segs : list (list R)) (i : nat) (rows : list R) (r : R) (cell : Z → value)
    (HC : StatsCodecLaws C) (Hnames : NoDup (field_name <$> s))
    (Hprune : prunes_soundly prune matches)
    (Hi : segs !! i = Some rows) (Ht : rows_typed s rows) (Hr : r ∈ rows) (Hcell : read_as s sr r cell)
    (Hout : i ∉ prune_segments_by_stats segs (compute_segment_statistics s) sr (Some (Some prune))) :
  matches cell = false.
Proof.
  unfold prune_segments_by_stats in Hout.
  set (st := SegmentPruningStats sr ((λ x, parse_segment_statistics (compute_segment_statistics s x) sr) <$> segs)) in *.
  apply lookup_lt_Some in Hi as Hlt.
  destruct (prune st (length segs)) as [mask|] eqn:Em; [|exfalso; apply Hout, elem_of_seq; lia].
  destruct (Hprune st (length segs) mask Em) as [Hlen Hno].
  destruct (lookup_lt_is_Some_2 mask i) as [b Hb]; [lia|]. destruct b.
  - exfalso. apply Hout, list_elem_of_omap. exists (i, true). split; [|done]. by apply elem_of_imap_pair.
  - apply (Hno i Hb). by apply (read_stats_fit s sr Hnames segs i rows r).
Qed.

End prune.

(** *** A concrete pruner *)

Module StatsDemo.

#[export] Instance row_cells : RowCells (list value) := λ r, r.

(** A codec over integer payloads: the row count, then seven words a column;
    any other payload does not read back. *)
Definition put (v : option value) : option (list Z) :=
  match v with Some (VInt z) => Some [1; z] | None => Some [0; 0] | _ => None end.

Definition put_count (n : option Z) : list Z := match n with Some n => [1; n] | None => [0; 0] end.

Definition put_column (c : ColumnStatsV0) : option (list Z) :=
  lo ← put (cs_min c); hi ← put (cs_max c); Some (cs_name c :: lo ++ hi ++ put_count (cs_null_count c)).

Definition get (t z : Z) : option value := if t =? 1 then Some (VInt z) else None.

Fixpoint get_columns (bs : list Z) : option (list ColumnStatsV0) :=
  match bs with
  | [] => Some []
  | nm :: a :: b :: c :: d :: e :: f :: rest =>
      cols ← get_columns rest;
      Some ({| cs_name := nm; cs_min := get a b; cs_max := get c d; cs_null_count := if e =? 1 then Some f else None |} :: cols)
  | _ => None
  end.

Lemma demo_column_read_back c cs bs : put_column c = Some bs → get_columns (bs ++ cs) = (cons c) <$> get_columns cs.
Proof.
  destruct c as [nm mn mx nc]. unfold put_column. simpl.
  destruct mn as [[| | |]|], mx as [[| | |]|]; simpl; try done; intros [= <-]; destruct nc; simpl; by destruct (get_columns cs).
Qed.

#[export] Instance codec : StatsCodec :=
  {| to_vec := λ p, match mapM put_column (st_per_column p) with
                    | Some cols => st_row_count p :: mjoin cols
                    | None => []
                    end;
     from_slice := λ bs,
       match bs with
       | rc :: rest => cols ← get_columns rest; Some {| st_row_count := rc; st_per_column := cols |}
       | [] => None
       end |}.

#[export] Instance codec_laws : StatsCodecLaws codec.
Proof.
  split. intros [rc cols] q. cbn [to_vec from_slice codec st_row_count st_per_column]. destruct (mapM put_column cols) as [bss|] eqn:Em; [|done].
  assert (get_columns (mjoin bss) = Some cols) as Hg; [|simpl; rewrite Hg; by intros [= <-]].
  apply mapM_Some in Em. induction Em as [|c bs cols bss Hc _ IH]; [done|].
  change (get_columns (bs ++ mjoin bss) = Some (c :: cols)). rewrite (demo_column_read_back c (mjoin bss) bs Hc). unfold mjoin in *. by rewrite IH.
Qed.

(** The snapshot's columns, the row id in front, and a reader's: column 5 alone,
    and column 8 that came later. *)
Definition table : schema := [{| field_name := 0; field_type := DtInt64 |}; {| field_name := 5; field_type := DtInt64 |}].
Definition projected : schema := [{| field_name := 5; field_type := DtInt64 |}; {| field_name := 8; field_type := DtInt64 |}].

(** [column 5 > 10]: skip a container whose maximum is at most 10. *)
Definition gt10 (cell : Z → value) : bool := match cell 5 with VInt z => 10 <? z | _ => false end.

Definition prune_gt10 (st : pruning_stats) (n : nat) : option (list bool) :=
  match max_values st 5 with
  | Some a => if (length a =? n)%nat
              then Some ((λ m, match m with Some (VInt z) => 10 <? z | _ => true end) <$> a) else None
  | None => None
  end.

Lemma prune_gt10_sound : prunes_soundly prune_gt10 gt10.
Proof.
  intros st n mask. unfold prune_gt10. destruct (max_values st 5) as [a|] eqn:Ea; [|done].
  destruct (Nat.eqb_spec (length a) n) as [Hn|]; [|done]. intros [= <-]. split; [by rewrite length_fmap|].
  intros i Hi cell Hfit. rewrite list_lookup_fmap in Hi. destruct (a !! i) as [m|] eqn:Em; [|done].
  simpl in Hi. destruct m as [[|z| |]|]; try done. injection Hi as Hz%Z.ltb_ge.
  destruct (Hfit 5) as (_ & Hmax & _ & _). specialize (Hmax a (VInt z) Ea Em). unfold gt10.
  destruct (cell 5) as [|y| |]; try done. specialize (Hmax eq_refl). unfold less in Hmax. simpl in Hmax.
  apply Z.ltb_ge in Hmax. apply Z.ltb_ge. lia.
Qed.

(** Row ids above 10 in the segment that is skipped. *)
Definition segs : list (list (list value)) := [[[VInt 40; VInt 3]; [VInt 41; VInt 7]]; [[VInt 42; VInt 12]; [VInt 2; VNull]]].

Definition seen_seven (name : Z) : value := if name =? 5 then VInt 7 else VNull.

Lemma pruned_segment_has_no_match_witness :
  prune_segments_by_stats segs (compute_segment_statistics table) projected (Some (Some prune_gt10)) = [1%nat] ∧
  gt10 seen_seven = false.
Proof.
  split; [reflexivity|].
  apply (pruned_segment_has_no_match table projected prune_gt10 gt10 segs 0 [[VInt 40; VInt 3]; [VInt 41; VInt 7]] [VInt 41; VInt 7]
    seen_seven codec_laws).
  - repeat constructor; set_solver.
  - apply prune_gt10_sound.
  - reflexivity.
  - intros idx f r Hf _ Hr. destruct idx as [|[|[|]]]; simpl in Hf; try done; injection Hf as <-;
      (apply elem_of_cons in Hr as [->|Hr%list_elem_of_singleton]; [done|by subst r]).
  - right. left.
  - intros name [j Hj] [k Hk]. destruct (index_of_lookup _ _ _ Hj) as (f & Hf & <-).
    destruct j as [|[|[|]]]; simpl in Hf; try done; injection Hf as <-; [reflexivity|discriminate Hk].
  - vm_compute. intros Hin. apply elem_of_cons in Hin as [Hin|Hin]; [done|by apply elem_of_nil in Hin].
Defined.

End StatsDemo.
