(* ===== verification/Packer.v ===== *)
(** * The snapshot packer (penca-api/src/lifecycle/packer.rs)

    [SegmentPacker] accumulates clustered partitions and flushes packed segment
    files at the byte cap; [PartitionMerger] merges one partition's prior rows
    with its delta; [pack_merged_partition_stream] drives both from the delta
    groups, the prior-snapshot stream and the carried segments. *)

From S2P Require Import Prelude CoreTypes IndexSelect Ordered Chunker BatchUtil SegmentStats.
From stdpp Require Import base numbers list option sets sorting.

Open Scope Z_scope.
Open Scope result_scope.

Definition slice_rows {A} (l : list A) (off len : nat) : list A := take len (drop off l).

(** ** Steps *)

Record SnapshotSegmentRowSpec := {
  seg_uuid : Z;
  spec_chunk_idx : nat;
  partition_value : option (list Z);
  spec_offset : nat;
  spec_length : nat;
  size_bytes : Z;
  statistics : list Z;
}.

(** [uri] is the uuid that names the file under the snapshot's prefix. *)
Record SnapshotFileStep (R : Type) := {
  step_snap_uuid : Z;
  uri : Z;
  file_batch : list R;
  segment_rows : list SnapshotSegmentRowSpec;
}.
Arguments step_snap_uuid {R} _.
Arguments uri {R} _.
Arguments file_batch {R} _.
Arguments segment_rows {R} _.

Record CarriedSegmentSpec := { new_seg_uuid : Z; carried_chunk_idx : nat; prior_seg_uuid : Z }.

Inductive PackStep (R : Type) :=
  | PackFile (f : SnapshotFileStep R)
  | PackCarried (specs : list CarriedSegmentSpec).
Arguments PackFile {R} _.
Arguments PackCarried {R} _.

(** ** The packer's state *)

Record OpenPartition (R : Type) := {
  op_label : option (list Z);
  acc : list (list R);
  acc_rows : nat;
  emitted_any : bool;
}.
Arguments op_label {R} _.
Arguments acc {R} _.
Arguments acc_rows {R} _.
Arguments emitted_any {R} _.

Record SegmentPacker (R : Type) := {
  snap_uuid : Z;
  max_segment_bytes : Z;
  buffered : list (option (list Z) * list R);
  buffered_bytes : Z;
  chunk_idx : nat;
  open : option (OpenPartition R);
}.
Arguments snap_uuid {R} _.
Arguments max_segment_bytes {R} _.
Arguments buffered {R} _.
Arguments buffered_bytes {R} _.
Arguments chunk_idx {R} _.
Arguments open {R} _.

Definition SegmentPacker_new {R} (snap cap : Z) : SegmentPacker R :=
  {| snap_uuid := snap; max_segment_bytes := cap; buffered := []; buffered_bytes := 0; chunk_idx := 0; open := None |}.

Definition set_buffer {R} (p : SegmentPacker R) b bytes : SegmentPacker R :=
  {| snap_uuid := snap_uuid p; max_segment_bytes := max_segment_bytes p; buffered := b;
     buffered_bytes := bytes; chunk_idx := chunk_idx p; open := open p |}.

Definition set_chunk_idx {R} (p : SegmentPacker R) i : SegmentPacker R :=
  {| snap_uuid := snap_uuid p; max_segment_bytes := max_segment_bytes p; buffered := buffered p;
     buffered_bytes := buffered_bytes p; chunk_idx := i; open := open p |}.

Definition set_open {R} (p : SegmentPacker R) o : SegmentPacker R :=
  {| snap_uuid := snap_uuid p; max_segment_bytes := max_segment_bytes p; buffered := buffered p;
     buffered_bytes := buffered_bytes p; chunk_idx := chunk_idx p; open := o |}.

(** [table_snapshot_segment_uuid]: the hash of the snapshot's uuid and the chunk
    index. *)
Class SegmentNaming := table_snapshot_segment_uuid : Z → nat → Z.

Section packer.
Context {R : Type} `{RowCells R} {K : ArrowKernels} {N : SegmentNaming} {C : StatsCodec} (s : schema).

Notation packer := (SegmentPacker R).
Notation step := (SnapshotFileStep R).

(** ** Flushing *)

Fixpoint flush_rows (snap : Z) (idx off : nat) (parts : list (option (list Z) * list R)) :
    result ApiError (list SnapshotSegmentRowSpec) :=
  match parts with
  | [] => Ok []
  | (l, b) :: rest =>
      let? size := batch_in_memory_bytes (record_batch s b) in
      let? more := flush_rows snap (S idx) (off + length b) rest in
      Ok ({| seg_uuid := table_snapshot_segment_uuid snap idx; spec_chunk_idx := idx;
             partition_value := l; spec_offset := off; spec_length := length b;
             size_bytes := size; statistics := compute_segment_statistics s b |} :: more)
  end.

Definition flush (p : packer) : result ApiError (packer * list step) :=
  match buffered p with
  | [] => Ok (p, [])
  | parts =>
      let? rows := flush_rows (snap_uuid p) (chunk_idx p) 0 parts in
      Ok (set_chunk_idx (set_buffer p [] 0) (chunk_idx p + length parts),
          [{| step_snap_uuid := snap_uuid p;
              uri := table_snapshot_segment_uuid (snap_uuid p) (chunk_idx p);
              file_batch := concat (parts.*2);
              segment_rows := rows |}])
  end.

Definition single_partition_file (p : packer) (l : option (list Z)) (chunk : list R) (chunk_bytes : Z) :
    packer * step :=
  let u := table_snapshot_segment_uuid (snap_uuid p) (chunk_idx p) in
  (set_chunk_idx p (S (chunk_idx p)),
   {| step_snap_uuid := snap_uuid p; uri := u; file_batch := chunk;
      segment_rows := [{| seg_uuid := u; spec_chunk_idx := chunk_idx p; partition_value := l;
                          spec_offset := 0; spec_length := length chunk; size_bytes := chunk_bytes;
                          statistics := compute_segment_statistics s chunk |}] |}).

(** The loop that turns row ranges of [b] into one file each. *)
Fixpoint range_files (p : packer) (l : option (list Z)) (b : list R) (ranges : list (nat * nat * Z)) :
    packer * list step :=
  match ranges with
  | [] => (p, [])
  | (off, len, bytes) :: rest =>
      let '(p1, st) := single_partition_file p l (slice_rows b off len) bytes in
      let '(p2, sts) := range_files p1 l b rest in
      (p2, st :: sts)
  end.

(** ** Whole partitions *)

Definition push_partition (p : packer) (l : option (list Z)) (clustered : list R) :
    result ApiError (packer * list step) :=
  match clustered with
  | [] => Ok (p, [])
  | _ =>
      let? part_bytes := batch_in_memory_bytes (record_batch s clustered) in
      if max_segment_bytes p <? part_bytes then
        let? pf := flush p in
        let? ranges := chunk_row_ranges (record_batch s clustered) (max_segment_bytes p) in
        let '(p2, files) := range_files pf.1 l clustered ranges in
        Ok (p2, pf.2 ++ files)
      else
        let? pf := match buffered p with
                   | [] => Ok (p, [])
                   | _ => if max_segment_bytes p <? buffered_bytes p + part_bytes then flush p else Ok (p, [])
                   end in
        Ok (set_buffer pf.1 (buffered pf.1 ++ [(l, clustered)]) (buffered_bytes pf.1 + part_bytes), pf.2)
  end.

(** ** Sub-partition streaming *)

Definition push_partition_chunk (p : packer) (l : option (list Z)) (b : list R) :
    result ApiError (packer * list step) :=
  match b with
  | [] => Ok (p, [])
  | _ =>
      let o := default {| op_label := l; acc := []; acc_rows := 0; emitted_any := false |} (open p) in
      let o1 := {| op_label := op_label o; acc := acc o ++ [b]; acc_rows := acc_rows o + length b;
                   emitted_any := emitted_any o |} in
      let combined := concat (acc o1) in
      let? ranges := chunk_row_ranges (record_batch s combined) (max_segment_bytes p) in
      match last ranges with
      | Some (last_off, last_len, _) =>
          if (length ranges <=? 1)%nat then
            Ok (set_open p (Some {| op_label := op_label o1; acc := [combined]; acc_rows := acc_rows o1;
                                    emitted_any := emitted_any o1 |}), [])
          else
            let? pf := if emitted_any o1 then Ok (p, []) else flush p in
            let '(p2, files) := range_files pf.1 l combined (removelast ranges) in
            let tail := slice_rows combined last_off last_len in
            Ok (set_open p2 (Some {| op_label := op_label o1; acc := [tail]; acc_rows := length tail;
                                     emitted_any := true |}), pf.2 ++ files)
      | None =>
          Ok (set_open p (Some {| op_label := op_label o1; acc := [combined]; acc_rows := acc_rows o1;
                                  emitted_any := emitted_any o1 |}), [])
      end
  end.

Definition finish_partition (p : packer) : result ApiError (packer * list step) :=
  match open p with
  | None => Ok (p, [])
  | Some o =>
      let p := set_open p None in
      if (acc_rows o =? 0)%nat then Ok (p, [])
      else
        let combined := concat (acc o) in
        if emitted_any o then
          let? ranges := chunk_row_ranges (record_batch s combined) (max_segment_bytes p) in
          Ok (range_files p (op_label o) combined ranges)
        else push_partition p (op_label o) combined
  end.

Definition finish (p : packer) : result ApiError (list step) :=
  let? pf := flush p in Ok pf.2.

Fixpoint claim_carried (p : packer) (prior : list Z) : packer * list CarriedSegmentSpec :=
  match prior with
  | [] => (p, [])
  | u :: rest =>
      let idx := chunk_idx p in
      let '(p', specs) := claim_carried (set_chunk_idx p (S idx)) rest in
      (p', {| new_seg_uuid := table_snapshot_segment_uuid (snap_uuid p) idx;
              carried_chunk_idx := idx; prior_seg_uuid := u |} :: specs)
  end.

(** ** The partition merger *)

Record PartitionMerger := {
  pm_key : PartitionOrderKey;
  pm_delta : option (list R);
  pm_delta_rows : option (list (list Z));
  delta_pos : nat;
  pm_converter : option (list nat);
}.

(** [PartitionMerger::new]; the converter is the sort-key columns it encodes. *)
Definition PartitionMerger_new (key : PartitionOrderKey) (delta : option (list R)) (sort_keys : list Z) :
    result ApiError PartitionMerger :=
  match sort_keys, delta with
  | [], _ | _, None =>
      Ok {| pm_key := key; pm_delta := delta; pm_delta_rows := None; delta_pos := 0; pm_converter := None |}
  | _, Some d =>
      let? idxs := key_indices Internal s sort_keys in
      let? d := sort_record_batch_by_keys s d sort_keys in
      Ok {| pm_key := key; pm_delta := Some d; pm_delta_rows := Some (sort_code s idxs <$> d);
            delta_pos := 0; pm_converter := Some idxs |}
  end.

(** The [while] loop: delta rows strictly below the prior key, from cursor [j]. *)
Fixpoint delta_below (rows : list (list Z)) (key : list Z) (j fuel : nat) : nat :=
  match fuel with
  | O => j
  | S fuel' =>
      match rows !! j with
      | Some k => if oltb k key then delta_below rows key (S j) fuel' else j
      | None => j
      end
  end.

(** The [for] loop over the prior slice: the interleave indices, [inl i] for the
    prior slice and [inr j] for the delta, and the delta cursor it leaves. *)
Fixpoint merge_indices (delta_rows : list (list Z)) (prior_keys : list (list Z)) (i j : nat) :
    list (nat + nat) * nat :=
  match prior_keys with
  | [] => ([], j)
  | key :: rest =>
      let j' := delta_below delta_rows key j (length delta_rows) in
      let '(idx, jn) := merge_indices delta_rows rest (S i) j' in
      ((inr <$> seq j (j' - j)) ++ inl i :: idx, jn)
  end.

(** [interleave_two]. *)
Definition interleave_two (a b : list R) (indices : list (nat + nat)) : list R :=
  omap (λ x, match x with inl i => a !! i | inr j => b !! j end) indices.

Definition push_prior (m : PartitionMerger) (sl : list R) : PartitionMerger * option (list R) :=
  match sl with
  | [] => (m, None)
  | _ =>
      match pm_converter m, pm_delta m, pm_delta_rows m with
      | Some idxs, Some d, Some drows =>
          let '(indices, j) := merge_indices drows (sort_code s idxs <$> sl) 0 (delta_pos m) in
          ({| pm_key := pm_key m; pm_delta := pm_delta m; pm_delta_rows := pm_delta_rows m;
              delta_pos := j; pm_converter := pm_converter m |}, Some (interleave_two sl d indices))
      | _, _, _ => (m, Some sl)
      end
  end.

Definition merger_finish (m : PartitionMerger) : option (list R) :=
  match pm_delta m with
  | None => None
  | Some d =>
      let start := match pm_converter m with Some _ => delta_pos m | None => O end in
      if (length d <=? start)%nat then None else Some (drop start d)
  end.

(** ** The merged stream *)

Definition row_order_key (o : PartitionOrdering) (idxs : list nat) (r : R) : PartitionOrderKey :=
  let l := match po_keys o with [] => None
           | _ => Some (partition_label (field_types s idxs) (key_cells idxs r)) end in
  order_key_at o idxs r l.

Definition batch_order_key (o : PartitionOrdering) (b : list R) (l : option (list Z)) :
    result ApiError PartitionOrderKey :=
  match po_keys o with
  | [] => Ok (order_key_from_key_arrays o [] l)
  | _ => let? idxs := key_indices Internal s (po_keys o) in
         match b with
         | r :: _ => Ok (order_key_at o idxs r l)
         | [] => Err Internal
         end
  end.

Definition check_partition_order (last_completed : option PartitionOrderKey) (key : PartitionOrderKey) :
    result ApiError (option PartitionOrderKey) :=
  match last_completed with
  | Some prev => if oleb key prev then Err Internal else Ok (Some key)
  | None => Ok (Some key)
  end.

Definition close_partition (p : packer) (m : PartitionMerger) : result ApiError (packer * list (PackStep R)) :=
  let? p1 := match merger_finish m with
             | Some tail => push_partition_chunk p (label (pm_key m)) tail
             | None => Ok (p, [])
             end in
  let? p2 := finish_partition p1.1 in
  Ok (p2.1, PackFile <$> (p1.2 ++ p2.2)).

Definition push_delta_only (p : packer) (l : option (list Z)) (b : list R) (sort_keys : list Z) :
    result ApiError (packer * list (PackStep R)) :=
  match b with
  | [] => Ok (p, [])
  | _ =>
      let? clustered := sort_record_batch_by_keys s b sort_keys in
      let? pf := push_partition p l clustered in
      Ok (pf.1, PackFile <$> pf.2)
  end.

Record PackState := {
  ps_packer : packer;
  ps_carried : list (PartitionOrderKey * list Z);
  ps_delta : list (PartitionOrderKey * list R);
}.

Definition in_bounds (bound : option PartitionOrderKey) (key : PartitionOrderKey) : bool :=
  match bound with Some limit => oltb key limit | None => true end.

(** The carried head: flush the buffer, then claim the carried rows' indices. *)
Definition drain_carried (bound : option PartitionOrderKey) (st : PackState) (key : PartitionOrderKey)
    (prior_uuids : list Z) : result ApiError (option (PackState * list (PackStep R))) :=
  if in_bounds bound key then
    let rest := bt_remove key (ps_carried st) in
    match prior_uuids with
    | [] => Ok (Some ({| ps_packer := ps_packer st; ps_carried := rest; ps_delta := ps_delta st |}, []))
    | _ =>
        let? pf := flush (ps_packer st) in
        let '(p2, specs) := claim_carried pf.1 prior_uuids in
        Ok (Some ({| ps_packer := p2; ps_carried := rest; ps_delta := ps_delta st |},
                  (PackFile <$> pf.2) ++ [PackCarried specs]))
    end
  else Ok None.

Definition drain_delta (bound : option PartitionOrderKey) (sort_keys : list Z) (st : PackState)
    (key : PartitionOrderKey) (b : list R) : result ApiError (option (PackState * list (PackStep R))) :=
  if in_bounds bound key then
    let? pd := push_delta_only (ps_packer st) (label key) b sort_keys in
    Ok (Some ({| ps_packer := pd.1; ps_carried := ps_carried st; ps_delta := bt_remove key (ps_delta st) |}, pd.2))
  else Ok None.

(** One iteration of [drain_below]'s loop: [None] is its [break]. *)
Definition drain_step (bound : option PartitionOrderKey) (sort_keys : list Z) (st : PackState) :
    result ApiError (option (PackState * list (PackStep R))) :=
  match first_key_value (ps_carried st), first_key_value (ps_delta st) with
  | Some (c, us), Some (d, b) =>
      match cmp c d with
      | Eq => Err Internal
      | Lt => drain_carried bound st c us
      | Gt => drain_delta bound sort_keys st d b
      end
  | Some (c, us), None => drain_carried bound st c us
  | None, Some (d, b) => drain_delta bound sort_keys st d b
  | None, None => Ok None
  end.

Fixpoint drain_loop (fuel : nat) (bound : option PartitionOrderKey) (sort_keys : list Z) (st : PackState) :
    result ApiError (PackState * list (PackStep R)) :=
  match fuel with
  | O => Ok (st, [])
  | S fuel' =>
      let? r := drain_step bound sort_keys st in
      match r with
      | None => Ok (st, [])
      | Some (st1, out) => let? more := drain_loop fuel' bound sort_keys st1 in Ok (more.1, out ++ more.2)
      end
  end.

(** Each iteration takes an entry out of one of the maps. *)
Definition drain_below (bound : option PartitionOrderKey) (sort_keys : list Z) (st : PackState) :
    result ApiError (PackState * list (PackStep R)) :=
  drain_loop (length (ps_carried st) + length (ps_delta st)) bound sort_keys st.

(** The contiguous same-partition runs of a batch. *)
Fixpoint key_runs (key : R → PartitionOrderKey) (rows : list R) : list (PartitionOrderKey * list R) :=
  match rows with
  | [] => []
  | r :: rest =>
      match key_runs key rest with
      | (k, sl) :: runs => if decide (key r = k) then (k, r :: sl) :: runs else (key r, [r]) :: (k, sl) :: runs
      | [] => [(key r, [r])]
      end
  end.

Record LoopState := {
  ls_pack : PackState;
  active : option PartitionMerger;
  last_completed : option PartitionOrderKey;
}.

(** Close the open partition, if there is one. *)
Definition close_active (st : LoopState) : result ApiError (PackState * list (PackStep R)) :=
  match active st with
  | None => Ok (ls_pack st, [])
  | Some m =>
      let? pc := close_partition (ps_packer (ls_pack st)) m in
      Ok ({| ps_packer := pc.1; ps_carried := ps_carried (ls_pack st); ps_delta := ps_delta (ls_pack st) |}, pc.2)
  end.

(** Opening the partition [key]. *)
Definition open_partition (sort_keys : list Z) (st : LoopState) (key : PartitionOrderKey) :
    result ApiError (LoopState * list (PackStep R)) :=
  let? c := close_active st in
  let? lc := check_partition_order (last_completed st) key in
  if contains_key key (ps_carried c.1) then Err Internal
  else
    let? d := drain_below (Some key) sort_keys c.1 in
    let? m := PartitionMerger_new key (bt_get key (ps_delta d.1)) sort_keys in
    Ok ({| ls_pack := {| ps_packer := ps_packer d.1; ps_carried := ps_carried d.1;
                         ps_delta := bt_remove key (ps_delta d.1) |};
           active := Some m; last_completed := lc |}, c.2 ++ d.2).

(** One run of the prior stream. *)
Definition push_run (sort_keys : list Z) (st : LoopState) (run : PartitionOrderKey * list R) :
    result ApiError (LoopState * list (PackStep R)) :=
  let? o := match active st with
            | Some m => if decide (pm_key m = run.1) then Ok (st, []) else open_partition sort_keys st run.1
            | None => open_partition sort_keys st run.1
            end in
  match active o.1 with
  | None => Err Internal
  | Some m =>
      let '(m', out) := push_prior m run.2 in
      let? pf := match out with
                 | Some b => push_partition_chunk (ps_packer (ls_pack o.1)) (label (pm_key m')) b
                 | None => Ok (ps_packer (ls_pack o.1), [])
                 end in
      Ok ({| ls_pack := {| ps_packer := pf.1; ps_carried := ps_carried (ls_pack o.1);
                           ps_delta := ps_delta (ls_pack o.1) |};
             active := Some m'; last_completed := last_completed o.1 |}, o.2 ++ (PackFile <$> pf.2))
  end.

Fixpoint push_runs (sort_keys : list Z) (st : LoopState) (runs : list (PartitionOrderKey * list R)) :
    result ApiError (LoopState * list (PackStep R)) :=
  match runs with
  | [] => Ok (st, [])
  | run :: rest =>
      let? a := push_run sort_keys st run in
      let? b := push_runs sort_keys a.1 rest in
      Ok (b.1, a.2 ++ b.2)
  end.

(** The [while] loop over the stream's batches; an empty batch is skipped. *)
Fixpoint push_batches (o : PartitionOrdering) (sort_keys : list Z) (st : LoopState) (batches : list (list R)) :
    result ApiError (LoopState * list (PackStep R)) :=
  match batches with
  | [] => Ok (st, [])
  | [] :: rest => push_batches o sort_keys st rest
  | b :: rest =>
      let? idxs := key_indices InvalidRequest s (po_keys o) in
      let? a := push_runs sort_keys st (key_runs (row_order_key o idxs) b) in
      let? c := push_batches o sort_keys a.1 rest in
      Ok (c.1, a.2 ++ c.2)
  end.

(** Delta groups re-keyed by their typed order key; empty groups are skipped. *)
Fixpoint key_delta (o : PartitionOrdering) (groups : list (option (list Z) * list R))
    (m : list (PartitionOrderKey * list R)) : result ApiError (list (PartitionOrderKey * list R)) :=
  match groups with
  | [] => Ok m
  | (_, []) :: rest => key_delta o rest m
  | (l, b) :: rest => let? key := batch_order_key o b l in key_delta o rest (bt_insert key b m)
  end.

Definition pack_merged_partition_stream (delta_groups : list (option (list Z) * list R))
    (snapshot_stream : list (list R)) (o : PartitionOrdering) (sort_keys : list Z)
    (carried : list (PartitionOrderKey * list Z)) (p : packer) : result ApiError (list (PackStep R)) :=
  let? delta := key_delta o delta_groups [] in
  let? a := push_batches o sort_keys
              {| ls_pack := {| ps_packer := p; ps_carried := carried; ps_delta := delta |};
                 active := None; last_completed := None |} snapshot_stream in
  let? c := close_active a.1 in
  let? d := drain_below None sort_keys c.1 in
  let? f := finish (ps_packer d.1) in
  Ok (a.2 ++ c.2 ++ d.2 ++ (PackFile <$> f)).

End packer.
