(* ===== verification/PackLemmas.v ===== *)
(** * Lemmas on the packer: chunks, sub-partition streaming and the merge

    The chunk boundaries as a greedy walk over the rows' costs, its prefix
    stability, the agreement of the streamed partition with the whole partition,
    and the agreement of the cursor merge with the merge of two sorted lists. *)

From S2P Require Import Prelude CoreTypes IndexSelect Ordered Chunker BatchUtil SegmentStats Packer.
From stdpp Require Import base numbers list option sets sorting.

Open Scope Z_scope.
Open Scope result_scope.

#[local] Arguments Nat.leb : simpl never.

(** ** Chunks as a greedy walk *)

Section greedy.
Context {R : Type} `{RowCells R} (s : schema).

Definition row_ok (r : R) : Prop := ∃ c, row_cost s r = Ok c.
Definition cost (r : R) : Z := match row_cost s r with Ok c => c | Err _ => 0 end.
Definition total_bytes (rows : list R) : Z := foldr (λ r t, cost r + t) 0 rows.

Fixpoint greedy (cap : Z) (cur : list R) (run : Z) (rows : list R) : list (list R * Z) :=
  match rows with
  | [] => [(cur, run)]
  | r :: rest =>
      if (cap <? run + cost r) && (1 <=? length cur)%nat
      then (cur, run) :: greedy cap [r] (cost r) rest
      else greedy cap (cur ++ [r]) (run + cost r) rest
  end.

Definition chunks (cap : Z) (rows : list R) : list (list R * Z) :=
  match rows with [] => [] | _ => greedy cap [] 0 rows end.

Lemma row_ok_cost r : row_ok r → row_cost s r = Ok (cost r).
Proof. unfold cost. by intros [c ->]. Qed.

Lemma cost_nonneg r : 0 ≤ cost r.
Proof.
  unfold cost. destruct (row_cost s r) as [c|] eqn:E; [|done]. by apply row_cost_nonneg in E.
Qed.

Lemma total_app l k : total_bytes (l ++ k) = total_bytes l + total_bytes k.
Proof. induction l as [|r l IH]; simpl; [done|]. rewrite IH. lia. Qed.

Lemma total_nonneg l : 0 ≤ total_bytes l.
Proof. induction l as [|r l IH]; simpl; [done|]. pose proof (cost_nonneg r). lia. Qed.

Lemma row_bytes_ok rows i r :
  Forall row_ok rows → rows !! i = Some r → row_bytes (build (record_batch s rows)) i = Ok (cost r).
Proof.
  intros Ho Hi. rewrite (row_bytes_row_cost s rows i r Hi). apply row_ok_cost.
  by apply (Forall_lookup_1 _ _ _ _ Ho Hi).
Qed.

Lemma batch_bytes_total rows :
  Forall row_ok rows → batch_in_memory_bytes (record_batch s rows) = Ok (total_bytes rows).
Proof.
  intros Ho. unfold batch_in_memory_bytes. cbn [num_rows record_batch].
  assert (∀ post pre t, rows = pre ++ post →
    batch_bytes_loop (build (record_batch s rows)) (length post) (length pre) t = Ok (t + total_bytes post)) as Hl.
  { induction post as [|r post IH]; intros pre t Heq; simpl; [f_equal; lia|].
    rewrite (row_bytes_ok rows (length pre) r Ho) by (rewrite Heq; by apply list_lookup_middle).
    cbn [result_bind]. specialize (IH (pre ++ [r])). rewrite length_app in IH. simpl in IH.
    rewrite Nat.add_1_r in IH. rewrite IH by (by rewrite <- app_assoc). f_equal. lia. }
  rewrite <- (Z.add_0_l (total_bytes rows)). by apply (Hl rows [] 0).
Qed.

Definition range_chunk (rows : list R) (g : nat * nat * Z) : list R * Z :=
  (slice_rows rows g.1.1 g.1.2, g.2).

Lemma slice_middle (pre cur post : list R) :
  slice_rows (pre ++ cur ++ post) (length pre) (length cur) = cur.
Proof. unfold slice_rows. by rewrite drop_app_length, take_app_length. Qed.

Lemma chunk_loop_greedy rows cap : Forall row_ok rows → ∀ post pre cur run ranges,
  rows = pre ++ cur ++ post →
  ∃ out, chunk_loop (build (record_batch s rows)) cap (length post) (length pre + length cur) (length pre)
           run ranges = Ok (ranges ++ out) ∧
    range_chunk rows <$> out = greedy cap cur run post.
Proof.
  intros Ho. induction post as [|r post IH]; intros pre cur run ranges Heq; cbn [length chunk_loop greedy].
  - eexists. split; [done|]. simpl. replace (length pre + length cur - length pre)%nat with (length cur) by lia.
    unfold range_chunk. simpl. rewrite Heq. by rewrite slice_middle.
  - rewrite (row_bytes_ok rows (length pre + length cur) r Ho).
    2:{ rewrite Heq, app_assoc, <- length_app. by apply list_lookup_middle. }
    cbn [result_bind].
    replace (length pre <? length pre + length cur)%nat with (1 <=? length cur)%nat
      by (destruct (Nat.leb_spec 1 (length cur)), (Nat.ltb_spec (length pre) (length pre + length cur)); lia).
    destruct ((cap <? run + cost r) && (1 <=? length cur)%nat).
    + destruct (IH (pre ++ cur) [r] (cost r)
        (ranges ++ [(length pre, (length pre + length cur - length pre)%nat, run)])) as (out & Ho1 & Ho2).
      { by rewrite Heq, <- !app_assoc. }
      rewrite length_app in Ho1. simpl in Ho1. rewrite Nat.add_1_r in Ho1. rewrite Ho1.
      eexists. split; [by rewrite <- app_assoc|]. rewrite fmap_app, Ho2. simpl. f_equal.
      replace (length pre + length cur - length pre)%nat with (length cur) by lia.
      unfold range_chunk. simpl. rewrite Heq. by rewrite slice_middle.
    + destruct (IH pre (cur ++ [r]) (run + cost r) ranges) as (out & Ho1 & Ho2).
      { by rewrite Heq, <- !app_assoc. }
      rewrite length_app in Ho1. simpl in Ho1. rewrite Nat.add_assoc, Nat.add_1_r in Ho1. by exists out.
Qed.

Lemma chunk_row_ranges_chunks rows cap :
  Forall row_ok rows → ∃ ranges, chunk_row_ranges (record_batch s rows) cap = Ok ranges ∧
    range_chunk rows <$> ranges = chunks cap rows.
Proof.
  intros Ho. unfold chunk_row_ranges. cbn [num_rows record_batch]. destruct rows as [|r rows]; [by exists []|].
  destruct (Nat.eqb_spec (length (r :: rows)) 0) as [|_]; [done|].
  apply (chunk_loop_greedy (r :: rows) cap Ho (r :: rows) [] [] 0 []). done.
Qed.

(** *** Prefix stability *)

(** The walk from nothing over one of its own chunks does not split it. *)
Definition whole (cap : Z) (t : list R) (b : Z) : Prop := ∀ l, greedy cap [] 0 (t ++ l) = greedy cap t b l.

Lemma whole_single cap r : whole cap [r] (cost r).
Proof. intros l. simpl. by rewrite andb_false_r. Qed.

Lemma whole_snoc cap t b r :
  whole cap t b → (cap <? b + cost r) && (1 <=? length t)%nat = false → whole cap (t ++ [r]) (b + cost r).
Proof. intros Hw Hc l. rewrite <- app_assoc, Hw. simpl. by rewrite Hc. Qed.

Lemma whole_nil cap : whole cap [] 0.
Proof. done. Qed.

Lemma greedy_prefix cap l2 : ∀ l1 cur run, whole cap cur run →
  ∃ pre t b, greedy cap cur run l1 = pre ++ [(t, b)] ∧ whole cap t b ∧
    greedy cap cur run (l1 ++ l2) = pre ++ greedy cap t b l2.
Proof.
  induction l1 as [|r l1 IH]; intros cur run Hw; simpl; [by exists [], cur, run|].
  destruct ((cap <? run + cost r) && (1 <=? length cur)%nat) eqn:Hc.
  - destruct (IH [r] (cost r) (whole_single cap r)) as (pre & t & b & -> & Ht & ->). by exists ((cur, run) :: pre), t, b.
  - apply IH. by apply whole_snoc.
Qed.

(** What a chunk holds. *)
Definition chunk_fits (cap : Z) (c : list R * Z) : Prop :=
  c.1 ≠ [] ∧ c.2 = total_bytes c.1 ∧ (c.2 ≤ cap ∨ length c.1 = 1%nat).

Lemma greedy_chunks cap : ∀ rows cur run,
  run = total_bytes cur → (cur ≠ [] ∨ rows ≠ []) → (run ≤ cap ∨ (length cur ≤ 1)%nat) →
  concat ((greedy cap cur run rows).*1) = cur ++ rows ∧ Forall (chunk_fits cap) (greedy cap cur run rows).
Proof.
  induction rows as [|r rows IH]; intros cur run Hrun Hne Hcap; simpl.
  - split; [done|]. constructor; [|constructor]. destruct Hne as [Hne|]; [|done]. split_and!; simpl; [done..|].
    destruct cur as [|? [|]]; simpl in *; [done|auto|]. destruct Hcap; [auto|lia].
  - destruct ((cap <? run + cost r) && (1 <=? length cur)%nat) eqn:Hc.
    + apply andb_true_iff in Hc as [Hc1 Hc2]. apply Nat.leb_le in Hc2.
      destruct (IH [r] (cost r)) as [Hcc HF]; [simpl; lia|by left|simpl; lia|].
      rewrite fmap_cons. cbn [concat fst]. rewrite Hcc. split; [done|]. constructor; [|done].
      split_and!; simpl; [destruct cur; simpl in *; [lia|done]|done|lia].
    + replace (cur ++ r :: rows) with ((cur ++ [r]) ++ rows) by (by rewrite <- app_assoc).
      apply IH.
      * rewrite total_app. simpl. lia.
      * left. by destruct cur.
      * rewrite length_app. simpl. apply andb_false_iff in Hc as [Hc|Hc]; [left; lia|right].
        apply Nat.leb_gt in Hc. lia.
Qed.

Lemma chunks_content cap rows : concat ((chunks cap rows).*1) = rows ∧ Forall (chunk_fits cap) (chunks cap rows).
Proof.
  destruct rows as [|r rows]; [done|]. unfold chunks.
  apply (greedy_chunks cap (r :: rows) [] 0); [done|by right|right; simpl; lia].
Qed.

Lemma chunks_one cap rows t b : chunks cap rows = [(t, b)] → t = rows ∧ b = total_bytes rows.
Proof.
  intros Hc. destruct (chunks_content cap rows) as [Hcat HF]. rewrite Hc in Hcat, HF. simpl in Hcat.
  rewrite app_nil_r in Hcat. subst t. split; [done|]. by inversion HF as [|? ? (_ & ? & _)].
Qed.

(** Under the cap a partition is one chunk. *)
Lemma greedy_under cap : ∀ rows cur run, run + total_bytes rows ≤ cap → greedy cap cur run rows = [(cur ++ rows, run + total_bytes rows)].
Proof.
  induction rows as [|r rows IH]; intros cur run Hle; simpl; [by rewrite app_nil_r, Z.add_0_r|].
  simpl in Hle. pose proof (total_nonneg rows). destruct (Z.ltb_spec cap (run + cost r)) as [|_]; [lia|]. simpl.
  rewrite IH by lia. by rewrite <- app_assoc, Z.add_assoc.
Qed.

Lemma chunks_under cap rows : rows ≠ [] → total_bytes rows ≤ cap → chunks cap rows = [(rows, total_bytes rows)].
Proof. intros Hne Hle. destruct rows as [|r rows]; [done|]. by apply (greedy_under cap (r :: rows) [] 0). Qed.

Lemma chunks_app cap l1 l2 : l1 ≠ [] →
  ∃ pre t b, chunks cap l1 = pre ++ [(t, b)] ∧ t ≠ [] ∧ chunks cap (l1 ++ l2) = pre ++ chunks cap (t ++ l2).
Proof.
  intros Hne. destruct l1 as [|r l1]; [done|]. unfold chunks at 1.
  destruct (greedy_prefix cap l2 (r :: l1) [] 0 (whole_nil cap)) as (pre & t & b & Hg & Hw & Hg2).
  assert (t ≠ []) as Ht.
  { destruct (chunks_content cap (r :: l1)) as [_ HF]. unfold chunks in HF. rewrite Hg in HF.
    apply Forall_app in HF as [_ HF]. by inversion HF as [|? ? (? & _)]. }
  exists pre, t, b. split_and!; [done|done|]. unfold chunks. simpl app in Hg2 |- *.
  destruct t as [|x t]; [done|]. simpl app. rewrite Hg2. by rewrite <- Hw.
Qed.

End greedy.

(** ** The packer's operations in closed form *)

Section closed_form.
Context {R : Type} `{RowCells R} {K : ArrowKernels} {N : SegmentNaming} {C : StatsCodec} (s : schema).

Notation packer := (SegmentPacker R).
Notation step := (SnapshotFileStep R).

Definition packer_ok (p : packer) : Prop := Forall (λ x, Forall (row_ok s) x.2) (buffered p).

Fixpoint part_specs (snap : Z) (idx off : nat) (parts : list (option (list Z) * list R)) :
    list SnapshotSegmentRowSpec :=
  match parts with
  | [] => []
  | (l, b) :: rest =>
      {| seg_uuid := table_snapshot_segment_uuid snap idx; spec_chunk_idx := idx; partition_value := l;
         spec_offset := off; spec_length := length b; size_bytes := total_bytes s b;
         statistics := compute_segment_statistics s b |}
      :: part_specs snap (S idx) (off + length b) rest
  end.

Definition flushed (p : packer) : packer :=
  match buffered p with
  | [] => p
  | parts => set_chunk_idx (set_buffer p [] 0) (chunk_idx p + length parts)
  end.

Definition flush_steps (p : packer) : list step :=
  match buffered p with
  | [] => []
  | parts => [{| step_snap_uuid := snap_uuid p;
                 uri := table_snapshot_segment_uuid (snap_uuid p) (chunk_idx p);
                 file_batch := concat (parts.*2);
                 segment_rows := part_specs (snap_uuid p) (chunk_idx p) 0 parts |}]
  end.

Definition chunk_file (snap : Z) (idx : nat) (l : option (list Z)) (c : list R * Z) : step :=
  {| step_snap_uuid := snap; uri := table_snapshot_segment_uuid snap idx; file_batch := c.1;
     segment_rows := [{| seg_uuid := table_snapshot_segment_uuid snap idx; spec_chunk_idx := idx;
                         partition_value := l; spec_offset := 0; spec_length := length c.1;
                         size_bytes := c.2; statistics := compute_segment_statistics s c.1 |}] |}.

Fixpoint chunk_files (snap : Z) (idx : nat) (l : option (list Z)) (cs : list (list R * Z)) : list step :=
  match cs with
  | [] => []
  | c :: rest => chunk_file snap idx l c :: chunk_files snap (S idx) l rest
  end.

Lemma chunk_files_app snap l cs1 cs2 : ∀ idx,
  chunk_files snap idx l (cs1 ++ cs2) =
  chunk_files snap idx l cs1 ++ chunk_files snap (idx + length cs1) l cs2.
Proof.
  induction cs1 as [|c cs1 IH]; intros idx; simpl; [by rewrite Nat.add_0_r|].
  rewrite IH. do 3 f_equal. lia.
Qed.

Lemma flush_rows_ok snap parts : ∀ idx off,
  Forall (λ x, Forall (row_ok s) x.2) parts → flush_rows s snap idx off parts = Ok (part_specs snap idx off parts).
Proof.
  induction parts as [|[l b] parts IH]; intros idx off Ho; simpl; [done|].
  apply Forall_cons in Ho as [Hb Ho]. rewrite (batch_bytes_total s b Hb). cbn [result_bind].
  by rewrite IH.
Qed.

Lemma flush_ok p : packer_ok p → flush s p = Ok (flushed p, flush_steps p).
Proof.
  unfold packer_ok, flush, flushed, flush_steps. intros Ho.
  destruct (buffered p) as [|x parts] eqn:E; [done|]. by rewrite flush_rows_ok.
Qed.

Lemma set_chunk_idx_same (p : packer) : set_chunk_idx p (chunk_idx p) = p.
Proof. by destruct p. Qed.

Lemma range_files_ok l b ranges : ∀ p : packer,
  range_files s p l b ranges =
  (set_chunk_idx p (chunk_idx p + length ranges),
   chunk_files (snap_uuid p) (chunk_idx p) l (range_chunk b <$> ranges)).
Proof.
  induction ranges as [|[[off len] bytes] ranges IH]; intros p; simpl.
  - by rewrite Nat.add_0_r, set_chunk_idx_same.
  - rewrite IH. simpl. f_equal. unfold set_chunk_idx. simpl. f_equal. lia.
Qed.

(** [push_partition] as it acts on costed rows. *)
Definition pushed (p : packer) (l : option (list Z)) (rows : list R) : packer * list step :=
  match rows with
  | [] => (p, [])
  | _ =>
      let cap := max_segment_bytes p in
      if cap <? total_bytes s rows then
        let p1 := flushed p in
        let cs := chunks s cap rows in
        (set_chunk_idx p1 (chunk_idx p1 + length cs),
         flush_steps p ++ chunk_files (snap_uuid p) (chunk_idx p1) l cs)
      else
        let over := negb (bool_decide (buffered p = [])) && (cap <? buffered_bytes p + total_bytes s rows) in
        let p1 := if over then flushed p else p in
        (set_buffer p1 (buffered p1 ++ [(l, rows)]) (buffered_bytes p1 + total_bytes s rows),
         if over then flush_steps p else [])
  end.

Lemma flushed_snap p : snap_uuid (flushed p) = snap_uuid p.
Proof. unfold flushed. by destruct (buffered p). Qed.

Lemma flushed_cap p : max_segment_bytes (flushed p) = max_segment_bytes p.
Proof. unfold flushed. by destruct (buffered p). Qed.

Lemma flushed_open p : open (flushed p) = open p.
Proof. unfold flushed. by destruct (buffered p). Qed.

Lemma flushed_buffered p : buffered (flushed p) = [].
Proof. unfold flushed. by destruct (buffered p) eqn:E. Qed.

Lemma push_partition_ok p l rows :
  packer_ok p → Forall (row_ok s) rows → push_partition s p l rows = Ok (pushed p l rows).
Proof.
  intros Hp Hr. unfold push_partition, pushed. destruct rows as [|r rows']; [done|].
  set (rows := r :: rows') in *. rewrite (batch_bytes_total s rows Hr). cbn [result_bind].
  destruct (Z.ltb_spec (max_segment_bytes p) (total_bytes s rows)) as [Hlt|Hge].
  - rewrite (flush_ok p Hp). cbn [result_bind fst snd].
    destruct (chunk_row_ranges_chunks s rows (max_segment_bytes p) Hr) as (ranges & -> & Hc).
    cbn [result_bind]. rewrite range_files_ok, Hc, flushed_snap.
    by rewrite <- (length_fmap (range_chunk rows) ranges), Hc.
  - case_bool_decide as Hb; [rewrite Hb; by cbn [result_bind negb andb fst snd]|].
    destruct (buffered p) as [|x ps] eqn:E; [done|]. cbn [negb andb].
    destruct (max_segment_bytes p <? buffered_bytes p + total_bytes s rows); [|by cbn [result_bind fst snd]; rewrite E].
    by rewrite (flush_ok p Hp).
Qed.

End closed_form.

(** ** Streaming a partition in pieces *)

Section streaming.
Context {R : Type} `{RowCells R} {K : ArrowKernels} {N : SegmentNaming} {C : StatsCodec} (s : schema).

Notation packer := (SegmentPacker R).
Notation step := (SnapshotFileStep R).

Fixpoint push_chunks (p : packer) (l : option (list Z)) (bs : list (list R)) :
    result ApiError (packer * list step) :=
  match bs with
  | [] => Ok (p, [])
  | b :: rest =>
      let? a := push_partition_chunk s p l b in
      let? c := push_chunks a.1 l rest in
      Ok (c.1, a.2 ++ c.2)
  end.

(** The state after the rows [sofar] of partition [l] went in, from the closed
    packer [p], and the files that have left it. *)
Definition streamed (p : packer) (l : option (list Z)) (sofar : list R) : packer * list step :=
  let cs := chunks s (max_segment_bytes p) sofar in
  match last cs with
  | None => (p, [])
  | Some (t, _) =>
      if (length cs <=? 1)%nat then
        (set_open p (Some {| op_label := l; acc := [sofar]; acc_rows := length sofar; emitted_any := false |}), [])
      else
        let p1 := flushed p in
        let pre := removelast cs in
        (set_open (set_chunk_idx p1 (chunk_idx p1 + length pre))
           (Some {| op_label := l; acc := [t]; acc_rows := length t; emitted_any := true |}),
         flush_steps s p ++ chunk_files s (snap_uuid p) (chunk_idx p1) l pre)
  end.

Lemma removelast_snoc {A} (l : list A) x : removelast (l ++ [x]) = l.
Proof. by rewrite removelast_app, app_nil_r by done. Qed.

Lemma removelast_app_ne {A} (l k : list A) : k ≠ [] → removelast (l ++ k) = l ++ removelast k.
Proof. apply removelast_app. Qed.

(** Splitting the chunks of a non-empty row list at its last chunk. *)
Lemma chunks_last cap rows : rows ≠ [] →
  ∃ pre t b, chunks s cap rows = pre ++ [(t, b)] ∧ t ≠ [] ∧ chunks s cap t = [(t, b)] ∧
    (∀ more, chunks s cap (rows ++ more) = pre ++ chunks s cap (t ++ more)) ∧ (pre = [] → t = rows).
Proof.
  intros Hne. destruct (chunks_app s cap rows [] Hne) as (pre & t & b & Hc & Ht & Hc').
  assert (∀ more, chunks s cap (rows ++ more) = pre ++ chunks s cap (t ++ more)) as Hmore.
  { intros more. destruct (chunks_app s cap rows more Hne) as (pre' & t' & b' & Hc1 & _ & ->).
    rewrite Hc in Hc1. apply app_inj_2 in Hc1 as [-> [= -> ->]]; done. }
  exists pre, t, b. split_and!; [done|done| |done|].
  - rewrite !app_nil_r in Hc'. rewrite Hc in Hc'. by apply app_inv_head in Hc'.
  - intros ->. by apply chunks_one in Hc as [-> _].
Qed.

Lemma ranges_shape rows ranges cap :
  Forall (row_ok s) rows → rows ≠ [] →
  chunk_row_ranges (record_batch s rows) cap = Ok ranges → range_chunk rows <$> ranges = chunks s cap rows →
  ∃ off len bytes, last ranges = Some (off, len, bytes) ∧ length ranges = length (chunks s cap rows) ∧
    last (chunks s cap rows) = Some (slice_rows rows off len, bytes) ∧
    range_chunk rows <$> removelast ranges = removelast (chunks s cap rows).
Proof.
  intros Ho Hne Hr Hc. destruct (chunks_last cap rows Hne) as (pre & t & b & Hcs & _).
  destruct ranges as [|g0 gs] using rev_ind; [rewrite Hcs in Hc; by destruct pre|]. clear IHgs.
  destruct g0 as [[off len] bytes]. exists off, len, bytes. rewrite <- Hc, length_fmap.
  rewrite removelast_snoc, fmap_app. change (range_chunk rows <$> [(off, len, bytes)]) with [range_chunk rows (off, len, bytes)].
  by rewrite !last_snoc, removelast_snoc.
Qed.

Lemma push_first p l b :
  packer_ok s p → open p = None → b ≠ [] → Forall (row_ok s) b →
  push_partition_chunk s p l b = Ok (streamed p l b).
Proof.
  intros Hp Hopen Hb Ho. unfold push_partition_chunk, streamed. destruct b as [|r b']; [done|].
  set (b := r :: b') in *. rewrite Hopen. cbn [default op_label acc acc_rows emitted_any].
  replace (concat ([] ++ [b])) with b by (simpl; by rewrite app_nil_r).
  destruct (chunk_row_ranges_chunks s b (max_segment_bytes p) Ho) as (ranges & Hr & Hc).
  rewrite Hr. cbn [result_bind].
  destruct (ranges_shape b ranges _ Ho Hb Hr Hc) as (off & len & bytes & -> & Hlen & -> & Hrm).
  rewrite <- Hlen. destruct (length ranges <=? 1)%nat; [done|].
  rewrite (flush_ok s p Hp). cbn [result_bind fst snd]. rewrite range_files_ok, Hrm, flushed_snap.
  by rewrite <- (length_fmap (range_chunk b) (removelast ranges)), Hrm.
Qed.

Lemma push_next p l sofar b :
  packer_ok s p → sofar ≠ [] → Forall (row_ok s) sofar → Forall (row_ok s) b →
  (let? a := push_partition_chunk s (streamed p l sofar).1 l b in Ok (a.1, (streamed p l sofar).2 ++ a.2)) =
  Ok (streamed p l (sofar ++ b)).
Proof.
  intros Hp Hs Hos Hob. destruct b as [|r b'].
  { simpl. rewrite !app_nil_r. by destruct (streamed p l sofar). }
  set (cap := max_segment_bytes p). set (b := r :: b') in *.
  destruct (chunks_last cap sofar Hs) as (pre & t & by0 & Hc & Ht & Htc & Hmore & Hpre).
  assert (Forall (row_ok s) t) as Hot.
  { destruct (chunks_content s cap sofar) as [Hcat _]. rewrite Hc, fmap_app, concat_app in Hcat.
    rewrite <- Hcat in Hos. apply Forall_app in Hos as [_ Hos]. simpl in Hos. by rewrite app_nil_r in Hos. }
  assert (Forall (row_ok s) (t ++ b)) as Hotb by (by apply Forall_app).
  assert (t ++ b ≠ []) as Htb by (by destruct t).
  destruct (chunk_row_ranges_chunks s (t ++ b) cap Hotb) as (ranges & Hr & Hrc).
  destruct (ranges_shape (t ++ b) ranges cap Hotb Htb Hr Hrc) as (off & len & bytes & Hl & Hlen & Hlast & Hrm).
  assert (chunks s cap (t ++ b) ≠ []) as Hcne by (intros Hn; by rewrite Hn in Hlast).
  assert (streamed p l (sofar ++ b) =
    if (length (pre ++ chunks s cap (t ++ b)) <=? 1)%nat then
      (set_open p (Some {| op_label := l; acc := [sofar ++ b]; acc_rows := length (sofar ++ b); emitted_any := false |}), [])
    else
      (set_open (set_chunk_idx (flushed p) (chunk_idx (flushed p) + length (pre ++ removelast (chunks s cap (t ++ b)))))
        (Some {| op_label := l; acc := [slice_rows (t ++ b) off len]; acc_rows := length (slice_rows (t ++ b) off len);
                 emitted_any := true |}),
       flush_steps s p ++ chunk_files s (snap_uuid p) (chunk_idx (flushed p)) l (pre ++ removelast (chunks s cap (t ++ b)))))
    as Hgoal.
  { unfold streamed. fold cap. rewrite Hmore, last_app, Hlast. by rewrite removelast_app_ne. }
  rewrite Hgoal. clear Hgoal.
  unfold streamed. fold cap. rewrite Hc, last_snoc, removelast_snoc, length_app. cbn [length].
  destruct (Nat.leb_spec (length pre + 1) 1) as [Hone|Hmany].
  - assert (pre = []) as -> by (destruct pre; simpl in *; [done|lia]). rewrite (Hpre eq_refl) in *.
    cbn [fst snd]. unfold push_partition_chunk. cbn [open set_open default id acc op_label acc_rows emitted_any b].
    fold b. replace (concat ([sofar] ++ [b])) with (sofar ++ b) by (simpl; by rewrite app_nil_r).
    cbn [max_segment_bytes set_open]. fold cap. rewrite Hr.
    cbn [result_bind]. rewrite Hl, Hlen, !app_nil_l, length_app.
    destruct (length (chunks s cap (sofar ++ b)) <=? 1)%nat; [done|].
    assert (packer_ok s (set_open p (Some {| op_label := l; acc := [sofar]; acc_rows := length sofar; emitted_any := false |})))
      as Hp' by done.
    rewrite (flush_ok s _ Hp'). cbn [result_bind fst snd]. rewrite range_files_ok, Hrm.
    rewrite <- (length_fmap (range_chunk (sofar ++ b)) (removelast ranges)), Hrm.
    unfold flushed, flush_steps. simpl. by destruct (buffered p).
  - cbn [fst snd]. unfold push_partition_chunk.
    cbn [open set_open default id acc op_label acc_rows emitted_any b]. fold b.
    replace (concat ([t] ++ [b])) with (t ++ b) by (simpl; by rewrite app_nil_r).
    cbn [max_segment_bytes set_open set_chunk_idx]. rewrite flushed_cap. fold cap. rewrite Hr.
    cbn [result_bind]. rewrite Hl, Hlen. rewrite length_app.
    destruct (Nat.leb_spec (length pre + length (chunks s cap (t ++ b))) 1) as [Hbad|_]; [destruct (chunks s cap (t ++ b)); simpl in *; [done|lia]|].
    destruct (Nat.leb_spec (length (chunks s cap (t ++ b))) 1) as [H1|H1].
    + cbn [result_bind fst snd]. 
      assert (removelast (chunks s cap (t ++ b)) = []) as Hrl.
      { destruct (chunks s cap (t ++ b)) as [|? [|]]; simpl in *; [done|done|lia]. }
      assert (slice_rows (t ++ b) off len = t ++ b) as Hsl.
      { destruct (chunks s cap (t ++ b)) as [|[t1 b1] [|]] eqn:E; simpl in *; [done| |lia].
        apply chunks_one in E as [-> _]. by injection Hlast. }
      rewrite Hrl, Hsl, !app_nil_r, length_app. done.
    + cbn [result_bind fst snd]. rewrite range_files_ok, Hrm. cbn [chunk_idx snap_uuid set_chunk_idx set_open].
      cbn [result_bind fst snd app].      rewrite flushed_snap, chunk_files_app, <- app_assoc, length_app.
      rewrite <- (length_fmap (range_chunk (t ++ b)) (removelast ranges)), Hrm.
      unfold set_open, set_chunk_idx. simpl. rewrite Nat.add_assoc. done.
Qed.

Lemma push_chunks_next p l bs : ∀ sofar,
  packer_ok s p → sofar ≠ [] → Forall (row_ok s) sofar → Forall (row_ok s) (concat bs) →
  (let? a := push_chunks (streamed p l sofar).1 l bs in Ok (a.1, (streamed p l sofar).2 ++ a.2)) =
  Ok (streamed p l (sofar ++ concat bs)).
Proof.
  induction bs as [|b bs IH]; intros sofar Hp Hs Hos Hob.
  { simpl. rewrite !app_nil_r. by destruct (streamed p l sofar). }
  simpl in Hob. apply Forall_app in Hob as [Hb Hbs]. pose proof (push_next p l sofar b Hp Hs Hos Hb) as Hn.
  cbn [push_chunks concat]. destruct (push_partition_chunk s (streamed p l sofar).1 l b) as [[p1 st1]|]; [|done].
  cbn [result_bind fst snd] in Hn |- *. injection Hn as Hn. rewrite (app_assoc sofar b).
  rewrite <- (IH (sofar ++ b)); [|done|by destruct sofar|by apply Forall_app|done].
  rewrite <- Hn. cbn [fst snd]. destruct (push_chunks p1 l bs); [|done]. cbn [result_bind fst snd].
  by rewrite app_assoc.
Qed.

Lemma push_chunks_streamed p l bs :
  packer_ok s p → open p = None → Forall (row_ok s) (concat bs) → push_chunks p l bs = Ok (streamed p l (concat bs)).
Proof.
  intros Hp Hopen. induction bs as [|b bs IH]; intros Ho; [done|].
  simpl in Ho. apply Forall_app in Ho as [Hb Hbs]. cbn [push_chunks concat]. destruct b as [|r b].
  { cbn [push_partition_chunk result_bind fst snd app]. rewrite (IH Hbs). cbn [result_bind fst snd].
    by destruct (streamed p l (concat bs)). }
  rewrite (push_first p l (r :: b) Hp Hopen) by done. cbn [result_bind].
  by apply push_chunks_next.
Qed.

(** Streaming a partition in any pieces and finishing it is pushing it whole. *)
Lemma stream_whole p l bs :
  packer_ok s p → open p = None → Forall (row_ok s) (concat bs) →
  (let? a := push_chunks p l bs in let? f := finish_partition s a.1 in Ok (f.1, a.2 ++ f.2)) =
  push_partition s p l (concat bs).
Proof.
  intros Hp Hopen Ho. rewrite push_chunks_streamed by done. cbn [result_bind].
  generalize dependent (concat bs). intros rows Ho. rewrite push_partition_ok by done.
  destruct (decide (rows = [])) as [->|Hne].
  { unfold streamed. simpl. unfold finish_partition. by rewrite Hopen. }
  assert (set_open p None = p) as Hnone by (destruct p; simpl in *; by subst).
  set (cap := max_segment_bytes p).
  destruct (chunks_last cap rows Hne) as (pre & t & b & Hc & Ht & Htc & _ & Hpre).
  unfold streamed. fold cap. rewrite Hc, last_snoc, length_app, removelast_snoc. cbn [length].
  destruct (Nat.leb_spec (length pre + 1) 1) as [H1|H1]; unfold finish_partition;
    cbn [fst snd open set_open acc_rows acc op_label emitted_any];
    (destruct (Nat.eqb_spec (length rows) 0) as [|_]; [by destruct rows|]);
    (destruct (Nat.eqb_spec (length t) 0) as [|_]; [by destruct t|]); simpl concat; rewrite app_nil_r.
  - unfold set_open in Hnone |- *. simpl. rewrite Hnone, push_partition_ok by done.
    cbn [result_bind fst snd app]. by destruct (pushed s p l rows).
  - assert (Forall (row_ok s) t) as Hot.
    { destruct (chunks_content s cap rows) as [Hcat _]. rewrite Hc, fmap_app, concat_app in Hcat.
      rewrite <- Hcat in Ho. apply Forall_app in Ho as [_ Ho]. simpl in Ho. by rewrite app_nil_r in Ho. }
    cbn [max_segment_bytes set_open set_chunk_idx]. rewrite flushed_cap. fold cap.
    destruct (chunk_row_ranges_chunks s t cap Hot) as (ranges & -> & Hrc). cbn [result_bind].
    rewrite range_files_ok, Hrc, Htc. cbn [fst snd chunk_idx snap_uuid set_open set_chunk_idx].
    rewrite flushed_snap. rewrite Htc in Hrc. apply (f_equal length) in Hrc. rewrite length_fmap in Hrc. rewrite Hrc.
    unfold pushed. destruct rows as [|r rows']; [done|]. set (rows := r :: rows') in *. fold cap.
    destruct (Z.ltb_spec cap (total_bytes s rows)) as [_|Hle].
    2:{ rewrite (chunks_under s cap rows Hne Hle) in Hc. destruct pre as [|? [|]]; simpl in *; [lia|done|done]. }
    rewrite Hc, chunk_files_app, length_app, <- app_assoc. cbn [length]. rewrite Nat.add_assoc.
    assert (open (flushed p) = None) as Hfo by (by rewrite flushed_open).
    destruct (flushed p); simpl in *; by subst.
Qed.

End streaming.
