(* ===== verification/PackMerge.v ===== *)
(** * The streamed merge is the whole-partition merge

    [merged] merges two sorted lists with prior rows first on ties; the cursor
    merge of [PartitionMerger] computes it slice by slice, and the streaming loop
    of [pack_merged_partition_stream] computes [pack_whole], which merges and
    pushes one whole partition at a time. *)

From S2P Require Import Prelude CoreTypes IndexSelect Ordered Chunker BatchUtil SegmentStats Packer PackLemmas.
From stdpp Require Import base numbers list option sets sorting.

Open Scope Z_scope.
Open Scope result_scope.

Lemma filter_none {A} (P : A → Prop) `{!∀ x, Decision (P x)} (l : list A) :
  (∀ x, x ∈ l → ¬ P x) → filter P l = [].
Proof.
  induction l as [|x l IH]; intros Hl; [done|]. rewrite filter_cons_False by (apply Hl; by left).
  apply IH. intros y Hy. apply Hl. by right.
Qed.

(** ** Merging two sorted lists *)

Section merge.
Context {R C : Type} `{CmpLaws C} (code : R → C).

Fixpoint below (c : C) (d : list R) : list R * list R :=
  match d with
  | [] => ([], [])
  | r :: rest => if oltb (code r) c then let '(b, e) := below c rest in (r :: b, e) else ([], d)
  end.

(** The output a run of prior rows forces, and the delta it leaves. *)
Fixpoint merge_prefix (prior d : list R) : list R * list R :=
  match prior with
  | [] => ([], d)
  | r :: rest =>
      let '(b, d1) := below (code r) d in
      let '(o, d2) := merge_prefix rest d1 in
      (b ++ r :: o, d2)
  end.

Definition merged (prior d : list R) : list R := let '(o, d') := merge_prefix prior d in o ++ d'.

Lemma below_app c d : (below c d).1 ++ (below c d).2 = d.
Proof.
  induction d as [|r d IH]; simpl; [done|]. destruct (oltb (code r) c); [|done].
  destruct (below c d) as [b e]. simpl in *. by rewrite IH.
Qed.

Lemma below_lt c d r : r ∈ (below c d).1 → olt (code r) c.
Proof.
  induction d as [|r0 d IH]; simpl; [by intros ?%elem_of_nil|].
  destruct (oltb (code r0) c) eqn:E; [|by intros ?%elem_of_nil].
  destruct (below c d) as [b e]. simpl in *. rewrite elem_of_cons. intros [->|?]; [by apply oltb_lt|auto].
Qed.

Lemma below_rest c d : StronglySorted ole (code <$> d) → ∀ r, r ∈ (below c d).2 → ole c (code r).
Proof.
  induction d as [|r0 d IH]; simpl; [by intros _ ? ?%elem_of_nil|].
  intros [Hs Hf]%StronglySorted_inv r. destruct (oltb (code r0) c) eqn:E.
  - destruct (below c d) as [b e]. simpl in *. by apply IH.
  - apply oltb_ge in E. simpl. rewrite elem_of_cons. intros [->|Hin]; [done|].
    transitivity (code r0); [done|]. rewrite Forall_forall in Hf. apply Hf. by apply list_elem_of_fmap_2.
Qed.

Lemma merge_prefix_app p1 p2 d :
  merge_prefix (p1 ++ p2) d =
  let '(o1, d1) := merge_prefix p1 d in let '(o2, d2) := merge_prefix p2 d1 in (o1 ++ o2, d2).
Proof.
  revert d. induction p1 as [|r p1 IH]; intros d; simpl; [by destruct (merge_prefix p2 d)|].
  destruct (below (code r) d) as [b d0]. rewrite IH. destruct (merge_prefix p1 d0) as [o1 d1].
  destruct (merge_prefix p2 d1) as [o2 d2]. by rewrite <- app_assoc.
Qed.

Lemma merge_prefix_perm p d : (merge_prefix p d).1 ++ (merge_prefix p d).2 ≡ₚ p ++ d.
Proof.
  revert d. induction p as [|r p IH]; intros d; simpl; [done|].
  pose proof (below_app (code r) d) as Hb. destruct (below (code r) d) as [b d1]. simpl in Hb.
  specialize (IH d1). destruct (merge_prefix p d1) as [o d2]. simpl in *.
  rewrite <- app_assoc. simpl. rewrite IH, <- Hb. rewrite <- Permutation_middle. constructor.
  apply Permutation_app_swap_app.
Qed.

(** The merge loses and adds nothing. *)
Lemma merged_perm p d : merged p d ≡ₚ p ++ d.
Proof.
  unfold merged. pose proof (merge_prefix_perm p d) as Hp. by destruct (merge_prefix p d).
Qed.

Lemma merged_nil_r p : merged p [] = p.
Proof.
  unfold merged. assert (merge_prefix p [] = (p, [])) as Hp; [|by rewrite Hp, app_nil_r].
  induction p as [|r p IH]; simpl; [done|]. by rewrite IH.
Qed.

Lemma merged_cons r p d : merged (r :: p) d = (below (code r) d).1 ++ r :: merged p (below (code r) d).2.
Proof.
  unfold merged. simpl. destruct (below (code r) d) as [b d1]. cbn [fst snd]. destruct (merge_prefix p d1) as [o d2].
  simpl. by rewrite <- app_assoc.
Qed.

Lemma StronglySorted_app_ole (l k : list C) :
  StronglySorted ole l → StronglySorted ole k → (∀ x y, x ∈ l → y ∈ k → ole x y) → StronglySorted ole (l ++ k).
Proof.
  intros Hl Hk Hlk. induction Hl as [|x l Hl IH Hx]; simpl; [done|]. constructor.
  - apply IH. intros y z Hy. apply Hlk. by right.
  - apply Forall_app. split; [done|]. apply Forall_forall. intros y Hy. apply Hlk; [by left|done].
Qed.

Lemma sorted_sub (l k : list R) :
  StronglySorted ole (code <$> (l ++ k)) → StronglySorted ole (code <$> l) ∧ StronglySorted ole (code <$> k).
Proof.
  rewrite fmap_app. induction (code <$> l) as [|x m IH]; simpl; [split; [constructor|done]|].
  intros [Hs Hf]%StronglySorted_inv. apply IH in Hs as [H1 H2]. split; [|done]. constructor; [done|].
  by apply Forall_app in Hf as [? _].
Qed.

(** The merge of two sorted lists is sorted. *)
Lemma merged_sorted p : ∀ d,
  StronglySorted ole (code <$> p) → StronglySorted ole (code <$> d) → StronglySorted ole (code <$> merged p d).
Proof.
  induction p as [|r p IH]; intros d Hp Hd; [done|]. rewrite merged_cons.
  pose proof (below_app (code r) d) as Hb. pose proof (below_lt (code r) d) as Hlt.
  pose proof (below_rest (code r) d Hd) as Hge. destruct (below (code r) d) as [b d1]. simpl in *.
  apply StronglySorted_inv in Hp as [Hp Hr]. rewrite <- Hb in Hd. apply sorted_sub in Hd as [Hdb Hd1].
  rewrite Forall_forall in Hr.
  assert (∀ x, x ∈ code <$> merged p d1 → ole (code r) x) as Hrest.
  { intros x [y [-> Hy]]%list_elem_of_fmap. rewrite merged_perm, elem_of_app in Hy.
    destruct Hy as [Hy|Hy]; [apply Hr; by apply list_elem_of_fmap_2|by apply Hge]. }
  rewrite fmap_app, fmap_cons. apply StronglySorted_app_ole; [done| |].
  - constructor; [by apply IH|]. by apply Forall_forall.
  - intros x y [z [-> Hz]]%list_elem_of_fmap. apply Hlt in Hz. rewrite elem_of_cons.
    intros [->|Hy]; [by apply olt_le|]. transitivity (code r); [by apply olt_le|by apply Hrest].
Qed.

(** Among rows of one code, prior rows come first and each side keeps its order. *)
Lemma merged_stable (P : R → Prop) `{!∀ r, Decision (P r)} c p : ∀ d,
  (∀ r, P r ↔ code r = c) →
  StronglySorted ole (code <$> p) → filter P (merged p d) = filter P p ++ filter P d.
Proof.
  intros d HP. revert d. induction p as [|r p IH]; intros d Hp; [done|]. rewrite merged_cons.
  pose proof (below_app (code r) d) as Hb. pose proof (below_lt (code r) d) as Hlt.
  destruct (below (code r) d) as [b d1]. simpl in *. apply StronglySorted_inv in Hp as [Hp Hr].
  rewrite <- Hb, !filter_app.
  assert (∀ r', r' ∈ p → ole (code r) (code r')) as Hr'.
  { intros r' Hin. rewrite Forall_forall in Hr. apply Hr. by apply list_elem_of_fmap_2. }
  destruct (decide (Exists P b)) as [Hex|Hno].
  - assert (olt c (code r)) as Hc.
    { apply Exists_exists in Hex as (x & Hx & HPx). apply HP in HPx as <-. by apply Hlt. }
    assert (¬ P r) as Hnr by (rewrite HP; intros Heq; apply (olt_irrefl c); by rewrite Heq in Hc).
    rewrite !(filter_cons_False _ r) by done. rewrite (IH d1 Hp).
    assert (filter P p = []) as Hnil; [|by rewrite Hnil].
    apply filter_none. intros x Hx HPx. apply HP in HPx.
    apply (olt_irrefl c). eapply olt_le_trans; [exact Hc|]. rewrite <- HPx. by apply Hr'.
  - assert (filter P b = []) as ->.
    { apply filter_none. intros x Hx HPx. apply Hno, Exists_exists. by exists x. }
    simpl. rewrite !filter_cons. destruct (decide (P r)); rewrite (IH d1 Hp); done.
Qed.

End merge.

(** ** The cursor merge *)

Section cursor.
Context {R : Type} `{RowCells R} {K : ArrowKernels} {N : SegmentNaming} {C : StatsCodec} (s : schema).

Lemma delta_below_spec (idxs : list nat) (d : list R) key : ∀ fuel j,
  (length d - j ≤ fuel)%nat →
  delta_below (sort_code s idxs <$> d) key j fuel =
  (j + length (below (sort_code s idxs) key (drop j d)).1)%nat.
Proof.
  induction fuel as [|fuel IH]; intros j Hf; simpl.
  - rewrite drop_ge by lia. simpl. lia.
  - rewrite list_lookup_fmap. destruct (d !! j) as [r|] eqn:E; simpl.
    + rewrite (drop_S d r j E). simpl. destruct (oltb (sort_code s idxs r) key); simpl; [|lia].
      rewrite IH by (apply lookup_lt_Some in E; lia).
      destruct (below (sort_code s idxs) key (drop (S j) d)). simpl. lia.
    + apply lookup_ge_None in E. rewrite drop_ge by done. simpl. lia.
Qed.

Lemma omap_seq (d : list R) n : ∀ j, omap (λ x : nat, d !! x) (seq j n) = take n (drop j d).
Proof.
  induction n as [|n IH]; intros j; simpl; [done|]. rewrite IH. destruct (d !! j) as [r|] eqn:E; simpl.
  - by rewrite (drop_S d r j E).
  - apply lookup_ge_None in E. rewrite !drop_ge by lia. by destruct n.
Qed.

Lemma interleave_delta (a d : list R) j n : interleave_two a d (inr <$> seq j n) = take n (drop j d).
Proof.
  rewrite <- omap_seq. unfold interleave_two. induction (seq j n) as [|x l IH]; simpl; [done|].
  destruct (d !! x); [f_equal|]; apply IH.
Qed.

Lemma interleave_app (a d : list R) i1 i2 :
  interleave_two a d (i1 ++ i2) = interleave_two a d i1 ++ interleave_two a d i2.
Proof. apply omap_app. Qed.

(** The indices gather exactly what the merge of the slice forces out. *)
Lemma merge_indices_spec idxs (d : list R) : ∀ post pre j,
  let '(ix, jn) := merge_indices (sort_code s idxs <$> d) (sort_code s idxs <$> post) (length pre) j in
  merge_prefix (sort_code s idxs) post (drop j d) = (interleave_two (pre ++ post) d ix, drop jn d).
Proof.
  induction post as [|r post IH]; intros pre j; simpl; [done|].
  rewrite delta_below_spec by (rewrite length_fmap; lia).
  set (b := below (sort_code s idxs) (sort_code s idxs r) (drop j d)).
  specialize (IH (pre ++ [r]) (j + length b.1)%nat).
  rewrite length_app, Nat.add_1_r in IH. simpl in IH.
  assert (b.2 = drop (j + length b.1) d ∧ b.1 = take (length b.1) (drop j d)) as [Hb2 Hb1].
  { pose proof (below_app (sort_code s idxs) (sort_code s idxs r) (drop j d)) as Hb. fold b in Hb.
    rewrite <- drop_drop, <- Hb. split; [by rewrite drop_app_length|by rewrite take_app_length]. }
  destruct (merge_indices _ _ _ _) as [ix jn]. rewrite <- Hb2 in IH.
  fold b. destruct b as [b1 b2]. simpl in *. rewrite IH. f_equal.
  rewrite interleave_app, interleave_delta. replace (j + length b1 - j)%nat with (length b1) by lia.
  rewrite <- Hb1. f_equal. simpl. rewrite list_lookup_middle by done. by rewrite <- app_assoc.
Qed.

Lemma merge_indices_bound idxs (d post : list R) : ∀ i j,
  (j ≤ length d)%nat →
  ((merge_indices (sort_code s idxs <$> d) (sort_code s idxs <$> post) i j).2 ≤ length d)%nat.
Proof.
  induction post as [|r post IH]; intros i j Hj; simpl; [done|].
  rewrite delta_below_spec by (rewrite length_fmap; lia).
  set (b := below (sort_code s idxs) (sort_code s idxs r) (drop j d)).
  pose proof (f_equal length (below_app (sort_code s idxs) (sort_code s idxs r) (drop j d))) as Hb.
  fold b in Hb. rewrite length_app, length_drop in Hb.
  specialize (IH (S i) (j + length b.1)%nat). destruct (merge_indices _ _ _ _) as [ix jn]. simpl in *.
  apply IH. lia.
Qed.

(** *** A merger that was fed prior rows *)

Definition fed (m : PartitionMerger) (rows : list R) : PartitionMerger :=
  match pm_converter m, pm_delta m, pm_delta_rows m with
  | Some idxs, Some d, Some _ =>
      {| pm_key := pm_key m; pm_delta := pm_delta m; pm_delta_rows := pm_delta_rows m;
         delta_pos := length d - length (merge_prefix (sort_code s idxs) rows d).2;
         pm_converter := pm_converter m |}
  | _, _, _ => m
  end.

Definition fed_out (m : PartitionMerger) (rows : list R) : list R :=
  match pm_converter m, pm_delta m, pm_delta_rows m with
  | Some idxs, Some d, Some _ => (merge_prefix (sort_code s idxs) rows d).1
  | _, _, _ => rows
  end.

(** The whole partition: prior rows merged with the sorted delta, or followed by
    it when there is no sort key. *)
Definition merge_whole (m : PartitionMerger) (rows : list R) : list R :=
  match pm_converter m, pm_delta m with
  | Some idxs, Some d => merged (sort_code s idxs) rows d
  | None, Some d => rows ++ d
  | _, None => rows
  end.

(** A merger as [PartitionMerger_new] builds it. *)
Definition unfed (m : PartitionMerger) : Prop :=
  delta_pos m = O ∧
  match pm_converter m with
  | Some idxs => ∃ d, pm_delta m = Some d ∧ pm_delta_rows m = Some (sort_code s idxs <$> d)
  | None => pm_delta_rows m = None
  end.

Lemma new_unfed key d sort_keys m : PartitionMerger_new s key d sort_keys = Ok m → unfed m ∧ pm_key m = key.
Proof.
  unfold PartitionMerger_new. destruct sort_keys, d as [d|]; try (intros [= <-]; done).
  destruct (key_indices _ _ _) as [idxs|]; [|done]. cbn [result_bind].
  destruct (sort_record_batch_by_keys _ _ _) as [d'|]; [|done]. cbn [result_bind]. intros [= <-].
  split; [|done]. split; [done|]. by exists d'.
Qed.

Lemma fed_nil m : unfed m → fed m [] = m ∧ fed_out m [] = [].
Proof.
  intros [Hpos Hm]. unfold fed, fed_out. destruct (pm_converter m) as [idxs|] eqn:Ec; [|done].
  destruct Hm as (d & Hd & Hr). rewrite Hd, Hr. simpl. rewrite Nat.sub_diag. split; [|done].
  destruct m; simpl in *; by subst.
Qed.

Lemma merge_prefix_suffix {A} `{CmpLaws A} (code : R → A) rows d : ∃ n, (merge_prefix code rows d).2 = drop n d.
Proof.
  revert d. induction rows as [|r rows IH]; intros d; simpl; [by exists O|].
  pose proof (below_app code (code r) d) as Hb. destruct (below code (code r) d) as [b d1]. simpl in Hb.
  destruct (IH d1) as [n Hn]. destruct (merge_prefix code rows d1) as [o d2]. simpl in *.
  exists (length b + n)%nat. rewrite <- Hb, <- drop_drop, drop_app_length. done.
Qed.

Lemma drop_suffix (d d2 : list R) n : d2 = drop n d → drop (length d - length d2) d = d2.
Proof.
  intros ->. rewrite length_drop. destruct (Nat.le_gt_cases n (length d)).
  - f_equal. lia.
  - rewrite !drop_ge by lia. done.
Qed.

Lemma push_prior_fed m rows sl :
  unfed m → sl ≠ [] →
  ∃ out, push_prior s (fed m rows) sl = (fed m (rows ++ sl), Some out) ∧
         fed_out m (rows ++ sl) = fed_out m rows ++ out.
Proof.
  intros [Hpos Hm] Hsl. unfold push_prior, fed, fed_out. destruct sl as [|r0 sl']; [done|].
  set (sl := r0 :: sl') in *. destruct (pm_converter m) as [idxs|] eqn:Ec.
  2:{ rewrite Ec, ?Hm. by exists sl. }
  destruct Hm as (d & Hd & Hr). rewrite Hd, Hr. cbn [pm_converter pm_delta pm_delta_rows delta_pos pm_key].
  pose proof (merge_prefix_app (sort_code s idxs) rows sl d) as Happ.
  destruct (merge_prefix_suffix (sort_code s idxs) rows d) as [n Hn].
  destruct (merge_prefix (sort_code s idxs) rows d) as [o1 d1]. simpl in Hn.
  pose proof (drop_suffix d d1 n Hn) as Hd1.
  pose proof (merge_indices_spec idxs d sl [] (length d - length d1)) as Hix. cbn [length app] in Hix.
  pose proof (merge_indices_bound idxs d sl 0 (length d - length d1) ltac:(lia)) as Hjn.
  cbn [snd]. destruct (merge_indices _ _ _ _) as [ix jn]. rewrite Hd1 in Hix. rewrite Hix in Happ.
  rewrite Happ. cbn [fst snd]. eexists. split; [|done]. do 2 f_equal.
  rewrite length_drop. simpl in Hjn. lia.
Qed.

Lemma finish_fed m rows : unfed m → fed_out m rows ++ default [] (merger_finish (fed m rows)) = merge_whole m rows.
Proof.
  intros [Hpos Hm]. unfold fed, fed_out, merger_finish, merge_whole. destruct (pm_converter m) as [idxs|] eqn:Ec.
  - destruct Hm as (d & Hd & Hr). rewrite Hd, Hr. cbn [pm_delta pm_converter delta_pos]. unfold merged.
    destruct (merge_prefix_suffix (sort_code s idxs) rows d) as [n Hn].
    destruct (merge_prefix (sort_code s idxs) rows d) as [o d2]. cbn [fst snd] in *.
    destruct (Nat.leb_spec (length d) (length d - length d2)) as [Hle|Hlt]; simpl.
    + rewrite Hn. rewrite Hn, length_drop in Hle. by rewrite (drop_ge d n) by lia.
    + by rewrite (drop_suffix d d2 n Hn).
  - rewrite Ec. destruct (pm_delta m) as [d|]; simpl; [|by rewrite app_nil_r].
    destruct d; simpl; [by rewrite app_nil_r|done].
Qed.

End cursor.

(** ** Runs *)

Section runs.
Context {R : Type}.

(** Adjacent runs of one key are one run. *)
Fixpoint join_runs (runs : list (PartitionOrderKey * list R)) : list (PartitionOrderKey * list R) :=
  match runs with
  | [] => []
  | (k, sl) :: rest =>
      match join_runs rest with
      | (k', sl') :: gs => if decide (k = k') then (k, sl ++ sl') :: gs else (k, sl) :: (k', sl') :: gs
      | [] => [(k, sl)]
      end
  end.

Lemma join_head k sl rest : ∃ sl' gs, join_runs ((k, sl) :: rest) = (k, sl ++ sl') :: gs.
Proof.
  simpl. destruct (join_runs rest) as [|[k' sl'] gs]; [exists [], []; by rewrite app_nil_r|].
  destruct (decide (k = k')); [by exists sl', gs|exists [], ((k', sl') :: gs); by rewrite app_nil_r].
Qed.

Lemma join_same k sl1 sl2 rest : join_runs ((k, sl1) :: (k, sl2) :: rest) = join_runs ((k, sl1 ++ sl2) :: rest).
Proof.
  simpl. destruct (join_runs rest) as [|[k' sl'] gs]; [by rewrite decide_True|].
  destruct (decide (k = k')) as [->|]; rewrite decide_True by done; [by rewrite app_assoc|done].
Qed.

Lemma join_other k k' sl sl' rest : k ≠ k' → join_runs ((k, sl) :: (k', sl') :: rest) = (k, sl) :: join_runs ((k', sl') :: rest).
Proof.
  intros Hne. destruct (join_head k' sl' rest) as (x & gs & Hj).
  change (join_runs ((k, sl) :: (k', sl') :: rest)) with
    (match join_runs ((k', sl') :: rest) with
     | (k', sl') :: gs => if decide (k = k') then (k, sl ++ sl') :: gs else (k, sl) :: (k', sl') :: gs
     | [] => [(k, sl)] end).
  rewrite Hj. by rewrite decide_False.
Qed.

Definition cons_run (k : PartitionOrderKey) (r : R) (gs : list (PartitionOrderKey * list R)) :
    list (PartitionOrderKey * list R) :=
  match gs with
  | (k', sl) :: gs' => if decide (k = k') then (k', r :: sl) :: gs' else (k, [r]) :: gs
  | [] => [(k, [r])]
  end.

Lemma key_runs_cons (key : R → PartitionOrderKey) r rows :
  key_runs key (r :: rows) = cons_run (key r) r (key_runs key rows).
Proof. simpl. by destruct (key_runs key rows) as [|[k sl] gs]. Qed.

Lemma join_cons_run k r gs y : join_runs (cons_run k r gs ++ y) = cons_run k r (join_runs (gs ++ y)).
Proof.
  destruct gs as [|[k' sl] gs]; cbn [cons_run app].
  - simpl. destruct (join_runs y) as [|[k' sl] gs]; [done|]. simpl. destruct (decide (k = k')) as [->|]; done.
  - destruct (decide (k = k')) as [->|Hne].
    + simpl join_runs. destruct (join_runs (gs ++ y)) as [|[k2 sl2] gs2]; unfold cons_run; [by rewrite decide_True|].
      destruct (decide (k' = k2)) as [->|]; by rewrite decide_True.
    + change (((k, [r]) :: (k', sl) :: gs) ++ y) with ((k, [r]) :: (k', sl) :: (gs ++ y)).
      rewrite join_other by done. destruct (join_head k' sl (gs ++ y)) as (x & gs' & Hj).
      rewrite Hj. unfold cons_run. by rewrite decide_False.
Qed.

Lemma key_runs_app (key : R → PartitionOrderKey) a y rows :
  join_runs y = key_runs key rows → join_runs (key_runs key a ++ y) = key_runs key (a ++ rows).
Proof.
  intros Hy. induction a as [|r a IH]; [done|].
  rewrite <- app_comm_cons, !key_runs_cons, join_cons_run. by rewrite IH.
Qed.

(** The runs of the batches, joined, are the runs of the whole stream. *)
Lemma key_runs_concat (key : R → PartitionOrderKey) bs :
  join_runs (concat (key_runs key <$> bs)) = key_runs key (concat bs).
Proof.
  induction bs as [|b bs IH]; [done|]. rewrite fmap_cons. cbn [concat]. by apply key_runs_app.
Qed.

Lemma key_runs_elem (key : R → PartitionOrderKey) rows k sl :
  (k, sl) ∈ key_runs key rows → sl ≠ [] ∧ ∀ r, r ∈ sl → key r = k ∧ r ∈ rows.
Proof.
  revert k sl. induction rows as [|r rows IH]; intros k sl; [by intros ?%elem_of_nil|].
  rewrite key_runs_cons. destruct (key_runs key rows) as [|[k0 sl0] gs]; simpl.
  - intros [= -> ->]%list_elem_of_singleton. split; [done|]. intros x ->%list_elem_of_singleton. set_solver.
  - destruct (decide (key r = k0)) as [<-|Hne]; rewrite elem_of_cons.
    + intros [[= -> ->]|Hin].
      * split; [done|]. intros x [->|Hx]%elem_of_cons; [set_solver|].
        destruct (IH (key r) sl0) as [_ Hk]; [by left|]. destruct (Hk x Hx). set_solver.
      * destruct (IH k sl) as [? Hk]; [by right|]. split; [done|]. intros x Hx. destruct (Hk x Hx). set_solver.
    + intros [[= -> ->]|Hin].
      * split; [done|]. intros x ->%list_elem_of_singleton. set_solver.
      * destruct (IH k sl) as [? Hk]; [done|]. split; [done|]. intros x Hx. destruct (Hk x Hx). set_solver.
Qed.

Lemma key_runs_rows (key : R → PartitionOrderKey) rows : concat ((key_runs key rows).*2) = rows.
Proof.
  induction rows as [|r rows IH]; [done|]. rewrite key_runs_cons.
  destruct (key_runs key rows) as [|[k0 sl0] gs]; simpl in *; [by rewrite <- IH|].
  destruct (decide (key r = k0)); simpl; by rewrite <- IH.
Qed.

End runs.
