(* ===== verification/PackStream.v ===== *)
(** * The packing loop against whole-partition packing

    [pack_whole] is the reference: it takes the prior stream as one list, cuts
    it into partitions, merges each with its whole delta and pushes the result
    whole.  The streaming loop returns the same steps, or the same error. *)

From S2P Require Import Prelude CoreTypes IndexSelect Ordered Chunker BatchUtil SegmentStats Packer PackLemmas PackMerge.
From stdpp Require Import base numbers list option sets sorting.

Open Scope Z_scope.
Open Scope result_scope.

Section reference.
Context {R : Type} `{RowCells R} {K : ArrowKernels} {N : SegmentNaming} {C : StatsCodec} (s : schema).

(** Opening partition [key] in a closed packer: the order check, the pending
    partitions below it, and its delta. *)
Definition begin_part (sort_keys : list Z) (ps : PackState) (lc : option PartitionOrderKey)
    (key : PartitionOrderKey) :
    result ApiError (PackState * PartitionMerger * option PartitionOrderKey * list (PackStep R)) :=
  let? lc' := check_partition_order lc key in
  if contains_key key (ps_carried ps) then Err Internal
  else
    let? d := drain_below s (Some key) sort_keys ps in
    let? m := PartitionMerger_new s key (bt_get key (ps_delta d.1)) sort_keys in
    Ok ({| ps_packer := ps_packer d.1; ps_carried := ps_carried d.1; ps_delta := bt_remove key (ps_delta d.1) |},
        m, lc', d.2).

Definition with_packer (ps : PackState) (p : SegmentPacker R) : PackState :=
  {| ps_packer := p; ps_carried := ps_carried ps; ps_delta := ps_delta ps |}.

(** Merge the partition's prior rows with its delta and push it whole. *)
Definition end_part (ps : PackState) (m : PartitionMerger) (rows : list R) :
    result ApiError (PackState * list (PackStep R)) :=
  let? pf := push_partition s (ps_packer ps) (label (pm_key m)) (merge_whole s m rows) in
  Ok (with_packer ps pf.1, PackFile <$> pf.2).

Fixpoint whole_parts (sort_keys : list Z) (ps : PackState) (lc : option PartitionOrderKey)
    (parts : list (PartitionOrderKey * list R)) : result ApiError (PackState * list (PackStep R)) :=
  match parts with
  | [] => Ok (ps, [])
  | (key, rows) :: rest =>
      let? b := begin_part sort_keys ps lc key in
      let '(ps1, m, lc1, out1) := b in
      let? e := end_part ps1 m rows in
      let? r := whole_parts sort_keys e.1 lc1 rest in
      Ok (r.1, out1 ++ e.2 ++ r.2)
  end.

Definition pack_whole (delta_groups : list (option (list Z) * list R)) (prior : list R)
    (o : PartitionOrdering) (idxs : list nat) (sort_keys : list Z)
    (carried : list (PartitionOrderKey * list Z)) (p : SegmentPacker R) : result ApiError (list (PackStep R)) :=
  let? delta := key_delta s o delta_groups [] in
  let? a := whole_parts sort_keys {| ps_packer := p; ps_carried := carried; ps_delta := delta |} None
              (key_runs (row_order_key s o idxs) prior) in
  let? d := drain_below s None sort_keys a.1 in
  let? f := finish s (ps_packer d.1) in
  Ok (a.2 ++ d.2 ++ (PackFile <$> f)).

(** ** Well-formed states between partitions *)

Definition ps_ok (ps : PackState) : Prop :=
  packer_ok s (ps_packer ps) ∧ open (ps_packer ps) = None ∧ Forall (λ x, Forall (row_ok s) x.2) (ps_delta ps).

Lemma flushed_ok (p : SegmentPacker R) : packer_ok s (flushed p).
Proof. unfold packer_ok. by rewrite flushed_buffered. Qed.

Lemma pushed_ok p l rows :
  packer_ok s p → open p = None → Forall (row_ok s) rows →
  packer_ok s (pushed s p l rows).1 ∧ open (pushed s p l rows).1 = None.
Proof.
  intros Hp Hopen Hr. unfold pushed. destruct rows as [|r rows']; [done|]. set (rows := r :: rows') in *.
  destruct (max_segment_bytes p <? total_bytes s rows).
  - split; [apply flushed_ok|]. simpl. by rewrite flushed_open.
  - destruct (negb _ && _); cbn [fst].
    + split; [|simpl; by rewrite flushed_open]. unfold packer_ok. simpl. rewrite flushed_buffered. constructor; [done|constructor].
    + split; [|done]. unfold packer_ok. simpl. apply Forall_app. split; [done|]. constructor; [done|constructor].
Qed.

Lemma claim_carried_packer us : ∀ p : SegmentPacker R,
  (claim_carried p us).1 = set_chunk_idx p (chunk_idx p + length us).
Proof.
  induction us as [|u us IH]; intros p; simpl; [by rewrite Nat.add_0_r, set_chunk_idx_same|].
  specialize (IH (set_chunk_idx p (S (chunk_idx p)))).
  destruct (claim_carried (set_chunk_idx p (S (chunk_idx p))) us) as [p' sp]. simpl in *. rewrite IH.
  unfold set_chunk_idx. simpl. f_equal. lia.
Qed.

Context `{!ArrowKernelsLaws K}.

Lemma sort_rows_ok rows out keys :
  sort_record_batch_by_keys s rows keys = Ok out → Forall (row_ok s) rows → Forall (row_ok s) out.
Proof. intros Hs Ho. by rewrite (sort_permutes s rows out keys Hs). Qed.

Lemma bt_remove_Forall {V} (P : V → Prop) k (m : list (PartitionOrderKey * V)) :
  Forall (λ x, P x.2) m → Forall (λ x, P x.2) (bt_remove k m).
Proof.
  induction m as [|[k0 v0] m IH]; simpl; [done|]. intros [Hv Hm]%Forall_cons.
  destruct (cmp k k0); [done|by constructor|]. constructor; [done|by apply IH].
Qed.

Lemma bt_get_Forall {V} (P : V → Prop) k (m : list (PartitionOrderKey * V)) v :
  Forall (λ x, P x.2) m → bt_get k m = Some v → P v.
Proof.
  induction m as [|[k0 v0] m IH]; simpl; [done|]. intros [Hv Hm]%Forall_cons.
  destruct (cmp k k0); [by intros [= <-]|done|by apply IH].
Qed.

Lemma push_delta_only_ok p l b sort_keys pd :
  packer_ok s p → open p = None → Forall (row_ok s) b → push_delta_only s p l b sort_keys = Ok pd →
  packer_ok s pd.1 ∧ open pd.1 = None.
Proof.
  intros Hp Hopen Hb. unfold push_delta_only. destruct b as [|r b']; [by intros [= <-]|].
  destruct (sort_record_batch_by_keys s (r :: b') sort_keys) as [cl|] eqn:Es; [|done]. cbn [result_bind].
  apply sort_rows_ok in Es; [|done]. rewrite push_partition_ok by done. cbn [result_bind].
  intros [= <-]. by apply pushed_ok.
Qed.

Lemma drain_step_ok bound sort_keys ps ps' out :
  ps_ok ps → drain_step s bound sort_keys ps = Ok (Some (ps', out)) → ps_ok ps'.
Proof.
  intros (Hp & Hopen & Hd). unfold drain_step.
  assert (∀ key us, drain_carried s bound ps key us = Ok (Some (ps', out)) → ps_ok ps') as Hcarried.
  { intros key us. unfold drain_carried. destruct (in_bounds bound key); [|done]. destruct us as [|u us]; [by intros [= <- <-]|].
    rewrite flush_ok by done. cbn [result_bind fst snd].
    pose proof (claim_carried_packer (u :: us) (flushed (ps_packer ps))) as Hc.
    destruct (claim_carried (flushed (ps_packer ps)) (u :: us)) as [p2 specs]. simpl in Hc. subst p2.
    intros [= <- <-]. split_and!; [apply flushed_ok|simpl; by rewrite flushed_open|done]. }
  assert (∀ key b, Forall (row_ok s) b → drain_delta s bound sort_keys ps key b = Ok (Some (ps', out)) → ps_ok ps') as Hdelta.
  { intros key b Hb. unfold drain_delta. destruct (in_bounds bound key); [|done].
    destruct (push_delta_only s (ps_packer ps) (label key) b sort_keys) as [pd|] eqn:Epd; [|done].
    cbn [result_bind]. intros [= <- <-]. apply push_delta_only_ok in Epd as [? ?]; [|done..].
    split_and!; simpl; [done|done|by apply (bt_remove_Forall (Forall (row_ok s)))]. }
  unfold first_key_value. destruct (ps_carried ps) as [|[c us] cs] eqn:Ec, (ps_delta ps) as [|[d b] ds] eqn:Ed; simpl.
  - done.
  - apply Hdelta. by apply Forall_cons in Hd as [? _].
  - apply Hcarried.
  - destruct (cmp c d); [done|apply Hcarried|apply Hdelta]. by apply Forall_cons in Hd as [? _].
Qed.

Lemma drain_loop_ok bound sort_keys fuel : ∀ ps ps' out,
  ps_ok ps → drain_loop s fuel bound sort_keys ps = Ok (ps', out) → ps_ok ps'.
Proof.
  induction fuel as [|fuel IH]; intros ps ps' out Hps; simpl; [by intros [= <- <-]|].
  destruct (drain_step s bound sort_keys ps) as [[[ps1 o1]|]|] eqn:E; cbn [result_bind]; [|by intros [= <- <-]|done].
  apply drain_step_ok in E; [|done]. destruct (drain_loop s fuel bound sort_keys ps1) as [[ps2 o2]|] eqn:E2; [|done].
  cbn [result_bind fst snd]. intros [= <- <-]. by eapply IH.
Qed.

Lemma drain_below_ok bound sort_keys ps ps' out :
  ps_ok ps → drain_below s bound sort_keys ps = Ok (ps', out) → ps_ok ps'.
Proof. apply drain_loop_ok. Qed.

(** A merger over costed rows outputs costed rows. *)
Definition merger_ok (m : PartitionMerger) : Prop :=
  unfed s m ∧ match pm_delta m with Some d => Forall (row_ok s) d | None => True end.

Lemma merge_whole_ok m rows : merger_ok m → Forall (row_ok s) rows → Forall (row_ok s) (merge_whole s m rows).
Proof.
  intros [_ Hd] Hr. unfold merge_whole. destruct (pm_converter m), (pm_delta m) as [d|]; try done.
  - rewrite merged_perm. by apply Forall_app.
  - by apply Forall_app.
Qed.

Lemma begin_part_ok sort_keys ps lc key ps1 m lc1 out :
  ps_ok ps → begin_part sort_keys ps lc key = Ok (ps1, m, lc1, out) → ps_ok ps1 ∧ merger_ok m ∧ pm_key m = key.
Proof.
  intros Hps. unfold begin_part. destruct (check_partition_order lc key) as [lc'|]; [|done]. cbn [result_bind].
  destruct (contains_key key (ps_carried ps)); [done|].
  destruct (drain_below s (Some key) sort_keys ps) as [[ps0 o0]|] eqn:Ed; [|done]. cbn [result_bind fst snd].
  apply drain_below_ok in Ed as (Hp & Hopen & Hd); [|done].
  destruct (PartitionMerger_new s key (bt_get key (ps_delta ps0)) sort_keys) as [m'|] eqn:Em; [|done].
  cbn [result_bind]. intros [= <- <- <- <-]. pose proof Em as Em'. apply new_unfed in Em' as [Hf Hk].
  split_and!; [split_and!; simpl; [done|done|by apply (bt_remove_Forall (Forall (row_ok s)))]|split; [done|]|done].
  destruct (bt_get key (ps_delta ps0)) as [d|] eqn:Eg.
  - apply (bt_get_Forall (Forall (row_ok s))) in Eg; [|done]. unfold PartitionMerger_new in Em.
    destruct sort_keys; [by injection Em as <-|]. destruct (key_indices _ _ _); [|done]. cbn [result_bind] in Em.
    destruct (sort_record_batch_by_keys s d _) eqn:Es; [|done]. cbn [result_bind] in Em. injection Em as <-.
    simpl. by eapply sort_rows_ok.
  - unfold PartitionMerger_new in Em. destruct sort_keys; by injection Em as <-.
Qed.

End reference.

(** ** The loop *)

Section loop.
Context {R : Type} `{RowCells R} {K : ArrowKernels} `{!ArrowKernelsLaws K} {N : SegmentNaming} {C : StatsCodec}.
Context (s : schema) (sort_keys : list Z).

(** Feeding the open partition, whatever it already holds. *)
Lemma push_more p l sofar b :
  packer_ok s p → open p = None → Forall (row_ok s) sofar → Forall (row_ok s) b →
  (let? a := push_partition_chunk s (streamed s p l sofar).1 l b in Ok (a.1, (streamed s p l sofar).2 ++ a.2)) =
  Ok (streamed s p l (sofar ++ b)).
Proof.
  intros Hp Hopen Hs Hb. destruct sofar as [|r sofar]; [|by apply push_next].
  destruct b as [|r b]; [done|]. change (streamed s p l []) with (p, @nil (SnapshotFileStep R)). cbn [fst snd app].
  rewrite push_first by done. cbn [result_bind]. by destruct (streamed s p l (r :: b)).
Qed.

Lemma finish_streamed p l rows :
  packer_ok s p → open p = None → Forall (row_ok s) rows →
  (let? f := finish_partition s (streamed s p l rows).1 in Ok (f.1, (streamed s p l rows).2 ++ f.2)) =
  push_partition s p l rows.
Proof.
  intros Hp Hopen Ho. pose proof (stream_whole s p l [rows] Hp Hopen) as Hw. simpl concat in Hw.
  rewrite app_nil_r in Hw. rewrite <- (Hw Ho), push_chunks_streamed by (simpl; rewrite ?app_nil_r; done).
  simpl concat. by rewrite app_nil_r.
Qed.

Definition opened (st : LoopState) (ps1 : PackState) (m : PartitionMerger) (rows : list R)
    (lc : option PartitionOrderKey) : Prop :=
  ls_pack st = with_packer ps1 (streamed s (ps_packer ps1) (label (pm_key m)) (fed_out s m rows)).1 ∧
  active st = Some (fed s m rows) ∧ last_completed st = lc.

Definition so_far (ps1 : PackState) (m : PartitionMerger) (rows : list R) : list (PackStep R) :=
  PackFile <$> (streamed s (ps_packer ps1) (label (pm_key m)) (fed_out s m rows)).2.

Lemma fed_key m (rows : list R) : pm_key (fed s m rows) = pm_key m.
Proof. unfold fed. destruct (pm_converter m), (pm_delta m), (pm_delta_rows m); done. Qed.

Lemma fed_out_ok m rows : merger_ok s m → Forall (row_ok s) rows → Forall (row_ok s) (fed_out s m rows).
Proof.
  intros Hm Hr. pose proof (merge_whole_ok s m rows Hm Hr) as Hw. destruct Hm as [Hf _].
  rewrite <- (finish_fed s m rows Hf) in Hw. by apply Forall_app in Hw as [? _].
Qed.

Lemma finish_tail_ok m rows tail :
  merger_ok s m → Forall (row_ok s) rows → merger_finish (fed s m rows) = Some tail → Forall (row_ok s) tail.
Proof.
  intros Hm Hr Ht. pose proof (merge_whole_ok s m rows Hm Hr) as Hw. destruct Hm as [Hf _].
  rewrite <- (finish_fed s m rows Hf), Ht in Hw. by apply Forall_app in Hw as [_ ?].
Qed.

(** Closing the open partition is pushing the merged partition whole. *)
Lemma close_opened st ps1 m rows lc :
  opened st ps1 m rows lc → ps_ok s ps1 → merger_ok s m → Forall (row_ok s) rows →
  (let? c := close_active s st in Ok (c.1, so_far ps1 m rows ++ c.2)) = end_part s ps1 m rows.
Proof.
  intros (Hpk & Hac & _) (Hp & Hopen & _) Hm Hr. unfold close_active, end_part, so_far. rewrite Hac, Hpk.
  cbn [with_packer ps_packer ps_carried ps_delta]. set (p := ps_packer ps1) in *. set (l := label (pm_key m)).
  unfold close_partition. rewrite fed_key. fold l.
  pose proof (fed_out_ok m rows Hm Hr) as Hfo. pose proof (finish_fed s m rows (proj1 Hm)) as Hff.
  pose proof (merge_whole_ok s m rows Hm Hr) as Hwo.
  assert (∀ a, (if merger_finish (fed s m rows) is Some tail then push_partition_chunk s (streamed s p l (fed_out s m rows)).1 l tail
                else Ok ((streamed s p l (fed_out s m rows)).1, [])) = Ok a →
    (a.1, (streamed s p l (fed_out s m rows)).2 ++ a.2) = streamed s p l (merge_whole s m rows)) as Hchunk.
  { intros a Ha. rewrite <- Hff. destruct (merger_finish (fed s m rows)) as [tail|] eqn:Et.
    - pose proof (push_more p l (fed_out s m rows) tail Hp Hopen Hfo (finish_tail_ok m rows tail Hm Hr Et)) as Hpm.
      rewrite Ha in Hpm. cbn [result_bind] in Hpm. by injection Hpm.
    - injection Ha as <-. simpl. rewrite !app_nil_r. by destruct (streamed s p l (fed_out s m rows)). }
  rewrite <- (finish_streamed p l (merge_whole s m rows) Hp Hopen Hwo).
  assert (∃ a, (if merger_finish (fed s m rows) is Some tail then push_partition_chunk s (streamed s p l (fed_out s m rows)).1 l tail
                else Ok ((streamed s p l (fed_out s m rows)).1, [])) = Ok a) as [a Ha].
  { destruct (merger_finish (fed s m rows)) as [tail|] eqn:Et; [|by eexists].
    pose proof (push_more p l (fed_out s m rows) tail Hp Hopen Hfo (finish_tail_ok m rows tail Hm Hr Et)) as Hpm.
    destruct (push_partition_chunk s _ l tail); [by eexists|done]. }
  rewrite Ha. cbn [result_bind]. rewrite <- (Hchunk a Ha). cbn [fst snd].
  destruct (finish_partition s a.1) as [[p2 f2]|]; [|done]. cbn [result_bind fst snd].
  by rewrite <- !fmap_app, app_assoc.
Qed.

(** Feeding one more slice of the open partition. *)
Lemma feed_opened st ps1 m rows lc sl :
  opened st ps1 m rows lc → ps_ok s ps1 → merger_ok s m → Forall (row_ok s) rows → Forall (row_ok s) sl → sl ≠ [] →
  ∃ st' out,
    (let '(m', o) := push_prior s (fed s m rows) sl in
     let? pf := match o with
                | Some b => push_partition_chunk s (ps_packer (ls_pack st)) (label (pm_key m')) b
                | None => Ok (ps_packer (ls_pack st), [])
                end in
     Ok ({| ls_pack := {| ps_packer := pf.1; ps_carried := ps_carried (ls_pack st); ps_delta := ps_delta (ls_pack st) |};
            active := Some m'; last_completed := last_completed st |}, PackFile <$> pf.2)) = Ok (st', out) ∧
    opened st' ps1 m (rows ++ sl) lc ∧ so_far ps1 m rows ++ out = so_far ps1 m (rows ++ sl).
Proof.
  intros (Hpk & Hac & Hlc) (Hp & Hopen & _) Hm Hr Hsl Hne.
  destruct (push_prior_fed s m rows sl (proj1 Hm) Hne) as (o & -> & Ho). rewrite fed_key, Hpk.
  cbn [with_packer ps_packer ps_carried ps_delta].
  assert (Forall (row_ok s) (rows ++ sl)) as Hrs by (by apply Forall_app).
  pose proof (fed_out_ok m (rows ++ sl) Hm Hrs) as Hfo. rewrite Ho in Hfo. apply Forall_app in Hfo as [Hf1 Hf2].
  pose proof (push_more (ps_packer ps1) (label (pm_key m)) (fed_out s m rows) o Hp Hopen Hf1 Hf2) as Hpm.
  destruct (push_partition_chunk s _ (label (pm_key m)) o) as [[p1 f1]|]; [|done]. cbn [result_bind fst snd] in Hpm |- *.
  injection Hpm as Hpm. eexists _, _. split; [done|]. unfold opened, so_far. rewrite Ho, <- Hpm. cbn [fst snd ls_pack active last_completed].
  split_and!; [done|done|done|]. by rewrite fmap_app.
Qed.

Definition run_ok (run : PartitionOrderKey * list R) : Prop := run.2 ≠ [] ∧ Forall (row_ok s) run.2.

Lemma end_part_ok ps1 m rows ps' out :
  ps_ok s ps1 → merger_ok s m → Forall (row_ok s) rows → end_part s ps1 m rows = Ok (ps', out) → ps_ok s ps'.
Proof.
  intros (Hp & Hopen & Hd) Hm Hr. unfold end_part.
  rewrite push_partition_ok by (done || by apply merge_whole_ok). cbn [result_bind]. intros [= <- <-].
  destruct (pushed_ok s (ps_packer ps1) (label (pm_key m)) (merge_whole s m rows)) as [? ?];
    [done|done|by apply merge_whole_ok|]. done.
Qed.

Definition start (ps1 : PackState (R := R)) (m : PartitionMerger) (lc : option PartitionOrderKey) : LoopState (R := R) :=
  {| ls_pack := ps1; active := Some m; last_completed := lc |}.

Lemma start_opened ps1 m lc : merger_ok s m → opened (start ps1 m lc) ps1 m [] lc.
Proof.
  intros [Hf _]. destruct (fed_nil s m Hf) as [Hn1 Hn2]. unfold opened, start. rewrite Hn1, Hn2.
  simpl. split_and!; [by destruct ps1|done|done].
Qed.

Lemma so_far_nil ps1 m : merger_ok s m → so_far ps1 m [] = [].
Proof. intros [Hf _]. unfold so_far. by destruct (fed_nil s m Hf) as [_ ->]. Qed.

Lemma push_run_same st ps1 m rows lc sl :
  opened st ps1 m rows lc → ps_ok s ps1 → merger_ok s m → Forall (row_ok s) rows → run_ok (pm_key m, sl) →
  ∃ st' out, push_run s sort_keys st (pm_key m, sl) = Ok (st', out) ∧
    opened st' ps1 m (rows ++ sl) lc ∧ so_far ps1 m rows ++ out = so_far ps1 m (rows ++ sl).
Proof.
  intros Hop Hps Hm Hr [Hne Hsl]. destruct (feed_opened st ps1 m rows lc sl Hop Hps Hm Hr Hsl Hne) as (st' & out & Hf & Ho & Hs).
  exists st', out. split; [|done]. destruct Hop as (_ & Hac & _). unfold push_run. rewrite Hac. cbn [fst snd].
  rewrite decide_True by apply fed_key. cbn [result_bind fst snd]. rewrite Hac.
  destruct (push_prior s (fed s m rows) sl) as [m' o].
  destruct (match o with Some b => _ | None => _ end) as [[p1 f1]|]; [|done]. cbn [result_bind fst snd app] in Hf |- *. exact Hf.
Qed.

(** A run of a new partition closes the open one and starts afresh. *)
Lemma push_run_other st k sl :
  (∀ m, active st = Some m → pm_key m ≠ k) →
  push_run s sort_keys st (k, sl) =
    let? c := close_active s st in
    let? b := begin_part s sort_keys c.1 (last_completed st) k in
    let '(ps1, m, lc1, out1) := b in
    let? r := push_run s sort_keys (start ps1 m lc1) (k, sl) in
    Ok (r.1, (c.2 ++ out1) ++ r.2).
Proof.
  intros Hne. unfold push_run at 1. cbn [fst snd].
  assert ((match active st with
           | Some m => if decide (pm_key m = k) then Ok (st, []) else open_partition s sort_keys st k
           | None => open_partition s sort_keys st k end) = open_partition s sort_keys st k) as ->.
  { destruct (active st) as [m|]; [|done]. rewrite decide_False; [done|by apply Hne]. }
  unfold open_partition, begin_part. destruct (close_active s st) as [[c oc]|]; [|done]. cbn [result_bind fst snd].
  destruct (check_partition_order (last_completed st) k) as [lc'|]; [|done]. cbn [result_bind].
  destruct (contains_key k (ps_carried c)); [done|].
  destruct (drain_below s (Some k) sort_keys c) as [[d od]|]; [|done]. cbn [result_bind fst snd].
  destruct (PartitionMerger_new s k (bt_get k (ps_delta d)) sort_keys) as [m|] eqn:Em; [|done].
  cbn [result_bind fst snd active]. unfold push_run, start. cbn [active fst snd ls_pack].
  rewrite decide_True by (by apply new_unfed in Em as [_ ?]). cbn [result_bind fst snd active].
  destruct (push_prior s m sl) as [m' o]. cbn [ps_packer ps_carried ps_delta ls_pack last_completed].
  destruct (match o with Some b => _ | None => _ end) as [[p1 f1]|]; done.
Qed.

Definition whole_from (ps1 : PackState) (m : PartitionMerger) (lc : option PartitionOrderKey)
    (parts : list (PartitionOrderKey * list R)) : result ApiError (PackState * list (PackStep R)) :=
  match parts with
  | [] => Err Internal
  | (_, rows) :: rest =>
      let? e := end_part s ps1 m rows in
      let? r := whole_parts s sort_keys e.1 lc rest in
      Ok (r.1, e.2 ++ r.2)
  end.

Lemma whole_parts_cons ps lc k rows rest :
  whole_parts s sort_keys ps lc ((k, rows) :: rest) =
    let? b := begin_part s sort_keys ps lc k in
    let '(ps1, m, lc1, out1) := b in
    let? r := whole_from ps1 m lc1 ((k, rows) :: rest) in Ok (r.1, out1 ++ r.2).
Proof.
  simpl. destruct (begin_part s sort_keys ps lc k) as [[[[ps1 m] lc1] out1]|]; [|done]. cbn [result_bind].
  destruct (end_part s ps1 m rows) as [e|]; [|done]. cbn [result_bind].
  by destruct (whole_parts s sort_keys e.1 lc1 rest).
Qed.

Lemma loop_whole runs : Forall run_ok runs → ∀ st ps1 m rows lc,
  opened st ps1 m rows lc → ps_ok s ps1 → merger_ok s m → Forall (row_ok s) rows →
  (let? a := push_runs s sort_keys st runs in
   let? c := close_active s a.1 in Ok (c.1, so_far ps1 m rows ++ a.2 ++ c.2)) =
  whole_from ps1 m lc (join_runs ((pm_key m, rows) :: runs)).
Proof.
  induction 1 as [|[k sl] runs Hrun Hruns IH]; intros st ps1 m rows lc Hop Hps Hm Hr.
  { cbn [push_runs result_bind fst snd app join_runs whole_from].
    rewrite <- (close_opened st ps1 m rows lc Hop Hps Hm Hr).
    destruct (close_active s st) as [c|]; [|done]. cbn [result_bind whole_parts fst snd]. by rewrite app_nil_r. }
  cbn [push_runs]. destruct (decide (k = pm_key m)) as [->|Hne].
  - destruct (push_run_same st ps1 m rows lc sl Hop Hps Hm Hr Hrun) as (st' & out & Hpr & Ho & Hs).
    rewrite Hpr. cbn [result_bind fst snd]. rewrite join_same.
    rewrite <- (IH st' ps1 m (rows ++ sl) lc Ho Hps Hm) by (apply Forall_app; split; [done|apply Hrun]).
    destruct (push_runs s sort_keys st' runs) as [a|]; [|done]. cbn [result_bind fst snd].
    destruct (close_active s a.1) as [c|]; [|done]. cbn [result_bind fst snd]. by rewrite <- Hs, <- !app_assoc.
  - rewrite join_other by done. cbn [whole_from].
    pose proof (close_opened st ps1 m rows lc Hop Hps Hm Hr) as Hcl.
    rewrite push_run_other.
    2:{ intros m' Hm'. destruct Hop as (_ & Hac & _). rewrite Hac in Hm'. injection Hm' as <-. rewrite fed_key. done. }
    destruct (close_active s st) as [c|]; [|by rewrite <- Hcl]. cbn [result_bind] in Hcl |- *.
    pose proof (end_part_ok ps1 m rows _ _ Hps Hm Hr (eq_sym Hcl)) as Hps2.
    rewrite <- Hcl. cbn [result_bind fst snd]. destruct Hop as (_ & _ & ->).
    destruct (join_head k sl runs) as (sl' & gs & Hj). rewrite Hj, whole_parts_cons.
    destruct (begin_part s sort_keys c.1 lc k) as [[[[ps2 m2] lc2] out2]|] eqn:Eb; [|done]. cbn [result_bind].
    apply begin_part_ok in Eb as (Hps2' & Hm2 & Hk2); [|done..]. subst k.
    destruct (push_run_same (start ps2 m2 lc2) ps2 m2 [] lc2 sl (start_opened ps2 m2 lc2 Hm2) Hps2' Hm2
                (List.Forall_nil _) Hrun) as (st' & out & Hpr & Ho & Hs).
    rewrite Hpr. cbn [result_bind fst snd]. rewrite <- Hj, <- (IH st' ps2 m2 sl lc2 Ho Hps2' Hm2) by apply Hrun.
    destruct (push_runs s sort_keys st' runs) as [a|]; [|done]. cbn [result_bind fst snd].
    destruct (close_active s a.1) as [c'|]; [|done]. cbn [result_bind fst snd].
    rewrite so_far_nil in Hs by done. cbn [app] in Hs. subst out.
    by rewrite <- !app_assoc.
Qed.

Lemma push_runs_app st r1 r2 :
  push_runs s sort_keys st (r1 ++ r2) =
    let? a := push_runs s sort_keys st r1 in
    let? b := push_runs s sort_keys a.1 r2 in Ok (b.1, a.2 ++ b.2).
Proof.
  revert st. induction r1 as [|r r1 IH]; intros st; simpl.
  - by destruct (push_runs s sort_keys st r2) as [[]|].
  - destruct (push_run s sort_keys st r) as [a|]; [|done]. cbn [result_bind]. rewrite IH.
    destruct (push_runs s sort_keys a.1 r1) as [b|]; [|done]. cbn [result_bind fst snd].
    destruct (push_runs s sort_keys b.1 r2) as [c|]; [|done]. cbn [result_bind fst snd]. by rewrite app_assoc.
Qed.

Lemma push_batches_runs o idxs batches :
  key_indices InvalidRequest s (po_keys o) = Ok idxs → ∀ st,
  push_batches s o sort_keys st batches =
  push_runs s sort_keys st (concat (key_runs (row_order_key s o idxs) <$> batches)).
Proof.
  intros Hi. induction batches as [|b batches IH]; intros st; [done|].
  rewrite fmap_cons. cbn [concat]. destruct b as [|r b]; [by apply IH|].
  cbn [push_batches]. rewrite Hi, push_runs_app. cbn [result_bind].
  destruct (push_runs s sort_keys st _) as [a|]; [|done]. cbn [result_bind]. by rewrite IH.
Qed.

Lemma key_delta_ok o groups : ∀ m d,
  Forall (λ g, Forall (row_ok s) g.2) groups → Forall (λ x, Forall (row_ok s) x.2) m →
  key_delta s o groups m = Ok d → Forall (λ x, Forall (row_ok s) x.2) d.
Proof.
  induction groups as [|[l b] groups IH]; intros m d Hg Hm; simpl; [by intros [= <-]|].
  apply Forall_cons in Hg as [Hb Hg]. destruct b as [|r b]; [by apply IH|].
  destruct (batch_order_key s o (r :: b) l) as [key|]; [|done]. cbn [result_bind]. apply IH; [done|].
  clear IH Hg. induction m as [|[k0 v0] m IHm]; simpl; [by constructor|].
  apply Forall_cons in Hm as [Hv Hm]. destruct (cmp key k0); constructor; auto.
Qed.

Lemma stream_runs_ok o idxs stream :
  Forall (Forall (row_ok s)) stream → Forall run_ok (concat (key_runs (row_order_key s o idxs) <$> stream)).
Proof.
  intros Hs. apply Forall_forall. intros [k sl] Hin. apply list_elem_of_In, in_concat in Hin as (runs & Hr & Hin).
  apply list_elem_of_In, list_elem_of_fmap in Hr as (b & -> & Hb). apply list_elem_of_In, key_runs_elem in Hin as [Hne Hrows].
  split; [done|]. apply Forall_forall. intros r Hr. rewrite Forall_forall in Hs. specialize (Hs b Hb).
  rewrite Forall_forall in Hs. apply Hs, Hrows, Hr.
Qed.

Lemma pack_stream_whole snap cap delta_groups stream o idxs carried :
  key_indices InvalidRequest s (po_keys o) = Ok idxs →
  Forall (Forall (row_ok s)) stream → Forall (λ g, Forall (row_ok s) g.2) delta_groups →
  pack_merged_partition_stream s delta_groups stream o sort_keys carried (SegmentPacker_new snap cap) =
  pack_whole s delta_groups (concat stream) o idxs sort_keys carried (SegmentPacker_new snap cap).
Proof.
  intros Hi Hst Hdg. unfold pack_merged_partition_stream, pack_whole.
  destruct (key_delta s o delta_groups []) as [delta|] eqn:Ed; [|done]. cbn [result_bind].
  apply key_delta_ok in Ed; [|done|constructor].
  set (ps := {| ps_packer := SegmentPacker_new snap cap; ps_carried := carried; ps_delta := delta |}).
  assert (ps_ok s ps) as Hps by (split_and!; [constructor|done|done]).
  rewrite (push_batches_runs o idxs stream Hi), <- key_runs_concat.
  pose proof (stream_runs_ok o idxs stream Hst) as Hruns. clear Hst.
  destruct (concat (key_runs (row_order_key s o idxs) <$> stream)) as [|[k sl] runs]; [done|].
  apply Forall_cons in Hruns as [Hrun Hruns]. cbn [push_runs]. rewrite push_run_other by done.
  cbn [close_active active ls_pack last_completed result_bind fst snd].
  destruct (join_head k sl runs) as (sl' & gs & Hj). rewrite Hj, whole_parts_cons.
  destruct (begin_part s sort_keys ps None k) as [[[[ps1 m] lc1] out1]|] eqn:Eb; [|done]. cbn [result_bind].
  apply begin_part_ok in Eb as (Hps1 & Hm & <-); [|done..].
  destruct (push_run_same (start ps1 m lc1) ps1 m [] lc1 sl (start_opened ps1 m lc1 Hm) Hps1 Hm
              (List.Forall_nil _) Hrun) as (st' & out & Hpr & Ho & Hs).
  rewrite Hpr, <- Hj, <- (loop_whole runs Hruns st' ps1 m sl lc1 Ho Hps1 Hm) by apply Hrun.
  cbn [result_bind fst snd]. rewrite so_far_nil in Hs by done. cbn [app] in Hs. subst out.
  destruct (push_runs s sort_keys st' runs) as [a|]; [|done]. cbn [result_bind fst snd].
  destruct (close_active s a.1) as [c|]; [|done]. cbn [result_bind fst snd].
  destruct (drain_below s None sort_keys c.1) as [d|]; [|done]. cbn [result_bind fst snd].
  destruct (finish s (ps_packer d.1)) as [f|]; [|done]. cbn [result_bind]. by rewrite <- !app_assoc.
Qed.

End loop.
