(* ===== verification/PackTheorems.v ===== *)
(** * What the packed steps lay out

    [laid] reads the rows of a step back through its segment rows' ranges; every
    operation of the packer emits steps that account for the rows it was given,
    in order, under consecutive chunk indices and within the byte cap. *)

From S2P Require Import Prelude CoreTypes IndexSelect Ordered Chunker BatchUtil SegmentStats Packer PackLemmas PackMerge PackStream.
From stdpp Require Import base numbers list option sets sorting.

Open Scope Z_scope.
Open Scope result_scope.

Section layout.
Context {R : Type} `{RowCells R} {K : ArrowKernels} {N : SegmentNaming} {C : StatsCodec} (s : schema).

Notation packer := (SegmentPacker R).

(** ** Reading steps back *)

(** A row under its partition label, or a carried prior segment. *)
Definition laid_row : Type := option (list Z) * R + Z.

Definition tagged (l : option (list Z)) (rows : list R) : list laid_row := (λ r, inl (l, r)) <$> rows.

Definition spec_laid (file : list R) (sp : SnapshotSegmentRowSpec) : list laid_row :=
  tagged (partition_value sp) (slice_rows file (spec_offset sp) (spec_length sp)).

Definition laid (st : PackStep R) : list laid_row :=
  match st with
  | PackFile f => concat (spec_laid (file_batch f) <$> segment_rows f)
  | PackCarried specs => (λ c, inr (prior_seg_uuid c)) <$> specs
  end.

Definition step_idxs (st : PackStep R) : list nat :=
  match st with
  | PackFile f => spec_chunk_idx <$> segment_rows f
  | PackCarried specs => carried_chunk_idx <$> specs
  end.

(** The segment rows tile the file by non-empty ranges, each with its own size
    and its uuid derived from its chunk index. *)
Fixpoint specs_tile (snap : Z) (file : list R) (off : nat) (specs : list SnapshotSegmentRowSpec) : Prop :=
  match specs with
  | [] => off = length file
  | sp :: rest =>
      spec_offset sp = off ∧ (1 ≤ spec_length sp)%nat ∧
      size_bytes sp = total_bytes s (slice_rows file off (spec_length sp)) ∧
      statistics sp = compute_segment_statistics s (slice_rows file off (spec_length sp)) ∧
      seg_uuid sp = table_snapshot_segment_uuid snap (spec_chunk_idx sp) ∧
      specs_tile snap file (off + spec_length sp) rest
  end.

Definition step_shape (snap cap : Z) (st : PackStep R) : Prop :=
  match st with
  | PackFile f =>
      step_snap_uuid f = snap ∧ segment_rows f ≠ [] ∧ Some (uri f) = seg_uuid <$> head (segment_rows f) ∧
      specs_tile snap (file_batch f) 0 (segment_rows f) ∧
      (total_bytes s (file_batch f) ≤ cap ∨ length (file_batch f) = 1%nat)
  | PackCarried specs =>
      specs ≠ [] ∧ Forall (λ c, new_seg_uuid c = table_snapshot_segment_uuid snap (carried_chunk_idx c)) specs
  end.

(** ** The buffer *)

Definition pending (p : packer) : list laid_row := concat ((λ x, tagged x.1 x.2) <$> buffered p).

Definition buf_ok (p : packer) : Prop :=
  Forall (λ x, x.2 ≠ []) (buffered p) ∧ buffered_bytes p = total_bytes s (concat ((buffered p).*2)) ∧
  (buffered p = [] ∨ buffered_bytes p ≤ max_segment_bytes p).

(** [p] took in [xs] and became [p'], emitting [out]. *)
Record emits (p : packer) (out : list (PackStep R)) (p' : packer) (xs : list laid_row) : Prop := {
  em_rows : concat (laid <$> out) ++ pending p' = pending p ++ xs;
  em_idx : ∃ n, concat (step_idxs <$> out) = seq (chunk_idx p) n ∧ chunk_idx p' = (chunk_idx p + n)%nat;
  em_shape : Forall (step_shape (snap_uuid p) (max_segment_bytes p)) out;
  em_snap : snap_uuid p' = snap_uuid p;
  em_cap : max_segment_bytes p' = max_segment_bytes p;
  em_buf : buf_ok p';
}.

Lemma emits_refl p : buf_ok p → emits p [] p [].
Proof. intros Hb. split; try done; [by rewrite app_nil_r|]. exists O. split; [done|lia]. Qed.

Lemma emits_trans p o1 p1 xs1 o2 p2 xs2 :
  emits p o1 p1 xs1 → emits p1 o2 p2 xs2 → emits p (o1 ++ o2) p2 (xs1 ++ xs2).
Proof.
  intros [Hr1 (n1 & Hi1 & Hc1) Hs1 Hn1 Hcap1 Hb1] [Hr2 (n2 & Hi2 & Hc2) Hs2 Hn2 Hcap2 Hb2]. split.
  - rewrite fmap_app, concat_app, <- app_assoc, Hr2, app_assoc, Hr1. by rewrite app_assoc.
  - exists (n1 + n2)%nat. rewrite fmap_app, concat_app, Hi1, Hi2, Hc1, seq_app. split; [done|]. rewrite Hc2, Hc1. lia.
  - apply Forall_app. split; [done|]. by rewrite <- Hn1, <- Hcap1.
  - by rewrite Hn2.
  - by rewrite Hcap2.
  - done.
Qed.

(** *** Flushing *)

Lemma tagged_app l (a b : list R) : tagged l (a ++ b) = tagged l a ++ tagged l b.
Proof. apply fmap_app. Qed.

Lemma part_specs_laid snap (parts : list (option (list Z) * list R)) : ∀ idx pre,
  concat (spec_laid (pre ++ concat (parts.*2)) <$> part_specs s snap idx (length pre) parts) =
  concat ((λ x, tagged x.1 x.2) <$> parts).
Proof.
  induction parts as [|[l b] parts IH]; intros idx pre; [done|].
  rewrite !fmap_cons. cbn [concat part_specs fmap list_fmap]. f_equal.
  - unfold spec_laid. cbn [partition_value spec_offset spec_length]. by rewrite slice_middle.
  - specialize (IH (S idx) (pre ++ b)). rewrite length_app, <- app_assoc in IH. exact IH.
Qed.

Lemma part_specs_idxs snap (parts : list (option (list Z) * list R)) : ∀ idx off,
  spec_chunk_idx <$> part_specs s snap idx off parts = seq idx (length parts).
Proof.
  induction parts as [|[l b] parts IH]; intros idx off; [done|]. simpl. f_equal. apply IH.
Qed.

Lemma part_specs_tile snap (parts : list (option (list Z) * list R)) : ∀ idx pre,
  Forall (λ x, x.2 ≠ []) parts →
  specs_tile snap (pre ++ concat (parts.*2)) (length pre) (part_specs s snap idx (length pre) parts).
Proof.
  induction parts as [|[l b] parts IH]; intros idx pre Hne; simpl; [by rewrite app_nil_r|].
  apply Forall_cons in Hne as [Hb Hne]. split_and!; [done| | | |done|].
  - simpl in Hb. destruct b; simpl; [done|lia].
  - by rewrite slice_middle.
  - by rewrite slice_middle.
  - specialize (IH (S idx) (pre ++ b) Hne). by rewrite length_app, <- app_assoc in IH.
Qed.

Lemma flush_emits p : buf_ok p → emits p (PackFile <$> flush_steps s p) (flushed p) [] ∧ buffered_bytes (flushed p) = 0.
Proof.
  intros (Hne & Hby & Hcap). unfold flush_steps, flushed, buf_ok.
  destruct (buffered p) as [|x parts] eqn:Eb.
  { split; [|by rewrite Hby]. apply emits_refl. split_and!; rewrite Eb; auto. }
  split; [|done]. destruct Hcap as [|Hcap]; [done|]. split.
  - cbn [fmap list_fmap concat laid file_batch segment_rows]. rewrite app_nil_r.
    unfold pending. rewrite Eb. cbn [set_chunk_idx set_buffer buffered fmap list_fmap concat].
    rewrite !app_nil_r. apply (part_specs_laid (snap_uuid p) (x :: parts) (chunk_idx p) []).
  - exists (length (x :: parts)). split; [|done]. cbn [fmap list_fmap concat step_idxs segment_rows].
    rewrite app_nil_r. apply part_specs_idxs.
  - constructor; [|constructor]. cbn [step_shape step_snap_uuid uri segment_rows file_batch].
    split_and!; [done|by destruct x|by destruct x|by apply (part_specs_tile (snap_uuid p) (x :: parts) (chunk_idx p) [])|].
    left. by rewrite <- Hby.
  - done.
  - done.
  - split_and!; [constructor|done|by left].
Qed.

(** *** Chunk files and whole partitions *)

Lemma chunk_files_laid snap l cs : ∀ idx,
  concat (laid <$> (PackFile <$> chunk_files s snap idx l cs)) = tagged l (concat (cs.*1)).
Proof.
  induction cs as [|[c b] cs IH]; intros idx; [done|].
  cbn [chunk_files fmap list_fmap concat laid chunk_file file_batch segment_rows fst]. rewrite app_nil_r, tagged_app.
  unfold spec_laid at 1. cbn [partition_value spec_offset spec_length].
  pose proof (slice_middle [] c []) as Hs. cbn [app length] in Hs. rewrite app_nil_r in Hs. rewrite Hs. f_equal.
  apply IH.
Qed.

Lemma chunk_files_idxs snap l cs : ∀ idx,
  concat (step_idxs <$> (PackFile <$> chunk_files s snap idx l cs)) = seq idx (length cs).
Proof.
  induction cs as [|c cs IH]; intros idx; [done|]. cbn [chunk_files fmap list_fmap concat step_idxs chunk_file segment_rows length seq spec_chunk_idx].
  f_equal. apply IH.
Qed.

Lemma chunk_files_shape snap cap l cs : ∀ idx,
  Forall (chunk_fits s cap) cs → Forall (step_shape snap cap) (PackFile <$> chunk_files s snap idx l cs).
Proof.
  induction cs as [|[c b] cs IH]; intros idx; [by constructor|]. intros [(Hne & Hb & Hfit) Hcs]%Forall_cons.
  constructor; [|by apply IH]. cbn [fst snd] in *. cbn [step_shape chunk_file step_snap_uuid segment_rows uri file_batch fst snd].
  pose proof (slice_middle [] c []) as Hs. cbn [app length] in Hs. rewrite app_nil_r in Hs.
  split_and!; [done|done|done| |by rewrite <- Hb].
  cbn [specs_tile spec_offset spec_length size_bytes seg_uuid spec_chunk_idx fst snd]. rewrite Hs.
  split_and!; [done|destruct c; simpl in *; [done|lia]|done|done|done|done].
Qed.

Lemma buf_ok_push p l rows :
  buf_ok p → rows ≠ [] → buffered_bytes p + total_bytes s rows ≤ max_segment_bytes p →
  buf_ok (set_buffer p (buffered p ++ [(l, rows)]) (buffered_bytes p + total_bytes s rows)).
Proof.
  intros (Hne & Hby & _) Hr Hle. split_and!; simpl.
  - apply Forall_app. split; [done|]. constructor; [done|constructor].
  - rewrite fmap_app, concat_app, total_app, Hby. simpl. by rewrite app_nil_r.
  - by right.
Qed.

Lemma pushed_emits p l rows :
  buf_ok p → emits p (PackFile <$> (pushed s p l rows).2) (pushed s p l rows).1 (tagged l rows).
Proof.
  intros Hb. unfold pushed. destruct rows as [|r rows']; [by apply emits_refl|]. set (rows := r :: rows') in *.
  destruct (flush_emits p Hb) as [Hfl Hfb].
  destruct (Z.ltb_spec (max_segment_bytes p) (total_bytes s rows)) as [Hover|Hfits].
  - cbn [fst snd]. rewrite fmap_app. rewrite <- (app_nil_l (tagged l rows)). eapply emits_trans; [exact Hfl|].
    destruct (chunks_content s (max_segment_bytes p) rows) as [Hcat Hfit]. split.
    + rewrite chunk_files_laid, Hcat. unfold pending. simpl. rewrite flushed_buffered. by rewrite app_nil_r.
    + exists (length (chunks s (max_segment_bytes p) rows)). split; [apply chunk_files_idxs|done].
    + rewrite flushed_snap, flushed_cap. by apply chunk_files_shape.
    + done.
    + done.
    + destruct Hfl as [_ _ _ _ _ Hb1]. exact Hb1.
  - assert (∀ q, buf_ok q → (buffered q = [] ∨ buffered_bytes q + total_bytes s rows ≤ max_segment_bytes q) →
      max_segment_bytes q = max_segment_bytes p →
      emits q [] (set_buffer q (buffered q ++ [(l, rows)]) (buffered_bytes q + total_bytes s rows)) (tagged l rows)) as Hpush.
    { intros q Hq Hle Hcap. split; [|exists O; split; [done|simpl; lia]|constructor|done|done|].
      - unfold pending. simpl. rewrite fmap_app, concat_app. simpl. by rewrite app_nil_r.
      - apply buf_ok_push; [done|done|]. destruct Hle as [Hnil|Hle]; [|done].
        destruct Hq as (_ & Hby & _). rewrite Hby, Hnil, Hcap. change (0 + total_bytes s rows ≤ max_segment_bytes p). lia. }
    destruct (negb (bool_decide (buffered p = [])) && (max_segment_bytes p <? buffered_bytes p + total_bytes s rows)) eqn:Eo.
    + cbn [fst snd]. rewrite <- (app_nil_r (PackFile <$> flush_steps s p)), <- (app_nil_l (tagged l rows)).
      eapply emits_trans; [exact Hfl|]. apply Hpush; [by destruct Hfl|left; apply flushed_buffered|apply flushed_cap].
    + cbn [fst snd]. apply Hpush; [done| |done]. apply andb_false_iff in Eo as [Eo|Eo].
      * left. apply negb_false_iff in Eo. by apply bool_decide_eq_true in Eo.
      * right. by apply Z.ltb_ge in Eo.
Qed.

(** *** Carried partitions *)

Lemma claim_carried_laid us : ∀ p : packer,
  (λ c, inr (prior_seg_uuid c)) <$> (claim_carried p us).2 = (inr <$> us : list laid_row) ∧
  carried_chunk_idx <$> (claim_carried p us).2 = seq (chunk_idx p) (length us) ∧
  Forall (λ c, new_seg_uuid c = table_snapshot_segment_uuid (snap_uuid p) (carried_chunk_idx c)) (claim_carried p us).2.
Proof.
  induction us as [|u us IH]; intros p; [done|]. simpl.
  specialize (IH (set_chunk_idx p (S (chunk_idx p)))).
  destruct (claim_carried (set_chunk_idx p (S (chunk_idx p))) us) as [p' specs]. simpl in IH.
  destruct IH as (H1 & H2 & H3). cbn [snd]. rewrite !fmap_cons, H1, H2. split_and!; [done|done|]. by constructor.
Qed.

Lemma claim_emits p us :
  buf_ok p → buffered p = [] → us ≠ [] →
  emits p [PackCarried (claim_carried p us).2] (claim_carried p us).1 (inr <$> us).
Proof.
  intros Hb Hnil Hne. destruct (claim_carried_laid us p) as (H1 & H2 & H3). rewrite claim_carried_packer. split.
  - cbn [fmap list_fmap concat laid]. rewrite app_nil_r. unfold pending. simpl. rewrite Hnil. simpl.
    rewrite app_nil_r. exact H1.
  - exists (length us). split; [|done]. cbn [fmap list_fmap concat step_idxs]. by rewrite app_nil_r.
  - constructor; [|constructor]. split; [|done]. intros Hn. rewrite Hn in H1. by destruct us.
  - done.
  - done.
  - exact Hb.
Qed.

End layout.

(** ** The packer's theorems

    From a prior stream in partition order, delta groups and disjoint carried
    partitions the packer succeeds, and its steps lay out every partition once,
    in strictly ascending typed order. *)

Section drain.
Context {R : Type} `{RowCells R} {K : ArrowKernels} `{!ArrowKernelsLaws K} {N : SegmentNaming} {C : StatsCodec}.
Context (s : schema) (sort_keys : list Z) (sidx : list nat).
Context (Hidx : key_indices Internal s sort_keys = Ok sidx).

(** ** One partition's rows *)

Definition sorted_rows (rows : list R) : list R :=
  match sort_record_batch_by_keys s rows sort_keys with Ok out => out | Err _ => [] end.

Definition part_rows (prior : list R) (delta : option (list R)) : list R :=
  match delta with
  | None => prior
  | Some d => match sort_keys with [] => prior ++ d | _ => merged (sort_code s sidx) prior (sorted_rows d) end
  end.

Lemma part_rows_delta prior d :
  part_rows prior (Some d) = if decide (sort_keys = []) then prior ++ d else merged (sort_code s sidx) prior (sorted_rows d).
Proof. unfold part_rows. case_decide as Hk; [by rewrite Hk|]. by destruct sort_keys. Qed.

Lemma sorted_rows_ok rows : sort_record_batch_by_keys s rows sort_keys = Ok (sorted_rows rows).
Proof using Hidx.
  unfold sorted_rows. destruct (decide (sort_keys = [])) as [Hk|Hk]; [by rewrite sort_trivial by auto|].
  destruct rows as [|r rows]; [by rewrite sort_trivial by auto|].
  rewrite sort_unfold by done. by rewrite Hidx.
Qed.

Lemma sorted_rows_perm rows : sorted_rows rows ≡ₚ rows.
Proof using Hidx ArrowKernelsLaws0. apply (sort_permutes s rows _ sort_keys), sorted_rows_ok. Qed.

(** A partition holds its prior and its delta rows, each once. *)
Lemma part_rows_perm prior delta : part_rows prior delta ≡ₚ prior ++ default [] delta.
Proof using Hidx ArrowKernelsLaws0.
  destruct delta as [d|]; [|simpl; by rewrite app_nil_r].
  rewrite part_rows_delta. case_decide; [done|]. by rewrite merged_perm, sorted_rows_perm.
Qed.

Lemma merger_new_whole key delta : ∃ m,
  PartitionMerger_new s key delta sort_keys = Ok m ∧ ∀ prior, merge_whole s m prior = part_rows prior delta.
Proof using Hidx.
  unfold PartitionMerger_new, part_rows. destruct delta as [d|]; [|by destruct sort_keys; eexists].
  rewrite sorted_rows_ok, Hidx. cbn [result_bind]. destruct sort_keys; by eexists.
Qed.

Lemma push_delta_only_whole p l b :
  packer_ok s p → Forall (row_ok s) b →
  push_delta_only s p l b sort_keys =
    Ok ((pushed s p l (part_rows [] (Some b))).1, PackFile <$> (pushed s p l (part_rows [] (Some b))).2).
Proof using Hidx ArrowKernelsLaws0.
  intros Hp Hb. assert (part_rows [] (Some b) = sorted_rows b) as Hpr.
  { rewrite part_rows_delta. case_decide; [|done]. unfold sorted_rows. by rewrite sort_trivial by auto. }
  rewrite Hpr. unfold push_delta_only. destruct b as [|r b'].
  { unfold sorted_rows. rewrite sort_trivial by auto. done. }
  rewrite sorted_rows_ok. cbn [result_bind]. rewrite push_partition_ok; [done|done|].
  by rewrite sorted_rows_perm.
Qed.

(** ** Draining *)

Record ps_inv (ps : PackState (R := R)) : Prop := {
  pi_ok : ps_ok s ps;
  pi_buf : buf_ok s (ps_packer ps);
  pi_carried : ascending (ps_carried ps);
  pi_delta : ascending (ps_delta ps);
  pi_us : Forall (λ x, x.2 ≠ []) (ps_carried ps);
  pi_disjoint : ∀ k, k ∈ (ps_carried ps).*1 → k ∉ (ps_delta ps).*1;
}.

Definition keys_of (ps : PackState (R := R)) (k : PartitionOrderKey) : Prop :=
  k ∈ (ps_carried ps).*1 ∨ k ∈ (ps_delta ps).*1.

Context (content : PartitionOrderKey → list (laid_row (R := R))).

(** The content of the pending partitions below a bound. *)
Definition content_ok (bound : option PartitionOrderKey) (ps : PackState (R := R)) : Prop :=
  (∀ k us, (k, us) ∈ ps_carried ps → content k = inr <$> us) ∧
  (∀ k d, (k, d) ∈ ps_delta ps → in_bounds bound k = true → content k = tagged (label k) (part_rows [] (Some d))).

Lemma in_bounds_mono bound k k' : in_bounds bound k = false → olt k k' → in_bounds bound k' = false.
Proof.
  unfold in_bounds. destruct bound as [b|]; [|done]. rewrite !oltb_ge. intros Hb Hk.
  apply olt_le. by eapply ole_lt_trans.
Qed.

(** What a draining step or loop achieves. *)
Definition drained (bound : option PartitionOrderKey) (ps ps' : PackState (R := R)) (out : list (PackStep R))
    (ks : list PartitionOrderKey) : Prop :=
  emits s (ps_packer ps) out (ps_packer ps') (concat (content <$> ks)) ∧
  StronglySorted olt ks ∧ (∀ k, k ∈ ks ↔ in_bounds bound k = true ∧ keys_of ps k) ∧ ps_inv ps' ∧
  (∀ x, x ∈ ps_carried ps' ↔ x ∈ ps_carried ps ∧ in_bounds bound x.1 = false) ∧
  (∀ x, x ∈ ps_delta ps' ↔ x ∈ ps_delta ps ∧ in_bounds bound x.1 = false).

(** The head of the pending partitions: [k] with its content. *)
Definition pops (k : PartitionOrderKey) (ps ps1 : PackState (R := R)) (out : list (PackStep R)) : Prop :=
  emits s (ps_packer ps) out (ps_packer ps1) (content k) ∧ ps_inv ps1 ∧ keys_of ps k ∧
  (∀ k', keys_of ps1 k' → olt k k') ∧
  (∀ x, x ∈ ps_carried ps ↔ x ∈ ps_carried ps1 ∨ x ∈ ps_carried ps ∧ x.1 = k) ∧
  (∀ x, x ∈ ps_delta ps ↔ x ∈ ps_delta ps1 ∨ x ∈ ps_delta ps ∧ x.1 = k) ∧
  (length (ps_carried ps1) + length (ps_delta ps1) < length (ps_carried ps) + length (ps_delta ps))%nat.

Lemma keys_cons {V} (k : PartitionOrderKey) (v : V) m k' : k' ∈ ((k, v) :: m).*1 ↔ k' = k ∨ k' ∈ m.*1.
Proof. rewrite fmap_cons. apply elem_of_cons. Qed.

Lemma split_head {V} (k : PartitionOrderKey) (v : V) m :
  ascending ((k, v) :: m) → ∀ x, x ∈ (k, v) :: m ↔ x ∈ m ∨ x ∈ (k, v) :: m ∧ x.1 = k.
Proof.
  intros [_ Hk]%ascending_cons x. rewrite elem_of_cons. split.
  - intros [->|Hx]; [by right; split; [left|]|by left].
  - intros [Hx|[Hx _]]; [by right|done].
Qed.

Lemma pop_carried ps c us cs :
  ps_inv ps → ps_carried ps = (c, us) :: cs → content c = inr <$> us → (∀ k, k ∈ (ps_delta ps).*1 → olt c k) →
  let p1 := flushed (ps_packer ps) in
  pops c ps {| ps_packer := (claim_carried p1 us).1; ps_carried := cs; ps_delta := ps_delta ps |}
    ((PackFile <$> flush_steps s (ps_packer ps)) ++ [PackCarried (claim_carried p1 us).2]).
Proof.
  intros [(Hp & Hopen & Hd) Hb Hc Hda Hus Hdis] Ec Hcont Hlt p1. rewrite Ec in *.
  pose proof Hc as [Hcs Hck]%ascending_cons. apply Forall_cons in Hus as [Hu Hus].
  destruct (flush_emits s (ps_packer ps) Hb) as [Hfl _]. split_and!.
  - rewrite Hcont, <- (app_nil_l (inr <$> us)). eapply emits_trans; [exact Hfl|].
    apply claim_emits; [by destruct Hfl|apply flushed_buffered|done].
  - split; simpl; [|by (rewrite claim_carried_packer; destruct Hfl)|done|done|done|].
    + split_and!; simpl; [| |done]; rewrite claim_carried_packer; [apply flushed_ok|unfold p1; simpl; by rewrite flushed_open].
    + intros k Hk. apply Hdis, keys_cons. by right.
  - left. rewrite Ec. apply keys_cons. by left.
  - intros k [Hk|Hk]; [by apply Hck|by apply Hlt].
  - intros x. rewrite Ec. simpl. by apply split_head.
  - intros x. simpl. split; [by left|by intros [?|[? _]]].
  - rewrite Ec. simpl. lia.
Qed.

Lemma pop_delta ps d b ds :
  ps_inv ps → ps_delta ps = (d, b) :: ds → content d = tagged (label d) (part_rows [] (Some b)) →
  (∀ k, k ∈ (ps_carried ps).*1 → olt d k) →
  let q := pushed s (ps_packer ps) (label d) (part_rows [] (Some b)) in
  pops d ps {| ps_packer := q.1; ps_carried := ps_carried ps; ps_delta := ds |} (PackFile <$> q.2).
Proof using Hidx ArrowKernelsLaws0.
  intros [(Hp & Hopen & Hd) Hb Hc Hda Hus Hdis] Ed Hcont Hlt q. rewrite Ed in *.
  pose proof Hda as [Hds Hdk]%ascending_cons. apply Forall_cons in Hd as [Hbo Hd].
  pose proof (pushed_emits s (ps_packer ps) (label d) (part_rows [] (Some b)) Hb) as Hem. fold q in Hem. split_and!.
  - by rewrite Hcont.
  - split; simpl; [|by destruct Hem|done|done|done|].
    + destruct (pushed_ok s (ps_packer ps) (label d) (part_rows [] (Some b))) as [? ?]; [done|done| |done].
      by rewrite part_rows_perm.
    + intros k Hk Hin. apply (Hdis k Hk), keys_cons. by right.
  - right. rewrite Ed. apply keys_cons. by left.
  - intros k [Hk|Hk]; [by apply Hlt|by apply Hdk].
  - intros x. simpl. split; [by left|by intros [?|[? _]]].
  - intros x. rewrite Ed. simpl. by apply split_head.
  - rewrite Ed. simpl. lia.
Qed.

Lemma above_head {V} (k k0 : PartitionOrderKey) (v : V) m :
  ascending ((k0, v) :: m) → olt k k0 → ∀ k', k' ∈ ((k0, v) :: m).*1 → olt k k'.
Proof.
  intros [_ Hk]%ascending_cons Hlt k'. rewrite keys_cons. intros [->|Hin]; [done|].
  eapply cmp_lt_trans; [exact Hlt|]. by apply Hk.
Qed.

Definition step_spec (bound : option PartitionOrderKey) (ps : PackState (R := R))
    (r : result ApiError (option (PackState * list (PackStep R)))) : Prop :=
  (r = Ok None ∧ ∀ k, keys_of ps k → in_bounds bound k = false) ∨
  (∃ k ps1 out, r = Ok (Some (ps1, out)) ∧ in_bounds bound k = true ∧ pops k ps ps1 out).

Lemma drain_carried_spec bound ps c us cs :
  ps_inv ps → content_ok bound ps → ps_carried ps = (c, us) :: cs → (∀ k, k ∈ (ps_delta ps).*1 → olt c k) →
  step_spec bound ps (drain_carried s bound ps c us).
Proof.
  intros Hinv [HCc _] Ec Hlt. unfold drain_carried. pose proof Hinv as [(Hp & _) _ Hc _ Hus _].
  destruct (in_bounds bound c) eqn:Eb.
  - right. exists c. eexists _, _. split; [|split; [done|]].
    2:{ apply (pop_carried ps c us cs Hinv Ec); [|done]. apply HCc. rewrite Ec. by left. }
    rewrite Ec in Hus. apply Forall_cons in Hus as [Hu _]. destruct us as [|u us]; [done|].
    rewrite flush_ok by done. cbn [result_bind fst snd]. rewrite Ec, bt_remove_head.
    by destruct (claim_carried (flushed (ps_packer ps)) (u :: us)).
  - left. split; [done|]. intros k [Hk|Hk]; [|by apply (in_bounds_mono bound c k Eb), Hlt].
    rewrite Ec in Hk, Hc. apply ascending_cons in Hc as [_ Hck]. apply keys_cons in Hk as [->|Hk]; [done|].
    by apply (in_bounds_mono bound c k Eb), Hck.
Qed.

Lemma drain_delta_spec bound ps d b ds :
  ps_inv ps → content_ok bound ps → ps_delta ps = (d, b) :: ds → (∀ k, k ∈ (ps_carried ps).*1 → olt d k) →
  step_spec bound ps (drain_delta s bound sort_keys ps d b).
Proof using Hidx ArrowKernelsLaws0.
  intros Hinv [_ HCd] Ed Hlt. unfold drain_delta. pose proof Hinv as [(Hp & _ & Hd) _ _ Hda _ _].
  destruct (in_bounds bound d) eqn:Eb.
  - right. exists d. eexists _, _. split; [|split; [done|]].
    2:{ apply (pop_delta ps d b ds Hinv Ed); [|done]. apply HCd; [|done]. rewrite Ed. by left. }
    rewrite Ed in Hd. apply Forall_cons in Hd as [Hbo _]. rewrite push_delta_only_whole by done.
    cbn [result_bind fst snd]. by rewrite Ed, bt_remove_head.
  - left. split; [done|]. intros k [Hk|Hk]; [by apply (in_bounds_mono bound d k Eb), Hlt|].
    rewrite Ed in Hk, Hda. apply ascending_cons in Hda as [_ Hdk]. apply keys_cons in Hk as [->|Hk]; [done|].
    by apply (in_bounds_mono bound d k Eb), Hdk.
Qed.

Lemma drain_step_spec bound ps :
  ps_inv ps → content_ok bound ps → step_spec bound ps (drain_step s bound sort_keys ps).
Proof using Hidx ArrowKernelsLaws0.
  intros Hinv HC. pose proof Hinv as [_ _ Hc Hda _ Hdis]. unfold drain_step, first_key_value.
  destruct (ps_carried ps) as [|[c us] cs] eqn:Ec, (ps_delta ps) as [|[d b] ds] eqn:Ed; simpl.
  - left. split; [done|]. intros k. unfold keys_of. rewrite Ec, Ed. by intros [?%elem_of_nil|?%elem_of_nil].
  - apply (drain_delta_spec bound ps d b ds Hinv HC Ed). rewrite Ec. by intros k ?%elem_of_nil.
  - apply (drain_carried_spec bound ps c us cs Hinv HC Ec). rewrite Ed. by intros k ?%elem_of_nil.
  - destruct (cmp c d) eqn:E.
    + apply cmp_eq in E as ->. exfalso. apply (Hdis d); apply keys_cons; by left.
    + apply (drain_carried_spec bound ps c us cs Hinv HC Ec). rewrite Ed. by apply above_head.
    + apply (drain_delta_spec bound ps d b ds Hinv HC Ed). rewrite Ec. apply above_head; [done|].
      unfold olt. by rewrite (cmp_opp c d), E.
Qed.

Lemma drain_loop_spec bound : ∀ fuel ps,
  (length (ps_carried ps) + length (ps_delta ps) ≤ fuel)%nat → ps_inv ps → content_ok bound ps →
  ∃ ps' out ks, drain_loop s fuel bound sort_keys ps = Ok (ps', out) ∧ drained bound ps ps' out ks.
Proof using Hidx ArrowKernelsLaws0.
  induction fuel as [|fuel IH]; intros ps Hf Hinv HC.
  { exists ps, [], []. split; [done|]. pose proof Hinv as [_ Hb _ _ _ _].
    assert (ps_carried ps = []) as Ec by (destruct (ps_carried ps); [done|simpl in Hf; lia]).
    assert (ps_delta ps = []) as Ed by (destruct (ps_delta ps); [done|rewrite Ec in Hf; simpl in Hf; lia]).
    split_and!; [by apply emits_refl|constructor| |done| |]; unfold keys_of; rewrite ?Ec, ?Ed; set_solver. }
  simpl. destruct (drain_step_spec bound ps Hinv HC) as [[-> Hout]|(k & ps1 & out1 & -> & Hk & Hpop)]; cbn [result_bind].
  - exists ps, [], []. split; [done|]. pose proof Hinv as [_ Hb _ _ _ _].
    split_and!; [by apply emits_refl|constructor| |done| |].
    + intros k. split; [by intros ?%elem_of_nil|]. intros [Hk1 Hk2]. apply Hout in Hk2. congruence.
    + intros [k us]. split; [|by intros [? _]]. intros Hx. split; [done|]. apply Hout. left.
      by apply (list_elem_of_fmap_2 fst) in Hx.
    + intros [k d]. split; [|by intros [? _]]. intros Hx. split; [done|]. apply Hout. right.
      by apply (list_elem_of_fmap_2 fst) in Hx.
  - destruct Hpop as (Hem & Hinv1 & Hkin & Habove & Hc1 & Hd1 & Hlen).
    destruct (IH ps1) as (ps' & out & ks & Hdr & Hem2 & Hsort & Hks & Hinv2 & Hc2 & Hd2); [lia|done| |].
    { destruct HC as [HCc HCd]. split; [intros k' us Hin; apply HCc, Hc1; by left|].
      intros k' d Hin. apply HCd, Hd1. by left. }
    rewrite Hdr. cbn [result_bind fst snd]. exists ps', (out1 ++ out), (k :: ks). split; [done|].
    assert (∀ k', keys_of ps k' ↔ k' = k ∨ keys_of ps1 k') as Hkeys.
    { intros k'. unfold keys_of. split.
      - intros [Hin|Hin]; apply list_elem_of_fmap in Hin as (x & -> & Hx);
          [apply Hc1 in Hx as [Hx|[_ Hx]]|apply Hd1 in Hx as [Hx|[_ Hx]]]; auto;
          right; [left|right]; by apply list_elem_of_fmap_2.
      - intros [->|[Hin|Hin]]; [exact Hkin|left|right]; apply list_elem_of_fmap in Hin as (x & -> & Hx);
          apply list_elem_of_fmap_2; [apply Hc1|apply Hd1]; by left. }
    split_and!; [exact (emits_trans s _ _ _ _ _ _ _ Hem Hem2)| | |done| |].
    + constructor; [done|]. apply Forall_forall. intros k' [_ Hin]%Hks. by apply Habove.
    + intros k'. rewrite elem_of_cons, Hks, Hkeys. naive_solver.
    + intros x. rewrite Hc2, (Hc1 x). split; [tauto|]. intros [[?|[_ Hx]] Hb]; [done|]. congruence.
    + intros x. rewrite Hd2, (Hd1 x). split; [tauto|]. intros [[?|[_ Hx]] Hb]; [done|]. congruence.
Qed.

(** ** Whole partitions in order *)

Record parts_ok (ps : PackState (R := R)) (parts : list (PartitionOrderKey * list R)) : Prop := {
  po_sorted : StronglySorted olt (parts.*1);
  po_rows : Forall (λ x, Forall (row_ok s) x.2) parts;
  po_carried : ∀ k, k ∈ parts.*1 → k ∉ (ps_carried ps).*1;
  po_uuids : ∀ k us, (k, us) ∈ ps_carried ps → content k = inr <$> us;
  po_delta : ∀ k d, (k, d) ∈ ps_delta ps → k ∉ parts.*1 → content k = tagged (label k) (part_rows [] (Some d));
  po_prior : ∀ k rows, (k, rows) ∈ parts → content k = tagged (label k) (part_rows rows (bt_get k (ps_delta ps)));
}.

(** The partitions the loop has been through: those with prior rows and the
    pending ones below one of them. *)
Definition passed (parts : list (PartitionOrderKey * list R)) (k : PartitionOrderKey) : Prop :=
  ∃ k', k' ∈ parts.*1 ∧ olt k k'.

Lemma bounds_self (k : PartitionOrderKey) : in_bounds (Some k) k = false.
Proof. unfold in_bounds. apply oltb_ge, ole_refl. Qed.

Lemma bounds_ge (k k' : PartitionOrderKey) : in_bounds (Some k) k' = false ↔ ole k k'.
Proof. unfold in_bounds. apply oltb_ge. Qed.

Lemma bt_get_ext {V} (k : PartitionOrderKey) (m m' : list (PartitionOrderKey * V)) :
  ascending m → ascending m' → (∀ v, (k, v) ∈ m ↔ (k, v) ∈ m') → bt_get k m = bt_get k m'.
Proof.
  intros Hm Hm' Heq. apply option_eq. intros v. rewrite !bt_get_Some by done. apply Heq.
Qed.

Lemma begin_part_spec ps lc k rows rest :
  ps_inv ps → parts_ok ps ((k, rows) :: rest) → (∀ l, lc = Some l → olt l k) →
  ∃ ps1 m out ks, begin_part s sort_keys ps lc k = Ok (ps1, m, Some k, out) ∧ pm_key m = k ∧ merger_ok s m ∧
    tagged (label k) (merge_whole s m rows) = content k ∧
    emits s (ps_packer ps) out (ps_packer ps1) (concat (content <$> ks)) ∧
    StronglySorted olt ks ∧ (∀ k', k' ∈ ks ↔ olt k' k ∧ keys_of ps k') ∧ ps_inv ps1 ∧
    (∀ x, x ∈ ps_carried ps1 ↔ x ∈ ps_carried ps ∧ olt k x.1) ∧
    (∀ x, x ∈ ps_delta ps1 ↔ x ∈ ps_delta ps ∧ olt k x.1).
Proof using Hidx ArrowKernelsLaws0.
  intros Hinv Hpo Hlc. pose proof Hpo as [Hso Hro Hca Huu Hde Hpr].
  pose proof Hso as [Hso' Hsok]%StronglySorted_inv. rewrite Forall_forall in Hsok.
  destruct (drain_loop_spec (Some k) (length (ps_carried ps) + length (ps_delta ps)) ps (Nat.le_refl _) Hinv)
    as (ps0 & out & ks & Hdr & Hem & Hsort & Hks & Hinv0 & Hc0 & Hd0).
  { split; [exact Huu|]. intros k' d Hin Hb. apply (Hde k' d Hin). unfold in_bounds in Hb. apply oltb_lt in Hb.
    rewrite keys_cons. intros [->|Hin']; [by apply (olt_irrefl k)|].
    apply (olt_irrefl k'). eapply cmp_lt_trans; [exact Hb|by apply Hsok]. }
  destruct (merger_new_whole k (bt_get k (ps_delta ps0))) as (m & Hm & Hw).
  set (ps1 := {| ps_packer := ps_packer ps0; ps_carried := ps_carried ps0; ps_delta := bt_remove k (ps_delta ps0) |}).
  assert (k ∉ (ps_carried ps).*1) as Hknc by (apply Hca, keys_cons; by left).
  assert (begin_part s sort_keys ps lc k = Ok (ps1, m, Some k, out)) as Hbp.
  { unfold begin_part, check_partition_order, contains_key.
    assert ((match lc with Some prev => if oleb k prev then Err Internal else Ok (Some k) | None => Ok (Some k) end)
            = (Ok (Some k) : result ApiError _)) as ->.
    { destruct lc as [l|]; [|done]. destruct (oleb k l) eqn:E; [|done]. apply oleb_le in E. exfalso.
      apply (olt_irrefl l). eapply olt_le_trans; [by apply Hlc|done]. }
    assert (bt_get k (ps_carried ps) = None) as -> by (apply bt_get_None; [apply (pi_carried ps Hinv)|done]).
    unfold drain_below. cbn [result_bind]. rewrite Hdr. cbn [result_bind fst snd]. by rewrite Hm. }
  destruct (begin_part_ok s sort_keys ps lc k ps1 m (Some k) out (pi_ok ps Hinv) Hbp) as (Hps1 & Hmo & Hmk).
  assert (bt_get k (ps_delta ps0) = bt_get k (ps_delta ps)) as Hget.
  { apply bt_get_ext; [apply (pi_delta ps0 Hinv0)|apply (pi_delta ps Hinv)|]. intros v. rewrite Hd0.
    simpl. pose proof (bounds_self k). tauto. }
  pose proof Hinv0 as [_ Hb0 Hca0 Hda0 Hus0 Hdis0].
  exists ps1, m, out, ks. split_and!; try done.
  - rewrite Hw, Hget. symmetry. apply Hpr. by left.
  - intros k'. rewrite Hks. unfold in_bounds. by rewrite oltb_lt.
  - split; simpl; [done|done|done|by apply bt_remove_ascending|done|].
    intros k' Hk' Hin. apply (Hdis0 k' Hk'). apply list_elem_of_fmap in Hin as (x & -> & Hx).
    apply bt_remove_elem in Hx as [Hx _]; [|done]. by apply list_elem_of_fmap_2.
  - intros x. simpl. rewrite Hc0, bounds_ge, ole_lt_or_eq. split; [|tauto]. intros [Hx [Hlt|Heq]]; [done|].
    exfalso. apply Hknc. rewrite Heq. by apply list_elem_of_fmap_2.
  - intros x. simpl. rewrite bt_remove_elem, Hd0, bounds_ge, ole_lt_or_eq by done. split.
    + intros [[Hx [Hlt|Heq]] Hne]; [done|]. by rewrite Heq in Hne.
    + intros [Hx Hlt]. split; [tauto|]. intros Heq. rewrite Heq in Hlt. by apply olt_irrefl in Hlt.
Qed.

Lemma end_part_spec ps m rows xs :
  ps_inv ps → merger_ok s m → Forall (row_ok s) rows → tagged (label (pm_key m)) (merge_whole s m rows) = xs →
  ∃ ps' out, end_part s ps m rows = Ok (ps', out) ∧ emits s (ps_packer ps) out (ps_packer ps') xs ∧ ps_inv ps' ∧
    ps_carried ps' = ps_carried ps ∧ ps_delta ps' = ps_delta ps.
Proof.
  intros Hinv Hm Hr <-. pose proof Hinv as [(Hp & Hop & Hdo) Hb Hca Hda Hus Hdis].
  pose proof (merge_whole_ok s m rows Hm Hr) as Hw. unfold end_part. rewrite push_partition_ok by done.
  cbn [result_bind]. eexists _, _. split; [done|].
  pose proof (pushed_emits s (ps_packer ps) (label (pm_key m)) (merge_whole s m rows) Hb) as Hem.
  destruct (pushed_ok s (ps_packer ps) (label (pm_key m)) (merge_whole s m rows) Hp Hop Hw) as [Hpk Hopn].
  split_and!; [exact Hem| |done|done]. split; simpl; [done|by destruct Hem|done|done|done|done].
Qed.

Lemma sorted_glue (l1 l2 : list PartitionOrderKey) k :
  StronglySorted olt l1 → StronglySorted olt l2 → (∀ x, x ∈ l1 → olt x k) → (∀ x, x ∈ l2 → olt k x) →
  StronglySorted olt (l1 ++ k :: l2).
Proof.
  intros H1 H2 Hl Hg. induction H1 as [|x l1 H1 IH Hx]; simpl.
  - constructor; [done|]. by apply Forall_forall.
  - constructor; [apply IH; intros y Hy; apply Hl; by right|]. apply Forall_app. split; [done|].
    assert (olt x k) as Hxk by (apply Hl; by left). constructor; [done|]. apply Forall_forall.
    intros y Hy. eapply cmp_lt_trans; [exact Hxk|by apply Hg].
Qed.

Lemma parts_ok_next ps ps2 k rows rest :
  ps_inv ps → ps_inv ps2 → parts_ok ps ((k, rows) :: rest) →
  (∀ x, x ∈ ps_carried ps2 ↔ x ∈ ps_carried ps ∧ olt k x.1) →
  (∀ x, x ∈ ps_delta ps2 ↔ x ∈ ps_delta ps ∧ olt k x.1) → parts_ok ps2 rest.
Proof.
  intros Hinv Hinv2 [Hso Hro Hca Huu Hde Hpr] Hc2 Hd2.
  pose proof Hso as [Hso' Hsok]%StronglySorted_inv. rewrite Forall_forall in Hsok.
  apply Forall_cons in Hro as [_ Hro]. split; [done|done| | | |].
  - intros k' Hk' Hin. apply (Hca k'); [apply keys_cons; by right|].
    apply list_elem_of_fmap in Hin as (x & -> & [Hx _]%Hc2). by apply list_elem_of_fmap_2.
  - intros k' us [Hx _]%Hc2. by apply Huu.
  - intros k' d [Hx Hlt]%Hd2 Hk'. apply Hde; [done|]. rewrite keys_cons. intros [->|?]; [|done].
    by apply olt_irrefl in Hlt.
  - intros k' rows' Hin. rewrite (Hpr k' rows') by (by right). f_equal. f_equal.
    apply bt_get_ext; [apply (pi_delta ps Hinv)|apply (pi_delta ps2 Hinv2)|]. intros v. rewrite Hd2. simpl.
    assert (olt k k'); [|tauto]. apply Hsok. by apply (list_elem_of_fmap_2 fst) in Hin.
Qed.

Lemma whole_parts_spec parts : ∀ ps lc,
  ps_inv ps → parts_ok ps parts → (∀ l k, lc = Some l → k ∈ parts.*1 → olt l k) →
  ∃ ps' out ks, whole_parts s sort_keys ps lc parts = Ok (ps', out) ∧
    emits s (ps_packer ps) out (ps_packer ps') (concat (content <$> ks)) ∧ StronglySorted olt ks ∧
    (∀ k, k ∈ ks ↔ k ∈ parts.*1 ∨ keys_of ps k ∧ passed parts k) ∧ ps_inv ps' ∧
    (∀ x, x ∈ ps_carried ps' ↔ x ∈ ps_carried ps ∧ ∀ k', k' ∈ parts.*1 → olt k' x.1) ∧
    (∀ x, x ∈ ps_delta ps' ↔ x ∈ ps_delta ps ∧ ∀ k', k' ∈ parts.*1 → olt k' x.1).
Proof using Hidx ArrowKernelsLaws0.
  induction parts as [|[k rows] rest IH]; intros ps lc Hinv Hpo Hlc.
  { exists ps, [], []. split; [done|]. split_and!; [apply emits_refl, Hinv|constructor| |done| |]; unfold passed; set_solver. }
  destruct (begin_part_spec ps lc k rows rest Hinv Hpo) as
    (ps1 & m & o1 & ks1 & Hbp & Hmk & Hmo & Hcont & Hem1 & Hso1 & Hks1 & Hinv1 & Hc1 & Hd1).
  { intros l Hl. apply (Hlc l k Hl), keys_cons. by left. }
  pose proof (po_rows _ _ Hpo) as [Hrk _]%Forall_cons. simpl in Hrk. rewrite <- Hmk in Hcont.
  destruct (end_part_spec ps1 m rows _ Hinv1 Hmo Hrk Hcont) as (ps2 & o2 & Hep & Hem2 & Hinv2 & Hc2 & Hd2).
  rewrite <- Hc2 in Hc1. rewrite <- Hd2 in Hd1.
  pose proof (po_sorted _ _ Hpo) as [_ Hsok]%StronglySorted_inv. rewrite Forall_forall in Hsok.
  destruct (IH ps2 (Some k) Hinv2 (parts_ok_next ps ps2 k rows rest Hinv Hinv2 Hpo Hc1 Hd1)) as
    (ps3 & o3 & ks3 & Hwp & Hem3 & Hso3 & Hks3 & Hinv3 & Hc3 & Hd3).
  { intros l k' [= <-] Hk'. by apply Hsok. }
  exists ps3, (o1 ++ o2 ++ o3), (ks1 ++ k :: ks3).
  assert (∀ k', keys_of ps2 k' ↔ keys_of ps k' ∧ olt k k') as Hkeys.
  { intros k'. unfold keys_of. split.
    - intros [Hin|Hin]; apply list_elem_of_fmap in Hin as (x & -> & [Hx Hlt]%Hc1) || apply list_elem_of_fmap in Hin as (x & -> & [Hx Hlt]%Hd1);
        (split; [|done]); [left|right]; by apply list_elem_of_fmap_2.
    - intros [[Hin|Hin] Hlt]; apply list_elem_of_fmap in Hin as (x & -> & Hx); [left|right];
        apply list_elem_of_fmap_2; [by apply Hc1|by apply Hd1]. }
  split_and!.
  - simpl. rewrite Hbp. cbn [result_bind]. rewrite Hep. cbn [result_bind fst snd]. by rewrite Hwp.
  - rewrite fmap_app, concat_app, fmap_cons. cbn [concat]. rewrite Hmk in Hem2.
    exact (emits_trans s _ _ _ _ _ _ _ Hem1 (emits_trans s _ _ _ _ _ _ _ Hem2 Hem3)).
  - apply sorted_glue; [done|done|by intros x [? _]%Hks1|]. intros x [Hx|[Hx _]]%Hks3; [by apply Hsok|].
    by apply Hkeys in Hx as [_ ?].
  - intros k'. rewrite elem_of_app, elem_of_cons, Hks1, Hks3, keys_cons, Hkeys. unfold passed. split.
    + intros [[Hlt Hk']|[->|[Hin|[[Hk' Hlt] (k2 & Hk2 & Hlt2)]]]]; [|by left; left|by left; right|].
      * right. split; [done|]. exists k. split; [|done]. apply keys_cons. by left.
      * right. split; [done|]. exists k2. split; [|done]. apply keys_cons. by right.
    + intros [[->|Hin]|[Hk' (k2 & Hk2 & Hlt2)]]; [by right; left|by right; right; left|].
      destruct (olt_trichotomy k' k) as [Hlt|[->|Hlt]]; [by left|by right; left|].
      right. right. right. split; [done|]. apply keys_cons in Hk2 as [->|Hk2]; [|by exists k2].
      exfalso. apply (olt_irrefl k). by eapply cmp_lt_trans.
  - done.
  - intros x. rewrite Hc3, Hc1. split.
    + intros [[Hx Hlt] Hall]. split; [done|]. intros k' [->|Hk']%keys_cons; [done|by apply Hall].
    + intros [Hx Hall]. split; [split; [done|apply Hall, keys_cons; by left]|]. intros k' Hk'. apply Hall, keys_cons. by right.
  - intros x. rewrite Hd3, Hd1. split.
    + intros [[Hx Hlt] Hall]. split; [done|]. intros k' [->|Hk']%keys_cons; [done|by apply Hall].
    + intros [Hx Hall]. split; [split; [done|apply Hall, keys_cons; by left]|]. intros k' Hk'. apply Hall, keys_cons. by right.
Qed.

End drain.

(** ** The packed snapshot *)

Section packed.
Context {R : Type} `{RowCells R} {K : ArrowKernels} `{!ArrowKernelsLaws K} {N : SegmentNaming} {C : StatsCodec}.
Context (s : schema) (sort_keys : list Z) (sidx pidx : list nat) (o : PartitionOrdering).
Context (Hsidx : key_indices Internal s sort_keys = Ok sidx).
Context (Hpidx : key_indices InvalidRequest s (po_keys o) = Ok pidx).

Notation row_key := (row_order_key s o pidx).

(** The content of partition [k]: its carried segments, or its prior rows merged
    with its delta. *)
Definition partition_content (carried : list (PartitionOrderKey * list Z)) (delta prior : list (PartitionOrderKey * list R))
    (k : PartitionOrderKey) : list (laid_row (R := R)) :=
  match bt_get k carried with
  | Some us => inr <$> us
  | None => tagged (label k) (part_rows s sort_keys sidx (default [] (bt_get k prior)) (bt_get k delta))
  end.

Lemma key_delta_ascending groups : ∀ m d, ascending m → key_delta s o groups m = Ok d → ascending d.
Proof.
  induction groups as [|[l b] groups IH]; intros m d Hm; simpl; [by intros [= <-]|].
  destruct b as [|r b]; [by apply IH|]. destruct (batch_order_key s o (r :: b) l) as [key|]; [|done].
  cbn [result_bind]. apply IH. by apply bt_insert_ascending.
Qed.

Lemma content_parts_ok snap cap carried delta prior :
  ascending carried → Forall (λ x, x.2 ≠ []) carried → ascending delta → ascending prior →
  Forall (λ x, Forall (row_ok s) x.2) delta → Forall (λ x, Forall (row_ok s) x.2) prior →
  (∀ k, k ∈ carried.*1 → k ∉ delta.*1 ∧ k ∉ prior.*1) →
  let ps := {| ps_packer := SegmentPacker_new snap cap; ps_carried := carried; ps_delta := delta |} in
  ps_inv s ps ∧ parts_ok s sort_keys sidx (partition_content carried delta prior) ps prior.
Proof.
  intros Hc Hus Hd Hp Hdo Hpo Hdis. split.
  - split; simpl; [split_and!; [constructor|done|done]|split_and!; [constructor|done|by left]|done|done|done|].
    intros k Hk. by apply Hdis.
  - split; simpl; [done|done| | | |].
    + intros k Hk Hk'. by apply (Hdis k Hk').
    + intros k us Hin. unfold partition_content. by apply bt_get_Some in Hin as ->.
    + intros k d Hin Hk. unfold partition_content.
      assert (bt_get k carried = None) as ->.
      { apply bt_get_None; [done|]. intros Hk'. destruct (Hdis k Hk') as [Hn _]. apply Hn. by apply (list_elem_of_fmap_2 fst _ (k, d)). }
      apply bt_get_Some in Hin as ->; [|done]. apply bt_get_None in Hk as ->; done.
    + intros k rows Hin. unfold partition_content.
      assert (bt_get k carried = None) as ->.
      { apply bt_get_None; [done|]. intros Hk'. destruct (Hdis k Hk') as [_ Hn]. apply Hn. by apply (list_elem_of_fmap_2 fst _ (k, rows)). }
      by apply bt_get_Some in Hin as ->.
Qed.

Lemma pack_whole_layout snap cap groups prior_rows carried delta :
  key_delta s o groups [] = Ok delta →
  Forall (λ g, Forall (row_ok s) g.2) groups → Forall (row_ok s) prior_rows →
  StronglySorted olt ((key_runs row_key prior_rows).*1) →
  ascending carried → Forall (λ x, x.2 ≠ []) carried →
  (∀ k, k ∈ carried.*1 → k ∉ delta.*1 ∧ k ∉ (key_runs row_key prior_rows).*1) →
  ∃ steps ks n, pack_whole s groups prior_rows o pidx sort_keys carried (SegmentPacker_new snap cap) = Ok steps ∧
    StronglySorted olt ks ∧ (∀ k, k ∈ ks ↔ k ∈ carried.*1 ∨ k ∈ delta.*1 ∨ k ∈ (key_runs row_key prior_rows).*1) ∧
    concat (laid <$> steps) = concat (partition_content carried delta (key_runs row_key prior_rows) <$> ks) ∧
    concat (step_idxs <$> steps) = seq 0 n ∧ Forall (step_shape s snap cap) steps.
Proof using Hsidx ArrowKernelsLaws0.
  intros Hkd Hgo Hpo Hso Hca Hus Hdis. set (prior := key_runs row_key prior_rows) in *.
  assert (Forall (λ x, Forall (row_ok s) x.2) prior) as Hpro.
  { apply Forall_forall. intros [k rows] [_ Hin]%key_runs_elem. apply Forall_forall. intros r Hr.
    rewrite Forall_forall in Hpo. apply Hpo, Hin, Hr. }
  pose proof (key_delta_ascending groups [] delta (SSorted_nil _) Hkd) as Hda.
  pose proof (key_delta_ok s o groups [] delta Hgo (List.Forall_nil _) Hkd) as Hdo.
  destruct (content_parts_ok snap cap carried delta prior Hca Hus Hda Hso Hdo Hpro Hdis) as [Hinv Hparts].
  set (content := partition_content carried delta prior) in *.
  set (ps := {| ps_packer := SegmentPacker_new snap cap; ps_carried := carried; ps_delta := delta |}) in *.
  destruct (whole_parts_spec s sort_keys sidx Hsidx content prior ps None Hinv Hparts) as
    (ps1 & o1 & ks1 & Hwp & Hem1 & Hso1 & Hks1 & Hinv1 & Hc1 & Hd1); [done|].
  destruct (drain_loop_spec s sort_keys sidx Hsidx content None (length (ps_carried ps1) + length (ps_delta ps1)) ps1
             (Nat.le_refl _) Hinv1) as (ps2 & o2 & ks2 & Hdr & Hem2 & Hso2 & Hks2 & Hinv2 & Hc2 & Hd2).
  { split; [intros k us [Hin _]%Hc1; by apply (po_uuids _ _ _ _ _ _ Hparts)|].
    intros k d [Hin Hall]%Hd1 _. apply (po_delta _ _ _ _ _ _ Hparts); [done|]. intros Hk. simpl in Hall.
    by apply Hall, olt_irrefl in Hk. }
  unfold pack_whole. rewrite Hkd. cbn [result_bind]. fold ps prior. rewrite Hwp. cbn [result_bind fst snd].
  unfold drain_below. rewrite Hdr. cbn [result_bind fst snd]. unfold finish.
  pose proof (pi_ok _ _ Hinv2) as (Hp2 & _ & _). rewrite (flush_ok s _ Hp2). cbn [result_bind fst snd].
  destruct (flush_emits s (ps_packer ps2) (pi_buf _ _ Hinv2)) as [Hem3 _].
  pose proof (emits_trans s _ _ _ _ _ _ _ Hem1 (emits_trans s _ _ _ _ _ _ _ Hem2 Hem3)) as [Hr (n & Hi & _) Hs _ _ _].
  exists (o1 ++ o2 ++ (PackFile <$> flush_steps s (ps_packer ps2))), (ks1 ++ ks2), n. split_and!; [done| | | |done|done].
  - assert (∀ k1 k2, k1 ∈ ks1 → k2 ∈ ks2 → olt k1 k2) as Hlt.
    { intros k1 k2 Hk1 [_ Hk2]%Hks2.
      assert (∀ k', k' ∈ prior.*1 → olt k' k2) as Hall.
      { destruct Hk2 as [Hin|Hin]; apply list_elem_of_fmap in Hin as (x & -> & Hx);
          [by apply Hc1 in Hx as [_ ?]|by apply Hd1 in Hx as [_ ?]]. }
      apply Hks1 in Hk1 as [Hk1|[_ (k' & Hk' & Hlt)]]; [by apply Hall|].
      eapply cmp_lt_trans; [exact Hlt|by apply Hall]. }
    clear -Hso1 Hso2 Hlt. induction Hso1 as [|x l Hs IH Hx]; simpl; [done|]. constructor.
    + apply IH. intros y z Hy. apply Hlt. by right.
    + apply Forall_app. split; [done|]. apply Forall_forall. intros y Hy. apply Hlt; [by left|done].
  - intros k. rewrite elem_of_app, Hks1, Hks2.
    assert (keys_of ps k ↔ k ∈ carried.*1 ∨ k ∈ delta.*1) as Hkps by done. split.
    + intros [[Hk|[Hk _]]|[_ [Hin|Hin]]]; [tauto|tauto|left|right; left];
        apply list_elem_of_fmap in Hin as (x & -> & Hx);
        [apply Hc1 in Hx as [Hx _]|apply Hd1 in Hx as [Hx _]]; by apply list_elem_of_fmap_2.
    + intros Hk. destruct (decide (k ∈ prior.*1)) as [Hp|Hp]; [by left; left|].
      assert (keys_of ps k) as Hkk by tauto.
      destruct (decide (Exists (olt k) (prior.*1))) as [Hex|Hno].
      { left. right. split; [done|]. apply Exists_exists in Hex as (k' & ? & ?). by exists k'. }
      assert (∀ k', k' ∈ prior.*1 → olt k' k) as Hall.
      { intros k' Hk'. destruct (olt_trichotomy k' k) as [?|[->|?]]; [done|done|]. exfalso. apply Hno, Exists_exists. by exists k'. }
      right. split; [done|]. destruct Hkk as [Hin|Hin]; apply list_elem_of_fmap in Hin as (x & -> & Hx); [left|right];
        apply list_elem_of_fmap_2; [by apply Hc1|by apply Hd1].
  - unfold pending in Hr. rewrite flushed_buffered in Hr. simpl in Hr. rewrite !app_nil_r in Hr.
    by rewrite Hr, fmap_app, concat_app.
Qed.

(** ** Delta groups and their keys *)

Lemma key_indices_error e e' keys idxs : key_indices e s keys = Ok idxs → key_indices e' s keys = Ok idxs.
Proof.
  revert idxs. induction keys as [|k keys IH]; intros idxs; simpl; [done|].
  destruct (index_of s k); [|done]. destruct (key_indices e s keys) as [l|]; [|done].
  cbn [result_bind]. rewrite (IH l eq_refl). done.
Qed.

Definition group_key (g : option (list Z) * list R) : PartitionOrderKey :=
  match g.2 with r :: _ => order_key_at o pidx r g.1 | [] => (None, None) end.

Lemma batch_key r b l : batch_order_key s o (r :: b) l = Ok (group_key (l, r :: b)).
Proof using Hpidx.
  unfold batch_order_key, group_key. simpl. destruct (po_keys o) as [|k ks] eqn:E.
  - simpl in Hpidx. by injection Hpidx as <-.
  - rewrite (key_indices_error _ Internal _ _ Hpidx). done.
Qed.

Lemma key_delta_perm groups : ∀ m,
  ascending m → NoDup (m.*1 ++ (group_key <$> filter (λ g, g.2 ≠ []) groups)) →
  ∃ d, key_delta s o groups m = Ok d ∧ ascending d ∧
    d ≡ₚ m ++ ((λ g, (group_key g, g.2)) <$> filter (λ g, g.2 ≠ []) groups).
Proof using Hpidx.
  induction groups as [|[l b] groups IH]; intros m Hm Hnd; simpl; [exists m; by rewrite app_nil_r|].
  destruct b as [|r b].
  { rewrite filter_cons_False in Hnd |- * by (simpl; tauto). by apply IH. }
  rewrite filter_cons_True in Hnd |- * by done. rewrite batch_key. cbn [result_bind].
  rewrite fmap_cons in Hnd. set (gk := group_key (l, r :: b)) in *.
  assert (gk ∉ m.*1) as Hfresh.
  { apply NoDup_app in Hnd as (_ & Hd & _). intros Hin. apply (Hd _ Hin). by left. }
  pose proof (bt_insert_fresh gk (r :: b) m Hm Hfresh) as Hins.
  destruct (IH (bt_insert gk (r :: b) m)) as (d & Hd & Had & Hp).
  - by apply bt_insert_ascending.
  - rewrite Hins. simpl. revert Hnd. rewrite <- Permutation_middle. done.
  - exists d. split_and!; [done|done|]. rewrite Hp, Hins. simpl. rewrite <- Permutation_middle. done.
Qed.

End packed.
