(* ===== verification/PackCycle.v ===== *)
(** * A packing cycle, and the next one

    [pack_cycle] groups the resolved delta and packs it with the prior stream
    and the carried segments, as both write paths of the snapshot operation do.
    Its steps hold every row once, and their rows, read in chunk order, again
    form partitions in strictly ascending order: the state the next cycle's
    order check requires. *)

From S2P Require Import Prelude CoreTypes IndexSelect Ordered Chunker BatchUtil SegmentStats Packer PackLemmas PackMerge PackStream PackTheorems.
From stdpp Require Import base numbers list option sets sorting.

Open Scope Z_scope.
Open Scope result_scope.

Section cycle.
Context {R : Type} `{RowCells R} {K : ArrowKernels} {N : SegmentNaming} {C : StatsCodec} (s : schema).

Definition pack_cycle (partition_keys sort_keys : list Z) (resolved : list R) (snapshot_stream : list (list R))
    (carried : list (PartitionOrderKey * list Z)) (snap cap : Z) : result ApiError (list (PackStep R)) :=
  let? o := PartitionOrdering_new s partition_keys in
  let? delta_groups := partition_record_batch s resolved partition_keys in
  pack_merged_partition_stream s delta_groups snapshot_stream o sort_keys carried (SegmentPacker_new snap cap).

(** The rows a packed snapshot shows: fresh rows, and carried segments through
    the prior snapshot's [seg_rows]. *)
Definition resolve_laid (seg_rows : Z → list R) (x : laid_row (R := R)) : list R :=
  match x with inl (_, r) => [r] | inr u => seg_rows u end.

Definition step_rows (seg_rows : Z → list R) (steps : list (PackStep R)) : list R :=
  concat (resolve_laid seg_rows <$> concat (laid <$> steps)).

End cycle.

(** ** Blocks of one key *)

Section blocks.
Context {R : Type} (key : R → PartitionOrderKey).

Definition block_ok (b : PartitionOrderKey * list R) : Prop := b.2 ≠ [] ∧ ∀ r, r ∈ b.2 → key r = b.1.

Lemma key_runs_const k rows : rows ≠ [] → (∀ r, r ∈ rows → key r = k) → key_runs key rows = [(k, rows)].
Proof.
  induction rows as [|r rows IH]; [done|]. intros _ Hk. rewrite key_runs_cons.
  rewrite (Hk r) by (by left). destruct rows as [|r' rows]; [done|].
  rewrite IH; [|done|intros x Hx; apply Hk; by right]. simpl. by rewrite decide_True.
Qed.

Lemma join_key_runs rows : join_runs (key_runs key rows) = key_runs key rows.
Proof. pose proof (key_runs_app key rows [] [] eq_refl) as Hj. by rewrite !app_nil_r in Hj. Qed.

Lemma key_runs_blocks blocks :
  Forall block_ok blocks → StronglySorted olt (blocks.*1) → key_runs key (concat (blocks.*2)) = blocks.
Proof.
  induction 1 as [|[k b] blocks [Hne Hk] Hb IH]; intros Hs; [done|].
  rewrite fmap_cons in Hs. apply StronglySorted_inv in Hs as [Hs Hf]. simpl in *.
  rewrite <- (key_runs_app key b (key_runs key (concat (blocks.*2)))) by apply join_key_runs.
  rewrite (IH Hs), (key_runs_const k b Hne Hk). simpl. pose proof (join_key_runs (concat (blocks.*2))) as Hj.
  rewrite (IH Hs) in Hj. rewrite Hj. destruct blocks as [|[k' b'] blocks]; [done|].
  rewrite decide_False; [done|]. apply Forall_cons in Hf as [Hlt _]. by apply olt_ne.
Qed.

End blocks.

Lemma bt_get_skip {K V} `{CmpLaws K} (k k0 : K) (v0 : V) m :
  ascending ((k0, v0) :: m) → k ≠ k0 → bt_get k ((k0, v0) :: m) = bt_get k m.
Proof.
  intros Ha Hne. pose proof Ha as [Hm Hk0]%ascending_cons. apply option_eq. intros v.
  rewrite !bt_get_Some by done. rewrite elem_of_cons. split; [intros [[= -> ->]|?]; done|by right].
Qed.

(** Reading a map at every key of a list that covers it. *)
Lemma concat_bt_get {K V} `{CmpLaws K} (m : list (K * list V)) : ∀ ks,
  ascending m → NoDup ks → (∀ k, k ∈ m.*1 → k ∈ ks) →
  concat ((λ k, default [] (bt_get k m)) <$> ks) ≡ₚ concat (m.*2).
Proof.
  induction m as [|[k0 v0] m IH]; intros ks Hm Hnd Hcov.
  - simpl. clear. induction ks as [|k ks IH]; simpl; done.
  - assert (k0 ∈ ks) as Hin by (apply Hcov; rewrite fmap_cons; by left).
    apply elem_of_Permutation in Hin as (ks' & Hp). rewrite Hp in Hnd |- *. apply NoDup_cons in Hnd as [Hn Hnd].
    rewrite !fmap_cons. cbn [concat snd].
    assert (bt_get k0 ((k0, v0) :: m) = Some v0) as -> by (simpl; by rewrite cmp_refl). cbn [default id]. f_equiv.
    pose proof Hm as [Hm' Hk0]%ascending_cons. rewrite <- (IH ks' Hm' Hnd).
    + clear -Hm Hn H H0. induction ks' as [|k ks' IHk]; [done|]. rewrite !fmap_cons. cbn [concat].
      apply not_elem_of_cons in Hn as [Hne Hn]. rewrite (bt_get_skip k k0 v0 m Hm) by done.
      by rewrite (IHk Hn).
    + intros k Hk. assert (k ∈ ks) as Hks by (apply Hcov; rewrite fmap_cons; by right).
      rewrite Hp in Hks. apply elem_of_cons in Hks as [->|?]; [|done]. exfalso. apply (olt_irrefl k0). by apply Hk0.
Qed.

Lemma concat_fmap_app {A B} (f g : A → list B) l :
  concat ((λ x, f x ++ g x) <$> l) ≡ₚ concat (f <$> l) ++ concat (g <$> l).
Proof.
  induction l as [|x l IH]; [done|]. rewrite !fmap_cons. cbn [concat]. rewrite IH.
  rewrite <- !app_assoc. f_equiv. apply Permutation_app_swap_app.
Qed.

Lemma concat_fmap_perm {A B} (f g : A → list B) l :
  (∀ x, x ∈ l → f x ≡ₚ g x) → concat (f <$> l) ≡ₚ concat (g <$> l).
Proof.
  induction l as [|x l IH]; intros Hfg; [done|]. rewrite !fmap_cons. cbn [concat].
  rewrite (Hfg x) by (by left). rewrite IH; [done|]. intros y Hy. apply Hfg. by right.
Qed.

(** ** The cycle *)

Section cycle_correct.
Context {R : Type} `{RowCells R} {K : ArrowKernels} `{!ArrowKernelsLaws K} {N : SegmentNaming} {C : StatsCodec}.
Context (s : schema) (partition_keys sort_keys : list Z) (sidx pidx : list nat).
Context (Hsidx : key_indices Internal s sort_keys = Ok sidx).
Context (Hpidx : key_indices InvalidRequest s partition_keys = Ok pidx).

(** The ordering [PartitionOrdering_new] builds for these keys. *)
Definition cycle_ordering : PartitionOrdering :=
  {| po_keys := partition_keys;
     converter := match partition_keys with [] => None | _ => Some (field_types s pidx) end |}.

Definition cycle_key : R → PartitionOrderKey := row_order_key s cycle_ordering pidx.

Lemma ordering_new : PartitionOrdering_new s partition_keys = Ok cycle_ordering.
Proof using Hpidx.
  unfold PartitionOrdering_new, cycle_ordering. destruct partition_keys as [|k ks] eqn:E; [done|].
  unfold partition_sort_fields. by rewrite (key_indices_error s _ Internal _ _ Hpidx).
Qed.

Lemma cycle_idx : key_indices InvalidRequest s (po_keys cycle_ordering) = Ok pidx.
Proof using Hpidx. exact Hpidx. Qed.

(** Rows with one partition label have one typed key. *)
Definition labels_typed (rows : list R) : Prop :=
  ∀ r r', r ∈ rows → r' ∈ rows → label (cycle_key r) = label (cycle_key r') → cycle_key r = cycle_key r'.

Lemma partition_groups_perm rows :
  partition_keys ≠ [] → ∃ groups, partition_record_batch s rows partition_keys = Ok groups ∧
    groups ≡ₚ (λ g, (Some g.1, g.2)) <$> group_rows (field_types s pidx) pidx rows.
Proof using Hpidx.
  intros Hne. unfold partition_record_batch. rewrite ordering_new, Hpidx. cbn [result_bind].
  destruct partition_keys as [|k ks]; [done|]. eexists. split; [done|].
  rewrite merge_sort_Permutation, <- list_fmap_compose. done.
Qed.

(** A row's key when the table is partitioned. *)
Lemma cycle_key_partitioned r :
  partition_keys ≠ [] →
  cycle_key r = order_key_at cycle_ordering pidx r (Some (partition_label (field_types s pidx) (key_cells pidx r))).
Proof.
  intros Hne. unfold cycle_key, row_order_key, cycle_ordering. simpl. by destruct partition_keys.
Qed.

Lemma group_key_partitioned l r g :
  partition_keys ≠ [] → labelled (field_types s pidx) pidx l r →
  group_key pidx cycle_ordering (Some l, r :: g) = cycle_key r.
Proof. intros Hne <-. by rewrite (cycle_key_partitioned r Hne). Qed.

(** The groups of a batch, keyed: each non-empty group under its first row's
    key, no key twice, all the batch's rows. *)
Definition groups_keyed (rows : list R) (groups : list (option (list Z) * list R)) : Prop :=
  NoDup (group_key pidx cycle_ordering <$> filter (λ g, g.2 ≠ []) groups) ∧
  concat (groups.*2) ≡ₚ rows ∧
  ∀ l r g, (l, r :: g) ∈ groups →
    group_key pidx cycle_ordering (l, r :: g) = cycle_key r ∧
    ∀ r', r' ∈ r :: g → r' ∈ rows ∧ label (cycle_key r') = label (cycle_key r).

Lemma partition_groups rows : ∃ groups, partition_record_batch s rows partition_keys = Ok groups ∧ groups_keyed rows groups.
Proof using Hpidx.
  destruct (decide (partition_keys = [])) as [Hnil|Hne].
  - exists [(None, rows)]. unfold partition_record_batch. rewrite Hnil. split; [done|]. split_and!.
    + rewrite filter_cons. destruct (decide _); simpl; [apply NoDup_singleton|constructor].
    + simpl. by rewrite app_nil_r.
    + intros l r g [= -> <-]%list_elem_of_singleton. unfold cycle_key, row_order_key, group_key, cycle_ordering.
      rewrite Hnil. by split.
  - destruct (partition_groups_perm rows Hne) as (groups & Hok & Hp). exists groups. split; [done|].
    set (gr := group_rows (field_types s pidx) pidx rows) in *.
    assert (∀ l g, (l, g) ∈ groups → ∃ l', l = Some l' ∧ g = filter (labelled (field_types s pidx) pidx l') rows ∧ g ≠ []) as Hel.
    { intros l g Hin. rewrite Hp in Hin. apply list_elem_of_fmap in Hin as ([l' g'] & [= -> ->] & Hin).
      apply group_rows_elem in Hin as [? ?]. by exists l'. }
    split_and!.
    + assert (filter (λ g, g.2 ≠ []) groups ≡ₚ (λ g, (Some g.1, g.2)) <$> gr) as Hf.
      { rewrite <- Hp. clear Hp Hok. induction groups as [|[l g] groups IH]; [done|].
        rewrite filter_cons_True by (destruct (Hel l g) as (? & _ & _ & ?); [by left|done]).
        f_equiv. apply IH. intros l' g' Hin. apply Hel. by right. }
      rewrite Hf, <- list_fmap_compose. assert (NoDup (gr.*1)) as Hnd by (apply ascending_NoDup, group_rows_ascending).
      assert (∀ l g, (l, g) ∈ gr → label (group_key pidx cycle_ordering (Some l, g)) = Some l) as Hlab.
      { intros l g Hin. apply group_rows_elem in Hin as [_ Hg]. by destruct g. }
      clear -Hnd Hlab. clearbody gr. induction gr as [|[l g] gr IH]; [constructor|]. rewrite fmap_cons in Hnd. rewrite fmap_cons.
      apply NoDup_cons in Hnd as [Hn Hnd]. constructor; [|apply IH; [done|intros l' g' Hin; apply Hlab; by right]].
      intros ([l' g'] & Heq & Hin)%list_elem_of_fmap. simpl in Heq. apply Hn.
      assert (l = l') as ->; [|by apply (list_elem_of_fmap_2 fst) in Hin].
      pose proof (Hlab l g (list_elem_of_here _ _)) as H1. pose proof (Hlab l' g' (list_elem_of_further _ _ _ Hin)) as H2.
      rewrite <- Heq in H2. rewrite H1 in H2. by injection H2.
    + rewrite Hp, <- list_fmap_compose. apply (group_rows_concat (field_types s pidx) pidx rows).
    + intros l r g Hin. destruct (Hel l (r :: g) Hin) as (l' & -> & Hg & _).
      assert (∀ r', r' ∈ r :: g → labelled (field_types s pidx) pidx l' r' ∧ r' ∈ rows) as Hall.
      { intros r'. rewrite Hg, list_elem_of_filter. done. }
      split; [apply (group_key_partitioned l' r g Hne); by apply Hall; left|]. intros r' Hr'.
      destruct (Hall r' Hr') as [Hl' ?]. destruct (Hall r (list_elem_of_here _ _)) as [Hl _]. split; [done|].
      rewrite !cycle_key_partitioned by done. unfold label, order_key_at, order_key_from_key_arrays. simpl.
      unfold labelled in *. by rewrite Hl', Hl.
Qed.

(** The delta map of a batch whose labels are typed: blocks of one key. *)
Lemma keyed_delta rows groups :
  labels_typed rows → groups_keyed rows groups →
  ∃ d, key_delta s cycle_ordering groups [] = Ok d ∧ ascending d ∧ Forall (block_ok cycle_key) d ∧ concat (d.*2) ≡ₚ rows.
Proof using Hpidx.
  intros Htyped (Hnd & Hcat & Hg).
  destruct (key_delta_perm s pidx cycle_ordering cycle_idx groups [] (SSorted_nil _) Hnd) as (d & Hd & Ha & Hp).
  exists d. split_and!; [done|done| |].
  - apply Forall_forall. intros [k D] Hin. rewrite Hp in Hin. cbn [app] in Hin.
    apply list_elem_of_fmap in Hin as ([l g] & [= -> ->] & [Hne Hin]%list_elem_of_filter). split; [done|].
    simpl in *. destruct g as [|r g]; [done|]. destruct (Hg l r g Hin) as [-> Hr]. intros r' Hr'.
    destruct (Hr r' Hr') as [Hin' Hl]. apply Htyped; [done| |done]. apply Hr. by left.
  - rewrite Hp, <- Hcat. cbn [app]. rewrite <- list_fmap_compose. clear.
    induction groups as [|[l g] groups IH]; [done|]. rewrite filter_cons. simpl. destruct (decide (g ≠ [])) as [Hne|Hne]; simpl.
    + by rewrite IH.
    + destruct g; [done|]. by destruct Hne.
Qed.

(** The carried partitions, read through the prior snapshot. *)
Definition carried_rows (seg_rows : Z → list R) (carried : list (PartitionOrderKey * list Z)) :
    list (PartitionOrderKey * list R) :=
  (λ c, (c.1, concat (seg_rows <$> c.2))) <$> carried.

Lemma carried_rows_keys seg_rows carried : (carried_rows seg_rows carried).*1 = carried.*1.
Proof. unfold carried_rows. rewrite <- list_fmap_compose. by apply list_fmap_ext. Qed.

Lemma resolve_tagged seg_rows l rows : concat (resolve_laid seg_rows <$> tagged (R := R) l rows) = rows.
Proof. induction rows as [|r rows IH]; simpl; [done|]. f_equal. exact IH. Qed.

Lemma resolve_carried (seg_rows : Z → list R) us :
  concat (resolve_laid seg_rows <$> (inr <$> us : list (laid_row (R := R)))) = concat (seg_rows <$> us).
Proof. induction us as [|u us IH]; simpl; [done|]. f_equal. exact IH. Qed.

Lemma bt_get_carried seg_rows carried k :
  bt_get k (carried_rows seg_rows carried) = (λ us, concat (seg_rows <$> us)) <$> bt_get k carried.
Proof.
  induction carried as [|[k0 us] carried IH]; [done|]. simpl. by destruct (cmp k k0).
Qed.

(** A partition of the packed snapshot is a block of one key. *)
Lemma content_block seg_rows carried delta prior k :
  Forall (block_ok cycle_key) (carried_rows seg_rows carried) → Forall (block_ok cycle_key) delta →
  Forall (block_ok cycle_key) prior → ascending carried → ascending delta → ascending prior →
  (∀ k, k ∈ carried.*1 → k ∉ delta.*1 ∧ k ∉ prior.*1) →
  k ∈ carried.*1 ∨ k ∈ delta.*1 ∨ k ∈ prior.*1 →
  let rows := concat (resolve_laid seg_rows <$> partition_content s sort_keys sidx carried delta prior k) in
  block_ok cycle_key (k, rows) ∧
  rows ≡ₚ default [] (bt_get k (carried_rows seg_rows carried)) ++ default [] (bt_get k prior) ++ default [] (bt_get k delta).
Proof using Hsidx ArrowKernelsLaws0.
  intros Hcb Hdb Hpb Hca Hda Hpa Hdis Hk rows. unfold rows, partition_content. rewrite bt_get_carried.
  assert (∀ m D, Forall (block_ok cycle_key) m → ascending m → bt_get k m = Some D → block_ok cycle_key (k, D)) as Hblk.
  { intros m D Hm Ha Hg. apply bt_get_Some in Hg; [|done]. rewrite Forall_forall in Hm. by apply Hm. }
  destruct (bt_get k carried) as [us|] eqn:Ec.
  - rewrite resolve_carried. simpl.
    assert (k ∈ carried.*1) as Hkc by (apply bt_get_Some in Ec; [|done]; by apply (list_elem_of_fmap_2 fst) in Ec).
    destruct (Hdis k Hkc) as [Hn1 Hn2]. apply bt_get_None in Hn1 as ->; [|done]. apply bt_get_None in Hn2 as ->; [|done].
    simpl. rewrite app_nil_r. split; [|done].
    apply bt_get_Some in Ec; [|done]. rewrite Forall_forall in Hcb. apply (Hcb (k, concat (seg_rows <$> us))).
    unfold carried_rows. by apply (list_elem_of_fmap_2 (λ c, (c.1, concat (seg_rows <$> c.2))) _ (k, us)).
  - rewrite resolve_tagged. cbn [fmap option_fmap option_map default app].
    pose proof (part_rows_perm s sort_keys sidx Hsidx (default [] (bt_get k prior)) (bt_get k delta)) as Hperm.
    split; [|done]. split; cbn [fst snd].
    + intros Hnil. rewrite Hnil in Hperm. apply Permutation_nil in Hperm as [Hn1 Hn2]%app_nil.
      apply bt_get_None in Ec; [|done]. destruct Hk as [Hk|[Hk|Hk]]; [done| |].
      * destruct (bt_get k delta) as [D|] eqn:Ed; [|by apply bt_get_None in Ed]. by apply (Hblk delta D Hdb Hda) in Ed as [? _].
      * destruct (bt_get k prior) as [D|] eqn:Ed; [|by apply bt_get_None in Ed]. by apply (Hblk prior D Hpb Hpa) in Ed as [? _].
    + intros r Hr. rewrite Hperm, elem_of_app in Hr. destruct Hr as [Hr|Hr].
      * destruct (bt_get k prior) as [D|] eqn:Ed; [|by apply elem_of_nil in Hr]. apply (Hblk prior D Hpb Hpa) in Ed as [_ Hd]. by apply Hd.
      * destruct (bt_get k delta) as [D|] eqn:Ed; [|by apply elem_of_nil in Hr]. apply (Hblk delta D Hdb Hda) in Ed as [_ Hd]. by apply Hd.
Qed.

(** What a cycle starts from: rows the chunker can cost, typed labels in the
    delta, prior partitions in strictly ascending order, and carried partitions
    that neither the delta nor the prior stream touches. *)
Record cycle_inputs (resolved : list R) (stream : list (list R)) (carried : list (PartitionOrderKey * list Z))
    (seg_rows : Z → list R) : Prop := {
  ci_delta : Forall (row_ok s) resolved;
  ci_stream : Forall (Forall (row_ok s)) stream;
  ci_labels : labels_typed resolved;
  ci_order : StronglySorted olt ((key_runs cycle_key (concat stream)).*1);
  ci_carried : ascending carried;
  ci_blocks : Forall (block_ok cycle_key) (carried_rows seg_rows carried);
  ci_disjoint : ∀ r, r ∈ resolved ++ concat stream → cycle_key r ∉ carried.*1;
}.

Lemma key_runs_block_ok (rows : list R) : Forall (block_ok cycle_key) (key_runs cycle_key rows).
Proof.
  apply Forall_forall. intros [k sl] [Hne Hk]%key_runs_elem. split; [done|]. intros r Hr. by apply Hk.
Qed.

Lemma blocks_keys_in (m : list (PartitionOrderKey * list R)) k :
  Forall (block_ok cycle_key) m → k ∈ m.*1 → ∃ r, r ∈ concat (m.*2) ∧ cycle_key r = k.
Proof.
  intros Hm ([k' D] & -> & Hin)%list_elem_of_fmap. rewrite Forall_forall in Hm. destruct (Hm _ Hin) as [Hne Hk].
  simpl in *. destruct D as [|r D]; [done|]. exists r. split; [|apply Hk; by left].
  apply list_elem_of_In, in_concat. exists (r :: D). split; [|by left]. apply list_elem_of_In.
  by apply (list_elem_of_fmap_2 snd _ (k', r :: D)).
Qed.

Lemma groups_rows_ok resolved groups :
  Forall (row_ok s) resolved → groups_keyed resolved groups → Forall (λ g, Forall (row_ok s) g.2) groups.
Proof.
  intros Hr (_ & _ & Hg). apply Forall_forall. intros [l [|r g]] Hin; [constructor|]. apply Forall_forall. intros r' Hr'.
  destruct (Hg l r g Hin) as [_ Hall]. rewrite Forall_forall in Hr. apply Hr. by apply (Hall r').
Qed.

Lemma step_rows_blocks seg_rows steps (content : PartitionOrderKey → list (laid_row (R := R))) ks :
  concat (laid <$> steps) = concat (content <$> ks) →
  step_rows seg_rows steps = concat ((λ k, concat (resolve_laid seg_rows <$> content k)) <$> ks).
Proof.
  intros Hl. unfold step_rows. rewrite Hl. clear Hl. induction ks as [|k ks IH]; [done|].
  rewrite !fmap_cons. cbn [concat]. by rewrite fmap_app, concat_app, IH.
Qed.

(** A row lies under the label of its own partition; a carried segment is one of
    the carried map's. *)
Definition laid_ok (carried : list (PartitionOrderKey * list Z)) (x : laid_row (R := R)) : Prop :=
  match x with
  | inl (l, r) => l = label (cycle_key r)
  | inr u => ∃ c, c ∈ carried ∧ u ∈ c.2
  end.

Lemma content_laid seg_rows carried delta prior k :
  ascending carried →
  block_ok cycle_key (k, concat (resolve_laid seg_rows <$> partition_content s sort_keys sidx carried delta prior k)) →
  Forall (laid_ok carried) (partition_content s sort_keys sidx carried delta prior k).
Proof.
  intros Hca [_ Hk]. cbn [fst snd] in Hk. unfold partition_content in *. apply Forall_forall. destruct (bt_get k carried) as [us|] eqn:Ec.
  - intros x (u & -> & Hu)%list_elem_of_fmap. apply bt_get_Some in Ec; [|done]. by exists (k, us).
  - rewrite resolve_tagged in Hk. intros x (r & -> & Hr)%list_elem_of_fmap. unfold laid_ok. by rewrite (Hk r Hr).
Qed.

Lemma cycle_correct resolved stream carried seg_rows snap cap :
  cycle_inputs resolved stream carried seg_rows →
  ∃ steps n, pack_cycle s partition_keys sort_keys resolved stream carried snap cap = Ok steps ∧
    step_rows seg_rows steps ≡ₚ concat ((carried_rows seg_rows carried).*2) ++ concat stream ++ resolved ∧
    StronglySorted olt ((key_runs cycle_key (step_rows seg_rows steps)).*1) ∧
    concat (step_idxs <$> steps) = seq 0 n ∧ Forall (step_shape s snap cap) steps ∧
    Forall (laid_ok carried) (concat (laid <$> steps)).
Proof using Hsidx Hpidx ArrowKernelsLaws0.
  intros [Hdo Hso Hlab Hord Hca Hcb Hdis].
  destruct (partition_groups resolved) as (groups & Hgr & Hgk).
  destruct (keyed_delta resolved groups Hlab Hgk) as (delta & Hkd & Hda & Hdb & Hdc).
  set (prior := key_runs cycle_key (concat stream)) in *.
  pose proof (key_runs_block_ok (concat stream)) as Hpb. fold prior in Hpb.
  assert (∀ k, k ∈ carried.*1 → k ∉ delta.*1 ∧ k ∉ prior.*1) as Hdisj.
  { intros k Hk. split; intros Hin; apply blocks_keys_in in Hin as (r & Hr & <-); try done; apply (Hdis r); try done;
      rewrite elem_of_app; [left; by rewrite Hdc in Hr|right]. unfold prior in Hr. by rewrite key_runs_rows in Hr. }
  assert (Forall (λ x, x.2 ≠ []) carried) as Hus.
  { apply Forall_forall. intros [k us] Hin. rewrite Forall_forall in Hcb.
    destruct (Hcb (k, concat (seg_rows <$> us))) as [Hne _];
      [by apply (list_elem_of_fmap_2 (λ c, (c.1, concat (seg_rows <$> c.2))) _ (k, us))|]. simpl in *. by destruct us. }
  assert (Forall (row_ok s) (concat stream)) as Hsc by (by apply Forall_concat).
  destruct (pack_whole_layout s sort_keys sidx pidx cycle_ordering Hsidx snap cap groups (concat stream) carried delta
    Hkd (groups_rows_ok resolved groups Hdo Hgk) Hsc Hord Hca Hus Hdisj) as (steps & ks & n & Hpw & Hks & Hkin & Hlaid & Hidx & Hsh).
  exists steps, n. unfold pack_cycle. rewrite ordering_new. cbn [result_bind]. rewrite Hgr. cbn [result_bind].
  rewrite (pack_stream_whole s sort_keys snap cap groups stream cycle_ordering pidx carried cycle_idx Hso
    (groups_rows_ok resolved groups Hdo Hgk)).
  fold prior in Hkin, Hlaid. split; [exact Hpw|].
  set (content := partition_content s sort_keys sidx carried delta prior) in *.
  rewrite (step_rows_blocks seg_rows steps content ks Hlaid).
  set (rows_of := λ k, concat (resolve_laid seg_rows <$> content k)).
  assert (∀ k, k ∈ ks → block_ok cycle_key (k, rows_of k) ∧
    rows_of k ≡ₚ default [] (bt_get k (carried_rows seg_rows carried)) ++ default [] (bt_get k prior) ++ default [] (bt_get k delta)) as Hblk.
  { intros k Hk. apply (content_block seg_rows carried delta prior k Hcb Hdb Hpb Hca Hda Hord Hdisj).
    apply Hkin in Hk. tauto. }
  split_and!; [| |done|done|].
  3:{ rewrite Hlaid. apply Forall_concat, Forall_fmap, Forall_forall. intros k Hk. apply (content_laid seg_rows); [done|]. by apply Hblk. }
  - assert (NoDup ks) as Hnd.
    { clear -Hks. induction Hks as [|k ks Hs IH Hf]; [constructor|]. constructor; [|done]. intros Hin.
      rewrite Forall_forall in Hf. by apply (olt_irrefl k), Hf. }
    rewrite (concat_fmap_perm rows_of _ ks (λ k Hk, proj2 (Hblk k Hk))), !concat_fmap_app.
    rewrite !concat_bt_get; try done.
    + unfold prior. by rewrite key_runs_rows, Hdc.
    + intros k Hk. apply Hkin. by right; left.
    + intros k Hk. apply Hkin. by right; right.
    + unfold ascending. by rewrite carried_rows_keys.
    + intros k. rewrite carried_rows_keys. intros Hk. apply Hkin. by left.
  - assert (key_runs cycle_key (concat (rows_of <$> ks)) = (λ k, (k, rows_of k)) <$> ks) as Hkr.
    { rewrite <- (key_runs_blocks cycle_key ((λ k, (k, rows_of k)) <$> ks)).
      - by rewrite <- list_fmap_compose.
      - apply Forall_fmap, Forall_forall. intros k Hk. by apply Hblk.
      - by rewrite <- list_fmap_compose, list_fmap_id. }
    rewrite Hkr. by rewrite <- list_fmap_compose, list_fmap_id.
Qed.

End cycle_correct.
