(* ===== verification/PackProps.v ===== *)
(** * Properties of the snapshot packer

    The streamed packing is the whole-partition packing; a cycle succeeds, loses
    nothing and leaves a snapshot the next cycle accepts; and a nullable
    partition key breaks that chain. *)

From S2P Require Import Prelude CoreTypes IndexSelect Ordered Chunker BatchUtil SegmentStats Packer PackLemmas PackMerge PackStream PackTheorems PackCycle.
From stdpp Require Import base numbers list option sets sorting.

Open Scope Z_scope.
Open Scope result_scope.

(** ** Partition order as sortedness *)

Section order.
Context {R : Type} (key : R → PartitionOrderKey).

Lemma runs_sorted rows :
  StronglySorted olt ((key_runs key rows).*1) ↔ StronglySorted ole (key <$> rows).
Proof.
  induction rows as [|r rows IH]; [split; constructor|]. rewrite key_runs_cons, fmap_cons.
  assert (∀ k, k ∈ key <$> rows → k ∈ (key_runs key rows).*1) as Hin.
  { intros k (x & -> & Hx)%list_elem_of_fmap. rewrite <- (key_runs_rows key rows) in Hx.
    apply list_elem_of_In, in_concat in Hx as (b & Hb & Hx). apply list_elem_of_In, list_elem_of_fmap in Hb as ([k0 sl] & -> & Hr).
    pose proof (key_runs_elem key rows k0 sl Hr) as [_ Hk]. destruct (Hk x) as [-> _]; [by apply list_elem_of_In|].
    by apply (list_elem_of_fmap_2 fst _ (k0, sl)). }
  destruct (key_runs key rows) as [|[k sl] gs] eqn:E.
  { assert (rows = []) as -> by (rewrite <- (key_runs_rows key rows), E; done). split; intros _; repeat constructor. }
  assert (k ∈ key <$> rows) as Hk.
  { destruct (key_runs_elem key rows k sl) as [Hne Hall]; [rewrite E; by left|]. destruct sl as [|x sl]; [done|].
    destruct (Hall x) as [<- Hx]; [by left|]. by apply list_elem_of_fmap_2. }
  simpl cons_run. destruct (decide (key r = k)) as [<-|Hne].
  - rewrite fmap_cons in IH |- *. cbn [fst] in *. rewrite IH. split.
    + intros Hs. constructor; [done|]. apply Forall_forall. intros k' Hk'%Hin. apply IH in Hs.
      apply StronglySorted_inv in Hs as [_ Hf]. apply elem_of_cons in Hk' as [->|Hk']; [apply ole_refl|].
      rewrite Forall_forall in Hf. by apply olt_le, Hf.
    + by intros [Hs _]%StronglySorted_inv.
  - rewrite fmap_cons. cbn [fst]. split.
    + intros [Hs Hf]%StronglySorted_inv. constructor; [by apply IH|]. apply Forall_forall. intros k' Hk'%Hin.
      rewrite Forall_forall in Hf. by apply olt_le, Hf.
    + intros [Hs Hf]%StronglySorted_inv. constructor; [by apply IH|]. rewrite Forall_forall in Hf.
      assert (olt (key r) k) as Hlt by (specialize (Hf k Hk); apply ole_lt_or_eq in Hf as [?|Heq]; [done|by destruct Hne]).
      apply IH in Hs. rewrite fmap_cons in Hs |- *. cbn [fst] in *. apply StronglySorted_inv in Hs as [_ Hg].
      constructor; [done|]. rewrite Forall_forall in Hg |- *. intros k' Hk'. eapply cmp_lt_trans; [exact Hlt|by apply Hg].
Qed.

Lemma sorted_filter (P : R → Prop) `{!∀ r, Decision (P r)} rows :
  StronglySorted ole (key <$> rows) → StronglySorted ole (key <$> filter P rows).
Proof.
  induction rows as [|r rows IH]; [done|]. rewrite fmap_cons. intros [Hs Hf]%StronglySorted_inv.
  rewrite filter_cons. destruct (decide (P r)); [|by apply IH]. rewrite fmap_cons. constructor; [by apply IH|].
  rewrite Forall_forall in Hf |- *. intros k (x & -> & [_ Hx]%list_elem_of_filter)%list_elem_of_fmap.
  apply Hf. by apply list_elem_of_fmap_2.
Qed.

End order.

(** ** Consecutive full rewrites *)

Section rewrites.
Context {R : Type} `{RowCells R} {K : ArrowKernels} {N : SegmentNaming} {C : StatsCodec} (s : schema).

(** One cycle of a snapshot history: its resolved delta, which prior rows its
    exclusion set leaves, how the scan slices them, and its packer's numbers. *)
Record rewrite := {
  rw_resolved : list R;
  rw_survives : R → bool;
  rw_slice : list R → list (list R);
  rw_snap : Z;
  rw_cap : Z;
}.

(** The full-rewrite path over a history: each snapshot's rows are the next
    one's prior stream. *)
Fixpoint rewrites (partition_keys sort_keys : list Z) (prior : list R) (ws : list rewrite) : result ApiError (list R) :=
  match ws with
  | [] => Ok prior
  | w :: rest =>
      let? steps := pack_cycle s partition_keys sort_keys (rw_resolved w)
                      (rw_slice w (filter (λ r, rw_survives w r = true) prior)) [] (rw_snap w) (rw_cap w) in
      rewrites partition_keys sort_keys (step_rows (λ _, []) steps) rest
  end.

(** The rows it should hold. *)
Definition rewrite_rows (prior : list R) (w : rewrite) : list R :=
  filter (λ r, rw_survives w r = true) prior ++ rw_resolved w.

End rewrites.

(** ** Theorems *)

Section theorems.
Context {R : Type} `{RowCells R} {K : ArrowKernels} {N : SegmentNaming} {C : StatsCodec}.

(** C17 Streaming changes nothing.  [pack_merged_partition_stream] feeds each
    partition to the packer in the slices the prior scan happens to yield,
    merging it with its delta through a cursor and sealing files as the cap is
    crossed.  For every slicing of the prior rows it returns exactly what
    whole-partition packing returns: the same files with the same segment rows
    and chunk indices, or the same error. *)
Theorem streamed_is_whole (Hk : ArrowKernelsLaws K) (s : schema) (sort_keys : list Z) (snap cap : Z)
    (delta_groups : list (option (list Z) * list R)) (stream : list (list R)) (o : PartitionOrdering)
    (idxs : list nat) (carried : list (PartitionOrderKey * list Z))
    (Hi : key_indices InvalidRequest s (po_keys o) = Ok idxs)
    (Hst : Forall (Forall (row_ok s)) stream) (Hdg : Forall (λ g, Forall (row_ok s) g.2) delta_groups) :
  pack_merged_partition_stream s delta_groups stream o sort_keys carried (SegmentPacker_new snap cap) =
  pack_whole s delta_groups (concat stream) o idxs sort_keys carried (SegmentPacker_new snap cap).
Proof. by apply pack_stream_whole. Qed.

(** C18 A packing cycle is exact and self-sustaining.  From costed rows whose equal
    partition labels have equal typed keys ([labels_typed]; not so for a NULL and
    an empty string, [null_label_wedges]), a prior stream in partition order and
    untouched carried partitions the cycle succeeds; the new snapshot shows every
    carried, surviving prior and delta row exactly once, its partitions again
    strictly ascend the typed order (what the next cycle's order check requires),
    chunk indices are dense from 0, and every file is tiled by its segment rows
    within the byte cap. *)
Theorem pack_cycle_exact (Hk : ArrowKernelsLaws K) (s : schema) (partition_keys sort_keys : list Z)
    (sidx pidx : list nat) (resolved : list R) (stream : list (list R))
    (carried : list (PartitionOrderKey * list Z)) (seg_rows : Z → list R) (snap cap : Z)
    (Hs : key_indices Internal s sort_keys = Ok sidx)
    (Hp : key_indices InvalidRequest s partition_keys = Ok pidx)
    (Hin : cycle_inputs s partition_keys pidx resolved stream carried seg_rows) :
  ∃ steps n, pack_cycle s partition_keys sort_keys resolved stream carried snap cap = Ok steps ∧
    step_rows seg_rows steps ≡ₚ concat ((carried_rows seg_rows carried).*2) ++ concat stream ++ resolved ∧
    StronglySorted olt ((key_runs (cycle_key s partition_keys pidx) (step_rows seg_rows steps)).*1) ∧
    concat (step_idxs <$> steps) = seq 0 n ∧ Forall (step_shape s snap cap) steps.
Proof.
  destruct (cycle_correct s partition_keys sort_keys sidx pidx Hs Hp resolved stream carried seg_rows snap cap Hin)
    as (steps & n & H1 & H2 & H3 & H4 & H5 & _). exists steps, n. by split_and!.
Qed.

(** Snapshots never wedge the next one.  Any history of full-rewrite cycles
    over costed rows with typed labels succeeds, whatever each cycle excludes and
    however its scan slices the survivors, and ends with exactly the rows the
    history leaves, in partition order. *)
Theorem rewrites_live (Hk : ArrowKernelsLaws K) (s : schema) (partition_keys sort_keys : list Z)
    (sidx pidx : list nat) (ws : list (rewrite (R := R)))
    (Hs : key_indices Internal s sort_keys = Ok sidx)
    (Hp : key_indices InvalidRequest s partition_keys = Ok pidx)
    (Hws : Forall (λ w, Forall (row_ok s) (rw_resolved w) ∧ labels_typed s partition_keys pidx (rw_resolved w) ∧
                        ∀ l, concat (rw_slice w l) = l) ws) :
  ∃ rows, rewrites s partition_keys sort_keys [] ws = Ok rows ∧ rows ≡ₚ foldl rewrite_rows [] ws ∧
    StronglySorted ole (cycle_key s partition_keys pidx <$> rows).
Proof.
  set (key := cycle_key s partition_keys pidx).
  assert (∀ prior spec, prior ≡ₚ spec → Forall (row_ok s) prior → StronglySorted ole (key <$> prior) →
    ∃ rows, rewrites s partition_keys sort_keys prior ws = Ok rows ∧ rows ≡ₚ foldl rewrite_rows spec ws ∧
      StronglySorted ole (key <$> rows)) as Hloop; [|by apply Hloop; [done|constructor|constructor]].
  induction Hws as [|w ws (Hr & Hl & Hsl) Hws IH]; intros prior spec Hps Hok Hso; [by exists prior|].
  set (surv := filter (λ r, rw_survives w r = true) prior).
  assert (Forall (row_ok s) surv) as Hsok.
  { apply Forall_forall. intros r [_ Hin]%list_elem_of_filter. rewrite Forall_forall in Hok. by apply Hok. }
  destruct (cycle_correct s partition_keys sort_keys sidx pidx Hs Hp (rw_resolved w) (rw_slice w surv) [] (λ _, [])
    (rw_snap w) (rw_cap w)) as (steps & n & Hpc & Hperm & Hord & _).
  { split; try done; [by apply Forall_concat; rewrite Hsl| |constructor|].
    - apply runs_sorted. rewrite Hsl. by apply sorted_filter.
    - intros r _. apply not_elem_of_nil. }
  cbn [carried_rows concat fmap list_fmap app] in Hperm. rewrite Hsl in Hperm.
  cbn [rewrites foldl]. fold surv. rewrite Hpc. cbn [result_bind]. apply IH.
  - rewrite Hperm. unfold rewrite_rows, surv. by rewrite Hps.
  - rewrite Hperm. by apply Forall_app.
  - by apply runs_sorted.
Qed.

(** The partition merge is a stable sort.  When a partition's prior rows
    ascend the clustering order, its merged rows are a permutation of the prior
    and delta rows, ascend that order, and among rows of one clustering key hold
    the prior rows first, each side in its own order. *)
Theorem partition_merge_stable (Hk : ArrowKernelsLaws K) (s : schema) (sort_keys : list Z) (sidx : list nat)
    (key : PartitionOrderKey) (prior delta : list R)
    (Hs : key_indices Internal s sort_keys = Ok sidx) (Hne : sort_keys ≠ [])
    (Hso : StronglySorted ole (sort_code s sidx <$> prior)) :
  ∃ m sorted, PartitionMerger_new s key (Some delta) sort_keys = Ok m ∧
    sort_record_batch_by_keys s delta sort_keys = Ok sorted ∧
    merge_whole s m prior ≡ₚ prior ++ delta ∧
    StronglySorted ole (sort_code s sidx <$> merge_whole s m prior) ∧
    ∀ c, filter (λ r, sort_code s sidx r = c) (merge_whole s m prior) =
         filter (λ r, sort_code s sidx r = c) prior ++ filter (λ r, sort_code s sidx r = c) sorted.
Proof.
  destruct (merger_new_whole s sort_keys sidx Hs key (Some delta)) as (m & Hm & Hw).
  exists m, (sorted_rows s sort_keys delta). rewrite Hw, part_rows_delta, decide_False by done.
  pose proof (sorted_rows_ok s sort_keys sidx Hs delta) as Hsr.
  split_and!; [done|done| | |].
  - by rewrite merged_perm, (sorted_rows_perm s sort_keys sidx Hs delta).
  - apply merged_sorted; [done|]. apply Sorted_StronglySorted; [apply _|].
    by apply (sort_ascends s delta _ sort_keys sidx Hs Hne).
  - intros c. by apply (merged_stable _ _ c).
Qed.

End theorems.

(** ** A concrete instance *)

Module PackDemo.

#[export] Instance row_cells : RowCells (list value) := λ r, r.
#[export] Instance codec : StatsCodec := {| to_vec := λ _, []; from_slice := λ _, None |}.
#[export] Instance naming : SegmentNaming := λ snap idx, 1000 * snap + Z.of_nat idx.

(** A cell's text: null prints as the empty string, as the display kernel's
    default options have it. *)
Definition show_value (_ : DataType) (v : value) : list Z :=
  match v with VNull => [] | VInt z => [z] | VBin bs => bs | VArr _ => [-1] end.

(** Nulls first, then the value; strings are terminated so that a prefix sorts
    first. *)
Definition encode_value (v : value) : list Z :=
  match v with
  | VNull => [0]
  | VInt z => [1; z]
  | VBin bs => 1 :: ((λ b, b + 2) <$> bs) ++ [1]
  | VArr _ => [2]
  end.

Definition encode_row (_ : list DataType) (vs : list value) : list Z := concat (encode_value <$> vs).

Definition index_le (codes : list (list Z)) (i j : nat) : Prop :=
  ole (default [] (codes !! i)) (default [] (codes !! j)).

#[export] Instance index_le_dec codes : RelDecision (index_le codes).
Proof. intros i j. unfold index_le. apply _. Defined.

#[export] Instance index_le_total codes : Total (index_le codes).
Proof. intros i j. unfold index_le. apply le_total_inst. Qed.

Definition sort_indices (ts : list DataType) (ks : list (list value)) : list nat :=
  merge_sort (index_le (encode_row ts <$> ks)) (seq 0 (length ks)).

#[export] Instance kernels : ArrowKernels :=
  {| array_value_to_string := show_value;
     json_string_list := λ ps, concat ((λ p, Z.of_nat (length p) :: p) <$> ps);
     convert_row := encode_row;
     lexsort_to_indices := sort_indices |}.

Lemma codes_lookup ts ks (l : list nat) :
  (∀ i, i ∈ l → (i < length ks)%nat) → Sorted (index_le (encode_row ts <$> ks)) l →
  Sorted ole ((λ i, encode_row ts (default [] (ks !! i))) <$> l).
Proof.
  intros Hlt Hs. induction Hs as [|i l Hs IH Hi]; [constructor|]. rewrite fmap_cons. constructor.
  - apply IH. intros j Hj. apply Hlt. by right.
  - destruct Hi as [|j l Hij]; [constructor|]. rewrite fmap_cons. constructor. unfold index_le in Hij.
    rewrite !list_lookup_fmap in Hij.
    destruct (lookup_lt_is_Some_2 ks i) as [x Hx]; [apply Hlt; by left|].
    destruct (lookup_lt_is_Some_2 ks j) as [y Hy]; [apply Hlt; right; by left|].
    by rewrite Hx, Hy in Hij |- *.
Qed.

#[export] Instance kernels_laws : ArrowKernelsLaws kernels.
Proof.
  split; simpl; intros ts ks; unfold sort_indices.
  - apply merge_sort_Permutation.
  - apply codes_lookup; [|apply Sorted_merge_sort; apply _].
    intros i. rewrite merge_sort_Permutation, elem_of_seq. lia.
Qed.

(** [(row_uuid, region, amount)]: partitioned by region, clustered by row_uuid. *)
Definition table : schema :=
  [{| field_name := 0; field_type := DtInt64 |}; {| field_name := 1; field_type := DtUtf8 |};
   {| field_name := 2; field_type := DtInt64 |}].

Definition mk (u : Z) (region : value) (amount : Z) : list value := [VInt u; region; VInt amount].

Definition eu : value := VBin [101; 117].
Definition us : value := VBin [117; 115].

Definition prior_rows : list (list value) := [mk 1 eu 10; mk 3 eu 30; mk 2 us 20].
Definition delta_rows : list (list value) := [mk 4 us 40; mk 0 eu 5].

Definition demo_ordering : PartitionOrdering := {| po_keys := [1]; converter := Some [DtUtf8] |}.

Lemma rows_costed : Forall (row_ok table) (prior_rows ++ delta_rows).
Proof. repeat constructor; by eexists. Qed.

Lemma streamed_is_whole_witness :
  pack_merged_partition_stream table [(Some [101; 117], [mk 0 eu 5]); (Some [117; 115], [mk 4 us 40])]
    [[mk 1 eu 10]; [mk 3 eu 30; mk 2 us 20]] demo_ordering [0] [] (SegmentPacker_new 7 40) =
  pack_whole table [(Some [101; 117], [mk 0 eu 5]); (Some [117; 115], [mk 4 us 40])]
    [mk 1 eu 10; mk 3 eu 30; mk 2 us 20] demo_ordering [1%nat] [0] [] (SegmentPacker_new 7 40).
Proof.
  apply (streamed_is_whole kernels_laws table [0] 7 40 _ [[mk 1 eu 10]; [mk 3 eu 30; mk 2 us 20]] demo_ordering [1%nat] []);
    [reflexivity|repeat constructor; by eexists|repeat constructor; by eexists].
Defined.

Lemma rows_typed rows : Forall (λ r, ∃ u bs a, r = mk u (VBin bs) a) rows → labels_typed table [1] [1%nat] rows.
Proof.
  intros Hf r r' Hr Hr'. rewrite Forall_forall in Hf. destruct (Hf r Hr) as (u & bs & a & ->).
  destruct (Hf r' Hr') as (u' & bs' & a' & ->). cbn. by intros [= ->].
Qed.

Definition demo_inputs : cycle_inputs table [1] [1%nat] delta_rows [[mk 1 eu 10]; [mk 3 eu 30; mk 2 us 20]] [] (λ _, []).
Proof.
  split.
  - repeat constructor; by eexists.
  - repeat constructor; by eexists.
  - apply rows_typed. repeat constructor; by eexists _, _, _.
  - apply runs_sorted. repeat constructor; done.
  - constructor.
  - constructor.
  - intros r _. apply not_elem_of_nil.
Qed.

Lemma pack_cycle_exact_witness :
  ∃ steps n, pack_cycle table [1] [0] delta_rows [[mk 1 eu 10]; [mk 3 eu 30; mk 2 us 20]] [] 7 60 = Ok steps ∧
    step_rows (λ _, []) steps = [mk 0 eu 5; mk 1 eu 10; mk 3 eu 30; mk 2 us 20; mk 4 us 40] ∧
    concat (step_idxs <$> steps) = seq 0 n ∧ n = 3%nat.
Proof.
  destruct (pack_cycle_exact kernels_laws table [1] [0] [0%nat] [1%nat] delta_rows
    [[mk 1 eu 10]; [mk 3 eu 30; mk 2 us 20]] [] (λ _, []) 7 60 eq_refl eq_refl demo_inputs) as (steps & n & Hp & _ & _ & Hi & _).
  exists steps, n. split; [done|].
  assert (pack_cycle table [1] [0] delta_rows [[mk 1 eu 10]; [mk 3 eu 30; mk 2 us 20]] [] 7 60 = Ok steps) as Hp' by done.
  vm_compute in Hp'. injection Hp' as <-. split_and!; [reflexivity|done|].
  apply (f_equal length) in Hi. rewrite length_seq in Hi. rewrite <- Hi. reflexivity.
Defined.

Definition history : list rewrite :=
  [{| rw_resolved := prior_rows; rw_survives := λ _, true; rw_slice := λ l, [l]; rw_snap := 1; rw_cap := 60 |};
   {| rw_resolved := delta_rows; rw_survives := λ r, match r with VInt u :: _ => negb (u =? 3) | _ => true end;
      rw_slice := λ l, (λ r, [r]) <$> l; rw_snap := 2; rw_cap := 60 |}].

Lemma concat_singletons {A} (l : list A) : concat ((λ x, [x]) <$> l) = l.
Proof. induction l as [|x l IH]; simpl; [done|]. by f_equal. Qed.

Lemma rewrites_live_witness :
  ∃ rows, rewrites table [1] [0] [] history = Ok rows ∧
    rows = [mk 0 eu 5; mk 1 eu 10; mk 2 us 20; mk 4 us 40] ∧
    StronglySorted ole (cycle_key table [1] [1%nat] <$> rows).
Proof.
  destruct (rewrites_live kernels_laws table [1] [0] [0%nat] [1%nat] history eq_refl eq_refl) as (rows & Hr & _ & Hs).
  - repeat constructor; cbn [rw_resolved rw_slice]; try (by eexists); try (apply rows_typed; repeat constructor; by eexists _, _, _);
      intros l; [simpl; by rewrite app_nil_r|apply concat_singletons].
  - exists rows. split_and!; [done| |done].
    assert (rewrites table [1] [0] [] history = Ok rows) as Hr' by done. vm_compute in Hr'. by injection Hr' as <-.
Defined.

Lemma partition_merge_stable_witness :
  ∃ m sorted, PartitionMerger_new table (None, None) (Some [mk 9 us 1; mk 2 eu 2]) [0] = Ok m ∧
    sort_record_batch_by_keys table [mk 9 us 1; mk 2 eu 2] [0] = Ok sorted ∧
    merge_whole table m [mk 2 us 7; mk 5 us 8] = [mk 2 us 7; mk 2 eu 2; mk 5 us 8; mk 9 us 1] ∧
    StronglySorted ole (sort_code table [0%nat] <$> merge_whole table m [mk 2 us 7; mk 5 us 8]).
Proof.
  destruct (partition_merge_stable kernels_laws table [0] [0%nat] (None, None) [mk 2 us 7; mk 5 us 8]
    [mk 9 us 1; mk 2 eu 2] eq_refl) as (m & sorted & Hm & Hs & _ & Hso & _); [done|repeat constructor; done|].
  exists m, sorted. split_and!; [done|done| |done].
  assert (PartitionMerger_new table (None, None) (Some [mk 9 us 1; mk 2 eu 2]) [0] = Ok m) as Hm' by done.
  vm_compute in Hm'. by injection Hm' as <-.
Defined.

(** ** A nullable partition key

    Rows 1 and 2 with the region the empty string and null: both print as the
    empty label, so they are one delta group under row 1's key. *)
Definition mixed_rows : list (list value) := [mk 1 (VBin []) 10; mk 2 VNull 20].

Lemma out_of_order_fails snap cap : pack_cycle table [1] [0] [] [mixed_rows] [] snap cap = Err Internal.
Proof.
  unfold pack_cycle. change (PartitionOrdering_new table [1]) with (Ok (E := ApiError) demo_ordering). cbn [result_bind].
  change (partition_record_batch table ([] : list (list value)) [1]) with (Ok (E := ApiError) ([] : list (option (list Z) * list (list value)))).
  cbn [result_bind].
  rewrite (pack_stream_whole table [0] snap cap [] [mixed_rows] demo_ordering [1%nat] []);
    [|reflexivity|repeat constructor; by eexists|constructor].
  unfold pack_whole. cbn [key_delta result_bind concat app].
  set (ps := {| ps_packer := SegmentPacker_new snap cap; ps_carried := []; ps_delta := [] |}).
  assert (∃ m, begin_part table [0] ps None (Some [1; 1], Some []) = Ok (ps, m, Some (Some [1; 1], Some []), [])) as [m Hb]
    by (by eexists).
  change (key_runs (row_order_key table demo_ordering [1%nat]) (mixed_rows ++ [])) with
    [((Some [1; 1], Some []) : PartitionOrderKey, [mk 1 (VBin []) 10]); ((Some [0], Some []), [mk 2 VNull 20])].
  cbn [whole_parts]. rewrite Hb. cbn [result_bind]. unfold end_part.
  assert (ps_ok table ps) as Hps by (split; [constructor|split; [done|constructor]]).
  destruct (begin_part_ok table [0] ps None _ _ _ _ _ Hps Hb) as (_ & Hm & _).
  rewrite push_partition_ok; [done|constructor|].
  apply merge_whole_ok; [done|]. repeat constructor; by eexists.
Qed.

(** A snapshot can wedge its table.  The partition label prints a null and an
    empty string alike, so the delta split files both under one group, keyed by
    its first row; the prior stream keys each row on its own.  The first snapshot
    of these two rows succeeds, and every later snapshot over its rows fails the
    packer's order check, even with nothing to fold in. *)
Theorem null_label_wedges :
  ∃ steps, pack_cycle table [1] [0] mixed_rows [] [] 1 1000 = Ok steps ∧
    step_rows (λ _, []) steps = mixed_rows ∧
    ∀ snap cap, pack_cycle table [1] [0] [] [mixed_rows] [] snap cap = Err Internal.
Proof.
  eexists. split; [vm_compute; reflexivity|]. split; [reflexivity|]. intros snap cap.
  by apply out_of_order_fails.
Qed.

End PackDemo.
