(* ===== verification/CarryForward.v ===== *)
(** * Carry-forward (penca-api/src/lifecycle/snapshot_op.rs)

    The eligibility gate, the attribution of a window's upserts and deletes to
    the prior partitions they touch, the split of the prior segments into a
    rewritten and a carried part, and the two write paths of the snapshot
    operation down to the packer. *)

From S2P Require Import Prelude CoreTypes MergeSql IndexSeek IndexSelect Ordered Chunker BatchUtil SegmentStats Packer PackCycle.
From stdpp Require Import base numbers list option sets gmap sorting.

Open Scope Z_scope.
Open Scope result_scope.

(** ** Schemas *)

Definition ROW_UUID : Z := -1.
Definition WRITE_SEQ_NUM : Z := -2.
Definition COMMIT_MICROS : Z := -3.
Definition BEGAN_AT_MICROS : Z := -4.
Definition COMMIT_SEQ_NUM : Z := -5.

Definition snapshot_read_schema (user_schema : schema) : schema :=
  {| field_name := ROW_UUID; field_type := DtUtf8 |} :: user_schema.

Definition cold_tx_metadata_fields : schema :=
  [{| field_name := COMMIT_MICROS; field_type := DtInt64 |};
   {| field_name := BEGAN_AT_MICROS; field_type := DtInt64 |};
   {| field_name := COMMIT_SEQ_NUM; field_type := DtInt64 |}].

Fixpoint pk_fields (user_schema : schema) (primary_keys : list Z) : result ApiError schema :=
  match primary_keys with
  | [] => Ok []
  | pk :: rest =>
      match list_find (λ f, field_name f = pk) user_schema with
      | None => Err InvalidRequest
      | Some (_, f) => let? fs := pk_fields user_schema rest in Ok (f :: fs)
      end
  end.

Definition cold_delete_schema (user_schema : schema) (primary_keys : list Z) : result ApiError schema :=
  let? fs := pk_fields user_schema primary_keys in
  Ok ({| field_name := ROW_UUID; field_type := DtUtf8 |} :: fs ++
      {| field_name := WRITE_SEQ_NUM; field_type := DtInt64 |} :: cold_tx_metadata_fields).

(** ** Rows and segments *)

(** A row: its [row_uuid], whose text is the first column, and its other cells. *)
Notation srow := (Z * list value)%type.

Class UuidText := uuid_text : Z → list Z.

#[export] Instance srow_cells `{UuidText} : RowCells srow := λ r, VBin (uuid_text r.1) :: r.2.

Record PriorSegment := {
  prior_uuid : Z;
  prior_seg_rows : list srow;
  prior_statistics : list Z;
  prior_sidecar : option sidecar;
}.

Section carry.
Context `{UuidText} {K : ArrowKernels} {N : SegmentNaming} {C : StatsCodec}.
Context (user_schema : schema).

Notation s := (snapshot_read_schema user_schema).

(** ** The gate *)

Fixpoint segment_keys (o : PartitionOrdering) (partition_keys : list Z) (segs : list PriorSegment) :
    option (list PartitionOrderKey) :=
  match segs with
  | [] => Some []
  | seg :: rest =>
      match partition_order_key_from_statistics s o (prior_statistics seg) partition_keys with
      | None => None
      | Some key => match segment_keys o partition_keys rest with
                    | Some keys => Some (key :: keys)
                    | None => None
                    end
      end
  end.

Definition carry_forward_keys (o : PartitionOrdering) (segs : list PriorSegment)
    (recorded_partition_keys recorded_clustering_keys : option (list Z))
    (partition_keys clustering_keys : list Z) : option (list PartitionOrderKey) :=
  match segs, partition_keys with
  | [], _ | _, [] => None
  | _, _ =>
      if decide (recorded_partition_keys = Some partition_keys ∧ recorded_clustering_keys = Some clustering_keys)
      then segment_keys o partition_keys segs
      else None
  end.

Definition effective_clustering_keys (clustering_keys primary_keys : list Z) : list Z :=
  match clustering_keys with [] => primary_keys | _ => clustering_keys end.

Definition partition_subset_of_pk (partition_keys primary_keys : list Z) : bool :=
  forallb (λ key, bool_decide (key ∈ primary_keys)) partition_keys.

(** ** Attribution *)

Definition labels := gset (option (list Z)).

(** [delete_attributed_labels]: the labels of the window's delete rows, read in
    the delete log's schema. *)
Definition delete_attributed_labels (deletes : list srow) (partition_keys primary_keys : list Z) :
    result ApiError labels :=
  match deletes with
  | [] => Ok ∅
  | _ =>
      let? ds := cold_delete_schema user_schema primary_keys in
      let? idxs := key_indices Internal ds partition_keys in
      Ok (list_to_set ((λ d, Some (partition_label (field_types ds idxs) (key_cells idxs d))) <$> deletes))
  end.

Definition delete_row_uuids (deletes : list srow) (primary_keys : list Z) : result ApiError (gset Z) :=
  match deletes with
  | [] => Ok ∅
  | _ => let? _ := cold_delete_schema user_schema primary_keys in Ok (list_to_set (fst <$> deletes))
  end.

Definition touched_row_uuids_from_delta (delta_groups : list (option (list Z) * list srow)) : gset Z :=
  list_to_set (fst <$> concat (delta_groups.*2)).

(** [probe_segment_for_label]: the segment's label when its sidecar holds a
    probed row. *)
Definition probe_segment_for_label (key : PartitionOrderKey) (seg : PriorSegment) (probe : list Z) :
    result ApiError (option (option (list Z))) :=
  match prior_sidecar seg with
  | None => Err Internal
  | Some sc =>
      match seek_row_offsets sc ((λ u, [u]) <$> probe) with
      | Err _ => Err Internal
      | Ok offsets => Ok (match offsets with [] => None | _ => Some (label key) end)
      end
  end.

Fixpoint probe_all (candidates : list (PartitionOrderKey * PriorSegment)) (probe : list Z) : result ApiError labels :=
  match candidates with
  | [] => Ok ∅
  | (key, seg) :: rest =>
      let? hit := probe_segment_for_label key seg probe in
      let? more := probe_all rest probe in
      Ok (match hit with Some l => {[l]} ∪ more | None => more end)
  end.

Definition reverse_lookup_attributed_labels (segs : list PriorSegment) (prior_keys : list PartitionOrderKey)
    (already_touched : labels) (touched_row_uuids : gset Z) : result ApiError labels :=
  if decide (touched_row_uuids = ∅) then Ok ∅
  else
    let candidates := filter (λ c : PartitionOrderKey * PriorSegment, label c.1 ∉ already_touched)
                        (zip prior_keys segs) in
    probe_all candidates (elements touched_row_uuids).

(** The touched partitions: those of the delta, and the prior partitions of the
    window's deletes and moves. *)
Definition touched_labels (delta_groups : list (option (list Z) * list srow)) (deletes : list srow)
    (segs : list PriorSegment) (prior_keys : list PartitionOrderKey) (partition_keys primary_keys : list Z) :
    result ApiError labels :=
  let touched : labels := list_to_set (delta_groups.*1) in
  if partition_subset_of_pk partition_keys primary_keys then
    let? more := delete_attributed_labels deletes partition_keys primary_keys in Ok (touched ∪ more)
  else
    let? dels := delete_row_uuids deletes primary_keys in
    let uuids := touched_row_uuids_from_delta delta_groups ∪ dels in
    let? more := reverse_lookup_attributed_labels segs prior_keys touched uuids in Ok (touched ∪ more).

(** ** The split *)

Definition split_prior_segments_by_touch (prior_keys : list PartitionOrderKey) (segs : list PriorSegment)
    (touched : labels) : list PriorSegment * list (PartitionOrderKey * list Z) :=
  let pairs := zip prior_keys segs in
  (snd <$> filter (λ c : PartitionOrderKey * PriorSegment, label c.1 ∈ touched) pairs,
   group_by fst (λ c, prior_uuid c.2) (filter (λ c : PartitionOrderKey * PriorSegment, label c.1 ∉ touched) pairs)).

(** ** The write paths *)

Record SnapshotInput := {
  in_partition_keys : list Z;
  in_primary_keys : list Z;
  in_clustering_keys : list Z;
  in_recorded_partition_keys : option (list Z);
  in_recorded_clustering_keys : option (list Z);
  in_segments : list PriorSegment;
  in_resolved : list srow;
  in_deletes : list srow;
  in_exclusion : gset Z;
  in_snap : Z;
  in_max_segment_bytes : Z;
}.

(** The prior stream of some segments: one batch per segment, in plan order, the
    excluded rows dropped in the scan. *)
Definition survivor_stream (ex : gset Z) (segs : list PriorSegment) : list (list srow) :=
  (λ seg, filter (λ r : srow, r.1 ∉ ex) (prior_seg_rows seg)) <$> segs.

Definition rewrite_path (i : SnapshotInput) : result ApiError (list (PackStep srow)) :=
  pack_cycle s (in_partition_keys i) (effective_clustering_keys (in_clustering_keys i) (in_primary_keys i)) (in_resolved i)
    (survivor_stream (in_exclusion i) (in_segments i)) [] (in_snap i) (in_max_segment_bytes i).

Definition carry_path (i : SnapshotInput) (prior_keys : list PartitionOrderKey) :
    result ApiError (list (PackStep srow)) :=
  let? delta_groups := partition_record_batch s (in_resolved i) (in_partition_keys i) in
  let? touched := touched_labels delta_groups (in_deletes i) (in_segments i) prior_keys
                    (in_partition_keys i) (in_primary_keys i) in
  let '(touched_segments, carried) := split_prior_segments_by_touch prior_keys (in_segments i) touched in
  pack_cycle s (in_partition_keys i) (effective_clustering_keys (in_clustering_keys i) (in_primary_keys i)) (in_resolved i)
    (survivor_stream (in_exclusion i) touched_segments) carried (in_snap i) (in_max_segment_bytes i).

(** The tail of [snapshot_locked]: gate, then one of the two paths. *)
Definition snapshot_pack (i : SnapshotInput) : result ApiError (list (PackStep srow)) :=
  let? o := PartitionOrdering_new s (in_partition_keys i) in
  match carry_forward_keys o (in_segments i) (in_recorded_partition_keys i) (in_recorded_clustering_keys i)
          (in_partition_keys i) (effective_clustering_keys (in_clustering_keys i) (in_primary_keys i)) with
  | Some prior_keys => carry_path i prior_keys
  | None => rewrite_path i
  end.

(** The rows of a prior segment, by its uuid. *)
Definition seg_rows (segs : list PriorSegment) (u : Z) : list srow :=
  concat (prior_seg_rows <$> filter (λ seg, prior_uuid seg = u) segs).

End carry.
