(* ===== verification/CarryTheorems.v ===== *)
(** * Carry-forward is sound

    A carried partition holds no excluded row and no delta row, so the carry path
    packs the rows the full rewrite would. *)

From S2P Require Import Prelude CoreTypes MergeSql IndexSeek IndexSelect Ordered Chunker BatchUtil SegmentStats Packer PackLemmas PackMerge PackStream PackTheorems PackCycle PackProps CarryForward.
From stdpp Require Import base numbers list option sets gmap sorting.

Open Scope Z_scope.
Open Scope result_scope.

Section carry_sound.
Context `{UuidText} {K : ArrowKernels} `{!ArrowKernelsLaws K} {N : SegmentNaming} {C : StatsCodec} `{!StatsCodecLaws C}.
Context (user_schema : schema).

Notation s := (snapshot_read_schema user_schema).

(** ** The table *)

Record table_ok (i : SnapshotInput) (sidx pidx didx : list nat) (ds : schema) : Prop := {
  tk_names : NoDup (field_name <$> s);
  tk_sort : key_indices Internal s (effective_clustering_keys (in_clustering_keys i) (in_primary_keys i)) = Ok sidx;
  tk_part : key_indices InvalidRequest s (in_partition_keys i) = Ok pidx;
  tk_delete : cold_delete_schema user_schema (in_primary_keys i) = Ok ds;
  tk_delete_part : partition_subset_of_pk (in_partition_keys i) (in_primary_keys i) = true →
    key_indices Internal ds (in_partition_keys i) = Ok didx;
}.

Context (pkeys : list Z) (pidx : list nat).

Notation key := (cycle_key s pkeys pidx).

(** A row's partition label determines its partition cells. *)
Definition label_exact (rows : list srow) : Prop :=
  ∀ r r', r ∈ rows → r' ∈ rows → label (key r) = label (key r') → key_cells pidx r = key_cells pidx r'.

Lemma key_of_cells r r' : key_cells pidx r = key_cells pidx r' → key r = key r'.
Proof.
  intros Heq. unfold cycle_key, row_order_key, order_key_at. by rewrite Heq.
Qed.

Lemma label_exact_typed rows : label_exact rows → labels_typed s pkeys pidx rows.
Proof. intros Hl r r' Hr Hr' Heq. by apply key_of_cells, Hl. Qed.

Lemma label_exact_sub rows rows' : label_exact rows → (∀ r, r ∈ rows' → r ∈ rows) → label_exact rows'.
Proof. intros Hl Hsub r r' Hr Hr'. apply Hl; by apply Hsub. Qed.

(** ** A prior snapshot as the writer leaves it *)

Record segment_ok (seg : PriorSegment) : Prop := {
  so_rows : prior_seg_rows seg ≠ [];
  so_cost : Forall (row_ok s) (prior_seg_rows seg);
  so_cells : ∀ r r', r ∈ prior_seg_rows seg → r' ∈ prior_seg_rows seg → key_cells pidx r = key_cells pidx r';
  so_stats : prior_statistics seg = compute_segment_statistics s (prior_seg_rows seg);
  so_sidecar : ∃ sc, prior_sidecar seg = Some sc ∧
    build_segment_index [(λ r : srow, Some r.1) <$> prior_seg_rows seg] = Ok sc;
}.

Definition all_rows (segs : list PriorSegment) : list srow := concat (prior_seg_rows <$> segs).

Record prior_ok (segs : list PriorSegment) : Prop := {
  pr_segs : Forall segment_ok segs;
  pr_uuids : NoDup (prior_uuid <$> segs);
  pr_order : StronglySorted ole (key <$> all_rows segs);
}.

(** The key of a segment: its rows' key. *)
Definition seg_key (seg : PriorSegment) : PartitionOrderKey :=
  match prior_seg_rows seg with r :: _ => key r | [] => (None, None) end.

Lemma seg_key_row seg r : segment_ok seg → r ∈ prior_seg_rows seg → key r = seg_key seg.
Proof.
  intros [_ _ Hc _ _] Hr. unfold seg_key. destruct (prior_seg_rows seg) as [|r0 rows]; [by apply elem_of_nil in Hr|].
  apply key_of_cells, Hc; [done|by left].
Qed.

Lemma elem_all_rows segs r : r ∈ all_rows segs ↔ ∃ seg, seg ∈ segs ∧ r ∈ prior_seg_rows seg.
Proof.
  unfold all_rows. rewrite list_elem_of_In, in_concat. split.
  - intros (b & Hb & Hr). apply list_elem_of_In, list_elem_of_fmap in Hb as (seg & -> & Hs).
    exists seg. split; [done|by apply list_elem_of_In].
  - intros (seg & Hs & Hr). exists (prior_seg_rows seg). split; [|by apply list_elem_of_In].
    apply list_elem_of_In. by apply list_elem_of_fmap_2.
Qed.

(** *** The gate reads the keys off the statistics *)

Lemma segment_keys_spec (Hnames : NoDup (field_name <$> s)) (Hne : pkeys ≠ [])
    (Hp : key_indices InvalidRequest s pkeys = Ok pidx) segs keys :
  Forall segment_ok segs →
  segment_keys user_schema (cycle_ordering s pkeys pidx) pkeys segs = Some keys → keys = seg_key <$> segs.
Proof using StatsCodecLaws0.
  intros HF. revert keys. induction HF as [|seg segs Hseg HF IH]; intros keys; simpl; [by intros [= <-]|].
  destruct (partition_order_key_from_statistics s _ (prior_statistics seg) pkeys) as [k|] eqn:Ek; [|done].
  destruct (segment_keys user_schema _ pkeys segs) as [ks|]; [|done]. intros [= <-].
  f_equal; [|by apply IH]. destruct Hseg as [Hrows _ Hcells Hst _].
  unfold seg_key. destruct (prior_seg_rows seg) as [|r0 rows] eqn:Er; [done|]. rewrite Hst in Ek.
  apply (stats_key_sound s Hnames (r0 :: rows) r0) with (pidx := pidx) in Ek; [|done|by left| |].
  - rewrite Ek. symmetry. by apply cycle_key_partitioned.
  - intros r Hr. apply Hcells; [done|by left].
  - by apply (key_indices_error s InvalidRequest).
Qed.

Lemma carry_forward_keys_Some o segs rp rc pk ck keys :
  carry_forward_keys user_schema o segs rp rc pk ck = Some keys →
  segs ≠ [] ∧ pk ≠ [] ∧ segment_keys user_schema o pk segs = Some keys.
Proof.
  unfold carry_forward_keys. destruct segs as [|seg segs]; [done|]. destruct pk as [|k ks]; [done|].
  case_decide; [|done]. done.
Qed.

(** *** Attribution *)

Lemma probe_hit k seg probe :
  segment_ok seg → probe ≠ [] →
  ∃ hit, probe_segment_for_label k seg probe = Ok hit ∧
    ((∃ r, r ∈ prior_seg_rows seg ∧ r.1 ∈ probe) → hit = Some (label k)) ∧ (∀ l, hit = Some l → l = label k).
Proof.
  intros [_ _ _ _ (sc & Hsc & Hb)] Hne. unfold probe_segment_for_label. rewrite Hsc.
  destruct (build_segment_index_entries _ _ Hb) as (Hn & _ & _). simpl in Hn.
  set (tuples := (λ u : Z, [u]) <$> probe).
  assert (∀ q, q ∈ tuples → ∃ u, q = [u] ∧ u ∈ probe) as Hq by (intros q (u & -> & Hu)%list_elem_of_fmap; eauto).
  rewrite seek_row_offsets_Ok.
  2:{ exists 1%nat. split; [lia|]. intros q Hin. by destruct (Hq q Hin) as (u & -> & _). }
  eexists. split; [done|]. split; [|by intros l; destruct (vec_dedup _); [|intros [= <-]]].
  intros (r & Hr & Hu). apply list_elem_of_lookup in Hr as [i Hi].
  assert (Z.of_nat i ∈ vec_dedup (merge_sort Z.le (mbind (seek_probe (entries sc)) tuples))) as Hin.
  { rewrite elem_of_vec_dedup, merge_sort_Permutation.
    apply (seek_build_spec [(λ r : srow, Some r.1) <$> prior_seg_rows seg] sc tuples Hb).
    - intros q Hin. destruct (Hq q Hin) as (u & -> & _). simpl. lia.
    - exists i, [r.1]. split_and!; [simpl; rewrite length_fmap; by apply lookup_lt_Some in Hi|done| |].
      + unfold tuples. by apply (list_elem_of_fmap_2 (λ u : Z, [u])).
      + unfold matches_probe, key_at. simpl. by rewrite list_lookup_fmap, Hi. }
  destruct (vec_dedup _) as [|o os]; [by apply elem_of_nil in Hin|done].
Qed.

Lemma probe_all_spec probe cands :
  probe ≠ [] → Forall (λ c : PartitionOrderKey * PriorSegment, segment_ok c.2) cands →
  ∃ ls, probe_all cands probe = Ok ls ∧
    ∀ k seg r, (k, seg) ∈ cands → r ∈ prior_seg_rows seg → r.1 ∈ probe → label k ∈ ls.
Proof.
  intros Hne. induction 1 as [|[k seg] cands Hseg HF IH]; simpl; [exists ∅; split; [done|set_solver]|].
  destruct IH as (ls & -> & Hls). destruct (probe_hit k seg probe Hseg Hne) as (hit & -> & Hhit & _).
  cbn [result_bind]. eexists. split; [done|]. intros k' seg' r Hin Hr Hu. apply elem_of_cons in Hin as [[= -> ->]|Hin].
  - rewrite (Hhit (ex_intro _ r (conj Hr Hu))). set_solver.
  - specialize (Hls k' seg' r Hin Hr Hu). destruct hit; set_solver.
Qed.

(** ** The window *)

(** What the resolve hands the write path: costed rows whose labels are exact
    together with the prior rows; an exclusion set that only names rows the
    window upserted or deleted; and, when the partition is part of the primary
    key, one partition per [row_uuid] (it is derived from the primary key). *)
Record window_ok (i : SnapshotInput) (didx : list nat) (ds : schema) : Prop := {
  wo_cost : Forall (row_ok s) (in_resolved i);
  wo_labels : label_exact (all_rows (in_segments i) ++ in_resolved i);
  wo_excluded : ∀ u, u ∈ in_exclusion i → u ∈ (in_resolved i).*1 ∨ u ∈ (in_deletes i).*1;
  wo_pk : partition_subset_of_pk (in_partition_keys i) (in_primary_keys i) = true →
    ∀ r, r ∈ all_rows (in_segments i) →
      (∀ r', r' ∈ in_resolved i → r'.1 = r.1 → label (key r') = label (key r)) ∧
      (∀ d, d ∈ in_deletes i → d.1 = r.1 →
         Some (partition_label (field_types ds didx) (key_cells didx d)) = label (key r));
}.

Lemma groups_label (Hp : key_indices InvalidRequest s pkeys = Ok pidx) rows groups r :
  groups_keyed s pkeys pidx rows groups → r ∈ rows → label (key r) ∈ groups.*1.
Proof.
  intros (_ & Hcat & Hg) Hr. rewrite <- Hcat in Hr. apply list_elem_of_In, in_concat in Hr as (b & Hb & Hr).
  apply list_elem_of_In, list_elem_of_fmap in Hb as ([l g] & -> & Hin). apply list_elem_of_In in Hr. simpl in Hr.
  destruct g as [|r0 g]; [by apply elem_of_nil in Hr|]. destruct (Hg l r0 g Hin) as [Hk Hall].
  destruct (Hall r Hr) as [_ ->]. rewrite <- Hk. apply list_elem_of_fmap. by exists (l, r0 :: g).
Qed.

(** The touched labels exist, name every delta row's partition, and name every
    prior segment that holds an excluded row. *)
Lemma touched_spec i sidx didx ds groups :
  in_partition_keys i = pkeys → table_ok i sidx pidx didx ds → prior_ok (in_segments i) → window_ok i didx ds →
  groups_keyed s pkeys pidx (in_resolved i) groups →
  ∃ touched, touched_labels user_schema groups (in_deletes i) (in_segments i) (seg_key <$> in_segments i)
               (in_partition_keys i) (in_primary_keys i) = Ok touched ∧
    (∀ r, r ∈ in_resolved i → label (key r) ∈ touched) ∧
    (∀ seg r, seg ∈ in_segments i → r ∈ prior_seg_rows seg → r.1 ∈ in_exclusion i → label (seg_key seg) ∈ touched).
Proof.
  intros Hpk [_ _ Hp Hdel Hdp] [Hsegs _ _] [Hcost Hlab Hexc Hpkl] Hgk. rewrite Hpk in Hp.
  unfold touched_labels. set (t0 := list_to_set (groups.*1) : labels).
  assert (∀ r, r ∈ in_resolved i → label (key r) ∈ t0) as Hres.
  { intros r Hr. apply elem_of_list_to_set. by apply (groups_label Hp (in_resolved i)). }
  rewrite Forall_forall in Hsegs.
  destruct (partition_subset_of_pk (in_partition_keys i) (in_primary_keys i)) eqn:Esub.
  - unfold delete_attributed_labels. specialize (Hdp eq_refl). specialize (Hpkl eq_refl).
    assert (∃ more, (match in_deletes i with
      | [] => Ok ∅
      | _ => let? ds := cold_delete_schema user_schema (in_primary_keys i) in
             let? idxs := key_indices Internal ds (in_partition_keys i) in
             Ok (list_to_set ((λ d, Some (partition_label (field_types ds idxs) (key_cells idxs d))) <$> in_deletes i))
      end : result ApiError labels) = Ok more ∧
      ∀ d, d ∈ in_deletes i → Some (partition_label (field_types ds didx) (key_cells didx d)) ∈ more) as (more & Hm & Hmore).
    { destruct (in_deletes i) as [|d0 dels]; [exists ∅; split; [done|by intros d ?%elem_of_nil]|].
      rewrite Hdel. cbn [result_bind]. rewrite Hdp. cbn [result_bind]. eexists. split; [done|].
      intros d Hd. apply elem_of_list_to_set. by apply (list_elem_of_fmap_2 (λ d, Some (partition_label (field_types ds didx) (key_cells didx d)))). }
    rewrite Hm. cbn [result_bind]. exists (t0 ∪ more). split_and!; [done|set_solver|].
    intros seg r Hs Hr Hu. assert (r ∈ all_rows (in_segments i)) as Hra by (apply elem_all_rows; eauto).
    rewrite <- (seg_key_row seg r (Hsegs seg Hs) Hr). destruct (Hpkl r Hra) as [Hup Hde].
    destruct (Hexc _ Hu) as [Hin|Hin]; apply list_elem_of_fmap in Hin as (x & Hx & Hin).
    + rewrite <- (Hup x Hin) by done. apply elem_of_union_l. by apply Hres.
    + rewrite <- (Hde x Hin) by done. apply elem_of_union_r. by apply Hmore.
  - unfold delete_row_uuids, reverse_lookup_attributed_labels.
    assert (∃ dels, (match in_deletes i with
      | [] => Ok ∅
      | _ => let? _ := cold_delete_schema user_schema (in_primary_keys i) in Ok (list_to_set (fst <$> in_deletes i))
      end : result ApiError (gset Z)) = Ok dels ∧ ∀ u, u ∈ (in_deletes i).*1 → u ∈ dels) as (dels & Hd & Hdels).
    { destruct (in_deletes i) as [|d0 ds']; [exists ∅; split; [done|by intros d ?%elem_of_nil]|].
      rewrite Hdel. cbn [result_bind]. eexists. split; [done|]. intros u Hu. by apply elem_of_list_to_set. }
    rewrite Hd. cbn [result_bind]. set (us := touched_row_uuids_from_delta groups ∪ dels).
    assert (∀ u, u ∈ in_exclusion i → u ∈ us) as Hus.
    { intros u Hu. destruct (Hexc _ Hu) as [Hin|Hin]; [apply elem_of_union_l|apply elem_of_union_r; by apply Hdels].
      unfold touched_row_uuids_from_delta. apply elem_of_list_to_set. destruct Hgk as (_ & Hcat & _). by rewrite Hcat. }
    case_decide as Hemp.
    { cbn [result_bind]. exists (t0 ∪ ∅). split_and!; [done|set_solver|]. intros seg r _ _ Hu%Hus. set_solver. }
    destruct (probe_all_spec (elements us) (filter (λ c : PartitionOrderKey * PriorSegment, label c.1 ∉ t0)
      (zip (seg_key <$> in_segments i) (in_segments i)))) as (ls & -> & Hls).
    { intros Hn%elements_empty_inv. set_solver. }
    { apply Forall_forall. intros [k seg] [_ Hin]%list_elem_of_filter. apply elem_of_zip_r in Hin. by apply Hsegs. }
    cbn [result_bind]. exists (t0 ∪ ls). split_and!; [done|set_solver|]. intros seg r Hs Hr Hu.
    destruct (decide (label (seg_key seg) ∈ t0)) as [?|Hnt]; [set_solver|]. apply elem_of_union_r.
    apply (Hls (seg_key seg) seg r); [|done|by apply elem_of_elements, Hus].
    apply list_elem_of_filter. split; [done|]. apply list_elem_of_lookup in Hs as [j Hj].
    apply (list_elem_of_lookup_2 _ j). rewrite lookup_zip_with, list_lookup_fmap, Hj. done.
Qed.

End carry_sound.

(** ** The carry path packs what the rewrite packs

    The split of the prior segments hands the packer a valid cycle, whichever
    labels the attribution touched; the two paths of [snapshot_pack] then hold
    the same rows. *)

(** ** Lists *)

Lemma StronglySorted_sublist {A} (R : relation A) (l k : list A) : sublist l k → StronglySorted R k → StronglySorted R l.
Proof.
  induction 1 as [|x l k Hs IH|x l k Hs IH]; intros Hk; [constructor| |]; apply StronglySorted_inv in Hk as [Hk Hf].
  - constructor; [by apply IH|]. rewrite Forall_forall in Hf |- *. intros y Hy. apply Hf.
    by eapply elem_of_submseteq; [exact Hy|apply sublist_submseteq].
  - by apply IH.
Qed.

Lemma filter_sublist {A} (P : A → Prop) `{!∀ x, Decision (P x)} (l : list A) : sublist (filter P l) l.
Proof. induction l as [|x l IH]; [constructor|]. rewrite filter_cons. destruct (decide (P x)); by constructor. Qed.

Lemma concat_sublist {A B} (f : A → list B) (l k : list A) : sublist l k → sublist (concat (f <$> l)) (concat (f <$> k)).
Proof.
  induction 1 as [|x l k Hs IH|x l k Hs IH]; [done| |]; rewrite ?fmap_cons; cbn [concat].
  - by apply sublist_app.
  - by apply sublist_inserts_l.
Qed.

Lemma filter_concat {A} (P : A → Prop) `{!∀ x, Decision (P x)} (ls : list (list A)) :
  concat (filter P <$> ls) = filter P (concat ls).
Proof. induction ls as [|l ls IH]; [done|]. rewrite fmap_cons. cbn [concat]. by rewrite filter_app, IH. Qed.

Lemma filter_split {A} (P : A → Prop) `{!∀ x, Decision (P x)} (l : list A) :
  l ≡ₚ filter P l ++ filter (λ x, ¬ P x) l.
Proof.
  induction l as [|x l IH]; [done|]. rewrite !filter_cons. destruct (decide (P x)) as [HP|HP].
  - rewrite decide_False by tauto. simpl. by f_equiv.
  - rewrite decide_True by done. rewrite <- Permutation_middle. by f_equiv.
Qed.

Lemma concat_concat_fmap {A B} (f : A → list B) (ls : list (list A)) :
  concat ((λ l, concat (f <$> l)) <$> ls) = concat (f <$> concat ls).
Proof. induction ls as [|l ls IH]; [done|]. rewrite fmap_cons. cbn [concat]. by rewrite fmap_app, concat_app, IH. Qed.

Lemma concat_perm {A} (l k : list (list A)) : l ≡ₚ k → concat l ≡ₚ concat k.
Proof.
  induction 1 as [|x l k Hp IH|x y l|l k m Hp IH Hp' IH']; [done| | |by etrans]; cbn [concat]; [by f_equiv|].
  apply Permutation_app_swap_app.
Qed.

Section split.
Context `{UuidText} {K : ArrowKernels} `{!ArrowKernelsLaws K} {N : SegmentNaming} {C : StatsCodec} `{!StatsCodecLaws C}.
Context (user_schema : schema) (pkeys : list Z) (pidx : list nat).

Notation s := (snapshot_read_schema user_schema).
Notation key := (cycle_key s pkeys pidx).
Notation seg_key := (seg_key user_schema pkeys pidx).
Notation segment_ok := (segment_ok user_schema pidx).
Notation prior_ok := (prior_ok user_schema pkeys pidx).

Lemma zip_keys segs : zip (seg_key <$> segs) segs = (λ seg, (seg_key seg, seg)) <$> segs.
Proof. induction segs as [|seg segs IH]; [done|]. rewrite !fmap_cons. simpl. by f_equal. Qed.

(** The split, said of the segments alone. *)
Definition touched_part (touched : labels) (segs : list PriorSegment) : list PriorSegment :=
  filter (λ seg, label (seg_key seg) ∈ touched) segs.

Definition carried_part (touched : labels) (segs : list PriorSegment) : list PriorSegment :=
  filter (λ seg, label (seg_key seg) ∉ touched) segs.

Lemma split_parts touched segs :
  split_prior_segments_by_touch (seg_key <$> segs) segs touched =
  (touched_part touched segs,
   group_by fst (λ c, prior_uuid c.2) ((λ seg, (seg_key seg, seg)) <$> carried_part touched segs)).
Proof.
  unfold split_prior_segments_by_touch, touched_part, carried_part. rewrite zip_keys. f_equal; [|f_equal].
  - induction segs as [|seg segs IH]; [done|]. rewrite fmap_cons, !filter_cons. cbn [fst].
    destruct (decide _); [|done]. rewrite fmap_cons. cbn [snd]. by f_equal.
  - induction segs as [|seg segs IH]; [done|]. rewrite fmap_cons, !filter_cons. cbn [fst].
    destruct (decide _); [|done]. rewrite fmap_cons. by f_equal.
Qed.

Lemma seg_rows_lookup segs seg : NoDup (prior_uuid <$> segs) → seg ∈ segs → seg_rows segs (prior_uuid seg) = prior_seg_rows seg.
Proof.
  intros Hnd Hin. unfold seg_rows. assert (filter (λ g, prior_uuid g = prior_uuid seg) segs = [seg]) as ->; [|simpl; by rewrite app_nil_r].
  induction segs as [|g segs IH]; [by apply elem_of_nil in Hin|]. rewrite fmap_cons in Hnd. apply NoDup_cons in Hnd as [Hn Hnd].
  apply elem_of_cons in Hin as [->|Hin].
  - rewrite filter_cons_True by done. f_equal. apply filter_none. intros x Hx Heq. apply Hn. rewrite <- Heq.
    by apply list_elem_of_fmap_2.
  - rewrite filter_cons_False; [by apply IH|]. intros Heq. apply Hn. rewrite Heq. by apply list_elem_of_fmap_2.
Qed.

Lemma seg_rows_all segs part :
  NoDup (prior_uuid <$> segs) → (∀ seg, seg ∈ part → seg ∈ segs) →
  concat (seg_rows segs <$> (prior_uuid <$> part)) = all_rows part.
Proof.
  intros Hnd Hsub. unfold all_rows. f_equal. rewrite <- list_fmap_compose. apply list_fmap_ext. intros j seg Hj. simpl.
  apply seg_rows_lookup; [done|]. apply Hsub. by apply list_elem_of_lookup_2 in Hj.
Qed.

(** The carried map: ascending, its partitions the carried segments' rows. *)
Lemma carried_map_spec touched segs :
  prior_ok segs →
  let carried := group_by fst (λ c, prior_uuid c.2) ((λ seg, (seg_key seg, seg)) <$> carried_part touched segs) in
  ascending carried ∧ Forall (block_ok key) (carried_rows (seg_rows segs) carried) ∧
  concat ((carried_rows (seg_rows segs) carried).*2) ≡ₚ all_rows (carried_part touched segs) ∧
  ∀ k, k ∈ carried.*1 → label k ∉ touched.
Proof.
  intros [Hsegs Hnd Hord] carried. set (part := carried_part touched segs) in *.
  assert (∀ seg, seg ∈ part → seg ∈ segs ∧ label (seg_key seg) ∉ touched) as Hpart
    by (intros seg [? ?]%list_elem_of_filter; done).
  rewrite Forall_forall in Hsegs.
  assert (∀ k us, (k, us) ∈ carried → us ≠ [] ∧ ∀ u, u ∈ us → ∃ seg, seg ∈ part ∧ prior_uuid seg = u ∧ seg_key seg = k) as Hgrp.
  { intros k us [-> Hne]%group_by_elem. split; [done|]. intros u ([k' seg] & -> & [Hk Hin]%list_elem_of_filter)%list_elem_of_fmap.
    apply list_elem_of_fmap in Hin as (seg' & [= -> ->] & Hin). by exists seg'. }
  split_and!.
  - apply group_by_ascending.
  - apply Forall_fmap, Forall_forall. intros [k us] Hin. destruct (Hgrp k us Hin) as [Hne Hu]. split; simpl.
    + destruct us as [|u us]; [done|]. destruct (Hu u) as (seg & Hs & <- & _); [by left|]. rewrite fmap_cons. cbn [concat].
      destruct (Hpart seg Hs) as [Hs' _]. rewrite (seg_rows_lookup segs seg Hnd Hs'). destruct (Hsegs seg Hs') as [Hr _ _ _ _].
      by destruct (prior_seg_rows seg).
    + intros r Hr. apply list_elem_of_In, in_concat in Hr as (b & Hb & Hr). apply list_elem_of_In, list_elem_of_fmap in Hb as (u & -> & Hin').
      destruct (Hu u Hin') as (seg & Hs & <- & <-). destruct (Hpart seg Hs) as [Hs' _].
      rewrite (seg_rows_lookup segs seg Hnd Hs') in Hr. apply seg_key_row; [by apply Hsegs|by apply list_elem_of_In].
  - unfold carried_rows. rewrite <- list_fmap_compose.
    change (snd ∘ (λ c : PartitionOrderKey * list Z, (c.1, concat (seg_rows segs <$> c.2)))) with
      ((λ us, concat (seg_rows segs <$> us)) ∘ (snd : PartitionOrderKey * list Z → list Z)).
    rewrite list_fmap_compose, concat_concat_fmap. unfold carried. rewrite group_by_concat.
    rewrite <- (list_fmap_compose (λ seg, (seg_key seg, seg)) (λ c : PartitionOrderKey * PriorSegment, prior_uuid c.2) part).
    change ((λ c : PartitionOrderKey * PriorSegment, prior_uuid c.2) ∘ (λ seg, (seg_key seg, seg))) with prior_uuid.
    rewrite (seg_rows_all segs part Hnd); [done|]. intros seg Hs. by apply Hpart.
  - intros k ([k' us] & -> & Hin)%list_elem_of_fmap. destruct (Hgrp k' us Hin) as [Hne Hu].
    destruct us as [|u us]; [done|]. destruct (Hu u) as (seg & Hs & _ & <-); [by left|]. by apply Hpart.
Qed.

(** The prior stream of some of the segments is in partition order. *)
Lemma survivor_stream_rows ex segs : concat (survivor_stream ex segs) = filter (λ r, r.1 ∉ ex) (all_rows segs).
Proof. unfold survivor_stream, all_rows. rewrite <- filter_concat, <- list_fmap_compose. done. Qed.

Lemma survivor_stream_ok ex segs part :
  prior_ok segs → sublist part segs →
  Forall (Forall (row_ok s)) (survivor_stream ex part) ∧
  StronglySorted olt ((key_runs key (concat (survivor_stream ex part))).*1).
Proof.
  intros [Hsegs _ Hord] Hsub. split.
  - apply Forall_fmap, Forall_forall. intros seg Hin. apply Forall_forall. intros r [_ Hr]%list_elem_of_filter.
    rewrite Forall_forall in Hsegs. destruct (Hsegs seg) as [_ Hc _ _ _]; [|rewrite Forall_forall in Hc; by apply Hc].
    by eapply elem_of_submseteq; [exact Hin|apply sublist_submseteq].
  - apply runs_sorted. rewrite survivor_stream_rows. apply sorted_filter. eapply StronglySorted_sublist; [|exact Hord].
    apply (fmap_sublist key). by apply (concat_sublist prior_seg_rows).
Qed.

(** ** The two paths *)

(** What a packed snapshot over [segs] holds. *)
(** A fresh row lies in a segment of its own partition; a carried segment is one
    of the prior plan's. *)
Definition laid_from (i : SnapshotInput) (x : laid_row (R := srow)) : Prop :=
  match x with
  | inl (l, r) => l = label (key r)
  | inr u => u ∈ prior_uuid <$> in_segments i
  end.

Definition packs (i : SnapshotInput) (steps : list (PackStep srow)) : Prop :=
  step_rows (seg_rows (in_segments i)) steps ≡ₚ filter (λ r, r.1 ∉ in_exclusion i) (all_rows (in_segments i)) ++ in_resolved i ∧
  StronglySorted ole (key <$> step_rows (seg_rows (in_segments i)) steps) ∧
  (∃ n, concat (step_idxs <$> steps) = seq 0 n) ∧ Forall (step_shape s (in_snap i) (in_max_segment_bytes i)) steps ∧
  Forall (laid_from i) (concat (laid <$> steps)).

Lemma label_exact_resolved i didx ds :
  window_ok user_schema pkeys pidx i didx ds → labels_typed s pkeys pidx (in_resolved i).
Proof.
  intros [_ Hl _ _]. apply label_exact_typed. eapply label_exact_sub; [exact Hl|]. intros r Hr. apply elem_of_app. by right.
Qed.

Lemma rewrite_path_packs i sidx didx ds :
  in_partition_keys i = pkeys → table_ok user_schema i sidx pidx didx ds → prior_ok (in_segments i) →
  window_ok user_schema pkeys pidx i didx ds → ∃ steps, rewrite_path user_schema i = Ok steps ∧ packs i steps.
Proof using ArrowKernelsLaws0.
  intros Hpk [_ Hs Hp _ _] Hprior Hwin. rewrite Hpk in Hp.
  destruct (survivor_stream_ok (in_exclusion i) _ _ Hprior (reflexivity _)) as [Hst Hord].
  destruct (cycle_correct s pkeys _ sidx pidx Hs Hp (in_resolved i) (survivor_stream (in_exclusion i) (in_segments i)) []
    (seg_rows (in_segments i)) (in_snap i) (in_max_segment_bytes i)) as (steps & n & Hpc & Hperm & Hso & Hidx & Hsh & Hlaid).
  { split; try done; [by apply (wo_cost _ _ _ _ _ _ Hwin)|by eapply label_exact_resolved|apply SSorted_nil|].
    intros r _. apply not_elem_of_nil. }
  exists steps. unfold rewrite_path. rewrite Hpk. split; [exact Hpc|]. split_and!; [|by apply runs_sorted|by exists n|done|].
  2:{ eapply Forall_impl; [exact Hlaid|]. intros [[l r]|u]; [done|]. by intros (c & ?%elem_of_nil & _). }
  by rewrite Hperm, survivor_stream_rows.
Qed.

Lemma carry_path_packs i sidx didx ds :
  in_partition_keys i = pkeys → table_ok user_schema i sidx pidx didx ds → prior_ok (in_segments i) →
  window_ok user_schema pkeys pidx i didx ds →
  ∃ steps, carry_path user_schema i (seg_key <$> in_segments i) = Ok steps ∧ packs i steps.
Proof using ArrowKernelsLaws0 StatsCodecLaws0.
  intros Hpk Htab Hprior Hwin. pose proof Htab as [_ Hs Hp _ _]. rewrite Hpk in Hp.
  destruct (partition_groups s pkeys pidx Hp (in_resolved i)) as (groups & Hgr & Hgk).
  destruct (touched_spec user_schema pkeys pidx i sidx didx ds groups Hpk Htab Hprior Hwin Hgk) as (touched & Ht & Hres & Hexc).
  set (segs := in_segments i) in *. set (part := touched_part touched segs).
  destruct (survivor_stream_ok (in_exclusion i) segs part Hprior (filter_sublist _ _)) as [Hst Hord].
  destruct (carried_map_spec touched segs Hprior) as (Hca & Hcb & Hcc & Hck).
  set (carried := group_by _ _ _) in *.
  destruct (cycle_correct s pkeys _ sidx pidx Hs Hp (in_resolved i) (survivor_stream (in_exclusion i) part) carried
    (seg_rows segs) (in_snap i) (in_max_segment_bytes i)) as (steps & n & Hpc & Hperm & Hso & Hidx & Hsh & Hlaid).
  { split; try done; [by apply (wo_cost _ _ _ _ _ _ Hwin)|by eapply label_exact_resolved|].
    intros r Hr Hin. apply (Hck _ Hin). apply elem_of_app in Hr as [Hr|Hr]; [by apply Hres|].
    rewrite survivor_stream_rows in Hr. apply list_elem_of_filter in Hr as [_ Hr]. apply elem_all_rows in Hr as (seg & Hsg & Hr).
    apply list_elem_of_filter in Hsg as [Hl Hsg]. rewrite (seg_key_row user_schema pkeys pidx seg r); [done| |done].
    destruct Hprior as [Hsegs _ _]. rewrite Forall_forall in Hsegs. by apply Hsegs. }
  exists steps. unfold carry_path. rewrite Hpk in Ht |- *. rewrite Hgr. cbn [result_bind]. fold segs. rewrite Ht. cbn [result_bind].
  rewrite split_parts. fold part carried. split; [exact Hpc|]. unfold packs. fold segs.
  split_and!; [|by apply runs_sorted|by exists n|done|].
  2:{ eapply Forall_impl; [exact Hlaid|]. intros [[l r]|u]; [done|]. intros ([k us] & Hin & Hu). unfold carried in Hin.
    apply group_by_elem in Hin as [-> _]. apply list_elem_of_fmap in Hu as ([k' seg] & -> & [_ Hin]%list_elem_of_filter).
    apply list_elem_of_fmap in Hin as (seg' & [= -> ->] & [_ Hin]%list_elem_of_filter). by apply list_elem_of_fmap_2. }
  rewrite Hperm, survivor_stream_rows, Hcc, app_assoc. f_equiv.
  rewrite <- (filter_all (λ r, r.1 ∉ in_exclusion i) (all_rows (carried_part touched segs))).
  2:{ intros r (seg & [Hn Hsg]%list_elem_of_filter & Hr)%elem_all_rows Hu. apply Hn. by apply (Hexc seg r). }
  rewrite <- filter_app, Permutation_app_comm. f_equiv. unfold all_rows, part.
  rewrite <- concat_app, <- fmap_app. symmetry. apply concat_perm, fmap_Permutation, filter_split.
Qed.

End split.

(** Whichever path the gate takes, it packs. *)
Lemma snapshot_packs `{UuidText} {K : ArrowKernels} `{!ArrowKernelsLaws K} {N : SegmentNaming} {C : StatsCodec} `{!StatsCodecLaws C}
    (user_schema : schema) (i : SnapshotInput) (sidx pidx didx : list nat) (ds : schema) :
  table_ok user_schema i sidx pidx didx ds → prior_ok user_schema (in_partition_keys i) pidx (in_segments i) →
  window_ok user_schema (in_partition_keys i) pidx i didx ds →
  ∃ steps, snapshot_pack user_schema i = Ok steps ∧ packs user_schema (in_partition_keys i) pidx i steps.
Proof.
  intros Htab Hprior Hwin. unfold snapshot_pack. rewrite (ordering_new _ _ pidx (tk_part _ _ _ _ _ _ Htab)). cbn [result_bind].
  destruct (carry_forward_keys _ _ _ _ _ _ _) as [keys|] eqn:Ek; [|by eapply rewrite_path_packs].
  apply carry_forward_keys_Some in Ek as (_ & Hne & Hkeys).
  apply (segment_keys_spec user_schema _ pidx (tk_names _ _ _ _ _ _ Htab) Hne (tk_part _ _ _ _ _ _ Htab)) in Hkeys as ->;
    [|by apply (pr_segs _ _ _ _ Hprior)].
  by eapply carry_path_packs.
Qed.

(** ** Theorem *)


(** ** A concrete carry-forward

    A table partitioned by a column outside its primary key, a snapshot of it as
    the writer leaves it, and a window that moves a row between partitions and
    deletes another. *)

Module CarryDemo.
Import PackDemo.

(** ** A codec that reads back *)

Definition put_scalar (v : option value) : list Z :=
  match v with
  | Some (VInt z) => [1; z]
  | Some (VBin bs) => 2 :: Z.of_nat (length bs) :: bs
  | _ => [0]
  end.

Definition get_scalar (bs : list Z) : option (option value * list Z) :=
  match bs with
  | 0 :: rest => Some (None, rest)
  | 1 :: z :: rest => Some (Some (VInt z), rest)
  | 2 :: n :: rest => Some (Some (VBin (take (Z.to_nat n) rest)), drop (Z.to_nat n) rest)
  | _ => None
  end.

Definition scalar_fits (v : option value) : bool :=
  match v with Some VNull | Some (VArr _) => false | _ => true end.

Lemma get_put v rest : scalar_fits v = true → get_scalar (put_scalar v ++ rest) = Some (v, rest).
Proof.
  destruct v as [[|z|bs|vs]|]; try done. intros _. simpl.
  rewrite Nat2Z.id, take_app_length, drop_app_length. done.
Qed.

Definition put_column (c : ColumnStatsV0) : list Z :=
  cs_name c :: put_scalar (cs_min c) ++ put_scalar (cs_max c) ++
  match cs_null_count c with Some n => [1; n] | None => [0; 0] end.

Definition get_column (bs : list Z) : option (ColumnStatsV0 * list Z) :=
  match bs with
  | nm :: rest =>
      '(mn, rest) ← get_scalar rest;
      '(mx, rest) ← get_scalar rest;
      match rest with
      | t :: n :: rest => Some ({| cs_name := nm; cs_min := mn; cs_max := mx;
                                   cs_null_count := if t =? 1 then Some n else None |}, rest)
      | _ => None
      end
  | [] => None
  end.

Definition column_fits (c : ColumnStatsV0) : bool := scalar_fits (cs_min c) && scalar_fits (cs_max c).

Lemma get_put_column c rest : column_fits c = true → get_column (put_column c ++ rest) = Some (c, rest).
Proof.
  destruct c as [nm mn mx nc]. unfold column_fits. intros [Hn Hx]%andb_prop. unfold put_column. simpl in *.
  rewrite <- !app_assoc, (get_put mn) by done. simpl. rewrite (get_put mx) by done. by destruct nc.
Qed.

Fixpoint get_columns (n : nat) (bs : list Z) : option (list ColumnStatsV0) :=
  match n with
  | O => match bs with [] => Some [] | _ => None end
  | S n' => '(c, rest) ← get_column bs; cs ← get_columns n' rest; Some (c :: cs)
  end.

Lemma get_put_columns cs :
  forallb column_fits cs = true → get_columns (length cs) (concat (put_column <$> cs)) = Some cs.
Proof.
  induction cs as [|c cs IH]; [done|]. intros [Hc Hcs]%andb_prop. rewrite fmap_cons. cbn [concat length get_columns].
  rewrite (get_put_column c _ Hc). simpl. by rewrite (IH Hcs).
Qed.

#[export] Instance codec : StatsCodec :=
  {| to_vec := λ p, if forallb column_fits (st_per_column p)
                    then st_row_count p :: Z.of_nat (length (st_per_column p)) :: concat (put_column <$> st_per_column p)
                    else [];
     from_slice := λ bs, match bs with
                         | rc :: n :: rest => cs ← get_columns (Z.to_nat n) rest;
                             Some {| st_row_count := rc; st_per_column := cs |}
                         | _ => None
                         end |}.

#[export] Instance codec_laws : StatsCodecLaws codec.
Proof.
  split. intros [rc cs] q. simpl. destruct (forallb column_fits cs) eqn:E; [|done].
  rewrite Nat2Z.id, get_put_columns by done. by intros [= <-].
Qed.

#[export] Instance uuid_digits : UuidText := λ u, [u].

(** ** The table: [region] (partition key, outside the primary key) and [id] *)

Definition users : schema :=
  [{| field_name := 1; field_type := DtUtf8 |}; {| field_name := 2; field_type := DtInt64 |}].

Notation s := (snapshot_read_schema users).

Definition row (u : Z) (region : list Z) (id : Z) : srow := (u, [VBin region; VInt id]).

Definition de : list Z := [100; 101].
Definition eu : list Z := [101; 117].
Definition us : list Z := [117; 115].

Definition sidecar_of (rows : list srow) : option sidecar :=
  match build_segment_index [(λ r : srow, Some r.1) <$> rows] with Ok sc => Some sc | Err _ => None end.

Definition segment (uuid : Z) (rows : list srow) : PriorSegment :=
  {| prior_uuid := uuid; prior_seg_rows := rows; prior_statistics := compute_segment_statistics s rows;
     prior_sidecar := sidecar_of rows |}.

Definition prior : list PriorSegment :=
  [segment 100 [row 9 de 90]; segment 101 [row 1 eu 10; row 3 eu 30]; segment 102 [row 2 us 20]].

(** Row 1 moves from [eu] to [us]; row 3 is deleted. *)
Definition window : SnapshotInput :=
  {| in_partition_keys := [1]; in_primary_keys := [2]; in_clustering_keys := [];
     in_recorded_partition_keys := Some [1]; in_recorded_clustering_keys := Some [2];
     in_segments := prior; in_resolved := [row 1 us 10];
     in_deletes := [(3, [VInt 30; VInt 7; VInt 100; VInt 90; VInt 5])];
     in_exclusion := {[1; 3]}; in_snap := 8; in_max_segment_bytes := 60 |}.

Definition delete_log : schema :=
  {| field_name := ROW_UUID; field_type := DtUtf8 |} :: {| field_name := 2; field_type := DtInt64 |} ::
  {| field_name := WRITE_SEQ_NUM; field_type := DtInt64 |} :: cold_tx_metadata_fields.

Lemma labels_exact rows : Forall (λ r : srow, ∃ u bs id, r = row u bs id) rows → label_exact users [1] [1%nat] rows.
Proof.
  intros Hf r r' Hr Hr'. rewrite Forall_forall in Hf. destruct (Hf r Hr) as (u & bs & a & ->).
  destruct (Hf r' Hr') as (u' & bs' & a' & ->). cbn. by intros [= ->].
Qed.

Lemma segment_fine uuid rows :
  rows ≠ [] → Forall (row_ok s) rows →
  (∀ r r', r ∈ rows → r' ∈ rows → key_cells [1%nat] r = key_cells [1%nat] r') →
  segment_ok users [1%nat] (segment uuid rows).
Proof.
  intros Hne Hc Hk. split; try done. unfold segment, sidecar_of. simpl.
  rewrite decide_True by (repeat constructor). by eexists.
Qed.

Lemma prior_fine : prior_ok users [1] [1%nat] prior.
Proof.
  split.
  - repeat apply Forall_cons_2; [..|apply Forall_nil_2]; apply segment_fine; try done;
      try (repeat constructor; by eexists);
      intros r r' Hr Hr'; repeat (apply elem_of_cons in Hr as [->|Hr]); try (by apply elem_of_nil in Hr);
      repeat (apply elem_of_cons in Hr' as [->|Hr']); try (by apply elem_of_nil in Hr'); done.
  - repeat constructor; set_solver.
  - repeat constructor; done.
Qed.

Lemma window_fine : window_ok users [1] [1%nat] window [] delete_log.
Proof.
  split.
  - repeat constructor; by eexists.
  - apply labels_exact. repeat constructor; by eexists _, _, _.
  - intros u Hu. simpl in *. set_solver.
  - done.
Qed.


End CarryDemo.
