(* ===== verification/SnapshotMeta.v ===== *)
(** * Snapshot metadata (penca-storage-meta/src/{snapshot,segment_index}.rs,
      penca-api/src/query/meta_plan.rs)

    The four snapshot tables of one branch (snapshot parents, segment rows,
    index parents, index sidecar rows), the cold files they name, the
    [segment_delete_set], one definition per statement, and the planning read
    over them. *)

From S2P Require Import Prelude CoreTypes IndexSeek IndexSelect Ordered Chunker BatchUtil SegmentStats Packer.
From stdpp Require Import base numbers list option sets gmap sorting.

Open Scope Z_scope.
Open Scope result_scope.

(** ** Names *)

(** [snapshot_segment_uri] and [segment_index_uri]: the branch's snapshot prefix,
    the snapshot, the segment that names the directory, and the file in it.  The
    slug of the [row_uuid] index is [None]. *)
Inductive file_uri :=
  | DataUri (snap seg : Z)
  | IndexUri (snap seg : Z) (slug : option Z).

#[export] Instance file_uri_eq_dec : EqDecision file_uri.
Proof. solve_decision. Defined.

#[export] Instance file_uri_countable : Countable file_uri.
Proof.
  apply (inj_countable'
    (λ u, match u with DataUri a b => (a, b, None) | IndexUri a b s => (a, b, Some s) end)
    (λ x : Z * Z * option (option Z), match x with (a, b, None) => DataUri a b | (a, b, Some s) => IndexUri a b s end)).
  by intros [].
Defined.

Definition uri_snapshot (u : file_uri) : Z := match u with DataUri s _ | IndexUri s _ _ => s end.

(** [row_uuid_for_pk seg [slug]] and [table_snapshot_index_uuid]. *)
Class IndexNaming := {
  segment_index_uuid : Z → option Z → Z;
  table_snapshot_index_uuid : Z → option Z → Z;
}.

(** ** Rows *)

Record snapshot_row := {
  sn_table : Z;
  sn_at : Z;
  sn_partition_keys : option (list Z);
  sn_clustering_keys : option (list Z);
  sn_seq : Z;
  sn_durable : bool;
  sn_commit : option Z;
}.

Record segment_row := {
  sg_snapshot : Z;
  sg_table : Z;
  sg_chunk_idx : nat;
  sg_uri : file_uri;
  sg_offset : nat;
  sg_length : nat;
  sg_row_count : nat;
  sg_size : option Z;
  sg_statistics : list Z;
  sg_commit : option Z;
}.

(** [table_snapshot_index_metadata]: one per snapshot and index. *)
Record parent_row := {
  ix_snapshot : Z;
  ix_index : option Z;
  ix_key_columns : option (list Z);
  ix_commit : option Z;
}.

(** [table_snapshot_segment_index_metadata]: one per segment and index. *)
Record child_row := {
  ch_segment : Z;
  ch_parent : Z;
  ch_uri : file_uri;
  ch_length : nat;
  ch_commit : option Z;
}.

Inductive file (R : Type) :=
  | BaseFile (rows : list R)
  | IndexFile (sc : sidecar).
Arguments BaseFile {R} _.
Arguments IndexFile {R} _.

Record snapshot_store (R : Type) := {
  st_snaps : gmap Z snapshot_row;
  st_segs : gmap Z segment_row;
  st_parents : gmap Z parent_row;
  st_children : gmap Z child_row;
  st_files : gmap file_uri (file R);
  st_delete_set : gmap file_uri Z;
}.
Arguments st_snaps {R} _.
Arguments st_segs {R} _.
Arguments st_parents {R} _.
Arguments st_children {R} _.
Arguments st_files {R} _.
Arguments st_delete_set {R} _.

Definition committed (c : option Z) : bool := match c with Some _ => true | None => false end.

Section statements.
Context {R : Type}.
Implicit Types (st : snapshot_store R).

Definition on_snaps (f : gmap Z snapshot_row → gmap Z snapshot_row) st : snapshot_store R :=
  {| st_snaps := f (st_snaps st); st_segs := st_segs st; st_parents := st_parents st;
     st_children := st_children st; st_files := st_files st; st_delete_set := st_delete_set st |}.
Definition on_segs (f : gmap Z segment_row → gmap Z segment_row) st : snapshot_store R :=
  {| st_snaps := st_snaps st; st_segs := f (st_segs st); st_parents := st_parents st;
     st_children := st_children st; st_files := st_files st; st_delete_set := st_delete_set st |}.
Definition on_parents (f : gmap Z parent_row → gmap Z parent_row) st : snapshot_store R :=
  {| st_snaps := st_snaps st; st_segs := st_segs st; st_parents := f (st_parents st);
     st_children := st_children st; st_files := st_files st; st_delete_set := st_delete_set st |}.
Definition on_children (f : gmap Z child_row → gmap Z child_row) st : snapshot_store R :=
  {| st_snaps := st_snaps st; st_segs := st_segs st; st_parents := st_parents st;
     st_children := f (st_children st); st_files := st_files st; st_delete_set := st_delete_set st |}.
Definition on_files (f : gmap file_uri (file R) → gmap file_uri (file R)) st : snapshot_store R :=
  {| st_snaps := st_snaps st; st_segs := st_segs st; st_parents := st_parents st;
     st_children := st_children st; st_files := f (st_files st); st_delete_set := st_delete_set st |}.
Definition on_delete_set (f : gmap file_uri Z → gmap file_uri Z) st : snapshot_store R :=
  {| st_snaps := st_snaps st; st_segs := st_segs st; st_parents := st_parents st;
     st_children := st_children st; st_files := st_files st; st_delete_set := f (st_delete_set st) |}.

(** ** Snapshot parents *)

(** [ON CONFLICT DO UPDATE] refreshes everything but [durable] and the stamp. *)
Definition insert_snapshot_metadata (snap table at_ : Z) (pkeys ckeys : list Z) (seq : Z) (durable : bool) st :
    snapshot_store R :=
  on_snaps (λ m,
    <[snap := match m !! snap with
              | None => {| sn_table := table; sn_at := at_; sn_partition_keys := Some pkeys;
                           sn_clustering_keys := Some ckeys; sn_seq := seq; sn_durable := durable; sn_commit := None |}
              | Some r => {| sn_table := sn_table r; sn_at := at_; sn_partition_keys := Some pkeys;
                             sn_clustering_keys := Some ckeys; sn_seq := seq; sn_durable := sn_durable r;
                             sn_commit := sn_commit r |}
              end]> m) st.

Definition stamp_snapshot (now : Z) (r : snapshot_row) : snapshot_row :=
  {| sn_table := sn_table r; sn_at := sn_at r; sn_partition_keys := sn_partition_keys r;
     sn_clustering_keys := sn_clustering_keys r; sn_seq := sn_seq r; sn_durable := sn_durable r;
     sn_commit := Some now |}.

Definition commit_snapshot_metadata (now snap : Z) st : snapshot_store R :=
  on_snaps (alter (stamp_snapshot now) snap) st.

Definition delete_uncommitted_snapshot_metadata (snap : Z) st : snapshot_store R :=
  on_snaps (λ m, match m !! snap with
                 | Some r => if committed (sn_commit r) then m else delete snap m
                 | None => m
                 end) st.

Definition last_durable_snapshot_at (table : Z) st : option Z :=
  zmax_list ((λ r, sn_at r) <$> filter (λ r, sn_table r = table ∧ sn_durable r = true ∧ committed (sn_commit r) = true)
                  (snd <$> map_to_list (st_snaps st))).

(** ** Segment rows *)

Definition stamp_segment (now : Z) (r : segment_row) : segment_row :=
  {| sg_snapshot := sg_snapshot r; sg_table := sg_table r; sg_chunk_idx := sg_chunk_idx r; sg_uri := sg_uri r;
     sg_offset := sg_offset r; sg_length := sg_length r; sg_row_count := sg_row_count r; sg_size := sg_size r;
     sg_statistics := sg_statistics r; sg_commit := Some now |}.

(** On a conflict the file range and statistics are replaced; the snapshot, the
    chunk index, the size and the stamp stay. *)
Definition insert_snapshot_segment (table uuid snap : Z) (idx : nat) (u : file_uri) (off len : nat) (stats : list Z) st :
    snapshot_store R :=
  on_segs (λ m,
    <[uuid := match m !! uuid with
              | None => {| sg_snapshot := snap; sg_table := table; sg_chunk_idx := idx; sg_uri := u; sg_offset := off;
                           sg_length := len; sg_row_count := len; sg_size := None; sg_statistics := stats;
                           sg_commit := None |}
              | Some r => {| sg_snapshot := sg_snapshot r; sg_table := sg_table r; sg_chunk_idx := sg_chunk_idx r;
                             sg_uri := u; sg_offset := off; sg_length := len; sg_row_count := len;
                             sg_size := sg_size r; sg_statistics := stats; sg_commit := sg_commit r |}
              end]> m) st.

Definition update_snapshot_segment_size (uuid size : Z) st : snapshot_store R :=
  on_segs (alter (λ r, {| sg_snapshot := sg_snapshot r; sg_table := sg_table r; sg_chunk_idx := sg_chunk_idx r;
    sg_uri := sg_uri r; sg_offset := sg_offset r; sg_length := sg_length r; sg_row_count := sg_row_count r;
    sg_size := Some size; sg_statistics := sg_statistics r; sg_commit := sg_commit r |}) uuid) st.

Definition commit_snapshot_segment (now uuid : Z) st : snapshot_store R :=
  on_segs (alter (stamp_segment now) uuid) st.

Definition commit_snapshot_segments_by_uuids (now : Z) (uuids : list Z) st : snapshot_store R :=
  on_segs (map_imap (λ u r, Some (if decide (u ∈ uuids) then stamp_segment now r else r))) st.

Definition delete_uncommitted_snapshot_segment (uuid : Z) st : snapshot_store R :=
  on_segs (λ m, match m !! uuid with
                | Some r => if committed (sg_commit r) then m else delete uuid m
                | None => m
                end) st.

Definition delete_uncommitted_snapshot_segments_by_uuids (uuids : list Z) st : snapshot_store R :=
  on_segs (filter (λ p : Z * segment_row, ¬ (p.1 ∈ uuids ∧ committed (sg_commit p.2) = false))) st.

Definition delete_snapshot_segments_by_uuids (uuids : list Z) st : snapshot_store R :=
  on_segs (filter (λ p : Z * segment_row, p.1 ∉ uuids)) st.

(** A carried row: the prior row's storage columns under the new identity; the
    join finds the prior row in the state before the statement. *)
Definition carry_segment (snap : Z) (sp : CarriedSegmentSpec) (old : segment_row) (existing : option segment_row) :
    segment_row :=
  {| sg_snapshot := snap; sg_table := match existing with Some r => sg_table r | None => sg_table old end;
     sg_chunk_idx := carried_chunk_idx sp; sg_uri := sg_uri old; sg_offset := sg_offset old;
     sg_length := sg_length old; sg_row_count := sg_row_count old; sg_size := sg_size old;
     sg_statistics := sg_statistics old;
     sg_commit := match existing with Some r => sg_commit r | None => None end |}.

(** Some specs join nothing: the statement's row count is short and the caller
    sees an error. *)
Definition insert_carried_snapshot_segments (snap : Z) (specs : list CarriedSegmentSpec) st :
    snapshot_store R * result ApiError unit :=
  match specs with
  | [] => (st, Ok tt)
  | _ =>
      let joined := filter (λ sp, is_Some (st_segs st !! prior_seg_uuid sp)) specs in
      (on_segs (λ m, foldl (λ acc sp,
          match m !! prior_seg_uuid sp with
          | Some old => <[new_seg_uuid sp := carry_segment snap sp old (acc !! new_seg_uuid sp)]> acc
          | None => acc
          end) m specs) st,
       if (length joined =? length specs)%nat then Ok tt else Err Internal)
  end.

(** ** Index parents *)

Definition stamp_parent (now : Z) (r : parent_row) : parent_row :=
  {| ix_snapshot := ix_snapshot r; ix_index := ix_index r; ix_key_columns := ix_key_columns r; ix_commit := Some now |}.

Definition insert_table_snapshot_index (uuid snap : Z) (index : option Z) (key_columns : option (list Z)) st :
    snapshot_store R :=
  on_parents (λ m,
    <[uuid := {| ix_snapshot := snap; ix_index := index; ix_key_columns := key_columns;
                 ix_commit := match m !! uuid with Some r => ix_commit r | None => None end |}]> m) st.

Definition commit_table_snapshot_index_for_snapshot (now snap : Z) st : snapshot_store R :=
  on_parents (fmap (λ r, if decide (ix_snapshot r = snap ∧ ix_commit r = None) then stamp_parent now r else r)) st.

Definition delete_uncommitted_table_snapshot_index_for_snapshot (snap : Z) st : snapshot_store R :=
  on_parents (filter (λ p : Z * parent_row, ¬ (ix_snapshot p.2 = snap ∧ committed (ix_commit p.2) = false))) st.

(** ** Sidecar rows *)

Definition stamp_child (now : Z) (r : child_row) : child_row :=
  {| ch_segment := ch_segment r; ch_parent := ch_parent r; ch_uri := ch_uri r; ch_length := ch_length r;
     ch_commit := Some now |}.

Definition insert_segment_index_metadata (uuid seg parent : Z) (u : file_uri) (len : nat) st : snapshot_store R :=
  on_children (λ m,
    <[uuid := {| ch_segment := seg; ch_parent := parent; ch_uri := u; ch_length := len;
                 ch_commit := match m !! uuid with Some r => ch_commit r | None => None end |}]> m) st.

Definition commit_segment_index_metadata_for_segments (now : Z) (segs : list Z) st : snapshot_store R :=
  on_children (fmap (λ r, if decide (ch_segment r ∈ segs ∧ ch_commit r = None) then stamp_child now r else r)) st.

Definition delete_uncommitted_segment_index_for_segments (segs : list Z) st : snapshot_store R :=
  on_children (filter (λ p : Z * child_row, ¬ (ch_segment p.2 ∈ segs ∧ committed (ch_commit p.2) = false))) st.

Definition delete_segment_index_metadata_for_segments (segs : list Z) st : snapshot_store R :=
  on_children (filter (λ p : Z * child_row, ch_segment p.2 ∉ segs)) st.

Definition list_segment_index_metadata (segs : list Z) st : list (Z * child_row) :=
  map_to_list (filter (λ p : Z * child_row, ch_segment p.2 ∈ segs ∧ committed (ch_commit p.2) = true) (st_children st)).

(** The prior sidecar is found by its own id, committed; a segment the prior
    snapshot did not index contributes no row. *)
Definition insert_carried_segment_indexes `{IndexNaming} (parent : Z) (slug : option Z) (pairs : list (Z * Z)) st :
    snapshot_store R :=
  on_children (λ m, foldl (λ acc p,
      match m !! segment_index_uuid p.2 slug with
      | Some old =>
          if committed (ch_commit old) then
            let id := segment_index_uuid p.1 slug in
            <[id := {| ch_segment := p.1; ch_parent := parent; ch_uri := ch_uri old; ch_length := ch_length old;
                       ch_commit := match acc !! id with Some r => ch_commit r | None => None end |}]> acc
          else acc
      | None => acc
      end) m pairs) st.

(** ** Retirement *)

(** [ORDER BY snapshotted_at_micros DESC LIMIT 1] over the committed parents.  The
    uuid of a snapshot is derived from its table and its time, so two snapshots of
    one table differ in time; the second key only makes the choice of the model a
    function, where the statement would leave a tie open. *)
Definition newer (x y : Z * snapshot_row) : Prop :=
  sn_at y.2 < sn_at x.2 ∨ (sn_at y.2 = sn_at x.2 ∧ sn_seq y.2 ≤ sn_seq x.2).

#[export] Instance newer_dec : RelDecision newer.
Proof. intros x y. unfold newer. apply _. Defined.

Definition committed_snapshots (table : Z) st : list (Z * snapshot_row) :=
  map_to_list (filter (λ p : Z * snapshot_row, sn_table p.2 = table ∧ committed (sn_commit p.2) = true) (st_snaps st)).

Definition get_retired_snapshot_segments (table : Z) st : list (Z * file_uri) :=
  match head (merge_sort newer (committed_snapshots table st)) with
  | None => []
  | Some (latest, _) =>
      (λ p : Z * segment_row, (p.1, sg_uri p.2)) <$>
        map_to_list (filter (λ p : Z * segment_row,
          sg_snapshot p.2 ≠ latest ∧ sg_snapshot p.2 ∈ (committed_snapshots table st).*1) (st_segs st))
  end.

Definition delete_orphaned_snapshot_metadata (table : Z) st : snapshot_store R :=
  on_snaps (filter (λ p : Z * snapshot_row,
    ¬ (sn_table p.2 = table ∧ ¬ Exists (λ q : Z * segment_row, sg_snapshot q.2 = p.1) (map_to_list (st_segs st))))) st.

Definition delete_orphaned_table_snapshot_index_rows st : snapshot_store R :=
  on_parents (filter (λ p : Z * parent_row, is_Some (st_snaps st !! ix_snapshot p.2))) st.

Definition enqueue_delete_set (now : Z) (uris : list file_uri) st : snapshot_store R :=
  on_delete_set (λ ds, foldr (λ u acc, <[u := now]> acc) ds uris) st.

(** ** The planning read *)

Record planned_segment := {
  pl_uuid : Z;
  pl_snapshot : Z;
  pl_uri : file_uri;
  pl_offset : nat;
  pl_length : nat;
  pl_statistics : list Z;
  pl_row_uuid_sidecar : option file_uri;
  pl_index_sidecars : list (Z * file_uri);
}.

Record SnapshotResult := {
  res_at : option Z;
  res_seq : option Z;
  res_segments : list planned_segment;
  res_indexes : list (Z * list Z);
  res_partition_keys : option (list Z);
  res_clustering_keys : option (list Z);
}.

Definition no_snapshot : SnapshotResult :=
  {| res_at := None; res_seq := None; res_segments := []; res_indexes := []; res_partition_keys := None;
     res_clustering_keys := None |}.

(** The picked snapshot: pinned, or the newest at or below both cutoffs. *)
Definition pick_snapshot (table : Z) (as_of seq_upper pinned : option Z) st : option (Z * snapshot_row) :=
  match pinned with
  | Some u => match st_snaps st !! u with
              | Some r => if decide (sn_table r = table ∧ committed (sn_commit r) = true) then Some (u, r) else None
              | None => None
              end
  | None =>
      head (merge_sort newer (filter (λ p : Z * snapshot_row,
        match as_of with Some t => sn_at p.2 <=? t | None => true end = true ∧
        match seq_upper with Some n => sn_seq p.2 <=? n | None => true end = true) (committed_snapshots table st)))
  end.

(** The committed index parents of a snapshot the join admits, [NULLS FIRST]. *)
Definition parent_le (x y : Z * parent_row) : Prop :=
  match ix_index x.2, ix_index y.2 with
  | None, _ => True
  | Some _, None => False
  | Some a, Some b => a ≤ b
  end.

#[export] Instance parent_le_dec : RelDecision parent_le.
Proof. intros x y. unfold parent_le. destruct (ix_index x.2), (ix_index y.2); apply _. Defined.

Definition plan_parents (snap : Z) (name_index : option Z) st : list (Z * parent_row) :=
  merge_sort parent_le (map_to_list (filter (λ p : Z * parent_row,
    ix_snapshot p.2 = snap ∧ committed (ix_commit p.2) = true ∧
    (ix_index p.2 = None ∨ is_Some (ix_key_columns p.2) ∨ (is_Some name_index ∧ ix_index p.2 = name_index)))
    (st_parents st))).

Definition plan_child (parent seg : Z) st : option file_uri :=
  head ((λ p : Z * child_row, ch_uri p.2) <$>
    map_to_list (filter (λ p : Z * child_row, ch_parent p.2 = parent ∧ ch_segment p.2 = seg ∧ committed (ch_commit p.2) = true)
      (st_children st))).

Definition attach_parent_row (seg : planned_segment) (index : option Z) (child : option file_uri) : planned_segment :=
  match index, child with
  | None, c => {| pl_uuid := pl_uuid seg; pl_snapshot := pl_snapshot seg; pl_uri := pl_uri seg; pl_offset := pl_offset seg;
                  pl_length := pl_length seg; pl_statistics := pl_statistics seg; pl_row_uuid_sidecar := c;
                  pl_index_sidecars := pl_index_sidecars seg |}
  | Some i, Some c => {| pl_uuid := pl_uuid seg; pl_snapshot := pl_snapshot seg; pl_uri := pl_uri seg;
                         pl_offset := pl_offset seg; pl_length := pl_length seg; pl_statistics := pl_statistics seg;
                         pl_row_uuid_sidecar := pl_row_uuid_sidecar seg;
                         pl_index_sidecars := pl_index_sidecars seg ++ [(i, c)] |}
  | Some _, None => seg
  end.

Definition sidecar_le (x y : Z * file_uri) : Prop := x.1 ≤ y.1.

#[export] Instance sidecar_le_dec : RelDecision sidecar_le.
Proof. intros x y. unfold sidecar_le. apply _. Defined.

Definition plan_segment (parents : list (Z * parent_row)) st (p : Z * segment_row) : planned_segment :=
  let base := {| pl_uuid := p.1; pl_snapshot := sg_snapshot p.2; pl_uri := sg_uri p.2; pl_offset := sg_offset p.2;
                 pl_length := sg_length p.2; pl_statistics := sg_statistics p.2; pl_row_uuid_sidecar := None;
                 pl_index_sidecars := [] |} in
  let seg := foldl (λ acc (q : Z * parent_row), attach_parent_row acc (ix_index q.2) (plan_child q.1 p.1 st)) base parents in
  {| pl_uuid := pl_uuid seg; pl_snapshot := pl_snapshot seg; pl_uri := pl_uri seg; pl_offset := pl_offset seg;
     pl_length := pl_length seg; pl_statistics := pl_statistics seg; pl_row_uuid_sidecar := pl_row_uuid_sidecar seg;
     pl_index_sidecars := merge_sort sidecar_le (pl_index_sidecars seg) |}.

Definition chunk_le (x y : Z * segment_row) : Prop := (sg_chunk_idx x.2 ≤ sg_chunk_idx y.2)%nat.

#[export] Instance chunk_le_dec : RelDecision chunk_le.
Proof. intros x y. unfold chunk_le. apply _. Defined.

Definition snapshot_segments (snap : Z) st : list (Z * segment_row) :=
  merge_sort chunk_le (map_to_list (filter (λ p : Z * segment_row, sg_snapshot p.2 = snap ∧ committed (sg_commit p.2) = true)
    (st_segs st))).

Definition index_def_le (x y : Z * list Z) : Prop := x.1 ≤ y.1.

#[export] Instance index_def_le_dec : RelDecision index_def_le.
Proof. intros x y. unfold index_def_le. apply _. Defined.

(** A snapshot with no committed segment row joins to nothing; a zero-row segment
    keeps the watermark and is dropped from the list. *)
Definition read_snapshot_segments_for_table (table : Z) (as_of seq_upper pinned name_index : option Z) st : SnapshotResult :=
  match pick_snapshot table as_of seq_upper pinned st with
  | None => no_snapshot
  | Some (u, r) =>
      match snapshot_segments u st with
      | [] => no_snapshot
      | rows =>
          let parents := plan_parents u name_index st in
          {| res_at := Some (sn_at r); res_seq := Some (sn_seq r);
             res_segments := plan_segment parents st <$> filter (λ p : Z * segment_row, sg_row_count p.2 ≠ 0%nat) rows;
             res_indexes := merge_sort index_def_le
               (omap (λ q : Z * parent_row, match ix_index q.2, ix_key_columns q.2 with
                                            | Some i, Some cols => Some (i, cols) | _, _ => None end) parents);
             res_partition_keys := sn_partition_keys r; res_clustering_keys := sn_clustering_keys r |}
      end
  end.

(** ** Reading a planned segment *)

Definition read_base (u : file_uri) (off len : nat) st : option (list R) :=
  match st_files st !! u with
  | Some (BaseFile rows) => Some (slice_rows rows off len)
  | _ => None
  end.

Definition read_sidecar (u : file_uri) st : option sidecar :=
  match st_files st !! u with
  | Some (IndexFile sc) => Some sc
  | _ => None
  end.

(** What a planned segment shows a reader: its rows, its identity sidecar, its
    keyed sidecars. *)
Definition resolve_planned st (p : planned_segment) : option (list R) * option sidecar * list (Z * option sidecar) :=
  (read_base (pl_uri p) (pl_offset p) (pl_length p) st,
   pl_row_uuid_sidecar p ≫= λ u, read_sidecar u st,
   (λ x : Z * file_uri, (x.1, read_sidecar x.2 st)) <$> pl_index_sidecars p).

(** A plan and everything it reads. *)
Definition table_view (table : Z) (as_of seq_upper pinned name_index : option Z) st :
    SnapshotResult * list (option (list R) * option sidecar * list (Z * option sidecar)) :=
  let res := read_snapshot_segments_for_table table as_of seq_upper pinned name_index st in
  (res, resolve_planned st <$> res_segments res).

End statements.
