(* ===== verification/SnapshotWrite.v ===== *)
(** * The snapshot write tail (penca-api/src/lifecycle/{durable_writer,snapshot_op,retire}.rs)

    [finish_snapshot_write] with its durable segment writer, index sidecars,
    carried segments and error cleanup, and snapshot retirement.  Every
    statement and file operation runs on its own connection, so each of them can
    be refused, lose its answer, or be the last thing the process does. *)

From S2P Require Import Prelude CoreTypes MergeSql IndexSeek IndexSelect Effects Ordered Chunker BatchUtil SegmentStats Packer CarryForward SnapshotMeta.
From stdpp Require Import base numbers list option sets gmap sorting.

Open Scope Z_scope.
Open Scope result_scope.

(** ** Effects *)

(** [SegmentGroup]: the rows that share one file; the uri once it is written. *)
Record SegmentGroup := { written_uri : option file_uri; seg_uuid_strs : list Z }.

Notation srow_store := (snapshot_store srow).

(** The store, the effects so far, and the writer's bookkeeping. *)
Record world := {
  w_store : srow_store;
  w_tick : nat;
  segment_groups : list SegmentGroup;
  carried_specs : list CarriedSegmentSpec;
  built_index_seg_uuids : list Z;
  built_index_uris : list file_uri;
}.

Notation M := (effect world).

Open Scope effect_scope.

Definition set_store (st : srow_store) (w : world) : world :=
  {| w_store := st; w_tick := w_tick w; segment_groups := segment_groups w; carried_specs := carried_specs w;
     built_index_seg_uuids := built_index_seg_uuids w; built_index_uris := built_index_uris w |}.

Definition tick (w : world) : world :=
  {| w_store := w_store w; w_tick := S (w_tick w); segment_groups := segment_groups w; carried_specs := carried_specs w;
     built_index_seg_uuids := built_index_seg_uuids w; built_index_uris := built_index_uris w |}.

Definition set_groups (g : list SegmentGroup) (w : world) : world :=
  {| w_store := w_store w; w_tick := w_tick w; segment_groups := g; carried_specs := carried_specs w;
     built_index_seg_uuids := built_index_seg_uuids w; built_index_uris := built_index_uris w |}.

Definition set_carried (c : list CarriedSegmentSpec) (w : world) : world :=
  {| w_store := w_store w; w_tick := w_tick w; segment_groups := segment_groups w; carried_specs := c;
     built_index_seg_uuids := built_index_seg_uuids w; built_index_uris := built_index_uris w |}.

Definition push_built_uri (u : file_uri) (w : world) : world :=
  {| w_store := w_store w; w_tick := w_tick w; segment_groups := segment_groups w; carried_specs := carried_specs w;
     built_index_seg_uuids := built_index_seg_uuids w; built_index_uris := built_index_uris w ++ [u] |}.

Definition push_built_seg (u : Z) (w : world) : world :=
  {| w_store := w_store w; w_tick := w_tick w; segment_groups := segment_groups w; carried_specs := carried_specs w;
     built_index_seg_uuids := built_index_seg_uuids w ++ [u]; built_index_uris := built_index_uris w |}.

Definition start (st : srow_store) : world :=
  {| w_store := st; w_tick := 0; segment_groups := []; carried_specs := []; built_index_seg_uuids := [];
     built_index_uris := [] |}.

(** ** The write context *)

Record user_index := { ui_uuid : Z; ui_columns : list Z }.

Record SnapshotWriteCtx := {
  c_table : Z;
  c_snap : Z;
  c_at : Z;
  c_seq : Z;
  c_durable : bool;
  c_user_schema : schema;
  c_partition_keys : list Z;
  c_clustering_keys : list Z;
  c_user_indexes : list user_index;
  (** the built-in name index of a system table *)
  c_name_index : option user_index;
}.

(** The key of a cell in an index artifact; null is [None]. *)
Class IndexCell := index_cell : value → option Z.

Section write.
Context `{UuidText} {K : ArrowKernels} {N : SegmentNaming} {C : StatsCodec} {I : IndexNaming} {X : IndexCell}.
Context (faults : nat → fault) (now : Z).

(** One statement, whose own check may fail. *)
Definition exec_checked (f : srow_store → srow_store * result ApiError unit) : M unit := λ w,
  let w1 := tick w in
  match faults (w_tick w) with
  | Runs => let '(st, r) := f (w_store w) in
            (set_store st w1, match r with Ok _ => Returns tt | Err e => Raises e end)
  | Refused => (w1, Raises ColdStorage)
  | Lost => (set_store (f (w_store w)).1 w1, Raises ColdStorage)
  | Dies => (w1, Dead)
  end.

Definition exec (f : srow_store → srow_store) : M unit := exec_checked (λ st, (f st, Ok tt)).

(** One read. *)
Definition fetch {A} (f : srow_store → result ApiError A) : M A := λ w,
  let w1 := tick w in
  match faults (w_tick w) with
  | Runs => (w1, match f (w_store w) with Ok a => Returns a | Err e => Raises e end)
  | Refused | Lost => (w1, Raises ColdStorage)
  | Dies => (w1, Dead)
  end.

(** ** The durable segment writer *)

Definition open_group : M unit :=
  local (λ w, set_groups (segment_groups w ++ [{| written_uri := None; seg_uuid_strs := [] |}]) w).

Definition on_current_group (f : SegmentGroup → SegmentGroup) : M unit :=
  local (λ w, set_groups (alter f (pred (length (segment_groups w))) (segment_groups w)) w).

Definition push_seg_uuid (u : Z) : M unit :=
  on_current_group (λ g, {| written_uri := written_uri g; seg_uuid_strs := seg_uuid_strs g ++ [u] |}).

Definition set_written_uri (u : file_uri) : M unit :=
  on_current_group (λ g, {| written_uri := Some u; seg_uuid_strs := seg_uuid_strs g |}).

Definition write_segment_group (table : Z) (step : SnapshotFileStep srow) : M unit :=
  let u := DataUri (step_snap_uuid step) (uri step) in
  open_group ;!
  for_each (segment_rows step) (λ row,
    exec (insert_snapshot_segment table (seg_uuid row) (step_snap_uuid step) (spec_chunk_idx row) u
            (spec_offset row) (spec_length row) (statistics row)) ;!
    push_seg_uuid (seg_uuid row)) ;!
  exec (on_files (insert u (BaseFile (file_batch step)))) ;!
  set_written_uri u ;!
  for_each (segment_rows step) (λ row, exec (update_snapshot_segment_size (seg_uuid row) (size_bytes row))) ;!
  for_each (segment_rows step) (λ row, exec (commit_snapshot_segment now (seg_uuid row))).

(** Per group: the file, and once it is gone the rows still uncommitted. *)
Definition cleanup_group (g : SegmentGroup) : M unit :=
  file_gone ←! match written_uri g with
               | Some u => attempt (exec (on_files (delete u)))
               | None => returns (Ok tt)
               end ;
  match file_gone with
  | Err _ => returns tt
  | Ok _ => for_each (seg_uuid_strs g) (λ u, attempt (exec (delete_uncommitted_snapshot_segment u)) ;! returns tt)
  end.

Definition cleanup_on_err : M unit :=
  groups ←! get segment_groups ;
  for_each groups cleanup_group.

(** ** Index sidecars *)

Definition column_by_name (s : schema) (rows : list srow) (col : Z) : option (list cell) :=
  (λ i, (λ r, index_cell (cell_at i r)) <$> rows) <$> index_of s col.

Definition build_one_segment_sidecar (snap seg : Z) (key_cols : list (list cell)) (slug : option Z) (parent : Z) : M unit :=
  match build_segment_index key_cols with
  | Err _ => raises Internal
  | Ok sc =>
      let u := IndexUri snap seg slug in
      exec (on_files (insert u (IndexFile sc))) ;!
      exec (insert_segment_index_metadata (segment_index_uuid seg slug) seg parent u (length (entries sc))) ;!
      local (push_built_uri u)
  end.

Definition row_uuid_column (rows : list srow) : list cell := (λ r : srow, Some r.1) <$> rows.

Definition build_user_index_sidecar (s : schema) (snap seg : Z) (index : user_index) (rows : list srow) : M unit :=
  match mapM (column_by_name s rows) (ui_columns index) with
  | None => raises Internal
  | Some cols => build_one_segment_sidecar snap seg cols (Some (ui_uuid index))
                   (table_snapshot_index_uuid snap (Some (ui_uuid index)))
  end.

Definition build_file_segment_indexes (ctx : SnapshotWriteCtx) (file : SnapshotFileStep srow) : M unit :=
  let s := snapshot_read_schema (c_user_schema ctx) in
  for_each (segment_rows file) (λ row,
    if (spec_length row =? 0)%nat then returns tt
    else
      let slice := slice_rows (file_batch file) (spec_offset row) (spec_length row) in
      build_one_segment_sidecar (c_snap ctx) (seg_uuid row) [row_uuid_column slice] None
        (table_snapshot_index_uuid (c_snap ctx) None) ;!
      for_each (c_user_indexes ctx) (λ index, build_user_index_sidecar s (c_snap ctx) (seg_uuid row) index slice) ;!
      match c_name_index ctx with
      | Some name => build_user_index_sidecar s (c_snap ctx) (seg_uuid row) name slice
      | None => returns tt
      end ;!
      local (push_built_seg (seg_uuid row))).

(** *** Carried segments *)

(** The projected read of one carried base segment. *)
Definition read_carried_base_segment (prior : gmap Z planned_segment) (seg : Z) : M (list srow) :=
  match prior !! seg with
  | None => raises Internal
  | Some p => fetch (λ st, match read_base (pl_uri p) (pl_offset p) (pl_length p) st with
                           | Some rows => Ok rows
                           | None => Err Internal
                           end)
  end.

Definition covered (existing : list Z) (spec : CarriedSegmentSpec) (index : user_index) : bool :=
  bool_decide (segment_index_uuid (prior_seg_uuid spec) (Some (ui_uuid index)) ∈ existing).

Fixpoint read_wave (prior : gmap Z planned_segment) (wave : list (CarriedSegmentSpec * list user_index)) :
    M (list (CarriedSegmentSpec * list user_index * list srow)) :=
  match wave with
  | [] => returns []
  | (spec, indexes) :: rest =>
      rows ←! read_carried_base_segment prior (prior_seg_uuid spec) ;
      more ←! read_wave prior rest ;
      returns ((spec, indexes, rows) :: more)
  end.

Fixpoint waves_of {A} (fuel n : nat) (l : list A) : list (list A) :=
  match fuel, l with
  | O, _ | _, [] => []
  | S f, _ => take n l :: waves_of f n (drop n l)
  end.

Definition materialize_carried_user_indexes (ctx : SnapshotWriteCtx) (concurrency : nat) (specs : list CarriedSegmentSpec)
    (prior : gmap Z planned_segment) : M unit :=
  match c_user_indexes ctx, specs with
  | [], _ | _, [] => returns tt
  | _, _ =>
      existing ←! fetch (λ st, Ok (fst <$> list_segment_index_metadata (prior_seg_uuid <$> specs) st)) ;
      let uncovered :=
        filter (λ x : CarriedSegmentSpec * list user_index, x.2 ≠ [])
          ((λ spec, (spec, filter (λ i, covered existing spec i = false) (c_user_indexes ctx))) <$> specs) in
      for_each (waves_of (length uncovered) (Nat.max concurrency 1) uncovered) (λ wave,
        batches ←! read_wave prior wave ;
        for_each batches (λ x, let '(spec, indexes, rows) := x in
          for_each indexes (λ index,
            build_user_index_sidecar (snapshot_read_schema (c_user_schema ctx)) (c_snap ctx) (new_seg_uuid spec) index rows))) ;!
      for_each (c_user_indexes ctx) (λ index,
        match filter (λ spec, covered existing spec index = true) specs with
        | [] => returns tt
        | cov => exec (insert_carried_segment_indexes (table_snapshot_index_uuid (c_snap ctx) (Some (ui_uuid index)))
                         (Some (ui_uuid index)) ((λ spec, (new_seg_uuid spec, prior_seg_uuid spec)) <$> cov))
        end)
  end.

(** ** The write tail *)

Definition empty_merge_placeholder_step (ctx : SnapshotWriteCtx) : SnapshotFileStep srow :=
  let seg := table_snapshot_segment_uuid (c_snap ctx) 0 in
  {| step_snap_uuid := c_snap ctx; uri := seg; file_batch := [];
     segment_rows := [{| seg_uuid := seg; spec_chunk_idx := 0; partition_value := None; spec_offset := 0;
                         spec_length := 0; size_bytes := 0;
                         statistics := compute_segment_statistics (snapshot_read_schema (c_user_schema ctx)) ([] : list srow) |}] |}.

Definition declare_index_parents (ctx : SnapshotWriteCtx) : M unit :=
  exec (insert_table_snapshot_index (table_snapshot_index_uuid (c_snap ctx) None) (c_snap ctx) None None) ;!
  for_each (c_user_indexes ctx) (λ index,
    exec (insert_table_snapshot_index (table_snapshot_index_uuid (c_snap ctx) (Some (ui_uuid index))) (c_snap ctx)
            (Some (ui_uuid index)) (Some (ui_columns index)))) ;!
  match c_name_index ctx with
  | Some name => exec (insert_table_snapshot_index (table_snapshot_index_uuid (c_snap ctx) (Some (ui_uuid name)))
                         (c_snap ctx) (Some (ui_uuid name)) None)
  | None => returns tt
  end ;!
  exec (commit_table_snapshot_index_for_snapshot now (c_snap ctx)).

(** The pack stream: the steps it yields, and the error it may end with. *)
Definition write_steps (ctx : SnapshotWriteCtx) (steps : list (PackStep srow)) (failed : option ApiError) : M unit :=
  for_each steps (λ step,
    match step with
    | PackFile file => write_segment_group (c_table ctx) file ;! build_file_segment_indexes ctx file
    | PackCarried specs => local (λ w, set_carried (carried_specs w ++ specs) w)
    end) ;!
  match failed with Some e => raises e | None => returns tt end.

Definition write_carried (ctx : SnapshotWriteCtx) (concurrency : nat) (prior : gmap Z planned_segment) : M unit :=
  specs ←! get carried_specs ;
  match specs with
  | [] => returns tt
  | _ =>
      let uuids := new_seg_uuid <$> specs in
      exec_checked (insert_carried_snapshot_segments (c_snap ctx) specs) ;!
      exec (commit_snapshot_segments_by_uuids now uuids) ;!
      exec (insert_carried_segment_indexes (table_snapshot_index_uuid (c_snap ctx) None) None
              ((λ spec, (new_seg_uuid spec, prior_seg_uuid spec)) <$> specs)) ;!
      materialize_carried_user_indexes ctx concurrency specs prior ;!
      exec (commit_segment_index_metadata_for_segments now uuids)
  end.

Definition wrote_file (step : PackStep srow) : bool := match step with PackFile _ => true | PackCarried _ => false end.

Definition write_placeholder (ctx : SnapshotWriteCtx) (steps : list (PackStep srow)) : M unit :=
  specs ←! get carried_specs ;
  if existsb wrote_file steps then returns tt
  else match specs with
       | [] => write_segment_group (c_table ctx) (empty_merge_placeholder_step ctx)
       | _ => returns tt
       end.

(** Phase 1b, under the cleanup gate. *)
Definition write_body (ctx : SnapshotWriteCtx) (concurrency : nat) (steps : list (PackStep srow)) (failed : option ApiError)
    (prior : gmap Z planned_segment) : M unit :=
  declare_index_parents ctx ;!
  write_steps ctx steps failed ;!
  write_carried ctx concurrency prior ;!
  write_placeholder ctx steps ;!
  segs ←! get built_index_seg_uuids ;
  match segs with
  | [] => returns tt
  | _ => exec (commit_segment_index_metadata_for_segments now segs)
  end.

Definition quiet (f : srow_store → srow_store) : M unit := attempt (exec f) ;! returns tt.

Definition write_cleanup (ctx : SnapshotWriteCtx) : M unit :=
  cleanup_on_err ;!
  specs ←! get carried_specs ;
  let carried_uuids := new_seg_uuid <$> specs in
  quiet (delete_uncommitted_snapshot_segments_by_uuids carried_uuids) ;!
  quiet (delete_uncommitted_segment_index_for_segments carried_uuids) ;!
  quiet (delete_uncommitted_snapshot_metadata (c_snap ctx)) ;!
  uris ←! get built_index_uris ;
  for_each uris (λ u, quiet (on_files (delete u))) ;!
  segs ←! get built_index_seg_uuids ;
  quiet (delete_uncommitted_segment_index_for_segments segs) ;!
  quiet (delete_uncommitted_table_snapshot_index_for_snapshot (c_snap ctx)).

Definition finish_snapshot_write (ctx : SnapshotWriteCtx) (concurrency : nat) (steps : list (PackStep srow))
    (failed : option ApiError) (prior : gmap Z planned_segment) : M Z :=
  exec (insert_snapshot_metadata (c_snap ctx) (c_table ctx) (c_at ctx) (c_partition_keys ctx) (c_clustering_keys ctx)
          (c_seq ctx) (c_durable ctx)) ;!
  r ←! attempt (write_body ctx concurrency steps failed prior) ;
  match r with
  | Err e => write_cleanup ctx ;! raises e
  | Ok _ => exec (commit_snapshot_metadata now (c_snap ctx)) ;! returns (c_at ctx)
  end.

(** ** Retirement *)

Definition retire_snapshots_except_latest (table : Z) : M unit :=
  retired ←! fetch (λ st, Ok (get_retired_snapshot_segments table st)) ;
  match retired with
  | [] =>
      exec (delete_orphaned_snapshot_metadata table) ;!
      exec delete_orphaned_table_snapshot_index_rows
  | _ =>
      let uuids := fst <$> retired in
      (* one transaction *)
      exec (λ st,
        let sidecar_uris := (λ p : Z * child_row, ch_uri p.2) <$> list_segment_index_metadata uuids st in
        enqueue_delete_set now (remove_dups sidecar_uris)
          (enqueue_delete_set now (remove_dups (snd <$> retired))
            (delete_orphaned_table_snapshot_index_rows
              (delete_orphaned_snapshot_metadata table
                (delete_snapshot_segments_by_uuids uuids
                  (delete_segment_index_metadata_for_segments uuids st))))))
  end.

End write.
