(* ===== verification/SnapshotFrame.v ===== *)
(** * What a snapshot write can touch

    Every effect of a write for snapshot [S], cleanup included, stays within
    [S]'s own rows and files, under every fault; so a write that did not commit
    its parent is invisible. *)

From S2P Require Import Prelude CoreTypes MergeSql IndexSeek IndexSelect Effects Ordered Chunker BatchUtil SegmentStats Packer CarryForward SnapshotMeta SnapshotWrite.
From stdpp Require Import base numbers list option sets gmap sorting.

Open Scope Z_scope.
Open Scope effect_scope.

(** The names are collision-free. *)
Class NamingLaws (N : SegmentNaming) (I : IndexNaming) := {
  segment_uuid_inj : ∀ a i b j, table_snapshot_segment_uuid a i = table_snapshot_segment_uuid b j → a = b ∧ i = j;
  segment_index_uuid_inj : ∀ a x b y, segment_index_uuid a x = segment_index_uuid b y → a = b ∧ x = y;
  parent_uuid_inj : ∀ a x b y, table_snapshot_index_uuid a x = table_snapshot_index_uuid b y → a = b ∧ x = y;
}.

Section frame.
Context `{UuidText} {K : ArrowKernels} {N : SegmentNaming} {C : StatsCodec} {I : IndexNaming} {X : IndexCell}.
Context {NL : NamingLaws N I}.
Context (S : Z) (st0 : srow_store).

Definition own_seg (x : Z) : Prop := ∃ i, x = table_snapshot_segment_uuid S i.

(** ** Named rows *)

Definition segs_named (m : gmap Z segment_row) : Prop :=
  ∀ u r, m !! u = Some r → u = table_snapshot_segment_uuid (sg_snapshot r) (sg_chunk_idx r).
Definition parents_named (m : gmap Z parent_row) : Prop :=
  ∀ u r, m !! u = Some r → u = table_snapshot_index_uuid (ix_snapshot r) (ix_index r).
Definition children_named (m : gmap Z child_row) : Prop :=
  ∀ u r, m !! u = Some r → ∃ slug snap, u = segment_index_uuid (ch_segment r) slug ∧ ch_parent r = table_snapshot_index_uuid snap slug.

Record names_ok (st : srow_store) : Prop := {
  nm_seg : segs_named (st_segs st);
  nm_parent : parents_named (st_parents st);
  nm_child : children_named (st_children st);
}.

(** ** Outside [S] nothing changed *)

Record untouched (st : srow_store) : Prop := {
  un_snaps : ∀ u, u ≠ S → st_snaps st !! u = st_snaps st0 !! u;
  un_parent : ∀ r, st_snaps st !! S = Some r → sn_commit r = None;
  un_segs : ∀ u r, sg_snapshot r ≠ S → st_segs st !! u = Some r ↔ st_segs st0 !! u = Some r;
  un_parents : ∀ u r, ix_snapshot r ≠ S → st_parents st !! u = Some r ↔ st_parents st0 !! u = Some r;
  un_children : ∀ u r, ¬ own_seg (ch_segment r) → st_children st !! u = Some r ↔ st_children st0 !! u = Some r;
  un_files : ∀ f, uri_snapshot f ≠ S → st_files st !! f = st_files st0 !! f;
  un_queue : st_delete_set st = st_delete_set st0;
}.

Definition good (st : srow_store) : Prop := names_ok st ∧ untouched st.

Definition segs_local (g : gmap Z segment_row → gmap Z segment_row) : Prop :=
  ∀ m, segs_named m → segs_named (g m) ∧ ∀ u r, sg_snapshot r ≠ S → g m !! u = Some r ↔ m !! u = Some r.
Definition parents_local (g : gmap Z parent_row → gmap Z parent_row) : Prop :=
  ∀ m, parents_named m → parents_named (g m) ∧ ∀ u r, ix_snapshot r ≠ S → g m !! u = Some r ↔ m !! u = Some r.
Definition children_local (g : gmap Z child_row → gmap Z child_row) : Prop :=
  ∀ m, children_named m → children_named (g m) ∧ ∀ u r, ¬ own_seg (ch_segment r) → g m !! u = Some r ↔ m !! u = Some r.

Lemma on_segs_good g st : segs_local g → good st → good (on_segs g st).
Proof.
  intros Hg [[Hs Hp Hc] [U1 U2 U3 U4 U5 U6 U7]]. destruct (Hg _ Hs) as [Hn Hl].
  split; split; try done. intros u r Hr. cbn. rewrite (Hl u r Hr). by apply U3.
Qed.

Lemma on_parents_good g st : parents_local g → good st → good (on_parents g st).
Proof.
  intros Hg [[Hs Hp Hc] [U1 U2 U3 U4 U5 U6 U7]]. destruct (Hg _ Hp) as [Hn Hl].
  split; split; try done. intros u r Hr. cbn. rewrite (Hl u r Hr). by apply U4.
Qed.

Lemma on_children_good g st : children_local g → good st → good (on_children g st).
Proof.
  intros Hg [[Hs Hp Hc] [U1 U2 U3 U4 U5 U6 U7]]. destruct (Hg _ Hc) as [Hn Hl].
  split; split; try done. intros u r Hr. cbn. rewrite (Hl u r Hr). by apply U5.
Qed.

(** A change of one own row. *)
Lemma seg_insert_local i (f : option segment_row → segment_row) :
  (∀ o, match o with Some r => sg_snapshot (f o) = sg_snapshot r ∧ sg_chunk_idx (f o) = sg_chunk_idx r
                   | None => sg_snapshot (f o) = S ∧ sg_chunk_idx (f o) = i end ∨
        sg_snapshot (f o) = S ∧ sg_chunk_idx (f o) = i) →
  segs_local (λ m, <[table_snapshot_segment_uuid S i := f (m !! table_snapshot_segment_uuid S i)]> m).
Proof using NL.
  intros Hf m Hm. set (u0 := table_snapshot_segment_uuid S i).
  assert (sg_snapshot (f (m !! u0)) = S ∧ sg_chunk_idx (f (m !! u0)) = i) as [Hs Hi].
  { specialize (Hf (m !! u0)). destruct (m !! u0) as [r|] eqn:E; [|tauto].
    pose proof (Hm u0 r E) as [Ha Hb]%segment_uuid_inj. destruct Hf as [[-> ->]|?]; done. }
  split.
  - intros u r [[<- <-]|[Hne Hr]]%lookup_insert_Some; [by rewrite Hs, Hi|by apply Hm].
  - intros u r Hr. rewrite lookup_insert_Some. split; [|].
    + intros [[_ <-]|[_ ?]]; [by rewrite Hs in Hr|done].
    + intros Hu. right. split; [|done]. intros <-. pose proof (Hm u0 r Hu) as [Ha _]%segment_uuid_inj. done.
Qed.

Lemma child_insert_local seg slug (f : option child_row → child_row) :
  own_seg seg → (∀ o, ch_segment (f o) = seg) → (∀ o, ∃ snap, ch_parent (f o) = table_snapshot_index_uuid snap slug) →
  children_local (λ m, <[segment_index_uuid seg slug := f (m !! segment_index_uuid seg slug)]> m).
Proof using NL.
  intros Hown Hf Hp m Hm. set (u0 := segment_index_uuid seg slug). split.
  - intros u r [[<- <-]|[Hne Hr]]%lookup_insert_Some; [|by apply Hm]. destruct (Hp (m !! u0)) as [snap Hs].
    exists slug, snap. by rewrite Hf.
  - intros u r Hr. rewrite lookup_insert_Some. split.
    + intros [[_ <-]|[_ ?]]; [by rewrite Hf in Hr|done].
    + intros Hu. right. split; [|done]. intros <-. destruct (Hm u0 r Hu) as (sl & snap & [Ha _]%segment_index_uuid_inj & _).
      apply Hr. by rewrite <- Ha.
Qed.

Lemma parent_insert_local index (f : option parent_row → parent_row) :
  (∀ o, ix_snapshot (f o) = S ∧ ix_index (f o) = index) →
  parents_local (λ m, <[table_snapshot_index_uuid S index := f (m !! table_snapshot_index_uuid S index)]> m).
Proof using NL.
  intros Hf m Hm. set (u0 := table_snapshot_index_uuid S index). destruct (Hf (m !! u0)) as [Hs Hi]. split.
  - intros u r [[<- <-]|[Hne Hr]]%lookup_insert_Some; [by rewrite Hs, Hi|by apply Hm].
  - intros u r Hr. rewrite lookup_insert_Some. split.
    + intros [[_ <-]|[_ ?]]; [by rewrite Hs in Hr|done].
    + intros Hu. right. split; [|done]. intros <-. pose proof (Hm u0 r Hu) as [Ha _]%parent_uuid_inj. done.
Qed.

(** Dropping, or restamping, own rows only. *)
Lemma seg_filter_local (P : Z * segment_row → Prop) `{!∀ x, Decision (P x)} :
  (∀ u r, sg_snapshot r ≠ S → u = table_snapshot_segment_uuid (sg_snapshot r) (sg_chunk_idx r) → P (u, r)) →
  segs_local (filter P).
Proof.
  intros HP m Hm. split.
  - intros u r [Hr _]%map_lookup_filter_Some. by apply Hm.
  - intros u r Hr. rewrite map_lookup_filter_Some. split; [by intros [? _]|]. intros Hu. split; [done|].
    apply HP; [done|]. by apply Hm.
Qed.

Lemma child_filter_local (P : Z * child_row → Prop) `{!∀ x, Decision (P x)} :
  (∀ u r, ¬ own_seg (ch_segment r) → P (u, r)) → children_local (filter P).
Proof.
  intros HP m Hm. split.
  - intros u r [Hr _]%map_lookup_filter_Some. by apply Hm.
  - intros u r Hr. rewrite map_lookup_filter_Some. split; [by intros [? _]|]. intros Hu. split; [done|]. by apply HP.
Qed.

Lemma parent_filter_local (P : Z * parent_row → Prop) `{!∀ x, Decision (P x)} :
  (∀ u r, ix_snapshot r ≠ S → P (u, r)) → parents_local (filter P).
Proof.
  intros HP m Hm. split.
  - intros u r [Hr _]%map_lookup_filter_Some. by apply Hm.
  - intros u r Hr. rewrite map_lookup_filter_Some. split; [by intros [? _]|]. intros Hu. split; [done|]. by apply HP.
Qed.

Lemma seg_map_local (f : Z → segment_row → segment_row) :
  (∀ u r, sg_snapshot (f u r) = sg_snapshot r ∧ sg_chunk_idx (f u r) = sg_chunk_idx r) →
  (∀ u r, sg_snapshot r ≠ S → u = table_snapshot_segment_uuid (sg_snapshot r) (sg_chunk_idx r) → f u r = r) →
  segs_local (map_imap (λ u r, Some (f u r))).
Proof.
  intros Hk Hf m Hm. split.
  - intros u r. rewrite map_lookup_imap. intros Hr. apply bind_Some in Hr as (r0 & Hr0 & [= <-]).
    destruct (Hk u r0) as [-> ->]. by apply Hm.
  - intros u r Hr. rewrite map_lookup_imap. split.
    + intros Hb. apply bind_Some in Hb as (r0 & Hr0 & [= <-]). destruct (Hk u r0) as [E1 E2]. rewrite E1 in Hr.
      rewrite (Hf u r0 Hr); [done|by apply Hm].
    + intros Hu. rewrite Hu. simpl. f_equal. apply Hf; [done|by apply Hm].
Qed.

Lemma seg_alter_local i f :
  (∀ r, sg_snapshot (f r) = sg_snapshot r ∧ sg_chunk_idx (f r) = sg_chunk_idx r) →
  segs_local (alter f (table_snapshot_segment_uuid S i)).
Proof using NL.
  intros Hk m Hm. set (u0 := table_snapshot_segment_uuid S i). split.
  - intros u r. rewrite lookup_alter_Some. intros [(<- & r0 & Hr0 & ->)|[_ Hr]]; [|by apply Hm].
    destruct (Hk r0) as [-> ->]. by apply Hm.
  - intros u r Hr. rewrite lookup_alter_Some. split.
    + intros [(<- & r0 & Hr0 & ->)|[_ ?]]; [|done]. destruct (Hk r0) as [E _]. rewrite E in Hr.
      pose proof (Hm u0 r0 Hr0) as [Ha _]%segment_uuid_inj. done.
    + intros Hu. right. split; [|done]. intros <-. pose proof (Hm u0 r Hu) as [Ha _]%segment_uuid_inj. done.
Qed.

(** ** The statements of a write for [S] *)

Lemma insert_snapshot_metadata_good table at_ pk ck seq d st : good st → good (insert_snapshot_metadata S table at_ pk ck seq d st).
Proof.
  intros [Hn [U1 U2 U3 U4 U5 U6 U7]]. split; [by destruct Hn|]. split; try done.
  - intros u Hu. cbn. rewrite lookup_insert_ne by done. by apply U1.
  - intros r. cbn. rewrite lookup_insert_eq. intros [= <-]. destruct (st_snaps st !! S) as [r0|] eqn:E; [exact (U2 r0 eq_refl)|done].
Qed.

Lemma delete_uncommitted_snapshot_metadata_good st : good st → good (delete_uncommitted_snapshot_metadata S st).
Proof.
  intros [Hn [U1 U2 U3 U4 U5 U6 U7]]. split; [by destruct Hn|]. split; try done.
  - intros u Hu. cbn. destruct (st_snaps st !! S) as [r|]; [|by apply U1]. destruct (committed _); [by apply U1|].
    rewrite lookup_delete_ne by done. by apply U1.
  - intros r. cbn. destruct (st_snaps st !! S) as [r0|] eqn:E; [|by rewrite E].
    destruct (committed _); [rewrite E; intros [= <-]; by apply U2|by rewrite lookup_delete_eq].
Qed.

Lemma on_files_good (g : gmap file_uri (file srow) → gmap file_uri (file srow)) st :
  (∀ m f, uri_snapshot f ≠ S → g m !! f = m !! f) → good st → good (on_files g st).
Proof.
  intros Hg [Hn [U1 U2 U3 U4 U5 U6 U7]]. split; [by destruct Hn|]. split; try done.
  intros f Hf. cbn. rewrite Hg by done. by apply U6.
Qed.

Lemma write_file_good u x st : uri_snapshot u = S → good st → good (on_files (insert u x) st).
Proof. intros Hu. apply on_files_good. intros m f Hf. apply lookup_insert_ne. by intros <-. Qed.

Lemma delete_file_good u st : uri_snapshot u = S → good st → good (on_files (delete u) st).
Proof. intros Hu. apply on_files_good. intros m f Hf. apply lookup_delete_ne. by intros <-. Qed.

Lemma insert_snapshot_segment_good table i u off len stats st :
  good st → good (insert_snapshot_segment table (table_snapshot_segment_uuid S i) S i u off len stats st).
Proof using NL.
  apply on_segs_good.
  apply (seg_insert_local i (λ o, match o with None => _ | Some r => _ end)). intros [r|]; [by left|by right].
Qed.

Lemma update_size_good i size st : good st → good (update_snapshot_segment_size (table_snapshot_segment_uuid S i) size st).
Proof using NL. apply on_segs_good. by apply seg_alter_local. Qed.

Lemma commit_snapshot_segment_good now i st : good st → good (commit_snapshot_segment now (table_snapshot_segment_uuid S i) st).
Proof using NL. apply on_segs_good. by apply seg_alter_local. Qed.

Lemma own_not_other u r : own_seg u → sg_snapshot r ≠ S → u = table_snapshot_segment_uuid (sg_snapshot r) (sg_chunk_idx r) → False.
Proof using NL. intros [i ->] Hr [Ha _]%segment_uuid_inj. done. Qed.

Lemma commit_segments_good now us st : Forall own_seg us → good st → good (commit_snapshot_segments_by_uuids now us st).
Proof using NL.
  intros Hus. apply on_segs_good, (seg_map_local (λ u r, if decide (u ∈ us) then stamp_segment now r else r)).
  - intros u r. by destruct (decide _).
  - intros u r Hr Hu. destruct (decide (u ∈ us)) as [Hin|]; [|done]. exfalso. rewrite Forall_forall in Hus.
    by apply (own_not_other u r (Hus u Hin)).
Qed.

Lemma delete_uncommitted_segment_good u st : own_seg u → good st → good (delete_uncommitted_snapshot_segment u st).
Proof using NL.
  intros Ho. apply on_segs_good. intros m Hm. destruct (m !! u) as [r|] eqn:E; [|done]. destruct (committed _); [done|].
  split; [intros u' r' [_ ?]%lookup_delete_Some; by apply Hm|]. intros u' r' Hr'. rewrite lookup_delete_Some.
  split; [by intros [_ ?]|]. intros Hu'. split; [|done]. intros <-. eapply own_not_other; [exact Ho|exact Hr'|by apply Hm].
Qed.

Lemma delete_uncommitted_segments_good us st :
  Forall own_seg us → good st → good (delete_uncommitted_snapshot_segments_by_uuids us st).
Proof using NL.
  intros Hus. apply on_segs_good. apply seg_filter_local. intros u r Hr Hu [Hin _]. rewrite Forall_forall in Hus.
  by apply (own_not_other u r (Hus u Hin)).
Qed.

Definition spec_named (sp : CarriedSegmentSpec) : Prop := new_seg_uuid sp = table_snapshot_segment_uuid S (carried_chunk_idx sp).

Lemma insert_carried_good specs st : Forall spec_named specs → good st → good (insert_carried_snapshot_segments S specs st).1.
Proof using NL.
  intros Hsp Hg. unfold insert_carried_snapshot_segments.
  assert (good (on_segs (λ m, foldl (λ acc sp, match m !! prior_seg_uuid sp with
    | Some old => <[new_seg_uuid sp := carry_segment S sp old (acc !! new_seg_uuid sp)]> acc | None => acc end) m specs) st)) as Hgood.
  { apply on_segs_good; [|done]. intros m Hm.
    assert (∀ acc, segs_named acc → let acc' := foldl (λ acc sp, match m !! prior_seg_uuid sp with
      | Some old => <[new_seg_uuid sp := carry_segment S sp old (acc !! new_seg_uuid sp)]> acc | None => acc end) acc specs in
      segs_named acc' ∧ ∀ u r, sg_snapshot r ≠ S → acc' !! u = Some r ↔ acc !! u = Some r) as Hfold; [|by apply Hfold].
    induction Hsp as [|sp specs Hs Hsp IH]; intros acc Hacc; [done|]. cbn [foldl].
    destruct (m !! prior_seg_uuid sp) as [old|]; [|by apply IH]. rewrite Hs.
    destruct (seg_insert_local (carried_chunk_idx sp) (carry_segment S sp old) (λ o, or_intror (conj eq_refl eq_refl)) acc Hacc) as [H1 H2].
    destruct (IH _ H1) as [H3 H4]. split; [done|]. intros u r Hr. rewrite (H4 u r Hr). by apply H2. }
  by destruct specs.
Qed.

Lemma insert_parent_good index cols st : good st → good (insert_table_snapshot_index (table_snapshot_index_uuid S index) S index cols st).
Proof using NL.
  apply on_parents_good. apply (parent_insert_local index (λ o, {| ix_snapshot := S; ix_index := index; ix_key_columns := cols;
    ix_commit := match o with Some r => ix_commit r | None => None end |})). done.
Qed.

Lemma commit_parents_good now st : good st → good (commit_table_snapshot_index_for_snapshot now S st).
Proof.
  apply on_parents_good. intros m Hm. split.
  - intros u r. rewrite lookup_fmap_Some. intros (r0 & <- & Hr). pose proof (Hm u r0 Hr) as Hu. by destruct (decide _).
  - intros u r Hr. rewrite lookup_fmap_Some. split.
    + intros (r0 & <- & Hr0). destruct (decide _) as [[Hs _]|]; [|done]. simpl in Hr. done.
    + intros Hu. exists r. split; [|done]. rewrite decide_False; [done|]. by intros [? _].
Qed.

Lemma delete_uncommitted_parents_good st : good st → good (delete_uncommitted_table_snapshot_index_for_snapshot S st).
Proof. apply on_parents_good, parent_filter_local. intros u r Hr [? _]. done. Qed.

Lemma insert_child_good seg slug parent u len st :
  own_seg seg → (∃ snap, parent = table_snapshot_index_uuid snap slug) → good st →
  good (insert_segment_index_metadata (segment_index_uuid seg slug) seg parent u len st).
Proof using NL.
  intros Ho Hp. apply on_children_good. apply (child_insert_local seg slug (λ o, {| ch_segment := seg; ch_parent := parent;
    ch_uri := u; ch_length := len; ch_commit := match o with Some r => ch_commit r | None => None end |})); done.
Qed.

Lemma commit_children_good now segs st :
  Forall own_seg segs → good st → good (commit_segment_index_metadata_for_segments now segs st).
Proof.
  intros Ho. rewrite Forall_forall in Ho. apply on_children_good. intros m Hm. split.
  - intros u r. rewrite lookup_fmap_Some. intros (r0 & <- & Hr). destruct (Hm u r0 Hr) as (sl & snap & Hu & Hp). exists sl, snap. by destruct (decide _).
  - intros u r Hr. rewrite lookup_fmap_Some. split.
    + intros (r0 & <- & Hr0). destruct (decide _) as [[Hs _]|]; [|done]. simpl in Hr. destruct Hr. by apply Ho.
    + intros Hu. exists r. split; [|done]. rewrite decide_False; [done|]. intros [Hin _]. apply Hr. by apply Ho.
Qed.

Lemma delete_uncommitted_children_good segs st :
  Forall own_seg segs → good st → good (delete_uncommitted_segment_index_for_segments segs st).
Proof.
  intros Ho. rewrite Forall_forall in Ho. apply on_children_good, child_filter_local. intros u r Hr [Hin _]. apply Hr. by apply Ho.
Qed.

Lemma insert_carried_children_good parent slug pairs st :
  Forall own_seg (pairs.*1) → (∃ snap, parent = table_snapshot_index_uuid snap slug) → good st →
  good (insert_carried_segment_indexes parent slug pairs st).
Proof using NL.
  intros Ho Hp. apply on_children_good. intros m Hm.
  assert (∀ acc, children_named acc → let acc' := foldl (λ acc p, match m !! segment_index_uuid p.2 slug with
    | Some old => if committed (ch_commit old) then
        let id := segment_index_uuid p.1 slug in
        <[id := {| ch_segment := p.1; ch_parent := parent; ch_uri := ch_uri old; ch_length := ch_length old;
                   ch_commit := match acc !! id with Some r => ch_commit r | None => None end |}]> acc else acc
    | None => acc end) acc pairs in
    children_named acc' ∧ ∀ u r, ¬ own_seg (ch_segment r) → acc' !! u = Some r ↔ acc !! u = Some r) as Hfold; [|by apply Hfold].
  induction pairs as [|[a b] pairs IH]; intros acc Hacc; [done|]. rewrite fmap_cons in Ho. apply Forall_cons in Ho as [Ha Ho].
  cbn [foldl fst snd] in *. destruct (m !! segment_index_uuid b slug) as [old|]; [|by apply IH].
  destruct (committed _); [|by apply IH]. cbv zeta.
  destruct (child_insert_local a slug (λ o, {| ch_segment := a; ch_parent := parent; ch_uri := ch_uri old; ch_length := ch_length old;
    ch_commit := match o with Some r => ch_commit r | None => None end |}) Ha (λ _, eq_refl) (λ _, Hp) acc Hacc) as [H1 H2].
  destruct (IH Ho _ H1) as [H3 H4]. split; [done|]. intros u r Hr. rewrite (H4 u r Hr). by apply H2.
Qed.

(** ** Runs *)

(** The writer's bookkeeping names only [S]'s rows and files. *)
Record book_ok (w : world) : Prop := {
  bk_groups : Forall (λ g, (∀ u, written_uri g = Some u → uri_snapshot u = S) ∧ Forall own_seg (seg_uuid_strs g)) (segment_groups w);
  bk_carried : Forall spec_named (carried_specs w);
  bk_segs : Forall own_seg (built_index_seg_uuids w);
  bk_uris : Forall (λ u, uri_snapshot u = S) (built_index_uris w);
}.

Definition kept (w : world) : Prop := good (w_store w) ∧ book_ok w.

Definition keeps {A} (m : M A) : Prop := ∀ w, kept w → kept (m w).1.

Lemma keeps_returns {A} (a : A) : keeps (returns a).
Proof. by intros w. Qed.

Lemma keeps_raises {A} e : keeps (raises (A := A) e).
Proof. by intros w. Qed.

Lemma keeps_bind {A B} (m : M A) (k : A → M B) : keeps m → (∀ a, keeps (k a)) → keeps (bind m k).
Proof.
  intros Hm Hk w Hw. unfold bind. specialize (Hm w Hw). destruct (m w) as [w' [a|e|]]; try done. by apply Hk.
Qed.

Lemma keeps_get {A B} (f : world → A) (k : A → M B) : (∀ w, book_ok w → keeps (k (f w))) → keeps (bind (get f) k).
Proof. intros Hk w Hw. unfold bind, get. apply Hk; [by destruct Hw|done]. Qed.

Lemma keeps_attempt {A} (m : M A) : keeps m → keeps (attempt m).
Proof. intros Hm w Hw. unfold attempt. specialize (Hm w Hw). by destruct (m w) as [w' [a|e|]]. Qed.

Lemma keeps_for_each {A} (l : list A) (f : A → M unit) : (∀ x, x ∈ l → keeps (f x)) → keeps (for_each l f).
Proof.
  induction l as [|x l IH]; intros Hf; [apply keeps_returns|]. cbn [for_each].
  apply keeps_bind; [apply Hf; by left|]. intros _. apply IH. intros y Hy. apply Hf. by right.
Qed.

Section runs.
Context (faults : nat → fault) (now : Z).

Lemma keeps_exec_checked f : (∀ st, good st → good (f st).1) → keeps (exec_checked faults f).
Proof.
  intros Hf w [Hg [B1 B2 B3 B4]]. specialize (Hf _ Hg). unfold exec_checked. destruct (faults (w_tick w)); [destruct (f (w_store w)) as [st r]|..];
    (split; [done|by split]).
Qed.

Lemma keeps_exec f : (∀ st, good st → good (f st)) → keeps (exec faults f).
Proof. intros Hf. by apply keeps_exec_checked. Qed.

Lemma keeps_quiet f : (∀ st, good st → good (f st)) → keeps (quiet faults f).
Proof. intros Hf. apply keeps_bind; [by apply keeps_attempt, keeps_exec|intros; apply keeps_returns]. Qed.

Lemma keeps_fetch {A} (f : srow_store → result ApiError A) : keeps (fetch faults f).
Proof. intros w [Hg [B1 B2 B3 B4]]. unfold fetch. destruct (faults (w_tick w)); (split; [done|by split]). Qed.

Lemma keeps_local f : (∀ w, w_store (f w) = w_store w) → (∀ w, book_ok w → book_ok (f w)) → keeps (local f).
Proof. intros Hs Hb w [Hg Hk]. cbn. split; [by rewrite Hs|by apply Hb]. Qed.

Lemma keeps_on_current_group f :
  (∀ g, (∀ u, written_uri g = Some u → uri_snapshot u = S) ∧ Forall own_seg (seg_uuid_strs g) →
        (∀ u, written_uri (f g) = Some u → uri_snapshot u = S) ∧ Forall own_seg (seg_uuid_strs (f g))) →
  keeps (on_current_group f).
Proof.
  intros Hf. apply keeps_local; [done|]. intros w [B1 B2 B3 B4]. split; try done. cbn. by apply Forall_alter; [done|auto].
Qed.

Definition file_named (f : SnapshotFileStep srow) : Prop :=
  step_snap_uuid f = S ∧ Forall (λ row, seg_uuid row = table_snapshot_segment_uuid S (spec_chunk_idx row)) (segment_rows f).

Definition step_named (st : PackStep srow) : Prop :=
  match st with PackFile f => file_named f | PackCarried specs => Forall spec_named specs end.

Lemma keeps_write_segment_group table f : file_named f → keeps (write_segment_group faults now table f).
Proof using NL.
  intros [Hs Hrows]. rewrite Forall_forall in Hrows. unfold write_segment_group. rewrite Hs.
  apply keeps_bind; [|intros _; apply keeps_bind; [|intros _; apply keeps_bind; [|intros _; apply keeps_bind; [|intros _; apply keeps_bind; [|intros _]]]]].
  - apply keeps_local; [done|]. intros w [B1 B2 B3 B4]. split; try done. cbn. apply Forall_app. split; [done|]. by repeat constructor.
  - apply keeps_for_each. intros row Hr. rewrite (Hrows row Hr). apply keeps_bind; [apply keeps_exec; by apply insert_snapshot_segment_good|].
    intros _. apply keeps_on_current_group. intros g [H1 H2]. split; [done|]. apply Forall_app. split; [done|]. repeat constructor. by eexists.
  - apply keeps_exec. intros st. by apply write_file_good.
  - apply keeps_on_current_group. intros g [H1 H2]. split; [|done]. by intros u [= <-].
  - apply keeps_for_each. intros row Hr. rewrite (Hrows row Hr). apply keeps_exec. intros st. apply update_size_good.
  - apply keeps_for_each. intros row Hr. rewrite (Hrows row Hr). apply keeps_exec. intros st. apply commit_snapshot_segment_good.
Qed.

Lemma keeps_sidecar seg cols slug parent :
  own_seg seg → (∃ snap, parent = table_snapshot_index_uuid snap slug) → keeps (build_one_segment_sidecar faults S seg cols slug parent).
Proof using NL.
  intros Ho Hp. unfold build_one_segment_sidecar. destruct (build_segment_index cols) as [sc|]; [|apply keeps_raises].
  apply keeps_bind; [apply keeps_exec; intros st; by apply write_file_good|]. intros _.
  apply keeps_bind; [apply keeps_exec; intros st; by apply insert_child_good|]. intros _.
  apply keeps_local; [done|]. intros w [B1 B2 B3 B4]. split; try done. cbn. apply Forall_app. split; [done|]. by repeat constructor.
Qed.

Lemma keeps_user_sidecar s seg index rows : own_seg seg → keeps (build_user_index_sidecar faults s S seg index rows).
Proof using NL.
  intros Ho. unfold build_user_index_sidecar. destruct (mapM _ _); [apply keeps_sidecar; [done|by eexists]|apply keeps_raises].
Qed.

Lemma keeps_file_indexes ctx f : c_snap ctx = S → file_named f → keeps (build_file_segment_indexes faults ctx f).
Proof using NL.
  intros Hc [_ Hrows]. rewrite Forall_forall in Hrows. unfold build_file_segment_indexes. rewrite Hc. apply keeps_for_each.
  intros row Hr. assert (own_seg (seg_uuid row)) as Ho by (eexists; by apply Hrows).
  destruct (spec_length row =? 0)%nat; [apply keeps_returns|]. apply keeps_bind; [apply keeps_sidecar; [done|by eexists]|]. intros _.
  apply keeps_bind; [apply keeps_for_each; intros; by apply keeps_user_sidecar|]. intros _.
  apply keeps_bind; [destruct (c_name_index ctx); [by apply keeps_user_sidecar|apply keeps_returns]|]. intros _.
  apply keeps_local; [done|]. intros w [B1 B2 B3 B4]. split; try done. cbn. apply Forall_app. split; [done|]. by repeat constructor.
Qed.

Lemma keeps_materialize ctx conc specs prior :
  c_snap ctx = S → Forall spec_named specs → keeps (materialize_carried_user_indexes faults ctx conc specs prior).
Proof using NL.
  intros Hc Hsp. assert (∀ sp, sp ∈ specs → own_seg (new_seg_uuid sp)) as Ho.
  { intros sp Hin. rewrite Forall_forall in Hsp. eexists. by apply Hsp. }
  unfold materialize_carried_user_indexes. rewrite Hc. destruct (c_user_indexes ctx) as [|i is_] eqn:Ei; [apply keeps_returns|].
  destruct specs as [|sp specs'] eqn:Es; [apply keeps_returns|]. rewrite <- Es in *. clear Es.
  apply keeps_bind; [apply keeps_fetch|]. intros existing. set (unc := filter _ _).
  assert (∀ x, x ∈ unc → own_seg (new_seg_uuid x.1)) as Hunc.
  { intros x [_ (sp0 & -> & Hin)%list_elem_of_fmap]%list_elem_of_filter. by apply Ho. }
  apply keeps_bind.
  - apply keeps_for_each. intros wave Hw.
    assert (∀ x, x ∈ wave → x ∈ unc) as Hwave.
    { clear -Hw. revert Hw. generalize (length unc). intros fuel. generalize unc. induction fuel as [|fuel IH]; intros l; [by intros ?%elem_of_nil|].
      destruct l as [|y l]; [by intros ?%elem_of_nil|]. cbn [waves_of]. intros [->|Hin]%elem_of_cons x Hx.
      - rewrite <- (take_drop (conc `max` 1) (y :: l)). apply elem_of_app. by left.
      - rewrite <- (take_drop (conc `max` 1) (y :: l)). apply elem_of_app. right. by apply (IH _ Hin). }
    assert (∀ x, x ∈ wave → own_seg (new_seg_uuid x.1)) as Hown by auto. clear Hw Hwave.
    assert (keeps (read_wave faults prior wave) ∧
      ∀ w w' bs, read_wave faults prior wave w = (w', Returns bs) → ∀ x, x ∈ bs → own_seg (new_seg_uuid x.1.1)) as [Hk Hbs].
    { induction wave as [|[sp0 is0] wave IH]; [split; [apply keeps_returns|]; intros w w' bs [= <- <-] x ?%elem_of_nil; done|].
      destruct IH as [IHk IHb]; [intros x Hx; apply Hown; by right|]. split.
      - cbn [read_wave]. apply keeps_bind; [|intros rows; apply keeps_bind; [done|intros; apply keeps_returns]].
        unfold read_carried_base_segment. destruct (prior !! _); [apply keeps_fetch|apply keeps_raises].
      - intros w w' bs. cbn [read_wave]. unfold bind at 1. destruct (read_carried_base_segment _ _ _ w) as [w1 [rows|e|]]; [|done|done].
        unfold bind. destruct (read_wave faults prior wave w1) as [w2 [more|e|]] eqn:E; [|done|done]. unfold returns. intros [= <- <-] x.
        intros [->|Hx]%elem_of_cons; [apply (Hown (sp0, is0)); by left|by apply (IHb w1 w2 more E)]. }
    intros w Hw. unfold bind. destruct (read_wave faults prior wave w) as [w1 o] eqn:E. specialize (Hk w Hw). rewrite E in Hk.
    destruct o as [bs|e|]; [|done|done]. revert w1 Hk E. intros w1 Hk E. apply keeps_for_each; [|done].
    intros [[sp0 is0] rows] Hx. apply keeps_for_each. intros idx _. apply keeps_user_sidecar. by apply (Hbs w w1 bs E (sp0, is0, rows)).
  - intros _. apply keeps_for_each. intros idx _. set (cov := filter _ specs).
    assert (Forall own_seg (((λ spec, (new_seg_uuid spec, prior_seg_uuid spec)) <$> cov).*1)) as Hcov.
    { rewrite <- list_fmap_compose. apply Forall_fmap, Forall_forall. intros sp0 [_ Hin]%list_elem_of_filter. by apply Ho. }
    destruct cov as [|c cov']; [apply keeps_returns|]. apply keeps_exec. intros st. apply insert_carried_children_good; [done|by eexists].
Qed.

Lemma own_specs specs : Forall spec_named specs → Forall own_seg (new_seg_uuid <$> specs).
Proof. intros Hs. apply Forall_fmap. eapply Forall_impl; [exact Hs|]. intros sp Hsp. by eexists. Qed.

Lemma placeholder_named ctx : c_snap ctx = S → file_named (empty_merge_placeholder_step ctx).
Proof. intros Hc. split; [done|]. rewrite <- Hc. by repeat constructor. Qed.

Lemma keeps_write_steps ctx steps failed :
  c_snap ctx = S → Forall step_named steps → keeps (write_steps faults now ctx steps failed).
Proof using NL.
  intros Hc Hst. rewrite Forall_forall in Hst. apply keeps_bind.
  - apply keeps_for_each. intros [f|specs] Hin; specialize (Hst _ Hin).
    + apply keeps_bind; [by apply keeps_write_segment_group|intros _; by apply keeps_file_indexes].
    + apply keeps_local; [done|]. intros w [B1 B2 B3 B4]. split; try done. cbn. by apply Forall_app.
  - intros _. destruct failed; [apply keeps_raises|apply keeps_returns].
Qed.

Lemma keeps_write_carried ctx conc prior : c_snap ctx = S → keeps (write_carried faults now ctx conc prior).
Proof using NL.
  intros Hc. apply keeps_get. intros w [_ Hsp _ _]. set (specs := carried_specs w) in *. rewrite Hc.
  pose proof (own_specs specs Hsp) as Ho. destruct specs as [|sp specs'] eqn:Es; [apply keeps_returns|]. rewrite <- Es in *. clear Es.
  apply keeps_bind; [apply keeps_exec_checked; intros st; by apply insert_carried_good|]. intros _.
  apply keeps_bind; [apply keeps_exec; intros st; by apply commit_segments_good|]. intros _.
  apply keeps_bind; [|intros _; apply keeps_bind; [by apply keeps_materialize|]].
  - apply keeps_exec. intros st. apply insert_carried_children_good; [by rewrite <- list_fmap_compose|by eexists].
  - intros _. apply keeps_exec. intros st. by apply commit_children_good.
Qed.

Lemma keeps_declare ctx : c_snap ctx = S → keeps (declare_index_parents faults now ctx).
Proof using NL.
  intros Hc. unfold declare_index_parents. rewrite Hc.
  apply keeps_bind; [apply keeps_exec; intros; by apply insert_parent_good|]. intros _.
  apply keeps_bind; [apply keeps_for_each; intros; apply keeps_exec; intros; by apply insert_parent_good|]. intros _.
  apply keeps_bind; [|intros _; apply keeps_exec; intros; by apply commit_parents_good].
  destruct (c_name_index ctx); [apply keeps_exec; intros; by apply insert_parent_good|apply keeps_returns].
Qed.

Lemma keeps_write_body ctx conc steps failed prior :
  c_snap ctx = S → Forall step_named steps → keeps (write_body faults now ctx conc steps failed prior).
Proof using NL.
  intros Hc Hst. apply keeps_bind; [by apply keeps_declare|]. intros _. apply keeps_bind; [by apply keeps_write_steps|]. intros _.
  apply keeps_bind; [by apply keeps_write_carried|]. intros _. apply keeps_bind.
  - apply keeps_get. intros w _. destruct (existsb _ _); [apply keeps_returns|]. destruct (carried_specs w); [|apply keeps_returns].
    by apply keeps_write_segment_group, placeholder_named.
  - intros _. apply keeps_get. intros w [_ _ Ho _]. destruct (built_index_seg_uuids w) as [|u us] eqn:E; [apply keeps_returns|].
    apply keeps_exec. intros st. by apply commit_children_good.
Qed.

Lemma keeps_cleanup ctx : c_snap ctx = S → keeps (write_cleanup faults ctx).
Proof using NL.
  intros Hc. unfold write_cleanup. rewrite Hc. apply keeps_bind.
  - apply keeps_get. intros w [Hg _ _ _]. rewrite Forall_forall in Hg. apply keeps_for_each. intros g Hin. destruct (Hg g Hin) as [Hu Ho].
    apply keeps_bind.
    + destruct (written_uri g) as [u|]; [|apply keeps_returns]. apply keeps_attempt, keeps_exec. intros st. apply delete_file_good. by apply Hu.
    + intros [r|e]; [|apply keeps_returns]. rewrite Forall_forall in Ho. apply keeps_for_each. intros u Hu'.
      apply keeps_quiet. intros st. apply delete_uncommitted_segment_good. by apply Ho.
  - intros _. apply keeps_get. intros w [_ Hsp _ _]. pose proof (own_specs _ Hsp) as Ho.
    apply keeps_bind; [apply keeps_quiet; intros; by apply delete_uncommitted_segments_good|]. intros _.
    apply keeps_bind; [apply keeps_quiet; intros; by apply delete_uncommitted_children_good|]. intros _.
    apply keeps_bind; [apply keeps_quiet; intros; by apply delete_uncommitted_snapshot_metadata_good|]. intros _.
    apply keeps_get. intros w' [_ _ _ Hu]. rewrite Forall_forall in Hu. apply keeps_bind.
    + apply keeps_for_each. intros u Hin. apply keeps_quiet. intros st. apply delete_file_good. by apply Hu.
    + intros _. apply keeps_get. intros w'' [_ _ Hseg _].
      apply keeps_bind; [apply keeps_quiet; intros; by apply delete_uncommitted_children_good|]. intros _.
      apply keeps_quiet. intros. by apply delete_uncommitted_parents_good.
Qed.

(** A run either leaves everything outside [S] and [S]'s parent uncommitted, or
    its body succeeded and it then stamped the parent. *)
Lemma finish_cases ctx conc steps failed prior w :
  c_snap ctx = S → Forall step_named steps → kept w →
  let run := finish_snapshot_write faults now ctx conc steps failed prior w in
  (kept run.1 ∧ ∀ a, run.2 ≠ Returns a) ∨
  ∃ w1 w2, exec faults (insert_snapshot_metadata S (c_table ctx) (c_at ctx) (c_partition_keys ctx) (c_clustering_keys ctx)
                         (c_seq ctx) (c_durable ctx)) w = (w1, Returns tt) ∧
    write_body faults now ctx conc steps failed prior w1 = (w2, Returns tt) ∧ kept w2 ∧ w_store run.1 = commit_snapshot_metadata now S (w_store w2) ∧
    (run.2 = Returns (c_at ctx) ∨ ∃ e, run.2 = Raises e).
Proof using NL.
  intros Hc Hst Hw. cbv zeta. destruct (finish_snapshot_write _ _ _ _ _ _ _ w) as [w' o] eqn:E. cbn [fst snd]. revert E.
  unfold finish_snapshot_write. rewrite Hc. unfold bind at 1.
  assert (keeps (exec faults (insert_snapshot_metadata S (c_table ctx) (c_at ctx) (c_partition_keys ctx) (c_clustering_keys ctx)
    (c_seq ctx) (c_durable ctx)))) as Hk1 by (apply keeps_exec; intros; by apply insert_snapshot_metadata_good).
  specialize (Hk1 w Hw). destruct (exec faults _ w) as [w1 [[]|e|]] eqn:E1; cbn [fst] in Hk1; [|intros [= <- <-]; by left..].
  unfold bind at 1, attempt. pose proof (keeps_write_body ctx conc steps failed prior Hc Hst w1 Hk1) as Hk2.
  destruct (write_body faults now ctx conc steps failed prior w1) as [w2 [[]|e|]] eqn:E2; cbn [fst] in Hk2.
  - assert (kept (tick w2)) as Hk3 by (destruct Hk2 as [Hg [B1 B2 B3 B4]]; by split; [|split]).
    unfold bind, exec, exec_checked. destruct (faults (w_tick w2)); intros [= <- <-].
    + right. exists w1, w2. split_and!; [done|done|done|done|by left].
    + by left.
    + right. exists w1, w2. split_and!; [done|done|done|done|right; by eexists].
    + by left.
  - unfold bind. pose proof (keeps_cleanup ctx Hc w2 Hk2) as Hk3.
    destruct (write_cleanup faults ctx w2) as [w3 [[]|e'|]]; intros [= <- <-]; by left.
  - intros [= <- <-]. by left.
Qed.

End runs.

(** ** Views of other snapshots *)

(** No other snapshot's row names a file of [S]. *)
Record refs_clear (st : srow_store) : Prop := {
  rc_segs : ∀ u r, st_segs st !! u = Some r → sg_snapshot r ≠ S → uri_snapshot (sg_uri r) ≠ S;
  rc_children : ∀ u r, st_children st !! u = Some r → ¬ own_seg (ch_segment r) → uri_snapshot (ch_uri r) ≠ S;
}.

(** The rows outside [S] agree, whatever the parents are. *)
Record same_rows (st : srow_store) : Prop := {
  sr_segs : ∀ u r, sg_snapshot r ≠ S → st_segs st !! u = Some r ↔ st_segs st0 !! u = Some r;
  sr_parents : ∀ u r, ix_snapshot r ≠ S → st_parents st !! u = Some r ↔ st_parents st0 !! u = Some r;
  sr_children : ∀ u r, ¬ own_seg (ch_segment r) → st_children st !! u = Some r ↔ st_children st0 !! u = Some r;
  sr_files : ∀ f, uri_snapshot f ≠ S → st_files st !! f = st_files st0 !! f;
}.

Lemma untouched_rows st : untouched st → same_rows st.
Proof. by intros []. Qed.

Lemma filter_same {A} (P : Z * A → Prop) `{!∀ x, Decision (P x)} (m m0 : gmap Z A) :
  (∀ u r, P (u, r) → m !! u = Some r ↔ m0 !! u = Some r) → filter P m = filter P m0.
Proof.
  intros Hs. apply map_eq. intros u. apply option_eq. intros r. rewrite !map_lookup_filter_Some.
  split; intros [Hu HP]; (split; [by apply (Hs u r HP)|done]).
Qed.

Section others.
Context (st : srow_store) (Hsame : same_rows st) (Hnames : names_ok st0) (Hclear : refs_clear st0).

Lemma segments_same u : u ≠ S → snapshot_segments u st = snapshot_segments u st0.
Proof using Hsame.
  intros Hu. unfold snapshot_segments. do 2 f_equal. apply filter_same. intros v r [<- _]. by apply (sr_segs st Hsame).
Qed.

Lemma parents_same u name : u ≠ S → plan_parents u name st = plan_parents u name st0.
Proof using Hsame.
  intros Hu. unfold plan_parents. do 2 f_equal. apply filter_same. intros v r [<- _]. by apply (sr_parents st Hsame).
Qed.

Lemma elem_segments u (x : srow_store) p :
  p ∈ snapshot_segments u x ↔ st_segs x !! p.1 = Some p.2 ∧ sg_snapshot p.2 = u ∧ committed (sg_commit p.2) = true.
Proof.
  unfold snapshot_segments. rewrite merge_sort_Permutation. destruct p as [v r].
  rewrite elem_of_map_to_list, map_lookup_filter_Some. done.
Qed.

Lemma other_segment u p : u ≠ S → p ∈ snapshot_segments u st0 → ¬ own_seg p.1 ∧ uri_snapshot (sg_uri p.2) ≠ S.
Proof using Hnames Hclear NL.
  intros Hu (Hr & Hs & _)%elem_segments. split; [|apply (rc_segs st0 Hclear p.1); [done|by rewrite Hs]].
  intros Ho. apply (own_not_other p.1 p.2 Ho); [by rewrite Hs|]. by apply (nm_seg st0 Hnames).
Qed.

Lemma child_same parent seg : ¬ own_seg seg → plan_child parent seg st = plan_child parent seg st0.
Proof using Hsame.
  intros Ho. unfold plan_child. do 3 f_equal. apply filter_same. intros v r (_ & <- & _). by apply (sr_children st Hsame).
Qed.

Lemma planned_same u parents p :
  u ≠ S → p ∈ snapshot_segments u st0 → plan_segment parents st p = plan_segment parents st0 p.
Proof using Hsame Hnames Hclear NL.
  intros Hu Hp. destruct (other_segment u p Hu Hp) as [Ho _]. unfold plan_segment.
  assert (∀ base, foldl (λ acc (q : Z * parent_row), attach_parent_row acc (ix_index q.2) (plan_child q.1 p.1 st)) base parents =
    foldl (λ acc (q : Z * parent_row), attach_parent_row acc (ix_index q.2) (plan_child q.1 p.1 st0)) base parents) as ->; [|done].
  induction parents as [|q parents IH]; intros base; [done|]. cbn [foldl]. rewrite (child_same _ _ Ho). apply IH.
Qed.

(** *** Files a planned segment names *)

Lemma plan_child_uri parent seg u : ¬ own_seg seg → plan_child parent seg st0 = Some u → uri_snapshot u ≠ S.
Proof using Hclear.
  intros Ho Hc. unfold plan_child in Hc. apply head_Some_elem_of, list_elem_of_fmap in Hc as ([v r] & -> & Hin).
  apply elem_of_map_to_list, map_lookup_filter_Some in Hin as [Hr (_ & Hs & _)]. simpl in *.
  apply (rc_children st0 Hclear v r Hr). by rewrite Hs.
Qed.

Definition uris_clear (p : planned_segment) : Prop :=
  uri_snapshot (pl_uri p) ≠ S ∧ (∀ u, pl_row_uuid_sidecar p = Some u → uri_snapshot u ≠ S) ∧
  ∀ x, x ∈ pl_index_sidecars p → uri_snapshot x.2 ≠ S.

Lemma planned_clear u parents p : u ≠ S → p ∈ snapshot_segments u st0 → uris_clear (plan_segment parents st0 p).
Proof using Hnames Hclear NL.
  intros Hu Hp. destruct (other_segment u p Hu Hp) as [Ho Huri]. unfold plan_segment.
  match goal with |- context [foldl _ ?b parents] => set (base := b) end.
  assert (uris_clear base) as Hb by (split_and!; [done|done|intros x Hx; by apply elem_of_nil in Hx]).
  assert (uris_clear (foldl (λ acc (q : Z * parent_row), attach_parent_row acc (ix_index q.2) (plan_child q.1 p.1 st0)) base parents)) as Hf.
  { revert Hb. generalize base. induction parents as [|q parents IH]; intros b Hb; [done|]. cbn [foldl]. apply IH.
    destruct Hb as (B1 & B2 & B3). unfold attach_parent_row. destruct (ix_index q.2) as [i|]; [destruct (plan_child q.1 p.1 st0) as [c|] eqn:E|].
    - split_and!; [done|done|]. intros x [Hx| ->%list_elem_of_singleton]%elem_of_app; [by apply B3|]. by apply (plan_child_uri q.1 p.1 c Ho).
    - done.
    - split_and!; [done|intros u' E; by apply (plan_child_uri q.1 p.1 u' Ho)|done]. }
  destruct Hf as (F1 & F2 & F3). split_and!; [done|done|]. intros x. cbn. rewrite merge_sort_Permutation. apply F3.
Qed.

Lemma resolve_same p : uris_clear p → resolve_planned st p = resolve_planned st0 p.
Proof using Hsame.
  intros (F1 & F2 & F3). unfold resolve_planned, read_base, read_sidecar. rewrite (sr_files st Hsame _ F1). f_equal; [f_equal|].
  - destruct (pl_row_uuid_sidecar p) as [u|]; [|done]. simpl. by rewrite (sr_files st Hsame u (F2 u eq_refl)).
  - apply list_fmap_ext. intros i x Hx. by rewrite (sr_files st Hsame _ (F3 x (list_elem_of_lookup_2 _ _ _ Hx))).
Qed.

(** The view of a plan that picks another snapshot. *)
Lemma view_same table as_of seq pinned name :
  pick_snapshot table as_of seq pinned st = pick_snapshot table as_of seq pinned st0 →
  (∀ u r, pick_snapshot table as_of seq pinned st0 = Some (u, r) → u ≠ S) →
  table_view table as_of seq pinned name st = table_view table as_of seq pinned name st0.
Proof using Hsame Hnames Hclear NL.
  intros Hpick Hne. unfold table_view, read_snapshot_segments_for_table. rewrite Hpick.
  destruct (pick_snapshot table as_of seq pinned st0) as [[u r]|]; [|done]. specialize (Hne u r eq_refl).
  rewrite (segments_same u Hne), (parents_same u name Hne). set (rows := snapshot_segments u st0).
  set (parents := plan_parents u name st0).
  assert (plan_segment parents st <$> filter (λ p : Z * segment_row, sg_row_count p.2 ≠ 0%nat) rows =
          plan_segment parents st0 <$> filter (λ p : Z * segment_row, sg_row_count p.2 ≠ 0%nat) rows) as Heq.
  { apply list_fmap_ext. intros i p Hp. apply list_elem_of_lookup_2, list_elem_of_filter in Hp as [_ Hp]. by apply (planned_same u). }
  assert (∀ x, x ∈ plan_segment parents st0 <$> filter (λ p : Z * segment_row, sg_row_count p.2 ≠ 0%nat) rows → uris_clear x) as Hclr.
  { intros x (p & -> & [_ Hp]%list_elem_of_filter)%list_elem_of_fmap. by apply (planned_clear u). }
  clearbody rows. destruct rows as [|p0 rows]; [done|]. rewrite Heq. f_equal. cbn [res_segments]. apply list_fmap_ext. intros i x Hx.
  apply resolve_same, Hclr. by apply list_elem_of_lookup_2 in Hx.
Qed.

End others.

(** *** An unfinished write is invisible *)

Definition uncommitted (st : srow_store) : Prop := ∀ r, st_snaps st !! S = Some r → sn_commit r = None.

Lemma pick_same st table as_of seq pinned :
  untouched st → uncommitted st0 →
  pick_snapshot table as_of seq pinned st = pick_snapshot table as_of seq pinned st0 ∧
  ∀ u r, pick_snapshot table as_of seq pinned st0 = Some (u, r) → u ≠ S.
Proof.
  intros [U1 U2 _ _ _ _ _] Hun. unfold pick_snapshot. destruct pinned as [v|].
  - destruct (decide (v = S)) as [->|Hne].
    + assert (∀ x : srow_store, uncommitted x → match st_snaps x !! S with
        | Some r => if decide (sn_table r = table ∧ committed (sn_commit r) = true) then Some (S, r) else None
        | None => None end = None) as Hnone.
      { intros x Hx. destruct (st_snaps x !! S) as [r|] eqn:E; [|done]. rewrite decide_False; [done|]. rewrite (Hx r E). by intros []. }
      rewrite !Hnone by done. split; [done|]. by intros.
    + rewrite (U1 v Hne). split; [done|]. intros u r. destruct (st_snaps st0 !! v); [|done]. destruct (decide _); [|done]. by intros [= <- <-].
  - assert (committed_snapshots table st = committed_snapshots table st0) as Heq.
    { unfold committed_snapshots. f_equal. apply filter_same. intros u r [_ Hc]. simpl in Hc. destruct (decide (u = S)) as [->|Hne].
      - split; intros Hr; [rewrite (U2 r Hr) in Hc|rewrite (Hun r Hr) in Hc]; done.
      - by rewrite (U1 u Hne). }
    rewrite Heq. split; [done|]. intros u r Hh. apply head_Some_elem_of in Hh. rewrite merge_sort_Permutation in Hh.
    apply list_elem_of_filter in Hh as [_ Hh]. apply elem_of_map_to_list, map_lookup_filter_Some in Hh as [Hr [_ Hc]]. simpl in Hc.
    intros ->. by rewrite (Hun r Hr) in Hc.
Qed.

Lemma unfinished_invisible st table as_of seq pinned name :
  names_ok st0 → refs_clear st0 → uncommitted st0 → untouched st →
  table_view table as_of seq pinned name st = table_view table as_of seq pinned name st0.
Proof using NL.
  intros Hn Hc Hun Hu. destruct (pick_same st table as_of seq pinned Hu Hun) as [Hp Hne].
  apply view_same; [by apply untouched_rows|done|done|done|done].
Qed.

Lemma start_kept : names_ok st0 → uncommitted st0 → kept (start st0).
Proof. intros Hn Hun. split; [split; [done|by split]|by split]. Qed.

End frame.
