(* ===== verification/SnapshotPost.v ===== *)
(** * What a finished write leaves

    When the body of a write returns, every effect in it ran; the store is then a
    composition of pure statements, given here step by step. *)

From S2P Require Import Prelude CoreTypes MergeSql IndexSeek IndexSelect Effects Ordered Chunker BatchUtil SegmentStats Packer CarryForward SnapshotMeta SnapshotWrite SnapshotFrame.
From stdpp Require Import base numbers list option sets gmap sorting.

Open Scope Z_scope.
Open Scope effect_scope.

(** ** Successful runs *)

Definition ok {A} (m : M A) (w w' : world) (a : A) : Prop := m w = (w', Returns a).

(** The part of the bookkeeping later steps read. *)
Definition book (w : world) : list CarriedSegmentSpec * list Z := (carried_specs w, built_index_seg_uuids w).

Lemma ok_bind {A B} (m : M A) (k : A → M B) w w' b : ok (bind m k) w w' b → ∃ a w1, ok m w w1 a ∧ ok (k a) w1 w' b.
Proof. unfold ok, bind. destruct (m w) as [w1 [a|e|]]; [|done|done]. by exists a, w1. Qed.

Lemma ok_returns {A} (a b : A) w w' : ok (returns a) w w' b → w' = w ∧ b = a.
Proof. unfold ok, returns. by intros [= -> ->]. Qed.

Lemma ok_get {A} (f : world → A) w w' a : ok (get f) w w' a → w' = w ∧ a = f w.
Proof. unfold ok, get. by intros [= -> ->]. Qed.

Section effects.
Context (faults : nat → fault).

Lemma ok_exec_checked f w w' a :
  ok (exec_checked faults f) w w' a → w_store w' = (f (w_store w)).1 ∧ book w' = book w ∧ (f (w_store w)).2 = Ok tt.
Proof.
  unfold ok, exec_checked. destruct (faults (w_tick w)); [|done|done|done]. destruct (f (w_store w)) as [st [[]|e]]; [|done].
  by intros [= <- _].
Qed.

Lemma ok_exec f w w' a : ok (exec faults f) w w' a → w_store w' = f (w_store w) ∧ book w' = book w.
Proof. intros (H1 & H2 & _)%ok_exec_checked. done. Qed.

Lemma ok_fetch {A} (f : srow_store → result ApiError A) w w' a :
  ok (fetch faults f) w w' a → w_store w' = w_store w ∧ book w' = book w ∧ f (w_store w) = Ok a.
Proof.
  unfold ok, fetch. destruct (faults (w_tick w)); [|done|done|done]. destruct (f (w_store w)); [|done]. by intros [= <- <-].
Qed.

End effects.

(** A loop whose iterations act on the store by [F] and on the bookkeeping by [G]. *)
Lemma ok_for_each {A} (f : A → M unit) (F : A → srow_store → srow_store) (G : A → list Z) (Q : A → Prop) l : ∀ w w' a,
  (∀ x w w', x ∈ l → ok (f x) w w' tt →
     w_store w' = F x (w_store w) ∧ book w' = (carried_specs w, built_index_seg_uuids w ++ G x) ∧ Q x) →
  ok (for_each l f) w w' a →
  w_store w' = foldl (λ st x, F x st) (w_store w) l ∧
  book w' = (carried_specs w, built_index_seg_uuids w ++ concat (G <$> l)) ∧ Forall Q l.
Proof.
  induction l as [|x l IH]; intros w w' a Hf.
  - intros [-> _]%ok_returns. split_and!; [done| |constructor]. simpl. by rewrite app_nil_r.
  - intros ([] & w1 & H1 & H2)%ok_bind. destruct (Hf x w w1 (list_elem_of_here _ _) H1) as (S1 & B1 & Q1).
    destruct (IH w1 w' a) as (S2 & B2 & Q2); [intros y v v' Hy; apply Hf; by right|done|].
    injection B1 as C1 D1. split_and!; [by rewrite S2, S1| |by constructor].
    rewrite B2, C1, D1, fmap_cons. cbn [concat]. by rewrite <- app_assoc.
Qed.

Lemma ok_for_each_plain {A} (f : A → M unit) (F : A → srow_store → srow_store) (Q : A → Prop) l w w' a :
  (∀ x w w', x ∈ l → ok (f x) w w' tt → w_store w' = F x (w_store w) ∧ book w' = book w ∧ Q x) →
  ok (for_each l f) w w' a →
  w_store w' = foldl (λ st x, F x st) (w_store w) l ∧ book w' = book w ∧ Forall Q l.
Proof.
  intros Hf Hok. destruct (ok_for_each f F (λ _, []) Q l w w' a) as (H1 & H2 & H3); [|done|].
  - intros x v v' Hx Hv. destruct (Hf x v v' Hx Hv) as (? & ? & ?). split_and!; [done| |done]. by rewrite app_nil_r.
  - split_and!; [done| |done]. rewrite H2. unfold book. f_equal.
    assert (concat ((λ _ : A, []) <$> l) = ([] : list Z)) as -> by (clear; induction l; done). apply app_nil_r.
Qed.

Section post.
Context `{UuidText} {K : ArrowKernels} {N : SegmentNaming} {C : StatsCodec} {I : IndexNaming} {X : IndexCell}.
Context (faults : nat → fault) (now : Z).

(** ** Files and their segment rows *)

Definition group_store (table : Z) (f : SnapshotFileStep srow) (st : srow_store) : srow_store :=
  let u := DataUri (step_snap_uuid f) (uri f) in
  let st1 := foldl (λ st row, insert_snapshot_segment table (seg_uuid row) (step_snap_uuid f) (spec_chunk_idx row) u
                                (spec_offset row) (spec_length row) (statistics row) st) st (segment_rows f) in
  let st2 := on_files (insert u (BaseFile (file_batch f))) st1 in
  let st3 := foldl (λ st row, update_snapshot_segment_size (seg_uuid row) (size_bytes row) st) st2 (segment_rows f) in
  foldl (λ st row, commit_snapshot_segment now (seg_uuid row) st) st3 (segment_rows f).

Lemma ok_local_groups g w w' a : ok (local (λ w, set_groups (g w) w)) w w' a → w_store w' = w_store w ∧ book w' = book w.
Proof. unfold ok, local. by intros [= <- _]. Qed.

Lemma ok_write_segment_group table f w w' a :
  ok (write_segment_group faults now table f) w w' a → w_store w' = group_store table f (w_store w) ∧ book w' = book w.
Proof.
  unfold write_segment_group. intros ([] & w1 & [S1 B1]%ok_local_groups & Hr)%ok_bind.
  apply ok_bind in Hr as ([] & w2 & H2 & Hr).
  apply (ok_for_each_plain _ (λ row st, insert_snapshot_segment table (seg_uuid row) (step_snap_uuid f) (spec_chunk_idx row)
    (DataUri (step_snap_uuid f) (uri f)) (spec_offset row) (spec_length row) (statistics row) st) (λ _, True)) in H2 as (S2 & B2 & _).
  2:{ intros row v v' _ ([] & v1 & [E1 E2]%ok_exec & [E3 E4]%ok_local_groups)%ok_bind. split_and!; [by rewrite E3|by rewrite E4|done]. }
  apply ok_bind in Hr as ([] & w3 & [S3 B3]%ok_exec & Hr). apply ok_bind in Hr as ([] & w4 & [S4 B4]%ok_local_groups & Hr).
  apply ok_bind in Hr as ([] & w5 & H5 & H6).
  apply (ok_for_each_plain _ (λ row st, update_snapshot_segment_size (seg_uuid row) (size_bytes row) st) (λ _, True)) in H5 as (S5 & B5 & _).
  2:{ intros row v v' _ [E1 E2]%ok_exec. done. }
  apply (ok_for_each_plain _ (λ row st, commit_snapshot_segment now (seg_uuid row) st) (λ _, True)) in H6 as (S6 & B6 & _).
  2:{ intros row v v' _ [E1 E2]%ok_exec. done. }
  split; [|by rewrite B6, B5, B4, B3, B2, B1]. rewrite S6, S5, S4, S3, S2, S1. done.
Qed.

(** ** Sidecar jobs *)

Record job := { j_seg : Z; j_cols : list (list cell); j_slug : option Z; j_parent : Z }.

Definition job_store (snap : Z) (j : job) (st : srow_store) : srow_store :=
  match build_segment_index (j_cols j) with
  | Err _ => st
  | Ok sc =>
      let u := IndexUri snap (j_seg j) (j_slug j) in
      insert_segment_index_metadata (segment_index_uuid (j_seg j) (j_slug j)) (j_seg j) (j_parent j) u (length (entries sc))
        (on_files (insert u (IndexFile sc)) st)
  end.

Definition job_ok (j : job) : Prop := ∃ sc, build_segment_index (j_cols j) = Ok sc.

Definition run_jobs (snap : Z) (js : list job) (st : srow_store) : srow_store := foldl (λ st j, job_store snap j st) st js.

Lemma run_jobs_app snap js1 js2 st : run_jobs snap (js1 ++ js2) st = run_jobs snap js2 (run_jobs snap js1 st).
Proof. unfold run_jobs. by rewrite foldl_app. Qed.

Definition identity_job (snap seg : Z) (rows : list srow) : job :=
  {| j_seg := seg; j_cols := [row_uuid_column rows]; j_slug := None; j_parent := table_snapshot_index_uuid snap None |}.

Definition index_job (s : schema) (snap seg : Z) (rows : list srow) (index : user_index) : option job :=
  (λ cols, {| j_seg := seg; j_cols := cols; j_slug := Some (ui_uuid index);
              j_parent := table_snapshot_index_uuid snap (Some (ui_uuid index)) |}) <$>
  mapM (column_by_name s rows) (ui_columns index).

Definition index_jobs (s : schema) (snap seg : Z) (rows : list srow) (indexes : list user_index) : list job :=
  omap (index_job s snap seg rows) indexes.

Lemma ok_sidecar snap seg cols slug parent w w' a :
  ok (build_one_segment_sidecar faults snap seg cols slug parent) w w' a →
  let j := {| j_seg := seg; j_cols := cols; j_slug := slug; j_parent := parent |} in
  w_store w' = job_store snap j (w_store w) ∧ book w' = book w ∧ job_ok j.
Proof.
  unfold build_one_segment_sidecar, job_store, job_ok. simpl. destruct (build_segment_index cols) as [sc|] eqn:E; [|done].
  intros ([] & w1 & [S1 B1]%ok_exec & ([] & w2 & [S2 B2]%ok_exec & H3)%ok_bind)%ok_bind.
  assert (w_store w' = w_store w2 ∧ book w' = book w2) as [S3 B3] by (unfold ok, local in H3; by injection H3 as <-).
  split_and!; [by rewrite S3, S2, S1|by rewrite B3, B2, B1|by exists sc].
Qed.

Lemma ok_user_sidecar s snap seg index rows w w' a :
  ok (build_user_index_sidecar faults s snap seg index rows) w w' a →
  ∃ j, index_job s snap seg rows index = Some j ∧ job_ok j ∧ w_store w' = job_store snap j (w_store w) ∧ book w' = book w.
Proof.
  unfold build_user_index_sidecar, index_job. destruct (mapM _ _) as [cols|]; [|done]. intros Hok%ok_sidecar.
  destruct Hok as (S1 & B1 & J1). by eexists.
Qed.

Lemma ok_index_loop s snap seg rows indexes w w' a :
  ok (for_each indexes (λ index, build_user_index_sidecar faults s snap seg index rows)) w w' a →
  w_store w' = run_jobs snap (index_jobs s snap seg rows indexes) (w_store w) ∧ book w' = book w ∧
  Forall job_ok (index_jobs s snap seg rows indexes) ∧ Forall (λ i, is_Some (index_job s snap seg rows i)) indexes.
Proof.
  intros Hok. apply (ok_for_each_plain _ (λ i st, run_jobs snap (option_list (index_job s snap seg rows i)) st)
    (λ i, is_Some (index_job s snap seg rows i) ∧ Forall job_ok (option_list (index_job s snap seg rows i)))) in Hok as (S1 & B1 & Q1).
  2:{ intros i v v' _ (j & Hj & Hjo & E1 & E2)%ok_user_sidecar. rewrite Hj. split_and!; [done|done|by eexists|by repeat constructor]. }
  assert (∀ st, foldl (λ st i, run_jobs snap (option_list (index_job s snap seg rows i)) st) st indexes =
    run_jobs snap (index_jobs s snap seg rows indexes) st) as Hrun.
  { clear. induction indexes as [|i is_ IH]; intros st; [done|]. cbn [foldl]. rewrite IH. unfold index_jobs. simpl.
    destruct (index_job s snap seg rows i); done. }
  split_and!; [by rewrite S1, Hrun|done| |].
  - clear -Q1. induction Q1 as [|i is_ [[j Hj] Hq] Q IH]; [constructor|]. unfold index_jobs in *. simpl. rewrite Hj in Hq |- *.
    constructor; [by apply Forall_cons in Hq as [? _]|done].
  - eapply Forall_impl; [exact Q1|]. by intros i [? _].
Qed.

(** ** A packed file: its rows, its file, its sidecars *)

Definition row_slice (f : SnapshotFileStep srow) (row : SnapshotSegmentRowSpec) : list srow :=
  slice_rows (file_batch f) (spec_offset row) (spec_length row).

Definition row_indexes (ctx : SnapshotWriteCtx) : list user_index := c_user_indexes ctx ++ option_list (c_name_index ctx).

Definition row_jobs (ctx : SnapshotWriteCtx) (f : SnapshotFileStep srow) (row : SnapshotSegmentRowSpec) : list job :=
  if (spec_length row =? 0)%nat then []
  else identity_job (c_snap ctx) (seg_uuid row) (row_slice f row) ::
       index_jobs (snapshot_read_schema (c_user_schema ctx)) (c_snap ctx) (seg_uuid row) (row_slice f row) (row_indexes ctx).

Definition file_jobs (ctx : SnapshotWriteCtx) (f : SnapshotFileStep srow) : list job :=
  concat (row_jobs ctx f <$> segment_rows f).

Definition row_built (row : SnapshotSegmentRowSpec) : list Z := if (spec_length row =? 0)%nat then [] else [seg_uuid row].

Definition row_covered (ctx : SnapshotWriteCtx) (f : SnapshotFileStep srow) (row : SnapshotSegmentRowSpec) : Prop :=
  Forall job_ok (row_jobs ctx f row) ∧
  (spec_length row ≠ 0%nat →
   Forall (λ i, is_Some (index_job (snapshot_read_schema (c_user_schema ctx)) (c_snap ctx) (seg_uuid row) (row_slice f row) i))
     (row_indexes ctx)).

Lemma ok_file_indexes ctx f w w' a :
  ok (build_file_segment_indexes faults ctx f) w w' a →
  w_store w' = run_jobs (c_snap ctx) (file_jobs ctx f) (w_store w) ∧
  book w' = (carried_specs w, built_index_seg_uuids w ++ concat (row_built <$> segment_rows f)) ∧
  Forall (row_covered ctx f) (segment_rows f).
Proof.
  intros Hok. apply (ok_for_each _ (λ row st, run_jobs (c_snap ctx) (row_jobs ctx f row) st) row_built (row_covered ctx f)) in Hok as (S1 & B1 & Q1).
  - split_and!; [|done|done]. rewrite S1. unfold file_jobs. generalize (w_store w). clear.
    induction (segment_rows f) as [|row rows IH]; intros st; [done|]. cbn [foldl]. rewrite IH, fmap_cons. cbn [concat]. by rewrite run_jobs_app.
  - intros row v v' _. unfold row_covered, row_jobs, row_built. destruct (Nat.eqb_spec (spec_length row) 0) as [Hz|Hnz].
    { intros [-> _]%ok_returns. split_and!; [done|by rewrite app_nil_r|constructor|done]. }
    intros ([] & v1 & (S1 & B1 & J1)%ok_sidecar & ([] & v2 & (S2 & B2 & J2 & I2)%ok_index_loop & Hr)%ok_bind)%ok_bind.
    apply ok_bind in Hr as ([] & v3 & H3 & H4).
    assert (w_store v' = w_store v3 ∧ book v' = (carried_specs v3, built_index_seg_uuids v3 ++ [seg_uuid row])) as [S4 B4]
      by (unfold ok, local in H4; by injection H4 as <-).
    set (s := snapshot_read_schema (c_user_schema ctx)) in *. set (sl := row_slice f row).
    assert (w_store v3 = run_jobs (c_snap ctx) (index_jobs s (c_snap ctx) (seg_uuid row) sl (option_list (c_name_index ctx))) (w_store v2) ∧
      book v3 = book v2 ∧ Forall job_ok (index_jobs s (c_snap ctx) (seg_uuid row) sl (option_list (c_name_index ctx))) ∧
      Forall (λ i, is_Some (index_job s (c_snap ctx) (seg_uuid row) sl i)) (option_list (c_name_index ctx))) as (S3 & B3 & J3 & I3).
    { destruct (c_name_index ctx) as [name|]; [|apply ok_returns in H3 as [-> _]; by split_and!].
      apply ok_user_sidecar in H3 as (j & Hj & Hjo & E1 & E2). unfold index_jobs. simpl. change (slice_rows (file_batch f) (spec_offset row) (spec_length row)) with sl in Hj. rewrite Hj.
      split_and!; [done|done|by repeat constructor|by repeat constructor]. }
    unfold row_indexes, index_jobs in *. rewrite omap_app. split_and!.
    + rewrite S4, S3, S2, S1. cbn [run_jobs foldl]. by rewrite <- run_jobs_app.
    + rewrite B4. assert (book v3 = book v) as Hb by (by rewrite B3, B2, B1). by injection Hb as -> ->.
    + constructor; [done|by apply Forall_app].
    + intros _. by apply Forall_app.
Qed.

(** ** The pack steps *)

Definition step_store (ctx : SnapshotWriteCtx) (step : PackStep srow) (st : srow_store) : srow_store :=
  match step with
  | PackFile f => run_jobs (c_snap ctx) (file_jobs ctx f) (group_store (c_table ctx) f st)
  | PackCarried _ => st
  end.

Definition step_carried (step : PackStep srow) : list CarriedSegmentSpec :=
  match step with PackFile _ => [] | PackCarried specs => specs end.

Definition step_built (step : PackStep srow) : list Z :=
  match step with PackFile f => concat (row_built <$> segment_rows f) | PackCarried _ => [] end.

Definition step_covered (ctx : SnapshotWriteCtx) (step : PackStep srow) : Prop :=
  match step with PackFile f => Forall (row_covered ctx f) (segment_rows f) | PackCarried _ => True end.

Definition steps_store (ctx : SnapshotWriteCtx) (steps : list (PackStep srow)) (st : srow_store) : srow_store :=
  foldl (λ st step, step_store ctx step st) st steps.

Lemma ok_write_steps ctx steps failed w w' a :
  ok (write_steps faults now ctx steps failed) w w' a →
  w_store w' = steps_store ctx steps (w_store w) ∧ failed = None ∧ Forall (step_covered ctx) steps ∧
  book w' = (carried_specs w ++ concat (step_carried <$> steps), built_index_seg_uuids w ++ concat (step_built <$> steps)).
Proof.
  intros ([] & w1 & H1 & H2)%ok_bind. destruct failed as [e|]; [done|]. apply ok_returns in H2 as [-> _].
  assert (∀ w, ok (for_each steps (λ step, match step with
    | PackFile file => write_segment_group faults now (c_table ctx) file ;! build_file_segment_indexes faults ctx file
    | PackCarried specs => local (λ w, set_carried (carried_specs w ++ specs) w) end)) w w1 tt →
    w_store w1 = steps_store ctx steps (w_store w) ∧ Forall (step_covered ctx) steps ∧
    book w1 = (carried_specs w ++ concat (step_carried <$> steps), built_index_seg_uuids w ++ concat (step_built <$> steps))) as Hloop.
  2:{ destruct (Hloop w H1) as (? & ? & ?). by split_and!. }
  clear H1 w. induction steps as [|step steps IH]; intros w; cbn [for_each].
  - intros [-> _]%ok_returns. split_and!; [done|constructor|]. simpl. by rewrite !app_nil_r.
  - intros ([] & w2 & H2 & H3)%ok_bind. destruct (IH w2 H3) as (S3 & Q3 & B3).
    assert (w_store w2 = step_store ctx step (w_store w) ∧ step_covered ctx step ∧
      book w2 = (carried_specs w ++ step_carried step, built_index_seg_uuids w ++ step_built step)) as (S2 & Q2 & B2).
    { destruct step as [f|specs].
      - apply ok_bind in H2 as ([] & w3 & [S1 B1]%ok_write_segment_group & (S2 & B2 & Q2)%ok_file_indexes).
        injection B1 as C1 D1. split_and!; [by rewrite S2, S1|done|]. rewrite B2, C1, D1. cbn. by rewrite app_nil_r.
      - unfold ok, local in H2. injection H2 as <-. split_and!; [done|done|]. cbn. by rewrite app_nil_r. }
    injection B2 as C2 D2. split_and!; [by rewrite S3, S2|by constructor|]. rewrite B3, C2, D2, !fmap_cons. cbn [concat]. by rewrite <- !app_assoc.
Qed.

(** ** Carried segments *)

Definition base_uris (prior : gmap Z planned_segment) : Prop := ∀ u p, prior !! u = Some p → ∃ a b, pl_uri p = DataUri a b.

Definition prior_rows (prior : gmap Z planned_segment) (st : srow_store) (seg : Z) : option (list srow) :=
  prior !! seg ≫= λ p, read_base (pl_uri p) (pl_offset p) (pl_length p) st.

Definition uncovered_of (ctx : SnapshotWriteCtx) (existing : list Z) (spec : CarriedSegmentSpec) : list user_index :=
  filter (λ i, covered existing spec i = false) (c_user_indexes ctx).

Definition carried_jobs (ctx : SnapshotWriteCtx) (prior : gmap Z planned_segment) (st : srow_store)
    (x : CarriedSegmentSpec * list user_index) : list job :=
  match prior_rows prior st (prior_seg_uuid x.1) with
  | Some rows => index_jobs (snapshot_read_schema (c_user_schema ctx)) (c_snap ctx) (new_seg_uuid x.1) rows x.2
  | None => []
  end.

(** Every index a carried segment lacks was built from the segment's rows. *)
Definition carried_covered (ctx : SnapshotWriteCtx) (prior : gmap Z planned_segment) (st : srow_store)
    (x : CarriedSegmentSpec * list user_index) : Prop :=
  ∃ rows, prior_rows prior st (prior_seg_uuid x.1) = Some rows ∧ Forall job_ok (carried_jobs ctx prior st x) ∧
    Forall (λ i, is_Some (index_job (snapshot_read_schema (c_user_schema ctx)) (c_snap ctx) (new_seg_uuid x.1) rows i)) x.2.

Lemma job_store_files snap j st a b : st_files (job_store snap j st) !! DataUri a b = st_files st !! DataUri a b.
Proof. unfold job_store. destruct (build_segment_index _); [|done]. cbn. by rewrite lookup_insert_ne. Qed.

Lemma run_jobs_files snap js : ∀ st a b, st_files (run_jobs snap js st) !! DataUri a b = st_files st !! DataUri a b.
Proof.
  induction js as [|j js IH]; intros st a b; [done|]. unfold run_jobs in *. cbn [foldl]. by rewrite IH, job_store_files.
Qed.

Lemma prior_rows_jobs snap js prior st seg : base_uris prior → prior_rows prior (run_jobs snap js st) seg = prior_rows prior st seg.
Proof.
  intros Hb. unfold prior_rows. destruct (prior !! seg) as [p|] eqn:E; [|done]. destruct (Hb seg p E) as (a & b & Hu). simpl.
  unfold read_base. by rewrite Hu, run_jobs_files.
Qed.

Lemma ok_read_wave prior wave : ∀ w w' bs,
  ok (read_wave faults prior wave) w w' bs →
  w_store w' = w_store w ∧ book w' = book w ∧
  Forall2 (λ x b, b.1 = x ∧ prior_rows prior (w_store w) (prior_seg_uuid x.1) = Some b.2) wave bs.
Proof.
  induction wave as [|[spec is_] wave IH]; intros w w' bs; cbn [read_wave].
  - intros [-> ->]%ok_returns. split_and!; [done|done|constructor].
  - intros (rows & w1 & H1 & (more & w2 & H2 & [-> ->]%ok_returns)%ok_bind)%ok_bind.
    assert (w_store w1 = w_store w ∧ book w1 = book w ∧ prior_rows prior (w_store w) (prior_seg_uuid spec) = Some rows) as (S1 & B1 & R1).
    { unfold read_carried_base_segment in H1. unfold prior_rows. destruct (prior !! prior_seg_uuid spec) as [p|]; [|done].
      apply ok_fetch in H1 as (S1 & B1 & R1). simpl. destruct (read_base _ _ _ _); [|done]. by injection R1 as ->. }
    destruct (IH w1 w2 more H2) as (S2 & B2 & F2). split_and!; [by rewrite S2|by rewrite B2|]. constructor; [done|].
    by rewrite <- S1.
Qed.

Lemma ok_wave ctx prior wave w w' a :
  base_uris prior →
  ok (batches ←! read_wave faults prior wave ;
      for_each batches (λ x, let '(spec, indexes, rows) := x in
        for_each indexes (λ index,
          build_user_index_sidecar faults (snapshot_read_schema (c_user_schema ctx)) (c_snap ctx) (new_seg_uuid spec) index rows))) w w' a →
  w_store w' = run_jobs (c_snap ctx) (concat (carried_jobs ctx prior (w_store w) <$> wave)) (w_store w) ∧ book w' = book w ∧
  Forall (carried_covered ctx prior (w_store w)) wave.
Proof.
  intros Hb (bs & w1 & (S1 & B1 & F1)%ok_read_wave & H2)%ok_bind.
  set (st := w_store w) in *. set (s := snapshot_read_schema (c_user_schema ctx)) in *.
  assert (∀ v a, ok (for_each bs (λ x, let '(spec, indexes, rows) := x in for_each indexes (λ index,
      build_user_index_sidecar faults s (c_snap ctx) (new_seg_uuid spec) index rows))) v w' a →
    w_store w' = run_jobs (c_snap ctx) (concat (carried_jobs ctx prior st <$> wave)) (w_store v) ∧ book w' = book v ∧
    Forall (carried_covered ctx prior st) wave) as Hloop.
  2:{ destruct (Hloop w1 a H2) as (E1 & E2 & E3). rewrite S1 in E1. split_and!; [done|by rewrite E2|done]. }
  clear H2. induction F1 as [|x [y rows] wave bs [E R1] F1 IH]; intros v a'; cbn [for_each].
  - intros [-> _]%ok_returns. by split_and!.
  - simpl in E, R1. subst y. destruct x as [spec is_]. simpl in R1. intros ([] & v1 & (S2 & B2 & J2 & I2)%ok_index_loop & H3)%ok_bind.
    destruct (IH v1 a' H3) as (S3 & B3 & Q3). rewrite fmap_cons. cbn [concat].
    assert (carried_jobs ctx prior st (spec, is_) = index_jobs s (c_snap ctx) (new_seg_uuid spec) rows is_) as Hj
      by (unfold carried_jobs; simpl; by rewrite R1).
    split_and!; [by rewrite S3, S2, run_jobs_app, Hj|by rewrite B3|]. constructor; [|done]. exists rows. split_and!; [done|by rewrite Hj|done].
Qed.

Lemma waves_concat {A} n (l : list A) : ∀ fuel, (length l ≤ fuel)%nat → (1 ≤ n)%nat → concat (waves_of fuel n l) = l.
Proof.
  intros fuel. revert l. induction fuel as [|fuel IH]; intros l Hl Hn; [by destruct l; simpl in Hl; [|lia]|].
  destruct l as [|x l]; [done|]. cbn [waves_of concat]. rewrite IH; [apply take_drop| |done].
  rewrite length_drop. simpl in *. lia.
Qed.

Lemma ok_waves ctx prior ws : ∀ w w' a,
  base_uris prior →
  ok (for_each ws (λ wave, batches ←! read_wave faults prior wave ;
      for_each batches (λ x, let '(spec, indexes, rows) := x in
        for_each indexes (λ index,
          build_user_index_sidecar faults (snapshot_read_schema (c_user_schema ctx)) (c_snap ctx) (new_seg_uuid spec) index rows)))) w w' a →
  w_store w' = run_jobs (c_snap ctx) (concat (carried_jobs ctx prior (w_store w) <$> concat ws)) (w_store w) ∧ book w' = book w ∧
  Forall (carried_covered ctx prior (w_store w)) (concat ws).
Proof.
  induction ws as [|wave ws IH]; intros w w' a Hb; cbn [for_each concat].
  - intros [-> _]%ok_returns. by split_and!.
  - intros ([] & w1 & (S1 & B1 & Q1)%ok_wave & H2)%ok_bind; [|done]. destruct (IH w1 w' a Hb H2) as (S2 & B2 & Q2).
    assert (∀ x, carried_jobs ctx prior (w_store w1) x = carried_jobs ctx prior (w_store w) x) as Hj
      by (intros x; unfold carried_jobs; by rewrite S1, prior_rows_jobs).
    assert (∀ x, carried_covered ctx prior (w_store w1) x ↔ carried_covered ctx prior (w_store w) x) as Hq
      by (intros x; unfold carried_covered; by rewrite S1, prior_rows_jobs, <- S1, Hj).
    split_and!.
    + rewrite S2, fmap_app, concat_app, run_jobs_app, <- S1. do 2 f_equal. by apply list_fmap_ext.
    + by rewrite B2.
    + apply Forall_app. split; [done|]. eapply Forall_impl; [exact Q2|]. intros x. by rewrite Hq.
Qed.

Definition carry_indexes (ctx : SnapshotWriteCtx) (existing : list Z) (specs : list CarriedSegmentSpec) (st : srow_store) : srow_store :=
  foldl (λ st index, insert_carried_segment_indexes (table_snapshot_index_uuid (c_snap ctx) (Some (ui_uuid index)))
           (Some (ui_uuid index))
           ((λ spec, (new_seg_uuid spec, prior_seg_uuid spec)) <$> filter (λ spec, covered existing spec index = true) specs) st)
    st (c_user_indexes ctx).

Definition existing_of (specs : list CarriedSegmentSpec) (st : srow_store) : list Z :=
  fst <$> list_segment_index_metadata (prior_seg_uuid <$> specs) st.

Definition uncovered_all (ctx : SnapshotWriteCtx) (specs : list CarriedSegmentSpec) (st : srow_store) :
    list (CarriedSegmentSpec * list user_index) :=
  filter (λ x : CarriedSegmentSpec * list user_index, x.2 ≠ [])
    ((λ spec, (spec, uncovered_of ctx (existing_of specs st) spec)) <$> specs).

Definition materialized (ctx : SnapshotWriteCtx) (prior : gmap Z planned_segment) (specs : list CarriedSegmentSpec)
    (st : srow_store) : srow_store :=
  carry_indexes ctx (existing_of specs st) specs
    (run_jobs (c_snap ctx) (concat (carried_jobs ctx prior st <$> uncovered_all ctx specs st)) st).

Lemma carried_nil parent slug (st : srow_store) : insert_carried_segment_indexes parent slug [] st = st.
Proof. by destruct st. Qed.

Lemma ok_materialize ctx conc specs prior w w' a :
  base_uris prior → specs ≠ [] →
  ok (materialize_carried_user_indexes faults ctx conc specs prior) w w' a →
  w_store w' = materialized ctx prior specs (w_store w) ∧ book w' = book w ∧
  Forall (carried_covered ctx prior (w_store w)) (uncovered_all ctx specs (w_store w)).
Proof.
  intros Hb Hne. unfold materialize_carried_user_indexes, materialized, carry_indexes.
  destruct (c_user_indexes ctx) as [|i is_] eqn:Ei.
  - intros [-> _]%ok_returns.
    assert (uncovered_all ctx specs (w_store w) = []) as ->; [|by split_and!].
    unfold uncovered_all, uncovered_of. rewrite Ei. clear. generalize (existing_of specs (w_store w)). intros ex.
    induction specs as [|sp specs IH]; [done|]. rewrite fmap_cons, filter_cons. rewrite decide_False; [done|]. by intros [].
  - destruct specs as [|sp specs'] eqn:Es; [done|]. rewrite <- Es in *. clear Es.
    intros (ex & w1 & (S1 & B1 & E1)%ok_fetch & (_u & w2 & H2 & H3)%ok_bind)%ok_bind. injection E1 as <-. rewrite <- Ei in *.
    change (fst <$> list_segment_index_metadata (prior_seg_uuid <$> specs) (w_store w)) with (existing_of specs (w_store w)) in *.
    match type of H2 with ok (for_each (waves_of (length ?l) _ _) _) _ _ _ => change l with (uncovered_all ctx specs (w_store w)) in H2 end.
    apply ok_waves in H2 as (S2 & B2 & Q2); [|done]. rewrite waves_concat in S2, Q2 by lia. rewrite S1 in S2, Q2.
    apply (ok_for_each_plain _ (λ index st, insert_carried_segment_indexes (table_snapshot_index_uuid (c_snap ctx) (Some (ui_uuid index)))
      (Some (ui_uuid index)) ((λ spec, (new_seg_uuid spec, prior_seg_uuid spec)) <$>
        filter (λ spec, covered (existing_of specs (w_store w)) spec index = true) specs) st) (λ _, True)) in H3 as (S3 & B3 & _).
    + split_and!; [by rewrite S3, S2|by rewrite B3, B2|done].
    + intros index v v' _. destruct (filter _ specs) as [|c cov].
      * intros [-> _]%ok_returns. by rewrite carried_nil.
      * intros [E1 E2]%ok_exec. done.
Qed.

Definition carried_store (ctx : SnapshotWriteCtx) (prior : gmap Z planned_segment) (specs : list CarriedSegmentSpec)
    (st : srow_store) : srow_store :=
  match specs with
  | [] => st
  | _ =>
      let uuids := new_seg_uuid <$> specs in
      let st1 := commit_snapshot_segments_by_uuids now uuids (insert_carried_snapshot_segments (c_snap ctx) specs st).1 in
      let st2 := insert_carried_segment_indexes (table_snapshot_index_uuid (c_snap ctx) None) None
                   ((λ spec, (new_seg_uuid spec, prior_seg_uuid spec)) <$> specs) st1 in
      commit_segment_index_metadata_for_segments now uuids (materialized ctx prior specs st2)
  end.

Lemma ok_write_carried ctx conc prior w w' a :
  base_uris prior → ok (write_carried faults now ctx conc prior) w w' a →
  w_store w' = carried_store ctx prior (carried_specs w) (w_store w) ∧ book w' = book w ∧
  (carried_specs w ≠ [] → (insert_carried_snapshot_segments (c_snap ctx) (carried_specs w) (w_store w)).2 = Ok tt).
Proof.
  intros Hb (specs & w0 & [-> ->]%ok_get & Hr)%ok_bind. unfold carried_store.
  destruct (carried_specs w) as [|sp specs'] eqn:Es; [apply ok_returns in Hr as [-> _]; by split_and!|]. rewrite <- Es in *.
  apply ok_bind in Hr as ([] & w1 & (S1 & B1 & R1)%ok_exec_checked & Hr).
  apply ok_bind in Hr as ([] & w2 & [S2 B2]%ok_exec & Hr). apply ok_bind in Hr as ([] & w3 & [S3 B3]%ok_exec & Hr).
  apply ok_bind in Hr as ([] & w4 & H4 & [S5 B5]%ok_exec). apply ok_materialize in H4 as (S4 & B4 & _); [|done|by rewrite Es].
  split_and!; [by rewrite S5, S4, S3, S2, S1|by rewrite B5, B4, B3, B2, B1|done].
Qed.

(** ** The body *)

Definition declare_store (ctx : SnapshotWriteCtx) (st : srow_store) : srow_store :=
  let parent (index : option Z) cols := insert_table_snapshot_index (table_snapshot_index_uuid (c_snap ctx) index) (c_snap ctx) index cols in
  let st1 := parent None None st in
  let st2 := foldl (λ st i, parent (Some (ui_uuid i)) (Some (ui_columns i)) st) st1 (c_user_indexes ctx) in
  let st3 := match c_name_index ctx with Some name => parent (Some (ui_uuid name)) None st2 | None => st2 end in
  commit_table_snapshot_index_for_snapshot now (c_snap ctx) st3.

Lemma ok_declare ctx w w' a :
  ok (declare_index_parents faults now ctx) w w' a → w_store w' = declare_store ctx (w_store w) ∧ book w' = book w.
Proof.
  intros ([] & w1 & [S1 B1]%ok_exec & Hr)%ok_bind. apply ok_bind in Hr as ([] & w2 & H2 & Hr).
  apply (ok_for_each_plain _ (λ i st, insert_table_snapshot_index (table_snapshot_index_uuid (c_snap ctx) (Some (ui_uuid i))) (c_snap ctx)
    (Some (ui_uuid i)) (Some (ui_columns i)) st) (λ _, True)) in H2 as (S2 & B2 & _).
  2:{ intros i v v' _ [E1 E2]%ok_exec. done. }
  apply ok_bind in Hr as ([] & w3 & H3 & [S4 B4]%ok_exec). unfold declare_store.
  destruct (c_name_index ctx) as [name|].
  - apply ok_exec in H3 as [S3 B3]. split; [by rewrite S4, S3, S2, S1|by rewrite B4, B3, B2, B1].
  - apply ok_returns in H3 as [-> _]. split; [by rewrite S4, S2, S1|by rewrite B4, B2, B1].
Qed.

Definition placeholder_store (ctx : SnapshotWriteCtx) (steps : list (PackStep srow)) (st : srow_store) : srow_store :=
  if existsb wrote_file steps then st
  else match concat (step_carried <$> steps) with
       | [] => group_store (c_table ctx) (empty_merge_placeholder_step ctx) st
       | _ => st
       end.

Definition body_store (ctx : SnapshotWriteCtx) (prior : gmap Z planned_segment) (steps : list (PackStep srow)) (st : srow_store) :
    srow_store :=
  let st1 := steps_store ctx steps (declare_store ctx st) in
  let st2 := carried_store ctx prior (concat (step_carried <$> steps)) st1 in
  let st3 := placeholder_store ctx steps st2 in
  match concat (step_built <$> steps) with
  | [] => st3
  | built => commit_segment_index_metadata_for_segments now built st3
  end.

Lemma ok_write_body ctx conc steps failed prior w w' a :
  base_uris prior → book w = ([], []) → ok (write_body faults now ctx conc steps failed prior) w w' a →
  w_store w' = body_store ctx prior steps (w_store w) ∧ failed = None ∧ Forall (step_covered ctx) steps ∧
  (concat (step_carried <$> steps) ≠ [] →
   (insert_carried_snapshot_segments (c_snap ctx) (concat (step_carried <$> steps)) (steps_store ctx steps (declare_store ctx (w_store w)))).2 = Ok tt).
Proof.
  intros Hb H0 ([] & w1 & [S1 B1]%ok_declare & Hr)%ok_bind. rewrite H0 in B1. injection B1 as C1 D1.
  apply ok_bind in Hr as ([] & w2 & (S2 & F2 & Q2 & B2)%ok_write_steps & Hr). rewrite C1, D1 in B2. injection B2 as C2 D2.
  apply ok_bind in Hr as ([] & w3 & (S3 & B3 & R3)%ok_write_carried & Hr); [|done]. injection B3 as C3 D3. rewrite C2 in S3, R3, C3. rewrite D2 in D3.
  apply ok_bind in Hr as ([] & w4 & H4 & Hr). apply ok_bind in H4 as (specs & w5 & [-> ->]%ok_get & H4).
  assert (w_store w4 = placeholder_store ctx steps (w_store w3) ∧ book w4 = book w3) as [S4 B4].
  { unfold placeholder_store. destruct (existsb _ _); [apply ok_returns in H4 as [-> _]; done|].
    rewrite C3 in H4. cbn [app] in *. destruct (concat _); [by apply ok_write_segment_group in H4|apply ok_returns in H4 as [-> _]; done]. }
  injection B4 as C4 D4. apply ok_bind in Hr as (built & w5 & [-> ->]%ok_get & Hr). rewrite D4, D3 in Hr. cbn [app] in *.
  split_and!; [|done|done|by rewrite S2, S1 in R3]. unfold body_store. rewrite <- S1, <- S2, <- S3, <- S4.
  destruct (concat (step_built <$> steps)); [by apply ok_returns in Hr as [-> _]|by apply ok_exec in Hr as [-> _]].
Qed.

End post.
