(* ===== verification/SnapshotLayout.v ===== *)
(** * The rows and files of a finished snapshot

    The segment rows, index rows and files [body_store] leaves under the
    snapshot's names. *)

From S2P Require Import Prelude CoreTypes MergeSql IndexSeek IndexSelect Effects Ordered Chunker BatchUtil SegmentStats Packer PackLemmas PackTheorems CarryForward SnapshotMeta SnapshotWrite SnapshotFrame SnapshotPost.
From stdpp Require Import base numbers list option sets gmap sorting.

Open Scope Z_scope.

(** ** Folds of keyed updates *)

Lemma proj_foldl {A B D} (π : D → B) (F : A → D → D) (f : A → B → B) l :
  (∀ a st, π (F a st) = f a (π st)) → ∀ st, π (foldl (λ st a, F a st) st l) = foldl (λ b a, f a b) (π st) l.
Proof. intros Hf. induction l as [|a l IH]; intros st; [done|]. cbn [foldl]. by rewrite IH, Hf. Qed.

Section keyed.
Context {A V : Type} (key : A → Z) (f : A → gmap Z V → gmap Z V) (g : A → option V → option V).
Context (Hother : ∀ a m x, x ≠ key a → f a m !! x = m !! x) (Hhere : ∀ a m, f a m !! key a = g a (m !! key a)).

Lemma foldl_other l : ∀ m x, x ∉ key <$> l → foldl (λ m a, f a m) m l !! x = m !! x.
Proof using Hother.
  induction l as [|a l IH]; intros m x; [done|]. rewrite fmap_cons, not_elem_of_cons. intros [Hne Hn]. cbn [foldl].
  by rewrite (IH _ _ Hn), Hother.
Qed.

Lemma foldl_here l : ∀ m a, NoDup (key <$> l) → a ∈ l → foldl (λ m a, f a m) m l !! key a = g a (m !! key a).
Proof using Hother Hhere.
  induction l as [|b l IH]; intros m a; [by intros _ ?%elem_of_nil|]. rewrite fmap_cons. intros [Hn Hnd]%NoDup_cons.
  intros [->|Hin]%elem_of_cons; cbn [foldl].
  - by rewrite (foldl_other l _ _ Hn), Hhere.
  - rewrite (IH _ _ Hnd Hin). rewrite Hother; [done|]. intros Heq. apply Hn. rewrite <- Heq. by apply list_elem_of_fmap_2.
Qed.

End keyed.

Section facts.
Context `{UuidText} {K : ArrowKernels} {N : SegmentNaming} {C : StatsCodec} {I : IndexNaming} {X : IndexCell} (now : Z).

(** ** Segment rows of a packed file *)

Definition written (table snap : Z) (u : file_uri) (row : SnapshotSegmentRowSpec) (o : option segment_row) : segment_row :=
  {| sg_snapshot := match o with Some r => sg_snapshot r | None => snap end;
     sg_table := match o with Some r => sg_table r | None => table end;
     sg_chunk_idx := match o with Some r => sg_chunk_idx r | None => spec_chunk_idx row end;
     sg_uri := u; sg_offset := spec_offset row; sg_length := spec_length row; sg_row_count := spec_length row;
     sg_size := Some (size_bytes row); sg_statistics := statistics row; sg_commit := Some now |}.

Definition file_data_uri (f : SnapshotFileStep srow) : file_uri := DataUri (step_snap_uuid f) (uri f).

Lemma group_segs table f st :
  st_segs (group_store now table f st) =
  foldl (λ m row, alter (stamp_segment now) (seg_uuid row) m)
    (foldl (λ m row, alter (λ r, {| sg_snapshot := sg_snapshot r; sg_table := sg_table r; sg_chunk_idx := sg_chunk_idx r;
        sg_uri := sg_uri r; sg_offset := sg_offset r; sg_length := sg_length r; sg_row_count := sg_row_count r;
        sg_size := Some (size_bytes row); sg_statistics := sg_statistics r; sg_commit := sg_commit r |}) (seg_uuid row) m)
      (foldl (λ m row, st_segs (insert_snapshot_segment table (seg_uuid row) (step_snap_uuid f) (spec_chunk_idx row) (file_data_uri f)
          (spec_offset row) (spec_length row) (statistics row)
          {| st_snaps := ∅; st_segs := m; st_parents := ∅; st_children := ∅; st_files := ∅; st_delete_set := ∅ |} : srow_store))
        (st_segs st) (segment_rows f)) (segment_rows f)) (segment_rows f).
Proof.
  unfold group_store.
  rewrite (proj_foldl st_segs (λ row st, commit_snapshot_segment now (seg_uuid row) st) (λ row m, alter (stamp_segment now) (seg_uuid row) m)) by done.
  rewrite (proj_foldl st_segs (λ row st, update_snapshot_segment_size (seg_uuid row) (size_bytes row) st)
    (λ row m, alter (λ r, {| sg_snapshot := sg_snapshot r; sg_table := sg_table r; sg_chunk_idx := sg_chunk_idx r;
        sg_uri := sg_uri r; sg_offset := sg_offset r; sg_length := sg_length r; sg_row_count := sg_row_count r;
        sg_size := Some (size_bytes row); sg_statistics := sg_statistics r; sg_commit := sg_commit r |}) (seg_uuid row) m)) by done.
  do 2 f_equal. cbn [on_files st_segs].
  apply (proj_foldl st_segs (λ row st, insert_snapshot_segment table (seg_uuid row) (step_snap_uuid f) (spec_chunk_idx row) (file_data_uri f)
    (spec_offset row) (spec_length row) (statistics row) st)). done.
Qed.

Lemma group_segs_other table f st x : x ∉ seg_uuid <$> segment_rows f → st_segs (group_store now table f st) !! x = st_segs st !! x.
Proof.
  intros Hx. rewrite group_segs.
  rewrite (foldl_other seg_uuid (λ row m, alter (stamp_segment now) (seg_uuid row) m)); [|intros; by apply lookup_alter_ne|done].
  rewrite (foldl_other seg_uuid (λ row m, alter _ (seg_uuid row) m)); [|intros; by apply lookup_alter_ne|done].
  apply (foldl_other seg_uuid (λ row m, st_segs (insert_snapshot_segment _ _ _ _ _ _ _ _ (Build_snapshot_store srow ∅ m ∅ ∅ ∅ ∅)))); [|done].
  intros row m y Hy. cbn. by apply lookup_insert_ne.
Qed.

Lemma group_segs_row table f st row :
  NoDup (seg_uuid <$> segment_rows f) → row ∈ segment_rows f →
  st_segs (group_store now table f st) !! seg_uuid row =
  Some (written table (step_snap_uuid f) (file_data_uri f) row (st_segs st !! seg_uuid row)).
Proof.
  intros Hnd Hin. rewrite group_segs.
  rewrite (foldl_here seg_uuid (λ row m, alter (stamp_segment now) (seg_uuid row) m) (λ row o, stamp_segment now <$> o));
    [|intros; by apply lookup_alter_ne|intros; apply lookup_alter_eq|done|done].
  rewrite (foldl_here seg_uuid (λ row m, alter _ (seg_uuid row) m) (λ row o, (λ r, {| sg_snapshot := sg_snapshot r; sg_table := sg_table r; sg_chunk_idx := sg_chunk_idx r;
        sg_uri := sg_uri r; sg_offset := sg_offset r; sg_length := sg_length r; sg_row_count := sg_row_count r;
        sg_size := Some (size_bytes row); sg_statistics := sg_statistics r; sg_commit := sg_commit r |}) <$> o));
    [|intros; by apply lookup_alter_ne|intros; apply lookup_alter_eq|done|done].
  rewrite (foldl_here seg_uuid (λ row m, st_segs (insert_snapshot_segment _ _ _ _ _ _ _ _ (Build_snapshot_store srow ∅ m ∅ ∅ ∅ ∅)))
    (λ row o, Some (match o with
              | None => {| sg_snapshot := step_snap_uuid f; sg_table := table; sg_chunk_idx := spec_chunk_idx row; sg_uri := file_data_uri f;
                           sg_offset := spec_offset row; sg_length := spec_length row; sg_row_count := spec_length row; sg_size := None;
                           sg_statistics := statistics row; sg_commit := None |}
              | Some r => {| sg_snapshot := sg_snapshot r; sg_table := sg_table r; sg_chunk_idx := sg_chunk_idx r;
                             sg_uri := file_data_uri f; sg_offset := spec_offset row; sg_length := spec_length row;
                             sg_row_count := spec_length row; sg_size := sg_size r; sg_statistics := statistics row; sg_commit := sg_commit r |}
              end))).
  - unfold written. simpl. by destruct (st_segs st !! seg_uuid row).
  - intros r m y Hy. cbn. by apply lookup_insert_ne.
  - intros r m. cbn. rewrite lookup_insert_eq. done.
  - done.
  - done.
Qed.

Lemma foldl_keep {A B D} (π : D → B) (F : A → D → D) l : (∀ a st, π (F a st) = π st) → ∀ st, π (foldl (λ st a, F a st) st l) = π st.
Proof. intros Hf. induction l as [|a l IH]; intros st; [done|]. cbn [foldl]. by rewrite IH. Qed.

Lemma group_files table f st : st_files (group_store now table f st) = <[file_data_uri f := BaseFile (file_batch f)]> (st_files st).
Proof.
  unfold group_store. rewrite (foldl_keep st_files (λ row st, commit_snapshot_segment now (seg_uuid row) st)) by done.
  rewrite (foldl_keep st_files (λ row st, update_snapshot_segment_size (seg_uuid row) (size_bytes row) st)) by done. cbn [on_files st_files].
  f_equal. by rewrite (foldl_keep st_files (λ row st, insert_snapshot_segment _ _ _ _ _ _ _ _ st)).
Qed.

Lemma group_children table f st : st_children (group_store now table f st) = st_children st.
Proof.
  unfold group_store. rewrite (foldl_keep st_children (λ row st, commit_snapshot_segment now (seg_uuid row) st)) by done.
  rewrite (foldl_keep st_children (λ row st, update_snapshot_segment_size (seg_uuid row) (size_bytes row) st)) by done. cbn [on_files st_children].
  by rewrite (foldl_keep st_children (λ row st, insert_snapshot_segment _ _ _ _ _ _ _ _ st)).
Qed.

Lemma group_parents table f st : st_parents (group_store now table f st) = st_parents st.
Proof.
  unfold group_store. rewrite (foldl_keep st_parents (λ row st, commit_snapshot_segment now (seg_uuid row) st)) by done.
  rewrite (foldl_keep st_parents (λ row st, update_snapshot_segment_size (seg_uuid row) (size_bytes row) st)) by done. cbn [on_files st_parents].
  by rewrite (foldl_keep st_parents (λ row st, insert_snapshot_segment _ _ _ _ _ _ _ _ st)).
Qed.

(** ** Jobs touch sidecar rows and index files only *)

Lemma job_store_segs snap j st : st_segs (job_store snap j st) = st_segs st.
Proof. unfold job_store. by destruct (build_segment_index _). Qed.

Lemma job_store_parents snap j st : st_parents (job_store snap j st) = st_parents st.
Proof. unfold job_store. by destruct (build_segment_index _). Qed.

Lemma run_jobs_segs snap js st : st_segs (run_jobs snap js st) = st_segs st.
Proof. apply (foldl_keep st_segs (job_store snap)). apply job_store_segs. Qed.

Lemma run_jobs_parents snap js st : st_parents (run_jobs snap js st) = st_parents st.
Proof. apply (foldl_keep st_parents (job_store snap)). apply job_store_parents. Qed.

(** A sidecar in place: its row (whatever its stamp) and its file. *)
Definition child_at (st : srow_store) (seg : Z) (slug : option Z) (parent : Z) (u : file_uri) : Prop :=
  ∃ r, st_children st !! segment_index_uuid seg slug = Some r ∧ ch_segment r = seg ∧ ch_parent r = parent ∧ ch_uri r = u.

Definition sidecar_at (st : srow_store) (seg : Z) (slug : option Z) (parent : Z) (u : file_uri) (sc : sidecar) : Prop :=
  child_at st seg slug parent u ∧ st_files st !! u = Some (IndexFile sc).

Context {NL : NamingLaws N I}.

Lemma child_id_ne seg slug seg' slug' :
  (seg, slug) ≠ (seg', slug') → segment_index_uuid seg slug ≠ segment_index_uuid seg' slug'.
Proof using NL. intros Hne [-> ->]%segment_index_uuid_inj. done. Qed.

Lemma job_store_here snap j st sc :
  build_segment_index (j_cols j) = Ok sc →
  sidecar_at (job_store snap j st) (j_seg j) (j_slug j) (j_parent j) (IndexUri snap (j_seg j) (j_slug j)) sc.
Proof.
  intros E. unfold job_store. rewrite E. split.
  - eexists. split; [cbn; by rewrite lookup_insert_eq|done].
  - cbn. by rewrite lookup_insert_eq.
Qed.

Lemma job_store_other snap j st seg slug :
  (j_seg j, j_slug j) ≠ (seg, slug) →
  st_children (job_store snap j st) !! segment_index_uuid seg slug = st_children st !! segment_index_uuid seg slug ∧
  ∀ u, u ≠ IndexUri snap (j_seg j) (j_slug j) → st_files (job_store snap j st) !! u = st_files st !! u.
Proof using NL.
  intros Hne. unfold job_store. destruct (build_segment_index _); [|done]. cbn. split.
  - apply lookup_insert_ne. by apply child_id_ne.
  - intros u Hu. by apply lookup_insert_ne.
Qed.

Definition job_key (j : job) : Z * option Z := (j_seg j, j_slug j).

Lemma run_jobs_other snap js seg slug : ∀ st,
  (seg, slug) ∉ job_key <$> js →
  st_children (run_jobs snap js st) !! segment_index_uuid seg slug = st_children st !! segment_index_uuid seg slug ∧
  ∀ u, (∀ j, j ∈ js → u ≠ IndexUri snap (j_seg j) (j_slug j)) → st_files (run_jobs snap js st) !! u = st_files st !! u.
Proof using NL.
  induction js as [|j js IH]; intros st; [done|]. rewrite fmap_cons, not_elem_of_cons. intros [Hne Hn].
  unfold run_jobs in *. cbn [foldl]. destruct (IH (job_store snap j st) Hn) as [H1 H2].
  destruct (job_store_other snap j st seg slug) as [H3 H4]; [intros Heq; apply Hne; by rewrite <- Heq|]. split; [by rewrite H1|].
  intros u Hu. rewrite H2 by (intros j' Hj'; apply Hu; by right). apply H4. apply Hu. by left.
Qed.

Lemma run_jobs_here snap js : ∀ st j sc,
  NoDup (job_key <$> js) → j ∈ js → build_segment_index (j_cols j) = Ok sc →
  sidecar_at (run_jobs snap js st) (j_seg j) (j_slug j) (j_parent j) (IndexUri snap (j_seg j) (j_slug j)) sc.
Proof using NL.
  induction js as [|j0 js IH]; intros st j sc; [by intros _ ?%elem_of_nil|]. rewrite fmap_cons. intros [Hn Hnd]%NoDup_cons.
  intros [->|Hin]%elem_of_cons Hb; unfold run_jobs in *; cbn [foldl]; [|by apply IH].
  destruct (job_store_here snap j0 st sc Hb) as [(r & Hr & Hf) Hu]. destruct (run_jobs_other snap js (j_seg j0) (j_slug j0) (job_store snap j0 st) Hn) as [H1 H2].
  split.
  - exists r. unfold run_jobs in H1. by rewrite H1.
  - unfold run_jobs in H2. rewrite H2; [done|]. intros j' Hj' [= Ha Hb']. apply Hn. unfold job_key at 1. rewrite Ha, Hb'.
    by apply (list_elem_of_fmap_2 job_key).
Qed.

(** ** Carrying and committing sidecar rows *)

Lemma carried_children_other parent slug pairs seg sl (st : srow_store) :
  (sl ≠ slug ∨ seg ∉ pairs.*1) →
  st_children (insert_carried_segment_indexes parent slug pairs st) !! segment_index_uuid seg sl = st_children st !! segment_index_uuid seg sl.
Proof using NL.
  intros Hne. cbn. set (m := st_children st).
  match goal with |- foldl ?g m pairs !! _ = _ => assert (∀ acc, foldl g acc pairs !! segment_index_uuid seg sl = acc !! segment_index_uuid seg sl) as Hf; [|by apply Hf] end.
  induction pairs as [|[a b] pairs IH]; intros acc; [done|]. cbn [foldl fst snd].
  rewrite IH by (destruct Hne as [?|Hn]; [by left|right; rewrite fmap_cons in Hn; by apply not_elem_of_cons in Hn as [_ ?]]).
  destruct (m !! segment_index_uuid b slug) as [old|]; [|done]. destruct (committed _); [|done]. cbv zeta.
  apply lookup_insert_ne. apply child_id_ne. intros [= -> ->]. destruct Hne as [?|Hn]; [done|]. rewrite fmap_cons in Hn.
  by apply not_elem_of_cons in Hn as [? _].
Qed.

Lemma carried_children_here parent slug pairs (st : srow_store) a b old :
  NoDup (pairs.*1) → (a, b) ∈ pairs → st_children st !! segment_index_uuid b slug = Some old → committed (ch_commit old) = true →
  child_at (insert_carried_segment_indexes parent slug pairs st) a slug parent (ch_uri old).
Proof using NL.
  intros Hnd Hin Hold Hc. unfold child_at. cbn. set (m := st_children st) in *.
  match goal with |- ∃ r, foldl ?g m pairs !! _ = _ ∧ _ => assert (∀ acc, ∃ r, foldl g acc pairs !! segment_index_uuid a slug = Some r ∧
    ch_segment r = a ∧ ch_parent r = parent ∧ ch_uri r = ch_uri old) as Hf; [|by apply Hf] end.
  induction pairs as [|[a0 b0] pairs IH]; intros acc; [by apply elem_of_nil in Hin|]. rewrite fmap_cons in Hnd.
  apply NoDup_cons in Hnd as [Hn Hnd]. cbn [foldl fst snd] in *. apply elem_of_cons in Hin as [[= <- <-]|Hin]; [|by apply IH].
  rewrite Hold, Hc. cbv zeta.
  match goal with |- ∃ r, foldl ?g ?acc0 pairs !! _ = _ ∧ _ => assert (foldl g acc0 pairs !! segment_index_uuid a slug = acc0 !! segment_index_uuid a slug) as -> end.
  { clear -Hn NL. match goal with |- foldl ?g ?acc0 pairs !! _ = _ => generalize acc0 end. induction pairs as [|[a1 b1] pairs IH]; intros acc1; [done|].
    rewrite fmap_cons in Hn. apply not_elem_of_cons in Hn as [Hne Hn]. cbn [foldl fst snd] in *. rewrite IH by done.
    destruct (m !! segment_index_uuid b1 slug); [|done]. destruct (committed _); [|done]. apply lookup_insert_ne, child_id_ne. by intros [= ->]. }
  rewrite lookup_insert_eq. by eexists.
Qed.

Lemma commit_children_at segs st seg slug parent u :
  child_at st seg slug parent u → child_at (commit_segment_index_metadata_for_segments now segs st) seg slug parent u.
Proof.
  intros (r & Hr & H1 & H2 & H3). unfold child_at. cbn. rewrite lookup_fmap, Hr. simpl. eexists. split; [done|]. by destruct (decide _).
Qed.

(** A stamped sidecar. *)
Definition child_live (st : srow_store) (seg : Z) (slug : option Z) (parent : Z) (u : file_uri) : Prop :=
  ∃ r, st_children st !! segment_index_uuid seg slug = Some r ∧ ch_segment r = seg ∧ ch_parent r = parent ∧ ch_uri r = u ∧
    committed (ch_commit r) = true.

Lemma commit_children_live segs st seg slug parent u :
  child_at st seg slug parent u → seg ∈ segs → child_live (commit_segment_index_metadata_for_segments now segs st) seg slug parent u.
Proof.
  intros (r & Hr & H1 & H2 & H3) Hin. unfold child_live. cbn. rewrite lookup_fmap, Hr. simpl. eexists. split; [done|].
  destruct (decide _) as [|Hn]; [done|]. split_and!; try done. destruct (ch_commit r); [done|]. destruct Hn. by rewrite H1.
Qed.

Lemma commit_children_keep segs st seg slug parent u :
  child_live st seg slug parent u → child_live (commit_segment_index_metadata_for_segments now segs st) seg slug parent u.
Proof.
  intros (r & Hr & H1 & H2 & H3 & H4). unfold child_live. cbn. rewrite lookup_fmap, Hr. simpl. eexists. split; [done|]. by destruct (decide _).
Qed.

End facts.

(** ** The layout of a finished snapshot

    The committed segment rows of the new snapshot, in chunk order, are the rows
    of its pack steps, fresh and carried, and nothing else. *)

Section layout.
Context `{UuidText} {K : ArrowKernels} {N : SegmentNaming} {C : StatsCodec} {I : IndexNaming} {X : IndexCell} (now : Z).
Context {NL : NamingLaws N I}.
Context (ctx : SnapshotWriteCtx) (prior : gmap Z planned_segment).

Notation S0 := (c_snap ctx).

(** ** Segment rows of the steps *)

Definition step_fresh (step : PackStep srow) : list Z :=
  match step with PackFile f => seg_uuid <$> segment_rows f | PackCarried _ => [] end.

Definition step_uuids (step : PackStep srow) : list Z :=
  match step with PackFile f => seg_uuid <$> segment_rows f | PackCarried specs => new_seg_uuid <$> specs end.

Definition fresh_uuids (steps : list (PackStep srow)) : list Z := concat (step_fresh <$> steps).
Definition all_uuids (steps : list (PackStep srow)) : list Z := concat (step_uuids <$> steps).
Definition all_carried (steps : list (PackStep srow)) : list CarriedSegmentSpec := concat (step_carried <$> steps).

Lemma elem_concat_fmap {A B} (g : A → list B) (l : list A) b : b ∈ concat (g <$> l) ↔ ∃ a, a ∈ l ∧ b ∈ g a.
Proof.
  rewrite list_elem_of_In, in_concat. split.
  - intros (x & Hx & Hb). apply list_elem_of_In, list_elem_of_fmap in Hx as (a & -> & Ha). exists a. split; [done|by apply list_elem_of_In].
  - intros (a & Ha & Hb). exists (g a). rewrite <- !list_elem_of_In. split; [by apply list_elem_of_fmap_2|done].
Qed.

Lemma step_segs_other step st x : x ∉ step_fresh step → st_segs (step_store now ctx step st) !! x = st_segs st !! x.
Proof.
  destruct step as [f|specs]; [|done]. intros Hx. cbn. rewrite run_jobs_segs. by apply group_segs_other.
Qed.

Lemma steps_segs_other steps : ∀ st x, x ∉ fresh_uuids steps → st_segs (steps_store now ctx steps st) !! x = st_segs st !! x.
Proof.
  induction steps as [|step steps IH]; intros st x; [done|]. unfold fresh_uuids. rewrite fmap_cons. cbn [concat].
  rewrite not_elem_of_app. intros [H1 H2]. unfold steps_store in *. cbn [foldl]. rewrite IH by done. by apply step_segs_other.
Qed.

Lemma steps_segs_fresh steps : ∀ st f row,
  NoDup (fresh_uuids steps) → PackFile f ∈ steps → row ∈ segment_rows f →
  st_segs (steps_store now ctx steps st) !! seg_uuid row =
  Some (written now (c_table ctx) (step_snap_uuid f) (file_data_uri f) row (st_segs st !! seg_uuid row)).
Proof.
  induction steps as [|step steps IH]; intros st f row; [by intros _ ?%elem_of_nil|]. unfold fresh_uuids. rewrite fmap_cons. cbn [concat].
  intros (Hn1 & Hdis & Hn2)%NoDup_app Hin Hr. unfold steps_store in *. cbn [foldl]. apply elem_of_cons in Hin as [<-|Hin].
  - assert (seg_uuid row ∈ step_fresh (PackFile f)) as Hf by (by apply list_elem_of_fmap_2).
    pose proof (steps_segs_other steps (step_store now ctx (PackFile f) st) (seg_uuid row) (Hdis _ Hf)) as Ho. unfold steps_store in Ho. rewrite Ho.
    cbn. rewrite run_jobs_segs. by apply group_segs_row.
  - rewrite (IH _ f row Hn2 Hin Hr). do 2 f_equal. apply step_segs_other. intros Hf. apply (Hdis _ Hf). apply elem_concat_fmap.
    exists (PackFile f). split; [done|]. by apply list_elem_of_fmap_2.
Qed.

(** ** Carried rows *)

Definition carried_row (sp : CarriedSegmentSpec) (old : segment_row) (o : option segment_row) : segment_row :=
  stamp_segment now (carry_segment S0 sp old o).

Lemma carried_children_segs parent slug pairs (st : srow_store) : st_segs (insert_carried_segment_indexes parent slug pairs st) = st_segs st.
Proof. done. Qed.

Lemma carry_indexes_segs existing specs st : st_segs (carry_indexes ctx existing specs st) = st_segs st.
Proof.
  unfold carry_indexes.
  exact (foldl_keep st_segs (λ index st, insert_carried_segment_indexes (table_snapshot_index_uuid S0 (Some (ui_uuid index)))
    (Some (ui_uuid index)) ((λ spec, (new_seg_uuid spec, prior_seg_uuid spec)) <$> filter (λ spec, covered existing spec index = true) specs) st)
    (c_user_indexes ctx) (λ _ _, eq_refl) st).
Qed.

Lemma materialized_segs specs st : st_segs (materialized ctx prior specs st) = st_segs st.
Proof. unfold materialized. by rewrite carry_indexes_segs, run_jobs_segs. Qed.

Definition carry_fold (m0 m : gmap Z segment_row) (specs : list CarriedSegmentSpec) : gmap Z segment_row :=
  foldl (λ acc sp, match m0 !! prior_seg_uuid sp with
                   | Some old => <[new_seg_uuid sp := carry_segment S0 sp old (acc !! new_seg_uuid sp)]> acc
                   | None => acc end) m specs.

Lemma carry_fold_other m0 m specs x : x ∉ new_seg_uuid <$> specs → carry_fold m0 m specs !! x = m !! x.
Proof.
  apply (foldl_other new_seg_uuid (λ sp acc, match m0 !! prior_seg_uuid sp with
    | Some old => <[new_seg_uuid sp := carry_segment S0 sp old (acc !! new_seg_uuid sp)]> acc | None => acc end)).
  intros sp m' y Hy. destruct (m0 !! prior_seg_uuid sp); [by apply lookup_insert_ne|done].
Qed.

Lemma carry_fold_here m0 m specs sp old :
  NoDup (new_seg_uuid <$> specs) → sp ∈ specs → m0 !! prior_seg_uuid sp = Some old →
  carry_fold m0 m specs !! new_seg_uuid sp = Some (carry_segment S0 sp old (m !! new_seg_uuid sp)).
Proof.
  intros Hnd Hin Hold. unfold carry_fold.
  rewrite (foldl_here new_seg_uuid (λ sp acc, match m0 !! prior_seg_uuid sp with
    | Some old => <[new_seg_uuid sp := carry_segment S0 sp old (acc !! new_seg_uuid sp)]> acc | None => acc end)
    (λ sp o, match m0 !! prior_seg_uuid sp with Some old => Some (carry_segment S0 sp old o) | None => o end)); [by rewrite Hold| | |done|done].
  - intros a m' y Hy. destruct (m0 !! prior_seg_uuid a); [by apply lookup_insert_ne|done].
  - intros a m'. destruct (m0 !! prior_seg_uuid a); [by rewrite lookup_insert_eq|done].
Qed.

Lemma carried_segs specs st x :
  specs ≠ [] →
  st_segs (carried_store now ctx prior specs st) !! x =
  (λ r, if decide (x ∈ new_seg_uuid <$> specs) then stamp_segment now r else r) <$> carry_fold (st_segs st) (st_segs st) specs !! x.
Proof.
  intros Hne. unfold carried_store. destruct specs as [|sp specs'] eqn:E; [done|]. rewrite <- E in *. cbn [on_children st_segs commit_segment_index_metadata_for_segments].
  rewrite materialized_segs. cbn [insert_carried_segment_indexes on_children st_segs commit_snapshot_segments_by_uuids on_segs].
  rewrite map_lookup_imap. unfold insert_carried_snapshot_segments. rewrite E. rewrite <- E. cbn [fst on_segs st_segs].
  unfold carry_fold. by destruct (foldl _ _ _ !! x).
Qed.

(** ** The body *)

Lemma declare_segs st : st_segs (declare_store now ctx st) = st_segs st.
Proof.
  unfold declare_store. cbn. destruct (c_name_index ctx); cbn;
    by rewrite (foldl_keep st_segs (λ i st, insert_table_snapshot_index (table_snapshot_index_uuid S0 (Some (ui_uuid i))) S0
    (Some (ui_uuid i)) (Some (ui_columns i)) st)).
Qed.

Lemma body_segs steps st :
  st_segs (body_store now ctx prior steps st) =
  st_segs (placeholder_store now ctx steps (carried_store now ctx prior (all_carried steps) (steps_store now ctx steps (declare_store now ctx st)))).
Proof. unfold body_store, all_carried. by destruct (concat (step_built <$> steps)). Qed.

(** ** The rows of the new snapshot *)

Definition step_meta (st0 : srow_store) (step : PackStep srow) : list (Z * segment_row) :=
  match step with
  | PackFile f => (λ row, (seg_uuid row, written now (c_table ctx) S0 (file_data_uri f) row (st_segs st0 !! seg_uuid row))) <$> segment_rows f
  | PackCarried specs =>
      omap (λ sp, (λ old, (new_seg_uuid sp, carried_row sp old (st_segs st0 !! new_seg_uuid sp))) <$> st_segs st0 !! prior_seg_uuid sp) specs
  end.

Definition new_rows (st0 : srow_store) (steps : list (PackStep srow)) : list (Z * segment_row) := concat (step_meta st0 <$> steps).

(** What a write for [S0] starts from: steps numbered from 0 and named after the
    snapshot, carried segments that another snapshot's rows hold, and no row of
    [S0] left by an earlier attempt that this one does not write again. *)
Record write_ok (steps : list (PackStep srow)) (st0 : srow_store) (n : nat) : Prop := {
  wk_named : Forall (step_named S0) steps;
  wk_idx : concat (step_idxs <$> steps) = seq 0 n;
  wk_names : names_ok st0;
  wk_src : ∀ sp, sp ∈ all_carried steps → ∃ old, st_segs st0 !! prior_seg_uuid sp = Some old ∧ sg_snapshot old ≠ S0;
  wk_stale : ∀ u r, st_segs st0 !! u = Some r → sg_snapshot r = S0 → u ∈ all_uuids steps;
}.

Section rows.
Context (steps : list (PackStep srow)) (st0 : srow_store) (n : nat) (Hok : write_ok steps st0 n).

Lemma uuids_named : all_uuids steps = table_snapshot_segment_uuid S0 <$> seq 0 n.
Proof using Hok.
  destruct Hok as [Hn Hi _ _ _]. rewrite <- Hi. clear -Hn. unfold all_uuids. induction Hn as [|step steps Hs Hn IH]; [done|].
  rewrite !fmap_cons. cbn [concat]. rewrite fmap_app, IH. f_equal. destruct step as [f|specs]; cbn.
  - destruct Hs as [_ Hs]. rewrite <- list_fmap_compose. apply list_fmap_ext. intros i row Hrow. rewrite Forall_forall in Hs.
    apply Hs. by apply list_elem_of_lookup_2 in Hrow.
  - rewrite <- list_fmap_compose. apply list_fmap_ext. intros i sp Hsp. cbn [step_named] in Hs. rewrite Forall_forall in Hs.
    apply Hs. by apply list_elem_of_lookup_2 in Hsp.
Qed.

Lemma uuids_NoDup : NoDup (all_uuids steps).
Proof using Hok NL.
  rewrite uuids_named. apply NoDup_fmap_2_strong; [|apply NoDup_seq]. intros i j _ _ [_ ?]%segment_uuid_inj. done.
Qed.

Lemma fresh_sub x : x ∈ fresh_uuids steps → x ∈ all_uuids steps.
Proof. unfold fresh_uuids, all_uuids. rewrite !elem_concat_fmap. intros ([f|specs] & Hin & Hx); [by exists (PackFile f)|by apply elem_of_nil in Hx]. Qed.

Lemma carried_sub x : x ∈ new_seg_uuid <$> all_carried steps → x ∈ all_uuids steps.
Proof.
  intros (sp & -> & Hsp)%list_elem_of_fmap. unfold all_carried in Hsp. apply elem_concat_fmap in Hsp as ([f|specs] & Hin & Hsp); [by apply elem_of_nil in Hsp|].
  apply elem_concat_fmap. exists (PackCarried specs). split; [done|]. by apply list_elem_of_fmap_2.
Qed.

Lemma split_uuids : all_uuids steps ≡ₚ fresh_uuids steps ++ (new_seg_uuid <$> all_carried steps).
Proof.
  clear. unfold all_uuids, fresh_uuids, all_carried. induction steps as [|[f|specs] l IH]; [done|..]; rewrite !fmap_cons; cbn [concat step_uuids step_fresh step_carried app].
  - rewrite IH. by rewrite <- app_assoc.
  - rewrite IH, fmap_app. apply Permutation_app_swap_app.
Qed.

Lemma split_NoDup : NoDup (fresh_uuids steps) ∧ NoDup (new_seg_uuid <$> all_carried steps) ∧
  ∀ x, x ∈ fresh_uuids steps → x ∉ new_seg_uuid <$> all_carried steps.
Proof using Hok NL. pose proof uuids_NoDup as Hn. rewrite split_uuids in Hn. apply NoDup_app in Hn as (? & ? & ?). by split_and!. Qed.

(** A carried segment's source row is not one of the snapshot's own. *)
Lemma source_foreign sp old : st_segs st0 !! prior_seg_uuid sp = Some old → sg_snapshot old ≠ S0 → prior_seg_uuid sp ∉ all_uuids steps.
Proof using Hok NL.
  intros Hold Hne Hin. rewrite uuids_named in Hin. apply list_elem_of_fmap in Hin as (i & Hi & _).
  apply (own_not_other S0 (prior_seg_uuid sp) old); [by exists i|done|]. by apply (nm_seg st0 (wk_names _ _ _ Hok)).
Qed.

Notation mid := (steps_store now ctx steps (declare_store now ctx st0)).

Lemma mid_other x : x ∉ fresh_uuids steps → st_segs mid !! x = st_segs st0 !! x.
Proof. intros Hx. by rewrite steps_segs_other, declare_segs. Qed.

Lemma placeholder_skipped st : n ≠ 0%nat → placeholder_store now ctx steps st = st.
Proof using Hok.
  intros Hn. unfold placeholder_store. destruct (existsb wrote_file steps) eqn:E; [done|].
  destruct (concat (step_carried <$> steps)) as [|sp specs] eqn:Ec; [|done]. exfalso. apply Hn.
  destruct Hok as [_ Hi _ _ _]. assert (concat (step_idxs <$> steps) = []) as H0; [|rewrite H0 in Hi; by destruct n].
  clear -E Ec. induction steps as [|[f|specs] l IH]; [done|done|]. rewrite fmap_cons in Ec. rewrite fmap_cons. cbn [concat step_carried step_idxs] in *.
  apply app_nil in Ec as [-> Ec]. cbn in E. by rewrite IH.
Qed.

Notation fin := (body_store now ctx prior steps st0).

Lemma final_fresh f row :
  n ≠ 0%nat → PackFile f ∈ steps → row ∈ segment_rows f →
  st_segs fin !! seg_uuid row = Some (written now (c_table ctx) S0 (file_data_uri f) row (st_segs st0 !! seg_uuid row)).
Proof using Hok NL.
  intros Hn Hf Hr. rewrite body_segs, placeholder_skipped by done. destruct split_NoDup as (Hnf & Hnc & Hdis).
  assert (seg_uuid row ∈ fresh_uuids steps) as Hfr.
  { apply elem_concat_fmap. exists (PackFile f). split; [done|]. by apply list_elem_of_fmap_2. }
  assert (st_segs mid !! seg_uuid row = Some (written now (c_table ctx) S0 (file_data_uri f) row (st_segs st0 !! seg_uuid row))) as Hmid.
  { rewrite (steps_segs_fresh steps _ f row Hnf Hf Hr), declare_segs. do 2 f_equal.
    destruct Hok as [Hna _ _ _ _]. rewrite Forall_forall in Hna. by destruct (Hna _ Hf) as [-> _]. }
  destruct (decide (all_carried steps = [])) as [E|E]; [by rewrite E|]. rewrite carried_segs by done.
  rewrite carry_fold_other by (by apply Hdis). rewrite Hmid. simpl. rewrite decide_False; [done|by apply Hdis].
Qed.

Lemma final_carried sp old :
  n ≠ 0%nat → sp ∈ all_carried steps → st_segs st0 !! prior_seg_uuid sp = Some old →
  st_segs fin !! new_seg_uuid sp = Some (carried_row sp old (st_segs st0 !! new_seg_uuid sp)).
Proof using Hok NL.
  intros Hn Hsp Hold. rewrite body_segs, placeholder_skipped by done. destruct split_NoDup as (Hnf & Hnc & Hdis).
  assert (new_seg_uuid sp ∈ new_seg_uuid <$> all_carried steps) as Hin by (by apply list_elem_of_fmap_2).
  destruct (wk_src _ _ _ Hok sp Hsp) as (old' & Hold' & Hne). rewrite Hold in Hold'. injection Hold' as <-.
  rewrite carried_segs by (intros E; rewrite E in Hsp; by apply elem_of_nil in Hsp).
  rewrite (carry_fold_here _ _ _ sp old Hnc Hsp).
  - simpl. rewrite decide_True by done. unfold carried_row. rewrite mid_other; [done|]. intros Hf. by apply (Hdis _ Hf).
  - rewrite mid_other; [done|]. intros Hf%fresh_sub. by apply (source_foreign sp old Hold Hne).
Qed.

Lemma final_other x : n ≠ 0%nat → x ∉ all_uuids steps → st_segs fin !! x = st_segs st0 !! x.
Proof using Hok.
  intros Hn Hx. rewrite body_segs, placeholder_skipped by done.
  assert (x ∉ fresh_uuids steps) as Hf by (intros ?%fresh_sub; done).
  destruct (decide (all_carried steps = [])) as [E|E]; [rewrite E; by apply mid_other|].
  assert (x ∉ new_seg_uuid <$> all_carried steps) as Hc by (intros ?%carried_sub; done).
  rewrite carried_segs by done. rewrite carry_fold_other by done. rewrite mid_other by done. destruct (st_segs st0 !! x); [|done].
  simpl. by rewrite decide_False.
Qed.

(** *** The new rows, listed *)

Lemma meta_uuids : (new_rows st0 steps).*1 = all_uuids steps.
Proof using Hok.
  destruct Hok as [_ _ _ Hsrc _]. unfold new_rows, all_uuids, all_carried in *. clear Hok. induction steps as [|step l IH]; [done|].
  rewrite !fmap_cons. cbn [concat]. rewrite fmap_app, IH; [|intros sp Hsp; apply Hsrc; rewrite fmap_cons; cbn [concat]; apply elem_of_app; by right].
  f_equal. destruct step as [f|specs]; cbn; [by rewrite <- list_fmap_compose|].
  assert (∀ sp, sp ∈ specs → is_Some (st_segs st0 !! prior_seg_uuid sp)) as Hs.
  { intros sp Hsp. destruct (Hsrc sp) as (old & Ho & _); [|by eexists]. rewrite fmap_cons. cbn [concat step_carried]. apply elem_of_app. by left. }
  clear -Hs. induction specs as [|sp specs IH]; [done|]. simpl. destruct (Hs sp (list_elem_of_here _ _)) as [old ->]. simpl. f_equal.
  apply IH. intros sp' Hsp'. apply Hs. by right.
Qed.

Lemma elem_new_rows p : p ∈ new_rows st0 steps ↔
  (∃ f row, PackFile f ∈ steps ∧ row ∈ segment_rows f ∧
     p = (seg_uuid row, written now (c_table ctx) S0 (file_data_uri f) row (st_segs st0 !! seg_uuid row))) ∨
  (∃ sp old, sp ∈ all_carried steps ∧ st_segs st0 !! prior_seg_uuid sp = Some old ∧
     p = (new_seg_uuid sp, carried_row sp old (st_segs st0 !! new_seg_uuid sp))).
Proof.
  unfold new_rows, all_carried. rewrite elem_concat_fmap. split.
  - intros ([f|specs] & Hin & Hp).
    + cbn in Hp. apply list_elem_of_fmap in Hp as (row & -> & Hr). left. by exists f, row.
    + cbn in Hp. apply list_elem_of_omap in Hp as (sp & Hsp & Hp). right. destruct (st_segs st0 !! prior_seg_uuid sp) as [old|] eqn:E; [|done].
      injection Hp as <-. exists sp, old. split_and!; [|done|done]. apply elem_concat_fmap. by exists (PackCarried specs).
  - intros [(f & row & Hf & Hr & ->)|(sp & old & Hsp & Ho & ->)].
    + exists (PackFile f). split; [done|]. cbn. apply list_elem_of_fmap. by exists row.
    + apply elem_concat_fmap in Hsp as ([f|specs] & Hin & Hsp); [by apply elem_of_nil in Hsp|]. exists (PackCarried specs). split; [done|].
      cbn. apply list_elem_of_omap. exists sp. split; [done|]. by rewrite Ho.
Qed.

(** An own row in place keeps its identity: its snapshot is [S0] and its index the
    one its uuid names. *)
Lemma existing_named i r : st_segs st0 !! table_snapshot_segment_uuid S0 i = Some r → sg_snapshot r = S0 ∧ sg_chunk_idx r = i.
Proof using Hok NL. intros Hr. pose proof (nm_seg st0 (wk_names _ _ _ Hok) _ _ Hr) as [<- <-]%segment_uuid_inj. done. Qed.

Lemma written_named f row :
  PackFile f ∈ steps → row ∈ segment_rows f →
  let r := written now (c_table ctx) S0 (file_data_uri f) row (st_segs st0 !! seg_uuid row) in
  sg_snapshot r = S0 ∧ sg_chunk_idx r = spec_chunk_idx row.
Proof using Hok NL.
  intros Hf Hr. destruct Hok as [Hna _ _ _ _]. rewrite Forall_forall in Hna. destruct (Hna _ Hf) as [_ Hrows].
  rewrite Forall_forall in Hrows. unfold written. cbn. rewrite (Hrows row Hr).
  destruct (st_segs st0 !! _) as [r|] eqn:E; [by apply existing_named|done].
Qed.

Lemma new_rows_final p : n ≠ 0%nat → p ∈ new_rows st0 steps →
  st_segs fin !! p.1 = Some p.2 ∧ sg_snapshot p.2 = S0 ∧ committed (sg_commit p.2) = true ∧
  p.1 = table_snapshot_segment_uuid S0 (sg_chunk_idx p.2).
Proof using Hok NL.
  intros Hn [(f & row & Hf & Hr & ->)|(sp & old & Hsp & Ho & ->)]%elem_new_rows; cbn [fst snd].
  - destruct (written_named f row Hf Hr) as [Hs Hi]. split_and!; [by apply final_fresh|done|done|]. rewrite Hi.
    destruct Hok as [Hna _ _ _ _]. rewrite Forall_forall in Hna. destruct (Hna _ Hf) as [_ Hrows]. rewrite Forall_forall in Hrows. by apply Hrows.
  - split_and!; [by apply final_carried|done|done|]. destruct Hok as [Hna _ _ _ _].
    apply elem_concat_fmap in Hsp as ([f|specs] & Hst & Hsp); [by apply elem_of_nil in Hsp|].
    rewrite Forall_forall in Hna. specialize (Hna _ Hst). cbn [step_named] in Hna. rewrite Forall_forall in Hna. by apply Hna.
Qed.

Lemma new_rows_perm : n ≠ 0%nat →
  map_to_list (filter (λ p : Z * segment_row, sg_snapshot p.2 = S0 ∧ committed (sg_commit p.2) = true) (st_segs fin)) ≡ₚ new_rows st0 steps.
Proof using Hok NL.
  intros Hn. apply NoDup_Permutation; [apply NoDup_map_to_list|apply (NoDup_fmap_1 fst); rewrite meta_uuids; apply uuids_NoDup|].
  intros [u r]. rewrite elem_of_map_to_list, map_lookup_filter_Some. split.
  - intros [Hu [Hs Hc]]. simpl in *. assert (u ∈ all_uuids steps) as Hall.
    { destruct (decide (u ∈ all_uuids steps)); [done|]. rewrite final_other in Hu by done. by apply (wk_stale _ _ _ Hok u r). }
    rewrite <- meta_uuids in Hall. apply list_elem_of_fmap in Hall as ([u' r'] & -> & Hp). cbn in Hu.
    destruct (new_rows_final _ Hn Hp) as [Hu' _]. cbn in Hu'. rewrite Hu in Hu'. by injection Hu' as ->.
  - intros Hp. destruct (new_rows_final _ Hn Hp) as (? & ? & ? & _). done.
Qed.

Lemma new_rows_idx : n ≠ 0%nat → (λ p : Z * segment_row, sg_chunk_idx p.2) <$> new_rows st0 steps = seq 0 n.
Proof using Hok NL prior X H C.
  intros Hn. assert (table_snapshot_segment_uuid S0 <$> ((λ p : Z * segment_row, sg_chunk_idx p.2) <$> new_rows st0 steps) =
    table_snapshot_segment_uuid S0 <$> seq 0 n) as Heq.
  { rewrite <- uuids_named, <- meta_uuids, <- list_fmap_compose. apply list_fmap_ext. intros i p Hp. symmetry.
    apply list_elem_of_lookup_2 in Hp. by destruct (new_rows_final p Hn Hp) as (_ & _ & _ & ?). }
  revert Heq. generalize (seq 0 n). generalize ((λ p : Z * segment_row, sg_chunk_idx p.2) <$> new_rows st0 steps). clear -NL.
  induction l as [|x l IH]; intros [|y k]; try done. rewrite !fmap_cons. intros Heq. injection Heq as Hxy Hr.
  apply segment_uuid_inj in Hxy as [_ ->]. f_equal. by apply IH.
Qed.

Lemma idx_sorted (l : list (Z * segment_row)) : ∀ k m, (λ p : Z * segment_row, sg_chunk_idx p.2) <$> l = seq k m → StronglySorted chunk_le l.
Proof.
  induction l as [|p l IH]; intros k m; [constructor|]. destruct m as [|m]; [done|]. rewrite fmap_cons. cbn [seq]. intros [= Hk Hl].
  constructor; [by apply (IH (S k) m)|]. apply Forall_forall. intros q Hq.
  assert (sg_chunk_idx q.2 ∈ seq (S k) m) as Hs by (rewrite <- Hl; by apply (list_elem_of_fmap_2 (λ p : Z * segment_row, sg_chunk_idx p.2))).
  apply elem_of_seq in Hs. unfold chunk_le. lia.
Qed.

#[local] Instance chunk_le_total : Total chunk_le.
Proof. intros x y. unfold chunk_le. lia. Qed.

#[local] Instance chunk_le_trans : Transitive chunk_le.
Proof. intros x y z. unfold chunk_le. lia. Qed.

(** The planner's segment list of the new snapshot: the rows of the steps, in
    step order. *)
Lemma layout_segments : n ≠ 0%nat → snapshot_segments S0 fin = new_rows st0 steps.
Proof using Hok NL.
  intros Hn. unfold snapshot_segments. apply (StronglySorted_unique_strong chunk_le).
  - intros p q Hp Hq H1 H2. rewrite merge_sort_Permutation, (new_rows_perm Hn) in Hp.
    destruct (new_rows_final p Hn Hp) as (Hp1 & _ & _ & Hp4). destruct (new_rows_final q Hn Hq) as (Hq1 & _ & _ & Hq4).
    unfold chunk_le in *. assert (sg_chunk_idx p.2 = sg_chunk_idx q.2) as E by lia. rewrite E, <- Hq4 in Hp4.
    destruct p as [u r], q as [v s]. cbn in *. subst v. rewrite Hp1 in Hq1. by injection Hq1 as ->.
  - apply StronglySorted_merge_sort; apply _.
  - by apply (idx_sorted _ 0 n), new_rows_idx.
  - by rewrite merge_sort_Permutation, new_rows_perm.
Qed.

End rows.

End layout.
