(* ===== verification/SnapshotPlanned.v ===== *)
(** * What the planner shows of a finished snapshot

    The files and index sidecars of the new snapshot, and the planned segments
    with everything they resolve to. *)

From S2P Require Import Prelude CoreTypes MergeSql IndexSeek IndexSelect Effects Ordered Chunker BatchUtil SegmentStats Packer PackLemmas PackTheorems CarryForward SnapshotMeta SnapshotWrite SnapshotFrame SnapshotPost SnapshotLayout.
From stdpp Require Import base numbers list option sets gmap sorting.

Open Scope Z_scope.

Section view.
Context `{UuidText} {K : ArrowKernels} {N : SegmentNaming} {C : StatsCodec} {I : IndexNaming} {X : IndexCell} (now : Z).
Context {NL : NamingLaws N I}.
Context (ctx : SnapshotWriteCtx) (prior : gmap Z planned_segment).

Notation S0 := (c_snap ctx).
Notation s := (snapshot_read_schema (c_user_schema ctx)).

(** ** Base files *)

Definition head_named (f : SnapshotFileStep srow) : Prop := Some (uri f) = seg_uuid <$> head (segment_rows f).

Lemma head_fresh f : head_named f → uri f ∈ seg_uuid <$> segment_rows f.
Proof.
  unfold head_named. destruct (segment_rows f) as [|row rows]; [done|]. intros [= ->]. rewrite fmap_cons. by left.
Qed.

Lemma step_files_data step st a b :
  (∀ f, step = PackFile f → file_data_uri f ≠ DataUri a b) →
  st_files (step_store now ctx step st) !! DataUri a b = st_files st !! DataUri a b.
Proof.
  intros Hne. destruct step as [f|specs]; [|done]. cbn. rewrite run_jobs_files, group_files.
  apply lookup_insert_ne. by apply Hne.
Qed.

Lemma steps_files_data steps : ∀ st f,
  NoDup (fresh_uuids steps) → (∀ f, PackFile f ∈ steps → head_named f) → PackFile f ∈ steps →
  st_files (steps_store now ctx steps st) !! file_data_uri f = Some (BaseFile (file_batch f)).
Proof.
  induction steps as [|step steps IH]; intros st f; [by intros _ _ ?%elem_of_nil|]. unfold fresh_uuids. rewrite fmap_cons. cbn [concat].
  intros (Hn1 & Hdis & Hn2)%NoDup_app Hhd Hin. unfold steps_store in *. cbn [foldl].
  apply elem_of_cons in Hin as [<-|Hin]; [|apply IH; [done|intros f' ?; apply Hhd; by right|done]].
  assert (∀ l st, (∀ f', PackFile f' ∈ l → PackFile f' ∈ steps) →
    st_files (foldl (λ st step, step_store now ctx step st) st l) !! file_data_uri f = st_files st !! file_data_uri f) as Hrest.
  { induction l as [|step' l IHl]; intros st' Hl; [done|]. cbn [foldl]. rewrite IHl by (intros f' ?; apply Hl; by right).
    apply step_files_data. intros f' -> [= _ Heq]. apply (Hdis (uri f)); [by apply head_fresh, Hhd; left|].
    apply elem_concat_fmap. assert (PackFile f' ∈ steps) as Hf' by (apply Hl; by left). exists (PackFile f'). split; [done|].
    cbn. rewrite <- Heq. apply head_fresh, Hhd. by right. }
  rewrite Hrest by done. cbn. unfold file_data_uri. rewrite run_jobs_files, group_files. apply lookup_insert_eq.
Qed.

Lemma carried_store_files specs st a b : st_files (carried_store now ctx prior specs st) !! DataUri a b = st_files st !! DataUri a b.
Proof.
  unfold carried_store. destruct specs as [|sp specs'] eqn:E; [done|]. rewrite <- E. cbn [commit_segment_index_metadata_for_segments on_children st_files].
  unfold materialized, carry_indexes.
  rewrite (foldl_keep st_files (λ index st, insert_carried_segment_indexes (table_snapshot_index_uuid S0 (Some (ui_uuid index))) _ _ st)) by done.
  rewrite run_jobs_files. cbn. unfold insert_carried_snapshot_segments. by destruct specs.
Qed.

(** ** Jobs of the steps *)

Lemma file_jobs_seg f j : j ∈ file_jobs ctx f → ∃ row, row ∈ segment_rows f ∧ j_seg j = seg_uuid row ∧ j ∈ row_jobs ctx f row.
Proof.
  unfold file_jobs. rewrite elem_concat_fmap. intros (row & Hr & Hj). exists row. split_and!; [done| |done]. revert Hj. unfold row_jobs.
  destruct (spec_length row =? 0)%nat; [by intros ?%elem_of_nil|]. intros [->|Hj]%elem_of_cons; [done|].
  unfold index_jobs in Hj. apply list_elem_of_omap in Hj as (i & _ & Hj). unfold index_job in Hj.
  destruct (mapM _ _); [|done]. by injection Hj as <-.
Qed.

Context (Hidx : NoDup (ui_uuid <$> row_indexes ctx)).

Lemma index_jobs_keys seg rows indexes :
  NoDup (ui_uuid <$> indexes) → NoDup (job_key <$> index_jobs s S0 seg rows indexes) ∧
  ∀ j, j ∈ index_jobs s S0 seg rows indexes → ∃ i, i ∈ indexes ∧ job_key j = (seg, Some (ui_uuid i)) ∧ index_job s S0 seg rows i = Some j.
Proof.
  intros Hnd. assert (∀ j, j ∈ index_jobs s S0 seg rows indexes → ∃ i, i ∈ indexes ∧ job_key j = (seg, Some (ui_uuid i)) ∧ index_job s S0 seg rows i = Some j) as Hel.
  { intros j Hj. apply list_elem_of_omap in Hj as (i & Hi & Hj). exists i. split_and!; [done| |done].
    unfold index_job in Hj. destruct (mapM _ _); [|done]. by injection Hj as <-. }
  split; [|done]. clear Hel. induction indexes as [|i is_ IH]; [constructor|]. rewrite fmap_cons in Hnd. apply NoDup_cons in Hnd as [Hn Hnd].
  unfold index_jobs in *. simpl. destruct (index_job s S0 seg rows i) as [j|] eqn:E; [|by apply IH]. rewrite fmap_cons. constructor; [|by apply IH].
  intros (j' & Hk & Hj')%list_elem_of_fmap. apply list_elem_of_omap in Hj' as (i' & Hi' & Hj'). unfold index_job in *.
  destruct (mapM _ (ui_columns i)); [|done]. injection E as <-. destruct (mapM _ (ui_columns i')); [|done]. injection Hj' as <-.
  unfold job_key in Hk. simpl in Hk. injection Hk as Hk. apply Hn. rewrite Hk. by apply list_elem_of_fmap_2.
Qed.

Lemma row_jobs_keys f row : NoDup (job_key <$> row_jobs ctx f row).
Proof using Hidx.
  unfold row_jobs. destruct (spec_length row =? 0)%nat; [constructor|]. rewrite fmap_cons.
  destruct (index_jobs_keys (seg_uuid row) (row_slice f row) (row_indexes ctx) Hidx) as [Hn He]. constructor; [|done].
  intros (j & Hk & Hj)%list_elem_of_fmap. destruct (He j Hj) as (i & _ & Hkey & _). by rewrite Hkey in Hk.
Qed.

Lemma file_jobs_keys f : NoDup (seg_uuid <$> segment_rows f) → NoDup (job_key <$> file_jobs ctx f).
Proof using Hidx.
  unfold file_jobs. intros Hnd.
  assert (∀ rows, NoDup (seg_uuid <$> rows) → NoDup (job_key <$> concat (row_jobs ctx f <$> rows)) ∧
    ∀ j, j ∈ concat (row_jobs ctx f <$> rows) → j_seg j ∈ seg_uuid <$> rows) as Hloop; [|by apply Hloop].
  induction rows as [|row rows IH]; intros Hn; [split; [constructor|by intros j ?%elem_of_nil]|]. rewrite fmap_cons in Hn.
  apply NoDup_cons in Hn as [Hn1 Hn2]. destruct (IH Hn2) as [Hk Hs]. rewrite !fmap_cons. cbn [concat].
  assert (∀ j, j ∈ row_jobs ctx f row → j_seg j = seg_uuid row) as Hrow.
  { intros j. unfold row_jobs. destruct (spec_length row =? 0)%nat; [by intros ?%elem_of_nil|]. intros [->|Hj]%elem_of_cons; [done|].
    destruct (index_jobs_keys (seg_uuid row) (row_slice f row) (row_indexes ctx) Hidx) as [_ He]. destruct (He j Hj) as (i & _ & Hkey & _). by injection Hkey. }
  split.
  - rewrite fmap_app. apply NoDup_app. split_and!; [apply row_jobs_keys| |done]. intros k (j & -> & Hj)%list_elem_of_fmap (j' & Hkk & Hj')%list_elem_of_fmap.
    apply Hn1. rewrite <- (Hrow j Hj). unfold job_key in Hkk. injection Hkk as -> _. by apply Hs.
  - intros j [Hj|Hj]%elem_of_app; [rewrite (Hrow j Hj); by left|right; by apply Hs].
Qed.

(** Sidecar rows of segments the steps do not write are untouched by them. *)
Lemma step_children_other step st seg slug :
  seg ∉ step_fresh step → st_children (step_store now ctx step st) !! segment_index_uuid seg slug = st_children st !! segment_index_uuid seg slug ∧
  ∀ sl', st_files (step_store now ctx step st) !! IndexUri S0 seg sl' = st_files st !! IndexUri S0 seg sl'.
Proof using NL.
  intros Hn. destruct step as [f|specs]; [|done]. cbn in Hn |- *.
  assert (∀ j, j ∈ file_jobs ctx f → j_seg j ≠ seg) as Hne.
  { intros j (row & Hr & -> & _)%file_jobs_seg <-. apply Hn. by apply list_elem_of_fmap_2. }
  split.
  - destruct (run_jobs_other S0 (file_jobs ctx f) seg slug (group_store now (c_table ctx) f st)) as [-> _]; [|by rewrite group_children].
    intros (j & Hk & Hj)%list_elem_of_fmap. unfold job_key in Hk. injection Hk as Hk _. by apply (Hne j Hj).
  - intros sl'. destruct (run_jobs_other S0 (file_jobs ctx f) seg slug (group_store now (c_table ctx) f st)) as [_ Hf].
    { intros (j & Hk & Hj)%list_elem_of_fmap. unfold job_key in Hk. injection Hk as Hk _. by apply (Hne j Hj). }
    rewrite Hf; [rewrite group_files; by apply lookup_insert_ne|]. intros j Hj [= Heq _]. by apply (Hne j Hj).
Qed.

Lemma steps_children_other steps seg slug : ∀ st,
  seg ∉ fresh_uuids steps → st_children (steps_store now ctx steps st) !! segment_index_uuid seg slug = st_children st !! segment_index_uuid seg slug ∧
  ∀ sl', st_files (steps_store now ctx steps st) !! IndexUri S0 seg sl' = st_files st !! IndexUri S0 seg sl'.
Proof using NL.
  induction steps as [|step steps IH]; intros st; [done|]. unfold fresh_uuids. rewrite fmap_cons. cbn [concat]. rewrite not_elem_of_app. intros [H1 H2].
  unfold steps_store in *. cbn [foldl]. destruct (IH (step_store now ctx step st) H2) as [E1 E2]. destruct (step_children_other step st seg slug H1) as [E3 E4].
  split; [by rewrite E1|]. intros sl'. by rewrite E2.
Qed.

Lemma steps_sidecar steps : ∀ st f row j sc,
  NoDup (fresh_uuids steps) → PackFile f ∈ steps → row ∈ segment_rows f → j ∈ row_jobs ctx f row → build_segment_index (j_cols j) = Ok sc →
  sidecar_at (steps_store now ctx steps st) (j_seg j) (j_slug j) (j_parent j) (IndexUri S0 (j_seg j) (j_slug j)) sc.
Proof using NL Hidx.
  induction steps as [|step steps IH]; intros st f row j sc; [by intros _ ?%elem_of_nil|]. unfold fresh_uuids. rewrite fmap_cons. cbn [concat].
  intros (Hn1 & Hdis & Hn2)%NoDup_app Hin Hr Hj Hb. unfold steps_store in *. cbn [foldl]. apply elem_of_cons in Hin as [<-|Hin]; [|by apply (IH _ f row)].
  assert (j ∈ file_jobs ctx f) as Hjf by (apply elem_concat_fmap; by exists row).
  destruct (file_jobs_seg f j Hjf) as (row' & Hr' & Hseg & _).
  assert (j_seg j ∉ fresh_uuids steps) as Hnf by (apply Hdis; rewrite Hseg; by apply list_elem_of_fmap_2).
  destruct (steps_children_other steps (j_seg j) (j_slug j) (step_store now ctx (PackFile f) st) Hnf) as [E1 E2].
  assert (sidecar_at (step_store now ctx (PackFile f) st) (j_seg j) (j_slug j) (j_parent j) (IndexUri S0 (j_seg j) (j_slug j)) sc) as [(r & Hr0 & Hrf) Hfile].
  { cbn. apply run_jobs_here; [by apply file_jobs_keys|done|done]. }
  unfold steps_store in E1, E2. split; [exists r; by rewrite E1|by rewrite E2].
Qed.

(** ** Sidecars of carried segments *)

Lemma uncovered_elem specs st x : x ∈ uncovered_all ctx specs st → x.1 ∈ specs ∧ x.2 = uncovered_of ctx (existing_of specs st) x.1.
Proof. intros [_ (sp & -> & Hsp)%list_elem_of_fmap]%list_elem_of_filter. done. Qed.

Lemma carried_jobs_elem st x j : j ∈ carried_jobs ctx prior st x →
  ∃ rows i, prior_rows prior st (prior_seg_uuid x.1) = Some rows ∧ i ∈ x.2 ∧ index_job s S0 (new_seg_uuid x.1) rows i = Some j ∧
    job_key j = (new_seg_uuid x.1, Some (ui_uuid i)).
Proof.
  unfold carried_jobs. destruct (prior_rows _ _ _) as [rows|]; [|by intros ?%elem_of_nil]. intros Hj. apply list_elem_of_omap in Hj as (i & Hi & Hj).
  exists rows, i. split_and!; [done|done|done|]. unfold index_job in Hj. destruct (mapM _ _); [|done]. by injection Hj as <-.
Qed.

Lemma carry_indexes_other existing specs seg slug : ∀ st,
  (seg ∉ new_seg_uuid <$> specs ∨ slug = None ∨ ∃ i, i ∈ c_user_indexes ctx ∧ slug = Some (ui_uuid i) ∧ NoDup (ui_uuid <$> c_user_indexes ctx) ∧
     ∀ sp, sp ∈ specs → new_seg_uuid sp = seg → covered existing sp i = false) →
  st_children (carry_indexes ctx existing specs st) !! segment_index_uuid seg slug = st_children st !! segment_index_uuid seg slug.
Proof using NL.
  intros st Hc. unfold carry_indexes.
  assert (∀ l (st : srow_store), (∀ i, i ∈ l → slug ≠ Some (ui_uuid i) ∨ ∀ sp, sp ∈ specs → new_seg_uuid sp = seg → covered existing sp i = false) →
    st_children (foldl (λ st index, insert_carried_segment_indexes (table_snapshot_index_uuid S0 (Some (ui_uuid index))) (Some (ui_uuid index))
      ((λ spec, (new_seg_uuid spec, prior_seg_uuid spec)) <$> filter (λ spec, covered existing spec index = true) specs) st) st l) !! segment_index_uuid seg slug
    = st_children st !! segment_index_uuid seg slug) as Hloop.
  { induction l as [|i l IH]; intros st' Hl; [done|]. cbn [foldl]. rewrite IH by (intros i' Hi'; apply Hl; by right). apply carried_children_other.
    destruct (Hl i (list_elem_of_here _ _)) as [Hs|Hcov]; [by left|]. right. rewrite <- list_fmap_compose.
    intros (sp & Heq & [Hsc Hsp]%list_elem_of_filter)%list_elem_of_fmap. cbn in Heq. by rewrite (Hcov sp Hsp (eq_sym Heq)) in Hsc. }
  apply Hloop. intros i Hi. destruct Hc as [Hn|[->|(i0 & Hi0 & -> & Hnd & Hcov)]]; [|by left|].
  - right. intros sp Hsp Heq. destruct Hn. rewrite <- Heq. by apply list_elem_of_fmap_2.
  - destruct (decide (ui_uuid i = ui_uuid i0)) as [Heq|Hne]; [|left; intros [= ?]; done]. right. intros sp Hsp Hseg.
    assert (i = i0) as ->; [|by apply Hcov]. apply list_elem_of_lookup in Hi as [a Ha]. apply list_elem_of_lookup in Hi0 as [b Hb].
    assert (a = b) as ->; [|by rewrite Ha in Hb; injection Hb].
    eapply NoDup_lookup; [exact Hnd| |]; rewrite list_lookup_fmap; [by rewrite Ha|rewrite Hb; by rewrite Heq].
Qed.

Lemma carry_indexes_files existing specs st : st_files (carry_indexes ctx existing specs st) = st_files st.
Proof.
  unfold carry_indexes. exact (foldl_keep st_files (λ index st, insert_carried_segment_indexes (table_snapshot_index_uuid S0 (Some (ui_uuid index)))
    (Some (ui_uuid index)) ((λ spec, (new_seg_uuid spec, prior_seg_uuid spec)) <$> filter (λ spec, covered existing spec index = true) specs) st)
    (c_user_indexes ctx) (λ _ _, eq_refl) st).
Qed.

Lemma materialized_other specs (st : srow_store) seg slug :
  (seg ∉ new_seg_uuid <$> specs ∨ slug = None) →
  st_children (materialized ctx prior specs st) !! segment_index_uuid seg slug = st_children st !! segment_index_uuid seg slug ∧
  st_files (materialized ctx prior specs st) !! IndexUri S0 seg slug = st_files st !! IndexUri S0 seg slug.
Proof using NL.
  intros Hc. unfold materialized. rewrite carry_indexes_files, carry_indexes_other by tauto.
  assert (∀ j, j ∈ concat (carried_jobs ctx prior st <$> uncovered_all ctx specs st) → job_key j ≠ (seg, slug)) as Hne.
  { intros j (x & Hx & Hj)%elem_concat_fmap. destruct (carried_jobs_elem st x j Hj) as (rows & i & _ & _ & _ & ->).
    destruct (uncovered_elem specs st x Hx) as [Hsp _]. intros [= <- <-]. destruct Hc as [Hn|?]; [|done]. apply Hn. by apply list_elem_of_fmap_2. }
  destruct (run_jobs_other S0 (concat (carried_jobs ctx prior st <$> uncovered_all ctx specs st)) seg slug st) as [H1 H2].
  { intros (j & Hk & Hj)%list_elem_of_fmap. by apply (Hne j Hj). }
  split; [done|]. apply H2. intros j Hj [= Ha Hb]. apply (Hne j Hj). unfold job_key. by rewrite <- Ha, <- Hb.
Qed.

Lemma materialized_uri specs (st : srow_store) u : uri_snapshot u ≠ S0 → st_files (materialized ctx prior specs st) !! u = st_files st !! u.
Proof.
  intros Hu. unfold materialized. rewrite carry_indexes_files. unfold run_jobs.
  generalize (concat (carried_jobs ctx prior st <$> uncovered_all ctx specs st)). intros js. revert st.
  induction js as [|j js IH]; intros st; [done|]. cbn [foldl]. rewrite IH. unfold job_store. destruct (build_segment_index _); [|done].
  cbn. apply lookup_insert_ne. intros <-. by apply Hu.
Qed.

Lemma carried_keep specs st seg slug parent u :
  seg ∉ new_seg_uuid <$> specs → child_at st seg slug parent u → child_at (carried_store now ctx prior specs st) seg slug parent u.
Proof using NL.
  intros Hn (r & Hr & Hf). unfold carried_store. destruct specs as [|sp specs'] eqn:E; [by exists r|]. rewrite <- E in *.
  apply commit_children_at. exists r. split; [|done]. destruct (materialized_other specs (insert_carried_segment_indexes
    (table_snapshot_index_uuid S0 None) None ((λ spec, (new_seg_uuid spec, prior_seg_uuid spec)) <$> specs)
    (commit_snapshot_segments_by_uuids now (new_seg_uuid <$> specs) (insert_carried_snapshot_segments S0 specs st).1)) seg slug (or_introl Hn)) as [-> _].
  rewrite carried_children_other by (right; by rewrite <- list_fmap_compose). unfold insert_carried_snapshot_segments. rewrite E. exact Hr.
Qed.

Lemma carried_keep_file specs st seg slug :
  seg ∉ new_seg_uuid <$> specs → st_files (carried_store now ctx prior specs st) !! IndexUri S0 seg slug = st_files st !! IndexUri S0 seg slug.
Proof using NL.
  intros Hn. unfold carried_store. destruct specs as [|sp specs'] eqn:E; [done|]. rewrite <- E in *. cbn [commit_segment_index_metadata_for_segments on_children st_files].
  destruct (materialized_other specs (insert_carried_segment_indexes
    (table_snapshot_index_uuid S0 None) None ((λ spec, (new_seg_uuid spec, prior_seg_uuid spec)) <$> specs)
    (commit_snapshot_segments_by_uuids now (new_seg_uuid <$> specs) (insert_carried_snapshot_segments S0 specs st).1)) seg slug (or_introl Hn)) as [_ ->].
  unfold insert_carried_snapshot_segments. by rewrite E.
Qed.

(** The identity sidecar of a carried segment is its source's, by reference. *)
Lemma carried_identity specs st sp old :
  NoDup (new_seg_uuid <$> specs) → sp ∈ specs → st_children st !! segment_index_uuid (prior_seg_uuid sp) None = Some old →
  committed (ch_commit old) = true →
  child_live (carried_store now ctx prior specs st) (new_seg_uuid sp) None (table_snapshot_index_uuid S0 None) (ch_uri old).
Proof using NL.
  intros Hnd Hsp Hold Hc. unfold carried_store. destruct specs as [|sp0 specs'] eqn:E; [by apply elem_of_nil in Hsp|]. rewrite <- E in *.
  apply commit_children_live; [|by apply list_elem_of_fmap_2]. set (st1 := commit_snapshot_segments_by_uuids _ _ _).
  assert (child_at (insert_carried_segment_indexes (table_snapshot_index_uuid S0 None) None
    ((λ spec, (new_seg_uuid spec, prior_seg_uuid spec)) <$> specs) st1) (new_seg_uuid sp) None (table_snapshot_index_uuid S0 None) (ch_uri old)) as (r & Hr & Hf).
  { apply (carried_children_here _ _ _ _ (new_seg_uuid sp) (prior_seg_uuid sp) old).
    - by rewrite <- list_fmap_compose.
    - apply list_elem_of_fmap. by exists sp.
    - unfold st1, insert_carried_snapshot_segments. rewrite E. exact Hold.
    - done. }
  exists r. split; [|done]. by destruct (materialized_other specs (insert_carried_segment_indexes (table_snapshot_index_uuid S0 None) None
    ((λ spec, (new_seg_uuid spec, prior_seg_uuid spec)) <$> specs) st1) (new_seg_uuid sp) None (or_intror eq_refl)) as [-> _].
Qed.

End view.

(** ** The plan of a finished snapshot

    Every segment of the new snapshot is planned with its rows, its statistics
    and its identity sidecar; every live index has a sidecar on it. *)

Section planned.
Context `{UuidText} {K : ArrowKernels} {N : SegmentNaming} {C : StatsCodec} {I : IndexNaming} {X : IndexCell} (now : Z).
Context {NL : NamingLaws N I}.

(** ** The planner's joins *)

Lemma plan_child_live (st : srow_store) seg slug snap u :
  children_named (st_children st) → child_live st seg slug (table_snapshot_index_uuid snap slug) u →
  plan_child (table_snapshot_index_uuid snap slug) seg st = Some u.
Proof using NL.
  intros Hn (r & Hr & Hs & Hp & Hu & Hc). unfold plan_child.
  assert (filter (λ p : Z * child_row, ch_parent p.2 = table_snapshot_index_uuid snap slug ∧ ch_segment p.2 = seg ∧ committed (ch_commit p.2) = true)
    (st_children st) = {[segment_index_uuid seg slug := r]}) as ->; [|by rewrite map_to_list_singleton; simpl; rewrite Hu].
  apply map_eq. intros v. apply option_eq. intros r'. rewrite map_lookup_filter_Some, lookup_singleton_Some. simpl. split.
  - intros [Hv (Hp' & Hs' & _)]. destruct (Hn v r' Hv) as (sl & sn & -> & Hpp). rewrite Hp' in Hpp. apply parent_uuid_inj in Hpp as [_ <-].
    rewrite Hs'. rewrite Hs', Hr in Hv. split; [done|by injection Hv].
  - intros [<- <-]. done.
Qed.

Lemma attach_identity (st : srow_store) seg snap parents : ∀ base,
  (∀ q, q ∈ parents → ix_index q.2 = None → q.1 = table_snapshot_index_uuid snap None) →
  pl_row_uuid_sidecar (foldl (λ acc (q : Z * parent_row), attach_parent_row acc (ix_index q.2) (plan_child q.1 seg st)) base parents) =
  if existsb (λ q : Z * parent_row, bool_decide (ix_index q.2 = None)) parents then plan_child (table_snapshot_index_uuid snap None) seg st
  else pl_row_uuid_sidecar base.
Proof.
  induction parents as [|q parents IH]; intros base Hq; [done|]. cbn [foldl existsb].
  rewrite IH by (intros q' Hq'; apply Hq; by right). destruct (ix_index q.2) as [i|] eqn:E.
  - rewrite bool_decide_false by done. cbn [orb]. destruct (existsb _ parents); [done|]. unfold attach_parent_row. by destruct (plan_child q.1 seg st).
  - rewrite bool_decide_true by done. cbn [orb]. rewrite (Hq q (list_elem_of_here _ _) E). by destruct (existsb _ parents).
Qed.

Lemma attach_indexes (st : srow_store) seg parents : ∀ base i u,
  (i, u) ∈ pl_index_sidecars (foldl (λ acc (q : Z * parent_row), attach_parent_row acc (ix_index q.2) (plan_child q.1 seg st)) base parents) ↔
  (i, u) ∈ pl_index_sidecars base ∨ ∃ q, q ∈ parents ∧ ix_index q.2 = Some i ∧ plan_child q.1 seg st = Some u.
Proof.
  induction parents as [|q parents IH]; intros base i u; cbn [foldl].
  - split; [by left|]. intros [?|(q & Hq & _)]; [done|by apply elem_of_nil in Hq].
  - rewrite IH. unfold attach_parent_row. destruct (ix_index q.2) as [i0|] eqn:E; [destruct (plan_child q.1 seg st) as [c|] eqn:Ec|]; cbn [pl_index_sidecars].
    + rewrite elem_of_app, list_elem_of_singleton. split.
      * intros [[?|[= -> ->]]|(q' & Hq' & ?)]; [by left|right; exists q; split; [by left|done]|right; exists q'; split; [by right|done]].
      * intros [?|(q' & [->|Hq']%elem_of_cons & E1 & E2)]; [by left; left|left; right; rewrite E in E1; rewrite Ec in E2; by injection E1 as ->; injection E2 as ->|right; by exists q'].
    + split; [intros [?|(q' & Hq' & ?)]; [by left|right; exists q'; split; [by right|done]]|].
      intros [?|(q' & [->|Hq']%elem_of_cons & E1 & E2)]; [by left|by rewrite Ec in E2|right; by exists q'].
    + split; [intros [?|(q' & Hq' & ?)]; [by left|right; exists q'; split; [by right|done]]|].
      intros [?|(q' & [->|Hq']%elem_of_cons & E1 & E2)]; [by left|by rewrite E in E1|right; by exists q'].
Qed.

Lemma plan_segment_fields (st : srow_store) parents p :
  let x := plan_segment parents st p in
  pl_uuid x = p.1 ∧ pl_snapshot x = sg_snapshot p.2 ∧ pl_uri x = sg_uri p.2 ∧ pl_offset x = sg_offset p.2 ∧ pl_length x = sg_length p.2 ∧
  pl_statistics x = sg_statistics p.2.
Proof.
  unfold plan_segment. cbv zeta.
  assert (∀ base, let y := foldl (λ acc (q : Z * parent_row), attach_parent_row acc (ix_index q.2) (plan_child q.1 p.1 st)) base parents in
    pl_uuid y = pl_uuid base ∧ pl_snapshot y = pl_snapshot base ∧ pl_uri y = pl_uri base ∧ pl_offset y = pl_offset base ∧
    pl_length y = pl_length base ∧ pl_statistics y = pl_statistics base) as Hf.
  { induction parents as [|q parents IH]; intros base; [done|]. cbn [foldl]. destruct (IH (attach_parent_row base (ix_index q.2) (plan_child q.1 p.1 st)))
      as (-> & -> & -> & -> & -> & ->). unfold attach_parent_row. by destruct (ix_index q.2), (plan_child q.1 p.1 st). }
  cbn. by apply Hf.
Qed.

Context (ctx : SnapshotWriteCtx) (prior : gmap Z planned_segment).

Notation S0 := (c_snap ctx).
Notation s := (snapshot_read_schema (c_user_schema ctx)).

(** ** Declared index parents *)

Definition parent_live (st : srow_store) (index : option Z) (cols : option (list Z)) : Prop :=
  ∃ r, st_parents st !! table_snapshot_index_uuid S0 index = Some r ∧ ix_snapshot r = S0 ∧ ix_index r = index ∧ ix_key_columns r = cols ∧
    committed (ix_commit r) = true.

Definition parent_at (st : srow_store) (index : option Z) (cols : option (list Z)) : Prop :=
  ∃ r, st_parents st !! table_snapshot_index_uuid S0 index = Some r ∧ ix_snapshot r = S0 ∧ ix_index r = index ∧ ix_key_columns r = cols.

Lemma insert_parent_here (st : srow_store) index cols : parent_at (insert_table_snapshot_index (table_snapshot_index_uuid S0 index) S0 index cols st) index cols.
Proof. eexists. split; [cbn; by rewrite lookup_insert_eq|done]. Qed.

Lemma insert_parent_keep (st : srow_store) index cols i c :
  i ≠ index → parent_at st index cols → parent_at (insert_table_snapshot_index (table_snapshot_index_uuid S0 i) S0 i c st) index cols.
Proof using NL.
  intros Hne (r & Hr & Hf). exists r. split; [|done]. cbn. rewrite lookup_insert_ne; [done|]. by intros [_ ?]%parent_uuid_inj.
Qed.

Lemma declared st index cols :
  NoDup (ui_uuid <$> row_indexes ctx) →
  (index = None ∧ cols = None) ∨ (∃ i, i ∈ c_user_indexes ctx ∧ index = Some (ui_uuid i) ∧ cols = Some (ui_columns i)) →
  parent_live (declare_store now ctx st) index cols.
Proof using NL.
  intros Hnd Hd. unfold row_indexes in Hnd. rewrite fmap_app in Hnd. apply NoDup_app in Hnd as (Hnu & Hdis & _).
  unfold declare_store. cbv zeta. set (ins := λ (i : user_index) (st : srow_store), insert_table_snapshot_index (table_snapshot_index_uuid S0 (Some (ui_uuid i))) S0
    (Some (ui_uuid i)) (Some (ui_columns i)) st).
  match goal with |- parent_live (commit_table_snapshot_index_for_snapshot now S0 ?x) _ _ => assert (parent_at x index cols) as (r & Hr & H1 & H2 & H3) end.
  { assert (parent_at (foldl (λ st i, ins i st) (insert_table_snapshot_index (table_snapshot_index_uuid S0 None) S0 None None st) (c_user_indexes ctx)) index cols) as Hf.
    { destruct Hd as [[-> ->]|(i & Hi & -> & ->)].
      - generalize (insert_parent_here st None None). generalize (insert_table_snapshot_index (table_snapshot_index_uuid S0 None) S0 None None st).
        clear -NL. induction (c_user_indexes ctx) as [|i is_ IH]; intros x Hx; [done|]. cbn [foldl]. apply IH. by apply insert_parent_keep.
      - generalize (insert_table_snapshot_index (table_snapshot_index_uuid S0 None) S0 None None st). clear -NL Hnu Hi.
        induction (c_user_indexes ctx) as [|i0 is_ IH]; intros x; [by apply elem_of_nil in Hi|]. rewrite fmap_cons in Hnu. apply NoDup_cons in Hnu as [Hn Hnu].
        cbn [foldl]. apply elem_of_cons in Hi as [->|Hi]; [|by apply IH]. clear IH.
        generalize (insert_parent_here x (Some (ui_uuid i0)) (Some (ui_columns i0))). fold (ins i0 x). generalize (ins i0 x).
        induction is_ as [|i1 is_ IH]; intros y Hy; [done|]. rewrite fmap_cons in Hn. apply not_elem_of_cons in Hn as [Hne Hn].
        rewrite fmap_cons in Hnu. apply NoDup_cons in Hnu as [_ Hnu]. cbn [foldl]. apply IH; [done|done|]. apply insert_parent_keep; [|done].
        intros [= E]. by apply Hne. }
    destruct (c_name_index ctx) as [name|]; [|done]. apply insert_parent_keep; [|done].
    destruct Hd as [[-> _]|(i & Hi & -> & _)]; [done|]. intros [= E]. apply (Hdis (ui_uuid i)); [by apply list_elem_of_fmap_2|].
    cbn. rewrite E. by left. }
  unfold parent_live. cbn. rewrite lookup_fmap, Hr. simpl. eexists. split; [done|]. destruct (decide _) as [|Hn]; [done|].
  split_and!; try done. destruct (ix_commit r); [done|]. by destruct Hn.
Qed.

Lemma steps_parents steps : ∀ st, st_parents (steps_store now ctx steps st) = st_parents st.
Proof.
  induction steps as [|[f|specs] steps IH]; intros st; [done|..]; unfold steps_store in *; cbn [foldl]; rewrite IH; [|done].
  cbn. by rewrite run_jobs_parents, group_parents.
Qed.

Lemma carried_parents specs st : st_parents (carried_store now ctx prior specs st) = st_parents st.
Proof.
  unfold carried_store. destruct specs as [|sp specs'] eqn:E; [done|]. rewrite <- E. cbn [commit_segment_index_metadata_for_segments on_children st_parents].
  unfold materialized, carry_indexes.
  rewrite (foldl_keep st_parents (λ index st, insert_carried_segment_indexes (table_snapshot_index_uuid S0 (Some (ui_uuid index))) _ _ st)) by done.
  rewrite run_jobs_parents. cbn. unfold insert_carried_snapshot_segments. by destruct specs.
Qed.

(** ** The finished snapshot *)

Section finished.
Context (steps : list (PackStep srow)) (st0 : srow_store) (n : nat) (Hok : write_ok ctx steps st0 n) (Hn : n ≠ 0%nat).
Context (Hidx : NoDup (ui_uuid <$> row_indexes ctx)).
Context (Hhd : ∀ f, PackFile f ∈ steps → head_named f).
Context (Hlen : ∀ f row, PackFile f ∈ steps → row ∈ segment_rows f → spec_length row ≠ 0%nat).

Notation fin := (body_store now ctx prior steps st0).

Lemma fin_proj {A} (π : srow_store → A) :
  (∀ segs st, π (commit_segment_index_metadata_for_segments now segs st) = π st) →
  π fin = π (carried_store now ctx prior (all_carried steps) (steps_store now ctx steps (declare_store now ctx st0))).
Proof using Hok Hn.
  intros Hp. unfold body_store. rewrite (placeholder_skipped now ctx steps st0 n Hok _ Hn). fold (all_carried steps).
  destruct (concat (step_built <$> steps)); [done|]. by rewrite Hp.
Qed.

Lemma fin_parents : st_parents fin = st_parents (declare_store now ctx st0).
Proof using Hok Hn. rewrite (fin_proj st_parents) by done. by rewrite carried_parents, steps_parents. Qed.

Lemma fin_base f : PackFile f ∈ steps → st_files fin !! file_data_uri f = Some (BaseFile (file_batch f)).
Proof using Hok Hn Hhd NL.
  intros Hf. rewrite (fin_proj st_files) by done. unfold file_data_uri. rewrite carried_store_files.
  destruct (split_NoDup ctx steps st0 n Hok) as (Hnf & _). by apply (steps_files_data now ctx steps _ f).
Qed.

Lemma fin_live seg slug parent u :
  child_live (carried_store now ctx prior (all_carried steps) (steps_store now ctx steps (declare_store now ctx st0))) seg slug parent u ∨
  (child_at (carried_store now ctx prior (all_carried steps) (steps_store now ctx steps (declare_store now ctx st0))) seg slug parent u ∧
   seg ∈ concat (step_built <$> steps)) →
  child_live fin seg slug parent u.
Proof using Hok Hn.
  intros Hc. unfold body_store. rewrite (placeholder_skipped now ctx steps st0 n Hok _ Hn). fold (all_carried steps).
  destruct (concat (step_built <$> steps)) as [|b bs]; [destruct Hc as [?|[_ ?%elem_of_nil]]; done|].
  destruct Hc as [Hc|[Hc Hin]]; [by apply commit_children_keep|by apply commit_children_live].
Qed.

Lemma built_elem f row : PackFile f ∈ steps → row ∈ segment_rows f → seg_uuid row ∈ concat (step_built <$> steps).
Proof using Hlen.
  intros Hf Hr. apply elem_concat_fmap. exists (PackFile f). split; [done|]. cbn. apply elem_concat_fmap. exists row. split; [done|].
  unfold row_built. destruct (Nat.eqb_spec (spec_length row) 0) as [E|]; [by destruct (Hlen f row Hf Hr)|by left].
Qed.

Lemma fin_sidecar f row j sc :
  PackFile f ∈ steps → row ∈ segment_rows f → j ∈ row_jobs ctx f row → build_segment_index (j_cols j) = Ok sc →
  child_live fin (j_seg j) (j_slug j) (j_parent j) (IndexUri S0 (j_seg j) (j_slug j)) ∧
  st_files fin !! IndexUri S0 (j_seg j) (j_slug j) = Some (IndexFile sc).
Proof using Hok Hn Hidx Hlen NL.
  intros Hf Hr Hj Hb. destruct (split_NoDup ctx steps st0 n Hok) as (Hnf & _ & Hdis).
  destruct (steps_sidecar now ctx Hidx steps (declare_store now ctx st0) f row j sc Hnf Hf Hr Hj Hb) as [Hc Hfile].
  destruct (file_jobs_seg ctx f j) as (row' & Hr' & Hseg & _); [apply elem_concat_fmap; by exists row|].
  assert (j_seg j ∈ fresh_uuids steps) as Hfr.
  { apply elem_concat_fmap. exists (PackFile f). split; [done|]. cbn. rewrite Hseg. by apply list_elem_of_fmap_2. }
  split.
  - apply fin_live. right. split; [exact (carried_keep now ctx prior _ _ _ _ _ _ (Hdis _ Hfr) Hc)|]. rewrite Hseg. by apply (built_elem f).
  - rewrite (fin_proj st_files) by done. rewrite (carried_keep_file now ctx prior); [done|by apply Hdis].
Qed.

Lemma declare_children st : st_children (declare_store now ctx st) = st_children st.
Proof.
  unfold declare_store. cbn. destruct (c_name_index ctx); cbn;
    by rewrite (foldl_keep st_children (λ i st, insert_table_snapshot_index (table_snapshot_index_uuid S0 (Some (ui_uuid i))) S0
    (Some (ui_uuid i)) (Some (ui_columns i)) st)).
Qed.

Lemma fin_carried_identity sp old :
  sp ∈ all_carried steps → st_children st0 !! segment_index_uuid (prior_seg_uuid sp) None = Some old → committed (ch_commit old) = true →
  child_live fin (new_seg_uuid sp) None (table_snapshot_index_uuid S0 None) (ch_uri old).
Proof using Hok Hn NL.
  intros Hsp Hold Hc. destruct (split_NoDup ctx steps st0 n Hok) as (Hnf & Hnc & _). apply fin_live. left.
  apply (carried_identity now ctx prior); [done|done| |done].
  destruct (wk_src _ _ _ _ Hok sp Hsp) as (r & Hr & Hne).
  destruct (steps_children_other now ctx steps (prior_seg_uuid sp) None (declare_store now ctx st0)) as [-> _]; [|by rewrite declare_children].
  intros Hfr. apply (source_foreign ctx steps st0 n Hok sp r Hr Hne). by apply fresh_sub.
Qed.

(** *** Planned segments *)

Context (Hnames : names_ok fin).

Lemma identity_declared name : existsb (λ q : Z * parent_row, bool_decide (ix_index q.2 = None)) (plan_parents S0 name fin) = true.
Proof using Hok Hn Hidx NL.
  apply existsb_exists. destruct (declared st0 None None Hidx (or_introl (conj eq_refl eq_refl))) as (r & Hr & H1 & H2 & H3 & H4).
  exists (table_snapshot_index_uuid S0 None, r). split; [|by apply bool_decide_eq_true].
  apply list_elem_of_In. unfold plan_parents. rewrite merge_sort_Permutation, elem_of_map_to_list, map_lookup_filter_Some, fin_parents.
  split; [done|]. simpl. split_and!; [done|done|by left].
Qed.

Lemma planned_identity name p :
  pl_row_uuid_sidecar (plan_segment (plan_parents S0 name fin) fin p) = plan_child (table_snapshot_index_uuid S0 None) p.1 fin.
Proof using Hok Hn Hidx NL Hnames.
  unfold plan_segment. cbn [pl_row_uuid_sidecar]. rewrite (attach_identity fin p.1 S0).
  - by rewrite identity_declared.
  - intros [v r]. unfold plan_parents. rewrite merge_sort_Permutation, elem_of_map_to_list, map_lookup_filter_Some. simpl.
    intros [Hv [Hs _]] Hi. rewrite (nm_parent _ Hnames v r Hv), Hs, Hi. done.
Qed.

(** What a fresh row resolves to. *)
Lemma fresh_resolved name f row sc :
  PackFile f ∈ steps → row ∈ segment_rows f → build_segment_index [row_uuid_column (row_slice f row)] = Ok sc →
  let p := (seg_uuid row, written now (c_table ctx) S0 (file_data_uri f) row (st_segs st0 !! seg_uuid row)) in
  let x := plan_segment (plan_parents S0 name fin) fin p in
  read_base (pl_uri x) (pl_offset x) (pl_length x) fin = Some (row_slice f row) ∧
  (pl_row_uuid_sidecar x ≫= λ u, read_sidecar u fin) = Some sc.
Proof using Hok Hn Hidx Hhd Hlen NL Hnames.
  intros Hf Hr Hb. cbv zeta. destruct (plan_segment_fields fin (plan_parents S0 name fin)
    (seg_uuid row, written now (c_table ctx) S0 (file_data_uri f) row (st_segs st0 !! seg_uuid row))) as (_ & _ & -> & -> & -> & _).
  split.
  - unfold read_base. cbn. by rewrite fin_base.
  - rewrite planned_identity. cbn [fst]. destruct (fin_sidecar f row (identity_job S0 (seg_uuid row) (row_slice f row)) sc) as [Hl Hfile]; [done|done| |done|].
    { unfold row_jobs. destruct (Nat.eqb_spec (spec_length row) 0) as [E|]; [by destruct (Hlen f row Hf Hr)|by left]. }
    cbn in Hl, Hfile. rewrite (plan_child_live fin (seg_uuid row) None S0 _ (nm_child _ Hnames) Hl). cbn. unfold read_sidecar. by rewrite Hfile.
Qed.

(** What a carried row resolves to: its source, read where it always was. *)
Lemma carried_resolved name sp old ch :
  sp ∈ all_carried steps → st_segs st0 !! prior_seg_uuid sp = Some old →
  st_children st0 !! segment_index_uuid (prior_seg_uuid sp) None = Some ch → committed (ch_commit ch) = true →
  let p := (new_seg_uuid sp, carried_row now ctx sp old (st_segs st0 !! new_seg_uuid sp)) in
  let x := plan_segment (plan_parents S0 name fin) fin p in
  pl_uri x = sg_uri old ∧ pl_offset x = sg_offset old ∧ pl_length x = sg_length old ∧ pl_statistics x = sg_statistics old ∧
  pl_row_uuid_sidecar x = Some (ch_uri ch).
Proof using Hok Hn Hidx NL Hnames.
  intros Hsp Hold Hch Hc. cbv zeta. destruct (plan_segment_fields fin (plan_parents S0 name fin)
    (new_seg_uuid sp, carried_row now ctx sp old (st_segs st0 !! new_seg_uuid sp))) as (_ & _ & -> & -> & -> & ->).
  split_and!; try done. rewrite planned_identity. cbn [fst].
  apply (plan_child_live fin (new_seg_uuid sp) None S0 _ (nm_child _ Hnames)). by apply fin_carried_identity.
Qed.

End finished.

End planned.
