(* ===== verification/SnapshotCycle.v ===== *)
(** * One snapshot cycle (penca-api/src/lifecycle/snapshot_op.rs)

    [snapshot_locked] over the metadata tables and the cold files: the window,
    the watermarks, the gate and the pack stream, and the write tail.  The
    persist tier answers through [cold_log]. *)

From S2P Require Import Prelude CoreTypes Watermarks MergeSql IndexSeek IndexSelect Effects Ordered Chunker BatchUtil SegmentStats Packer PackCycle CarryForward SnapshotMeta SnapshotWrite.
From stdpp Require Import base numbers list option sets gmap sorting.

Open Scope Z_scope.
Open Scope result_scope.
Open Scope effect_scope.

(** [table_snapshot_uuid]: a table's snapshot at a watermark. *)
Class SnapshotNaming := table_snapshot_uuid : Z → Z → Z.

(** The table, its layout and its live indexes, and the request. *)
Record SnapshotTask := {
  k_table : Z;
  k_user_schema : schema;
  k_partition_keys : list Z;
  k_clustering_keys : list Z;
  k_primary_keys : list Z;
  k_user_indexes : list user_index;
  k_name_index : option user_index;
  k_as_of : option Z;
  k_density : option Z;
  k_max_segment_bytes : Z;
  k_concurrency : nat;
}.

(** What the persist tier answers: its watermark, and for a window
    [(previous snapshot, upper]] the largest sequence number, the resolved delta,
    the delete rows and the exclusion set. *)
Record cold_log := {
  persist_watermark : option Z;
  max_persisted_segment_seq : option Z → Z → option Z;
  resolved_delta : option Z → Z → list srow;
  window_deletes : option Z → Z → list srow;
  exclusion_set : option Z → Z → gset Z;
}.

(** [compute_snapshot_window] after its two reads. *)
Definition snapshot_window (as_of persisted prior_at : option Z) : option Z :=
  let persisted := match persisted with Some v => if 0 <? v then Some v else None | None => None end in
  let upper := match as_of, persisted with
               | Some t, Some p => Some (Z.min t p)
               | None, Some p => Some p
               | _, None => None
               end in
  match upper, prior_at with
  | None, _ => None
  | Some u, Some s => if u <=? s then None else Some u
  | Some u, None => Some u
  end.

(** A planned segment read through its base file and its identity sidecar. *)
Definition resolve_prior (st : srow_store) (p : planned_segment) : option PriorSegment :=
  match read_base (pl_uri p) (pl_offset p) (pl_length p) st with
  | None => None
  | Some rows => Some {| prior_uuid := pl_uuid p; prior_seg_rows := rows; prior_statistics := pl_statistics p;
                         prior_sidecar := pl_row_uuid_sidecar p ≫= λ u, read_sidecar u st |}
  end.

Definition prior_segments (res : SnapshotResult) (st : srow_store) : option (list PriorSegment) :=
  mapM (resolve_prior st) (res_segments res).

(** [prior_segment_by_uuid]: only an index needs it. *)
Definition prior_by_uuid (indexes : list user_index) (res : SnapshotResult) : gmap Z planned_segment :=
  match indexes with
  | [] => ∅
  | _ => list_to_map ((λ p, (pl_uuid p, p)) <$> res_segments res)
  end.

Section cycle.
Context `{UuidText} {K : ArrowKernels} {N : SegmentNaming} {C : StatsCodec} {I : IndexNaming} {X : IndexCell} {T : SnapshotNaming}.

Definition latest_plan (t : SnapshotTask) (st : srow_store) : SnapshotResult :=
  read_snapshot_segments_for_table (k_table t) None None None (ui_uuid <$> k_name_index t) st.

Definition cycle_input (t : SnapshotTask) (log : cold_log) (res : SnapshotResult) (at_ : Z) (segs : list PriorSegment) :
    SnapshotInput :=
  {| in_partition_keys := k_partition_keys t; in_primary_keys := k_primary_keys t; in_clustering_keys := k_clustering_keys t;
     in_recorded_partition_keys := res_partition_keys res; in_recorded_clustering_keys := res_clustering_keys res;
     in_segments := segs; in_resolved := resolved_delta log (res_at res) at_; in_deletes := window_deletes log (res_at res) at_;
     in_exclusion := exclusion_set log (res_at res) at_; in_snap := table_snapshot_uuid (k_table t) at_;
     in_max_segment_bytes := k_max_segment_bytes t |}.

Definition cycle_ctx (t : SnapshotTask) (at_ seq : Z) (durable : bool) : SnapshotWriteCtx :=
  {| c_table := k_table t; c_snap := table_snapshot_uuid (k_table t) at_; c_at := at_; c_seq := seq; c_durable := durable;
     c_user_schema := k_user_schema t; c_partition_keys := k_partition_keys t;
     c_clustering_keys := effective_clustering_keys (k_clustering_keys t) (k_primary_keys t);
     c_user_indexes := k_user_indexes t; c_name_index := k_name_index t |}.

(** The gate and the stream it opens: an outer error comes before the write tail,
    an inner one is the stream's. *)
Definition pack_steps (user_schema : schema) (i : SnapshotInput) : result ApiError (result ApiError (list (PackStep srow))) :=
  let s := snapshot_read_schema user_schema in
  let sort_keys := effective_clustering_keys (in_clustering_keys i) (in_primary_keys i) in
  let packer := SegmentPacker_new (in_snap i) (in_max_segment_bytes i) in
  let? o := PartitionOrdering_new s (in_partition_keys i) in
  match carry_forward_keys user_schema o (in_segments i) (in_recorded_partition_keys i) (in_recorded_clustering_keys i)
          (in_partition_keys i) sort_keys with
  | Some prior_keys =>
      let? delta_groups := partition_record_batch s (in_resolved i) (in_partition_keys i) in
      let? touched := touched_labels user_schema delta_groups (in_deletes i) (in_segments i) prior_keys
                        (in_partition_keys i) (in_primary_keys i) in
      let '(touched_segments, carried) := split_prior_segments_by_touch prior_keys (in_segments i) touched in
      Ok (pack_merged_partition_stream s delta_groups (survivor_stream (in_exclusion i) touched_segments) o sort_keys carried packer)
  | None =>
      let? delta_groups := partition_record_batch s (in_resolved i) (in_partition_keys i) in
      Ok (pack_merged_partition_stream s delta_groups (survivor_stream (in_exclusion i) (in_segments i)) o sort_keys [] packer)
  end.

Lemma pack_steps_flat user_schema i : snapshot_pack user_schema i = (let? r := pack_steps user_schema i in r).
Proof.
  unfold snapshot_pack, pack_steps. cbv zeta. destruct (PartitionOrdering_new _ _) as [o|e] eqn:Eo; [|done]. cbn [result_bind].
  destruct (carry_forward_keys _ _ _ _ _ _ _) as [keys|].
  - unfold carry_path. destruct (partition_record_batch _ _ _) as [g|e] eqn:Eg; [|done]. cbn [result_bind].
    destruct (touched_labels _ _ _ _ _ _ _) as [tl|e]; [|done]. cbn [result_bind].
    destruct (split_prior_segments_by_touch _ _ _) as [ts ca]. unfold pack_cycle. by rewrite Eo, Eg.
  - unfold rewrite_path, pack_cycle. rewrite Eo. cbn [result_bind]. by destruct (partition_record_batch _ _ _).
Qed.

Context (faults : nat → fault) (now : Z).

(** [snapshot_locked].  [yielded] is what a failing stream had handed out.  Every
    prior segment is read here; the code reads a carried one only to index it. *)
Definition snapshot_cycle (yielded : list (PackStep srow)) (t : SnapshotTask) (log : cold_log) : M (option Z) :=
  res ←! fetch faults (λ st, Ok (latest_plan t st)) ;
  persisted ←! fetch faults (λ _, Ok (persist_watermark log)) ;
  match snapshot_window (k_as_of t) persisted (res_at res) with
  | None => returns None
  | Some at_ =>
      seq ←! fetch faults (λ _, Ok (compute_snapshot_seq_watermark (res_seq res)
                             (option_list (max_persisted_segment_seq log (res_at res) at_)))) ;
      durable ←! fetch faults (λ st, Ok (decide_durable (last_durable_snapshot_at (k_table t) st) at_ (k_density t))) ;
      segs ←! fetch faults (λ st, match prior_segments res st with Some segs => Ok segs | None => Err ColdStorage end) ;
      let finish := finish_snapshot_write faults now (cycle_ctx t at_ seq durable) (k_concurrency t) in
      let prior := prior_by_uuid (k_user_indexes t) res in
      match pack_steps (k_user_schema t) (cycle_input t log res at_ segs) with
      | Err e => raises e
      | Ok stream =>
          at' ←! match stream with
                 | Ok steps => finish steps None prior
                 | Err e => finish yielded (Some e) prior
                 end ;
          returns (Some at')
      end
  end.

End cycle.
