(* ===== verification/SnapshotCommit.v ===== *)
(** * A write that meets no fault finishes

    Without faults the write tail returns: the sidecars it builds have their
    columns, the carried rows their sources, and the carried base files are there
    to be indexed. *)

From S2P Require Import Prelude CoreTypes Watermarks MergeSql IndexSeek IndexSelect Effects Ordered Chunker BatchUtil SegmentStats Packer PackLemmas PackTheorems CarryForward SnapshotMeta SnapshotWrite SnapshotFrame SnapshotPost SnapshotLayout SnapshotPlanned SnapshotCycle.
From stdpp Require Import base numbers list option sets gmap sorting.

Open Scope Z_scope.
Open Scope effect_scope.

Definition no_fault : nat → fault := λ _, Runs.

(** ** Programs that return from every world *)

Definition goes {A} (m : M A) : Prop := ∀ w, ∃ w' a, ok m w w' a.

Lemma goes_returns {A} (a : A) : goes (returns a).
Proof. intros w. by exists w, a. Qed.

Lemma goes_local f : goes (local f).
Proof. intros w. by exists (f w), tt. Qed.

Lemma goes_get {A} (f : world → A) : goes (get f).
Proof. intros w. by exists w, (f w). Qed.

Lemma goes_exec f : goes (exec no_fault f).
Proof. intros w. by eexists _, _. Qed.

Lemma ok_seq {A B} (m : M A) (k : A → M B) w w1 a w' b : ok m w w1 a → ok (k a) w1 w' b → ok (bind m k) w w' b.
Proof. unfold ok, bind. by intros ->. Qed.

Lemma goes_bind {A B} (m : M A) (k : A → M B) : goes m → (∀ a, goes (k a)) → goes (bind m k).
Proof. intros Hm Hk w. destruct (Hm w) as (w1 & a & H1). destruct (Hk a w1) as (w' & b & H2). exists w', b. by eapply ok_seq. Qed.

Lemma goes_for_each {A} (f : A → M unit) l : (∀ x, x ∈ l → goes (f x)) → goes (for_each l f).
Proof.
  induction l as [|x l IH]; intros Hf; cbn [for_each]; [apply goes_returns|].
  apply goes_bind; [apply Hf; by left|]. intros _. apply IH. intros y Hy. apply Hf. by right.
Qed.

Create HintDb goes.
#[export] Hint Resolve goes_returns goes_local goes_get goes_exec goes_bind goes_for_each : goes.

Ltac goes := repeat first [apply goes_returns | apply goes_local | apply goes_get | apply goes_exec
  | apply goes_bind; [|intros ?] | apply goes_for_each; intros ? ?].

Section live.
Context `{UuidText} {K : ArrowKernels} {N : SegmentNaming} {C : StatsCodec} {I : IndexNaming} {X : IndexCell} (now : Z).

Lemma goes_write_segment_group table f : goes (write_segment_group no_fault now table f).
Proof. unfold write_segment_group, push_seg_uuid, set_written_uri, on_current_group, open_group. goes. Qed.

(** ** Sidecars *)

Definition index_known (s : schema) (i : user_index) : Prop :=
  ui_columns i ≠ [] ∧ Forall (λ col, is_Some (index_of s col)) (ui_columns i).

Lemma column_known s (rows : list srow) col : is_Some (index_of s col) → ∃ c, column_by_name s rows col = Some c ∧ length c = length rows.
Proof. intros [k Hk]. unfold column_by_name. rewrite Hk. simpl. eexists. split; [done|]. by rewrite length_fmap. Qed.

Lemma known_columns s (rows : list srow) i :
  index_known s i → ∃ cols, mapM (column_by_name s rows) (ui_columns i) = Some cols ∧ ∃ sc, build_segment_index cols = Ok sc.
Proof.
  intros [Hne Hk].
  assert (∃ cols, mapM (column_by_name s rows) (ui_columns i) = Some cols ∧ Forall (λ c, length c = length rows) cols ∧
    length cols = length (ui_columns i)) as (cols & Hm & Hl & Hlen).
  { clear Hne. induction Hk as [|col cols Hc Hk IH]; [by exists []|]. destruct IH as (cs & Hm & Hl & Hlen).
    destruct (column_known s rows col Hc) as (c & Hc' & Hcl). exists (c :: cs). simpl. rewrite Hc', Hm. simpl.
    split_and!; [done|by constructor|by rewrite Hlen]. }
  exists cols. split; [done|]. destruct cols as [|c0 cols]; [by destruct (ui_columns i)|]. unfold build_segment_index.
  apply Forall_cons in Hl as [Hc0 Hl]. rewrite decide_True; [by eexists|]. constructor; [done|].
  eapply Forall_impl; [exact Hl|]. intros c ->. done.
Qed.

Lemma identity_builds (rows : list srow) : ∃ sc, build_segment_index [row_uuid_column rows] = Ok sc.
Proof. unfold build_segment_index. rewrite decide_True by (by repeat constructor). by eexists. Qed.

Lemma goes_sidecar snap seg cols slug parent :
  (∃ sc, build_segment_index cols = Ok sc) → goes (build_one_segment_sidecar no_fault snap seg cols slug parent).
Proof. intros [sc Hsc]. unfold build_one_segment_sidecar. rewrite Hsc. goes. Qed.

Lemma goes_user_sidecar s snap seg i rows : index_known s i → goes (build_user_index_sidecar no_fault s snap seg i rows).
Proof.
  intros Hk. unfold build_user_index_sidecar. destruct (known_columns s rows i Hk) as (cols & -> & Hb). by apply goes_sidecar.
Qed.

Definition indexes_known (ctx : SnapshotWriteCtx) : Prop := Forall (index_known (snapshot_read_schema (c_user_schema ctx))) (row_indexes ctx).

Lemma known_user ctx i : indexes_known ctx → i ∈ c_user_indexes ctx → index_known (snapshot_read_schema (c_user_schema ctx)) i.
Proof. unfold indexes_known. rewrite Forall_forall. intros Hk Hi. apply Hk. apply elem_of_app. by left. Qed.

Lemma goes_file_indexes ctx f : indexes_known ctx → goes (build_file_segment_indexes no_fault ctx f).
Proof.
  intros Hk. apply goes_for_each. intros row _. destruct (spec_length row =? 0)%nat; [goes|].
  apply goes_bind; [apply goes_sidecar, identity_builds|intros _]. apply goes_bind; [|intros _; apply goes_bind; [|intros _; goes]].
  - apply goes_for_each. intros i Hi. by apply goes_user_sidecar, known_user.
  - destruct (c_name_index ctx) as [name|] eqn:E; [|goes]. apply goes_user_sidecar. unfold indexes_known, row_indexes in Hk.
    rewrite Forall_forall in Hk. apply Hk. apply elem_of_app. right. rewrite E. by left.
Qed.

Lemma goes_write_steps ctx steps : indexes_known ctx → goes (write_steps no_fault now ctx steps None).
Proof.
  intros Hk. unfold write_steps. apply goes_bind; [|intros _; goes]. apply goes_for_each. intros [f|specs] _; [|goes].
  apply goes_bind; [apply goes_write_segment_group|intros _; by apply goes_file_indexes].
Qed.

Lemma goes_declare ctx : goes (declare_index_parents no_fault now ctx).
Proof. unfold declare_index_parents. goes. destruct (c_name_index ctx); goes. Qed.

Lemma goes_placeholder ctx steps : goes (write_placeholder no_fault now ctx steps).
Proof.
  unfold write_placeholder. apply goes_bind; [goes|]. intros specs. destruct (existsb _ _); [goes|]. destruct specs; [|goes].
  apply goes_write_segment_group.
Qed.

(** ** Carried segments *)

Lemma wave_reads prior wave : ∀ w,
  (∀ x, x ∈ wave → is_Some (prior_rows prior (w_store w) (prior_seg_uuid x.1))) → ∃ w' bs, ok (read_wave no_fault prior wave) w w' bs.
Proof.
  induction wave as [|[sp is_] wave IH]; intros w Hw; cbn [read_wave]; [by exists w, []|].
  destruct (Hw (sp, is_) (list_elem_of_here _ _)) as [rows Hr]. cbn [fst] in Hr.
  assert (ok (read_carried_base_segment no_fault prior (prior_seg_uuid sp)) w (tick w) rows) as H1.
  { unfold read_carried_base_segment. unfold prior_rows in Hr. destruct (prior !! prior_seg_uuid sp) as [p|]; [|done]. cbn in Hr.
    unfold ok, fetch. cbn [no_fault]. by rewrite Hr. }
  destruct (IH (tick w)) as (w2 & bs & H2); [intros x Hx; apply Hw; by right|].
  exists w2, ((sp, is_, rows) :: bs). eapply ok_seq; [exact H1|]. eapply ok_seq; [exact H2|]. done.
Qed.

Lemma waves_go ctx prior ws : ∀ w,
  base_uris prior → indexes_known ctx → (∀ x i, x ∈ concat ws → i ∈ x.2 → i ∈ c_user_indexes ctx) →
  (∀ x, x ∈ concat ws → is_Some (prior_rows prior (w_store w) (prior_seg_uuid x.1))) →
  ∃ w', ok (for_each ws (λ wave, batches ←! read_wave no_fault prior wave ;
      for_each batches (λ x, let '(spec, indexes, rows) := x in
        for_each indexes (λ index,
          build_user_index_sidecar no_fault (snapshot_read_schema (c_user_schema ctx)) (c_snap ctx) (new_seg_uuid spec) index rows)))) w w' tt.
Proof.
  induction ws as [|wave ws IH]; intros w Hb Hk Hi Hr; cbn [for_each]; [by exists w|]. cbn [concat] in Hi, Hr.
  destruct (wave_reads prior wave w) as (w1 & bs & H1); [intros x Hx; apply Hr, elem_of_app; by left|].
  pose proof (ok_read_wave no_fault prior wave w w1 bs H1) as (_ & _ & F1).
  assert (goes (for_each bs (λ x, let '(spec, indexes, rows) := x in
        for_each indexes (λ index,
          build_user_index_sidecar no_fault (snapshot_read_schema (c_user_schema ctx)) (c_snap ctx) (new_seg_uuid spec) index rows)))) as Hg.
  { apply goes_for_each. intros [[sp is_] rows] Hx. apply goes_for_each. intros i Hin. apply goes_user_sidecar, known_user; [done|].
    apply list_elem_of_lookup in Hx as [k Hk']. destruct (Forall2_lookup_r _ _ _ _ _ F1 Hk') as (y & Hy & E & _). cbn [fst] in E.
    apply (Hi y); [apply elem_of_app; left; by apply list_elem_of_lookup_2 in Hy|]. by rewrite <- E. }
  destruct (Hg w1) as (w2 & [] & H2).
  assert (ok (batches ←! read_wave no_fault prior wave ;
      for_each batches (λ x, let '(spec, indexes, rows) := x in
        for_each indexes (λ index,
          build_user_index_sidecar no_fault (snapshot_read_schema (c_user_schema ctx)) (c_snap ctx) (new_seg_uuid spec) index rows))) w w2 tt) as H3
    by (eapply ok_seq; [exact H1|exact H2]).
  pose proof (ok_wave no_fault ctx prior wave w w2 tt Hb H3) as (S3 & _ & _).
  destruct (IH w2) as (w' & H4); [done|done|intros x i Hx; apply Hi, elem_of_app; by right| |].
  - intros x Hx. rewrite S3, prior_rows_jobs by done. apply Hr, elem_of_app. by right.
  - exists w'. eapply ok_seq; [exact H3|exact H4].
Qed.

Lemma materialize_goes ctx conc specs prior w :
  base_uris prior → indexes_known ctx →
  (c_user_indexes ctx ≠ [] → ∀ sp, sp ∈ specs → is_Some (prior_rows prior (w_store w) (prior_seg_uuid sp))) →
  ∃ w', ok (materialize_carried_user_indexes no_fault ctx conc specs prior) w w' tt.
Proof.
  intros Hb Hk Hr. unfold materialize_carried_user_indexes. destruct (c_user_indexes ctx) as [|i is_] eqn:Ei; [by exists w|].
  destruct specs as [|sp specs'] eqn:Es; [by exists w|]. rewrite <- Es, <- Ei in *. clear Es.
  set (ex := fst <$> list_segment_index_metadata (prior_seg_uuid <$> specs) (w_store w)).
  set (unc := filter (λ x : CarriedSegmentSpec * list user_index, x.2 ≠ [])
    ((λ spec, (spec, filter (λ i, covered ex spec i = false) (c_user_indexes ctx))) <$> specs)).
  assert (∀ x, x ∈ unc → x.1 ∈ specs ∧ ∀ i, i ∈ x.2 → i ∈ c_user_indexes ctx) as Hu.
  { intros x [_ (sp0 & -> & Hsp)%list_elem_of_fmap]%list_elem_of_filter. split; [done|]. by intros j [_ Hj]%list_elem_of_filter. }
  destruct (waves_go ctx prior (waves_of (length unc) (Nat.max conc 1) unc) (tick w)) as (w2 & H2); [done|done| | |].
  - intros x j Hx. rewrite waves_concat in Hx by lia. by apply Hu.
  - intros x Hx. rewrite waves_concat in Hx by lia. apply Hr; [by rewrite Ei|by apply Hu].
  - match goal with |- ∃ w', ok (bind ?m ?k) w w' tt => assert (ok m w (tick w) ex) as H1 by done end.
    assert (goes (for_each (c_user_indexes ctx) (λ index,
        match filter (λ spec, covered ex spec index = true) specs with
        | [] => returns tt
        | cov => exec no_fault (insert_carried_segment_indexes (table_snapshot_index_uuid (c_snap ctx) (Some (ui_uuid index)))
                         (Some (ui_uuid index)) ((λ spec, (new_seg_uuid spec, prior_seg_uuid spec)) <$> cov))
        end))) as Hg by (apply goes_for_each; intros j _; destruct (filter _ specs); goes).
    destruct (Hg w2) as (w3 & [] & H3). exists w3. eapply ok_seq; [exact H1|]. eapply ok_seq; [exact H2|exact H3].
Qed.

(** *** The body *)

Context {NL : NamingLaws N I}.
Context (ctx : SnapshotWriteCtx) (prior : gmap Z planned_segment).
Context (steps : list (PackStep srow)) (st0 : srow_store) (n : nat) (Hok : write_ok ctx steps st0 n).

Notation mid := (steps_store now ctx steps (declare_store now ctx st0)).

Lemma carried_join : (insert_carried_snapshot_segments (c_snap ctx) (all_carried steps) mid).2 = Ok tt.
Proof using Hok NL.
  unfold insert_carried_snapshot_segments. destruct (all_carried steps) as [|sp specs] eqn:E; [done|]. rewrite <- E. cbn [snd].
  assert (filter (λ sp, is_Some (st_segs mid !! prior_seg_uuid sp)) (all_carried steps) = all_carried steps) as ->; [|by rewrite Nat.eqb_refl].
  assert (∀ sp, sp ∈ all_carried steps → is_Some (st_segs mid !! prior_seg_uuid sp)) as Hs.
  { intros sp' Hsp. destruct (wk_src _ _ _ _ Hok sp' Hsp) as (old & Hold & Hne). exists old. rewrite (mid_other now ctx); [done|].
    intros Hf%fresh_sub. by apply (source_foreign ctx steps st0 n Hok sp' old). }
  clear -Hs. induction (all_carried steps) as [|sp l IH]; [done|]. rewrite filter_cons_True by (apply Hs; by left). f_equal. apply IH.
  intros sp' Hsp. apply Hs. by right.
Qed.

(** The base file of a prior segment outlives the write. *)
Lemma base_kept u off len :
  (∃ a b, u = DataUri a b ∧ a ≠ c_snap ctx) → Forall (step_named (c_snap ctx)) steps →
  read_base u off len mid = read_base u off len st0.
Proof.
  intros (a & b & -> & Ha) Hn. unfold read_base.
  assert (∀ l st, Forall (step_named (c_snap ctx)) l → st_files (steps_store now ctx l st) !! DataUri a b = st_files st !! DataUri a b) as Hs.
  { induction l as [|step l IH]; intros st Hl; [done|]. apply Forall_cons in Hl as [Hst Hl]. unfold steps_store in *. cbn [foldl].
    rewrite IH by done. apply (step_files_data now ctx). intros f ->. destruct Hst as [Hs _]. unfold file_data_uri. rewrite Hs. congruence. }
  rewrite Hs by done. replace (st_files (declare_store now ctx st0)) with (st_files st0); [done|]. unfold declare_store. cbn.
  destruct (c_name_index ctx); cbn; by rewrite (foldl_keep st_files (λ i st, insert_table_snapshot_index
    (table_snapshot_index_uuid (c_snap ctx) (Some (ui_uuid i))) (c_snap ctx) (Some (ui_uuid i)) (Some (ui_columns i)) st)).
Qed.

Lemma body_goes conc w :
  w_store w = st0 → book w = ([], []) → indexes_known ctx → base_uris prior →
  (c_user_indexes ctx ≠ [] → ∀ sp, sp ∈ all_carried steps → ∃ p a b, prior !! prior_seg_uuid sp = Some p ∧ pl_uri p = DataUri a b ∧
     a ≠ c_snap ctx ∧ is_Some (read_base (pl_uri p) (pl_offset p) (pl_length p) st0)) →
  ∃ w', ok (write_body no_fault now ctx conc steps None prior) w w' tt.
Proof using Hok NL.
  intros Hw Hbk Hk Hb Hp. destruct (goes_declare ctx w) as (w1 & [] & H1). pose proof (ok_declare no_fault now ctx w w1 tt H1) as [S1 B1].
  destruct (goes_write_steps ctx steps Hk w1) as (w2 & [] & H2).
  pose proof (ok_write_steps no_fault now ctx steps None w1 w2 tt H2) as (S2 & _ & _ & B2).
  assert (carried_specs w2 = all_carried steps) as Hc2.
  { rewrite Hbk in B1. injection B1 as C1 D1. rewrite C1, D1 in B2. by injection B2. }
  assert (w_store w2 = mid) as Hm by (by rewrite S2, S1, Hw).
  assert (∃ w3, ok (write_carried no_fault now ctx conc prior) w2 w3 tt) as (w3 & H3).
  { unfold write_carried. destruct (decide (all_carried steps = [])) as [E|E].
    - exists w2. eapply ok_seq; [done|]. rewrite Hc2, E. done.
    - set (specs := carried_specs w2). assert (specs = all_carried steps) as Es by done.
      set (m1 := exec_checked no_fault (insert_carried_snapshot_segments (c_snap ctx) specs)).
      assert (∃ v1, ok m1 w2 v1 tt ∧ st_files (w_store v1) = st_files (w_store w2)) as (v1 & V1 & F1).
      { exists (set_store (insert_carried_snapshot_segments (c_snap ctx) specs (w_store w2)).1 (tick w2)).
        pose proof carried_join as Hj. rewrite <- Hm, <- Es in Hj. split.
        - unfold m1, exec_checked, ok. cbn [no_fault]. destruct (insert_carried_snapshot_segments _ _ _) as [st r]. cbn in Hj. by subst r.
        - cbn. unfold insert_carried_snapshot_segments. by destruct specs. }
      destruct (goes_exec (commit_snapshot_segments_by_uuids now (new_seg_uuid <$> specs)) v1) as (v2 & [] & V2).
      destruct (goes_exec (insert_carried_segment_indexes (table_snapshot_index_uuid (c_snap ctx) None) None
              ((λ spec, (new_seg_uuid spec, prior_seg_uuid spec)) <$> specs)) v2) as (v3 & [] & V3).
      pose proof (ok_exec _ _ _ _ _ V2) as [E2 _]. pose proof (ok_exec _ _ _ _ _ V3) as [E3 _].
      assert (st_files (w_store v3) = st_files mid) as Hf by (rewrite E3, E2; cbn; by rewrite F1, Hm).
      destruct (materialize_goes ctx conc specs prior v3) as (v4 & V4); [done|done| |].
      { intros Hne sp Hsp. rewrite Es in Hsp. destruct (Hp Hne sp Hsp) as (p & a & b & Hpr & Hu & Ha & Hrd). unfold prior_rows.
        rewrite Hpr. cbn. rewrite <- (base_kept (pl_uri p)) in Hrd; [|by exists a, b|by apply (wk_named _ _ _ _ Hok)].
        unfold read_base in *. by rewrite Hf. }
      destruct (goes_exec (commit_segment_index_metadata_for_segments now (new_seg_uuid <$> specs)) v4) as (v5 & [] & V5).
      exists v5. eapply ok_seq; [done|]. fold specs. clearbody specs. destruct specs as [|sp specs']; [by rewrite <- Es in E|].
      eapply ok_seq; [exact V1|]. eapply ok_seq; [exact V2|]. eapply ok_seq; [exact V3|]. eapply ok_seq; [exact V4|exact V5]. }
  destruct (goes_placeholder ctx steps w3) as (w4 & [] & H4).
  assert (goes (segs ←! get built_index_seg_uuids ; match segs with [] => returns tt
    | _ => exec no_fault (commit_segment_index_metadata_for_segments now segs) end)) as Hg by (goes; case_match; goes).
  destruct (Hg w4) as (w5 & [] & H5). exists w5.
  eapply ok_seq; [exact H1|]. eapply ok_seq; [exact H2|]. eapply ok_seq; [exact H3|]. eapply ok_seq; [exact H4|exact H5].
Qed.

End live.

(** ** The plan of the new snapshot, resolved

    Once the parent is committed, the planning read of the new snapshot resolves
    to the pack steps: each fresh row's slice, statistics and identity sidecar,
    each carried row's source. *)

Section exact.
Context `{UuidText} {K : ArrowKernels} {N : SegmentNaming} {C : StatsCodec} {I : IndexNaming} {X : IndexCell} (now : Z).
Context {NL : NamingLaws N I}.

(** ** The new prior segments *)

Definition identity_sidecar (rows : list srow) : option sidecar :=
  match build_segment_index [row_uuid_column rows] with Ok sc => Some sc | Err _ => None end.

Definition fresh_prior (f : SnapshotFileStep srow) (row : SnapshotSegmentRowSpec) : PriorSegment :=
  {| prior_uuid := seg_uuid row; prior_seg_rows := row_slice f row; prior_statistics := statistics row;
     prior_sidecar := identity_sidecar (row_slice f row) |}.

Definition carried_prior (segs : list PriorSegment) (sp : CarriedSegmentSpec) : list PriorSegment :=
  (λ seg, {| prior_uuid := new_seg_uuid sp; prior_seg_rows := prior_seg_rows seg; prior_statistics := prior_statistics seg;
             prior_sidecar := prior_sidecar seg |}) <$> filter (λ seg, prior_uuid seg = prior_seg_uuid sp) segs.

Definition step_priors (segs : list PriorSegment) (step : PackStep srow) : list PriorSegment :=
  match step with
  | PackFile f => fresh_prior f <$> segment_rows f
  | PackCarried specs => concat (carried_prior segs <$> specs)
  end.

Definition new_priors (segs : list PriorSegment) (steps : list (PackStep srow)) : list PriorSegment :=
  concat (step_priors segs <$> steps).

(** ** Where a prior segment comes from *)

(** The metadata rows and files, of another snapshot than [S], behind a resolved
    prior segment. *)
Record sourced (S : Z) (st : srow_store) (seg : PriorSegment) (old : segment_row) (ch : child_row) : Prop := {
  so_row : st_segs st !! prior_uuid seg = Some old;
  so_other : sg_snapshot old ≠ S;
  so_count : sg_row_count old ≠ 0%nat;
  so_uri : uri_snapshot (sg_uri old) ≠ S;
  so_base : read_base (sg_uri old) (sg_offset old) (sg_length old) st = Some (prior_seg_rows seg);
  so_statistics : sg_statistics old = prior_statistics seg;
  so_child : st_children st !! segment_index_uuid (prior_uuid seg) None = Some ch;
  so_live : committed (ch_commit ch) = true;
  so_child_uri : uri_snapshot (ch_uri ch) ≠ S;
  so_index : read_sidecar (ch_uri ch) st = prior_sidecar seg;
}.

Lemma attached_identity (st : srow_store) seg parents u : ∀ base,
  pl_row_uuid_sidecar (foldl (λ acc (q : Z * parent_row), attach_parent_row acc (ix_index q.2) (plan_child q.1 seg st)) base parents) = Some u →
  pl_row_uuid_sidecar base = Some u ∨ ∃ q, q ∈ parents ∧ ix_index q.2 = None ∧ plan_child q.1 seg st = Some u.
Proof.
  induction parents as [|q parents IH]; intros base Hu; [by left|]. cbn [foldl] in Hu.
  destruct (IH _ Hu) as [Hb|(q' & Hq & Hr)]; [|right; exists q'; split; [by right|done]].
  unfold attach_parent_row in Hb. destruct (ix_index q.2) as [i|] eqn:E; [left; by destruct (plan_child q.1 seg st)|].
  right. exists q. split; [by left|done].
Qed.

(** A resolved segment of a plan for another snapshot is sourced. *)
Lemma plan_sourced S (st : srow_store) u name p seg sc :
  names_ok st → refs_clear S st → u ≠ S → p ∈ snapshot_segments u st → sg_row_count p.2 ≠ 0%nat →
  resolve_prior st (plan_segment (plan_parents u name st) st p) = Some seg → prior_sidecar seg = Some sc →
  ∃ old ch, sourced S st seg old ch.
Proof using NL.
  intros Hn Hc Hu Hp Hcnt Hres Hsc. pose proof (proj1 (elem_segments u st p) Hp) as (Hrow & Hsnap & _).
  assert (¬ own_seg S p.1) as Ho.
  { intros Ho. apply (own_not_other S p.1 p.2 Ho); [by rewrite Hsnap|]. by apply (nm_seg st Hn). }
  destruct (plan_segment_fields st (plan_parents u name st) p) as (F1 & F2 & F3 & F4 & F5 & F6).
  unfold resolve_prior in Hres. rewrite F1, F3, F4, F5, F6 in Hres. destruct (read_base _ _ _ st) as [rows|] eqn:Er; [|done].
  injection Hres as <-. cbn [prior_sidecar] in Hsc. match type of Hsc with (?o ≫= _) = _ => destruct o as [v|] eqn:Ev end; [|done].
  apply attached_identity in Ev as [?|([qu q] & Hq & Hqi & Hch)]; [done|].
  unfold plan_parents in Hq. rewrite merge_sort_Permutation, elem_of_map_to_list, map_lookup_filter_Some in Hq.
  destruct Hq as [Hq _]. apply (nm_parent st Hn) in Hq. cbn in Hqi. rewrite Hqi in Hq. cbn in Hch.
  unfold plan_child in Hch. apply head_Some_elem_of, list_elem_of_fmap in Hch as ([cu ch] & -> & Hin).
  apply elem_of_map_to_list, map_lookup_filter_Some in Hin as [Hcu (Hcp & Hcs & Hcc)]. cbn in *.
  destruct (nm_child st Hn cu ch Hcu) as (slug & snap & -> & Hpp). rewrite Hcp, Hq in Hpp. apply parent_uuid_inj in Hpp as [_ <-].
  exists p.2, ch. split; cbn; try done.
  - by rewrite Hsnap.
  - apply (rc_segs S st Hc p.1); [done|by rewrite Hsnap].
  - by rewrite <- Hcs.
  - apply (rc_children S st Hc _ _ Hcu). by rewrite Hcs.
Qed.

(** ** The resolved plan *)

Context (ctx : SnapshotWriteCtx) (prior : gmap Z planned_segment).

Notation S0 := (c_snap ctx).

Section finished.
Context (steps : list (PackStep srow)) (st0 : srow_store) (n : nat) (Hok : write_ok ctx steps st0 n).
Context (Hidx : NoDup (ui_uuid <$> row_indexes ctx)).
Context (Hhd : ∀ f, PackFile f ∈ steps → head_named f).
Context (Hlen : ∀ f row, PackFile f ∈ steps → row ∈ segment_rows f → spec_length row ≠ 0%nat).
Context (segs : list PriorSegment).
Context (Hcar : ∀ sp, sp ∈ all_carried steps → ∃ seg old ch, filter (λ seg, prior_uuid seg = prior_seg_uuid sp) segs = [seg] ∧ sourced S0 st0 seg old ch).

Notation fin := (body_store now ctx prior steps st0).

Context (Hnames : names_ok fin).
Context (Hfiles : ∀ u, uri_snapshot u ≠ S0 → st_files fin !! u = st_files st0 !! u).

Lemma read_base_kept u off len : uri_snapshot u ≠ S0 → read_base u off len fin = read_base u off len st0.
Proof using Hfiles. intros Hu. unfold read_base. by rewrite Hfiles. Qed.

Lemma read_sidecar_kept u : uri_snapshot u ≠ S0 → read_sidecar u fin = read_sidecar u st0.
Proof using Hfiles. intros Hu. unfold read_sidecar. by rewrite Hfiles. Qed.

Lemma fresh_prior_resolved name f row :
  n ≠ 0%nat → PackFile f ∈ steps → row ∈ segment_rows f →
  resolve_prior fin (plan_segment (plan_parents S0 name fin) fin
    (seg_uuid row, written now (c_table ctx) S0 (file_data_uri f) row (st_segs st0 !! seg_uuid row))) = Some (fresh_prior f row).
Proof using Hok Hidx Hhd Hlen NL Hnames.
  intros Hn Hf Hr. set (p := (seg_uuid row, _)). destruct (identity_builds (row_slice f row)) as [sc Hsc].
  destruct (fresh_resolved now ctx prior steps st0 n Hok Hn Hidx Hhd Hlen Hnames name f row sc Hf Hr Hsc) as [Hb Hi].
  fold p in Hb, Hi. unfold resolve_prior. rewrite Hb, Hi.
  destruct (plan_segment_fields fin (plan_parents S0 name fin) p) as (-> & _ & _ & _ & _ & ->).
  unfold fresh_prior, identity_sidecar. by rewrite Hsc.
Qed.

Lemma carried_prior_resolved name sp seg old ch :
  n ≠ 0%nat → sp ∈ all_carried steps → prior_uuid seg = prior_seg_uuid sp → sourced S0 st0 seg old ch →
  resolve_prior fin (plan_segment (plan_parents S0 name fin) fin
    (new_seg_uuid sp, carried_row now ctx sp old (st_segs st0 !! new_seg_uuid sp))) =
  Some {| prior_uuid := new_seg_uuid sp; prior_seg_rows := prior_seg_rows seg; prior_statistics := prior_statistics seg;
          prior_sidecar := prior_sidecar seg |}.
Proof using Hok Hidx NL Hnames Hfiles.
  intros Hn Hsp Hu [S1 S2 S3 S4 S5 S6 S7 S8 S9 S10]. rewrite Hu in S1, S7.
  destruct (carried_resolved now ctx prior steps st0 n Hok Hn Hidx Hnames name sp old ch Hsp S1 S7 S8) as (E1 & E2 & E3 & E4 & E5).
  set (p := (new_seg_uuid sp, _)) in *. unfold resolve_prior.
  destruct (plan_segment_fields fin (plan_parents S0 name fin) p) as (F1 & _). rewrite F1, E1, E2, E3, E4, E5.
  rewrite read_base_kept, S5, S6 by done. cbn. by rewrite read_sidecar_kept, S10 by done.
Qed.

(** Each row of a step resolves to its prior segment. *)
Lemma step_resolved name step :
  n ≠ 0%nat → step ∈ steps →
  Forall2 (λ p seg, sg_row_count p.2 ≠ 0%nat ∧ resolve_prior fin (plan_segment (plan_parents S0 name fin) fin p) = Some seg)
    (step_meta now ctx st0 step) (step_priors segs step).
Proof using Hok Hidx Hhd Hlen NL Hnames Hfiles Hcar.
  intros Hn Hin. destruct step as [f|specs]; cbn [step_meta step_priors].
  - rewrite <- (list_fmap_id (segment_rows f)) at 2. rewrite Forall2_fmap, list_fmap_id. apply Forall_Forall2_diag, Forall_forall. intros row Hr. split.
    + cbn. by apply (Hlen f).
    + by apply fresh_prior_resolved.
  - assert (∀ sp, sp ∈ specs → sp ∈ all_carried steps) as Hsub.
    { intros sp Hsp. apply elem_concat_fmap. by exists (PackCarried specs). }
    clear Hin. induction specs as [|sp specs IH]; [constructor|]. rewrite fmap_cons. cbn [concat].
    destruct (Hcar sp (Hsub sp (list_elem_of_here _ _))) as (seg & old & ch & Hf & Hsrc). unfold carried_prior at 1. rewrite Hf.
    assert (prior_uuid seg = prior_seg_uuid sp) as Hu by (assert (seg ∈ [seg]) as Hs by (by left); rewrite <- Hf in Hs; by apply list_elem_of_filter in Hs as [? _]).
    cbn [omap list_omap]. pose proof (so_row _ _ _ _ _ Hsrc) as Hrow. rewrite Hu in Hrow. rewrite Hrow. cbn. constructor.
    + split; [exact (so_count _ _ _ _ _ Hsrc)|]. apply (carried_prior_resolved name sp seg old ch); [done| |done|done]. apply Hsub. by left.
    + apply IH. intros sp' Hsp'. apply Hsub. by right.
Qed.

Lemma rows_resolved name :
  n ≠ 0%nat →
  Forall2 (λ p seg, sg_row_count p.2 ≠ 0%nat ∧ resolve_prior fin (plan_segment (plan_parents S0 name fin) fin p) = Some seg)
    (new_rows now ctx st0 steps) (new_priors segs steps).
Proof using Hok Hidx Hhd Hlen NL Hnames Hfiles Hcar.
  intros Hn. set (R := λ (p : Z * segment_row) seg, sg_row_count p.2 ≠ 0%nat ∧ resolve_prior fin (plan_segment (plan_parents S0 name fin) fin p) = Some seg).
  assert (∀ l, (∀ step, step ∈ l → step ∈ steps) → Forall2 R (concat (step_meta now ctx st0 <$> l)) (concat (step_priors segs <$> l))) as Hl;
    [|by apply Hl].
  induction l as [|step l IH]; intros Hsub; [constructor|]. rewrite !fmap_cons. cbn [concat].
  apply Forall2_app; [apply step_resolved; [done|]|apply IH; intros x Hx]; apply Hsub; [by left|by right].
Qed.

End finished.

End exact.

(** ** Planning the committed snapshot

    The shape of the pack steps gives the names and lengths the plan needs; the
    planning read that picks the new snapshot then resolves to the pack steps,
    also when there is nothing but the placeholder. *)

(** ** Shaped steps *)

Section shape.
Context `{UuidText} {K : ArrowKernels} {N : SegmentNaming} {C : StatsCodec}.
Context (s : schema) (snap cap : Z).

Record row_shape (file : list srow) (row : SnapshotSegmentRowSpec) : Prop := {
  rs_uuid : seg_uuid row = table_snapshot_segment_uuid snap (spec_chunk_idx row);
  rs_length : spec_length row ≠ 0%nat;
  rs_bound : (spec_offset row + spec_length row ≤ length file)%nat;
  rs_stats : statistics row = compute_segment_statistics s (slice_rows file (spec_offset row) (spec_length row));
}.

Lemma tile_bound file specs : ∀ off, specs_tile s snap file off specs → (off ≤ length file)%nat.
Proof. induction specs as [|sp specs IH]; intros off; [by intros ->|]. intros (_ & _ & _ & _ & _ & Ht). apply IH in Ht. lia. Qed.

Lemma tile_rows file specs : ∀ off, specs_tile s snap file off specs → Forall (row_shape file) specs.
Proof.
  induction specs as [|sp specs IH]; intros off; [constructor|]. intros (Ho & Hl & _ & Hst & Hu & Ht). constructor; [|by eapply IH].
  pose proof (tile_bound _ _ _ Ht). split; [done|lia|lia|]. by rewrite Ho.
Qed.

Lemma shape_rows f row : step_shape s snap cap (PackFile f) → row ∈ segment_rows f → row_shape (file_batch f) row.
Proof. intros (_ & _ & _ & Ht & _) Hr. pose proof (tile_rows _ _ _ Ht) as Hf. rewrite Forall_forall in Hf. by apply Hf. Qed.

Lemma shape_named step : step_shape s snap cap step → step_named snap step.
Proof.
  destruct step as [f|specs]; [|by intros [_ ?]]. intros Hs. split; [by destruct Hs|]. apply Forall_forall. intros row Hr.
  by apply (shape_rows f row Hs).
Qed.

Context (steps : list (PackStep srow)) (Hsh : Forall (step_shape s snap cap) steps).

Lemma shapes_named : Forall (step_named snap) steps.
Proof using Hsh. eapply Forall_impl; [exact Hsh|apply shape_named]. Qed.

Lemma shapes_head f : PackFile f ∈ steps → head_named f.
Proof using Hsh. rewrite Forall_forall in Hsh. by intros (_ & _ & ? & _)%Hsh. Qed.

Lemma shapes_rows f row : PackFile f ∈ steps → row ∈ segment_rows f → row_shape (file_batch f) row.
Proof using Hsh. rewrite Forall_forall in Hsh. intros Hf. by apply shape_rows, Hsh. Qed.

Lemma shapes_length f row : PackFile f ∈ steps → row ∈ segment_rows f → spec_length row ≠ 0%nat.
Proof using Hsh. intros Hf Hr. by destruct (shapes_rows f row Hf Hr). Qed.

Lemma shapes_nil : concat (step_idxs <$> steps) = [] → steps = [].
Proof using Hsh.
  destruct Hsh as [|step l Hs _]; [done|]. rewrite fmap_cons. cbn [concat]. intros [He _]%app_nil. destruct step as [f|specs]; cbn in *.
  - destruct Hs as (_ & Hne & _). by destruct (segment_rows f).
  - destruct Hs as [Hne _]. by destruct specs.
Qed.

Lemma slice_nonempty f row : PackFile f ∈ steps → row ∈ segment_rows f → row_slice f row ≠ [].
Proof using Hsh.
  intros Hf Hr. destruct (shapes_rows f row Hf Hr) as [_ Hl Hb _]. intros E. apply (f_equal length) in E. unfold row_slice, slice_rows in E.
  rewrite length_take, length_drop in E. simpl in E. lia.
Qed.

End shape.

Section commit.
Context `{UuidText} {K : ArrowKernels} {N : SegmentNaming} {C : StatsCodec} {I : IndexNaming} {X : IndexCell} (now : Z).
Context {NL : NamingLaws N I}.
Context (ctx : SnapshotWriteCtx) (prior : gmap Z planned_segment).

Notation S0 := (c_snap ctx).
Notation s := (snapshot_read_schema (c_user_schema ctx)).

(** ** The placeholder *)

Lemma placeholder_segments st0 n :
  write_ok ctx [] st0 n → ∃ p, snapshot_segments S0 (body_store now ctx prior [] st0) = [p] ∧ sg_row_count p.2 = 0%nat.
Proof using NL.
  intros Hok. set (row := {| seg_uuid := table_snapshot_segment_uuid S0 0; spec_chunk_idx := 0; partition_value := None; spec_offset := 0;
                         spec_length := 0; size_bytes := 0; statistics := compute_segment_statistics s ([] : list srow) |}).
  set (st := declare_store now ctx st0). set (f := empty_merge_placeholder_step ctx).
  assert (st_segs st0 !! table_snapshot_segment_uuid S0 0 = None) as Hnone.
  { destruct (st_segs st0 !! _) as [r|] eqn:E; [|done]. pose proof (nm_seg st0 (wk_names _ _ _ _ Hok) _ _ E) as [Hs _]%segment_uuid_inj.
    pose proof (wk_stale _ _ _ _ Hok _ r E (eq_sym Hs)) as Hin. by apply elem_of_nil in Hin. }
  assert (st_segs st !! seg_uuid row = None) as Hst by (unfold st; by rewrite declare_segs).
  exists (seg_uuid row, written now (c_table ctx) S0 (file_data_uri f) row None). split; [|done].
  unfold body_store. cbn [fmap list_fmap concat]. unfold snapshot_segments.
  assert (filter (λ p : Z * segment_row, sg_snapshot p.2 = S0 ∧ committed (sg_commit p.2) = true) (st_segs (group_store now (c_table ctx) f st)) =
    {[seg_uuid row := written now (c_table ctx) S0 (file_data_uri f) row None]}) as Heq.
  2:{ change (placeholder_store now ctx [] _) with (group_store now (c_table ctx) f st). by rewrite Heq, map_to_list_singleton. }
  apply map_eq. intros u. apply option_eq. intros r. rewrite map_lookup_filter_Some, lookup_singleton_Some. cbn [fst snd].
  destruct (decide (u = seg_uuid row)) as [->|Hne].
  - pose proof (group_segs_row now (c_table ctx) f st row) as Hg. rewrite Hg; [|by apply NoDup_singleton|by left]. rewrite Hst. split.
    + intros [[= <-] _]. done.
    + intros [_ <-]. done.
  - rewrite group_segs_other; [|intros Hin; apply list_elem_of_singleton in Hin; by apply Hne]. unfold st. rewrite declare_segs. split.
    + intros [Hu [Hs _]]. pose proof (wk_stale _ _ _ _ Hok u r Hu Hs) as Hin. by apply elem_of_nil in Hin.
    + intros [E _]. by destruct Hne.
Qed.

(** ** The plan *)

Section finished.
Context (steps : list (PackStep srow)) (st0 : srow_store) (n : nat) (cap : Z) (Hok : write_ok ctx steps st0 n).
Context (Hidx : NoDup (ui_uuid <$> row_indexes ctx)) (Hsh : Forall (step_shape s S0 cap) steps).
Context (segs : list PriorSegment).
Context (Hcar : ∀ sp, sp ∈ all_carried steps → ∃ seg old ch, filter (λ seg, prior_uuid seg = prior_seg_uuid sp) segs = [seg] ∧ sourced S0 st0 seg old ch).

Notation fin := (body_store now ctx prior steps st0).

Context (Hnames : names_ok fin).
Context (Hfiles : ∀ u, uri_snapshot u ≠ S0 → st_files fin !! u = st_files st0 !! u).

Lemma committed_plan as_of seq pinned name r :
  pick_snapshot (c_table ctx) as_of seq pinned (commit_snapshot_metadata now S0 fin) = Some (S0, r) →
  let st' := commit_snapshot_metadata now S0 fin in
  let res := read_snapshot_segments_for_table (c_table ctx) as_of seq pinned name st' in
  prior_segments res st' = Some (new_priors segs steps) ∧ res_at res = Some (sn_at r) ∧ res_seq res = Some (sn_seq r) ∧
  res_partition_keys res = sn_partition_keys r ∧ res_clustering_keys res = sn_clustering_keys r.
Proof using Hok Hidx Hsh Hcar Hnames Hfiles NL.
  intros Hpick st' res. unfold res, read_snapshot_segments_for_table. fold st' in Hpick. rewrite Hpick.
  change (snapshot_segments S0 st') with (snapshot_segments S0 fin). change (plan_parents S0 name st') with (plan_parents S0 name fin).
  destruct (decide (n = 0%nat)) as [Hn|Hn].
  - assert (steps = []) as Hs.
    { apply (shapes_nil s S0 cap steps Hsh). rewrite (wk_idx _ _ _ _ Hok), Hn. done. }
    assert (∃ p, snapshot_segments S0 fin = [p] ∧ sg_row_count p.2 = 0%nat) as (p & -> & Hp).
    { clear -Hok Hs NL. rewrite Hs in *. by apply (placeholder_segments st0 n). }
    unfold prior_segments. cbn [res_segments].  rewrite filter_cons_False by (intros Hc; by apply Hc). rewrite filter_nil, Hs. done.
  - rewrite (layout_segments now ctx prior steps st0 n Hok Hn).
    pose proof (rows_resolved now ctx prior steps st0 n Hok Hidx (shapes_head s S0 cap steps Hsh) (shapes_length s S0 cap steps Hsh) segs Hcar Hnames Hfiles name Hn) as Hrows.
    assert (new_rows now ctx st0 steps ≠ []) as Hne.
    { intros E. pose proof (new_rows_idx now ctx prior steps st0 n Hok Hn) as Hi. rewrite E in Hi. by destruct n. }
    destruct (new_rows now ctx st0 steps) as [|p rows] eqn:E; [done|]. split_and!; try done.
    unfold prior_segments. cbn [res_segments]. rewrite <- E in *. clear E Hne.
    assert (filter (λ p : Z * segment_row, sg_row_count p.2 ≠ 0%nat) (new_rows now ctx st0 steps) = new_rows now ctx st0 steps) as ->.
    { clear -Hrows. induction Hrows as [|q seg l k [Hq _] _ IH]; [done|]. by rewrite filter_cons_True, IH. }
    apply mapM_Some_2. apply Forall2_fmap_l. eapply Forall2_impl; [exact Hrows|]. by intros q seg [_ ?].
Qed.

End finished.

End commit.
