(* ===== verification/SnapshotStep.v ===== *)
(** * What one cycle hands the next

    The prior segments of a new snapshot are again as the carry-forward gate and
    the packer need them, and the store again has no trace of a later one. *)

From S2P Require Import Prelude CoreTypes Watermarks MergeSql IndexSeek IndexSelect Effects Ordered Chunker BatchUtil SegmentStats Packer PackLemmas PackMerge PackStream PackTheorems PackCycle PackProps CarryForward CarryTheorems SnapshotMeta SnapshotWrite SnapshotFrame SnapshotPost SnapshotLayout SnapshotPlanned SnapshotCycle SnapshotCommit.
From stdpp Require Import base numbers list option sets gmap sorting.

Open Scope Z_scope.
Open Scope effect_scope.

(** ** The new prior segments *)

Section priors.
Context `{UuidText} {K : ArrowKernels} {N : SegmentNaming} {C : StatsCodec}.
Context (user_schema : schema) (pkeys : list Z) (pidx : list nat).

Notation s := (snapshot_read_schema user_schema).
Notation key := (cycle_key s pkeys pidx).

Lemma all_rows_new segs steps : all_rows (new_priors segs steps) = step_rows (seg_rows segs) steps.
Proof.
  unfold all_rows, new_priors, step_rows. induction steps as [|step steps IH]; [done|]. rewrite !fmap_cons. cbn [concat].
  rewrite !fmap_app, !concat_app, IH. f_equal. destruct step as [f|specs]; cbn [step_priors laid].
  - rewrite <- list_fmap_compose. induction (segment_rows f) as [|row rows IHr]; [done|]. rewrite !fmap_cons. cbn [concat].
    rewrite fmap_app, concat_app, <- IHr. f_equal. unfold spec_laid. by rewrite resolve_tagged.
  - rewrite <- list_fmap_compose. induction specs as [|sp specs IHs]; [done|]. rewrite !fmap_cons. cbn [concat]. rewrite fmap_app, concat_app, IHs.
    f_equal. unfold carried_prior, seg_rows. by rewrite <- list_fmap_compose.
Qed.

(** A carried uuid names one segment. *)
Lemma filter_unique segs u : NoDup (prior_uuid <$> segs) → u ∈ prior_uuid <$> segs → ∃ seg, seg ∈ segs ∧ prior_uuid seg = u ∧
  filter (λ seg, prior_uuid seg = u) segs = [seg].
Proof.
  intros Hnd (seg & -> & Hs)%list_elem_of_fmap. exists seg. split_and!; [done|done|].
  induction segs as [|x segs IH]; [by apply elem_of_nil in Hs|]. rewrite fmap_cons in Hnd. apply NoDup_cons in Hnd as [Hn Hnd].
  apply elem_of_cons in Hs as [<-|Hs].
  - rewrite filter_cons_True by done. f_equal. destruct (filter _ segs) as [|y l] eqn:E; [done|]. exfalso. apply Hn.
    assert (y ∈ y :: l) as Hy by (by left). rewrite <- E in Hy. apply list_elem_of_filter in Hy as [Ey Hy]. rewrite <- Ey. by apply list_elem_of_fmap_2.
  - rewrite filter_cons_False; [by apply IH|]. intros E. apply Hn. rewrite E. by apply list_elem_of_fmap_2.
Qed.

Section packed.
Context (i : SnapshotInput) (didx : list nat) (ds : schema) (steps : list (PackStep srow)).
Context (Hprior : prior_ok user_schema pkeys pidx (in_segments i)) (Hwin : window_ok user_schema pkeys pidx i didx ds).
Context (Hpacks : packs user_schema pkeys pidx i steps).

Lemma carried_known sp : sp ∈ all_carried steps → prior_seg_uuid sp ∈ prior_uuid <$> in_segments i.
Proof using Hpacks.
  intros ([f|specs] & Hst & Hsp)%elem_concat_fmap; [by apply elem_of_nil in Hsp|]. destruct Hpacks as (_ & _ & _ & _ & Hl).
  rewrite Forall_forall in Hl. apply (Hl (inr (prior_seg_uuid sp))). apply elem_concat_fmap. exists (PackCarried specs). split; [done|].
  cbn. by apply (list_elem_of_fmap_2 (λ c, inr (prior_seg_uuid c))).
Qed.

Lemma packed_row r : r ∈ step_rows (seg_rows (in_segments i)) steps → r ∈ all_rows (in_segments i) ++ in_resolved i ∧ row_ok s r.
Proof using Hprior Hwin Hpacks.
  intros Hr. rewrite (proj1 Hpacks) in Hr. apply elem_of_app in Hr as [[_ Hr]%list_elem_of_filter|Hr].
  - split; [apply elem_of_app; by left|]. apply elem_all_rows in Hr as (seg & Hs & Hr). destruct Hprior as [Hsegs _ _].
    rewrite Forall_forall in Hsegs. destruct (Hsegs seg Hs) as [_ Hc _ _ _]. rewrite Forall_forall in Hc. by apply Hc.
  - split; [apply elem_of_app; by right|]. pose proof (wo_cost _ _ _ _ _ _ Hwin) as Hc. rewrite Forall_forall in Hc. by apply Hc.
Qed.

Lemma fresh_elem f row r : PackFile f ∈ steps → row ∈ segment_rows f → r ∈ row_slice f row →
  r ∈ step_rows (seg_rows (in_segments i)) steps ∧ partition_value row = label (key r).
Proof using Hpacks.
  intros Hf Hr Hin. assert (inl (partition_value row, r) ∈ concat (laid <$> steps)) as Hl.
  { apply elem_concat_fmap. exists (PackFile f). split; [done|]. cbn. apply elem_concat_fmap. exists row. split; [done|].
    by apply (list_elem_of_fmap_2 (λ r, inl (partition_value row, r))). }
  split.
  - unfold step_rows. apply elem_concat_fmap. eexists. split; [exact Hl|]. by left.
  - destruct Hpacks as (_ & _ & _ & _ & Hfl). rewrite Forall_forall in Hfl. exact (Hfl _ Hl).
Qed.

Lemma fresh_segment_ok f row : PackFile f ∈ steps → row ∈ segment_rows f → segment_ok user_schema pidx (fresh_prior f row).
Proof using Hprior Hwin Hpacks.
  intros Hf Hr. pose proof Hpacks as (_ & _ & _ & Hsh & _). split; cbn [fresh_prior prior_seg_rows prior_statistics prior_sidecar].
  - by eapply slice_nonempty.
  - apply Forall_forall. intros r Hin. apply packed_row. by apply (fresh_elem f row).
  - intros r r' Hin Hin'. destruct (fresh_elem f row r Hf Hr Hin) as [H1 L1]. destruct (fresh_elem f row r' Hf Hr Hin') as [H2 L2].
    apply (wo_labels _ _ _ _ _ _ Hwin); [by apply packed_row|by apply packed_row|]. by rewrite <- L1.
  - by destruct (shapes_rows s _ _ steps Hsh f row Hf Hr).
  - destruct (identity_builds (row_slice f row)) as [sc Hsc]. exists sc. unfold identity_sidecar. rewrite Hsc. by split.
Qed.

Lemma new_segments_ok : Forall (segment_ok user_schema pidx) (new_priors (in_segments i) steps).
Proof using Hprior Hwin Hpacks.
  apply Forall_forall. intros seg ([f|specs] & Hst & Hs)%elem_concat_fmap; cbn in Hs.
  - apply list_elem_of_fmap in Hs as (row & -> & Hr). by apply fresh_segment_ok.
  - apply elem_concat_fmap in Hs as (sp & _ & Hs). apply list_elem_of_fmap in Hs as (old & -> & [_ Hold]%list_elem_of_filter).
    destruct Hprior as [Hsegs _ _]. rewrite Forall_forall in Hsegs. by destruct (Hsegs old Hold).
Qed.

Lemma new_uuids : prior_uuid <$> new_priors (in_segments i) steps = all_uuids steps.
Proof using Hprior Hpacks.
  pose proof carried_known as Hk. unfold new_priors, all_uuids, all_carried in *. clear Hpacks.
  induction steps as [|step l IH]; [done|]. rewrite !fmap_cons in *. cbn [concat] in *. rewrite fmap_app.
  rewrite IH by (intros sp Hsp; apply Hk, elem_of_app; by right). f_equal. destruct step as [f|specs]; cbn in *.
  - by rewrite <- list_fmap_compose.
  - assert (∀ sp, sp ∈ specs → prior_seg_uuid sp ∈ prior_uuid <$> in_segments i) as Hs by (intros sp Hsp; apply Hk, elem_of_app; by left).
    clear -Hs Hprior. induction specs as [|sp specs IH]; [done|]. rewrite !fmap_cons. cbn [concat]. rewrite fmap_app.
    rewrite IH by (intros sp' Hsp'; apply Hs; by right).
    destruct (filter_unique (in_segments i) _ (pr_uuids _ _ _ _ Hprior) (Hs sp (list_elem_of_here _ _))) as (seg & _ & _ & Hf).
    unfold carried_prior. by rewrite Hf.
Qed.

Lemma shaped_uuids n : concat (step_idxs <$> steps) = seq 0 n → all_uuids steps = table_snapshot_segment_uuid (in_snap i) <$> seq 0 n.
Proof using Hpacks.
  intros <-. destruct Hpacks as (_ & _ & _ & Hsh & _). clear Hpacks. unfold all_uuids.
  pose proof (shapes_named _ _ _ _ Hsh) as Hn. clear Hsh. induction Hn as [|step l Hs Hn IH]; [done|].
  rewrite !fmap_cons. cbn [concat]. rewrite fmap_app, IH. f_equal. destruct step as [f|specs]; cbn.
  - destruct Hs as [_ Hs]. rewrite <- list_fmap_compose. apply list_fmap_ext. intros k row Hrow. rewrite Forall_forall in Hs.
    apply Hs. by apply list_elem_of_lookup_2 in Hrow.
  - rewrite <- list_fmap_compose. apply list_fmap_ext. intros k sp Hsp. cbn [step_named] in Hs. rewrite Forall_forall in Hs.
    apply Hs. by apply list_elem_of_lookup_2 in Hsp.
Qed.

Lemma new_prior_ok `{!IndexNaming} `{!NamingLaws N _} : prior_ok user_schema pkeys pidx (new_priors (in_segments i) steps).
Proof using Hprior Hwin Hpacks.
  destruct Hpacks as (_ & Hord & [n Hn] & _). split; [apply new_segments_ok| |by rewrite all_rows_new].
  rewrite new_uuids, (shaped_uuids n Hn). apply NoDup_fmap_2_strong; [|apply NoDup_seq]. intros a b _ _ [_ ?]%segment_uuid_inj. done.
Qed.

End packed.

End priors.

(** ** Files the new rows name

    The rows a write leaves name the new snapshot's own files or files that rows
    named before; the snapshot parents are left alone until the commit. *)

Lemma foldl_inv {A B} (Q : B → Prop) (f : A → B → B) (l : list A) : (∀ a m, a ∈ l → Q m → Q (f a m)) → ∀ m, Q m → Q (foldl (λ m a, f a m) m l).
Proof.
  induction l as [|a l IH]; intros Hf m Hm; [done|]. cbn [foldl]. apply IH; [intros b m' Hb; apply Hf; by right|]. apply Hf; [by left|done].
Qed.

Section uris.
Context `{UuidText} {K : ArrowKernels} {N : SegmentNaming} {C : StatsCodec} {I : IndexNaming} {X : IndexCell} (now : Z).
Context (ctx : SnapshotWriteCtx) (prior : gmap Z planned_segment) (P : file_uri → Prop).

Notation S0 := (c_snap ctx).

Definition seg_uris (m : gmap Z segment_row) : Prop := ∀ u r, m !! u = Some r → P (sg_uri r).
Definition child_uris (m : gmap Z child_row) : Prop := ∀ u r, m !! u = Some r → P (ch_uri r).

Lemma seg_uris_insert m u r : P (sg_uri r) → seg_uris m → seg_uris (<[u := r]> m).
Proof. intros Hr Hm v r' [[<- <-]|[_ Hv]]%lookup_insert_Some; [done|by eapply Hm]. Qed.

Lemma seg_uris_alter m u f : (∀ r, sg_uri (f r) = sg_uri r) → seg_uris m → seg_uris (alter f u m).
Proof. intros Hf Hm v r [(<- & r0 & Hv & ->)|[_ Hv]]%lookup_alter_Some; [rewrite Hf; by eapply Hm|by eapply Hm]. Qed.

Lemma child_uris_insert m u r : P (ch_uri r) → child_uris m → child_uris (<[u := r]> m).
Proof. intros Hr Hm v r' [[<- <-]|[_ Hv]]%lookup_insert_Some; [done|by eapply Hm]. Qed.

Context (Hdata : ∀ seg, P (DataUri S0 seg)).

Lemma group_seg_uris table f st : step_snap_uuid f = S0 → seg_uris (st_segs st) → seg_uris (st_segs (group_store now table f st)).
Proof using Hdata.
  intros Hf Hst. rewrite group_segs.
  apply (foldl_inv seg_uris (λ row m, alter (stamp_segment now) (seg_uuid row) m)); [intros row m _; by apply seg_uris_alter|].
  apply (foldl_inv seg_uris (λ row m, alter (λ r, {| sg_snapshot := sg_snapshot r; sg_table := sg_table r; sg_chunk_idx := sg_chunk_idx r;
        sg_uri := sg_uri r; sg_offset := sg_offset r; sg_length := sg_length r; sg_row_count := sg_row_count r;
        sg_size := Some (size_bytes row); sg_statistics := sg_statistics r; sg_commit := sg_commit r |}) (seg_uuid row) m)); [intros row m _; by apply seg_uris_alter|].
  apply (foldl_inv seg_uris (λ row m, st_segs (insert_snapshot_segment _ _ _ _ _ _ _ _ (Build_snapshot_store srow ∅ m ∅ ∅ ∅ ∅)))); [|done].
  intros row m _ Hm. cbn. apply seg_uris_insert; [|done]. unfold file_data_uri. rewrite Hf. destruct (m !! seg_uuid row); apply Hdata.
Qed.

Lemma steps_seg_uris steps : Forall (step_named S0) steps → ∀ st, seg_uris (st_segs st) → seg_uris (st_segs (steps_store now ctx steps st)).
Proof using Hdata.
  intros Hn. apply (foldl_inv (λ st, seg_uris (st_segs st)) (λ step st, step_store now ctx step st)). intros [f|specs] st Hin Hst; [|done].
  cbn. rewrite run_jobs_segs. rewrite Forall_forall in Hn. apply group_seg_uris; [by destruct (Hn _ Hin)|done].
Qed.

Lemma carry_fold_uris m0 specs : seg_uris m0 → ∀ m, seg_uris m → seg_uris (carry_fold ctx m0 m specs).
Proof.
  intros H0. apply (foldl_inv seg_uris (λ sp acc, match m0 !! prior_seg_uuid sp with
    | Some old => <[new_seg_uuid sp := carry_segment S0 sp old (acc !! new_seg_uuid sp)]> acc | None => acc end)).
  intros sp m _ Hm. destruct (m0 !! prior_seg_uuid sp) as [old|] eqn:E; [|done]. apply seg_uris_insert; [|done]. cbn. by eapply H0.
Qed.

Lemma carried_seg_uris specs st : seg_uris (st_segs st) → seg_uris (st_segs (carried_store now ctx prior specs st)).
Proof.
  intros Hst. destruct (decide (specs = [])) as [->|Hne]; [done|]. intros u r Hr. rewrite (carried_segs now ctx prior) in Hr by done.
  apply fmap_Some in Hr as (r0 & Hr & ->). pose proof (carry_fold_uris _ specs Hst _ Hst u r0 Hr) as HP. by destruct (decide _).
Qed.

Lemma body_seg_uris steps st : Forall (step_named S0) steps → seg_uris (st_segs st) → seg_uris (st_segs (body_store now ctx prior steps st)).
Proof using Hdata.
  intros Hn Hst. rewrite (body_segs now ctx prior). unfold placeholder_store.
  assert (seg_uris (st_segs (carried_store now ctx prior (all_carried steps) (steps_store now ctx steps (declare_store now ctx st))))) as Hc.
  { apply carried_seg_uris, steps_seg_uris; [done|]. by rewrite declare_segs. }
  destruct (existsb _ _); [done|]. destruct (concat _); [|done]. by apply group_seg_uris.
Qed.

(** *** Sidecar rows *)

Context (Hindex : ∀ seg slug, P (IndexUri S0 seg slug)).

Lemma jobs_child_uris js : ∀ st, child_uris (st_children st) → child_uris (st_children (run_jobs S0 js st)).
Proof using Hindex.
  apply (foldl_inv (λ st, child_uris (st_children st)) (λ j st, job_store S0 j st)). intros j st _ Hst. unfold job_store.
  destruct (build_segment_index _); [|done]. cbn. apply child_uris_insert; [|done]. apply Hindex.
Qed.

Lemma steps_child_uris steps : ∀ st, child_uris (st_children st) → child_uris (st_children (steps_store now ctx steps st)).
Proof using Hindex.
  apply (foldl_inv (λ st, child_uris (st_children st)) (λ step st, step_store now ctx step st)). intros [f|specs] st _ Hst; [|done].
  cbn. apply jobs_child_uris. by rewrite group_children.
Qed.

Lemma carry_child_uris parent slug pairs (st : srow_store) : child_uris (st_children st) → child_uris (st_children (insert_carried_segment_indexes parent slug pairs st)).
Proof.
  intros Hst. cbn. set (m := st_children st) in *. rename Hst into Hm.
  apply (foldl_inv child_uris (λ (p : Z * Z) acc, match m !! segment_index_uuid p.2 slug with
      | Some old => if committed (ch_commit old) then
            <[segment_index_uuid p.1 slug := {| ch_segment := p.1; ch_parent := parent; ch_uri := ch_uri old; ch_length := ch_length old;
                       ch_commit := match acc !! segment_index_uuid p.1 slug with Some r => ch_commit r | None => None end |}]> acc
          else acc
      | None => acc end)); [|done].
  intros p acc _ Hacc. destruct (m !! segment_index_uuid p.2 slug) as [old|] eqn:E; [|done]. destruct (committed _); [|done].
  apply child_uris_insert; [|done]. cbn. by eapply Hm.
Qed.

Lemma commit_child_uris segs (st : srow_store) :
  child_uris (st_children st) → child_uris (st_children (commit_segment_index_metadata_for_segments now segs st)).
Proof. intros Hst u r Hr. cbn in Hr. rewrite lookup_fmap in Hr. apply fmap_Some in Hr as (r0 & Hr & ->). specialize (Hst u r0 Hr). by destruct (decide _). Qed.

Lemma carried_child_uris specs st : child_uris (st_children st) → child_uris (st_children (carried_store now ctx prior specs st)).
Proof using Hindex.
  intros Hst. unfold carried_store. destruct specs as [|sp specs'] eqn:E; [done|]. rewrite <- E. apply commit_child_uris.
  unfold materialized, carry_indexes.
  apply (foldl_inv (λ st, child_uris (st_children st)) (λ index st, insert_carried_segment_indexes (table_snapshot_index_uuid S0 (Some (ui_uuid index)))
           (Some (ui_uuid index)) _ st)); [intros index st' _; by apply carry_child_uris|].
  apply jobs_child_uris, carry_child_uris. cbn. unfold insert_carried_snapshot_segments. by rewrite E.
Qed.

Lemma body_child_uris steps st : child_uris (st_children st) → child_uris (st_children (body_store now ctx prior steps st)).
Proof using Hindex.
  intros Hst. assert (child_uris (st_children (placeholder_store now ctx steps (carried_store now ctx prior (concat (step_carried <$> steps))
    (steps_store now ctx steps (declare_store now ctx st)))))) as Hc.
  { assert (child_uris (st_children (carried_store now ctx prior (concat (step_carried <$> steps)) (steps_store now ctx steps (declare_store now ctx st))))) as Hc.
    { apply carried_child_uris, steps_child_uris. by rewrite declare_children. }
    unfold placeholder_store. destruct (existsb _ _); [done|]. destruct (concat _); [|done]. by rewrite group_children. }
  unfold body_store. destruct (concat (step_built <$> steps)); [done|]. by apply commit_child_uris.
Qed.

(** ** Snapshot parents *)

Lemma group_snaps table f st : st_snaps (group_store now table f st) = st_snaps st.
Proof.
  unfold group_store. rewrite (foldl_keep st_snaps (λ row st, commit_snapshot_segment now (seg_uuid row) st)) by done.
  rewrite (foldl_keep st_snaps (λ row st, update_snapshot_segment_size (seg_uuid row) (size_bytes row) st)) by done. cbn.
  by rewrite (foldl_keep st_snaps (λ row st, insert_snapshot_segment table (seg_uuid row) (step_snap_uuid f) (spec_chunk_idx row) (file_data_uri f)
    (spec_offset row) (spec_length row) (statistics row) st)).
Qed.

Lemma jobs_snaps js st : st_snaps (run_jobs S0 js st) = st_snaps st.
Proof. apply (foldl_keep st_snaps (λ j st, job_store S0 j st)). intros j st'. unfold job_store. by destruct (build_segment_index _). Qed.

Lemma body_snaps steps st : st_snaps (body_store now ctx prior steps st) = st_snaps st.
Proof.
  assert (st_snaps (declare_store now ctx st) = st_snaps st) as Hd.
  { unfold declare_store. cbn. destruct (c_name_index ctx); cbn;
      by rewrite (foldl_keep st_snaps (λ i st, insert_table_snapshot_index (table_snapshot_index_uuid S0 (Some (ui_uuid i))) S0
      (Some (ui_uuid i)) (Some (ui_columns i)) st)). }
  assert (∀ st, st_snaps (steps_store now ctx steps st) = st_snaps st) as Hs.
  { intros st'. apply (foldl_keep st_snaps (λ step st, step_store now ctx step st)). intros [f|specs] x; [|done]. cbn. by rewrite jobs_snaps, group_snaps. }
  assert (∀ specs st, st_snaps (carried_store now ctx prior specs st) = st_snaps st) as Hc.
  { intros specs st'. unfold carried_store. destruct specs as [|sp specs'] eqn:E; [done|]. rewrite <- E. cbn.
    unfold materialized, carry_indexes.
    rewrite (foldl_keep st_snaps (λ index st, insert_carried_segment_indexes (table_snapshot_index_uuid S0 (Some (ui_uuid index))) _ _ st)) by done.
    rewrite jobs_snaps. cbn. unfold insert_carried_snapshot_segments. by destruct specs. }
  assert (st_snaps (placeholder_store now ctx steps (carried_store now ctx prior (concat (step_carried <$> steps))
    (steps_store now ctx steps (declare_store now ctx st)))) = st_snaps st) as Hp.
  { unfold placeholder_store. destruct (existsb _ _); [by rewrite Hc, Hs, Hd|]. destruct (concat _); [by rewrite group_snaps, Hc, Hs, Hd|by rewrite Hc, Hs, Hd]. }
  unfold body_store. by destruct (concat (step_built <$> steps)).
Qed.

End uris.

(** ** One cycle, from store to store

    The write tail's two outcomes in terms of the store, and the state a
    fault-free cycle starts from and ends in. *)

#[local] Instance newer_total : Total newer.
Proof. intros x y. unfold newer. lia. Qed.

#[local] Instance newer_trans : Transitive newer.
Proof. intros x y z. unfold newer. lia. Qed.

Section step.
Context `{UuidText} {K : ArrowKernels} {N : SegmentNaming} {C : StatsCodec} {I : IndexNaming} {X : IndexCell} (now : Z).
Context {NL : NamingLaws N I}.

(** The world after [k] reads. *)
Definition start_at (k : nat) (st : srow_store) : world :=
  {| w_store := st; w_tick := k; segment_groups := []; carried_specs := []; built_index_seg_uuids := []; built_index_uris := [] |}.

Definition opened (ctx : SnapshotWriteCtx) (st : srow_store) : srow_store :=
  insert_snapshot_metadata (c_snap ctx) (c_table ctx) (c_at ctx) (c_partition_keys ctx) (c_clustering_keys ctx) (c_seq ctx) (c_durable ctx) st.

(** What a write for [ctx] starts from. *)
Record write_start (ctx : SnapshotWriteCtx) (prior : gmap Z planned_segment) (segs : list PriorSegment) (steps : list (PackStep srow))
    (st0 : srow_store) (n : nat) (cap : Z) : Prop := {
  ws_ok : write_ok ctx steps st0 n;
  ws_clear : refs_clear (c_snap ctx) st0;
  ws_parent : ∀ r, st_snaps st0 !! c_snap ctx = Some r → sn_table r = c_table ctx ∧ sn_commit r = None;
  ws_indexes : NoDup (ui_uuid <$> row_indexes ctx);
  ws_shape : Forall (step_shape (snapshot_read_schema (c_user_schema ctx)) (c_snap ctx) cap) steps;
  ws_base : base_uris prior;
  ws_carried : ∀ sp, sp ∈ all_carried steps → ∃ seg old ch,
    filter (λ seg, prior_uuid seg = prior_seg_uuid sp) segs = [seg] ∧ sourced (c_snap ctx) st0 seg old ch;
}.

Section outcome.
Context (ctx : SnapshotWriteCtx) (prior : gmap Z planned_segment) (segs : list PriorSegment) (steps : list (PackStep srow)).
Context (st0 : srow_store) (n : nat) (cap : Z) (Hws : write_start ctx prior segs steps st0 n cap).

Notation S0 := (c_snap ctx).
Notation fin := (body_store now ctx prior steps (opened ctx st0)).
Notation final := (commit_snapshot_metadata now S0 fin).

Lemma opened_ok : write_ok ctx steps (opened ctx st0) n.
Proof using Hws. destruct Hws as [[W1 W2 [M1 M2 M3] W4 W5] _ _ _ _ _ _]. by split. Qed.

Lemma opened_sourced seg old ch : sourced S0 st0 seg old ch → sourced S0 (opened ctx st0) seg old ch.
Proof. intros [? ? ? ? ? ? ? ? ? ?]. by split. Qed.

Lemma start_uncommitted : uncommitted S0 st0.
Proof using Hws. intros r Hr. by apply (ws_parent _ _ _ _ _ _ _ Hws). Qed.

Lemma start_at_kept k : kept S0 st0 (start_at k st0).
Proof using Hws.
  pose proof (wk_names _ _ _ _ (ws_ok _ _ _ _ _ _ _ Hws)). pose proof start_uncommitted. split; [split; [done|by split]|by split].
Qed.

Lemma finish_outcome faults conc failed k :
  let run := finish_snapshot_write faults now ctx conc steps failed prior (start_at k st0) in
  (kept S0 st0 run.1 ∧ ∀ a, run.2 ≠ Returns a) ∨
  (w_store run.1 = final ∧ good S0 st0 fin ∧ failed = None ∧ (run.2 = Returns (c_at ctx) ∨ ∃ e, run.2 = Raises e)).
Proof using Hws NL.
  cbv zeta. destruct (finish_cases S0 st0 faults now ctx conc steps failed prior (start_at k st0) eq_refl (wk_named _ _ _ _ (ws_ok _ _ _ _ _ _ _ Hws))
    (start_at_kept k)) as [?|(w1 & w2 & E1 & E2 & [Hg _] & E3 & E4)]; [by left|]. right.
  pose proof (ok_exec faults _ _ _ _ E1) as [S1 B1]. pose proof (ok_write_body faults now ctx conc steps failed prior w1 w2 tt) as Hb.
  destruct Hb as (S2 & Hf & _); [by apply (ws_base _ _ _ _ _ _ _ Hws)|by rewrite B1|exact E2|].
  change (w_store (start_at k st0)) with st0 in S1. change (insert_snapshot_metadata _ _ _ _ _ _ _ st0) with (opened ctx st0) in S1.
  rewrite S1 in S2. rewrite S2 in E3, Hg. by split_and!.
Qed.

(** Without faults it commits. *)
Lemma finish_goes conc k :
  indexes_known ctx →
  (c_user_indexes ctx ≠ [] → ∀ sp, sp ∈ all_carried steps → ∃ p a b, prior !! prior_seg_uuid sp = Some p ∧ pl_uri p = DataUri a b ∧
     a ≠ S0 ∧ is_Some (read_base (pl_uri p) (pl_offset p) (pl_length p) st0)) →
  (finish_snapshot_write no_fault now ctx conc steps None prior (start_at k st0)).2 = Returns (c_at ctx).
Proof using Hws NL.
  intros Hk Hp. assert (ok (exec no_fault (opened ctx)) (start_at k st0) (start_at (S k) (opened ctx st0)) tt) as H1 by done.
  destruct (body_goes now ctx prior steps (opened ctx st0) n opened_ok conc (start_at (S k) (opened ctx st0))) as (w2 & H2);
    [done|done|done|by apply (ws_base _ _ _ _ _ _ _ Hws)|done|].
  unfold finish_snapshot_write. change (exec no_fault (insert_snapshot_metadata _ _ _ _ _ _ _)) with (exec no_fault (opened ctx)).
  unfold bind at 1. unfold ok in H1. rewrite H1. unfold bind at 1, attempt. unfold ok in H2. by rewrite H2.
Qed.

(** *** A committed write *)

Context (Hgood : good S0 st0 fin).

Lemma final_parent : ∃ r, st_snaps final !! S0 = Some r ∧ sn_table r = c_table ctx ∧ sn_at r = c_at ctx ∧ sn_seq r = c_seq ctx ∧
  sn_partition_keys r = Some (c_partition_keys ctx) ∧ sn_clustering_keys r = Some (c_clustering_keys ctx) ∧ committed (sn_commit r) = true.
Proof using Hws.
  cbn. rewrite lookup_alter_eq, body_snaps. cbn. rewrite lookup_insert_eq. cbn. eexists. split; [done|].
  destruct (st_snaps st0 !! S0) as [r|] eqn:E; [|done]. by destruct (ws_parent _ _ _ _ _ _ _ Hws r E).
Qed.

Lemma final_others u : u ≠ S0 → st_snaps final !! u = st_snaps st0 !! u.
Proof. intros Hu. cbn. rewrite lookup_alter_ne, body_snaps by done. cbn. by apply lookup_insert_ne. Qed.

Lemma final_same : same_rows S0 st0 final.
Proof using Hgood. destruct Hgood as [_ Hu]. apply untouched_rows in Hu as [? ? ? ?]. by split. Qed.

Lemma final_names : names_ok final.
Proof using Hgood. destruct Hgood as [[? ? ?] _]. by split. Qed.

Lemma final_plan as_of seq pinned name r :
  pick_snapshot (c_table ctx) as_of seq pinned final = Some (S0, r) →
  let res := read_snapshot_segments_for_table (c_table ctx) as_of seq pinned name final in
  prior_segments res final = Some (new_priors segs steps) ∧ res_at res = Some (sn_at r) ∧ res_seq res = Some (sn_seq r) ∧
  res_partition_keys res = sn_partition_keys r ∧ res_clustering_keys res = sn_clustering_keys r.
Proof using Hws Hgood NL.
  apply (committed_plan now ctx prior steps (opened ctx st0) n cap opened_ok (ws_indexes _ _ _ _ _ _ _ Hws) (ws_shape _ _ _ _ _ _ _ Hws) segs).
  - intros sp Hsp. destruct (ws_carried _ _ _ _ _ _ _ Hws sp Hsp) as (seg & old & ch & Hf & Hs). exists seg, old, ch. split; [done|].
    by apply opened_sourced.
  - by destruct Hgood.
  - intros u Hu. destruct Hgood as [_ [_ _ _ _ _ U6 _]]. by apply U6.
Qed.

Lemma final_pinned name :
  let res := read_snapshot_segments_for_table (c_table ctx) None None (Some S0) name final in
  prior_segments res final = Some (new_priors segs steps) ∧ res_at res = Some (c_at ctx) ∧ res_seq res = Some (c_seq ctx) ∧
  res_partition_keys res = Some (c_partition_keys ctx) ∧ res_clustering_keys res = Some (c_clustering_keys ctx).
Proof using Hws Hgood NL.
  destruct final_parent as (r & Hr & Ht & <- & <- & <- & <- & Hc). apply final_plan. unfold pick_snapshot. rewrite Hr. by rewrite decide_True.
Qed.

Lemma final_unmoved table u name : u ≠ S0 → table_view table None None (Some u) name final = table_view table None None (Some u) name st0.
Proof using Hws Hgood NL.
  intros Hu. pose proof (wk_names _ _ _ _ (ws_ok _ _ _ _ _ _ _ Hws)) as Hn.
  apply (view_same S0 st0 final final_same Hn (ws_clear _ _ _ _ _ _ _ Hws)); unfold pick_snapshot; rewrite ?final_others by done; [done|].
  intros v r. destruct (st_snaps st0 !! u); [|done]. destruct (decide _); [|done]. by intros [= <- _].
Qed.

(** The new snapshot is the newest. *)
Lemma newest_pick :
  (∀ u r, st_snaps st0 !! u = Some r → sn_table r = c_table ctx → committed (sn_commit r) = true → sn_at r < c_at ctx) →
  ∃ r, pick_snapshot (c_table ctx) None None None final = Some (S0, r) ∧ st_snaps final !! S0 = Some r.
Proof using Hws.
  intros Hlt. destruct final_parent as (r & Hr & Ht & Ha & _ & _ & _ & Hc). exists r. split; [|done]. unfold pick_snapshot.
  set (l := filter _ (committed_snapshots (c_table ctx) final)).
  assert (∀ u x, (u, x) ∈ l ↔ st_snaps final !! u = Some x ∧ sn_table x = c_table ctx ∧ committed (sn_commit x) = true) as Hl.
  { intros u x. unfold l, committed_snapshots. rewrite list_elem_of_filter, elem_of_map_to_list, map_lookup_filter_Some. tauto. }
  assert (StronglySorted newer (merge_sort newer l)) as Hso.
  { apply StronglySorted_merge_sort; apply _. }
  assert ((S0, r) ∈ merge_sort newer l) as Hin by (rewrite merge_sort_Permutation; by apply Hl).
  destruct (merge_sort newer l) as [|[u x] rest] eqn:E; [by apply elem_of_nil in Hin|]. cbn. f_equal.
  assert ((u, x) ∈ l) as Hux by (rewrite <- (merge_sort_Permutation newer l), E; by left). apply Hl in Hux as (Hx & Hxt & Hxc).
  apply elem_of_cons in Hin as [<-|Hin]; [done|]. apply StronglySorted_inv in Hso as [_ Hf]. rewrite Forall_forall in Hf.
  specialize (Hf _ Hin). unfold newer in Hf. cbn in Hf. destruct (decide (u = S0)) as [->|Hne]; [rewrite Hr in Hx; by injection Hx as ->|].
  rewrite final_others in Hx by done. specialize (Hlt u x Hx Hxt Hxc). lia.
Qed.

End outcome.

End step.
