(* ===== verification/SnapshotHistory.v ===== *)
(** * Cycle after cycle

    The state between two snapshot cycles of a table, that a fault-free cycle
    returns and preserves it, and what a history of cycles leaves. *)

From S2P Require Import Prelude CoreTypes Watermarks MergeSql IndexSeek IndexSelect Effects Ordered Chunker BatchUtil SegmentStats Packer PackLemmas PackMerge PackStream PackTheorems PackCycle PackProps CarryForward CarryTheorems SnapshotMeta SnapshotWrite SnapshotFrame SnapshotPost SnapshotLayout SnapshotPlanned SnapshotCycle SnapshotCommit SnapshotStep.
From stdpp Require Import base numbers list option sets gmap sorting.

Open Scope Z_scope.
Open Scope effect_scope.

(** A table's snapshots at different watermarks have different names. *)
Class SnapshotNamingLaws (T : SnapshotNaming) := table_snapshot_uuid_inj : ∀ t a b, table_snapshot_uuid t a = table_snapshot_uuid t b → a = b.

Section history.
Context `{UuidText} {K : ArrowKernels} `{!ArrowKernelsLaws K} {N : SegmentNaming} {C : StatsCodec} `{!StatsCodecLaws C}.
Context {I : IndexNaming} {X : IndexCell} {T : SnapshotNaming} (now : Z).
Context {NL : NamingLaws N I} {TL : SnapshotNamingLaws T}.

(** No row knows snapshot [S]. *)
Record unborn (st : srow_store) (S : Z) : Prop := {
  ub_snap : st_snaps st !! S = None;
  ub_segs : ∀ u r, st_segs st !! u = Some r → sg_snapshot r ≠ S ∧ uri_snapshot (sg_uri r) ≠ S;
  ub_parents : ∀ u r, st_parents st !! u = Some r → ix_snapshot r ≠ S;
  ub_children : ∀ u r, st_children st !! u = Some r → ¬ own_seg S (ch_segment r) ∧ uri_snapshot (ch_uri r) ≠ S;
}.

Definition after (prev : option Z) (a : Z) : Prop := match prev with Some h => h < a | None => True end.

Definition is_data (u : file_uri) : Prop := ∃ a b, u = DataUri a b.

(** Between two cycles: the latest plan resolves to [segs], is the newest of the
    table, and nothing is left of any later snapshot. *)
Record cycle_inv (t : SnapshotTask) (st : srow_store) (segs : list PriorSegment) : Prop := {
  cy_names : names_ok st;
  cy_new : ∀ a, after (res_at (latest_plan t st)) a → unborn st (table_snapshot_uuid (k_table t) a);
  cy_top : ∀ u r, st_snaps st !! u = Some r → sn_table r = k_table t → committed (sn_commit r) = true →
    ∃ h, res_at (latest_plan t st) = Some h ∧ sn_at r ≤ h;
  cy_data : seg_uris is_data (st_segs st);
  cy_plan : prior_segments (latest_plan t st) st = Some segs;
}.

(** The table's indexes name columns it has. *)
Record task_fits (t : SnapshotTask) : Prop := {
  tf_indexes : NoDup (ui_uuid <$> (k_user_indexes t ++ option_list (k_name_index t)));
  tf_known : Forall (index_known (snapshot_read_schema (k_user_schema t))) (k_user_indexes t ++ option_list (k_name_index t));
}.

Lemma window_after as_of persisted prev a : snapshot_window as_of persisted prev = Some a → after prev a.
Proof.
  unfold snapshot_window, after. destruct prev as [h|]; [|done]. cbv zeta. intros Hw.
  match type of Hw with match ?u with _ => _ end = _ => destruct u as [z|]; [|done] end. destruct (Z.leb_spec z h); [done|]. by injection Hw as <-.
Qed.

Lemma unborn_clear st S : unborn st S → refs_clear S st ∧ uncommitted S st.
Proof.
  intros [U1 U2 U3 U4]. split; [split|].
  - intros u r Hr _. by apply (U2 u r).
  - intros u r Hr _. by apply (U4 u r).
  - intros r Hr. by rewrite U1 in Hr.
Qed.

(** ** The prior segments of the latest plan *)

Lemma mapM_uuids st l segs : mapM (resolve_prior st) l = Some segs → prior_uuid <$> segs = pl_uuid <$> l.
Proof.
  revert segs. induction l as [|p l IH]; intros segs; [by intros [= <-]|]. simpl. intros (seg & Hs & (k & Hk & [= <-])%bind_Some)%bind_Some.
  rewrite fmap_cons, (IH k Hk). f_equal. unfold resolve_prior in Hs. destruct (read_base _ _ _ _); [|done]. by injection Hs as <-.
Qed.

Lemma plan_elem t st p :
  p ∈ res_segments (latest_plan t st) → ∃ u r q, st_snaps st !! u = Some r ∧ q ∈ snapshot_segments u st ∧ sg_row_count q.2 ≠ 0%nat ∧
    p = plan_segment (plan_parents u (ui_uuid <$> k_name_index t) st) st q.
Proof.
  unfold latest_plan, read_snapshot_segments_for_table. destruct (pick_snapshot _ _ _ _ _) as [[u r]|] eqn:Ep; [|by intros ?%elem_of_nil].
  assert (st_snaps st !! u = Some r) as Hu.
  { unfold pick_snapshot in Ep. apply head_Some_elem_of in Ep. rewrite merge_sort_Permutation in Ep. apply list_elem_of_filter in Ep as [_ Ep].
    unfold committed_snapshots in Ep. apply elem_of_map_to_list, map_lookup_filter_Some in Ep as [Ep _]. done. }
  destruct (snapshot_segments u st) as [|q0 rows] eqn:Es; [by intros ?%elem_of_nil|]. rewrite <- Es. cbn [res_segments].
  intros (q & -> & [Hq Hin]%list_elem_of_filter)%list_elem_of_fmap. by exists u, r, q.
Qed.

Section one.
Context (t : SnapshotTask) (st : srow_store) (segs : list PriorSegment) (pidx : list nat) (a : Z).
Context (Hinv : cycle_inv t st segs) (Hprior : prior_ok (k_user_schema t) (k_partition_keys t) pidx segs).
Context (Hafter : after (res_at (latest_plan t st)) a).

Notation S0 := (table_snapshot_uuid (k_table t) a).

Lemma here_unborn : unborn st S0.
Proof using Hinv Hafter. by apply (cy_new _ _ _ Hinv). Qed.

Lemma segment_planned seg : seg ∈ segs → ∃ p, p ∈ res_segments (latest_plan t st) ∧ resolve_prior st p = Some seg.
Proof using Hinv.
  intros Hs. pose proof (cy_plan _ _ _ Hinv) as Hp. unfold prior_segments in Hp. apply mapM_Some in Hp.
  apply list_elem_of_lookup in Hs as [i Hi]. destruct (Forall2_lookup_r _ _ _ _ _ Hp Hi) as (p & Hl & Hr).
  exists p. split; [by apply list_elem_of_lookup_2 in Hl|done].
Qed.

Lemma segment_sourced seg : seg ∈ segs → ∃ old ch, sourced S0 st seg old ch.
Proof using Hinv Hprior Hafter NL.
  intros Hs. destruct (segment_planned seg Hs) as (p & Hp & Hres). destruct (plan_elem t st p Hp) as (u & r & q & Hu & Hq & Hc & ->).
  destruct Hprior as [Hsegs _ _]. rewrite Forall_forall in Hsegs. destruct (Hsegs seg Hs) as [_ _ _ _ (sc & Hsc & _)].
  apply (plan_sourced S0 st u (ui_uuid <$> k_name_index t) q seg sc); [by apply (cy_names _ _ _ Hinv)| | |done|done|done|done].
  - by apply unborn_clear, here_unborn.
  - intros ->. by rewrite (ub_snap _ _ here_unborn) in Hu.
Qed.

Lemma planned_data p : p ∈ res_segments (latest_plan t st) → is_data (pl_uri p).
Proof using Hinv.
  intros (u & r & q & _ & (Hrow & _)%elem_segments & _ & ->)%plan_elem.
  destruct (plan_segment_fields st (plan_parents u (ui_uuid <$> k_name_index t) st) q) as (_ & _ & -> & _). by apply (cy_data _ _ _ Hinv q.1).
Qed.

Lemma prior_base : base_uris (prior_by_uuid (k_user_indexes t) (latest_plan t st)).
Proof using Hinv.
  intros u p Hp. unfold prior_by_uuid in Hp. destruct (k_user_indexes t); [done|].
  apply elem_of_list_to_map_2, list_elem_of_fmap in Hp as (p' & [= -> ->] & Hp). by apply planned_data.
Qed.

(** What an index build finds for a carried segment. *)
Lemma prior_found seg :
  seg ∈ segs → k_user_indexes t ≠ [] →
  ∃ p x y, prior_by_uuid (k_user_indexes t) (latest_plan t st) !! prior_uuid seg = Some p ∧ pl_uri p = DataUri x y ∧ x ≠ S0 ∧
    is_Some (read_base (pl_uri p) (pl_offset p) (pl_length p) st).
Proof using Hinv Hprior Hafter NL.
  intros Hs Hne. destruct (segment_planned seg Hs) as (p & Hp & Hres). destruct (planned_data p Hp) as (x & y & Hu).
  destruct (segment_sourced seg Hs) as (old & ch & Hsrc). exists p, x, y.
  assert (pl_uuid p = prior_uuid seg ∧ is_Some (read_base (pl_uri p) (pl_offset p) (pl_length p) st)) as [Hpu Hrd].
  { unfold resolve_prior in Hres. destruct (read_base _ _ _ _); [|done]. by injection Hres as <-. }
  split_and!; [|done| |done].
  - unfold prior_by_uuid. destruct (k_user_indexes t); [done|]. apply elem_of_list_to_map_1.
    + rewrite <- list_fmap_compose. change (fst ∘ λ p0 : planned_segment, (pl_uuid p0, p0)) with pl_uuid.
      rewrite <- (mapM_uuids st _ segs (cy_plan _ _ _ Hinv)). by apply (pr_uuids _ _ _ _ Hprior).
    + rewrite <- Hpu. by apply (list_elem_of_fmap_2 (λ p : planned_segment, (pl_uuid p, p))).
  - destruct (plan_elem t st p Hp) as (u & r & q & _ & (Hrow & _)%elem_segments & _ & ->).
    destruct (plan_segment_fields st (plan_parents u (ui_uuid <$> k_name_index t) st) q) as (_ & _ & Fu & _). rewrite Fu in Hu.
    pose proof (ub_segs _ _ here_unborn q.1 q.2 Hrow) as [_ Hx]. rewrite Hu in Hx. exact Hx.
Qed.

(** ** One cycle *)

Context (log : cold_log) (sidx didx : list nat) (ds : schema).

Notation i := (cycle_input t log (latest_plan t st) a segs).

Context (Hfit : task_fits t) (Hwin : window_ok (k_user_schema t) (k_partition_keys t) pidx i didx ds).

Lemma cycle_start seq durable steps n :
  packs (k_user_schema t) (k_partition_keys t) pidx i steps → concat (step_idxs <$> steps) = List.seq 0 n →
  write_start (cycle_ctx t a seq durable) (prior_by_uuid (k_user_indexes t) (latest_plan t st)) segs steps st n (k_max_segment_bytes t).
Proof using Hinv Hprior Hafter Hfit NL.
  intros Hp Hn. pose proof Hp as (_ & _ & _ & Hsh & _). destruct (unborn_clear _ _ here_unborn) as [Hcl _].
  assert (∀ sp, sp ∈ all_carried steps → ∃ seg old ch, filter (λ seg, prior_uuid seg = prior_seg_uuid sp) segs = [seg] ∧ sourced S0 st seg old ch ∧
    prior_uuid seg = prior_seg_uuid sp) as Hcar.
  { intros sp Hsp. pose proof (carried_known _ _ _ i steps Hp sp Hsp) as Hk.
    destruct (filter_unique segs _ (pr_uuids _ _ _ _ Hprior) Hk) as (seg & Hs & Hu & Hf). destruct (segment_sourced seg Hs) as (old & ch & Hsrc).
    by exists seg, old, ch. }
  split; [split| | | | | |].
  - exact (shapes_named _ _ _ _ Hsh).
  - done.
  - by apply (cy_names _ _ _ Hinv).
  - intros sp Hsp. destruct (Hcar sp Hsp) as (seg & old & ch & _ & Hsrc & <-). exists old. split; [by apply (so_row _ _ _ _ _ Hsrc)|by apply (so_other _ _ _ _ _ Hsrc)].
  - intros u r Hr Hs. exfalso. by destruct (ub_segs _ _ here_unborn u r Hr).
  - done.
  - intros r Hr. cbn in Hr. by rewrite (ub_snap _ _ here_unborn) in Hr.
  - by apply (tf_indexes _ Hfit).
  - done.
  - apply prior_base.
  - intros sp Hsp. destruct (Hcar sp Hsp) as (seg & old & ch & Hf & Hsrc & _). by exists seg, old, ch.
Qed.

(** The state after the commit. *)
Lemma cycle_inv_next seq durable steps n :
  let ctx := cycle_ctx t a seq durable in
  let prior := prior_by_uuid (k_user_indexes t) (latest_plan t st) in
  let final := commit_snapshot_metadata now S0 (body_store now ctx prior steps (opened ctx st)) in
  write_start ctx prior segs steps st n (k_max_segment_bytes t) → good S0 st (body_store now ctx prior steps (opened ctx st)) →
  cycle_inv t final (new_priors segs steps) ∧ res_at (latest_plan t final) = Some a.
Proof using Hinv Hafter NL TL.
  intros ctx prior final Hws Hg.
  destruct (newest_pick now ctx prior segs steps st n (k_max_segment_bytes t) Hws) as (r & Hpick & Hr).
  { intros u r Hu Ht Hc. destruct (cy_top _ _ _ Hinv u r Hu Ht Hc) as (h & Hh & Hle). unfold after in Hafter. rewrite Hh in Hafter. cbn. lia. }
  destruct (final_parent now ctx prior segs steps st n (k_max_segment_bytes t) Hws) as (r' & Hr' & Ht & Ha & _ & _ & _ & Hc).
  change (st_snaps final !! S0 = Some r) in Hr. change (st_snaps final !! S0 = Some r') in Hr'. rewrite Hr in Hr'. injection Hr' as <-.
  destruct (final_plan now ctx prior segs steps st n (k_max_segment_bytes t) Hws Hg None None None (ui_uuid <$> k_name_index t) r Hpick) as (Hpl & Hat & _).
  change (read_snapshot_segments_for_table (c_table ctx) None None None (ui_uuid <$> k_name_index t) _) with (latest_plan t final) in Hpl, Hat.
  assert (res_at (latest_plan t final) = Some a) as Hres by (by rewrite Hat, Ha). split; [|done].
  assert (∀ b, a < b → after (res_at (latest_plan t st)) b) as Hlater.
  { intros b Hb. unfold after in *. destruct (res_at (latest_plan t st)); [lia|done]. }
  pose proof (wk_named _ _ _ _ (ws_ok _ _ _ _ _ _ _ Hws)) as Hnamed.
  split; [exact (final_names now ctx prior steps st Hg)| | | |done].
  - intros b Hb. rewrite Hres in Hb. cbn in Hb. destruct (cy_new _ _ _ Hinv b (Hlater b Hb)) as [U1 U2 U3 U4].
    assert (table_snapshot_uuid (k_table t) b ≠ S0) as Hne by (intros E%table_snapshot_uuid_inj; lia).
    destruct (final_same now ctx prior steps st Hg) as [R1 R2 R3 R4]. split.
    + etrans; [exact (final_others now ctx prior steps st _ Hne)|done].
    + intros u x Hx. split.
      * intros E. destruct (decide (sg_snapshot x = S0)) as [E'|E']; [by rewrite E' in E; symmetry in E|].
        apply (R1 u x E') in Hx. by destruct (U2 u x Hx).
      * apply (body_seg_uris now ctx prior (λ v, uri_snapshot v ≠ table_snapshot_uuid (k_table t) b)) with (steps := steps) (st := opened ctx st) (u := u); [cbn; congruence|done| |done].
        intros v y Hy. by destruct (U2 v y Hy).
    + intros u x Hx E. destruct (decide (ix_snapshot x = S0)) as [E'|E']; [by rewrite E' in E; symmetry in E|]. apply (R2 u x E') in Hx. by apply (U3 u x Hx).
    + intros u x Hx. split.
      * intros Ho. assert (¬ own_seg S0 (ch_segment x)) as Hn.
        { intros [j Hj]. destruct Ho as [j' Hj']. rewrite Hj in Hj'. apply segment_uuid_inj in Hj' as [E _]. by symmetry in E. }
        apply (R3 u x Hn) in Hx. by destruct (U4 u x Hx).
      * apply (body_child_uris now ctx prior (λ v, uri_snapshot v ≠ table_snapshot_uuid (k_table t) b)) with (steps := steps) (st := opened ctx st) (u := u); [cbn; congruence| |done].
        intros v y Hy. by destruct (U4 v y Hy).
  - intros u x Hx Htx Hcx. exists a. split; [done|]. destruct (decide (u = S0)) as [->|Hu].
    + rewrite Hr in Hx. injection Hx as <-. rewrite Ha. cbn. lia.
    + pose proof (eq_trans (eq_sym (final_others now ctx prior steps st u Hu)) Hx) as Hx0. destruct (cy_top _ _ _ Hinv u x Hx0 Htx Hcx) as (h & Hh & Hle).
      unfold after in Hafter. rewrite Hh in Hafter. lia.
  - apply (body_seg_uris now ctx prior is_data); [intros seg; by eexists _, _|done|exact (cy_data _ _ _ Hinv)].
Qed.

(** A fault-free cycle returns the window's upper bound and leaves the packed
    snapshot as the latest plan. *)
Lemma cycle_goes yielded :
  snapshot_window (k_as_of t) (persist_watermark log) (res_at (latest_plan t st)) = Some a →
  table_ok (k_user_schema t) i sidx pidx didx ds →
  ∃ w steps, snapshot_cycle no_fault now yielded t log (start st) = (w, Returns (Some a)) ∧
    packs (k_user_schema t) (k_partition_keys t) pidx i steps ∧
    cycle_inv t (w_store w) (new_priors segs steps) ∧ res_at (latest_plan t (w_store w)) = Some a.
Proof using ArrowKernelsLaws0 StatsCodecLaws0 Hinv Hprior Hafter Hfit Hwin NL TL.
  intros Hw Htab. destruct (snapshot_packs (k_user_schema t) i sidx pidx didx ds Htab Hprior Hwin) as (steps & Hs & Hp).
  pose proof Hp as (_ & _ & [n Hn] & _).
  assert (pack_steps (k_user_schema t) i = Ok (Ok steps)) as Hps.
  { rewrite pack_steps_flat in Hs. destruct (pack_steps _ _) as [r|e]; [|done]. cbn in Hs. by rewrite Hs. }
  set (seq := compute_snapshot_seq_watermark (res_seq (latest_plan t st)) (option_list (max_persisted_segment_seq log (res_at (latest_plan t st)) a))).
  set (durable := decide_durable (last_durable_snapshot_at (k_table t) st) a (k_density t)).
  pose proof (cycle_start seq durable steps n Hp Hn) as Hws. set (ctx := cycle_ctx t a seq durable) in *.
  set (prior := prior_by_uuid (k_user_indexes t) (latest_plan t st)) in *.
  set (run := finish_snapshot_write no_fault now ctx (k_concurrency t) steps None prior (start_at 5 st)).
  assert (run.2 = Returns a) as Hret.
  { apply (finish_goes now ctx prior segs steps st n (k_max_segment_bytes t) Hws (k_concurrency t) 5); [exact (tf_known _ Hfit)|].
    intros Hne sp Hsp. pose proof (carried_known _ _ _ i steps Hp sp Hsp) as Hk. apply list_elem_of_fmap in Hk as (seg & -> & Hk). by apply prior_found. }
  destruct (finish_outcome now ctx prior segs steps st n (k_max_segment_bytes t) Hws no_fault (k_concurrency t) None 5) as [[_ Hbad]|(Hst & Hg & _)].
  { by apply Hbad in Hret. }
  fold run in Hst. exists run.1, steps. split; [|split; [done|]].
  - unfold snapshot_cycle, bind, fetch, no_fault. unfold start, tick.
    cbn [w_store w_tick segment_groups carried_specs built_index_seg_uuids built_index_uris]. rewrite Hw.
    cbn [w_store w_tick segment_groups carried_specs built_index_seg_uuids built_index_uris].
    rewrite (cy_plan _ _ _ Hinv), Hps. fold seq durable. fold ctx prior. fold (start_at 5 st). fold no_fault. fold run.
    destruct run as [w [x|e|]]; cbn in Hret; [|done|done]. by injection Hret as ->.
  - rewrite Hst. by apply (cycle_inv_next seq durable steps n).
Qed.

End one.

(** ** Histories *)

(** The rows after a window: those it did not exclude, and its resolved rows. *)
Definition window_rows (log : cold_log) (prev : option Z) (a : Z) (rows : list srow) : list srow :=
  filter (λ r : srow, r.1 ∉ exclusion_set log prev a) rows ++ resolved_delta log prev a.

Fixpoint history_rows (t : SnapshotTask) (prev : option Z) (rows : list srow) (logs : list cold_log) : list srow :=
  match logs with
  | [] => rows
  | log :: rest =>
      match snapshot_window (k_as_of t) (persist_watermark log) prev with
      | Some a => history_rows t (Some a) (window_rows log prev a rows) rest
      | None => rows
      end
  end.

Fixpoint snapshot_cycles (t : SnapshotTask) (logs : list cold_log) (st : srow_store) : option srow_store :=
  match logs with
  | [] => Some st
  | log :: rest =>
      match snapshot_cycle no_fault now [] t log (start st) with
      | (w, Returns (Some _)) => snapshot_cycles t rest (w_store w)
      | _ => None
      end
  end.

(** A window over a table that holds [rows]. *)
Definition rows_segment (rows : list srow) : PriorSegment :=
  {| prior_uuid := 0; prior_seg_rows := rows; prior_statistics := []; prior_sidecar := None |}.

Definition window_input (t : SnapshotTask) (log : cold_log) (prev : option Z) (a : Z) (rows : list srow) : SnapshotInput :=
  cycle_input t log {| res_at := prev; res_seq := None; res_segments := []; res_indexes := []; res_partition_keys := None;
                       res_clustering_keys := None |} a [rows_segment rows].

(** Every window of the history advances the watermark and fits the rows before it. *)
Fixpoint history_fits (t : SnapshotTask) (sidx pidx didx : list nat) (ds : schema) (prev : option Z) (rows : list srow) (logs : list cold_log) :
    Prop :=
  match logs with
  | [] => True
  | log :: rest =>
      ∃ a, snapshot_window (k_as_of t) (persist_watermark log) prev = Some a ∧
        table_ok (k_user_schema t) (window_input t log prev a rows) sidx pidx didx ds ∧
        window_ok (k_user_schema t) (k_partition_keys t) pidx (window_input t log prev a rows) didx ds ∧
        history_fits t sidx pidx didx ds (Some a) (window_rows log prev a rows) rest
  end.

Lemma window_ok_rows t log res a segs rows pidx didx ds :
  all_rows segs ≡ₚ rows → window_ok (k_user_schema t) (k_partition_keys t) pidx (window_input t log (res_at res) a rows) didx ds →
  window_ok (k_user_schema t) (k_partition_keys t) pidx (cycle_input t log res a segs) didx ds.
Proof.
  intros Hr [W1 W2 W3 W4]. unfold window_input in *. cbn in *. unfold all_rows in W2, W4. cbn in W2, W4. rewrite app_nil_r in W2, W4. split; cbn; [done| |done|].
  - eapply label_exact_sub; [exact W2|]. intros r. rewrite !elem_of_app. rewrite Hr. done.
  - intros Hs r Hin. apply W4; [done|]. by rewrite <- Hr.
Qed.

Lemma cycles_go t sidx pidx didx ds logs : ∀ st segs rows,
  task_fits t → cycle_inv t st segs → prior_ok (k_user_schema t) (k_partition_keys t) pidx segs → all_rows segs ≡ₚ rows →
  history_fits t sidx pidx didx ds (res_at (latest_plan t st)) rows logs →
  ∃ st' segs', snapshot_cycles t logs st = Some st' ∧ cycle_inv t st' segs' ∧
    prior_ok (k_user_schema t) (k_partition_keys t) pidx segs' ∧
    all_rows segs' ≡ₚ history_rows t (res_at (latest_plan t st)) rows logs.
Proof using ArrowKernelsLaws0 StatsCodecLaws0 NL TL.
  induction logs as [|log logs IH]; intros st segs rows Hfit Hinv Hprior Hrows Hh; [by exists st, segs|].
  destruct Hh as (a & Hw & [T1 T2 T3 T4 T5] & Hwin & Hh). cbn [history_rows snapshot_cycles]. rewrite Hw.
  pose proof (window_ok_rows t log (latest_plan t st) a segs rows pidx didx ds Hrows Hwin) as Hwin'.
  destruct (cycle_goes t st segs pidx a Hinv Hprior (window_after _ _ _ _ Hw) log sidx didx ds Hfit Hwin' [] Hw) as (w & steps & Hc & Hp & Hinv' & Hat).
  { by split. }
  rewrite Hc, <- Hat. apply (IH (w_store w) (new_priors segs steps)); [done|done| | |by rewrite Hat].
  - exact (new_prior_ok (k_user_schema t) (k_partition_keys t) pidx (cycle_input t log (latest_plan t st) a segs) didx ds steps Hprior Hwin' Hp).
  - rewrite all_rows_new. pose proof (proj1 Hp) as Hperm. cbn in Hperm. rewrite Hperm. unfold window_rows. by rewrite Hrows.
Qed.

End history.
