(* ===== verification/SnapshotTheorems.v ===== *)
(** * Theorems of the snapshot write path *)

From S2P Require Import Prelude CoreTypes Watermarks MergeSql IndexSeek IndexSelect Effects Ordered Chunker BatchUtil SegmentStats Packer PackLemmas PackMerge PackStream PackTheorems PackCycle PackProps CarryForward CarryTheorems SnapshotMeta SnapshotWrite SnapshotFrame SnapshotPost SnapshotLayout SnapshotPlanned SnapshotCycle SnapshotCommit SnapshotStep SnapshotHistory.
From stdpp Require Import base numbers list option sets gmap sorting.

Open Scope Z_scope.
Open Scope effect_scope.

(** ** Retirement *)

Section retire.
Context {NS : SegmentNaming} (now : Z) (table : Z) (st : srow_store) (latest : Z) (lr : snapshot_row).
Context (Hpick : pick_snapshot table None None None st = Some (latest, lr)) (Hsegs : snapshot_segments latest st ≠ []).

Definition retired_store (uuids : list Z) (uris : list file_uri) (st : srow_store) : srow_store :=
  let sidecar_uris := (λ p : Z * child_row, ch_uri p.2) <$> list_segment_index_metadata uuids st in
  enqueue_delete_set now (remove_dups sidecar_uris)
    (enqueue_delete_set now (remove_dups uris)
      (delete_orphaned_table_snapshot_index_rows
        (delete_orphaned_snapshot_metadata table
          (delete_snapshot_segments_by_uuids uuids
            (delete_segment_index_metadata_for_segments uuids st))))).

Lemma filter_true {A} (l : list A) : filter (λ _ : A, true = true ∧ true = true) l = l.
Proof. induction l as [|x l IH]; [done|]. by rewrite filter_cons_True, IH. Qed.

Lemma latest_head : head (merge_sort newer (committed_snapshots table st)) = Some (latest, lr).
Proof using Hpick. revert Hpick. unfold pick_snapshot. cbn. by rewrite filter_true. Qed.

Lemma latest_row : st_snaps st !! latest = Some lr ∧ sn_table lr = table ∧ committed (sn_commit lr) = true.
Proof using Hpick.
  pose proof latest_head as Hh. apply head_Some_elem_of in Hh. rewrite merge_sort_Permutation in Hh. unfold committed_snapshots in Hh.
  apply elem_of_map_to_list, map_lookup_filter_Some in Hh as [? []]. done.
Qed.

Lemma retired_elem u v :
  (u, v) ∈ get_retired_snapshot_segments table st ↔
  ∃ r, st_segs st !! u = Some r ∧ v = sg_uri r ∧ sg_snapshot r ≠ latest ∧ sg_snapshot r ∈ (committed_snapshots table st).*1.
Proof using Hpick.
  unfold get_retired_snapshot_segments. rewrite latest_head. rewrite list_elem_of_fmap. split.
  - intros ([u' r] & [= -> ->] & Hin). apply elem_of_map_to_list, map_lookup_filter_Some in Hin as [? []]. by exists r.
  - intros (r & Hr & -> & Hn & Hin). exists (u, r). split; [done|]. apply elem_of_map_to_list, map_lookup_filter_Some. done.
Qed.

(** The latest snapshot keeps its parent and its rows. *)
Section dropped.
Context (uuids : list Z) (Huu : ∀ u r, st_segs st !! u = Some r →
  u ∈ uuids ↔ sg_snapshot r ≠ latest ∧ sg_snapshot r ∈ (committed_snapshots table st).*1).
Context (st' : srow_store).
Context (E1 : st_segs st' = filter (λ p : Z * segment_row, p.1 ∉ uuids) (st_segs st)).
Context (E2 : st_children st' = filter (λ p : Z * child_row, ch_segment p.2 ∉ uuids) (st_children st)).
Context (E3 : st_snaps st' = filter (λ p : Z * snapshot_row,
    ¬ (sn_table p.2 = table ∧ ¬ Exists (λ q : Z * segment_row, sg_snapshot q.2 = p.1) (map_to_list (st_segs st')))) (st_snaps st)).
Context (E4 : ∀ u r, is_Some (st_snaps st' !! ix_snapshot r) → st_parents st' !! u = Some r ↔ st_parents st !! u = Some r).
Context (E5 : st_files st' = st_files st).

Lemma kept_segments : snapshot_segments latest st' = snapshot_segments latest st.
Proof using E1 Huu.
  unfold snapshot_segments. do 2 f_equal. apply filter_same. intros u r [Hs _]. cbn in Hs. rewrite E1, map_lookup_filter_Some. cbn. split; [by intros []|].
  intros Hr. split; [done|]. by intros [? _]%(Huu u r Hr).
Qed.

Lemma kept_parent : st_snaps st' !! latest = Some lr.
Proof using E1 E3 Huu Hpick Hsegs.
  rewrite E3. apply map_lookup_filter_Some. split; [by apply latest_row|]. intros [_ Hn]. cbn in Hn. apply Hn.
  destruct (snapshot_segments latest st) as [|p l] eqn:E; [done|]. assert (p ∈ snapshot_segments latest st') as Hp by (rewrite kept_segments, E; by left).
  unfold snapshot_segments in Hp. rewrite merge_sort_Permutation in Hp. destruct p as [u r].
  apply elem_of_map_to_list, map_lookup_filter_Some in Hp as [Hp [Hs _]]. apply Exists_exists. exists (u, r).
  by rewrite elem_of_map_to_list.
Qed.

Lemma kept_pick : pick_snapshot table None None None st' = Some (latest, lr).
Proof using E1 E3 Huu Hpick Hsegs.
  unfold pick_snapshot. cbn. rewrite filter_true.
  assert (committed_snapshots table st' = [(latest, lr)]) as ->; [|done]. unfold committed_snapshots.
  rewrite <- (map_to_list_singleton latest lr). f_equal. apply map_eq. intros u. apply option_eq. intros r.
  rewrite map_lookup_filter_Some, lookup_singleton_Some. cbn [fst snd]. split.
  - intros [Hu [Ht Hc]]. destruct (decide (u = latest)) as [->|Hne]; [rewrite kept_parent in Hu; by injection Hu as ->|]. exfalso.
    rewrite E3 in Hu. apply map_lookup_filter_Some in Hu as [Hu Hn]. apply Hn. split; [done|]. cbn. intros ([v x] & Hv & Hs)%Exists_exists. cbn in Hs.
    apply elem_of_map_to_list in Hv. rewrite E1 in Hv. apply map_lookup_filter_Some in Hv as [Hv Hnin]. apply Hnin. cbn. apply (Huu v x Hv).
    rewrite Hs. split; [done|]. apply (list_elem_of_fmap_2 fst _ (u, r)). unfold committed_snapshots. by apply elem_of_map_to_list, map_lookup_filter_Some.
  - intros [<- <-]. split; [apply kept_parent|]. by destruct latest_row as (_ & ? & ?).
Qed.

Lemma kept_plan_parents name : plan_parents latest name st' = plan_parents latest name st.
Proof using E1 E3 E4 Huu Hpick Hsegs.
  unfold plan_parents. do 2 f_equal. apply filter_same. intros u r [Hs _]. cbn in Hs. apply E4. rewrite Hs, kept_parent. by eexists.
Qed.

Lemma kept_child parent seg : seg ∉ uuids → plan_child parent seg st' = plan_child parent seg st.
Proof using E2.
  intros Hn. unfold plan_child. do 3 f_equal. apply filter_same. intros u r (_ & Hs & _). cbn in Hs. rewrite E2, map_lookup_filter_Some. cbn.
  split; [by intros []|]. intros Hr. by rewrite Hs.
Qed.

Lemma kept_planned name p : p ∈ snapshot_segments latest st →
  plan_segment (plan_parents latest name st') st' p = plan_segment (plan_parents latest name st) st p.
Proof using E1 E2 E3 E4 Huu Hpick Hsegs.
  intros (Hr & Hs & _)%elem_segments. rewrite kept_plan_parents. assert (p.1 ∉ uuids) as Hn by (by intros [? _]%(Huu _ _ Hr)). unfold plan_segment.
  assert (∀ parents base, foldl (λ acc (q : Z * parent_row), attach_parent_row acc (ix_index q.2) (plan_child q.1 p.1 st')) base parents =
    foldl (λ acc (q : Z * parent_row), attach_parent_row acc (ix_index q.2) (plan_child q.1 p.1 st)) base parents) as Hf; [|by rewrite Hf].
  induction parents as [|q parents IH]; intros base; [done|]. cbn [foldl]. by rewrite (kept_child _ _ Hn), IH.
Qed.

Lemma kept_view name : table_view table None None None name st' = table_view table None None None name st.
Proof using E1 E2 E3 E4 E5 Huu Hpick Hsegs.
  assert (read_snapshot_segments_for_table table None None None name st' = read_snapshot_segments_for_table table None None None name st) as Heq.
  { unfold read_snapshot_segments_for_table. rewrite kept_pick, Hpick, kept_segments.
    assert (∀ l : list (Z * segment_row), (∀ p, p ∈ l → p ∈ snapshot_segments latest st) → plan_segment (plan_parents latest name st') st' <$> l =
      plan_segment (plan_parents latest name st) st <$> l) as Hl.
    { intros l Hl. apply list_fmap_ext. intros k p Hp. apply kept_planned, Hl. by apply list_elem_of_lookup_2 in Hp. }
    pose proof (kept_plan_parents name) as Hpp. destruct (snapshot_segments latest st) as [|q rows] eqn:Eq; [done|].
    rewrite (Hl (filter _ _)) by (intros p Hp; by apply list_elem_of_filter in Hp as [_ ?]). by rewrite Hpp. }
  unfold table_view. rewrite Heq. f_equal. apply list_fmap_ext. intros k p _. unfold resolve_planned, read_base, read_sidecar. by rewrite E5.
Qed.

End dropped.

(** What a run leaves: nothing done, the orphaned parents of an idle run, or all of
    it. *)
Lemma retire_cases faults :
  let run := retire_snapshots_except_latest faults now table (start st) in
  let st' := w_store run.1 in
  let retired := get_retired_snapshot_segments table st in
  (st' = st ∧ (run.2 = Returns tt → False)) ∨
  (retired = [] ∧ (st' = delete_orphaned_snapshot_metadata table st ∨
                   st' = delete_orphaned_table_snapshot_index_rows (delete_orphaned_snapshot_metadata table st))) ∨
  st' = retired_store (fst <$> retired) (snd <$> retired) st.
Proof.
  cbv zeta. unfold retire_snapshots_except_latest, bind, fetch, exec, exec_checked, start, tick, set_store. cbn [w_tick w_store].
  destruct (faults 0%nat); try (left; by split). cbn [w_tick w_store].
  destruct (get_retired_snapshot_segments table st) as [|x l] eqn:E; cbn [w_tick w_store].
  - destruct (faults 1%nat); try (left; by split); cbn [w_tick w_store fst snd].
    + destruct (faults 2%nat); right; left; (split; [done|]); [by right|by left|by right|by left].
    + right; left. split; [done|]. by left.
  - destruct (faults 1%nat); try (left; by split); right; right; done.
Qed.

Lemma enqueued u uris (x : srow_store) : u ∈ uris → st_delete_set (enqueue_delete_set now uris x) !! u = Some now.
Proof.
  cbn. induction uris as [|v uris IH]; [by intros ?%elem_of_nil|]. cbn. destruct (decide (v = u)) as [->|Hne]; [by rewrite lookup_insert_eq|].
  intros [->|Hu]%elem_of_cons; [done|]. rewrite lookup_insert_ne by done. by apply IH.
Qed.

Lemma enqueue_keeps u uris (x : srow_store) : is_Some (st_delete_set x !! u) → is_Some (st_delete_set (enqueue_delete_set now uris x) !! u).
Proof.
  intros Hu. cbn. induction uris as [|v uris IH]; [done|]. cbn. destruct (decide (v = u)) as [->|Hne]; [rewrite lookup_insert_eq; by eexists|].
  by rewrite lookup_insert_ne.
Qed.

End retire.

(** ** Theorems *)

Section theorems.
Context `{UuidText} {K : ArrowKernels} {N : SegmentNaming} {C : StatsCodec} {I : IndexNaming} {X : IndexCell} {T : SnapshotNaming}.

(** C14 A snapshot write is atomic.  The write tail starts ([write_start]) from packed
    steps of the packer's shape, carried segments the store still sources, a
    parent row absent or uncommitted, and no segment row of an earlier attempt at
    this snapshot outside this packing ([stale_attempt_resurfaces] runs with one).
    Whatever effect of it is refused, loses its answer or is the process's last,
    at any point and in the cleanup too: either it did not report success and
    every plan of every table reads exactly what it read before, or its parent row
    is committed and the planning read of the new snapshot resolves to exactly the
    packed segments, each with its rows, statistics and identity sidecar (fresh
    files and carried references alike), while every other snapshot reads as
    before. *)
Theorem snapshot_write_atomic (Hn : NamingLaws N I) (faults : nat → fault) (now : Z) (ctx : SnapshotWriteCtx) (concurrency : nat)
    (prior : gmap Z planned_segment) (segs : list PriorSegment) (steps : list (PackStep srow)) (failed : option ApiError)
    (st : srow_store) (n : nat) (cap : Z)
    (Hws : write_start ctx prior segs steps st n cap) :
  let run := finish_snapshot_write faults now ctx concurrency steps failed prior (start st) in
  let st' := w_store run.1 in
  ((∀ a, run.2 ≠ Returns a) ∧
   ∀ table as_of seq pinned name, table_view table as_of seq pinned name st' = table_view table as_of seq pinned name st) ∨
  (failed = None ∧
   (∀ name, let res := read_snapshot_segments_for_table (c_table ctx) None None (Some (c_snap ctx)) name st' in
      prior_segments res st' = Some (new_priors segs steps) ∧ res_at res = Some (c_at ctx) ∧ res_seq res = Some (c_seq ctx) ∧
      res_partition_keys res = Some (c_partition_keys ctx) ∧ res_clustering_keys res = Some (c_clustering_keys ctx)) ∧
   ∀ table u name, u ≠ c_snap ctx → table_view table None None (Some u) name st' = table_view table None None (Some u) name st).
Proof.
  destruct (finish_outcome now ctx prior segs steps st n cap Hws faults concurrency failed 0) as [[[[Hg Hu] _] Hr]|(Hst & Hg & Hf & _)].
  - left. split; [exact Hr|]. intros. apply (unfinished_invisible (c_snap ctx) st); [|by apply (ws_clear _ _ _ _ _ _ _ Hws)| |exact Hu].
    + by apply (wk_names _ _ _ _ (ws_ok _ _ _ _ _ _ _ Hws)).
    + by eapply start_uncommitted.
  - right. change (start_at 0 st) with (start st) in Hst. cbv zeta. rewrite Hst. split_and!; [done| |].
    + intros name. by apply (final_pinned now ctx prior segs steps st n cap).
    + intros table u name Hu. by apply (final_unmoved now ctx prior segs steps st n cap).
Qed.


(** C19 Retirement keeps the latest snapshot and leaks no file.  Whatever faults
    the run meets, the table's latest plan reads exactly what it read before; and
    when it returns, every base file and every committed sidecar file whose row it
    dropped is in the delete set. *)
Theorem retire_keeps_latest (faults : nat → fault) (now table : Z) (st : srow_store) (latest : Z) (lr : snapshot_row)
    (Hpick : pick_snapshot table None None None st = Some (latest, lr)) (Hsegs : snapshot_segments latest st ≠ []) :
  let run := retire_snapshots_except_latest faults now table (start st) in
  let st' := w_store run.1 in
  (∀ name, table_view table None None None name st' = table_view table None None None name st) ∧
  (run.2 = Returns tt →
   (∀ u r, st_segs st !! u = Some r → st_segs st' !! u = None → is_Some (st_delete_set st' !! sg_uri r)) ∧
   (∀ u r, st_children st !! u = Some r → committed (ch_commit r) = true → st_children st' !! u = None → is_Some (st_delete_set st' !! ch_uri r))).
Proof.
  intros run st'. set (retired := get_retired_snapshot_segments table st). set (uuids := fst <$> retired).
  assert (∀ u r, st_segs st !! u = Some r → u ∈ uuids ↔ sg_snapshot r ≠ latest ∧ sg_snapshot r ∈ (committed_snapshots table st).*1) as Huu.
  { intros u r Hr. unfold uuids, retired. rewrite list_elem_of_fmap. split.
    - intros ([u' v] & -> & (r' & Hr' & _ & ? & ?)%(retired_elem table st latest lr Hpick)). cbn in Hr. rewrite Hr in Hr'. by injection Hr' as <-.
    - intros [? ?]. exists (u, sg_uri r). split; [done|]. apply (retired_elem table st latest lr Hpick). by exists r. }
  destruct (retire_cases now table st faults) as [[Hst Hr]|[[Hnil Hst]|Hst]]; fold run st' in Hst; fold retired in Hst.
  - split; [by rewrite Hst|]. intros E. by destruct (Hr E).
  - assert (uuids = []) as Hu by (unfold uuids, retired; by rewrite Hnil). rewrite Hu in Huu.
    assert (st_segs st' = st_segs st ∧ st_children st' = st_children st) as [E1 E2] by (by destruct Hst as [->| ->]). split.
    + apply (kept_view table st latest lr Hpick Hsegs [] Huu).
      * rewrite E1. symmetry. apply map_filter_id. intros u r _. apply not_elem_of_nil.
      * rewrite E2. symmetry. apply map_filter_id. intros u r _. apply not_elem_of_nil.
      * rewrite E1. by destruct Hst as [->| ->].
      * intros u r Hs. destruct Hst as [->|E]; [done|]. rewrite E in Hs |- *. cbn. rewrite map_lookup_filter_Some. by split; [intros []|].
      * by destruct Hst as [->| ->].
    + intros _. split; intros u r Hr Hn; [by rewrite E1, Hr in Hn|]. intros Hn'. by rewrite E2, Hr in Hn'.
  - fold uuids in Hst. split.
    + apply (kept_view table st latest lr Hpick Hsegs uuids Huu); rewrite Hst; try done.
      intros u r Hs. cbn in Hs |- *. rewrite map_lookup_filter_Some. by split; [intros []|].
    + intros _. split.
      * intros u r Hr Hn. rewrite Hst in Hn |- *. cbn in Hn. assert (u ∈ uuids) as Hu.
        { destruct (decide (u ∈ uuids)) as [|Hni]; [done|]. assert (filter (λ p : Z * segment_row, p.1 ∉ uuids) (st_segs st) !! u = Some r) as Hk
            by (by apply map_lookup_filter_Some). by rewrite Hk in Hn. }
        apply enqueue_keeps. rewrite enqueued; [by eexists|]. apply elem_of_remove_dups. apply (Huu u r Hr) in Hu as [H1 H2].
        apply (list_elem_of_fmap_2 snd _ (u, sg_uri r)). apply (retired_elem table st latest lr Hpick). by exists r.
      * intros u r Hr Hc Hn. rewrite Hst in Hn |- *. cbn in Hn. assert (ch_segment r ∈ uuids) as Hu.
        { destruct (decide (ch_segment r ∈ uuids)) as [|Hni]; [done|].
          assert (filter (λ p : Z * child_row, ch_segment p.2 ∉ uuids) (st_children st) !! u = Some r) as Hk by (by apply map_lookup_filter_Some). by rewrite Hk in Hn. }
        unfold retired_store. rewrite enqueued; [by eexists|]. apply elem_of_remove_dups.
        apply (list_elem_of_fmap_2 (λ p : Z * child_row, ch_uri p.2) _ (u, r)). unfold list_segment_index_metadata.
        by apply elem_of_map_to_list, map_lookup_filter_Some.
Qed.

End theorems.

(** ** Concrete snapshot cycles

    A table partitioned by a column outside its primary key, with a user index:
    a history of cycles over it, its retirement, and two schedules that go
    wrong. *)

Module SnapshotDemo.
Import CarryDemo.

#[local] Existing Instance PackDemo.kernels.
#[local] Existing Instance PackDemo.kernels_laws.

(** ** Names *)

#[local] Instance demo_segments : SegmentNaming := λ snap idx, Z.pos (encode (snap, idx)).
#[local] Instance demo_indexes : IndexNaming :=
  {| segment_index_uuid := λ seg slug, Z.pos (encode (seg, slug));
     table_snapshot_index_uuid := λ snap index, Z.pos (encode (snap, index)) |}.
#[local] Instance demo_snapshots : SnapshotNaming := λ table a, Z.pos (encode (table, a)).
#[local] Instance demo_cell : IndexCell := λ v, match v with VInt z => Some z | VBin bs => Some (Z.pos (encode bs)) | _ => None end.

#[local] Instance demo_naming : NamingLaws demo_segments demo_indexes.
Proof. split; intros a x b y [= E%(inj encode)]; by injection E as -> ->. Qed.

#[local] Instance demo_snapshot_naming : SnapshotNamingLaws demo_snapshots.
Proof. intros t a b [= E%(inj encode)]. by injection E as ->. Qed.

(** ** The table *)

Definition task : SnapshotTask :=
  {| k_table := 7; k_user_schema := users; k_partition_keys := [1]; k_clustering_keys := []; k_primary_keys := [2];
     k_user_indexes := [{| ui_uuid := 50; ui_columns := [2] |}]; k_name_index := None; k_as_of := None; k_density := None;
     k_max_segment_bytes := 1000; k_concurrency := 2 |}.

Definition log_of (watermark : Z) (resolved deletes : list srow) (excluded : gset Z) : cold_log :=
  {| persist_watermark := Some watermark; max_persisted_segment_seq := λ _ a, Some a; resolved_delta := λ _ _, resolved;
     window_deletes := λ _ _, deletes; exclusion_set := λ _ _, excluded |}.

(** Four rows; then row 1 moves from [eu] to [us] and row 3 is deleted; then every
    row is deleted; then one comes back. *)
Definition first_log : cold_log := log_of 100 [row 9 de 90; row 1 eu 10; row 3 eu 30; row 2 us 20] [] ∅.
Definition second_log : cold_log := log_of 200 [row 1 us 10] [(3, [VInt 30; VInt 7; VInt 100; VInt 90; VInt 5])] {[1; 3]}.
Definition third_log : cold_log :=
  log_of 300 [] ((λ u, (u, [VInt (u * 10); VInt 7; VInt 100; VInt 90; VInt 5])) <$> [1; 2; 9]) {[1; 2; 9]}.
Definition fourth_log : cold_log := log_of 400 [row 4 de 40] [] ∅.

Definition empty : srow_store :=
  {| st_snaps := ∅; st_segs := ∅; st_parents := ∅; st_children := ∅; st_files := ∅; st_delete_set := ∅ |}.

Definition after_logs (t : SnapshotTask) (logs : list cold_log) : srow_store := default empty (snapshot_cycles 1 t logs empty).

Lemma task_fine : task_fits task.
Proof. split; [apply NoDup_singleton|]. repeat constructor; [done|by eexists]. Qed.

Ltac no_row := let Hr := fresh in intros ? ? Hr; cbn in Hr; by rewrite lookup_empty in Hr.

Lemma empty_fine t : cycle_inv t empty [].
Proof.
  assert (latest_plan t empty = no_snapshot) as E by done. split; [split; no_row| | | |by rewrite E].
  - intros a _. split; [done|..]; no_row.
  - no_row.
  - no_row.
Qed.

Lemma nothing_fine : prior_ok users [1] [1%nat] [].
Proof. split; constructor. Qed.

Lemma demo_rows_costed rows : Forall (λ r : srow, ∃ u bs id, r = row u bs id) rows → Forall (row_ok (snapshot_read_schema users)) rows.
Proof. intros Hf. eapply Forall_impl; [exact Hf|]. intros r (u & bs & id & ->). by eexists. Qed.

Lemma window_fits log prev a rows :
  Forall (λ r : srow, ∃ u bs id, r = row u bs id) (rows ++ resolved_delta log prev a) →
  (∀ u, u ∈ exclusion_set log prev a → u ∈ (resolved_delta log prev a).*1 ∨ u ∈ (window_deletes log prev a).*1) →
  window_ok users [1] [1%nat] (window_input task log prev a rows) [] delete_log.
Proof.
  intros Hf Hex. split.
  - apply demo_rows_costed. by apply Forall_app in Hf as [_ ?].
  - apply labels_exact. unfold all_rows. cbn. by rewrite app_nil_r.
  - exact Hex.
  - done.
Qed.

Lemma table_fine log prev a rows : table_ok users (window_input task log prev a rows) [2%nat] [1%nat] [] delete_log.
Proof. split; try reflexivity; [repeat constructor; set_solver|done]. Qed.

Lemma history_fine : history_fits task [2%nat] [1%nat] [] delete_log None [] [first_log; second_log; third_log; fourth_log].
Proof.
  exists 100. split_and!; [done|apply table_fine|apply window_fits; [repeat constructor; by eexists _, _, _|set_solver]|].
  exists 200. split_and!; [done|apply table_fine|apply window_fits; [repeat constructor; by eexists _, _, _|set_solver]|].
  exists 300. split_and!; [done|apply table_fine|apply window_fits; [vm_compute; repeat constructor; by eexists _, _, _|set_solver]|].
  exists 400. split_and!; [done|apply table_fine|apply window_fits; [vm_compute; repeat constructor; by eexists _, _, _|set_solver]|done].
Qed.


(** ** A write under faults *)

Definition first_input : SnapshotInput := cycle_input task first_log (latest_plan task empty) 100 [].
Definition first_steps : list (PackStep srow) := match snapshot_pack users first_input with Ok steps => steps | Err _ => [] end.
Definition first_ctx : SnapshotWriteCtx := cycle_ctx task 100 100 true.

Lemma first_start : write_start first_ctx ∅ [] first_steps empty 3 1000.
Proof.
  pose proof (empty_fine task) as Hinv.
  assert (packs users [1] [1%nat] first_input first_steps) as Hp.
  { destruct (snapshot_packs users first_input [2%nat] [1%nat] [] delete_log) as (steps & Hs & Hp); [| | |by unfold first_steps; rewrite Hs].
    - by destruct (table_fine first_log None 100 []); split.
    - apply nothing_fine.
    - apply (window_ok_rows task first_log (latest_plan task empty) 100 [] []); [done|].
      apply window_fits; [repeat constructor; by eexists _, _, _|set_solver]. }
  pose proof (cycle_start task empty [] [1%nat] 100 Hinv nothing_fine I first_log task_fine 100 true first_steps 3 Hp eq_refl) as [W1 W2 W3 W4 W5 _ W7].
  by split.
Qed.

Definition at_fault (k : nat) (f : fault) : nat → fault := λ j, if (j =? k)%nat then f else Runs.

Lemma snapshot_write_atomic_witness :
  let run f k := finish_snapshot_write (at_fault k f) 1 first_ctx 2 first_steps None ∅ (start empty) in
  (∀ name, table_view 7 None None None name (w_store (run Dies 20%nat).1) = table_view 7 None None None name empty) ∧
  (∀ name, prior_segments (read_snapshot_segments_for_table 7 None None (Some (c_snap first_ctx)) name (w_store (run Lost 33%nat).1))
     (w_store (run Lost 33%nat).1) = Some (new_priors [] first_steps)).
Proof.
  intros run. split.
  - destruct (snapshot_write_atomic demo_naming (at_fault 20 Dies) 1 first_ctx 2 ∅ [] first_steps None empty 3 1000 first_start)
      as [[_ Hv]|(_ & Hv & _)]; [intros name; apply Hv|]. exfalso. specialize (Hv None). vm_compute in Hv. by destruct Hv as (? & ? & _).
  - destruct (snapshot_write_atomic demo_naming (at_fault 33 Lost) 1 first_ctx 2 ∅ [] first_steps None empty 3 1000 first_start)
      as [[_ Hv]|(_ & Hv & _)]; [|intros name; by destruct (Hv name) as [? _]]. exfalso.
    specialize (Hv 7 None None None None). vm_compute in Hv. discriminate Hv.
Defined.

(** ** Retirement *)

Definition two_snapshots : srow_store := after_logs task [first_log; second_log].

Lemma retire_keeps_latest_witness :
  let run := retire_snapshots_except_latest no_fault 9 7 (start two_snapshots) in
  (∀ name, table_view 7 None None None name (w_store run.1) = table_view 7 None None None name two_snapshots) ∧
  size (st_snaps (w_store run.1)) = 1%nat ∧
  ∀ u r, st_segs two_snapshots !! u = Some r → st_segs (w_store run.1) !! u = None → is_Some (st_delete_set (w_store run.1) !! sg_uri r).
Proof.
  intros run. destruct (retire_keeps_latest no_fault 9 7 two_snapshots (table_snapshot_uuid 7 200)
    (default {| sn_table := 0; sn_at := 0; sn_partition_keys := None; sn_clustering_keys := None; sn_seq := 0; sn_durable := false; sn_commit := None |}
      (st_snaps two_snapshots !! table_snapshot_uuid 7 200))) as [Hv Hd].
  - vm_compute. reflexivity.
  - vm_compute. discriminate.
  - split_and!; [exact Hv|vm_compute; reflexivity|]. apply Hd. vm_compute. reflexivity.
Defined.

(** ** A layout change wedges the next snapshot *)

(** The same table, unpartitioned and then partitioned by [region]. *)
Definition layout (partition_keys : list Z) (cap : Z) : SnapshotTask :=
  {| k_table := 7; k_user_schema := users; k_partition_keys := partition_keys; k_clustering_keys := []; k_primary_keys := [2];
     k_user_indexes := []; k_name_index := None; k_as_of := None; k_density := None; k_max_segment_bytes := cap; k_concurrency := 2 |}.

Definition flat_snapshot : srow_store := after_logs (layout [] 1000) [log_of 100 [row 1 us 10; row 2 eu 20] [] ∅].

Definition rekey_log : cold_log := log_of 200 [row 3 de 30] [] ∅.

Definition rekeyed_attempt (st : srow_store) : world * outcome (option Z) :=
  snapshot_cycle no_fault 1 [] (layout [1] 1000) rekey_log (start st).

Fixpoint retries (k : nat) (st : srow_store) : srow_store :=
  match k with O => st | S k' => retries k' (w_store (rekeyed_attempt st).1) end.

(** An attempt that repeats itself repeats what holds before and after it. *)
Lemma retries_hold (P : srow_store → Prop) st :
  P st → P (w_store (rekeyed_attempt st).1) →
  w_store (rekeyed_attempt (w_store (rekeyed_attempt st).1)).1 = w_store (rekeyed_attempt st).1 → ∀ k, P (retries k st).
Proof.
  intros H0 H1 Hfix [|k]; [exact H0|]. cbn [retries]. induction k as [|k IH]; [exact H1|]. cbn [retries]. rewrite Hfix. exact IH.
Qed.

Lemma store_eq (st st' : srow_store) :
  map_to_list (st_snaps st) = map_to_list (st_snaps st') → map_to_list (st_segs st) = map_to_list (st_segs st') →
  map_to_list (st_parents st) = map_to_list (st_parents st') → map_to_list (st_children st) = map_to_list (st_children st') →
  map_to_list (st_files st) = map_to_list (st_files st') → map_to_list (st_delete_set st) = map_to_list (st_delete_set st') → st = st'.
Proof.
  destruct st, st'. cbn. intros E1 E2 E3 E4 E5 E6. f_equal; apply map_to_list_inj; by (rewrite ?E1, ?E2, ?E3, ?E4, ?E5, ?E6).
Qed.

(** Changing a table's partition keys ends its snapshots.  The next cycle is a
    full rewrite that streams the prior segments in the order of the old layout;
    the packer requires the new one and refuses.  Here a table snapshotted
    unpartitioned is then partitioned by [region]: the cycle fails, and so does
    every retry, with the latest plan left where it was. *)
Theorem rekey_wedges (k : nat) :
  (rekeyed_attempt (retries k flat_snapshot)).2 = Raises Internal ∧
  latest_plan (layout [1] 1000) (retries k flat_snapshot) = latest_plan (layout [1] 1000) flat_snapshot.
Proof.
  revert k. apply (retries_hold (λ st, (rekeyed_attempt st).2 = Raises Internal ∧
    latest_plan (layout [1] 1000) st = latest_plan (layout [1] 1000) flat_snapshot)).
  - split; vm_compute; reflexivity.
  - split; vm_compute; reflexivity.
  - apply store_eq; vm_compute; reflexivity.
Qed.

(** ** An abandoned attempt comes back *)

Definition two_rows : cold_log := log_of 100 [row 1 eu 10; row 3 eu 30] [] ∅.

(** A first attempt under a byte cap that gives each row its own segment. *)
Definition abandoned (f : fault) (k : nat) : srow_store :=
  w_store (snapshot_cycle (at_fault k f) 1 [] (layout [1] 10) two_rows (start empty)).1.

(** The retry, after the cap was raised. *)
Definition redone (st : srow_store) : world * outcome (option Z) :=
  snapshot_cycle no_fault 2 [] (layout [1] 1000) two_rows (start st).

(** Segment rows of an abandoned attempt come back with the retry.  They are
    committed one by one and the cleanup only deletes uncommitted ones; the names
    are derived from the watermark, so a retry with another layout commits the
    parent over them.  When the first process died before the parent's commit,
    the new snapshot shows a row twice; when it failed and cleaned up, the plan
    names a file that is gone. *)
Theorem stale_attempt_resurfaces :
  (let st := w_store (redone (abandoned Dies 21)).1 in
   (redone (abandoned Dies 21)).2 = Returns (Some 100) ∧
   (all_rows <$> prior_segments (latest_plan (layout [1] 1000) st) st) = Some [row 1 eu 10; row 3 eu 30; row 3 eu 30]) ∧
  (let st := w_store (redone (abandoned Refused 20)).1 in
   (redone (abandoned Refused 20)).2 = Returns (Some 100) ∧
   prior_segments (latest_plan (layout [1] 1000) st) st = None) ∧
  history_rows (layout [1] 1000) None [] [two_rows] = [row 1 eu 10; row 3 eu 30].
Proof. cbv zeta. split_and!; vm_compute; reflexivity. Qed.

End SnapshotDemo.
