(* ===== verification/ReadPath.v ===== *)
(** * The merge read (penca-merge/src/resolve.rs, penca-merge/src/lib.rs,
      penca-api/src/query/cold_read.rs, penca-api/src/query/mod.rs)

    Per-tier resolve, cross-tier union and exclusion set, the fold of a fork
    parent's cold tier, the snapshot stream, and the dispatch of a planned read.
    Streams of record batches are modelled by the list of rows they deliver. *)

From S2P Require Import Prelude ReadSnapshot Dialect MergeSql IndexSeek Plan SnapshotScan.
From stdpp Require Import base numbers list option sets gmap.

Open Scope Z_scope.

Inductive MergeError := InvalidPlan | MergeDl (e : DlError).

Inductive SegmentOrder := ByCompletion | ByPlan.

(** ** Identity seeks *)

Fixpoint identity_loop (filter_present : bool) (seeks : list SeekSpec)
    (saw_identity : bool) (acc : list Z) : result MergeError (option (list Z)) :=
  match seeks with
  | [] => Ok (if saw_identity then Some acc else None)
  | entry :: rest =>
      match ss_index_uuid entry with
      | Some _ =>
          if filter_present then identity_loop filter_present rest saw_identity acc
          else Err InvalidPlan
      | None =>
          match mapM (λ t, match t with [u] => Some u | _ => None end) (ss_tuples entry) with
          | Some us => identity_loop filter_present rest true (acc ++ us)
          | None => Err InvalidPlan
          end
      end
  end.

Definition identity_row_uuids (seeks : option (list SeekSpec)) (filter_present : bool) :
    result MergeError (option (list Z)) :=
  match seeks with
  | None => Ok None
  | Some [] => Ok None
  | Some es => identity_loop filter_present es false []
  end.

Definition user_seek_specs (seeks : option (list SeekSpec)) : option (list SeekSpec) :=
  match seeks with
  | None => None
  | Some es => match filter (λ e, is_Some (ss_index_uuid e)) es with [] => None | l => Some l end
  end.

Definition identity_spec (uuids : list Z) : SeekSpec :=
  {| ss_index_uuid := None; ss_key_columns := []; ss_tuples := (λ u, [u]) <$> uuids |}.

Record SnapshotSeeks := {
  identity : option (list Z);
  accelerators : option (list SeekSpec);
}.

Definition to_scan_specs (s : SnapshotSeeks) : option (list SeekSpec) :=
  match identity s, accelerators s with
  | None, None => None
  | None, Some a => Some a
  | Some us, a => Some (identity_spec us :: default [] a)
  end.

(** ** Per-tier resolve *)

Definition extract_committed_at_bounds (f : option CommittedAtBounds) : option Z * option Z :=
  match f with Some b => (min_micros b, max_micros b) | None => (None, None) end.

Definition cold_commit_seq_upper (s : ReadSnapshot) : option Z := plan_commit_seq_upper s.

Definition fold_cold_seq_upper (as_of_seq tier_upper : option Z) : option Z :=
  match as_of_seq, tier_upper with
  | Some a, Some b => Some (Z.min a b)
  | a, None => a
  | None, b => b
  end.

Section read.
Context {V : Type}.

Definition resolve_hot (p : Plan V) (h : hot_db V) (s : ReadSnapshot)
    (row_uuids : option (list Z)) : list (resolved_row V) :=
  match hot_storage p with
  | None => []
  | Some hp =>
      let '(_, hot_max) := extract_committed_at_bounds (hp_committed_at hp) in
      let tier_seq_lower := hp_commit_seq hp ≫= min_seq in
      build_merge_resolved (upsert_log h) (delete_log h) (commit_tx_log h)
        tier_seq_lower (tighten_for_hot s hot_max) row_uuids
  end.

(** penca-storage-cold: a segment contributes nothing above its ceiling. *)
Definition apply_segment_seq_ceiling {A} (seg : PersistSegment A) : list (src_row A) :=
  match max_commit_seq_num seg with
  | None => segment_rows seg
  | Some ceiling => filter (λ x, commit_seq_num x ≤ ceiling) (segment_rows seg)
  end.

(** The [upsert_log] / [delete_log] tables a cold session registers. *)
Definition cold_log {A} (segs : list (PersistSegment A)) : list (src_row A) :=
  mbind apply_segment_seq_ceiling segs.

Definition resolve_cold (p : Plan V) (commit_seq_upper : option Z)
    (row_uuids : option (list Z)) : list (resolved_row V) :=
  match cold_storage p with
  | None => []
  | Some cp =>
      match persist cp with
      | None => []
      | Some pp =>
          let '(committed_from, committed_to) := extract_committed_at_bounds (pp_committed_at pp) in
          let tier_seq_upper := pp_commit_seq pp ≫= max_seq in
          let upper := fold_cold_seq_upper commit_seq_upper tier_seq_upper in
          @build_cold_merge_resolved DfDialect V (cold_log (upsert_segments pp))
            (cold_log (delete_segments pp)) committed_from committed_to upper row_uuids
      end
  end.

(** ** Cross-tier union *)

(** The [best] map of [dedup_by_row_uuid]: index and timestamp kept per row. *)
Definition dedup_step (best : gmap Z (nat * Z)) (ix : nat * resolved_row V) : gmap Z (nat * Z) :=
  let '(i, x) := ix in
  let ts := rr_commit_micros x in
  match best !! rr_row_uuid x with
  | Some (_, existing) =>
      if existing <? ts then <[rr_row_uuid x := (i, ts)]> best else best
  | None => <[rr_row_uuid x := (i, ts)]> best
  end.

Definition dedup_best (batch : list (resolved_row V)) : gmap Z (nat * Z) :=
  foldl dedup_step ∅ (imap pair batch).

Definition dedup_by_row_uuid (batch : list (resolved_row V)) : list (resolved_row V) :=
  let keep := (λ p : Z * (nat * Z), p.2.1) <$> map_to_list (dedup_best batch) in
  snd <$> filter (λ p : nat * resolved_row V, p.1 ∈ keep) (imap pair batch).

Definition union_latest (a b : list (resolved_row V)) : list (resolved_row V) :=
  match a, b with
  | [], [] => []
  | [], _ => dedup_by_row_uuid b
  | _, [] => dedup_by_row_uuid a
  | _, _ => dedup_by_row_uuid (a ++ b)
  end.

Definition filter_live_rows (batch : list (resolved_row V)) : list (resolved_row V) :=
  filter (λ x, rr_is_delete x = false) batch.

Definition collect_row_uuids (batch : list (resolved_row V)) : list Z := rr_row_uuid <$> batch.

Definition compose_resolved_and_exclusion (hot_a cold_a : list (resolved_row V)) :
    list (resolved_row V) * gset Z :=
  let composed := union_latest hot_a cold_a in
  (filter_live_rows composed, list_to_set (collect_row_uuids composed)).

Definition build_resolved_and_exclusion_set (p : Plan V) (h : hot_db V) (s : ReadSnapshot)
    (row_uuids : option (list Z)) : list (resolved_row V) * gset Z :=
  compose_resolved_and_exclusion (resolve_hot p h s row_uuids)
    (resolve_cold p (cold_commit_seq_upper s) row_uuids).

Definition build_cold_resolved_and_exclusion_set (p : Plan V) (s : ReadSnapshot)
    (row_uuids : option (list Z)) : list (resolved_row V) * gset Z :=
  compose_resolved_and_exclusion [] (resolve_cold p (cold_commit_seq_upper s) row_uuids).

(** ** Residual, projection, parent fold *)

(** The user predicate sees [row_uuid] and the user columns; a NULL-columned
    tombstone never satisfies it. *)
Definition apply_resolved_residual (f : option (Z * V → bool)) (batch : list (resolved_row V)) :
    list (resolved_row V) :=
  match f with
  | None => batch
  | Some p => filter (λ x, match rr_cols x with Some v => p (rr_row_uuid x, v) | None => false end = true) batch
  end.

Definition project_resolved (batch : list (resolved_row V)) : list (Z * V) :=
  omap (λ x, (λ v, (rr_row_uuid x, v)) <$> rr_cols x) batch.

Definition filter_excluded_row_uuids {A} (uuid : A → Z) (batch : list A) (ex : gset Z) : list A :=
  filter (λ x, uuid x ∉ ex) batch.

(** [fold_in_base_cold_source]; [out] turns the parent's live rows into the
    child batch's shape (identity on the merged path, residual and projection
    on the all-cold path). *)
Definition fold_in_base_cold_source {A} (base : BaseColdStorage V) (row_uuids : option (list Z))
    (uuid : A → Z) (out : list (resolved_row V) → list A)
    (child_resolved : list A) (exclusion_set : gset Z) : list A * gset Z :=
  let base_plan := {| hot_storage := None; cold_storage := Some (base_cold base);
                      base_cold_storage := None |} in
  let resolved_base := resolve_cold base_plan (Some (commit_seq_ceiling base)) row_uuids in
  let base_uuids := collect_row_uuids resolved_base in
  let live_base := out (filter_live_rows resolved_base) in
  let filtered_base := filter_excluded_row_uuids uuid live_base exclusion_set in
  (child_resolved ++ filtered_base, exclusion_set ∪ list_to_set base_uuids).

Definition fold_base_if_present {A} (p : Plan V) (row_uuids : option (list Z))
    (uuid : A → Z) (out : list (resolved_row V) → list A)
    (resolved : list A) (ex : gset Z) : list A * gset Z :=
  match base_cold_storage p with
  | Some base => fold_in_base_cold_source base row_uuids uuid out resolved ex
  | None => (resolved, ex)
  end.

(** ** Snapshot stream

    [may_match] is the statistics-based pruning decision of a segment under a
    predicate (DataFusion's [PruningPredicate] over the recorded column
    statistics). *)
Context (may_match : (Z * V → bool) → SnapshotSegment V → bool).

Definition prune_segments (f : option (Z * V → bool)) (segs : list (SnapshotSegment V)) :
    list (SnapshotSegment V) :=
  match f with
  | None => segs
  | Some p => filter (λ g, may_match p g = true) segs
  end.

Record SnapshotStreamTuning := {
  snapshot_prune_min_segments : nat;
  segment_order_of : SegmentOrder;
}.

Definition snapshot_segment_stream (schema : list Z) (sp : SnapshotPlan V)
    (f : option (Z * V → bool)) (seeks : SnapshotSeeks) (ex : gset Z)
    (tuning : SnapshotStreamTuning) : result MergeError (list (Z * V)) :=
  let pruning_predicate :=
    if (snapshot_prune_min_segments tuning <? length (sp_segments sp))%nat then f else None in
  let segments := prune_segments pruning_predicate (sp_segments sp) in
  match segments with
  | [] => Ok []
  | _ =>
      match segment_order_of tuning with
      | ByCompletion =>
          match scan_segments schema (to_scan_specs seeks) segments with
          | Err e => Err (MergeDl e)
          | Ok rows => Ok (build_cold_snapshot_scan rows (elements ex) f (identity seeks))
          end
      | ByPlan =>
          match scan_segments schema None segments with
          | Err e => Err (MergeDl e)
          | Ok rows =>
              let kept := filter_excluded_row_uuids fst (build_cold_snapshot_scan_plain rows f) ex in
              Ok (match identity seeks with
                  | Some us => filter (λ x, x.1 ∈ us) kept
                  | None => kept
                  end)
          end
      end
  end.

Definition plan_snapshot_stream (schema : list Z) (p : Plan V) (f : option (Z * V → bool))
    (seeks : SnapshotSeeks) (ex : gset Z) (tuning : SnapshotStreamTuning) :
    result MergeError (list (Z * V)) :=
  let own := cold_storage p ≫= snapshot in
  let sp := match own with
            | Some sp => Some sp
            | None => base_cold_storage p ≫= λ b, snapshot (base_cold b)
            end in
  match sp with
  | Some sp => snapshot_segment_stream schema sp f seeks ex tuning
  | None => Ok []
  end.

(** ** Merge reads *)

Record MergeReadRequest := {
  rq_plan : Plan V;
  rq_db : hot_db V;
  rq_schema : list Z;
  rq_snapshot : ReadSnapshot;
  rq_filter : option (Z * V → bool);
  rq_seeks : option (list SeekSpec);
  rq_tuning : SnapshotStreamTuning;
}.

Definition filter_present (f : option (Z * V → bool)) : bool :=
  match f with Some _ => true | None => false end.

Definition stream_merged (req : MergeReadRequest) : result MergeError (list (Z * V)) :=
  match identity_row_uuids (rq_seeks req) (filter_present (rq_filter req)) with
  | Err e => Err e
  | Ok row_uuids =>
      let '(resolved, ex) :=
        build_resolved_and_exclusion_set (rq_plan req) (rq_db req) (rq_snapshot req) row_uuids in
      let '(resolved, ex) :=
        fold_base_if_present (rq_plan req) row_uuids rr_row_uuid (λ l, l) resolved ex in
      let resolved := project_resolved (apply_resolved_residual (rq_filter req) resolved) in
      match plan_snapshot_stream (rq_schema req) (rq_plan req) (rq_filter req)
              {| identity := row_uuids; accelerators := user_seek_specs (rq_seeks req) |}
              ex (rq_tuning req) with
      | Err e => Err e
      | Ok snap => Ok (resolved ++ snap)
      end
  end.

Record ResolvedLogTiers := {
  lt_resolved : list (Z * V);
  lt_exclusion_set : gset Z;
  lt_identity_row_uuids : option (list Z);
}.

Definition resolve_log_tiers (req : MergeReadRequest) : result MergeError ResolvedLogTiers :=
  match hot_storage (rq_plan req) with
  | Some _ => Err InvalidPlan
  | None =>
      match identity_row_uuids (rq_seeks req) (filter_present (rq_filter req)) with
      | Err e => Err e
      | Ok row_uuids =>
          let '(resolved, ex) :=
            build_cold_resolved_and_exclusion_set (rq_plan req) (rq_snapshot req) row_uuids in
          let resolved := project_resolved (apply_resolved_residual (rq_filter req) resolved) in
          let '(resolved, ex) :=
            fold_base_if_present (rq_plan req) row_uuids fst
              (λ l, project_resolved (apply_resolved_residual (rq_filter req) l)) resolved ex in
          Ok {| lt_resolved := resolved; lt_exclusion_set := ex;
                lt_identity_row_uuids := row_uuids |}
      end
  end.

Definition stream_all_cold (req : MergeReadRequest) : result MergeError (list (Z * V)) :=
  match resolve_log_tiers req with
  | Err e => Err e
  | Ok lt =>
      match plan_snapshot_stream (rq_schema req) (rq_plan req) (rq_filter req)
              {| identity := lt_identity_row_uuids lt; accelerators := user_seek_specs (rq_seeks req) |}
              (lt_exclusion_set lt) (rq_tuning req) with
      | Err e => Err e
      | Ok snap => Ok (lt_resolved lt ++ snap)
      end
  end.

(** The all-hot fast path: no dedup, tombstones dropped, residual applied. *)
Definition stream_all_hot (req : MergeReadRequest) (row_uuids : option (list Z)) : list (Z * V) :=
  match hot_storage (rq_plan req) with
  | None => []
  | Some hp =>
      let hot_max := hp_committed_at hp ≫= max_micros in
      let tier_seq_lower := hp_commit_seq hp ≫= min_seq in
      let rows := build_merge_resolved (upsert_log (rq_db req)) (delete_log (rq_db req))
                    (commit_tx_log (rq_db req)) tier_seq_lower
                    (tighten_for_hot (rq_snapshot req) hot_max) row_uuids in
      filter (λ x, user_filter (rq_filter req) x = true) (project_resolved (filter_live_rows rows))
  end.

(** The shared cold read: the DataFusion-free seek of a snapshot-only plan with
    one covering entry, else the merge pipeline. *)
Definition stream_cold_read (req : MergeReadRequest) (exact_selection : bool) :
    result MergeError (list (Z * V)) :=
  let fallback := if is_all_cold (rq_plan req) then stream_all_cold req else stream_merged req in
  if is_direct_seek_eligible (rq_plan req) exact_selection then
    match rq_seeks req with
    | Some [e] =>
        match cold_storage (rq_plan req) ≫= snapshot with
        | None => Err InvalidPlan
        | Some sp =>
            match seek_snapshot_point (rq_schema req) (sp_segments sp) (ss_tuples e)
                    (ss_index_uuid e) (ss_key_columns e) with
            | Err e => Err (MergeDl e)
            | Ok (Some rows) => Ok rows
            | Ok None => fallback
            end
        end
    | _ => fallback
    end
  else fallback.
End read.
