(* ===== verification/AuditReads.v ===== *)
(** * Audit reads (penca-api/src/query/mod.rs, penca-merge/src/audit.rs,
      penca-storage-hot/src/audit.rs)

    [audit_data] returns every committed version of a table inside a window of
    one commit axis: the persist segments below the hot/cold cutoff, the parent's
    segments for a fork, and the hot logs above the cutoff.  Cold rows carry no
    author and comment; they come from the cold transaction ledger by a join on
    the commit's sequence number. *)

From S2P Require Import Prelude Watermarks ReadSnapshot Dialect MergeSql IndexSeek Plan IndexSelect Effects TxLog TxLedger TableStore Chunker ReadPath.
From stdpp Require Import base numbers list option sets gmap sorting.

Open Scope Z_scope.
Open Scope result_scope.

(** ** The request *)

Record IntegerRange := { ir_min : option Z; ir_max : option Z }.

Inductive Committed :=
  | CommitMicros (r : IntegerRange)
  | CommitSeqNum (r : IntegerRange).

(** [ids] decoded: [None] is the empty field. *)
Record AuditDataRequest := {
  ar_committed : option Committed;
  ar_row_uuids : option (list Z);
  ar_include_tx_metadata : bool;
}.

(** The micros window and the sequence window; at most one is set. *)
Definition audit_committed_axes (committed : option Committed) : option IntegerRange * option IntegerRange :=
  match committed with
  | Some (CommitMicros r) => (Some r, None)
  | Some (CommitSeqNum r) => (None, Some r)
  | None => (None, None)
  end.

Definition timestamp_bounds (filter : option IntegerRange) : option Z * option Z :=
  match filter with Some r => (ir_min r, ir_max r) | None => (None, None) end.

(** ** The plan *)

(** A ledger segment as the audit reads it: its file, and a ceiling on its rows. *)
Record TxLogRef := { tr_uri : Z; tr_max_commit_seq_num : option Z }.

Record AuditPlan (V : Type) := {
  ap_cold_from : option Z;
  ap_cold_to : option Z;
  ap_hot_from : option Z;
  ap_hot_to : option Z;
  ap_seq_from : option Z;
  ap_seq_to : option Z;
  ap_cold_upsert_segments : list (PersistSegment V);
  ap_cold_delete_segments : list (PersistSegment unit);
  ap_include_tx_metadata : bool;
  ap_tx_log_segments : list TxLogRef;
  ap_base_cold_upsert_segments : list (PersistSegment V);
  ap_base_cold_delete_segments : list (PersistSegment unit);
  ap_base_tx_log_segments : list TxLogRef;
  ap_base_seq_to : option Z;
  ap_base_cold_to : option Z;
  ap_row_uuids : option (list Z);
}.
Arguments ap_cold_from {V}. Arguments ap_cold_to {V}. Arguments ap_hot_from {V}. Arguments ap_hot_to {V}.
Arguments ap_seq_from {V}. Arguments ap_seq_to {V}. Arguments ap_cold_upsert_segments {V}.
Arguments ap_cold_delete_segments {V}. Arguments ap_include_tx_metadata {V}. Arguments ap_tx_log_segments {V}.
Arguments ap_base_cold_upsert_segments {V}. Arguments ap_base_cold_delete_segments {V}.
Arguments ap_base_tx_log_segments {V}. Arguments ap_base_seq_to {V}. Arguments ap_base_cold_to {V}.
Arguments ap_row_uuids {V}.

(** [from <= v] and [v < to] when set. *)
Definition at_least (from : option Z) (v : Z) : bool := match from with Some f => f <=? v | None => true end.
Definition below (to : option Z) (v : Z) : bool := match to with Some t => v <? t | None => true end.

Definition tx_log_segment_in_window (segment : TxLogSegment) (committed_from committed_to seq_from seq_to : option Z) : bool :=
  at_least committed_from (tl_max_commit_micros segment) && below committed_to (tl_min_commit_micros segment)
  && (at_least seq_from (tl_max_commit_seq_num segment) && below seq_to (tl_min_commit_seq_num segment)).

Definition tx_log_persist_segments {Note} (ledger : ledger_store Note)
    (committed_from committed_to seq_from seq_to : option Z) : list TxLogRef :=
  (λ p : Z * TxLogSegment, {| tr_uri := tl_object_uri p.2; tr_max_commit_seq_num := None |}) <$>
  filter (λ p : Z * TxLogSegment, tx_log_segment_in_window p.2 committed_from committed_to seq_from seq_to = true)
    (read_committed_tx_log_segments ledger).

(** [MIN(min_tx_commit_micros)] over the committed segments a fork copied, of
    both log kinds. *)
Definition inherited_own_arm_floor {V} (m : table_meta V) (fork_seq : Z) : option Z :=
  let copied {A} (segs : list (segment_meta A)) :=
    sg_min_tx_commit_micros <$> filter (λ s, sg_min_commit_seq_num s ≤ fork_seq) (committed sg_commit_micros segs) in
  zmin_list (copied (tm_upsert_segments m) ++ copied (tm_delete_segments m)).

Definition base_audit_seq_cap (audit_seq_to : option Z) (fork_seq : Z) : Z :=
  let fork_cap := sat_add fork_seq 1 in
  match audit_seq_to with Some upper => Z.min fork_cap upper | None => fork_cap end.

(** The retention floor on the axis of the request: an explicit lower bound
    below it is refused, an unset one is raised to it. *)
Definition enforce_floor (floor : option RetentionFloor) (seq_axis : bool) (user_from seq_from : option Z) :
    result ApiError (option Z * option Z) :=
  match floor with
  | None => Ok (user_from, seq_from)
  | Some f =>
      if seq_axis then
        match seq_from with
        | Some from => if from <? rf_commit_seq_num f then Err FailedPrecondition else Ok (user_from, seq_from)
        | None => Ok (user_from, Some (rf_commit_seq_num f))
        end
      else
        match user_from with
        | Some from => if from <? rf_snapshotted_at_micros f then Err FailedPrecondition else Ok (user_from, seq_from)
        | None => Ok (Some (rf_snapshotted_at_micros f), seq_from)
        end
  end.

(** A fork's parent as the audit sees it. *)
Record audit_base (Note V : Type) := {
  ab_lineage : BranchLineage;
  ab_meta : table_meta V;
  ab_ledger : ledger_store Note;
}.
Arguments ab_lineage {Note V}. Arguments ab_meta {Note V}. Arguments ab_ledger {Note V}.

Definition plan_audit {Note V} (m : table_meta V) (ledger : ledger_store Note) (base : option (audit_base Note V))
    (now : Z) (retention_duration_seconds : option Z) (request : AuditDataRequest) : result ApiError (AuditPlan V) :=
  let '(committed_micros_window, committed_seq_window) := audit_committed_axes (ar_committed request) in
  let '(user_from, user_to) := timestamp_bounds committed_micros_window in
  let '(seq_from, seq_to) := timestamp_bounds committed_seq_window in
  let hot_min := hot_min_of m in
  let floor := retention_floor m now retention_duration_seconds in
  let? '(user_from, seq_from) :=
    enforce_floor floor match committed_seq_window with Some _ => true | None => false end user_from seq_from in
  let capped := Some match user_to with Some t => Z.min t hot_min | None => hot_min end in
  let '(cold_upserts, cold_deletes) :=
    if hot_min =? 0 then ([], []) else read_persist_segments_for_window m user_from capped None in
  let '(cold_from, cold_to) := if hot_min =? 0 then (None, None) else (user_from, capped) in
  let hot_from := match user_from with
                  | Some f => Some (Z.max f hot_min)
                  | None => if 0 <? hot_min then Some hot_min else None
                  end in
  let include := ar_include_tx_metadata request in
  let tx_log := if include && negb (hot_min =? 0)
                then tx_log_persist_segments ledger cold_from cold_to seq_from seq_to else [] in
  let '(base_upserts, base_deletes, base_tx_log, base_seq_to, base_cold_to) :=
    match base with
    | Some b =>
        let fork_seq := fork_commit_seq_num (ab_lineage b) in
        let base_cold_to := match inherited_own_arm_floor m fork_seq with
                            | Some floor => Some match cold_to with Some t => Z.min t floor | None => floor end
                            | None => cold_to
                            end in
        let '(us, ds) := read_persist_segments_for_window (ab_meta b) cold_from base_cold_to (Some fork_seq) in
        let base_seq_to := Some (base_audit_seq_cap seq_to fork_seq) in
        let base_tx_log := if include then tx_log_persist_segments (ab_ledger b) cold_from cold_to seq_from base_seq_to else [] in
        (us, ds, base_tx_log, base_seq_to, base_cold_to)
    | None => ([], [], [], None, None)
    end in
  let ceiling := (λ to, sat_sub to 1) <$> base_seq_to in
  Ok {| ap_cold_from := cold_from; ap_cold_to := cold_to; ap_hot_from := hot_from; ap_hot_to := user_to;
        ap_seq_from := seq_from; ap_seq_to := seq_to; ap_cold_upsert_segments := cold_upserts;
        ap_cold_delete_segments := cold_deletes; ap_include_tx_metadata := include;
        ap_tx_log_segments := tx_log ++ ((λ r, {| tr_uri := tr_uri r; tr_max_commit_seq_num := ceiling |}) <$> base_tx_log);
        ap_base_cold_upsert_segments := base_upserts; ap_base_cold_delete_segments := base_deletes;
        ap_base_tx_log_segments := base_tx_log; ap_base_seq_to := base_seq_to; ap_base_cold_to := base_cold_to;
        ap_row_uuids := ar_row_uuids request |}.

(** ** Rows *)

(** [None]: the author and comment columns are not projected; [Some None]: they
    are NULL. *)
Notation tx_metadata Note := (option (option Note)).

Notation audit_row Note A := (src_row A * tx_metadata Note)%type.

Section rows.
Context {Note A : Type}.

(** ** The cold arm *)

Definition clip (r : TxLogRef) (rows : list (ledger_row Note)) : list (ledger_row Note) :=
  match tr_max_commit_seq_num r with
  | None => rows
  | Some ceiling => filter (λ x, lg_seq x ≤ ceiling) rows
  end.

(** A missing file fails the read. *)
Definition read_tx_log_batches (files : gmap Z (list (ledger_row Note))) (segments : list TxLogRef) (include : bool) :
    result ApiError (list (ledger_row Note)) :=
  if include then
    match mapM (λ r, clip r <$> files !! tr_uri r) segments with
    | Some batches => Ok (concat batches)
    | None => Err ColdStorage
    end
  else Ok [].

(** [d LEFT JOIN t ON d.commit_seq_num = t.commit_seq_num] for one row of [d]. *)
Definition left_join (include : bool) (t : list (ledger_row Note)) (x : src_row A) : list (audit_row Note A) :=
  if include then
    match filter (λ r, lg_seq r = commit_seq_num x) t with
    | [] => [(x, Some None)]
    | matches => (λ r, (x, Some (Some (lg_note r)))) <$> matches
    end
  else [(x, None)].

(** The conditions on [d]. *)
Definition audit_where (from to seq_from seq_to : option Z) (row_uuids : option (list Z)) (x : src_row A) : bool :=
  at_least from (commit_micros x) && below to (commit_micros x)
  && at_least seq_from (commit_seq_num x) && below seq_to (commit_seq_num x)
  && row_uuid_in_clause row_uuids (row_uuid x).

(** [ORDER BY d.commit_seq_num] *)
Definition by_commit_seq (x y : audit_row Note A) : Prop := commit_seq_num x.1 ≤ commit_seq_num y.1.

#[export] Instance by_commit_seq_dec : RelDecision by_commit_seq.
Proof. intros x y. unfold by_commit_seq. apply _. Defined.

Definition cold_audit_batches (data : list (src_row A)) (t : list (ledger_row Note)) (include : bool)
    (from to seq_from seq_to : option Z) (row_uuids : option (list Z)) : list (audit_row Note A) :=
  merge_sort by_commit_seq
    (filter (λ x, audit_where from to seq_from seq_to row_uuids x.1 = true) (mbind (left_join include t) data)).

(** One log kind of [cold_upsert_audit_batches] / [cold_delete_audit_batches]. *)
Definition cold_log_audit_batches (files : gmap Z (list (ledger_row Note))) (segments : list (PersistSegment A))
    (tx_log_segments : list TxLogRef) (include : bool) (from to seq_from seq_to : option Z)
    (row_uuids : option (list Z)) : result ApiError (list (audit_row Note A)) :=
  match segments with
  | [] => Ok []
  | _ =>
      let? t := read_tx_log_batches files tx_log_segments include in
      Ok (cold_audit_batches (cold_log segments) t include from to seq_from seq_to row_uuids)
  end.

(** ** The hot arm *)

(** [ORDER BY t.commit_micros, ...]; the second key orders the rows of one
    commit. *)
Definition by_commit_micros (rank : Z → Z) (x y : audit_row Note A) : Prop :=
  commit_micros x.1 < commit_micros y.1 ∨
  (commit_micros x.1 = commit_micros y.1 ∧ rank (row_uuid x.1) ≤ rank (row_uuid y.1)).

#[export] Instance by_commit_micros_dec rank : RelDecision (by_commit_micros rank).
Proof. intros x y. unfold by_commit_micros. apply _. Defined.

(** [log INNER JOIN commit_tx_log USING (tx_uuid)] with the author and comment
    of the commit. *)
Definition hot_join (note_of : Z → Note) (include : bool) (log : list (log_row A)) (clog : list commit_row) :
    list (audit_row Note A) :=
  mbind (λ u, (λ c, (SrcRow (lr_row_uuid u) (lr_cols u) (ct_commit_micros c) (lr_write_seq_num u) (ct_commit_seq_num c),
                     if include then Some (Some (note_of (ct_tx_uuid c))) else None))
              <$> filter (λ c, ct_tx_uuid c = lr_tx_uuid u) clog) log.

Definition audit_stream (note_of : Z → Note) (rank : Z → Z) (log : list (log_row A)) (clog : list commit_row)
    (from_micros to_micros from_seq to_seq : option Z) (row_uuids : option (list Z)) (include : bool) :
    list (audit_row Note A) :=
  merge_sort (by_commit_micros rank)
    (filter (λ x, audit_where from_micros to_micros from_seq to_seq row_uuids x.1 = true)
       (hot_join note_of include log clog)).

End rows.

(** ** The two streams *)

Section streams.
Context {Note V : Type} (note_of : Z → Note).
(** the order of a delete's primary-key columns, by the row they identify *)
Context (pk_rank : Z → Z).
Context (files : gmap Z (list (ledger_row Note))) (p : AuditPlan V).

Definition audit_log {A} (rank : Z → Z) (segments base_segments : list (PersistSegment A)) (log : list (log_row A))
    (clog : list commit_row) : result ApiError (list (audit_row Note A)) :=
  let include := ap_include_tx_metadata p in
  let? cold := cold_log_audit_batches files segments (ap_tx_log_segments p) include
                 (ap_cold_from p) (ap_cold_to p) (ap_seq_from p) (ap_seq_to p) (ap_row_uuids p) in
  let? base := cold_log_audit_batches files base_segments (ap_base_tx_log_segments p) include
                 (ap_cold_from p) (ap_base_cold_to p) (ap_seq_from p) (ap_base_seq_to p) (ap_row_uuids p) in
  Ok (cold ++ base ++
      audit_stream note_of rank log clog (ap_hot_from p) (ap_hot_to p) (ap_seq_from p) (ap_seq_to p) (ap_row_uuids p) include).

Definition audit_upserts (log : list (log_row V)) (clog : list commit_row) : result ApiError (list (audit_row Note V)) :=
  audit_log (λ r, r) (ap_cold_upsert_segments p) (ap_base_cold_upsert_segments p) log clog.

Definition audit_deletes (log : list (log_row unit)) (clog : list commit_row) : result ApiError (list (audit_row Note unit)) :=
  audit_log pk_rank (ap_cold_delete_segments p) (ap_base_cold_delete_segments p) log clog.

End streams.
