(* ===== verification/Lifecycle.v ===== *)
(** * Persist, snapshot and purge of one table (penca-api/src/lifecycle/
      {persist,snapshot_op,purge}.rs, penca-storage-meta/src/{persist,snapshot,purge}.rs)

    Persist copies committed hot rows into size-bounded cold segments, snapshot
    folds the cold segments since the previous snapshot into a new baseline, and
    purge clears the hot rows the baseline covers.  The snapshot is modelled on
    its full-rewrite path. *)

From S2P Require Import Prelude CoreTypes Watermarks ReadSnapshot Dialect MergeSql IndexSeek Plan SnapshotScan IndexSelect TxLog TableStore Chunker ReadPath.
From stdpp Require Import base numbers list option sets gmap sorting.

Open Scope Z_scope.
Open Scope result_scope.

(** ** Interfaces to the physical layout *)

(** The Arrow batch of cold-layout rows, as the chunker costs it. *)
Class ColdBatch (A : Type) := to_batch : list (src_row A) → batch.

(** Its columns have supported types, so every row has a cost. *)
Class ColdBatchLaws {A} (C : ColdBatch A) : Prop := {
  to_batch_rows : ∀ l, num_rows (to_batch l) = length l;
  to_batch_costed : ∀ l, ∃ cost, costed (build (to_batch l)) cost 0 (length l);
}.

(** Partitioning, packing and index building of a snapshot's rows; the empty
    merge is laid out as one zero-row placeholder segment. *)
Class SnapshotLayout (V : Type) := {
  lay_out : list SnapshotIndexDef → list (Z * V) → list (SnapshotSegment V);
}.

Class SnapshotLayoutLaws {V} (L : SnapshotLayout V) (value : Z → Z * V → cell)
    (index_key : Z → Z * V → list cell) : Prop := {
  lay_out_rows : ∀ defs rows, mbind snapshot_rows (lay_out defs rows) ≡ₚ rows;
  lay_out_wf : ∀ defs rows g, g ∈ lay_out defs rows → seg_wf index_key g;
}.

(** ** Persist *)

(** [ORDER BY (commit_seq_num, write_seq_num)] *)
Definition version_order {A} (x y : src_row A) : Prop :=
  commit_seq_num x < commit_seq_num y ∨
  (commit_seq_num x = commit_seq_num y ∧ write_seq_num x ≤ write_seq_num y).

#[export] Instance version_order_dec {A} : RelDecision (@version_order A).
Proof. intros x y. unfold version_order. apply _. Defined.

Definition slice {A} (l : list A) (off len : nat) : list A := take len (drop off l).

Definition chunk_persist_batch {A} `{ColdBatch A} (rows : list (src_row A)) (max_segment_bytes : Z) :
    result ApiError (list (list (src_row A))) :=
  let sorted := merge_sort version_order rows in
  let? ranges := chunk_row_ranges (to_batch sorted) max_segment_bytes in
  Ok ((λ r : nat * nat * Z, slice sorted r.1.1 r.1.2) <$> ranges).

Definition effective_target (request_target_micros : option Z) (step1_now : Z) : Z :=
  default step1_now request_target_micros.

(** [read_committed_upserts] / [read_committed_deletes] with no lower bound and
    the exclusive upper bound [effective_target + 1]. *)
Definition read_committed {A} (clog : list commit_row) (log : list (log_row A)) (max_filter : option Z) :
    list (src_row A) :=
  filter (λ x, match max_filter with Some mx => commit_micros x <? mx | None => true end = true)
    (hot_source None log clog).

Definition batch_committed_at_bounds {A} (rows : list (src_row A)) : option (Z * Z) :=
  match zmin_list (commit_micros <$> rows), zmax_list (commit_micros <$> rows) with
  | Some a, Some b => Some (a, b)
  | _, _ => None
  end.

Definition batch_commit_seq_num_bounds {A} (rows : list (src_row A)) : option (Z * Z) :=
  match zmin_list (commit_seq_num <$> rows), zmax_list (commit_seq_num <$> rows) with
  | Some a, Some b => Some (a, b)
  | _, _ => None
  end.

(** [insert_table_persist]: keyed by uuid, a repeat refreshes the watermark and
    leaves the row committed or uncommitted as it was. *)
Definition insert_table_persist (u at_micros : Z) (k : LogKind) (l : list persist_header) :
    list persist_header :=
  if decide (u ∈ ph_uuid <$> l) then
    (λ p, if decide (ph_uuid p = u)
          then {| ph_uuid := u; ph_log_kind := k; ph_persisted_at_micros := at_micros;
                  ph_commit_micros := ph_commit_micros p |}
          else p) <$> l
  else l ++ [{| ph_uuid := u; ph_log_kind := k; ph_persisted_at_micros := at_micros;
                ph_commit_micros := None |}].

Definition commit_table_persist (u now : Z) (l : list persist_header) : list persist_header :=
  (λ p, if decide (ph_uuid p = u)
        then {| ph_uuid := ph_uuid p; ph_log_kind := ph_log_kind p;
                ph_persisted_at_micros := ph_persisted_at_micros p; ph_commit_micros := Some now |}
        else p) <$> l.

(** [insert_table_persist_segment] then its commit: keyed by uuid, a repeat
    re-points the rows and keeps the recorded bounds. *)
Definition write_segment {A} (seg : segment_meta A) (l : list (segment_meta A)) : list (segment_meta A) :=
  if decide (sg_uuid seg ∈ sg_uuid <$> l) then
    (λ g, if decide (sg_uuid g = sg_uuid seg)
          then {| sg_uuid := sg_uuid g; sg_table_persist_uuid := sg_table_persist_uuid g; sg_chunk_idx := sg_chunk_idx g;
                  sg_min_tx_commit_micros := sg_min_tx_commit_micros g;
                  sg_max_tx_commit_micros := sg_max_tx_commit_micros g;
                  sg_min_commit_seq_num := sg_min_commit_seq_num g;
                  sg_max_commit_seq_num := sg_max_commit_seq_num g;
                  sg_rows := sg_rows seg; sg_commit_micros := sg_commit_micros seg |}
          else g) <$> l
  else l ++ [seg].

Section lifecycle.
Context {V : Type} `{ColdBatch V, ColdBatch unit, SnapshotLayout V}.

(** Deterministic identities (naming.rs). *)
Context (table_persist_uuid : Z → LogKind → Z) (table_persist_segment_uuid : Z → Z → Z)
        (table_snapshot_uuid : Z → Z).

(** The segment rows of one log kind, one per chunk. *)
Fixpoint segment_steps {A} (now persist_uuid chunk_idx : Z) (chunks : list (list (src_row A))) :
    result ApiError (list (segment_meta A)) :=
  match chunks with
  | [] => Ok []
  | rows :: rest =>
      match batch_committed_at_bounds rows, batch_commit_seq_num_bounds rows with
      | Some (min_ts, max_ts), Some (min_seq, max_seq) =>
          let? segs := segment_steps now persist_uuid (chunk_idx + 1) rest in
          Ok ({| sg_uuid := table_persist_segment_uuid persist_uuid chunk_idx;
                 sg_table_persist_uuid := persist_uuid; sg_chunk_idx := chunk_idx;
                 sg_min_tx_commit_micros := min_ts; sg_max_tx_commit_micros := max_ts;
                 sg_min_commit_seq_num := min_seq; sg_max_commit_seq_num := max_seq;
                 sg_rows := rows; sg_commit_micros := Some now |} :: segs)
      | _, _ => Err InvalidRequest
      end
  end.

(** One log kind of [phase1_durable_writes]; an empty batch is skipped. *)
Definition persist_kind {A} `{ColdBatch A} (now target at_micros max_segment_bytes : Z) (k : LogKind)
    (rows : list (src_row A)) (headers : list persist_header) (segs : list (segment_meta A)) :
    result ApiError (list persist_header * list (segment_meta A)) :=
  match rows with
  | [] => Ok (headers, segs)
  | _ =>
      let u := table_persist_uuid target k in
      let? chunks := chunk_persist_batch rows max_segment_bytes in
      let? steps := segment_steps now u 0 chunks in
      Ok (insert_table_persist u at_micros k headers, foldl (λ l s, write_segment s l) segs steps)
  end.

(** [phase2_parent_flip] of the kinds that were written. *)
Definition flip_kind {A} (now target : Z) (k : LogKind) (rows : list (src_row A))
    (headers : list persist_header) : list persist_header :=
  match rows with [] => headers | _ => commit_table_persist (table_persist_uuid target k) now headers end.

Definition persist_locked (max_segment_bytes : Z) (st : branch_state V) (now : Z)
    (target_micros : option Z) : result ApiError (branch_state V * option Z) :=
  let target := effective_target target_micros now in
  if target <=? 0 then Ok (st, None)
  else
    let ts := bs_table st in
    let clog := tx_commit_log (bs_tx st) in
    let max_filter := Some (sat_add target 1) in
    let upserts := read_committed clog (ts_upserts ts) max_filter in
    let deletes := read_committed clog (ts_deletes ts) max_filter in
    match zmax_list ((commit_micros <$> upserts) ++ (commit_micros <$> deletes)) with
    | None => Ok (st, None)
    | Some candidate =>
        if match persist_wm (ts_meta ts) with Some last => candidate <=? last | None => false end
        then Ok (st, None)
        else
          let m := ts_meta ts in
          let? '(h1, us) := persist_kind now target candidate max_segment_bytes UpsertLog upserts
                              (tm_persists m) (tm_upsert_segments m) in
          let? '(h2, ds) := persist_kind now target candidate max_segment_bytes DeleteLog deletes
                              h1 (tm_delete_segments m) in
          let h3 := flip_kind now target DeleteLog deletes (flip_kind now target UpsertLog upserts h2) in
          let m' := {| tm_persists := h3; tm_upsert_segments := us; tm_delete_segments := ds;
                       tm_snapshots := tm_snapshots m; tm_purges := tm_purges m |} in
          Ok ({| bs_tx := bs_tx st;
                 bs_table := {| ts_upserts := ts_upserts ts; ts_deletes := ts_deletes ts;
                                ts_write_sequence := ts_write_sequence ts;
                                ts_tx_table_log := ts_tx_table_log ts; ts_meta := m' |} |},
              Some candidate)
    end.

(** ** Snapshot *)

(** [None] is the empty-response fast path. *)
Definition compute_snapshot_window (m : table_meta V) (as_of_micros : option Z) :
    option (Z * option (snapshot_meta V)) :=
  let prior := read_snapshot_segments_for_table m None None in
  let persisted_at := match persist_wm m with Some v => if 0 <? v then Some v else None | None => None end in
  let upper := match as_of_micros, persisted_at with
               | Some t, Some p => Some (Z.min t p)
               | None, Some p => Some p
               | _, None => None
               end in
  match upper with
  | None => None
  | Some u =>
      match prior with
      | Some s => if u <=? sn_snapshotted_at_micros s then None else Some (u, prior)
      | None => Some (u, prior)
      end
  end.

Definition assemble_cold_only_plan (m : table_meta V) (snapshotted_at : Z)
    (prior : option (snapshot_meta V)) : Plan V :=
  let from_micros := (λ s, sat_add (sn_snapshotted_at_micros s) 1) <$> prior in
  let to_micros := Some (sat_add snapshotted_at 1) in
  let '(us, ds) := read_persist_segments_for_window m from_micros to_micros None in
  {| hot_storage := None;
     cold_storage := Some
       {| snapshot :=
            (λ s, {| sp_segments := filter (λ g, snapshot_rows g ≠ []) (sn_segments s);
                     sp_indexes := []; sp_snapshotted_at_micros := sn_snapshotted_at_micros s;
                     sp_commit_seq_num := 0 |}) <$> prior;
          persist :=
            if is_empty us && is_empty ds then None
            else Some {| upsert_segments := us; delete_segments := ds;
                         pp_committed_at := Some {| min_micros := from_micros; max_micros := to_micros |};
                         pp_commit_seq := None |} |};
     base_cold_storage := None |}.

Definition last_durable_snapshot_at (m : table_meta V) : option Z :=
  zmax_list (sn_snapshotted_at_micros <$>
    filter (λ s, sn_durable s = true) (committed sn_commit_micros (tm_snapshots m))).

Definition snapshot_locked (schema : list Z) (user_indexes : list SnapshotIndexDef)
    (density_seconds : option Z) (may_match : (Z * V → bool) → SnapshotSegment V → bool)
    (st : branch_state V) (now : Z) (as_of_micros : option Z) :
    result (ApiError + MergeError) (branch_state V * option Z) :=
  let ts := bs_table st in
  let m := ts_meta ts in
  match compute_snapshot_window m as_of_micros with
  | None => Ok (st, None)
  | Some (snapshotted_at, prior) =>
      let from_micros := (λ s, sat_add (sn_snapshotted_at_micros s) 1) <$> prior in
      let fold_seqs := option_list
        (max_persisted_segment_seq_for_window m from_micros (Some (sat_add snapshotted_at 1))) in
      let w := compute_snapshot_seq_watermark (sn_commit_seq_num <$> prior) fold_seqs in
      let durable := decide_durable (last_durable_snapshot_at m) snapshotted_at density_seconds in
      let req := {| rq_plan := assemble_cold_only_plan m snapshotted_at prior; rq_db := hot_view st;
                    rq_schema := schema; rq_snapshot := AsOfMicros snapshotted_at;
                    rq_filter := None; rq_seeks := None;
                    rq_tuning := {| snapshot_prune_min_segments := 0; segment_order_of := ByPlan |} |} in
      match stream_all_cold may_match req with
      | Err e => Err (inr e)
      | Ok rows =>
          let sn := {| sn_uuid := table_snapshot_uuid snapshotted_at;
                       sn_snapshotted_at_micros := snapshotted_at; sn_commit_seq_num := w;
                       sn_segments := lay_out user_indexes rows; sn_indexes := user_indexes;
                       sn_durable := durable; sn_commit_micros := Some now |} in
          let m' := {| tm_persists := tm_persists m; tm_upsert_segments := tm_upsert_segments m;
                       tm_delete_segments := tm_delete_segments m;
                       tm_snapshots := tm_snapshots m ++ [sn]; tm_purges := tm_purges m |} in
          Ok ({| bs_tx := bs_tx st;
                 bs_table := {| ts_upserts := ts_upserts ts; ts_deletes := ts_deletes ts;
                                ts_write_sequence := ts_write_sequence ts;
                                ts_tx_table_log := ts_tx_table_log ts; ts_meta := m' |} |},
              Some snapshotted_at)
      end
  end.

(** ** Purge *)

(** [DELETE FROM log WHERE tx_uuid IN (doomed)] *)
Definition delete_hot_rows {A} (doomed : list Z) (log : list (log_row A)) : list (log_row A) :=
  filter (λ u, lr_tx_uuid u ∉ doomed) log.

Definition clear_hot (doomed : list Z) (ts : table_store V) : table_store V :=
  {| ts_upserts := delete_hot_rows doomed (ts_upserts ts);
     ts_deletes := delete_hot_rows doomed (ts_deletes ts);
     ts_write_sequence := ts_write_sequence ts;
     ts_tx_table_log := ts_tx_table_log ts; ts_meta := ts_meta ts |}.

Definition expired_begin_txs (l : tx_logs) (now : Z) : list Z :=
  fst <$> filter (λ p : Z * begin_row, expires_at_micros p.2 < now ∧
            find_commit l p.1 = None ∧ find_abort l p.1 = None)
    (map_to_list (begin_tx_log l)).

Definition latest_snapshot_seq (m : table_meta V) : option Z :=
  zmax_list (sn_commit_seq_num <$> committed sn_commit_micros (tm_snapshots m)).

Definition last_purged_aborted (m : table_meta V) : option Z :=
  zmax_list (omap pm_last_purged_aborted_seq_num (committed pm_commit_micros (tm_purges m))).

Definition committed_upto (l : tx_logs) (pu : Z) : list Z :=
  ct_tx_uuid <$> filter (λ c, ct_commit_seq_num c ≤ pu) (tx_commit_log l).
Definition aborted_below (l : tx_logs) (pa : Z) : list Z :=
  at_tx_uuid <$> filter (λ a, at_aborted_at_seq_num a < pa) (abort_tx_log l).

Definition purge_locked (st : branch_state V) (now : Z) : branch_state V * option Z :=
  let l := bs_tx st in
  let ts0 := clear_hot (expired_begin_txs l now) (bs_table st) in
  let m := ts_meta ts0 in
  let last_pu := last_purged_seq m in
  let pu_advance := compute_purge_watermark (latest_snapshot_seq m) last_pu in
  let last_pa := last_purged_aborted m in
  let pa_advance := compute_purge_watermark (Some (abort_seq_num l))
                      (match last_pa with Some v => Some v | None => Some 0 end) in
  match pu_advance, pa_advance with
  | None, None => ({| bs_tx := l; bs_table := ts0 |}, last_pu)
  | _, _ =>
      let ts1 := match pu_advance with Some pu => clear_hot (committed_upto l pu) ts0 | None => ts0 end in
      let ts2 := match pa_advance with Some pa => clear_hot (aborted_below l pa) ts1 | None => ts1 end in
      let m' := {| tm_persists := tm_persists m; tm_upsert_segments := tm_upsert_segments m;
                   tm_delete_segments := tm_delete_segments m; tm_snapshots := tm_snapshots m;
                   tm_purges := tm_purges m ++
                     [{| pm_last_purged_commit_seq_num := pu_advance;
                         pm_last_purged_aborted_seq_num := pa_advance;
                         pm_commit_micros := Some now |}] |} in
      ({| bs_tx := l;
          bs_table := {| ts_upserts := ts_upserts ts2; ts_deletes := ts_deletes ts2;
                         ts_write_sequence := ts_write_sequence ts2;
                         ts_tx_table_log := ts_tx_table_log ts2; ts_meta := m' |} |},
       match pu_advance with Some pu => Some pu | None => last_pu end)
  end.
End lifecycle.
