(* ===== verification/ReadLemmas.v ===== *)
(** * Correctness of the merge read's steps

    The cross-tier dedup keeps, per row, the first row of greatest
    [commit_micros]; with hot placed before cold this makes the union of two
    tiers' resolves the resolve of the union of their versions; the exclusion
    set and the snapshot stream then complete it to the whole table. *)

From S2P Require Import Prelude ReadSnapshot Dialect MergeSql IndexSeek Plan SnapshotScan ReadPath.
From stdpp Require Import base numbers list option sets gmap.

Open Scope Z_scope.

(** ** Dedup *)

Section dedup.
Context {V : Type}.
Implicit Types (batch : list (resolved_row V)) (x y : resolved_row V).

(** [x] at position [i] is the row kept for its [row_uuid]. *)
Definition kept_at batch (i : nat) x : Prop :=
  batch !! i = Some x ∧
  ∀ j y, batch !! j = Some y → rr_row_uuid y = rr_row_uuid x →
    rr_commit_micros y ≤ rr_commit_micros x ∧
    ((j < i)%nat → rr_commit_micros y < rr_commit_micros x).

Lemma dedup_best_snoc batch x :
  dedup_best (batch ++ [x]) = dedup_step (dedup_best batch) (length batch, x).
Proof.
  unfold dedup_best. rewrite imap_app, foldl_app. simpl. by rewrite Nat.add_0_r.
Qed.

Lemma kept_at_snoc_old batch x i y :
  kept_at batch i y →
  (rr_row_uuid x = rr_row_uuid y → rr_commit_micros x ≤ rr_commit_micros y) →
  kept_at (batch ++ [x]) i y.
Proof.
  intros [Hi Hall] Hx. split; [by apply lookup_app_l_Some|].
  intros j z [Hj|[Hj Hz]]%lookup_app_Some Heq; [eauto|].
  apply list_lookup_singleton_Some in Hz as [Hz0 <-].
  apply lookup_lt_Some in Hi. split; [auto|lia].
Qed.

Lemma kept_at_snoc_new batch x :
  (∀ j y, batch !! j = Some y → rr_row_uuid y = rr_row_uuid x → rr_commit_micros y < rr_commit_micros x) →
  kept_at (batch ++ [x]) (length batch) x.
Proof.
  intros Hall. split; [by apply list_lookup_middle|].
  intros j z [Hj|[Hj Hz]]%lookup_app_Some Heq.
  - specialize (Hall j z Hj Heq). lia.
  - apply list_lookup_singleton_Some in Hz as [? <-]. lia.
Qed.

Lemma dedup_best_spec batch u :
  match dedup_best batch !! u with
  | None => ∀ x, x ∈ batch → rr_row_uuid x ≠ u
  | Some (i, t) => ∃ x, kept_at batch i x ∧ rr_row_uuid x = u ∧ rr_commit_micros x = t
  end.
Proof.
  revert u. induction batch as [|x batch IH] using rev_ind; intros u.
  { unfold dedup_best. simpl. rewrite lookup_empty. set_solver. }
  rewrite dedup_best_snoc. unfold dedup_step.
  pose proof (IH (rr_row_uuid x)) as IHx. specialize (IH u).
  destruct (decide (rr_row_uuid x = u)) as [Hu|Hu].
  - rewrite Hu in *. destruct (dedup_best batch !! u) as [[i t]|] eqn:E.
    + destruct IH as (y & Hk & Hy & Ht). destruct (Z.ltb_spec t (rr_commit_micros x)) as [Hlt|Hge].
      * rewrite lookup_insert_eq. exists x. split; [|done]. apply kept_at_snoc_new.
        intros j z Hz Heq. destruct Hk as [_ Hall]. destruct (Hall j z Hz); [congruence|lia].
      * rewrite E. exists y. split; [|done]. apply kept_at_snoc_old; [done|]. lia.
    + rewrite lookup_insert_eq. exists x. split; [|done]. apply kept_at_snoc_new.
      intros j z Hz Heq. destruct (IH z); [by eapply list_elem_of_lookup_2|congruence].
  - assert (dedup_step (dedup_best batch) (length batch, x) !! u = dedup_best batch !! u) as Hl.
    { unfold dedup_step. destruct (dedup_best batch !! rr_row_uuid x) as [[i t]|].
      - destruct (t <? rr_commit_micros x); [by rewrite lookup_insert_ne|done].
      - by rewrite lookup_insert_ne. }
    unfold dedup_step in Hl. rewrite Hl.
    destruct (dedup_best batch !! u) as [[i t]|].
    + destruct IH as (y & Hk & Hy & Ht). exists y. split; [|done].
      apply kept_at_snoc_old; [done|congruence].
    + intros y [Hy| ->%list_elem_of_singleton]%elem_of_app; [by apply IH|done].
Qed.

Lemma kept_at_fun batch i j x y :
  kept_at batch i x → kept_at batch j y → rr_row_uuid x = rr_row_uuid y → i = j.
Proof.
  intros [Hi Hx] [Hj Hy] Heq. destruct (Hx j y Hj ltac:(done)) as [? Hji].
  destruct (Hy i x Hi ltac:(done)) as [? Hij].
  destruct (Nat.lt_trichotomy i j) as [?|[?|?]]; [|done|].
  - specialize (Hij ltac:(done)). lia.
  - specialize (Hji ltac:(done)). lia.
Qed.

Lemma dedup_keep batch i x :
  batch !! i = Some x →
  i ∈ ((λ p : Z * (nat * Z), p.2.1) <$> map_to_list (dedup_best batch)) ↔ kept_at batch i x.
Proof.
  intros Hi. rewrite list_elem_of_fmap. split.
  - intros ([u [j t]] & -> & Hp%elem_of_map_to_list). simpl in *.
    pose proof (dedup_best_spec batch u) as Hs. rewrite Hp in Hs.
    destruct Hs as (y & Hk & _). destruct Hk as [Hj Hk]. assert (x = y) as -> by congruence. done.
  - intros Hk. pose proof (dedup_best_spec batch (rr_row_uuid x)) as Hs.
    destruct (dedup_best batch !! rr_row_uuid x) as [[j t]|] eqn:E.
    + destruct Hs as (y & Hk' & Hy & _). exists (rr_row_uuid x, (j, t)).
      split; [simpl; symmetry; eapply kept_at_fun; eauto|by apply elem_of_map_to_list].
    + destruct (Hs x); [by eapply list_elem_of_lookup_2|done].
Qed.

Lemma dedup_elem batch x :
  x ∈ dedup_by_row_uuid batch ↔ ∃ i, kept_at batch i x.
Proof.
  unfold dedup_by_row_uuid. rewrite list_elem_of_fmap. split.
  - intros ([i y] & -> & [Hk Hi%elem_of_imap_pair]%list_elem_of_filter).
    simpl in *. exists i. by eapply dedup_keep.
  - intros [i Hk]. exists (i, x). split; [done|]. apply list_elem_of_filter.
    pose proof (proj1 Hk) as Hi. split; [by apply (dedup_keep batch i x)|by apply elem_of_imap_pair].
Qed.

Lemma NoDup_imap_pair_filter {A} (P : nat * A → Prop) `{!∀ p, Decision (P p)} (f : A → Z) (l : list A) :
  (∀ i j (x y : A), P (i, x) → P (j, y) → l !! i = Some x → l !! j = Some y → f x = f y → i = j) →
  NoDup (f <$> (snd <$> filter P (imap pair l))).
Proof.
  intros Hinj. rewrite <- list_fmap_compose.
  apply NoDup_fmap_2_strong.
  - intros [i x] [j y] [HPi Hi%elem_of_imap_pair]%list_elem_of_filter
      [HPj Hj%elem_of_imap_pair]%list_elem_of_filter Heq. simpl in *.
    assert (i = j) as -> by eauto. congruence.
  - apply NoDup_filter. apply NoDup_alt. intros a b p Ha Hb.
    rewrite !list_lookup_imap in *. destruct (l !! a), (l !! b); simplify_eq/=. done.
Qed.

Lemma dedup_nodup batch : NoDup (rr_row_uuid <$> dedup_by_row_uuid batch).
Proof.
  apply NoDup_imap_pair_filter. intros i j x y Hi Hj Hx Hy Heq.
  apply (dedup_keep batch i x Hx) in Hi. apply (dedup_keep batch j y Hy) in Hj.
  by eapply kept_at_fun.
Qed.

Lemma union_latest_dedup a b : union_latest a b = @dedup_by_row_uuid V (a ++ b).
Proof. destruct a as [|x a], b as [|y b]; simpl; [done|done|by rewrite app_nil_r|done]. Qed.

(** The first argument wins ties. *)
Lemma union_latest_elem (a b : list (resolved_row V)) x :
  NoDup (rr_row_uuid <$> a) → NoDup (rr_row_uuid <$> b) →
  x ∈ union_latest a b ↔
    (x ∈ a ∧ ∀ y, y ∈ b → rr_row_uuid y = rr_row_uuid x → rr_commit_micros y ≤ rr_commit_micros x) ∨
    (x ∈ b ∧ ∀ y, y ∈ a → rr_row_uuid y = rr_row_uuid x → rr_commit_micros y < rr_commit_micros x).
Proof.
  intros Ha Hb. rewrite union_latest_dedup, dedup_elem. split.
  - intros (i & [Hi|[Hi Hx]]%lookup_app_Some & Hall).
    + left. split; [by eapply list_elem_of_lookup_2|]. intros y [j Hj]%list_elem_of_lookup Heq.
      apply (Hall (length a + j)%nat y); [|done]. rewrite lookup_app_r by lia. rewrite <- Hj. f_equal. lia.
    + right. split; [by eapply list_elem_of_lookup_2|]. intros y [j Hj]%list_elem_of_lookup Heq.
      apply (Hall j y); [by apply lookup_app_l_Some|done|]. apply lookup_lt_Some in Hj. lia.
  - intros [[Hx Hall]|[Hx Hall]]; pose proof Hx as Hx0; apply list_elem_of_lookup in Hx as [i Hi].
    + exists i. split; [by apply lookup_app_l_Some|].
      intros j y [Hj|[Hj Hy]]%lookup_app_Some Heq.
      * assert (y = x) as ->; [|].
        { eapply (NoDup_fmap_eq rr_row_uuid a); eauto. by eapply list_elem_of_lookup_2. }
        assert (j = i) as -> by (eapply NoDup_lookup; [eapply NoDup_fmap_1; exact Ha|done|done]).
        split; lia.
      * split; [apply Hall; [by eapply list_elem_of_lookup_2|done]|]. apply lookup_lt_Some in Hi. lia.
    + exists (length a + i)%nat. split.
      { rewrite lookup_app_r by lia. rewrite <- Hi. f_equal. lia. }
      intros j y [Hj|[Hj Hy]]%lookup_app_Some Heq.
      * assert (rr_commit_micros y < rr_commit_micros x); [|lia].
        apply Hall; [by eapply list_elem_of_lookup_2|done].
      * assert (y = x) as ->; [|].
        { eapply (NoDup_fmap_eq rr_row_uuid b); eauto. by eapply list_elem_of_lookup_2. }
        assert (j - length a = i)%nat by (eapply NoDup_lookup; [eapply NoDup_fmap_1; exact Hb|done|done]).
        split; lia.
Qed.

Lemma union_latest_touched (a b : list (resolved_row V)) u :
  NoDup (rr_row_uuid <$> a) → NoDup (rr_row_uuid <$> b) →
  u ∈ rr_row_uuid <$> union_latest a b ↔ u ∈ rr_row_uuid <$> a ∨ u ∈ rr_row_uuid <$> b.
Proof.
  intros Ha Hb. rewrite !list_elem_of_fmap. split.
  - intros (x & -> & [[Hx _]|[Hx _]]%union_latest_elem); [left|right| |]; eauto.
  - assert (∀ x, x ∈ a ∨ x ∈ b → ∃ y, rr_row_uuid x = rr_row_uuid y ∧ y ∈ union_latest a b) as Hex.
    { intros x Hx. pose proof (dedup_best_spec (a ++ b) (rr_row_uuid x)) as Hs.
      destruct (dedup_best (a ++ b) !! rr_row_uuid x) as [[i t]|].
      - destruct Hs as (y & Hk & Hy & _). exists y. split; [done|].
        rewrite union_latest_dedup. apply dedup_elem. eauto.
      - destruct (Hs x); [by apply elem_of_app|done]. }
    intros [(x & -> & Hx)|(x & -> & Hx)]; apply Hex; auto.
Qed.
End dedup.

(** ** Tiers

    Everything below compares versions on [(commit_seq_num, write_seq_num)]. *)

Notation live := (live_version OrderCommitSeqNum).
Notation dead := (dead_version OrderCommitSeqNum).
Notation resolves := (resolve_ok OrderCommitSeqNum).

(** Lists with the same elements; [live], [dead] and [touched] only depend on it. *)
Definition same_elems {A} (l k : list A) : Prop := ∀ x, x ∈ l ↔ x ∈ k.

#[export] Instance same_elems_equiv {A} : Equivalence (@same_elems A).
Proof. split; intros x; unfold same_elems; naive_solver. Qed.

#[export] Instance live_proper {V} :
  Proper (same_elems ==> same_elems ==> eq ==> iff) (@live_version OrderCommitSeqNum V).
Proof.
  intros U U' HU D D' HD u ? <-. unfold live_version, same_elems in *.
  setoid_rewrite HU. setoid_rewrite HD. done.
Qed.

#[export] Instance touched_proper {V} :
  Proper (same_elems ==> same_elems ==> eq ==> iff) (@touched V).
Proof.
  intros U U' HU D D' HD r ? <-. unfold touched, same_elems in *.
  setoid_rewrite HU. setoid_rewrite HD. done.
Qed.

(** Row, time and position of a version, upsert or delete. *)
Definition stamp {A} (x : src_row A) : Z * Z * Z := (row_uuid x, commit_micros x, commit_seq_num x).
Definition stamps {V} (U : list (src_row V)) (D : list (src_row unit)) : list (Z * Z * Z) :=
  (stamp <$> U) ++ (stamp <$> D).

(** The versions [(U1, D1)] are later than the versions [(U2, D2)] of the same row. *)
Definition tier_above {V} (U1 : list (src_row V)) D1 (U2 : list (src_row V)) D2 : Prop :=
  ∀ r m1 s1 m2 s2, (r, m1, s1) ∈ stamps U1 D1 → (r, m2, s2) ∈ stamps U2 D2 → s2 < s1 ∧ m2 ≤ m1.

Section tiers.
Context {V : Type}.
Implicit Types (U : list (src_row V)) (D : list (src_row unit)).

Lemma stamps_upsert U D u : u ∈ U → stamp u ∈ stamps U D.
Proof. intros. apply elem_of_app. left. apply list_elem_of_fmap. eauto. Qed.

Lemma stamps_delete U D d : d ∈ D → stamp d ∈ stamps U D.
Proof. intros. apply elem_of_app. right. apply list_elem_of_fmap. eauto. Qed.

Lemma tier_above_spec {A B} (x : src_row A) (y : src_row B) U1 D1 U2 D2 :
  tier_above U1 D1 U2 D2 → stamp x ∈ stamps U1 D1 → stamp y ∈ stamps U2 D2 →
  row_uuid y = row_uuid x → commit_seq_num y < commit_seq_num x ∧ commit_micros y ≤ commit_micros x.
Proof. unfold stamp. intros H Hx Hy Heq. rewrite Heq in Hy. eapply H; eauto. Qed.

Lemma seq_lt_klt {A B} (x : src_row A) (y : src_row B) :
  commit_seq_num x < commit_seq_num y → klt OrderCommitSeqNum x y.
Proof. unfold klt. simpl. lia. Qed.

Lemma klt_kle {A B} (x : src_row A) (y : src_row B) :
  klt OrderCommitSeqNum x y → kle OrderCommitSeqNum x y.
Proof. unfold klt, kle. lia. Qed.

Hint Resolve seq_lt_klt klt_kle stamps_upsert stamps_delete : penca.

(** A resolved row stands for a version of its tier. *)
Lemma resolved_stamp U D out x :
  resolves U D out → x ∈ out → ∃ s, (rr_row_uuid x, rr_commit_micros x, s) ∈ stamps U D.
Proof.
  intros Hok Hx. destruct (ro_sound _ _ _ _ Hok x Hx)
    as [(_ & u & [Hu _] & -> & _ & ->)|(_ & d & [Hd _] & -> & ->)].
  - exists (commit_seq_num u). by apply (stamps_upsert U D u).
  - exists (commit_seq_num d). by apply (stamps_delete U D d).
Qed.

Lemma live_app_above U1 D1 U2 D2 u :
  tier_above U1 D1 U2 D2 → live U1 D1 u → live (U1 ++ U2) (D1 ++ D2) u.
Proof.
  intros Hab (Hu & HU & HD). split_and!; [set_solver| |].
  - intros u' [?|Hu']%elem_of_app Heq; [auto|].
    destruct (tier_above_spec u u' U1 D1 U2 D2); auto with penca.
  - intros d [?|Hd]%elem_of_app Heq; [auto|].
    destruct (tier_above_spec u d U1 D1 U2 D2); auto with penca.
Qed.

Lemma dead_app_above U1 D1 U2 D2 d :
  tier_above U1 D1 U2 D2 → dead U1 D1 d → dead (U1 ++ U2) (D1 ++ D2) d.
Proof.
  intros Hab (Hd & HD & HU). split_and!; [set_solver| |].
  - intros d' [?|Hd']%elem_of_app Heq; [auto|].
    destruct (tier_above_spec d d' U1 D1 U2 D2); auto with penca.
  - intros u [?|Hu]%elem_of_app Heq; [auto|].
    destruct (tier_above_spec d u U1 D1 U2 D2); auto with penca.
Qed.

Lemma live_app_untouched U1 D1 U2 D2 u :
  ¬ touched U1 D1 (row_uuid u) → live U2 D2 u → live (U1 ++ U2) (D1 ++ D2) u.
Proof.
  intros Hn (Hu & HU & HD). split_and!; [set_solver| |].
  - intros u' [?|?]%elem_of_app Heq; [|auto]. destruct Hn. left. eauto.
  - intros d [?|?]%elem_of_app Heq; [|auto]. destruct Hn. right. eauto.
Qed.

Lemma dead_app_untouched U1 D1 U2 D2 d :
  ¬ touched U1 D1 (row_uuid d) → dead U2 D2 d → dead (U1 ++ U2) (D1 ++ D2) d.
Proof.
  intros Hn (Hd & HD & HU). split_and!; [set_solver| |].
  - intros d' [?|?]%elem_of_app Heq; [|auto]. destruct Hn. right. eauto.
  - intros u [?|?]%elem_of_app Heq; [|auto]. destruct Hn. left. eauto.
Qed.

Lemma touched_app U1 D1 U2 D2 r :
  touched (U1 ++ U2) (D1 ++ D2) r ↔ touched U1 D1 r ∨ touched U2 D2 r.
Proof. unfold touched. set_solver. Qed.

(** The union of two tiers' resolves is the resolve of the union. *)
Lemma union_latest_resolves U1 D1 U2 D2 a b :
  resolves U1 D1 a → resolves U2 D2 b → tier_above U1 D1 U2 D2 →
  resolves (U1 ++ U2) (D1 ++ D2) (union_latest a b).
Proof.
  intros Ha Hb Hab. split.
  - rewrite union_latest_dedup. apply dedup_nodup.
  - intros x Hx. apply union_latest_elem in Hx; [|apply Ha|apply Hb].
    destruct Hx as [[Hx _]|[Hx Hlt]].
    + destruct (ro_sound _ _ _ _ Ha x Hx) as [(? & u & ? & ?)|(? & d & ? & ?)].
      * left. split; [done|]. exists u. split; [by apply live_app_above|done].
      * right. split; [done|]. exists d. split; [by apply dead_app_above|done].
    + assert (¬ touched U1 D1 (rr_row_uuid x)) as Hn.
      { intros Ht%(ro_complete _ _ _ _ Ha). apply list_elem_of_fmap in Ht as (y & Hy & Hya).
        specialize (Hlt y Hya (eq_sym Hy)).
        destruct (resolved_stamp _ _ _ _ Ha Hya) as [s1 Hs1].
        destruct (resolved_stamp _ _ _ _ Hb Hx) as [s2 Hs2]. rewrite Hy in Hs2.
        destruct (Hab _ _ _ _ _ Hs1 Hs2). lia. }
      destruct (ro_sound _ _ _ _ Hb x Hx) as [(? & u & Hl & Hr & ?)|(? & d & Hl & Hr & ?)].
      * left. split; [done|]. exists u. split; [|done]. rewrite Hr in Hn. by apply live_app_untouched.
      * right. split; [done|]. exists d. split; [|done]. rewrite Hr in Hn. by apply dead_app_untouched.
  - intros r Ht. apply union_latest_touched; [apply Ha|apply Hb|].
    rewrite touched_app in Ht. destruct Ht as [?%(ro_complete _ _ _ _ Ha)|?%(ro_complete _ _ _ _ Hb)]; auto.
Qed.

(** ** Overlay on a baseline *)

(** The rows [B] are the live state of the versions [(U0, D0)]. *)
Definition baseline_of U0 D0 (B : list (Z * V)) : Prop :=
  ∀ r v, (r, v) ∈ B ↔ ∃ u, live U0 D0 u ∧ row_uuid u = r ∧ cols u = v.

(** Every baseline version of a row the delta touches is dominated by the delta. *)
Definition dominates U D U0 D0 : Prop :=
  (∀ u0, u0 ∈ U0 → touched U D (row_uuid u0) →
     (∃ u, u ∈ U ∧ row_uuid u = row_uuid u0 ∧ kle OrderCommitSeqNum u0 u) ∨
     (∃ d, d ∈ D ∧ row_uuid d = row_uuid u0 ∧ klt OrderCommitSeqNum u0 d)) ∧
  (∀ d0, d0 ∈ D0 → touched U D (row_uuid d0) →
     (∃ u, u ∈ U ∧ row_uuid u = row_uuid d0 ∧ kle OrderCommitSeqNum d0 u) ∨
     (∃ d, d ∈ D ∧ row_uuid d = row_uuid d0 ∧ kle OrderCommitSeqNum d0 d)).

Lemma tier_above_dominates U D U0 D0 : tier_above U D U0 D0 → dominates U D U0 D0.
Proof.
  intros Hab. split.
  - intros u0 Hu0 [(u & Hu & Hr)|(d & Hd & Hr)]; [left; exists u|right; exists d].
    + destruct (tier_above_spec u u0 U D U0 D0); auto with penca.
    + destruct (tier_above_spec d u0 U D U0 D0); auto with penca.
  - intros d0 Hd0 [(u & Hu & Hr)|(d & Hd & Hr)]; [left; exists u|right; exists d].
    + destruct (tier_above_spec u d0 U D U0 D0); auto with penca.
    + destruct (tier_above_spec d d0 U D U0 D0); auto with penca.
Qed.

Lemma live_dominates U D U0 D0 u :
  dominates U D U0 D0 → live U D u → live (U ++ U0) (D ++ D0) u.
Proof.
  intros [H1 H2] Hl. pose proof (live_touched _ _ _ _ Hl) as Ht. destruct Hl as (Hu & HU & HD).
  split_and!; [set_solver| |].
  - intros u' [?|Hu']%elem_of_app Heq; [auto|].
    destruct (H1 u' Hu' ltac:(congruence)) as [(w & Hw & Hr & Hk)|(w & Hw & Hr & Hk)].
    + eapply kle_trans; [exact Hk|]. apply HU; [done|congruence].
    + eapply kle_trans; [apply klt_kle, Hk|]. apply HD; [done|congruence].
  - intros d [?|Hd']%elem_of_app Heq; [auto|].
    destruct (H2 d Hd' ltac:(congruence)) as [(w & Hw & Hr & Hk)|(w & Hw & Hr & Hk)].
    + eapply kle_trans; [exact Hk|]. apply HU; [done|congruence].
    + eapply kle_trans; [exact Hk|]. apply HD; [done|congruence].
Qed.

Lemma dead_dominates U D U0 D0 d :
  dominates U D U0 D0 → dead U D d → dead (U ++ U0) (D ++ D0) d.
Proof.
  intros [H1 H2] (Hd & HD & HU).
  assert (touched U D (row_uuid d)) as Ht by (right; eauto). split_and!; [set_solver| |].
  - intros d' [?|Hd']%elem_of_app Heq; [auto|].
    destruct (H2 d' Hd' ltac:(congruence)) as [(w & Hw & Hr & Hk)|(w & Hw & Hr & Hk)].
    + apply klt_kle. eapply kle_klt_trans; [exact Hk|]. apply HU; [done|congruence].
    + eapply kle_trans; [exact Hk|]. apply HD; [done|congruence].
  - intros u [?|Hu']%elem_of_app Heq; [auto|].
    destruct (H1 u Hu' ltac:(congruence)) as [(w & Hw & Hr & Hk)|(w & Hw & Hr & Hk)].
    + eapply kle_klt_trans; [exact Hk|]. apply HU; [done|congruence].
    + assert (kle OrderCommitSeqNum w d) as Hkd by (apply HD; [done|congruence]).
      unfold klt, kle in *. lia.
Qed.

(** Every row some version of which exists has a live version or a tombstone. *)
Lemma touched_live_or_dead U D r :
  touched U D r → (∃ u, live U D u ∧ row_uuid u = r) ∨ (∃ d, dead U D d ∧ row_uuid d = r).
Proof.
  intros Ht.
  pose proof (two_arm_ok OrderCommitSeqNum U D (DL := PgDialect_laws)) as Hok.
  destruct (proj1 (list_elem_of_fmap _ _ _) (ro_complete _ _ _ _ Hok r Ht)) as (x & -> & Hx).
  destruct (ro_sound _ _ _ _ Hok x Hx) as [(_ & u & Hl & -> & _)|(_ & d & Hd & -> & _)]; eauto.
Qed.

(** The delta's live rows together with the baseline rows the delta does not
    touch are the live state of all versions. *)
Lemma overlay_live U D U0 D0 B r v :
  keys_unique OrderCommitSeqNum (U ++ U0) →
  dominates U D U0 D0 → baseline_of U0 D0 B →
  (∃ u, live (U ++ U0) (D ++ D0) u ∧ row_uuid u = r ∧ cols u = v) ↔
  (∃ u, live U D u ∧ row_uuid u = r ∧ cols u = v) ∨ ((r, v) ∈ B ∧ ¬ touched U D r).
Proof.
  intros Hk Hdom HB. split.
  - intros (u & Hl & <- & <-).
    destruct (decide (row_uuid u ∈ (row_uuid <$> U) ++ (row_uuid <$> D))) as [Hin|Hnin].
    + assert (touched U D (row_uuid u)) as Ht.
      { apply elem_of_app in Hin as [(x & Hx & ?)%list_elem_of_fmap|(x & Hx & ?)%list_elem_of_fmap];
          [left|right]; eauto. }
      left. destruct (touched_live_or_dead _ _ _ Ht) as [(w & Hw & Hr)|(d & Hd & Hr)].
      * assert (w = u) as ->; [|eauto]. eapply live_unique; [exact Hk| |exact Hl|done].
        by apply live_dominates.
      * destruct (live_dead_disjoint _ _ _ _ _ Hl (dead_dominates _ _ _ _ _ Hdom Hd)). done.
    + assert (¬ touched U D (row_uuid u)) as Hn.
      { intros [(x & Hx & Hr)|(x & Hx & Hr)]; apply Hnin, elem_of_app; [left|right];
          apply list_elem_of_fmap; eauto. }
      right. split; [|done]. apply HB. exists u. split; [|done].
      destruct Hl as (Hu & HU & HD). apply elem_of_app in Hu as [Hu|Hu]; [destruct Hn; left; eauto|].
      split_and!; [done| |]; intros; [apply HU|apply HD]; set_solver.
  - intros [(u & Hl & <- & <-)|[(u & Hl & <- & <-)%HB Hn]]; exists u; (split; [|done]).
    + by apply live_dominates.
    + by apply live_app_untouched.
Qed.
End tiers.
