(* ===== verification/ReadData.v ===== *)
(** * [QueryManager::read_data] (penca-api/src/query/mod.rs)

    The whole data read: effective filter, plan, retention gate, tier dispatch
    and seek selection.  Identifier resolution, column projection and the query
    deadline are outside the model: a request arrives with its snapshot, its
    primary-key restriction as row uuids and its decoded index seek. *)

From S2P Require Import Prelude Watermarks ReadSnapshot Dialect MergeSql IndexSeek Plan SnapshotScan IndexSelect ReadPath ReadLemmas.
From stdpp Require Import base numbers list option sets gmap.

Open Scope Z_scope.

Inductive ReadError := ReadApi (e : ApiError) | ReadMerge (e : MergeError).

(** [(b) AND (e)] *)
Definition combine_filters {R} (base extra : option (R → bool)) : option (R → bool) :=
  match base, extra with
  | Some b, Some e => Some (λ x, b x && e x)
  | Some b, None => Some b
  | None, Some e => Some e
  | None, None => None
  end.

Definition identity_seeks (row_uuids : option (list Z)) : option (list SeekSpec) :=
  (λ us, [identity_spec us]) <$> row_uuids.

Section read_data.
Context {V : Type}.

Record ReadDataRequest := {
  rd_snapshot : ReadSnapshot;
  rd_row_uuids : option (list Z);
  rd_filter : option (Z * V → bool);
  rd_index_seek : option DecodedIndexSeek;
}.

Record QueryConfig := {
  qc_schema : list Z;
  qc_snapshot_prune_min_segments : nat;
  qc_index_seek_max_probe_tuples : Z;
}.

(** [value] reads a column off a row; [may_match] and [equality_bindings] are
    DataFusion's pruning decision and equality extraction. *)
Context (value : Z → Z * V → cell)
        (may_match : (Z * V → bool) → SnapshotSegment V → bool)
        (equality_bindings : (Z * V → bool) → gmap Z (list Z)).

Definition effective_filter (req : ReadDataRequest) : option (Z * V → bool) :=
  combine_filters (rd_filter req)
    ((λ s, index_residual value (residual s)) <$> rd_index_seek req).

(** The user-index entries that join the identity entry on the cold path. *)
Definition user_seek_entries (cfg : QueryConfig) (p : Plan V) (req : ReadDataRequest) :
    list SeekSpec :=
  match rd_index_seek req, cold_storage p ≫= snapshot with
  | Some seek, Some sp =>
      if is_empty (sp_indexes sp) then []
      else select_from_bindings (bindings seek) sp (qc_index_seek_max_probe_tuples cfg)
  | None, Some sp =>
      match effective_filter req with
      | Some f =>
          if is_empty (sp_indexes sp) then []
          else select_index_seeks (equality_bindings f) sp (qc_index_seek_max_probe_tuples cfg)
      | None => []
      end
  | _, None => []
  end.

(** [seeks.get_or_insert_with(Vec::new).extend(user_entries)] *)
Definition extend_seeks (seeks : option (list SeekSpec)) (user_entries : list SeekSpec) :
    option (list SeekSpec) :=
  match user_entries with
  | [] => seeks
  | _ => Some (default [] seeks ++ user_entries)
  end.

Definition read_data (cfg : QueryConfig) (m : table_meta V) (h : hot_db V)
    (lineage : option (BranchLineage * table_meta V))
    (now : Z) (retention_duration_seconds : option Z) (req : ReadDataRequest) :
    result ReadError (list (Z * V)) :=
  let s := rd_snapshot req in
  let exact_selection := negb (filter_present (rd_filter req)) in
  let filter := effective_filter req in
  let p := plan m h lineage (plan_as_of_micros s) (plan_commit_seq_upper s) in
  let below_floor :=
    match retention_floor m now retention_duration_seconds with
    | Some floor => retention_floor_below floor (plan_as_of_micros s) (plan_commit_seq_upper s)
    | None => false
    end in
  if below_floor then Err (ReadApi FailedPrecondition)
  else
    let mreq seeks :=
      {| rq_plan := p; rq_db := h; rq_schema := qc_schema cfg; rq_snapshot := s;
         rq_filter := filter; rq_seeks := seeks;
         rq_tuning := {| snapshot_prune_min_segments := qc_snapshot_prune_min_segments cfg;
                         segment_order_of := ByCompletion |} |} in
    if is_all_hot p then Ok (stream_all_hot (mreq None) (rd_row_uuids req))
    else
      let seeks := extend_seeks (identity_seeks (rd_row_uuids req)) (user_seek_entries cfg p req) in
      match stream_cold_read may_match (mreq seeks) exact_selection with
      | Ok rows => Ok rows
      | Err e => Err (ReadMerge e)
      end.
End read_data.
Arguments ReadDataRequest : clear implicits.

(** ** The history and what a snapshot shows of it *)

Section history.
Context {V : Type}.

(** The writes of the reader's own open transaction, stamped past every commit. *)
Definition own_writes {A} (s : ReadSnapshot) (log : list (log_row A)) : list (src_row A) :=
  match open_tx_uuid s with
  | None => []
  | Some tx =>
      (λ u, SrcRow (lr_row_uuid u) (lr_cols u) I64_MAX (lr_write_seq_num u) I64_MAX)
      <$> filter (λ u, lr_tx_uuid u = tx) log
  end.

(** The versions a snapshot shows: the committed history it sees, and the
    open transaction's own writes. *)
Definition visible {A} (s : ReadSnapshot) (H : list (src_row A)) (log : list (log_row A)) :
    list (src_row A) :=
  filter (λ x, sees s (commit_micros x) (commit_seq_num x)) H ++ own_writes s log.

(** [x] is a row of the table as the snapshot shows it. *)
Definition table_at (s : ReadSnapshot) (HU : list (src_row V)) (HD : list (src_row unit))
    (h : hot_db V) (x : Z * V) : Prop :=
  ∃ u, live_version OrderCommitSeqNum (visible s HU (upsert_log h)) (visible s HD (delete_log h)) u ∧
    row_uuid u = x.1 ∧ cols u = x.2.

(** ** Coherent tiers

    How the two tiers and the metadata of one table relate to its committed
    history [(HU, HD)]. *)

Definition seg_bounds {A} (g : segment_meta A) : Prop :=
  ∀ x, x ∈ sg_rows g →
    sg_min_tx_commit_micros g ≤ commit_micros x ≤ sg_max_tx_commit_micros g ∧
    sg_min_commit_seq_num g ≤ commit_seq_num x ≤ sg_max_commit_seq_num g.

(** The cold segments of one log kind hold exactly the history up to the
    persist watermark. *)
Record cold_ok {A} (wm : option Z) (segs : list (segment_meta A)) (H : list (src_row A)) : Prop := {
  cold_bounds : ∀ g, g ∈ committed sg_commit_micros segs → seg_bounds g;
  cold_sound : ∀ g x, g ∈ committed sg_commit_micros segs → x ∈ sg_rows g → x ∈ H;
  cold_complete : ∀ x w, x ∈ H → wm = Some w → commit_micros x ≤ w →
    ∃ g, g ∈ committed sg_commit_micros segs ∧ x ∈ sg_rows g;
}.

(** The hot log of one kind holds every version past the purge frontier and
    nothing that is not history. *)
Record hot_ok {A} (pu : option Z) (clog : list commit_row) (log : list (log_row A))
    (H : list (src_row A)) : Prop := {
  hot_sound : ∀ x, x ∈ hot_source None log clog → x ∈ H;
  hot_complete : ∀ x, x ∈ H → default SNAPSHOT_SEQ_GENESIS pu < commit_seq_num x →
    x ∈ hot_source None log clog;
  hot_unique : ∀ x y, x ∈ log → y ∈ log → lr_row_uuid x = lr_row_uuid y →
    lr_tx_uuid x = lr_tx_uuid y → x = y;
}.

Definition no_straddle {A} (S : Z) (segs : list (segment_meta A)) : Prop :=
  ∀ g, g ∈ committed sg_commit_micros segs →
    sg_max_tx_commit_micros g ≤ S ∨ ∀ x, x ∈ sg_rows g → S < commit_micros x.

Definition up_to {A} (W : Z) (H : list (src_row A)) : list (src_row A) :=
  filter (λ x, commit_seq_num x ≤ W) H.

Context (value : Z → Z * V → cell) (index_key : Z → Z * V → list cell).

Record snapshot_ok (m : table_meta V) (HU : list (src_row V)) (HD : list (src_row unit))
    (sn : snapshot_meta V) : Prop := {
  sn_range : 0 ≤ sn_snapshotted_at_micros sn < I64_MAX ∧ SNAPSHOT_SEQ_GENESIS ≤ sn_commit_seq_num sn;
  sn_cut : ∀ r mi sq, (r, mi, sq) ∈ stamps HU HD →
    mi ≤ sn_snapshotted_at_micros sn ↔ sq ≤ sn_commit_seq_num sn;
  sn_baseline : baseline_of (up_to (sn_commit_seq_num sn) HU) (up_to (sn_commit_seq_num sn) HD)
    (mbind snapshot_rows (sn_segments sn));
  sn_nodup : NoDup (fst <$> mbind snapshot_rows (sn_segments sn));
  sn_index_keys : ∀ def x, def ∈ sn_indexes sn →
    index_key (index_uuid def) x = (λ c, value c x) <$> index_key_columns def;
  sn_segs_wf : ∀ g, g ∈ sn_segments sn → seg_wf index_key g;
  sn_upsert_cut : no_straddle (sn_snapshotted_at_micros sn) (tm_upsert_segments m);
  sn_delete_cut : no_straddle (sn_snapshotted_at_micros sn) (tm_delete_segments m);
}.

Record coherent (m : table_meta V) (h : hot_db V) (HU : list (src_row V)) (HD : list (src_row unit)) :
    Prop := {
  co_range : ∀ r mi sq, (r, mi, sq) ∈ stamps HU HD → 0 ≤ sq < I64_MAX ∧ 0 < mi < I64_MAX;
  co_mono : ∀ r1 m1 s1 r2 m2 s2, (r1, m1, s1) ∈ stamps HU HD → (r2, m2, s2) ∈ stamps HU HD →
    s1 < s2 ↔ m1 < m2;
  co_keys : keys_unique OrderCommitSeqNum HU;
  co_wm : ∀ w, persist_wm m = Some w → 0 < w < I64_MAX;
  co_hot_upserts : hot_ok (last_purged_seq m) (commit_tx_log h) (upsert_log h) HU;
  co_hot_deletes : hot_ok (last_purged_seq m) (commit_tx_log h) (delete_log h) HD;
  co_cold_upserts : cold_ok (persist_wm m) (tm_upsert_segments m) HU;
  co_cold_deletes : cold_ok (persist_wm m) (tm_delete_segments m) HD;
  co_snapshots : ∀ sn, sn ∈ committed sn_commit_micros (tm_snapshots m) → snapshot_ok m HU HD sn;
  co_purge : ∀ pu, last_purged_seq m = Some pu →
    ∃ w, persist_wm m = Some w ∧ ∀ r mi sq, (r, mi, sq) ∈ stamps HU HD → sq ≤ pu → mi ≤ w;
}.
End history.
