(* ===== verification/Tiers.v ===== *)
(** * The read refines the history

    For coherent tiers, [read_data] returns exactly the rows the requested
    snapshot shows of the committed history. *)

From S2P Require Import Prelude Watermarks ReadSnapshot Dialect MergeSql IndexSeek Plan SnapshotScan IndexSelect ReadPath ReadLemmas ReadData.
From stdpp Require Import base numbers list option sets gmap sorting.

Open Scope Z_scope.

(** ** Source relations, element-wise *)

Section sources.
Context {A : Type}.
Implicit Types (log : list (log_row A)) (x : src_row A).

Lemma read_snapshot_clause_true lo s c :
  read_snapshot_clause lo s c = true ↔
    (∀ w, lo = Some w → w < ct_commit_seq_num c) ∧ sees s (ct_commit_micros c) (ct_commit_seq_num c).
Proof.
  unfold read_snapshot_clause. rewrite andb_true_iff.
  assert (match lo with Some w => w <? ct_commit_seq_num c | None => true end = true ↔
          ∀ w, lo = Some w → w < ct_commit_seq_num c) as ->.
  { destruct lo; [rewrite Z.ltb_lt|]; naive_solver. }
  destruct s; simpl; rewrite ?Z.leb_le, ?Z.ltb_lt; done.
Qed.

Lemma hot_source_elem us log cs x :
  x ∈ hot_source us log cs ↔ ∃ u c, u ∈ log ∧ c ∈ cs ∧ ct_tx_uuid c = lr_tx_uuid u ∧
    row_uuid_in_clause us (lr_row_uuid u) = true ∧
    x = SrcRow (lr_row_uuid u) (lr_cols u) (ct_commit_micros c) (lr_write_seq_num u) (ct_commit_seq_num c).
Proof.
  unfold hot_source. rewrite list_elem_of_bind. setoid_rewrite list_elem_of_fmap.
  setoid_rewrite list_elem_of_filter. naive_solver.
Qed.

Lemma own_writes_elem s log x :
  x ∈ own_writes s log ↔ ∃ u c, u ∈ log ∧ c ∈ open_tx_union_clause s ∧ ct_tx_uuid c = lr_tx_uuid u ∧
    x = SrcRow (lr_row_uuid u) (lr_cols u) (ct_commit_micros c) (lr_write_seq_num u) (ct_commit_seq_num c).
Proof.
  unfold own_writes, open_tx_union_clause. destruct s as [| | |b tx]; simpl.
  1-3: split; [by intros ?%not_elem_of_nil|by intros (? & ? & _ & ?%not_elem_of_nil & _)].
  rewrite list_elem_of_fmap. setoid_rewrite list_elem_of_filter. setoid_rewrite list_elem_of_singleton.
  split.
  - intros (u & -> & ? & ?). eexists u, _. split_and!; eauto.
  - intros (u & c & ? & -> & ? & ->). simpl in *. eauto.
Qed.

(** What the hot tier reads: the committed versions past the fence that the
    snapshot sees, and the reader's own writes. *)
Lemma hot_source_committed us log lo s clog x :
  x ∈ hot_source us log (committed_tx lo s clog) ↔
    row_uuid_in_clause us (row_uuid x) = true ∧
    ((x ∈ hot_source None log clog ∧ (∀ w, lo = Some w → w < commit_seq_num x) ∧
      sees s (commit_micros x) (commit_seq_num x)) ∨ x ∈ own_writes s log).
Proof.
  rewrite own_writes_elem, !hot_source_elem. unfold committed_tx. split.
  - intros (u & c & Hu & Hc & Htx & Hin & ->). simpl. split; [done|].
    apply elem_of_app in Hc as [[Hcl Hc]%list_elem_of_filter|Hc]; [left|right; eauto 8].
    apply read_snapshot_clause_true in Hcl as [??]. split_and!; [|done|done]. exists u, c. done.
  - intros [Hin [((u & c & Hu & Hc & Htx & _ & ->) & Hlo & Hs)|(u & c & Hu & Hc & Htx & ->)]]; simpl in *.
    + exists u, c. split_and!; [done| |done|done|done]. apply elem_of_app. left.
      apply list_elem_of_filter. split; [|done]. by apply read_snapshot_clause_true.
    + exists u, c. split_and!; [done| |done|done|done]. apply elem_of_app. by right.
Qed.

Lemma cold_visibility_true mx upper x :
  cold_visibility_clause None (Some mx) upper x = true ↔
    commit_micros x < mx ∧ ∀ n, upper = Some n → commit_seq_num x ≤ n.
Proof.
  unfold cold_visibility_clause. simpl. rewrite andb_true_iff, Z.ltb_lt.
  destruct upper; rewrite ?Z.leb_le; naive_solver.
Qed.

Lemma cold_source_elem mx upper us (log : list (src_row A)) x :
  x ∈ cold_source None (Some mx) upper us log ↔
    x ∈ log ∧ commit_micros x < mx ∧ (∀ n, upper = Some n → commit_seq_num x ≤ n) ∧
    row_uuid_in_clause us (row_uuid x) = true.
Proof. unfold cold_source. rewrite list_elem_of_filter, cold_visibility_true. naive_solver. Qed.

(** The rows the cold session registers: those of the overlapping segments. *)
Lemma cold_log_elem (segs : list (segment_meta A)) lo hi upper x :
  (∀ g, g ∈ committed sg_commit_micros segs → seg_bounds g) →
  x ∈ cold_log (read_and_classify_persist_segments segs lo hi upper) ↔
    ∃ g, g ∈ committed sg_commit_micros segs ∧ x ∈ sg_rows g ∧
      persist_segment_overlap_clause lo hi upper g = true.
Proof.
  intros Hb. unfold cold_log, read_and_classify_persist_segments. rewrite list_elem_of_bind. split.
  - intros (p & Hx & (g & -> & [Hne Hg]%list_elem_of_filter)%list_elem_of_fmap).
    rewrite merge_sort_Permutation in Hg. apply list_elem_of_filter in Hg as [Ho Hg].
    exists g. split_and!; [done| |done]. unfold apply_segment_seq_ceiling, plan_segment in Hx. simpl in Hx.
    by apply list_elem_of_filter in Hx as [_ ?].
  - intros (g & Hg & Hx & Ho). exists (plan_segment g). split.
    + unfold apply_segment_seq_ceiling. simpl. apply list_elem_of_filter. split; [|done]. by apply Hb.
    + apply list_elem_of_fmap. exists g. split; [done|]. apply list_elem_of_filter.
      split; [intros Hn; rewrite Hn in Hx; by apply not_elem_of_nil in Hx|].
      rewrite merge_sort_Permutation. by apply list_elem_of_filter.
Qed.
End sources.

(** ** Rows restricted to an identity seek *)

Definition on_rows {A} (P : Z → bool) (l : list (src_row A)) : list (src_row A) :=
  filter (λ x, P (row_uuid x) = true) l.

Section restrict.
Context {V : Type}.
Implicit Types (U : list (src_row V)) (D : list (src_row unit)).

Lemma on_rows_elem {A} P (l : list (src_row A)) x : x ∈ on_rows P l ↔ P (row_uuid x) = true ∧ x ∈ l.
Proof. unfold on_rows. by rewrite list_elem_of_filter. Qed.

Lemma live_on_rows P U D u : live (on_rows P U) (on_rows P D) u ↔ live U D u ∧ P (row_uuid u) = true.
Proof.
  unfold live_version. setoid_rewrite on_rows_elem. split.
  - intros ([HP Hu] & HU & HD). split_and!; [done| | |done].
    + intros u' ? Heq. apply HU; [by rewrite Heq|done].
    + intros d ? Heq. apply HD; [by rewrite Heq|done].
  - intros ((Hu & HU & HD) & HP). naive_solver.
Qed.

Lemma touched_on_rows P U D r :
  touched (on_rows P U) (on_rows P D) r ↔ touched U D r ∧ P r = true.
Proof. unfold touched. setoid_rewrite on_rows_elem. naive_solver. Qed.
End restrict.

(** ** Output of the log tiers *)

Section output.
Context {V : Type}.
Implicit Types (U : list (src_row V)) (D : list (src_row unit)) (out : list (resolved_row V)).

Lemma project_resolved_elem out r v :
  (r, v) ∈ project_resolved out ↔ ∃ x, x ∈ out ∧ rr_row_uuid x = r ∧ rr_cols x = Some v.
Proof.
  unfold project_resolved. rewrite list_elem_of_omap. split.
  - intros (x & Hx & Heq). destruct (rr_cols x) eqn:E; simplify_eq/=. eauto.
  - intros (x & Hx & <- & Heq). exists x. by rewrite Heq.
Qed.

Lemma project_resolved_nodup out : NoDup (rr_row_uuid <$> out) → NoDup (fst <$> project_resolved out).
Proof.
  unfold project_resolved. induction out as [|x out IH]; simpl; [done|].
  rewrite NoDup_cons. intros [Hx Hnd]. destruct (rr_cols x) as [v|]; simpl; [|by apply IH].
  constructor; [|by apply IH]. intros ([r w] & Heq & Hin)%list_elem_of_fmap. simpl in Heq. subst.
  apply project_resolved_elem in Hin as (y & Hy & Hr & _). apply Hx. rewrite <- Hr.
  by apply list_elem_of_fmap_2.
Qed.

Lemma residual_elem f out x :
  x ∈ apply_resolved_residual f out → x ∈ out.
Proof. destruct f; simpl; [|done]. by intros [_ ?]%list_elem_of_filter. Qed.

(** The rows a resolved batch delivers after residual and projection. *)
Definition deliver (f : option (Z * V → bool)) out : list (Z * V) :=
  project_resolved (apply_resolved_residual f (filter_live_rows out)).

Lemma deliver_elem f U D out r v :
  keys_unique OrderCommitSeqNum U → resolves U D out →
  (r, v) ∈ deliver f out ↔
    (∃ u, live U D u ∧ row_uuid u = r ∧ cols u = v) ∧ user_filter f (r, v) = true.
Proof.
  intros Hk Hok. rewrite <- (resolve_live_iff _ U D out r v Hk Hok). unfold deliver.
  rewrite project_resolved_elem. unfold filter_live_rows. split.
  - intros (x & Hx & <- & Hc). split.
    + apply residual_elem, list_elem_of_filter in Hx as [? ?]. eauto.
    + destruct f as [p|]; [|done]. simpl in *. apply list_elem_of_filter in Hx as [Hp _].
      by rewrite Hc in Hp.
  - intros [(x & Hx & Hd & <- & Hc) Hf]. exists x. split; [|done].
    assert (x ∈ filter (λ x, rr_is_delete x = false) out) by by apply list_elem_of_filter.
    destruct f as [p|]; [|done]. simpl. apply list_elem_of_filter. by rewrite Hc.
Qed.

Lemma deliver_nodup f U D out : resolves U D out → NoDup (fst <$> deliver f out).
Proof.
  intros Hok. apply project_resolved_nodup. unfold filter_live_rows.
  assert (NoDup (rr_row_uuid <$> filter (λ x, rr_is_delete x = false) out))
    by apply NoDup_fmap_filter, Hok.
  destruct f; simpl; [by apply NoDup_fmap_filter|done].
Qed.

Lemma deliver_touched f U D out x :
  resolves U D out → x ∈ deliver f out → touched U D x.1.
Proof.
  intros Hok Hx. destruct x as [r v]. apply project_resolved_elem in Hx as (y & Hy & <- & _).
  apply residual_elem, list_elem_of_filter in Hy as [_ Hy]. simpl. apply (resolve_touched _ _ _ _ _ Hok).
  by apply list_elem_of_fmap_2.
Qed.
End output.

(** ** Output of the snapshot tier *)

Section snapshot_stream.
Context {V : Type} (index_key : Z → Z * V → list cell)
        (may_match : (Z * V → bool) → SnapshotSegment V → bool).

(** DataFusion's pruning never drops a segment that holds a matching row. *)
Definition prune_sound : Prop :=
  ∀ (p : Z * V → bool) g x, x ∈ snapshot_rows g → p x = true → may_match p g = true.

Context (Hprune : prune_sound).
Implicit Types (f : option (Z * V → bool)) (segs : list (SnapshotSegment V)).

Definition wants f (us : option (list Z)) (x : Z * V) : Prop :=
  row_uuid_in_clause us x.1 = true ∧ user_filter f x = true.

Lemma prune_segments_sublist f segs : prune_segments may_match f segs `sublist_of` segs.
Proof using. destruct f; simpl; [apply sublist_filter|done]. Qed.

Lemma prune_segments_keep f segs x :
  x ∈ mbind snapshot_rows segs → user_filter f x = true →
  x ∈ mbind snapshot_rows (prune_segments may_match f segs).
Proof using Hprune.
  rewrite !list_elem_of_bind. intros (g & Hx & Hg) Hf. exists g. split; [done|].
  destruct f as [p|]; [|done]. simpl. apply list_elem_of_filter. eauto.
Qed.

Lemma NoDup_fst_sublist (l k : list (Z * V)) : l `sublist_of` k → NoDup (fst <$> k) → NoDup (fst <$> l).
Proof using. intros Hs Hnd. eapply sublist_NoDup; [exact Hnd|]. by apply fmap_sublist. Qed.

(** The scan specs restrict to no less than what the reader wants. *)
Definition seeks_sound segs f (us : option (list Z)) (specs : option (list SeekSpec)) : Prop :=
  ∀ es spec, specs = Some es → spec ∈ es →
    (∀ g, g ∈ segs → spec_ok g spec) ∧
    (∀ x, wants f us x → spec_matches index_key spec x).

Lemma snapshot_segment_stream_spec schema sp f seeks ex tuning :
  (∀ g, g ∈ sp_segments sp → seg_wf index_key g) →
  segment_order_of tuning = ByCompletion →
  seeks_sound (sp_segments sp) f (identity seeks) (to_scan_specs seeks) →
  NoDup (fst <$> mbind snapshot_rows (sp_segments sp)) →
  ∃ rows, snapshot_segment_stream may_match schema sp f seeks ex tuning = Ok rows ∧
    NoDup (fst <$> rows) ∧
    ∀ x, x ∈ rows ↔ x ∈ mbind snapshot_rows (sp_segments sp) ∧ x.1 ∉ ex ∧ wants f (identity seeks) x.
Proof using Hprune.
  intros Hwf Hord Hsound Hnd. unfold snapshot_segment_stream. rewrite Hord.
  set (pf := if (_ <? _)%nat then f else None).
  pose proof (prune_segments_sublist pf (sp_segments sp)) as Hsub.
  assert (∀ x, x ∈ mbind snapshot_rows (sp_segments sp) → user_filter f x = true →
            x ∈ mbind snapshot_rows (prune_segments may_match pf (sp_segments sp))) as Hkeep.
  { intros x Hx Hf. apply prune_segments_keep; [done|]. unfold pf. by destruct (_ <? _)%nat. }
  destruct (prune_segments may_match pf (sp_segments sp)) as [|g gs] eqn:E.
  { exists []. split_and!; [done|constructor|]. intros x. split; [by intros ?%not_elem_of_nil|].
    intros (Hx & _ & _ & Hf). specialize (Hkeep x Hx Hf). by apply not_elem_of_nil in Hkeep. }
  assert (∀ g', g' ∈ g :: gs → g' ∈ sp_segments sp) as Hin.
  { intros g' Hg'. by eapply elem_of_sublist. }
  destruct (scan_segments_spec index_key schema (to_scan_specs seeks) (g :: gs)) as (rows & -> & Hrs & Hrc).
  { eauto. }
  { intros g' es spec Hg' Hes Hspec. by apply (Hsound es spec Hes Hspec), Hin. }
  eexists. split; [done|]. unfold build_cold_snapshot_scan. split.
  - apply NoDup_fmap_filter. eapply NoDup_fst_sublist; [|exact Hnd].
    etrans; [exact Hrs|]. by apply bind_sublist.
  - intros x. rewrite list_elem_of_filter. split.
    + intros [(Hex & Hus & Hf) Hx]. split_and!; [|set_solver|by split].
      eapply elem_of_sublist; [|by apply bind_sublist]. by eapply elem_of_sublist.
    + intros (Hx & Hex & Hus & Hf). split; [split_and!; [set_solver|done|done]|].
      apply Hrc; [by apply Hkeep|]. intros es spec Hes Hspec. by apply (Hsound es spec Hes Hspec).
Qed.
End snapshot_stream.

(** ** What each tier of a planned read holds

    For coherent tiers the fence and the segment window split the visible
    history: hot versions past the fence and the reader's own writes, cold
    versions between the picked snapshot and the fence, the snapshot below. *)

Lemma pick_snapshot_Some {V} (m : table_meta V) P sn :
  pick_snapshot m P = Some sn → sn ∈ committed sn_commit_micros (tm_snapshots m) ∧ P sn = true.
Proof.
  unfold pick_snapshot. intros H.
  assert (sn ∈ merge_sort snapshot_order
            (filter (λ s, P s = true) (committed sn_commit_micros (tm_snapshots m)))) as Hin.
  { destruct (merge_sort _ _); simplify_eq/=. set_solver. }
  rewrite merge_sort_Permutation in Hin. apply list_elem_of_filter in Hin as [? ?]. done.
Qed.

Lemma overlap_true {A} lo hi upper (g : segment_meta A) :
  persist_segment_overlap_clause lo hi upper g = true ↔
    (∀ a, lo = Some a → a < sg_max_tx_commit_micros g) ∧
    (∀ b, hi = Some b → sg_min_tx_commit_micros g ≤ b) ∧
    (∀ n, upper = Some n → sg_min_commit_seq_num g ≤ n).
Proof.
  unfold persist_segment_overlap_clause. rewrite !andb_true_iff.
  destruct lo, hi, upper; rewrite ?Z.ltb_lt, ?Z.leb_le; naive_solver.
Qed.

Lemma fold_seq_upper upper F n :
  (∀ k, fold_cold_seq_upper upper (Some F) = Some k → n ≤ k) ↔ n ≤ F ∧ ∀ k, upper = Some k → n ≤ k.
Proof.
  unfold fold_cold_seq_upper. destruct upper as [k|]; simpl.
  - split; [intros H; specialize (H _ eq_refl); split; [lia|intros ? [= <-]; lia]|].
    intros [H1 H2] ? [= <-]. specialize (H2 k eq_refl). lia.
  - split; [intros H; specialize (H _ eq_refl); split; [lia|done]|]. intros [H1 _] ? [= <-]. lia.
Qed.

(** ** One log kind *)

Section tier.
Context {A : Type} (Hy : list (src_row A)) (log : list (log_row A)) (clog : list commit_row)
        (segs : list (segment_meta A)) (pu wm : option Z).
Context (Hhot : hot_ok pu clog log Hy) (Hcold : cold_ok wm segs Hy).
Context (Hrange : ∀ x, x ∈ Hy → 0 ≤ commit_seq_num x < I64_MAX ∧ 0 < commit_micros x < I64_MAX).
Context (s : ReadSnapshot) (us : option (list Z)).

Notation asof := (plan_as_of_micros s).
Notation upper := (plan_commit_seq_upper s).

Lemma sees_tighten_plan x :
  sees (tighten_for_hot s (Some asof)) (commit_micros x) (commit_seq_num x)
    ↔ sees s (commit_micros x) (@commit_seq_num A x).
Proof using. rewrite sees_tighten. destruct s; simpl; lia. Qed.

Lemma own_writes_tighten : own_writes (tighten_for_hot s (Some asof)) log = own_writes s log.
Proof using. unfold own_writes. by rewrite open_tx_uuid_tighten. Qed.

(** The hot tier above a fence no lower than the purge frontier. *)
Lemma hot_tier_elem lo x :
  (∀ p, pu = Some p → p ≤ default SNAPSHOT_SEQ_GENESIS lo) →
  SNAPSHOT_SEQ_GENESIS ≤ default SNAPSHOT_SEQ_GENESIS lo →
  x ∈ hot_source us log (committed_tx lo (tighten_for_hot s (Some asof)) clog) ↔
    row_uuid_in_clause us (row_uuid x) = true ∧
    ((x ∈ Hy ∧ default SNAPSHOT_SEQ_GENESIS lo < commit_seq_num x ∧
      sees s (commit_micros x) (commit_seq_num x)) ∨ x ∈ own_writes s log).
Proof using Hhot Hrange.
  intros Hpu Hlo. rewrite hot_source_committed, sees_tighten_plan, own_writes_tighten.
  apply and_iff_compat_l, or_iff_compat_r. split.
  - intros (Hx & Hw & Hs). pose proof (hot_sound _ _ _ _ Hhot x Hx) as HxH. split_and!; [done| |done].
    destruct lo as [w|]; simpl; [by apply Hw|]. destruct (Hrange x HxH). unfold SNAPSHOT_SEQ_GENESIS. lia.
  - intros (Hx & Hw & Hs). split_and!; [|intros w ->; done|done].
    apply (hot_complete _ _ _ _ Hhot); [done|]. destruct pu as [p|]; simpl in *; [|lia].
    specialize (Hpu p eq_refl). lia.
Qed.

(** The cold tier between the snapshot cut [(Sn, W)] and the fence. *)
Context (w : Z) (Hwm : wm = Some w) (Hw : 0 < w < I64_MAX) (Hasof : in_i64 asof).
Context (cut : option Z) (W F : Z).
Context (Hcut : match cut with
                | Some Sn => 0 ≤ Sn < I64_MAX ∧ no_straddle Sn segs ∧
                            ∀ x, x ∈ Hy → commit_micros x ≤ Sn ↔ commit_seq_num x ≤ W
                | None => W = SNAPSHOT_SEQ_GENESIS
                end).
Context (Hfence : ∀ x, x ∈ Hy → W < commit_seq_num x ≤ F → commit_micros x ≤ w).

Definition window_lo : option Z := (λ f, sat_sub f 1) <$> ((λ Sn, sat_add Sn 1) <$> cut).
Definition window_hi : option Z := (λ t, sat_sub t 1) <$> Some (cold_committed_at_max asof (w + 1)).

Lemma window_lo_cut : window_lo = cut.
Proof using Hcut.
  unfold window_lo. destruct cut as [Sn|]; simpl; [|done]. destruct Hcut as [? _]. f_equal. i64.
Qed.

Lemma window_hi_min b : b < I64_MAX → (∀ t, window_hi = Some t → b ≤ t) ↔ b ≤ asof ∧ b ≤ w.
Proof using Hw Hasof.
  unfold window_hi, cold_committed_at_max. simpl. intros Hb. split.
  - intros H. specialize (H _ eq_refl). i64.
  - intros [? ?] t [= <-]. i64.
Qed.

Lemma cold_tier_elem x :
  x ∈ cold_source None (Some (sat_add asof 1)) (fold_cold_seq_upper upper (Some F)) us
        (cold_log (read_and_classify_persist_segments segs window_lo window_hi upper)) ↔
    row_uuid_in_clause us (row_uuid x) = true ∧ x ∈ Hy ∧ W < commit_seq_num x ≤ F ∧
    sees s (commit_micros x) (commit_seq_num x).
Proof using Hcold Hrange Hwm Hw Hasof Hcut Hfence.
  rewrite cold_source_elem, cold_log_elem by apply Hcold.
  rewrite fold_seq_upper, window_lo_cut. split.
  - intros ((g & Hg & Hx & (Hlo & Hhi & Hup)%overlap_true) & Hmx & [HF Hn] & Hin).
    pose proof (cold_sound _ _ _ Hcold g x Hg Hx) as HxH. destruct (Hrange x HxH) as [Hsq Hmi].
    split_and!; [done|done| |done|apply sees_plan_bounds; [lia|split; [i64|done]]].
    destruct cut as [Sn|]; simpl in *; [|subst; unfold SNAPSHOT_SEQ_GENESIS; lia].
    destruct Hcut as (HS & Hns & Hiff). specialize (Hlo Sn eq_refl).
    destruct (Hns g Hg) as [?|Habove]; [lia|]. specialize (Habove x Hx).
    assert (¬ commit_seq_num x ≤ W); [|lia]. rewrite <- Hiff by done. lia.
  - intros (Hin & Hx & [HW HF] & Hs). destruct (Hrange x Hx) as [Hsq Hmi].
    apply sees_plan_bounds in Hs as [Hs1 Hs2]; [|lia].
    assert (commit_micros x ≤ w) as Hxw by (apply Hfence; [done|lia]).
    split_and!; [|i64|done|done|done].
    destruct (cold_complete _ _ _ Hcold x w Hx Hwm Hxw) as (g & Hg & Hxg).
    exists g. split_and!; [done|done|]. destruct (cold_bounds _ _ _ Hcold g Hg x Hxg) as [Hb1 Hb2].
    apply overlap_true. split_and!.
    + intros Sn HS. destruct cut as [Sn'|]; simplify_eq/=. destruct Hcut as (? & _ & Hiff).
      assert (¬ commit_micros x ≤ Sn) by (rewrite Hiff by done; lia). lia.
    + intros b Hb. assert (commit_micros x ≤ b); [|lia]. revert b Hb. apply window_hi_min; lia.
    + intros n Hn'. specialize (Hs2 n Hn'). lia.
Qed.
End tier.
