(* ===== verification/ReadCorrect.v ===== *)
(** * [read_data] refines the committed history *)

From S2P Require Import Prelude Watermarks ReadSnapshot Dialect MergeSql IndexSeek Plan SnapshotScan IndexSelect ReadPath ReadLemmas ReadData Tiers.
From stdpp Require Import base numbers list option sets gmap sorting.

Open Scope Z_scope.

(** A read that needs nothing of a fork parent's cold tier. *)
Definition self_contained {V} (lineage : option (BranchLineage * table_meta V)) (s : ReadSnapshot) : Prop :=
  match lineage with
  | Some (l, _) => read_is_below_fork (plan_as_of_micros s) (plan_commit_seq_upper s) l = false
  | None => True
  end.

Lemma own_stamp {A} s (log : list (log_row A)) x :
  x ∈ own_writes s log → commit_micros x = I64_MAX ∧ commit_seq_num x = I64_MAX.
Proof.
  intros (u & c & _ & Hc & _ & ->)%own_writes_elem. destruct s; simpl in Hc;
    [by apply not_elem_of_nil in Hc..|]. apply list_elem_of_singleton in Hc as ->. done.
Qed.

Section planned.
Context {V : Type} (value : Z → Z * V → cell) (index_key : Z → Z * V → list cell).
Context (m : table_meta V) (h : hot_db V) (HU : list (src_row V)) (HD : list (src_row unit)).
Context (Hco : coherent value index_key m h HU HD) (s : ReadSnapshot).
Context (Hasof : in_i64 (plan_as_of_micros s)).
Context (lineage : option (BranchLineage * table_meta V)) (Hself : self_contained lineage s).

Notation asof := (plan_as_of_micros s).
Notation upper := (plan_commit_seq_upper s).

(** The snapshot the plan picks, its cut and its rows, and the tier fence. *)
Definition picked : option (snapshot_meta V) := (hot_min_and_snapshot_pick m asof upper).2.
Definition W : Z := default SNAPSHOT_SEQ_GENESIS (sn_commit_seq_num <$> picked).
Definition F : Z := match last_purged_seq m with Some pu => Z.max pu W | None => W end.
Definition base_rows : list (Z * V) :=
  match picked with Some sn => mbind snapshot_rows (sn_segments sn) | None => [] end.
Definition lower : option Z := match persist_wm m with None => None | Some _ => Some F end.

Lemma picked_ok sn : picked = Some sn → snapshot_ok value index_key m HU HD sn ∧
  (∃ w, persist_wm m = Some w) ∧ sn_snapshotted_at_micros sn ≤ asof ∧
  (∀ n, upper = Some n → sn_commit_seq_num sn ≤ n).
Proof using Hco.
  unfold picked. simpl. intros [Hin Hp]%pick_snapshot_Some.
  pose proof (co_snapshots _ _ _ _ _ _ Hco sn Hin) as Hok. split; [done|].
  apply andb_prop in Hp as [Hmi Hsq]. zbool. destruct (sn_range _ _ _ _ _ _ Hok) as [Hr _]. split_and!.
  - destruct (persist_wm m); [eauto|]. simpl in *. lia.
  - lia.
  - intros n Hn. rewrite Hn in Hsq. simpl in Hsq. zbool. done.
Qed.

Lemma W_genesis : SNAPSHOT_SEQ_GENESIS ≤ W.
Proof using Hco.
  unfold W. destruct picked as [sn|] eqn:E; simpl; [|lia].
  destruct (picked_ok sn E) as [Hok _]. apply (sn_range _ _ _ _ _ _ Hok).
Qed.

Lemma W_le_F : W ≤ F.
Proof using. unfold F. destruct (last_purged_seq m); lia. Qed.

Lemma pu_le_F p : last_purged_seq m = Some p → p ≤ F.
Proof using. unfold F. intros ->. lia. Qed.

Lemma lower_default : default SNAPSHOT_SEQ_GENESIS lower = F.
Proof using Hco.
  unfold lower, F. destruct (persist_wm m) as [w|] eqn:Ew; [done|]. simpl.
  destruct (last_purged_seq m) as [p|] eqn:Ep.
  { destruct (co_purge _ _ _ _ _ _ Hco p Ep) as (w & Hw & _). congruence. }
  unfold W. destruct picked as [sn|] eqn:E; [|done].
  destruct (picked_ok sn E) as (_ & (w & Hw) & _). congruence.
Qed.

Lemma fence_persisted w r mi sq :
  persist_wm m = Some w → (r, mi, sq) ∈ stamps HU HD → W < sq ≤ F → mi ≤ w.
Proof using Hco.
  unfold F. intros Hw Hst Hsq. destruct (last_purged_seq m) as [p|] eqn:Ep; [|lia].
  destruct (co_purge _ _ _ _ _ _ Hco p Ep) as (w' & Hw' & Hle).
  assert (w' = w) as -> by congruence. apply (Hle r mi sq); [done|lia].
Qed.

(** A version at or below the cut is seen by the reader. *)
Lemma below_cut_seen r mi sq :
  (r, mi, sq) ∈ stamps HU HD → sq ≤ W → sees s mi sq.
Proof using Hco.
  intros Hst Hsq. destruct (co_range _ _ _ _ _ _ Hco _ _ _ Hst) as [Hr1 Hr2].
  unfold W in Hsq. destruct picked as [sn|] eqn:E; simpl in Hsq; [|unfold SNAPSHOT_SEQ_GENESIS in *; lia].
  destruct (picked_ok sn E) as (Hok & _ & Hmi & Hup).
  apply sees_plan_bounds; [lia|]. split; [|intros n Hn; specialize (Hup n Hn); lia].
  apply (sn_cut _ _ _ _ _ _ Hok _ _ _ Hst) in Hsq. lia.
Qed.

(** ** The plan *)

Definition cold_segments {A} (w : Z) (segs : list (segment_meta A)) : list (PersistSegment A) :=
  read_and_classify_persist_segments segs
    (window_lo (sn_snapshotted_at_micros <$> picked)) (window_hi s w) upper.

Definition hot_present : bool := negb (bool_decide (upsert_log h = [] ∧ delete_log h = [])).

Definition cold_inputs (w : Z) : ColdInputs V :=
  {| ci_snapshotted_at_micros := sn_snapshotted_at_micros <$> picked;
     ci_snapshot_seq := W;
     ci_snapshot_segments := filter (λ g, snapshot_rows g ≠ []) (default [] (sn_segments <$> picked));
     ci_indexes := default [] (sn_indexes <$> picked);
     ci_upsert_segments := cold_segments w (tm_upsert_segments m);
     ci_delete_segments := cold_segments w (tm_delete_segments m) |}.

Lemma plan_shape :
  plan m h lineage asof upper =
    match persist_wm m with
    | None => {| hot_storage := Some (plan_hot_storage None asof);
                 cold_storage := None; base_cold_storage := None |}
    | Some w => {| hot_storage := if hot_present then Some (plan_hot_storage (Some F) asof) else None;
                   cold_storage := plan_cold_storage (w + 1) (Some F) asof (cold_inputs w);
                   base_cold_storage := None |}
    end.
Proof using Hco Hself.
  unfold plan, hot_min_and_snapshot_pick, hot_min_of.
  assert ((match lineage with
           | Some (l, parent) =>
               if read_is_below_fork asof upper l then
                 enumerate_base_cold_source parent asof
                   match upper with
                   | None => fork_commit_seq_num l
                   | Some n => Z.min (fork_commit_seq_num l) n
                   end
               else None
           | None => None end) = None) as ->.
  { unfold self_contained in Hself. destruct lineage as [[l p]|]; [by rewrite Hself|done]. }
  destruct (persist_wm m) as [w|] eqn:Ew; [|done].
  pose proof (co_wm _ _ _ _ _ _ Hco w Ew) as Hw.
  destruct (Z.eqb_spec (w + 1) 0) as [?|_]; [lia|].
  unfold cold_inputs, cold_segments, F, W, hot_present, picked. simpl. rewrite Ew. simpl.
  unfold assemble_plan, phase_one_fence_and_existence, read_persist_segments_for_window, window_lo, window_hi.
  done.
Qed.

Notation the_plan := (plan m h lineage asof upper).

(** ** The log tiers *)

Section tier_rows.
Context {A : Type} (us : option (list Z)) (log : list (log_row A)) (segs : list (segment_meta A)).

Definition hot_rows : list (src_row A) :=
  hot_source us log (committed_tx lower (tighten_for_hot s (Some asof)) (commit_tx_log h)).

Definition cold_rows : list (src_row A) :=
  match persist_wm m with
  | None => []
  | Some w => cold_source None (Some (sat_add asof 1)) (fold_cold_seq_upper upper (Some F)) us
                (cold_log (cold_segments w segs))
  end.

Context (Hy : list (src_row A)).
Context (Hhot : hot_ok (last_purged_seq m) (commit_tx_log h) log Hy)
        (Hcold : cold_ok (persist_wm m) segs Hy)
        (Hst : ∀ x, x ∈ Hy → stamp x ∈ stamps HU HD)
        (Hns : ∀ sn, picked = Some sn → no_straddle (sn_snapshotted_at_micros sn) segs).

Lemma tier_range x : x ∈ Hy → 0 ≤ commit_seq_num x < I64_MAX ∧ 0 < commit_micros x < I64_MAX.
Proof using Hco Hst. intros Hx. apply (co_range _ _ _ _ _ _ Hco _ _ _ (Hst x Hx)). Qed.

Lemma hot_rows_elem x :
  x ∈ hot_rows ↔ row_uuid_in_clause us (row_uuid x) = true ∧
    ((x ∈ Hy ∧ F < commit_seq_num x ∧ sees s (commit_micros x) (commit_seq_num x)) ∨ x ∈ own_writes s log).
Proof using Hco Hhot Hst.
  unfold hot_rows. rewrite (hot_tier_elem Hy log _ _ Hhot tier_range), lower_default; [done| |].
  - rewrite lower_default. apply pu_le_F.
  - rewrite lower_default. pose proof W_genesis. pose proof W_le_F. lia.
Qed.

Lemma cold_rows_elem x :
  x ∈ cold_rows ↔ row_uuid_in_clause us (row_uuid x) = true ∧ x ∈ Hy ∧
    W < commit_seq_num x ≤ F ∧ sees s (commit_micros x) (commit_seq_num x).
Proof using Hco Hcold Hst Hns Hasof.
  unfold cold_rows. destruct (persist_wm m) as [w|] eqn:Ew.
  - apply (cold_tier_elem Hy segs _ Hcold tier_range s us w eq_refl
             (co_wm _ _ _ _ _ _ Hco w Ew) Hasof (sn_snapshotted_at_micros <$> picked) W F).
    + unfold W. destruct picked as [sn|] eqn:E; simpl; [|done].
      destruct (picked_ok sn E) as [Hok _]. split_and!; [apply (sn_range _ _ _ _ _ _ Hok)..|by apply Hns|].
      intros y Hy'. apply (sn_cut _ _ _ _ _ _ Hok _ _ _ (Hst y Hy')).
    + intros y Hy' Hsq. by apply (fence_persisted w _ _ _ Ew (Hst y Hy')).
  - split; [by intros ?%not_elem_of_nil|]. intros (_ & Hx & Hsq & _). exfalso.
    pose proof lower_default as HF. unfold lower in HF. rewrite Ew in HF. simpl in HF.
    pose proof (tier_range x Hx). unfold SNAPSHOT_SEQ_GENESIS in HF. lia.
Qed.

Lemma log_rows_elem x :
  x ∈ hot_rows ++ cold_rows ↔ row_uuid_in_clause us (row_uuid x) = true ∧
    ((x ∈ Hy ∧ W < commit_seq_num x ∧ sees s (commit_micros x) (commit_seq_num x)) ∨ x ∈ own_writes s log).
Proof using Hco Hhot Hcold Hst Hns Hasof.
  rewrite elem_of_app, hot_rows_elem, cold_rows_elem. pose proof W_le_F. split.
  - intros [(? & [(? & ? & ?)|?])|(? & ? & ? & ?)]; (split; [done|]); [left|right|left]; try done;
      split_and!; try done; lia.
  - intros (? & [(? & ? & ?)|?]); [|left; auto].
    destruct (decide (F < commit_seq_num x)); [left; auto|right]. split_and!; try done; lia.
Qed.

(** Log tiers and baseline together are the visible versions of the wanted rows. *)
Lemma all_rows_elem :
  same_elems ((hot_rows ++ cold_rows) ++ on_rows (row_uuid_in_clause us) (up_to W Hy))
    (on_rows (row_uuid_in_clause us) (visible s Hy log)).
Proof using Hco Hhot Hcold Hst Hns Hasof.
  intros x. rewrite elem_of_app, log_rows_elem, !on_rows_elem. unfold visible, up_to.
  rewrite elem_of_app, !list_elem_of_filter. split.
  - intros [(? & [(? & ? & ?)|?])|(? & ? & ?)]; (split; [done|]); [left|right|left]; try done.
    split; [|done]. apply (below_cut_seen (row_uuid x)); [by apply Hst|done].
  - intros (? & [(? & ?)|?]); [|left; auto].
    destruct (decide (commit_seq_num x ≤ W)); [right; auto|left]. split; [done|left]. split_and!; try done; lia.
Qed.
End tier_rows.

Lemma upsert_stamp u : u ∈ HU → stamp u ∈ stamps HU HD.
Proof using. apply stamps_upsert. Qed.
Lemma delete_stamp d : d ∈ HD → stamp d ∈ stamps HU HD.
Proof using. apply stamps_delete. Qed.

Lemma picked_upsert_cut sn : picked = Some sn →
  no_straddle (sn_snapshotted_at_micros sn) (tm_upsert_segments m).
Proof using Hco. intros [Hok _]%picked_ok. apply (sn_upsert_cut _ _ _ _ _ _ Hok). Qed.
Lemma picked_delete_cut sn : picked = Some sn →
  no_straddle (sn_snapshotted_at_micros sn) (tm_delete_segments m).
Proof using Hco. intros [Hok _]%picked_ok. apply (sn_delete_cut _ _ _ _ _ _ Hok). Qed.

Section kinds.
Context (us : option (list Z)).

Definition hotU := hot_rows us (upsert_log h).
Definition hotD := hot_rows us (delete_log h).
Definition coldU := cold_rows us (tm_upsert_segments m).
Definition coldD := cold_rows us (tm_delete_segments m).
Definition baseU := on_rows (row_uuid_in_clause us) (up_to W HU).
Definition baseD := on_rows (row_uuid_in_clause us) (up_to W HD).

Definition late (W0 : Z) (p : Z * Z * Z) : Prop :=
  (p ∈ stamps HU HD ∧ W0 < p.2) ∨ (p.1.2 = I64_MAX ∧ p.2 = I64_MAX).

Lemma hot_stamps r mi sq : (r, mi, sq) ∈ stamps hotU hotD → late F (r, mi, sq).
Proof using Hco.
  intros [(x & Hx & Hin)%list_elem_of_fmap|(x & Hx & Hin)%list_elem_of_fmap]%elem_of_app;
    unfold stamp in Hx; simplify_eq; unfold late; simpl.
  - apply (hot_rows_elem _ _ _ (co_hot_upserts _ _ _ _ _ _ Hco) upsert_stamp) in Hin
      as [_ [(Hx & ? & _)|Ho%own_stamp]]; [left|by right]. split; [by apply upsert_stamp|done].
  - apply (hot_rows_elem _ _ _ (co_hot_deletes _ _ _ _ _ _ Hco) delete_stamp) in Hin
      as [_ [(Hx & ? & _)|Ho%own_stamp]]; [left|by right]. split; [by apply delete_stamp|done].
Qed.

Lemma cold_stamps r mi sq :
  (r, mi, sq) ∈ stamps coldU coldD → (r, mi, sq) ∈ stamps HU HD ∧ W < sq ≤ F.
Proof using Hco Hasof.
  intros [(x & Hx & Hin)%list_elem_of_fmap|(x & Hx & Hin)%list_elem_of_fmap]%elem_of_app;
    unfold stamp in Hx; simplify_eq.
  - apply (cold_rows_elem _ _ _ (co_cold_upserts _ _ _ _ _ _ Hco) upsert_stamp picked_upsert_cut) in Hin
      as (_ & Hx & ? & _). split; [by apply upsert_stamp|done].
  - apply (cold_rows_elem _ _ _ (co_cold_deletes _ _ _ _ _ _ Hco) delete_stamp picked_delete_cut) in Hin
      as (_ & Hx & ? & _). split; [by apply delete_stamp|done].
Qed.

Lemma base_stamps r mi sq :
  (r, mi, sq) ∈ stamps baseU baseD → (r, mi, sq) ∈ stamps HU HD ∧ sq ≤ W.
Proof using.
  intros [(x & Hx & Hin)%list_elem_of_fmap|(x & Hx & Hin)%list_elem_of_fmap]%elem_of_app;
    unfold stamp in Hx; simplify_eq; apply on_rows_elem in Hin as [_ [? ?]%list_elem_of_filter].
  - split; [by apply upsert_stamp|done].
  - split; [by apply delete_stamp|done].
Qed.

(** Anything late is above anything at or below the bound. *)
Lemma late_above W0 r1 m1 s1 r2 m2 s2 :
  late W0 (r1, m1, s1) → (r2, m2, s2) ∈ stamps HU HD → s2 ≤ W0 → s2 < s1 ∧ m2 ≤ m1.
Proof using Hco.
  intros [[H1 ?]|[? ?]] H2 Hle; simpl in *; destruct (co_range _ _ _ _ _ _ Hco _ _ _ H2) as [? ?].
  - assert (s2 < s1) as Hlt by lia. split; [done|].
    apply (co_mono _ _ _ _ _ _ Hco _ _ _ _ _ _ H2 H1) in Hlt. lia.
  - subst. lia.
Qed.

Lemma hot_above_cold : tier_above hotU hotD coldU coldD.
Proof using Hco Hasof.
  intros r m1 s1 m2 s2 H1%hot_stamps [H2 ?]%cold_stamps. apply (late_above F r m1 s1 r m2 s2); [done..|lia].
Qed.

Lemma log_above_base : tier_above (hotU ++ coldU) (hotD ++ coldD) baseU baseD.
Proof using Hco Hasof.
  intros r m1 s1 m2 s2 H1 [H2 ?]%base_stamps. pose proof W_le_F.
  assert ((r, m1, s1) ∈ stamps hotU hotD ∨ (r, m1, s1) ∈ stamps coldU coldD) as Hor.
  { unfold stamps in *. rewrite !fmap_app in H1. clear -H1. set_solver. }
  destruct Hor as [H1'%hot_stamps|[H1' ?]%cold_stamps].
  - apply (late_above F r m1 s1 r m2 s2); [done..|lia].
  - apply (late_above W r m1 s1 r m2 s2); [left; simpl; split; [done|lia]|done|lia].
Qed.

Lemma resolves_nil : resolves (@nil (src_row V)) [] [].
Proof using. split; [constructor|by intros ? ?%not_elem_of_nil|].
  intros r [(? & ?%not_elem_of_nil & _)|(? & ?%not_elem_of_nil & _)]; done. Qed.

Lemma hot_resolves : resolves hotU hotD (resolve_hot the_plan h s us).
Proof using Hco Hself.
  unfold resolve_hot. rewrite plan_shape. unfold hotU, hotD, hot_rows, lower.
  destruct (persist_wm m) as [w|]; [|apply two_arm_ok]. cbn [hot_storage].
  destruct hot_present eqn:E; [apply two_arm_ok|].
  unfold hot_present in E. apply negb_false_iff, bool_decide_eq_true in E as [-> ->]. apply resolves_nil.
Qed.

Lemma cold_resolves : resolves coldU coldD (resolve_cold the_plan upper us).
Proof using Hco Hself.
  unfold resolve_cold. rewrite plan_shape. unfold coldU, coldD, cold_rows.
  destruct (persist_wm m) as [w|] eqn:Ew; cbn [cold_storage]; [|apply resolves_nil].
  pose proof (co_wm _ _ _ _ _ _ Hco w Ew) as Hw.
  unfold plan_cold_storage. destruct (Z.eqb_spec (w + 1) 0) as [?|_]; [lia|].
  cbn [ci_upsert_segments ci_delete_segments cold_inputs].
  destruct (cold_segments w (tm_upsert_segments m)) as [|p1 l1],
    (cold_segments w (tm_delete_segments m)) as [|p2 l2]; cbn [is_empty andb];
    destruct (_ <$> _);
    first [exact resolves_nil | exact (two_arm_ok (DL := DfDialect_laws) OrderCommitSeqNum _ _)].
Qed.

Definition unioned : list (resolved_row V) :=
  union_latest (resolve_hot the_plan h s us) (resolve_cold the_plan upper us).

Lemma union_resolves : resolves (hotU ++ coldU) (hotD ++ coldD) unioned.
Proof using Hco Hself Hasof.
  apply union_latest_resolves; [apply hot_resolves|apply cold_resolves|apply hot_above_cold].
Qed.

Lemma keys_unique_visible : keys_unique OrderCommitSeqNum (visible s HU (upsert_log h)).
Proof using Hco.
  intros x y Hx Hy Hr Hxy Hyx. unfold visible in *.
  assert (commit_seq_num x = commit_seq_num y ∧ write_seq_num x = write_seq_num y) as [Hsq Hws].
  { unfold kle in *; simpl in *. lia. }
  assert (∀ z, z ∈ HU → commit_seq_num z < I64_MAX) as Hlt.
  { intros z Hz. apply (co_range _ _ _ _ _ _ Hco _ _ _ (upsert_stamp z Hz)). }
  apply elem_of_app in Hx as [[_ Hx]%list_elem_of_filter|Hx],
    Hy as [[_ Hy]%list_elem_of_filter|Hy].
  - by apply (co_keys _ _ _ _ _ _ Hco).
  - apply own_stamp in Hy as [_ ?]. specialize (Hlt x Hx). lia.
  - apply own_stamp in Hx as [_ ?]. specialize (Hlt y Hy). lia.
  - apply own_writes_elem in Hx as (u & c & Hu & Hc & Htx & ->), Hy as (u' & c' & Hu' & Hc' & Htx' & ->).
    simpl in *. assert (c = c') as -> by (clear -Hc Hc'; destruct s; set_solver).
    assert (u = u') as -> by (eapply (hot_unique _ _ _ _ (co_hot_upserts _ _ _ _ _ _ Hco)); congruence). done.
Qed.

Lemma upserts_all : same_elems ((hotU ++ coldU) ++ baseU)
  (on_rows (row_uuid_in_clause us) (visible s HU (upsert_log h))).
Proof using Hco Hasof.
  apply (all_rows_elem us _ _ _ (co_hot_upserts _ _ _ _ _ _ Hco) (co_cold_upserts _ _ _ _ _ _ Hco)
           upsert_stamp picked_upsert_cut).
Qed.

Lemma deletes_all : same_elems ((hotD ++ coldD) ++ baseD)
  (on_rows (row_uuid_in_clause us) (visible s HD (delete_log h))).
Proof using Hco Hasof.
  apply (all_rows_elem us _ _ _ (co_hot_deletes _ _ _ _ _ _ Hco) (co_cold_deletes _ _ _ _ _ _ Hco)
           delete_stamp picked_delete_cut).
Qed.

Lemma keys_unique_log : keys_unique OrderCommitSeqNum ((hotU ++ coldU) ++ baseU).
Proof using Hco Hasof.
  intros x y [_ Hx]%upserts_all%on_rows_elem [_ Hy]%upserts_all%on_rows_elem.
  by apply keys_unique_visible.
Qed.

Lemma base_baseline :
  baseline_of baseU baseD (filter (λ x, row_uuid_in_clause us x.1 = true) base_rows).
Proof using Hco.
  intros r v. rewrite list_elem_of_filter. unfold baseU, baseD. setoid_rewrite live_on_rows.
  assert ((r, v) ∈ base_rows ↔ ∃ u, live (up_to W HU) (up_to W HD) u ∧ row_uuid u = r ∧ cols u = v) as ->.
  { unfold base_rows, W. destruct picked as [sn|] eqn:E; simpl.
    - destruct (picked_ok sn E) as [Hok _]. apply (sn_baseline _ _ _ _ _ _ Hok).
    - split; [by intros ?%not_elem_of_nil|]. intros (u & [[? Hu]%list_elem_of_filter _] & _).
      destruct (co_range _ _ _ _ _ _ Hco _ _ _ (upsert_stamp u Hu)).
      unfold SNAPSHOT_SEQ_GENESIS in *. lia. }
  simpl. split; [intros [? (u & ? & <- & <-)]|intros (u & [? ?] & <- & <-)]; eauto.
Qed.

(** The table at [s], on the wanted rows: the log tiers' live rows and the
    baseline rows they do not touch. *)
Lemma table_rows r v :
  (table_at s HU HD h (r, v) ∧ row_uuid_in_clause us r = true) ↔
    (∃ u, live (hotU ++ coldU) (hotD ++ coldD) u ∧ row_uuid u = r ∧ cols u = v) ∨
    ((r, v) ∈ base_rows ∧ row_uuid_in_clause us r = true ∧ ¬ touched (hotU ++ coldU) (hotD ++ coldD) r).
Proof using Hco Hasof.
  pose proof (overlay_live (hotU ++ coldU) (hotD ++ coldD) baseU baseD _ r v keys_unique_log
                (tier_above_dominates _ _ _ _ log_above_base) base_baseline) as Ho.
  rewrite list_elem_of_filter in Ho. simpl in Ho.
  setoid_rewrite upserts_all in Ho. setoid_rewrite deletes_all in Ho. setoid_rewrite live_on_rows in Ho.
  unfold table_at; simpl. transitivity (∃ u,
    (live (visible s HU (upsert_log h)) (visible s HD (delete_log h)) u ∧
     row_uuid_in_clause us (row_uuid u) = true) ∧ row_uuid u = r ∧ cols u = v).
  - split; [intros [(u & ? & <- & <-) ?]|intros (u & [? ?] & <- & <-)]; eauto.
  - rewrite Ho. clear. tauto.
Qed.

(** ** Delivery *)

Context (may_match : (Z * V → bool) → SnapshotSegment V → bool) (Hprune : prune_sound may_match).
Context (f : option (Z * V → bool)).

Definition exclusion : gset Z := list_to_set (rr_row_uuid <$> unioned).

Lemma exclusion_touched r : r ∈ exclusion ↔ touched (hotU ++ coldU) (hotD ++ coldD) r.
Proof using Hco Hself Hasof.
  unfold exclusion. rewrite elem_of_list_to_set. apply (resolve_touched _ _ _ _ _ union_resolves).
Qed.

Definition answers (rows : list (Z * V)) : Prop :=
  NoDup (fst <$> rows) ∧ ∀ x, x ∈ rows ↔ table_at s HU HD h x ∧ wants f us x.

(** Live rows of the log tiers followed by the uncovered baseline rows. *)
Lemma delivered_answers out snap :
  resolves (hotU ++ coldU) (hotD ++ coldD) out → NoDup (fst <$> snap) →
  (∀ x, x ∈ snap ↔ x ∈ base_rows ∧ ¬ touched (hotU ++ coldU) (hotD ++ coldD) x.1 ∧ wants f us x) →
  answers (deliver f out ++ snap).
Proof using Hco Hasof.
  intros Hout Hnd Hsnap. assert (keys_unique OrderCommitSeqNum (hotU ++ coldU)) as Hk.
  { intros x y Hx Hy. apply keys_unique_log; apply elem_of_app; auto. }
  split.
  - rewrite fmap_app. apply NoDup_app. split_and!; [by eapply deliver_nodup| |done].
    intros r (x & -> & Hx)%list_elem_of_fmap (y & Heq & Hy)%list_elem_of_fmap.
    apply Hsnap in Hy as (_ & Hy & _). apply Hy. rewrite <- Heq. by eapply deliver_touched.
  - intros [r v]. rewrite elem_of_app, Hsnap, (deliver_elem _ _ _ _ _ _ Hk Hout).
    unfold wants. simpl. pose proof (table_rows r v) as Ht.
    assert ((∃ u, live (hotU ++ coldU) (hotD ++ coldD) u ∧ row_uuid u = r ∧ cols u = v) →
            row_uuid_in_clause us r = true) as Hin.
    { intros H. apply (proj2 Ht). by left. }
    clear -Ht Hin. tauto.
Qed.

Lemma merged_answers snap :
  NoDup (fst <$> snap) →
  (∀ x, x ∈ snap ↔ x ∈ base_rows ∧ x.1 ∉ exclusion ∧ wants f us x) →
  answers (deliver f unioned ++ snap).
Proof using Hco Hself Hasof.
  intros Hnd Hsnap. apply delivered_answers; [apply union_resolves|done|].
  intros x. by rewrite Hsnap, exclusion_touched.
Qed.

Lemma mbind_nonempty (segs : list (SnapshotSegment V)) :
  mbind snapshot_rows (filter (λ g, snapshot_rows g ≠ []) segs) = mbind snapshot_rows segs.
Proof using.
  induction segs as [|g segs IH]; [done|]. rewrite filter_cons. case_decide as Hg.
  - by rewrite !bind_cons, IH.
  - rewrite bind_cons, IH. by rewrite Hg.
Qed.

Definition snapshot_of : option (SnapshotPlan V) :=
  (λ sn, {| sp_segments := filter (λ g, snapshot_rows g ≠ []) (sn_segments sn);
            sp_indexes := sn_indexes sn;
            sp_snapshotted_at_micros := sn_snapshotted_at_micros sn;
            sp_commit_seq_num := sn_commit_seq_num sn |}) <$> picked.

Lemma plan_snapshot : cold_storage the_plan ≫= snapshot = snapshot_of.
Proof using Hco Hself.
  rewrite plan_shape. unfold snapshot_of. destruct (persist_wm m) as [w|] eqn:Ew; cbn [cold_storage].
  - pose proof (co_wm _ _ _ _ _ _ Hco w Ew) as Hw.
    unfold plan_cold_storage. destruct (Z.eqb_spec (w + 1) 0) as [?|_]; [lia|].
    cbn [ci_upsert_segments ci_delete_segments ci_snapshotted_at_micros ci_snapshot_segments
         ci_indexes ci_snapshot_seq cold_inputs].
    unfold W. destruct picked as [sn|]; simpl;
      by repeat case_match.
  - destruct picked as [sn|] eqn:E; [|done]. destruct (picked_ok sn E) as (_ & (w & ?) & _). congruence.
Qed.

Lemma plan_base_none : base_cold_storage the_plan = None.
Proof using Hco Hself. rewrite plan_shape. by destruct (persist_wm m). Qed.

Lemma plan_snapshot_stream_answers schema seeks tuning :
  segment_order_of tuning = ByCompletion → identity seeks = us →
  (∀ sp, snapshot_of = Some sp → seeks_sound index_key (sp_segments sp) f us (to_scan_specs seeks)) →
  ∃ snap, plan_snapshot_stream may_match schema the_plan f seeks exclusion tuning = Ok snap ∧
    answers (deliver f unioned ++ snap).
Proof using Hco Hself Hasof Hprune.
  intros Hord Hid Hsound. unfold plan_snapshot_stream. rewrite plan_snapshot, plan_base_none.
  unfold snapshot_of in *. destruct picked as [sn|] eqn:E; simpl.
  - destruct (picked_ok sn E) as [Hok _].
    destruct (snapshot_segment_stream_spec index_key may_match Hprune schema
                {| sp_segments := filter (λ g, snapshot_rows g ≠ []) (sn_segments sn);
                   sp_indexes := sn_indexes sn;
                   sp_snapshotted_at_micros := sn_snapshotted_at_micros sn;
                   sp_commit_seq_num := sn_commit_seq_num sn |}
                f seeks exclusion tuning) as (snap & -> & Hnd & Hel); [|done| | |].
    + intros g [_ Hg]%list_elem_of_filter. by apply (sn_segs_wf _ _ _ _ _ _ Hok).
    + rewrite Hid. by apply Hsound.
    + simpl. rewrite mbind_nonempty. apply (sn_nodup _ _ _ _ _ _ Hok).
    + exists snap. split; [done|]. apply merged_answers; [done|]. intros x. rewrite Hel. simpl.
      rewrite mbind_nonempty, Hid. unfold base_rows. by rewrite E.
  - exists []. split; [done|]. apply merged_answers; [constructor|]. unfold base_rows. rewrite E. set_solver.
Qed.

(** ** Dispatch *)

Lemma project_resolved_cons (x : resolved_row V) l :
  project_resolved (x :: l) =
  match rr_cols x with Some v => (rr_row_uuid x, v) :: project_resolved l | None => project_resolved l end.
Proof using. unfold project_resolved. simpl. by destruct (rr_cols x). Qed.

Lemma project_residual (l : list (resolved_row V)) :
  project_resolved (apply_resolved_residual f l) =
  filter (λ x, user_filter f x = true) (project_resolved l).
Proof using.
  destruct f as [p|]; simpl; [|induction (project_resolved l) as [|y k IH];
    [done|by rewrite filter_cons_True, <- IH]].
  induction l as [|x l IH]; [done|]. rewrite filter_cons, project_resolved_cons.
  destruct (rr_cols x) as [v|] eqn:E.
  - rewrite filter_cons. case_decide; [|done]. by rewrite project_resolved_cons, E, IH.
  - case_decide; done.
Qed.

Lemma no_touch_resolves U1 D1 U2 D2 out :
  resolves U1 D1 out → resolves U2 D2 (@nil (resolved_row V)) → resolves (U1 ++ U2) (D1 ++ D2) out.
Proof using.
  intros H1 H2. assert (U2 = []) as ->.
  { destruct U2 as [|u U2]; [done|]. assert (touched (u :: U2) D2 (row_uuid u)) as Ht%(ro_complete _ _ _ _ H2).
    { left. exists u. split; [by left|done]. } by apply not_elem_of_nil in Ht. }
  assert (D2 = []) as ->.
  { destruct D2 as [|d D2]; [done|].
    assert (touched (@nil (src_row V)) (d :: D2) (row_uuid d)) as Ht%(ro_complete _ _ _ _ H2).
    { right. exists d. split; [by left|done]. } by apply not_elem_of_nil in Ht. }
  by rewrite !app_nil_r.
Qed.

Lemma all_hot_cold_none : is_all_hot the_plan = true → cold_storage the_plan = None.
Proof using Hco Hself.
  unfold is_all_hot. rewrite plan_base_none. destruct (cold_storage the_plan) as [c|] eqn:E; [|done].
  rewrite plan_shape in E. destruct (persist_wm m) as [w|]; [|done]. cbn [cold_storage] in E.
  unfold plan_cold_storage in E. repeat case_match; by simplify_eq/=.
Qed.

Lemma all_hot_answers rq :
  is_all_hot the_plan = true → rq_plan rq = the_plan → rq_db rq = h → rq_snapshot rq = s → rq_filter rq = f →
  answers (stream_all_hot rq us).
Proof using Hco Hself Hasof.
  intros Hah Hp Hdb Hsn Hf. pose proof (all_hot_cold_none Hah) as Hcs.
  assert (stream_all_hot rq us = deliver f (resolve_hot the_plan h s us) ++ []) as ->.
  { unfold stream_all_hot, deliver, resolve_hot. rewrite Hp, Hdb, Hsn, Hf, app_nil_r.
    destruct (hot_storage the_plan) as [hp|]; [|by rewrite project_residual].
    rewrite project_residual. by destruct hp as [[[? ?]|] [[? ?]|]]. }
  pose proof cold_resolves as Hc. unfold resolve_cold in Hc. rewrite Hcs in Hc.
  apply delivered_answers; [apply no_touch_resolves; [apply hot_resolves|done]|constructor|].
  pose proof plan_snapshot as Hps. rewrite Hcs in Hps. unfold snapshot_of in Hps. unfold base_rows.
  destruct picked; [done|]. intros x. clear. set_solver.
Qed.

Context (rq : MergeReadRequest (V := V)).
Context (Hrq_plan : rq_plan rq = the_plan) (Hrq_db : rq_db rq = h) (Hrq_snap : rq_snapshot rq = s)
        (Hrq_filter : rq_filter rq = f) (Hrq_order : segment_order_of (rq_tuning rq) = ByCompletion)
        (Hrq_id : identity_row_uuids (rq_seeks rq) (filter_present f) = Ok us)
        (Hrq_sound : ∀ sp, snapshot_of = Some sp →
           seeks_sound index_key (sp_segments sp) f us
             (to_scan_specs {| identity := us; accelerators := user_seek_specs (rq_seeks rq) |})).

Lemma stream_merged_answers : ∃ rows, stream_merged may_match rq = Ok rows ∧ answers rows.
Proof using All.
  unfold stream_merged. rewrite Hrq_filter, Hrq_id, Hrq_plan, Hrq_db, Hrq_snap.
  unfold build_resolved_and_exclusion_set, compose_resolved_and_exclusion, fold_base_if_present.
  rewrite plan_base_none.
  destruct (plan_snapshot_stream_answers (rq_schema rq)
              {| identity := us; accelerators := user_seek_specs (rq_seeks rq) |} (rq_tuning rq)
              Hrq_order eq_refl Hrq_sound) as (snap & Hsnap & Hans).
  unfold exclusion, unioned, collect_row_uuids, cold_commit_seq_upper in *. rewrite Hsnap. eauto.
Qed.

Lemma stream_all_cold_answers :
  hot_storage the_plan = None → ∃ rows, stream_all_cold may_match rq = Ok rows ∧ answers rows.
Proof using All.
  intros Hhot. unfold stream_all_cold, resolve_log_tiers.
  rewrite Hrq_filter, Hrq_plan, Hhot, Hrq_id, Hrq_snap.
  unfold build_cold_resolved_and_exclusion_set, compose_resolved_and_exclusion, fold_base_if_present.
  rewrite plan_base_none. cbn [lt_resolved lt_exclusion_set lt_identity_row_uuids].
  destruct (plan_snapshot_stream_answers (rq_schema rq)
              {| identity := us; accelerators := user_seek_specs (rq_seeks rq) |} (rq_tuning rq)
              Hrq_order eq_refl Hrq_sound) as (snap & Hsnap & Hans).
  unfold exclusion, unioned, collect_row_uuids, cold_commit_seq_upper, resolve_hot in *.
  rewrite Hhot in Hsnap, Hans. rewrite Hsnap. eauto.
Qed.

Lemma snapshot_only_untouched r :
  is_snapshot_only the_plan = true → ¬ touched (hotU ++ coldU) (hotD ++ coldD) r.
Proof using Hco Hself Hasof.
  intros [Hac Hp]%andb_prop. unfold is_all_cold in Hac.
  assert (unioned = []) as Hu.
  { unfold unioned, resolve_hot, resolve_cold. destruct (hot_storage the_plan); [done|].
    destruct (cold_storage the_plan) as [c|]; [|done]. by destruct (persist c), (snapshot c). }
  intros Ht%(ro_complete _ _ _ _ union_resolves). rewrite Hu in Ht. by apply not_elem_of_nil in Ht.
Qed.

(** The one seek entry that drives the bypass selects exactly what is wanted. *)
Context (exact : bool).
Context (Hexact : ∀ e sp, exact = true → rq_seeks rq = Some [e] → snapshot_of = Some sp →
           (∀ g, g ∈ sp_segments sp → spec_ok g e) ∧
           (∀ x, spec_matches index_key e x ↔ wants f us x)).

Lemma stream_cold_read_answers : ∃ rows, stream_cold_read may_match rq exact = Ok rows ∧ answers rows.
Proof using All.
  unfold stream_cold_read. rewrite Hrq_plan.
  assert (∃ rows, (if is_all_cold the_plan then stream_all_cold may_match rq
                   else stream_merged may_match rq) = Ok rows ∧ answers rows) as Hfall.
  { destruct (is_all_cold the_plan) eqn:E; [|apply stream_merged_answers]. apply stream_all_cold_answers.
    unfold is_all_cold in E. by destruct (hot_storage the_plan). }
  destruct (is_direct_seek_eligible the_plan exact) eqn:Hd; [|done].
  apply andb_prop in Hd as [Hso Hex].
  destruct (rq_seeks rq) as [[|e [|]]|] eqn:Hs; [done| |done|done].
  rewrite plan_snapshot. destruct snapshot_of as [sp|] eqn:Hsp.
  2:{ exfalso. pose proof plan_snapshot as Hps. rewrite Hsp in Hps. apply andb_prop in Hso as [_ Hso].
      destruct (cold_storage the_plan) as [c|]; [|done]. simpl in Hps. by rewrite Hps in Hso. }
  destruct (Hexact e sp Hex eq_refl eq_refl) as [Hok Hm].
  assert (∃ sn, picked = Some sn ∧ sp_segments sp = filter (λ g, snapshot_rows g ≠ []) (sn_segments sn))
    as (sn & Hsn & Hsegs).
  { unfold snapshot_of in Hsp. destruct picked as [sn|]; simplify_eq/=. eauto. }
  destruct (picked_ok sn Hsn) as [Hsnok _].
  destruct (seek_snapshot_point_spec index_key (rq_schema rq) e (sp_segments sp)) as [->|(rows & -> & Hsub & Hel)].
  { intros g Hg. split; [|by apply Hok]. rewrite Hsegs in Hg. apply list_elem_of_filter in Hg as [_ Hg].
    by apply (sn_segs_wf _ _ _ _ _ _ Hsnok). }
  { done. }
  exists rows. split; [done|]. rewrite Hsegs, mbind_nonempty in Hsub, Hel.
  assert (rows = deliver f [] ++ rows) as -> by (unfold deliver; by destruct f).
  apply (delivered_answers [] rows).
  - split; [constructor|by intros ? ?%not_elem_of_nil|]. intros r Ht. by apply snapshot_only_untouched in Ht.
  - eapply NoDup_fst_sublist; [exact Hsub|apply (sn_nodup _ _ _ _ _ _ Hsnok)].
  - intros x. rewrite Hel, Hm. unfold base_rows. rewrite Hsn.
    pose proof (snapshot_only_untouched x.1 Hso) as Hn. clear -Hn. tauto.
Qed.
End kinds.
End planned.

(** ** Seeks of a read *)

Section seeks.
Context (us : option (list Z)) (users : list SeekSpec).
Context (Husers : ∀ e, e ∈ users → is_Some (ss_index_uuid e)).

Lemma identity_loop_users l : ∀ saw acc,
  (∀ e, e ∈ l → is_Some (ss_index_uuid e)) →
  identity_loop true l saw acc = Ok (if saw then Some acc else None).
Proof using.
  induction l as [|e l IH]; intros saw acc Hl; [done|]. simpl.
  destruct (Hl e) as [u ->]; [by left|]. apply IH. intros e' ?. apply Hl. by right.
Qed.

Lemma identity_tuples l :
  mapM (λ t : list Z, match t with [u] => Some u | _ => None end) ((λ u, [u]) <$> l) = Some l.
Proof using. induction l as [|u l IH]; [done|]. rewrite fmap_cons. simpl. by rewrite IH. Qed.

Lemma identity_row_uuids_extend fp :
  (users = [] ∨ fp = true) → identity_row_uuids (extend_seeks (identity_seeks us) users) fp = Ok us.
Proof using Husers.
  intros Hfp. destruct us as [l|], users as [|e es]; simpl.
  - by rewrite identity_tuples.
  - destruct Hfp as [?| ->]; [done|]. rewrite identity_tuples. exact (identity_loop_users (e :: es) true l Husers).
  - done.
  - destruct Hfp as [?| ->]; [done|]. exact (identity_loop_users (e :: es) false [] Husers).
Qed.

Lemma user_seek_specs_extend :
  user_seek_specs (extend_seeks (identity_seeks us) users) =
  match users with [] => None | _ => Some users end.
Proof using Husers.
  assert (filter (λ e, is_Some (ss_index_uuid e)) users = users) as Hall.
  { clear us. induction users as [|e l IH]; [done|]. rewrite filter_cons_True, IH; [done| |].
    - intros e' ?. apply Husers. by right.
    - apply Husers. by left. }
  unfold user_seek_specs, extend_seeks, identity_seeks. destruct us as [l|]; simpl.
  - destruct users as [|e es] eqn:E; [by rewrite filter_cons_False by (intros [? ?]; done)|].
    simpl app. rewrite filter_cons_False by (intros [? ?]; done). by rewrite Hall.
  - destruct users as [|e es]; [done|]. simpl. by rewrite Hall.
Qed.

Lemma scan_specs_elem es spec :
  to_scan_specs {| identity := us;
                   accelerators := user_seek_specs (extend_seeks (identity_seeks us) users) |} = Some es →
  spec ∈ es → (∃ l, us = Some l ∧ spec = identity_spec l) ∨ spec ∈ users.
Proof using Husers.
  rewrite user_seek_specs_extend. unfold to_scan_specs. simpl.
  destruct us as [l|], users as [|e es']; intros; simplify_eq/=; set_solver.
Qed.
End seeks.

Section final.
Context {V : Type} (value : Z → Z * V → cell) (index_key : Z → Z * V → list cell).

Lemma built_for_arity g u sc :
  built_for index_key g u sc → (1 ≤ num_keys sc)%nat ∧
  ∀ x, x ∈ snapshot_rows g → length (key_of index_key u x) = num_keys sc.
Proof.
  intros (kc & Hb & _ & Hkey). unfold build_segment_index in Hb. destruct kc as [|c0 kc]; [done|].
  case_decide; simplify_eq. cbn [num_keys]. split; [simpl; lia|]. intros x [i Hi]%list_elem_of_lookup.
  rewrite <- (Hkey i x Hi). unfold key_at. by rewrite length_fmap.
Qed.

Lemma identity_spec_ok g l : seg_wf index_key g → spec_ok g (identity_spec l).
Proof.
  intros Hwf sc Hsc. right. exists 1%nat. destruct (built_for_arity g None sc (Hwf _ _ Hsc)) as [? _].
  split; [lia|]. by intros q (u & -> & _)%list_elem_of_fmap.
Qed.

Lemma identity_spec_matches l (x : Z * V) : spec_matches index_key (identity_spec l) x ↔ x.1 ∈ l.
Proof.
  unfold spec_matches, matches_probe. simpl. split.
  - intros (q & (u & -> & Hu)%list_elem_of_fmap & Hq). simpl in Hq. by simplify_eq.
  - intros Hx. exists [x.1]. split; [apply list_elem_of_fmap; eauto|done].
Qed.

Lemma user_spec_ok (sp : SnapshotPlan V) bs mx e g :
  index_keys_ok value index_key sp → seg_wf index_key g → snapshot_rows g ≠ [] →
  e ∈ select_from_bindings bs sp mx → spec_ok g e.
Proof.
  intros Hkeys Hwf Hne (def & Hdef & Hu & _ & Hb)%select_from_bindings_def sc Hsc.
  rewrite Hu in Hsc. destruct (built_for_arity g _ sc (Hwf _ _ Hsc)) as [H1 Hlen].
  destruct (snapshot_rows g) as [|x l]; [done|]. specialize (Hlen x ltac:(by left)).
  simpl in Hlen. rewrite Hkeys, length_fmap in Hlen by done.
  right. exists (num_keys sc). split; [lia|]. apply bind_index_tuples_spec in Hb as [_ Hts].
  intros q Hq%Hts. rewrite <- Hlen. by eapply Forall2_length.
Qed.

Context (may_match : (Z * V → bool) → SnapshotSegment V → bool)
        (equality_bindings : (Z * V → bool) → gmap Z (list Z)).

(** DataFusion's equality extraction: a row that satisfies the predicate holds
    one of the extracted values in every bound column. *)
Definition bindings_sound : Prop :=
  ∀ f x, f x = true → within_bindings value (equality_bindings f) x.

Lemma combine_filters_true {R} (a b : option (R → bool)) x :
  (∀ f, combine_filters a b = Some f → f x = true) ↔
  (∀ f, a = Some f → f x = true) ∧ (∀ f, b = Some f → f x = true).
Proof.
  destruct a as [f|], b as [g|]; simpl; split.
  - intros H. specialize (H _ eq_refl). simpl in H. apply andb_prop in H as [? ?]. naive_solver.
  - intros [H1 H2] ? [= <-]. by rewrite (H1 _ eq_refl), (H2 _ eq_refl).
  - naive_solver. - naive_solver. - naive_solver. - naive_solver. - naive_solver. - naive_solver.
Qed.

(** What a request asks for: its primary keys, its filter and its index seek. *)
Definition requested (req : ReadDataRequest V) (x : Z * V) : Prop :=
  (∀ us, rd_row_uuids req = Some us → x.1 ∈ us) ∧
  (∀ f, rd_filter req = Some f → f x = true) ∧
  (∀ k, rd_index_seek req = Some k → index_residual value (residual k) x = true).

Lemma wants_requested req x :
  rd_row_uuids req ≠ Some [] →
  wants (effective_filter value req) (rd_row_uuids req) x ↔ requested req x.
Proof.
  intros Hne. unfold wants, requested.
  assert (row_uuid_in_clause (rd_row_uuids req) x.1 = true ↔
          ∀ us, rd_row_uuids req = Some us → x.1 ∈ us) as ->.
  { destruct (rd_row_uuids req) as [[|u us]|]; simpl; [done| |naive_solver].
    rewrite bool_decide_eq_true. naive_solver. }
  assert (user_filter (effective_filter value req) x = true ↔
          ∀ f, effective_filter value req = Some f → f x = true) as ->.
  { destruct (effective_filter value req); simpl; naive_solver. }
  unfold effective_filter. rewrite combine_filters_true. apply and_iff_compat_l, and_iff_compat_l.
  destruct (rd_index_seek req); simpl; naive_solver.
Qed.

Lemma user_entries_spec cfg p req e :
  e ∈ user_seek_entries value equality_bindings cfg p req →
  ∃ sp bs, cold_storage p ≫= snapshot = Some sp ∧
    e ∈ select_from_bindings bs sp (qc_index_seek_max_probe_tuples cfg) ∧
    ((∃ k, rd_index_seek req = Some k ∧ bs = bindings k) ∨
     (rd_index_seek req = None ∧ ∃ f, effective_filter value req = Some f ∧ bs = equality_bindings f)).
Proof.
  unfold user_seek_entries. destruct (rd_index_seek req) as [k|] eqn:Hk,
    (cold_storage p ≫= snapshot) as [sp|] eqn:Hsp; try by intros ?%not_elem_of_nil.
  - destruct (is_empty _); [by intros ?%not_elem_of_nil|]. intros He. exists sp, (bindings k). eauto 6.
  - destruct (effective_filter value req) as [f|]; [|by intros ?%not_elem_of_nil].
    destruct (is_empty _); [by intros ?%not_elem_of_nil|]. unfold select_index_seeks.
    destruct (_ =? 0); [by intros ?%not_elem_of_nil|]. intros He. exists sp, (equality_bindings f). eauto 8.
Qed.
End final.

(** ** The theorem *)

(** The seek of a request: decoded from the wire, and accompanied by a filter
    (without one the seek-only bypass would skip the residual). *)
Definition seek_filtered {V} (req : ReadDataRequest V) : Prop :=
  ∀ k, rd_index_seek req = Some k →
    (∃ batches schema defined, decode_index_seek batches schema defined = Ok k) ∧
    is_Some (rd_filter req).

Definition below_floor {V} (m : table_meta V) (now : Z) (duration : option Z) (s : ReadSnapshot) : bool :=
  match retention_floor m now duration with
  | Some fl => retention_floor_below fl (plan_as_of_micros s) (plan_commit_seq_upper s)
  | None => false
  end.

Section theorem.
Context {V : Type} (value : Z → Z * V → cell) (index_key : Z → Z * V → list cell)
  (may_match : (Z * V → bool) → SnapshotSegment V → bool)
  (equality_bindings : (Z * V → bool) → gmap Z (list Z)).
Context (m : table_meta V) (h : hot_db V) (HU : list (src_row V)) (HD : list (src_row unit))
  (Hco : coherent value index_key m h HU HD)
  (Hprune : prune_sound may_match) (Hbind : bindings_sound value equality_bindings).
Context (cfg : QueryConfig) (lineage : option (BranchLineage * table_meta V)) (req : ReadDataRequest V)
  (Hself : self_contained lineage (rd_snapshot req))
  (Hasof : in_i64 (plan_as_of_micros (rd_snapshot req)))
  (Hids : rd_row_uuids req ≠ Some []) (Hseek : seek_filtered req).

Notation s := (rd_snapshot req).
Notation us := (rd_row_uuids req).
Notation f := (effective_filter value req).
Notation the_plan := (plan m h lineage (plan_as_of_micros s) (plan_commit_seq_upper s)).
Notation users := (user_seek_entries value equality_bindings cfg the_plan req).

Lemma users_indexed e : e ∈ users → is_Some (ss_index_uuid e).
Proof using.
  intros (sp & bs & _ & He & _)%user_entries_spec.
  apply select_from_bindings_def in He as (def & _ & -> & _). done.
Qed.

Lemma users_need_filter : users = [] ∨ filter_present f = true.
Proof using Hseek.
  destruct users as [|e l] eqn:E; [by left|right].
  assert (e ∈ users) as (sp & bs & _ & _ & [(k & Hk & _)|(_ & f' & Hf & _)])%user_entries_spec
    by (rewrite E; by left).
  - destruct (Hseek k Hk) as [_ [f' Hf']]. unfold effective_filter. by rewrite Hf', Hk.
  - by rewrite Hf.
Qed.

Lemma users_within sp e : snapshot_of m s = Some sp → e ∈ users →
  (∀ g, g ∈ sp_segments sp → spec_ok g e) ∧ (∀ x, wants f us x → spec_matches index_key e x).
Proof using Hco Hself Hseek Hbind.
  intros Hsp (sp' & bs & Hsp' & He & Hbs)%user_entries_spec.
  assert (sp' = sp) as ->.
  { pose proof (plan_snapshot value index_key m h HU HD Hco s lineage Hself). congruence. }
  unfold snapshot_of in Hsp. destruct (picked m s) as [sn|] eqn:Hsn; [|done].
  destruct (picked_ok value index_key m h HU HD Hco s sn Hsn) as [Hok _].
  injection Hsp as <-.
  assert (index_keys_ok value index_key
            {| sp_segments := filter (λ g, snapshot_rows g ≠ []) (sn_segments sn);
               sp_indexes := sn_indexes sn;
               sp_snapshotted_at_micros := sn_snapshotted_at_micros sn;
               sp_commit_seq_num := sn_commit_seq_num sn |}) as Hkeys.
  { intros def x Hdef. by apply (sn_index_keys _ _ _ _ _ _ Hok). }
  split.
  - intros g [Hne Hg]%list_elem_of_filter. eapply user_spec_ok; [exact Hkeys| |done|exact He].
    by apply (sn_segs_wf _ _ _ _ _ _ Hok).
  - intros x [_ Hf]. eapply select_covers_within; [exact Hkeys|exact He|].
    destruct Hbs as [(k & Hk & ->)|(_ & f' & Hf' & ->)].
    + destruct (Hseek k Hk) as [(bt & sc & df & Hdec) _]. eapply decoded_within; [exact Hdec|].
      unfold effective_filter in Hf. rewrite Hk in Hf. simpl in Hf.
      destruct (rd_filter req); simpl in Hf; [apply andb_prop in Hf as [_ ?]|]; done.
    + rewrite Hf' in Hf. by apply Hbind.
Qed.

Lemma seeks_of_read_sound sp : snapshot_of m s = Some sp →
  seeks_sound index_key (sp_segments sp) f us
    (to_scan_specs {| identity := us;
                      accelerators := user_seek_specs (extend_seeks (identity_seeks us) users) |}).
Proof using Hco Hself Hseek Hbind Hids.
  intros Hsp es spec Hes Hin.
  destruct (scan_specs_elem us users users_indexed es spec Hes Hin) as [(l & Hl & ->)|Hu];
    [|by apply users_within].
  split.
  - intros g Hg. apply (identity_spec_ok index_key). unfold snapshot_of in Hsp.
    destruct (picked m s) as [sn|] eqn:Hsn; [|done]. injection Hsp as <-.
    destruct (picked_ok value index_key m h HU HD Hco s sn Hsn) as [Hok _].
    apply list_elem_of_filter in Hg as [_ Hg]. by apply (sn_segs_wf _ _ _ _ _ _ Hok).
  - intros x [Hu _]. apply identity_spec_matches. rewrite Hl in *. destruct l as [|u l]; [done|].
    simpl in Hu. by apply bool_decide_eq_true in Hu.
Qed.

(** With no filter and no index seek the identity entry is the exact selection. *)
Lemma direct_exact e sp :
  negb (filter_present (rd_filter req)) = true →
  extend_seeks (identity_seeks us) users = Some [e] → snapshot_of m s = Some sp →
  (∀ g, g ∈ sp_segments sp → spec_ok g e) ∧ (∀ x, spec_matches index_key e x ↔ wants f us x).
Proof using Hco Hself Hseek Hids.
  intros Hnf Hseeks Hsp. destruct (rd_filter req) as [?|] eqn:Hf; [done|].
  assert (rd_index_seek req = None) as Hk.
  { destruct (rd_index_seek req) as [k|] eqn:Hk; [|done]. destruct (Hseek k Hk) as [_ [? ?]]. congruence. }
  assert (f = None) as HF by (unfold effective_filter; by rewrite Hf, Hk).
  assert (users = []) as Hu.
  { unfold user_seek_entries. rewrite Hk, HF. by destruct (cold_storage _ ≫= _). }
  rewrite Hu in Hseeks. destruct us as [l|] eqn:Hus; simplify_eq/=.
  split.
  - intros g Hg. apply (identity_spec_ok index_key). unfold snapshot_of in Hsp.
    destruct (picked m s) as [sn|] eqn:Hsn; [|done]. injection Hsp as <-.
    destruct (picked_ok value index_key m h HU HD Hco s sn Hsn) as [Hok _].
    apply list_elem_of_filter in Hg as [_ Hg]. by apply (sn_segs_wf _ _ _ _ _ _ Hok).
  - intros x. rewrite identity_spec_matches. unfold wants. rewrite HF. simpl.
    destruct l as [|u l]; [done|]. simpl. rewrite bool_decide_eq_true. naive_solver.
Qed.
End theorem.

(** ** The whole read *)

Lemma read_exact {V} (value : Z → Z * V → cell) (index_key : Z → Z * V → list cell)
    (may_match : (Z * V → bool) → SnapshotSegment V → bool)
    (equality_bindings : (Z * V → bool) → gmap Z (list Z))
    (m : table_meta V) (h : hot_db V) (HU : list (src_row V)) (HD : list (src_row unit))
    (cfg : QueryConfig) (lineage : option (BranchLineage * table_meta V))
    (now : Z) (duration : option Z) (req : ReadDataRequest V)
    (Hco : coherent value index_key m h HU HD)
    (Hprune : prune_sound may_match) (Hbind : bindings_sound value equality_bindings)
    (Hself : self_contained lineage (rd_snapshot req))
    (Hasof : in_i64 (plan_as_of_micros (rd_snapshot req)))
    (Hids : rd_row_uuids req ≠ Some []) (Hseek : seek_filtered req) :
  if below_floor m now duration (rd_snapshot req) then
    read_data value may_match equality_bindings cfg m h lineage now duration req
      = Err (ReadApi FailedPrecondition)
  else
    ∃ rows, read_data value may_match equality_bindings cfg m h lineage now duration req = Ok rows ∧
      NoDup (fst <$> rows) ∧
      ∀ x, x ∈ rows ↔ table_at (rd_snapshot req) HU HD h x ∧ requested value req x.
Proof.
  unfold read_data. fold (below_floor m now duration (rd_snapshot req)).
  destruct (below_floor m now duration (rd_snapshot req)); [done|].
  assert (∀ rows, answers h HU HD (rd_snapshot req) (rd_row_uuids req) (effective_filter value req) rows →
    NoDup (fst <$> rows) ∧
    ∀ x, x ∈ rows ↔ table_at (rd_snapshot req) HU HD h x ∧ requested value req x) as Hans.
  { intros rows [Hnd Hel]. split; [done|]. intros x. by rewrite Hel, wants_requested. }
  destruct (is_all_hot _) eqn:Hah.
  - eexists. split; [done|]. apply Hans.
    by eapply (all_hot_answers value index_key m h HU HD Hco _ Hasof lineage Hself).
  - edestruct (stream_cold_read_answers value index_key m h HU HD Hco _ Hasof lineage Hself
                 (rd_row_uuids req) may_match Hprune (effective_filter value req)) as (rows & -> & Hrows);
      [reflexivity..| | | |eauto].
    + apply identity_row_uuids_extend; [apply users_indexed|by apply users_need_filter].
    + intros sp Hsp. by apply (seeks_of_read_sound value index_key equality_bindings m h HU HD Hco).
    + intros e sp Hex He Hsp. by eapply (direct_exact value index_key equality_bindings m h HU HD Hco).
Qed.
