(* ===== verification/ReadTheorems.v ===== *)
(** * The read theorem, its sample table, and the seek bypass

    [read_data_refines] is the correctness statement of the read path; the
    sample table shows its hypotheses hold of a concrete three-commit history. *)

From S2P Require Import Prelude CoreTypes Watermarks ReadSnapshot Dialect MergeSql IndexSeek Plan SnapshotScan IndexSelect ReadPath ReadLemmas ReadData Tiers ReadCorrect.
From stdpp Require Import base numbers list option sets gmap sorting.

Open Scope Z_scope.

(** C2 Reads are exact.  Whenever the tiers of a table are coherent with its
    committed history, [read_data] either refuses a snapshot below the retention
    floor or terminates successfully with exactly the rows the snapshot shows of
    the history and the request asks for, each row once: whatever the mix of
    hot log, persisted segments and snapshot baseline, whatever fence the purge
    left, for every snapshot kind (an open transaction reads its own writes),
    with or without identity and index seeks, pruning and the seek bypass.  The
    pruner and the filter's bindings are sound; a fork's read is not below its
    fork; the list of row ids is not the empty list; and an index seek is one
    decoded from the wire and comes with a filter, without which the bypass skips
    the index residual ([bypass_drops_index_residual] below). *)
Theorem read_data_refines {V} (value : Z → Z * V → cell) (index_key : Z → Z * V → list cell)
    (may_match : (Z * V → bool) → SnapshotSegment V → bool)
    (equality_bindings : (Z * V → bool) → gmap Z (list Z))
    (m : table_meta V) (h : hot_db V) (HU : list (src_row V)) (HD : list (src_row unit))
    (cfg : QueryConfig) (lineage : option (BranchLineage * table_meta V))
    (now : Z) (duration : option Z) (req : ReadDataRequest V)
    (Hco : coherent value index_key m h HU HD)
    (Hprune : prune_sound may_match) (Hbind : bindings_sound value equality_bindings)
    (Hself : self_contained lineage (rd_snapshot req))
    (Hasof : in_i64 (plan_as_of_micros (rd_snapshot req)))
    (Hids : rd_row_uuids req ≠ Some []) (Hseek : seek_filtered req) :
  if below_floor m now duration (rd_snapshot req) then
    read_data value may_match equality_bindings cfg m h lineage now duration req
      = Err (ReadApi FailedPrecondition)
  else
    ∃ rows, read_data value may_match equality_bindings cfg m h lineage now duration req = Ok rows ∧
      NoDup (fst <$> rows) ∧
      ∀ x, x ∈ rows ↔ table_at (rd_snapshot req) HU HD h x ∧ requested value req x.
Proof. by apply (read_exact value index_key may_match equality_bindings m h HU HD). Qed.

(** ** A concrete table

    Row 1 upserted by commit 0 and snapshotted, row 2 upserted by commit 1 and
    row 1 deleted by commit 2, both still hot; the purge has removed commit 0. *)
Module Sample.

Definition u0 : src_row Z := SrcRow 1 100 10 0 0.
Definition u1 : src_row Z := SrcRow 2 200 20 1 1.
Definition d2 : src_row unit := SrcRow 1 tt 30 2 2.
Definition HU : list (src_row Z) := [u0; u1].
Definition HD : list (src_row unit) := [d2].

Definition seg0 : segment_meta Z :=
{| sg_uuid := 7; sg_table_persist_uuid := 1; sg_chunk_idx := 0; sg_min_tx_commit_micros := 10; sg_max_tx_commit_micros := 10;
   sg_min_commit_seq_num := 0; sg_max_commit_seq_num := 0; sg_rows := [u0]; sg_commit_micros := Some 11 |}.

Definition snap0 : snapshot_meta Z :=
{| sn_uuid := 8; sn_snapshotted_at_micros := 10; sn_commit_seq_num := 0;
   sn_segments := [{| table_snapshot_segment_uuid := 9; snapshot_rows := [(1, 100)];
                      row_uuid_index_sidecar := None; index_sidecars := [] |}];
   sn_indexes := []; sn_durable := false; sn_commit_micros := Some 12 |}.

Definition meta : table_meta Z :=
{| tm_persists := [{| ph_uuid := 6; ph_log_kind := UpsertLog; ph_persisted_at_micros := 10; ph_commit_micros := Some 11 |}];
   tm_upsert_segments := [seg0]; tm_delete_segments := []; tm_snapshots := [snap0];
   tm_purges := [{| pm_last_purged_commit_seq_num := Some 0; pm_last_purged_aborted_seq_num := None;
                    pm_commit_micros := Some 13 |}] |}.

Definition db : hot_db Z :=
{| upsert_log := [LogRow 52 2 42 1 200]; delete_log := [LogRow 53 1 43 2 tt];
   commit_tx_log := [CommitRow 41 10 0; CommitRow 42 20 1; CommitRow 43 30 2] |}.

Definition value (c : Z) (x : Z * Z) : cell := Some x.2.
Definition index_key (u : Z) (x : Z * Z) : list cell := [Some x.2].

Ltac members :=
repeat match goal with
| H : _ ∈ _ :: _ |- _ => apply elem_of_cons in H as [?|H]; subst
| H : _ ∈ [] |- _ => apply not_elem_of_nil in H; destruct H
| H : (_, _, _) = _ |- _ => vm_compute in H; simplify_eq
end.

Lemma stamps_eq : stamps HU HD = [(1, 10, 0); (2, 20, 1); (1, 30, 2)].
Proof. reflexivity. Qed.

Lemma meta_upserts : committed sg_commit_micros (tm_upsert_segments meta) = [seg0].
Proof. reflexivity. Qed.
Lemma meta_deletes : committed sg_commit_micros (tm_delete_segments meta) = [].
Proof. reflexivity. Qed.
Lemma meta_snapshots : committed sn_commit_micros (tm_snapshots meta) = [snap0].
Proof. reflexivity. Qed.

Lemma snap0_ok : snapshot_ok value index_key meta HU HD snap0.
Proof.
split.
- vm_compute. intuition congruence.
- intros r mi sq. rewrite stamps_eq. intros. members; simpl; lia.
- intros r v. change (mbind snapshot_rows (sn_segments snap0)) with [(1, 100)].
  change (up_to (sn_commit_seq_num snap0) HU) with [u0].
  change (up_to (sn_commit_seq_num snap0) HD) with (@nil (src_row unit)). rewrite list_elem_of_singleton. split.
  + intros [= -> ->]. exists u0. split; [|done].
    split_and!; [by left| |]; intros; members. unfold kle; lia.
  + intros (u & [Hu _] & <- & <-). members. done.
- vm_compute. repeat constructor. by intros ?%not_elem_of_nil.
- by intros ? ? ?%not_elem_of_nil.
- intros g Hg u sc Hsc. apply list_elem_of_singleton in Hg as ->. by destruct u.
- intros g. rewrite meta_upserts. intros Hg. members. by left.
- intros g. rewrite meta_deletes. intros Hg. members.
Qed.

Lemma db_upserts : hot_source None (upsert_log db) (commit_tx_log db) = [u1].
Proof. reflexivity. Qed.
Lemma db_deletes : hot_source None (delete_log db) (commit_tx_log db) = [d2].
Proof. reflexivity. Qed.

Lemma sample_coherent : coherent value index_key meta db HU HD.
Proof.
split.
- intros r mi sq. rewrite stamps_eq. intros. members; unfold I64_MAX; lia.
- intros r1 m1 s1 r2 m2 s2. rewrite stamps_eq. intros. members; lia.
- intros x y Hx Hy. unfold HU in *. members; try done.
- intros w [= <-]. unfold I64_MAX. lia.
- split; [| |by intros; unfold db in *; simpl in *; members].
  + rewrite db_upserts. unfold HU. set_solver.
  + rewrite db_upserts. change (last_purged_seq meta) with (Some 0). simpl.
    intros x Hx Hsq. unfold HU in Hx. members; [simpl in Hsq; lia|by left].
- split; [| |by intros; unfold db in *; simpl in *; members].
  + rewrite db_deletes. unfold HD. set_solver.
  + rewrite db_deletes. intros x Hx _. unfold HD in Hx. members. by left.
- split; rewrite meta_upserts.
  + intros g Hg x Hx. members. simpl in Hx. members. simpl. lia.
  + intros g x Hg Hx. members. simpl in Hx. members. by left.
  + intros x w Hx [= <-] Hmi. unfold HU in Hx. members; [|simpl in Hmi; lia].
    exists seg0. split; by left.
- split; rewrite meta_deletes.
  + intros g Hg. members.
  + intros g x Hg. members.
  + intros x w Hx [= <-] Hmi. unfold HD in Hx. members. simpl in Hmi; lia.
- intros sn. rewrite meta_snapshots. intros Hsn. members. apply snap0_ok.
- intros pu [= <-]. exists 10. split; [done|]. intros r mi sq. rewrite stamps_eq. intros. members; lia.
Qed.

Definition req (s : ReadSnapshot) : ReadDataRequest Z :=
{| rd_snapshot := s; rd_row_uuids := None; rd_filter := None; rd_index_seek := None |}.

Definition cfg : QueryConfig :=
{| qc_schema := [1]; qc_snapshot_prune_min_segments := 4; qc_index_seek_max_probe_tuples := 16 |}.

Notation read s := (read_data value (λ _ _, true) (λ _, ∅) cfg meta db None 0 None (req s)).

End Sample.

Lemma read_data_refines_witness :
  read_data Sample.value (λ _ _, true) (λ _, ∅) Sample.cfg Sample.meta Sample.db None 0 None
    (Sample.req (LatestSeq 2)) = Ok [(2, 200)] ∧
  table_at (LatestSeq 2) Sample.HU Sample.HD Sample.db (2, 200).
Proof.
  split; [vm_compute; reflexivity|].
  pose proof (read_data_refines Sample.value Sample.index_key (λ _ _, true) (λ _, ∅) Sample.meta Sample.db
    Sample.HU Sample.HD Sample.cfg None 0 None (Sample.req (LatestSeq 2)) Sample.sample_coherent) as H.
  destruct H as (rows & Hrows & _ & Hel).
  - by intros p g x.
  - intros f x _ c vs. by rewrite lookup_empty.
  - done.
  - vm_compute. intuition congruence.
  - done.
  - by intros k.
  - vm_compute in Hrows. injection Hrows as <-. apply (Hel (2, 200)). by left.
Defined.

(** ** The seek bypass and the residual

    A snapshot-only table whose one segment carries the identity sidecar but
    has not materialized the index on column 5. *)
Module Bypass.

Definition segment : SnapshotSegment Z :=
{| table_snapshot_segment_uuid := 9; snapshot_rows := [(1, 100)];
   row_uuid_index_sidecar :=
     match build_segment_index [[Some 1]] with Ok sc => Some sc | Err _ => None end;
   index_sidecars := [] |}.

Definition meta : table_meta Z :=
{| tm_persists := tm_persists Sample.meta;
   tm_upsert_segments := tm_upsert_segments Sample.meta; tm_delete_segments := [];
   tm_snapshots := [{| sn_uuid := 8; sn_snapshotted_at_micros := 10; sn_commit_seq_num := 0;
                       sn_segments := [segment]; sn_indexes := []; sn_durable := false;
                       sn_commit_micros := Some 12 |}];
   tm_purges := tm_purges Sample.meta |}.

Definition db : hot_db Z :=
{| upsert_log := []; delete_log := []; commit_tx_log := [CommitRow 41 10 0] |}.

(** The wire seek [column 5 = 999]. *)
Definition batch : IndexBatch := {| ib_columns := [(5, 0)]; ib_rows := [[Some 999]] |}.
Definition seek : DecodedIndexSeek :=
match decode_index_seek [batch] {[5 := 0]} [[5]] with
| Ok k => k
| Err _ => {| bindings := ∅; residual := [] |}
end.

(** Primary key 1 and column 5 = 999, with an optional request filter. *)
Definition req (f : option (Z * Z → bool)) : ReadDataRequest Z :=
{| rd_snapshot := LatestSeq 0; rd_row_uuids := Some [1]; rd_filter := f; rd_index_seek := Some seek |}.

Definition read (f : option (Z * Z → bool)) : result ReadError (list (Z * Z)) :=
read_data Sample.value (λ _ _, true) (λ _, ∅) Sample.cfg meta db None 0 None (req f).

End Bypass.

(** The seek bypass drops the index residual: a read of primary key 1 with
    the index seek [column 5 = 999] and no other filter takes the identity-seek
    bypass and returns row 1 although its column 5 is 100, while the same read
    with an always-true filter goes through the merge and returns nothing. *)
Theorem bypass_drops_index_residual :
  decode_index_seek [Bypass.batch] {[5 := 0]} [[5]] = Ok Bypass.seek ∧
  Bypass.read None = Ok [(1, 100)] ∧
  ¬ requested Sample.value (Bypass.req None) (1, 100) ∧
  Bypass.read (Some (λ _, true)) = Ok [].
Proof.
  split_and!; [vm_compute; reflexivity|vm_compute; reflexivity| |vm_compute; reflexivity].
  intros (_ & _ & H). specialize (H _ eq_refl). vm_compute in H. done.
Qed.
