(* ===== verification/System.v ===== *)
(** * The table under its whole life cycle

    One branch's transaction logs and one table's tiers, driven by client
    operations (begin, write, commit, abort) and lifecycle operations (persist,
    snapshot, purge).  Beside it runs the ideal table: the same client code on
    hot logs that are never persisted, snapshotted or purged.  The steps of the
    system run both; a lifecycle operation leaves the ideal table alone. *)

From S2P Require Import Prelude CoreTypes Watermarks ReadSnapshot Dialect MergeSql IndexSeek Plan SnapshotScan IndexSelect TxLog TableStore Chunker ReadPath Lifecycle ReadLemmas ReadData.
From stdpp Require Import base numbers list option sets gmap sorting.

Open Scope Z_scope.

Section system.
Context {V : Type} `{!ColdBatch V, !ColdBatch unit, !SnapshotLayout V}.

Record env := {
  e_version_uuid : Z → Z → Z;
  e_persist_uuid : Z → LogKind → Z;
  e_segment_uuid : Z → Z → Z;
  e_snapshot_uuid : Z → Z;
  e_max_segment_bytes : Z;
  e_schema : list Z;
  e_indexes : list SnapshotIndexDef;
  e_density : option Z;
  e_may_match : (Z * V → bool) → SnapshotSegment V → bool;
}.
Context (E : env).

Inductive op :=
  | OpBegin (tx timeout : Z)
  | OpCommit (tx : Z)
  | OpAbort (tx : Z)
  | OpWrite (fresh : Z) (tx : option Z) (change : option (Change V))
  | OpPersist (target : option Z)
  | OpSnapshot (as_of : option Z)
  | OpPurge.

Definition with_tx (st : branch_state V) (l : tx_logs) : branch_state V :=
  {| bs_tx := l; bs_table := bs_table st |}.

(** A client operation; a rejected one changes nothing. *)
Definition client (st : branch_state V) (now : Z) (o : op) : branch_state V :=
  match o with
  | OpBegin tx timeout =>
      match begin_tx (bs_tx st) now tx timeout with Ok (l, _) => with_tx st l | Err _ => st end
  | OpCommit tx => match commit_tx (bs_tx st) now tx with Ok (l, _) => with_tx st l | Err _ => st end
  | OpAbort tx => match abort_tx (bs_tx st) now tx with Ok (l, _) => with_tx st l | Err _ => st end
  | OpWrite fresh tx change =>
      match write_data (e_version_uuid E) st now fresh tx change with Ok (st', _) => st' | Err _ => st end
  | OpPersist _ | OpSnapshot _ | OpPurge => st
  end.

Definition run (st : branch_state V) (now : Z) (o : op) : branch_state V :=
  match o with
  | OpPersist target =>
      match persist_locked (e_persist_uuid E) (e_segment_uuid E) (e_max_segment_bytes E) st now target with
      | Ok (st', _) => st'
      | Err _ => st
      end
  | OpSnapshot as_of =>
      match snapshot_locked (e_snapshot_uuid E) (e_schema E) (e_indexes E) (e_density E)
              (e_may_match E) st now as_of with
      | Ok (st', _) => st'
      | Err _ => st
      end
  | OpPurge => (purge_locked st now).1
  | _ => client st now o
  end.

Definition empty_meta : table_meta V :=
  {| tm_persists := []; tm_upsert_segments := []; tm_delete_segments := [];
     tm_snapshots := []; tm_purges := [] |}.

Definition empty_branch : branch_state V :=
  {| bs_tx := empty_tx_logs;
     bs_table := {| ts_upserts := []; ts_deletes := []; ts_write_sequence := 0;
                    ts_tx_table_log := ∅; ts_meta := empty_meta |} |}.

(** ** Steps *)

Record world := { w_real : branch_state V; w_ideal : branch_state V; w_now : Z }.

Definition step_world (w : world) (now : Z) (o : op) : world :=
  {| w_real := run (w_real w) now o; w_ideal := client (w_ideal w) now o; w_now := now |}.

(** The purge has cleared everything the snapshots cover. *)
Definition purge_caught_up (m : table_meta V) : Prop :=
  ∀ sn, sn ∈ committed sn_commit_micros (tm_snapshots m) →
    sn_commit_seq_num sn ≤ default SNAPSHOT_SEQ_GENESIS (last_purged_seq m).

(** How the operations are scheduled: an auto-commit draws an unused uuid; a
    persist runs after the purge has caught up with the latest snapshot and
    under a target not used before; a snapshot does not stop short of the
    persist watermark. *)
Definition scheduled (st : branch_state V) (now : Z) (o : op) : Prop :=
  match o with
  | OpWrite fresh None _ => fresh_tx (bs_tx st) fresh
  | OpPersist target =>
      purge_caught_up (ts_meta (bs_table st)) ∧
      ∀ k, e_persist_uuid E (effective_target target now) k ∉ ph_uuid <$> tm_persists (ts_meta (bs_table st))
  | OpSnapshot (Some t) => ∀ w, persist_wm (ts_meta (bs_table st)) = Some w → w ≤ t
  | _ => True
  end.

Definition tick (w : world) (now : Z) : Prop := w_now w ≤ now ∧ 0 < now < I64_MAX.

Inductive wstep : world → world → Prop :=
  | WStep w now o : tick w now → scheduled (w_real w) now o → wstep w (step_world w now o).

Definition start : world := {| w_real := empty_branch; w_ideal := empty_branch; w_now := 0 |}.

(** ** The committed history: everything the ideal table's commits wrote *)

Definition historyU (id : branch_state V) : list (src_row V) :=
  hot_source None (ts_upserts (bs_table id)) (tx_commit_log (bs_tx id)).
Definition historyD (id : branch_state V) : list (src_row unit) :=
  hot_source None (ts_deletes (bs_table id)) (tx_commit_log (bs_tx id)).

(** ** Invariant *)

Context (value : Z → Z * V → cell) (index_key : Z → Z * V → list cell).

Record segs_ok {A} (wm : option Z) (segs : list (segment_meta A)) (Hy : list (src_row A)) : Prop := {
  so_cold : cold_ok wm segs Hy;
  so_committed : ∀ g, g ∈ segs → is_Some (sg_commit_micros g);
  so_wm : ∀ g, g ∈ segs → ∃ w, wm = Some w ∧ sg_max_tx_commit_micros g ≤ w;
  so_max : ∀ g, g ∈ segs → ∃ x, x ∈ sg_rows g ∧ commit_seq_num x = sg_max_commit_seq_num g;
}.

Record meta_ok (m : table_meta V) (l : tx_logs) (HU : list (src_row V)) (HD : list (src_row unit)) : Prop := {
  mo_wm : ∀ w, persist_wm m = Some w → ∃ c, c ∈ tx_commit_log l ∧ ct_commit_micros c = w;
  mo_upserts : segs_ok (persist_wm m) (tm_upsert_segments m) HU;
  mo_deletes : segs_ok (persist_wm m) (tm_delete_segments m) HD;
  mo_uuid : ∀ u, u ∈ (sg_uuid <$> tm_upsert_segments m) ++ (sg_uuid <$> tm_delete_segments m) →
    ∃ p i, p ∈ ph_uuid <$> tm_persists m ∧ u = e_segment_uuid E p i;
  mo_snapshots : ∀ sn, sn ∈ committed sn_commit_micros (tm_snapshots m) →
    snapshot_ok value index_key m HU HD sn ∧ sn_commit_seq_num sn < commit_tx_log_seq_num l ∧
    ∃ w, persist_wm m = Some w ∧ sn_snapshotted_at_micros sn ≤ w;
  mo_purge : ∀ pu, last_purged_seq m = Some pu →
    ∃ sn, sn ∈ committed sn_commit_micros (tm_snapshots m) ∧ sn_commit_seq_num sn = pu;
}.

Definition gone_ok (l : tx_logs) (m : table_meta V) (now tx : Z) : Prop :=
  (∃ c pu, c ∈ tx_commit_log l ∧ ct_tx_uuid c = tx ∧ last_purged_seq m = Some pu ∧ ct_commit_seq_num c ≤ pu) ∨
  (∃ a, a ∈ abort_tx_log l ∧ at_tx_uuid a = tx) ∨
  (∃ b, begin_tx_log l !! tx = Some b ∧ expires_at_micros b < now ∧
        ∀ c, c ∈ tx_commit_log l → ct_tx_uuid c ≠ tx).

Record log_ok {A} (l : tx_logs) (gone : list Z) (real ideal : list (log_row A)) : Prop := {
  lo_filter : real = surviving gone ideal;
  lo_unique : log_unique ideal;
  lo_versions : versions_ok (e_version_uuid E) ideal;
  lo_tx : ∀ u, u ∈ ideal → is_Some (begin_tx_log l !! lr_tx_uuid u) ∨
    ∃ c, c ∈ tx_commit_log l ∧ ct_tx_uuid c = lr_tx_uuid u;
}.

Record Inv (w : world) (gone : list Z) : Prop := {
  iv_tx : bs_tx (w_ideal w) = bs_tx (w_real w);
  iv_wf : tx_wf (bs_tx (w_real w));
  iv_now : 0 ≤ w_now w ∧ ∀ c, c ∈ tx_commit_log (bs_tx (w_real w)) → ct_commit_micros c ≤ w_now w;
  iv_upserts : log_ok (bs_tx (w_real w)) gone (ts_upserts (bs_table (w_real w))) (ts_upserts (bs_table (w_ideal w)));
  iv_deletes : log_ok (bs_tx (w_real w)) gone (ts_deletes (bs_table (w_real w))) (ts_deletes (bs_table (w_ideal w)));
  iv_seq : ts_write_sequence (bs_table (w_ideal w)) = ts_write_sequence (bs_table (w_real w));
  iv_ideal_meta : ts_meta (bs_table (w_ideal w)) = empty_meta;
  iv_gone : ∀ tx, tx ∈ gone → gone_ok (bs_tx (w_real w)) (ts_meta (bs_table (w_real w))) (w_now w) tx;
  iv_purged : ∀ c pu, c ∈ tx_commit_log (bs_tx (w_real w)) →
    last_purged_seq (ts_meta (bs_table (w_real w))) = Some pu → ct_commit_seq_num c ≤ pu → ct_tx_uuid c ∈ gone;
  iv_meta : meta_ok (ts_meta (bs_table (w_real w))) (bs_tx (w_real w))
              (historyU (w_ideal w)) (historyD (w_ideal w));
}.
End system.
Arguments world : clear implicits. Arguments op : clear implicits. Arguments env : clear implicits.
