(* ===== verification/SystemInv.v ===== *)
(** * The system invariant: coherence and the client steps

    The invariant of System.v makes the tiers coherent with the ideal history,
    and begin, write, commit and abort preserve it. *)

From S2P Require Import Prelude CoreTypes Watermarks ReadSnapshot Dialect MergeSql IndexSeek Plan SnapshotScan IndexSelect TxLog TableStore Chunker ReadPath Lifecycle ReadLemmas ReadData Tiers System.
From stdpp Require Import base numbers list option sets gmap sorting.

Open Scope Z_scope.

(** ** Sources over growing logs *)

Section sources.
Context {A : Type}.
Implicit Types (log : list (log_row A)) (clog : list commit_row).

Definition stamped (u : log_row A) (c : commit_row) : src_row A :=
  SrcRow (lr_row_uuid u) (lr_cols u) (ct_commit_micros c) (lr_write_seq_num u) (ct_commit_seq_num c).

Lemma source_elem log clog x :
  x ∈ hot_source None log clog ↔ ∃ u c, u ∈ log ∧ c ∈ clog ∧ ct_tx_uuid c = lr_tx_uuid u ∧ x = stamped u c.
Proof. rewrite hot_source_elem. unfold stamped. simpl. naive_solver. Qed.

(** A committing transaction adds its own versions; other transactions' rows
    stay, and the rows of [tx] alone may change before it commits. *)
Lemma source_grow log log' clog c tx x :
  (∀ u, lr_tx_uuid u ≠ tx → u ∈ log' ↔ u ∈ log) → (∀ c', c' ∈ clog → ct_tx_uuid c' ≠ tx) →
  ct_tx_uuid c = tx →
  x ∈ hot_source None log' (clog ++ [c]) ↔
    x ∈ hot_source None log clog ∨ ∃ u, u ∈ log' ∧ lr_tx_uuid u = tx ∧ x = stamped u c.
Proof.
  intros Hlog Hc Htx. rewrite !source_elem. split.
  - intros (u & c' & Hu & [Hc'| ->%list_elem_of_singleton]%elem_of_app & He & ->);
      [left; exists u, c'; split_and!; try done; apply Hlog; [rewrite <- He; by apply Hc|done]|].
    right. exists u. split_and!; [done|congruence|done].
  - intros [(u & c' & Hu & Hc' & He & ->)|(u & Hu & He & ->)]; [exists u, c'|exists u, c];
      split_and!; try done; try (apply elem_of_app; set_solver); [|congruence].
    apply Hlog; [rewrite <- He; by apply Hc|done].
Qed.

(** Rows of transactions outside the commit log contribute nothing. *)
Lemma source_uncommitted log log' clog tx x :
  (∀ u, lr_tx_uuid u ≠ tx → u ∈ log' ↔ u ∈ log) → (∀ c, c ∈ clog → ct_tx_uuid c ≠ tx) →
  x ∈ hot_source None log' clog ↔ x ∈ hot_source None log clog.
Proof.
  intros Hlog Hc. rewrite !source_elem. split; intros (u & c & Hu & Hin & Htx & ->); exists u, c;
    split_and!; try done; apply Hlog; try done; rewrite <- Htx; by apply Hc.
Qed.

Lemma source_unique log clog :
  log_unique log → StronglySorted commit_lt clog →
  ∀ x y, x ∈ hot_source None log clog → y ∈ hot_source None log clog →
    row_uuid x = row_uuid y → commit_seq_num x = commit_seq_num y → x = y.
Proof.
  intros Hu Hs x y. rewrite !source_elem.
  intros (u & c & Hu1 & Hc1 & Htx & ->) (u' & c' & Hu2 & Hc2 & Htx' & ->) Hr Hsq. simpl in *.
  assert (c = c') as -> by (by apply (commit_lt_inj clog c c' Hs Hc1 Hc2)).
  assert (u = u') as -> by (apply Hu; congruence). done.
Qed.

Lemma source_commit log clog x :
  x ∈ hot_source None log clog → ∃ c, c ∈ clog ∧ ct_commit_micros c = commit_micros x ∧
    ct_commit_seq_num c = commit_seq_num x.
Proof. intros (u & c & _ & Hc & _ & ->)%source_elem. eauto. Qed.
End sources.

(** ** The invariant makes the tiers coherent *)

Section inv.
Context {V : Type} (E : env V) (value : Z → Z * V → cell) (index_key : Z → Z * V → list cell).
Implicit Types (w : world V) (l : tx_logs).

Lemma history_stamp (id : branch_state V) r mi sq :
  (r, mi, sq) ∈ stamps (historyU id) (historyD id) →
  ∃ c, c ∈ tx_commit_log (bs_tx id) ∧ ct_commit_micros c = mi ∧ ct_commit_seq_num c = sq.
Proof.
  intros [(x & Hx & Hin)%list_elem_of_fmap|(x & Hx & Hin)%list_elem_of_fmap]%elem_of_app;
    unfold stamp in Hx; simplify_eq; by eapply source_commit.
Qed.

Lemma stamps_mono (id : branch_state V) r1 m1 s1 r2 m2 s2 :
  tx_wf (bs_tx id) → (r1, m1, s1) ∈ stamps (historyU id) (historyD id) →
  (r2, m2, s2) ∈ stamps (historyU id) (historyD id) → s1 < s2 ↔ m1 < m2.
Proof.
  intros Hwf (c & Hc & <- & <-)%history_stamp (c' & Hc' & <- & <-)%history_stamp.
  apply (commit_lt_inj _ c c' (wf_commits_sorted _ Hwf) Hc Hc').
Qed.

Lemma stamps_range (id : branch_state V) r mi sq :
  tx_wf (bs_tx id) → (r, mi, sq) ∈ stamps (historyU id) (historyD id) →
  0 ≤ sq < commit_tx_log_seq_num (bs_tx id) ∧ sq < I64_MAX ∧ 0 < mi < I64_MAX.
Proof.
  intros Hwf (c & Hc & <- & <-)%history_stamp.
  pose proof (wf_commits_range _ Hwf c Hc). pose proof (wf_counter _ Hwf). lia.
Qed.

(** A purged transaction has no version past the purge frontier. *)
Lemma gone_purged l (m : table_meta V) now tx c :
  tx_wf l → gone_ok l m now tx → c ∈ tx_commit_log l → ct_tx_uuid c = tx →
  ∃ pu, last_purged_seq m = Some pu ∧ ct_commit_seq_num c ≤ pu.
Proof.
  intros Hwf [(c' & pu & Hc' & Htx & Hpu & Hle)|[(a & Ha & Htx)|(b & _ & _ & Hn)]] Hc Heq.
  - exists pu. split; [done|].
    rewrite (NoDup_fmap_eq ct_tx_uuid _ c c' (wf_commits_nodup _ Hwf) Hc Hc'); congruence.
  - destruct (wf_disjoint _ Hwf c a Hc Ha). congruence.
  - by destruct (Hn c Hc).
Qed.

Lemma log_hot_ok {A} l (m : table_meta V) now gone (real ideal : list (log_row A)) :
  tx_wf l → (∀ tx, tx ∈ gone → gone_ok l m now tx) → real = surviving gone ideal → log_unique ideal →
  hot_ok (last_purged_seq m) (tx_commit_log l) real (hot_source None ideal (tx_commit_log l)).
Proof.
  intros Hwf Hgone -> Hu. unfold surviving. split.
  - intros x (u & c & [_ Hin]%list_elem_of_filter & Hc & Htx & ->)%source_elem. apply source_elem. eauto 8.
  - intros x (u & c & Hin & Hc & Htx & ->)%source_elem Hlt. apply source_elem. exists u, c.
    split_and!; [|done..]. apply list_elem_of_filter. split; [|done]. intros Hg.
    destruct (gone_purged l m now _ c Hwf (Hgone _ Hg) Hc Htx) as (pu & Hpu & Hle).
    rewrite Hpu in Hlt. simpl in Hlt. lia.
  - intros x y [_ Hx]%list_elem_of_filter [_ Hy]%list_elem_of_filter. by apply Hu.
Qed.

Lemma keys_history (id : branch_state V) :
  tx_wf (bs_tx id) → log_unique (ts_upserts (bs_table id)) →
  keys_unique OrderCommitSeqNum (historyU id).
Proof.
  intros Hwf Hu x y Hx Hy Hr Hxy Hyx.
  apply (source_unique _ _ Hu (wf_commits_sorted _ Hwf) x y Hx Hy Hr). unfold kle in *. simpl in *. lia.
Qed.

(** Metadata that is right about the history of [ideal], beside logs that hold
    what was not purged of it. *)
Lemma coherent_of (real ideal : branch_state V) now gone :
  bs_tx ideal = bs_tx real → tx_wf (bs_tx real) →
  ts_upserts (bs_table real) = surviving gone (ts_upserts (bs_table ideal)) → log_unique (ts_upserts (bs_table ideal)) →
  ts_deletes (bs_table real) = surviving gone (ts_deletes (bs_table ideal)) → log_unique (ts_deletes (bs_table ideal)) →
  (∀ tx, tx ∈ gone → gone_ok (bs_tx real) (ts_meta (bs_table real)) now tx) →
  meta_ok E value index_key (ts_meta (bs_table real)) (bs_tx real) (historyU ideal) (historyD ideal) →
  coherent value index_key (ts_meta (bs_table real)) (hot_view real) (historyU ideal) (historyD ideal).
Proof.
  intros Htx Hwf HfU HuU HfD HuD Hgone Hm.
  assert (tx_wf (bs_tx ideal)) as Hwf' by by rewrite Htx.
  split.
  - intros r mi sq Hst. pose proof (stamps_range _ _ _ _ Hwf' Hst). lia.
  - intros r1 m1 s1 r2 m2 s2 H1 H2. by apply (stamps_mono _ r1 m1 s1 r2 m2 s2 Hwf').
  - by apply keys_history.
  - intros p Hp. destruct (mo_wm _ _ _ _ _ _ _ Hm p Hp) as (c & Hc & <-).
    apply (wf_commits_range _ Hwf c Hc).
  - unfold historyU. rewrite Htx. by eapply log_hot_ok.
  - unfold historyD. rewrite Htx. by eapply log_hot_ok.
  - apply (mo_upserts _ _ _ _ _ _ _ Hm).
  - apply (mo_deletes _ _ _ _ _ _ _ Hm).
  - intros sn Hsn. apply (mo_snapshots _ _ _ _ _ _ _ Hm sn Hsn).
  - intros pu Hpu. destruct (mo_purge _ _ _ _ _ _ _ Hm pu Hpu) as (sn & Hsn & <-).
    destruct (mo_snapshots _ _ _ _ _ _ _ Hm sn Hsn) as (Hok & _ & p & Hp & Hle).
    exists p. split; [done|]. intros r mi sq Hst Hsq.
    apply (sn_cut _ _ _ _ _ _ Hok _ _ _ Hst) in Hsq. lia.
Qed.

Lemma inv_coherent w gone : Inv E value index_key w gone →
  coherent value index_key (ts_meta (bs_table (w_real w))) (hot_view (w_real w))
    (historyU (w_ideal w)) (historyD (w_ideal w)).
Proof.
  intros [Htx Hwf Hnow [HfU HuU _ _] [HfD HuD _ _] _ _ Hgone _ Hm]. by eapply coherent_of.
Qed.

(** ** The history grows *)

(** New versions carry the stamp of the committing transaction. *)
Definition grown {A} (mi sq : Z) (Hy Hy' : list (src_row A)) : Prop :=
  (∀ x, x ∈ Hy → x ∈ Hy') ∧
  (∀ x, x ∈ Hy' → x ∈ Hy ∨ commit_micros x = mi ∧ commit_seq_num x = sq).

Lemma grown_same {A} mi sq (Hy Hy' : list (src_row A)) : (∀ x, x ∈ Hy' ↔ x ∈ Hy) → grown mi sq Hy Hy'.
Proof. intros H. split; intros x Hx; [|left]; by apply H. Qed.

Lemma grown_commit {A} (log log' : list (log_row A)) clog c tx :
  (∀ u, lr_tx_uuid u ≠ tx → u ∈ log' ↔ u ∈ log) → (∀ c', c' ∈ clog → ct_tx_uuid c' ≠ tx) →
  ct_tx_uuid c = tx →
  grown (ct_commit_micros c) (ct_commit_seq_num c) (hot_source None log clog) (hot_source None log' (clog ++ [c])).
Proof.
  intros Hlog Hc Htx. split; intros x; rewrite (source_grow log log' clog c tx x Hlog Hc Htx); [by left|].
  intros [?|(u & _ & _ & ->)]; [by left|by right].
Qed.

Lemma segs_grow {A} wm (segs : list (segment_meta A)) Hy Hy' mi sq :
  segs_ok wm segs Hy → grown mi sq Hy Hy' → (∀ p, wm = Some p → p < mi) → segs_ok wm segs Hy'.
Proof.
  intros [[Hb Hs Hc] ? ? ?] [Hsub Hnew] Hlt. split; [split|done..]; [done|eauto|].
  intros x p Hx Hp Hle. destruct (Hnew x Hx) as [?|[? ?]]; [eauto|]. specialize (Hlt p Hp). lia.
Qed.

Lemma up_to_grow {A} W mi sq (Hy Hy' : list (src_row A)) :
  grown mi sq Hy Hy' → W < sq → same_elems (up_to W Hy') (up_to W Hy).
Proof.
  intros [Hsub Hnew] Hlt x. unfold up_to. rewrite !list_elem_of_filter. split; intros [Hx Hin]; (split; [done|]).
  - destruct (Hnew x Hin) as [?|[_ ?]]; [done|lia].
  - by apply Hsub.
Qed.

Lemma stamps_grow mi sq (HU HU' : list (src_row V)) (HD HD' : list (src_row unit)) p :
  grown mi sq HU HU' → grown mi sq HD HD' → p ∈ stamps HU' HD' →
  p ∈ stamps HU HD ∨ p.1.2 = mi ∧ p.2 = sq.
Proof.
  intros [_ HgU] [_ HgD] [(x & -> & Hx)%list_elem_of_fmap|(x & -> & Hx)%list_elem_of_fmap]%elem_of_app.
  - destruct (HgU x Hx) as [?|?]; [left; by apply stamps_upsert|by right].
  - destruct (HgD x Hx) as [?|?]; [left; by apply stamps_delete|by right].
Qed.

Lemma snapshot_grow (m : table_meta V) HU HU' HD HD' mi sq sn :
  snapshot_ok value index_key m HU HD sn → grown mi sq HU HU' → grown mi sq HD HD' →
  sn_commit_seq_num sn < sq → sn_snapshotted_at_micros sn < mi →
  snapshot_ok value index_key m HU' HD' sn.
Proof.
  intros [Hr Hcut Hbase Hnd Hk Hwf Hns1 Hns2] HgU HgD Hsq Hmi. split; try done.
  - intros r mi' sq' Hst. destruct (stamps_grow _ _ _ _ _ _ _ HgU HgD Hst) as [?|[? ?]]; [by apply (Hcut r)|].
    simpl in *. lia.
  - intros r v. rewrite (Hbase r v). symmetry.
    setoid_rewrite (up_to_grow _ _ _ _ _ HgU Hsq). by setoid_rewrite (up_to_grow _ _ _ _ _ HgD Hsq).
Qed.

Lemma meta_grow (m : table_meta V) l l' HU HU' HD HD' mi :
  meta_ok E value index_key m l HU HD →
  grown mi (commit_tx_log_seq_num l) HU HU' → grown mi (commit_tx_log_seq_num l) HD HD' →
  (∀ c, c ∈ tx_commit_log l → ct_commit_micros c < mi) →
  (∀ c, c ∈ tx_commit_log l → c ∈ tx_commit_log l') →
  commit_tx_log_seq_num l ≤ commit_tx_log_seq_num l' →
  meta_ok E value index_key m l' HU' HD'.
Proof.
  intros [Hwm Hu Hd Huuid Hsn Hpu] HgU HgD Hmi Hc Hcnt.
  assert (∀ p, persist_wm m = Some p → p < mi) as Hlt.
  { intros p Hp. destruct (Hwm p Hp) as (c & Hin & <-). by apply Hmi. }
  split; [|by eapply segs_grow|by eapply segs_grow|done| |done].
  - intros p Hp. destruct (Hwm p Hp) as (c & Hin & <-). eauto.
  - intros sn Hin. destruct (Hsn sn Hin) as (Hok & Hsq & p & Hp & Hle).
    split_and!; [|lia|eauto]. specialize (Hlt p Hp). eapply snapshot_grow; [done..|lia].
Qed.

(** ** Client steps *)

(** A client operation's effect on the transaction logs: nothing is lost, and a
    new commit takes the next serial under an unpurged transaction. *)
Record tx_grew (l l' : tx_logs) (now : Z) (gone : list Z) : Prop := {
  tg_commits : ∃ k, tx_commit_log l' = tx_commit_log l ++ k ∧
    ∀ c, c ∈ k → ct_commit_seq_num c = commit_tx_log_seq_num l ∧ ct_commit_micros c = now ∧ ct_tx_uuid c ∉ gone;
  tg_aborts : ∀ a, a ∈ abort_tx_log l → a ∈ abort_tx_log l';
  tg_counter : commit_tx_log_seq_num l ≤ commit_tx_log_seq_num l';
  tg_begins : ∀ tx b, begin_tx_log l !! tx = Some b → begin_tx_log l' !! tx = Some b;
}.

Lemma tx_grew_refl l now gone : tx_grew l l now gone.
Proof.
  split; [exists []; rewrite app_nil_r; split; [done|by intros c ?%not_elem_of_nil]|done|lia|done].
Qed.

Lemma gone_mono l l' (m m' : table_meta V) now now' gone tx :
  gone_ok l m now tx → tx ∈ gone → tx_grew l l' now' gone → now ≤ now' →
  (∀ pu, last_purged_seq m = Some pu → ∃ pu', last_purged_seq m' = Some pu' ∧ pu ≤ pu') →
  gone_ok l' m' now' tx.
Proof using.
  intros Hok Hin [(k & Hk & Hnew) Hab _ Hbeg] Hnow Hpu.
  destruct Hok as [(c & pu & Hc & Htx & Hp & Hle)|[(a & Ha & Htx)|(b & Hb & He & Hn)]].
  - left. destruct (Hpu pu Hp) as (pu' & Hp' & ?). exists c, pu'. rewrite Hk.
    split_and!; [apply elem_of_app; by left|done|done|lia].
  - right; left. eauto.
  - right; right. exists b. split_and!; [by apply Hbeg|lia|]. intros c. rewrite Hk.
    intros [Hc|Hc]%elem_of_app; [by apply Hn|]. intros <-. by apply (Hnew c Hc).
Qed.

Lemma open_not_gone l (m : table_meta V) now now' tx a b :
  get_tx_status l now' tx = Some (Open a b) → now ≤ now' → ¬ gone_ok l m now tx.
Proof.
  intros ((r & Hr & _ & Hexp) & Hc & Hab)%open_not_terminal Hnow
    [(c & _ & Hin & Htx & _)|[(x & Hin & Htx)|(r' & Hr' & He & _)]].
  - by apply (Hc c).
  - by apply (Hab x).
  - simplify_eq. lia.
Qed.

Lemma fresh_not_gone l (m : table_meta V) now tx : fresh_tx l tx → ¬ gone_ok l m now tx.
Proof.
  intros (Hb & Hc & Ha) [(c & _ & Hin & Htx & _)|[(a & Hin & Htx)|(b & Hb' & _)]];
    [by apply (Hc c)|by apply (Ha a)|congruence].
Qed.

Lemma pu_below_counter (m : table_meta V) l HU HD pu :
  meta_ok E value index_key m l HU HD → last_purged_seq m = Some pu → pu < commit_tx_log_seq_num l.
Proof.
  intros Hm Hpu. destruct (mo_purge _ _ _ _ _ _ _ Hm pu Hpu) as (sn & Hsn & <-).
  apply (mo_snapshots _ _ _ _ _ _ _ Hm sn Hsn).
Qed.

(** The invariant after an operation that leaves the metadata alone. *)
Lemma inv_client w gone now real ideal :
  Inv E value index_key w gone → tick w now →
  bs_tx ideal = bs_tx real → tx_wf (bs_tx real) →
  tx_grew (bs_tx (w_real w)) (bs_tx real) now gone →
  log_ok E (bs_tx real) gone (ts_upserts (bs_table real)) (ts_upserts (bs_table ideal)) →
  log_ok E (bs_tx real) gone (ts_deletes (bs_table real)) (ts_deletes (bs_table ideal)) →
  ts_write_sequence (bs_table ideal) = ts_write_sequence (bs_table real) →
  ts_meta (bs_table real) = ts_meta (bs_table (w_real w)) →
  ts_meta (bs_table ideal) = ts_meta (bs_table (w_ideal w)) →
  (∃ mi, (∀ c, c ∈ tx_commit_log (bs_tx (w_real w)) → ct_commit_micros c < mi) ∧
     grown mi (commit_tx_log_seq_num (bs_tx (w_real w))) (historyU (w_ideal w)) (historyU ideal) ∧
     grown mi (commit_tx_log_seq_num (bs_tx (w_real w))) (historyD (w_ideal w)) (historyD ideal)) →
  Inv E value index_key {| w_real := real; w_ideal := ideal; w_now := now |} gone.
Proof.
  intros [Htx Hwf Hnow HU HD Hseq Him Hgone Hpd Hm] [Htick ?] Htx' Hwf' Hg HU' HD' Hseq' Hmr Hmi (mi & Hlt & HgU & HgD).
  pose proof Hg as [(k & Hk & Hnew) Hab Hcnt Hbeg]. split; cbn [w_real w_ideal w_now]; try done.
  - split; [lia|]. intros c. rewrite Hk. intros [Hc|Hc]%elem_of_app.
    + apply (proj2 Hnow) in Hc. lia.
    + apply Hnew in Hc as (_ & -> & _). lia.
  - congruence.
  - intros tx Hin. rewrite Hmr. eapply gone_mono; [by apply Hgone|done|done|lia|].
    intros pu Hpu. exists pu. split; [done|lia].
  - intros c pu. rewrite Hmr, Hk. intros [Hc|Hc]%elem_of_app Hpu Hle; [by eapply Hpd|].
    apply Hnew in Hc as [Hc _]. pose proof (pu_below_counter _ _ _ _ _ Hm Hpu). lia.
  - rewrite Hmr. eapply meta_grow; [exact Hm|done|done|done| |done]. intros c Hc. rewrite Hk. set_solver.
Qed.

Lemma inv_clock w gone now : Inv E value index_key w gone → tick w now → clock_ok (bs_tx (w_real w)) now.
Proof.
  intros Hi [Htick Hrange]. split; [done|]. intros c Hc. apply (proj2 (iv_now _ _ _ _ _ Hi)) in Hc. lia.
Qed.

Lemma log_ok_grew {A} l l' now gone (real ideal : list (log_row A)) :
  log_ok E l gone real ideal → tx_grew l l' now gone → log_ok E l' gone real ideal.
Proof.
  intros [Hf Hu Hv Ht] [(k & Hk & _) _ _ Hbeg]. split; try done.
  intros u Hin. destruct (Ht u Hin) as [[b Hb]|(c & Hc & Heq)]; [left; eauto|right].
  exists c. rewrite Hk. split; [set_solver|done].
Qed.

(** Only the transaction logs change. *)
Lemma inv_tx w gone now l' :
  Inv E value index_key w gone → tick w now → tx_wf l' → tx_grew (bs_tx (w_real w)) l' now gone →
  (tx_commit_log l' = tx_commit_log (bs_tx (w_real w)) ∨
   ∃ c, tx_commit_log l' = tx_commit_log (bs_tx (w_real w)) ++ [c] ∧
     ∀ c', c' ∈ tx_commit_log (bs_tx (w_real w)) → ct_tx_uuid c' ≠ ct_tx_uuid c ∧ ct_commit_micros c' ≠ now) →
  Inv E value index_key
    {| w_real := with_tx (w_real w) l'; w_ideal := with_tx (w_ideal w) l'; w_now := now |} gone.
Proof.
  intros Hi Htick Hwf' Hg Hc. pose proof (inv_clock w gone now Hi Htick) as [_ Hclk].
  pose proof Hi as [Htx _ _ HU HD Hseq _ _ _ _].
  apply (inv_client w gone now (with_tx (w_real w) l') (with_tx (w_ideal w) l')); try done.
  - by eapply log_ok_grew.
  - by eapply log_ok_grew.
  - destruct Hc as [Hc|(c & Hc & Hnew)].
    + exists (now + 1). split_and!; [intros c' Hc'; specialize (Hclk c' Hc'); lia|..];
        apply grown_same; intros x; unfold historyU, historyD; simpl; by rewrite Hc, Htx.
    + exists now. split_and!; [intros c' Hc'; specialize (Hclk c' Hc'); destruct (Hnew c' Hc'); lia|..];
        destruct Hg as [(k & Hk & Hst) _ _ _]; rewrite Hk in Hc; simplify_list_eq;
        destruct (Hst c ltac:(by left)) as (<- & <- & _);
        unfold historyU, historyD; simpl; rewrite Hk, Htx; 
        (apply (grown_commit _ _ _ c (ct_tx_uuid c)); [done|intros c' Hc'; by apply Hnew|done]).
Qed.

Lemma inv_idle w gone now :
  Inv E value index_key w gone → tick w now →
  Inv E value index_key {| w_real := w_real w; w_ideal := w_ideal w; w_now := now |} gone.
Proof.
  intros Hi Htick. pose proof (inv_clock w gone now Hi Htick) as [_ Hclk].
  pose proof Hi as [Htx Hwf _ HU HD Hseq _ _ _ _]. apply (inv_client w); try done; [apply tx_grew_refl|].
  exists (now + 1). split_and!; [intros c' Hc'; specialize (Hclk c' Hc'); lia|..]; by apply grown_same.
Qed.

Lemma commit_grew l now tx l' c gone :
  commit_tx_log_insert l now tx = Ok (l', c) → tx ∉ gone → tx_grew l l' now gone.
Proof.
  intros (-> & -> & _ & _)%commit_insert_Ok Htx. split; simpl; [|done|lia|done].
  eexists. split; [done|]. by intros c ->%list_elem_of_singleton.
Qed.

Lemma inv_begin w gone now tx timeout :
  Inv E value index_key w gone → tick w now →
  Inv E value index_key {| w_real := client E (w_real w) now (OpBegin tx timeout);
                           w_ideal := client E (w_ideal w) now (OpBegin tx timeout); w_now := now |} gone.
Proof.
  intros Hi Htick. pose proof (inv_clock w gone now Hi Htick) as Hclk. simpl. rewrite (iv_tx _ _ _ _ _ Hi).
  destruct (begin_tx (bs_tx (w_real w)) now tx timeout) as [[l' out]|e] eqn:Hb; [|by apply inv_idle].
  assert (tx_wf l') as Hwf'.
  { eapply tx_wf_step; [apply (iv_wf _ _ _ _ _ Hi)|by eapply StepBegin]. }
  unfold begin_tx in Hb. destruct (begin_tx_log (bs_tx (w_real w)) !! tx) eqn:E0; simplify_eq.
  apply inv_tx; [done|done|done| |by left]. split; simpl; [|done|lia|].
  - exists []. rewrite app_nil_r. split; [done|by intros c ?%not_elem_of_nil].
  - intros tx' b Hb. rewrite lookup_insert_ne; [done|congruence].
Qed.

Lemma inv_abort w gone now tx :
  Inv E value index_key w gone → tick w now →
  Inv E value index_key {| w_real := client E (w_real w) now (OpAbort tx);
                           w_ideal := client E (w_ideal w) now (OpAbort tx); w_now := now |} gone.
Proof.
  intros Hi Htick. pose proof (inv_clock w gone now Hi Htick) as Hclk. simpl. rewrite (iv_tx _ _ _ _ _ Hi).
  destruct (abort_tx (bs_tx (w_real w)) now tx) as [[l' t]|e] eqn:Hb; [|by apply inv_idle].
  assert (tx_wf l') as Hwf'.
  { eapply tx_wf_step; [apply (iv_wf _ _ _ _ _ Hi)|by eapply StepAbort]. }
  assert (tx_commit_log l' = tx_commit_log (bs_tx (w_real w)) ∧
          tx_grew (bs_tx (w_real w)) l' now gone) as [Hc Hg]; [|apply inv_tx; auto].
  unfold abort_tx in Hb. destruct (get_tx_status _ now tx) as [[]|]; simplify_eq; try (split; [done|apply tx_grew_refl]).
  unfold hot_abort_tx in Hb. destruct (begin_tx_log _ !! tx); [|done]. destruct (I64_MAX <=? _); [done|].
  case_decide; simplify_eq. split; [done|]. split; simpl; [|set_solver|lia|done].
  exists []. rewrite app_nil_r. split; [done|by intros c ?%not_elem_of_nil].
Qed.

Lemma inv_commit w gone now tx :
  Inv E value index_key w gone → tick w now →
  Inv E value index_key {| w_real := client E (w_real w) now (OpCommit tx);
                           w_ideal := client E (w_ideal w) now (OpCommit tx); w_now := now |} gone.
Proof.
  intros Hi Htick. pose proof (inv_clock w gone now Hi Htick) as Hclk. simpl. rewrite (iv_tx _ _ _ _ _ Hi).
  destruct (commit_tx (bs_tx (w_real w)) now tx) as [[l' c]|e] eqn:Hb; [|by apply inv_idle].
  assert (tx_wf l') as Hwf'.
  { eapply tx_wf_step; [apply (iv_wf _ _ _ _ _ Hi)|by eapply StepCommit]. }
  unfold commit_tx in Hb. destruct (get_tx_status _ now tx) as [[]|] eqn:Hst; try done.
  unfold commit_open_tx in Hb. destruct (begin_tx_log _ !! tx); [|done].
  assert (tx ∉ gone) as Hng.
  { intros Hin. apply (open_not_gone _ _ _ _ _ _ _ Hst (proj1 Htick) (iv_gone _ _ _ _ _ Hi tx Hin)). }
  apply inv_tx; [done|done|done|by eapply commit_grew|]. right.
  apply commit_insert_Ok in Hb as (-> & -> & _ & Hnew). eauto.
Qed.

(** ** Writes *)

Context (version_inj : ∀ r tx r' tx', e_version_uuid E r tx = e_version_uuid E r' tx' → r = r' ∧ tx = tx').

(** What a write by [tx] does to one log of the two tables. *)
Definition wrote {A} (gone : list Z) (tx : Z) (ideal real' ideal' : list (log_row A)) : Prop :=
  real' = surviving gone ideal' ∧ log_unique ideal' ∧ versions_ok (e_version_uuid E) ideal' ∧
  ∀ u, lr_tx_uuid u ≠ tx → u ∈ ideal' ↔ u ∈ ideal.

Lemma wrote_log_ok {A} l l' gone tx (real ideal real' ideal' : list (log_row A)) now :
  log_ok E l gone real ideal → tx_grew l l' now gone → wrote gone tx ideal real' ideal' →
  is_Some (begin_tx_log l' !! tx) ∨ (∃ c, c ∈ tx_commit_log l' ∧ ct_tx_uuid c = tx) →
  log_ok E l' gone real' ideal'.
Proof.
  intros Hl Hg (-> & Hu & Hv & Hel) Htx. destruct (log_ok_grew _ _ _ _ _ _ Hl Hg) as [_ _ _ Ht].
  split; try done. intros u Hin. destruct (decide (lr_tx_uuid u = tx)) as [->|Hne]; [done|].
  by apply Ht, Hel.
Qed.

Lemma apply_change_wrote l gone (tr ti : table_store V) ch tx :
  log_ok E l gone (ts_upserts tr) (ts_upserts ti) → log_ok E l gone (ts_deletes tr) (ts_deletes ti) →
  ts_write_sequence ti = ts_write_sequence tr → tx ∉ gone →
  match apply_change (e_version_uuid E) tr ch tx, apply_change (e_version_uuid E) ti ch tx with
  | Ok tr', Ok ti' =>
      wrote gone tx (ts_upserts ti) (ts_upserts tr') (ts_upserts ti') ∧
      wrote gone tx (ts_deletes ti) (ts_deletes tr') (ts_deletes ti') ∧
      ts_write_sequence ti' = ts_write_sequence tr' ∧ ts_meta tr' = ts_meta tr ∧ ts_meta ti' = ts_meta ti
  | Err _, Err _ => True
  | _, _ => False
  end.
Proof using version_inj.
  intros [HfU HuU HvU _] [HfD HuD HvD _] Hseq Hng. unfold apply_change. case_decide; [done|].
  rewrite HfU, HfD, (insert_deletes_surviving _ version_inj gone tx) by done. rewrite <- Hseq.
  destruct (insert_deletes_ok (e_version_uuid E) tx (ch_deletes ch) _ (ts_write_sequence ti) HuD HvD) as (HuD' & HvD' & HeD).
  destruct (insert_deletes _ tx _ (ts_deletes ti) _) as [D' seq]. cbn [fst snd] in *.
  case_decide; [|done]. rewrite (insert_upserts_surviving _ version_inj gone tx) by done.
  destruct (insert_upserts_ok (e_version_uuid E) version_inj tx (ch_upserts ch) _ seq HuU HvU) as (HuU' & HvU' & HeU).
  destruct (insert_upserts _ tx _ (ts_upserts ti) seq) as [U' seq']. cbn [fst snd] in *.
  unfold wrote. simpl. split_and!; done.
Qed.

Lemma write_resolved w gone now fresh tx l' tx' co :
  Inv E value index_key w gone → tick w now →
  (tx = None → fresh_tx (bs_tx (w_real w)) fresh) →
  resolve_or_auto_commit_tx (bs_tx (w_real w)) now fresh tx = Ok (l', (tx', co)) →
  tx_wf l' ∧ tx' ∉ gone ∧ tx_grew (bs_tx (w_real w)) l' now gone ∧
  (∀ c, c ∈ tx_commit_log (bs_tx (w_real w)) → ct_tx_uuid c ≠ tx') ∧
  ((l' = bs_tx (w_real w) ∧ is_Some (begin_tx_log l' !! tx')) ∨
   ∃ c, tx_commit_log l' = tx_commit_log (bs_tx (w_real w)) ++ [c] ∧ ct_tx_uuid c = tx' ∧
     ct_commit_micros c = now ∧ ct_commit_seq_num c = commit_tx_log_seq_num (bs_tx (w_real w)) ∧
     ∀ c', c' ∈ tx_commit_log (bs_tx (w_real w)) → ct_commit_micros c' < now).
Proof.
  intros Hi Htick Hfr. pose proof (inv_clock w gone now Hi Htick) as Hclk. pose proof (iv_wf _ _ _ _ _ Hi) as Hwf.
  unfold resolve_or_auto_commit_tx. destruct tx as [tx|].
  - destruct (resolve_tx _ now tx) as [b|e] eqn:Hres; [|done]. intros [= <- <- _].
    unfold resolve_tx in Hres. destruct (get_tx_status _ now tx) as [[]|] eqn:Hst; try done.
    destruct (open_not_terminal _ _ _ _ _ Hst) as ((r & Hr & _) & Hc & _).
    split_and!; [done| |apply tx_grew_refl|done|left; eauto].
    intros Hin. apply (open_not_gone _ _ _ _ _ _ _ Hst (proj1 Htick) (iv_gone _ _ _ _ _ Hi tx Hin)).
  - specialize (Hfr eq_refl). destruct (auto_commit_tx _ now fresh) as [[l1 c]|e] eqn:Hres; [|done].
    intros [= <- <- _]. assert (fresh ∉ gone) as Hng.
    { intros Hin. apply (fresh_not_gone _ _ _ _ Hfr (iv_gone _ _ _ _ _ Hi fresh Hin)). }
    split_and!; [|done|by eapply commit_grew|apply Hfr|right].
    { eapply tx_wf_step; [done|by eapply StepAutoCommit]. }
    apply commit_insert_Ok in Hres as (-> & -> & _ & Hnew). eexists. split_and!; [done..|].
    intros c' Hc'. destruct (Hnew c' Hc'). apply (proj2 Hclk) in Hc'. lia.
Qed.

Lemma wrote_grown {A} w l' now gone tx (ideal real' ideal' : list (log_row A)) :
  wrote gone tx ideal real' ideal' → bs_tx (w_ideal w) = bs_tx (w_real w) →
  (∀ c, c ∈ tx_commit_log (bs_tx (w_real w)) → ct_tx_uuid c ≠ tx) →
  (l' = bs_tx (w_real w) ∨
   ∃ c, tx_commit_log l' = tx_commit_log (bs_tx (w_real w)) ++ [c] ∧ ct_tx_uuid c = tx ∧
     ct_commit_micros c = now ∧ ct_commit_seq_num c = commit_tx_log_seq_num (bs_tx (w_real w))) →
  grown now (commit_tx_log_seq_num (bs_tx (w_real w)))
    (hot_source None ideal (tx_commit_log (bs_tx (w_ideal w)))) (hot_source None ideal' (tx_commit_log l')).
Proof.
  intros (_ & _ & _ & Hel) Htx Hc [->|(c & Hk & Hct & Hcm & Hcs)]; rewrite Htx.
  - apply grown_same. intros x. by apply (source_uncommitted _ _ _ tx).
  - rewrite Hk, <- Hcm, <- Hcs. by apply (grown_commit _ _ _ c tx).
Qed.

Lemma inv_written w gone now l' tx real ideal :
  Inv E value index_key w gone → tick w now →
  tx_wf l' → tx_grew (bs_tx (w_real w)) l' now gone →
  (∀ c, c ∈ tx_commit_log (bs_tx (w_real w)) → ct_tx_uuid c ≠ tx) →
  ((l' = bs_tx (w_real w) ∧ is_Some (begin_tx_log l' !! tx)) ∨
   ∃ c, tx_commit_log l' = tx_commit_log (bs_tx (w_real w)) ++ [c] ∧ ct_tx_uuid c = tx ∧
     ct_commit_micros c = now ∧ ct_commit_seq_num c = commit_tx_log_seq_num (bs_tx (w_real w)) ∧
     ∀ c', c' ∈ tx_commit_log (bs_tx (w_real w)) → ct_commit_micros c' < now) →
  bs_tx real = l' → bs_tx ideal = l' →
  wrote gone tx (ts_upserts (bs_table (w_ideal w))) (ts_upserts (bs_table real)) (ts_upserts (bs_table ideal)) →
  wrote gone tx (ts_deletes (bs_table (w_ideal w))) (ts_deletes (bs_table real)) (ts_deletes (bs_table ideal)) →
  ts_write_sequence (bs_table ideal) = ts_write_sequence (bs_table real) →
  ts_meta (bs_table real) = ts_meta (bs_table (w_real w)) →
  ts_meta (bs_table ideal) = ts_meta (bs_table (w_ideal w)) →
  Inv E value index_key {| w_real := real; w_ideal := ideal; w_now := now |} gone.
Proof.
  intros Hi Htick Hwf' Hg Hc Hcase Hr Hid HwU HwD Hseq Hmr Hmi.
  pose proof (inv_clock w gone now Hi Htick) as [_ Hclk]. pose proof Hi as [Htx _ _ HU HD _ _ _ _ _].
  assert (is_Some (begin_tx_log l' !! tx) ∨ (∃ c, c ∈ tx_commit_log l' ∧ ct_tx_uuid c = tx)) as Hown.
  { destruct Hcase as [[_ ?]|(c & Hk & Hct & _)]; [by left|right]. exists c. rewrite Hk. split; [set_solver|done]. }
  apply (inv_client w); try done; rewrite ?Hr, ?Hid; try done.
  - by eapply wrote_log_ok.
  - by eapply wrote_log_ok.
  - unfold historyU, historyD. rewrite Hid. destruct Hcase as [[-> Hb]|(c & Hk & Hct & Hcm & Hcs & Hlt)].
    + exists (now + 1). split_and!; [intros c' Hc'; specialize (Hclk c' Hc'); lia|..]; apply grown_same; intros x;
        rewrite Htx; (apply (source_uncommitted _ _ _ tx); [|done]); [apply HwU|apply HwD].
    + exists now. split_and!; [done| |]; eapply wrote_grown; eauto 10.
Qed.

Lemma inv_write w gone now fresh tx change :
  Inv E value index_key w gone → tick w now → (tx = None → fresh_tx (bs_tx (w_real w)) fresh) →
  Inv E value index_key {| w_real := client E (w_real w) now (OpWrite fresh tx change);
                           w_ideal := client E (w_ideal w) now (OpWrite fresh tx change); w_now := now |} gone.
Proof using version_inj.
  intros Hi Htick Hfr. simpl. unfold write_data. rewrite (iv_tx _ _ _ _ _ Hi).
  destruct (resolve_or_auto_commit_tx (bs_tx (w_real w)) now fresh tx) as [[l' [tx' co]]|e] eqn:Hres;
    [|by apply inv_idle]. cbn [result_bind].
  destruct (write_resolved w gone now fresh tx l' tx' co Hi Htick Hfr Hres) as (Hwf' & Hng & Hg & Hc & Hcase).
  pose proof Hi as [_ _ _ HU HD Hseq _ _ _ _].
  destruct change as [ch|]; cbn [result_bind].
  - pose proof (apply_change_wrote _ gone _ _ ch tx' HU HD Hseq Hng) as Hap.
    destruct (apply_change _ (bs_table (w_real w)) ch tx') as [tr|], (apply_change _ (bs_table (w_ideal w)) ch tx') as [ti|];
      try done; cbn [result_bind]; [|by apply inv_idle].
    destruct Hap as (HwU & HwD & Hs & Hmr & Hmi). by eapply (inv_written w gone now l' tx').
  - assert (∀ A (real ideal : list (log_row A)), log_ok E (bs_tx (w_real w)) gone real ideal →
             wrote gone tx' ideal real ideal) as Hw by by intros A real ideal [? ? ? _].
    eapply (inv_written w gone now l' tx'); eauto.
Qed.

(** The history of the ideal table only grows, by versions of the next serial. *)
Lemma client_grown w gone now o :
  Inv E value index_key w gone → tick w now → scheduled E (w_real w) now o →
  ∃ mi, grown mi (commit_tx_log_seq_num (bs_tx (w_real w))) (historyU (w_ideal w)) (historyU (client E (w_ideal w) now o)) ∧
        grown mi (commit_tx_log_seq_num (bs_tx (w_real w))) (historyD (w_ideal w)) (historyD (client E (w_ideal w) now o)).
Proof using version_inj.
  intros Hi Htick Hsch. pose proof Hi as [Htx _ _ HU HD Hseq _ _ _ _].
  assert (∀ id : branch_state V, bs_table id = bs_table (w_ideal w) → tx_commit_log (bs_tx id) = tx_commit_log (bs_tx (w_ideal w)) →
    ∃ mi, grown mi (commit_tx_log_seq_num (bs_tx (w_real w))) (historyU (w_ideal w)) (historyU id) ∧
          grown mi (commit_tx_log_seq_num (bs_tx (w_real w))) (historyD (w_ideal w)) (historyD id)) as Hsame.
  { intros id Ht Hc. exists 0. unfold historyU, historyD. rewrite Ht, Hc. split; by apply grown_same. }
  destruct o as [tx timeout|tx|tx|fresh tx ch|target|as_of|]; cbn [client]; try by apply Hsame.
  - destruct (begin_tx _ now tx timeout) as [[l' out]|] eqn:Hb; [|by apply Hsame].
    unfold begin_tx in Hb. destruct (begin_tx_log _ !! tx); simplify_eq. by apply Hsame.
  - destruct (commit_tx _ now tx) as [[l' c]|] eqn:Hb; [|by apply Hsame].
    unfold commit_tx in Hb. destruct (get_tx_status _ now tx) as [[]|]; try done. unfold commit_open_tx in Hb.
    destruct (begin_tx_log _ !! tx); [|done]. apply commit_insert_Ok in Hb as (-> & -> & _ & Hnew). exists now. rewrite <- Htx.
    split; (apply (grown_commit _ _ _ (CommitRow tx now _) tx); [done|intros c' Hc'; by apply Hnew|done]).
  - destruct (abort_tx _ now tx) as [[l' t]|] eqn:Hb; [|by apply Hsame]. unfold abort_tx in Hb.
    destruct (get_tx_status _ now tx) as [[]|]; simplify_eq; try by apply Hsame.
    unfold hot_abort_tx in Hb. destruct (begin_tx_log _ !! tx); [|done]. destruct (I64_MAX <=? _); [done|]. case_decide; simplify_eq. by apply Hsame.
  - unfold write_data. rewrite Htx. destruct (resolve_or_auto_commit_tx _ now fresh tx) as [[l' [tx' co]]|] eqn:Hres; [|by apply Hsame]. cbn [result_bind].
    destruct (write_resolved w gone now fresh tx l' tx' co Hi Htick ltac:(by intros ->) Hres) as (_ & Hng & _ & Hc & Hcase).
    assert (∀ id : branch_state V, bs_tx id = l' → (∀ u, lr_tx_uuid u ≠ tx' → u ∈ ts_upserts (bs_table id) ↔ u ∈ ts_upserts (bs_table (w_ideal w))) →
      (∀ u, lr_tx_uuid u ≠ tx' → u ∈ ts_deletes (bs_table id) ↔ u ∈ ts_deletes (bs_table (w_ideal w))) →
      ∃ mi, grown mi (commit_tx_log_seq_num (bs_tx (w_real w))) (historyU (w_ideal w)) (historyU id) ∧
            grown mi (commit_tx_log_seq_num (bs_tx (w_real w))) (historyD (w_ideal w)) (historyD id)) as Hwr.
    { intros id Hid HuU HuD. unfold historyU, historyD. rewrite Hid, Htx. destruct Hcase as [[-> _]|(c & Hk & Hct & Hcm & Hcs & _)].
      - exists 0. split; apply grown_same; intros x; by apply (source_uncommitted _ _ _ tx').
      - exists now. rewrite Hk, <- Hcm, <- Hcs. split; by apply (grown_commit _ _ _ c tx'). }
    destruct ch as [ch|]; cbn [result_bind]; [|by apply Hwr].
    pose proof (apply_change_wrote _ gone _ _ ch tx' HU HD Hseq Hng) as Hap.
    destruct (apply_change _ (bs_table (w_real w)) ch tx') as [tr|], (apply_change _ (bs_table (w_ideal w)) ch tx') as [ti|];
      try done; cbn [result_bind]; [|by apply Hsame]. destruct Hap as ((_ & _ & _ & H1) & (_ & _ & _ & H2) & _). by apply Hwr.
Qed.
End inv.
