(* ===== verification/SystemPersist.v ===== *)
(** * Purge preserves the system invariant *)

From S2P Require Import Prelude CoreTypes Watermarks ReadSnapshot Dialect MergeSql IndexSeek Plan SnapshotScan IndexSelect TxLog TableStore Chunker ReadPath Lifecycle ReadLemmas ReadData Tiers System SystemInv.
From stdpp Require Import base numbers list option sets gmap sorting.

Open Scope Z_scope.

Section purge.
Context {V : Type} (E : env V) (value : Z → Z * V → cell) (index_key : Z → Z * V → list cell).
Implicit Types (w : world V) (l : tx_logs).

(** The invariant after a lifecycle operation, which leaves the ideal table and
    the transaction logs alone. *)
Lemma inv_lifecycle w gone gone' now real :
  Inv E value index_key w gone → tick w now →
  bs_tx real = bs_tx (w_real w) →
  log_ok E (bs_tx (w_real w)) gone' (ts_upserts (bs_table real)) (ts_upserts (bs_table (w_ideal w))) →
  log_ok E (bs_tx (w_real w)) gone' (ts_deletes (bs_table real)) (ts_deletes (bs_table (w_ideal w))) →
  ts_write_sequence (bs_table real) = ts_write_sequence (bs_table (w_real w)) →
  (∀ tx, tx ∈ gone' → gone_ok (bs_tx (w_real w)) (ts_meta (bs_table real)) now tx) →
  (∀ c pu, c ∈ tx_commit_log (bs_tx (w_real w)) → last_purged_seq (ts_meta (bs_table real)) = Some pu →
     ct_commit_seq_num c ≤ pu → ct_tx_uuid c ∈ gone') →
  meta_ok E value index_key (ts_meta (bs_table real)) (bs_tx (w_real w)) (historyU (w_ideal w)) (historyD (w_ideal w)) →
  Inv E value index_key {| w_real := real; w_ideal := w_ideal w; w_now := now |} gone'.
Proof.
  intros [Htx Hwf Hnow _ _ Hseq Him _ _ _] [Htick _] Hr HU HD Hs Hg Hp Hm.
  split; cbn [w_real w_ideal w_now]; rewrite ?Hr; try done; [|congruence].
  split; [lia|]. intros c Hc. apply (proj2 Hnow) in Hc. lia.
Qed.

(** Metadata that differs in the purges only. *)
Lemma meta_ok_purges m m' l HU HD :
  meta_ok E value index_key m l HU HD →
  tm_persists m' = tm_persists m → tm_upsert_segments m' = tm_upsert_segments m →
  tm_delete_segments m' = tm_delete_segments m → tm_snapshots m' = tm_snapshots m →
  (∀ pu, last_purged_seq m' = Some pu →
     ∃ sn, sn ∈ committed sn_commit_micros (tm_snapshots m) ∧ sn_commit_seq_num sn = pu) →
  meta_ok E value index_key m' l HU HD.
Proof.
  intros [Hwm Hu Hd Huuid Hsn _] H1 H2 H3 H4 Hpu.
  assert (persist_wm m' = persist_wm m) as Hw by (unfold persist_wm; by rewrite H1).
  split; rewrite ?Hw, ?H1, ?H2, ?H3, ?H4; try done.
  intros sn Hin. destruct (Hsn sn Hin) as (Hok & Hr). split; [|done].
  destruct Hok as [? ? ? ? ? ? ? ?]. split; try done; by rewrite ?H2, ?H3.
Qed.

(** ** Clearing the hot logs *)

Lemma surviving_delete {A} gone doomed (log : list (log_row A)) :
  delete_hot_rows doomed (surviving gone log) = surviving (gone ++ doomed) log.
Proof.
  unfold delete_hot_rows, surviving. rewrite list_filter_filter. apply list_filter_iff. intros u. set_solver.
Qed.

Lemma log_ok_delete {A} l gone doomed (real ideal : list (log_row A)) :
  log_ok E l gone real ideal → log_ok E l (gone ++ doomed) (delete_hot_rows doomed real) ideal.
Proof. intros [-> ? ? ?]. split; try done. apply surviving_delete. Qed.

Definition doomed_by (a : option Z) (f : Z → list Z) : list Z := match a with Some x => f x | None => [] end.

Lemma log_ok_advance {A} l gone (a : option Z) f (real ideal : list (log_row A)) :
  log_ok E l gone real ideal →
  log_ok E l (gone ++ doomed_by a f)
    (match a with Some x => delete_hot_rows (f x) real | None => real end) ideal.
Proof. intros H. destruct a; simpl; [by apply log_ok_delete|by rewrite app_nil_r]. Qed.

Lemma expired_gone l (m : table_meta V) now tx : tx ∈ expired_begin_txs l now → gone_ok l m now tx.
Proof.
  unfold expired_begin_txs. intros ([tx' b] & -> & [(Hexp & Hc & Ha) Hin]%list_elem_of_filter)%list_elem_of_fmap.
  simpl in *. apply elem_of_map_to_list in Hin. right; right. exists b. split_and!; [done|done|].
  by apply (proj1 (head_filter_None _ _)).
Qed.

Lemma committed_gone l (m : table_meta V) now pu pu' tx :
  tx ∈ committed_upto l pu → last_purged_seq m = Some pu' → pu ≤ pu' → gone_ok l m now tx.
Proof.
  intros (c & -> & [Hle Hc]%list_elem_of_filter)%list_elem_of_fmap Hpu Hle'. left. exists c, pu'.
  split_and!; [done|done|done|lia].
Qed.

Lemma aborted_gone l (m : table_meta V) now pa tx : tx ∈ aborted_below l pa → gone_ok l m now tx.
Proof. intros (a & -> & [_ Ha]%list_elem_of_filter)%list_elem_of_fmap. right; left. eauto. Qed.

(** ** The purge frontier advances to the latest snapshot *)

Lemma last_purged_snoc (m : table_meta V) ps pu pa now :
  zmax_list (omap pm_last_purged_commit_seq_num (committed pm_commit_micros
    (ps ++ [{| pm_last_purged_commit_seq_num := pu; pm_last_purged_aborted_seq_num := pa;
               pm_commit_micros := Some now |}]))) =
  omax (zmax_list (omap pm_last_purged_commit_seq_num (committed pm_commit_micros ps))) pu.
Proof.
  unfold committed. rewrite filter_app, omap_app. rewrite filter_cons_True by done. rewrite filter_nil.
  generalize (omap pm_last_purged_commit_seq_num (filter (λ x, is_Some (pm_commit_micros x)) ps)) as k. intros k.
  simpl. induction k as [|z k IH]; simpl; [by destruct pu|]. rewrite IH.
  destruct (zmax_list k), pu; simpl; f_equal; lia.
Qed.

Definition advance {A} (a : option Z) (f : Z → list Z) (log : list (log_row A)) : list (log_row A) :=
  match a with Some x => delete_hot_rows (f x) log | None => log end.

Definition pu_advance (st : branch_state V) : option Z :=
  compute_purge_watermark (latest_snapshot_seq (ts_meta (bs_table st))) (last_purged_seq (ts_meta (bs_table st))).
Definition pa_advance (st : branch_state V) : option Z :=
  compute_purge_watermark (Some (abort_seq_num (bs_tx st)))
    (match last_purged_aborted (ts_meta (bs_table st)) with Some v => Some v | None => Some 0 end).

Lemma purge_shape (st : branch_state V) now :
  let l := bs_tx st in
  let clear {A} (log : list (log_row A)) :=
    advance (pa_advance st) (aborted_below l)
      (advance (pu_advance st) (committed_upto l) (delete_hot_rows (expired_begin_txs l now) log)) in
  ∃ m', (purge_locked st now).1 =
    {| bs_tx := l;
       bs_table := {| ts_upserts := clear (ts_upserts (bs_table st)); ts_deletes := clear (ts_deletes (bs_table st));
                      ts_write_sequence := ts_write_sequence (bs_table st);
                      ts_tx_table_log := ts_tx_table_log (bs_table st); ts_meta := m' |} |} ∧
    tm_persists m' = tm_persists (ts_meta (bs_table st)) ∧
    tm_upsert_segments m' = tm_upsert_segments (ts_meta (bs_table st)) ∧
    tm_delete_segments m' = tm_delete_segments (ts_meta (bs_table st)) ∧
    tm_snapshots m' = tm_snapshots (ts_meta (bs_table st)) ∧
    last_purged_seq m' = omax (last_purged_seq (ts_meta (bs_table st))) (pu_advance st).
Proof.
  cbv zeta. unfold purge_locked. cbn [clear_hot ts_meta]. fold (pu_advance st) (pa_advance st).
  destruct (pu_advance st) as [pu|] eqn:Epu, (pa_advance st) as [pa|] eqn:Epa; simpl;
    (eexists; split; [reflexivity|]); simpl; split_and!; try done;
    try (apply last_purged_snoc; exact (ts_meta (bs_table st))).
  by destruct (last_purged_seq _).
Qed.

Lemma pu_advance_Some (st : branch_state V) pu :
  pu_advance st = Some pu →
  (∃ sn, sn ∈ committed sn_commit_micros (tm_snapshots (ts_meta (bs_table st))) ∧ sn_commit_seq_num sn = pu) ∧
  omax (last_purged_seq (ts_meta (bs_table st))) (Some pu) = Some pu.
Proof.
  unfold pu_advance, compute_purge_watermark. destruct (latest_snapshot_seq _) as [c|] eqn:Ec; [|done].
  intros Hpu. assert (c = pu) as -> by (repeat case_match; by simplify_eq). split.
  - unfold latest_snapshot_seq in Ec. apply zmax_list_Some in Ec as [(sn & -> & Hsn)%list_elem_of_fmap _]. eauto.
  - destruct (last_purged_seq _) as [lp|]; simpl; [|done]. destruct (Z.leb_spec pu lp); [done|]. f_equal. lia.
Qed.

(** The frontier after the purge is the old one or the newest snapshot's cut. *)
Lemma last_purged_next (st : branch_state V) pu :
  omax (last_purged_seq (ts_meta (bs_table st))) (pu_advance st) = Some pu →
  last_purged_seq (ts_meta (bs_table st)) = Some pu ∨ pu_advance st = Some pu.
Proof.
  destruct (pu_advance st) as [p|] eqn:Ep.
  - destruct (pu_advance_Some st p Ep) as [_ ->]. intros [= ->]. by right.
  - destruct (last_purged_seq _); simpl; [|done]. intros [= ->]. by left.
Qed.

Lemma inv_purge w gone now :
  Inv E value index_key w gone → tick w now →
  ∃ gone', Inv E value index_key
    {| w_real := (purge_locked (w_real w) now).1; w_ideal := w_ideal w; w_now := now |} gone'.
Proof.
  intros Hi Htick. destruct (purge_shape (w_real w) now) as (m' & -> & H1 & H2 & H3 & H4 & Hlp).
  set (l := bs_tx (w_real w)) in *.
  exists (((gone ++ expired_begin_txs l now) ++ doomed_by (pu_advance (w_real w)) (committed_upto l)) ++
          doomed_by (pa_advance (w_real w)) (aborted_below l)).
  pose proof Hi as [_ _ _ HU HD _ _ Hgone Hpd Hm].
  apply (inv_lifecycle w gone); simpl; try done.
  - by apply log_ok_advance, log_ok_advance, log_ok_delete.
  - by apply log_ok_advance, log_ok_advance, log_ok_delete.
  - intros tx [[[Htx|Htx]%elem_of_app|Htx]%elem_of_app|Htx]%elem_of_app.
    + eapply gone_mono; [by apply Hgone|done|apply tx_grew_refl|apply Htick|].
      intros pu Hpu. rewrite Hlp, Hpu. destruct (pu_advance _) as [p|]; simpl; eexists; split; try done; lia.
    + by apply expired_gone.
    + destruct (pu_advance (w_real w)) as [p|] eqn:Ep; [|by apply not_elem_of_nil in Htx].
      destruct (pu_advance_Some _ _ Ep) as [_ Hmax]. rewrite Hmax in Hlp. by eapply committed_gone.
    + destruct (pa_advance (w_real w)); [|by apply not_elem_of_nil in Htx]. by eapply aborted_gone.
  - intros c pu Hc Hpu Hle. rewrite Hlp in Hpu. rewrite !elem_of_app.
    apply last_purged_next in Hpu as [Hpu|Hpu]; [left; left; left; by eapply Hpd|left; right].
    rewrite Hpu. apply list_elem_of_fmap. exists c. split; [done|]. by apply list_elem_of_filter.
  - eapply meta_ok_purges; [exact Hm|done..|]. intros pu. rewrite Hlp.
    intros [Hpu|Hpu]%last_purged_next; [by apply (mo_purge _ _ _ _ _ _ _ Hm)|by apply pu_advance_Some].
Qed.
End purge.

(** ** Persist preserves the system invariant *)

(** ** Chunks and segments *)

Lemma tiles_slices {A} cost cap (k : list A) ranges : ∀ lo, (lo ≤ length k)%nat →
  tiles cost cap lo (length k) ranges →
  mjoin ((λ r : nat * nat * Z, slice k r.1.1 r.1.2) <$> ranges) = drop lo k.
Proof.
  induction ranges as [|[[off len] b] rest IH]; intros lo Hlo; cbn [tiles].
  - intros ->. by rewrite drop_all.
  - intros (-> & Hl & _ & _ & _ & Ht).
    assert (lo + len ≤ length k)%nat as Hle.
    { clear -Ht. revert Ht. generalize (lo + len)%nat. induction rest as [|[[o n] b] rest IH]; intros j; simpl; [lia|].
      intros (-> & ? & _ & _ & _ & Ht). specialize (IH _ Ht). lia. }
    transitivity (slice k lo len ++ mjoin ((λ r : nat * nat * Z, slice k r.1.1 r.1.2) <$> rest)); [done|].
    rewrite (IH _ Hle Ht). unfold slice. rewrite <- drop_drop. apply take_drop.
Qed.

Lemma chunk_persist_batch_rows {A} `{C : ColdBatch A, !ColdBatchLaws C} (rows : list (src_row A)) cap :
  ∃ chunks, chunk_persist_batch rows cap = Ok chunks ∧ mjoin chunks = merge_sort version_order rows.
Proof.
  unfold chunk_persist_batch. set (sorted := merge_sort version_order rows).
  destruct (to_batch_costed sorted) as [cost Hc]. rewrite <- (to_batch_rows sorted) in Hc.
  destruct (chunk_ranges_ok (to_batch sorted) cap cost Hc) as (ranges & -> & Ht).
  cbn [result_bind]. eexists. split; [done|]. rewrite to_batch_rows in Ht.
  by rewrite (tiles_slices cost cap sorted ranges 0) by (done || lia).
Qed.

Lemma committed_bounds {A} (rows : list (src_row A)) a b :
  batch_committed_at_bounds rows = Some (a, b) →
  (∀ x, x ∈ rows → a ≤ commit_micros x ≤ b) ∧ ∃ x, x ∈ rows ∧ commit_micros x = b.
Proof.
  unfold batch_committed_at_bounds. destruct (zmin_list _) eqn:E1; [|done]. destruct (zmax_list _) eqn:E2; [|done]. intros [= <- <-].
  apply zmin_list_Some in E1 as [_ H1]. apply zmax_list_Some in E2 as [(y & -> & Hy)%list_elem_of_fmap H2].
  split; [|eauto]. intros x Hx. split; [apply H1|apply H2]; by apply list_elem_of_fmap_2.
Qed.

Lemma seq_bounds {A} (rows : list (src_row A)) a b :
  batch_commit_seq_num_bounds rows = Some (a, b) →
  (∀ x, x ∈ rows → a ≤ commit_seq_num x ≤ b) ∧ (∃ x, x ∈ rows ∧ commit_seq_num x = b) ∧ ∃ x, x ∈ rows ∧ commit_seq_num x = a.
Proof.
  unfold batch_commit_seq_num_bounds. destruct (zmin_list _) eqn:E1; [|done]. destruct (zmax_list _) eqn:E2; [|done]. intros [= <- <-].
  apply zmin_list_Some in E1 as [(y0 & -> & Hy0)%list_elem_of_fmap H1]. apply zmax_list_Some in E2 as [(y & -> & Hy)%list_elem_of_fmap H2].
  split; [|eauto 8]. intros x Hx. split; [apply H1|apply H2]; by apply list_elem_of_fmap_2.
Qed.

Lemma segment_steps_spec {A} seg_uuid now u (chunks : list (list (src_row A))) : ∀ i segs,
  segment_steps seg_uuid now u i chunks = Ok segs →
  sg_rows <$> segs = chunks ∧
  (∀ g, g ∈ segs → seg_bounds g ∧ sg_commit_micros g = Some now ∧
     ((∃ x, x ∈ sg_rows g ∧ commit_seq_num x = sg_max_commit_seq_num g) ∧
      (∃ x, x ∈ sg_rows g ∧ commit_micros x = sg_max_tx_commit_micros g)) ∧
     (∃ x, x ∈ sg_rows g ∧ commit_seq_num x = sg_min_commit_seq_num g) ∧
     sg_table_persist_uuid g = u ∧ sg_uuid g = seg_uuid u (sg_chunk_idx g) ∧ i ≤ sg_chunk_idx g) ∧
  sg_uuid <$> segs = seg_uuid u <$> seqZ i (Z.of_nat (length chunks)).
Proof.
  induction chunks as [|rows chunks IH]; intros i segs; simpl.
  { intros [= <-]. split_and!; [done|by intros g ?%not_elem_of_nil|done]. }
  destruct (batch_committed_at_bounds rows) as [[a b]|] eqn:Eb; [|done].
  destruct (batch_commit_seq_num_bounds rows) as [[a' b']|] eqn:Es; [|done].
  destruct (segment_steps seg_uuid now u (i + 1) chunks) as [rest|] eqn:Er; [|done]. intros [= <-].
  destruct (IH _ _ Er) as (Hr & Hg & Hu).
  apply committed_bounds in Eb as [Hb1 Hb2]. apply seq_bounds in Es as (Hs1 & Hs2 & Hs3).
  split_and!; [by rewrite fmap_cons, Hr| |].
  - intros g [->|Hin]%elem_of_cons.
    + simpl. split_and!; try done. intros x Hx. by split; [apply Hb1|apply Hs1].
    + destruct (Hg g Hin) as (? & ? & ? & ? & ? & ? & ?). split_and!; try done; try apply Hg; try done; lia.
  - rewrite fmap_cons, Hu, (seqZ_cons i) by (simpl; lia). rewrite fmap_cons. simpl length. do 3 f_equal; lia.
Qed.

Lemma write_segments_fresh {A} (steps : list (segment_meta A)) : ∀ segs,
  (∀ g, g ∈ steps → sg_uuid g ∉ sg_uuid <$> segs) → NoDup (sg_uuid <$> steps) →
  foldl (λ k g, write_segment g k) segs steps = segs ++ steps.
Proof.
  induction steps as [|g steps IH]; intros segs Hn Hnd; simpl; [by rewrite app_nil_r|].
  rewrite fmap_cons, NoDup_cons in Hnd. destruct Hnd as [Hg Hnd].
  unfold write_segment at 2. rewrite decide_False by (apply Hn; by left). rewrite IH.
  - by rewrite <- app_assoc.
  - intros g' Hg' Hin. rewrite fmap_app in Hin. apply elem_of_app in Hin as [Hin|Hin].
    + apply (Hn g'); [by right|done].
    + apply list_elem_of_singleton in Hin. apply Hg. rewrite <- Hin. by apply list_elem_of_fmap_2.
  - done.
Qed.

(** ** One log kind *)

Section persist.
Context {V : Type} `{CV : ColdBatch V, CU : ColdBatch unit, !ColdBatchLaws CV, !ColdBatchLaws CU}.
Context (E : env V) (value : Z → Z * V → cell) (index_key : Z → Z * V → list cell).
Context (persist_inj : ∀ t k t' k', e_persist_uuid E t k = e_persist_uuid E t' k' → t = t' ∧ k = k')
        (segment_inj : ∀ p i p' i', e_segment_uuid E p i = e_segment_uuid E p' i' → p = p' ∧ i = i').
Implicit Types (w : world V) (l : tx_logs).

(** The header a non-empty kind adds. *)
Definition header_of {A} (target at_micros : Z) (k : LogKind) (rows : list (src_row A)) (c : option Z) :
    list persist_header :=
  match rows with
  | [] => []
  | _ => [{| ph_uuid := e_persist_uuid E target k; ph_log_kind := k;
             ph_persisted_at_micros := at_micros; ph_commit_micros := c |}]
  end.

(** Segments freshly written from [rows]. *)
Record new_segments {A} (now target : Z) (k : LogKind) (rows : list (src_row A)) (new : list (segment_meta A)) : Prop := {
  ns_rows : ∀ x, x ∈ rows ↔ ∃ g, g ∈ new ∧ x ∈ sg_rows g;
  ns_bounds : ∀ g, g ∈ new → seg_bounds g ∧ sg_commit_micros g = Some now;
  ns_max : ∀ g, g ∈ new → (∃ x, x ∈ sg_rows g ∧ commit_seq_num x = sg_max_commit_seq_num g) ∧
     (∃ x, x ∈ sg_rows g ∧ commit_micros x = sg_max_tx_commit_micros g);
  ns_min : ∀ g, g ∈ new → ∃ x, x ∈ sg_rows g ∧ commit_seq_num x = sg_min_commit_seq_num g;
  ns_uuid : ∀ g, g ∈ new → rows ≠ [] ∧ sg_table_persist_uuid g = e_persist_uuid E target k ∧
    sg_uuid g = e_segment_uuid E (e_persist_uuid E target k) (sg_chunk_idx g) ∧ 0 ≤ sg_chunk_idx g;
  ns_nodup : NoDup (sg_uuid <$> new);
}.

Lemma persist_kind_spec {A} `{C : ColdBatch A, !ColdBatchLaws C} now target at_micros cap k
    (rows : list (src_row A)) headers segs h' segs' :
  persist_kind (e_persist_uuid E) (e_segment_uuid E) now target at_micros cap k rows headers segs = Ok (h', segs') →
  e_persist_uuid E target k ∉ ph_uuid <$> headers →
  (∀ i, e_segment_uuid E (e_persist_uuid E target k) i ∉ sg_uuid <$> segs) →
  h' = headers ++ header_of target at_micros k rows None ∧
  ∃ new, segs' = segs ++ new ∧ new_segments now target k rows new.
Proof using segment_inj.
  unfold persist_kind, header_of. destruct rows as [|x0 rows0] eqn:Er.
  { intros [= <- <-] _ _. rewrite app_nil_r. split; [done|]. exists []. rewrite app_nil_r. split; [done|].
    split; try (by intros g ?%not_elem_of_nil); [|constructor]. intros x. split; [by intros ?%not_elem_of_nil|].
    by intros (g & ?%not_elem_of_nil & _). }
  rewrite <- Er. assert (rows ≠ []) as Hne by by rewrite Er. clear Er.
  destruct (chunk_persist_batch_rows rows cap) as (chunks & -> & Hjoin). cbn [result_bind].
  destruct (segment_steps _ now _ 0 chunks) as [steps|] eqn:Es; [|done]. cbn [result_bind].
  intros [= <- <-] Hh Hs. apply segment_steps_spec in Es as (Hrows & Hg & Huuid).
  assert (∀ g, g ∈ steps → ∃ i, sg_uuid g = e_segment_uuid E (e_persist_uuid E target k) i) as Hu.
  { intros g Hin. assert (sg_uuid g ∈ sg_uuid <$> steps) as Hin' by by apply list_elem_of_fmap_2.
    rewrite Huuid in Hin'. apply list_elem_of_fmap in Hin' as (i & -> & _). eauto. }
  assert (NoDup (sg_uuid <$> steps)) as Hnd.
  { rewrite Huuid. apply NoDup_fmap_2_strong; [|apply NoDup_seqZ]. by intros i j _ _ [_ ?]%segment_inj. }
  split.
  - unfold insert_table_persist. by rewrite decide_False.
  - exists steps. split.
    + apply write_segments_fresh; [|done]. intros g Hin. destruct (Hu g Hin) as [i ->]. apply Hs.
    + split.
      * intros x. rewrite <- (merge_sort_Permutation version_order rows), <- Hjoin, <- Hrows.
        rewrite list_elem_of_join. setoid_rewrite list_elem_of_fmap. split.
        -- intros (k' & Hx & g & -> & Hg'). eauto.
        -- intros (g & Hg' & Hx). exists (sg_rows g). eauto.
      * intros g Hin. destruct (Hg g Hin) as (? & ? & _). done.
      * intros g Hin. by destruct (Hg g Hin) as (_ & _ & ? & _).
      * intros g Hin. by destruct (Hg g Hin) as (_ & _ & _ & ? & _).
      * intros g Hin. destruct (Hg g Hin) as (_ & _ & _ & _ & ? & ? & ?). done.
      * done.
Qed.

(** ** The parent flip *)

Lemma commit_other u now (k : list persist_header) :
  u ∉ ph_uuid <$> k → commit_table_persist u now k = k.
Proof.
  unfold commit_table_persist. induction k as [|p k IH]; [done|]. rewrite fmap_cons, not_elem_of_cons.
  intros [Hp Hk]. rewrite fmap_cons, IH by done. by rewrite decide_False.
Qed.

Lemma commit_app u now (k k' : list persist_header) :
  commit_table_persist u now (k ++ k') = commit_table_persist u now k ++ commit_table_persist u now k'.
Proof. apply fmap_app. Qed.

Lemma flip_spec now target at_micros (us : list (src_row V)) (ds : list (src_row unit)) headers :
  e_persist_uuid E target UpsertLog ∉ ph_uuid <$> headers →
  e_persist_uuid E target DeleteLog ∉ ph_uuid <$> headers →
  flip_kind (e_persist_uuid E) now target DeleteLog ds
    (flip_kind (e_persist_uuid E) now target UpsertLog us
      ((headers ++ header_of target at_micros UpsertLog us None) ++ header_of target at_micros DeleteLog ds None)) =
  (headers ++ header_of target at_micros UpsertLog us (Some now)) ++ header_of target at_micros DeleteLog ds (Some now).
Proof using persist_inj.
  intros HU HD. assert (e_persist_uuid E target UpsertLog ≠ e_persist_uuid E target DeleteLog) as Hne.
  { by intros [_ ?]%persist_inj. }
  unfold flip_kind, header_of. destruct us, ds; rewrite ?app_nil_r; try done; rewrite ?commit_app.
  - rewrite commit_other by done. simpl. by rewrite decide_True.
  - rewrite commit_other by done. simpl. by rewrite decide_True.
  - rewrite !(commit_other _ _ headers) by done. simpl.
    rewrite (decide_True (P := e_persist_uuid E target UpsertLog = e_persist_uuid E target UpsertLog)) by done.
    rewrite (decide_False (P := e_persist_uuid E target DeleteLog = e_persist_uuid E target UpsertLog)) by done. simpl.
    rewrite (decide_False (P := e_persist_uuid E target UpsertLog = e_persist_uuid E target DeleteLog)) by done.
    by rewrite decide_True.
Qed.

Lemma persist_wm_next now target at_micros (us : list (src_row V)) (ds : list (src_row unit)) headers :
  us ≠ [] ∨ ds ≠ [] →
  (∀ last, zmax_list (ph_persisted_at_micros <$> committed ph_commit_micros headers) = Some last → last < at_micros) →
  zmax_list (ph_persisted_at_micros <$> committed ph_commit_micros
    ((headers ++ header_of target at_micros UpsertLog us (Some now)) ++
     header_of target at_micros DeleteLog ds (Some now))) = Some at_micros.
Proof.
  intros Hne Hlast. apply zmax_list_Some.
  assert (∀ A k (rows : list (src_row A)),
    ph_persisted_at_micros <$> committed ph_commit_micros (header_of target at_micros k rows (Some now)) =
    match rows with [] => [] | _ => [at_micros] end) as Hh.
  { intros A k [|x rows]; unfold committed, header_of; [done|]. rewrite filter_cons_True by (by eexists). done. }
  unfold committed in *. rewrite !filter_app, !fmap_app, !Hh. split.
  - rewrite !elem_of_app. destruct us, ds; rewrite ?list_elem_of_singleton; auto. by destruct Hne.
  - intros x. rewrite !elem_of_app. intros [[Hx|Hx]|Hx].
    + destruct (zmax_list (ph_persisted_at_micros <$> filter (λ x, is_Some (ph_commit_micros x)) headers)) as [z|] eqn:Ez.
      * specialize (Hlast z eq_refl). apply zmax_list_Some in Ez as [_ Hle]. specialize (Hle x Hx). lia.
      * apply zmax_list_None in Ez. rewrite Ez in Hx. by apply not_elem_of_nil in Hx.
    + destruct us; [by apply not_elem_of_nil in Hx|]. apply list_elem_of_singleton in Hx. lia.
    + destruct ds; [by apply not_elem_of_nil in Hx|]. apply list_elem_of_singleton in Hx. lia.
Qed.

Lemma read_committed_elem {A} clog (log : list (log_row A)) mx x :
  x ∈ read_committed clog log (Some mx) ↔ x ∈ hot_source None log clog ∧ commit_micros x < mx.
Proof. unfold read_committed. rewrite list_elem_of_filter, Z.ltb_lt. tauto. Qed.

Lemma committed_new {A} now target k rows (segs new : list (segment_meta A)) g :
  new_segments now target k rows new →
  g ∈ committed sg_commit_micros (segs ++ new) ↔ g ∈ committed sg_commit_micros segs ∨ g ∈ new.
Proof.
  intros Hn. unfold committed. rewrite !list_elem_of_filter, elem_of_app. split; [tauto|].
  intros [[? ?]|Hg]; [auto|]. split; [|auto]. destruct (ns_bounds _ _ _ _ _ Hn g Hg) as [_ ->]. eauto.
Qed.

(** One kind's segments after the persist hold the history up to [candidate]. *)
Lemma segs_persist {A} now target k clog (real : list (log_row A)) segs new rows Hy pu wm mx candidate :
  segs_ok wm segs Hy → hot_ok pu clog real Hy → (∀ x, x ∈ Hy → 0 ≤ commit_seq_num x) →
  (∀ x p, x ∈ Hy → pu = Some p → commit_seq_num x ≤ p → ∃ z, wm = Some z ∧ commit_micros x ≤ z) →
  rows = read_committed clog real (Some mx) → candidate < mx →
  (∀ x, x ∈ rows → commit_micros x ≤ candidate) → (∀ z, wm = Some z → z < candidate) →
  new_segments now target k rows new →
  segs_ok (Some candidate) (segs ++ new) Hy.
Proof.
  intros [[Hb Hs Hc] Hcm Hwm Hmx] Hhot Hpos Hpu Hrows Hmax Hle Hlt Hn.
  assert (∀ g, g ∈ committed sg_commit_micros (segs ++ new) ↔ g ∈ committed sg_commit_micros segs ∨ g ∈ new)
    as Hel by (intros g; by eapply committed_new).
  assert (∀ x, x ∈ rows ↔ x ∈ hot_source None real clog ∧ commit_micros x < mx) as Hin
    by (intros x; rewrite Hrows; apply read_committed_elem).
  assert (∀ g x, g ∈ new → x ∈ sg_rows g → x ∈ rows) as Hrow by (intros g x ? ?; apply (ns_rows _ _ _ _ _ Hn); eauto).
  split; [split| | |].
  - intros g [Hg|Hg]%Hel; [by apply Hb|by apply (ns_bounds _ _ _ _ _ Hn)].
  - intros g x [Hg|Hg]%Hel Hx; [by eapply Hs|]. apply (hot_sound _ _ _ _ Hhot). by apply Hin, (Hrow g).
  - intros x z Hx [= <-] Hxz. setoid_rewrite Hel.
    destruct (decide (default SNAPSHOT_SEQ_GENESIS pu < commit_seq_num x)) as [Hlo|Hlo].
    + pose proof (hot_complete _ _ _ _ Hhot x Hx Hlo) as Hh.
      destruct (proj1 (ns_rows _ _ _ _ _ Hn x)) as (g & Hg & Hxg); [apply Hin; split; [done|lia]|]. eauto.
    + destruct pu as [p|]; simpl in Hlo; [|specialize (Hpos x Hx); unfold SNAPSHOT_SEQ_GENESIS in Hlo; lia].
      destruct (Hpu x p Hx eq_refl) as (z & Hz & Hzx); [lia|].
      destruct (Hc x z Hx Hz Hzx) as (g & Hg & Hxg). eauto.
  - intros g [Hg|Hg]%elem_of_app; [by apply Hcm|]. destruct (ns_bounds _ _ _ _ _ Hn g Hg) as [_ ->]. eauto.
  - intros g [Hg|Hg]%elem_of_app; exists candidate; (split; [done|]).
    + destruct (Hwm g Hg) as (z & Hz & Hzg). specialize (Hlt z Hz). lia.
    + destruct (ns_max _ _ _ _ _ Hn g Hg) as [_ (x & Hx & <-)]. by apply Hle, (Hrow g).
  - intros g [Hg|Hg]%elem_of_app; [by apply Hmx|]. by apply (ns_max _ _ _ _ _ Hn).
Qed.

(** New segments lie past every snapshot the purge has caught up with. *)
Lemma straddle_persist {A} now target k clog (real : list (log_row A)) segs new rows Sn W mx :
  no_straddle Sn segs → new_segments now target k rows new → rows = read_committed clog real (Some mx) →
  (∀ x, x ∈ hot_source None real clog → W < commit_seq_num x) →
  (∀ x, x ∈ hot_source None real clog → commit_micros x ≤ Sn ↔ commit_seq_num x ≤ W) →
  no_straddle Sn (segs ++ new).
Proof.
  intros Hns Hn Hrows Habove Hcut g Hg. apply (committed_new _ _ _ _ _ _ _ Hn) in Hg as [Hg|Hg]; [by apply Hns|].
  right. intros x Hx. assert (x ∈ rows) as Hin by (apply (ns_rows _ _ _ _ _ Hn); eauto).
  rewrite Hrows in Hin. apply read_committed_elem in Hin as [Hin _].
  specialize (Habove x Hin). specialize (Hcut x Hin). lia.
Qed.

(** ** The whole persist *)

Lemma hot_above_pu {A} l (m : table_meta V) gone (real ideal : list (log_row A)) x pu :
  log_ok E l gone real ideal →
  (∀ c p, c ∈ tx_commit_log l → last_purged_seq m = Some p → ct_commit_seq_num c ≤ p → ct_tx_uuid c ∈ gone) →
  last_purged_seq m = Some pu → x ∈ hot_source None real (tx_commit_log l) → pu < commit_seq_num x.
Proof.
  intros [-> _ _ _] Hpd Hpu (u & c & [Hu _]%list_elem_of_filter & Hc & Htx & ->)%source_elem. simpl.
  destruct (decide (ct_commit_seq_num c ≤ pu)) as [Hle|]; [|lia]. destruct Hu. rewrite <- Htx. by eapply Hpd.
Qed.

Lemma header_uuid {A} target at_micros k (rows : list (src_row A)) c :
  rows ≠ [] → e_persist_uuid E target k ∈ ph_uuid <$> header_of target at_micros k rows c.
Proof. destruct rows; [done|]. intros _. by left. Qed.

Lemma uuids_persist {A} now target at_micros k (rows : list (src_row A)) segs new (headers pre post : list persist_header) u :
  (∀ u, u ∈ sg_uuid <$> segs → ∃ p i, p ∈ ph_uuid <$> headers ∧ u = e_segment_uuid E p i) →
  new_segments now target k rows new →
  (∀ p, p ∈ ph_uuid <$> headers → p ∈ ph_uuid <$> pre ++ header_of target at_micros k rows (Some now) ++ post) →
  u ∈ sg_uuid <$> segs ++ new →
  ∃ p i, p ∈ ph_uuid <$> pre ++ header_of target at_micros k rows (Some now) ++ post ∧ u = e_segment_uuid E p i.
Proof.
  intros Hold Hn Hsub. rewrite fmap_app. intros [Hu|(g & -> & Hg)%list_elem_of_fmap]%elem_of_app.
  - destruct (Hold u Hu) as (p & i & Hp & ->). eauto.
  - destruct (ns_uuid _ _ _ _ _ Hn g Hg) as (Hne & _ & -> & _). eexists _, _. split; [|done].
    rewrite !fmap_app, !elem_of_app. right; left. by apply header_uuid.
Qed.

Lemma snapshot_persist w gone now target mx us ds newU newD m' sn :
  let real := w_real w in let m := ts_meta (bs_table real) in let clog := tx_commit_log (bs_tx real) in
  Inv E value index_key w gone → purge_caught_up m →
  us = read_committed clog (ts_upserts (bs_table real)) (Some mx) →
  ds = read_committed clog (ts_deletes (bs_table real)) (Some mx) →
  new_segments now target UpsertLog us newU → new_segments now target DeleteLog ds newD →
  tm_upsert_segments m' = tm_upsert_segments m ++ newU → tm_delete_segments m' = tm_delete_segments m ++ newD →
  sn ∈ committed sn_commit_micros (tm_snapshots m) →
  snapshot_ok value index_key m' (historyU (w_ideal w)) (historyD (w_ideal w)) sn.
Proof.
  cbv zeta. intros Hi Hpcu Hus Hds HnU HnD HmU HmD Hsn.
  pose proof (inv_coherent _ _ _ _ _ Hi) as Hco. pose proof Hi as [_ _ _ HlU HlD _ _ _ _ _].
  specialize (Hpcu sn Hsn). destruct (co_snapshots _ _ _ _ _ _ Hco sn Hsn) as [Hr Hcut ? ? ? ? Hns1 Hns2].
  assert (∀ A (log id : list (log_row A)), log_ok E (bs_tx (w_real w)) gone log id →
    (∀ x, x ∈ hot_source None log (tx_commit_log (bs_tx (w_real w))) →
      stamp x ∈ stamps (historyU (w_ideal w)) (historyD (w_ideal w))) →
    ∀ x, x ∈ hot_source None log (tx_commit_log (bs_tx (w_real w))) → sn_commit_seq_num sn < commit_seq_num x) as Habove.
  { intros A log id Hl Hst x Hx. destruct (last_purged_seq (ts_meta (bs_table (w_real w)))) as [p|] eqn:Ep; simpl in Hpcu.
    - pose proof (hot_above_pu _ _ _ _ _ _ _ Hl (iv_purged _ _ _ _ _ Hi) Ep Hx). lia.
    - specialize (Hst x Hx). destruct (co_range _ _ _ _ _ _ Hco _ _ _ Hst). unfold SNAPSHOT_SEQ_GENESIS in *. lia. }
  assert (∀ x, x ∈ hot_source None (ts_upserts (bs_table (w_real w))) (tx_commit_log (bs_tx (w_real w))) →
      stamp x ∈ stamps (historyU (w_ideal w)) (historyD (w_ideal w))) as HsU.
  { intros x Hx. apply stamps_upsert. by apply (hot_sound _ _ _ _ (co_hot_upserts _ _ _ _ _ _ Hco)). }
  assert (∀ x, x ∈ hot_source None (ts_deletes (bs_table (w_real w))) (tx_commit_log (bs_tx (w_real w))) →
      stamp x ∈ stamps (historyU (w_ideal w)) (historyD (w_ideal w))) as HsD.
  { intros x Hx. apply stamps_delete. by apply (hot_sound _ _ _ _ (co_hot_deletes _ _ _ _ _ _ Hco)). }
  split; try done; [rewrite HmU|rewrite HmD].
  - eapply straddle_persist; [exact Hns1|done|exact Hus|by eapply Habove|]. intros x Hx. eapply Hcut. by apply HsU.
  - eapply straddle_persist; [exact Hns2|done|exact Hds|by eapply Habove|]. intros x Hx. eapply Hcut. by apply HsD.
Qed.

(** The metadata after a persist that advances the watermark to [candidate]. *)
Lemma meta_persist w gone now target candidate mx us ds newU newD m' :
  let real := w_real w in let m := ts_meta (bs_table real) in let clog := tx_commit_log (bs_tx real) in
  Inv E value index_key w gone → purge_caught_up m →
  us = read_committed clog (ts_upserts (bs_table real)) (Some mx) →
  ds = read_committed clog (ts_deletes (bs_table real)) (Some mx) →
  zmax_list ((commit_micros <$> us) ++ (commit_micros <$> ds)) = Some candidate →
  (∀ z, persist_wm m = Some z → z < candidate) →
  new_segments now target UpsertLog us newU → new_segments now target DeleteLog ds newD →
  m' = {| tm_persists := (tm_persists m ++ header_of target candidate UpsertLog us (Some now)) ++
                          header_of target candidate DeleteLog ds (Some now);
          tm_upsert_segments := tm_upsert_segments m ++ newU;
          tm_delete_segments := tm_delete_segments m ++ newD;
          tm_snapshots := tm_snapshots m; tm_purges := tm_purges m |} →
  meta_ok E value index_key m' (bs_tx real) (historyU (w_ideal w)) (historyD (w_ideal w)).
Proof.
  cbv zeta. intros Hi Hpcu Hus Hds Hcand Hlt HnU HnD Hm'.
  pose proof (inv_coherent _ _ _ _ _ Hi) as Hco. pose proof Hi as [Htx Hwf _ HlU HlD _ _ _ Hpd Hm].
  set (real := w_real w) in *. set (m := ts_meta (bs_table real)) in *. set (clog := tx_commit_log (bs_tx real)) in *.
  apply zmax_list_Some in Hcand as [Hcin Hcmax]. setoid_rewrite elem_of_app in Hcmax.
  assert (∀ x, x ∈ us → commit_micros x ≤ candidate) as HleU by (intros x Hx; apply Hcmax; left; by apply list_elem_of_fmap_2).
  assert (∀ x, x ∈ ds → commit_micros x ≤ candidate) as HleD by (intros x Hx; apply Hcmax; right; by apply list_elem_of_fmap_2).
  assert ((∃ c, c ∈ clog ∧ ct_commit_micros c = candidate) ∧ candidate < mx ∧ (us ≠ [] ∨ ds ≠ [])) as (Hcc & Hcmx & Hne).
  { apply elem_of_app in Hcin as [(x & -> & Hx)%list_elem_of_fmap|(x & -> & Hx)%list_elem_of_fmap].
    - assert (us ≠ []) by (intros Hn; rewrite Hn in Hx; by apply not_elem_of_nil in Hx).
      rewrite Hus in Hx. apply read_committed_elem in Hx as [(c & ? & ? & _)%source_commit ?]. eauto 8.
    - assert (ds ≠ []) by (intros Hn; rewrite Hn in Hx; by apply not_elem_of_nil in Hx).
      rewrite Hds in Hx. apply read_committed_elem in Hx as [(c & ? & ? & _)%source_commit ?]. eauto 8. }
  assert (persist_wm m' = Some candidate) as Hwm' by (rewrite Hm'; by apply persist_wm_next).
  assert (∀ r mi sq p, (r, mi, sq) ∈ stamps (historyU (w_ideal w)) (historyD (w_ideal w)) → last_purged_seq m = Some p →
            sq ≤ p → ∃ z, persist_wm m = Some z ∧ mi ≤ z) as Hpur.
  { intros r mi sq p Hst Hp Hsq. destruct (co_purge _ _ _ _ _ _ Hco p Hp) as (z & Hz & Hle). eauto. }
  assert (∀ r mi sq, (r, mi, sq) ∈ stamps (historyU (w_ideal w)) (historyD (w_ideal w)) → 0 ≤ sq) as Hpos.
  { intros r mi sq Hst. apply (co_range _ _ _ _ _ _ Hco _ _ _ Hst). }
  split; rewrite ?Hwm'; [by intros z [= <-]| | | | |]; rewrite Hm'; cbn [tm_upsert_segments tm_delete_segments tm_persists tm_snapshots].
  - eapply segs_persist; [apply Hm|apply Hco| | |exact Hus|done|done|done|done].
    + intros x Hx. eapply Hpos. by apply stamps_upsert.
    + intros x p Hx. eapply Hpur. by apply stamps_upsert.
  - eapply segs_persist; [apply Hm|apply Hco| | |exact Hds|done|done|done|done].
    + intros x Hx. eapply Hpos. by apply stamps_delete.
    + intros x p Hx. eapply Hpur. by apply stamps_delete.
  - intros u [Hu|Hu]%elem_of_app; rewrite <- app_assoc.
    + eapply uuids_persist; [|done| |exact Hu]; [intros u' Hu'; apply (mo_uuid _ _ _ _ _ _ _ Hm), elem_of_app; by left|].
      intros p Hp. rewrite fmap_app. apply elem_of_app. by left.
    + rewrite app_assoc, <- (app_nil_r (header_of _ _ DeleteLog _ _)).
      eapply uuids_persist; [|done| |exact Hu]; [intros u' Hu'; apply (mo_uuid _ _ _ _ _ _ _ Hm), elem_of_app; by right|].
      intros p Hp. rewrite !fmap_app, !elem_of_app. by left; left.
  - intros sn Hsn. destruct (mo_snapshots _ _ _ _ _ _ _ Hm sn Hsn) as (_ & Hsq & z & Hz & Hle).
    split_and!; [|done|]; [by eapply (snapshot_persist w gone now target mx us ds newU newD)|].
    specialize (Hlt z Hz). exists candidate. split; [done|lia].
  - apply (mo_purge _ _ _ _ _ _ _ Hm).
Qed.

(** What a persist that returns does: nothing, or the headers and segments of
    what it read, appended to the metadata. *)
Lemma persist_outcome w gone now target st out :
  let real := w_real w in let m := ts_meta (bs_table real) in let clog := tx_commit_log (bs_tx real) in
  let t := effective_target target now in
  let us := read_committed clog (ts_upserts (bs_table real)) (Some (sat_add t 1)) in
  let ds := read_committed clog (ts_deletes (bs_table real)) (Some (sat_add t 1)) in
  Inv E value index_key w gone → scheduled E real now (OpPersist target) →
  persist_locked (e_persist_uuid E) (e_segment_uuid E) (e_max_segment_bytes E) real now target = Ok (st, out) →
  (st = real ∧ (0 < t → ∀ candidate, zmax_list ((commit_micros <$> us) ++ (commit_micros <$> ds)) = Some candidate →
                ∃ z, persist_wm m = Some z ∧ candidate ≤ z)) ∨
  ∃ candidate newU newD,
    zmax_list ((commit_micros <$> us) ++ (commit_micros <$> ds)) = Some candidate ∧
    (∀ z, persist_wm m = Some z → z < candidate) ∧
    new_segments now t UpsertLog us newU ∧ new_segments now t DeleteLog ds newD ∧
    st = {| bs_tx := bs_tx real;
            bs_table := {| ts_upserts := ts_upserts (bs_table real); ts_deletes := ts_deletes (bs_table real);
              ts_write_sequence := ts_write_sequence (bs_table real); ts_tx_table_log := ts_tx_table_log (bs_table real);
              ts_meta := {| tm_persists := (tm_persists m ++ header_of t candidate UpsertLog us (Some now)) ++
                              header_of t candidate DeleteLog ds (Some now);
                            tm_upsert_segments := tm_upsert_segments m ++ newU;
                            tm_delete_segments := tm_delete_segments m ++ newD;
                            tm_snapshots := tm_snapshots m; tm_purges := tm_purges m |} |} |}.
Proof using All.
  cbv zeta. intros Hi [_ Hfresh]. unfold persist_locked. set (t := effective_target target now).
  set (m := ts_meta (bs_table (w_real w))) in *. pose proof (iv_meta _ _ _ _ _ Hi) as Hm. fold m in Hm.
  destruct (Z.leb_spec t 0); [intros [= <- _]; left; split; [done|lia]|]. cbv zeta.
  set (us := read_committed _ (ts_upserts _) _). set (ds := read_committed _ (ts_deletes _) _).
  destruct (zmax_list _) as [candidate|] eqn:Ec; [|intros [= <- _]; left; split; [done|by intros _ ? [=]]].
  destruct (match persist_wm m with Some last => candidate <=? last | None => false end) eqn:Eg.
  { intros [= <- _]. left. split; [done|]. intros _ ? [= <-]. destruct (persist_wm m) as [z|]; [|done]. exists z. zbool. done. }
  assert (∀ z, persist_wm m = Some z → z < candidate) as Hlt by (intros z Hz; rewrite Hz in Eg; by zbool).
  assert (∀ k i, e_segment_uuid E (e_persist_uuid E t k) i ∉
            (sg_uuid <$> tm_upsert_segments m) ++ (sg_uuid <$> tm_delete_segments m)) as Hnew.
  { intros k i (p & j & Hp & [<- _]%segment_inj)%(mo_uuid _ _ _ _ _ _ _ Hm). by apply (Hfresh k). }
  destruct (persist_kind _ _ _ _ _ _ UpsertLog us _ _) as [[h1 sU]|] eqn:EU; cbn [result_bind]; [|done].
  apply persist_kind_spec in EU as [-> (newU & -> & HnU)];
    [|apply Hfresh|intros i Hin; apply (Hnew UpsertLog i), elem_of_app; by left].
  destruct (persist_kind _ _ _ _ _ _ DeleteLog ds _ _) as [[h2 sD]|] eqn:ED; cbn [result_bind]; [|done].
  apply persist_kind_spec in ED as [-> (newD & -> & HnD)];
    [|rewrite fmap_app, not_elem_of_app; split; [apply Hfresh|]
     |intros i Hin; apply (Hnew DeleteLog i), elem_of_app; by right].
  2: { unfold header_of. clearbody us. destruct us; [apply not_elem_of_nil|].
       intros [_ ?]%list_elem_of_singleton%persist_inj. done. }
  rewrite flip_spec by apply Hfresh. intros [= <- _]. right. exists candidate, newU, newD. done.
Qed.

Lemma inv_persist w gone now target :
  Inv E value index_key w gone → tick w now → scheduled E (w_real w) now (OpPersist target) →
  Inv E value index_key
    {| w_real := match persist_locked (e_persist_uuid E) (e_segment_uuid E) (e_max_segment_bytes E)
                         (w_real w) now target with Ok (st, _) => st | Err _ => w_real w end;
       w_ideal := w_ideal w; w_now := now |} gone.
Proof using All.
  intros Hi Htick Hsch. destruct (persist_locked _ _ _ _ _ _) as [[st out]|] eqn:Ep; [|by apply inv_idle].
  apply (persist_outcome w gone) in Ep as [[-> _]|(candidate & newU & newD & Hc & Hlt & HnU & HnD & ->)]; [by apply inv_idle| |done|done].
  pose proof Hi as [_ _ _ HlU HlD _ _ Hgone Hpd Hm].
  apply (inv_lifecycle E value index_key w gone); cbn [bs_tx bs_table ts_upserts ts_deletes ts_write_sequence ts_meta]; try done.
  - intros tx Hin. eapply gone_mono; [by apply Hgone|done|apply tx_grew_refl|apply Htick|].
    intros p Hp. exists p. split; [exact Hp|lia].
  - eapply (meta_persist w gone now _ candidate); [done|apply Hsch|done..].
Qed.
End persist.
