(* ===== verification/SystemSnapshot.v ===== *)
(** * Snapshot preserves the system invariant

    The cold-only fold over the prior snapshot and the segments since it is the
    live state of the history up to the new watermark. *)

From S2P Require Import Prelude CoreTypes Watermarks ReadSnapshot Dialect MergeSql IndexSeek Plan SnapshotScan IndexSelect TxLog TableStore Chunker ReadPath Lifecycle ReadLemmas ReadData Tiers ReadCorrect System SystemInv SystemPersist.
From stdpp Require Import base numbers list option sets gmap sorting.

Open Scope Z_scope.

(** ** The window of a fold *)

Lemma cold_window_elem {A} from mx (log : list (src_row A)) x :
  x ∈ cold_source from (Some mx) None None log ↔
    x ∈ log ∧ (∀ f, from = Some f → f ≤ commit_micros x) ∧ commit_micros x < mx.
Proof.
  unfold cold_source. rewrite list_elem_of_filter. unfold cold_visibility_clause. simpl.
  rewrite !andb_true_iff, Z.ltb_lt. destruct from as [f|]; rewrite ?Z.leb_le; split.
  - intros H. destruct_and!. split_and!; [done|by intros ? [= <-]|done].
  - intros (? & Hf & ?). specialize (Hf f eq_refl). done.
  - intros H. destruct_and!. done.
  - intros (? & _ & ?). done.
Qed.

Section fold_kind.
Context {A : Type} (segs : list (segment_meta A)) (Hy : list (src_row A)) (z : Z) (cut : option Z).
Context (Hcold : cold_ok (Some z) segs Hy) (Hz : 0 < z < I64_MAX)
        (Hcut : ∀ Sn, cut = Some Sn → 0 ≤ Sn < I64_MAX)
        (Hrange : ∀ x, x ∈ Hy → 0 < commit_micros x < I64_MAX).

Definition fold_from : option Z := (λ Sn, sat_add Sn 1) <$> cut.
Definition fold_to : option Z := Some (sat_add z 1).
Definition fold_rows : list (src_row A) :=
  cold_source fold_from fold_to None None
    (cold_log (read_and_classify_persist_segments segs ((λ f, sat_sub f 1) <$> fold_from)
                 ((λ t, sat_sub t 1) <$> fold_to) None)).

Lemma fold_window g :
  persist_segment_overlap_clause ((λ f, sat_sub f 1) <$> fold_from) ((λ t, sat_sub t 1) <$> fold_to) None g = true ↔
    (∀ Sn, cut = Some Sn → Sn < @sg_max_tx_commit_micros A g) ∧ sg_min_tx_commit_micros g ≤ z.
Proof using Hcut Hz.
  rewrite overlap_true. unfold fold_from, fold_to. split.
  - intros (H1 & H2 & _). split.
    + intros Sn HS. rewrite HS in H1. specialize (Hcut Sn HS). specialize (H1 _ eq_refl). i64.
    + specialize (H2 _ eq_refl). i64.
  - intros [H1 H2]. split_and!; [|intros b [= <-]; i64|done].
    intros a Ha. destruct cut as [Sn|]; simplify_eq/=. specialize (Hcut Sn eq_refl). specialize (H1 Sn eq_refl). i64.
Qed.

Lemma fold_rows_elem x :
  x ∈ fold_rows ↔ x ∈ Hy ∧ (∀ Sn, cut = Some Sn → Sn < commit_micros x) ∧ commit_micros x ≤ z.
Proof using Hcold Hz Hcut Hrange.
  unfold fold_rows, fold_to at 1. rewrite cold_window_elem, cold_log_elem by apply Hcold. split.
  - intros ((g & Hg & Hx & Ho) & Hf & Hlt). split_and!; [by eapply (cold_sound _ _ _ Hcold)| |i64].
    intros Sn HS. specialize (Hcut Sn HS). unfold fold_from in Hf. rewrite HS in Hf. specialize (Hf _ eq_refl). i64.
  - intros (Hx & Hlo & Hle). destruct (cold_complete _ _ _ Hcold x z Hx eq_refl Hle) as (g & Hg & Hxg).
    destruct (cold_bounds _ _ _ Hcold g Hg x Hxg) as [Hb _]. split_and!.
    + exists g. split_and!; [done|done|]. apply fold_window. split; [|lia]. intros Sn HS. specialize (Hlo Sn HS). lia.
    + intros f. unfold fold_from. destruct cut as [Sn|]; [|done]. intros [= <-].
      specialize (Hcut Sn eq_refl). specialize (Hlo Sn eq_refl). i64.
    + i64.
Qed.
End fold_kind.

(** ** The plan-order snapshot stream *)

Lemma by_plan_stream_spec {V} (index_key : Z → Z * V → list cell) may_match schema (sp : SnapshotPlan V) ex tuning :
  (∀ g, g ∈ sp_segments sp → seg_wf index_key g) → segment_order_of tuning = ByPlan →
  NoDup (fst <$> mbind snapshot_rows (sp_segments sp)) →
  ∃ rows, snapshot_segment_stream may_match schema sp None {| identity := None; accelerators := None |} ex tuning = Ok rows ∧
    NoDup (fst <$> rows) ∧ ∀ x, x ∈ rows ↔ x ∈ mbind snapshot_rows (sp_segments sp) ∧ x.1 ∉ ex.
Proof.
  intros Hwf Hord Hnd. unfold snapshot_segment_stream. rewrite Hord.
  assert ((if (snapshot_prune_min_segments tuning <? length (sp_segments sp))%nat then None else None) =
          @None (Z * V → bool)) as -> by by destruct (_ <? _)%nat. simpl.
  destruct (sp_segments sp) as [|g gs] eqn:E.
  { exists []. split_and!; [done|constructor|]. intros x. split; [by intros ?%not_elem_of_nil|].
    by intros [?%not_elem_of_nil _]. }
  destruct (scan_segments_spec index_key schema None (g :: gs)) as (rows & -> & Hrs & Hrc); [done|done|].
  eexists. split; [done|]. unfold filter_excluded_row_uuids, build_cold_snapshot_scan_plain. split.
  - apply NoDup_fmap_filter, NoDup_fmap_filter. by eapply NoDup_fst_sublist.
  - intros x. rewrite !list_elem_of_filter. split.
    + intros (? & _ & Hx). split; [by eapply elem_of_sublist|done].
    + intros [Hx ?]. split_and!; [done|done|]. by apply Hrc.
Qed.

(** ** The fold *)

Section fold.
Context {V : Type} (value : Z → Z * V → cell) (index_key : Z → Z * V → list cell).
Context (m : table_meta V) (h : hot_db V) (HU : list (src_row V)) (HD : list (src_row unit)) (z : Z).
Context (Hco : coherent value index_key m h HU HD) (Hwm : persist_wm m = Some z)
        (HsU : segs_ok (Some z) (tm_upsert_segments m) HU) (HsD : segs_ok (Some z) (tm_delete_segments m) HD).
Context (prior : option (snapshot_meta V))
        (Hprior : ∀ sn, prior = Some sn → snapshot_ok value index_key m HU HD sn ∧ sn_snapshotted_at_micros sn < z).

Definition prior_cut : option Z := sn_snapshotted_at_micros <$> prior.
Definition prior_seq : Z := default SNAPSHOT_SEQ_GENESIS (sn_commit_seq_num <$> prior).
Definition prior_rows : list (Z * V) :=
  match prior with Some sn => mbind snapshot_rows (sn_segments sn) | None => [] end.

Definition fold_watermark : Z :=
  compute_snapshot_seq_watermark (sn_commit_seq_num <$> prior)
    (option_list (max_persisted_segment_seq_for_window m
       ((λ s, sat_add (sn_snapshotted_at_micros s) 1) <$> prior) (Some (sat_add z 1)))).

Definition foldU : list (src_row V) := fold_rows (tm_upsert_segments m) z prior_cut.
Definition foldD : list (src_row unit) := fold_rows (tm_delete_segments m) z prior_cut.

Lemma z_range : 0 < z < I64_MAX.
Proof using Hco Hwm. apply (co_wm _ _ _ _ _ _ Hco z Hwm). Qed.

Lemma prior_range Sn : prior_cut = Some Sn → 0 ≤ Sn < I64_MAX.
Proof using Hprior.
  unfold prior_cut. destruct prior as [sn|]; [|done]. intros [= <-].
  destruct (Hprior sn eq_refl) as [Hok _]. apply (sn_range _ _ _ _ _ _ Hok).
Qed.

Lemma prior_split r mi sq : (r, mi, sq) ∈ stamps HU HD →
  sq ≤ prior_seq ↔ ∃ Sn, prior_cut = Some Sn ∧ mi ≤ Sn.
Proof using Hprior Hco.
  intros Hst. unfold prior_seq, prior_cut. destruct prior as [sn|]; simpl.
  - destruct (Hprior sn eq_refl) as [Hok _]. rewrite <- (sn_cut _ _ _ _ _ _ Hok _ _ _ Hst).
    split; [eauto|]. by intros (? & [= <-] & ?).
  - destruct (co_range _ _ _ _ _ _ Hco _ _ _ Hst). unfold SNAPSHOT_SEQ_GENESIS. split; [lia|].
    by intros (? & ? & _).
Qed.

Lemma foldU_elem x :
  x ∈ foldU ↔ x ∈ HU ∧ (∀ Sn, prior_cut = Some Sn → Sn < commit_micros x) ∧ commit_micros x ≤ z.
Proof using Hco Hwm HsU Hprior.
  apply fold_rows_elem; [apply HsU|apply z_range|apply prior_range|].
  intros y Hy. apply (co_range _ _ _ _ _ _ Hco _ _ _ (stamps_upsert HU HD y Hy)).
Qed.

Lemma foldD_elem x :
  x ∈ foldD ↔ x ∈ HD ∧ (∀ Sn, prior_cut = Some Sn → Sn < commit_micros x) ∧ commit_micros x ≤ z.
Proof using Hco Hwm HsD Hprior.
  apply fold_rows_elem; [apply HsD|apply z_range|apply prior_range|].
  intros y Hy. apply (co_range _ _ _ _ _ _ Hco _ _ _ (stamps_delete HU HD y Hy)).
Qed.

(** ** The watermark of the fold *)

Definition in_window {A} (g : segment_meta A) : Prop :=
  (∀ Sn, prior_cut = Some Sn → Sn < sg_max_tx_commit_micros g) ∧ sg_min_tx_commit_micros g ≤ z.

Definition folded_seq (n : Z) : Prop :=
  (∃ g, g ∈ committed sg_commit_micros (tm_upsert_segments m) ∧ in_window g ∧ sg_max_commit_seq_num g = n) ∨
  (∃ g, g ∈ committed sg_commit_micros (tm_delete_segments m) ∧ in_window g ∧ sg_max_commit_seq_num g = n).

Lemma fold_watermark_spec :
  prior_seq ≤ fold_watermark ∧ (∀ n, folded_seq n → n ≤ fold_watermark) ∧
  (fold_watermark = prior_seq ∨ fold_watermark = SNAPSHOT_SEQ_GENESIS ∨ folded_seq fold_watermark).
Proof using Hco Hwm Hprior.
  unfold fold_watermark, compute_snapshot_seq_watermark. fold prior_seq.
  pose proof (λ A, @fold_window A z prior_cut z_range prior_range) as Hw.
  assert (∀ n, folded_seq n ↔ n ∈
    (sg_max_commit_seq_num <$> filter (λ s, persist_segment_overlap_clause
        ((λ f, sat_sub f 1) <$> fold_from prior_cut) ((λ t, sat_sub t 1) <$> fold_to z) None s = true)
        (committed sg_commit_micros (tm_upsert_segments m)))
    ++ (sg_max_commit_seq_num <$> filter (λ s, persist_segment_overlap_clause
        ((λ f, sat_sub f 1) <$> fold_from prior_cut) ((λ t, sat_sub t 1) <$> fold_to z) None s = true)
        (committed sg_commit_micros (tm_delete_segments m)))) as Hiff.
  { intros n. rewrite elem_of_app, !list_elem_of_fmap. unfold folded_seq, in_window.
    setoid_rewrite list_elem_of_filter. setoid_rewrite (Hw V). setoid_rewrite (Hw unit).
    unfold committed. setoid_rewrite list_elem_of_filter.
    clear. split; (intros [(g & H)|(g & H)]; [left|right]; exists g; destruct_and!; done). }
  assert (fold_from prior_cut = (λ s, sat_add (sn_snapshotted_at_micros s) 1) <$> prior) as Hf
    by (unfold fold_from, prior_cut; by destruct prior).
  unfold max_persisted_segment_seq_for_window. rewrite <- Hf. fold (fold_to z).
  destruct (zmax_list (_ ++ _)) as [mx|] eqn:Em; simpl.
  - apply zmax_list_Some in Em as [Hin Hmax]. split_and!; [lia| |].
    + intros n Hn. apply Hiff in Hn. specialize (Hmax n Hn). lia.
    + apply Hiff in Hin. destruct (Z.max_spec prior_seq mx) as [[_ ->]|[_ ->]]; auto.
  - apply zmax_list_None in Em. split_and!; [lia| |].
    + intros n Hn. apply Hiff in Hn. rewrite Em in Hn. by apply not_elem_of_nil in Hn.
    + destruct (Z.max_spec prior_seq SNAPSHOT_SEQ_GENESIS) as [[_ ->]|[_ ->]]; auto.
Qed.

Lemma folded_row {A} (segs : list (segment_meta A)) Hy x :
  segs_ok (Some z) segs Hy → x ∈ Hy → commit_micros x ≤ z →
  (∀ Sn, prior_cut = Some Sn → Sn < commit_micros x) →
  ∃ g, g ∈ committed sg_commit_micros segs ∧ in_window g ∧ commit_seq_num x ≤ sg_max_commit_seq_num g.
Proof using.
  intros [Hc _ _ _] Hx Hle Hlo. destruct (cold_complete _ _ _ Hc x z Hx eq_refl Hle) as (g & Hg & Hxg).
  destruct (cold_bounds _ _ _ Hc g Hg x Hxg) as [Hb1 Hb2]. exists g. split_and!; [done| |lia].
  split; [|lia]. intros Sn HS. specialize (Hlo Sn HS). lia.
Qed.

Lemma folded_witness {A} (segs : list (segment_meta A)) Hy g :
  segs_ok (Some z) segs Hy → g ∈ committed sg_commit_micros segs →
  ∃ x, x ∈ Hy ∧ commit_seq_num x = sg_max_commit_seq_num g ∧ commit_micros x ≤ z.
Proof using.
  intros [Hc _ Hw Hm] Hg. pose proof Hg as [_ Hin]%list_elem_of_filter.
  destruct (Hm g Hin) as (x & Hx & Hsq). destruct (Hw g Hin) as (? & [= <-] & Hle).
  exists x. split_and!; [by eapply (cold_sound _ _ _ Hc)|done|].
  destruct (cold_bounds _ _ _ Hc g Hg x Hx) as [? _]. lia.
Qed.

(** The watermark is the exact position of the cut. *)
Lemma fold_cut r mi sq : (r, mi, sq) ∈ stamps HU HD → mi ≤ z ↔ sq ≤ fold_watermark.
Proof using Hco Hwm HsU HsD Hprior.
  intros Hst. destruct fold_watermark_spec as (Hge & Hmax & Hcase).
  assert (∀ x, stamp x ∈ stamps HU HD → commit_micros x ≤ z → sq ≤ @commit_seq_num V x → mi ≤ z) as Hdown.
  { intros x Hx Hxz Hle. destruct (decide (mi ≤ z)) as [|Hn]; [done|].
    destruct (co_mono _ _ _ _ _ _ Hco _ _ _ _ _ _ Hx Hst) as [_ Hlt]. specialize (Hlt ltac:(lia)). lia. }
  assert (∀ x, stamp x ∈ stamps HU HD → commit_micros x ≤ z → sq ≤ @commit_seq_num unit x → mi ≤ z) as HdownD.
  { intros x Hx Hxz Hle. destruct (decide (mi ≤ z)) as [|Hn]; [done|].
    destruct (co_mono _ _ _ _ _ _ Hco _ _ _ _ _ _ Hx Hst) as [_ Hlt]. specialize (Hlt ltac:(lia)). lia. }
  split.
  - intros Hle. destruct (decide (sq ≤ prior_seq)) as [|Hn]; [lia|].
    assert (∀ Sn, prior_cut = Some Sn → Sn < mi) as Hlo.
    { intros Sn HS. destruct (decide (mi ≤ Sn)) as [Hm|]; [|lia]. destruct Hn.
      apply (prior_split r mi sq Hst). eauto. }
    apply elem_of_app in Hst as [(x & Hx & Hin)%list_elem_of_fmap|(x & Hx & Hin)%list_elem_of_fmap];
      unfold stamp in Hx; simplify_eq.
    + destruct (folded_row _ _ x HsU Hin Hle Hlo) as (g & Hg & Hwin & Hsq).
      assert (sg_max_commit_seq_num g ≤ fold_watermark) by (apply Hmax; left; eauto). lia.
    + destruct (folded_row _ _ x HsD Hin Hle Hlo) as (g & Hg & Hwin & Hsq).
      assert (sg_max_commit_seq_num g ≤ fold_watermark) by (apply Hmax; right; eauto). lia.
  - intros Hle. destruct Hcase as [Hc|[Hc|[(g & Hg & _ & Hc)|(g & Hg & _ & Hc)]]].
    + rewrite Hc in Hle. apply (prior_split r mi sq Hst) in Hle as (Sn & HS & Hm).
      unfold prior_cut in HS. destruct prior as [sn|]; simplify_eq/=. destruct (Hprior sn eq_refl). lia.
    + destruct (co_range _ _ _ _ _ _ Hco _ _ _ Hst). unfold SNAPSHOT_SEQ_GENESIS in *. lia.
    + destruct (folded_witness _ _ g HsU Hg) as (x & Hx & Hsq & Hxz).
      apply (Hdown x); [by apply stamps_upsert|done|lia].
    + destruct (folded_witness _ _ g HsD Hg) as (x & Hx & Hsq & Hxz).
      apply (HdownD x); [by apply stamps_delete|done|lia].
Qed.

Lemma fold_seq_range : SNAPSHOT_SEQ_GENESIS ≤ fold_watermark ∧
  ∀ n, (∀ r mi sq, (r, mi, sq) ∈ stamps HU HD → sq < n) → SNAPSHOT_SEQ_GENESIS < n →
    (∀ sn, prior = Some sn → sn_commit_seq_num sn < n) → fold_watermark < n.
Proof using Hco Hwm HsU HsD Hprior.
  destruct fold_watermark_spec as (Hge & Hmax & Hcase). split.
  - unfold fold_watermark, compute_snapshot_seq_watermark. destruct (zmax_list _); simpl; unfold SNAPSHOT_SEQ_GENESIS;
      destruct prior as [sn|]; simpl; try lia; destruct (Hprior sn eq_refl) as [Hok _];
      pose proof (proj2 (sn_range _ _ _ _ _ _ Hok)) as Hr; unfold SNAPSHOT_SEQ_GENESIS in Hr; lia.
  - intros n Hn Hgen Hpn. destruct Hcase as [->|[->|[(g & Hg & _ & <-)|(g & Hg & _ & <-)]]].
    + unfold prior_seq. destruct prior as [sn|]; [by apply Hpn|done].
    + done.
    + destruct (folded_witness _ _ g HsU Hg) as (x & Hx & <- & _). eapply Hn. by apply stamps_upsert.
    + destruct (folded_witness _ _ g HsD Hg) as (x & Hx & <- & _). eapply Hn. by apply stamps_delete.
Qed.

(** ** The folded versions on top of the prior baseline *)

Lemma fold_all {A} (Hy : list (src_row A)) (C : list (src_row A)) :
  (∀ x, x ∈ Hy → stamp x ∈ stamps HU HD) →
  (∀ x, x ∈ C ↔ x ∈ Hy ∧ (∀ Sn, prior_cut = Some Sn → Sn < commit_micros x) ∧ commit_micros x ≤ z) →
  same_elems (C ++ up_to prior_seq Hy) (up_to fold_watermark Hy).
Proof using Hco Hwm HsU HsD Hprior.
  intros Hst HC x. unfold up_to. rewrite elem_of_app, HC, !list_elem_of_filter. split.
  - intros [(Hx & _ & Hle)|[Hle Hx]]; (split; [|done]).
    + by apply (fold_cut _ _ _ (Hst x Hx)).
    + pose proof (proj1 fold_watermark_spec). lia.
  - intros [Hle Hx]. destruct (decide (commit_seq_num x ≤ prior_seq)) as [|Hn]; [by right|left].
    split_and!; [done| |by apply (fold_cut _ _ _ (Hst x Hx))].
    intros Sn HS. destruct (decide (commit_micros x ≤ Sn)) as [Hm|]; [|lia]. destruct Hn.
    apply (prior_split _ _ _ (Hst x Hx)). eauto.
Qed.

Lemma fold_above : tier_above foldU foldD (up_to prior_seq HU) (up_to prior_seq HD).
Proof using Hco Hwm HsU HsD Hprior.
  intros r m1 s1 m2 s2 H1 H2.
  assert ((r, m1, s1) ∈ stamps HU HD ∧ ∀ Sn, prior_cut = Some Sn → Sn < m1) as [Hst1 Hlo].
  { apply elem_of_app in H1 as [(x & Hx & Hin)%list_elem_of_fmap|(x & Hx & Hin)%list_elem_of_fmap];
      unfold stamp in Hx; simplify_eq.
    - apply foldU_elem in Hin as (Hin & Hlo & _). split; [by apply stamps_upsert|done].
    - apply foldD_elem in Hin as (Hin & Hlo & _). split; [by apply stamps_delete|done]. }
  assert ((r, m2, s2) ∈ stamps HU HD ∧ s2 ≤ prior_seq) as [Hst2 Hle].
  { apply elem_of_app in H2 as [(x & Hx & [? Hin]%list_elem_of_filter)%list_elem_of_fmap
                               |(x & Hx & [? Hin]%list_elem_of_filter)%list_elem_of_fmap];
      unfold stamp in Hx; simplify_eq; (split; [|done]); [by apply stamps_upsert|by apply stamps_delete]. }
  pose proof (proj1 (prior_split _ _ _ Hst2) Hle) as (Sn & HS & Hm2). specialize (Hlo Sn HS).
  split; [|lia]. apply (co_mono _ _ _ _ _ _ Hco _ _ _ _ _ _ Hst2 Hst1). lia.
Qed.

Lemma fold_keys : keys_unique OrderCommitSeqNum (foldU ++ up_to prior_seq HU).
Proof using Hco Hwm HsU HsD Hprior.
  assert (∀ x, x ∈ foldU ++ up_to prior_seq HU → x ∈ HU) as Hin.
  { intros x [[? _]%foldU_elem|[_ ?]%list_elem_of_filter]%elem_of_app; done. }
  intros x y Hx Hy. apply (co_keys _ _ _ _ _ _ Hco); by apply Hin.
Qed.

Lemma prior_baseline : baseline_of (up_to prior_seq HU) (up_to prior_seq HD) prior_rows.
Proof using Hco Hprior.
  unfold prior_seq, prior_rows. destruct prior as [sn|]; simpl.
  - destruct (Hprior sn eq_refl) as [Hok _]. apply (sn_baseline _ _ _ _ _ _ Hok).
  - intros r v. split; [by intros ?%not_elem_of_nil|]. intros (u & [[Hsq Hu]%list_elem_of_filter _] & _).
    destruct (co_range _ _ _ _ _ _ Hco _ _ _ (stamps_upsert HU HD u Hu)). unfold SNAPSHOT_SEQ_GENESIS in *. lia.
Qed.

Lemma fold_live r v :
  (∃ u, live (up_to fold_watermark HU) (up_to fold_watermark HD) u ∧ row_uuid u = r ∧ cols u = v) ↔
  (∃ u, live foldU foldD u ∧ row_uuid u = r ∧ cols u = v) ∨ ((r, v) ∈ prior_rows ∧ ¬ touched foldU foldD r).
Proof using Hco Hwm HsU HsD Hprior.
  rewrite <- (overlay_live foldU foldD _ _ _ r v fold_keys (tier_above_dominates _ _ _ _ fold_above) prior_baseline).
  setoid_rewrite (fold_all HU foldU (stamps_upsert HU HD) foldU_elem).
  by setoid_rewrite (fold_all HD foldD (stamps_delete HU HD) foldD_elem).
Qed.

(** ** The fold's stream *)

Notation fold_plan := (assemble_cold_only_plan m z prior).

Lemma nil_resolves (U : list (src_row V)) (D : list (src_row unit)) : U = [] → D = [] → resolves U D [].
Proof using.
  intros -> ->. split; [constructor|by intros ? ?%not_elem_of_nil|].
  intros r [(? & ?%not_elem_of_nil & _)|(? & ?%not_elem_of_nil & _)]; done.
Qed.

Lemma fold_resolves : resolves foldU foldD (resolve_cold fold_plan None None).
Proof using.
  unfold resolve_cold, assemble_cold_only_plan, read_persist_segments_for_window, foldU, foldD, fold_rows.
  assert (fold_from prior_cut = (λ s, sat_add (sn_snapshotted_at_micros s) 1) <$> prior) as ->
    by (unfold fold_from, prior_cut; by rewrite <- option_fmap_compose). fold (fold_to z).
  destruct (read_and_classify_persist_segments (tm_upsert_segments m)) as [|p1 l1],
    (read_and_classify_persist_segments (tm_delete_segments m)) as [|p2 l2]; cbn [is_empty andb cold_storage persist];
    first [by apply nil_resolves | exact (two_arm_ok (DL := DfDialect_laws) OrderCommitSeqNum _ _)].
Qed.

Lemma fold_composed : resolves foldU foldD (union_latest [] (resolve_cold fold_plan None None)).
Proof using.
  apply (union_latest_resolves [] [] foldU foldD); [by apply nil_resolves|apply fold_resolves|].
  by intros r m1 s1 m2 s2 ?%not_elem_of_nil.
Qed.

Lemma fold_snapshot_stream may_match schema ex :
  ∃ snap, plan_snapshot_stream may_match schema fold_plan None {| identity := None; accelerators := None |} ex
            {| snapshot_prune_min_segments := 0; segment_order_of := ByPlan |} = Ok snap ∧
    NoDup (fst <$> snap) ∧ ∀ x, x ∈ snap ↔ x ∈ prior_rows ∧ x.1 ∉ ex.
Proof using Hprior.
  unfold plan_snapshot_stream, assemble_cold_only_plan, prior_rows.
  destruct (read_persist_segments_for_window _ _ _ _) as [us ds]. cbn [cold_storage snapshot mbind option_bind].
  destruct prior as [sn|]; simpl.
  - destruct (Hprior sn eq_refl) as [Hok _]. rewrite <- (mbind_nonempty (sn_segments sn)).
    apply (by_plan_stream_spec index_key); simpl; [|done|].
    + intros g [_ Hg]%list_elem_of_filter. by apply (sn_segs_wf _ _ _ _ _ _ Hok).
    + rewrite mbind_nonempty. apply (sn_nodup _ _ _ _ _ _ Hok).
  - exists []. split_and!; [done|constructor|]. intros x. split; [by intros ?%not_elem_of_nil|by intros [?%not_elem_of_nil _]].
Qed.

Lemma fold_stream may_match schema db :
  ∃ rows, stream_all_cold may_match
    {| rq_plan := fold_plan; rq_db := db; rq_schema := schema; rq_snapshot := AsOfMicros z;
       rq_filter := None; rq_seeks := None;
       rq_tuning := {| snapshot_prune_min_segments := 0; segment_order_of := ByPlan |} |} = Ok rows ∧
    NoDup (fst <$> rows) ∧ baseline_of (up_to fold_watermark HU) (up_to fold_watermark HD) rows.
Proof using Hco Hwm HsU HsD Hprior.
  set (out := union_latest [] (resolve_cold fold_plan None None)).
  set (ex := list_to_set (rr_row_uuid <$> out) : gset Z).
  destruct (fold_snapshot_stream may_match schema ex) as (snap & Hsnap & Hnd & Hel).
  pose proof fold_composed as Hres. fold out in Hres. exists (deliver None out ++ snap).
  assert (∀ r, r ∈ ex ↔ touched foldU foldD r) as Hex.
  { intros r. unfold ex. rewrite elem_of_list_to_set. apply (resolve_touched _ _ _ _ _ Hres). }
  split_and!.
  - unfold stream_all_cold, resolve_log_tiers, build_cold_resolved_and_exclusion_set, compose_resolved_and_exclusion.
    assert (hot_storage fold_plan = None) as Hh by by unfold assemble_cold_only_plan; destruct (read_persist_segments_for_window _ _ _ _).
    assert (base_cold_storage fold_plan = None) as Hb by by unfold assemble_cold_only_plan; destruct (read_persist_segments_for_window _ _ _ _).
    cbn [rq_plan rq_seeks rq_filter rq_schema rq_snapshot rq_tuning identity_row_uuids]. rewrite Hh.
    unfold fold_base_if_present, cold_commit_seq_upper. rewrite Hb. simpl plan_commit_seq_upper. fold out.
    cbn [lt_resolved lt_exclusion_set lt_identity_row_uuids user_seek_specs]. unfold collect_row_uuids. fold ex.
    by rewrite Hsnap.
  - rewrite fmap_app. apply NoDup_app. split_and!; [by eapply deliver_nodup| |done].
    intros r (x & -> & Hx)%list_elem_of_fmap (y & Heq & Hy)%list_elem_of_fmap.
    apply Hel in Hy as [_ Hy]. apply Hy. rewrite <- Heq. apply Hex. by eapply deliver_touched.
  - intros r v. rewrite fold_live, elem_of_app, Hel.
    rewrite (deliver_elem None foldU foldD out r v); [|intros x y Hx Hy; apply fold_keys; apply elem_of_app; by left|done].
    rewrite Hex. simpl. tauto.
Qed.
End fold.

(** ** The whole snapshot *)

Section snapshot.
Context {V : Type} `{L : SnapshotLayout V}.
Context (E : env V) (value : Z → Z * V → cell) (index_key : Z → Z * V → list cell).
Context `{!SnapshotLayoutLaws L value index_key}.
Context (index_keys : ∀ def x, def ∈ e_indexes E →
  index_key (index_uuid def) x = (λ c, value c x) <$> index_key_columns def).
Implicit Types (w : world V).

Lemma window_at_wm (st : branch_state V) now as_of u prior :
  scheduled E st now (OpSnapshot as_of) →
  compute_snapshot_window (ts_meta (bs_table st)) as_of = Some (u, prior) →
  persist_wm (ts_meta (bs_table st)) = Some u ∧
  (∀ sn, prior = Some sn → sn ∈ committed sn_commit_micros (tm_snapshots (ts_meta (bs_table st))) ∧
     sn_snapshotted_at_micros sn < u).
Proof.
  unfold compute_snapshot_window. intros Hs. set (m := ts_meta (bs_table st)) in *.
  destruct (persist_wm m) as [z|] eqn:Ez; [|by destruct as_of].
  destruct (Z.ltb_spec 0 z); [|by destruct as_of].
  assert (match as_of with Some t => Some (Z.min t z) | None => Some z end = Some z) as ->.
  { destruct as_of as [t|]; [|done]. f_equal. simpl in Hs. specialize (Hs z Ez). lia. }
  destruct (read_snapshot_segments_for_table m None None) as [sn|] eqn:Ep.
  - destruct (Z.leb_spec z (sn_snapshotted_at_micros sn)); [done|]. intros [= <- <-]. split; [done|].
    intros sn' [= <-]. split; [|lia]. by apply pick_snapshot_Some in Ep as [? _].
  - intros [= <- <-]. done.
Qed.

Lemma no_straddle_wm {A} z (segs : list (segment_meta A)) Hy : segs_ok (Some z) segs Hy → no_straddle z segs.
Proof.
  intros [_ _ Hw _] g [_ Hg]%list_elem_of_filter. left. by destruct (Hw g Hg) as (? & [= <-] & ?).
Qed.

Lemma meta_snapshot w gone now z prior rows durable m' :
  let m := ts_meta (bs_table (w_real w)) in
  let sn := {| sn_uuid := e_snapshot_uuid E z; sn_snapshotted_at_micros := z; sn_commit_seq_num := fold_watermark m z prior;
               sn_segments := lay_out (e_indexes E) rows; sn_indexes := e_indexes E;
               sn_durable := durable; sn_commit_micros := Some now |} in
  Inv E value index_key w gone → persist_wm m = Some z →
  (∀ s, prior = Some s → s ∈ committed sn_commit_micros (tm_snapshots m) ∧ sn_snapshotted_at_micros s < z) →
  NoDup (fst <$> rows) →
  baseline_of (up_to (fold_watermark m z prior) (historyU (w_ideal w))) (up_to (fold_watermark m z prior) (historyD (w_ideal w))) rows →
  m' = {| tm_persists := tm_persists m; tm_upsert_segments := tm_upsert_segments m;
          tm_delete_segments := tm_delete_segments m; tm_snapshots := tm_snapshots m ++ [sn]; tm_purges := tm_purges m |} →
  meta_ok E value index_key m' (bs_tx (w_real w)) (historyU (w_ideal w)) (historyD (w_ideal w)).
Proof using All.
  cbv zeta. intros Hi Hz Hprior Hnd Hbase Hm'. pose proof (inv_coherent _ _ _ _ _ Hi) as Hco.
  pose proof Hi as [Htx Hwf _ _ _ _ _ _ _ [Hwm Hu Hd Huuid Hsn Hpu]]. set (m := ts_meta (bs_table (w_real w))) in *.
  assert (tx_wf (bs_tx (w_ideal w))) as Hwfi by by rewrite Htx.
  rewrite Hz in Hu, Hd.
  assert (∀ s, prior = Some s → snapshot_ok value index_key m (historyU (w_ideal w)) (historyD (w_ideal w)) s ∧
            sn_snapshotted_at_micros s < z) as Hpr.
  { intros s Hs. destruct (Hprior s Hs) as [Hin ?]. split; [|done]. by apply Hsn. }
  destruct (fold_seq_range value index_key m _ _ _ z Hco Hz Hu Hd prior Hpr) as [Hgen Hlt].
  assert (persist_wm m' = Some z) as Hz' by (rewrite Hm'; exact Hz).
  split; rewrite ?Hz', ?Hm'; simpl; try done; [by intros p [= <-]; apply Hwm| |].
  - intros sn. unfold committed. rewrite filter_app, elem_of_app. intros [Hin|Hin].
    { destruct (Hsn sn Hin) as ([? ? ? ? ? ? ? ?] & ? & p & Hp & ?). split_and!; [by split|done|].
      exists p. split; [congruence|done]. }
    rewrite filter_cons_True in Hin by (by eexists). apply list_elem_of_singleton in Hin as ->. simpl. split_and!.
    + assert (0 < z < I64_MAX) by apply (co_wm _ _ _ _ _ _ Hco z Hz). split; simpl.
      * lia.
      * intros r mi sq. apply (fold_cut value index_key m _ _ _ z Hco Hz Hu Hd prior Hpr).
      * intros r v. rewrite (lay_out_rows (e_indexes E) rows). apply Hbase.
      * by rewrite (lay_out_rows (e_indexes E) rows).
      * apply index_keys.
      * intros g Hg. by eapply lay_out_wf.
      * by eapply no_straddle_wm.
      * by eapply no_straddle_wm.
    + apply Hlt.
      * intros r mi sq Hst. rewrite <- Htx. apply (stamps_range _ r mi sq Hwfi Hst).
      * pose proof (wf_counter _ Hwf). unfold SNAPSHOT_SEQ_GENESIS. lia.
      * intros s Hs. by apply Hsn, Hprior.
    + exists z. split; [done|lia].
  - intros pu Hp. destruct (Hpu pu Hp) as (sn & Hin & <-). exists sn. split; [|done].
    unfold committed. rewrite filter_app, elem_of_app. by left.
Qed.

Lemma inv_snapshot w gone now as_of :
  Inv E value index_key w gone → tick w now → scheduled E (w_real w) now (OpSnapshot as_of) →
  Inv E value index_key
    {| w_real := match snapshot_locked (e_snapshot_uuid E) (e_schema E) (e_indexes E) (e_density E) (e_may_match E)
                         (w_real w) now as_of with Ok (st, _) => st | Err _ => w_real w end;
       w_ideal := w_ideal w; w_now := now |} gone.
Proof using All.
  intros Hi Htick Hs. unfold snapshot_locked. set (m := ts_meta (bs_table (w_real w))).
  destruct (compute_snapshot_window m as_of) as [[z prior]|] eqn:Ew; [|by apply inv_idle].
  destruct (window_at_wm _ _ _ _ _ Hs Ew) as [Hz Hprior]. cbv zeta.
  pose proof (inv_coherent _ _ _ _ _ Hi) as Hco. pose proof Hi as [_ _ _ HlU HlD _ _ Hgone Hpd Hm].
  assert (∀ s, prior = Some s → snapshot_ok value index_key m (historyU (w_ideal w)) (historyD (w_ideal w)) s ∧
            sn_snapshotted_at_micros s < z) as Hpr.
  { intros s Hin. destruct (Hprior s Hin). split; [|done]. by apply (mo_snapshots _ _ _ _ _ _ _ Hm). }
  pose proof (mo_upserts _ _ _ _ _ _ _ Hm) as Hu. pose proof (mo_deletes _ _ _ _ _ _ _ Hm) as Hd.
  fold m in Hz, Hu, Hd. rewrite Hz in Hu, Hd.
  destruct (fold_stream value index_key m _ _ _ z Hco Hz Hu Hd prior Hpr (e_may_match E) (e_schema E) (hot_view (w_real w)))
    as (rows & -> & Hnd & Hbase). fold (fold_watermark m z prior).
  apply (inv_lifecycle E value index_key w gone); cbn [bs_tx bs_table ts_upserts ts_deletes ts_write_sequence ts_meta]; try done.
  - intros tx Hin. eapply gone_mono; [by apply Hgone|done|apply tx_grew_refl|apply Htick|].
    intros p Hp. exists p. split; [exact Hp|lia].
  - by eapply (meta_snapshot w gone now z prior rows).
Qed.
End snapshot.
