(* ===== verification/SystemTheorems.v ===== *)
(** * The life cycle is transparent to readers

    Every reachable state of the system satisfies the invariant, so a read of
    the tiered table returns what a read of the never-persisted table returns. *)

From S2P Require Import Prelude CoreTypes Watermarks ReadSnapshot Dialect MergeSql IndexSeek Plan SnapshotScan IndexSelect TxLog TableStore Chunker ReadPath Lifecycle ReadLemmas ReadData Tiers ReadCorrect System SystemInv SystemPersist SystemSnapshot.
From stdpp Require Import base numbers list option sets gmap sorting.

Open Scope Z_scope.

(** ** The environment's documented behaviour

    The derived identities are collision-free on the pairs they are asked for
    (128-bit hashes, ADR 0013), and an index's key is its columns' values. *)
Record env_ok {V} (E : env V) (value : Z → Z * V → cell) (index_key : Z → Z * V → list cell) : Prop := {
  eo_version : ∀ r tx r' tx', e_version_uuid E r tx = e_version_uuid E r' tx' → r = r' ∧ tx = tx';
  eo_persist : ∀ t k t' k', e_persist_uuid E t k = e_persist_uuid E t' k' → t = t' ∧ k = k';
  eo_segment : ∀ p i p' i', e_segment_uuid E p i = e_segment_uuid E p' i' → p = p' ∧ i = i';
  eo_index : ∀ def x, def ∈ e_indexes E →
    index_key (index_uuid def) x = (λ c, value c x) <$> index_key_columns def;
}.

Section reachable.
Context {V : Type} `{CV : ColdBatch V, CU : ColdBatch unit, L : SnapshotLayout V}.
Context (E : env V) (value : Z → Z * V → cell) (index_key : Z → Z * V → list cell).
Context `{!ColdBatchLaws CV, !ColdBatchLaws CU, !SnapshotLayoutLaws L value index_key}.
Context (Henv : env_ok E value index_key).

(** A branch with no commits and an empty table. *)
Lemma inv_empty (l : tx_logs) (now : Z) :
  tx_wf l → tx_commit_log l = [] → 0 ≤ now →
  let st := {| bs_tx := l; bs_table := bs_table empty_branch |} in
  Inv E value index_key {| w_real := st; w_ideal := st; w_now := now |} [].
Proof.
  intros Hwf Hc Hnow.
  assert (∀ A wm, segs_ok wm (@nil (segment_meta A)) []) as Hsegs.
  { intros A wm. split; [split|..]; try (by intros g ?%not_elem_of_nil); by intros x z ?%not_elem_of_nil. }
  assert (∀ A l, log_ok E l [] (@nil (log_row A)) []) as Hlog.
  { intros A l'. split; [done|by intros x y ?%not_elem_of_nil|by intros x ?%not_elem_of_nil|by intros u ?%not_elem_of_nil]. }
  split; simpl; try done.
  - split; [lia|]. rewrite Hc. by intros c ?%not_elem_of_nil.
  - by intros tx ?%not_elem_of_nil.
  - split; simpl; try done; [by intros u ?%not_elem_of_nil|by intros sn ?%not_elem_of_nil].
Qed.

Lemma inv_start : Inv E value index_key start [].
Proof. apply inv_empty; [apply tx_wf_empty|done|lia]. Qed.

Lemma inv_step w w' gone : Inv E value index_key w gone → wstep E w w' → ∃ gone', Inv E value index_key w' gone'.
Proof using All.
  intros Hi Hst. destruct Hst as [w now o Htick Hsch]. destruct Henv as [Hv Hp Hsg Hix].
  destruct o; [exists gone..|]; unfold step_world; cbn [run].
  - by apply inv_begin.
  - by apply inv_commit.
  - by apply inv_abort.
  - apply inv_write; [done|done|done|]. intros ->. apply Hsch.
  - by apply inv_persist.
  - by apply inv_snapshot.
  - by apply (inv_purge E value index_key w gone now).
Qed.

Lemma inv_reachable w : rtc (wstep E) start w → ∃ gone, Inv E value index_key w gone.
Proof using All.
  intros Hr. assert (∃ gone, Inv E value index_key start gone) as Hs by (exists []; apply inv_start).
  revert Hs. induction Hr as [w|w w1 w2 Hst _ IH]; intros [gone Hi]; [eauto|].
  apply IH. by eapply inv_step.
Qed.

(** The never-persisted table is coherent on its own. *)
Lemma ideal_coherent w gone : Inv E value index_key w gone →
  coherent value index_key (ts_meta (bs_table (w_ideal w))) (hot_view (w_ideal w))
    (historyU (w_ideal w)) (historyD (w_ideal w)).
Proof using.
  intros Hi. pose proof (inv_coherent _ _ _ _ _ Hi) as [Hr Hmono Hk _ _ _ _ _ _ _].
  pose proof Hi as [_ _ _ HU HD _ Hm _ _ _]. rewrite Hm.
  assert (∀ A (segs Hy : list (src_row A)), cold_ok None [] Hy) as Hc.
  { intros A segs Hy. split; [by intros g ?%not_elem_of_nil|by intros g x ?%not_elem_of_nil|done]. }
  split; try done; [..|by apply (Hc _ [])|by apply (Hc _ [])|by intros sn ?%not_elem_of_nil].
  - split; [done|done|apply HU].
  - split; [done|done|apply HD].
Qed.

(** The own writes of an open transaction survive the purge. *)
Lemma own_writes_surviving {A} s gone (log : list (log_row A)) :
  (∀ tx, open_tx_uuid s = Some tx → tx ∉ gone) →
  own_writes s (surviving gone log) = own_writes s log.
Proof using.
  intros Hs. unfold own_writes. destruct (open_tx_uuid s) as [tx|]; [|done]. specialize (Hs tx eq_refl).
  f_equal. unfold surviving. rewrite list_filter_filter. apply list_filter_iff. intros u. split; [by intros [? _]|].
  intros Heq. split; [done|]. by rewrite Heq.
Qed.

Lemma resolved_open l now ot am asq df s tx :
  resolve_read_snapshot l now ot am asq df = Ok s → open_tx_uuid s = Some tx →
  ∃ a b, get_tx_status l now tx = Some (Open a b).
Proof using.
  unfold resolve_read_snapshot. case_decide; [done|]. destruct ot as [tx0|].
  - destruct (resolve_tx l now tx0) as [b|] eqn:Er; [|done]. intros [= <-] [= <-].
    unfold resolve_tx in Er. destruct (get_tx_status l now tx0) as [[]|]; simplify_eq. eauto.
  - destruct am; [by intros [= <-]|]. destruct asq; by intros [= <-].
Qed.

Lemma table_at_ideal w gone now ot am asq df s x :
  Inv E value index_key w gone → w_now w ≤ now →
  resolve_read_snapshot (bs_tx (w_real w)) now ot am asq df = Ok s →
  table_at s (historyU (w_ideal w)) (historyD (w_ideal w)) (hot_view (w_real w)) x ↔
  table_at s (historyU (w_ideal w)) (historyD (w_ideal w)) (hot_view (w_ideal w)) x.
Proof using.
  intros Hi Hnow Hs. pose proof Hi as [_ _ _ [HU _ _ _] [HD _ _ _] _ _ Hgone _ _].
  unfold table_at, visible, hot_view. cbn [upsert_log delete_log]. rewrite HU, HD, !own_writes_surviving; [done|..];
    intros tx Htx Hin; destruct (resolved_open _ _ _ _ _ _ _ _ Hs Htx) as (a & b & Hst);
    by apply (open_not_gone _ _ _ _ _ _ _ Hst Hnow (Hgone tx Hin)).
Qed.
End reachable.

(** C1 The life cycle is transparent.  From the empty table, after any sequence of
    begins, writes, commits, aborts, persists, snapshots and purges under the
    schedule (a persist under an unused target and after the purge has caught up
    with the snapshots, an explicit snapshot point not below the persist
    watermark), a read of the tiered table under a snapshot resolved on its branch
    is refused below the retention floor or returns, each once and in some order,
    exactly the rows the same read returns of the table that was never persisted,
    snapshotted or purged: the rows its committed history and the reader's own
    writes show.  The derived uuids do not collide; the read's list of row ids is
    not the empty list, and an index seek is one decoded from the wire and comes
    with a filter, without which the point-seek bypass skips the index residual
    ([bypass_drops_index_residual]). *)
Theorem lifecycle_transparent {V} `{CV : ColdBatch V, CU : ColdBatch unit, L : SnapshotLayout V}
    (E : env V) (value : Z → Z * V → cell) (index_key : Z → Z * V → list cell)
    (HCV : ColdBatchLaws CV) (HCU : ColdBatchLaws CU) (HL : SnapshotLayoutLaws L value index_key)
    (Henv : env_ok E value index_key) (w : world V) (Hr : rtc (wstep E) start w)
    (may_match : (Z * V → bool) → SnapshotSegment V → bool)
    (equality_bindings : (Z * V → bool) → gmap Z (list Z))
    (Hprune : prune_sound may_match) (Hbind : bindings_sound value equality_bindings)
    (cfg : QueryConfig) (now : Z) (duration : option Z) (req : ReadDataRequest V)
    (Hnow : w_now w ≤ now) (open_tx as_of as_of_seq frontier : option Z)
    (Hs : resolve_read_snapshot (bs_tx (w_real w)) now open_tx as_of as_of_seq frontier = Ok (rd_snapshot req))
    (Hasof : in_i64 (plan_as_of_micros (rd_snapshot req)))
    (Hids : rd_row_uuids req ≠ Some []) (Hseek : seek_filtered req) :
  let read (st : branch_state V) duration :=
    read_data value may_match equality_bindings cfg (ts_meta (bs_table st)) (hot_view st) None now duration req in
  if below_floor (ts_meta (bs_table (w_real w))) now duration (rd_snapshot req) then
    read (w_real w) duration = Err (ReadApi FailedPrecondition)
  else
    ∃ rows rows', read (w_real w) duration = Ok rows ∧ read (w_ideal w) None = Ok rows' ∧
      rows ≡ₚ rows' ∧ NoDup (fst <$> rows) ∧
      ∀ x, x ∈ rows ↔ table_at (rd_snapshot req) (historyU (w_ideal w)) (historyD (w_ideal w))
                        (hot_view (w_ideal w)) x ∧ requested value req x.
Proof.
  cbv zeta. destruct (inv_reachable E value index_key Henv w Hr) as [gone Hi].
  pose proof (read_exact value index_key may_match equality_bindings _ _ _ _ cfg None now duration req
    (inv_coherent _ _ _ _ _ Hi) Hprune Hbind I Hasof Hids Hseek) as Hreal.
  pose proof (read_exact value index_key may_match equality_bindings _ _ _ _ cfg None now None req
    (ideal_coherent E value index_key w gone Hi) Hprune Hbind I Hasof Hids Hseek) as Hideal.
  destruct (below_floor _ now duration _); [done|].
  destruct Hreal as (rows & H1 & Hnd & Hel), Hideal as (rows' & H2 & Hnd' & Hel').
  assert (∀ x, x ∈ rows ↔ x ∈ rows') as Hiff.
  { intros x. rewrite Hel, Hel'. apply and_iff_compat_r.
    by apply (table_at_ideal E value index_key w gone now open_tx as_of as_of_seq frontier). }
  exists rows, rows'. split_and!; [done|done| |done|].
  - apply NoDup_Permutation; [by eapply NoDup_fmap_1|by eapply NoDup_fmap_1|done].
  - intros x. by rewrite Hiff, Hel'.
Qed.

(** ** A concrete system

    Integer columns in one segment per snapshot, identities by an injective
    encoding of pairs. *)
Module Demo.

Definition pair_uuid (a b : Z) : Z := Zpos (encode (a, b)).
Definition kind_code (k : LogKind) : Z := match k with UpsertLog => 0 | DeleteLog => 1 end.

Definition the_env : env Z :=
  {| e_version_uuid := pair_uuid; e_persist_uuid := λ t k, pair_uuid t (kind_code k);
     e_segment_uuid := pair_uuid; e_snapshot_uuid := λ t, t; e_max_segment_bytes := 20;
     e_schema := [1]; e_indexes := []; e_density := None; e_may_match := λ _ _, true |}.

Definition fixed_batch {A} (l : list (src_row A)) : batch :=
  {| num_rows := length l; columns := [{| col_type := DtInt64; col_vals := replicate (length l) VFixed |}] |}.

#[export] Instance cold_Z : ColdBatch Z := fixed_batch.
#[export] Instance cold_unit : ColdBatch unit := fixed_batch.

Definition identity_sidecar (rows : list (Z * Z)) : option sidecar :=
  match build_segment_index [(λ x, Some x.1) <$> rows] with Ok sc => Some sc | Err _ => None end.

Definition one_segment (defs : list SnapshotIndexDef) (rows : list (Z * Z)) : list (SnapshotSegment Z) :=
  [{| table_snapshot_segment_uuid := 0; snapshot_rows := rows;
      row_uuid_index_sidecar := identity_sidecar rows;
      index_sidecars := [] |}].

#[export] Instance layout_Z : SnapshotLayout Z := {| lay_out := one_segment |}.

Definition value (c : Z) (x : Z * Z) : cell := Some x.2.
Definition index_key (u : Z) (x : Z * Z) : list cell := [Some x.2].

Lemma cold_Z_laws : ColdBatchLaws cold_Z.
Proof. split; [done|]. intros l. exists (λ _, 9). by intros i _. Qed.
Lemma cold_unit_laws : ColdBatchLaws cold_unit.
Proof. split; [done|]. intros l. exists (λ _, 9). by intros i _. Qed.

Lemma layout_laws : SnapshotLayoutLaws layout_Z value index_key.
Proof.
  split.
  - intros defs rows. simpl. by rewrite app_nil_r.
  - intros defs rows g ->%list_elem_of_singleton u sc. destruct u as [u|]; [done|].
    intros Hsc. assert (identity_sidecar rows = Some sc) as Hid by exact Hsc. revert Hid.
    unfold identity_sidecar. destruct (build_segment_index _) as [sc'|] eqn:Eb; [|done]. intros [= <-].
    exists [(λ x, Some x.1) <$> rows]. split_and!; [done|by simpl; rewrite length_fmap|].
    intros i x Hx. cbn [snapshot_rows] in Hx. unfold key_at. simpl. by rewrite list_lookup_fmap, Hx.
Qed.

Lemma pair_uuid_inj a b a' b' : pair_uuid a b = pair_uuid a' b' → a = a' ∧ b = b'.
Proof. intros [= H%(inj encode)]. by simplify_eq. Qed.

Lemma the_env_ok : env_ok the_env value index_key.
Proof.
  split; simpl.
  - intros r tx r' tx'. apply pair_uuid_inj.
  - intros t k t' k' [? Hk]%pair_uuid_inj. by destruct k, k'.
  - intros p i p' i'. apply pair_uuid_inj.
  - by intros def x ?%not_elem_of_nil.
Qed.

(** ** Runs *)

Definition scheduledb (st : branch_state Z) (now : Z) (o : op Z) : bool :=
  match o with
  | OpWrite fresh None _ =>
      bool_decide (begin_tx_log (bs_tx st) !! fresh = None) &&
      bool_decide (Forall (λ c, ct_tx_uuid c ≠ fresh) (tx_commit_log (bs_tx st))) &&
      bool_decide (Forall (λ a, at_tx_uuid a ≠ fresh) (abort_tx_log (bs_tx st)))
  | OpPersist target =>
      bool_decide (Forall (λ sn, sn_commit_seq_num sn ≤ default SNAPSHOT_SEQ_GENESIS (last_purged_seq (ts_meta (bs_table st))))
                     (committed sn_commit_micros (tm_snapshots (ts_meta (bs_table st))))) &&
      bool_decide (Forall (λ k, e_persist_uuid the_env (effective_target target now) k ∉
                                  ph_uuid <$> tm_persists (ts_meta (bs_table st))) [UpsertLog; DeleteLog])
  | OpSnapshot (Some t) =>
      match persist_wm (ts_meta (bs_table st)) with Some z => z <=? t | None => true end
  | _ => true
  end.

Lemma scheduledb_ok st now o : scheduledb st now o = true → scheduled the_env st now o.
Proof.
  destruct o as [| | |fresh [tx|] ch|target|[t|]|]; try done; cbn [scheduledb scheduled].
  - rewrite !andb_true_iff, !bool_decide_eq_true, !Forall_forall. by intros [[? ?] ?].
  - rewrite andb_true_iff, !bool_decide_eq_true, !Forall_forall. intros [H1 H2]. split; [exact H1|].
    intros k. apply H2. destruct k; set_solver.
  - intros H z Hz. rewrite Hz in H. by zbool.
Qed.

Fixpoint run_ops (w : world Z) (ops : list (Z * op Z)) : world Z :=
  match ops with
  | [] => w
  | (now, o) :: rest => run_ops (step_world the_env w now o) rest
  end.

Fixpoint ops_okb (w : world Z) (ops : list (Z * op Z)) : bool :=
  match ops with
  | [] => true
  | (now, o) :: rest =>
      (w_now w <=? now) && (0 <? now) && (now <? I64_MAX) && scheduledb (w_real w) now o &&
      ops_okb (step_world the_env w now o) rest
  end.

Lemma run_ops_reachable ops : ∀ w, ops_okb w ops = true → rtc (wstep the_env) w (run_ops w ops).
Proof.
  induction ops as [|[now o] ops IH]; intros w; simpl; [done|]. rewrite !andb_true_iff.
  intros [[[[? ?] ?] Hs] Hrest]. zbool. eapply rtc_l; [|by apply IH].
  constructor; [split; [done|lia]|by apply scheduledb_ok].
Qed.

Definition put (r v : Z) : option (Change Z) := Some {| ch_upserts := [(r, v)]; ch_deletes := [] |}.
Definition del (r : Z) : option (Change Z) := Some {| ch_upserts := []; ch_deletes := [r] |}.

Definition cfg : QueryConfig :=
  {| qc_schema := [1]; qc_snapshot_prune_min_segments := 4; qc_index_seek_max_probe_tuples := 16 |}.
Definition req (s : ReadSnapshot) : ReadDataRequest Z :=
  {| rd_snapshot := s; rd_row_uuids := None; rd_filter := None; rd_index_seek := None |}.
Definition read (st : branch_state Z) (s : ReadSnapshot) : result ReadError (list (Z * Z)) :=
  read_data value (λ _ _, true) (λ _, ∅) cfg (ts_meta (bs_table st)) (hot_view st) None 100 None (req s).

(** Two rows are written, persisted, snapshotted and purged; then row 1 is
    deleted, row 3 written, a second persist and snapshot run, and an open
    transaction rewrites row 2. *)
Definition history : list (Z * op Z) :=
  [(10, OpWrite 101 None (put 1 100)); (20, OpWrite 102 None (put 2 200));
   (25, OpPersist None); (26, OpSnapshot None); (27, OpPurge);
   (30, OpWrite 103 None (del 1)); (35, OpWrite 104 None (put 3 300));
   (36, OpPersist None); (37, OpSnapshot None); (38, OpPurge);
   (40, OpBegin 105 60); (41, OpWrite 0 (Some 105) (put 2 201))].
End Demo.

Lemma lifecycle_transparent_witness :
  let w := Demo.run_ops start Demo.history in
  Demo.read (w_real w) (LatestSeq 3) = Ok [(3, 300); (2, 200)] ∧
  Demo.read (w_real w) (OpenTx 4 105) = Ok [(2, 201); (3, 300)] ∧
  ts_upserts (bs_table (w_real w)) ≠ ts_upserts (bs_table (w_ideal w)) ∧
  ∀ s, s = LatestSeq 3 ∨ s = OpenTx 4 105 →
    ∃ rows rows', Demo.read (w_real w) s = Ok rows ∧ Demo.read (w_ideal w) s = Ok rows' ∧ rows ≡ₚ rows'.
Proof.
  cbv zeta. split; [vm_compute; reflexivity|]. split; [vm_compute; reflexivity|].
  split; [vm_compute; discriminate|].
  intros s Hs.
  assert (∃ ot, resolve_read_snapshot (bs_tx (w_real (Demo.run_ops start Demo.history))) 100 ot None None None = Ok s) as [ot Hres].
  { destruct Hs as [->| ->]; [exists None|exists (Some 105)]; vm_compute; reflexivity. }
  assert (rtc (wstep Demo.the_env) start (Demo.run_ops start Demo.history)) as Hr
    by (apply Demo.run_ops_reachable; vm_compute; reflexivity).
  destruct (lifecycle_transparent Demo.the_env Demo.value Demo.index_key Demo.cold_Z_laws Demo.cold_unit_laws
    Demo.layout_laws Demo.the_env_ok (Demo.run_ops start Demo.history) Hr (λ _ _, true) (λ _, ∅) ltac:(by intros p g x)
    ltac:(intros f x _ c vs; by rewrite lookup_empty) Demo.cfg 100 None (Demo.req s)
    ltac:(vm_compute; discriminate) ot None None None Hres
    ltac:(destruct Hs as [->| ->]; vm_compute; intuition congruence) ltac:(done) ltac:(by intros k))
    as (rows & rows' & H1 & H2 & H3 & _).
  exists rows, rows'. split_and!; [exact H1|exact H2|exact H3].
Defined.
