(* ===== verification/AuditSystem.v ===== *)
(** * What an audit reads

    The rows of each arm of [audit_log] with the author and comment the ledger
    gives them, and the arms of an unforked branch put together. *)

From S2P Require Import Prelude CoreTypes Watermarks ReadSnapshot Dialect MergeSql IndexSeek Plan SnapshotScan IndexSelect Effects TxLog TxLedger TxLedgerInv TxLedgerTheorems TableStore Chunker ReadPath AuditReads Lifecycle ReadLemmas ReadData Tiers System SystemInv SystemPersist SystemSnapshot SystemTheorems.
From stdpp Require Import base numbers list option sets gmap sorting.

Open Scope Z_scope.
Open Scope result_scope.

(** ** Windows *)

Lemma all_Some (P : Z → Prop) v : (∀ f, Some v = Some f → P f) ↔ P v.
Proof. split; [by auto|by intros ? f [= <-]]. Qed.

Lemma at_least_true from v : at_least from v = true ↔ ∀ f, from = Some f → f ≤ v.
Proof. destruct from; cbn; [rewrite Z.leb_le|]; naive_solver. Qed.

Lemma below_true to v : below to v = true ↔ ∀ t, to = Some t → v < t.
Proof. destruct to; cbn; [rewrite Z.ltb_lt|]; naive_solver. Qed.

Lemma audit_where_true {A} from to seq_from seq_to us (x : src_row A) :
  audit_where from to seq_from seq_to us x = true ↔
    at_least from (commit_micros x) = true ∧ below to (commit_micros x) = true ∧
    at_least seq_from (commit_seq_num x) = true ∧ below seq_to (commit_seq_num x) = true ∧
    row_uuid_in_clause us (row_uuid x) = true.
Proof. unfold audit_where. rewrite !andb_true_iff. tauto. Qed.

(** ** The tag of a row: the author and comment of its commit *)

Section tags.
Context {Note : Type} (note_of : Z → Note).

Definition commit_of {A} (clog : list commit_row) (x : src_row A) : option commit_row :=
  head (filter (λ c, ct_commit_seq_num c = commit_seq_num x) clog).

Definition tag {A} (include : bool) (clog : list commit_row) (x : src_row A) : tx_metadata Note :=
  if include then Some (note_of <$> (ct_tx_uuid <$> commit_of clog x)) else None.

Definition tagged {A} (include : bool) (clog : list commit_row) (x : src_row A) : audit_row Note A :=
  (x, tag include clog x).

Lemma filter_key_unique {B} (f : B → Z) (l : list B) r :
  NoDup (f <$> l) → r ∈ l → filter (λ x, f x = f r) l = [r].
Proof.
  induction l as [|a l IH]; intros Hnd Hr; [by apply not_elem_of_nil in Hr|]. rewrite fmap_cons in Hnd.
  apply NoDup_cons in Hnd as [Ha Hnd]. apply elem_of_cons in Hr as [->|Hr].
  - rewrite filter_cons_True by done. f_equal.
    assert (∀ x, x ∈ filter (λ x, f x = f a) l → False) as He.
    { intros x [Hx Hin]%list_elem_of_filter. apply Ha. apply list_elem_of_fmap. by exists x. }
    destruct (filter _ l) as [|b ?]; [done|]. exfalso. apply (He b). by left.
  - rewrite filter_cons_False; [by apply IH|]. intros He. apply Ha. rewrite He. apply list_elem_of_fmap. by exists r.
Qed.

Lemma commit_seqs_nodup clog : StronglySorted commit_lt clog → NoDup (ct_commit_seq_num <$> clog).
Proof.
  induction 1 as [|c clog Hs IH Hall]; cbn; constructor; [|done].
  intros (c' & He & Hc')%list_elem_of_fmap. rewrite Forall_forall in Hall. destruct (Hall c' Hc'). lia.
Qed.

Lemma commit_of_Some {A} clog c (x : src_row A) :
  StronglySorted commit_lt clog → c ∈ clog → ct_commit_seq_num c = commit_seq_num x → commit_of clog x = Some c.
Proof.
  intros Hs Hc He. unfold commit_of. rewrite <- He.
  by rewrite (filter_key_unique ct_commit_seq_num clog c (commit_seqs_nodup _ Hs) Hc).
Qed.

(** ** The hot arm *)

Lemma hot_join_tagged {A} include (log : list (log_row A)) clog :
  StronglySorted commit_lt clog → hot_join note_of include log clog = tagged include clog <$> hot_source None log clog.
Proof.
  intros Hs. unfold hot_join, hot_source.
  rewrite (list_filter_iff _ (λ _, True)) by (intros; cbn; tauto).
  assert (filter (λ _ : log_row A, True) log = log) as ->.
  { induction log as [|u log IH]; [done|]. rewrite filter_cons_True by done. by rewrite IH. }
  induction log as [|u log IH]; [done|]. rewrite !bind_cons, fmap_app, IH. f_equal.
  rewrite <- list_fmap_compose. apply list_fmap_ext. intros i c Hc%list_elem_of_lookup_2. cbn. unfold tagged, tag.
  apply list_elem_of_filter in Hc as [_ Hc]. by rewrite (commit_of_Some clog c).
Qed.

Lemma filter_tagged {A} include clog (P : src_row A → Prop) `{!∀ x, Decision (P x)} (l : list (src_row A)) :
  filter (λ y : audit_row Note A, P y.1) (tagged include clog <$> l) = tagged include clog <$> filter P l.
Proof.
  induction l as [|x l IH]; [done|]. rewrite fmap_cons. destruct (decide (P x)).
  - rewrite !filter_cons_True by done. by rewrite IH.
  - rewrite !filter_cons_False by done. done.
Qed.

Lemma audit_stream_perm {A} rank (log : list (log_row A)) clog from to seq_from seq_to us include :
  StronglySorted commit_lt clog →
  audit_stream note_of rank log clog from to seq_from seq_to us include ≡ₚ
    tagged include clog <$> filter (λ x, audit_where from to seq_from seq_to us x = true) (hot_source None log clog).
Proof.
  intros Hs. unfold audit_stream. rewrite merge_sort_Permutation, hot_join_tagged by done.
  erewrite <- (filter_tagged include clog (λ x : src_row A, audit_where from to seq_from seq_to us x = true)). done.
Qed.

(** ** The cold arm *)

Lemma cold_audit_perm {A} (data : list (src_row A)) t include clog from to seq_from seq_to us :
  (∀ x, x ∈ data → audit_where from to seq_from seq_to us x = true → left_join include t x = [tagged include clog x]) →
  cold_audit_batches data t include from to seq_from seq_to us ≡ₚ
    tagged include clog <$> filter (λ x, audit_where from to seq_from seq_to us x = true) data.
Proof.
  intros Hj. unfold cold_audit_batches. rewrite merge_sort_Permutation. induction data as [|x data IH]; [done|].
  rewrite bind_cons, filter_app, IH by (intros y Hy; apply Hj; by right).
  destruct (audit_where from to seq_from seq_to us x) eqn:E.
  - rewrite (Hj x) by (by left || done). rewrite !filter_cons_True by done. by rewrite filter_nil.
  - rewrite (filter_cons_False (λ y : src_row A, audit_where from to seq_from seq_to us y = true)) by by rewrite E.
    assert (filter (λ y : audit_row Note A, audit_where from to seq_from seq_to us y.1 = true) (left_join include t x) = []) as ->; [|done].
    assert (∀ y, y ∈ left_join include t x → y.1 = x) as Hx.
    { intros y. unfold left_join. destruct include; [|by intros ->%list_elem_of_singleton].
      destruct (filter _ t); [by intros ->%list_elem_of_singleton|]. by intros (r & -> & _)%list_elem_of_fmap. }
    induction (left_join include t x) as [|y l IHl]; [done|]. rewrite filter_cons_False; [apply IHl|].
    + intros z Hz. apply Hx. by right.
    + rewrite (Hx y) by by left. by rewrite E.
Qed.

(** ** The ledger of the join *)

Context {N : LedgerNaming}.

Lemma in_window_true (g : TxLogSegment) from to sf st' (r : ledger_row Note) :
  row_bounded g r → at_least from (lg_micros r) = true → below to (lg_micros r) = true →
  at_least sf (lg_seq r) = true → below st' (lg_seq r) = true →
  tx_log_segment_in_window g from to sf st' = true.
Proof.
  intros [??]. unfold tx_log_segment_in_window. rewrite !andb_true_iff, !at_least_true, !below_true.
  intros H1 H2 H3 H4. split_and!.
  - intros f Hf. specialize (H1 f Hf). lia.
  - intros t Ht. specialize (H2 t Ht). lia.
  - intros f Hf. specialize (H3 f Hf). lia.
  - intros t Ht. specialize (H4 t Ht). lia.
Qed.

Definition selected_segments (st : ledger_store Note) (from to sf st' : option Z) : list (Z * TxLogSegment) :=
  filter (λ p : Z * TxLogSegment, tx_log_segment_in_window p.2 from to sf st' = true) (read_committed_tx_log_segments st).

Lemma selected_committed st from to sf st' p :
  p ∈ selected_segments st from to sf st' →
  committed_ledger st !! p.1 = Some p.2 ∧ tx_log_segment_in_window p.2 from to sf st' = true.
Proof.
  intros [Hw Hp]%list_elem_of_filter. unfold read_committed_tx_log_segments in Hp.
  rewrite merge_sort_Permutation in Hp. destruct p. by apply elem_of_map_to_list in Hp.
Qed.

(** What the join reads of a ledger: the rows of the segments in the window. *)
Lemma read_selected ever st from to sf st' :
  ledger_ok note_of ever st →
  read_tx_log_batches (lg_files st) (tx_log_persist_segments st from to sf st') true =
    Ok (concat (rows_of st <$> selected_segments st from to sf st')).
Proof.
  intros Hok. unfold read_tx_log_batches, tx_log_persist_segments. fold (selected_segments st from to sf st').
  assert (∀ l, (∀ p, p ∈ l → is_Some (read_ledger_segment st p.2)) →
    mapM (λ r, clip r <$> lg_files st !! tr_uri r)
      ((λ p : Z * TxLogSegment, {| tr_uri := tl_object_uri p.2; tr_max_commit_seq_num := None |}) <$> l) =
    Some (rows_of st <$> l)) as Hm.
  { intros l Hl. apply mapM_Some. induction l as [|p l IH]; cbn; constructor.
    - destruct (Hl p) as [rows Hr]; [by left|]. unfold rows_of. rewrite Hr. unfold read_ledger_segment in Hr. cbn. by rewrite Hr.
    - apply IH. intros q Hq. apply Hl. by right. }
  rewrite Hm; [done|]. intros p [Hp _]%selected_committed. destruct (lk_files _ _ _ Hok _ _ Hp) as (rows & Hr & _). by eexists.
Qed.

Lemma ledger_seqs_nodup ever st :
  ledger_ok note_of ever st → NoDup (ct_commit_seq_num <$> ever) →
  NoDup (lg_seq <$> concat (rows_of st <$> map_to_list (committed_ledger st))).
Proof.
  intros Hok Hnd. rewrite (lk_rows _ _ _ Hok), <- list_fmap_compose.
  by apply (NoDup_fmap_filter (lg_seq ∘ ledger_row_of note_of)).
Qed.

Lemma selected_nodup ever st from to sf st' :
  ledger_ok note_of ever st → NoDup (ct_commit_seq_num <$> ever) →
  NoDup (lg_seq <$> concat (rows_of st <$> selected_segments st from to sf st')).
Proof.
  intros Hok Hnd. pose proof (ledger_seqs_nodup ever st Hok Hnd) as Hall.
  assert (selected_segments st from to sf st' ⊆+ map_to_list (committed_ledger st)) as [rest Hp]%submseteq_Permutation.
  { unfold selected_segments, read_committed_tx_log_segments.
    rewrite <- (merge_sort_Permutation ledger_order (map_to_list _)) at 2. apply sublist_submseteq, sublist_filter. }
  rewrite Hp, fmap_app, concat_app, fmap_app in Hall. by apply NoDup_app in Hall as [? _].
Qed.

(** A persisted row finds its commit in the window of the ledger. *)
Lemma join_selected {A} ever st from to sf st' (x : src_row A) c us :
  ledger_ok note_of ever st → StronglySorted commit_lt ever → c ∈ ever →
  ct_commit_seq_num c = commit_seq_num x → ct_commit_micros c = commit_micros x → commit_seq_num x ≤ ledger_mark st →
  audit_where from to sf st' us x = true →
  left_join true (concat (rows_of st <$> selected_segments st from to sf st')) x = [tagged true ever x].
Proof.
  intros Hok Hs Hc Hsq Hmi Hmark (Hf & Ht & Hsf & Hst & _)%audit_where_true.
  set (t := concat _). pose proof (commit_seqs_nodup _ Hs) as Hnd.
  assert (ledger_row_of note_of c ∈ t) as Hin.
  { assert (ledger_row_of note_of c ∈ concat (rows_of st <$> map_to_list (committed_ledger st))) as Ha.
    { rewrite (lk_rows _ _ _ Hok). apply list_elem_of_fmap. exists c. split; [done|]. apply list_elem_of_filter. split; [lia|done]. }
    apply elem_of_concat in Ha as (rows & (p & -> & Hp)%list_elem_of_fmap & Hr).
    apply elem_of_concat. exists (rows_of st p). split; [|done]. apply list_elem_of_fmap. exists p. split; [done|].
    pose proof Hp as Hp'. destruct p as [u g]. apply elem_of_map_to_list in Hp'.
    destruct (lk_files _ _ _ Hok _ _ Hp') as (rows & Hrows & Hb). apply list_elem_of_filter. split.
    - apply (in_window_true g from to sf st' (ledger_row_of note_of c)); cbn; rewrite ?Hsq, ?Hmi; try done.
      apply Hb. unfold rows_of in Hr. cbn in Hr. by rewrite Hrows in Hr.
    - unfold read_committed_tx_log_segments. by rewrite merge_sort_Permutation. }
  unfold left_join. replace (commit_seq_num x) with (lg_seq (ledger_row_of note_of c)) by done.
  rewrite (filter_key_unique lg_seq t _ (selected_nodup ever st from to sf st' Hok Hnd) Hin).
  unfold tagged, tag. by rewrite (commit_of_Some ever c).
Qed.

End tags.

(** ** The window of a request *)

Definition in_window (floor : option RetentionFloor) (request : AuditDataRequest) (micros seq : Z) : Prop :=
  match ar_committed request with
  | Some (CommitSeqNum r) =>
      match ir_min r with Some f => f ≤ seq | None => ∀ fl, floor = Some fl → rf_commit_seq_num fl ≤ seq end ∧
      ∀ t, ir_max r = Some t → seq < t
  | Some (CommitMicros r) =>
      match ir_min r with Some f => f ≤ micros | None => ∀ fl, floor = Some fl → rf_snapshotted_at_micros fl ≤ micros end ∧
      ∀ t, ir_max r = Some t → micros < t
  | None => ∀ fl, floor = Some fl → rf_snapshotted_at_micros fl ≤ micros
  end.

(** An explicit lower bound below the floor. *)
Definition refused (floor : option RetentionFloor) (request : AuditDataRequest) : Prop :=
  ∃ fl f, floor = Some fl ∧
    match ar_committed request with
    | Some (CommitSeqNum r) => ir_min r = Some f ∧ f < rf_commit_seq_num fl
    | Some (CommitMicros r) => ir_min r = Some f ∧ f < rf_snapshotted_at_micros fl
    | None => False
    end.

(** The two windows before and after the floor is enforced. *)
Definition seq_axis (request : AuditDataRequest) : bool :=
  match (audit_committed_axes (ar_committed request)).2 with Some _ => true | None => false end.

Definition micros_bounds (request : AuditDataRequest) : option Z * option Z :=
  timestamp_bounds (audit_committed_axes (ar_committed request)).1.
Definition seq_bounds (request : AuditDataRequest) : option Z * option Z :=
  timestamp_bounds (audit_committed_axes (ar_committed request)).2.

Definition floored (floor : option RetentionFloor) (request : AuditDataRequest) : result ApiError (option Z * option Z) :=
  enforce_floor floor (seq_axis request) (micros_bounds request).1 (seq_bounds request).1.

Lemma floored_refused floor request : refused floor request → floored floor request = Err FailedPrecondition.
Proof.
  intros (fl & f & -> & H). unfold floored, seq_axis, micros_bounds, seq_bounds.
  destruct (ar_committed request) as [[[mn mx]|[mn mx]]|]; cbn in *; [..|done]; destruct H as [-> ->%Z.ltb_lt]; done.
Qed.

Lemma floored_admitted floor request :
  ¬ refused floor request →
  ∃ uf sf, floored floor request = Ok (uf, sf) ∧
    ∀ A us (x : src_row A),
      audit_where uf (micros_bounds request).2 sf (seq_bounds request).2 us x = true ↔
        in_window floor request (commit_micros x) (commit_seq_num x) ∧ row_uuid_in_clause us (row_uuid x) = true.
Proof.
  intros Hr. unfold floored, seq_axis, micros_bounds, seq_bounds, in_window. unfold refused in Hr.
  destruct (ar_committed request) as [[[[f|] mx]|[[f|] mx]]|]; cbn in *; destruct floor as [fl|]; cbn;
    try (destruct (Z.ltb_spec f (rf_snapshotted_at_micros fl)); [destruct Hr; by exists fl, f|]);
    try (destruct (Z.ltb_spec f (rf_commit_seq_num fl)); [destruct Hr; by exists fl, f|]);
    eexists _, _; (split; [done|]); intros A us x; rewrite audit_where_true, !at_least_true, !below_true; naive_solver.
Qed.

(** ** The arms of an unforked branch *)

Lemma by_commit_seq_sorted {Note A} (l : list (audit_row Note A)) : StronglySorted by_commit_seq (merge_sort by_commit_seq l).
Proof.
  apply StronglySorted_merge_sort; unfold by_commit_seq; [intros x y z; lia|intros x y; lia].
Qed.

Lemma by_commit_micros_sorted {Note A} rank (l : list (audit_row Note A)) :
  StronglySorted (by_commit_micros rank) (merge_sort (by_commit_micros rank) l).
Proof.
  apply StronglySorted_merge_sort; unfold by_commit_micros; [intros x y z; lia|intros x y; lia].
Qed.

Lemma StronglySorted_weaken {B} (R R' : B → B → Prop) (l : list B) :
  (∀ x y, x ∈ l → y ∈ l → R x y → R' x y) → StronglySorted R l → StronglySorted R' l.
Proof.
  intros H Hs. induction Hs as [|x l Hs IH Hall]; constructor.
  - apply IH. intros y z Hy Hz. apply H; by right.
  - rewrite Forall_forall in Hall |- *. intros y Hy. apply H; [by left|by right|by apply Hall].
Qed.

Section arms.
Context {Note V A : Type} (note_of : Z → Note) {N : LedgerNaming}.
Context (m : table_meta V) (ledger : ledger_store Note) (request : AuditDataRequest).
Context (segs : list (segment_meta A)) (log : list (log_row A)) (clog : list commit_row) (Hy : list (src_row A)).
Context (uf sf : option Z) (rank : Z → Z).

(** The history is what the commits wrote; cold holds it up to the watermark, hot
    the rest of it; the ledger covers what cold holds. *)
Context (Hs : StronglySorted commit_lt clog).
Context (Hcommit : ∀ x, x ∈ Hy → ∃ c, c ∈ clog ∧ ct_commit_micros c = commit_micros x ∧ ct_commit_seq_num c = commit_seq_num x).
Context (Hrange : ∀ x, x ∈ Hy → 0 < commit_micros x < I64_MAX).
Context (Hwm : ∀ w, persist_wm m = Some w → 0 < w < I64_MAX).
Context (Hcold : cold_ok (persist_wm m) segs Hy).
Context (Hhot : ∀ x, x ∈ hot_source None log clog → x ∈ Hy).
Context (Hrest : ∀ x, x ∈ Hy → (∀ w, persist_wm m = Some w → w < commit_micros x) → x ∈ hot_source None log clog).
Context (Hledger : ledger_ok note_of clog ledger).
Context (Hcover : ∀ c w, c ∈ clog → persist_wm m = Some w → ct_commit_micros c ≤ w → ct_commit_seq_num c ≤ ledger_mark ledger).

Let hot_min : Z := hot_min_of m.
Let user_to : option Z := (micros_bounds request).2.
Let seq_to : option Z := (seq_bounds request).2.
Let include : bool := ar_include_tx_metadata request.
Let ids : option (list Z) := ar_row_uuids request.

Definition cold_cap : Z := match user_to with Some t => Z.min t hot_min | None => hot_min end.

Definition arm_segments : list (PersistSegment A) :=
  if hot_min =? 0 then []
  else read_and_classify_persist_segments segs ((λ f, sat_sub f 1) <$> uf) (Some (sat_sub cold_cap 1)) None.

Definition arm_from : option Z := if hot_min =? 0 then None else uf.
Definition arm_to : option Z := if hot_min =? 0 then None else Some cold_cap.
Definition arm_hot_from : option Z :=
  match uf with Some f => Some (Z.max f hot_min) | None => if 0 <? hot_min then Some hot_min else None end.
Definition arm_refs : list TxLogRef :=
  (if include && negb (hot_min =? 0) then tx_log_persist_segments ledger arm_from arm_to sf seq_to else []) ++ [].

Definition arm_cold : result ApiError (list (audit_row Note A)) :=
  cold_log_audit_batches (lg_files ledger) arm_segments arm_refs include arm_from arm_to sf seq_to ids.
Definition arm_hot : list (audit_row Note A) :=
  audit_stream note_of rank log clog arm_hot_from user_to sf seq_to ids include.

Definition cold_row (x : src_row A) : Prop := ∃ w, persist_wm m = Some w ∧ commit_micros x ≤ w.

Lemma hot_min_spec : (persist_wm m = None ∧ hot_min = 0) ∨ ∃ w, persist_wm m = Some w ∧ 0 < w < I64_MAX ∧ hot_min = w + 1.
Proof using Hwm.
  clear -Hwm hot_min. unfold hot_min, hot_min_of. destruct (persist_wm m) as [w|] eqn:E; [right|by left]. exists w. specialize (Hwm w eq_refl). done.
Qed.

Lemma arm_hot_elem y :
  y ∈ arm_hot ↔ ∃ x, y = tagged note_of include clog x ∧ x ∈ Hy ∧ ¬ cold_row x ∧ audit_where uf user_to sf seq_to ids x = true.
Proof using Hs Hhot Hrest Hwm Hrange.
  unfold arm_hot. rewrite audit_stream_perm, list_elem_of_fmap by done. apply exist_proper. intros x.
  rewrite list_elem_of_filter, !audit_where_true, !at_least_true. unfold cold_row.
  assert (x ∈ Hy → (∀ f, arm_hot_from = Some f → f ≤ commit_micros x) ↔
    (∀ f, uf = Some f → f ≤ commit_micros x) ∧ ¬ ∃ w, persist_wm m = Some w ∧ commit_micros x ≤ w) as Hf.
  { intros Hx. specialize (Hrange x Hx). unfold arm_hot_from. destruct hot_min_spec as [[Hp Hm]|(w & Hp & Hw & Hm)]; rewrite Hm, Hp.
    - transitivity (∀ f, uf = Some f → f ≤ commit_micros x).
      + destruct uf as [f|]; cbn; [rewrite !all_Some; lia|done].
      + split; [|tauto]. intros ?. split; [done|]. by intros (? & ? & _).
    - assert (¬ (∃ w', Some w = Some w' ∧ commit_micros x ≤ w') ↔ w < commit_micros x) as ->.
      { split; [|intros ? (w' & [= <-] & ?); lia]. intros Hn. destruct (decide (commit_micros x ≤ w)); [|lia]. destruct Hn. by exists w. }
      destruct uf as [f|]; [rewrite !all_Some; lia|]. rewrite (proj2 (Z.ltb_lt _ _)) by lia. rewrite all_Some. split; [|lia].
      intros ?. split; [done|lia]. }
  split.
  - intros (-> & (H1 & H2 & H3) & Hx). specialize (Hhot x Hx). apply Hf in H1 as [??]; [|done]. tauto.
  - intros (-> & Hx & Hn & H1 & H2 & H3). split; [done|]. split; [split; [by apply Hf|tauto]|].
    apply Hrest; [done|]. intros w Hw. destruct (decide (commit_micros x ≤ w)); [|lia]. destruct Hn. by exists w.
Qed.

Lemma cold_data_elem x :
  hot_min ≠ 0 → audit_where uf (Some cold_cap) sf seq_to ids x = true →
  x ∈ cold_log arm_segments ↔ x ∈ Hy ∧ cold_row x.
Proof using Hcold Hrange Hwm.
  intros Hm Hx. unfold arm_segments. rewrite (proj2 (Z.eqb_neq _ _) Hm).
  destruct hot_min_spec as [[_ ?]|(w & Hp & Hw & Hmw)]; [done|]. destruct Hcold as [Hb Hsd Hcp].
  apply audit_where_true in Hx as (Hf & Ht & _). rewrite at_least_true in Hf. cbn in Ht. apply Z.ltb_lt in Ht.
  assert (cold_cap ≤ hot_min) as Hcap by (unfold cold_cap; destruct user_to; lia).
  rewrite cold_log_elem by done. split.
  - intros (g & Hg & Hxg & _). split; [by eapply Hsd|]. exists w. split; [done|lia].
  - intros [HxH (w' & Hp' & Hle)]. destruct (Hcp x w' HxH Hp' Hle) as (g & Hg & Hxg). exists g. split_and!; [done..|].
    destruct (Hb g Hg x Hxg) as [Hbm _]. specialize (Hrange x HxH). apply overlap_true. split_and!; [|intros b [= <-]|done].
    + intros a. destruct uf as [f|]; cbn; [|done]. intros [= <-]. specialize (Hf f eq_refl). i64.
    + i64.
Qed.

Lemma cold_where (x : src_row A) :
  audit_where uf (Some cold_cap) sf seq_to ids x = true ↔ audit_where uf user_to sf seq_to ids x = true ∧ commit_micros x < hot_min.
Proof using.
  clear -hot_min user_to seq_to ids. rewrite !audit_where_true, !below_true, all_Some.
  assert (commit_micros x < cold_cap ↔ (∀ t, user_to = Some t → commit_micros x < t) ∧ commit_micros x < hot_min) as ->; [|tauto].
  unfold cold_cap. destruct user_to; [rewrite all_Some; lia|]. split; [|tauto]. intros ?. split; [done|lia].
Qed.

(** The join reads the ledger and finds the commit of every persisted row. *)
Lemma arm_join :
  hot_min ≠ 0 →
  ∃ t, read_tx_log_batches (lg_files ledger) arm_refs include = Ok t ∧
    ∀ x, x ∈ cold_log arm_segments → audit_where uf (Some cold_cap) sf seq_to ids x = true →
      left_join include t x = [tagged note_of include clog x].
Proof using Hs Hcommit Hrange Hwm Hcold Hledger Hcover.
  intros Hm. unfold arm_refs, arm_from, arm_to. rewrite (proj2 (Z.eqb_neq _ _) Hm). cbn. rewrite app_nil_r.
  destruct include; cbn; [|by exists []].
  eexists. split; [by apply (read_selected note_of clog)|]. intros x Hx Hwh.
  apply cold_data_elem in Hx as [HxH (w & Hp & Hle)]; [|done|done]. destruct (Hcommit x HxH) as (c & Hc & Hcm & Hcs).
  eapply join_selected; try done. rewrite <- Hcs. eapply Hcover; [done..|lia].
Qed.

Lemma arm_cold_perm :
  ∃ rows, arm_cold = Ok rows ∧ StronglySorted by_commit_seq rows ∧
    rows ≡ₚ tagged note_of include clog <$>
              filter (λ x, audit_where uf (Some cold_cap) sf seq_to ids x = true) (cold_log arm_segments).
Proof using Hs Hcommit Hrange Hwm Hcold Hledger Hcover.
  unfold arm_cold, cold_log_audit_batches. destruct (decide (arm_segments = [])) as [E|E].
  { rewrite E. exists []. split_and!; [done|constructor|done]. }
  assert (hot_min ≠ 0) as Hm by (intros Hm; apply E; unfold arm_segments; by rewrite Hm).
  destruct (arm_join Hm) as (t & Ht & Hj). unfold arm_from, arm_to in *. rewrite (proj2 (Z.eqb_neq _ _) Hm) in *.
  destruct arm_segments as [|g l]; [done|]. rewrite Ht. cbn [result_bind]. eexists. split_and!; [done|apply by_commit_seq_sorted|].
  by apply cold_audit_perm.
Qed.

(** The cold arm: the persisted versions of the window. *)
Lemma arm_cold_spec :
  ∃ rows, arm_cold = Ok rows ∧ StronglySorted by_commit_seq rows ∧
    (∀ y, y ∈ rows ↔ ∃ x, y = tagged note_of include clog x ∧ x ∈ Hy ∧ cold_row x ∧ audit_where uf user_to sf seq_to ids x = true) ∧
    (NoDup (cold_log arm_segments) → NoDup rows).
Proof using Hs Hcommit Hrange Hwm Hcold Hledger Hcover.
  clear rank. destruct arm_cold_perm as (rows & Hr & Hso & Hp). exists rows. split_and!; [done|done| |].
  - intros y. rewrite Hp, list_elem_of_fmap. apply exist_proper. intros x. rewrite list_elem_of_filter.
    destruct hot_min_spec as [[Hw Hm]|(w & Hw & Hwr & Hm)].
    + unfold arm_segments. rewrite Hm. cbn. split; [by intros (_ & _ & ?%not_elem_of_nil)|].
      intros (_ & _ & (w & Hw' & _) & _). congruence.
    + split.
      * intros (-> & Hwh & Hx). apply cold_data_elem in Hx as [??]; [|lia|done]. apply cold_where in Hwh as [??]. done.
      * intros (-> & Hx & (w' & Hw' & Hle) & Hwh).
        assert (audit_where uf (Some cold_cap) sf seq_to ids x = true) as Hc by (apply cold_where; split; [done|simplify_eq; lia]).
        split_and!; [done|done|]. apply cold_data_elem; [lia|done|]. split; [done|by exists w'].
  - intros Hnd. rewrite Hp. apply (NoDup_fmap_2_strong _); [by intros x y _ _ [= ->]|by apply NoDup_filter].
Qed.

(** Both arms, in commit order. *)
Lemma arms_spec :
  ∃ rows, arm_cold = Ok rows ∧
    (∀ y, y ∈ rows ++ [] ++ arm_hot ↔ ∃ x, y = tagged note_of include clog x ∧ x ∈ Hy ∧ audit_where uf user_to sf seq_to ids x = true) ∧
    StronglySorted by_commit_seq (rows ++ [] ++ arm_hot) ∧
    (NoDup (cold_log arm_segments) → NoDup (hot_source None log clog) → NoDup (rows ++ [] ++ arm_hot)).
Proof using All.
  destruct arm_cold_spec as (rows & Hr & Hso & Hel & Hnd). exists rows. split; [done|]. cbn.
  assert (∀ y, y ∈ rows ++ arm_hot ↔ ∃ x, y = tagged note_of include clog x ∧ x ∈ Hy ∧ audit_where uf user_to sf seq_to ids x = true) as Hall.
  { intros y. rewrite elem_of_app, Hel, arm_hot_elem. split; [naive_solver|]. intros (x & -> & Hx & Hwh).
    assert (cold_row x ∨ ¬ cold_row x) as [?|?]; [|left|right]; [|by exists x..].
    unfold cold_row. destruct (persist_wm m) as [w|]; [|right; by intros (? & ? & _)].
    destruct (decide (commit_micros x ≤ w)); [left; by exists w|right]. by intros (w' & [= <-] & ?). }
  assert (∀ x y, x ∈ Hy → y ∈ Hy → commit_micros x < commit_micros y ↔ commit_seq_num x < commit_seq_num y) as Hmono.
  { intros x y (c & Hc & <- & <-)%Hcommit (c' & Hc' & <- & <-)%Hcommit. by rewrite (proj1 (commit_lt_inj _ c c' Hs Hc Hc')). }
  split_and!; [done| |].
  - apply StronglySorted_app_2; [|done|].
    + intros y1 y2 (x1 & -> & H1 & (w & Hw & Hle) & _)%Hel (x2 & -> & H2 & Hn & _)%arm_hot_elem. unfold by_commit_seq. cbn.
      enough (commit_seq_num x1 < commit_seq_num x2) by lia. apply Hmono; [done..|].
      destruct (decide (commit_micros x2 ≤ w)); [|lia]. destruct Hn. by exists w.
    + eapply StronglySorted_weaken; [|apply by_commit_micros_sorted].
      intros y1 y2 (x1 & -> & H1 & _)%arm_hot_elem (x2 & -> & H2 & _)%arm_hot_elem. unfold by_commit_micros, by_commit_seq. cbn.
      pose proof (Hmono x2 x1 H2 H1). lia.
  - intros Hc Hh. apply NoDup_app. split_and!; [by apply Hnd| |].
    + intros y (x & -> & _ & Hc' & _)%Hel (x' & [= <- _] & _ & Hn & _)%arm_hot_elem. done.
    + unfold arm_hot. rewrite audit_stream_perm by done.
      apply (NoDup_fmap_2_strong _); [by intros x y _ _ [= ->]|by apply NoDup_filter].
Qed.

End arms.

(** ** The table with its transaction ledger

    The life cycle of System.v beside the cold ledger of its branch: a persist
    first flushes the commits it is about to make visible in cold
    (lifecycle/persist.rs), and goes on only when the flush reports success. *)

(** The persist candidate and the largest sequence number of its rows; [None]
    when nothing is to persist or the watermark would not advance. *)
Definition compute_candidate_persisted_at_gated {V} (st : branch_state V) (now : Z) (target_micros : option Z) : option (Z * Z) :=
  let ts := bs_table st in
  let max_filter := Some (sat_add (effective_target target_micros now) 1) in
  let upserts := read_committed (tx_commit_log (bs_tx st)) (ts_upserts ts) max_filter in
  let deletes := read_committed (tx_commit_log (bs_tx st)) (ts_deletes ts) max_filter in
  match zmax_list ((commit_micros <$> upserts) ++ (commit_micros <$> deletes)),
        zmax_list ((commit_seq_num <$> upserts) ++ (commit_seq_num <$> deletes)) with
  | Some candidate, Some seq =>
      if match persist_wm (ts_meta ts) with Some last => candidate <=? last | None => false end
      then None else Some (candidate, seq)
  | _, _ => None
  end.

Section joint.
Context {V : Type} `{CV : ColdBatch V, CU : ColdBatch unit, L : SnapshotLayout V}.
Context {Note : Type} (note_of : Z → Note) {N : LedgerNaming} (E : env V).

(** The persist with the flush it starts with; [faults] is what the flush meets. *)
Definition persist_with_ledger (st : branch_state V) (ledger : ledger_store Note) (now : Z) (target : option Z)
    (faults : nat → fault) : branch_state V * ledger_store Note * outcome unit :=
  if effective_target target now <=? 0 then (st, ledger, Returns tt)
  else
    match compute_candidate_persisted_at_gated st now target with
    | None => (st, ledger, Returns tt)
    | Some (_, persist_seq) =>
        let '(w, r) := persist_tx_log note_of faults now (tx_commit_log (bs_tx st)) persist_seq
                         {| lw_store := ledger; lw_tick := 0 |} in
        match r with
        | Returns _ =>
            match persist_locked (e_persist_uuid E) (e_segment_uuid E) (e_max_segment_bytes E) st now target with
            | Ok (st', _) => (st', lw_store w, Returns tt)
            | Err e => (st, lw_store w, Raises e)
            end
        | Raises e => (st, lw_store w, Raises e)
        | Dead => (st, lw_store w, Dead)
        end
    end.

Definition is_persist (o : op V) : Prop := match o with OpPersist _ => True | _ => False end.

Inductive jstep : world V * ledger_store Note → world V * ledger_store Note → Prop :=
  | JStep w ledger now o :
      ¬ is_persist o → tick w now → scheduled E (w_real w) now o →
      jstep (w, ledger) (step_world E w now o, ledger)
  | JPersist w ledger now target faults st ledger' out :
      tick w now → scheduled E (w_real w) now (OpPersist target) →
      persist_with_ledger (w_real w) ledger now target faults = (st, ledger', out) →
      jstep (w, ledger) ({| w_real := st; w_ideal := w_ideal w; w_now := now |}, ledger')
  (** the flush of a branch on its own *)
  | JFlush w ledger now target faults :
      jstep (w, ledger)
        (w, lw_store (persist_tx_log note_of faults now (tx_commit_log (bs_tx (w_real w))) target
                        {| lw_store := ledger; lw_tick := 0 |}).1).

Definition jstart : world V * ledger_store Note := (start, {| lg_segments := ∅; lg_files := ∅ |}).

(** ** Invariant *)

Context (value : Z → Z * V → cell) (index_key : Z → Z * V → list cell).
Context `{!ColdBatchLaws CV, !ColdBatchLaws CU, !SnapshotLayoutLaws L value index_key}.
Context (Henv : env_ok E value index_key) (Hn : LedgerNamingLaws N).

Definition ledger_side (w : world V) (ledger : ledger_store Note) : ledger_state Note :=
  {| ls_tx := bs_tx (w_real w); ls_tx_table := ∅; ls_purges := []; ls_cold := ledger |}.

(** What the headers say was persisted is in the ledger. *)
Definition persist_covered (w : world V) (ledger : ledger_store Note) : Prop :=
  ∀ c p, c ∈ tx_commit_log (bs_tx (w_real w)) →
    p ∈ ph_persisted_at_micros <$> tm_persists (ts_meta (bs_table (w_real w))) →
    ct_commit_micros c ≤ p → ct_commit_seq_num c ≤ ledger_mark ledger.

Definition versions_once (st : branch_state V) : Prop :=
  NoDup (lr_version_uuid <$> ts_upserts (bs_table st)) ∧ NoDup (lr_version_uuid <$> ts_deletes (bs_table st)).

(** A header's watermark is the clock of a commit. *)
Definition headers_clocked (w : world V) : Prop :=
  ∀ p, p ∈ ph_persisted_at_micros <$> tm_persists (ts_meta (bs_table (w_real w))) →
    ∃ c, c ∈ tx_commit_log (bs_tx (w_real w)) ∧ ct_commit_micros c = p.

Record JInv (s : world V * ledger_store Note) : Prop := {
  ji_inv : ∃ gone, Inv E value index_key s.1 gone;
  ji_ledger : branch_ok note_of (ledger_side s.1 s.2) (tx_commit_log (bs_tx (w_real s.1)));
  ji_covered : persist_covered s.1 s.2;
  ji_clocked : headers_clocked s.1;
  ji_versions : versions_once (w_real s.1);
}.

(** ** What a step does to the branch *)

Record framed (st st' : branch_state V) : Prop := {
  fr_tx : bs_tx st' = bs_tx st ∨ tx_step (bs_tx st) (bs_tx st');
  fr_headers : tm_persists (ts_meta (bs_table st')) = tm_persists (ts_meta (bs_table st));
  fr_versions : versions_once st → versions_once st';
}.

Lemma framed_refl st : framed st st.
Proof. split; [by left|done|done]. Qed.

Lemma framed_tx st l : tx_step (bs_tx st) l → framed st (with_tx st l).
Proof. intros ?. split; [by right|done|done]. Qed.

Lemma insert_upserts_versions tx (rows : list (Z * V)) : ∀ log seq,
  NoDup (lr_version_uuid <$> log) → NoDup (lr_version_uuid <$> (insert_upserts (e_version_uuid E) tx rows log seq).1).
Proof.
  induction rows as [|[r v] rows IH]; intros log seq Hnd; cbn; [done|]. case_decide as Hc; apply IH.
  - unfold update_cols. rewrite <- list_fmap_compose. erewrite list_fmap_ext; [exact Hnd|]. intros i u _. cbn. by case_decide.
  - rewrite fmap_app. apply NoDup_app. split_and!; [done| |apply NoDup_singleton]. by intros x Hx ->%list_elem_of_singleton.
Qed.

Lemma insert_deletes_versions tx (rows : list Z) : ∀ log seq,
  NoDup (lr_version_uuid <$> log) → NoDup (lr_version_uuid <$> (insert_deletes (e_version_uuid E) tx rows log seq).1).
Proof.
  induction rows as [|r rows IH]; intros log seq Hnd; cbn; [done|]. case_decide as Hc; apply IH; [done|].
  rewrite fmap_app. apply NoDup_app. split_and!; [done| |apply NoDup_singleton]. by intros x Hx ->%list_elem_of_singleton.
Qed.

Lemma framed_write st now fresh tx change st' out :
  clock_ok (bs_tx st) now → (tx = None → fresh_tx (bs_tx st) fresh) →
  write_data (e_version_uuid E) st now fresh tx change = Ok (st', out) → framed st st'.
Proof.
  intros Hclk Hfr. unfold write_data. destruct (resolve_or_auto_commit_tx _ _ _ _) as [[l' [tx' co]]|] eqn:Er; [|done]. cbn.
  assert (l' = bs_tx st ∨ tx_step (bs_tx st) l') as Hl.
  { unfold resolve_or_auto_commit_tx in Er. destruct tx as [tx|].
    - destruct (resolve_tx _ _ _); simplify_eq/=. by left.
    - destruct (auto_commit_tx _ _ _) as [[l1 c]|] eqn:Ea; simplify_eq/=. right. by eapply StepAutoCommit; [|apply Hfr|]. }
  assert (∀ ts', match change with Some ch => apply_change (e_version_uuid E) (bs_table st) ch tx' | None => Ok (bs_table st) end = Ok ts' →
    framed st {| bs_tx := l'; bs_table := ts' |}) as Hts.
  { intros ts'. destruct change as [ch|]; [|intros [= <-]; by split]. unfold apply_change. case_decide; [intros [= <-]; by split|].
    pose proof (insert_deletes_versions tx' (ch_deletes ch) (ts_deletes (bs_table st)) (ts_write_sequence (bs_table st))) as HD.
    destruct (insert_deletes _ _ _ _ _) as [ds sq]. cbn in HD. case_decide; [|done].
    pose proof (insert_upserts_versions tx' (ch_upserts ch) (ts_upserts (bs_table st)) sq) as HU.
    destruct (insert_upserts _ _ _ _ _) as [us sq']. cbn in HU. intros [= <-].
    split; [done|done|]. intros [??]. split; cbn; auto. }
  destruct (match change with Some _ => _ | None => _ end) as [ts'|]; [|done]. cbn. intros [= <- _]. by apply Hts.
Qed.

Lemma framed_snapshot st now as_of st' out :
  snapshot_locked (e_snapshot_uuid E) (e_schema E) (e_indexes E) (e_density E) (e_may_match E) st now as_of = Ok (st', out) →
  framed st st'.
Proof.
  unfold snapshot_locked. destruct (compute_snapshot_window _ _) as [[at_ prior]|]; [|intros [= <- _]; apply framed_refl].
  destruct (stream_all_cold _ _); [|done]. intros [= <- _]. split; [by left|done|done].
Qed.

Lemma cleared_versions {A} doomed (log : list (log_row A)) :
  NoDup (lr_version_uuid <$> log) → NoDup (lr_version_uuid <$> delete_hot_rows doomed log).
Proof. apply NoDup_fmap_filter. Qed.

Lemma framed_purge st now : framed st (purge_locked st now).1.
Proof.
  unfold purge_locked. cbv zeta.
  repeat match goal with |- context [match ?x with Some _ => _ | None => _ end] => destruct x end;
    (split; [by left|done|]); intros [??]; split; cbn; repeat apply cleared_versions; done.
Qed.

Lemma framed_run st now o :
  ¬ is_persist o → clock_ok (bs_tx st) now → scheduled E st now o → framed st (run E st now o).
Proof.
  intros Hp Hclk Hsch. destruct o as [tx timeout|tx|tx|fresh tx ch|target|as_of|]; cbn in *.
  - destruct (begin_tx _ _ _ _) as [[l ?]|] eqn:Eb; [|apply framed_refl]. by eapply framed_tx, StepBegin.
  - destruct (commit_tx _ _ _) as [[l ?]|] eqn:Ec; [|apply framed_refl]. by eapply framed_tx, StepCommit.
  - destruct (abort_tx _ _ _) as [[l ?]|] eqn:Ea; [|apply framed_refl]. by eapply framed_tx, StepAbort.
  - destruct (write_data _ _ _ _ _ _) as [[st' ?]|] eqn:Ew; [|apply framed_refl].
    eapply framed_write; [done| |done]. intros ->. apply Hsch.
  - done.
  - destruct (snapshot_locked _ _ _ _ _ _ _ _) as [[st' ?]|] eqn:Es; [|apply framed_refl]. by eapply framed_snapshot.
  - apply framed_purge.
Qed.

(** ** What a persist does *)

Lemma insert_persist_at u at_ k hs p :
  p ∈ ph_persisted_at_micros <$> insert_table_persist u at_ k hs → p ∈ ph_persisted_at_micros <$> hs ∨ p = at_.
Proof.
  unfold insert_table_persist. case_decide.
  - rewrite <- list_fmap_compose. intros (h & -> & Hh)%list_elem_of_fmap. cbn. case_decide; [by right|left]. by apply list_elem_of_fmap_2.
  - rewrite fmap_app. by intros [?| ->%list_elem_of_singleton]%elem_of_app; [left|right].
Qed.

Lemma commit_persist_at u now hs : ph_persisted_at_micros <$> commit_table_persist u now hs = ph_persisted_at_micros <$> hs.
Proof. unfold commit_table_persist. rewrite <- list_fmap_compose. apply list_fmap_ext. intros i h _. cbn. by case_decide. Qed.

Lemma flip_at {A} now target k (rows : list (src_row A)) hs :
  ph_persisted_at_micros <$> flip_kind (e_persist_uuid E) now target k rows hs = ph_persisted_at_micros <$> hs.
Proof. unfold flip_kind. destruct rows; [done|]. apply commit_persist_at. Qed.

Lemma persist_kind_at {A} `{ColdBatch A} now target at_ cap k (rows : list (src_row A)) hs segs hs' segs' p :
  persist_kind (e_persist_uuid E) (e_segment_uuid E) now target at_ cap k rows hs segs = Ok (hs', segs') →
  p ∈ ph_persisted_at_micros <$> hs' → p ∈ ph_persisted_at_micros <$> hs ∨ p = at_.
Proof.
  unfold persist_kind. destruct rows as [|x rows]; [intros [= -> _]; by left|].
  destruct (chunk_persist_batch _ _) as [chunks|]; [|done]. cbn. destruct (segment_steps _ _ _ _ _) as [steps|]; [|done]. cbn.
  intros [= <- _]. apply insert_persist_at.
Qed.

(** The rows a persist takes carry the candidate's clock under a commit no later
    than its sequence number. *)
Lemma candidate_commit (st : branch_state V) now target candidate seq :
  StronglySorted commit_lt (tx_commit_log (bs_tx st)) →
  compute_candidate_persisted_at_gated st now target = Some (candidate, seq) →
  ∃ c, c ∈ tx_commit_log (bs_tx st) ∧ ct_commit_micros c = candidate ∧ ct_commit_seq_num c ≤ seq.
Proof.
  intros Hs. unfold compute_candidate_persisted_at_gated. cbv zeta. set (us := read_committed _ (ts_upserts _) _). set (ds := read_committed _ (ts_deletes _) _).
  destruct (zmax_list (_ ++ _)) as [ca|] eqn:Em; [|done]. destruct (zmax_list ((commit_seq_num <$> us) ++ _)) as [sq|] eqn:Es; [|done].
  case_match; [done|]. intros [= <- <-]. apply zmax_list_Some in Em as [Hin _]. apply zmax_list_Some in Es as [_ Hle].
  apply elem_of_app in Hin as [(x & -> & Hx)%list_elem_of_fmap|(x & -> & Hx)%list_elem_of_fmap].
  - pose proof Hx as [(c & Hc & Hm & Hq)%source_commit _]%(read_committed_elem value index_key). exists c. split_and!; [done|done|]. rewrite Hq.
    apply Hle, elem_of_app. left. by apply list_elem_of_fmap_2.
  - pose proof Hx as [(c & Hc & Hm & Hq)%source_commit _]%(read_committed_elem value index_key). exists c. split_and!; [done|done|]. rewrite Hq.
    apply Hle, elem_of_app. right. by apply list_elem_of_fmap_2.
Qed.

Lemma persist_frame (st : branch_state V) now target candidate seq :
  compute_candidate_persisted_at_gated st now target = Some (candidate, seq) →
  let st' := run E st now (OpPersist target) in
  bs_tx st' = bs_tx st ∧ (versions_once st → versions_once st') ∧
  ∀ p, p ∈ ph_persisted_at_micros <$> tm_persists (ts_meta (bs_table st')) →
    p ∈ ph_persisted_at_micros <$> tm_persists (ts_meta (bs_table st)) ∨ p = candidate.
Proof.
  unfold compute_candidate_persisted_at_gated, run, persist_locked. cbv zeta. intros Hc.
  destruct (effective_target target now <=? 0); [split_and!; [done|done|intros ??; by left]|].
  set (us := read_committed _ (ts_upserts _) _) in *. set (ds := read_committed _ (ts_deletes _) _) in *.
  destruct (zmax_list ((commit_micros <$> us) ++ (commit_micros <$> ds))) as [ca|]; [|done].
  destruct (zmax_list ((commit_seq_num <$> us) ++ _)) as [sq|]; [|done]. destruct (match persist_wm _ with Some _ => _ | None => _ end); [done|].
  injection Hc as <- <-.
  destruct (persist_kind _ _ _ _ _ _ UpsertLog us _ _) as [[h1 sU]|] eqn:EU; cbn [result_bind]; [|split_and!; [done|done|intros ??; by left]].
  destruct (persist_kind _ _ _ _ _ _ DeleteLog ds _ _) as [[h2 sD]|] eqn:ED; cbn [result_bind]; [|split_and!; [done|done|intros ??; by left]].
  split_and!; [done|done|]. intros p. cbn [bs_table ts_meta tm_persists]. rewrite !flip_at. intros Hp.
  eapply (persist_kind_at _ _ _ _ _ _ _ _ _ _ p ED) in Hp as [Hp| ->]; [|by right]. by eapply (persist_kind_at _ _ _ _ _ _ _ _ _ _ p EU) in Hp.
Qed.

(** ** The invariant is preserved *)

Lemma jinv_start : JInv jstart.
Proof using Hn.
  split; cbn.
  - exists []. apply inv_start.
  - apply (branch_ok_start note_of).
  - intros c p ?%not_elem_of_nil. done.
  - by intros p ?%not_elem_of_nil.
  - split; constructor.
Qed.

Lemma flush_covers w ledger now target faults :
  JInv (w, ledger) →
  let r := persist_tx_log note_of faults now (tx_commit_log (bs_tx (w_real w))) target {| lw_store := ledger; lw_tick := 0 |} in
  branch_ok note_of (ledger_side w (lw_store r.1)) (tx_commit_log (bs_tx (w_real w))) ∧
  ledger_mark ledger ≤ ledger_mark (lw_store r.1) ∧
  (r.2 = Returns tt → ∀ c, c ∈ tx_commit_log (bs_tx (w_real w)) → ct_commit_seq_num c ≤ target → ct_commit_seq_num c ≤ ledger_mark (lw_store r.1)).
Proof using Hn.
  intros [_ Hok _ _ _] r. pose proof (branch_ok_flush note_of Hn _ _ faults now target Hok) as Hok'. split; [exact Hok'|].
  pose proof (ever_nodup note_of _ _ Hok) as Hnde. destruct Hok as [_ _ _ Hhot Hfl].
  destruct (flush_triple note_of Hn _ _ faults now target Hhot Hnde Hnde _ _ {| lw_store := ledger; lw_tick := 0 |} Hfl) as [Hi Hq].
  split; [apply (fi_floor _ _ _ _ _ _ Hi)|]. intros Hr. by apply (Hq tt Hr).
Qed.

Lemma jinv_covered_grow w w' ledger :
  JInv (w, ledger) → tx_wf (bs_tx (w_real w')) → framed (w_real w) (w_real w') →
  persist_covered w' ledger ∧ headers_clocked w'.
Proof.
  intros [_ _ Hcov Hclk _] Hwf' [Htx Hh _]. cbn in *.
  assert (∃ k, tx_commit_log (bs_tx (w_real w')) = tx_commit_log (bs_tx (w_real w)) ++ k) as [k Hk].
  { destruct Htx as [->|Hst]; [exists []; by rewrite app_nil_r|]. destruct (tx_step_grows _ _ Hst) as ((k & Hk & _) & _). eauto. }
  unfold persist_covered, headers_clocked. rewrite Hh, Hk. split.
  - intros c p [Hc|Hc]%elem_of_app Hp Hle; [by eapply Hcov|]. destruct (Hclk p Hp) as (c0 & Hc0 & <-).
    pose proof (wf_commits_sorted _ Hwf') as Hs. rewrite Hk in Hs. destruct (StronglySorted_app_1_elem_of _ _ _ c0 c Hs Hc0 Hc). lia.
  - intros p Hp. destruct (Hclk p Hp) as (c & Hc & Hm). exists c. split; [apply elem_of_app; by left|done].
Qed.

Lemma jinv_step s s' : jstep s s' → JInv s → JInv s'.
Proof using All.
  intros Hst Hj. pose proof Hj as [[gone Hi] Hok Hcov Hclk Hver].
  destruct Hst as [w ledger now o Hnp Htick Hsch|w ledger now target faults st ledger' out Htick Hsch Hp|w ledger now target faults]; cbn [fst snd] in *.
  - destruct (inv_step E value index_key Henv w _ gone Hi (WStep E w now o Htick Hsch)) as [gone' Hi'].
    pose proof (inv_clock _ _ _ _ _ _ Hi Htick) as Hck. pose proof (framed_run _ _ _ Hnp Hck Hsch) as Hf.
    destruct (jinv_covered_grow w (step_world E w now o) ledger Hj (iv_wf _ _ _ _ _ Hi') Hf) as [??].
    split; cbn [fst snd]; [by exists gone'| |done|done|by apply (fr_versions _ _ Hf)].
    destruct (fr_tx _ _ Hf) as [He|Hs]; [unfold ledger_side; cbn; by rewrite He|].
    destruct (tx_step_grows _ _ Hs) as ((k & Hk & _) & _). cbn. rewrite Hk. by eapply (branch_ok_tx note_of _ _ _ k Hok).
  - assert (JInv ({| w_real := w_real w; w_ideal := w_ideal w; w_now := now |}, ledger)) as Hidle.
    { split; [exists gone; by apply inv_idle|done..]. }
    unfold persist_with_ledger in Hp. case_match; [by simplify_eq|].
    destruct (compute_candidate_persisted_at_gated _ _ _) as [[ca sq]|] eqn:Eg; [|by simplify_eq].
    pose proof (flush_covers w ledger now sq faults Hj) as (Hok' & Hle & Hret). cbv zeta in Hok', Hle, Hret.
    destruct (persist_tx_log _ _ _ _ _ _) as [w' r]. cbn [fst snd] in *.
    assert (persist_covered w (lw_store w')) as Hcov' by (intros c p Hc Hp' Hcp; specialize (Hcov c p Hc Hp' Hcp); lia).
    assert (∀ o, (st, ledger', out) = (w_real w, lw_store w', o) → JInv ({| w_real := st; w_ideal := w_ideal w; w_now := now |}, ledger')) as Hrej.
    { intros o [= -> -> _]. split; [exists gone; by apply inv_idle|done..]. }
    destruct r as [[]|e|]; [|by eapply Hrej..].
    assert (st = run E (w_real w) now (OpPersist target) ∧ ledger' = lw_store w') as [-> ->]
      by (cbn [run]; destruct (persist_locked _ _ _ _ _ _) as [[]|]; by simplify_eq). clear Hp Hrej.
    destruct (persist_frame _ _ _ _ _ Eg) as (Htx & Hv & Hat). pose proof (wf_commits_sorted _ (iv_wf _ _ _ _ _ Hi)) as Hs.
    destruct (candidate_commit _ _ _ _ _ Hs Eg) as (c0 & Hc0 & Hm0 & Hq0).
    destruct (inv_step E value index_key Henv w _ gone Hi (WStep E w now (OpPersist target) Htick Hsch)) as [gone' Hi'].
    split; cbn [fst snd]; [by exists gone'| | | |by apply Hv].
    + unfold ledger_side. cbn [w_real]. by rewrite Htx.
    + intros c p. cbn [w_real]. rewrite Htx. intros Hc [Hp'| ->]%Hat Hcp; [by eapply Hcov'|]. apply Hret; [done|done|].
      pose proof (commit_lt_inj _ c0 c Hs Hc0 Hc) as [Hlt _]. lia.
    + intros p. cbn [w_real]. rewrite Htx. intros [Hp'| ->]%Hat; [by apply Hclk|]. by exists c0.
  - destruct (flush_covers w ledger now target faults Hj) as (Hok' & Hle & _).
    split; cbn [fst snd]; [by exists gone|done| |done|done]. intros c p Hc Hp Hcp. specialize (Hcov c p Hc Hp Hcp). lia.
Qed.

Lemma jinv_reachable s : rtc jstep jstart s → JInv s.
Proof using All.
  intros Hr. pose proof jinv_start as Hs. revert Hs. generalize jstart, s, Hr. clear s Hr.
  intros x y Hr Hx. induction Hr as [x|x y z Hxy _ IH]; [done|]. by eapply IH, jinv_step.
Qed.

End joint.
