(* ===== verification/Fork.v ===== *)
(** * Creating a branch (penca-storage-meta/src/fork_copy.rs, penca-api/src/
      write/mod.rs, penca-api/src/lifecycle/branch_op.rs, penca-server-grpc/src/write.rs)

    [CreateBranch] resolves its fork point on the source branch, flushes the
    source up to it, and copies the source's cold references into the child's
    metadata: the newest snapshot at or below the fork, the persist headers and
    segments above it cut at the fork, and a purge watermark at the fork.  A
    header's own sequence watermark and the seal flag of a copied segment, which
    no modelled read uses, are left out; of the copy of the catalog's rows the
    commit it makes on the child is modelled. *)

From S2P Require Import Prelude CoreTypes Watermarks ReadSnapshot Dialect MergeSql IndexSeek Plan SnapshotScan IndexSelect Effects TxLog TxLedger ForkPoint TableStore Chunker ReadPath Lifecycle System AuditSystem.
From stdpp Require Import base numbers list option sets gmap sorting.

Open Scope Z_scope.
Open Scope result_scope.

(** The names of the child's rows, derived from the child's own uuid. *)
Class ForkNaming := {
  child_persist_uuid : Z → LogKind → Z;
  child_persist_segment_uuid : Z → Z → Z;
  child_snapshot_uuid : Z → Z;
  child_snapshot_segment_uuid : Z → Z → Z;
}.

Class ForkNamingLaws (N : ForkNaming) : Prop := {
  child_persist_inj : ∀ t k t' k', child_persist_uuid t k = child_persist_uuid t' k' → t = t' ∧ k = k';
  child_segment_inj : ∀ p i p' i', child_persist_segment_uuid p i = child_persist_segment_uuid p' i' → p = p' ∧ i = i';
}.

(** [ON CONFLICT (...) DO NOTHING] *)
Definition insert_do_nothing {A} (key : A → Z) (x : A) (l : list A) : list A :=
  if decide (key x ∈ key <$> l) then l else l ++ [x].

Section fork.
Context {V : Type} {N : ForkNaming}.

(** ** The inherited snapshot *)

(** A copied base segment with the sidecars of the snapshot's indexes. *)
Definition copy_snapshot_segment (indexes : list SnapshotIndexDef) (u : Z) (g : SnapshotSegment V) : SnapshotSegment V :=
  {| table_snapshot_segment_uuid := u; snapshot_rows := snapshot_rows g; row_uuid_index_sidecar := row_uuid_index_sidecar g;
     index_sidecars := filter (λ p : Z * sidecar, p.1 ∈ index_uuid <$> indexes) (index_sidecars g) |}.

(** [chunk_idx] is the enumeration position; the uuid chains off it. *)
Definition copy_snapshot (commit_micros : Z) (old : snapshot_meta V) : snapshot_meta V :=
  let new_snap := child_snapshot_uuid (sn_snapshotted_at_micros old) in
  {| sn_uuid := new_snap; sn_snapshotted_at_micros := sn_snapshotted_at_micros old; sn_commit_seq_num := sn_commit_seq_num old;
     sn_segments := imap (λ i g, copy_snapshot_segment (sn_indexes old) (child_snapshot_segment_uuid new_snap (Z.of_nat i)) g) (sn_segments old);
     sn_indexes := sn_indexes old; sn_durable := sn_durable old; sn_commit_micros := Some commit_micros |}.

(** The child's metadata and the watermark of the adopted baseline. *)
Definition copy_inherited_snapshot (parent child : table_meta V) (fork_seq fork_micros commit_micros : Z) :
    table_meta V * option Z :=
  match read_snapshot_segments_for_table parent (Some fork_micros) (Some fork_seq) with
  | None => (child, None)
  | Some old =>
      ({| tm_persists := tm_persists child; tm_upsert_segments := tm_upsert_segments child;
          tm_delete_segments := tm_delete_segments child;
          tm_snapshots := insert_do_nothing sn_uuid (copy_snapshot commit_micros old) (tm_snapshots child);
          tm_purges := tm_purges child |},
       Some (sn_snapshotted_at_micros old))
  end.

(** ** The inherited persist runs *)

(** [ORDER BY persisted_at_micros], [ORDER BY chunk_idx] *)
Definition persisted_order (x y : persist_header) : Prop := ph_persisted_at_micros x ≤ ph_persisted_at_micros y.
Definition chunk_order {A} (x y : segment_meta A) : Prop := sg_chunk_idx x ≤ sg_chunk_idx y.

#[export] Instance persisted_order_dec : RelDecision persisted_order.
Proof. intros x y. unfold persisted_order. apply _. Defined.
#[export] Instance chunk_order_dec {A} : RelDecision (@chunk_order A).
Proof. intros x y. unfold chunk_order. apply _. Defined.

(** The segments of one header at or below the fork. *)
Definition inherited_segments {A} (header fork_seq : Z) (segs : list (segment_meta A)) : list (segment_meta A) :=
  merge_sort chunk_order
    (filter (λ g, sg_table_persist_uuid g = header ∧ sg_min_commit_seq_num g ≤ fork_seq) (committed sg_commit_micros segs)).

(** The pairs of new and old uuid; a chunk index out of range is an error. *)
Definition segment_pairs {A} (new_header : Z) (segs : list (segment_meta A)) : result ApiError (list (Z * Z)) :=
  match mapM (λ g, if sg_chunk_idx g <? 0 then None else Some (child_persist_segment_uuid new_header (sg_chunk_idx g), sg_uuid g)) segs with
  | Some pairs => Ok pairs
  | None => Err Internal
  end.

(** The sequence ceiling is clamped to the fork. *)
Definition clamp_segment {A} (new_header u fork_seq commit_micros : Z) (old : segment_meta A) : segment_meta A :=
  {| sg_uuid := u; sg_table_persist_uuid := new_header; sg_chunk_idx := sg_chunk_idx old;
     sg_min_tx_commit_micros := sg_min_tx_commit_micros old; sg_max_tx_commit_micros := sg_max_tx_commit_micros old;
     sg_min_commit_seq_num := sg_min_commit_seq_num old; sg_max_commit_seq_num := Z.min (sg_max_commit_seq_num old) fork_seq;
     sg_rows := sg_rows old; sg_commit_micros := Some commit_micros |}.

(** [FROM seg_old old JOIN unnest(...) m ON old.uuid = m.old_uuid] *)
Definition copy_segments {A} (new_header fork_seq commit_micros : Z) (pairs : list (Z * Z)) (olds segs : list (segment_meta A)) :
    list (segment_meta A) :=
  foldl (λ l g, insert_do_nothing sg_uuid g l) segs
    (olds ≫= λ old, (λ p : Z * Z, clamp_segment new_header p.1 fork_seq commit_micros old) <$> filter (λ p : Z * Z, p.2 = sg_uuid old) pairs).

Section persist.
Context (parent : table_meta V) (fork_seq segment_from commit_micros : Z).

Definition copy_header (new_header : Z) (h : persist_header) (child : table_meta V) : table_meta V :=
  {| tm_persists := insert_do_nothing ph_uuid
       {| ph_uuid := new_header; ph_log_kind := ph_log_kind h; ph_persisted_at_micros := ph_persisted_at_micros h;
          ph_commit_micros := Some commit_micros |} (tm_persists child);
     tm_upsert_segments := tm_upsert_segments child; tm_delete_segments := tm_delete_segments child;
     tm_snapshots := tm_snapshots child; tm_purges := tm_purges child |}.

(** One header: bare when it is the baseline's, else with its qualifying
    segments, and skipped without any. *)
Definition inherit_header (h : persist_header) (child : table_meta V) (wrote_any_header : bool) :
    result ApiError (table_meta V * bool) :=
  let new_header := child_persist_uuid (ph_persisted_at_micros h) (ph_log_kind h) in
  let is_baseline_header := ph_persisted_at_micros h <=? sat_sub segment_from 1 in
  if is_baseline_header then Ok (copy_header new_header h child, true)
  else
    let? pairs :=
      match ph_log_kind h with
      | UpsertLog => segment_pairs new_header (inherited_segments (ph_uuid h) fork_seq (tm_upsert_segments parent))
      | DeleteLog => segment_pairs new_header (inherited_segments (ph_uuid h) fork_seq (tm_delete_segments parent))
      end in
    match pairs with
    | [] => Ok (child, wrote_any_header)
    | _ =>
        let c := copy_header new_header h child in
        Ok (match ph_log_kind h with
            | UpsertLog =>
                {| tm_persists := tm_persists c;
                   tm_upsert_segments := copy_segments new_header fork_seq commit_micros pairs (tm_upsert_segments parent) (tm_upsert_segments c);
                   tm_delete_segments := tm_delete_segments c; tm_snapshots := tm_snapshots c; tm_purges := tm_purges c |}
            | DeleteLog =>
                {| tm_persists := tm_persists c; tm_upsert_segments := tm_upsert_segments c;
                   tm_delete_segments := copy_segments new_header fork_seq commit_micros pairs (tm_delete_segments parent) (tm_delete_segments c);
                   tm_snapshots := tm_snapshots c; tm_purges := tm_purges c |}
            end, true)
    end.

Fixpoint inherit_headers (headers : list persist_header) (child : table_meta V) (wrote_any_header : bool) :
    result ApiError (table_meta V * bool) :=
  match headers with
  | [] => Ok (child, wrote_any_header)
  | h :: rest =>
      let? '(child', wrote) := inherit_header h child wrote_any_header in
      inherit_headers rest child' wrote
  end.
End persist.

(** A child that adopted a baseline but holds no header could not read it. *)
Definition copy_inherited_persist (parent child : table_meta V) (fork_seq : Z) (baseline_watermark : option Z)
    (commit_micros : Z) : result ApiError (table_meta V) :=
  let header_from := default I64_MIN baseline_watermark in
  let segment_from := match baseline_watermark with None => I64_MIN | Some w => sat_add w 1 end in
  let headers := merge_sort persisted_order
    (filter (λ h, header_from ≤ ph_persisted_at_micros h) (committed ph_commit_micros (tm_persists parent))) in
  let? '(child', wrote_any_header) := inherit_headers parent fork_seq segment_from commit_micros headers child false in
  if negb wrote_any_header && bool_decide (is_Some baseline_watermark) then Err FailedPrecondition else Ok child'.

(** Snapshot, persist runs, then the purge watermark at the fork. *)
Definition materialize_fork_cold_references (parent child : table_meta V) (fork_seq fork_micros commit_micros : Z) :
    result ApiError (table_meta V) :=
  let '(child1, baseline) := copy_inherited_snapshot parent child fork_seq fork_micros commit_micros in
  let? child2 := copy_inherited_persist parent child1 fork_seq baseline commit_micros in
  Ok {| tm_persists := tm_persists child2; tm_upsert_segments := tm_upsert_segments child2;
        tm_delete_segments := tm_delete_segments child2; tm_snapshots := tm_snapshots child2;
        tm_purges := tm_purges child2 ++ [{| pm_last_purged_commit_seq_num := Some fork_seq;
                                             pm_last_purged_aborted_seq_num := None; pm_commit_micros := Some commit_micros |}] |}.

(** The child's counter starts one past the fork. *)
Definition seed_commit_seq_num_from_fork (l : tx_logs) (fork_seq : Z) : tx_logs :=
  {| begin_tx_log := begin_tx_log l; tx_commit_log := tx_commit_log l; abort_tx_log := abort_tx_log l;
     commit_tx_log_seq_num := fork_seq + 1; abort_seq_num := abort_seq_num l |}.

(** The commit of the fork's catalog rows: the child's first. *)
Definition materialize_metadata_from_source (l : tx_logs) (now fork_tx : Z) : result ApiError tx_logs :=
  let? '(l', _) := auto_commit_tx l now fork_tx in Ok l'.

(** Empty hot logs, the seeded counter, the fork transaction, the cold references. *)
Definition create_branch_tx (parent : table_meta V) (fork : Watermark) (fork_tx fork_now copy_commit_micros : Z) :
    result ApiError (branch_state V) :=
  let? l := materialize_metadata_from_source (seed_commit_seq_num_from_fork empty_tx_logs (wm_commit_seq_num fork)) fork_now fork_tx in
  let? m := materialize_fork_cold_references parent empty_meta (wm_commit_seq_num fork) (wm_commit_micros fork) copy_commit_micros in
  Ok {| bs_tx := l;
        bs_table := {| ts_upserts := []; ts_deletes := []; ts_write_sequence := 0; ts_tx_table_log := ∅; ts_meta := m |} |}.

(** ** The request *)

Definition ensure_fork_source_is_main (source_branch_uuid main_branch_uuid : Z) : result ApiError unit :=
  if source_branch_uuid =? main_branch_uuid then Ok tt else Err Unimplemented.

(** Withheld when a table failed. *)
Definition branch_op_watermark (watermark : Watermark) (failed : nat) : option Watermark :=
  if (failed =? 0)%nat then Some watermark else None.

Section request.
Context `{CV : ColdBatch V, CU : ColdBatch unit, L : SnapshotLayout V}.
Context {Note : Type} (note_of : Z → Note) {LN : LedgerNaming} (E : env V).

(** The ledger up to the target, then the table; a failed table is counted. *)
Definition persist_branch (st : branch_state V) (ledger : ledger_store Note) (now : Z) (target : Watermark)
    (ledger_faults faults : nat → fault) : branch_state V * ledger_store Note * outcome (option Watermark) :=
  let '(lw, r) := persist_tx_log note_of ledger_faults now (tx_commit_log (bs_tx st)) (wm_commit_seq_num target)
                    {| lw_store := ledger; lw_tick := 0 |} in
  match r with
  | Raises e => (st, lw_store lw, Raises e)
  | Dead => (st, lw_store lw, Dead)
  | Returns _ =>
      let '(st', ledger', out) := persist_with_ledger note_of E st (lw_store lw) now (Some (wm_commit_micros target)) faults in
      match out with
      | Returns _ => (st', ledger', Returns (branch_op_watermark target 0))
      | Raises _ => (st', ledger', Returns (branch_op_watermark target 1))
      | Dead => (st', ledger', Dead)
      end
  end.

(** [CreateBranch]: guard, fork point, flush at [now], fork at [fork_now]; a
    withheld watermark fails the request. *)
Definition create_branch (source_branch_uuid main_branch_uuid : Z) (st : branch_state V) (ledger : ledger_store Note) (now : Z)
    (fork_point : option ForkPoint) (ledger_faults faults : nat → fault) (fork_tx fork_now copy_commit_micros : Z) :
    branch_state V * ledger_store Note * outcome (Watermark * branch_state V) :=
  match ensure_fork_source_is_main source_branch_uuid main_branch_uuid with
  | Err e => (st, ledger, Raises e)
  | Ok _ =>
      match resolve_fork_watermark (tx_commit_log (bs_tx st)) ledger fork_point with
      | Err e => (st, ledger, Raises e)
      | Ok fork =>
          let '(st', ledger', r) := persist_branch st ledger now fork ledger_faults faults in
          match r with
          | Raises e => (st', ledger', Raises e)
          | Dead => (st', ledger', Dead)
          | Returns None => (st', ledger', Raises Internal)
          | Returns (Some _) =>
              match create_branch_tx (ts_meta (bs_table st')) fork fork_tx fork_now copy_commit_micros with
              | Ok child => (st', ledger', Returns (fork, child))
              | Err e => (st', ledger', Raises e)
              end
          end
      end
  end.
End request.
End fork.
