(* ===== verification/NamingTheorems.v ===== *)
(** * Derived names do not clash

    Two derived uuids coincide only for one name or where the hash collides on two
    texts written out for them; with a hash idealised to collide nowhere the
    derived names keep the naming laws the other components assume; the Postgres
    names stay apart after truncation. *)

From S2P Require Import Prelude CoreTypes Plan Effects TxLog TxLedger Ordered BatchUtil SegmentStats Packer SnapshotMeta SnapshotFrame SnapshotCycle SnapshotHistory Lifecycle System SystemTheorems Fork Naming.
From Stdlib Require Import Ascii.
From stdpp Require Import base numbers list option strings pretty countable.

Open Scope string_scope.
Open Scope Z_scope.

Lemma deterministic_inj {H : ContentHash} {texts} `{!CollisionFree H texts} xs ys :
  texts (join_nul xs) → texts (join_nul ys) →
  Forall (lacks NUL) xs → Forall (lacks NUL) ys → xs ≠ [] → ys ≠ [] →
  deterministic_uuid_from xs = deterministic_uuid_from ys → xs = ys.
Proof. intros Tx Ty Hx Hy Hnx Hny Heq. eapply join_inj; [done..|]. by apply (xxh3_inj (join_nul xs) (join_nul ys)). Qed.

(** The idealised hash. *)
Notation every_text := (λ _ : string, True).

(** Reads the parts back from an equation between derived uuids. *)
Ltac parts_of Heq :=
  apply (deterministic_inj (texts := every_text)) in Heq;
    [|exact I|exact I|by repeat (constructor; auto with penca typeclass_instances)..|done|done].

(** ** Names derived from a catalog *)

Inductive catalog_name :=
  | Genesis | SystemSchema | SystemSchemas | SystemTables | SystemIndexes | PurgeAnchor | TxLogAnchor
  | Partition (branch : Z) (t : base_table)
  | Snapshot (branch table at_ : Z)
  | Persist (branch table at_ : Z) (kind : LogKind).

Section catalog.
Context {H : ContentHash}.

Definition uuid_of (catalog : Z) (n : catalog_name) : Z :=
  match n with
  | Genesis => genesis_tx_uuid catalog
  | SystemSchema => system_schema_uuid catalog
  | SystemSchemas => system_schemas_table_uuid catalog
  | SystemTables => system_tables_table_uuid catalog
  | SystemIndexes => system_indexes_table_uuid catalog
  | PurgeAnchor => purge_anchor catalog
  | TxLogAnchor => tx_log_persist_anchor catalog
  | Partition branch t => partition_uuid catalog branch t
  | Snapshot branch table at_ => table_snapshot_uuid catalog branch table at_
  | Persist branch table at_ kind => table_persist_uuid catalog branch table at_ kind
  end.

(** The hashed parts. *)
Definition parts (catalog : Z) (n : catalog_name) : list string :=
  uuid_to_string catalog ::
  match n with
  | Genesis => []
  | SystemSchema => ["__penca_system__"]
  | SystemSchemas => ["__penca_system__.schemas"]
  | SystemTables => ["__penca_system__.tables"]
  | SystemIndexes => ["__penca_system__.indexes"]
  | PurgeAnchor => ["purge"]
  | TxLogAnchor => ["tx_log_persist"]
  | Partition branch t => [uuid_to_string branch; tag_text t]
  | Snapshot branch table at_ => [uuid_to_string branch; uuid_to_string table; pretty at_]
  | Persist branch table at_ kind => [uuid_to_string branch; uuid_to_string table; pretty at_; log_kind_as_str kind]
  end.

Lemma uuid_of_parts catalog n : uuid_of catalog n = deterministic_uuid_from (parts catalog n).
Proof. by destruct n. Qed.

End catalog.

Lemma tag_lacks t : lacks NUL (tag_text t).
Proof. by destruct t. Qed.

#[export] Hint Resolve tag_lacks : penca.

Lemma parts_lack catalog n : Forall (lacks NUL) (parts catalog n).
Proof. constructor; [auto with penca typeclass_instances|]. destruct n; repeat (constructor; auto with penca typeclass_instances); done. Qed.

#[export] Instance tag_text_inj : Inj (=) (=) tag_text.
Proof. intros [] []; done. Qed.

#[export] Instance kind_text_inj : Inj (=) (=) log_kind_as_str.
Proof. intros [] []; done. Qed.

Lemma parts_inj catalog n catalog' n' : parts catalog n = parts catalog' n' → catalog = catalog' ∧ n = n'.
Proof. intros Heq. injection Heq as E1 E2. apply (inj uuid_to_string) in E1. split; [done|]. destruct n, n'; simplify_eq; done. Qed.

(** ** The interfaces of the other components *)

Section interfaces.
Context {H : ContentHash} `{!CollisionFree H every_text} (catalog branch table : Z) (base_uri ext : string).

Definition derived_segments : SegmentNaming := λ snap i, table_snapshot_segment_uuid snap (Z.of_nat i).

Definition derived_indexes : IndexNaming :=
  {| segment_index_uuid seg slug := row_uuid_for_pk seg [index_disc slug];
     SnapshotMeta.table_snapshot_index_uuid := table_snapshot_index_uuid |}.

Definition derived_snapshots : SnapshotNaming := λ t at_, table_snapshot_uuid catalog branch t at_.

(** A file is known by its uri; the ledger's model numbers the texts. *)
Definition derived_ledger : LedgerNaming :=
  {| TxLedger.tx_log_persist_segment_uuid seq := tx_log_persist_segment_uuid catalog branch seq;
     TxLedger.tx_log_persist_segment_uri uuid := Zpos (encode (tx_log_persist_segment_uri base_uri catalog branch uuid ext)) |}.

Definition derived_fork : ForkNaming :=
  {| child_persist_uuid at_ kind := table_persist_uuid catalog branch table at_ kind;
     child_persist_segment_uuid := table_persist_segment_uuid;
     child_snapshot_uuid at_ := table_snapshot_uuid catalog branch table at_;
     child_snapshot_segment_uuid := table_snapshot_segment_uuid |}.

Lemma segment_names_inj p i p' i' :
  row_uuid_for_pk p [pretty i] = row_uuid_for_pk p' [pretty (i' : Z)] → p = p' ∧ i = i'.
Proof. intros Heq. parts_of Heq. by simplify_eq. Qed.

Lemma index_disc_inj x y : index_disc x = index_disc y → x = y.
Proof.
  assert (∀ u, uuid_to_string u ≠ "row_uuid") as Hne.
  { intros u Hu. destruct (decide (is_u128 u)) as [Hr|Hr].
    - apply (f_equal String.length) in Hu. by rewrite uuid_to_string_length in Hu.
    - unfold uuid_to_string in Hu. by rewrite decide_False in Hu. }
  destruct x as [u|], y as [v|]; simpl; intros Heq; [by simplify_eq|by apply Hne in Heq|by symmetry in Heq; apply Hne in Heq|done].
Qed.

Lemma index_names_inj p x p' y : row_uuid_for_pk p [index_disc x] = row_uuid_for_pk p' [index_disc y] → p = p' ∧ x = y.
Proof. intros Heq. parts_of Heq. injection Heq as E1 E2. apply (inj uuid_to_string) in E1. by apply index_disc_inj in E2. Qed.

Lemma app_inj_l s t u : s +:+ t = s +:+ u → t = u.
Proof. induction s as [|a s IH]; simpl; [done|]. intros Heq. injection Heq as Heq. auto. Qed.

Lemma app_inj_length s t s' t' : String.length s = String.length s' → s +:+ t = s' +:+ t' → s = s' ∧ t = t'.
Proof.
  revert s'. induction s as [|a s IH]; intros [|b s'] Hl Heq; simpl in *; [done|done|done|].
  injection Heq as -> Heq. destruct (IH s' ltac:(lia) Heq) as [-> ->]. done.
Qed.

#[export] Instance derived_naming_laws : NamingLaws derived_segments derived_indexes.
Proof.
  split; simpl.
  - intros a i b j [-> Hi]%segment_names_inj. split; [done|lia].
  - intros a x b y Heq. by apply index_names_inj in Heq.
  - intros a x b y Heq. by apply index_names_inj in Heq.
Qed.

#[export] Instance derived_snapshot_laws : SnapshotNamingLaws derived_snapshots.
Proof. intros t a b Heq. change (uuid_of catalog (Snapshot branch t a) = uuid_of catalog (Snapshot branch t b)) in Heq.
  rewrite !uuid_of_parts in Heq. parts_of Heq. by simplify_eq.
Qed.

Lemma app_sep_inj s t s' t' :
  lacks "/"%char s → lacks "/"%char s' → s +:+ String "/" t = s' +:+ String "/" t' → s = s' ∧ t = t'.
Proof.
  intros Hs Hs' Heq. assert (s = s') as ->.
  { apply (f_equal (split_on "/"%char)) in Heq. rewrite !split_app in Heq by done. by injection Heq. }
  apply app_inj_l in Heq. by injection Heq as ->.
Qed.

#[export] Instance derived_ledger_laws : LedgerNamingLaws derived_ledger.
Proof.
  split; simpl; intros a b Heq.
  - parts_of Heq. by simplify_eq.
  - injection Heq as Heq. apply (inj encode) in Heq. unfold tx_log_persist_segment_uri in Heq. do 6 apply app_inj_l in Heq.
    apply app_sep_inj in Heq as [Heq _]; [by apply (inj uuid_to_string) in Heq|auto with penca typeclass_instances..].
Qed.

#[export] Instance derived_fork_laws : ForkNamingLaws derived_fork.
Proof.
  split; simpl.
  - intros t k t' k' Heq. change (uuid_of catalog (Persist branch table t k) = uuid_of catalog (Persist branch table t' k')) in Heq.
    rewrite !uuid_of_parts in Heq.
    apply (deterministic_inj (texts := every_text)) in Heq; [|exact I|exact I|apply parts_lack..|done|done].
    apply parts_inj in Heq as [_ Heq]. by simplify_eq.
  - intros p i p' i' Heq. by apply segment_names_inj in Heq.
Qed.

Lemma version_uuid_inj r tx r' tx' : version_uuid r tx = version_uuid r' tx' → r = r' ∧ tx = tx'.
Proof. intros Heq. parts_of Heq. by simplify_eq. Qed.
End interfaces.

(** ** Postgres names *)

Inductive relation :=
  | ParentTable (catalog : Z) (t : base_table)
  | Leaf (catalog branch : Z) (t : base_table)
  | DataLog (table branch : Z) (kind : LogKind)
  | WriteSequence (table branch : Z).

Section relations.
Context {H : ContentHash}.

Definition relation_name (r : relation) : string :=
  match r with
  | ParentTable catalog t => parent_table catalog t
  | Leaf catalog branch t => partition_name catalog branch t
  | DataLog table branch kind => data_log_table table branch kind
  | WriteSequence table branch => write_sequence table branch
  end.

(** The uuid the name starts with, and what it is the uuid of: a catalog, or the
    hash of a text. *)
Definition relation_uuid (r : relation) : Z :=
  match r with
  | ParentTable catalog _ => catalog
  | Leaf catalog branch t => partition_uuid catalog branch t
  | DataLog table branch _ | WriteSequence table branch => data_object_prefix table branch
  end.

Definition relation_source (r : relation) : Z + string :=
  match r with
  | ParentTable catalog _ => inl catalog
  | Leaf catalog branch t => inr (join_nul [uuid_to_string catalog; uuid_to_string branch; tag_text t])
  | DataLog table branch _ | WriteSequence table branch => inr (join_nul [uuid_to_string table; uuid_to_string branch])
  end.

Definition relation_suffix (r : relation) : string :=
  match r with
  | ParentTable _ t => "_" +:+ tag_text t
  | Leaf _ _ t => "_" +:+ tag_text t +:+ "_partition"
  | DataLog _ _ kind => "_data_" +:+ log_kind_as_str kind
  | WriteSequence _ _ => "_data_write_seq"
  end.

Lemma relation_name_split r : relation_name r = uuid_to_string (relation_uuid r) +:+ relation_suffix r.
Proof. by destruct r. Qed.

Lemma substring_app s t n : String.substring 0 (String.length s + n) (s +:+ t) = s +:+ String.substring 0 n t.
Proof. induction s as [|a s IH]; simpl; [done|]. by rewrite IH. Qed.

Lemma truncated_name r : is_u128 (relation_uuid r) →
  pg_truncate (relation_name r) = uuid_to_string (relation_uuid r) +:+ String.substring 0 27 (relation_suffix r).
Proof.
  intros Hr. rewrite relation_name_split. unfold pg_truncate.
  rewrite <- (substring_app (uuid_to_string (relation_uuid r)) (relation_suffix r) 27). by rewrite uuid_to_string_length.
Qed.

(** Twenty-seven bytes tell the suffixes of one uuid apart. *)
Lemma suffix_tells r r' :
  relation_source r = relation_source r' →
  String.substring 0 27 (relation_suffix r) = String.substring 0 27 (relation_suffix r') → r = r'.
Proof.
  assert (∀ t t', String.substring 0 27 ("_" +:+ tag_text t) = String.substring 0 27 ("_" +:+ tag_text t') → t = t') as Htag.
  { by intros [] []. }
  destruct r as [c t|c b t|tb b k|tb b], r' as [c' t'|c' b' t'|tb' b' k'|tb' b']; unfold relation_source; intros Hs;
    try discriminate Hs; first [apply (inj inl) in Hs as ->|apply (inj inr) in Hs; apply join_inj in Hs;
      [simplify_eq|done|done|by repeat (constructor; auto using tag_lacks with penca typeclass_instances)..]].
  - intros Hsuf. by rewrite (Htag _ _ Hsuf).
  - done.
  - by destruct k, k'.
  - by destruct k.
  - by destruct k'.
  - done.
Qed.
End relations.

(** C40 Postgres' truncation keeps the relations apart.  A catalog's tables, the
    branch partitions, the data logs and the write sequences have names of up to
    83 bytes, of which Postgres keeps 63; two relations whose truncated names
    agree are the same relation, unless their uuids coincide without having been
    derived from the same thing. *)
Theorem pg_names_distinct {H : ContentHash} (r r' : relation) :
  is_u128 (relation_uuid r) → is_u128 (relation_uuid r') →
  (relation_uuid r = relation_uuid r' → relation_source r = relation_source r') →
  r ≠ r' → pg_truncate (relation_name r) ≠ pg_truncate (relation_name r').
Proof.
  intros Hr Hr' Hsrc Hne Heq. apply Hne. rewrite !truncated_name in Heq by done.
  apply app_inj_length in Heq as [Hu Hs]; [|by rewrite !uuid_to_string_length].
  apply suffix_tells; [|done]. by apply Hsrc, (inj uuid_to_string).
Qed.

(** ** The laws the other components assume *)

(** An environment with the derived names of a table. *)
Definition derived_env {H : ContentHash} {V} (catalog branch table : Z) (E : env V) : env V :=
  {| e_version_uuid := version_uuid;
     e_persist_uuid at_ kind := table_persist_uuid catalog branch table at_ kind;
     e_segment_uuid := table_persist_segment_uuid;
     e_snapshot_uuid at_ := table_snapshot_uuid catalog branch table at_;
     e_max_segment_bytes := e_max_segment_bytes E;
     e_schema := e_schema E;
     e_indexes := e_indexes E;
     e_density := e_density E;
     e_may_match := e_may_match E |}.

(** With a hash idealised to collide nowhere the derived names keep the naming
    laws: what the table life cycle, the
    snapshot write path, the transaction ledger and the fork assume of their
    names holds of the names the code derives. *)
Theorem derived_names_keep_laws {H : ContentHash} (Hcf : CollisionFree H every_text) (catalog branch table : Z) (base_uri ext : string)
    {V} (E : env V) value index_key :
  (∀ def x, def ∈ e_indexes E → index_key (index_uuid def) x = (λ c, value c x) <$> index_key_columns def) →
  env_ok (derived_env catalog branch table E) value index_key ∧
  NamingLaws derived_segments derived_indexes ∧
  SnapshotNamingLaws (derived_snapshots catalog branch) ∧
  LedgerNamingLaws (derived_ledger catalog branch base_uri ext) ∧
  ForkNamingLaws (derived_fork catalog branch table).
Proof.
  intros Hix. split_and!; [|apply _..].
  split; simpl; [intros * Heq; by apply version_uuid_inj in Heq|apply (child_persist_inj (ForkNamingLaws:=derived_fork_laws catalog branch table))|
    intros * Heq; by apply segment_names_inj in Heq|done].
Qed.

(** ** A shared name is a collision of two written-out texts *)

(** The names derived by hashing, by the identifier they are: versions of rows,
    segments and indexes of a parent, the ledger's segments, purges, and the
    objects of a catalog. *)
Inductive derived :=
  | DCatalog (catalog : Z) (n : catalog_name)
  | DVersion (row tx : Z)
  | DSegment (parent chunk : Z)
  | DIndex (parent : Z) (index : option Z)
  | DLedger (catalog branch seq : Z)
  | DPurge (catalog branch table pu_seq pa_seq : Z).

(** Two names of one kind are stored side by side. *)
Definition same_kind (d d' : derived) : Prop :=
  match d, d' with
  | DCatalog _ _, DCatalog _ _ | DVersion _ _, DVersion _ _ | DSegment _ _, DSegment _ _
  | DIndex _ _, DIndex _ _ | DLedger _ _ _, DLedger _ _ _ | DPurge _ _ _ _ _, DPurge _ _ _ _ _ => True
  | _, _ => False
  end.

Section collisions.
Context {H : ContentHash}.

Definition derived_uuid (d : derived) : Z :=
  match d with
  | DCatalog catalog n => uuid_of catalog n
  | DVersion row tx => version_uuid row tx
  | DSegment parent chunk => table_persist_segment_uuid parent chunk
  | DIndex parent index => table_snapshot_index_uuid parent index
  | DLedger catalog branch seq => tx_log_persist_segment_uuid catalog branch seq
  | DPurge catalog branch table pu_seq pa_seq => table_purge_uuid catalog branch table pu_seq pa_seq
  end.

Definition derived_parts (d : derived) : list string :=
  match d with
  | DCatalog catalog n => parts catalog n
  | DVersion row tx => [uuid_to_string row; uuid_to_string tx]
  | DSegment parent chunk => [uuid_to_string parent; pretty chunk]
  | DIndex parent index => [uuid_to_string parent; index_disc index]
  | DLedger catalog branch seq => [uuid_to_string (tx_log_persist_anchor catalog); uuid_to_string branch; pretty seq]
  | DPurge catalog branch table pu_seq pa_seq =>
      [uuid_to_string (purge_anchor catalog); uuid_to_string branch; uuid_to_string table; pretty pu_seq; pretty pa_seq]
  end.

(** Every text hashed on the way to the name, the anchors' included. *)
Definition hashed_texts (d : derived) : list string :=
  join_nul (derived_parts d) ::
  match d with
  | DLedger catalog _ _ => [join_nul [uuid_to_string catalog; "tx_log_persist"]]
  | DPurge catalog _ _ _ _ => [join_nul [uuid_to_string catalog; "purge"]]
  | _ => []
  end.

(** Two different texts, one hashed for each name, with one hash. *)
Definition collision (d d' : derived) : Prop :=
  ∃ a b, a ∈ hashed_texts d ∧ b ∈ hashed_texts d' ∧ a ≠ b ∧ xxh3_128 a = xxh3_128 b.

Lemma derived_uuid_parts d : derived_uuid d = xxh3_128 (join_nul (derived_parts d)).
Proof. destruct d as [c n| | | | |]; try done. by destruct n. Qed.

Lemma derived_parts_lack d : derived_parts d ≠ [] ∧ Forall (lacks NUL) (derived_parts d).
Proof.
  destruct d as [c n| | |p [x|]| |]; (split; [done|]); try apply parts_lack; repeat (constructor; auto with penca typeclass_instances); done.
Qed.

(** Texts with one hash are one text, or the names collide. *)
Lemma same_or_collision d d' (xs ys : list string) :
  join_nul xs ∈ hashed_texts d → join_nul ys ∈ hashed_texts d' → xs ≠ [] → ys ≠ [] → Forall (lacks NUL) xs → Forall (lacks NUL) ys →
  xxh3_128 (join_nul xs) = xxh3_128 (join_nul ys) → xs = ys ∨ collision d d'.
Proof.
  intros Hx Hy Hnx Hny Hlx Hly Heq. destruct (decide (join_nul xs = join_nul ys)) as [Hj|Hj]; [left|right].
  - by eapply join_inj.
  - by exists (join_nul xs), (join_nul ys).
Qed.

Lemma anchor_or_collision d d' c c' (tag : string) :
  lacks NUL tag → join_nul [uuid_to_string c; tag] ∈ hashed_texts d → join_nul [uuid_to_string c'; tag] ∈ hashed_texts d' →
  deterministic_uuid_from [uuid_to_string c; tag] = deterministic_uuid_from [uuid_to_string c'; tag] → c = c' ∨ collision d d'.
Proof.
  intros Ht Hx Hy Heq. destruct (same_or_collision d d' _ _ Hx Hy) as [He|Hc]; [done|done| | |exact Heq| |by right].
  - by repeat (constructor; auto with penca typeclass_instances).
  - by repeat (constructor; auto with penca typeclass_instances).
  - left. by simplify_eq.
Qed.
End collisions.

(** C35 Two names share a uuid only when the hash collides on two texts written
    out for them.  Whatever the hash is, two derived names of one kind (objects of
    catalogs, row versions, segments or indexes of a parent, ledger segments,
    purges) have the same uuid exactly when they are the same name or some text
    hashed for the one and a different text hashed for the other have one hash:
    the joined texts, anchors included, determine what they were made from. *)
Theorem derived_names_exact {H : ContentHash} (d d' : derived) (Hk : same_kind d d') :
  (derived_uuid d = derived_uuid d' → d = d' ∨ collision d d') ∧ (d = d' → derived_uuid d = derived_uuid d').
Proof.
  split; [|by intros ->]. rewrite !derived_uuid_parts. intros Heq.
  destruct (derived_parts_lack d) as [Hn Hl], (derived_parts_lack d') as [Hn' Hl'].
  destruct (same_or_collision d d' (derived_parts d) (derived_parts d')) as [Hp|Hc]; try done; [by left|by left| |by right].
  destruct d as [c n| | |p x|c b s|c b tb pu pa], d' as [c' n'| | |p' x'|c' b' s'|c' b' tb' pu' pa']; try done; cbn [derived_parts] in Hp.
  - left. by apply parts_inj in Hp as [-> ->].
  - left. by simplify_eq.
  - left. by simplify_eq.
  - left. injection Hp as E1%(inj uuid_to_string) E2%index_disc_inj. by subst.
  - injection Hp as E1%(inj uuid_to_string) E2 E3. destruct (anchor_or_collision (DLedger c b s) (DLedger c' b' s') c c' "tx_log_persist")
      as [->|Hc]; [done|right; by left..|exact E1| |by right]. left. by simplify_eq.
  - injection Hp as E1%(inj uuid_to_string) E2 E3 E4 E5. destruct (anchor_or_collision (DPurge c b tb pu pa) (DPurge c' b' tb' pu' pa') c c' "purge")
      as [->|Hc]; [done|right; by left..|exact E1| |by right]. left. by simplify_eq.
Qed.

Module NameDemo.

(** A hash without collisions, and one that collides at once. *)
#[local] Instance code_hash : ContentHash := λ s, Zpos (encode s).

#[local] Instance code_hash_free : CollisionFree code_hash every_text.
Proof. intros s t _ _ Heq. injection Heq as Heq. by apply (inj encode) in Heq. Qed.

Definition short_hash : ContentHash := λ s, Z.of_nat (String.length s).

(** A hash of 128 bits in the manner of FNV: it tells apart two segments whose
    parts concatenate alike. *)
Definition byte_of (a : Ascii.ascii) : Z := Z.of_N (Ascii.N_of_ascii a).

Fixpoint fold_bytes (s : string) (h : Z) : Z :=
  match s with
  | EmptyString => h
  | String a rest => fold_bytes rest ((Z.lxor h (byte_of a) * (2 ^ 88 + 315)) mod 2 ^ 128)
  end.

Definition wide_hash : ContentHash := λ s, fold_bytes s 144066263297769815596495629667062367629.

Lemma derived_names_exact_witness :
  derived_uuid (H:=wide_hash) (DSegment 1 23) ≠ derived_uuid (H:=wide_hash) (DSegment 12 3) ∧
  derived_uuid (H:=short_hash) (DSegment 1 23) = derived_uuid (H:=short_hash) (DSegment 1 45) ∧
  collision (H:=short_hash) (DSegment 1 23) (DSegment 1 45).
Proof.
  split; [vm_compute; congruence|]. split; [vm_compute; reflexivity|].
  destruct (proj1 (derived_names_exact (H:=short_hash) (DSegment 1 23) (DSegment 1 45) I)) as [He|Hc]; [vm_compute; reflexivity|discriminate He|exact Hc].
Defined.

(** The two longest parent names share their first 61 bytes. *)
Lemma pg_names_distinct_witness :
  pg_truncate (parent_table 7 TABLE_SNAPSHOT_SEGMENT_METADATA) ≠ pg_truncate (parent_table 7 TABLE_SNAPSHOT_SEGMENT_INDEX_METADATA).
Proof.
  apply (pg_names_distinct (H:=short_hash) (ParentTable 7 TABLE_SNAPSHOT_SEGMENT_METADATA)
    (ParentTable 7 TABLE_SNAPSHOT_SEGMENT_INDEX_METADATA)); [split; vm_compute; congruence..|reflexivity|discriminate].
Defined.

Lemma derived_names_keep_laws_witness :
  LedgerNamingLaws (derived_ledger 7 1 "s3://cold" "lance").
Proof.
  destruct (derived_names_keep_laws code_hash_free 7 1 2 "s3://cold" "lance" (V:=Z)
    {| e_version_uuid := λ _ _, 0; e_persist_uuid := λ _ _, 0; e_segment_uuid := λ _ _, 0; e_snapshot_uuid := λ _, 0;
       e_max_segment_bytes := 1; e_schema := []; e_indexes := []; e_density := None; e_may_match := λ _ _, true |}
    (λ _ x, Some x.2) (λ _ _, [])) as (_ & _ & _ & Hl & _); [|exact Hl].
  intros def x Hd. exfalso. by apply elem_of_nil in Hd.
Defined.

End NameDemo.
