(* ===== verification/ForkCopy.v ===== *)
(** * What ties segments to their headers

    Every reachable state's persist segments hang off a committed header of
    their kind that is stamped no earlier than their last row, the headers of a
    kind have distinct stamps, and every snapshot sits on a header's stamp. *)

From S2P Require Import Prelude CoreTypes Watermarks ReadSnapshot Dialect MergeSql IndexSeek Plan SnapshotScan IndexSelect Effects TxLog TxLedger TxLedgerInv TxLedgerTheorems ForkPoint TableStore Chunker ReadPath Lifecycle ReadLemmas ReadData Tiers System SystemInv SystemPersist SystemSnapshot SystemTheorems AuditSystem Fork.
From stdpp Require Import base numbers list option sets gmap sorting.

Open Scope Z_scope.

Section links.
Context {V : Type} `{CV : ColdBatch V, CU : ColdBatch unit, L : SnapshotLayout V}.
Context (E : env V) (value : Z → Z * V → cell) (index_key : Z → Z * V → list cell).
Context `{!ColdBatchLaws CV, !ColdBatchLaws CU, !SnapshotLayoutLaws L value index_key}.
Context (Henv : env_ok E value index_key).

Record linked {A} (k : LogKind) (headers : list persist_header) (segs : list (segment_meta A)) : Prop := {
  ln_header : ∀ g, g ∈ segs → ∃ h, h ∈ headers ∧ ph_uuid h = sg_table_persist_uuid g ∧ ph_log_kind h = k ∧
    sg_max_tx_commit_micros g ≤ ph_persisted_at_micros h;
  ln_named : ∀ g, g ∈ segs → sg_uuid g = e_segment_uuid E (sg_table_persist_uuid g) (sg_chunk_idx g) ∧ 0 ≤ sg_chunk_idx g;
  ln_nodup : NoDup (sg_uuid <$> segs);
  ln_min : ∀ g, g ∈ segs → ∃ x, x ∈ sg_rows g ∧ commit_seq_num x = sg_min_commit_seq_num g;
}.

Definition header_key (h : persist_header) : Z * LogKind := (ph_persisted_at_micros h, ph_log_kind h).

Record meta_linked (m : table_meta V) : Prop := {
  ml_headers : NoDup (header_key <$> tm_persists m);
  ml_committed : ∀ h, h ∈ tm_persists m → is_Some (ph_commit_micros h);
  ml_upserts : linked UpsertLog (tm_persists m) (tm_upsert_segments m);
  ml_deletes : linked DeleteLog (tm_persists m) (tm_delete_segments m);
  ml_snapshots : ∀ sn, sn ∈ committed sn_commit_micros (tm_snapshots m) →
    ∃ h, h ∈ tm_persists m ∧ ph_persisted_at_micros h = sn_snapshotted_at_micros sn;
}.

Lemma linked_start : meta_linked empty_meta.
Proof.
  assert (∀ A k, linked k [] (@nil (segment_meta A))) by (intros A k; split; [..|constructor|]; by intros ? ?%not_elem_of_nil).
  split; cbn; [constructor|..]; try done; by intros ? ?%not_elem_of_nil.
Qed.

(** ** Steps that leave the persists alone *)

Lemma linked_same (m m' : table_meta V) :
  meta_linked m → tm_persists m' = tm_persists m → tm_upsert_segments m' = tm_upsert_segments m →
  tm_delete_segments m' = tm_delete_segments m → tm_snapshots m' = tm_snapshots m → meta_linked m'.
Proof. intros [H1 H2 H3 H4 H5] Hp Hu Hd Hs. split; rewrite ?Hp, ?Hu, ?Hd, ?Hs; done. Qed.

Lemma client_meta st now (o : op V) : ts_meta (bs_table (client E st now o)) = ts_meta (bs_table st).
Proof.
  destruct o as [tx timeout|tx|tx|fresh tx ch|target|as_of|]; cbn; try done.
  - by destruct (begin_tx _ _ _ _) as [[]|].
  - by destruct (commit_tx _ _ _) as [[]|].
  - by destruct (abort_tx _ _ _) as [[]|].
  - unfold write_data. destruct (resolve_or_auto_commit_tx _ _ _ _) as [[l [tx' c]]|]; [|done]. cbn. destruct ch as [ch|]; [|done].
    unfold apply_change. case_decide; [done|]. destruct (insert_deletes _ _ _ _ _). case_decide; [|done]. by destruct (insert_upserts _ _ _ _ _).
Qed.

Lemma purge_segments (st : branch_state V) now : let m := ts_meta (bs_table st) in let m' := ts_meta (bs_table (purge_locked st now).1) in
  tm_persists m' = tm_persists m ∧ tm_upsert_segments m' = tm_upsert_segments m ∧
  tm_delete_segments m' = tm_delete_segments m ∧ tm_snapshots m' = tm_snapshots m.
Proof.
  cbv zeta. unfold purge_locked. cbv zeta.
  repeat match goal with |- context [match ?x with Some _ => _ | None => _ end] => destruct x end; done.
Qed.

(** ** Snapshot *)

Lemma wm_header (m : table_meta V) w : persist_wm m = Some w → ∃ h, h ∈ tm_persists m ∧ ph_persisted_at_micros h = w.
Proof. intros [(h & -> & [_ Hh]%list_elem_of_filter)%list_elem_of_fmap _]%zmax_list_Some. eauto. Qed.

Lemma window_ends_at_wm (m : table_meta V) as_of at_ prior :
  compute_snapshot_window m as_of = Some (at_, prior) → (∀ t w, as_of = Some t → persist_wm m = Some w → w ≤ t) →
  persist_wm m = Some at_.
Proof.
  unfold compute_snapshot_window. cbv zeta. intros Hw Hle. destruct (persist_wm m) as [w|]; [|by destruct as_of].
  destruct (0 <? w); [|by destruct as_of].
  assert (∀ u, match read_snapshot_segments_for_table m None None with
               | Some s => if u <=? sn_snapshotted_at_micros s then None else Some (u, read_snapshot_segments_for_table m None None)
               | None => Some (u, read_snapshot_segments_for_table m None None)
               end = Some (at_, prior) → u = at_) as Hu.
  { intros u. destruct (read_snapshot_segments_for_table m None None) as [s|]; [destruct (u <=? _); [done|]|]; by intros [= -> _]. }
  destruct as_of as [t|]; apply Hu in Hw as <-; [|done]. specialize (Hle t w eq_refl eq_refl). f_equal. lia.
Qed.

Lemma linked_snapshot st now as_of :
  meta_linked (ts_meta (bs_table st)) → scheduled E st now (OpSnapshot as_of) →
  meta_linked (ts_meta (bs_table (run E st now (OpSnapshot as_of)))).
Proof.
  intros Hm Hsch. cbn. unfold snapshot_locked.
  destruct (compute_snapshot_window _ _) as [[at_ prior]|] eqn:Ew; [|done]. destruct (stream_all_cold _ _) as [rows|]; [|done]. cbn.
  pose proof Hm as [H1 H2 H3 H4 H5]. split; cbn; try done. intros sn. unfold committed. rewrite filter_app.
  intros [Hsn|[_ ->%list_elem_of_singleton]%list_elem_of_filter]%elem_of_app; [by apply H5|]. cbn. apply wm_header.
  eapply window_ends_at_wm; [done|]. intros t w ->. apply Hsch.
Qed.

(** ** Persist *)

Lemma header_of_elem {A} target at_micros k (rows : list (src_row A)) c h :
  h ∈ header_of E target at_micros k rows c ↔
    rows ≠ [] ∧ h = {| ph_uuid := e_persist_uuid E target k; ph_log_kind := k; ph_persisted_at_micros := at_micros; ph_commit_micros := c |}.
Proof. destruct rows; cbn; [rewrite elem_of_nil; naive_solver|rewrite list_elem_of_singleton; naive_solver]. Qed.

Lemma linked_persist {A} now target candidate k (rows : list (src_row A)) headers headers' segs new :
  linked k headers segs → new_segments E now target k rows new →
  (∀ h, h ∈ headers → h ∈ headers') → (∀ h, h ∈ header_of E target candidate k rows (Some now) → h ∈ headers') →
  (∀ x, x ∈ rows → commit_micros x ≤ candidate) →
  (∀ h, h ∈ headers → ph_uuid h ≠ e_persist_uuid E target k) →
  linked k headers' (segs ++ new).
Proof using Henv.
  intros [Hh Hn Hnd Hmin] Hs Hsub Hnew Hle Hfr. split.
  - intros g [Hg|Hg]%elem_of_app.
    + destruct (Hh g Hg) as (h & ? & ? & ? & ?). eauto 8.
    + destruct (ns_uuid _ _ _ _ _ _ Hs g Hg) as (Hne & -> & _). eexists. split; [apply Hnew, header_of_elem; done|]. cbn. split_and!; [done|done|].
      destruct (ns_max _ _ _ _ _ _ Hs g Hg) as [_ (x & Hx & <-)]. apply Hle, (ns_rows _ _ _ _ _ _ Hs). eauto.
  - intros g [Hg|Hg]%elem_of_app; [by apply Hn|]. destruct (ns_uuid _ _ _ _ _ _ Hs g Hg) as (_ & -> & -> & ?). done.
  - rewrite fmap_app. apply NoDup_app. split_and!; [done| |apply (ns_nodup _ _ _ _ _ _ Hs)].
    intros u (g & -> & Hg)%list_elem_of_fmap (g' & Heq & Hg')%list_elem_of_fmap.
    destruct (ns_uuid _ _ _ _ _ _ Hs g' Hg') as (_ & _ & Hu & _). destruct (Hn g Hg) as [Hu' _]. rewrite Hu, Hu' in Heq.
    apply (eo_segment _ _ _ Henv) in Heq as [Heq _]. destruct (Hh g Hg) as (h & Hin & Hhu & _). apply (Hfr h Hin). congruence.
  - intros g [Hg|Hg]%elem_of_app; [by apply Hmin|by apply (ns_min _ _ _ _ _ _ Hs)].
Qed.

Lemma header_below_wm (m : table_meta V) h :
  (∀ h, h ∈ tm_persists m → is_Some (ph_commit_micros h)) → h ∈ tm_persists m → ∃ w, persist_wm m = Some w ∧ ph_persisted_at_micros h ≤ w.
Proof.
  intros Hc Hh. assert (ph_persisted_at_micros h ∈ ph_persisted_at_micros <$> committed ph_commit_micros (tm_persists m)) as Hin.
  { apply list_elem_of_fmap_2, list_elem_of_filter. split; [by apply Hc|done]. }
  unfold persist_wm. destruct (zmax_list _) as [w|] eqn:Ez.
  - exists w. split; [done|]. apply zmax_list_Some in Ez as [_ Ez]. by apply Ez.
  - apply zmax_list_None in Ez. rewrite Ez in Hin. by apply not_elem_of_nil in Hin.
Qed.

Lemma keys_persist {A B} (m : table_meta V) target candidate (us : list (src_row A)) (ds : list (src_row B)) now :
  meta_linked m → (∀ z, persist_wm m = Some z → z < candidate) →
  NoDup (header_key <$> (tm_persists m ++ header_of E target candidate UpsertLog us (Some now)) ++ header_of E target candidate DeleteLog ds (Some now)).
Proof.
  intros Hm Hlt. rewrite <- app_assoc, fmap_app. apply NoDup_app. split_and!; [apply Hm| |].
  - intros k (h & -> & Hh)%list_elem_of_fmap (h' & Heq & Hh')%list_elem_of_fmap.
    destruct (header_below_wm m h (ml_committed _ Hm) Hh) as (w & Hw & Hle). specialize (Hlt w Hw).
    assert (ph_persisted_at_micros h' = candidate) as He by (apply elem_of_app in Hh' as [[_ ->]%header_of_elem|[_ ->]%header_of_elem]; done).
    injection Heq as Heq _. lia.
  - unfold header_of. destruct us, ds; cbn; repeat constructor; rewrite ?list_elem_of_singleton, ?elem_of_nil; naive_solver.
Qed.

Lemma linked_run_persist w gone now target :
  Inv E value index_key w gone → scheduled E (w_real w) now (OpPersist target) →
  meta_linked (ts_meta (bs_table (w_real w))) → meta_linked (ts_meta (bs_table (run E (w_real w) now (OpPersist target)))).
Proof using All.
  intros Hi Hsch Hm. cbn [run]. destruct (persist_locked _ _ _ _ _ _) as [[st out]|] eqn:Ep; [|done].
  pose proof Henv as [_ Hpi Hsi _].
  apply (persist_outcome E value index_key Hpi Hsi w gone) in Ep as [[-> _]|(candidate & newU & newD & Hc & Hlt & HnU & HnD & ->)]; [done| |done|done].
  set (t := effective_target target now) in *. set (m := ts_meta (bs_table (w_real w))) in *.
  set (us := read_committed _ (ts_upserts _) _) in *. set (ds := read_committed _ (ts_deletes _) _) in *.
  apply zmax_list_Some in Hc as [_ Hmax]. destruct Hsch as [_ Hfr].
  assert (∀ k h, h ∈ tm_persists m → ph_uuid h ≠ e_persist_uuid E t k) as Hfr'.
  { intros k h Hh Heq. apply (Hfr k). unfold t in Heq. rewrite <- Heq. by apply list_elem_of_fmap_2. }
  pose proof (keys_persist m t candidate us ds now Hm Hlt) as Hkeys. destruct Hm as [_ H2 H3 H4 H5].
  split; cbn [bs_table ts_meta tm_persists tm_upsert_segments tm_delete_segments tm_snapshots].
  - exact Hkeys.
  - intros h [[Hh|[_ ->]%header_of_elem]%elem_of_app|[_ ->]%header_of_elem]%elem_of_app; [by apply H2|by eexists..].
  - eapply (linked_persist now t candidate); [exact H3|exact HnU|..|apply Hfr'].
    + intros h Hh. apply elem_of_app. left. apply elem_of_app. by left.
    + intros h Hh. apply elem_of_app. left. apply elem_of_app. by right.
    + intros x Hx. apply Hmax, elem_of_app. left. by apply list_elem_of_fmap_2.
  - eapply (linked_persist now t candidate); [exact H4|exact HnD|..|apply Hfr'].
    + intros h Hh. apply elem_of_app. left. apply elem_of_app. by left.
    + intros h Hh. apply elem_of_app. by right.
    + intros x Hx. apply Hmax, elem_of_app. right. by apply list_elem_of_fmap_2.
  - intros sn Hsn. destruct (H5 sn Hsn) as (h & Hh & ?). exists h. split; [|done]. apply elem_of_app. left. apply elem_of_app. by left.
Qed.

Lemma linked_run w gone now o :
  Inv E value index_key w gone → scheduled E (w_real w) now o →
  meta_linked (ts_meta (bs_table (w_real w))) → meta_linked (ts_meta (bs_table (run E (w_real w) now o))).
Proof using All.
  intros Hi Hsch Hm. destruct o as [tx timeout|tx|tx|fresh tx ch|target|as_of|].
  1-4: cbn [run]; by rewrite client_meta.
  - by eapply linked_run_persist.
  - by apply linked_snapshot.
  - destruct (purge_segments (w_real w) now) as (? & ? & ? & ?). by eapply linked_same.
Qed.

(** ** Reachable states of the joint system *)

Context {Note : Type} (note_of : Z → Note) {N : LedgerNaming} (Hn : LedgerNamingLaws N).

Lemma persist_with_ledger_state st (ledger : ledger_store Note) now target faults st' ledger' out :
  persist_with_ledger note_of E st ledger now target faults = (st', ledger', out) →
  st' = st ∨ st' = run E st now (OpPersist target).
Proof using.
  unfold persist_with_ledger. case_match; [intros [= -> _ _]; by left|]. destruct (compute_candidate_persisted_at_gated _ _ _) as [[ca sq]|]; [|intros [= -> _ _]; by left].
  destruct (persist_tx_log _ _ _ _ _ _) as [w r]. destruct r as [u|e|]; cbn [run].
  - destruct (persist_locked _ _ _ _ _ _) as [[st1 o]|]; intros [= -> _ _]; [by right|by left].
  - intros [= -> _ _]; by left.
  - intros [= -> _ _]; by left.
Qed.

Lemma linked_jstep s s' : jstep note_of E s s' → JInv note_of E value index_key s →
  meta_linked (ts_meta (bs_table (w_real s.1))) → meta_linked (ts_meta (bs_table (w_real s'.1))).
Proof using All.
  intros Hst [[gone Hi] _ _ _ _] Hm. destruct Hst as [w ledger now o Hnp Htick Hsch|w ledger now target faults st ledger' out Htick Hsch Hp|w ledger now target faults]; cbn in *.
  - by eapply linked_run.
  - apply persist_with_ledger_state in Hp as [->| ->]; [done|]. by eapply linked_run.
  - done.
Qed.

Lemma linked_reachable s : rtc (jstep note_of E) jstart s → meta_linked (ts_meta (bs_table (w_real s.1))).
Proof using All.
  intros Hr. assert (JInv note_of E value index_key (@jstart V Note)) as Hs by by apply jinv_start.
  assert (meta_linked (ts_meta (bs_table (w_real (@jstart V Note).1)))) as Hm by apply linked_start.
  revert Hs Hm. generalize (@jstart V Note) as x, s, Hr. clear s Hr. intros x y Hr. induction Hr as [x|x y z Hxy _ IH]; [done|].
  intros Hx Hm. apply IH; [by eapply jinv_step|by eapply linked_jstep].
Qed.
End links.

(** ** What the fork copies

    On a source whose segments are tied to their headers, the copy of the cold
    references succeeds; the child's headers, segments and snapshot are exactly
    the ones the fork keeps. *)

(** ** Inserts that do nothing on a conflict *)

Section inserts.
Context {A : Type} (key : A → Z).

Definition same_key (P : A → Prop) : Prop := ∀ x y, P x → P y → key x = key y → x = y.

Lemma insert_elem x l z : (∀ y, y ∈ l → key y = key x → y = x) → z ∈ insert_do_nothing key x l ↔ z ∈ l ∨ z = x.
Proof.
  intros Hf. unfold insert_do_nothing. case_decide as Hk.
  - apply list_elem_of_fmap in Hk as (y & Hy & Hin). assert (y = x) as -> by (by apply Hf). naive_solver.
  - by rewrite elem_of_app, list_elem_of_singleton.
Qed.

Lemma inserts_elem new : ∀ l z, same_key (λ x, x ∈ l ∨ x ∈ new) →
  z ∈ foldl (λ l x, insert_do_nothing key x l) l new ↔ z ∈ l ∨ z ∈ new.
Proof.
  induction new as [|x new IH]; intros l z Hk; cbn; [rewrite elem_of_nil; tauto|].
  assert (∀ y, y ∈ insert_do_nothing key x l ↔ y ∈ l ∨ y = x) as Hi.
  { intros y. apply insert_elem. intros y' Hy' Heq. apply Hk; [by left|right; by left|done]. }
  rewrite IH, Hi, elem_of_cons; [tauto|]. intros y y' Hy Hy'. rewrite Hi in Hy, Hy'. apply Hk; rewrite elem_of_cons; tauto.
Qed.
End inserts.

Section copy.
Context {V : Type} {N : ForkNaming} (HN : ForkNamingLaws N) (E : env V).
Context (m : table_meta V) (Hm : meta_linked E m) (F seg_from now : Z).
Context (HcU : ∀ g, g ∈ tm_upsert_segments m → is_Some (sg_commit_micros g))
        (HcD : ∀ g, g ∈ tm_delete_segments m → is_Some (sg_commit_micros g)).

Definition new_header (h : persist_header) : Z := child_persist_uuid (ph_persisted_at_micros h) (ph_log_kind h).

Definition header_copy (h : persist_header) : persist_header :=
  {| ph_uuid := new_header h; ph_log_kind := ph_log_kind h; ph_persisted_at_micros := ph_persisted_at_micros h; ph_commit_micros := Some now |}.

Definition segment_copy {A} (h : persist_header) (g : segment_meta A) : segment_meta A :=
  clamp_segment (new_header h) (child_persist_segment_uuid (new_header h) (sg_chunk_idx g)) F now g.

(** Above the baseline, and at or below the fork. *)
Definition above (h : persist_header) : Prop := sat_sub seg_from 1 < ph_persisted_at_micros h.
Definition qualifies {A} (h : persist_header) (g : segment_meta A) : Prop :=
  sg_table_persist_uuid g = ph_uuid h ∧ sg_min_commit_seq_num g ≤ F.

Definition written (h : persist_header) : Prop :=
  ¬ above h ∨ (ph_log_kind h = UpsertLog ∧ ∃ g, g ∈ tm_upsert_segments m ∧ qualifies h g) ∨
  (ph_log_kind h = DeleteLog ∧ ∃ g, g ∈ tm_delete_segments m ∧ qualifies h g).

(** ** One kind of segments *)

Section kind.
Context {A : Type} (k : LogKind) (segs : list (segment_meta A)).
Context (Hl : linked E k (tm_persists m) segs) (Hc : ∀ g, g ∈ segs → is_Some (sg_commit_micros g)).

Definition copied_of (hs : list persist_header) (g' : segment_meta A) : Prop :=
  ∃ h g, h ∈ hs ∧ ph_log_kind h = k ∧ above h ∧ g ∈ segs ∧ qualifies h g ∧ g' = segment_copy h g.

Lemma inherited_elem h g : g ∈ inherited_segments (ph_uuid h) F segs ↔ g ∈ segs ∧ qualifies h g.
Proof using Hc.
  unfold inherited_segments, committed, qualifies. rewrite merge_sort_Permutation, !list_elem_of_filter. naive_solver.
Qed.

Lemma pairs_ok h :
  segment_pairs (new_header h) (inherited_segments (ph_uuid h) F segs) =
    Ok ((λ g, (child_persist_segment_uuid (new_header h) (sg_chunk_idx g), sg_uuid g)) <$> inherited_segments (ph_uuid h) F segs).
Proof using Hl Hc.
  set (f := λ g : segment_meta A, (child_persist_segment_uuid (new_header h) (sg_chunk_idx g), sg_uuid g)).
  unfold segment_pairs. enough (mapM (λ g : segment_meta A, if sg_chunk_idx g <? 0 then None
    else Some (child_persist_segment_uuid (new_header h) (sg_chunk_idx g), sg_uuid g)) (inherited_segments (ph_uuid h) F segs) =
    Some (f <$> inherited_segments (ph_uuid h) F segs)) as -> by done. apply mapM_Some.
  assert (∀ g, g ∈ inherited_segments (ph_uuid h) F segs → 0 ≤ sg_chunk_idx g) as Hpos.
  { intros g [Hg _]%inherited_elem. by apply (ln_named _ _ _ _ Hl). }
  induction (inherited_segments (ph_uuid h) F segs) as [|g l IH]; cbn; constructor.
  - destruct (Z.ltb_spec (sg_chunk_idx g) 0); [|done]. specialize (Hpos g). assert (0 ≤ sg_chunk_idx g) by (apply Hpos; by left). lia.
  - apply IH. intros g' Hg'. apply Hpos. by right.
Qed.

Lemma segs_inj g g' : g ∈ segs → g' ∈ segs → sg_uuid g = sg_uuid g' → g = g'.
Proof using Hl. intros Hg Hg'. by apply (NoDup_fmap_eq sg_uuid segs g g' (ln_nodup _ _ _ _ Hl)). Qed.

Lemma copied_same_key hs : (∀ h, h ∈ hs → h ∈ tm_persists m) → same_key sg_uuid (copied_of hs).
Proof using Hl Hm HN.
  intros Hsub x y (h & g & Hh & Hk & _ & Hg & [Ht Hq] & ->) (h' & g' & Hh' & Hk' & _ & Hg' & [Ht' Hq'] & ->) Heq. cbn in Heq.
  apply child_segment_inj in Heq as [Heq Hix]. apply child_persist_inj in Heq as [Hat _].
  assert (h = h') as <-.
  { apply (NoDup_fmap_eq header_key (tm_persists m)); [apply Hm|by apply Hsub..|]. unfold header_key. congruence. }
  assert (g = g') as <-; [|done]. apply segs_inj; [done..|].
  destruct (ln_named _ _ _ _ Hl g Hg) as [-> _], (ln_named _ _ _ _ Hl g' Hg') as [-> _]. congruence.
Qed.

Lemma joined_elem h g' :
  let pairs := (λ g, (child_persist_segment_uuid (new_header h) (sg_chunk_idx g), sg_uuid g)) <$> inherited_segments (ph_uuid h) F segs in
  (g' ∈ (segs ≫= λ old, (λ p : Z * Z, clamp_segment (new_header h) p.1 F now old) <$> filter (λ p : Z * Z, p.2 = sg_uuid old) pairs)) ↔
  ∃ g, g ∈ segs ∧ qualifies h g ∧ g' = segment_copy h g.
Proof using Hl Hc.
  cbv zeta. rewrite list_elem_of_bind. setoid_rewrite list_elem_of_fmap. setoid_rewrite list_elem_of_filter. setoid_rewrite list_elem_of_fmap. split.
  - intros (old & (p & -> & Hp & (g & -> & [Hg Hq]%inherited_elem)) & Hold). cbn in Hp. assert (g = old) as -> by (by apply segs_inj). eauto.
  - intros (g & Hg & Hq & ->). exists g. split; [|done]. eexists. split; [|split; [|exists g; split; [done|by apply inherited_elem]]]; done.
Qed.

(** The segments after one more header of this kind. *)
Lemma copy_segments_elem hs h (c : list (segment_meta A)) g' :
  (∀ h', h' ∈ hs ++ [h] → h' ∈ tm_persists m) → ph_log_kind h = k → above h → (∀ x, x ∈ c ↔ copied_of hs x) →
  g' ∈ copy_segments (new_header h) F now
         ((λ g, (child_persist_segment_uuid (new_header h) (sg_chunk_idx g), sg_uuid g)) <$> inherited_segments (ph_uuid h) F segs) segs c ↔
  copied_of (hs ++ [h]) g'.
Proof using Hl Hm HN Hc.
  intros Hsub Hk Hab Hcs. unfold copy_segments.
  assert (∀ x, (∃ g, g ∈ segs ∧ qualifies h g ∧ x = segment_copy h g) → copied_of (hs ++ [h]) x) as Hnew.
  { intros x (g & ? & ? & ?). exists h, g. split_and!; try done. apply elem_of_app. right. by left. }
  assert (∀ x, copied_of hs x → copied_of (hs ++ [h]) x) as Hold.
  { intros x (h0 & g & ? & ?). exists h0, g. split; [apply elem_of_app; by left|done]. }
  rewrite inserts_elem, joined_elem, Hcs.
  - split; [intros [?|?]; auto|]. intros (h0 & g & [Hh| ->%list_elem_of_singleton]%elem_of_app & ? & ? & ? & ? & ?); [left|right; eauto].
    exists h0, g. done.
  - intros x y. rewrite !joined_elem, !Hcs. intros Hx Hy. apply (copied_same_key (hs ++ [h]) Hsub); [destruct Hx|destruct Hy]; auto.
Qed.
End kind.

(** ** The loop over the headers *)

(** The child after the headers [hs]. *)
Record inherited (hs : list persist_header) (c0 c : table_meta V) (wrote : bool) : Prop := {
  ih_headers : ∀ h', h' ∈ tm_persists c ↔ ∃ h, h ∈ hs ∧ written h ∧ h' = header_copy h;
  ih_upserts : ∀ g', g' ∈ tm_upsert_segments c ↔ copied_of UpsertLog (tm_upsert_segments m) hs g';
  ih_deletes : ∀ g', g' ∈ tm_delete_segments c ↔ copied_of DeleteLog (tm_delete_segments m) hs g';
  ih_rest : tm_snapshots c = tm_snapshots c0 ∧ tm_purges c = tm_purges c0;
  ih_wrote : wrote = true ↔ ∃ h, h ∈ hs ∧ written h;
}.

Lemma inherited_start c0 :
  tm_persists c0 = [] → tm_upsert_segments c0 = [] → tm_delete_segments c0 = [] → inherited [] c0 c0 false.
Proof using.
  intros Hp Hu Hd. assert (∀ A k (segs : list (segment_meta A)) g', copied_of k segs [] g' ↔ False) as Hc.
  { intros A k segs g'. split; [|done]. by intros (h & g & ?%not_elem_of_nil & _). }
  split; [..|done|]; rewrite ?Hp, ?Hu, ?Hd.
  - intros h'. rewrite elem_of_nil. split; [done|]. by intros (h & ?%not_elem_of_nil & _).
  - intros g'. by rewrite elem_of_nil, Hc.
  - intros g'. by rewrite elem_of_nil, Hc.
  - split; [done|]. by intros (h & ?%not_elem_of_nil & _).
Qed.

Lemma copied_skip {A} k (segs : list (segment_meta A)) hs h x :
  (ph_log_kind h = k → above h → ∀ g, g ∈ segs → ¬ qualifies h g) → copied_of k segs (hs ++ [h]) x ↔ copied_of k segs hs x.
Proof using.
  intros Hno. split.
  - intros (h0 & g & [Hh| ->%list_elem_of_singleton]%elem_of_app & ? & ? & ? & ? & ?); [exists h0, g; done|]. by destruct (Hno ltac:(done) ltac:(done) g).
  - intros (h0 & g & Hh & ?). exists h0, g. split; [apply elem_of_app; by left|done].
Qed.

Lemma written_snoc hs h (P : persist_header → Prop) :
  (∃ h', h' ∈ hs ++ [h] ∧ written h' ∧ P h') ↔ (∃ h', h' ∈ hs ∧ written h' ∧ P h') ∨ (written h ∧ P h).
Proof using. setoid_rewrite elem_of_app. setoid_rewrite list_elem_of_singleton. naive_solver. Qed.

(** The header row of [h] joins those of [hs]. *)
Lemma copy_header_elem hs h (c : table_meta V) h' :
  (∀ h', h' ∈ tm_persists c ↔ ∃ h, h ∈ hs ∧ written h ∧ h' = header_copy h) → written h →
  h' ∈ tm_persists (copy_header now (new_header h) h c) ↔ ∃ h0, h0 ∈ hs ++ [h] ∧ written h0 ∧ h' = header_copy h0.
Proof using HN.
  intros Hc Hw. rewrite written_snoc. unfold copy_header. cbn [tm_persists]. rewrite insert_elem.
  - rewrite Hc. split; [intros [?| ->]; [by left|by right]|intros [?|[_ ->]]; [by left|by right]].
  - intros y (h0 & _ & _ & ->)%Hc [Hat Hk]%child_persist_inj. unfold header_copy, new_header. by rewrite Hat, Hk.
Qed.

Lemma inherited_skip hs h c0 c wrote : inherited hs c0 c wrote → ¬ written h → inherited (hs ++ [h]) c0 c wrote.
Proof using.
  intros [Hh HU HD Hrest Hwr] Hnw. split; [..|done|].
  - intros h'. rewrite Hh, written_snoc. tauto.
  - intros g'. rewrite HU. symmetry. apply copied_skip. intros Hk _ g Hg Hq. apply Hnw. right. left. eauto.
  - intros g'. rewrite HD. symmetry. apply copied_skip. intros Hk _ g Hg Hq. apply Hnw. right. right. eauto.
  - rewrite Hwr. setoid_rewrite elem_of_app. setoid_rewrite list_elem_of_singleton. naive_solver.
Qed.

Lemma inherited_write hs h c0 c c' wrote :
  inherited hs c0 c wrote → written h → tm_persists c' = tm_persists (copy_header now (new_header h) h c) →
  (∀ g', g' ∈ tm_upsert_segments c' ↔ copied_of UpsertLog (tm_upsert_segments m) (hs ++ [h]) g') →
  (∀ g', g' ∈ tm_delete_segments c' ↔ copied_of DeleteLog (tm_delete_segments m) (hs ++ [h]) g') →
  tm_snapshots c' = tm_snapshots c ∧ tm_purges c' = tm_purges c → inherited (hs ++ [h]) c0 c' true.
Proof using HN.
  intros [Hh _ _ [Hs Hp] _] Hw Hp' HU HD [Hs' Hpu']. split; [|done|done|by rewrite Hs', Hpu'|].
  - intros h'. rewrite Hp'. by apply copy_header_elem.
  - split; [intros _|done]. exists h. split; [apply elem_of_app; right; by left|done].
Qed.

(** Some segment of [segs] qualifies exactly when the statement returns one. *)
Lemma inherited_nil {A} h (segs : list (segment_meta A)) :
  (∀ g, g ∈ segs → is_Some (sg_commit_micros g)) →
  inherited_segments (ph_uuid h) F segs ≠ [] ↔ ∃ g, g ∈ segs ∧ qualifies h g.
Proof using.
  intros Hc. setoid_rewrite <- (inherited_elem segs Hc h). destruct (inherited_segments (ph_uuid h) F segs) as [|g l].
  - split; [done|]. by intros (g & ?%not_elem_of_nil).
  - split; [|done]. intros _. exists g. by left.
Qed.

Lemma inherit_header_ok hs h c0 c wrote :
  (∀ h', h' ∈ hs ++ [h] → h' ∈ tm_persists m) → inherited hs c0 c wrote →
  ∃ c' wrote', inherit_header m F seg_from now h c wrote = Ok (c', wrote') ∧ inherited (hs ++ [h]) c0 c' wrote'.
Proof using HN Hm HcU HcD.
  intros Hsub Hi. pose proof Hi as [_ HU HD _ _]. unfold inherit_header. cbv zeta. fold (new_header h).
  destruct (Z.leb_spec (ph_persisted_at_micros h) (sat_sub seg_from 1)) as [Hle|Hgt].
  { eexists _, _. split; [done|]. eapply inherited_write; [done|left; unfold above; lia|done|..|done].
    - intros g'. cbn. rewrite HU. symmetry. apply copied_skip. unfold above. lia.
    - intros g'. cbn. rewrite HD. symmetry. apply copied_skip. unfold above. lia. }
  assert (above h) as Hab by done. pose proof (inherited_nil h _ HcU) as HnU. pose proof (inherited_nil h _ HcD) as HnD.
  destruct (ph_log_kind h) eqn:Ek.
  - rewrite (pairs_ok UpsertLog (tm_upsert_segments m) (ml_upserts _ _ Hm) HcU h). cbn [result_bind].
    pose proof (λ g', copy_segments_elem UpsertLog (tm_upsert_segments m) (ml_upserts _ _ Hm) HcU hs h _ g' Hsub Ek Hab HU) as Hcs.
    destruct (inherited_segments (ph_uuid h) F (tm_upsert_segments m)) as [|g0 l0]; cbn [fmap list_fmap] in *; eexists _, _; (split; [done|]).
    + apply inherited_skip; [done|]. intros [?|[[_ Hx]|[? _]]]; [done| |congruence]. by apply HnU in Hx.
    + eapply inherited_write; [done|right; left; split; [done|by apply HnU]|done|exact Hcs| |done].
      intros g'. cbn. rewrite HD. symmetry. apply copied_skip. congruence.
  - rewrite (pairs_ok DeleteLog (tm_delete_segments m) (ml_deletes _ _ Hm) HcD h). cbn [result_bind].
    pose proof (λ g', copy_segments_elem DeleteLog (tm_delete_segments m) (ml_deletes _ _ Hm) HcD hs h _ g' Hsub Ek Hab HD) as Hcs.
    destruct (inherited_segments (ph_uuid h) F (tm_delete_segments m)) as [|g0 l0]; cbn [fmap list_fmap] in *; eexists _, _; (split; [done|]).
    + apply inherited_skip; [done|]. intros [?|[[? _]|[_ Hx]]]; [done|congruence|]. by apply HnD in Hx.
    + eapply inherited_write; [done|right; right; split; [done|by apply HnD]|done| |exact Hcs|done].
      intros g'. cbn. rewrite HU. symmetry. apply copied_skip. congruence.
Qed.

Lemma inherit_headers_ok hs' : ∀ hs c0 c wrote,
  (∀ h, h ∈ hs ++ hs' → h ∈ tm_persists m) → inherited hs c0 c wrote →
  ∃ c' wrote', inherit_headers m F seg_from now hs' c wrote = Ok (c', wrote') ∧ inherited (hs ++ hs') c0 c' wrote'.
Proof using HN Hm HcU HcD.
  induction hs' as [|h hs' IH]; intros hs c0 c wrote Hsub Hi; cbn [inherit_headers].
  { rewrite app_nil_r. eauto. }
  destruct (inherit_header_ok hs h c0 c wrote) as (c1 & wrote1 & -> & Hi1); [|done|].
  { intros h' Hh'. apply Hsub. apply elem_of_app in Hh' as [?| ->%list_elem_of_singleton]; apply elem_of_app; [by left|right; by left]. }
  cbn [result_bind]. rewrite (cons_middle h hs hs'), app_assoc in Hsub |- *. by apply IH.
Qed.
End copy.

(** ** The whole copy *)

Section materialize.
Context {V : Type} {N : ForkNaming} (HN : ForkNamingLaws N) (E : env V) (m : table_meta V) (Hm : meta_linked E m) (F M now : Z).

(** The snapshot the child adopts, and its stamp. *)
Definition inherited_snapshot : option (snapshot_meta V) := read_snapshot_segments_for_table m (Some M) (Some F).
Definition baseline : option Z := sn_snapshotted_at_micros <$> inherited_snapshot.

Context (HcU : ∀ g, g ∈ tm_upsert_segments m → is_Some (sg_commit_micros g))
        (HcD : ∀ g, g ∈ tm_delete_segments m → is_Some (sg_commit_micros g))
        (Hclock : ∀ h, h ∈ tm_persists m → 0 < ph_persisted_at_micros h < I64_MAX).

Definition past_baseline (h : persist_header) : Prop := ∀ b, baseline = Some b → b < ph_persisted_at_micros h.

Definition segment_from : Z := match baseline with None => I64_MIN | Some w => sat_add w 1 end.

Definition inherits {A} (k : LogKind) (segs : list (segment_meta A)) (g' : segment_meta A) : Prop :=
  ∃ h g, h ∈ tm_persists m ∧ ph_log_kind h = k ∧ past_baseline h ∧ g ∈ segs ∧ qualifies F h g ∧ g' = segment_copy F now h g.

Record forked (c : table_meta V) : Prop := {
  fk_snapshots : tm_snapshots c = option_list (copy_snapshot now <$> inherited_snapshot);
  fk_purges : tm_purges c = [{| pm_last_purged_commit_seq_num := Some F; pm_last_purged_aborted_seq_num := None; pm_commit_micros := Some now |}];
  fk_headers : ∀ h', h' ∈ tm_persists c ↔
    ∃ h, h ∈ tm_persists m ∧ (∀ b, baseline = Some b → b ≤ ph_persisted_at_micros h) ∧ written m F segment_from h ∧ h' = header_copy now h;
  fk_upserts : ∀ g', g' ∈ tm_upsert_segments c ↔ inherits UpsertLog (tm_upsert_segments m) g';
  fk_deletes : ∀ g', g' ∈ tm_delete_segments c ↔ inherits DeleteLog (tm_delete_segments m) g';
}.

Lemma baseline_header b : baseline = Some b → ∃ h, h ∈ tm_persists m ∧ ph_persisted_at_micros h = b.
Proof using Hm.
  unfold baseline. rewrite fmap_Some. intros (sn & Hsn & ->). apply (ml_snapshots _ _ Hm). by apply pick_snapshot_Some in Hsn as [? _].
Qed.

Lemma above_past h : h ∈ tm_persists m → above segment_from h ↔ past_baseline h.
Proof using Hm Hclock.
  intros Hh. unfold above, past_baseline, segment_from. pose proof (Hclock h Hh). destruct baseline as [b|] eqn:Eb.
  - destruct (baseline_header b Eb) as (h0 & Hh0 & <-). pose proof (Hclock h0 Hh0). split; [intros ? ? [= <-]; i64|].
    intros Hlt. specialize (Hlt _ eq_refl). i64.
  - split; [done|]. intros _. i64.
Qed.

Definition fork_headers : list persist_header :=
  merge_sort persisted_order (filter (λ h, default I64_MIN baseline ≤ ph_persisted_at_micros h) (committed ph_commit_micros (tm_persists m))).

Lemma fork_headers_elem h : h ∈ fork_headers ↔ h ∈ tm_persists m ∧ ∀ b, baseline = Some b → b ≤ ph_persisted_at_micros h.
Proof using Hm Hclock.
  unfold fork_headers, committed. rewrite merge_sort_Permutation, !list_elem_of_filter. split.
  - intros (Hle & _ & Hh). split; [done|]. intros b Hb. by rewrite Hb in Hle.
  - intros [Hh Hle]. split_and!; [|by apply (ml_committed _ _ Hm)|done]. pose proof (Hclock h Hh).
    destruct baseline as [b|]; cbn; [by apply Hle|]. unfold I64_MIN. lia.
Qed.

Lemma copied_inherits {A} k (segs : list (segment_meta A)) g' :
  copied_of F segment_from now k segs fork_headers g' ↔ inherits k segs g'.
Proof using Hm Hclock.
  unfold copied_of, inherits. split; intros (h & g & Hh & Hk & Ha & Hg & Hq & ->); exists h, g.
  - apply fork_headers_elem in Hh as [Hh _]. rewrite above_past in Ha by done. done.
  - split_and!; [|done|by apply above_past|done|done|done]. apply fork_headers_elem. split; [done|]. intros b Hb. specialize (Ha b Hb). lia.
Qed.

Lemma materialize_ok : ∃ c, materialize_fork_cold_references m empty_meta F M now = Ok c ∧ forked c.
Proof using HN Hm HcU HcD Hclock.
  unfold materialize_fork_cold_references, copy_inherited_snapshot. fold inherited_snapshot.
  set (c1 := match inherited_snapshot with Some old => _ | None => _ end). assert (c1 =
    ({| tm_persists := []; tm_upsert_segments := []; tm_delete_segments := [];
        tm_snapshots := option_list (copy_snapshot now <$> inherited_snapshot); tm_purges := [] |}, baseline)) as ->.
  { unfold c1, baseline. by destruct inherited_snapshot. }
  unfold copy_inherited_persist. cbv zeta. fold segment_from. fold fork_headers.
  set (c1 := {| tm_persists := []; tm_upsert_segments := [] |}).
  destruct (inherit_headers_ok HN E m Hm F segment_from now HcU HcD fork_headers [] c1 c1 false) as (c & wrote & Hc & Hi).
  { intros h [Hh _]%fork_headers_elem. exact Hh. }
  { by apply inherited_start. }
  cbn in Hi. rewrite Hc. cbn [result_bind]. destruct Hi as [Hh HU HD [Hs Hp] Hwr].
  assert (negb wrote && bool_decide (is_Some baseline) = false) as ->.
  { destruct baseline as [b|] eqn:Eb; [|by rewrite andb_false_r]. destruct (baseline_header b Eb) as (h & Hin & Hat).
    rewrite (proj2 Hwr); [done|]. exists h. split; [apply fork_headers_elem; split; [done|]; intros b' Hb'; rewrite Eb in Hb'; injection Hb' as <-; lia|].
    left. rewrite above_past by done. intros Hpast. specialize (Hpast b Eb). lia. }
  cbn [result_bind]. eexists. split; [done|]. split; cbn [tm_persists tm_upsert_segments tm_delete_segments tm_snapshots tm_purges].
  - by rewrite Hs.
  - by rewrite Hp.
  - intros h'. rewrite Hh. split; intros (h & Hin & ?); exists h; [|split; [apply fork_headers_elem; naive_solver|naive_solver]].
    apply fork_headers_elem in Hin as [? ?]. naive_solver.
  - intros g'. rewrite HU. apply copied_inherits.
  - intros g'. rewrite HD. apply copied_inherits.
Qed.
End materialize.
