(* ===== verification/ForkCoherent.v ===== *)
(** * A segment's ceiling is as good as fewer rows

    A read cannot tell a table whose segments carry rows past their ceiling, as
    a fork's inherited segments do, from the table whose segments end at it; nor
    can it tell apart tables that differ in segments outside its window. *)

From S2P Require Import Prelude CoreTypes Watermarks ReadSnapshot Dialect MergeSql IndexSeek Plan SnapshotScan IndexSelect Effects TxLog TxLedger TxLedgerInv TxLedgerTheorems ForkPoint ForkPointTheorems TableStore Chunker ReadPath Lifecycle ReadLemmas ReadData Tiers ReadCorrect System SystemInv SystemPersist SystemSnapshot SystemTheorems AuditSystem Fork ForkCopy.
From stdpp Require Import base numbers list option sets gmap sorting.

Open Scope Z_scope.

(** ** Sorting and filtering through a map *)

Section maps.
Context {A B : Type} (f : A → B).

Lemma filter_fmap (P : B → Prop) (Q : A → Prop) `{!∀ x, Decision (P x), !∀ x, Decision (Q x)} (l : list A) :
  (∀ x, x ∈ l → P (f x) ↔ Q x) → filter P (f <$> l) = f <$> filter Q l.
Proof.
  induction l as [|x l IH]; intros Hl; [done|]. rewrite fmap_cons, !filter_cons, IH by (intros y ?; apply Hl; by right).
  assert (P (f x) ↔ Q x) as Hx by (apply Hl; by left). do 2 case_decide; try done; tauto.
Qed.

Context (R : relation B) (S : relation A) `{!RelDecision R, !RelDecision S} (HRS : ∀ x y, R (f x) (f y) ↔ S x y).

Lemma list_merge_fmap l1 : ∀ l2, list_merge R (f <$> l1) (f <$> l2) = f <$> list_merge S l1 l2.
Proof using HRS.
  induction l1 as [|x l1 IH1]; intros l2; [by destruct l2|]. induction l2 as [|y l2 IH2]; [done|]. cbn in *.
  pose proof (HRS x y). do 2 case_decide; try tauto; cbn; f_equal; [|exact IH2]. apply (IH1 (y :: l2)).
Qed.

Lemma merge_list_to_stack_fmap st : ∀ l,
  merge_list_to_stack R (fmap (M := option) (fmap (M := list) f) <$> st) (f <$> l) =
    fmap (M := option) (fmap (M := list) f) <$> merge_list_to_stack S st l.
Proof using HRS.
  induction st as [|[k|] st IH]; intros l; cbn; [done| |done]. f_equal. rewrite list_merge_fmap. apply IH.
Qed.

Lemma merge_stack_fmap st :
  merge_stack R (fmap (M := option) (fmap (M := list) f) <$> st) = f <$> merge_stack S st.
Proof using HRS. induction st as [|[k|] st IH]; cbn; [done| |done]. by rewrite IH, list_merge_fmap. Qed.

Lemma merge_sort_fmap l : merge_sort R (f <$> l) = f <$> merge_sort S l.
Proof using HRS.
  unfold merge_sort. change (@nil (option (list B))) with (fmap (M := option) (fmap (M := list) f) <$> ([] : list (option (list A)))).
  generalize ([] : list (option (list A))). induction l as [|x l IH]; intros st; cbn; [apply merge_stack_fmap|].
  rewrite <- (IH (merge_list_to_stack S st [x])), <- merge_list_to_stack_fmap. done.
Qed.
End maps.

(** ** Trimmed segments and plans *)

Definition trim {A} (g : segment_meta A) : segment_meta A :=
  {| sg_uuid := sg_uuid g; sg_table_persist_uuid := sg_table_persist_uuid g; sg_chunk_idx := sg_chunk_idx g;
     sg_min_tx_commit_micros := sg_min_tx_commit_micros g; sg_max_tx_commit_micros := sg_max_tx_commit_micros g;
     sg_min_commit_seq_num := sg_min_commit_seq_num g; sg_max_commit_seq_num := sg_max_commit_seq_num g;
     sg_rows := filter (λ x, commit_seq_num x ≤ sg_max_commit_seq_num g) (sg_rows g); sg_commit_micros := sg_commit_micros g |}.

Definition trim_planned {A} (s : PersistSegment A) : PersistSegment A :=
  {| segment_uuid := segment_uuid s; segment_rows := apply_segment_seq_ceiling s; max_commit_seq_num := max_commit_seq_num s |}.

Lemma ceiling_trim {A} (s : PersistSegment A) : apply_segment_seq_ceiling (trim_planned s) = apply_segment_seq_ceiling s.
Proof.
  unfold apply_segment_seq_ceiling at 1, trim_planned. cbn. unfold apply_segment_seq_ceiling. destruct (max_commit_seq_num s) as [c|]; [|done].
  rewrite list_filter_filter. apply list_filter_iff. naive_solver.
Qed.

Lemma cold_log_trim {A} (segs : list (PersistSegment A)) : cold_log (trim_planned <$> segs) = cold_log segs.
Proof.
  unfold cold_log. induction segs as [|s segs IH]; [done|]. rewrite fmap_cons, !bind_cons, IH, ceiling_trim. done.
Qed.

(** A read of a trimmed table, with segments outside the window added. *)
Lemma classify_trim {A} (extra segs : list (segment_meta A)) lo hi upper :
  (∀ g, g ∈ extra → persist_segment_overlap_clause lo hi upper g = false) →
  (∀ g, g ∈ segs → sg_rows (trim g) = [] → sg_rows g = []) →
  read_and_classify_persist_segments (extra ++ (trim <$> segs)) lo hi upper =
    trim_planned <$> read_and_classify_persist_segments segs lo hi upper.
Proof.
  intros Hex Hne. unfold read_and_classify_persist_segments, committed. rewrite !filter_app.
  assert (filter (λ s, persist_segment_overlap_clause lo hi upper s = true) (filter (λ x, is_Some (sg_commit_micros x)) extra) = []) as ->.
  { apply elem_of_nil_inv. intros g [Ho [_ Hg]%list_elem_of_filter]%list_elem_of_filter. by rewrite (Hex g Hg) in Ho. }
  rewrite app_nil_l, (filter_fmap trim _ (λ x, is_Some (sg_commit_micros x))) by done.
  rewrite (filter_fmap trim _ (λ s, persist_segment_overlap_clause lo hi upper s = true)) by done.
  rewrite (merge_sort_fmap trim segment_order segment_order) by done.
  rewrite (filter_fmap trim _ (λ s, sg_rows s ≠ [])); [by rewrite <- !list_fmap_compose|].
  intros g Hg. rewrite merge_sort_Permutation, !list_elem_of_filter in Hg. destruct Hg as (_ & _ & Hg). split; intros H H'; apply H.
  - unfold trim. cbn. by rewrite H'.
  - by apply Hne.
Qed.

Section reads.
Context {V : Type}.
Implicit Types (p : Plan V) (m : table_meta V).

Definition trim_persist (pp : PersistPlan V) : PersistPlan V :=
  {| upsert_segments := trim_planned <$> upsert_segments pp; delete_segments := trim_planned <$> delete_segments pp;
     pp_committed_at := pp_committed_at pp; pp_commit_seq := pp_commit_seq pp |}.

Definition trim_plan p : Plan V :=
  {| hot_storage := hot_storage p;
     cold_storage := (λ c, {| snapshot := snapshot c; persist := trim_persist <$> persist c |}) <$> cold_storage p;
     base_cold_storage := base_cold_storage p |}.

Lemma resolve_cold_trim p upper us : resolve_cold (trim_plan p) upper us = resolve_cold p upper us.
Proof.
  unfold resolve_cold, trim_plan. destruct p as [hot [[sn [pp|]]|] base]; [|done|done].
  cbn [cold_storage fmap option_fmap option_map persist trim_persist upsert_segments delete_segments pp_committed_at pp_commit_seq].
  by rewrite !cold_log_trim.
Qed.

Lemma snapshot_trim p : cold_storage (trim_plan p) ≫= snapshot = cold_storage p ≫= snapshot.
Proof. unfold trim_plan. cbn. by destruct (cold_storage p). Qed.

Lemma shape_trim p :
  is_all_hot (trim_plan p) = is_all_hot p ∧ is_all_cold (trim_plan p) = is_all_cold p ∧ is_snapshot_only (trim_plan p) = is_snapshot_only p.
Proof.
  unfold is_all_hot, is_snapshot_only, is_all_cold, trim_plan. cbn. destruct (base_cold_storage p), (cold_storage p) as [[sn [pp|]]|]; done.
Qed.

Lemma cold_read_trim may_match p h schema s f seeks tuning exact :
  let req p := {| rq_plan := p; rq_db := h; rq_schema := schema; rq_snapshot := s; rq_filter := f; rq_seeks := seeks; rq_tuning := tuning |} in
  stream_cold_read may_match (req (trim_plan p)) exact = stream_cold_read may_match (req p) exact.
Proof.
  intros req. destruct (shape_trim p) as (_ & Hc & Ho).
  assert (plan_snapshot_stream may_match schema (trim_plan p) f = plan_snapshot_stream may_match schema p f) as Hs.
  { unfold plan_snapshot_stream. by rewrite snapshot_trim. }
  assert (stream_merged may_match (req (trim_plan p)) = stream_merged may_match (req p)) as Hm.
  { unfold stream_merged, build_resolved_and_exclusion_set. cbn [req rq_plan rq_db rq_schema rq_snapshot rq_filter rq_seeks rq_tuning].
    destruct (identity_row_uuids _ _) as [us|]; [|done]. rewrite resolve_cold_trim, Hs. done. }
  assert (stream_all_cold may_match (req (trim_plan p)) = stream_all_cold may_match (req p)) as Ha.
  { unfold stream_all_cold, resolve_log_tiers, build_cold_resolved_and_exclusion_set.
    cbn [req rq_plan rq_db rq_schema rq_snapshot rq_filter rq_seeks rq_tuning]. rewrite Hs. change (hot_storage (trim_plan p)) with (hot_storage p).
    destruct (hot_storage p); [done|]. destruct (identity_row_uuids _ _) as [us|]; [|done]. rewrite resolve_cold_trim. done. }
  unfold stream_cold_read, is_direct_seek_eligible. rewrite Hm, Ha. cbn [rq_plan rq_schema rq_seeks req]. by rewrite Hc, Ho, snapshot_trim.
Qed.

(** [m'] is [m] trimmed, up to segments no window from the picked snapshot on
    takes in. *)
Record trims m m' (as_of : Z) (upper : option Z) : Prop := {
  tr_persists : tm_persists m' = tm_persists m;
  tr_snapshots : tm_snapshots m' = tm_snapshots m;
  tr_purges : is_Some (persist_wm m) → tm_purges m' = tm_purges m;
  tr_windows : ∀ hi up, let lo := (λ f, sat_sub f 1) <$> ((λ t, sat_add t 1) <$> (sn_snapshotted_at_micros <$> (hot_min_and_snapshot_pick m as_of upper).2)) in
    read_and_classify_persist_segments (tm_upsert_segments m') lo hi up =
      trim_planned <$> read_and_classify_persist_segments (tm_upsert_segments m) lo hi up ∧
    read_and_classify_persist_segments (tm_delete_segments m') lo hi up =
      trim_planned <$> read_and_classify_persist_segments (tm_delete_segments m) lo hi up;
}.

Lemma plan_trims m m' h lineage as_of upper :
  trims m m' as_of upper → plan m' h lineage as_of upper = trim_plan (plan m h lineage as_of upper).
Proof.
  intros [Hp Hs Hpu Hw].
  assert (persist_wm m' = persist_wm m) as Hwm by (unfold persist_wm; by rewrite Hp).
  assert (hot_min_and_snapshot_pick m' as_of upper = hot_min_and_snapshot_pick m as_of upper) as Hpick.
  { unfold hot_min_and_snapshot_pick, hot_min_of, pick_snapshot. by rewrite Hwm, Hs. }
  assert (is_Some (persist_wm m) → ∀ w, phase_one_fence_and_existence m' h w = phase_one_fence_and_existence m h w) as Hf.
  { intros His w. unfold phase_one_fence_and_existence, last_purged_seq. by rewrite (Hpu His). }
  unfold plan. rewrite Hpick. destruct (hot_min_and_snapshot_pick m as_of upper) as [hot_min pick] eqn:Ep. cbn [snd] in Hw.
  destruct (hot_min =? 0) eqn:E0; [unfold trim_plan, assemble_plan, plan_cold_storage; by rewrite E0|].
  rewrite Hf by (unfold hot_min_and_snapshot_pick, hot_min_of in Ep; destruct (persist_wm m); [done|]; injection Ep as <- _; done). destruct (phase_one_fence_and_existence m h _) as [fence present].
  unfold read_persist_segments_for_window. specialize (Hw ((λ t, sat_sub t 1) <$> Some (cold_committed_at_max as_of hot_min)) upper) as [-> ->].
  set (us := read_and_classify_persist_segments (tm_upsert_segments m) _ _ _). set (ds := read_and_classify_persist_segments (tm_delete_segments m) _ _ _).
  clearbody us ds. unfold trim_plan, assemble_plan, plan_cold_storage. rewrite E0. cbn [hot_storage cold_storage base_cold_storage ci_snapshotted_at_micros
    ci_snapshot_segments ci_indexes ci_snapshot_seq ci_upsert_segments ci_delete_segments]. f_equal.
  destruct us as [|u0 us], ds as [|d0 ds]; cbn [fmap list_fmap is_empty andb]; by destruct pick.
Qed.

(** A read gives the same answer on both tables. *)
Lemma read_trims value may_match equality_bindings cfg m m' h lineage now duration (req : ReadDataRequest V) :
  trims m m' (plan_as_of_micros (rd_snapshot req)) (plan_commit_seq_upper (rd_snapshot req)) →
  read_data value may_match equality_bindings cfg m' h lineage now duration req =
    read_data value may_match equality_bindings cfg m h lineage now duration req.
Proof.
  intros Ht. unfold read_data. cbv zeta. rewrite (plan_trims _ _ h lineage _ _ Ht). set (p := plan m h lineage _ _). clearbody p.
  assert (retention_floor m' now duration = retention_floor m now duration) as -> by (unfold retention_floor, pick_snapshot; by rewrite (tr_snapshots _ _ _ _ Ht)).
  destruct (shape_trim p) as (-> & _ & _).
  assert (user_seek_entries value equality_bindings cfg (trim_plan p) req = user_seek_entries value equality_bindings cfg p req) as ->.
  { unfold user_seek_entries. by rewrite snapshot_trim. }
  destruct (match retention_floor m now duration with Some _ => _ | None => _ end); [done|]. destruct (is_all_hot p); [done|].
  by rewrite cold_read_trim.
Qed.
End reads.

(** ** A fork is coherent with its parent's history

    The tiers of a fork, its inherited segments cut at their ceilings and the
    parent's segments below the adopted snapshot put back, hold the parent's
    history up to the fork followed by the fork's own. *)

Lemma committed_all {B} (l : list (segment_meta B)) g : (∀ g, g ∈ l → is_Some (sg_commit_micros g)) → g ∈ committed sg_commit_micros l ↔ g ∈ l.
Proof. intros Hl. unfold committed. rewrite list_elem_of_filter. split; [by intros [_ ?]|intros Hg; split; [by apply Hl|done]]. Qed.

Section coherent.
Context {V : Type} {N : ForkNaming} (E : env V) (value : Z → Z * V → cell) (index_key : Z → Z * V → list cell).

(** The parent at the fork. *)
Context (m : table_meta V) (h : hot_db V) (HU : list (src_row V)) (HD : list (src_row unit)).
Context (Hco : coherent value index_key m h HU HD) (Hm : meta_linked E m) (F M now clk : Z).
Context (HcU : ∀ g, g ∈ tm_upsert_segments m → is_Some (sg_commit_micros g))
        (HcD : ∀ g, g ∈ tm_delete_segments m → is_Some (sg_commit_micros g)).
Context (Hflushed : ∀ r mi sq, (r, mi, sq) ∈ stamps HU HD → sq ≤ F → ∃ z, persist_wm m = Some z ∧ mi ≤ z)
        (Hstamped : ∀ r mi sq, (r, mi, sq) ∈ stamps HU HD → mi ≤ clk)
        (Hclock : ∀ p, p ∈ tm_persists m → 0 < ph_persisted_at_micros p < I64_MAX ∧ ph_persisted_at_micros p ≤ clk)
        (HF : 0 ≤ F < I64_MAX) (Hclk : 0 ≤ clk).

(** The fork and its own commits. *)
Context (c : table_meta V) (Hc : forked m F M now c).
Context (f : hot_db V).
Context (HuU : ∀ x y, x ∈ upsert_log f → y ∈ upsert_log f → lr_row_uuid x = lr_row_uuid y → lr_tx_uuid x = lr_tx_uuid y → x = y)
        (HuD : ∀ x y, x ∈ delete_log f → y ∈ delete_log f → lr_row_uuid x = lr_row_uuid y → lr_tx_uuid x = lr_tx_uuid y → x = y).
Context (Hsorted : StronglySorted commit_lt (commit_tx_log f))
        (Hown : ∀ d, d ∈ commit_tx_log f → F < ct_commit_seq_num d < I64_MAX ∧ clk < ct_commit_micros d < I64_MAX).

Definition ownU : list (src_row V) := hot_source None (upsert_log f) (commit_tx_log f).
Definition ownD : list (src_row unit) := hot_source None (delete_log f) (commit_tx_log f).
Definition forkU : list (src_row V) := up_to F HU ++ ownU.
Definition forkD : list (src_row unit) := up_to F HD ++ ownD.

Notation base_at := (baseline m F M).

(** The segments of the parent the adopted snapshot covers. *)
Definition under_base {A} (segs : list (segment_meta A)) : list (segment_meta A) :=
  match base_at with Some b => filter (λ g, sg_max_tx_commit_micros g ≤ b) segs | None => [] end.

Definition whole : table_meta V :=
  {| tm_persists := tm_persists c;
     tm_upsert_segments := under_base (tm_upsert_segments m) ++ (trim <$> tm_upsert_segments c);
     tm_delete_segments := under_base (tm_delete_segments m) ++ (trim <$> tm_delete_segments c);
     tm_snapshots := tm_snapshots c;
     tm_purges := match persist_wm c with None => [] | Some _ => tm_purges c end |}.

(** ** Clocks *)

Lemma base_snapshot b : base_at = Some b →
  ∃ sn, inherited_snapshot m F M = Some sn ∧ sn_snapshotted_at_micros sn = b ∧
    sn ∈ committed sn_commit_micros (tm_snapshots m) ∧ b ≤ M ∧ sn_commit_seq_num sn ≤ F ∧ snapshot_ok value index_key m HU HD sn.
Proof using Hco.
  unfold baseline. rewrite fmap_Some. intros (sn & Hsn & ->). exists sn. pose proof Hsn as [Hin Hp]%pick_snapshot_Some.
  apply andb_prop in Hp as [Hp1 Hp2]. cbn in Hp1, Hp2. zbool. split_and!; try done. by apply (co_snapshots _ _ _ _ _ _ Hco).
Qed.

(** The watermark of the fork is at least the stamp of every header it copied,
    the baseline's among them. *)
Lemma fork_wm_written p :
  p ∈ tm_persists m → (∀ b, base_at = Some b → b ≤ ph_persisted_at_micros p) → written m F (segment_from m F M) p →
  ∃ w, persist_wm c = Some w ∧ ph_persisted_at_micros p ≤ w.
Proof using Hc.
  intros Hp Hb Hw. assert (header_copy now p ∈ tm_persists c) as Hin by (apply (fk_headers _ _ _ _ _ Hc); eauto).
  assert (ph_persisted_at_micros p ∈ ph_persisted_at_micros <$> committed ph_commit_micros (tm_persists c)) as Hat.
  { apply list_elem_of_fmap. exists (header_copy now p). split; [done|]. apply list_elem_of_filter. split; [by eexists|done]. }
  unfold persist_wm. destruct (zmax_list _) as [w|] eqn:Ez.
  - exists w. split; [done|]. apply zmax_list_Some in Ez as [_ Ez]. by apply Ez.
  - apply zmax_list_None in Ez. rewrite Ez in Hat. by apply not_elem_of_nil in Hat.
Qed.

Lemma fork_wm_base b : base_at = Some b → ∃ w, persist_wm c = Some w ∧ b ≤ w.
Proof using Hc Hm Hco.
  intros Hb. destruct (base_snapshot b Hb) as (sn & _ & Hat & Hin & _ & _ & Hok).
  destruct (ml_snapshots _ _ Hm sn Hin) as (p & Hp & Hpat). rewrite <- Hat, <- Hpat. apply fork_wm_written; [done|..].
  - intros b' Hb'. rewrite Hb in Hb'. injection Hb' as <-. lia.
  - left. unfold above, segment_from. rewrite Hb, Hpat, Hat. destruct (sn_range _ _ _ _ _ _ Hok) as [Hr _]. rewrite Hat in Hr. intros Hlt. revert Hlt. i64.
Qed.

Lemma fork_wm_bounds w : persist_wm c = Some w → 0 < w < I64_MAX ∧ w ≤ clk.
Proof using Hc Hclock.
  intros [(p' & -> & [_ Hp']%list_elem_of_filter)%list_elem_of_fmap _]%zmax_list_Some.
  apply (fk_headers _ _ _ _ _ Hc) in Hp' as (p & Hp & _ & _ & ->). exact (Hclock p Hp).
Qed.

(** ** One kind of segments *)

Section kind.
Context {A : Type} (k : LogKind) (segs fork_segs : list (segment_meta A)) (Hy own : list (src_row A)).
Context (Hl : linked E k (tm_persists m) segs) (Hcold : cold_ok (persist_wm m) segs Hy).
Context (Hcm : ∀ g, g ∈ segs → is_Some (sg_commit_micros g)) (Hst : ∀ x, x ∈ Hy → stamp x ∈ stamps HU HD).
Context (Hfs : ∀ g', g' ∈ fork_segs ↔ inherits m F M now k segs g').
Context (Hw : ∀ p g, ph_log_kind p = k → g ∈ segs → qualifies F p g → written m F (segment_from m F M) p).
Context (Hownx : ∀ x, x ∈ own → clk < commit_micros x).

Lemma under_base_elem g : g ∈ under_base segs ↔ g ∈ segs ∧ ∃ b, base_at = Some b ∧ sg_max_tx_commit_micros g ≤ b.
Proof using.
  unfold under_base. destruct base_at as [b|].
  - rewrite list_elem_of_filter. split; [intros [? ?]; eauto|]. by intros (? & ? & [= <-] & ?).
  - rewrite elem_of_nil. split; [done|]. by intros (_ & ? & ? & _).
Qed.

(** A segment the adopted snapshot does not cover is inherited when it reaches
    down to the fork. *)
Lemma inherited_or_covered g : g ∈ segs → sg_min_commit_seq_num g ≤ F →
  g ∈ under_base segs ∨ ∃ p, segment_copy F now p g ∈ fork_segs ∧ p ∈ tm_persists m ∧ past_baseline m F M p ∧
    written m F (segment_from m F M) p ∧ sg_max_tx_commit_micros g ≤ ph_persisted_at_micros p.
Proof using Hl Hfs Hw.
  intros Hg Hmin. destruct (ln_header _ _ _ _ Hl g Hg) as (p & Hp & Hu & Hk & Hle).
  assert (qualifies F p g) as Hq by done.
  assert (past_baseline m F M p → g ∈ under_base segs ∨ ∃ p, segment_copy F now p g ∈ fork_segs ∧ p ∈ tm_persists m ∧ past_baseline m F M p ∧
    written m F (segment_from m F M) p ∧ sg_max_tx_commit_micros g ≤ ph_persisted_at_micros p) as Hin.
  { intros Hpast. right. exists p. split_and!; try done; [|by eapply Hw]. apply Hfs. exists p, g. done. }
  destruct base_at as [b|] eqn:Eb.
  - destruct (decide (sg_max_tx_commit_micros g ≤ b)); [left; apply under_base_elem; eauto|].
    apply Hin. intros b' Hb'. rewrite Eb in Hb'. injection Hb' as <-. lia.
  - apply Hin. intros b' Hb'. congruence.
Qed.

Lemma seq_of_under_base g x : g ∈ under_base segs → x ∈ sg_rows g → x ∈ Hy ∧ commit_seq_num x ≤ F.
Proof using Hco Hcold Hcm Hst.
  intros (Hg & b & Hb & Hle)%under_base_elem Hx. pose proof (proj2 (committed_all segs g Hcm) Hg) as Hg'.
  pose proof (cold_sound _ _ _ Hcold g x Hg' Hx) as HxH. split; [done|]. destruct (cold_bounds _ _ _ Hcold g Hg' x Hx) as [Hmi _].
  destruct (base_snapshot b Hb) as (sn & _ & Hat & _ & _ & Hsq & Hok). pose proof (sn_cut _ _ _ _ _ _ Hok _ _ _ (Hst x HxH)) as Hcut. lia.
Qed.

Lemma whole_segs_elem g : g ∈ under_base segs ++ (trim <$> fork_segs) ↔
  g ∈ under_base segs ∨ ∃ p g0, g0 ∈ segs ∧ qualifies F p g0 ∧ segment_copy F now p g0 ∈ fork_segs ∧ g = trim (segment_copy F now p g0).
Proof using Hfs.
  rewrite elem_of_app, list_elem_of_fmap. apply or_iff_compat_l. split.
  - intros (g' & -> & Hg'). pose proof Hg' as (p & g0 & _ & _ & _ & ? & ? & ->)%Hfs. eauto 8.
  - intros (p & g0 & _ & _ & ? & ->). eauto.
Qed.

Lemma trim_row p (g : segment_meta A) x : x ∈ sg_rows (trim (segment_copy F now p g)) ↔ x ∈ sg_rows g ∧ commit_seq_num x ≤ Z.min (sg_max_commit_seq_num g) F.
Proof using. cbn. rewrite list_elem_of_filter. by rewrite (comm (∧)). Qed.

Lemma whole_committed g : g ∈ committed sg_commit_micros (under_base segs ++ (trim <$> fork_segs)) ↔ g ∈ under_base segs ++ (trim <$> fork_segs).
Proof using Hfs Hcm.
  apply committed_all. intros g' [[Hg' _]%under_base_elem|(p & g0 & _ & _ & _ & ->)]%whole_segs_elem; [by apply Hcm|by eexists].
Qed.

Lemma whole_cold w : persist_wm c = Some w → cold_ok (Some w) (under_base segs ++ (trim <$> fork_segs)) (up_to F Hy ++ own).
Proof using Hco Hm Hc Hflushed Hclock Hl Hcold Hcm Hst Hfs Hw Hownx.
  intros Hwm. split.
  - intros g [Hg|(p & g0 & Hg0 & _ & _ & ->)]%whole_committed%whole_segs_elem.
    + apply under_base_elem in Hg as [Hg _]. by apply (cold_bounds _ _ _ Hcold), committed_all.
    + intros x [Hx Hle]%trim_row. pose proof (proj2 (committed_all segs g0 Hcm) Hg0) as Hg0'.
      destruct (cold_bounds _ _ _ Hcold g0 Hg0' x Hx) as [? ?]. cbn. lia.
  - intros g x [Hg|(p & g0 & Hg0 & _ & _ & ->)]%whole_committed%whole_segs_elem Hx; apply elem_of_app; left; apply list_elem_of_filter.
    + destruct (seq_of_under_base g x Hg Hx). done.
    + apply trim_row in Hx as [Hx Hle]. split; [lia|]. eapply (cold_sound _ _ _ Hcold); [by apply committed_all|done].
  - intros x w' [[Hle Hx]%list_elem_of_filter|Hx]%elem_of_app [= <-] Hxw.
    2: { specialize (Hownx x Hx). destruct (fork_wm_bounds w Hwm). lia. }
    destruct (Hflushed _ _ _ (Hst x Hx) Hle) as (z & Hz & Hxz). destruct (cold_complete _ _ _ Hcold x z Hx Hz Hxz) as (g & Hg & Hxg).
    pose proof (cold_bounds _ _ _ Hcold g Hg x Hxg) as [_ Hb]. rewrite committed_all in Hg by done.
    destruct (inherited_or_covered g Hg) as [Hcov|(p & Hin & _)]; [lia|exists g|exists (trim (segment_copy F now p g))].
    + split; [|done]. apply whole_committed, whole_segs_elem. by left.
    + split; [|apply trim_row; split; [done|lia]]. apply whole_committed, elem_of_app. right. by apply list_elem_of_fmap_2.
Qed.

Lemma whole_no_straddle sn : inherited_snapshot m F M = Some sn → no_straddle (sn_snapshotted_at_micros sn) segs →
  no_straddle (sn_snapshotted_at_micros sn) (under_base segs ++ (trim <$> fork_segs)).
Proof using Hfs Hcm.
  intros Hsn Hns g [Hg|(p & g0 & Hg0 & _ & _ & ->)]%whole_committed%whole_segs_elem.
  - left. apply under_base_elem in Hg as (_ & b & Hb & Hle). unfold baseline in Hb. rewrite Hsn in Hb. by injection Hb as <-.
  - destruct (Hns g0) as [?|Hab]; [by apply committed_all|by left|right]. intros x [Hx _]%trim_row. by apply Hab.
Qed.

(** Nothing at or below the fork is past the fork's watermark. *)
Lemma fork_covers x : x ∈ Hy → commit_seq_num x ≤ F → ∃ w, persist_wm c = Some w ∧ commit_micros x ≤ w.
Proof using Hco Hm Hc Hflushed Hcold Hcm Hst Hl Hfs Hw.
  intros Hx Hle. destruct (Hflushed _ _ _ (Hst x Hx) Hle) as (z & Hz & Hxz). destruct (cold_complete _ _ _ Hcold x z Hx Hz Hxz) as (g & Hg & Hxg).
  pose proof (cold_bounds _ _ _ Hcold g Hg x Hxg) as [Hmi Hb]. rewrite committed_all in Hg by done.
  destruct (inherited_or_covered g Hg) as [(_ & b & Hbs & Hgb)%under_base_elem|(p & _ & Hp & Hpast & Hwr & Hgp)]; [lia| |].
  - destruct (fork_wm_base b Hbs) as (w & ? & ?). exists w. split; [done|lia].
  - destruct (fork_wm_written p Hp) as (w & ? & ?); [intros b Hb'; specialize (Hpast b Hb'); lia|done|]. exists w. split; [done|lia].
Qed.
End kind.

(** ** The history of the fork *)

Lemma own_commit r mi sq : (r, mi, sq) ∈ stamps ownU ownD → ∃ d, d ∈ commit_tx_log f ∧ ct_commit_micros d = mi ∧ ct_commit_seq_num d = sq.
Proof using.
  intros [(x & Hx & Hin)%list_elem_of_fmap|(x & Hx & Hin)%list_elem_of_fmap]%elem_of_app;
    unfold stamp in Hx; simplify_eq; by eapply source_commit.
Qed.

Lemma fork_stamps r mi sq :
  (r, mi, sq) ∈ stamps forkU forkD → (r, mi, sq) ∈ stamps HU HD ∧ sq ≤ F ∨
    ∃ d, d ∈ commit_tx_log f ∧ ct_commit_micros d = mi ∧ ct_commit_seq_num d = sq.
Proof using.
  unfold stamps, forkU, forkD. rewrite !fmap_app, !elem_of_app.
  assert (∀ A (l : list (src_row A)), (r, mi, sq) ∈ stamp <$> up_to F l → (r, mi, sq) ∈ stamp <$> l ∧ sq ≤ F) as Hup.
  { intros A l (x & Hx & [Hle Hin]%list_elem_of_filter)%list_elem_of_fmap. injection Hx as -> -> ->. split; [by apply (list_elem_of_fmap_2 stamp)|done]. }
  intros [[[? ?]%Hup|?]|[[? ?]%Hup|?]]; [left; auto|right|left; auto|right]; apply own_commit with r; unfold stamps; rewrite elem_of_app; auto.
Qed.

Lemma fork_upsert_stamp x : x ∈ forkU → stamp x ∈ stamps forkU forkD.
Proof using. apply stamps_upsert. Qed.
Lemma own_upsert_clock x : x ∈ ownU → clk < commit_micros x ∧ F < commit_seq_num x.
Proof using Hown. intros (d & Hd & <- & <-)%source_commit. destruct (Hown d Hd). lia. Qed.
Lemma own_delete_clock x : x ∈ ownD → clk < commit_micros x ∧ F < commit_seq_num x.
Proof using Hown. intros (d & Hd & <- & <-)%source_commit. destruct (Hown d Hd). lia. Qed.

Lemma up_to_fork {A} W (Hy own : list (src_row A)) :
  W ≤ F → (∀ x, x ∈ own → F < commit_seq_num x) → up_to W (up_to F Hy ++ own) = up_to W Hy.
Proof using.
  intros HW Hlt. unfold up_to. rewrite filter_app. assert (filter (λ x, commit_seq_num x ≤ W) own = []) as ->.
  { apply elem_of_nil_inv. intros x [Hle Hx]%list_elem_of_filter. specialize (Hlt x Hx). lia. }
  rewrite app_nil_r, list_filter_filter. apply list_filter_iff. intros x. split; [by intros [? _]|]. intros ?. split; [done|lia].
Qed.

(** ** The snapshot *)

Lemma copied_rows (segs : list (SnapshotSegment V)) indexes u : ∀ i : nat,
  mbind snapshot_rows (imap (λ j g, copy_snapshot_segment indexes (u (i + j)%nat) g) segs) = mbind snapshot_rows segs.
Proof using.
  induction segs as [|g segs IH]; intros i; [done|]. rewrite imap_cons, !bind_cons. f_equal.
  rewrite <- (IH (S i)). f_equal. apply imap_ext. intros j x _. cbn. by replace (i + S j)%nat with (S (i + j))%nat by lia.
Qed.

Lemma copied_wf indexes u (g : SnapshotSegment V) : seg_wf index_key g → seg_wf index_key (copy_snapshot_segment indexes u g).
Proof using.
  intros Hwf [ix|] sc Hsc; [|exact (Hwf None sc Hsc)]. apply (Hwf (Some ix) sc). cbn in *. rewrite <- Hsc.
  destruct (decide (ix ∈ index_uuid <$> indexes)) as [Hin|Hin].
  - do 2 f_equal. rewrite list_filter_filter. apply list_filter_iff. intros p. split; [intros <-; done|by intros [? _]].
  - exfalso. apply fmap_Some in Hsc as (p & [Hp [Hpi _]%list_elem_of_filter]%head_Some_elem_of%list_elem_of_filter & _). congruence.
Qed.

Lemma copied_snapshot_ok sn : inherited_snapshot m F M = Some sn → snapshot_ok value index_key whole forkU forkD (copy_snapshot now sn).
Proof using Hco Hm Hc HcU HcD Hown Hclock.
  intros Hsn. assert (base_at = Some (sn_snapshotted_at_micros sn)) as Hb by (unfold baseline; by rewrite Hsn).
  destruct (base_snapshot _ Hb) as (sn' & Hsn' & _ & _ & _ & HW & [Hr Hcut Hbase Hnd Hix Hwf HsU HsD]). rewrite Hsn in Hsn'. injection Hsn' as <-.
  assert (mbind snapshot_rows (sn_segments (copy_snapshot now sn)) = mbind snapshot_rows (sn_segments sn)) as Hrows.
  { cbn. apply (copied_rows _ _ (λ i, child_snapshot_segment_uuid (child_snapshot_uuid (sn_snapshotted_at_micros sn)) (Z.of_nat i)) 0). }
  split; rewrite ?Hrows; cbn [copy_snapshot sn_snapshotted_at_micros sn_commit_seq_num sn_indexes].
  - done.
  - intros r mi sq [[Hst _]|(d & Hd & <- & <-)]%fork_stamps; [by eapply Hcut|]. destruct (Hown d Hd) as [? [? _]].
    destruct (ml_snapshots _ _ Hm sn) as (p & Hp & Hat); [by apply pick_snapshot_Some in Hsn as [? _]|]. destruct (Hclock p Hp). lia.
  - unfold forkU, forkD. rewrite !up_to_fork; [done|done|by intros x [_ ?]%own_delete_clock|done|by intros x [_ ?]%own_upsert_clock].
  - done.
  - done.
  - intros g (i & g0 & -> & Hg0)%elem_of_lookup_imap. apply copied_wf, Hwf. by eapply list_elem_of_lookup_2.
  - apply (whole_no_straddle UpsertLog); [done|apply (fk_upserts _ _ _ _ _ Hc)|done|done].
  - apply (whole_no_straddle DeleteLog); [done|apply (fk_deletes _ _ _ _ _ Hc)|done|done].
Qed.

(** ** Coherence *)

Lemma upserts_written p g : ph_log_kind p = UpsertLog → g ∈ tm_upsert_segments m → qualifies F p g → written m F (segment_from m F M) p.
Proof using. intros ? ? ?. right. left. eauto. Qed.
Lemma deletes_written p g : ph_log_kind p = DeleteLog → g ∈ tm_delete_segments m → qualifies F p g → written m F (segment_from m F M) p.
Proof using. intros ? ? ?. right. right. eauto. Qed.

Lemma parent_covered r mi sq : (r, mi, sq) ∈ stamps HU HD → sq ≤ F → ∃ w, persist_wm c = Some w ∧ mi ≤ w.
Proof using Hco Hm Hc HcU HcD Hflushed.
  intros [(x & Hx & Hin)%list_elem_of_fmap|(x & Hx & Hin)%list_elem_of_fmap]%elem_of_app Hle; injection Hx as -> -> ->.
  - by apply (fork_covers UpsertLog _ _ _ (ml_upserts _ _ Hm) (co_cold_upserts _ _ _ _ _ _ Hco) HcU (stamps_upsert _ _) (fk_upserts _ _ _ _ _ Hc) upserts_written).
  - by apply (fork_covers DeleteLog _ _ _ (ml_deletes _ _ Hm) (co_cold_deletes _ _ _ _ _ _ Hco) HcD (stamps_delete _ _) (fk_deletes _ _ _ _ _ Hc) deletes_written).
Qed.

Lemma whole_purged : last_purged_seq whole = match persist_wm c with None => None | Some _ => Some F end.
Proof using Hc. unfold last_purged_seq, whole. cbn. destruct (persist_wm c); [|done]. by rewrite (fk_purges _ _ _ _ _ Hc). Qed.

(** The fork's hot log of one kind. *)
Lemma whole_hot {A} (log : list (log_row A)) (Hy : list (src_row A)) :
  (∀ x y, x ∈ log → y ∈ log → lr_row_uuid x = lr_row_uuid y → lr_tx_uuid x = lr_tx_uuid y → x = y) →
  (∀ x, x ∈ Hy → stamp x ∈ stamps HU HD) →
  hot_ok (last_purged_seq whole) (commit_tx_log f) log (up_to F Hy ++ hot_source None log (commit_tx_log f)).
Proof using Hco Hm Hc HcU HcD Hflushed.
  intros Hu Hst. split; [|..|done].
  - intros x Hx. apply elem_of_app. by right.
  - intros x [[Hle Hx]%list_elem_of_filter|Hx]%elem_of_app; [|done]. rewrite whole_purged.
    destruct (parent_covered _ _ _ (Hst x Hx) Hle) as (w & -> & _). cbn. lia.
Qed.

Lemma whole_cold_kind {A} k (segs fork_segs : list (segment_meta A)) Hy own :
  linked E k (tm_persists m) segs → cold_ok (persist_wm m) segs Hy → (∀ g, g ∈ segs → is_Some (sg_commit_micros g)) →
  (∀ x, x ∈ Hy → stamp x ∈ stamps HU HD) → (∀ g', g' ∈ fork_segs ↔ inherits m F M now k segs g') →
  (∀ p g, ph_log_kind p = k → g ∈ segs → qualifies F p g → written m F (segment_from m F M) p) → (∀ x, x ∈ own → clk < commit_micros x) →
  cold_ok (persist_wm whole) (under_base segs ++ (trim <$> fork_segs)) (up_to F Hy ++ own).
Proof using Hco Hm Hc Hflushed Hclock.
  intros Hl Hcold Hcm Hst Hfs Hwr Hox. unfold persist_wm at 1. cbn [whole tm_persists]. fold (persist_wm c).
  destruct (persist_wm c) as [w|] eqn:Ew; [by apply (whole_cold k)|].
  assert (under_base segs ++ (trim <$> fork_segs) = []) as ->; [|split; [by intros g ?%not_elem_of_nil|by intros g x ?%not_elem_of_nil|done]].
  apply elem_of_nil_inv. intros g [(_ & b & Hb & _)%under_base_elem|(p & g0 & _ & _ & Hin & _)]%(whole_segs_elem k _ _ Hfs).
  - destruct (fork_wm_base b Hb) as (w & Hw & _). congruence.
  - apply Hfs in Hin as (p' & g1 & Hp' & Hk & Hpast & Hg1 & Hq & _).
    destruct (fork_wm_written p' Hp') as (w & Hw & _); [intros b Hb; specialize (Hpast b Hb); lia|by eapply Hwr|congruence].
Qed.

Lemma whole_coherent : coherent value index_key whole f forkU forkD.
Proof using All.
  split.
  - intros r mi sq [[Hst _]|(d & Hd & <- & <-)]%fork_stamps; [by apply (co_range _ _ _ _ _ _ Hco _ _ _ Hst)|]. destruct (Hown d Hd). lia.
  - intros r1 m1 s1 r2 m2 s2 [[H1 ?]|(d1 & Hd1 & <- & <-)]%fork_stamps [[H2 ?]|(d2 & Hd2 & <- & <-)]%fork_stamps.
    + by apply (co_mono _ _ _ _ _ _ Hco _ _ _ _ _ _ H1 H2).
    + pose proof (Hstamped _ _ _ H1). destruct (Hown d2 Hd2). lia.
    + pose proof (Hstamped _ _ _ H2). destruct (Hown d1 Hd1). lia.
    + apply (commit_lt_inj _ d1 d2 Hsorted Hd1 Hd2).
  - intros x y Hx Hy Hr Hxy Hyx. assert (commit_seq_num x = commit_seq_num y) as Hsq by (unfold kle in *; cbn in *; lia).
    apply elem_of_app in Hx as [[Hxl Hx]%list_elem_of_filter|Hx], Hy as [[Hyl Hy]%list_elem_of_filter|Hy].
    + by apply (co_keys _ _ _ _ _ _ Hco).
    + apply own_upsert_clock in Hy. lia.
    + apply own_upsert_clock in Hx. lia.
    + by apply (source_unique (upsert_log f) (commit_tx_log f) HuU Hsorted).
  - intros w Hw. by apply fork_wm_bounds.
  - by apply whole_hot; [|apply stamps_upsert].
  - by apply whole_hot; [|apply stamps_delete].
  - eapply whole_cold_kind; [apply Hm|apply Hco|done|apply stamps_upsert|apply (fk_upserts _ _ _ _ _ Hc)|apply upserts_written|by intros x [? _]%own_upsert_clock].
  - eapply whole_cold_kind; [apply Hm|apply Hco|done|apply stamps_delete|apply (fk_deletes _ _ _ _ _ Hc)|apply deletes_written|by intros x [? _]%own_delete_clock].
  - intros sn [_ Hsn]%list_elem_of_filter. cbn in Hsn. rewrite (fk_snapshots _ _ _ _ _ Hc) in Hsn.
    destruct (inherited_snapshot m F M) as [old|] eqn:Eo; [|by apply not_elem_of_nil in Hsn]. apply list_elem_of_singleton in Hsn as ->. by apply copied_snapshot_ok.
  - intros pu Hpu. rewrite whole_purged in Hpu. change (persist_wm whole) with (persist_wm c). destruct (persist_wm c) as [w|] eqn:Ew; [|done].
    injection Hpu as <-. exists w. split; [done|]. intros r mi sq [[Hst Hle]|(d & Hd & <- & <-)]%fork_stamps Hsq.
    + destruct (parent_covered _ _ _ Hst Hle) as (w' & Hw' & ?). congruence.
    + destruct (Hown d Hd). lia.
Qed.

(** ** Reads not below the fork *)

(** The adopted snapshot is the one every such read picks. *)
Lemma fork_pick sn as_of upper :
  inherited_snapshot m F M = Some sn → M ≤ as_of → (∀ n, upper = Some n → F ≤ n) →
  (hot_min_and_snapshot_pick c as_of upper).2 = Some (copy_snapshot now sn).
Proof using Hc Hm Hco.
  intros Hsn HM HF'. assert (base_at = Some (sn_snapshotted_at_micros sn)) as Hb by (unfold baseline; by rewrite Hsn).
  destruct (base_snapshot _ Hb) as (sn' & Hsn' & _ & _ & Hle & HW & _). rewrite Hsn in Hsn'. injection Hsn' as <-.
  destruct (fork_wm_base _ Hb) as (w & Hw & Hbw). cbn [hot_min_and_snapshot_pick snd]. unfold pick_snapshot, committed.
  rewrite (fk_snapshots _ _ _ _ _ Hc), Hsn. change (option_list (copy_snapshot now <$> Some sn)) with [copy_snapshot now sn]. rewrite filter_cons_True by (by eexists). rewrite filter_nil.
  rewrite filter_cons_True; [done|]. cbn [copy_snapshot sn_snapshotted_at_micros sn_commit_seq_num]. rewrite Hw. cbn. apply andb_true_intro. split.
  - apply Z.leb_le. lia.
  - destruct upper as [n|]; [|done]. cbn. apply Z.leb_le. specialize (HF' n eq_refl). lia.
Qed.

Lemma covered_outside {A} (segs : list (segment_meta A)) as_of upper hi up g :
  M ≤ as_of → (∀ n, upper = Some n → F ≤ n) → g ∈ under_base segs →
  persist_segment_overlap_clause
    ((λ t, sat_sub t 1) <$> ((λ t, sat_add t 1) <$> (sn_snapshotted_at_micros <$> (hot_min_and_snapshot_pick c as_of upper).2))) hi up g = false.
Proof using Hc Hm Hco.
  intros HM HF' (_ & b & Hb & Hle)%under_base_elem. destruct (base_snapshot b Hb) as (sn & Hsn & Hat & _ & _ & _ & Hok).
  rewrite (fork_pick sn as_of upper Hsn HM HF'). unfold persist_segment_overlap_clause. cbn -[sat_add sat_sub].
  destruct (sn_range _ _ _ _ _ _ Hok) as [Hr _]. rewrite Hat in *.
  assert (sat_sub (sat_add b 1) 1 = b) as -> by i64. destruct (Z.ltb_spec b (sg_max_tx_commit_micros g)); [lia|done].
Qed.

Lemma fork_rows_kept {A} k (segs fork_segs : list (segment_meta A)) g :
  linked E k (tm_persists m) segs → (∀ g', g' ∈ fork_segs ↔ inherits m F M now k segs g') →
  (∀ g, g ∈ segs → seg_bounds g) → g ∈ fork_segs → sg_rows (trim g) = [] → sg_rows g = [].
Proof using.
  intros Hl Hfs Hb (p & g0 & _ & _ & _ & Hg0 & [_ Hmin] & ->)%Hfs Hnil. exfalso.
  destruct (ln_min _ _ _ _ Hl g0 Hg0) as (x & Hx & Hsq). destruct (Hb g0 Hg0 x Hx) as [_ ?].
  assert (x ∈ sg_rows (trim (segment_copy F now p g0))) as Hin by (apply trim_row; split; [done|lia]). rewrite Hnil in Hin. by apply not_elem_of_nil in Hin.
Qed.

Lemma whole_trims as_of upper : M ≤ as_of → (∀ n, upper = Some n → F ≤ n) → trims c whole as_of upper.
Proof using Hco Hm Hc HcU HcD.
  intros HM HF'. split; [done|done|intros [w Hw]; cbn; by rewrite Hw|]. intros hi up lo.
  assert (∀ g, g ∈ tm_upsert_segments m → seg_bounds g) as HbU by (intros g Hg; by apply (cold_bounds _ _ _ (co_cold_upserts _ _ _ _ _ _ Hco)), committed_all).
  assert (∀ g, g ∈ tm_delete_segments m → seg_bounds g) as HbD by (intros g Hg; by apply (cold_bounds _ _ _ (co_cold_deletes _ _ _ _ _ _ Hco)), committed_all).
  split; (apply classify_trim; [intros g Hg; eapply covered_outside; [exact HM|exact HF'|exact Hg]|]); intros g Hg.
  - by apply (fork_rows_kept UpsertLog (tm_upsert_segments m) (tm_upsert_segments c) g (ml_upserts _ _ Hm) (fk_upserts _ _ _ _ _ Hc)).
  - by apply (fork_rows_kept DeleteLog (tm_delete_segments m) (tm_delete_segments c) g (ml_deletes _ _ Hm) (fk_deletes _ _ _ _ _ Hc)).
Qed.
End coherent.

(** ** A fork and its parent at work

    The client operations of a fork commit above the fork point, and a flush
    that reports success leaves nothing at or below its target outside the
    parent's cold tier. *)

(** ** The fork's own operations *)

Section child.
Context {V : Type} `{CV : ColdBatch V, CU : ColdBatch unit, L : SnapshotLayout V}.
Context (E : env V) (value : Z → Z * V → cell) (index_key : Z → Z * V → list cell).
Context `{!ColdBatchLaws CV, !ColdBatchLaws CU, !SnapshotLayoutLaws L value index_key}.
Context (Henv : env_ok E value index_key).

Definition is_client (o : op V) : Prop :=
  match o with OpPersist _ | OpSnapshot _ | OpPurge => False | _ => True end.

(** A client operation on the fork, under a clock that does not run back. *)
Inductive child_step : branch_state V * Z → branch_state V * Z → Prop :=
  | ChildStep st t now o :
      is_client o → t ≤ now → 0 < now < I64_MAX → scheduled E st now o → child_step (st, t) (client E st now o, now).

(** The branch without its inherited metadata, which no client operation reads. *)
Definition strip (st : branch_state V) : branch_state V :=
  {| bs_tx := bs_tx st;
     bs_table := {| ts_upserts := ts_upserts (bs_table st); ts_deletes := ts_deletes (bs_table st);
                    ts_write_sequence := ts_write_sequence (bs_table st); ts_tx_table_log := ts_tx_table_log (bs_table st);
                    ts_meta := empty_meta |} |}.

Lemma client_strip st now o : client E (strip st) now o = strip (client E st now o).
Proof.
  destruct o as [tx timeout|tx|tx|fresh tx ch|target|as_of|]; cbn; try done.
  - by destruct (begin_tx _ _ _ _) as [[]|].
  - by destruct (commit_tx _ _ _) as [[]|].
  - by destruct (abort_tx _ _ _) as [[]|].
  - unfold write_data. cbn. destruct (resolve_or_auto_commit_tx _ _ _ _) as [[l [tx' c]]|]; [|done]. cbn. destruct ch as [ch|]; [|done].
    unfold apply_change. cbn. case_decide; [done|]. destruct (insert_deletes _ _ _ _ _). case_decide; [|done]. by destruct (insert_upserts _ _ _ _ _).
Qed.

(** New commits take the counter and the clock. *)
Lemma client_commits st now (o : op V) :
  let l := bs_tx st in let l' := bs_tx (client E st now o) in
  commit_tx_log_seq_num l ≤ commit_tx_log_seq_num l' ∧
  ∃ k, tx_commit_log l' = tx_commit_log l ++ k ∧ ∀ c, c ∈ k → ct_commit_seq_num c = commit_tx_log_seq_num l ∧ ct_commit_micros c = now.
Proof.
  cbv zeta. set (P := λ l l' : tx_logs, commit_tx_log_seq_num l ≤ commit_tx_log_seq_num l' ∧
    ∃ k, tx_commit_log l' = tx_commit_log l ++ k ∧ ∀ c, c ∈ k → ct_commit_seq_num c = commit_tx_log_seq_num l ∧ ct_commit_micros c = now).
  change (P (bs_tx st) (bs_tx (client E st now o))).
  assert (∀ l l', tx_commit_log l' = tx_commit_log l → commit_tx_log_seq_num l' = commit_tx_log_seq_num l → P l l') as Hsame.
  { intros l l' Hl Hn. split; [lia|]. exists []. rewrite app_nil_r. split; [done|by intros c ?%not_elem_of_nil]. }
  assert (∀ l tx l' c, commit_tx_log_insert l now tx = Ok (l', c) → P l l') as Hins.
  { intros l tx l' c (-> & -> & _ & _)%commit_insert_Ok. split; cbn; [lia|]. eexists. split; [done|]. by intros c ->%list_elem_of_singleton. }
  destruct o as [tx timeout|tx|tx|fresh tx ch|target|as_of|]; cbn [client]; try by apply Hsame.
  - destruct (begin_tx _ _ _ _) as [[l' out]|] eqn:Eb; [|by apply Hsame]. unfold begin_tx in Eb. destruct (begin_tx_log _ !! tx); simplify_eq. by apply Hsame.
  - destruct (commit_tx _ _ _) as [[l' c]|] eqn:Eb; [|by apply Hsame]. unfold commit_tx in Eb. destruct (get_tx_status _ now tx) as [[]|]; try done.
    unfold commit_open_tx in Eb. destruct (begin_tx_log _ !! tx); [|done]. by eapply Hins.
  - destruct (abort_tx _ _ _) as [[l' c]|] eqn:Eb; [|by apply Hsame]. unfold abort_tx in Eb.
    destruct (get_tx_status _ now tx) as [[]|]; simplify_eq; try by apply Hsame.
    unfold hot_abort_tx in Eb. destruct (begin_tx_log _ !! tx); [|done]. destruct (I64_MAX <=? _); [done|]. case_decide; simplify_eq. by apply Hsame.
  - destruct (write_data _ _ _ _ _ _) as [[st' out]|] eqn:Ew; [|by apply Hsame]. unfold write_data in Ew.
    destruct (resolve_or_auto_commit_tx _ _ _ _) as [[l' [tx' co]]|] eqn:Er; [|done]. cbn [result_bind] in Ew.
    assert (bs_tx st' = l') as ->. { destruct (match ch with Some _ => _ | None => _ end); by simplify_eq/=. }
    unfold resolve_or_auto_commit_tx in Er. destruct tx as [tx|].
    + destruct (resolve_tx _ _ _); simplify_eq/=. by apply Hsame.
    + destruct (auto_commit_tx _ _ _) as [[l1 c]|] eqn:Ea; simplify_eq/=. by eapply Hins.
Qed.

(** What holds of a fork at [F] over metadata [m] that started at [t0]. *)
Record child_ok (F t0 : Z) (m : table_meta V) (s : branch_state V * Z) : Prop := {
  ck_inv : Inv E value index_key {| w_real := strip s.1; w_ideal := strip s.1; w_now := s.2 |} [];
  ck_meta : ts_meta (bs_table s.1) = m;
  ck_clock : t0 ≤ s.2;
  ck_counter : F < commit_tx_log_seq_num (bs_tx s.1);
  ck_commits : ∀ c, c ∈ tx_commit_log (bs_tx s.1) → F < ct_commit_seq_num c ∧ t0 ≤ ct_commit_micros c;
}.

Lemma child_step_ok F t0 m s s' : child_ok F t0 m s → child_step s s' → child_ok F t0 m s'.
Proof using Henv.
  intros [Hi Hm Ht Hn Hc] Hst. destruct Hst as [st t now o Ho Hle Hr Hsch]. cbn in *.
  assert (tick {| w_real := strip st; w_ideal := strip st; w_now := t |} now) as Htick by done.
  destruct (client_commits st now o) as [Hcnt (k & Hk & Hnew)]. split; cbn [fst snd]; [|by rewrite client_meta|lia|lia|].
  - rewrite <- client_strip. set (w := {| w_real := strip st; w_ideal := strip st; w_now := t |}) in *. destruct Henv as [Hv _ _ _]. destruct o as [tx timeout|tx|tx|fresh tx ch|target|as_of|]; try done.
    + by apply (inv_begin E value index_key w [] now tx timeout).
    + by apply (inv_commit E value index_key w [] now tx).
    + by apply (inv_abort E value index_key w [] now tx).
    + apply (inv_write E value index_key Hv w [] now fresh tx ch); [done|done|]. by intros ->.
  - intros c. rewrite Hk. intros [Hin|Hin]%elem_of_app; [by apply Hc|]. destruct (Hnew c Hin) as [-> ->]. lia.
Qed.

Lemma child_steps_ok F t0 m s s' : child_ok F t0 m s → rtc child_step s s' → child_ok F t0 m s'.
Proof using Henv. intros Hs Hr. induction Hr as [s|s s1 s2 Hst _ IH]; [done|]. by eapply IH, child_step_ok. Qed.

(** A new fork before its first commit. *)
Definition child_of (m : table_meta V) (F : Z) : branch_state V :=
  {| bs_tx := seed_commit_seq_num_from_fork empty_tx_logs F;
     bs_table := {| ts_upserts := []; ts_deletes := []; ts_write_sequence := 0; ts_tx_table_log := ∅; ts_meta := m |} |}.

Lemma child_start F t0 m : 0 ≤ F < I64_MAX → 0 ≤ t0 → child_ok F t0 m (child_of m F, t0).
Proof.
  intros HF Ht. split; cbn [fst snd child_of bs_tx bs_table ts_meta seed_commit_seq_num_from_fork commit_tx_log_seq_num tx_commit_log empty_tx_logs];
    [|done|lia|lia|by intros c ?%not_elem_of_nil].
  apply (inv_empty E value index_key (seed_commit_seq_num_from_fork empty_tx_logs F) t0); [|done|done].
  pose proof tx_wf_empty as [? ? ? ? ? ? ? ? ? ?]. split; cbn; try done; try lia; by intros ? ?%not_elem_of_nil.
Qed.

(** The fork transaction is a write of nothing. *)
Lemma fork_tx_ok F m fork_tx fork_now : 0 ≤ F → F + 1 < I64_MAX → 0 < fork_now < I64_MAX →
  ∃ l, materialize_metadata_from_source (seed_commit_seq_num_from_fork empty_tx_logs F) fork_now fork_tx = Ok l ∧
    child_ok F fork_now m ({| bs_tx := l; bs_table := bs_table (child_of m F) |}, fork_now).
Proof using Henv.
  intros HF Hroom Hnow. pose proof (child_start F fork_now m ltac:(lia) ltac:(lia)) as Hs.
  assert (fresh_tx (bs_tx (child_of m F)) fork_tx) as Hfr by (split_and!; [done|by intros ? ?%not_elem_of_nil..]).
  pose proof (child_step_ok F fork_now m _ _ Hs (ChildStep (child_of m F) fork_now fork_now (OpWrite fork_tx None None) I ltac:(lia) Hnow Hfr)) as Hc.
  unfold materialize_metadata_from_source, auto_commit_tx, commit_tx_log_insert.
  cbn [client] in Hc. unfold write_data, resolve_or_auto_commit_tx, auto_commit_tx, commit_tx_log_insert in Hc.
  cbn [child_of bs_tx seed_commit_seq_num_from_fork commit_tx_log_seq_num tx_commit_log empty_tx_logs] in *.
  destruct (Z.leb_spec I64_MAX (F + 1)); [lia|]. rewrite decide_False in Hc |- * by (by intros ?%Exists_nil). cbn in Hc |- *. eauto.
Qed.
End child.

(** ** The flush of the parent *)

Section flush.
Context {V : Type} `{CV : ColdBatch V, CU : ColdBatch unit, L : SnapshotLayout V}.
Context {Note : Type} (note_of : Z → Note) {LN : LedgerNaming} (E : env V) (value : Z → Z * V → cell) (index_key : Z → Z * V → list cell).
Context `{!ColdBatchLaws CV, !ColdBatchLaws CU, !SnapshotLayoutLaws L value index_key}.
Context (Henv : env_ok E value index_key) (Hn : LedgerNamingLaws LN).

(** A committed version is still hot or under the persist watermark. *)
Lemma hot_or_persisted w gone r mi sq :
  Inv E value index_key w gone → (r, mi, sq) ∈ stamps (historyU (w_ideal w)) (historyD (w_ideal w)) →
  (∃ z, persist_wm (ts_meta (bs_table (w_real w))) = Some z ∧ mi ≤ z) ∨
  ∀ mx, mi < mx → mi ∈ (commit_micros <$> read_committed (tx_commit_log (bs_tx (w_real w))) (ts_upserts (bs_table (w_real w))) (Some mx)) ++
                       (commit_micros <$> read_committed (tx_commit_log (bs_tx (w_real w))) (ts_deletes (bs_table (w_real w))) (Some mx)).
Proof.
  intros Hi Hst. pose proof (inv_coherent _ _ _ _ _ Hi) as Hco. destruct (co_range _ _ _ _ _ _ Hco _ _ _ Hst) as [Hsq _].
  set (m := ts_meta (bs_table (w_real w))) in *.
  destruct (decide (default SNAPSHOT_SEQ_GENESIS (last_purged_seq m) < sq)) as [Hlt|Hge].
  - right. intros mx Hmx. rewrite elem_of_app, !list_elem_of_fmap.
    apply elem_of_app in Hst as [(x & Hx & Hin)%list_elem_of_fmap|(x & Hx & Hin)%list_elem_of_fmap]; injection Hx as -> -> ->; [left|right];
      exists x; (split; [done|]); apply (read_committed_elem value index_key); (split; [|done]).
    + by apply (hot_complete _ _ _ _ (co_hot_upserts _ _ _ _ _ _ Hco)).
    + by apply (hot_complete _ _ _ _ (co_hot_deletes _ _ _ _ _ _ Hco)).
  - left. destruct (last_purged_seq m) as [pu|] eqn:Epu; [|unfold SNAPSHOT_SEQ_GENESIS in Hge; cbn in Hge; lia].
    destruct (co_purge _ _ _ _ _ _ Hco pu Epu) as (z & Hz & Hle). exists z. split; [done|]. eapply Hle; [done|]. cbn in Hge. lia.
Qed.
(** A persist that reports success has its watermark at the candidate or past it. *)
Lemma persist_reaches w gone (ledger : ledger_store Note) now M faults st ledger' :
  let real := w_real w in let clog := tx_commit_log (bs_tx real) in
  let us := read_committed clog (ts_upserts (bs_table real)) (Some (sat_add M 1)) in
  let ds := read_committed clog (ts_deletes (bs_table real)) (Some (sat_add M 1)) in
  Inv E value index_key w gone → 0 < M →
  (compute_candidate_persisted_at_gated real now (Some M) ≠ None → scheduled E real now (OpPersist (Some M))) →
  persist_with_ledger note_of E real ledger now (Some M) faults = (st, ledger', Returns tt) →
  ∀ p, zmax_list ((commit_micros <$> us) ++ (commit_micros <$> ds)) = Some p ∨ persist_wm (ts_meta (bs_table real)) = Some p →
    ∃ z, persist_wm (ts_meta (bs_table st)) = Some z ∧ p ≤ z.
Proof using Henv ColdBatchLaws0 ColdBatchLaws1.
  cbv zeta. intros Hi HM Hsch Hp p. unfold persist_with_ledger in Hp.
  destruct (Z.leb_spec (effective_target (Some M) now) 0) as [Hle|_]; [cbn in Hle; lia|].
  destruct (compute_candidate_persisted_at_gated _ _ _) as [[ca sq]|] eqn:Eg.
  - destruct (persist_tx_log _ _ _ _ _ _) as [w' r]. destruct r as [u|e|]; [|done|done].
    destruct (persist_locked _ _ _ _ _ _) as [[st1 o]|] eqn:Ep; [|done]. injection Hp as <- _. specialize (Hsch ltac:(done)). destruct Henv as [_ Hpi Hsi _].
    apply (persist_outcome E value index_key Hpi Hsi w gone) in Ep as [[-> Hz]|(candidate & newU & newD & Hc & Hlt & _ & _ & ->)]; [..|done|done].
    + intros [Hc|Hw]; [by apply (Hz HM)|]. exists p. split; [done|lia].
    + change (effective_target (Some M) now) with M in *. set (us := read_committed _ (ts_upserts _) _) in *. set (ds := read_committed _ (ts_deletes _) _) in *.
      intros Hcase. exists candidate. split; [|destruct Hcase as [Hc'|Hw]; [rewrite Hc in Hc'; injection Hc' as <-; lia|specialize (Hlt p Hw); lia]].
      apply persist_wm_next; [|done]. destruct us, ds; [|by (left + right)..]. done.
  - injection Hp as <- _. intros [Hc|Hw]; [|exists p; split; [done|lia]]. revert Eg. unfold compute_candidate_persisted_at_gated. cbv zeta.
    change (effective_target (Some M) now) with M. set (us := read_committed _ (ts_upserts _) _) in *. set (ds := read_committed _ (ts_deletes _) _) in *.
    rewrite Hc. destruct (zmax_list ((commit_seq_num <$> us) ++ _)) as [sq|] eqn:Es.
    + destruct (persist_wm _) as [z|]; [|done]. destruct (Z.leb_spec p z); [|done]. eauto.
    + intros _. apply zmax_list_None in Es. clearbody us ds. by destruct us, ds.
Qed.

(** So everything up to the target is in cold. *)
Lemma persist_covers_target w gone (ledger : ledger_store Note) now M faults st ledger' r mi sq :
  Inv E value index_key w gone → 0 < M < I64_MAX →
  (compute_candidate_persisted_at_gated (w_real w) now (Some M) ≠ None → scheduled E (w_real w) now (OpPersist (Some M))) →
  persist_with_ledger note_of E (w_real w) ledger now (Some M) faults = (st, ledger', Returns tt) →
  (r, mi, sq) ∈ stamps (historyU (w_ideal w)) (historyD (w_ideal w)) → mi ≤ M →
  ∃ z, persist_wm (ts_meta (bs_table st)) = Some z ∧ mi ≤ z.
Proof using Henv ColdBatchLaws0 ColdBatchLaws1.
  intros Hi HM Hsch Hp Hst Hle. pose proof (persist_reaches w gone ledger now M faults st ledger' Hi ltac:(lia) Hsch Hp) as Hr.
  destruct (hot_or_persisted w gone r mi sq Hi Hst) as [(z & Hz & Hmz)|Hin].
  - destruct (Hr z (or_intror Hz)) as (z' & ? & ?). exists z'. split; [done|lia].
  - specialize (Hin (sat_add M 1) ltac:(i64)). destruct (zmax_list _) as [p|] eqn:Ez in Hr.
    + destruct (Hr p (or_introl eq_refl)) as (z & ? & ?). exists z. split; [done|]. apply zmax_list_Some in Ez as [_ Ez]. specialize (Ez mi Hin). lia.
    + apply zmax_list_None in Ez. rewrite Ez in Hin. by apply not_elem_of_nil in Hin.
Qed.

(** The flush of a branch is a run of the joint system. *)
Lemma persist_branch_reachable w ledger now target lf faults st ledger' wm :
  rtc (jstep note_of E) jstart (w, ledger) → tick w now →
  (compute_candidate_persisted_at_gated (w_real w) now (Some (wm_commit_micros target)) ≠ None →
     scheduled E (w_real w) now (OpPersist (Some (wm_commit_micros target)))) →
  persist_branch note_of E (w_real w) ledger now target lf faults = (st, ledger', Returns (Some wm)) →
  ∃ ledger0 t, rtc (jstep note_of E) jstart ({| w_real := st; w_ideal := w_ideal w; w_now := t |}, ledger') ∧ t ≤ now ∧
    persist_with_ledger note_of E (w_real w) ledger0 now (Some (wm_commit_micros target)) faults = (st, ledger', Returns tt).
Proof.
  intros Hr Htick Hsch. unfold persist_branch.
  pose proof (JFlush note_of E w ledger now (wm_commit_seq_num target) lf) as Hfl.
  destruct (persist_tx_log _ _ _ _ _ _) as [lw r]. cbn [fst] in Hfl. destruct r as [u|e|]; [|done|done].
  destruct (persist_with_ledger _ _ _ _ _ _ _) as [[st1 l1] out] eqn:Ep. destruct out as [[]|e|]; [|done|done]. intros [= -> -> _].
  exists (lw_store lw). destruct (compute_candidate_persisted_at_gated (w_real w) now (Some (wm_commit_micros target))) as [x|] eqn:Eg.
  - exists now. split_and!; [|lia|done]. eapply rtc_r; [by eapply rtc_r|]. eapply JPersist; [done|by apply Hsch|exact Ep].
  - exists (w_now w). split_and!; [|apply Htick|done]. unfold persist_with_ledger in Ep. rewrite Eg in Ep.
    assert (st = w_real w ∧ ledger' = lw_store lw) as [-> ->] by (destruct (effective_target _ _ <=? 0); by simplify_eq).
    destruct w. by eapply rtc_r.
Qed.
End flush.
