(* ===== verification/AuditTheorems.v ===== *)
(** * An audit returns the committed history *)

From S2P Require Import Prelude CoreTypes Watermarks ReadSnapshot Dialect MergeSql IndexSeek Plan SnapshotScan IndexSelect Effects TxLog TxLedger TxLedgerInv TxLedgerTheorems TableStore Chunker ReadPath AuditReads Lifecycle ReadLemmas ReadData Tiers System SystemInv SystemPersist SystemSnapshot SystemTheorems AuditSystem.
From stdpp Require Import base numbers list option sets gmap sorting.

Open Scope Z_scope.
Open Scope result_scope.

(** ** Each version once *)

Lemma hot_source_nodup {A} (log : list (log_row A)) clog :
  NoDup (lr_version_uuid <$> log) → log_unique log → StronglySorted commit_lt clog → NoDup (hot_source None log clog).
Proof.
  intros Hnd Hu Hs. apply NoDup_fmap_1 in Hnd. unfold hot_source.
  rewrite (list_filter_iff _ (λ _, True)) by (intros; cbn; tauto).
  assert (filter (λ _ : log_row A, True) log = log) as ->.
  { by apply filter_all. }
  pose proof (NoDup_fmap_1 _ _ (commit_seqs_nodup _ Hs)) as Hc. induction log as [|u log IH]; cbn; [constructor|].
  apply NoDup_cons in Hnd as [Hn Hnd]. apply NoDup_app. split_and!.
  - apply NoDup_fmap_2_strong; [|by apply NoDup_filter].
    intros c c' [_ H1]%list_elem_of_filter [_ H2]%list_elem_of_filter [= _ He]. by apply (commit_lt_inj clog).
  - intros x (c & -> & [Ht H1]%list_elem_of_filter)%list_elem_of_fmap (u' & (c' & He & [Ht' H2]%list_elem_of_filter)%list_elem_of_fmap & Hin)%list_elem_of_bind.
    injection He as Hrow _ _ _ Hsq. assert (c = c') as <- by (by apply (commit_lt_inj clog)). apply Hn.
    rewrite (Hu u u'); [done|by left|by right|done|congruence].
  - apply IH; [done|]. intros x y Hx Hy. apply Hu; by right.
Qed.

Lemma ceiling_rows {A} (g : segment_meta A) : seg_bounds g → apply_segment_seq_ceiling (plan_segment g) = sg_rows g.
Proof.
  intros Hb. unfold apply_segment_seq_ceiling. cbn. unfold seg_bounds in Hb. induction (sg_rows g) as [|x l IH]; [done|].
  rewrite filter_cons_True by (apply (Hb x); by left). f_equal. apply IH. intros y Hy. apply Hb. by right.
Qed.

Lemma bind_submseteq_nodup {B C} (f : B → list C) (l k : list B) : l ⊆+ k → NoDup (mbind f k) → NoDup (mbind f l).
Proof.
  intros [rest Hp]%submseteq_Permutation. rewrite Hp, bind_app. by intros [? _]%NoDup_app.
Qed.

Lemma cold_log_nodup {A} (segs : list (segment_meta A)) lo hi upper :
  (∀ g, g ∈ committed sg_commit_micros segs → seg_bounds g) →
  NoDup (mbind sg_rows (committed sg_commit_micros segs)) → NoDup (cold_log (read_and_classify_persist_segments segs lo hi upper)).
Proof.
  intros Hb Hnd. unfold cold_log, read_and_classify_persist_segments.
  set (l := filter _ (merge_sort _ _)).
  assert (l ⊆+ committed sg_commit_micros segs) as Hsub.
  { unfold l. etrans; [apply sublist_submseteq, sublist_filter|]. rewrite merge_sort_Permutation.
    apply sublist_submseteq, sublist_filter. }
  assert (mbind apply_segment_seq_ceiling (plan_segment <$> l) = mbind sg_rows l) as ->.
  { assert (∀ g, g ∈ l → seg_bounds g) as Hl by (intros g Hg; apply Hb; by eapply elem_of_submseteq). clear -Hl.
    induction l as [|g l IH]; [done|]. rewrite fmap_cons, !bind_cons, ceiling_rows by (apply Hl; by left). f_equal. apply IH.
    intros g' Hg'. apply Hl. by right. }
  by eapply bind_submseteq_nodup.
Qed.

(** ** The plan of an unforked branch *)

Section unforked.
Context {Note V : Type}.

Lemma plan_unforked (m : table_meta V) (ledger : ledger_store Note) now duration request :
  plan_audit m ledger None now duration request =
  let? '(uf, sf) := floored (retention_floor m now duration) request in
  Ok {| ap_cold_from := arm_from m uf; ap_cold_to := arm_to m request; ap_hot_from := arm_hot_from m uf;
        ap_hot_to := (micros_bounds request).2; ap_seq_from := sf; ap_seq_to := (seq_bounds request).2;
        ap_cold_upsert_segments := arm_segments m request (tm_upsert_segments m) uf;
        ap_cold_delete_segments := arm_segments m request (tm_delete_segments m) uf;
        ap_include_tx_metadata := ar_include_tx_metadata request;
        ap_tx_log_segments := arm_refs m ledger request uf sf;
        ap_base_cold_upsert_segments := []; ap_base_cold_delete_segments := []; ap_base_tx_log_segments := [];
        ap_base_seq_to := None; ap_base_cold_to := None; ap_row_uuids := ar_row_uuids request |}.
Proof.
  unfold plan_audit, arm_refs, floored, seq_axis, arm_segments, arm_from, arm_to, arm_hot_from, cold_cap, micros_bounds, seq_bounds.
  destruct (audit_committed_axes _) as [mw sw]. cbn [fst snd].
  destruct (timestamp_bounds mw) as [a b], (timestamp_bounds sw) as [c d]. cbn [fst snd].
  destruct (enforce_floor _ _ a c) as [[uf sf]|]; [|done]. cbn [result_bind]. by destruct (hot_min_of m =? 0).
Qed.

End unforked.

(** ** Exactness *)

(** [rows] is the audit of the history [Hy]: the versions of the window and the
    requested rows, with the author and comment of their commit, in commit
    order. *)
Record audit_of {Note A} (note_of : Z → Note) (clog : list commit_row) (floor : option RetentionFloor) (request : AuditDataRequest)
    (Hy : list (src_row A)) (rows : list (audit_row Note A)) : Prop := {
  ao_rows : ∀ x n, (x, n) ∈ rows ↔
    x ∈ Hy ∧ in_window floor request (commit_micros x) (commit_seq_num x) ∧
    row_uuid_in_clause (ar_row_uuids request) (row_uuid x) = true ∧
    ∃ c, c ∈ clog ∧ ct_commit_seq_num c = commit_seq_num x ∧ ct_commit_micros c = commit_micros x ∧
      n = if ar_include_tx_metadata request then Some (Some (note_of (ct_tx_uuid c))) else None;
  ao_order : StronglySorted by_commit_seq rows;
}.

Section exact.
Context {V : Type} `{CV : ColdBatch V, CU : ColdBatch unit, L : SnapshotLayout V}.
Context {Note : Type} (note_of : Z → Note) {N : LedgerNaming} (E : env V).
Context (value : Z → Z * V → cell) (index_key : Z → Z * V → list cell).

Lemma tagged_audit_of {A} clog floor request uf sf (Hy : list (src_row A)) rows :
  StronglySorted commit_lt clog →
  (∀ x, x ∈ Hy → ∃ c, c ∈ clog ∧ ct_commit_micros c = commit_micros x ∧ ct_commit_seq_num c = commit_seq_num x) →
  (∀ x : src_row A, audit_where uf (micros_bounds request).2 sf (seq_bounds request).2 (ar_row_uuids request) x = true ↔
     in_window floor request (commit_micros x) (commit_seq_num x) ∧ row_uuid_in_clause (ar_row_uuids request) (row_uuid x) = true) →
  (∀ y, y ∈ rows ↔ ∃ x, y = tagged note_of (ar_include_tx_metadata request) clog x ∧ x ∈ Hy ∧
     audit_where uf (micros_bounds request).2 sf (seq_bounds request).2 (ar_row_uuids request) x = true) →
  StronglySorted by_commit_seq rows → audit_of note_of clog floor request Hy rows.
Proof.
  intros Hs Hc Hw Hel Hso. split; [|done]. intros x n. rewrite Hel.
  assert (∀ c, c ∈ clog → ct_commit_seq_num c = commit_seq_num x → tag note_of (ar_include_tx_metadata request) clog x =
    if ar_include_tx_metadata request then Some (Some (note_of (ct_tx_uuid c))) else None) as Htag.
  { intros c Hc1 Hc2. unfold tag. by rewrite (commit_of_Some clog c). }
  split.
  - intros (x' & [= <- ->] & Hx & [??]%Hw). destruct (Hc x Hx) as (c & Hc1 & Hc2 & Hc3). split_and!; [done..|]. exists c.
    split_and!; [done..|]. by apply Htag.
  - intros (Hx & Hwin & Hin & c & Hc1 & Hc2 & Hc3 & ->). exists x. split_and!; [|done|by apply Hw]. unfold tagged. by rewrite (Htag c).
Qed.

(** One log kind. *)
Lemma log_audit {A} (w : world V) ledger request floor uf sf rank (segs : list (segment_meta A)) (log : list (log_row A)) (Hy : list (src_row A)) :
  let st := w_real w in let m := ts_meta (bs_table st) in let clog := tx_commit_log (bs_tx st) in
  JInv note_of E value index_key (w, ledger) →
  cold_ok (persist_wm m) segs Hy → hot_ok (last_purged_seq m) clog log Hy → NoDup (lr_version_uuid <$> log) →
  (∀ x, x ∈ Hy → stamp x ∈ stamps (historyU (w_ideal w)) (historyD (w_ideal w))) →
  (∀ x : src_row A, audit_where uf (micros_bounds request).2 sf (seq_bounds request).2 (ar_row_uuids request) x = true ↔
     in_window floor request (commit_micros x) (commit_seq_num x) ∧ row_uuid_in_clause (ar_row_uuids request) (row_uuid x) = true) →
  ∃ rows, arm_cold m ledger request segs uf sf = Ok rows ∧
    audit_of note_of clog floor request Hy (rows ++ [] ++ arm_hot note_of m request log clog uf sf rank) ∧
    (NoDup (mbind sg_rows (committed sg_commit_micros segs)) →
     NoDup (rows ++ [] ++ arm_hot note_of m request log clog uf sf rank)).
Proof.
  cbv zeta. intros [[gone Hi] Hok Hcov _ _] Hcold Hhot Hver Hst Hw. cbn [fst snd] in *.
  pose proof (inv_coherent _ _ _ _ _ Hi) as Hco. pose proof (iv_wf _ _ _ _ _ Hi) as Hwf. pose proof (wf_commits_sorted _ Hwf) as Hs.
  assert (∀ x, x ∈ Hy → ∃ c, c ∈ tx_commit_log (bs_tx (w_real w)) ∧ ct_commit_micros c = commit_micros x ∧ ct_commit_seq_num c = commit_seq_num x) as Hc.
  { intros x Hx. specialize (Hst x Hx). apply history_stamp in Hst. by rewrite (iv_tx _ _ _ _ _ Hi) in Hst. }
  edestruct (arms_spec note_of (ts_meta (bs_table (w_real w))) ledger request segs log (tx_commit_log (bs_tx (w_real w))) Hy uf sf rank)
    as (rows & Hr & Hel & Hso & Hnd); try done.
  - intros x Hx. by destruct (co_range _ _ _ _ _ _ Hco _ _ _ (Hst x Hx)).
  - apply (co_wm _ _ _ _ _ _ Hco).
  - apply (hot_sound _ _ _ _ Hhot).
  - intros x Hx Hlate. apply (hot_complete _ _ _ _ Hhot x Hx). destruct (last_purged_seq _) as [pu|] eqn:Ep; cbn.
    + destruct (co_purge _ _ _ _ _ _ Hco pu Ep) as (z & Hz & Hle). specialize (Hlate z Hz).
      destruct (decide (commit_seq_num x ≤ pu)) as [H|]; [|lia]. specialize (Hle _ _ _ (Hst x Hx) H). lia.
    + destruct (co_range _ _ _ _ _ _ Hco _ _ _ (Hst x Hx)). unfold SNAPSHOT_SEQ_GENESIS. lia.
  - apply (fi_ok _ _ _ _ _ _ (bo_flush _ _ _ Hok)).
  - intros c z Hcl Hz. eapply Hcov; [done|]. unfold persist_wm in Hz. apply zmax_list_Some in Hz as [Hin _].
    apply list_elem_of_fmap in Hin as (h & -> & [_ Hh]%list_elem_of_filter). by apply list_elem_of_fmap_2.
  - exists rows. split; [done|]. split; [by eapply tagged_audit_of|]. intros Hseg. apply Hnd.
    + unfold arm_segments. case_match; [constructor|]. apply cold_log_nodup; [apply (cold_bounds _ _ _ Hcold)|done].
    + apply hot_source_nodup; [done|exact (hot_unique _ _ _ _ Hhot)|done].
Qed.

End exact.

(** C20 An audit is the committed history.  In every state reachable by client
    operations, flushes with any faults, persists that flush first, snapshots and
    purges, an audit whose explicit lower bound precedes the retention floor is
    refused, and any other returns, for upserts and deletes, exactly the committed
    versions of its window and row restriction, each with the author and comment
    of its commit when asked for, in commit order; a version is returned once
    whenever the persist segments hold each version once. *)
Theorem audit_exact {V} `{CV : ColdBatch V, CU : ColdBatch unit, L : SnapshotLayout V} {Note} (note_of : Z → Note) {N : LedgerNaming}
    (E : env V) (value : Z → Z * V → cell) (index_key : Z → Z * V → list cell)
    `{!ColdBatchLaws CV, !ColdBatchLaws CU, !SnapshotLayoutLaws L value index_key}
    (Henv : env_ok E value index_key) (Hn : LedgerNamingLaws N) (w : world V) (ledger : ledger_store Note)
    (Hr : rtc (jstep note_of E) jstart (w, ledger))
    (pk_rank : Z → Z) (now : Z) (duration : option Z) (request : AuditDataRequest) :
  let st := w_real w in let m := ts_meta (bs_table st) in let clog := tx_commit_log (bs_tx st) in
  let floor := retention_floor m now duration in
  (refused floor request → plan_audit m ledger None now duration request = Err FailedPrecondition) ∧
  (¬ refused floor request → ∃ p us ds,
    plan_audit m ledger None now duration request = Ok p ∧
    audit_upserts note_of (lg_files ledger) p (ts_upserts (bs_table st)) clog = Ok us ∧
    audit_deletes note_of pk_rank (lg_files ledger) p (ts_deletes (bs_table st)) clog = Ok ds ∧
    audit_of note_of clog floor request (historyU (w_ideal w)) us ∧
    audit_of note_of clog floor request (historyD (w_ideal w)) ds ∧
    (NoDup (mbind sg_rows (committed sg_commit_micros (tm_upsert_segments m))) → NoDup us) ∧
    (NoDup (mbind sg_rows (committed sg_commit_micros (tm_delete_segments m))) → NoDup ds)).
Proof.
  cbv zeta. pose proof (jinv_reachable note_of E value index_key Henv Hn _ Hr) as Hj. pose proof Hj as [[gone Hi] _ _ _ [HvU HvD]].
  cbn [fst] in *. pose proof (inv_coherent _ _ _ _ _ Hi) as Hco. rewrite plan_unforked. split.
  { intros Hrf. by rewrite (floored_refused _ _ Hrf). }
  intros Hrf. destruct (floored_admitted _ _ Hrf) as (uf & sf & Hfl & Hw). rewrite Hfl. cbn [result_bind].
  destruct (log_audit note_of E value index_key w ledger request _ uf sf (λ r, r) (tm_upsert_segments (ts_meta (bs_table (w_real w))))
    (ts_upserts (bs_table (w_real w))) (historyU (w_ideal w)) Hj (co_cold_upserts _ _ _ _ _ _ Hco) (co_hot_upserts _ _ _ _ _ _ Hco) HvU
    (stamps_upsert _ _) (Hw _ _)) as (us & HU & HaU & HnU).
  destruct (log_audit note_of E value index_key w ledger request _ uf sf pk_rank (tm_delete_segments (ts_meta (bs_table (w_real w))))
    (ts_deletes (bs_table (w_real w))) (historyD (w_ideal w)) Hj (co_cold_deletes _ _ _ _ _ _ Hco) (co_hot_deletes _ _ _ _ _ _ Hco) HvD
    (stamps_delete _ _) (Hw _ _)) as (ds & HD & HaD & HnD).
  unfold arm_cold, arm_hot in *. eexists _, _, _. split; [done|]. unfold audit_upserts, audit_deletes, audit_log. cbn. rewrite HU, HD. cbn.
  by split_and!.
Qed.

(** ** Runs *)

Module AuditDemo.
Import Demo.

#[export] Instance ledger_names : LedgerNaming := {| tx_log_persist_segment_uuid := λ z, z; tx_log_persist_segment_uri := λ z, z |}.

#[export] Instance ledger_names_laws : LedgerNamingLaws ledger_names.
Proof. by split. Qed.

(** The note of a transaction. *)
Definition author (tx : Z) : Z := tx * 10.

Definition joint : Type := world Z * ledger_store Z.

(** An operation at a time; a persist with the faults its flush meets. *)
Definition jrun1 (s : joint) (now : Z) (o : op Z) (faults : nat → fault) : joint :=
  match o with
  | OpPersist target =>
      let r := persist_with_ledger author Demo.the_env (w_real s.1) s.2 now target faults in
      ({| w_real := r.1.1; w_ideal := w_ideal s.1; w_now := now |}, r.1.2)
  | _ => (step_world Demo.the_env s.1 now o, s.2)
  end.

Definition jok1 (s : joint) (now : Z) (o : op Z) : bool :=
  (w_now s.1 <=? now) && (0 <? now) && (now <? I64_MAX) && Demo.scheduledb (w_real s.1) now o.

Fixpoint jrun (s : joint) (ops : list (Z * op Z * (nat → fault))) : joint :=
  match ops with [] => s | (now, o, faults) :: rest => jrun (jrun1 s now o faults) rest end.

Fixpoint jok (s : joint) (ops : list (Z * op Z * (nat → fault))) : bool :=
  match ops with [] => true | (now, o, faults) :: rest => jok1 s now o && jok (jrun1 s now o faults) rest end.

Lemma jrun1_step s now o faults : jok1 s now o = true → jstep author Demo.the_env s (jrun1 s now o faults).
Proof.
  unfold jok1. rewrite !andb_true_iff. intros [[[? ?] ?] Hs]. zbool. apply Demo.scheduledb_ok in Hs. destruct s as [w ledger]. cbn in *.
  assert (tick w now) as Ht by (split; [done|lia]). destruct o; try (by apply JStep; [intros []|..]).
  cbn. destruct (persist_with_ledger _ _ _ _ _ _ _) as [[st ledger'] out] eqn:Ep. by eapply (JPersist author Demo.the_env w ledger now target faults).
Qed.

Lemma jrun_reachable ops : ∀ s, jok s ops = true → rtc (jstep author Demo.the_env) s (jrun s ops).
Proof.
  induction ops as [|[[now o] faults] ops IH]; intros s; [done|]. cbn. rewrite andb_true_iff. intros [H1 H2].
  eapply rtc_l; [by apply jrun1_step|by apply IH].
Qed.

Definition runs : nat → fault := λ _, Runs.

(** The first persist's flush loses its file; the second one goes through; a
    delete and a write stay in the hot tier. *)
Definition audited : joint :=
  jrun jstart
    [(10, OpWrite 101 None (Demo.put 1 100), runs); (20, OpWrite 102 None (Demo.put 2 200), runs);
     (25, OpPersist None, λ n, if (n =? 5)%nat then Refused else Runs); (26, OpPersist None, runs);
     (27, OpSnapshot None, runs); (28, OpPurge, runs);
     (30, OpWrite 103 None (Demo.del 1), runs); (35, OpWrite 104 None (Demo.put 3 300), runs)].

(** Two persists, no snapshot and purge between them. *)
Definition persisted_twice : joint :=
  jrun jstart
    [(10, OpWrite 101 None (Demo.put 1 100), runs); (15, OpPersist None, runs);
     (20, OpWrite 102 None (Demo.put 2 200), runs); (25, OpPersist None, runs)].

Definition everything : AuditDataRequest := {| ar_committed := None; ar_row_uuids := None; ar_include_tx_metadata := true |}.

Definition audit (s : joint) (request : AuditDataRequest) :
    result ApiError (list (audit_row Z Z) * list (audit_row Z unit)) :=
  let ts := bs_table (w_real s.1) in let clog := tx_commit_log (bs_tx (w_real s.1)) in
  let? p := plan_audit (ts_meta ts) s.2 None 100 None request in
  let? us := audit_upserts author (lg_files s.2) p (ts_upserts ts) clog in
  let? ds := audit_deletes author (λ r, r) (lg_files s.2) p (ts_deletes ts) clog in
  Ok (us, ds).

Lemma audit_exact_witness :
  audit audited everything =
    Ok ([(SrcRow 1 100 10 0 0, Some (Some 1010)); (SrcRow 2 200 20 1 1, Some (Some 1020)); (SrcRow 3 300 35 3 3, Some (Some 1040))],
        [(SrcRow 1 tt 30 2 2, Some (Some 1030))]) ∧
  (∃ us ds, audit audited everything = Ok (us, ds) ∧
     audit_of author (tx_commit_log (bs_tx (w_real audited.1))) None everything (historyU (w_ideal audited.1)) us ∧
     audit_of author (tx_commit_log (bs_tx (w_real audited.1))) None everything (historyD (w_ideal audited.1)) ds).
Proof.
  split; [vm_compute; reflexivity|].
  assert (rtc (jstep author Demo.the_env) jstart (audited.1, audited.2)) as Hr
    by (rewrite <- surjective_pairing; apply jrun_reachable; vm_compute; reflexivity).
  destruct (audit_exact author Demo.the_env Demo.value Demo.index_key (ColdBatchLaws0 := Demo.cold_Z_laws) (ColdBatchLaws1 := Demo.cold_unit_laws)
    (SnapshotLayoutLaws0 := Demo.layout_laws) Demo.the_env_ok ledger_names_laws audited.1 audited.2 Hr (λ r, r) 100 None everything) as [_ Hx].
  destruct Hx as (p & us & ds & Hp & HU & HD & HaU & HaD & _); [by intros (fl & f & ? & _)|].
  exists us, ds. split; [|by split]. unfold audit. rewrite Hp. cbn [result_bind]. by rewrite HU, HD.
Defined.

(** An audit can report a version twice: after two persists with no purge
    between them the second persist has copied the first one's rows again, and
    the audit returns both copies. *)
Theorem audit_double_reports :
  ∃ w ledger us ds x n,
    rtc (jstep author Demo.the_env) jstart (w, ledger) ∧
    audit (w, ledger) everything = Ok (us, ds) ∧
    us !! 0%nat = Some (x, n) ∧ us !! 1%nat = Some (x, n) ∧
    length (historyU (w_ideal w)) = 2%nat ∧ length us = 3%nat.
Proof.
  exists persisted_twice.1, persisted_twice.2. eexists _, _, _, _. split_and!.
  - rewrite <- surjective_pairing. apply jrun_reachable. vm_compute. reflexivity.
  - vm_compute. reflexivity.
  - vm_compute. reflexivity.
  - vm_compute. reflexivity.
  - vm_compute. reflexivity.
  - vm_compute. reflexivity.
Qed.

End AuditDemo.
