(* ===== verification/ForkTheorems.v ===== *)
(** * A fork reads its parent's history

    [CreateBranch] and the reads of the branch it creates. *)

From S2P Require Import Prelude CoreTypes Watermarks ReadSnapshot Dialect MergeSql IndexSeek Plan SnapshotScan IndexSelect Effects TxLog TxLedger TxLedgerInv TxLedgerTheorems ForkPoint ForkPointTheorems TableStore Chunker ReadPath Lifecycle ReadLemmas ReadData Tiers ReadCorrect System SystemInv SystemPersist SystemSnapshot SystemTheorems AuditSystem Fork ForkCopy ForkCoherent AuditTheorems.
From stdpp Require Import base numbers list option sets gmap sorting.

Open Scope Z_scope.

Section fork.
Context {V : Type} `{CV : ColdBatch V, CU : ColdBatch unit, L : SnapshotLayout V}.
Context {Note : Type} (note_of : Z → Note) {LN : LedgerNaming} {FN : ForkNaming}.
Context (E : env V) (value : Z → Z * V → cell) (index_key : Z → Z * V → list cell).
Context `{!ColdBatchLaws CV, !ColdBatchLaws CU, !SnapshotLayoutLaws L value index_key}.
Context (Henv : env_ok E value index_key) (Hn : LedgerNamingLaws LN) (HF : ForkNamingLaws FN).

Lemma resolve_named (st : branch_state V) (ledger : ledger_store Note) point c :
  tx_wf (bs_tx st) → named_by point (tx_commit_log (bs_tx st)) c →
  resolve_fork_watermark (tx_commit_log (bs_tx st)) ledger point = Ok (watermark_of c).
Proof.
  intros Hwf (Hc & Hm & Hmax). unfold resolve_fork_watermark, resolve_committed_tx.
  destruct (resolve_committed_tx_from_hot _ _) as [w|] eqn:Eh; [|by destruct (hot_misses _ _ c Eh)].
  apply hot_resolves_named in Eh as (c' & (Hc' & Hm' & Hmax') & ->). cbn. do 2 f_equal.
  apply (commit_lt_inj _ c' c (wf_commits_sorted _ Hwf) Hc' Hc). specialize (Hmax c' Hc' Hm'). specialize (Hmax' c Hc Hm). lia.
Qed.

(** The parent after the flush of a fork at [c]. *)
Record flushed (w : world V) (now : Z) (c : commit_row) (m : table_meta V) : Prop := {
  fl_coherent : ∃ h, coherent value index_key m h (historyU (w_ideal w)) (historyD (w_ideal w));
  fl_linked : meta_linked E m;
  fl_upserts : ∀ g, g ∈ tm_upsert_segments m → is_Some (sg_commit_micros g);
  fl_deletes : ∀ g, g ∈ tm_delete_segments m → is_Some (sg_commit_micros g);
  fl_flushed : ∀ r mi sq, (r, mi, sq) ∈ stamps (historyU (w_ideal w)) (historyD (w_ideal w)) →
    sq ≤ ct_commit_seq_num c → ∃ z, persist_wm m = Some z ∧ mi ≤ z;
  fl_stamped : ∀ r mi sq, (r, mi, sq) ∈ stamps (historyU (w_ideal w)) (historyD (w_ideal w)) → mi ≤ now;
  fl_clock : ∀ p, p ∈ tm_persists m → 0 < ph_persisted_at_micros p < I64_MAX ∧ ph_persisted_at_micros p ≤ now;
}.

Lemma flush_faithful w ledger now c lf faults st ledger' wm :
  rtc (jstep note_of E) jstart (w, ledger) → tick w now → c ∈ tx_commit_log (bs_tx (w_real w)) →
  (compute_candidate_persisted_at_gated (w_real w) now (Some (ct_commit_micros c)) ≠ None →
     scheduled E (w_real w) now (OpPersist (Some (ct_commit_micros c)))) →
  persist_branch note_of E (w_real w) ledger now (watermark_of c) lf faults = (st, ledger', Returns (Some wm)) →
  flushed w now c (ts_meta (bs_table st)).
Proof using Henv Hn ColdBatchLaws0 ColdBatchLaws1 SnapshotLayoutLaws0.
  intros Hr Htick Hc Hsch Hp. destruct (jinv_reachable note_of E value index_key Henv Hn _ Hr) as [[gone0 Hi0] _ _ _ _]. cbn in Hi0.
  pose proof (persist_branch_reachable note_of E w ledger now (watermark_of c) lf faults st ledger' wm Hr Htick Hsch Hp) as (l0 & t & Hr' & Ht & Hpl).
  pose proof (linked_reachable E value index_key Henv note_of Hn _ Hr') as Hml.
  destruct (jinv_reachable note_of E value index_key Henv Hn _ Hr') as [[gone Hi] _ _ Hclk _]. cbn in Hi, Hml, Hclk.
  pose proof (iv_wf _ _ _ _ _ Hi0) as Hwf0. pose proof (wf_commits_range _ Hwf0 c Hc) as [_ HcM].
  assert (∀ r mi sq, (r, mi, sq) ∈ stamps (historyU (w_ideal w)) (historyD (w_ideal w)) →
    ∃ d, d ∈ tx_commit_log (bs_tx (w_real w)) ∧ ct_commit_micros d = mi ∧ ct_commit_seq_num d = sq) as Hst.
  { intros r mi sq Hst. rewrite <- (iv_tx _ _ _ _ _ Hi0). by eapply history_stamp. }
  split.
  - exists (hot_view st). apply (inv_coherent _ _ _ _ _ Hi).
  - done.
  - apply (so_committed _ _ _ (mo_upserts _ _ _ _ _ _ _ (iv_meta _ _ _ _ _ Hi))).
  - apply (so_committed _ _ _ (mo_deletes _ _ _ _ _ _ _ (iv_meta _ _ _ _ _ Hi))).
  - intros r mi sq Hin Hle. eapply (persist_covers_target note_of E value index_key Henv w gone0); [done|exact HcM|exact Hsch|exact Hpl|exact Hin|].
    destruct (Hst r mi sq Hin) as (d & Hd & <- & <-). cbn. pose proof (commit_lt_inj _ c d (wf_commits_sorted _ Hwf0) Hc Hd). lia.
  - intros r mi sq Hin. destruct (Hst r mi sq Hin) as (d & Hd & <- & _). pose proof (proj2 (iv_now _ _ _ _ _ Hi0) d Hd). destruct Htick. lia.
  - intros p Hp'. destruct (Hclk (ph_persisted_at_micros p)) as (d & Hd & <-); [by apply list_elem_of_fmap_2|].
    pose proof (wf_commits_range _ (iv_wf _ _ _ _ _ Hi) d Hd). pose proof (proj2 (iv_now _ _ _ _ _ Hi) d Hd). cbn in *. lia.
Qed.

(** The child of a flushed parent. *)
Lemma create_ok w now c m0 fork_tx fork_now copy :
  flushed w now c m0 → 0 ≤ ct_commit_seq_num c → ct_commit_seq_num c + 1 < I64_MAX → 0 < fork_now < I64_MAX →
  ∃ m child, create_branch_tx m0 (watermark_of c) fork_tx fork_now copy = Ok child ∧
    forked m0 (ct_commit_seq_num c) (ct_commit_micros c) copy m ∧
    child_ok E value index_key (ct_commit_seq_num c) fork_now m (child, fork_now) ∧
    ts_upserts (bs_table child) = [] ∧ ts_deletes (bs_table child) = [].
Proof using Henv HF.
  intros Hfl H0 Hroom Hnow. destruct (materialize_ok HF E _ (fl_linked _ _ _ _ Hfl) (ct_commit_seq_num c) (ct_commit_micros c) copy
    (fl_upserts _ _ _ _ Hfl) (fl_deletes _ _ _ _ Hfl)) as (m & Hm & Hfk); [by intros p Hp; apply (fl_clock _ _ _ _ Hfl)|].
  destruct (fork_tx_ok E value index_key Henv (ct_commit_seq_num c) m fork_tx fork_now) as (l & Hl & Hok); [lia..|].
  exists m. eexists. unfold create_branch_tx. cbn [watermark_of wm_commit_seq_num wm_commit_micros]. rewrite Hl, Hm. done.
Qed.

(** The read of a fork over a flushed parent. *)
Lemma fork_read w now stamp c m0 m t0 st t may_match equality_bindings cfg lineage now' duration (req : ReadDataRequest V) :
  flushed w now c m0 → forked m0 (ct_commit_seq_num c) (ct_commit_micros c) stamp m → 0 ≤ ct_commit_seq_num c < I64_MAX → 0 ≤ now < t0 →
  child_ok E value index_key (ct_commit_seq_num c) t0 m (st, t) →
  ct_commit_micros c ≤ plan_as_of_micros (rd_snapshot req) → (∀ n, plan_commit_seq_upper (rd_snapshot req) = Some n → ct_commit_seq_num c ≤ n) →
  prune_sound may_match → bindings_sound value equality_bindings → self_contained lineage (rd_snapshot req) →
  in_i64 (plan_as_of_micros (rd_snapshot req)) → rd_row_uuids req ≠ Some [] → seek_filtered req →
  let read := read_data value may_match equality_bindings cfg (ts_meta (bs_table st)) (hot_view st) lineage now' duration req in
  if below_floor (ts_meta (bs_table st)) now' duration (rd_snapshot req) then read = Err (ReadApi FailedPrecondition)
  else ∃ rows, read = Ok rows ∧ NoDup (fst <$> rows) ∧
    ∀ x, x ∈ rows ↔ table_at (rd_snapshot req) (up_to (ct_commit_seq_num c) (historyU (w_ideal w)) ++ historyU st)
                      (up_to (ct_commit_seq_num c) (historyD (w_ideal w)) ++ historyD st) (hot_view st) x ∧ requested value req x.
Proof using.
  intros [[h Hco] Hl HcU HcD Hfl Hsta Hclk] Hfk Hc Hnow [Hi Hm _ _ Hcm] HM HFn Hpr Hb Hself Has Hids Hseek. cbn [fst snd] in *. cbv zeta. rewrite Hm.
  pose proof Hi as [_ Hwf _ [_ HuU _ _] [_ HuD _ _] _ _ _ _ _]. cbn in Hwf, HuU, HuD.
  set (f := hot_view st). set (F := ct_commit_seq_num c) in *. set (M := ct_commit_micros c) in *.
  pose proof (whole_coherent E value index_key m0 h _ _ Hco Hl F M stamp now HcU HcD Hfl Hsta Hclk Hc ltac:(lia) m Hfk f HuU HuD (wf_commits_sorted _ Hwf)) as Hwh.
  assert (∀ d, d ∈ commit_tx_log f → F < ct_commit_seq_num d < I64_MAX ∧ now < ct_commit_micros d < I64_MAX) as Hown.
  { intros d Hd. pose proof (Hcm d Hd). pose proof (wf_commits_range _ Hwf d Hd). pose proof (wf_counter _ Hwf). lia. }
  specialize (Hwh Hown).
  pose proof (whole_trims E value index_key m0 h _ _ Hco Hl F M stamp HcU HcD m Hfk (plan_as_of_micros (rd_snapshot req)) (plan_commit_seq_upper (rd_snapshot req)) HM HFn) as Htr.
  pose proof (read_exact value index_key may_match equality_bindings _ f _ _ cfg lineage now' duration req Hwh Hpr Hb Hself Has Hids Hseek) as Hex.
  rewrite (read_trims value may_match equality_bindings cfg m _ f lineage now' duration req Htr) in Hex. exact Hex.
Qed.
End fork.

(** C3 A fork reads its parent's history.  The main branch has taken client
    operations, ledger flushes with faults, persists that flush first, snapshots
    and purges under the schedule of [lifecycle_transparent], and no GC of its
    transaction log.  When the fork point names a commit and the flush up to it,
    its own persist within the schedule, reports success, [CreateBranch] returns
    that commit's watermark and a child; and whatever its clients then begin,
    write, commit and abort on the child, a read of the child not below the fork
    (its index seek filtered, its row ids not the empty list) is refused below the
    retention floor or returns, each once, exactly the rows shown by the parent's
    commits up to the fork followed by the child's own: nothing the parent
    persisted together with the fork but committed after it, and nothing it
    commits later. *)
Theorem fork_reads_parent {V} `{CV : ColdBatch V, CU : ColdBatch unit, L : SnapshotLayout V}
    {Note} (note_of : Z → Note) {LN : LedgerNaming} {FN : ForkNaming}
    (E : env V) (value : Z → Z * V → cell) (index_key : Z → Z * V → list cell)
    (HCV : ColdBatchLaws CV) (HCU : ColdBatchLaws CU) (HL : SnapshotLayoutLaws L value index_key)
    (Henv : env_ok E value index_key) (Hn : LedgerNamingLaws LN) (HF : ForkNamingLaws FN)
    (w : world V) (ledger : ledger_store Note) (Hr : rtc (jstep note_of E) jstart (w, ledger))
    (now main : Z) (Htick : tick w now) (point : option ForkPoint) (c : commit_row)
    (Hc : named_by point (tx_commit_log (bs_tx (w_real w))) c)
    (Hsch : compute_candidate_persisted_at_gated (w_real w) now (Some (ct_commit_micros c)) ≠ None →
            scheduled E (w_real w) now (OpPersist (Some (ct_commit_micros c))))
    (ledger_faults faults : nat → fault) (parent : branch_state V) (ledger' : ledger_store Note) (wm : Watermark)
    (fork_tx fork_now copy_commit_micros : Z) (Hroom : ct_commit_seq_num c + 1 < I64_MAX) (Hfork : now < fork_now < I64_MAX)
    (Hflush : persist_branch note_of E (w_real w) ledger now (watermark_of c) ledger_faults faults
              = (parent, ledger', Returns (Some wm))) :
  ∃ child, create_branch note_of E main main (w_real w) ledger now point ledger_faults faults
             fork_tx fork_now copy_commit_micros = (parent, ledger', Returns (watermark_of c, child)) ∧
    ∀ st t, rtc (child_step E) (child, fork_now) (st, t) →
    ∀ may_match equality_bindings cfg parent_meta now' duration (req : ReadDataRequest V),
      let s := rd_snapshot req in
      let lineage := {| parent_branch_uuid := main; fork_commit_seq_num := ct_commit_seq_num c; fork_commit_micros := ct_commit_micros c |} in
      let read := read_data value may_match equality_bindings cfg (ts_meta (bs_table st)) (hot_view st)
                    (Some (lineage, parent_meta)) now' duration req in
      prune_sound may_match → bindings_sound value equality_bindings →
      read_is_below_fork (plan_as_of_micros s) (plan_commit_seq_upper s) lineage = false →
      in_i64 (plan_as_of_micros s) → rd_row_uuids req ≠ Some [] → seek_filtered req →
      if below_floor (ts_meta (bs_table st)) now' duration s then read = Err (ReadApi FailedPrecondition)
      else ∃ rows, read = Ok rows ∧ NoDup (fst <$> rows) ∧
        ∀ x, x ∈ rows ↔
          table_at s (up_to (ct_commit_seq_num c) (historyU (w_ideal w)) ++ historyU st)
            (up_to (ct_commit_seq_num c) (historyD (w_ideal w)) ++ historyD st) (hot_view st) x ∧ requested value req x.
Proof.
  pose proof (flush_faithful note_of E value index_key Henv Hn w ledger now c _ _ _ _ _ Hr Htick (proj1 Hc) Hsch Hflush) as Hfl.
  destruct (jinv_reachable note_of E value index_key Henv Hn _ Hr) as [[gone Hi] _ _ _ _]. cbn [fst] in Hi.
  pose proof (iv_wf _ _ _ _ _ Hi) as Hwf. pose proof (wf_commits_range _ Hwf c (proj1 Hc)) as [Hseq _]. pose proof (wf_counter _ Hwf) as Hcnt.
  destruct Htick as [_ ?].
  destruct (create_ok E value index_key Henv HF w now c _ fork_tx fork_now copy_commit_micros Hfl) as (m & child & Hch & Hfk & Hok & _); [lia..|].
  exists child. split.
  - unfold create_branch, ensure_fork_source_is_main. rewrite Z.eqb_refl, (resolve_named _ ledger point c Hwf Hc), Hflush. by rewrite Hch.
  - intros st t Hsteps may_match bindings cfg pm now' duration req s lineage read Hpr Hb Hbelow Has Hids Hseek.
    pose proof Hbelow as [Hbl Hbs]%orb_false_elim. cbn in Hbl, Hbs. zbool.
    eapply (fork_read E value index_key w now copy_commit_micros c _ m fork_now st t); [exact Hfl|exact Hfk|lia|lia| |done| |done|done|exact Hbelow|done..].
    + by eapply (child_steps_ok E value index_key Henv).
    + intros n Hn'. fold s in Hn'. rewrite Hn' in Hbs. by zbool.
Qed.

(** ** Two forks of one branch *)
Module ForkDemo.
Import Demo AuditDemo.

#[export] Instance fork_names : ForkNaming :=
  {| child_persist_uuid := λ t k, Demo.pair_uuid t (Demo.kind_code k); child_persist_segment_uuid := Demo.pair_uuid;
     child_snapshot_uuid := λ t, t; child_snapshot_segment_uuid := Demo.pair_uuid |}.

Lemma fork_names_laws : ForkNamingLaws fork_names.
Proof.
  split; cbn.
  - intros t k t' k' [? Hk]%Demo.pair_uuid_inj. by destruct k, k'.
  - intros p i p' i'. apply Demo.pair_uuid_inj.
Qed.

(** The writes of row 3 (commit 3) and of row 5 (commit 4) sit in one segment. *)
Definition parent : joint := jrun audited [(36, OpWrite 105 None (Demo.put 5 500), runs); (38, OpPersist None, runs)].

Definition fork (s : joint) (point : option ForkPoint) := create_branch author Demo.the_env 7 7 (w_real s.1) s.2 40 point runs runs 200 41 42.

Fixpoint child_run (st : branch_state Z) (ops : list (Z * op Z)) : branch_state Z :=
  match ops with [] => st | (now, o) :: rest => child_run (client Demo.the_env st now o) rest end.

Definition child_ops : list (Z * op Z) := [(50, OpWrite 201 None (Demo.put 2 222)); (55, OpWrite 202 None (Demo.put 4 400))].

(** The child of a fork after its own two commits. *)
Definition grown_child (s : joint) (point : option ForkPoint) : option (Watermark * branch_state Z) :=
  match (fork s point).2 with
  | Returns (wm, child) => Some (wm, child_run child child_ops)
  | _ => None
  end.

Fixpoint child_okb (st : branch_state Z) (t : Z) (ops : list (Z * op Z)) : bool :=
  match ops with
  | [] => true
  | (now, o) :: rest =>
      match o with OpPersist _ | OpSnapshot _ | OpPurge => false | _ => true end &&
      (t <=? now) && (0 <? now) && (now <? I64_MAX) && Demo.scheduledb st now o && child_okb (client Demo.the_env st now o) now rest
  end.

Lemma child_run_steps ops : ∀ st t, child_okb st t ops = true → ∃ t', rtc (child_step Demo.the_env) (st, t) (child_run st ops, t').
Proof.
  induction ops as [|[now o] ops IH]; intros st t; cbn; [intros _; exists t; apply rtc_refl|]. rewrite !andb_true_iff.
  intros [[[[[Ho H1] H2] H3] Hs%Demo.scheduledb_ok] Hr]. zbool. destruct (IH _ _ Hr) as [t' Ht']. exists t'. eapply rtc_l; [|exact Ht'].
  apply ChildStep; [by destruct o|done|done|done].
Qed.

Definition read_child (st : branch_state Z) (s : ReadSnapshot) (fork : Watermark) : result ReadError (list (Z * Z)) :=
  read_data Demo.value (λ _ _, true) (λ _, ∅) Demo.cfg (ts_meta (bs_table st)) (hot_view st)
    (Some ({| parent_branch_uuid := 7; fork_commit_seq_num := wm_commit_seq_num fork; fork_commit_micros := wm_commit_micros fork |},
           ts_meta (bs_table (w_real audited.1)))) 100 None (Demo.req s).

(** Forked at commit 3, the child shares the segment with row 5 and does not show
    it; forked at the head, whose flush persists first, it shows the same rows. *)
Lemma fork_reads_parent_witness :
  let clamped := grown_child parent (Some (CommitSeqNum 3)) in
  let head := grown_child audited None in
  (λ p, row_uuid <$> mbind sg_rows (tm_upsert_segments (ts_meta (bs_table p.2)))) <$> clamped = Some [3; 5] ∧
  (λ p, read_child p.2 (LatestSeq 6) p.1) <$> clamped = Some (Ok [(2, 222); (4, 400); (3, 300)]) ∧
  tm_upsert_segments (ts_meta (bs_table (w_real audited.1))) ≠ tm_upsert_segments (ts_meta (bs_table (fork audited None).1.1)) ∧
  ∀ s point, s = parent ∧ point = Some (CommitSeqNum 3) ∨ s = audited ∧ point = None →
    ∃ wm st rows, grown_child s point = Some (wm, st) ∧ read_child st (LatestSeq 6) wm = Ok rows ∧ NoDup (fst <$> rows) ∧
      ∀ x, x ∈ rows ↔ table_at (LatestSeq 6) (up_to 3 (historyU (w_ideal s.1)) ++ historyU st)
                        (up_to 3 (historyD (w_ideal s.1)) ++ historyD st) (hot_view st) x ∧ requested Demo.value (Demo.req (LatestSeq 6)) x.
Proof.
  cbv zeta. split; [vm_compute; reflexivity|]. split; [vm_compute; reflexivity|]. split; [vm_compute; discriminate|].
  intros s point Hs.
  assert (rtc (jstep author Demo.the_env) jstart (s.1, s.2)) as Hr.
  { rewrite <- surjective_pairing. destruct Hs as [[-> _]|[-> _]].
    - etrans; apply jrun_reachable; vm_compute; reflexivity.
    - apply jrun_reachable; vm_compute; reflexivity. }
  set (c := CommitRow 104 35 3).
  assert (∃ p l wm, persist_branch author Demo.the_env (w_real s.1) s.2 40 (watermark_of c) runs runs = (p, l, Returns (Some wm))) as (p & l & wm & Hfl).
  { destruct Hs as [[-> _]|[-> _]]; eexists _, _, _; vm_compute; reflexivity. }
  assert (tick s.1 40) as Ht by (destruct Hs as [[-> _]|[-> _]]; vm_compute; intuition congruence).
  assert (named_by point (tx_commit_log (bs_tx (w_real s.1))) c) as Hc.
  { destruct Hs as [[-> ->]|[-> ->]]; split_and!.
    - apply list_elem_of_lookup_2 with 3%nat. vm_compute. reflexivity.
    - done.
    - intros c' _. cbn. intros. zbool. lia.
    - apply list_elem_of_lookup_2 with 3%nat. vm_compute. reflexivity.
    - done.
    - intros c' Hin _. revert c' Hin. apply Forall_forall. vm_compute. repeat constructor; congruence. }
  destruct (fork_reads_parent author Demo.the_env Demo.value Demo.index_key Demo.cold_Z_laws Demo.cold_unit_laws Demo.layout_laws Demo.the_env_ok
    ledger_names_laws fork_names_laws s.1 s.2 Hr 40 7 Ht point c Hc ltac:(intros _; apply Demo.scheduledb_ok; destruct Hs as [[-> _]|[-> _]]; vm_compute; reflexivity)
    runs runs p l wm 200 41 42 ltac:(done) ltac:(done) Hfl) as (child & Hcb & Hread).
  assert (grown_child s point = Some (watermark_of c, child_run child child_ops)) as Hg by (unfold grown_child, fork; by rewrite Hcb).
  exists (watermark_of c), (child_run child child_ops).
  assert (child_okb child 41 child_ops = true) as [t' Hsteps]%child_run_steps.
  { assert ((fork s point).2 = Returns (watermark_of c, child)) as Hch by (unfold fork; by rewrite Hcb). clear -Hs Hch.
    destruct Hs as [[-> ->]|[-> ->]]; vm_compute in Hch; injection Hch as <-; vm_compute; reflexivity. }
  pose proof (Hread _ t' Hsteps (λ _ _, true) (λ _, ∅) Demo.cfg (ts_meta (bs_table (w_real audited.1))) 100 None (Demo.req (LatestSeq 6))
    ltac:(by intros q g x) ltac:(intros f x _ k vs; by rewrite lookup_empty) eq_refl ltac:(vm_compute; intuition congruence) ltac:(done) ltac:(by intros k)) as Hx.
  destruct Hx as (rows & H1 & H2 & H3). exists rows. done.
Defined.
End ForkDemo.
