(* ===== verification/BranchMerge.v ===== *)
(** * Merging a branch (penca-api/src/write/mod.rs, penca-storage-hot/src/merge.rs)

    [MergeBranch] accepts a target without commits past the source's fork point,
    opens one transaction on it, resolves the source's committed hot logs by
    [(commit_micros, write_seq_num)] and writes every surviving row into the
    target's upsert log and every winning tombstone into its delete log.  The
    primary-key columns of a tombstone, which the insert leaves out, and the
    copy of tables other than the modelled one are outside the model. *)

From S2P Require Import Prelude CoreTypes Watermarks ReadSnapshot Dialect MergeSql IndexSeek Plan SnapshotScan IndexSelect Effects TxLog TxLedger TxLedgerInv TxLedgerTheorems TableStore Chunker ReadPath Lifecycle ReadLemmas ReadData Tiers ReadCorrect System SystemInv SystemPersist SystemSnapshot SystemTheorems AuditSystem.
From stdpp Require Import base numbers list option sets gmap sorting.

Open Scope Z_scope.
Open Scope result_scope.

(** [SELECT 1 FROM commit_tx_log WHERE commit_seq_num > fork LIMIT 1] *)
Definition ensure_fast_forward (target_commit_tx_log : list commit_row) (source_fork_commit_seq_num : Z) : result ApiError unit :=
  match head (filter (λ c, source_fork_commit_seq_num < ct_commit_seq_num c) target_commit_tx_log) with
  | Some _ => Err InvalidRequest
  | None => Ok tt
  end.

Section merge.
Context {V : Type}.

(** [gen_random_uuid()], one draw after another. *)
Context (gen_random_uuid : nat → Z).

(** Whether a committed transaction of the source wrote to the table. *)
Definition enumerate_touched (source : branch_state V) : bool :=
  match head (filter (λ c, ct_tx_uuid c ∈ ts_tx_table_log (bs_table source)) (tx_commit_log (bs_tx source))) with
  | Some _ => true
  | None => false
  end.

(** The shared CTEs: latest wins on the commit clock, not on the serial. *)
Definition source_resolution (source : branch_state V) : CompositeMergeResolution V :=
  let source_committed_tx := tx_commit_log (bs_tx source) in
  build_composite_merge_resolution (hot_source None (ts_upserts (bs_table source)) source_committed_tx)
    (hot_source None (ts_deletes (bs_table source)) source_committed_tx) OrderCommitMicros.

Definition final_alive (c : CompositeMergeResolution V) : list (Z * V) :=
  (λ p : src_row V * option (src_row unit), (row_uuid p.1, cols p.1)) <$>
  filter (λ p, upsert_visible_predicate c p.1 p.2 = true) (left_join (latest_cte c) (deletes_cte c)).

Definition final_dead (c : CompositeMergeResolution V) : list (Z * unit) :=
  (λ p : src_row unit * option (src_row V), (row_uuid p.1, tt)) <$>
  filter (λ p, delete_visible_predicate c p.1 p.2 = true) (left_join (deletes_cte c) (latest_cte c)).

(** [INSERT ... SELECT gen_random_uuid(), row_uuid, $merge_tx, ...]: a row draws
    a version and [nextval]; the version is the primary key. *)
Fixpoint insert_select {A} (tx : Z) (rows : list (Z * A)) (log : list (log_row A)) (seq : Z) (draw : nat) :
    result ApiError (list (log_row A) * Z * nat) :=
  match rows with
  | [] => Ok (log, seq, draw)
  | (r, v) :: rest =>
      if decide (gen_random_uuid draw ∈ lr_version_uuid <$> log) then Err DbUniqueViolation
      else insert_select tx rest (log ++ [LogRow (gen_random_uuid draw) r tx seq v]) (seq + 1) (S draw)
  end.

(** Alive rows into the upsert log, then tombstones into the delete log. *)
Definition merge_table_data (source : branch_state V) (target : table_store V) (merge_tx : Z) : result ApiError (table_store V) :=
  let c := source_resolution source in
  let? '(upserts, seq, draw) := insert_select merge_tx (final_alive c) (ts_upserts target) (ts_write_sequence target) 0 in
  let? '(deletes, seq', _) := insert_select merge_tx (final_dead c) (ts_deletes target) seq draw in
  Ok {| ts_upserts := upserts; ts_deletes := deletes; ts_write_sequence := seq';
        ts_tx_table_log := ts_tx_table_log target; ts_meta := ts_meta target |}.

(** Guard, merge transaction, the table if the source wrote to it, membership
    row; the answer is the commit clock. *)
Definition merge_branch (source target : branch_state V) (source_fork_commit_seq_num now merge_tx : Z) :
    result ApiError (branch_state V * Z) :=
  let? _ := ensure_fast_forward (tx_commit_log (bs_tx target)) source_fork_commit_seq_num in
  let? '(l, committed) := auto_commit_tx (bs_tx target) now merge_tx in
  if enumerate_touched source then
    let? ts := merge_table_data source (bs_table target) merge_tx in
    Ok ({| bs_tx := l;
           bs_table := {| ts_upserts := ts_upserts ts; ts_deletes := ts_deletes ts; ts_write_sequence := ts_write_sequence ts;
                          ts_tx_table_log := {[merge_tx]} ∪ ts_tx_table_log ts; ts_meta := ts_meta ts |} |},
        ct_commit_micros committed)
  else Ok ({| bs_tx := l; bs_table := bs_table target |}, ct_commit_micros committed).
End merge.

(** ** What the merge writes *)

Section survivors.
Context {V : Type} (source : branch_state V).
Notation U := (hot_source None (ts_upserts (bs_table source)) (tx_commit_log (bs_tx source))).
Notation D := (hot_source None (ts_deletes (bs_table source)) (tx_commit_log (bs_tx source))).
Notation c := (source_resolution source).

Lemma two_arm_split : two_arm_resolve_select c =
  ((λ p, ResolvedRow (row_uuid p.1) (Some (cols p.1)) (commit_micros p.1) false) <$>
     filter (λ p, upsert_visible_predicate c p.1 p.2 = true) (left_join (latest_cte c) (deletes_cte c))) ++
  ((λ p, ResolvedRow (row_uuid p.1) (cols <$> p.2) (commit_micros p.1) true) <$>
     filter (λ p, delete_visible_predicate c p.1 p.2 = true) (left_join (deletes_cte c) (latest_cte c))).
Proof. done. Qed.

Lemma survivors_nodup : NoDup ((fst <$> final_alive c) ++ (fst <$> final_dead c)).
Proof.
  pose proof (ro_nodup _ _ _ _ (two_arm_ok OrderCommitMicros U D)) as Hnd. change (build_composite_merge_resolution U D OrderCommitMicros) with c in Hnd.
  rewrite two_arm_split, fmap_app, <- !list_fmap_compose in Hnd. unfold final_alive, final_dead. by rewrite <- !list_fmap_compose.
Qed.

Lemma alive_live r v : (r, v) ∈ final_alive c → ∃ u, live_version OrderCommitMicros U D u ∧ row_uuid u = r ∧ cols u = v.
Proof.
  intros ([l d] & [= -> ->] & [Hv Hin]%list_elem_of_filter)%list_elem_of_fmap. exists l. split; [|done]. by eapply upsert_arm_live.
Qed.

Lemma dead_dead r : r ∈ fst <$> final_dead c → ∃ d, dead_version OrderCommitMicros U D d ∧ row_uuid d = r.
Proof.
  intros (p & -> & ([d l] & -> & [Hv Hin]%list_elem_of_filter)%list_elem_of_fmap)%list_elem_of_fmap. exists d. split; [|done]. by eapply delete_arm_dead.
Qed.

Lemma touched_survives r : touched U D r → r ∈ fst <$> final_alive c ∨ r ∈ fst <$> final_dead c.
Proof.
  intros Ht. pose proof (ro_complete _ _ _ _ (two_arm_ok OrderCommitMicros U D) r Ht) as Hin. change (build_composite_merge_resolution U D OrderCommitMicros) with c in Hin.
  rewrite two_arm_split, fmap_app, elem_of_app, <- !list_fmap_compose in Hin. unfold final_alive, final_dead. by rewrite <- !list_fmap_compose.
Qed.
End survivors.

(** ** What a merge leaves on the target

    The rows a merge writes stand for the source's own history: over the parent's
    history they show exactly the rows the source shows. *)

(** ** The clock and the serial order versions alike *)

Section orders.
Context {V : Type} (U : list (src_row V)) (D : list (src_row unit)).
Context (Hmono : ∀ r1 m1 s1 r2 m2 s2, (r1, m1, s1) ∈ stamps U D → (r2, m2, s2) ∈ stamps U D → s1 < s2 ↔ m1 < m2).

Lemma kle_orders {A B} (x : src_row A) (y : src_row B) : stamp x ∈ stamps U D → stamp y ∈ stamps U D →
  kle OrderCommitMicros x y ↔ kle OrderCommitSeqNum x y.
Proof using Hmono.
  unfold stamp. intros Hx Hy. pose proof (Hmono _ _ _ _ _ _ Hx Hy). pose proof (Hmono _ _ _ _ _ _ Hy Hx). unfold kle. cbn. lia.
Qed.

Lemma klt_orders {A B} (x : src_row A) (y : src_row B) : stamp x ∈ stamps U D → stamp y ∈ stamps U D →
  klt OrderCommitMicros x y ↔ klt OrderCommitSeqNum x y.
Proof using Hmono.
  unfold stamp. intros Hx Hy. pose proof (Hmono _ _ _ _ _ _ Hx Hy). pose proof (Hmono _ _ _ _ _ _ Hy Hx). unfold klt. cbn. lia.
Qed.

Lemma live_orders u : live_version OrderCommitMicros U D u → live U D u.
Proof using Hmono.
  intros (Hu & H1 & H2). pose proof (stamps_upsert U D u Hu). split_and!; [done|..]; intros x Hx Hr.
  - apply kle_orders; [by apply stamps_upsert|done|by apply H1].
  - apply kle_orders; [by apply stamps_delete|done|by apply H2].
Qed.

Lemma dead_orders d : dead_version OrderCommitMicros U D d → dead U D d.
Proof using Hmono.
  intros (Hd & H1 & H2). pose proof (stamps_delete U D d Hd). split_and!; [done|..]; intros x Hx Hr.
  - apply kle_orders; [by apply stamps_delete|done|by apply H1].
  - apply klt_orders; [by apply stamps_upsert|done|by apply H2].
Qed.
End orders.

(** ** The rows a merge inserts *)

Section inserted.
Context {A : Type} (gen : nat → Z) (Hgen : ∀ i j, gen i = gen j → i = j).

(** The inserted rows, one per selected row. *)
Definition inserted (tx : Z) (rows : list (Z * A)) (seq : Z) (draw : nat) : list (log_row A) :=
  imap (λ i p, LogRow (gen (draw + i)) p.1 tx (seq + Z.of_nat i) p.2) rows.

Lemma inserted_cons tx r v rows seq draw :
  inserted tx ((r, v) :: rows) seq draw = LogRow (gen draw) r tx seq v :: inserted tx rows (seq + 1) (S draw).
Proof using.
  unfold inserted. rewrite imap_cons. f_equal; [f_equal; [by rewrite Nat.add_0_r|cbn; lia]|].
  apply imap_ext. intros i x _. cbn. f_equal; [f_equal; lia|lia].
Qed.

Lemma inserted_elem tx rows seq draw u : u ∈ inserted tx rows seq draw → lr_tx_uuid u = tx ∧ (lr_row_uuid u, lr_cols u) ∈ rows.
Proof using. intros (i & [r v] & -> & Hi)%elem_of_lookup_imap. split; [done|]. by eapply list_elem_of_lookup_2. Qed.

Lemma inserted_in tx rows seq draw r v : (r, v) ∈ rows → ∃ u, u ∈ inserted tx rows seq draw ∧ lr_row_uuid u = r ∧ lr_cols u = v.
Proof using.
  intros (i & Hi)%list_elem_of_lookup. exists (LogRow (gen (draw + i)) r tx (seq + Z.of_nat i) v). split; [|done].
  apply elem_of_lookup_imap. by exists i, (r, v).
Qed.

Lemma inserted_unique tx rows seq draw u u' : NoDup (fst <$> rows) →
  u ∈ inserted tx rows seq draw → u' ∈ inserted tx rows seq draw → lr_row_uuid u = lr_row_uuid u' → u = u'.
Proof using.
  intros Hnd (i & [r v] & -> & Hi)%elem_of_lookup_imap (j & [r' v'] & -> & Hj)%elem_of_lookup_imap. cbn. intros <-.
  assert (i = j) as <-. { eapply NoDup_lookup; [exact Hnd|by rewrite list_lookup_fmap, Hi|by rewrite list_lookup_fmap, Hj]. }
  rewrite Hi in Hj. by injection Hj as <-.
Qed.

Lemma insert_select_ok tx rows : ∀ log seq draw, (∀ i, (draw ≤ i)%nat → gen i ∉ lr_version_uuid <$> log) →
  insert_select gen tx rows log seq draw = Ok (log ++ inserted tx rows seq draw, seq + Z.of_nat (length rows), (draw + length rows)%nat).
Proof using Hgen.
  induction rows as [|[r v] rows IH]; intros log seq draw Hfr; cbn [insert_select].
  - cbn. rewrite app_nil_r. do 2 f_equal; [f_equal; lia|lia].
  - rewrite decide_False by (by apply Hfr). rewrite IH.
    + rewrite inserted_cons, <- app_assoc. cbn [length app]. do 2 f_equal; [f_equal; lia|lia].
    + intros i Hi. rewrite fmap_app, not_elem_of_app. split; [apply Hfr; lia|]. cbn. rewrite list_elem_of_singleton. intros ->%Hgen. lia.
Qed.
End inserted.

(** ** One layer over another *)

Section layers.
Context {V : Type}.

(** Versions all later than those below them decide the rows they touch. *)
Lemma layer_live (PU TU : list (src_row V)) (PD TD : list (src_row unit)) u :
  (∀ r1 m1 s1 r2 m2 s2, (r1, m1, s1) ∈ stamps PU PD → (r2, m2, s2) ∈ stamps TU TD → s1 < s2) →
  live (PU ++ TU) (PD ++ TD) u ↔ live TU TD u ∨ (¬ touched TU TD (row_uuid u) ∧ live PU PD u).
Proof using.
  intros Hsep.
  assert (∀ A B (x : src_row A) (y : src_row B), stamp x ∈ stamps PU PD → stamp y ∈ stamps TU TD → klt OrderCommitSeqNum x y) as Hlt.
  { intros A B x y Hx Hy. apply seq_lt_klt. by eapply Hsep. }
  split.
  - intros (Hu & H1 & H2). setoid_rewrite elem_of_app in H1. setoid_rewrite elem_of_app in H2. apply elem_of_app in Hu as [Hu|Hu].
    + right. split; [|split_and!; eauto]. intros [(x & Hx & Hr)|(x & Hx & Hr)].
      * apply (not_klt_kle OrderCommitSeqNum u x); [by apply H1; [right|]|by apply Hlt; [apply stamps_upsert|apply stamps_upsert]].
      * apply (not_klt_kle OrderCommitSeqNum u x); [by apply H2; [right|]|by apply Hlt; [apply stamps_upsert|apply stamps_delete]].
    + left. split_and!; eauto.
  - intros [(Hu & H1 & H2)|(Hn & Hu & H1 & H2)]; (split; [apply elem_of_app; auto|]); (split; intros x [Hx|Hx]%elem_of_app Hr; auto).
    + by apply klt_kle, Hlt; [apply stamps_upsert|apply stamps_upsert].
    + by apply klt_kle, Hlt; [apply stamps_delete|apply stamps_upsert].
    + destruct Hn. left. eauto.
    + destruct Hn. right. eauto.
Qed.

(** Two layers that touch the same rows and show the same of them are
    interchangeable. *)
Lemma layer_swap (PU TU TU' : list (src_row V)) (PD TD TD' : list (src_row unit)) r v :
  (∀ r1 m1 s1 r2 m2 s2, (r1, m1, s1) ∈ stamps PU PD → (r2, m2, s2) ∈ stamps TU TD → s1 < s2) →
  (∀ r1 m1 s1 r2 m2 s2, (r1, m1, s1) ∈ stamps PU PD → (r2, m2, s2) ∈ stamps TU' TD' → s1 < s2) →
  (∀ r, touched TU TD r ↔ touched TU' TD' r) →
  ((∃ u, live TU TD u ∧ row_uuid u = r ∧ cols u = v) ↔ (∃ u, live TU' TD' u ∧ row_uuid u = r ∧ cols u = v)) →
  (∃ u, live (PU ++ TU) (PD ++ TD) u ∧ row_uuid u = r ∧ cols u = v) ↔
  (∃ u, live (PU ++ TU') (PD ++ TD') u ∧ row_uuid u = r ∧ cols u = v).
Proof using.
  intros Hs Hs' Ht Hl. setoid_rewrite (layer_live PU TU PD TD _ Hs). setoid_rewrite (layer_live PU TU' PD TD' _ Hs'). split.
  - intros (u & [Hu|[Hn Hu]] & <- & <-).
    + destruct (proj1 Hl) as (u' & ? & ? & ?); [by exists u|]. exists u'. auto.
    + exists u. rewrite Ht in Hn. auto.
  - intros (u & [Hu|[Hn Hu]] & <- & <-).
    + destruct (proj2 Hl) as (u' & ? & ? & ?); [by exists u|]. exists u'. auto.
    + exists u. rewrite <- Ht in Hn. auto.
Qed.
End layers.

(** ** The merged layer *)

Section merged.
Context {V : Type} (gen : nat → Z) (source : branch_state V).
Context (Hwf : tx_wf (bs_tx source)) (HuU : log_unique (ts_upserts (bs_table source))).
Context (c : commit_row) (seq seq' : Z) (draw draw' : nat).

Notation alive := (final_alive (source_resolution source)).
Notation tombs := (final_dead (source_resolution source)).
Notation newU := (inserted gen (ct_tx_uuid c) alive seq draw).
Notation newD := (inserted gen (ct_tx_uuid c) tombs seq' draw').

Definition mergedU : list (src_row V) := hot_source None newU [c].
Definition mergedD : list (src_row unit) := hot_source None newD [c].

Lemma merged_elem {A} (rows : list (Z * A)) s d x :
  x ∈ hot_source None (inserted gen (ct_tx_uuid c) rows s d) [c] ↔ ∃ u, u ∈ inserted gen (ct_tx_uuid c) rows s d ∧ x = stamped u c.
Proof using.
  rewrite source_elem. split.
  - intros (u & c' & Hu & ->%list_elem_of_singleton & _ & ->). eauto.
  - intros (u & Hu & ->). exists u, c. split_and!; [done|by left|by destruct (inserted_elem _ _ _ _ _ _ Hu) as [-> _]|done].
Qed.

Lemma source_mono r1 m1 s1 r2 m2 s2 : (r1, m1, s1) ∈ stamps (historyU source) (historyD source) →
  (r2, m2, s2) ∈ stamps (historyU source) (historyD source) → s1 < s2 ↔ m1 < m2.
Proof using Hwf. intros H1 H2. exact (stamps_mono source r1 m1 s1 r2 m2 s2 Hwf H1 H2). Qed.

Lemma alive_iff r v : (r, v) ∈ alive ↔ ∃ u, live (historyU source) (historyD source) u ∧ row_uuid u = r ∧ cols u = v.
Proof using Hwf HuU.
  split.
  - intros (u & Hu & <- & <-)%alive_live. exists u. split; [|done]. by apply (live_orders _ _ source_mono).
  - intros (u & Hu & <- & <-). destruct (touched_survives source (row_uuid u)) as [Hr|Hr].
    + by apply (live_touched OrderCommitSeqNum).
    + apply list_elem_of_fmap in Hr as ([r v] & Hr & Hin). cbn in Hr. subst r. pose proof Hin as (u' & Hu' & Hr & <-)%alive_live.
      apply (live_orders _ _ source_mono) in Hu'. destruct Hu as (H1 & H2 & _), Hu' as (H1' & H2' & _).
      assert (u = u') as <-; [|done]. by apply (keys_history source Hwf HuU u u' H1 H1'); [|apply H2'|apply H2].
    + apply dead_dead in Hr as (d & Hd & Hr). apply (dead_orders _ _ source_mono) in Hd. by destruct (live_dead_disjoint _ _ _ _ _ Hu Hd).
Qed.

Lemma tombs_touched r : r ∈ fst <$> tombs → touched (historyU source) (historyD source) r.
Proof using. intros (d & [Hd _] & Hr)%dead_dead. right. eauto. Qed.

Lemma merged_touched r : touched mergedU mergedD r ↔ touched (historyU source) (historyD source) r.
Proof using Hwf HuU.
  split.
  - intros [(x & (u & Hu & ->)%merged_elem & <-)|(x & (u & Hu & ->)%merged_elem & <-)]; apply inserted_elem in Hu as [_ Hu]; cbn.
    + apply alive_iff in Hu as (u' & [Hu' _] & <- & _). left. eauto.
    + by apply tombs_touched, (list_elem_of_fmap_2 fst _ _ Hu).
  - intros [Hr|Hr]%touched_survives; apply list_elem_of_fmap in Hr as ([r' v] & -> & Hr).
    + destruct (inserted_in gen (ct_tx_uuid c) _ seq draw _ _ Hr) as (u & Hu & <- & _). left. exists (stamped u c). split; [apply merged_elem; eauto|done].
    + destruct (inserted_in gen (ct_tx_uuid c) _ seq' draw' _ _ Hr) as (u & Hu & <- & _). right. exists (stamped u c). split; [apply merged_elem; eauto|done].
Qed.

Lemma merged_live r v : (∃ u, live mergedU mergedD u ∧ row_uuid u = r ∧ cols u = v) ↔
  ∃ u, live (historyU source) (historyD source) u ∧ row_uuid u = r ∧ cols u = v.
Proof using Hwf HuU.
  pose proof (survivors_nodup source) as (HndU & Hdis & _)%NoDup_app. rewrite <- alive_iff. split.
  - intros (x & [(u & Hu & ->)%merged_elem _] & <- & <-). by apply inserted_elem in Hu as [_ Hu].
  - intros Hin. destruct (inserted_in gen (ct_tx_uuid c) _ seq draw _ _ Hin) as (u & Hu & <- & <-). exists (stamped u c). split; [|done].
    split_and!; [apply merged_elem; eauto|..].
    + intros x (u' & Hu' & ->)%merged_elem Hr. cbn in Hr. rewrite (inserted_unique _ _ _ _ _ u' u HndU Hu' Hu Hr). right. split; [done|lia].
    + intros x (d & Hd & ->)%merged_elem Hr. cbn in Hr. exfalso. apply inserted_elem in Hd as [_ Hd].
      apply (Hdis (lr_row_uuid u)); [by apply (list_elem_of_fmap_2 fst _ _ Hin)|]. rewrite <- Hr. by apply (list_elem_of_fmap_2 fst _ _ Hd).
Qed.
End merged.
