(* ===== verification/BranchMergeTheorems.v ===== *)
(** * A merge hands the source's rows to the target *)

From S2P Require Import Prelude CoreTypes Watermarks ReadSnapshot Dialect MergeSql IndexSeek Plan SnapshotScan IndexSelect Effects TxLog TxLedger TxLedgerInv TxLedgerTheorems ForkPoint ForkPointTheorems TableStore Chunker ReadPath Lifecycle ReadLemmas ReadData Tiers ReadCorrect System SystemInv SystemPersist SystemSnapshot SystemTheorems AuditSystem Fork ForkCopy ForkCoherent AuditTheorems ForkTheorems BranchMerge.
From stdpp Require Import base numbers list option sets gmap sorting.

Open Scope Z_scope.

(** ** The target after the merge *)

Section target.
Context {V : Type} (E : env V) (value : Z → Z * V → cell) (index_key : Z → Z * V → list cell).
Context (gen : nat → Z) (Hgen : ∀ i j, gen i = gen j → i = j).
Context (source : branch_state V) (Hwf : tx_wf (bs_tx source)) (HuU : log_unique (ts_upserts (bs_table source))).
Context (Hlogged : ∀ c, c ∈ tx_commit_log (bs_tx source) →
  ct_tx_uuid c ∈ (lr_tx_uuid <$> ts_upserts (bs_table source)) ++ (lr_tx_uuid <$> ts_deletes (bs_table source)) →
  ct_tx_uuid c ∈ ts_tx_table_log (bs_table source)).
Context (w : world V) (gone : list Z) (Hi : Inv E value index_key w gone) (F now tx : Z).
Context (Hnow : w_now w < now < I64_MAX) (Hroom : commit_tx_log_seq_num (bs_tx (w_real w)) < I64_MAX).
Context (Hfresh : fresh_tx (bs_tx (w_real w)) tx).
Context (Hff : ∀ c, c ∈ tx_commit_log (bs_tx (w_real w)) → ct_commit_seq_num c ≤ F).
Context (Hdraw : ∀ i, gen i ∉ (lr_version_uuid <$> ts_upserts (bs_table (w_real w))) ++ (lr_version_uuid <$> ts_deletes (bs_table (w_real w)))).

Notation real := (w_real w).
Notation alive := (final_alive (source_resolution source)).
Notation tombs := (final_dead (source_resolution source)).

(** The merge transaction. *)
Definition merge_commit : commit_row := CommitRow tx now (commit_tx_log_seq_num (bs_tx real)).

Definition merged_logs : tx_logs :=
  {| begin_tx_log := begin_tx_log (bs_tx real); tx_commit_log := tx_commit_log (bs_tx real) ++ [merge_commit];
     abort_tx_log := abort_tx_log (bs_tx real); commit_tx_log_seq_num := commit_tx_log_seq_num (bs_tx real) + 1;
     abort_seq_num := abort_seq_num (bs_tx real) |}.

Lemma merge_commits : auto_commit_tx (bs_tx real) now tx = Ok (merged_logs, merge_commit).
Proof using Hi Hnow Hroom Hfresh.
  unfold auto_commit_tx, commit_tx_log_insert. destruct (Z.leb_spec I64_MAX (commit_tx_log_seq_num (bs_tx real))); [lia|].
  rewrite decide_False; [done|]. intros (c & Hc & Hex)%Exists_exists. cbn in Hex.
  pose proof (proj2 (iv_now _ _ _ _ _ Hi) c Hc). pose proof (wf_commits_range _ (iv_wf _ _ _ _ _ Hi) c Hc). pose proof (proj1 (proj2 Hfresh) c Hc).
  destruct Hex as [?|[?|?]]; [congruence|lia|lia].
Qed.

Lemma untouched_empty : enumerate_touched source = false → alive = [] ∧ tombs = [].
Proof using Hwf HuU Hlogged.
  unfold enumerate_touched. destruct (head _) as [?|] eqn:Eh; [done|]. intros _. apply head_None in Eh.
  assert (∀ A (log : list (log_row A)), (∀ u, u ∈ log → lr_tx_uuid u ∈ (lr_tx_uuid <$> ts_upserts (bs_table source)) ++ (lr_tx_uuid <$> ts_deletes (bs_table source))) →
    ∀ x, x ∉ hot_source None log (tx_commit_log (bs_tx source))) as Hno.
  { intros A log Hlog x (u & c & Hu & Hc & Hct & _)%source_elem. assert (c ∈ @nil commit_row) as []%not_elem_of_nil.
    rewrite <- Eh. apply list_elem_of_filter. split; [|done]. apply Hlogged; [done|]. rewrite Hct. by apply Hlog. }
  assert (∀ r, ¬ touched (historyU source) (historyD source) r) as Hnt.
  { intros r [(x & Hx & _)|(x & Hx & _)]; (eapply Hno; [|exact Hx]); intros u Hu; apply elem_of_app; [left|right]; by apply list_elem_of_fmap_2. }
  split; apply elem_of_nil_inv.
  - intros [r v] (u & Hu & <- & _)%alive_iff; [|done|done]. apply (Hnt (row_uuid u)). by apply (live_touched OrderCommitSeqNum).
  - intros p Hp. apply (Hnt p.1), tombs_touched. by apply list_elem_of_fmap_2.
Qed.

Lemma merge_returns : ∃ st s s' d d', merge_branch gen source real F now tx = Ok (st, now) ∧ bs_tx st = merged_logs ∧
  ts_upserts (bs_table st) = ts_upserts (bs_table real) ++ inserted gen tx alive s d ∧
  ts_deletes (bs_table st) = ts_deletes (bs_table real) ++ inserted gen tx tombs s' d' ∧
  ts_meta (bs_table st) = ts_meta (bs_table real).
Proof using All.
  unfold merge_branch, ensure_fast_forward. destruct (head _) as [c|] eqn:Eh.
  { apply head_Some_elem_of in Eh as [Hlt Hc]%list_elem_of_filter. specialize (Hff c Hc). lia. }
  cbn [result_bind]. rewrite merge_commits. cbn [result_bind]. destruct (enumerate_touched source) eqn:Et.
  - unfold merge_table_data. rewrite insert_select_ok; [|done|intros i _ Hin; apply (Hdraw i), elem_of_app; by left]. cbn [result_bind].
    rewrite insert_select_ok; [|done|intros i _ Hin; apply (Hdraw i), elem_of_app; by right]. cbn [result_bind].
    eexists _, _, _, _, _. done.
  - destruct (untouched_empty Et) as [-> ->]. eexists _, 0, 0, O, O. split; [done|]. cbn. by rewrite !app_nil_r.
Qed.

(** *** The tiers stay coherent *)

Section after.
Context (s s' : Z) (d d' : nat).
Notation newU := (inserted gen tx alive s d).
Notation newD := (inserted gen tx tombs s' d').

(** The ideal table with the merged rows. *)
Definition merged_ideal : branch_state V :=
  {| bs_tx := merged_logs;
     bs_table := {| ts_upserts := ts_upserts (bs_table (w_ideal w)) ++ newU; ts_deletes := ts_deletes (bs_table (w_ideal w)) ++ newD;
                    ts_write_sequence := 0; ts_tx_table_log := ∅; ts_meta := empty_meta |} |}.

Lemma tx_not_gone : tx ∉ gone.
Proof using Hi Hfresh. intros Hin. by apply (fresh_not_gone _ _ _ _ Hfresh (iv_gone _ _ _ _ _ Hi tx Hin)). Qed.

(** The merge transaction's rows are new. *)
Lemma old_tx {A} (rl ideal : list (log_row A)) u : log_ok E (bs_tx real) gone rl ideal → u ∈ ideal → lr_tx_uuid u ≠ tx.
Proof using Hfresh.
  intros Hl Hu Heq. destruct Hfresh as (Hb & Hc & _). destruct (lo_tx _ _ _ _ _ Hl u Hu) as [[b Hs]|(c & Hin & Ht)]; [congruence|].
  apply (Hc c Hin). congruence.
Qed.

Lemma grown_log {A} (rl ideal : list (log_row A)) rows sq dr u :
  log_ok E (bs_tx real) gone rl ideal → lr_tx_uuid u ≠ tx → u ∈ ideal ++ inserted gen tx rows sq dr ↔ u ∈ ideal.
Proof using.
  intros _ Hne. rewrite elem_of_app. split; [|by left]. intros [?|[? _]%inserted_elem]; [done|congruence].
Qed.

Lemma merged_log {A} (rl ideal : list (log_row A)) rows sq dr :
  log_ok E (bs_tx real) gone rl ideal → NoDup (fst <$> rows) →
  rl ++ inserted gen tx rows sq dr = surviving gone (ideal ++ inserted gen tx rows sq dr) ∧ log_unique (ideal ++ inserted gen tx rows sq dr).
Proof using Hi Hfresh.
  intros Hl Hnd. pose proof Hl as [Hf Hu _ _]. split.
  - unfold surviving in *. rewrite filter_app, <- Hf. f_equal. symmetry. apply filter_all.
    intros u [-> _]%inserted_elem. apply tx_not_gone.
  - intros x y [Hx|Hx]%elem_of_app [Hy|Hy]%elem_of_app Hr Ht.
    + by apply Hu.
    + apply inserted_elem in Hy as [Hy _]. destruct (old_tx _ _ x Hl Hx). congruence.
    + apply inserted_elem in Hx as [Hx _]. destruct (old_tx _ _ y Hl Hy). congruence.
    + by eapply inserted_unique.
Qed.

Lemma grown_merged {A} (rl ideal : list (log_row A)) rows sq dr x :
  log_ok E (bs_tx real) gone rl ideal →
  x ∈ hot_source None (ideal ++ inserted gen tx rows sq dr) (tx_commit_log merged_logs) ↔
    x ∈ hot_source None ideal (tx_commit_log (bs_tx (w_ideal w))) ++ hot_source None (inserted gen tx rows sq dr) [merge_commit].
Proof using Hi Hfresh.
  intros Hl. cbn [merged_logs tx_commit_log]. rewrite (iv_tx _ _ _ _ _ Hi), elem_of_app.
  rewrite (source_grow ideal _ _ merge_commit tx x); [|intros u; by apply grown_log with rl|by apply Hfresh|done].
  apply or_iff_compat_l. rewrite (merged_elem gen merge_commit rows sq dr x). split.
  - intros (u & [Hu|Hu]%elem_of_app & Ht & ->); [by destruct (old_tx _ _ u Hl Hu)|eauto].
  - intros (u & Hu & ->). exists u. split_and!; [apply elem_of_app; by right|by apply inserted_elem in Hu as [? _]|done].
Qed.

Lemma merged_historyU x : x ∈ historyU merged_ideal ↔ x ∈ historyU (w_ideal w) ++ mergedU gen source merge_commit s d.
Proof using Hi Hfresh. apply (grown_merged _ _ _ _ _ _ (iv_upserts _ _ _ _ _ Hi)). Qed.
Lemma merged_historyD x : x ∈ historyD merged_ideal ↔ x ∈ historyD (w_ideal w) ++ mergedD gen source merge_commit s' d'.
Proof using Hi Hfresh. apply (grown_merged _ _ _ _ _ _ (iv_deletes _ _ _ _ _ Hi)). Qed.

Lemma merge_tx_wf : tx_wf merged_logs.
Proof using Hi Hnow Hroom Hfresh.
  eapply tx_wf_step; [apply (iv_wf _ _ _ _ _ Hi)|]. eapply StepAutoCommit; [|exact Hfresh|apply merge_commits].
  pose proof (iv_now _ _ _ _ _ Hi) as [? Hc]. split; [lia|]. intros c Hin. specialize (Hc c Hin). lia.
Qed.

Lemma merged_coherent st : bs_tx st = merged_logs →
  ts_upserts (bs_table st) = ts_upserts (bs_table real) ++ newU → ts_deletes (bs_table st) = ts_deletes (bs_table real) ++ newD →
  ts_meta (bs_table st) = ts_meta (bs_table real) →
  coherent value index_key (ts_meta (bs_table st)) (hot_view st) (historyU merged_ideal) (historyD merged_ideal).
Proof using Hi Hnow Hroom Hfresh.
  intros Htx HU HD Hm. pose proof (survivors_nodup source) as (HndU & _ & HndD)%NoDup_app.
  pose proof Hi as [Hit Hiwf Hin HlU HlD _ _ Hg _ Hmo].
  destruct (merged_log _ _ _ s d HlU HndU) as [HsU HuU']. destruct (merged_log _ _ _ s' d' HlD HndD) as [HsD HuD'].
  pose proof (commit_grew _ _ _ _ _ gone merge_commits tx_not_gone) as Hgrew.
  apply (coherent_of E value index_key st merged_ideal now gone); rewrite ?Htx, ?HU, ?HD, ?Hm; try done.
  - apply merge_tx_wf.
  - intros t Ht. eapply gone_mono; [by apply Hg|done|exact Hgrew|lia|]. intros pu Hpu. exists pu. split; [done|lia].
  - eapply (meta_grow E value index_key _ (bs_tx real) _ (historyU (w_ideal w)) _ (historyD (w_ideal w)) _ now); [exact Hmo|..].
    + unfold historyU. rewrite Hit. apply (grown_commit _ _ _ merge_commit tx); [intros u; by apply grown_log with (ts_upserts (bs_table real))|apply Hfresh|done].
    + unfold historyD. rewrite Hit. apply (grown_commit _ _ _ merge_commit tx); [intros u; by apply grown_log with (ts_deletes (bs_table real))|apply Hfresh|done].
    + intros c Hc. pose proof (proj2 Hin c Hc). lia.
    + intros c Hc. cbn. apply elem_of_app. by left.
    + cbn. lia.
Qed.
End after.
End target.

(** ** A fork beside its parent *)

Section pair.
Context {V : Type} `{CV : ColdBatch V, CU : ColdBatch unit, L : SnapshotLayout V}.
Context {Note : Type} (note_of : Z → Note) {LN : LedgerNaming} {FN : ForkNaming}.
Context (E : env V) (value : Z → Z * V → cell) (index_key : Z → Z * V → list cell).
Context `{!ColdBatchLaws CV, !ColdBatchLaws CU, !SnapshotLayoutLaws L value index_key}.
Context (Henv : env_ok E value index_key) (Hn : LedgerNamingLaws LN) (HF : ForkNamingLaws FN).

(** A main branch and a fork of it at [c].  Before and after the fork, main takes any
    steps of [jstep] (client operations, flushes of the ledger and the scheduled life
    cycle, with no GC of the transaction log); the fork takes only client operations. *)
Inductive forked_pair (c : commit_row) : world V * ledger_store Note → branch_state V * Z → Prop :=
  | ForkedPair w ledger now main point ledger_faults faults fork_tx fork_now copy parent ledger' child s s' :
      rtc (jstep note_of E) jstart (w, ledger) → tick w now → named_by point (tx_commit_log (bs_tx (w_real w))) c →
      (compute_candidate_persisted_at_gated (w_real w) now (Some (ct_commit_micros c)) ≠ None →
         scheduled E (w_real w) now (OpPersist (Some (ct_commit_micros c)))) →
      now < fork_now < I64_MAX →
      create_branch note_of E main main (w_real w) ledger now point ledger_faults faults fork_tx fork_now copy
        = (parent, ledger', Returns (watermark_of c, child)) →
      rtc (jstep note_of E) ({| w_real := parent; w_ideal := w_ideal w; w_now := now |}, ledger') s →
      rtc (child_step E) (child, fork_now) s' →
      forked_pair c s s'.

(** The transactions with rows in the logs are in the membership log. *)
Definition logged (st : branch_state V) : Prop :=
  (∀ u, u ∈ ts_upserts (bs_table st) → lr_tx_uuid u ∈ ts_tx_table_log (bs_table st)) ∧
  (∀ u, u ∈ ts_deletes (bs_table st) → lr_tx_uuid u ∈ ts_tx_table_log (bs_table st)).

Lemma logged_apply F t0 m st t ch tx ts :
  child_ok E value index_key F t0 m (st, t) → logged st → apply_change (e_version_uuid E) (bs_table st) ch tx = Ok ts →
  (∀ u, u ∈ ts_upserts ts → lr_tx_uuid u ∈ ts_tx_table_log ts) ∧ (∀ u, u ∈ ts_deletes ts → lr_tx_uuid u ∈ ts_tx_table_log ts).
Proof using Henv.
  intros [[_ _ _ [_ HuU HvU _] [_ HuD HvD _] _ _ _ _ _] _ _ _ _] [HU HD]. cbn in HuU, HvU, HuD, HvD.
  unfold apply_change. case_decide; [by intros [= <-]|]. destruct Henv as [Hv _ _ _].
  pose proof (insert_deletes_ok (e_version_uuid E) tx (ch_deletes ch) _ (ts_write_sequence (bs_table st)) HuD HvD) as (_ & _ & HeD).
  destruct (insert_deletes _ tx _ _ _) as [D sq]. case_decide; [|done].
  pose proof (insert_upserts_ok (e_version_uuid E) Hv tx (ch_upserts ch) _ sq HuU HvU) as (_ & _ & HeU).
  destruct (insert_upserts _ tx _ _ _) as [U sq']. cbn [fst] in *. intros [= <-]. cbn.
  split; intros u Hu; apply elem_of_union; (destruct (decide (lr_tx_uuid u = tx)) as [Ht|Hne]; [left; by apply elem_of_singleton|right]).
  - by apply HU, HeU.
  - by apply HD, HeD.
Qed.

Lemma logged_step F t0 m s s' : child_ok E value index_key F t0 m s → logged s.1 → child_step E s s' → logged s'.1.
Proof using Henv.
  intros Hok Hl Hst. destruct Hst as [st t now o Ho Hle Hr Hsch]. cbn [fst] in *.
  destruct o as [tx timeout|tx|tx|fresh tx ch|target|as_of|]; cbn; try done.
  - by destruct (begin_tx _ _ _ _) as [[]|].
  - by destruct (commit_tx _ _ _) as [[]|].
  - by destruct (abort_tx _ _ _) as [[]|].
  - unfold write_data. destruct (resolve_or_auto_commit_tx _ _ _ _) as [[l [tx' c]]|]; [|done]. cbn [result_bind]. destruct ch as [ch|]; [|done].
    destruct (apply_change _ _ ch tx') as [ts|] eqn:Ea; [|done]. by apply (logged_apply F t0 m st t ch tx' ts).
Qed.

Lemma logged_steps F t0 m s s' : child_ok E value index_key F t0 m s → logged s.1 → rtc (child_step E) s s' → logged s'.1.
Proof using Henv.
  intros Hok Hl Hr. induction Hr as [s|s s1 s2 Hst _ IH]; [done|].
  apply IH; [by eapply child_step_ok|by eapply logged_step].
Qed.

(** ** The parent's history past the fork *)

Lemma history_step F s s' : JInv note_of E value index_key s → jstep note_of E s s' → F < commit_tx_log_seq_num (bs_tx (w_real s.1)) →
  F < commit_tx_log_seq_num (bs_tx (w_real s'.1)) ∧
  same_elems (up_to F (historyU (w_ideal s'.1))) (up_to F (historyU (w_ideal s.1))) ∧
  same_elems (up_to F (historyD (w_ideal s'.1))) (up_to F (historyD (w_ideal s.1))).
Proof using Henv Hn ColdBatchLaws0 ColdBatchLaws1 SnapshotLayoutLaws0.
  intros Hj Hst Hlt. pose proof (jinv_step note_of E value index_key Henv Hn _ _ Hst Hj) as [[gone' Hi'] _ _ _ _].
  destruct Hj as [[gone Hi] _ _ _ _]. pose proof (iv_tx _ _ _ _ _ Hi) as Htx. pose proof (iv_tx _ _ _ _ _ Hi') as Htx'. rewrite <- Htx in Hlt. rewrite <- Htx'.
  destruct Hst as [w ledger now o Hnp Htick Hsch|w ledger now target faults st ledger' out Htick Hsch Hp|w ledger now target faults]; cbn [fst step_world w_ideal w_real] in *; [|done..].
  destruct (client_commits E (w_ideal w) now o) as [Hcnt _]. destruct Henv as [Hv _ _ _].
  destruct (client_grown E value index_key Hv w gone now o Hi Htick Hsch) as (mi & HgU & HgD). rewrite <- Htx in HgU, HgD.
  split_and!; [lia|by eapply up_to_grow|by eapply up_to_grow].
Qed.

Lemma history_steps F s s' : JInv note_of E value index_key s → rtc (jstep note_of E) s s' → F < commit_tx_log_seq_num (bs_tx (w_real s.1)) →
  JInv note_of E value index_key s' ∧
  same_elems (up_to F (historyU (w_ideal s'.1))) (up_to F (historyU (w_ideal s.1))) ∧
  same_elems (up_to F (historyD (w_ideal s'.1))) (up_to F (historyD (w_ideal s.1))).
Proof using Henv Hn ColdBatchLaws0 ColdBatchLaws1 SnapshotLayoutLaws0.
  intros Hj Hr. revert Hj. induction Hr as [s|s s1 s2 Hst _ IH]; intros Hj Hlt; [done|].
  destruct (history_step F s s1 Hj Hst Hlt) as (Hlt' & HU & HD).
  destruct (IH (jinv_step note_of E value index_key Henv Hn _ _ Hst Hj) Hlt') as (Hj' & HU' & HD'). split_and!; [done|by etrans|by etrans].
Qed.

(** What a forked pair is made of. *)
Record pair_ok (c : commit_row) (s : world V * ledger_store Note) (s' : branch_state V * Z)
    (w : world V) (now fork_now copy : Z) (m0 m : table_meta V) : Prop := {
  pk_flushed : flushed E value index_key w now c m0;
  pk_forked : forked m0 (ct_commit_seq_num c) (ct_commit_micros c) copy m;
  pk_clock : 0 ≤ now < fork_now;
  pk_seq : 0 ≤ ct_commit_seq_num c < I64_MAX;
  pk_micros : ct_commit_micros c < I64_MAX;
  pk_child : child_ok E value index_key (ct_commit_seq_num c) fork_now m s';
  pk_logged : logged s'.1;
  pk_parent : JInv note_of E value index_key s;
  pk_upserts : same_elems (up_to (ct_commit_seq_num c) (historyU (w_ideal s.1))) (up_to (ct_commit_seq_num c) (historyU (w_ideal w)));
  pk_deletes : same_elems (up_to (ct_commit_seq_num c) (historyD (w_ideal s.1))) (up_to (ct_commit_seq_num c) (historyD (w_ideal w)));
}.

(** What the request has done when it returns a child. *)
Lemma create_branch_inv main st ledger now point lf faults fork_tx fork_now copy parent ledger' fork child :
  create_branch note_of E main main st ledger now point lf faults fork_tx fork_now copy = (parent, ledger', Returns (fork, child)) →
  ∃ wm, persist_branch note_of E st ledger now fork lf faults = (parent, ledger', Returns (Some wm)) ∧
    create_branch_tx (ts_meta (bs_table parent)) fork fork_tx fork_now copy = Ok child.
Proof using.
  unfold create_branch, ensure_fork_source_is_main. rewrite Z.eqb_refl. destruct (resolve_fork_watermark _ _ _) as [f|]; [|done].
  destruct (persist_branch _ _ _ _ _ _ _ _) as [[p l] r] eqn:Ep. destruct r as [[wm|]|e|]; [|done..].
  destruct (create_branch_tx _ _ _ _ _) as [ch|] eqn:Ec; [|done]. intros [= -> -> -> ->]. eauto.
Qed.

Lemma create_room m0 (c : commit_row) fork_tx fork_now copy (child : branch_state V) :
  create_branch_tx m0 (watermark_of c) fork_tx fork_now copy = Ok child → ct_commit_seq_num c + 1 < I64_MAX.
Proof using.
  unfold create_branch_tx, materialize_metadata_from_source, auto_commit_tx, commit_tx_log_insert. cbn.
  by destruct (Z.leb_spec I64_MAX (ct_commit_seq_num c + 1)).
Qed.

Lemma pair_facts c s s' : forked_pair c s s' → ∃ w now fork_now copy m0 m, pair_ok c s s' w now fork_now copy m0 m.
Proof using Henv Hn HF ColdBatchLaws0 ColdBatchLaws1 SnapshotLayoutLaws0.
  intros Hp. destruct Hp as [w ledger now main point lf faults fork_tx fork_now copy parent ledger' child s s' Hr Htick Hc Hsch Hfork Hcb Hpar Hchild].
  apply create_branch_inv in Hcb as (wm & Hflush & Hch). pose proof (create_room _ _ _ _ _ _ Hch) as Hroom.
  pose proof (flush_faithful note_of E value index_key Henv Hn w ledger now c _ _ _ _ _ Hr Htick (proj1 Hc) Hsch Hflush) as Hfl.
  destruct (persist_branch_reachable note_of E w ledger now (watermark_of c) lf faults parent ledger' wm Hr Htick Hsch Hflush) as (l0 & t & Hr' & Ht & _).
  destruct (jinv_reachable note_of E value index_key Henv Hn _ Hr) as [[gone0 Hi0] _ _ _ _]. cbn in Hi0.
  pose proof (wf_commits_range _ (iv_wf _ _ _ _ _ Hi0) c (proj1 Hc)) as [Hseq Hmic]. destruct Htick as [Htick ?].
  destruct (create_ok E value index_key Henv HF w now c _ fork_tx fork_now copy Hfl) as (m & child' & Hch' & Hfk & Hok & HeU & HeD); [lia..|].
  rewrite Hch in Hch'. injection Hch' as <-.
  pose proof (jinv_reachable note_of E value index_key Henv Hn _ Hr') as [[gone Hi] H2 H3 H4 H5]. cbn in Hi.
  assert (JInv note_of E value index_key ({| w_real := parent; w_ideal := w_ideal w; w_now := now |}, ledger')) as Hj.
  { split; [|exact H2|exact H3|exact H4|exact H5]. exists gone. exact (inv_idle _ _ _ _ _ now Hi ltac:(split; cbn; lia)). }
  pose proof (iv_tx _ _ _ _ _ Hi) as Htx. pose proof (iv_tx _ _ _ _ _ Hi0) as Htx0. cbn in Htx.
  destruct (history_steps (ct_commit_seq_num c) _ _ Hj Hpar) as (Hjs & HU & HD); [cbn; rewrite <- Htx, Htx0; lia|].
  exists w, now, fork_now, copy, (ts_meta (bs_table parent)), m. split; try done; [lia|lia|lia|by eapply child_steps_ok|].
  eapply logged_steps; [exact Hok| |exact Hchild]. split; cbn; [rewrite HeU|rewrite HeD]; by intros ? ?%not_elem_of_nil.
Qed.
End pair.

(** ** What the merged target shows *)

Lemma visible_latest {A} n (Hy : list (src_row A)) log : (∀ x, x ∈ Hy → commit_seq_num x ≤ n) → visible (LatestSeq n) Hy log = Hy.
Proof. intros Hle. unfold visible. cbn. rewrite app_nil_r. by apply filter_all. Qed.

Lemma history_seq {V} (st : branch_state V) :
  (∀ x, x ∈ historyU st → ∃ c, c ∈ tx_commit_log (bs_tx st) ∧ ct_commit_micros c = commit_micros x ∧ ct_commit_seq_num c = commit_seq_num x) ∧
  (∀ x, x ∈ historyD st → ∃ c, c ∈ tx_commit_log (bs_tx st) ∧ ct_commit_micros c = commit_micros x ∧ ct_commit_seq_num c = commit_seq_num x).
Proof. split; intros x; apply source_commit. Qed.

Section shown.
Context {V : Type} (E : env V) (value : Z → Z * V → cell) (index_key : Z → Z * V → list cell) (gen : nat → Z).
Context (w : world V) (gone : list Z) (Hi : Inv E value index_key w gone) (F now tx : Z).
Context (Hfresh : fresh_tx (bs_tx (w_real w)) tx) (Hff : ∀ c, c ∈ tx_commit_log (bs_tx (w_real w)) → ct_commit_seq_num c ≤ F).
Context (source : branch_state V) (Hwf : tx_wf (bs_tx source)) (HuU : log_unique (ts_upserts (bs_table source))).
Context (Hown : ∀ c, c ∈ tx_commit_log (bs_tx source) → F < ct_commit_seq_num c).
Context (s s' : Z) (d d' : nat).
Notation ideal' := (merged_ideal gen source w now tx s s' d d').
Notation mc := (merge_commit w now tx).

Lemma merged_shown r v :
  (∃ u, live (historyU ideal') (historyD ideal') u ∧ row_uuid u = r ∧ cols u = v) ↔
  (∃ u, live (historyU (w_ideal w) ++ historyU source) (historyD (w_ideal w) ++ historyD source) u ∧ row_uuid u = r ∧ cols u = v).
Proof using Hi Hfresh Hff Hwf HuU Hown.
  assert (same_elems (historyU ideal') (historyU (w_ideal w) ++ mergedU gen source mc s d)) as HsU by (intros x; by eapply merged_historyU).
  assert (same_elems (historyD ideal') (historyD (w_ideal w) ++ mergedD gen source mc s' d')) as HsD by (intros x; by eapply merged_historyD).
  setoid_rewrite HsU. setoid_rewrite HsD. pose proof (iv_tx _ _ _ _ _ Hi) as Htx. apply layer_swap.
  - intros r1 m1 s1 r2 m2 s2 H1 H2. pose proof (iv_wf _ _ _ _ _ Hi) as Hw. rewrite <- Htx in Hw. pose proof (stamps_range _ _ _ _ Hw H1) as [Hlt _].
    apply elem_of_app in H2 as [(x & Hx & (u & _ & ->)%merged_elem)%list_elem_of_fmap|(x & Hx & (u & _ & ->)%merged_elem)%list_elem_of_fmap];
      injection Hx as _ _ ->; cbn; rewrite <- Htx; lia.
  - intros r1 m1 s1 r2 m2 s2 (c & Hc & _ & <-)%history_stamp (c' & Hc' & _ & <-)%history_stamp. rewrite Htx in Hc. specialize (Hff c Hc). specialize (Hown c' Hc'). lia.
  - intros r'. by apply merged_touched.
  - by apply merged_live.
Qed.

(** The latest read of the target is the latest read of the fork. *)
Lemma merged_latest n n' h h' (PU : list (src_row V)) (PD : list (src_row unit)) r v :
  commit_tx_log_seq_num (bs_tx (w_real w)) ≤ n → F ≤ n' → (∀ c, c ∈ tx_commit_log (bs_tx source) → ct_commit_seq_num c ≤ n') →
  same_elems (up_to F (historyU (w_ideal w))) PU → same_elems (up_to F (historyD (w_ideal w))) PD →
  table_at (LatestSeq n) (historyU ideal') (historyD ideal') h (r, v) ↔
  table_at (LatestSeq n') (PU ++ historyU source) (PD ++ historyD source) h' (r, v).
Proof using Hi Hfresh Hff Hwf HuU Hown.
  intros Hn Hge Hall HPU HPD. pose proof (iv_tx _ _ _ _ _ Hi) as Htx. pose proof (history_seq (w_ideal w)) as [HqU HqD]. pose proof (history_seq source) as [HsU HsD].
  rewrite Htx in HqU, HqD.
  assert (∀ c, c ∈ tx_commit_log (bs_tx ideal') → ct_commit_seq_num c ≤ n) as Hle.
  { intros c [Hc| ->%list_elem_of_singleton]%elem_of_app; [|done]. pose proof (wf_commits_range _ (iv_wf _ _ _ _ _ Hi) c Hc). lia. }
  assert (∀ x, x ∈ PU ↔ x ∈ historyU (w_ideal w)) as HeU.
  { intros x. rewrite <- (HPU x). unfold up_to. rewrite list_elem_of_filter. split; [by intros [_ ?]|]. intros Hx. split; [|done].
    apply HqU in Hx as (c & Hc & _ & <-). by apply Hff. }
  assert (∀ x, x ∈ PD ↔ x ∈ historyD (w_ideal w)) as HeD.
  { intros x. rewrite <- (HPD x). unfold up_to. rewrite list_elem_of_filter. split; [by intros [_ ?]|]. intros Hx. split; [|done].
    apply HqD in Hx as (c & Hc & _ & <-). by apply Hff. }
  unfold table_at. rewrite !visible_latest.
  - rewrite merged_shown. assert (same_elems (PU ++ historyU source) (historyU (w_ideal w) ++ historyU source)) as HsU' by (intros x; by rewrite !elem_of_app, HeU).
    assert (same_elems (PD ++ historyD source) (historyD (w_ideal w) ++ historyD source)) as HsD' by (intros x; by rewrite !elem_of_app, HeD).
    setoid_rewrite HsU'. by setoid_rewrite HsD'.
  - intros x [Hx|Hx]%elem_of_app; [apply HeD, HqD in Hx as (c & Hc & _ & <-); specialize (Hff c Hc); lia|apply HsD in Hx as (c & Hc & _ & <-); by apply Hall].
  - intros x [Hx|Hx]%elem_of_app; [apply HeU, HqU in Hx as (c & Hc & _ & <-); specialize (Hff c Hc); lia|apply HsU in Hx as (c & Hc & _ & <-); by apply Hall].
  - intros x (c & Hc & _ & <-)%(proj2 (history_seq ideal')). by apply Hle.
  - intros x (c & Hc & _ & <-)%(proj1 (history_seq ideal')). by apply Hle.
Qed.

(** A snapshot that does not see the merge shows what it showed before. *)
Lemma merged_unseen sn st x :
  ¬ sees sn now (commit_tx_log_seq_num (bs_tx (w_real w))) → open_tx_uuid sn ≠ Some tx →
  ts_upserts (bs_table st) = ts_upserts (bs_table (w_real w)) ++ inserted gen tx (final_alive (source_resolution source)) s d →
  ts_deletes (bs_table st) = ts_deletes (bs_table (w_real w)) ++ inserted gen tx (final_dead (source_resolution source)) s' d' →
  table_at sn (historyU ideal') (historyD ideal') (hot_view st) x ↔
  table_at sn (historyU (w_ideal w)) (historyD (w_ideal w)) (hot_view (w_real w)) x.
Proof using Hi Hfresh.
  intros Hsee Hop HU HD. unfold table_at, hot_view. cbn [upsert_log delete_log]. rewrite HU, HD.
  assert (∀ A (Hy Hy' : list (src_row A)) rl rows sq dr, (∀ x, x ∈ Hy' ↔ x ∈ Hy ++ hot_source None (inserted gen tx rows sq dr) [mc]) →
    same_elems (visible sn Hy' (rl ++ inserted gen tx rows sq dr)) (visible sn Hy rl)) as Hvis.
  { intros A Hy Hy' rl rows sq dr Heq y. unfold visible. rewrite !elem_of_app, !list_elem_of_filter, Heq, elem_of_app.
    assert (own_writes sn (rl ++ inserted gen tx rows sq dr) = own_writes sn rl) as ->.
    { unfold own_writes. destruct (open_tx_uuid sn) as [t|]; [|done]. rewrite filter_app, fmap_app.
      assert (filter (λ u : log_row A, lr_tx_uuid u = t) (inserted gen tx rows sq dr) = []) as ->; [|by rewrite app_nil_r].
      apply elem_of_nil_inv. intros u [Ht [Hx _]%inserted_elem]%list_elem_of_filter. congruence. }
    split; [|tauto]. intros [[Hs [Hy0|(u & _ & ->)%(merged_elem gen mc)]]|Ho]; [auto| |auto]. by destruct Hsee. }
  setoid_rewrite (Hvis _ (historyU (w_ideal w)) (historyU ideal') _ _ _ _ ltac:(intros y; by eapply merged_historyU)).
  by setoid_rewrite (Hvis _ (historyD (w_ideal w)) (historyD ideal') _ _ _ _ ltac:(intros y; by eapply merged_historyD)).
Qed.
End shown.

Definition at_snapshot {V} (req : ReadDataRequest V) (s : ReadSnapshot) : ReadDataRequest V :=
  {| rd_snapshot := s; rd_row_uuids := rd_row_uuids req; rd_filter := rd_filter req; rd_index_seek := rd_index_seek req |}.

(** Rows that are the same rows, each once. *)
Lemma same_rows {V} (rows rows' : list (Z * V)) (P Q : Z * V → Prop) :
  NoDup (fst <$> rows) → NoDup (fst <$> rows') → (∀ x, x ∈ rows ↔ P x) → (∀ x, x ∈ rows' ↔ Q x) → (∀ x, P x ↔ Q x) → rows ≡ₚ rows'.
Proof.
  intros Hn Hn' Hp Hq Hpq. apply NoDup_Permutation; [by eapply NoDup_fmap_1|by eapply NoDup_fmap_1|]. intros x. by rewrite Hp, Hq, Hpq.
Qed.

(** C4 A merge hands the fork's rows to its parent.  Main has, before and after the
    fork, taken client operations, ledger flushes, persists, snapshots and purges
    under the schedule and no GC of its transaction log; the fork has taken begins,
    writes, commits and aborts only ([merge_loses_commits] runs both exclusions).
    A merge of the fork, under a fresh transaction, unused uuids and a clock past
    main's, is refused when main has a commit past the fork point and otherwise
    commits once, at its clock: a latest read of main then returns exactly the
    rows the same latest read of the fork returns, and a read that does not see
    the merge's commit returns exactly the rows it returned before (reads with a
    filtered index seek and row ids that are not the empty list). *)
Theorem merge_reads_source {V} `{CV : ColdBatch V, CU : ColdBatch unit, L : SnapshotLayout V}
    {Note} (note_of : Z → Note) {LN : LedgerNaming} {FN : ForkNaming}
    (E : env V) (value : Z → Z * V → cell) (index_key : Z → Z * V → list cell)
    (HCV : ColdBatchLaws CV) (HCU : ColdBatchLaws CU) (HL : SnapshotLayoutLaws L value index_key)
    (Henv : env_ok E value index_key) (Hn : LedgerNamingLaws LN) (HF : ForkNamingLaws FN)
    (c : commit_row) (w : world V) (ledger : ledger_store Note) (source : branch_state V) (t : Z)
    (Hp : forked_pair note_of E c (w, ledger) (source, t))
    (gen : nat → Z) (Hgen : ∀ i j, gen i = gen j → i = j)
    (Hdraw : ∀ i, gen i ∉ (lr_version_uuid <$> ts_upserts (bs_table (w_real w))) ++ (lr_version_uuid <$> ts_deletes (bs_table (w_real w))))
    (now merge_tx : Z) (Hnow : w_now w < now < I64_MAX) (Hroom : commit_tx_log_seq_num (bs_tx (w_real w)) < I64_MAX)
    (Hfresh : fresh_tx (bs_tx (w_real w)) merge_tx)
    (may_match : (Z * V → bool) → SnapshotSegment V → bool) (equality_bindings : (Z * V → bool) → gmap Z (list Z))
    (Hprune : prune_sound may_match) (Hbind : bindings_sound value equality_bindings)
    (cfg : QueryConfig) (main now' : Z) (parent_meta : table_meta V) (req : ReadDataRequest V)
    (Hids : rd_row_uuids req ≠ Some []) (Hseek : seek_filtered req) :
  let fork := ct_commit_seq_num c in
  let lineage := {| parent_branch_uuid := main; fork_commit_seq_num := fork; fork_commit_micros := ct_commit_micros c |} in
  let read_main (st : branch_state V) s :=
    read_data value may_match equality_bindings cfg (ts_meta (bs_table st)) (hot_view st) None now' None (at_snapshot req s) in
  let read_fork (st : branch_state V) s :=
    read_data value may_match equality_bindings cfg (ts_meta (bs_table st)) (hot_view st) (Some (lineage, parent_meta)) now' None (at_snapshot req s) in
  let merge := merge_branch gen source (w_real w) fork now merge_tx in
  if decide (Exists (λ c', fork < ct_commit_seq_num c') (tx_commit_log (bs_tx (w_real w)))) then merge = Err InvalidRequest
  else
    ∃ target, merge = Ok (target, now) ∧
      (∀ n n', commit_tx_log_seq_num (bs_tx (w_real w)) ≤ n → fork ≤ n' →
         (∀ c', c' ∈ tx_commit_log (bs_tx source) → ct_commit_seq_num c' ≤ n') →
         ∃ rows rows', read_main target (LatestSeq n) = Ok rows ∧ read_fork source (LatestSeq n') = Ok rows' ∧ rows ≡ₚ rows') ∧
      (∀ s, ¬ sees s now (commit_tx_log_seq_num (bs_tx (w_real w))) → open_tx_uuid s ≠ Some merge_tx → in_i64 (plan_as_of_micros s) →
         ∃ rows rows', read_main target s = Ok rows ∧ read_main (w_real w) s = Ok rows' ∧ rows ≡ₚ rows').
Proof.
  cbv zeta. set (F := ct_commit_seq_num c). case_decide as Hex.
  { apply Exists_exists in Hex as (c' & Hc' & Hlt). unfold merge_branch, ensure_fast_forward. destruct (head _) eqn:Eh; [done|].
    apply head_None in Eh. assert (c' ∈ @nil commit_row) as []%not_elem_of_nil. rewrite <- Eh. by apply list_elem_of_filter. }
  assert (∀ c', c' ∈ tx_commit_log (bs_tx (w_real w)) → ct_commit_seq_num c' ≤ F) as Hff.
  { intros c' Hc'. destruct (Z.le_gt_cases (ct_commit_seq_num c') F); [done|]. destruct Hex. apply Exists_exists. eauto. }
  destruct (pair_facts note_of E value index_key Henv Hn HF _ _ _ Hp) as (w0 & t0 & fork_now & copy & m0 & m & [Hfl Hfk Hclk Hseq Hmic Hok Hlog Hj HsU HsD]).
  destruct Hj as [[gone Hi] _ _ _ _]. cbn [fst] in *. pose proof Hok as [[_ Hwf _ [_ HuU _ _] _ _ _ _ _ _] _ _ _ Hcm]. cbn in Hwf, HuU.
  destruct (merge_returns E value index_key gen Hgen source Hwf HuU) with (w := w) (gone := gone) (F := F) (now := now) (tx := merge_tx)
    as (st & s & s' & d & d' & Hm & Htx & HU & HD & Hmeta); [|done..|].
  { intros c' _ [(u & -> & Hu)%list_elem_of_fmap|(u & -> & Hu)%list_elem_of_fmap]%elem_of_app; by apply Hlog. }
  pose proof (merged_coherent E value index_key gen source w gone Hi now merge_tx Hnow Hroom Hfresh s s' d d' st Htx HU HD Hmeta) as Hco.
  pose proof (λ sn Has, read_exact value index_key may_match equality_bindings _ _ _ _ cfg None now' None
    (at_snapshot req sn) Hco Hprune Hbind I Has Hids Hseek) as Hread.
  exists st. split; [done|]. split.
  - intros n n' Hle Hge Hall.
    destruct (Hread (LatestSeq n) ltac:(cbn; unfold in_i64; i64)) as (rows & H1 & H2 & H3).
    pose proof (fork_read E value index_key w0 t0 copy c m0 m fork_now source t may_match equality_bindings cfg
      (Some ({| parent_branch_uuid := main; fork_commit_seq_num := F; fork_commit_micros := ct_commit_micros c |}, parent_meta)) now' None
      (at_snapshot req (LatestSeq n')) Hfl Hfk Hseq Hclk Hok) as Hfr.
    destruct Hfr as (rows' & H1' & H2' & H3'); [..|done|done| |cbn; unfold in_i64; i64|done|done|].
    + cbn. lia.
    + cbn. by intros ? [= <-].
    + cbn. unfold read_is_below_fork. cbn. apply orb_false_intro; lia.
    + exists rows, rows'. split_and!; [done|done|]. eapply same_rows; [done|done|exact H3|exact H3'|]. intros [r v]. apply and_iff_compat_r.
      by eapply merged_latest; [..|intros c' Hc'; apply (Hcm c' Hc')| | | | |].
  - intros sn Hsee Hop Has. destruct (Hread sn Has) as (rows & H1 & H2 & H3).
    destruct (read_exact value index_key may_match equality_bindings _ _ _ _ cfg None now' None (at_snapshot req sn) (inv_coherent _ _ _ _ _ Hi)
      Hprune Hbind I Has Hids Hseek) as (rows' & H1' & H2' & H3').
    exists rows, rows'. split_and!; [done|done|]. eapply same_rows; [done|done|exact H3|exact H3'|]. intros x. apply and_iff_compat_r.
    by eapply merged_unseen.
Qed.

(** ** A fork of one branch, merged back *)
Module MergeDemo.
Import Demo AuditDemo ForkDemo.

Definition draws (i : nat) : Z := -1 - Z.of_nat i.

(** The branch forked at its head, commit 3. *)
Definition forked_main : joint :=
  ({| w_real := (fork audited None).1.1; w_ideal := w_ideal audited.1; w_now := 40 |}, (fork audited None).1.2).
Definition child : branch_state Z := match (fork audited None).2 with Returns (_, st) => st | _ => empty_branch end.

(** Row 2 rewritten, row 4 written, row 3 deleted on the fork. *)
Definition fork_ops : list (Z * op Z) :=
  [(50, OpWrite 201 None (Demo.put 2 222)); (55, OpWrite 202 None (Demo.put 4 400)); (57, OpWrite 203 None (Demo.del 3))].
Definition forked : branch_state Z := child_run child fork_ops.
Definition fork_commit : commit_row := CommitRow 104 35 3.

Definition read_forked (st : branch_state Z) (s : ReadSnapshot) : result ReadError (list (Z * Z)) := read_child st s (watermark_of fork_commit).

Definition merge (source target : branch_state Z) (now : Z) : result ApiError (branch_state Z * Z) :=
  merge_branch draws source target 3 now 301.

Definition merged_read (r : result ApiError (branch_state Z * Z)) (s : ReadSnapshot) : option (result ReadError (list (Z * Z))) :=
  match r with Ok (st, _) => Some (Demo.read st s) | Err _ => None end.

Lemma merge_reads_source_witness :
  merged_read (merge forked (w_real forked_main.1) 60) (LatestSeq 4) = Some (Ok [(2, 222); (4, 400)]) ∧
  merged_read (merge forked (w_real forked_main.1) 60) (AsOfMicros 59) = Some (Ok [(3, 300); (2, 200)]) ∧
  ∃ target rows rows', merge forked (w_real forked_main.1) 60 = Ok (target, 60) ∧
    Demo.read target (LatestSeq 4) = Ok rows ∧ read_forked forked (LatestSeq 7) = Ok rows' ∧ rows ≡ₚ rows'.
Proof.
  split; [vm_compute; reflexivity|]. split; [vm_compute; reflexivity|].
  assert (∃ t, forked_pair author Demo.the_env fork_commit forked_main (forked, t)) as [t Hp].
  { destruct (child_run_steps fork_ops child 41) as [t Hsteps]; [vm_compute; reflexivity|]. exists t.
    eapply (ForkedPair author Demo.the_env fork_commit audited.1 audited.2 40 7 None runs runs 200 41 42); [..|apply rtc_refl|exact Hsteps].
    - rewrite <- surjective_pairing. apply jrun_reachable. vm_compute. reflexivity.
    - vm_compute. intuition congruence.
    - split_and!; [apply list_elem_of_lookup_2 with 3%nat; vm_compute; reflexivity|done|].
      intros c' Hin _. revert c' Hin. apply Forall_forall. vm_compute. repeat constructor; congruence.
    - intros _. apply Demo.scheduledb_ok. vm_compute. reflexivity.
    - done.
    - vm_compute. reflexivity. }
  rewrite (surjective_pairing forked_main) in Hp.
  assert (∀ i, draws i ∉ (lr_version_uuid <$> ts_upserts (bs_table (w_real forked_main.1))) ++ (lr_version_uuid <$> ts_deletes (bs_table (w_real forked_main.1)))) as Hdraw.
  { intros i Hin. assert (Forall (λ v, 0 < v) ((lr_version_uuid <$> ts_upserts (bs_table (w_real forked_main.1))) ++ (lr_version_uuid <$> ts_deletes (bs_table (w_real forked_main.1))))) as Hpos
      by (vm_compute; repeat constructor). rewrite Forall_forall in Hpos. specialize (Hpos _ Hin). unfold draws in Hpos. lia. }
  assert (fresh_tx (bs_tx (w_real forked_main.1)) 301) as Hfresh.
  { apply (Demo.scheduledb_ok (w_real forked_main.1) 60 (OpWrite 301 None None)). vm_compute. reflexivity. }
  pose proof (merge_reads_source author Demo.the_env Demo.value Demo.index_key Demo.cold_Z_laws Demo.cold_unit_laws Demo.layout_laws Demo.the_env_ok
    ledger_names_laws fork_names_laws fork_commit forked_main.1 forked_main.2 forked t Hp draws ltac:(unfold draws; intros; lia) Hdraw 60 301
    ltac:(done) ltac:(vm_compute; reflexivity) Hfresh (λ _ _, true) (λ _, ∅) ltac:(by intros q g x) ltac:(intros f x _ k vs; by rewrite lookup_empty)
    Demo.cfg 7 100 (ts_meta (bs_table (w_real audited.1))) (Demo.req (LatestSeq 0)) ltac:(done) ltac:(by intros k)) as Hx.
  cbv zeta in Hx. rewrite decide_False in Hx.
  2: { intros (c' & Hc' & Hlt)%Exists_exists. revert Hlt. apply Z.le_ngt. revert c' Hc'. apply Forall_forall. vm_compute. repeat constructor; congruence. }
  destruct Hx as (target & Hm & Hx & _). exists target.
  assert (commit_tx_log_seq_num (bs_tx (w_real forked_main.1)) ≤ 4) as Hn by (vm_compute; congruence).
  assert (∀ c', c' ∈ tx_commit_log (bs_tx forked) → ct_commit_seq_num c' ≤ 7) as Hall
    by (apply Forall_forall; vm_compute; repeat constructor; congruence).
  destruct (Hx 4 7 Hn ltac:(done) Hall) as (rows & rows' & H1 & H2 & H3).
  exists rows, rows'. split_and!; [exact Hm|exact H1|exact H2|exact H3].
Defined.

(** ** What the merge does not see *)

(** The fork persisted, snapshotted and purged. *)
Definition aged : branch_state Z :=
  foldl (λ st (p : Z * op Z), run Demo.the_env st p.1 p.2) forked [(58, OpPersist None); (59, OpSnapshot None); (60, OpPurge)].

(** Main overwrites row 2 past the fork; its life cycle and the GC of its
    transaction log run. *)
Definition overtaken : joint :=
  jrun forked_main [(60, OpWrite 110 None (Demo.put 2 999), runs); (62, OpPersist None, runs); (63, OpSnapshot None, runs); (64, OpPurge, runs)].

Definition collected : branch_state Z :=
  let ts := bs_table (w_real overtaken.1) in
  {| bs_tx := ls_tx (purge_tx_log_locked 100 50
       {| ls_tx := bs_tx (w_real overtaken.1); ls_tx_table := set_map (λ tx : Z, (tx, 7)) (ts_tx_table_log ts);
          ls_purges := [{| pr_table := 7; pr_pu := last_purged_seq (ts_meta ts); pr_pa := None; pr_commit_micros := Some 64 |}];
          ls_cold := overtaken.2 |} 1000);
     bs_table := ts |}.

(** A merge sees the hot logs only.  Once the fork has been persisted,
    snapshotted and purged, its merge succeeds and hands over none of its rows;
    and once the GC of main's transaction log has run, the fast-forward guard
    that refused the merge accepts it, and the merge overwrites a row main
    committed after the fork. *)
Theorem merge_loses_commits :
  (read_forked aged (LatestSeq 7) = Ok [(2, 222); (4, 400)] ∧
   merged_read (merge aged (w_real forked_main.1) 70) (LatestSeq 4) = Some (Ok [(3, 300); (2, 200)])) ∧
  (merge forked (w_real overtaken.1) 1001 = Err InvalidRequest ∧
   Demo.read collected (LatestSeq 4) = Ok [(3, 300); (2, 999)] ∧
   merged_read (merge forked collected 1001) (LatestSeq 5) = Some (Ok [(2, 222); (4, 400)])).
Proof. vm_compute. done. Qed.
End MergeDemo.
