(* ===== verification/AuditFork.v ===== *)
(** * The audit of a fork

    A fork's audit concatenates its own cold arm, which holds the segments copied
    from the parent, and the parent's arm below them.  Neither the arms nor the
    joined ledgers overlap. *)

From S2P Require Import Prelude Watermarks ReadSnapshot Dialect MergeSql IndexSeek Plan IndexSelect Effects TxLog TxLedger TxLedgerInv TxLedgerTheorems TableStore Chunker ReadPath AuditReads ReadLemmas ReadData Tiers System SystemInv AuditSystem.
From stdpp Require Import base numbers list option sets gmap sorting.

Open Scope Z_scope.
Open Scope result_scope.

(** The recorded lower bounds of the segments hold of their rows; the upper ones
    of a copied segment are cut at the fork. *)
Definition lower_bounded {A} (segs : list (segment_meta A)) : Prop :=
  ∀ g x, g ∈ committed sg_commit_micros segs → x ∈ sg_rows g →
    sg_min_tx_commit_micros g ≤ commit_micros x ∧ sg_min_commit_seq_num g ≤ commit_seq_num x.

(** A store of ledger files that holds those of a ledger. *)
Definition holds_files {Note} (files : gmap Z (list (ledger_row Note))) (st : ledger_store Note) : Prop :=
  ∀ u g, committed_ledger st !! u = Some g → files !! tl_object_uri g = lg_files st !! tl_object_uri g.

Section fork.
Context {Note V : Type} (note_of parent_note_of : Z → Note) {N PN : LedgerNaming}.

(** ** Joins *)

Lemma left_join_once {A} include (t : list (ledger_row Note)) (x : src_row A) :
  NoDup (lg_seq <$> t) → ∃ n, left_join include t x = [(x, n)].
Proof.
  intros Hnd. unfold left_join. destruct include; [|by eexists].
  destruct (filter (λ r, lg_seq r = commit_seq_num x) t) as [|r l] eqn:E; [by eexists|].
  assert (r ∈ t ∧ lg_seq r = commit_seq_num x) as [Hr He].
  { assert (r ∈ filter (λ r, lg_seq r = commit_seq_num x) t) as [??]%list_elem_of_filter by (rewrite E; by left). done. }
  rewrite <- He in E. rewrite (filter_key_unique lg_seq t r Hnd Hr) in E. injection E as <-. by eexists.
Qed.

Lemma cold_audit_once {A} (data : list (src_row A)) (t : list (ledger_row Note)) include from to sf st us :
  NoDup (lg_seq <$> t) →
  fst <$> cold_audit_batches data t include from to sf st us ≡ₚ filter (λ x, audit_where from to sf st us x = true) data.
Proof.
  intros Hnd. unfold cold_audit_batches. rewrite merge_sort_Permutation. induction data as [|x data IH]; [done|].
  rewrite bind_cons, filter_app, fmap_app, IH. destruct (left_join_once include t x Hnd) as [n ->].
  destruct (decide (audit_where from to sf st us x = true)).
  - rewrite !filter_cons_True by done. by rewrite filter_nil.
  - rewrite !filter_cons_False by done. by rewrite filter_nil.
Qed.

(** ** Reading two ledgers *)

Definition refs (ceiling : option Z) (l : list (Z * TxLogSegment)) : list TxLogRef :=
  (λ p : Z * TxLogSegment, {| tr_uri := tl_object_uri p.2; tr_max_commit_seq_num := ceiling |}) <$> l.

Definition clipped (ceiling : option Z) (rows : list (ledger_row Note)) : list (ledger_row Note) :=
  clip {| tr_uri := 0; tr_max_commit_seq_num := ceiling |} rows.

Lemma clipped_elem ceiling rows r : r ∈ clipped ceiling rows → r ∈ rows ∧ ∀ c, ceiling = Some c → lg_seq r ≤ c.
Proof.
  unfold clipped, clip. cbn. destruct ceiling as [c|]; [|done]. intros [??]%list_elem_of_filter. split; [done|]. by intros ? [= <-].
Qed.

Lemma clipped_nodup ceiling rows : NoDup (lg_seq <$> rows) → NoDup (lg_seq <$> clipped ceiling rows).
Proof. unfold clipped, clip. cbn. destruct ceiling; [apply NoDup_fmap_filter|done]. Qed.

Lemma concat_clipped ceiling ls : concat (clipped ceiling <$> ls) = clipped ceiling (concat ls).
Proof.
  unfold clipped, clip. cbn. destruct ceiling as [c|]; [|by rewrite list_fmap_id].
  induction ls as [|l ls IH]; [done|]. cbn. by rewrite filter_app, <- IH.
Qed.

Lemma read_refs {Nm : LedgerNaming} (note : Z → Note) ever st files ceiling from to sf st' :
  ledger_ok note ever st → holds_files files st →
  mapM (λ r, clip r <$> files !! tr_uri r) (refs ceiling (selected_segments st from to sf st')) =
    Some (clipped ceiling <$> (rows_of st <$> selected_segments st from to sf st')).
Proof.
  intros Hok Hf. unfold refs.
  assert (∀ p, p ∈ selected_segments st from to sf st' → committed_ledger st !! p.1 = Some p.2) as Hsel by (by intros p [? _]%selected_committed).
  induction (selected_segments st from to sf st') as [|p l IH]; [done|].
  assert (committed_ledger st !! p.1 = Some p.2) as Hp by (apply Hsel; by left).
  destruct (lk_files _ _ _ Hok _ _ Hp) as (rows & Hr & _). pose proof (Hf _ _ Hp) as Hfp. unfold read_ledger_segment in Hr.
  cbn. rewrite Hfp, Hr. cbn. rewrite IH by (intros q Hq; apply Hsel; by right). cbn. unfold rows_of, read_ledger_segment. by rewrite Hr.
Qed.

Lemma mapM_app_Some {B C} (f : B → option C) l1 l2 k1 k2 :
  mapM f l1 = Some k1 → mapM f l2 = Some k2 → mapM f (l1 ++ l2) = Some (k1 ++ k2).
Proof. rewrite !mapM_Some. apply Forall2_app. Qed.

Lemma selected_seq {Nm : LedgerNaming} (note : Z → Note) ever st from to sf st' r :
  ledger_ok note ever st → r ∈ concat (rows_of st <$> selected_segments st from to sf st') →
  ∃ c, c ∈ ever ∧ lg_seq r = ct_commit_seq_num c.
Proof.
  intros Hok (l & (p & -> & [Hp _]%selected_committed)%list_elem_of_fmap & Hr)%elem_of_concat.
  assert (r ∈ concat (rows_of st <$> map_to_list (committed_ledger st))) as Ha.
  { apply elem_of_concat. exists (rows_of st p). split; [|done]. apply list_elem_of_fmap. exists p. split; [done|].
    destruct p. by apply elem_of_map_to_list. }
  rewrite (lk_rows _ _ _ Hok) in Ha. apply list_elem_of_fmap in Ha as (c & -> & [_ Hc]%list_elem_of_filter). by exists c.
Qed.

(** The ledger side of the own arm: the fork's commits lie above the fork, the
    parent's are cut at the ceiling. *)
Lemma own_tx_log (child parent : ledger_store Note) ever pever files fork ceiling (own : bool) from to sf st' pst include :
  ledger_ok (N := N) note_of ever child → ledger_ok (N := PN) parent_note_of pever parent →
  StronglySorted commit_lt ever → StronglySorted commit_lt pever →
  (∀ c, c ∈ ever → fork < ct_commit_seq_num c) → ceiling ≤ fork →
  holds_files files child → holds_files files parent →
  ∃ t, read_tx_log_batches files ((if own then refs None (selected_segments child from to sf st') else []) ++
         refs (Some ceiling) (selected_segments parent from to sf pst)) include = Ok t ∧ NoDup (lg_seq <$> t).
Proof.
  intros Hc Hp Hs Hps Hf Hce Hfc Hfp. unfold read_tx_log_batches. destruct include; [|exists []; split; [done|constructor]].
  set (sel := if own then selected_segments child from to sf st' else []).
  assert (mapM (λ r, clip r <$> files !! tr_uri r) (if own then refs None (selected_segments child from to sf st') else []) =
    Some (clipped None <$> (rows_of child <$> sel))) as H1.
  { unfold sel. destruct own; [|done]. by apply (read_refs (Nm := N) note_of ever). }
  pose proof (read_refs (Nm := PN) parent_note_of pever parent files (Some ceiling) from to sf pst Hp Hfp) as H2.
  rewrite (mapM_app_Some _ _ _ _ _ H1 H2).
  eexists. split; [done|]. rewrite concat_app, !concat_clipped, fmap_app. apply NoDup_app. split_and!.
  - unfold sel. destruct own; [|constructor]. apply (selected_nodup (N := N) note_of ever); [done|by apply commit_seqs_nodup].
  - intros z (r & -> & Hr)%list_elem_of_fmap (r' & He & [Hr' Hle]%clipped_elem)%list_elem_of_fmap.
    assert (r ∈ concat (rows_of child <$> selected_segments child from to sf st')) as Hin.
    { unfold clipped, clip in Hr. cbn in Hr. unfold sel in Hr. destruct own; [done|by apply not_elem_of_nil in Hr]. }
    destruct (selected_seq (Nm := N) note_of ever _ _ _ _ _ _ Hc Hin) as (c & Hce' & Hsq). specialize (Hf c Hce'). specialize (Hle ceiling eq_refl). lia.
  - apply clipped_nodup, (selected_nodup (N := PN) parent_note_of pever); [done|by apply commit_seqs_nodup].
Qed.

Lemma base_tx_log (parent : ledger_store Note) pever files from to sf pst include :
  ledger_ok (N := PN) parent_note_of pever parent → StronglySorted commit_lt pever → holds_files files parent →
  ∃ t, read_tx_log_batches files (refs None (selected_segments parent from to sf pst)) include = Ok t ∧ NoDup (lg_seq <$> t).
Proof.
  intros Hp Hps Hfp. unfold read_tx_log_batches. destruct include; [|exists []; split; [done|constructor]].
  rewrite (read_refs (Nm := PN) parent_note_of pever _ _ None) by done. eexists. split; [done|]. rewrite concat_clipped.
  apply (selected_nodup (N := PN) parent_note_of pever); [done|by apply commit_seqs_nodup].
Qed.

(** An arm whose ledger names each commit once returns each row once. *)
Lemma arm_once {A} (files : gmap Z (list (ledger_row Note))) (segs : list (PersistSegment A)) tx_refs include from to sf st us t :
  read_tx_log_batches files tx_refs include = Ok t → NoDup (lg_seq <$> t) →
  ∃ rows, cold_log_audit_batches files segs tx_refs include from to sf st us = Ok rows ∧
    fst <$> rows ≡ₚ filter (λ x, audit_where from to sf st us x = true) (cold_log segs).
Proof.
  intros Ht Hnd. unfold cold_log_audit_batches. destruct segs as [|g segs]; [by exists []|]. rewrite Ht. cbn [result_bind].
  eexists. split; [done|]. by apply cold_audit_once.
Qed.

(** ** The arms *)

Context (m : table_meta V) (b : audit_base Note V).

Let fork : Z := fork_commit_seq_num (ab_lineage b).

(** The copied segments of a log kind start at the floor or later. *)
Definition floored_segments {A} (segs : list (segment_meta A)) : Prop :=
  ∀ g, g ∈ committed sg_commit_micros segs → sg_min_commit_seq_num g ≤ fork →
    ∃ floor, inherited_own_arm_floor m fork = Some floor ∧ floor ≤ sg_min_tx_commit_micros g.

Lemma copied_floored : floored_segments (tm_upsert_segments m) ∧ floored_segments (tm_delete_segments m).
Proof.
  unfold floored_segments, inherited_own_arm_floor. cbv zeta. set (lU := _ <$> _). set (lD := _ <$> _).
  assert (∀ z, z ∈ lU ++ lD → ∃ floor, zmin_list (lU ++ lD) = Some floor ∧ floor ≤ z) as H.
  { intros z Hz. destruct (zmin_list (lU ++ lD)) as [fl|] eqn:E; [|apply zmin_list_None in E; rewrite E in Hz; by apply not_elem_of_nil in Hz].
    exists fl. split; [done|]. apply zmin_list_Some in E as [_ E]. by apply E. }
  split; intros g Hg Hle; apply H, elem_of_app; [left|right]; apply (list_elem_of_fmap_2 sg_min_tx_commit_micros), list_elem_of_filter; done.
Qed.

(** A row of the own arm was committed after the fork, or not before the floor. *)
Lemma own_row_place {A} (segs : list (segment_meta A)) lo hi x :
  lower_bounded segs → floored_segments segs → x ∈ cold_log (read_and_classify_persist_segments segs lo hi None) →
  fork < commit_seq_num x ∨ ∃ floor, inherited_own_arm_floor m fork = Some floor ∧ floor ≤ commit_micros x.
Proof.
  intros Hb Hfl. unfold cold_log, read_and_classify_persist_segments.
  intros (p & Hx & (g & -> & [_ Hg]%list_elem_of_filter)%list_elem_of_fmap)%list_elem_of_bind.
  rewrite merge_sort_Permutation in Hg. apply list_elem_of_filter in Hg as [_ Hg].
  assert (x ∈ sg_rows g) as Hxg by (unfold apply_segment_seq_ceiling in Hx; cbn in Hx; by apply list_elem_of_filter in Hx as [_ ?]).
  destruct (Hb g x Hg Hxg) as [Hm Hq]. destruct (decide (sg_min_commit_seq_num g ≤ fork)) as [Hle|]; [right|left; lia].
  destruct (Hfl g Hg Hle) as (fl & ? & ?). exists fl. split; [done|lia].
Qed.

(** ** The plan *)

Context (ledger : ledger_store Note) (now : Z) (duration : option Z) (request : AuditDataRequest) (p : AuditPlan V).
Context (Hplan : plan_audit m ledger (Some b) now duration request = Ok p).
Context (Hfork : 0 ≤ fork < I64_MAX).

Definition own_window : bool := negb (hot_min_of m =? 0).

Lemma plan_fork_shape :
  (∃ lo hi, (ap_cold_upsert_segments p = [] ∨ ap_cold_upsert_segments p = read_and_classify_persist_segments (tm_upsert_segments m) lo hi None) ∧
            (ap_cold_delete_segments p = [] ∨ ap_cold_delete_segments p = read_and_classify_persist_segments (tm_delete_segments m) lo hi None)) ∧
  (∀ floor, inherited_own_arm_floor m fork = Some floor → ∃ to, ap_base_cold_to p = Some to ∧ to ≤ floor) ∧
  (∃ to ceiling, ap_base_seq_to p = Some to ∧ to ≤ fork + 1 ∧ ceiling ≤ fork ∧
     (ap_include_tx_metadata p = true →
      ap_base_tx_log_segments p = refs None (selected_segments (ab_ledger b) (ap_cold_from p) (ap_cold_to p) (ap_seq_from p) (Some to)) ∧
      ap_tx_log_segments p =
        (if own_window then refs None (selected_segments ledger (ap_cold_from p) (ap_cold_to p) (ap_seq_from p) (ap_seq_to p)) else []) ++
        refs (Some ceiling) (selected_segments (ab_ledger b) (ap_cold_from p) (ap_cold_to p) (ap_seq_from p) (Some to)))).
Proof using Hplan Hfork.
  revert Hplan. unfold plan_audit, own_window. fold fork. destruct (audit_committed_axes _) as [mw sw].
  destruct (timestamp_bounds mw) as [uf ut], (timestamp_bounds sw) as [sf st].
  destruct (enforce_floor _ _ uf sf) as [[uf' sf']|]; [|done]. cbn [result_bind]. unfold read_persist_segments_for_window.
  set (cap := match ut with Some _ => _ | None => _ end).
  assert (base_audit_seq_cap st fork ≤ fork + 1) as Hcap by (unfold base_audit_seq_cap; destruct st; i64).
  assert (sat_sub (base_audit_seq_cap st fork) 1 ≤ fork) as Hceil by i64.
  destruct (hot_min_of m =? 0); cbn; intros [= <-]; cbn; (split; [|split]).
  - exists None, None. split; by left.
  - intros fl ->. by eexists.
  - eexists _, _. split_and!; [done|done|exact Hceil|]. intros ->. unfold refs, tx_log_persist_segments, selected_segments. split; [done|]. by rewrite <- list_fmap_compose.
  - eexists _, _. split; by right.
  - intros fl ->. eexists. split; [done|]. lia.
  - eexists _, _. split_and!; [done|done|exact Hceil|]. intros ->. unfold refs, tx_log_persist_segments, selected_segments. split; [done|]. by rewrite <- list_fmap_compose.
Qed.

(** [rows] is an own arm, a base arm and the hot rows: each arm returns the rows
    its segments show in the window, each once, and no version is in both. *)
Definition arms_once {A} (own_segs base_segs : list (PersistSegment A)) (rows : list (audit_row Note A)) : Prop :=
  ∃ own base hot, rows = own ++ base ++ hot ∧
    fst <$> own ≡ₚ filter (λ x, audit_where (ap_cold_from p) (ap_cold_to p) (ap_seq_from p) (ap_seq_to p) (ap_row_uuids p) x = true)
                     (cold_log own_segs) ∧
    fst <$> base ≡ₚ filter (λ x, audit_where (ap_cold_from p) (ap_base_cold_to p) (ap_seq_from p) (ap_base_seq_to p) (ap_row_uuids p) x = true)
                      (cold_log base_segs) ∧
    ∀ x y, x ∈ own → y ∈ base → (commit_micros x.1, commit_seq_num x.1) ≠ (commit_micros y.1, commit_seq_num y.1).

Lemma log_once {A} (segs : list (segment_meta A)) own_segs base_segs lo hi files own_refs base_refs ot bt (hot : list (audit_row Note A)) :
  lower_bounded segs → floored_segments segs →
  own_segs = [] ∨ own_segs = read_and_classify_persist_segments segs lo hi None →
  read_tx_log_batches files own_refs (ap_include_tx_metadata p) = Ok ot → NoDup (lg_seq <$> ot) →
  read_tx_log_batches files base_refs (ap_include_tx_metadata p) = Ok bt → NoDup (lg_seq <$> bt) →
  ∃ own base, 
    cold_log_audit_batches files own_segs own_refs (ap_include_tx_metadata p) (ap_cold_from p) (ap_cold_to p) (ap_seq_from p) (ap_seq_to p) (ap_row_uuids p) = Ok own ∧
    cold_log_audit_batches files base_segs base_refs (ap_include_tx_metadata p) (ap_cold_from p) (ap_base_cold_to p) (ap_seq_from p) (ap_base_seq_to p) (ap_row_uuids p) = Ok base ∧
    arms_once own_segs base_segs (own ++ base ++ hot).
Proof using Hplan Hfork.
  intros Hb Hfl Hs Ho Hno Hbt Hnb. destruct plan_fork_shape as (_ & Hto & (to & _ & Hseq & Hle & _ & _)).
  edestruct (arm_once files own_segs own_refs) as (own & Hown & Hpo); [exact Ho|exact Hno|].
  edestruct (arm_once files base_segs base_refs) as (base & Hbase & Hpb); [exact Hbt|exact Hnb|].
  exists own, base. split; [exact Hown|]. split; [exact Hbase|]. exists own, base, hot. split; [done|]. split; [exact Hpo|]. split; [exact Hpb|].
  intros x y Hx Hy [= Hm Hq].
  assert (x.1 ∈ cold_log own_segs) as Hx1 by (apply (list_elem_of_fmap_2 fst) in Hx; rewrite Hpo in Hx; by apply list_elem_of_filter in Hx as [_ ?]).
  apply (list_elem_of_fmap_2 fst) in Hy. rewrite Hpb in Hy. apply list_elem_of_filter in Hy as [(_ & Hbm & _ & Hbs & _)%audit_where_true _].
  rewrite below_true in Hbm, Hbs. specialize (Hbs to Hseq).
  destruct Hs as [->| ->]; [by apply not_elem_of_nil in Hx1|].
  destruct (own_row_place segs _ _ _ Hb Hfl Hx1) as [?|(fl & Hf & ?)]; [lia|].
  destruct (Hto fl Hf) as (t & Ht & ?). specialize (Hbm t Ht). lia.
Qed.

End fork.

(** A fork's audit reports no version twice.  Over a fork whose segments record
    honest lower bounds, copied ones cut at the fork included, the own arm and the
    parent's arm share no version, and the join with the two ledgers, the parent's
    read through files that may straddle the fork, returns every row of an arm
    exactly once. *)
Theorem fork_audit_once {Note V} (note_of parent_note_of : Z → Note) {N PN : LedgerNaming}
    (m : table_meta V) (b : audit_base Note V) (ledger : ledger_store Note) (ever pever : list commit_row)
    (files : gmap Z (list (ledger_row Note))) (now : Z) (duration : option Z) (request : AuditDataRequest) (p : AuditPlan V)
    (Hplan : plan_audit m ledger (Some b) now duration request = Ok p)
    (Hfork : 0 ≤ fork_commit_seq_num (ab_lineage b) < I64_MAX)
    (HbU : lower_bounded (tm_upsert_segments m)) (HbD : lower_bounded (tm_delete_segments m))
    (Hown : ledger_ok (N := N) note_of ever ledger) (Hs : StronglySorted commit_lt ever)
    (Habove : ∀ c, c ∈ ever → fork_commit_seq_num (ab_lineage b) < ct_commit_seq_num c)
    (Hparent : ledger_ok (N := PN) parent_note_of pever (ab_ledger b)) (Hps : StronglySorted commit_lt pever)
    (Hf : holds_files files ledger) (Hpf : holds_files files (ab_ledger b))
    (pk_rank : Z → Z) (upserts : list (log_row V)) (deletes : list (log_row unit)) (clog : list commit_row) :
  (∃ us, audit_upserts note_of files p upserts clog = Ok us ∧
     arms_once p (ap_cold_upsert_segments p) (ap_base_cold_upsert_segments p) us) ∧
  (∃ ds, audit_deletes note_of pk_rank files p deletes clog = Ok ds ∧
     arms_once p (ap_cold_delete_segments p) (ap_base_cold_delete_segments p) ds).
Proof.
  destruct (plan_fork_shape m b ledger now duration request p Hplan Hfork) as ((lo & hi & HsU & HsD) & _ & (to & ceiling & _ & _ & Hce & Hrefs)).
  destruct (copied_floored m b) as [HfU HfD].
  assert (∃ ot bt, read_tx_log_batches files (ap_tx_log_segments p) (ap_include_tx_metadata p) = Ok ot ∧ NoDup (lg_seq <$> ot) ∧
    read_tx_log_batches files (ap_base_tx_log_segments p) (ap_include_tx_metadata p) = Ok bt ∧ NoDup (lg_seq <$> bt)) as (ot & bt & Ho & Hno & Hb & Hnb).
  { destruct (ap_include_tx_metadata p) eqn:Ei; [|exists [], []; by split_and!; try constructor]. destruct (Hrefs eq_refl) as [-> ->].
    edestruct (own_tx_log (N := N) (PN := PN) note_of parent_note_of ledger (ab_ledger b) ever pever files) as (ot & ? & ?); [done..|].
    edestruct (base_tx_log (PN := PN) parent_note_of (ab_ledger b) pever files) as (bt & ? & ?); [done..|]. by exists ot, bt. }
  unfold audit_upserts, audit_deletes, audit_log. split.
  - edestruct (log_once m b ledger now duration request p Hplan Hfork (tm_upsert_segments m)) as (own & base & -> & -> & Ha); [done..|]. cbn. by eexists.
  - edestruct (log_once m b ledger now duration request p Hplan Hfork (tm_delete_segments m)) as (own & base & -> & -> & Ha); [done..|]. cbn. by eexists.
Qed.

(** ** A fork at the second of four commits

    The parent's second segment straddles the fork and is copied; its first is
    covered by the inherited snapshot and is not.  The fork has persisted one
    commit of its own, under a sequence number the parent also used. *)
Module ForkAuditDemo.

#[local] Instance names : LedgerNaming := {| tx_log_persist_segment_uuid := λ z, z; tx_log_persist_segment_uri := λ z, z |}.
#[local] Instance parent_names : LedgerNaming := {| tx_log_persist_segment_uuid := λ z, z; tx_log_persist_segment_uri := λ z, z + 100 |}.

Definition author (tx : Z) : Z := tx * 10.

Definition ledger_segment (min_seq max_seq min_micros max_micros uri : Z) (n : nat) : TxLogSegment :=
  {| tl_min_commit_seq_num := min_seq; tl_max_commit_seq_num := max_seq; tl_min_commit_micros := min_micros;
     tl_max_commit_micros := max_micros; tl_object_uri := uri; tl_row_count := n; tl_committed_at_micros := Some 1 |}.

Definition ledger_of (g : TxLogSegment) (commits : list commit_row) : ledger_store Z :=
  {| lg_segments := {[tl_max_commit_seq_num g := g]}; lg_files := {[tl_object_uri g := ledger_row_of author <$> commits]} |}.

Lemma ledger_of_ok {Nm : LedgerNaming} g commits :
  tl_max_commit_seq_num g = tx_log_persist_segment_uuid (tl_max_commit_seq_num g) →
  tl_object_uri g = tx_log_persist_segment_uri (tl_max_commit_seq_num g) → tl_committed_at_micros g = Some 1 →
  (∀ c, c ∈ commits → row_bounded g (ledger_row_of author c)) → tl_min_commit_micros g ∈ ct_commit_micros <$> commits → ledger_ok author commits (ledger_of g commits).
Proof.
  intros Hu Huri Hc Hb Ht.
  assert (committed_ledger (ledger_of g commits) = {[tl_max_commit_seq_num g := g]}) as Hcl.
  { unfold committed_ledger. cbn. apply map_filter_singleton_True. cbn. by rewrite Hc. }
  split.
  - intros u g' Hg. cbn in Hg. apply lookup_singleton_Some in Hg as [<- <-]. by split.
  - intros u g'. rewrite Hcl. intros [<- <-]%lookup_singleton_Some. exists (ledger_row_of author <$> commits).
    split; [unfold read_ledger_segment; cbn; by rewrite lookup_singleton_eq|]. intros r (c & -> & ?)%list_elem_of_fmap. by apply Hb.
  - unfold ledger_mark, tx_log_persist_watermark. rewrite Hcl, map_to_list_singleton. cbn. rewrite app_nil_r.
    unfold rows_of, read_ledger_segment. cbn. rewrite lookup_singleton_eq. cbn.
    assert (filter (λ c, ct_commit_seq_num c ≤ tl_max_commit_seq_num g) commits = commits) as ->; [|done]. clear -Hb.
    induction commits as [|c l IH]; [done|]. rewrite filter_cons_True by (apply (Hb c); by left). f_equal. apply IH. intros c' ?. apply Hb. by right.
  - intros u g' rows. rewrite Hcl. intros [<- <-]%lookup_singleton_Some. unfold read_ledger_segment. cbn. rewrite lookup_singleton_eq.
    intros [= <-]. apply list_elem_of_fmap in Ht as (c & Hcm & Hin). exists (ledger_row_of author c). split; [by apply list_elem_of_fmap_2|done].
  - intros u g' v h. rewrite Hcl. intros [<- _]%lookup_singleton_Some [<- _]%lookup_singleton_Some. by left.
Qed.

Definition parent_commits : list commit_row := [CommitRow 100 10 0; CommitRow 101 20 1; CommitRow 102 30 2; CommitRow 103 40 3].
Definition child_commits : list commit_row := [CommitRow 200 50 2].

Definition parent_ledger : ledger_store Z := ledger_of (ledger_segment 0 3 10 40 103 4) parent_commits.
Definition child_ledger : ledger_store Z := ledger_of (ledger_segment 2 2 50 50 2 1) child_commits.

Definition segment (u min_micros max_micros min_seq max_seq : Z) (rows : list (src_row Z)) : segment_meta Z :=
  {| sg_uuid := u; sg_table_persist_uuid := 1; sg_chunk_idx := 0; sg_min_tx_commit_micros := min_micros; sg_max_tx_commit_micros := max_micros;
     sg_min_commit_seq_num := min_seq; sg_max_commit_seq_num := max_seq; sg_rows := rows; sg_commit_micros := Some 1 |}.

Definition meta (at_micros : Z) (segs : list (segment_meta Z)) : table_meta Z :=
  {| tm_persists := [{| ph_uuid := 1; ph_log_kind := CoreTypes.UpsertLog; ph_persisted_at_micros := at_micros; ph_commit_micros := Some 1 |}];
     tm_upsert_segments := segs; tm_delete_segments := []; tm_snapshots := []; tm_purges := [] |}.

Definition straddling : list (src_row Z) := [SrcRow 2 22 20 1 1; SrcRow 3 33 30 2 2].

Definition parent_meta : table_meta Z := meta 30 [segment 11 10 10 0 0 [SrcRow 1 11 10 0 0]; segment 12 20 30 1 2 straddling].
Definition child_meta : table_meta Z := meta 50 [segment 22 20 30 1 1 straddling; segment 23 50 50 2 2 [SrcRow 4 44 50 0 2]].

Definition base : audit_base Z Z :=
  {| ab_lineage := {| parent_branch_uuid := 1; fork_commit_seq_num := 1; fork_commit_micros := 20 |};
     ab_meta := parent_meta; ab_ledger := parent_ledger |}.

Definition files : gmap Z (list (ledger_row Z)) := lg_files child_ledger ∪ lg_files parent_ledger.

Definition request : AuditDataRequest := {| ar_committed := None; ar_row_uuids := None; ar_include_tx_metadata := true |}.

Definition the_plan : result ApiError (AuditPlan Z) := plan_audit child_meta child_ledger (Some base) 100 None request.

Lemma bounded_check (segs : list (segment_meta Z)) :
  Forall (λ g, Forall (λ x, sg_min_tx_commit_micros g ≤ commit_micros x ∧ sg_min_commit_seq_num g ≤ commit_seq_num x) (sg_rows g)) segs →
  lower_bounded segs.
Proof. rewrite Forall_forall. intros H g x [_ Hg]%list_elem_of_filter Hx. specialize (H g Hg). rewrite Forall_forall in H. by apply H. Qed.

Lemma files_check g commits fs : fs !! tl_object_uri g = Some (ledger_row_of author <$> commits) → holds_files fs (ledger_of g commits).
Proof.
  intros Hfs u g' Hg. apply committed_ledger_Some in Hg as [Hg _]. cbn in Hg. apply lookup_singleton_Some in Hg as [<- <-].
  cbn. by rewrite Hfs, lookup_singleton_eq.
Qed.

Lemma fork_audit_once_witness :
  ∃ p us, the_plan = Ok p ∧ audit_upserts author files p [] [] = Ok us ∧
    us = [(SrcRow 2 22 20 1 1, Some (Some 1010)); (SrcRow 4 44 50 0 2, Some (Some 2000)); (SrcRow 1 11 10 0 0, Some (Some 1000))] ∧
    arms_once p (ap_cold_upsert_segments p) (ap_base_cold_upsert_segments p) us.
Proof.
  assert (∃ p, the_plan = Ok p) as [p Hp] by (eexists; vm_compute; reflexivity).
  destruct (fork_audit_once (N := names) (PN := parent_names) author author child_meta base child_ledger child_commits parent_commits files
    100 None request p Hp) with (pk_rank := λ r : Z, r) (upserts := @nil (log_row Z)) (deletes := @nil (log_row unit)) (clog := @nil commit_row)
    as [(us & Hus & Ha) _].
  - cbn. unfold I64_MAX. lia.
  - apply bounded_check. vm_compute. repeat constructor; discriminate.
  - intros g x [_ Hg]%list_elem_of_filter. by apply not_elem_of_nil in Hg.
  - apply ledger_of_ok; [done|done|done| |by left]. intros c ->%list_elem_of_singleton. split; cbn; lia.
  - repeat constructor.
  - intros c ->%list_elem_of_singleton. cbn. lia.
  - apply ledger_of_ok; [done|done|done| |by left]. intros c Hc. repeat (apply elem_of_cons in Hc as [->|Hc]; [split; cbn; lia|]). by apply not_elem_of_nil in Hc.
  - repeat constructor.
  - apply files_check. vm_compute. reflexivity.
  - apply files_check. vm_compute. reflexivity.
  - exists p, us. split; [exact Hp|]. split; [exact Hus|]. split; [|exact Ha].
    revert Hp Hus. vm_compute. intros [= <-]. vm_compute. by intros [= <-].
Defined.

End ForkAuditDemo.
