(* ===== verification/WriteTheorems.v ===== *)
(** * A committed write replaces what it names *)

From S2P Require Import Prelude CoreTypes Watermarks ReadSnapshot Dialect MergeSql IndexSeek Plan SnapshotScan IndexSelect TxLog TableStore Chunker ReadPath Lifecycle ReadLemmas ReadData Tiers ReadCorrect System SystemInv SystemPersist SystemSnapshot SystemTheorems.
From stdpp Require Import base numbers list option sets gmap sorting.

Open Scope Z_scope.

(** ** The rows of one change *)

Section change.
Context {V : Type} (version_uuid : Z → Z → Z)
  (version_inj : ∀ r tx r' tx', version_uuid r tx = version_uuid r' tx' → r = r' ∧ tx = tx').

(** What a change by a transaction new to the table adds to its logs: every
    tombstone is written before every upsert. *)
Record change_rows (ti ti' : table_store V) (ch : Change V) (tx sq : Z) : Prop := {
  cr_nodup : NoDup (fst <$> ch_upserts ch);
  cr_upserts : ∀ u, u ∈ ts_upserts ti' ↔ u ∈ ts_upserts ti ∨
    ∃ i x, ch_upserts ch !! i = Some x ∧ u = LogRow (version_uuid x.1 tx) x.1 tx (sq + Z.of_nat i) x.2;
  cr_deletes_old : ∀ d, d ∈ ts_deletes ti → d ∈ ts_deletes ti';
  cr_deletes : ∀ d, d ∈ ts_deletes ti' → d ∈ ts_deletes ti ∨
    lr_tx_uuid d = tx ∧ lr_row_uuid d ∈ ch_deletes ch ∧ lr_write_seq_num d < sq;
  cr_deletes_new : ∀ r, r ∈ ch_deletes ch → ∃ d, d ∈ ts_deletes ti' ∧ lr_tx_uuid d = tx ∧ lr_row_uuid d = r;
}.

Lemma apply_change_rows (ti ti' : table_store V) ch tx :
  versions_ok version_uuid (ts_upserts ti) → versions_ok version_uuid (ts_deletes ti) →
  (∀ u, u ∈ ts_upserts ti → lr_tx_uuid u ≠ tx) → (∀ u, u ∈ ts_deletes ti → lr_tx_uuid u ≠ tx) →
  apply_change version_uuid ti ch tx = Ok ti' → ∃ sq, change_rows ti ti' ch tx sq.
Proof using version_inj.
  intros HvU HvD HnU HnD. unfold apply_change. case_decide as He.
  { destruct He as [Hu Hd]. intros [= <-]. exists 0. split; rewrite ?Hu, ?Hd; [constructor| |auto|auto|].
    - intros u. split; [by left|]. intros [?|(i & x & Hx & _)]; done.
    - by intros r ?%not_elem_of_nil. }
  destruct (insert_deletes_new version_uuid version_inj tx (ch_deletes ch) (ts_deletes ti) (ts_write_sequence ti) HvD)
    as (H1 & H2 & H3 & H4 & H5); [intros u Hu Htx; by destruct (HnD u Hu)|].
  destruct (insert_deletes _ tx _ (ts_deletes ti) _) as [D' sq]. cbn [fst snd] in *.
  case_decide as Hnd; [|done]. rewrite (insert_upserts_new version_uuid version_inj) by (done || (intros u Hu Htx; by destruct (HnU u Hu))).
  intros [= <-]. exists sq. split; simpl; [done| |done| |done].
  - intros u. rewrite elem_of_app, elem_of_lookup_imap. naive_solver.
  - intros d Hd. destruct (H3 d Hd) as [?|[Htx Hr]]; [by left|right]. split_and!; [done|done|by apply H4].
Qed.
End change.

(** ** The history after an auto-committed change *)

Section written.
Context {V : Type} (version_uuid : Z → Z → Z).
Context (ti ti' : table_store V) (ch : Change V) (sq : Z) (clog : list commit_row) (c : commit_row).
Context (Hrows : change_rows version_uuid ti ti' ch (ct_tx_uuid c) sq).
Context (HnU : ∀ u, u ∈ ts_upserts ti → lr_tx_uuid u ≠ ct_tx_uuid c)
        (HnD : ∀ u, u ∈ ts_deletes ti → lr_tx_uuid u ≠ ct_tx_uuid c)
        (Hclog : ∀ c', c' ∈ clog → commit_lt c' c ∧ ct_tx_uuid c' ≠ ct_tx_uuid c).

Definition oldU := hot_source None (ts_upserts ti) clog.
Definition oldD := hot_source None (ts_deletes ti) clog.
Definition addU := (λ u, stamped u c) <$> filter (λ u, lr_tx_uuid u = ct_tx_uuid c) (ts_upserts ti').
Definition addD := (λ u, stamped u c) <$> filter (λ u, lr_tx_uuid u = ct_tx_uuid c) (ts_deletes ti').

Lemma added {A} (log log' : list (log_row A)) :
  (∀ u, lr_tx_uuid u ≠ ct_tx_uuid c → u ∈ log' ↔ u ∈ log) →
  same_elems (((λ u, stamped u c) <$> filter (λ u, lr_tx_uuid u = ct_tx_uuid c) log') ++ hot_source None log clog)
    (hot_source None log' (clog ++ [c])).
Proof using Hclog.
  intros Hlog x. rewrite (source_grow log log' clog c (ct_tx_uuid c)); [|done|intros c' Hc'; by apply Hclog|done].
  rewrite elem_of_app, list_elem_of_fmap. setoid_rewrite list_elem_of_filter. split.
  - intros [(u & -> & ? & ?)|?]; [right; eauto|by left].
  - intros [?|(u & ? & ? & ->)]; [by right|left; eauto].
Qed.

Lemma addedU : same_elems (addU ++ oldU) (hot_source None (ts_upserts ti') (clog ++ [c])).
Proof using Hclog Hrows.
  apply added. intros u Hu. rewrite (cr_upserts _ _ _ _ _ _ Hrows). split; [|by left].
  intros [?|(i & x & _ & ->)]; done.
Qed.

Lemma addedD : same_elems (addD ++ oldD) (hot_source None (ts_deletes ti') (clog ++ [c])).
Proof using Hclog Hrows.
  apply added. intros u Hu. split; [|apply (cr_deletes_old _ _ _ _ _ _ Hrows)].
  intros [?|(? & _)]%(cr_deletes _ _ _ _ _ _ Hrows); done.
Qed.

Lemma addU_elem x : x ∈ addU ↔ ∃ i y, ch_upserts ch !! i = Some y ∧
  x = SrcRow y.1 y.2 (ct_commit_micros c) (sq + Z.of_nat i) (ct_commit_seq_num c).
Proof using Hrows HnU.
  unfold addU. rewrite list_elem_of_fmap. setoid_rewrite list_elem_of_filter.
  setoid_rewrite (cr_upserts _ _ _ _ _ _ Hrows). split.
  - intros (u & -> & Htx & [Hu|(i & y & Hy & ->)]); [by destruct (HnU u Hu)|]. eauto.
  - intros (i & y & Hy & ->). eexists. split; [|split; [|right; eauto]]; done.
Qed.

Lemma addD_elem x : x ∈ addD → row_uuid x ∈ ch_deletes ch ∧ write_seq_num x < sq ∧ commit_seq_num x = ct_commit_seq_num c.
Proof using Hrows HnD.
  intros (u & -> & [Htx [Hu|(_ & ? & ?)]%(cr_deletes _ _ _ _ _ _ Hrows)]%list_elem_of_filter)%list_elem_of_fmap;
    [by destruct (HnD u Hu)|done].
Qed.

Lemma add_touched r : touched addU addD r ↔ r ∈ fst <$> ch_upserts ch ∨ r ∈ ch_deletes ch.
Proof using Hrows HnU HnD.
  unfold touched. setoid_rewrite addU_elem. split.
  - intros [(u & (i & y & Hy & ->) & <-)|(d & Hd & <-)]; [left|right; by apply addD_elem].
    apply list_elem_of_fmap. exists y. split; [done|by eapply list_elem_of_lookup_2].
  - intros [(y & -> & (i & Hy)%list_elem_of_lookup)%list_elem_of_fmap|Hr]; [left; eexists; split; eauto; done|right].
    destruct (cr_deletes_new _ _ _ _ _ _ Hrows r Hr) as (d & Hd & Htx & <-). exists (stamped d c).
    split; [|done]. unfold addD. apply list_elem_of_fmap. exists d. split; [done|]. by apply list_elem_of_filter.
Qed.

Lemma add_live r v : (∃ u, live addU addD u ∧ row_uuid u = r ∧ cols u = v) ↔ (r, v) ∈ ch_upserts ch.
Proof using Hrows HnU HnD.
  split.
  - intros (u & [(i & y & Hy & ->)%addU_elem _] & <- & <-). destruct y. by eapply list_elem_of_lookup_2.
  - intros (i & Hi)%list_elem_of_lookup.
    exists (SrcRow r v (ct_commit_micros c) (sq + Z.of_nat i) (ct_commit_seq_num c)). split; [|done].
    split; [apply addU_elem; by exists i, (r, v)|]. split.
    + intros u' (j & y & Hj & ->)%addU_elem Heq. simpl in Heq. right. simpl. split; [done|].
      assert (j = i) as ->; [|lia]. eapply NoDup_lookup; [apply (cr_nodup _ _ _ _ _ _ Hrows)| |];
        rewrite list_lookup_fmap; [by rewrite Hj|rewrite Hi; simpl; congruence].
    + intros d (_ & Hlt & Hsq)%addD_elem _. right. simpl. split; [done|lia].
Qed.

Lemma add_above : tier_above addU addD oldU oldD.
Proof using Hrows HnU HnD Hclog.
  intros r m1 s1 m2 s2 H1 H2.
  assert (m1 = ct_commit_micros c ∧ s1 = ct_commit_seq_num c) as [-> ->].
  { apply elem_of_app in H1 as [(x & Hx & (u & -> & _)%list_elem_of_fmap)%list_elem_of_fmap
                               |(x & Hx & (u & -> & _)%list_elem_of_fmap)%list_elem_of_fmap];
      unfold stamp in Hx; by simplify_eq. }
  assert (∃ c', c' ∈ clog ∧ m2 = ct_commit_micros c' ∧ s2 = ct_commit_seq_num c') as (c' & Hc' & -> & ->).
  { apply elem_of_app in H2 as [(x & Hx & (c' & Hc' & ? & ?)%source_commit)%list_elem_of_fmap
                               |(x & Hx & (c' & Hc' & ? & ?)%source_commit)%list_elem_of_fmap];
      unfold stamp in Hx; simplify_eq; exists c'; split_and!; congruence. }
  destruct (Hclog c' Hc') as [[? ?] _]. lia.
Qed.
End written.

(** ** Latest reads *)

Definition scan {V} (s : ReadSnapshot) : ReadDataRequest V :=
  {| rd_snapshot := s; rd_row_uuids := None; rd_filter := None; rd_index_seek := None |}.

Lemma scan_requested {V} (value : Z → Z * V → cell) s x : requested value (scan s) x.
Proof. split_and!; done. Qed.

Lemma latest_table {V} (st : branch_state V) (h : hot_db V) r v :
  tx_wf (bs_tx st) →
  table_at (LatestSeq (branch_seq_frontier (bs_tx st))) (historyU st) (historyD st) h (r, v) ↔
  ∃ u, live (historyU st) (historyD st) u ∧ row_uuid u = r ∧ cols u = v.
Proof.
  intros Hwf. unfold table_at. simpl.
  assert (∀ A (log hl : list (log_row A)), same_elems
    (visible (LatestSeq (branch_seq_frontier (bs_tx st))) (hot_source None log (tx_commit_log (bs_tx st))) hl)
    (hot_source None log (tx_commit_log (bs_tx st)))) as Hv.
  { intros A log hl x. unfold visible, own_writes. simpl. rewrite app_nil_r, list_elem_of_filter. split; [by intros [_ ?]|].
    intros Hx. split; [|done]. destruct (source_commit _ _ _ Hx) as (c & Hc & _ & <-).
    pose proof (wf_commits_range _ Hwf c Hc). unfold branch_seq_frontier, seq_frontier_from_counter. simpl. lia. }
  unfold historyU, historyD. setoid_rewrite (Hv V). by setoid_rewrite (Hv unit).
Qed.

Section visible_write.
Context {V : Type} `{CV : ColdBatch V, CU : ColdBatch unit, L : SnapshotLayout V}.
Context (E : env V) (value : Z → Z * V → cell) (index_key : Z → Z * V → list cell).
Context (Henv : env_ok E value index_key).

Lemma log_fresh {A} l gone (real ideal : list (log_row A)) tx :
  log_ok E l gone real ideal → fresh_tx l tx → ∀ u, u ∈ ideal → lr_tx_uuid u ≠ tx.
Proof using.
  intros [_ _ _ Ht] (Hb & Hc & _) u Hu Heq. destruct (Ht u Hu) as [[b Hb']|(c & Hin & Htx)]; [congruence|].
  apply (Hc c Hin). congruence.
Qed.

(** The tables after the write, in terms of the tables before it. *)
Lemma write_live w gone now fresh ch st out r v :
  Inv E value index_key w gone → tick w now → fresh_tx (bs_tx (w_real w)) fresh →
  write_data (e_version_uuid E) (w_ideal w) now fresh None (Some ch) = Ok (st, out) →
  (∃ u, live (historyU st) (historyD st) u ∧ row_uuid u = r ∧ cols u = v) ↔
  (r, v) ∈ ch_upserts ch ∨
  (∃ u, live (historyU (w_ideal w)) (historyD (w_ideal w)) u ∧ row_uuid u = r ∧ cols u = v) ∧
  r ∉ fst <$> ch_upserts ch ∧ r ∉ ch_deletes ch.
Proof using Henv.
  intros Hi Htick Hfr Hw. pose proof (inv_clock _ _ _ _ _ _ Hi Htick) as [_ Hclk].
  pose proof Hi as [Htx Hwf _ HU HD _ _ _ _ _]. destruct Henv as [Hver _ _ _].
  assert (keys_unique OrderCommitSeqNum (historyU st)) as Hkeys.
  { pose proof (inv_write E value index_key Hver w gone now fresh None (Some ch) Hi Htick (λ _, Hfr)) as [Htx' Hwf' _ [_ Hu _ _] _ _ _ _ _ _].
    simpl in Htx', Hu, Hwf'. rewrite Hw in Htx', Hu. rewrite <- Htx' in Hwf'. by apply keys_history. }
  assert (keys_unique OrderCommitSeqNum (historyU (w_ideal w))) as Hkeys0
    by (apply keys_history; [by rewrite Htx|apply HU]).
  revert Hw Hkeys Hkeys0. unfold write_data, resolve_or_auto_commit_tx. rewrite Htx.
  destruct (auto_commit_tx _ now fresh) as [[l' c]|] eqn:Ec; [|done]. cbn [result_bind].
  destruct (apply_change _ (bs_table (w_ideal w)) ch fresh) as [ti'|] eqn:Ea; [|done]. cbn [result_bind].
  intros [= <- _] Hkeys Hkeys0.
  apply commit_insert_Ok in Ec as (Hc & -> & _ & Hnew).
  pose proof (log_fresh _ _ _ _ _ HU Hfr) as HnU. pose proof (log_fresh _ _ _ _ _ HD Hfr) as HnD.
  destruct (apply_change_rows _ Hver _ _ _ _ (lo_versions _ _ _ _ _ HU) (lo_versions _ _ _ _ _ HD) HnU HnD Ea) as [sq Hrows].
  assert (fresh = ct_tx_uuid c) as Hf by by rewrite Hc. rewrite Hf in Hrows, HnU, HnD.
  assert (∀ c', c' ∈ tx_commit_log (bs_tx (w_real w)) → commit_lt c' c ∧ ct_tx_uuid c' ≠ ct_tx_uuid c) as Hclog.
  { intros c' Hc'. destruct (Hnew c' Hc') as [H1 H2]. rewrite <- Hf. split; [|done]. rewrite Hc.
    pose proof (wf_commits_range _ Hwf c' Hc'). specialize (Hclk c' Hc'). split; simpl; lia. }
  unfold historyU, historyD in *. cbn [bs_tx bs_table tx_commit_log] in *. rewrite Htx in *.
  pose proof (addedU _ _ _ _ _ _ _ Hrows Hclog) as HaU. pose proof (addedD _ _ _ _ _ _ _ Hrows Hclog) as HaD.
  setoid_rewrite <- HaU. setoid_rewrite <- HaD.
  set (U0 := oldU (bs_table (w_ideal w)) _) in *. set (D0 := oldD (bs_table (w_ideal w)) _) in *.
  pose proof (two_arm_ok OrderCommitSeqNum U0 D0 (DL := PgDialect_laws)) as Hres.
  rewrite (overlay_live _ _ U0 D0 (deliver None (two_arm_resolve_select (build_composite_merge_resolution U0 D0 OrderCommitSeqNum))) r v).
  - rewrite (add_live _ _ _ _ _ _ Hrows HnU HnD), (deliver_elem None U0 D0 _ r v Hkeys0 Hres).
    rewrite (add_touched _ _ _ _ _ _ Hrows HnU HnD). simpl. unfold U0, D0, oldU, oldD. clear. tauto.
  - intros x y Hx%HaU Hy%HaU. by apply Hkeys.
  - apply tier_above_dominates. by eapply add_above.
  - intros r' v'. rewrite (deliver_elem None U0 D0 _ r' v' Hkeys0 Hres). simpl. clear. tauto.
Qed.

Lemma write_ideal w gone now fresh ch st out :
  Inv E value index_key w gone → tick w now → fresh_tx (bs_tx (w_real w)) fresh →
  write_data (e_version_uuid E) (w_real w) now fresh None (Some ch) = Ok (st, out) →
  ∃ sti out', write_data (e_version_uuid E) (w_ideal w) now fresh None (Some ch) = Ok (sti, out') ∧
    bs_tx sti = bs_tx st.
Proof using Henv.
  intros Hi Htick Hfr. pose proof Hi as [Htx _ _ HU HD Hseq _ Hgone _ _]. destruct Henv as [Hver _ _ _].
  assert (fresh ∉ gone) as Hng.
  { intros Hin. apply (fresh_not_gone _ _ _ _ Hfr (Hgone fresh Hin)). }
  unfold write_data, resolve_or_auto_commit_tx. rewrite Htx.
  destruct (auto_commit_tx _ now fresh) as [[l' c]|]; [|done]. cbn [result_bind].
  pose proof (apply_change_wrote E Hver _ gone _ _ ch fresh HU HD Hseq Hng) as Hap.
  destruct (apply_change _ (bs_table (w_real w)) ch fresh), (apply_change _ (bs_table (w_ideal w)) ch fresh); try done.
  intros [= <- _]. by eexists _, _.
Qed.
End visible_write.

(** The latest read of a state. *)
Definition latest {V} (value : Z → Z * V → cell) (may_match : (Z * V → bool) → SnapshotSegment V → bool)
    (equality_bindings : (Z * V → bool) → gmap Z (list Z)) (cfg : QueryConfig) (now : Z) (st : branch_state V) :=
  read_data value may_match equality_bindings cfg (ts_meta (bs_table st)) (hot_view st) None now None
    (scan (LatestSeq (branch_seq_frontier (bs_tx st)))).

Lemma write_rows {V} `{CV : ColdBatch V, CU : ColdBatch unit, L : SnapshotLayout V}
    (E : env V) (value : Z → Z * V → cell) (index_key : Z → Z * V → list cell)
    (Henv : env_ok E value index_key) (w : world V) (gone : list Z) (Hi : Inv E value index_key w gone)
    (may_match : (Z * V → bool) → SnapshotSegment V → bool)
    (equality_bindings : (Z * V → bool) → gmap Z (list Z))
    (Hprune : prune_sound may_match) (Hbind : bindings_sound value equality_bindings)
    (cfg : QueryConfig) (now fresh : Z) (ch : Change V) (st : branch_state V) (out : option Z)
    (Htick : tick w now) (Hfresh : fresh_tx (bs_tx (w_real w)) fresh)
    (Hw : write_data (e_version_uuid E) (w_real w) now fresh None (Some ch) = Ok (st, out)) :
  ∃ rows rows', latest value may_match equality_bindings cfg now (w_real w) = Ok rows ∧
    latest value may_match equality_bindings cfg now st = Ok rows' ∧
    NoDup (fst <$> rows) ∧ NoDup (fst <$> rows') ∧
    ∀ r v, (r, v) ∈ rows' ↔ (r, v) ∈ ch_upserts ch ∨
      ((r, v) ∈ rows ∧ r ∉ fst <$> ch_upserts ch ∧ r ∉ ch_deletes ch).
Proof.
  destruct (write_ideal E value index_key Henv w gone now fresh ch st out Hi Htick Hfresh Hw) as (sti & out' & Hwi & Htxi).
  pose proof (inv_write E value index_key (eo_version _ _ _ Henv) w gone now fresh None (Some ch) Hi Htick (λ _, Hfresh)) as Hi'.
  simpl in Hi'. rewrite Hw, Hwi in Hi'.
  assert (∀ n, in_i64 (plan_as_of_micros (rd_snapshot (scan (V := V) (LatestSeq n))))) as Hin by (intros n; simpl; i64).
  destruct (read_exact value index_key may_match equality_bindings _ _ _ _ cfg None now None
    (scan (LatestSeq (branch_seq_frontier (bs_tx (w_real w))))) (inv_coherent _ _ _ _ _ Hi) Hprune Hbind I (Hin _)
    ltac:(done) ltac:(by intros k)) as (rows & H1 & Hnd0 & Hel).
  destruct (read_exact value index_key may_match equality_bindings _ _ _ _ cfg None now None
    (scan (LatestSeq (branch_seq_frontier (bs_tx st)))) (inv_coherent _ _ _ _ _ Hi') Hprune Hbind I (Hin _)
    ltac:(done) ltac:(by intros k)) as (rows' & H2 & Hnd & Hel').
  exists rows, rows'. split_and!; [exact H1|exact H2|done|done|]. intros r v. rewrite Hel, Hel'. simpl rd_snapshot.
  pose proof (iv_tx _ _ _ _ _ Hi) as Htx. pose proof (iv_tx _ _ _ _ _ Hi') as Htx'. simpl in Htx'.
  rewrite <- Htx, <- Htx'. cbn [w_ideal].
  rewrite !latest_table by (by rewrite ?Htx', ?Htx; apply (iv_wf _ _ _ _ _ Hi) || apply (iv_wf _ _ _ _ _ Hi')).
  rewrite (write_live E value index_key Henv w gone now fresh ch sti out' r v Hi Htick Hfresh Hwi).
  pose proof (scan_requested (V := V) value). naive_solver.
Qed.

(** C5 A committed write replaces what it names.  In every reachable state, after
    an auto-committing write of upserts and deletes that succeeds, the latest
    read returns exactly the upserted rows with their new columns and the rows
    of the latest read before the write that the change neither upserts nor
    deletes; an identity both deleted and upserted is upserted. *)
Theorem write_visible {V} `{CV : ColdBatch V, CU : ColdBatch unit, L : SnapshotLayout V}
    (E : env V) (value : Z → Z * V → cell) (index_key : Z → Z * V → list cell)
    (HCV : ColdBatchLaws CV) (HCU : ColdBatchLaws CU) (HL : SnapshotLayoutLaws L value index_key)
    (Henv : env_ok E value index_key) (w : world V) (Hr : rtc (wstep E) start w)
    (may_match : (Z * V → bool) → SnapshotSegment V → bool)
    (equality_bindings : (Z * V → bool) → gmap Z (list Z))
    (Hprune : prune_sound may_match) (Hbind : bindings_sound value equality_bindings)
    (cfg : QueryConfig) (now fresh : Z) (ch : Change V) (st : branch_state V) (out : option Z)
    (Htick : tick w now) (Hfresh : fresh_tx (bs_tx (w_real w)) fresh)
    (Hw : write_data (e_version_uuid E) (w_real w) now fresh None (Some ch) = Ok (st, out)) :
  let latest (st : branch_state V) :=
    read_data value may_match equality_bindings cfg (ts_meta (bs_table st)) (hot_view st) None now None
      (scan (LatestSeq (branch_seq_frontier (bs_tx st)))) in
  ∃ rows rows', latest (w_real w) = Ok rows ∧ latest st = Ok rows' ∧ NoDup (fst <$> rows') ∧
    ∀ r v, (r, v) ∈ rows' ↔ (r, v) ∈ ch_upserts ch ∨
      ((r, v) ∈ rows ∧ r ∉ fst <$> ch_upserts ch ∧ r ∉ ch_deletes ch).
Proof.
  cbv zeta. destruct (inv_reachable E value index_key Henv w Hr) as [gone Hi].
  destruct (write_rows E value index_key Henv w gone Hi may_match equality_bindings Hprune Hbind cfg now fresh ch st out Htick Hfresh Hw)
    as (rows & rows' & H1 & H2 & _ & Hnd & Hel). by exists rows, rows'.
Qed.

Lemma write_visible_witness :
  let w := Demo.run_ops start Demo.history in
  let ch := {| ch_upserts := [(1, 111); (3, 333)]; ch_deletes := [2; 3] |} in
  ∃ st out rows', write_data (e_version_uuid Demo.the_env) (w_real w) 50 106 None (Some ch) = Ok (st, out) ∧
    Demo.read st (LatestSeq 4) = Ok rows' ∧ rows' = [(1, 111); (3, 333)] ∧
    ((1, 111) ∈ rows' ↔ (1, 111) ∈ ch_upserts ch ∨
      ((1, 111) ∈ [(3, 300); (2, 200)] ∧ 1 ∉ fst <$> ch_upserts ch ∧ 1 ∉ ch_deletes ch)).
Proof.
  cbv zeta.
  destruct (write_data (e_version_uuid Demo.the_env) (w_real (Demo.run_ops start Demo.history)) 50 106 None
    (Some {| ch_upserts := [(1, 111); (3, 333)]; ch_deletes := [2; 3] |})) as [[st out]|e] eqn:Hw; [|by vm_compute in Hw].
  destruct (write_visible Demo.the_env Demo.value Demo.index_key Demo.cold_Z_laws Demo.cold_unit_laws Demo.layout_laws
    Demo.the_env_ok (Demo.run_ops start Demo.history)
    ltac:(apply Demo.run_ops_reachable; vm_compute; reflexivity) (λ _ _, true) (λ _, ∅) ltac:(by intros p g x)
    ltac:(intros f x _ c vs; by rewrite lookup_empty) Demo.cfg 50 106 _ st out
    ltac:(vm_compute; intuition congruence)
    ltac:(apply (Demo.scheduledb_ok _ 50 (OpWrite 106 None None)); vm_compute; reflexivity) Hw)
    as (rows & rows' & H1 & H2 & _ & H4).
  assert (rows = [(3, 300); (2, 200)]) as -> by (vm_compute in H1; by injection H1 as <-).
  specialize (H4 1 111). exists st, out, rows'. split_and!; [done| | |exact H4].
  - clear -Hw H2. vm_compute in Hw. injection Hw as <- _. exact H2.
  - clear -Hw H2. vm_compute in Hw. injection Hw as <- _. vm_compute in H2. by injection H2 as <-.
Defined.
