(* ===== verification/Catalog.v ===== *)
(** * The catalog of a branch (penca-api/src/write/mod.rs, query/meta_resolve.rs,
      scope.rs, resolve.rs, penca-storage-meta/src/{schema,table,index}.rs)

    Schemas, tables and indexes are rows of three system tables of the branch,
    [__penca_system__.{schemas,tables,indexes}], which are tables like any other:
    the DDL handlers append to their logs under the branch's transaction log, and
    a lookup is a merge read of them.  Names, descriptions and uuids are integers;
    the catalog and the branch of a request are resolved already, and the Arrow
    IPC bytes of a schema are the schema, or nothing when they do not parse. *)

From S2P Require Import Prelude CoreTypes Naming Watermarks ReadSnapshot Dialect MergeSql IndexSeek Plan SnapshotScan IndexSelect TxLog TableStore BatchUtil SeekBatch ReadPath ReadData.
From stdpp Require Import base numbers list option strings gmap sets.

Open Scope Z_scope.
Open Scope result_scope.

(** ** Rows *)

Record RetentionConfig := { rc_duration_seconds : option Z; rc_density_seconds : option Z }.

Record Schema := {
  sc_uuid : Z;
  sc_name : Z;
  sc_description : Z;
  sc_retention : option RetentionConfig;
}.

Record Table := {
  tab_uuid : Z;
  tab_schema_uuid : Z;
  tab_name : Z;
  tab_arrow_schema : option schema;
  tab_partition_keys : list Z;
  tab_clustering_keys : list Z;
  tab_primary_keys : list Z;
  tab_description : Z;
  tab_retention : option RetentionConfig;
}.

Record Index := {
  ix_uuid : Z;
  ix_table_uuid : Z;
  ix_name : Z;
  ix_columns : list Z;
  ix_type : Z;
}.

Inductive sys_table := SysSchemas | SysTables | SysIndexes.
#[export] Instance sys_table_eq_dec : EqDecision sys_table.
Proof. solve_decision. Defined.

Inductive sys_row := SchemaRow (s : Schema) | TableRow (t : Table) | IndexRow (i : Index).

Definition as_schema (r : sys_row) : option Schema := match r with SchemaRow s => Some s | _ => None end.
Definition as_table (r : sys_row) : option Table := match r with TableRow t => Some t | _ => None end.
Definition as_index (r : sys_row) : option Index := match r with IndexRow i => Some i | _ => None end.

(** The two columns of a row; both absent reads back as no configuration. *)
Definition retention_config_from_record_batch (duration density : option Z) : option RetentionConfig :=
  match duration, density with
  | None, None => None
  | _, _ => Some {| rc_duration_seconds := duration; rc_density_seconds := density |}
  end.

Definition retention_duration_seconds (rc : option RetentionConfig) : option Z := rc ≫= rc_duration_seconds.
Definition snapshot_density_seconds (rc : option RetentionConfig) : option Z := rc ≫= rc_density_seconds.

Definition stored_retention (rc : option RetentionConfig) : option RetentionConfig :=
  retention_config_from_record_batch (retention_duration_seconds rc) (snapshot_density_seconds rc).

Definition PUBLIC_SCHEMA_NAME : string := "public".

Definition column_id (name : string) : Z := Zpos (encode name).

(** The text columns a selection looks at. *)
Definition sys_value (c : Z) (x : Z * sys_row) : cell :=
  let pick := list_find (λ p : string * Z, column_id p.1 = c) in
  (λ p, p.2.2) <$> pick match x.2 with
    | SchemaRow s => [("schema_uuid", sc_uuid s); ("schema_name", sc_name s)]
    | TableRow t => [("table_uuid", tab_uuid t); ("table_name", tab_name t); ("schema_uuid", tab_schema_uuid t)]
    | IndexRow i => [("index_uuid", ix_uuid i); ("table_uuid", ix_table_uuid i); ("index_name", ix_name i)]
    end.

(** ** The system tables *)

Definition col (name : string) (dt : DataType) : field := {| field_name := column_id name; field_type := dt |}.

Definition system_schemas_arrow_schema : schema :=
  [col "schema_uuid" DtUtf8; col "schema_name" DtUtf8; col "description" DtUtf8;
   col "retention_duration_seconds" DtInt64; col "snapshot_density_seconds" DtInt64].

Definition system_tables_arrow_schema : schema :=
  [col "table_uuid" DtUtf8; col "table_name" DtUtf8; col "schema_uuid" DtUtf8;
   col "arrow_schema" DtBinary; col "partition_keys" (DtList "item" DtUtf8 true);
   col "clustering_keys" (DtList "item" DtUtf8 true); col "primary_keys" (DtList "item" DtUtf8 true);
   col "description" DtUtf8; col "retention_duration_seconds" DtInt64;
   col "snapshot_density_seconds" DtInt64].

Definition system_indexes_arrow_schema : schema :=
  [col "index_uuid" DtUtf8; col "table_uuid" DtUtf8; col "index_name" DtUtf8;
   col "columns" (DtList "item" DtUtf8 true); col "index_type" DtInt32].

Definition system_arrow_schema (k : sys_table) : schema :=
  match k with SysSchemas => system_schemas_arrow_schema | SysTables => system_tables_arrow_schema | SysIndexes => system_indexes_arrow_schema end.

Definition system_primary_keys (k : sys_table) : list Z :=
  [column_id match k with SysSchemas => "schema_uuid" | SysTables => "table_uuid" | SysIndexes => "index_uuid" end].

(** ** The branch *)

(** [cat_data]: the user columns of a table's upsert log and of its delete log. *)
Record catalog_state := {
  cat_tx : tx_logs;
  cat_schemas : table_store sys_row;
  cat_tables : table_store sys_row;
  cat_indexes : table_store sys_row;
  cat_data : gmap Z (schema * schema);
}.

Definition store (c : catalog_state) (k : sys_table) : table_store sys_row :=
  match k with SysSchemas => cat_schemas c | SysTables => cat_tables c | SysIndexes => cat_indexes c end.

Definition set_store (c : catalog_state) (k : sys_table) (ts : table_store sys_row) : catalog_state :=
  {| cat_tx := cat_tx c;
     cat_schemas := if decide (k = SysSchemas) then ts else cat_schemas c;
     cat_tables := if decide (k = SysTables) then ts else cat_tables c;
     cat_indexes := if decide (k = SysIndexes) then ts else cat_indexes c;
     cat_data := cat_data c |}.

Definition set_tx (c : catalog_state) (l : tx_logs) : catalog_state :=
  {| cat_tx := l; cat_schemas := cat_schemas c; cat_tables := cat_tables c; cat_indexes := cat_indexes c; cat_data := cat_data c |}.

Definition set_data (c : catalog_state) (d : gmap Z (schema * schema)) : catalog_state :=
  {| cat_tx := cat_tx c; cat_schemas := cat_schemas c; cat_tables := cat_tables c; cat_indexes := cat_indexes c; cat_data := d |}.

(** A system table beside the branch's transaction logs. *)
Definition sys_view (c : catalog_state) (k : sys_table) : branch_state sys_row := {| bs_tx := cat_tx c; bs_table := store c k |}.

Section catalog.
Context {H : ContentHash} (catalog_uuid : Z).

Definition sys_table_uuid (k : sys_table) : Z :=
  match k with
  | SysSchemas => system_schemas_table_uuid catalog_uuid
  | SysTables => system_tables_table_uuid catalog_uuid
  | SysIndexes => system_indexes_table_uuid catalog_uuid
  end.

Definition sys_row_uuid (k : sys_table) (uuid : Z) : Z := row_uuid_for_pk (sys_table_uuid k) [uuid_to_string uuid].

(** What a sidecar of the built-in name index holds of a row. *)
Definition sys_index_key (u : Z) (x : Z * sys_row) : list cell :=
  match list_find (λ k, system_name_index_uuid (sys_table_uuid k) = u) [SysSchemas; SysTables; SysIndexes] with
  | Some (_, k) =>
      match system_name_index_spec catalog_uuid (sys_table_uuid k) with
      | Some (_, names) => (λ n, sys_value (column_id n) x) <$> names
      | None => []
      end
  | None => []
  end.

(** ** Selections *)

Inductive SystemSelection :=
  | Scan (filter : option (Z * sys_row → bool))
  | IdentitySeek (row_uuids : list Z) (filter : option (Z * sys_row → bool))
  | NameSeek (tuples : list (list Z))
  | PrefixSeek (table_uuids : list Z).

Record ResolvedSystemSeek := { sk_seek : SeekSpec; sk_residual : Z * sys_row → bool }.

Definition name_seek_residual (key_columns : list Z) (tuples : list (list Z)) (x : Z * sys_row) : bool :=
  existsb (λ tuple, forallb (λ cv, bool_decide (sys_value cv.1 x = Some cv.2)) (zip key_columns tuple)) tuples.

Definition table_uuid_in_filter (table_uuids : list Z) (x : Z * sys_row) : bool :=
  existsb (λ u, bool_decide (sys_value (column_id "table_uuid") x = Some u)) table_uuids.

Definition resolve_name_seek (table_uuid : Z) (tuples : list (list Z)) : result ApiError ResolvedSystemSeek :=
  match system_name_index_spec catalog_uuid table_uuid with
  | None => Err DbProtocol
  | Some (index_uuid, names) =>
      if decide (tuples = []) then Err DbProtocol
      else if forallb (λ tuple, bool_decide (length tuple = length names)) tuples then
        let key_columns := column_id <$> names in
        Ok {| sk_seek := {| ss_index_uuid := Some index_uuid; ss_key_columns := key_columns; ss_tuples := tuples |};
              sk_residual := name_seek_residual key_columns tuples |}
      else Err DbProtocol
  end.

Definition resolve_prefix_seek (table_uuid : Z) (table_uuids : list Z) : result ApiError ResolvedSystemSeek :=
  match system_name_index_spec catalog_uuid table_uuid with
  | None => Err DbProtocol
  | Some (index_uuid, names) =>
      if decide (head names = Some "table_uuid") then
        if decide (table_uuids = []) then Err DbProtocol
        else
          Ok {| sk_seek := {| ss_index_uuid := Some index_uuid; ss_key_columns := column_id <$> names;
                              ss_tuples := (λ u, [u]) <$> table_uuids |};
                sk_residual := table_uuid_in_filter table_uuids |}
      else Err DbProtocol
  end.

(** [l.schema_uuid = '<scope>'] *)
Definition schema_scoped_filter (schema_uuid : option Z) : option (Z * sys_row → bool) :=
  (λ scope x, bool_decide (sys_value (column_id "schema_uuid") x = Some scope)) <$> schema_uuid.

Context (may_match : (Z * sys_row → bool) → SnapshotSegment sys_row → bool).

Definition sys_columns (k : sys_table) : list Z := field_name <$> system_arrow_schema k.

(** The seek entry, the residual filter and whether the entry is the whole answer. *)
Definition resolve_selection (k : sys_table) (selection : SystemSelection) :
    result ApiError (option SeekSpec * option (Z * sys_row → bool) * bool) :=
  match selection with
  | Scan f => Ok (None, f, false)
  | IdentitySeek row_uuids f => Ok (Some (identity_spec row_uuids), f, negb (filter_present f))
  | NameSeek tuples =>
      let? r := resolve_name_seek (sys_table_uuid k) tuples in Ok (Some (sk_seek r), Some (sk_residual r), true)
  | PrefixSeek table_uuids =>
      let? r := resolve_prefix_seek (sys_table_uuid k) table_uuids in Ok (Some (sk_seek r), Some (sk_residual r), true)
  end.

Definition read_system_table (st : branch_state sys_row) (k : sys_table) (selection : SystemSelection) (s : ReadSnapshot) :
    result ApiError (list sys_row) :=
  let? '(seek, f, exact) := resolve_selection k selection in
  let p := plan (ts_meta (bs_table st)) (hot_view st) None (plan_as_of_micros s) (plan_commit_seq_upper s) in
  match stream_cold_read may_match
          {| rq_plan := p; rq_db := hot_view st; rq_schema := sys_columns k; rq_snapshot := s; rq_filter := f;
             rq_seeks := (λ e, [e]) <$> seek;
             rq_tuning := {| snapshot_prune_min_segments := 2; segment_order_of := ByCompletion |} |} exact with
  | Ok rows => Ok (snd <$> rows)
  | Err _ => Err DbProtocol
  end.

(** ** Lookups *)

Definition resolve_schema_metadata (c : catalog_state) (schema_uuids schema_names : option (list Z)) (s : ReadSnapshot) :
    result ApiError (list sys_row) :=
  let selection := match schema_names, schema_uuids with
    | Some names, _ => NameSeek ((λ n, [n]) <$> names)
    | None, Some uuids => IdentitySeek (sys_row_uuid SysSchemas <$> uuids) None
    | None, None => Scan None
    end in
  read_system_table (sys_view c SysSchemas) SysSchemas selection s.

Definition resolve_table_metadata (c : catalog_state) (schema_uuid : option Z) (table_uuids table_names : option (list Z))
    (s : ReadSnapshot) : result ApiError (list sys_row) :=
  let? selection := match table_names, table_uuids with
    | Some names, _ =>
        match schema_uuid with
        | None => Err DbProtocol
        | Some scope => Ok (NameSeek ((λ n, [scope; n]) <$> names))
        end
    | None, Some uuids => Ok (IdentitySeek (sys_row_uuid SysTables <$> uuids) (schema_scoped_filter schema_uuid))
    | None, None => Ok (Scan (schema_scoped_filter schema_uuid))
    end in
  read_system_table (sys_view c SysTables) SysTables selection s.

(** The residual filter is the owning table of [resolve_table_indexes]. *)
Definition resolve_index_metadata (c : catalog_state) (owner : option Z) (index_uuids : option (list Z))
    (index_names : option (Z * list Z)) (table_uuid_prefixes : option (list Z)) (s : ReadSnapshot) : result ApiError (list sys_row) :=
  let f := (λ t, table_uuid_in_filter [t]) <$> owner in
  let? selection := match index_names, table_uuid_prefixes, index_uuids with
    | Some (table_uuid, names), _, _ =>
        if filter_present f then Err DbProtocol else Ok (NameSeek ((λ n, [table_uuid; n]) <$> names))
    | None, Some prefixes, _ => if filter_present f then Err DbProtocol else Ok (PrefixSeek prefixes)
    | None, None, Some uuids => Ok (IdentitySeek (sys_row_uuid SysIndexes <$> uuids) f)
    | None, None, None => Ok (Scan f)
    end in
  read_system_table (sys_view c SysIndexes) SysIndexes selection s.

Definition first_row {X} (f : sys_row → option X) (rows : list sys_row) : option X := head (omap f rows).

Definition meta_get_schema (c : catalog_state) (schema_uuid schema_name : option Z) (s : ReadSnapshot) : result ApiError (option Schema) :=
  match schema_uuid, schema_name with
  | Some u, _ => let? rows := resolve_schema_metadata c (Some [u]) None s in Ok (first_row as_schema rows)
  | None, Some n => let? rows := resolve_schema_metadata c None (Some [n]) s in Ok (first_row as_schema rows)
  | None, None => Ok None
  end.

Definition resolve_table_indexes (c : catalog_state) (table_uuid : Z) (s : ReadSnapshot) : result ApiError (list Index) :=
  let? rows := resolve_index_metadata c (Some table_uuid) None None None s in Ok (omap as_index rows).

(** A table comes with the indexes defined on it. *)
Definition with_indexes (c : catalog_state) (s : ReadSnapshot) (t : option Table) : result ApiError (option (Table * list Index)) :=
  match t with
  | None => Ok None
  | Some t => let? ixs := resolve_table_indexes c (tab_uuid t) s in Ok (Some (t, ixs))
  end.

Definition meta_get_table (c : catalog_state) (schema_uuid : Z) (table_uuid table_name : option Z) (s : ReadSnapshot) :
    result ApiError (option (Table * list Index)) :=
  match table_uuid, table_name with
  | Some u, _ =>
      let? rows := resolve_table_metadata c (Some schema_uuid) (Some [u]) None s in with_indexes c s (first_row as_table rows)
  | None, Some n =>
      let? rows := resolve_table_metadata c (Some schema_uuid) None (Some [n]) s in with_indexes c s (first_row as_table rows)
  | None, None => Ok None
  end.

Definition get_table_by_uuid (c : catalog_state) (table_uuid : Z) (s : ReadSnapshot) : result ApiError (option (Table * list Index)) :=
  let? rows := resolve_table_metadata c None (Some [table_uuid]) None s in with_indexes c s (first_row as_table rows).

Definition demux_indexes_by_table (rows : list sys_row) : gmap Z (list Index) :=
  foldl (λ m i, <[ix_table_uuid i := default [] (m !! ix_table_uuid i) ++ [i]]> m) ∅ (omap as_index rows).

Definition meta_list_tables (c : catalog_state) (schema_uuid : Z) (s : ReadSnapshot) : result ApiError (list (Table * list Index)) :=
  let? rows := resolve_table_metadata c (Some schema_uuid) None None s in
  let tables := omap as_table rows in
  let? by_table := if decide (tables = []) then Ok ∅
                   else let? index_rows := resolve_index_metadata c None None None (Some (tab_uuid <$> tables)) s in
                        Ok (demux_indexes_by_table index_rows) in
  Ok ((λ t, (t, default [] (by_table !! tab_uuid t))) <$> tables).

Definition meta_get_index (c : catalog_state) (table_uuid : Z) (index_uuid index_name : option Z) (s : ReadSnapshot) :
    result ApiError (option Index) :=
  match index_uuid, index_name with
  | Some u, _ => let? rows := resolve_index_metadata c None (Some [u]) None None s in Ok (first_row as_index rows)
  | None, Some n => let? rows := resolve_index_metadata c None None (Some (table_uuid, [n])) None s in Ok (first_row as_index rows)
  | None, None => Ok None
  end.

Definition found {X} (r : result ApiError (option X)) : result ApiError X :=
  let? o := r in match o with Some x => Ok x | None => Err NotFound end.

(** ** Scopes *)

(** What a request names something by; the uuid wins. *)
Record Ident := { id_uuid : option Z; id_name : option Z }.

Record ResolvedScope := {
  rs_schema_uuid : option Z;
  rs_schema_row : option Schema;
  rs_table_row : option (Table * list Index);
  rs_snapshot : ReadSnapshot;
}.

Definition resolve_schema (c : catalog_state) (i : Ident) (s : ReadSnapshot) : result ApiError Schema :=
  match id_uuid i, id_name i with
  | Some u, _ => found (meta_get_schema c (Some u) None s)
  | None, Some n => found (meta_get_schema c None (Some n) s)
  | None, None => Err InvalidRequest
  end.

Definition resolve_schema_scope (c : catalog_state) (now : Z) (tx : option Z) (i : Ident) : result ApiError ResolvedScope :=
  let? s := resolve_read_snapshot (cat_tx c) now tx None None None in
  if decide (is_Some (id_uuid i) ∨ is_Some (id_name i)) then
    let? sch := resolve_schema c i s in
    Ok {| rs_schema_uuid := Some (sc_uuid sch); rs_schema_row := Some sch; rs_table_row := None; rs_snapshot := s |}
  else Ok {| rs_schema_uuid := None; rs_schema_row := None; rs_table_row := None; rs_snapshot := s |}.

Definition resolve_table_scope (c : catalog_state) (now : Z) (tx : option Z) (si ti : Ident) : result ApiError ResolvedScope :=
  let? s := resolve_read_snapshot (cat_tx c) now tx None None None in
  match id_uuid ti with
  | Some u =>
      let? t := found (get_table_by_uuid c u s) in
      Ok {| rs_schema_uuid := Some (tab_schema_uuid t.1); rs_schema_row := None; rs_table_row := Some t; rs_snapshot := s |}
  | None =>
      let? sch := resolve_schema c si s in
      match id_name ti with
      | None => Err InvalidRequest
      | Some n =>
          let? t := found (meta_get_table c (sc_uuid sch) None (Some n) s) in
          Ok {| rs_schema_uuid := Some (sc_uuid sch); rs_schema_row := Some sch; rs_table_row := Some t; rs_snapshot := s |}
      end
  end.

Definition assert_not_system_schema (schema_uuid : Z) : result ApiError unit :=
  if decide (schema_uuid = system_schema_uuid catalog_uuid) then Err InvalidRequest else Ok tt.

Definition assert_not_system_table (table_uuid : Z) : result ApiError unit :=
  if decide (table_uuid = system_schemas_table_uuid catalog_uuid ∨ table_uuid = system_tables_table_uuid catalog_uuid ∨
             table_uuid = system_indexes_table_uuid catalog_uuid) then Err InvalidRequest else Ok tt.

Definition validate_write_target_table (scope : ResolvedScope) : result ApiError Z :=
  match rs_table_row scope with
  | None => Err Internal
  | Some (t, _) =>
      let? _ := assert_not_system_table (tab_uuid t) in
      let? _ := match rs_schema_row scope with Some sch => assert_not_system_schema (sc_uuid sch) | None => Ok tt end in
      Ok (tab_uuid t)
  end.

Definition validate_write_target_schema (scope : ResolvedScope) : result ApiError Z :=
  match rs_schema_uuid scope with
  | None => Err InvalidRequest
  | Some u => let? _ := assert_not_system_schema u in Ok u
  end.

(** ** Statements *)

Context (version_uuid : Z → Z → Z).

Definition log_upserts (t : Z) (rows : list (Z * sys_row)) (ts : table_store sys_row) : table_store sys_row :=
  let '(ups, seq) := insert_upserts version_uuid t rows (ts_upserts ts) (ts_write_sequence ts) in
  {| ts_upserts := ups; ts_deletes := ts_deletes ts; ts_write_sequence := seq;
     ts_tx_table_log := ts_tx_table_log ts; ts_meta := ts_meta ts |}.

Definition log_deletes (t : Z) (rows : list Z) (ts : table_store sys_row) : table_store sys_row :=
  let '(dels, seq) := insert_deletes version_uuid t rows (ts_deletes ts) (ts_write_sequence ts) in
  {| ts_upserts := ts_upserts ts; ts_deletes := dels; ts_write_sequence := seq;
     ts_tx_table_log := ts_tx_table_log ts; ts_meta := ts_meta ts |}.

Definition log_tx_table (t : Z) (ts : table_store sys_row) : table_store sys_row :=
  {| ts_upserts := ts_upserts ts; ts_deletes := ts_deletes ts; ts_write_sequence := ts_write_sequence ts;
     ts_tx_table_log := {[t]} ∪ ts_tx_table_log ts; ts_meta := ts_meta ts |}.

(** INSERT with [ON CONFLICT (version_uuid) DO UPDATE]; the columns left out of
    the update are the identity and the parent, which no caller changes. *)
Definition insert_sys_row (k : sys_table) (uuid : Z) (v : sys_row) (t : Z) (c : catalog_state) : catalog_state :=
  set_store c k (log_upserts t [(sys_row_uuid k uuid, v)] (store c k)).

Definition insert_schema_row (s : Schema) := insert_sys_row SysSchemas (sc_uuid s) (SchemaRow s).
Definition insert_table_metadata (t : Table) := insert_sys_row SysTables (tab_uuid t) (TableRow t).
Definition insert_index_metadata (i : Index) := insert_sys_row SysIndexes (ix_uuid i) (IndexRow i).

(** A tombstone, [ON CONFLICT (version_uuid) DO NOTHING]. *)
Definition delete_sys_row (k : sys_table) (uuid : Z) (t : Z) (c : catalog_state) : catalog_state :=
  set_store c k (log_deletes t [sys_row_uuid k uuid] (store c k)).

Definition insert_schema_delete_row (schema_uuid : Z) := delete_sys_row SysSchemas schema_uuid.
Definition delete_table_metadata (table_uuid : Z) := delete_sys_row SysTables table_uuid.

(** [commit_tx_log_filtered]: every commit, and the open transaction past them. *)
Definition commit_tx_log_filtered (l : tx_logs) (open_tx : option Z) : list commit_row :=
  tx_commit_log l ++
  match open_tx with
  | Some tx => [{| ct_tx_uuid := tx; ct_commit_micros := I64_MAX; ct_commit_seq_num := I64_MAX |}]
  | None => []
  end.

(** [latest_upserts] of one row: an upsert in the hot log that no tombstone in
    the hot log beats. *)
Definition latest_upserts (st : branch_state sys_row) (open_tx : option Z) (row : Z) : list (src_row sys_row) :=
  let clog := commit_tx_log_filtered (bs_tx st) open_tx in
  let deletes := hot_source (Some [row]) (ts_deletes (bs_table st)) clog in
  filter (λ u, Forall (λ d, kle OrderCommitSeqNum d u) deletes) (hot_source (Some [row]) (ts_upserts (bs_table st)) clog).

(** The tombstone is written when the row is visible; says whether it was. *)
Definition delete_sys_row_if_visible (k : sys_table) (uuid : Z) (t : Z) (request_tx_uuid : option Z) (c : catalog_state) :
    catalog_state * bool :=
  if decide (latest_upserts (sys_view c k) request_tx_uuid (sys_row_uuid k uuid) = []) then (c, false)
  else (delete_sys_row k uuid t c, true).

Definition delete_table_metadata_if_visible (table_uuid : Z) := delete_sys_row_if_visible SysTables table_uuid.
Definition delete_index_metadata_if_visible (index_uuid : Z) := delete_sys_row_if_visible SysIndexes index_uuid.

Definition emit_tx_table_log_for_ddl (t : Z) (touched : list sys_table) (c : catalog_state) : catalog_state :=
  foldl (λ c k, set_store c k (log_tx_table t (store c k))) c touched.

(** The transaction a handler writes under: the request's, or a fresh one
    committed here. *)
Definition begin_ddl (c : catalog_state) (now fresh : Z) (tx : option Z) : result ApiError (catalog_state * Z) :=
  let? '(l, (t, _)) := resolve_or_auto_commit_tx (cat_tx c) now fresh tx in Ok (set_tx c l, t).

(** The snapshot of the re-read: the request's own, or one that sees the commit. *)
Definition ryow_snapshot (c : catalog_state) (now : Z) (tx : option Z) (s : ReadSnapshot) : result ApiError ReadSnapshot :=
  if decide (is_Some tx) then Ok s else resolve_read_snapshot (cat_tx c) now None None None None.

(** ** Physical tables *)

Definition supported (dt : DataType) : bool := match from_arrow dt with Ok _ => true | Err _ => false end.

Definition create_data_tables (table_uuid : Z) (s : schema) (primary_keys : list Z) (c : catalog_state) : result ApiError catalog_state :=
  if forallb (λ f, supported (field_type f)) s then
    match mapM (λ pk, field_with_name s pk) primary_keys with
    | None => Err DataTable
    | Some pks =>
        match cat_data c !! table_uuid with
        | Some _ => Ok c
        | None => Ok (set_data c (<[table_uuid := (s, pks)]> (cat_data c)))
        end
    end
  else Err DataTable.

(** [ADD COLUMN IF NOT EXISTS] for the fields the old schema does not name. *)
Fixpoint evolve_columns (old_schema : schema) (fields : schema) (columns : schema) : result ApiError schema :=
  match fields with
  | [] => Ok columns
  | f :: rest =>
      match field_with_name old_schema (field_name f) with
      | Some old => if decide (field_type old = field_type f) then evolve_columns old_schema rest columns else Err DataTable
      | None =>
          if supported (field_type f) then
            evolve_columns old_schema rest
              (if decide (field_name f ∈ field_name <$> columns) then columns else columns ++ [f])
          else Err DataTable
      end
  end.

Definition evolve_data_log_schema (table_uuid : Z) (old_schema new_schema : schema) (c : catalog_state) : result ApiError catalog_state :=
  match cat_data c !! table_uuid with
  | None => let? added := evolve_columns old_schema new_schema [] in if decide (added = []) then Ok c else Err DbProtocol
  | Some (columns, pks) =>
      let? columns' := evolve_columns old_schema new_schema columns in
      Ok (set_data c (<[table_uuid := (columns', pks)]> (cat_data c)))
  end.

(** ** Bootstrap *)

Definition system_table_name (k : sys_table) : string :=
  match k with SysSchemas => "schemas" | SysTables => "tables" | SysIndexes => "indexes" end.

(** The first commit of a catalog, and the physical tables of its system tables. *)
Definition seed_genesis_and_system_tables (now : Z) (c : catalog_state) : result ApiError catalog_state :=
  let? '(l, _) := commit_tx_log_insert (cat_tx c) now (genesis_tx_uuid catalog_uuid) in
  foldl (λ r k, let? c := r in create_data_tables (sys_table_uuid k) (system_arrow_schema k) (system_primary_keys k) c)
    (Ok (set_tx c l)) [SysSchemas; SysTables; SysIndexes].

Definition bootstrap_schema (uuid : Z) (name description : string) : Schema :=
  {| sc_uuid := uuid; sc_name := column_id name; sc_description := column_id description; sc_retention := None |}.

Definition bootstrap_table (k : sys_table) : Table :=
  {| tab_uuid := sys_table_uuid k; tab_schema_uuid := system_schema_uuid catalog_uuid; tab_name := column_id (system_table_name k);
     tab_arrow_schema := Some (system_arrow_schema k); tab_partition_keys := []; tab_clustering_keys := [];
     tab_primary_keys := system_primary_keys k;
     tab_description := column_id ("auto-created system table (CHA-177): __penca_system__." +:+ system_table_name k);
     tab_retention := None |}.

(** The genesis transaction's rows; it wrote nothing to the index table, so it is
    not a member of it. *)
Definition bootstrap_system_rows (public_schema_uuid : Z) (c : catalog_state) : catalog_state :=
  let genesis := genesis_tx_uuid catalog_uuid in
  let c1 := insert_schema_row (bootstrap_schema (system_schema_uuid catalog_uuid) SYSTEM_SCHEMA_NAME
              "auto-created system schema (CHA-164)") genesis c in
  let c2 := insert_schema_row (bootstrap_schema public_schema_uuid PUBLIC_SCHEMA_NAME
              "auto-created default schema (CHA-163)") genesis c1 in
  let c3 := foldl (λ c k, insert_table_metadata (bootstrap_table k) genesis c) c2 [SysSchemas; SysTables; SysIndexes] in
  emit_tx_table_log_for_ddl genesis [SysSchemas; SysTables] c3.

Definition no_rows : table_store sys_row :=
  {| ts_upserts := []; ts_deletes := []; ts_write_sequence := 0; ts_tx_table_log := ∅;
     ts_meta := {| tm_persists := []; tm_upsert_segments := []; tm_delete_segments := []; tm_snapshots := []; tm_purges := [] |} |}.

Definition empty_catalog : catalog_state :=
  {| cat_tx := empty_tx_logs; cat_schemas := no_rows; cat_tables := no_rows; cat_indexes := no_rows; cat_data := ∅ |}.

Definition create_catalog_tables (now public_schema_uuid : Z) : result ApiError catalog_state :=
  let? c := seed_genesis_and_system_tables now empty_catalog in Ok (bootstrap_system_rows public_schema_uuid c).

(** ** Handlers *)

(** Every handler takes the clock, the uuid an auto-commit would draw and the
    request's open transaction; a handler that fails rolls back. *)
Context (now fresh : Z) (tx : option Z).

Definition reject_retention_duration_change (old new : option RetentionConfig) : result ApiError unit :=
  if decide (is_Some (retention_duration_seconds old) ∧ retention_duration_seconds new ≠ retention_duration_seconds old)
  then Err FailedPrecondition else Ok tt.

Definition rename_or_carry_forward (request_new_name : option Z) (existing_name : Z) (collision_check : Z → result ApiError bool) :
    result ApiError Z :=
  match request_new_name with
  | None => Ok existing_name
  | Some new_name =>
      if decide (new_name = existing_name) then Ok existing_name
      else let? taken := collision_check new_name in if taken : bool then Err AlreadyExists else Ok new_name
  end.

Definition exists_row {X} (r : result ApiError (option X)) : result ApiError bool :=
  let? o := r in Ok (match o with Some _ => true | None => false end).

Definition no_ident : Ident := {| id_uuid := None; id_name := None |}.

(** [uuid]: the drawn [schema_uuid]. *)
Definition create_schema (c : catalog_state) (uuid name description : Z) (rc : option RetentionConfig) :
    result ApiError (catalog_state * Z) :=
  let? scope := resolve_schema_scope c now tx no_ident in
  let? taken := exists_row (meta_get_schema c None (Some name) (rs_snapshot scope)) in
  if taken : bool then Err AlreadyExists else
  let? '(c1, t) := begin_ddl c now fresh tx in
  let s := {| sc_uuid := uuid; sc_name := name; sc_description := description; sc_retention := stored_retention rc |} in
  Ok (emit_tx_table_log_for_ddl t [SysSchemas] (insert_schema_row s t c1), uuid).

Definition update_schema (c : catalog_state) (i : Ident) (new_name : option Z) (description : Z) (rc : option RetentionConfig) :
    result ApiError (catalog_state * option Schema) :=
  let? scope := resolve_schema_scope c now tx i in
  let? schema_uuid := validate_write_target_schema scope in
  let s := rs_snapshot scope in
  let? existing := found (meta_get_schema c (Some schema_uuid) None s) in
  let? name := rename_or_carry_forward new_name (sc_name existing) (λ n, exists_row (meta_get_schema c None (Some n) s)) in
  let? '(c1, t) := begin_ddl c now fresh tx in
  let? _ := reject_retention_duration_change (sc_retention existing) rc in
  let sch := {| sc_uuid := schema_uuid; sc_name := name; sc_description := description; sc_retention := stored_retention rc |} in
  let c2 := emit_tx_table_log_for_ddl t [SysSchemas] (insert_schema_row sch t c1) in
  let? s' := ryow_snapshot c2 now tx s in
  let? out := meta_get_schema c2 (Some schema_uuid) None s' in
  Ok (c2, out).

Definition delete_schema_cascade (c : catalog_state) (schema_uuid : Z) (s : ReadSnapshot) : result ApiError catalog_state :=
  let? tables := meta_list_tables c schema_uuid s in
  let? '(c1, t) := begin_ddl c now fresh tx in
  let c2 := foldl (λ c t', delete_table_metadata (tab_uuid t'.1) t c) c1 tables in
  let c3 := insert_schema_delete_row schema_uuid t c2 in
  Ok (emit_tx_table_log_for_ddl t (SysSchemas :: if decide (tables = []) then [] else [SysTables]) c3).

Definition delete_schema (c : catalog_state) (i : Ident) : result ApiError (catalog_state * Z) :=
  let? scope := resolve_schema_scope c now tx i in
  let? schema_uuid := validate_write_target_schema scope in
  let? c' := delete_schema_cascade c schema_uuid (rs_snapshot scope) in
  Ok (c', schema_uuid).

Definition validate_create_table_primary_keys (primary_keys : list Z) (s : schema) : result ApiError unit :=
  if decide (primary_keys = []) then Err InvalidRequest
  else if decide (NoDup primary_keys) then
    if decide (Forall (λ pk, pk ∈ field_name <$> s) primary_keys) then Ok tt else Err InvalidRequest
  else Err InvalidRequest.

(** The descriptive part of a create or update table request. *)
Record TableSpec := {
  tsp_arrow_schema : option schema;
  tsp_partition_keys : list Z;
  tsp_clustering_keys : list Z;
  tsp_primary_keys : list Z;
  tsp_description : Z;
  tsp_retention : option RetentionConfig;
}.

Record IndexSpec := { isp_uuid : Z; isp_name : Z; isp_columns : list Z; isp_type : Z }.

Definition table_row (uuid schema_uuid name : Z) (spec : TableSpec) : Table :=
  {| tab_uuid := uuid; tab_schema_uuid := schema_uuid; tab_name := name; tab_arrow_schema := tsp_arrow_schema spec;
     tab_partition_keys := tsp_partition_keys spec; tab_clustering_keys := tsp_clustering_keys spec;
     tab_primary_keys := tsp_primary_keys spec; tab_description := tsp_description spec;
     tab_retention := stored_retention (tsp_retention spec) |}.

Definition index_row (table_uuid : Z) (d : IndexSpec) : Index :=
  {| ix_uuid := isp_uuid d; ix_table_uuid := table_uuid; ix_name := isp_name d; ix_columns := isp_columns d; ix_type := isp_type d |}.

Definition decoded (s : option schema) : result ApiError schema := match s with Some s => Ok s | None => Err ApiArrow end.

(** [uuid] and the uuids of [indexes] are the drawn ones. *)
Definition create_table (c : catalog_state) (i : Ident) (uuid name : Z) (spec : TableSpec) (indexes : list IndexSpec) :
    result ApiError (catalog_state * Z) :=
  let? user_schema := decoded (tsp_arrow_schema spec) in
  let? _ := validate_create_table_primary_keys (tsp_primary_keys spec) user_schema in
  let? scope := resolve_schema_scope c now tx i in
  let? schema_uuid := validate_write_target_schema scope in
  let? taken := exists_row (meta_get_table c schema_uuid None (Some name) (rs_snapshot scope)) in
  if taken : bool then Err AlreadyExists else
  let? '(c1, t) := begin_ddl c now fresh tx in
  let? c2 := create_data_tables uuid user_schema (tsp_primary_keys spec) c1 in
  let c3 := insert_table_metadata (table_row uuid schema_uuid name spec) t c2 in
  let c4 := foldl (λ c d, insert_index_metadata (index_row uuid d) t c) c3 indexes in
  Ok (emit_tx_table_log_for_ddl t (SysTables :: if decide (indexes = []) then [] else [SysIndexes]) c4, uuid).

Definition create_index (c : catalog_state) (si ti : Ident) (d : IndexSpec) : result ApiError (catalog_state * Z) :=
  let? scope := resolve_table_scope c now tx si ti in
  let? table_uuid := validate_write_target_table scope in
  let? taken := exists_row (meta_get_index c table_uuid None (Some (isp_name d)) (rs_snapshot scope)) in
  if taken : bool then Err AlreadyExists else
  let? '(c1, t) := begin_ddl c now fresh tx in
  Ok (emit_tx_table_log_for_ddl t [SysIndexes] (insert_index_metadata (index_row table_uuid d) t c1), isp_uuid d).

Definition update_index (c : catalog_state) (si ti ii : Ident) (new_name : Z) : result ApiError (catalog_state * Z) :=
  let? scope := resolve_table_scope c now tx si ti in
  let? table_uuid := validate_write_target_table scope in
  let s := rs_snapshot scope in
  let? existing := found (meta_get_index c table_uuid (id_uuid ii) (id_name ii) s) in
  let? clash := if decide (new_name = ix_name existing) then Ok false
                else let? o := meta_get_index c table_uuid None (Some new_name) s in
                     Ok (match o with Some x => bool_decide (ix_uuid x ≠ ix_uuid existing) | None => false end) in
  if clash : bool then Err AlreadyExists else
  let? '(c1, t) := begin_ddl c now fresh tx in
  let renamed := {| ix_uuid := ix_uuid existing; ix_table_uuid := table_uuid; ix_name := new_name;
                    ix_columns := ix_columns existing; ix_type := ix_type existing |} in
  Ok (emit_tx_table_log_for_ddl t [SysIndexes] (insert_index_metadata renamed t c1), ix_uuid existing).

Definition delete_index (c : catalog_state) (si ti ii : Ident) : result ApiError (catalog_state * Z) :=
  let? scope := resolve_table_scope c now tx si ti in
  let? table_uuid := validate_write_target_table scope in
  let? existing := found (meta_get_index c table_uuid (id_uuid ii) (id_name ii) (rs_snapshot scope)) in
  let? '(c1, t) := begin_ddl c now fresh tx in
  let '(c2, visible) := delete_index_metadata_if_visible (ix_uuid existing) t tx c1 in
  if visible then Ok (emit_tx_table_log_for_ddl t [SysIndexes] c2, ix_uuid existing) else Err NotFound.

Definition update_table (c : catalog_state) (si ti : Ident) (new_name : option Z) (spec : TableSpec) :
    result ApiError (catalog_state * Table) :=
  let? scope := resolve_table_scope c now tx si ti in
  let? table_uuid := validate_write_target_table scope in
  match rs_schema_uuid scope with
  | None => Err Internal
  | Some schema_uuid =>
      let s := rs_snapshot scope in
      let? '(existing, _) := found (meta_get_table c schema_uuid (Some table_uuid) None s) in
      let? name := rename_or_carry_forward new_name (tab_name existing)
                     (λ n, exists_row (meta_get_table c schema_uuid None (Some n) s)) in
      let? '(c1, t) := begin_ddl c now fresh tx in
      let? _ := reject_retention_duration_change (tab_retention existing) (tsp_retention spec) in
      let c2 := insert_table_metadata (table_row table_uuid schema_uuid name spec) t c1 in
      let? old_schema := decoded (tab_arrow_schema existing) in
      let? new_schema := decoded (tsp_arrow_schema spec) in
      let? c3 := evolve_data_log_schema table_uuid old_schema new_schema c2 in
      let c4 := emit_tx_table_log_for_ddl t [SysTables] c3 in
      let? s' := ryow_snapshot c4 now tx s in
      let? '(out, _) := found (meta_get_table c4 schema_uuid (Some table_uuid) None s') in
      Ok (c4, out)
  end.

Definition delete_table (c : catalog_state) (si ti : Ident) : result ApiError (catalog_state * Z) :=
  let? scope := resolve_table_scope c now tx si ti in
  let? table_uuid := validate_write_target_table scope in
  match rs_schema_uuid scope with
  | None => Err Internal
  | Some _ =>
      let? '(c1, t) := begin_ddl c now fresh tx in
      let '(c2, existed) := delete_table_metadata_if_visible table_uuid t tx c1 in
      if existed then Ok (emit_tx_table_log_for_ddl t [SysTables] c2, table_uuid) else Err NotFound
  end.

(** The part of the servicer's [validate_create_table] that looks at the columns
    and the inline indexes; names, identifiers and the retention configuration are
    well-formed here. *)
Definition validate_column_types (s : schema) : result ApiError unit :=
  if forallb (λ f, supported (field_type f)) s then Ok tt else Err InvalidRequest.

Fixpoint validate_inline_indexes (columns : list Z) (seen : gset Z) (defs : list IndexSpec) : result ApiError unit :=
  match defs with
  | [] => Ok tt
  | d :: rest =>
      if decide (isp_columns d = []) then Err InvalidRequest
      else if decide (Forall (λ col, col ∈ columns) (isp_columns d)) then
        if decide (isp_name d ∈ seen) then Err InvalidRequest
        else validate_inline_indexes columns ({[isp_name d]} ∪ seen) rest
      else Err InvalidRequest
  end.

Definition validate_create_table (spec : TableSpec) (indexes : list IndexSpec) : result ApiError unit :=
  match tsp_arrow_schema spec with
  | None => Err InvalidRequest
  | Some s =>
      let? _ := validate_column_types s in
      validate_inline_indexes (field_name <$> s) ∅ indexes
  end.

(** The schema is checked when there is one. *)
Definition validate_update_table (spec : TableSpec) : result ApiError unit :=
  match tsp_arrow_schema spec with None => Ok tt | Some s => validate_column_types s end.

Definition validate_create_index (d : IndexSpec) : result ApiError unit :=
  if decide (isp_columns d = []) then Err InvalidRequest else Ok tt.

(** The DDL requests as the servicer takes them, with the uuids they draw. *)
Inductive ddl :=
  | CreateSchema (uuid name description : Z) (rc : option RetentionConfig)
  | UpdateSchema (i : Ident) (new_name : option Z) (description : Z) (rc : option RetentionConfig)
  | DeleteSchema (i : Ident)
  | CreateTable (i : Ident) (uuid name : Z) (spec : TableSpec) (indexes : list IndexSpec)
  | UpdateTable (si ti : Ident) (new_name : option Z) (spec : TableSpec)
  | DeleteTable (si ti : Ident)
  | CreateIndex (si ti : Ident) (d : IndexSpec)
  | UpdateIndex (si ti ii : Ident) (new_name : Z)
  | DeleteIndex (si ti ii : Ident).

Definition serve_ddl (c : catalog_state) (q : ddl) : result ApiError catalog_state :=
  match q with
  | CreateSchema uuid name description rc => let? r := create_schema c uuid name description rc in Ok r.1
  | UpdateSchema i new_name description rc => let? r := update_schema c i new_name description rc in Ok r.1
  | DeleteSchema i => let? r := delete_schema c i in Ok r.1
  | CreateTable i uuid name spec indexes =>
      let? _ := validate_create_table spec indexes in let? r := create_table c i uuid name spec indexes in Ok r.1
  | UpdateTable si ti new_name spec =>
      let? _ := validate_update_table spec in let? r := update_table c si ti new_name spec in Ok r.1
  | DeleteTable si ti => let? r := delete_table c si ti in Ok r.1
  | CreateIndex si ti d => let? _ := validate_create_index d in let? r := create_index c si ti d in Ok r.1
  | UpdateIndex si ti ii new_name => let? r := update_index c si ti ii new_name in Ok r.1
  | DeleteIndex si ti ii => let? r := delete_index c si ti ii in Ok r.1
  end.
End catalog.
