(* ===== verification/CatalogReads.v ===== *)
(** * Reading and writing the catalog

    Every lookup of a system table returns exactly the rows its snapshot shows,
    whatever path it takes.  The three system tables of a branch show a catalog: a
    map per table from uuids to rows, which the lookups read and an auto-committed
    statement edits. *)

From S2P Require Import Prelude CoreTypes Naming Watermarks ReadSnapshot Dialect MergeSql IndexSeek Plan SnapshotScan IndexSelect TxLog TableStore BatchUtil SeekBatch ReadPath Lifecycle ReadLemmas ReadData Tiers ReadCorrect System SystemInv SystemPersist SystemSnapshot SystemTheorems WriteTheorems NamingTheorems Catalog.
From stdpp Require Import base numbers list option strings gmap sets.

Open Scope Z_scope.
Open Scope result_scope.

Lemma each_table {X} (P : sys_table → X → Prop) : (∀ k, ∃ x, P k x) → ∃ f, ∀ k, P k (f k).
Proof.
  intros HP. destruct (HP SysSchemas) as [x1 ?], (HP SysTables) as [x2 ?], (HP SysIndexes) as [x3 ?].
  exists (λ k, match k with SysSchemas => x1 | SysTables => x2 | SysIndexes => x3 end). by intros [].
Qed.

(** ** The name indexes *)

Definition name_columns (k : sys_table) : list string :=
  match k with
  | SysSchemas => ["schema_name"]
  | SysTables => ["schema_uuid"; "table_name"]
  | SysIndexes => ["table_uuid"; "index_name"]
  end.

#[export] Instance column_id_inj : Inj (=) (=) column_id.
Proof. intros a b [= ?%(inj encode)]. done. Qed.

(** What a catalog hashes: its system tables and their name indexes, and the
    identities of the objects whose uuids are [known] (those the catalog holds and
    the requests name). *)
Definition system_table_text (k : sys_table) : string :=
  match k with
  | SysSchemas => "__penca_system__.schemas"
  | SysTables => "__penca_system__.tables"
  | SysIndexes => "__penca_system__.indexes"
  end.

Inductive catalog_text `{ContentHash} (catalog : Z) (known : Z → Prop) : string → Prop :=
  | TextTable k : catalog_text catalog known (join_nul [uuid_to_string catalog; system_table_text k])
  | TextIndex k : catalog_text catalog known (join_nul [uuid_to_string (sys_table_uuid catalog k); "name_index"])
  | TextRow k u : known u → catalog_text catalog known (join_nul [uuid_to_string (sys_table_uuid catalog k); uuid_to_string u]).

Section names.
Context {H : ContentHash} (catalog : Z) {known : Z → Prop} {HC : CollisionFree H (catalog_text catalog known)}.

Notation index_of k := (system_name_index_uuid (sys_table_uuid catalog k)).

#[local] Ltac texts_of Heq :=
  apply (deterministic_inj (texts := catalog_text catalog known)) in Heq;
    [|by constructor|by constructor|by repeat (constructor; auto with penca typeclass_instances)..|done|done].

Lemma system_text_lacks k : lacks NUL (system_table_text k).
Proof using. by destruct k. Qed.
#[local] Hint Resolve system_text_lacks : penca.

Lemma sys_table_parts k : sys_table_uuid catalog k = deterministic_uuid_from [uuid_to_string catalog; system_table_text k].
Proof using. by destruct k. Qed.

Lemma sys_table_uuid_inj k k' : sys_table_uuid catalog k = sys_table_uuid catalog k' → k = k'.
Proof using HC. rewrite !sys_table_parts. intros Heq. texts_of Heq. destruct k, k'; by simplify_eq. Qed.

Lemma name_index_inj k k' : index_of k = index_of k' → k = k'.
Proof using HC.
  unfold system_name_index_uuid, row_uuid_for_pk. intros Heq. texts_of Heq. injection Heq as Heq%(inj uuid_to_string).
  by apply sys_table_uuid_inj.
Qed.

Lemma sys_row_uuid_inj k u u' : known u → known u' → sys_row_uuid catalog k u = sys_row_uuid catalog k u' → u = u'.
Proof using HC.
  unfold sys_row_uuid, row_uuid_for_pk. intros Hu Hu' Heq. texts_of Heq. by injection Heq as Heq%(inj uuid_to_string).
Qed.

Lemma name_index_spec k : system_name_index_spec catalog (sys_table_uuid catalog k) = Some (index_of k, name_columns k).
Proof using HC.
  assert (∀ k k', k ≠ k' → sys_table_uuid catalog k ≠ sys_table_uuid catalog k') as Hne
    by (intros k1 k2 Hn ?%sys_table_uuid_inj; done).
  pose proof (Hne SysTables SysSchemas ltac:(done)). pose proof (Hne SysIndexes SysSchemas ltac:(done)).
  pose proof (Hne SysIndexes SysTables ltac:(done)). unfold system_name_index_spec.
  destruct k; simpl in *; rewrite ?(decide_False (P := _ = _)), ?(decide_True (P := _ = _)) by done; done.
Qed.

Lemma name_index_key k x : sys_index_key catalog (index_of k) x = (λ n, sys_value (column_id n) x) <$> name_columns k.
Proof using HC.
  unfold sys_index_key.
  assert (∃ i, list_find (λ k', index_of k' = index_of k) [SysSchemas; SysTables; SysIndexes] = Some (i, k)) as [i ->].
  { destruct k; unfold list_find;
      repeat first [rewrite decide_True by done|rewrite decide_False by (intros ?%name_index_inj; done)]; simpl; by eexists. }
  by rewrite name_index_spec.
Qed.
End names.

(** ** Lookups are exact *)

Section reads.
Context {H : ContentHash} (catalog : Z) {known : Z → Prop} {HC : CollisionFree H (catalog_text catalog known)}.
Context (may_match : (Z * sys_row → bool) → SnapshotSegment sys_row → bool) (Hprune : prune_sound may_match).

Notation index_key := (sys_index_key catalog).
Notation index_of k := (system_name_index_uuid (sys_table_uuid catalog k)).

(** A selection as the handlers build it, and the rows it asks for. *)
Definition selection_ok (k : sys_table) (sel : SystemSelection) : Prop :=
  match sel with
  | Scan _ => True
  | IdentitySeek us _ => us ≠ []
  | NameSeek tuples => tuples ≠ [] ∧ Forall (λ t, length t = length (name_columns k)) tuples
  | PrefixSeek us => us ≠ [] ∧ k = SysIndexes
  end.

Definition selects (k : sys_table) (sel : SystemSelection) (x : Z * sys_row) : Prop :=
  match sel with
  | Scan f => ∀ p, f = Some p → p x = true
  | IdentitySeek us f => x.1 ∈ us ∧ ∀ p, f = Some p → p x = true
  | NameSeek tuples => ∃ t, t ∈ tuples ∧ (λ n, sys_value (column_id n) x) <$> name_columns k = Some <$> t
  | PrefixSeek us => ∃ u, u ∈ us ∧ sys_value (column_id "table_uuid") x = Some u
  end.

Lemma name_residual_spec (cols : list Z) tuples x :
  Forall (λ t, length t = length cols) tuples →
  name_seek_residual cols tuples x = true ↔ ∃ t, t ∈ tuples ∧ (λ c, sys_value c x) <$> cols = Some <$> t.
Proof.
  intros Hlen. unfold name_seek_residual. rewrite existsb_exists.
  assert (∀ t, length t = length cols →
    forallb (λ cv, bool_decide (sys_value cv.1 x = Some cv.2)) (zip cols t) = true ↔ (λ c, sys_value c x) <$> cols = Some <$> t) as Hz.
  { clear. induction cols as [|c cols IH]; intros [|v t] Hl; try done. injection Hl as Hl. rewrite !fmap_cons. cbn [zip zip_with forallb].
    rewrite andb_true_iff, bool_decide_eq_true. setoid_rewrite (IH t Hl). simpl. split; [by intros [-> ->]|by intros [= -> ->]]. }
  rewrite Forall_forall in Hlen. split.
  - intros (t & Ht%list_elem_of_In & Hf). exists t. split; [done|]. apply Hz; [by apply Hlen|done].
  - intros (t & Ht & Hin). exists t. split; [by apply list_elem_of_In|]. apply Hz; [by apply Hlen|done].
Qed.

Lemma prefix_residual_spec us x :
  table_uuid_in_filter us x = true ↔ ∃ u, u ∈ us ∧ sys_value (column_id "table_uuid") x = Some u.
Proof.
  unfold table_uuid_in_filter. rewrite existsb_exists. setoid_rewrite bool_decide_eq_true.
  by setoid_rewrite list_elem_of_In.
Qed.

(** A seek of the name index with probes of one arity. *)
Lemma name_spec_ok k cols tuples n g :
  seg_wf index_key g → snapshot_rows g ≠ [] → (1 ≤ n ≤ length (name_columns k))%nat →
  Forall (λ t, length t = n) tuples →
  spec_ok g {| ss_index_uuid := Some (index_of k); ss_key_columns := cols; ss_tuples := tuples |}.
Proof using HC.
  intros Hwf Hne Hn Hlen sc Hsc. right. exists n. destruct (built_for_arity _ _ _ _ (Hwf _ _ Hsc)) as [_ Hk].
  destruct (snapshot_rows g) as [|x l]; [done|]. specialize (Hk x ltac:(by left)). simpl in Hk.
  rewrite (name_index_key catalog (known := known)), length_fmap in Hk. split; [lia|]. by apply Forall_forall.
Qed.

Lemma name_spec_matches k cols tuples x :
  spec_matches index_key {| ss_index_uuid := Some (index_of k); ss_key_columns := cols; ss_tuples := tuples |} x ↔
  ∃ t, t ∈ tuples ∧ take (length t) ((λ n, sys_value (column_id n) x) <$> name_columns k) = Some <$> t.
Proof using HC. unfold spec_matches, matches_probe. simpl. by rewrite (name_index_key catalog (known := known)). Qed.

(** What a resolved selection asks of the merge. *)
Record seek_answers (us : option (list Z)) (seek : option SeekSpec) (f : option (Z * sys_row → bool)) (exact : bool) : Prop := {
  sa_identity : identity_row_uuids ((λ e, [e]) <$> seek) (filter_present f) = Ok us;
  sa_specs : ∀ es spec, to_scan_specs {| identity := us; accelerators := user_seek_specs ((λ e, [e]) <$> seek) |} = Some es →
    spec ∈ es → seek = Some spec;
  sa_ok : ∀ e g, seek = Some e → seg_wf index_key g → snapshot_rows g ≠ [] → spec_ok g e;
  sa_sound : ∀ e x, seek = Some e → wants f us x → spec_matches index_key e x;
  sa_exact : ∀ e x, exact = true → seek = Some e → spec_matches index_key e x → wants f us x;
}.

Lemma resolved_answers st k s HU HD us seek f exact :
  coherent sys_value index_key (ts_meta (bs_table st)) (hot_view st) HU HD → in_i64 (plan_as_of_micros s) →
  seek_answers us seek f exact →
  ∃ rows, stream_cold_read may_match
      {| rq_plan := plan (ts_meta (bs_table st)) (hot_view st) None (plan_as_of_micros s) (plan_commit_seq_upper s);
         rq_db := hot_view st; rq_schema := sys_columns k; rq_snapshot := s; rq_filter := f;
         rq_seeks := (λ e, [e]) <$> seek;
         rq_tuning := {| snapshot_prune_min_segments := 2; segment_order_of := ByCompletion |} |} exact = Ok rows ∧
    NoDup (fst <$> rows) ∧ ∀ x, x ∈ rows ↔ table_at s HU HD (hot_view st) x ∧ wants f us x.
Proof using Hprune.
  intros Hco Hasof [Hid Hspecs Hok Hsound Hex].
  assert (∀ sp g, snapshot_of (ts_meta (bs_table st)) s = Some sp → g ∈ sp_segments sp →
    seg_wf index_key g ∧ snapshot_rows g ≠ []) as Hsegs.
  { intros sp g Hsp. unfold snapshot_of in Hsp. destruct (picked _ s) as [sn|] eqn:Hsn; [|done]. injection Hsp as <-.
    destruct (picked_ok sys_value index_key _ _ HU HD Hco s sn Hsn) as [Hsnok _].
    intros [Hne Hg]%list_elem_of_filter. split; [|done]. by apply (sn_segs_wf _ _ _ _ _ _ Hsnok). }
  match goal with |- ∃ rows, stream_cold_read _ ?rq _ = _ ∧ _ =>
    edestruct (stream_cold_read_answers sys_value index_key _ _ HU HD Hco s Hasof None I us may_match Hprune f rq
      eq_refl eq_refl eq_refl eq_refl eq_refl Hid) with (exact := exact) as (rows & Hrows & Hans) end.
  - intros sp Hsp es spec Hes Hin. pose proof (Hspecs es spec Hes Hin) as He. split.
    + intros g Hg. destruct (Hsegs sp g Hsp Hg). by eapply Hok.
    + intros x. by apply Hsound.
  - intros e sp He Hs Hsp. cbn [rq_seeks] in Hs. destruct seek as [e0|]; simplify_eq/=. split.
    + intros g Hg. destruct (Hsegs sp g Hsp Hg). by eapply Hok.
    + intros x. split; [by apply Hex|by apply Hsound].
  - exists rows. split; [exact Hrows|]. destruct Hans as [Hnd Hel]. by split.
Qed.

Lemma no_seek f : seek_answers None None f false.
Proof. by split. Qed.

Lemma identity_seek us f : us ≠ [] → seek_answers (Some us) (Some (identity_spec us)) f (negb (filter_present f)).
Proof.
  intros Hne. destruct us as [|u us]; [done|]. split; simpl.
  - by rewrite identity_tuples.
  - intros es spec [= <-] ->%list_elem_of_singleton. done.
  - intros e g [= <-] Hwf _. by apply (identity_spec_ok index_key).
  - intros e x [= <-] [Hu _]. apply identity_spec_matches. by apply bool_decide_eq_true in Hu.
  - intros e x Hf [= <-] Hm%identity_spec_matches. destruct f; [done|]. split; [by apply bool_decide_eq_true|done].
Qed.

Lemma index_seek k e f :
  ss_index_uuid e = Some (index_of k) →
  (∀ g, seg_wf index_key g → snapshot_rows g ≠ [] → spec_ok g e) → (∀ x, spec_matches index_key e x ↔ f x = true) →
  seek_answers None (Some e) (Some f) true.
Proof.
  intros Hu Hok Hm. split; simpl.
  - by rewrite Hu.
  - intros es spec. rewrite filter_cons_True by (by rewrite Hu). by intros [= <-] ->%list_elem_of_singleton.
  - intros e' g [= <-]. apply Hok.
  - intros e' x [= <-] [_ Hf]. by apply Hm.
  - intros e' x _ [= <-] Hx%Hm. by split.
Qed.

(** A resolved selection asks the merge for the rows it selects. *)
Lemma selection_answers k sel : selection_ok k sel →
  ∃ us seek f exact, resolve_selection catalog k sel = Ok (seek, f, exact) ∧ seek_answers us seek f exact ∧
    ∀ x, wants f us x ↔ selects k sel x.
Proof using HC.
  destruct sel as [f|us f|tuples|us]; simpl.
  - intros _. exists None, None, f, false. split_and!; [done|apply no_seek|]. intros x. unfold wants. simpl.
    destruct f; simpl; naive_solver.
  - intros Hne. exists (Some us), (Some (identity_spec us)), f, (negb (filter_present f)).
    split_and!; [done|by apply identity_seek|]. intros x. unfold wants. destruct us as [|u us]; [done|]. simpl.
    rewrite bool_decide_eq_true. destruct f; simpl; naive_solver.
  - intros [Hne Hlen]. unfold resolve_name_seek. rewrite (name_index_spec catalog (known := known)), decide_False by done.
    assert (forallb (λ t, bool_decide (length t = length (name_columns k))) tuples = true) as ->.
    { apply forallb_forall. intros t Ht%list_elem_of_In. apply bool_decide_eq_true. by eapply Forall_forall in Hlen. }
    assert (∀ x, name_seek_residual (column_id <$> name_columns k) tuples x = true ↔ selects k (NameSeek tuples) x) as Hres.
    { intros x. rewrite name_residual_spec; [simpl; by rewrite <- list_fmap_compose|]. by rewrite length_fmap. }
    eexists None, _, _, true. split; [done|]. split; [|intros x; unfold wants; simpl; rewrite <- (Hres x); naive_solver].
    apply (index_seek k); [done|..].
    + intros g Hwf Hg. apply (name_spec_ok k _ _ (length (name_columns k))); [done|done|destruct k; simpl; lia|done].
    + intros x. simpl. rewrite (name_spec_matches k), Hres. simpl. split; intros (t & Ht & Heq); exists t; (split; [done|]);
        (rewrite firstn_all2 in * by (rewrite length_fmap; eapply Forall_forall in Hlen; [|exact Ht]; lia)); exact Heq.
  - intros [Hne ->]. unfold resolve_prefix_seek. rewrite (name_index_spec catalog (known := known)), decide_True, decide_False by done.
    eexists None, _, _, true. split; [done|].
    split; [|intros x; unfold wants; simpl; rewrite prefix_residual_spec; naive_solver].
    apply (index_seek SysIndexes); [done|..].
    + intros g Hwf Hg. apply (name_spec_ok SysIndexes _ _ 1); [done|done|simpl; lia|]. apply Forall_fmap, Forall_true. done.
    + intros x. simpl. rewrite (name_spec_matches SysIndexes), prefix_residual_spec. split.
      * intros (t & (u & -> & Hu)%list_elem_of_fmap & [= Heq]). eauto.
      * intros (u & Hu & Heq). exists [u]. split; [apply list_elem_of_fmap; eauto|]. simpl. by rewrite Heq.
Qed.

Lemma read_system_rows st k sel s HU HD :
  coherent sys_value index_key (ts_meta (bs_table st)) (hot_view st) HU HD → in_i64 (plan_as_of_micros s) → selection_ok k sel →
  ∃ rows, read_system_table catalog may_match st k sel s = Ok (snd <$> rows) ∧ NoDup (fst <$> rows) ∧
    ∀ x, x ∈ rows ↔ table_at s HU HD (hot_view st) x ∧ selects k sel x.
Proof using HC Hprune.
  intros Hco Hasof (us & seek & f & exact & Hres & Hsa & Hw)%selection_answers.
  destruct (resolved_answers st k s HU HD us seek f exact Hco Hasof Hsa) as (rows & Hrows & Hnd & Hel).
  exists rows. split; [|split; [done|]; intros x; by rewrite Hel, Hw].
  unfold read_system_table. rewrite Hres. cbn [result_bind]. by rewrite Hrows.
Qed.
End reads.

(** ** The catalog as maps *)

(** Each system table as the map from the uuids to the rows it shows. *)
Notation acat := (sys_table → gmap Z sys_row).

Definition row_id (r : sys_row) : sys_table * Z :=
  match r with SchemaRow s => (SysSchemas, sc_uuid s) | TableRow t => (SysTables, tab_uuid t) | IndexRow i => (SysIndexes, ix_uuid i) end.

(** What the name index of a row's table reads off it. *)
Definition name_key (r : sys_row) : list Z :=
  match r with SchemaRow s => [sc_name s] | TableRow t => [tab_schema_uuid t; tab_name t] | IndexRow i => [ix_table_uuid i; ix_name i] end.

Lemma name_key_spec u r : (λ n, sys_value (column_id n) (u, r)) <$> name_columns (row_id r).1 = Some <$> name_key r.
Proof. by destruct r. Qed.

(** Rows are filed under their own identity, names are unique in their scope and
    a table's schema exists. *)
Record cat_wf (A : acat) : Prop := {
  cw_typed : ∀ k u r, A k !! u = Some r → row_id r = (k, u);
  cw_names : ∀ k u r u' r', A k !! u = Some r → A k !! u' = Some r' → name_key r = name_key r' → u = u';
  cw_housed : ∀ u t, A SysTables !! u = Some (TableRow t) → is_Some (A SysSchemas !! tab_schema_uuid t);
}.

(** Rows put in place, the rest of the table less some. *)
Definition edit (A : acat) (ups : sys_table → list sys_row) (dels : sys_table → list Z) : acat :=
  λ k, list_to_map ((λ r, ((row_id r).2, r)) <$> ups k) ∪ filter (λ x, x.1 ∉ dels k) (A k).

Definition only {X} (k : sys_table) (l : list X) : sys_table → list X := λ k', if decide (k' = k) then l else [].
Definition none {X} : sys_table → list X := λ _, [].

Notation ids := (fmap (λ r, (row_id r).2)).

Lemma edit_lookup A ups dels k u r : NoDup (ids (ups k)) →
  edit A ups dels k !! u = Some r ↔
  (r ∈ ups k ∧ (row_id r).2 = u) ∨ (A k !! u = Some r ∧ u ∉ ids (ups k) ∧ u ∉ dels k).
Proof.
  intros Hnd. unfold edit. rewrite lookup_union_Some_raw, map_lookup_filter_Some.
  assert (NoDup (((λ r, ((row_id r).2, r)) <$> ups k).*1)) as Hnd' by by rewrite <- list_fmap_compose.
  rewrite <- elem_of_list_to_map, <- not_elem_of_list_to_map by done. rewrite <- list_fmap_compose, list_elem_of_fmap. naive_solver.
Qed.

(** The name [key] of table [k] is held by nobody but [u]. *)
Definition free (A : acat) (k : sys_table) (key : list Z) (u : Z) : Prop :=
  ∀ u' r, A k !! u' = Some r → name_key r = key → u' = u.

Lemma wf_edit A ups dels :
  cat_wf A → (∀ k, NoDup (ids (ups k))) → (∀ k r, r ∈ ups k → (row_id r).1 = k) →
  (∀ k r r', r ∈ ups k → r' ∈ ups k → name_key r = name_key r' → (row_id r).2 = (row_id r').2) →
  (∀ k r, r ∈ ups k → free A k (name_key r) (row_id r).2) →
  (∀ t, TableRow t ∈ ups SysTables → is_Some (A SysSchemas !! tab_schema_uuid t) ∨ tab_schema_uuid t ∈ ids (ups SysSchemas)) →
  (∀ t, (TableRow t ∈ ups SysTables ∨ A SysTables !! tab_uuid t = Some (TableRow t) ∧ tab_uuid t ∉ dels SysTables) →
    tab_schema_uuid t ∉ dels SysSchemas) →
  cat_wf (edit A ups dels).
Proof.
  intros [Hty Hnm Hho] Hnd Hk Hself Hfree Hhome Hkeep.
  assert (∀ u, u ∉ dels SysSchemas → is_Some (A SysSchemas !! u) ∨ u ∈ ids (ups SysSchemas) → is_Some (edit A ups dels SysSchemas !! u)) as Hstay.
  { intros u Hu Hin. destruct (decide (u ∈ ids (ups SysSchemas))) as [(r' & -> & Hr')%list_elem_of_fmap|Hn].
    - exists r'. apply edit_lookup; [done|]. by left.
    - destruct Hin as [[r Hr]|?]; [|done]. exists r. apply edit_lookup; [done|]. by right. }
  split.
  - intros k u r [[Hr <-]|[Hr _]]%edit_lookup; [|by apply Hty|done]. pose proof (Hk k r Hr). by destruct (row_id r) eqn:?; simpl in *; subst.
  - intros k u r u' r' [[Hr <-]|(Hr & Hn & _)]%edit_lookup [[Hr' <-]|(Hr' & Hn' & _)]%edit_lookup Heq; try done.
    + by apply (Hself k).
    + symmetry. by eapply (Hfree k r Hr).
    + by eapply (Hfree k r' Hr').
    + by eapply Hnm.
  - intros u t [[Hr Hu]|(Hr & Hn & Hd)]%edit_lookup; [| |done].
    + apply Hstay; [|by apply Hhome]. apply Hkeep. by left.
    + pose proof (Hty _ _ _ Hr) as [= <-]. apply Hstay; [|left; by eapply Hho]. apply Hkeep. by right.
Qed.

(** ** What a request names *)

Definition names_schema (A : acat) (i : Ident) (s : Schema) : Prop :=
  A SysSchemas !! sc_uuid s = Some (SchemaRow s) ∧
  match id_uuid i with Some u => sc_uuid s = u | None => id_name i = Some (sc_name s) end.

Definition names_table_in (A : acat) (schema_uuid : Z) (i : Ident) (t : Table) : Prop :=
  A SysTables !! tab_uuid t = Some (TableRow t) ∧ tab_schema_uuid t = schema_uuid ∧
  match id_uuid i with Some u => tab_uuid t = u | None => id_name i = Some (tab_name t) end.

(** A table uuid needs no schema. *)
Definition names_table (A : acat) (si ti : Ident) (t : Table) : Prop :=
  match id_uuid ti with
  | Some u => A SysTables !! tab_uuid t = Some (TableRow t) ∧ tab_uuid t = u
  | None => ∃ s, names_schema A si s ∧ names_table_in A (sc_uuid s) ti t
  end.

(** An index uuid needs no table. *)
Definition names_index (A : acat) (table_uuid : Z) (i : Ident) (x : Index) : Prop :=
  A SysIndexes !! ix_uuid x = Some (IndexRow x) ∧
  match id_uuid i with Some u => ix_uuid x = u | None => id_name i = Some (ix_name x) ∧ ix_table_uuid x = table_uuid end.

(** ** The catalog a branch shows *)

Section world.
Context {H : ContentHash} (catalog : Z) {known : Z → Prop} {HC : CollisionFree H (catalog_text catalog known)}.
Context `{CV : ColdBatch sys_row, CU : ColdBatch unit, L : SnapshotLayout sys_row}.
Context (E : sys_table → env sys_row).

Notation index_key := (sys_index_key catalog).

(** The rows of a system table's committed history. *)
Definition content (st : branch_state sys_row) (x : Z * sys_row) : Prop :=
  ∃ u, live (historyU st) (historyD st) u ∧ row_uuid u = x.1 ∧ cols u = x.2.

(** Nothing is written under a transaction that is still open. *)
Definition settled (st : branch_state sys_row) : Prop :=
  (∀ u, u ∈ ts_upserts (bs_table st) → lr_tx_uuid u ∈ ct_tx_uuid <$> tx_commit_log (bs_tx st)) ∧
  (∀ d, d ∈ ts_deletes (bs_table st) → lr_tx_uuid d ∈ ct_tx_uuid <$> tx_commit_log (bs_tx st)).

(** The branch's system tables show the catalog [A]: each lives in a world of its
    own beside the same transaction logs. *)
Record tracks (c : catalog_state) (t : Z) (ws : sys_table → world sys_row) (A : acat) : Prop := {
  tk_inv : ∀ k, ∃ gone, Inv (E k) sys_value index_key (ws k) gone;
  tk_real : ∀ k, w_real (ws k) = sys_view c k;
  tk_now : ∀ k, w_now (ws k) = t;
  tk_settled : ∀ k, settled (w_ideal (ws k));
  tk_content : ∀ k x, content (w_ideal (ws k)) x ↔ ∃ u r, A k !! u = Some r ∧ x = (sys_row_uuid catalog k u, r);
  tk_known : ∀ k u r, A k !! u = Some r → known u;
}.

(** An identifier that names no uuid outside the known ones. *)
Definition known_ident (i : Ident) : Prop := ∀ u, id_uuid i = Some u → known u.

Context (may_match : (Z * sys_row → bool) → SnapshotSegment sys_row → bool) (Hprune : prune_sound may_match).

Section lookups.
Context (c : catalog_state) (t : Z) (ws : sys_table → world sys_row) (A : acat) (Htk : tracks c t ws A).

Notation now_at := (LatestSeq (branch_seq_frontier (cat_tx c))).
Notation read k sel := (read_system_table catalog may_match (sys_view c k) k sel now_at).

Lemma read_latest_rows k sel : selection_ok k sel →
  ∃ rows, read k sel = Ok (snd <$> rows) ∧ NoDup (fst <$> rows) ∧
    ∀ x, x ∈ rows ↔ ∃ u r, A k !! u = Some r ∧ x = (sys_row_uuid catalog k u, r) ∧ selects k sel x.
Proof using HC Hprune Htk.
  intros Hok. destruct (tk_inv _ _ _ _ Htk k) as [gone Hk]. pose proof (tk_real _ _ _ _ Htk k) as Hr.
  pose proof (inv_coherent _ _ _ _ _ Hk) as Hco. rewrite Hr in Hco.
  destruct (read_system_rows catalog may_match Hprune (sys_view c k) k sel now_at _ _ Hco ltac:(simpl; i64) Hok) as (rows & Hrd & Hnd & Hel).
  exists rows. split_and!; [done|done|]. intros [r v]. rewrite Hel.
  pose proof (iv_tx _ _ _ _ _ Hk) as Htx. pose proof (iv_wf _ _ _ _ _ Hk) as Hw. rewrite Hr in Htx, Hw. simpl in Htx, Hw.
  rewrite <- Htx, latest_table by (by rewrite Htx).
  pose proof (tk_content _ _ _ _ Htk k (r, v)) as Hc. unfold content in Hc. simpl in Hc. rewrite Hc. naive_solver.
Qed.

(** A selection that at most one row satisfies. *)
Lemma read_one k sel : selection_ok k sel →
  (∀ u r u' r', A k !! u = Some r → A k !! u' = Some r' →
     selects k sel (sys_row_uuid catalog k u, r) → selects k sel (sys_row_uuid catalog k u', r') → u = u') →
  ∃ o, read k sel = Ok (option_list o) ∧
    ∀ r, o = Some r ↔ ∃ u, A k !! u = Some r ∧ selects k sel (sys_row_uuid catalog k u, r).
Proof using HC Hprune Htk.
  intros Hok Hone. destruct (read_latest_rows k sel Hok) as (rows & -> & Hnd & Hel).
  assert (∀ x y, x ∈ rows → y ∈ rows → x = y) as Hsame.
  { intros x y (u & r & Hu & -> & Hsel)%Hel (u' & r' & Hu' & -> & Hsel')%Hel.
    assert (u = u') as <- by (by eapply Hone). congruence. }
  destruct rows as [|x [|y rows]].
  - exists None. split; [done|]. intros r. split; [done|]. intros (u & Hu & Hsel).
    assert ((sys_row_uuid catalog k u, r) ∈ @nil (Z * sys_row)) as []%not_elem_of_nil. apply Hel. eauto.
  - exists (Some x.2). split; [done|]. intros r. split.
    + intros [= <-]. destruct (proj1 (Hel x) ltac:(by left)) as (u & r & Hu & -> & Hsel). eauto.
    + intros (u & Hu & Hsel). assert ((sys_row_uuid catalog k u, r) ∈ [x]) as <-%list_elem_of_singleton by (apply Hel; eauto). done.
  - exfalso. assert (x = y) as -> by (apply Hsame; set_solver). apply NoDup_cons in Hnd as [Hn _]. apply Hn. by left.
Qed.

(** The one row filed under a uuid, and the one row under a name. *)
Lemma read_identity k u f : known u →
  ∃ o, read k (IdentitySeek [sys_row_uuid catalog k u] f) = Ok (option_list o) ∧
    ∀ r, o = Some r ↔ A k !! u = Some r ∧ ∀ p, f = Some p → p (sys_row_uuid catalog k u, r) = true.
Proof using HC Hprune Htk.
  intros Hkn. assert (∀ u' r, A k !! u' = Some r → sys_row_uuid catalog k u' ∈ [sys_row_uuid catalog k u] → u' = u) as Hu.
  { intros u' r Hr Heq%list_elem_of_singleton. by apply (sys_row_uuid_inj catalog (known := known) k); [apply (tk_known _ _ _ _ Htk k u' r)|..]. }
  destruct (read_one k (IdentitySeek [sys_row_uuid catalog k u] f)) as (o & -> & Ho); [done|..].
  - intros u1 r1 u2 r2 Hr1 Hr2 [H1 _] [H2 _]. rewrite (Hu u1 r1 Hr1 H1), (Hu u2 r2 Hr2 H2). done.
  - exists o. split; [done|]. intros r. rewrite Ho. split.
    + intros (u' & Hr & [H1 ?]). by rewrite <- (Hu u' r Hr H1).
    + intros [Hr Hf]. exists u. split; [done|]. split; [by left|done].
Qed.

Context (Hwf : cat_wf A).

Lemma read_name k key : length key = length (name_columns k) →
  ∃ o, read k (NameSeek [key]) = Ok (option_list o) ∧ ∀ r, o = Some r ↔ A k !! (row_id r).2 = Some r ∧ name_key r = key.
Proof using HC Hprune Htk Hwf.
  intros Hlen.
  assert (∀ u r, A k !! u = Some r → selects k (NameSeek [key]) (sys_row_uuid catalog k u, r) ↔ name_key r = key) as Hsel.
  { intros u r Hr. pose proof (cw_typed _ Hwf _ _ _ Hr) as Hid. cbn [selects].
    pose proof (name_key_spec (sys_row_uuid catalog k u) r) as Hn. rewrite Hid in Hn. simpl in Hn. split.
    - intros (t' & ->%list_elem_of_singleton & Heq). rewrite Hn in Heq. by apply (inj (fmap Some)) in Heq.
    - intros <-. exists (name_key r). split; [by left|done]. }
  destruct (read_one k (NameSeek [key])) as (o & -> & Ho).
  - split; [done|]. by constructor.
  - intros u r u' r' Hr Hr' H1%Hsel H2%Hsel; [|done|done]. eapply (cw_names _ Hwf); [done|done|congruence].
  - exists o. split; [done|]. intros r. rewrite Ho. split.
    + intros (u & Hr & Hs%Hsel); [|done]. split; [|done]. by rewrite (cw_typed _ Hwf _ _ _ Hr).
    + intros [Hr Hk]. eexists. split; [done|]. by apply Hsel.
Qed.
Notation get_schema u n := (meta_get_schema catalog may_match c u n now_at).
Notation get_table sc u n := (meta_get_table catalog may_match c sc u n now_at).
Notation get_index tb u n := (meta_get_index catalog may_match c tb u n now_at).

Lemma get_schema_spec i : known_ident i →
  ∃ o, get_schema (id_uuid i) (id_name i) = Ok o ∧ ∀ s, o = Some s ↔ names_schema A i s.
Proof using HC Hprune Htk Hwf.
  intros Hkn. unfold names_schema, meta_get_schema, resolve_schema_metadata.
  assert (∀ o, first_row as_schema (option_list o) = o ≫= as_schema) as Hf by by intros [[]|].
  assert (∀ (o : option sys_row) s, o ≫= as_schema = Some s ↔ o = Some (SchemaRow s)) as Hs.
  { intros [[a|a|a]|] s; simpl; naive_solver. }
  unfold known_ident in Hkn. destruct (id_uuid i) as [u|]; [|destruct (id_name i) as [n|]].
  - destruct (read_identity SysSchemas u None) as (o & Ho & Hel); [by apply Hkn|]. simpl. rewrite Ho. simpl. rewrite Hf. eexists. split; [done|].
    intros sch. rewrite Hs, Hel. split.
    + intros [Hr _]. pose proof (cw_typed _ Hwf _ _ _ Hr) as [= ->]. done.
    + intros [Hr <-]. done.
  - destruct (read_name SysSchemas [n]) as (o & Ho & Hel); [done|]. simpl. rewrite Ho. simpl. rewrite Hf. eexists. split; [done|].
    intros sch. rewrite Hs, Hel. simpl. naive_solver.
  - exists None. split; [done|]. naive_solver.
Qed.

Lemma with_indexes_ok o : ∃ o', with_indexes catalog may_match c now_at o = Ok o' ∧ fst <$> o' = o.
Proof using HC Hprune Htk.
  destruct o as [tb|]; [|by exists None]. simpl. unfold resolve_table_indexes, resolve_index_metadata. simpl.
  destruct (read_latest_rows SysIndexes (Scan (Some (table_uuid_in_filter [tab_uuid tb]))) I) as (rows & -> & _). simpl. by eexists.
Qed.

Lemma table_row_found (o : option sys_row) (o' : option (Table * list Index)) :
  fst <$> o' = o ≫= as_table → ∀ tb, (∃ ixs, o' = Some (tb, ixs)) ↔ o = Some (TableRow tb).
Proof using.
  intros Ho tb. destruct o' as [[tb' ixs]|], o as [[]|]; simpl in *; naive_solver.
Qed.

Lemma get_table_spec scope i : known_ident i →
  ∃ o, get_table scope (id_uuid i) (id_name i) = Ok o ∧ ∀ tb, (∃ ixs, o = Some (tb, ixs)) ↔ names_table_in A scope i tb.
Proof using HC Hprune Htk Hwf.
  intros Hkn. unfold names_table_in, meta_get_table, resolve_table_metadata.
  assert (∀ o, first_row as_table (option_list o) = o ≫= as_table) as Hf by by intros [[]|].
  unfold known_ident in Hkn. destruct (id_uuid i) as [u|]; [|destruct (id_name i) as [n|]].
  - destruct (read_identity SysTables u (schema_scoped_filter (Some scope))) as (o & Ho & Hel); [by apply Hkn|]. simpl in Ho |- *. rewrite Ho. simpl. rewrite Hf.
    destruct (with_indexes_ok (o ≫= as_table)) as (o' & -> & Ho'). eexists. split; [done|].
    intros tb. rewrite (table_row_found _ _ Ho'), Hel. simpl. split.
    + intros [Hr Hp]. pose proof (cw_typed _ Hwf _ _ _ Hr) as [= ->]. specialize (Hp _ eq_refl). apply bool_decide_eq_true in Hp.
      injection Hp as Hp. done.
    + intros (Hr & <- & <-). split; [done|]. intros p [= <-]. by apply bool_decide_eq_true.
  - destruct (read_name SysTables [scope; n]) as (o & Ho & Hel); [done|]. simpl. rewrite Ho. simpl. rewrite Hf.
    destruct (with_indexes_ok (o ≫= as_table)) as (o' & -> & Ho'). eexists. split; [done|].
    intros tb. rewrite (table_row_found _ _ Ho'), Hel. simpl. naive_solver.
  - exists None. split; [done|]. naive_solver.
Qed.

Lemma get_by_uuid_spec u : known u →
  ∃ o, get_table_by_uuid catalog may_match c u now_at = Ok o ∧
    ∀ tb, (∃ ixs, o = Some (tb, ixs)) ↔ A SysTables !! tab_uuid tb = Some (TableRow tb) ∧ tab_uuid tb = u.
Proof using HC Hprune Htk Hwf.
  intros Hkn. unfold get_table_by_uuid, resolve_table_metadata. destruct (read_identity SysTables u None Hkn) as (o & Ho & Hel). simpl. rewrite Ho. simpl.
  assert (first_row as_table (option_list o) = o ≫= as_table) as -> by by destruct o as [[]|].
  destruct (with_indexes_ok (o ≫= as_table)) as (o' & -> & Ho'). eexists. split; [done|].
  intros tb. rewrite (table_row_found _ _ Ho'), Hel. split.
  - intros [Hr _]. by pose proof (cw_typed _ Hwf _ _ _ Hr) as [= ->].
  - by intros [Hr <-].
Qed.

Lemma get_index_spec tb i : known_ident i →
  ∃ o, get_index tb (id_uuid i) (id_name i) = Ok o ∧ ∀ x, o = Some x ↔ names_index A tb i x.
Proof using HC Hprune Htk Hwf.
  intros Hkn. unfold names_index, meta_get_index, resolve_index_metadata.
  assert (∀ o, first_row as_index (option_list o) = o ≫= as_index) as Hf by by intros [[]|].
  assert (∀ (o : option sys_row) x, o ≫= as_index = Some x ↔ o = Some (IndexRow x)) as Hs.
  { intros [[a|a|a]|] x; simpl; naive_solver. }
  unfold known_ident in Hkn. destruct (id_uuid i) as [u|]; [|destruct (id_name i) as [n|]].
  - destruct (read_identity SysIndexes u None) as (o & Ho & Hel); [by apply Hkn|]. simpl. rewrite Ho. simpl. rewrite Hf. eexists. split; [done|].
    intros x. rewrite Hs, Hel. split.
    + intros [Hr _]. by pose proof (cw_typed _ Hwf _ _ _ Hr) as [= ->].
    + by intros [Hr <-].
  - destruct (read_name SysIndexes [tb; n]) as (o & Ho & Hel); [done|]. simpl. rewrite Ho. simpl. rewrite Hf. eexists. split; [done|].
    intros x. rewrite Hs, Hel. simpl. naive_solver.
  - exists None. split; [done|]. naive_solver.
Qed.
Lemma list_tables_spec scope :
  ∃ l, meta_list_tables catalog may_match c scope now_at = Ok l ∧
    ∀ tb, (∃ ixs, (tb, ixs) ∈ l) ↔ A SysTables !! tab_uuid tb = Some (TableRow tb) ∧ tab_schema_uuid tb = scope.
Proof using HC Hprune Htk Hwf.
  unfold meta_list_tables, resolve_table_metadata.
  destruct (read_latest_rows SysTables (Scan (schema_scoped_filter (Some scope))) I) as (rows & Hr & _ & Hel). cbn [result_bind].
  rewrite Hr. cbn [result_bind]. set (tables := omap as_table _).
  assert (∀ tb, tb ∈ tables ↔ A SysTables !! tab_uuid tb = Some (TableRow tb) ∧ tab_schema_uuid tb = scope) as Htb.
  { intros tb. unfold tables. rewrite list_elem_of_omap. setoid_rewrite list_elem_of_fmap. split.
    - intros (r & (x & -> & Hx) & Has). apply Hel in Hx as (u & r & Hu & -> & Hsel). simpl in Has. destruct r; simplify_eq/=.
      pose proof (cw_typed _ Hwf _ _ _ Hu) as [= ->]. specialize (Hsel _ eq_refl). apply bool_decide_eq_true in Hsel.
      injection Hsel as Hsel. done.
    - intros [Hu <-]. exists (TableRow tb). split; [|done]. exists (sys_row_uuid catalog SysTables (tab_uuid tb), TableRow tb). split; [done|].
      apply Hel. eexists _, _. split_and!; [done|done|]. intros p [= <-]. by apply bool_decide_eq_true. }
  assert (∃ m : gmap Z (list Index), (if decide (tables = []) then Ok ∅
      else let? index_rows := resolve_index_metadata catalog may_match c None None None (Some (tab_uuid <$> tables)) now_at in
           Ok (demux_indexes_by_table index_rows)) = Ok (E := ApiError) m) as [m ->].
  { case_decide as Hne; [by eexists|]. unfold resolve_index_metadata. cbn [result_bind fmap option_fmap option_map filter_present].
    destruct (read_latest_rows SysIndexes (PrefixSeek (tab_uuid <$> tables))) as (ixs & -> & _); [|by eexists].
    split; [|done]. by destruct tables. }
  eexists. split; [reflexivity|]. intros tb. setoid_rewrite list_elem_of_fmap. rewrite <- Htb. naive_solver.
Qed.

(** ** Scopes *)

Lemma resolve_schema_ok i sch : known_ident i → resolve_schema catalog may_match c i now_at = Ok sch → names_schema A i sch.
Proof using HC Hprune Htk Hwf.
  intros Hkn. unfold known_ident in Hkn. unfold resolve_schema, found, names_schema. destruct (id_uuid i) as [u|]; [|destruct (id_name i) as [n|]; [|done]].
  - destruct (get_schema_spec {| id_uuid := Some u; id_name := None |}) as (o & Ho & Hel); [exact Hkn|]. cbn [id_uuid id_name] in Ho. rewrite Ho. simpl.
    destruct o; intros [= <-]. by apply Hel.
  - destruct (get_schema_spec {| id_uuid := None; id_name := Some n |}) as (o & Ho & Hel); [done|]. cbn [id_uuid id_name] in Ho. rewrite Ho. simpl.
    destruct o; intros [= <-]. by apply Hel.
Qed.

Lemma schema_scope_ok now i scope : known_ident i →
  resolve_schema_scope catalog may_match c now None i = Ok scope →
  rs_snapshot scope = now_at ∧ ∀ u, rs_schema_uuid scope = Some u → ∃ sch, names_schema A i sch ∧ u = sc_uuid sch.
Proof using HC Hprune Htk Hwf.
  intros Hkn. unfold resolve_schema_scope. simpl. case_decide; [|by intros [= <-]].
  destruct (resolve_schema _ _ _ _ _) as [sch|] eqn:Hs; [|done]. intros [= <-]. split; [done|]. intros u [= <-].
  eauto using resolve_schema_ok.
Qed.

Lemma table_scope_ok now si ti scope : known_ident si → known_ident ti →
  resolve_table_scope catalog may_match c now None si ti = Ok scope →
  rs_snapshot scope = now_at ∧
  ∃ tb ixs, rs_table_row scope = Some (tb, ixs) ∧ names_table A si ti tb ∧ rs_schema_uuid scope = Some (tab_schema_uuid tb).
Proof using HC Hprune Htk Hwf.
  intros Hks Hkt. unfold resolve_table_scope, names_table. change (resolve_read_snapshot _ _ _ _ _ _) with (Ok (E := ApiError) now_at).
  cbn [result_bind]. destruct (id_uuid ti) as [u|] eqn:Hu.
  - pose proof (get_by_uuid_spec u (Hkt u Hu)) as (o & Ho & Hel). unfold found. rewrite Ho. simpl. destruct o as [[tb ixs]|]; [|done]. intros [= <-].
    split; [done|]. exists tb, ixs. split_and!; [done|apply Hel; eauto..|done].
  - destruct (resolve_schema _ _ _ _ _) as [sch|] eqn:Hs; [|done]. cbn [result_bind]. destruct (id_name ti) as [n|] eqn:Hn; [|done].
    destruct (get_table_spec (sc_uuid sch) ti Hkt) as (o & Ho & Hel). rewrite Hu, Hn in Ho. unfold found. rewrite Ho. simpl.
    destruct o as [[tb ixs]|]; [|done]. intros [= <-].
    assert (names_table_in A (sc_uuid sch) ti tb) as Htb by (apply Hel; eauto). pose proof Htb as (_ & Heq & _).
    split; [done|]. exists tb, ixs. split_and!; [done|eauto using resolve_schema_ok|]. simpl. by rewrite Heq.
Qed.
End lookups.
(** ** Writes *)

Context (version : Z → Z → Z) (Hver : ∀ k, e_version_uuid (E k) = version) (Henv : ∀ k, env_ok (E k) sys_value index_key).

(** The rows of an edit as the logs take them. *)
Definition edit_change (k : sys_table) (ups : list sys_row) (dels : list Z) : Change sys_row :=
  {| ch_upserts := (λ r, (sys_row_uuid catalog k (row_id r).2, r)) <$> ups; ch_deletes := sys_row_uuid catalog k <$> dels |}.

Lemma edit_upserted k ups dels x : x ∈ ch_upserts (edit_change k ups dels) ↔ ∃ r, r ∈ ups ∧ x = (sys_row_uuid catalog k (row_id r).2, r).
Proof using. simpl. rewrite list_elem_of_fmap. naive_solver. Qed.

Lemma edit_keys k ups dels u : known u → (∀ r, r ∈ ups → known (row_id r).2) → sys_row_uuid catalog k u ∈ fst <$> ch_upserts (edit_change k ups dels) ↔ u ∈ ids ups.
Proof using HC.
  intros Hu Hups. simpl. rewrite <- list_fmap_compose, !list_elem_of_fmap. split; intros (r & Hr & Hin); exists r; (split; [|done]); simpl in *;
    [by apply (sys_row_uuid_inj catalog (known := known)) in Hr; [|done|by apply Hups]|by rewrite Hr].
Qed.

Lemma edit_dels k ups dels u : known u → (∀ u', u' ∈ dels → known u') → sys_row_uuid catalog k u ∈ ch_deletes (edit_change k ups dels) ↔ u ∈ dels.
Proof using HC.
  intros Hu Hds. simpl. rewrite list_elem_of_fmap. split; [|eauto]. intros (u' & Heq & Hin).
  apply (sys_row_uuid_inj catalog (known := known)) in Heq as ->; [done|done|by apply Hds].
Qed.

(** A change of one auto-commit to one system table. *)
Lemma world_write k w gone now fresh ch l cm ts :
  Inv (E k) sys_value index_key w gone → tick w now → fresh_tx (bs_tx (w_real w)) fresh → settled (w_ideal w) →
  auto_commit_tx (bs_tx (w_real w)) now fresh = Ok (l, cm) → apply_change version (bs_table (w_real w)) ch fresh = Ok ts →
  ∃ w', Inv (E k) sys_value index_key w' gone ∧ w_real w' = {| bs_tx := l; bs_table := ts |} ∧ w_now w' = now ∧
    settled (w_ideal w') ∧
    ∀ x, content (w_ideal w') x ↔ x ∈ ch_upserts ch ∨
      content (w_ideal w) x ∧ x.1 ∉ fst <$> ch_upserts ch ∧ x.1 ∉ ch_deletes ch.
Proof using Henv Hver.
  intros Hi Htick Hfr [HsU HsD] Hl Hap. rewrite <- (Hver k) in Hap.
  assert (write_data (e_version_uuid (E k)) (w_real w) now fresh None (Some ch) =
    Ok ({| bs_tx := l; bs_table := ts |}, Some (ct_commit_micros cm))) as Hw.
  { unfold write_data, resolve_or_auto_commit_tx. rewrite Hl. cbn [result_bind]. by rewrite Hap. }
  destruct (write_ideal (E k) sys_value index_key (Henv k) w gone now fresh ch _ _ Hi Htick Hfr Hw) as (sti & out' & Hwi & Htxi).
  pose proof (inv_write (E k) sys_value index_key (eo_version _ _ _ (Henv k)) w gone now fresh None (Some ch) Hi Htick (λ _, Hfr)) as Hi'.
  simpl in Hi'. rewrite Hw, Hwi in Hi'. eexists. split; [exact Hi'|]. split_and!; [done|done| |].
  - pose proof Hi as [Htx _ _ HU HD _ _ _ _ _]. revert Hwi. unfold write_data, resolve_or_auto_commit_tx. rewrite Htx, Hl. cbn [result_bind].
    destruct (apply_change _ (bs_table (w_ideal w)) ch fresh) as [ti'|] eqn:Ea; [|done]. cbn [result_bind]. intros [= <- _].
    apply commit_insert_Ok in Hl as (Hc & -> & _ & _). rewrite Htx in HsU, HsD.
    destruct (apply_change_rows _ (eo_version _ _ _ (Henv k)) _ _ _ _ (lo_versions _ _ _ _ _ HU) (lo_versions _ _ _ _ _ HD)
      (log_fresh (E k) _ _ _ _ _ HU Hfr) (log_fresh (E k) _ _ _ _ _ HD Hfr) Ea) as [sq Hrows].
    assert (fresh = ct_tx_uuid cm) as Hf by by rewrite Hc.
    split; intros u; cbn [bs_tx bs_table tx_commit_log w_ideal]; rewrite fmap_app, elem_of_app, list_fmap_singleton, list_elem_of_singleton, <- Hf.
    + intros [Hu|(i & x & _ & ->)]%(cr_upserts _ _ _ _ _ _ Hrows); [left; by apply HsU|by right].
    + intros [Hd|(-> & _)]%(cr_deletes _ _ _ _ _ _ Hrows); [left; by apply HsD|by right].
  - intros [r v]. apply (write_live (E k) sys_value index_key (Henv k) w gone now fresh ch sti out' r v Hi Htick Hfr Hwi).
Qed.

Lemma tracks_write c t ws A now fresh l cm c' ups dels :
  tracks c t ws A → t ≤ now → 0 < now < I64_MAX → fresh_tx (cat_tx c) fresh →
  auto_commit_tx (cat_tx c) now fresh = Ok (l, cm) → cat_tx c' = l → (∀ k, NoDup (ids (ups k))) →
  (∀ k r, r ∈ ups k → known (row_id r).2) → (∀ k u, u ∈ dels k → known u) →
  (∀ k, apply_change version (store c k) (edit_change k (ups k) (dels k)) fresh = Ok (store c' k)) →
  ∃ ws', tracks c' now ws' (edit A ups dels).
Proof using HC Henv Hver.
  intros [Hinv Hreal Hnow Hset Hcon Hkn] Ht Hrange Hfr Hl Htx Hnd Hku Hkd Hap.
  assert (∀ k, ∃ w', (∃ gone, Inv (E k) sys_value index_key w' gone) ∧ w_real w' = sys_view c' k ∧ w_now w' = now ∧ settled (w_ideal w') ∧
    ∀ x, content (w_ideal w') x ↔ x ∈ ch_upserts (edit_change k (ups k) (dels k)) ∨
      content (w_ideal (ws k)) x ∧ x.1 ∉ fst <$> ch_upserts (edit_change k (ups k) (dels k)) ∧
      x.1 ∉ ch_deletes (edit_change k (ups k) (dels k))) as Hk.
  { intros k. destruct (Hinv k) as [gone Hi].
    destruct (world_write k (ws k) gone now fresh (edit_change k (ups k) (dels k)) l cm (store c' k) Hi) as (w' & Hi' & Hr' & ? & ? & ?);
      rewrite ?Hreal; [by split; rewrite ?Hnow|done|done|done|apply Hap|]. exists w'. split; [eauto|]. split_and!; [|done..].
    rewrite Hr'. unfold sys_view. by rewrite Htx. }
  apply each_table in Hk as [ws' Hk]. exists ws'. split; [intros k; by destruct (Hk k) as (? & ? & ? & ? & ?)..| |].
  2:{ intros k u r. rewrite edit_lookup by done. intros [[Hr <-]|(Hr & _)]; eauto. }
  intros k x. assert (content (w_ideal (ws' k)) x ↔ x ∈ ch_upserts (edit_change k (ups k) (dels k)) ∨
      content (w_ideal (ws k)) x ∧ x.1 ∉ fst <$> ch_upserts (edit_change k (ups k) (dels k)) ∧
      x.1 ∉ ch_deletes (edit_change k (ups k) (dels k))) as -> by apply Hk.
  rewrite edit_upserted, Hcon. setoid_rewrite edit_lookup; [|done]. split.
  - intros [(r & Hr & ->)|((u & r & Hr & ->) & Hn & Hd)]; [by eauto 10|]. exists u, r. split; [|done]. right.
    cbn [fst] in Hn, Hd. rewrite edit_keys in Hn by eauto. rewrite edit_dels in Hd by eauto. done.
  - intros (u & r & [[Hr <-]|(Hr & Hn & Hd)] & ->); [by eauto|right]. cbn [fst]. rewrite edit_keys, edit_dels by eauto. eauto 10.
Qed.
End world.
