(* ===== verification/CatalogTheorems.v ===== *)
(** * What the catalog promises

    A DDL request that succeeds changes the catalog by exactly the object it
    names; run one after another, beside transactions and the life cycle of the
    system tables, the requests keep names unique in their scope and every table
    in a schema that exists. *)

From S2P Require Import Prelude CoreTypes Naming Watermarks ReadSnapshot Dialect MergeSql IndexSeek Plan SnapshotScan IndexSelect TxLog TableStore BatchUtil SeekBatch ReadPath Lifecycle ReadLemmas ReadData Tiers ReadCorrect System SystemInv SystemPersist SystemSnapshot SystemTheorems WriteTheorems NamingTheorems Catalog CatalogReads.
From stdpp Require Import base numbers list option strings gmap sets.

Open Scope Z_scope.
Open Scope result_scope.

(** ** The effect of a request *)

Definition unused (A : acat) (k : sys_table) (key : list Z) : Prop := ∀ u r, A k !! u = Some r → name_key r ≠ key.

(** An [only] of a table is a column of an edit. *)
Definition both {X} (k : sys_table) (l : list X) (k' : sys_table) (l' : list X) : sys_table → list X :=
  λ k0, only k l k0 ++ only k' l' k0.

(** A primary key of distinct columns of the schema, and indexes of distinct
    names over such columns. *)
Record table_spec_ok (spec : TableSpec) (indexes : list IndexSpec) (columns : schema) : Prop := {
  to_schema : tsp_arrow_schema spec = Some columns;
  to_pk : tsp_primary_keys spec ≠ [];
  to_pk_nodup : NoDup (tsp_primary_keys spec);
  to_pk_columns : Forall (λ pk, pk ∈ field_name <$> columns) (tsp_primary_keys spec);
  to_names : NoDup (isp_name <$> indexes);
  to_columns : Forall (λ d, isp_columns d ≠ [] ∧ Forall (λ col, col ∈ field_name <$> columns) (isp_columns d)) indexes;
}.

Section effect.
Context {H : ContentHash} (catalog : Z).

Definition user_schema (s : Schema) : Prop := sc_uuid s ≠ system_schema_uuid catalog.
Definition user_table (t : Table) : Prop := ∀ k, tab_uuid t ≠ sys_table_uuid catalog k.

Inductive effect (A : acat) : ddl → acat → Prop :=
  | EffCreateSchema uuid name description rc :
      unused A SysSchemas [name] →
      effect A (CreateSchema uuid name description rc)
        (edit A (only SysSchemas [SchemaRow {| sc_uuid := uuid; sc_name := name; sc_description := description;
                                               sc_retention := stored_retention rc |}]) none)
  | EffUpdateSchema i s new_name description rc :
      names_schema A i s → user_schema s →
      let name := default (sc_name s) new_name in
      free A SysSchemas [name] (sc_uuid s) → reject_retention_duration_change (sc_retention s) rc = Ok tt →
      effect A (UpdateSchema i new_name description rc)
        (edit A (only SysSchemas [SchemaRow {| sc_uuid := sc_uuid s; sc_name := name; sc_description := description;
                                               sc_retention := stored_retention rc |}]) none)
  | EffDeleteSchema i s tables :
      names_schema A i s → user_schema s →
      (∀ u, u ∈ tables ↔ ∃ t, A SysTables !! u = Some (TableRow t) ∧ tab_schema_uuid t = sc_uuid s) →
      effect A (DeleteSchema i) (edit A none (both SysSchemas [sc_uuid s] SysTables tables))
  | EffCreateTable i s uuid name spec indexes columns :
      names_schema A i s → user_schema s → unused A SysTables [sc_uuid s; name] → table_spec_ok spec indexes columns →
      effect A (CreateTable i uuid name spec indexes)
        (edit A (both SysTables [TableRow (table_row uuid (sc_uuid s) name spec)]
                      SysIndexes (IndexRow ∘ index_row uuid <$> indexes)) none)
  | EffUpdateTable si ti t new_name spec :
      names_table A si ti t → user_table t →
      let name := default (tab_name t) new_name in
      free A SysTables [tab_schema_uuid t; name] (tab_uuid t) →
      reject_retention_duration_change (tab_retention t) (tsp_retention spec) = Ok tt →
      effect A (UpdateTable si ti new_name spec)
        (edit A (only SysTables [TableRow (table_row (tab_uuid t) (tab_schema_uuid t) name spec)]) none)
  | EffDeleteTable si ti t :
      names_table A si ti t → user_table t → effect A (DeleteTable si ti) (edit A none (only SysTables [tab_uuid t]))
  | EffCreateIndex si ti t d :
      names_table A si ti t → user_table t → isp_columns d ≠ [] → unused A SysIndexes [tab_uuid t; isp_name d] →
      effect A (CreateIndex si ti d) (edit A (only SysIndexes [IndexRow (index_row (tab_uuid t) d)]) none)
  | EffUpdateIndex si ti t ii x new_name :
      names_table A si ti t → user_table t → names_index A (tab_uuid t) ii x →
      (new_name ≠ ix_name x → free A SysIndexes [tab_uuid t; new_name] (ix_uuid x)) →
      effect A (UpdateIndex si ti ii new_name)
        (edit A (only SysIndexes [IndexRow {| ix_uuid := ix_uuid x; ix_table_uuid := tab_uuid t; ix_name := new_name;
                                              ix_columns := ix_columns x; ix_type := ix_type x |}]) none)
  | EffDeleteIndex si ti t ii x :
      names_table A si ti t → user_table t → names_index A (tab_uuid t) ii x →
      effect A (DeleteIndex si ti ii) (edit A none (only SysIndexes [ix_uuid x])).
End effect.

(** ** Requests keep the catalog well-formed *)

(** A drawn uuid is used by no row and as no table. *)
Definition drawn (A : acat) (q : ddl) : Prop :=
  match q with
  | CreateSchema uuid _ _ _ => A SysSchemas !! uuid = None
  | CreateTable _ uuid _ _ indexes =>
      A SysTables !! uuid = None ∧ (∀ u x, A SysIndexes !! u = Some (IndexRow x) → ix_table_uuid x ≠ uuid) ∧
      NoDup (isp_uuid <$> indexes) ∧ ∀ d, d ∈ indexes → A SysIndexes !! isp_uuid d = None
  | CreateIndex _ _ d => A SysIndexes !! isp_uuid d = None
  | _ => True
  end.

(** An index to rename is given by its name. *)
Definition addressed (q : ddl) : Prop := match q with UpdateIndex _ _ ii _ => id_uuid ii = None | _ => True end.

Lemma held_free A k u r : cat_wf A → A k !! u = Some r → free A k (name_key r) u.
Proof. intros Hwf Hr u' r' Hr' Heq. by eapply (cw_names _ Hwf). Qed.

Lemma unused_free A k key u : unused A k key → free A k key u.
Proof. intros Hu u' r' Hr' Heq. by destruct (Hu u' r' Hr'). Qed.

Lemma wf_put A r :
  cat_wf A → free A (row_id r).1 (name_key r) (row_id r).2 →
  (∀ t, r = TableRow t → is_Some (A SysSchemas !! tab_schema_uuid t)) → cat_wf (edit A (only (row_id r).1 [r]) none).
Proof.
  intros Hwf Hf Ht. assert (∀ k x, x ∈ only (row_id r).1 [r] k → x = r ∧ k = (row_id r).1) as Hone.
  { intros k x. unfold only. case_decide; [by intros ->%list_elem_of_singleton|by intros ?%not_elem_of_nil]. }
  apply wf_edit; try done.
  - intros k. unfold only. case_decide; [apply NoDup_singleton|constructor].
  - by intros k x [-> ->]%Hone.
  - by intros k x y [-> _]%Hone [-> _]%Hone.
  - by intros k x [-> ->]%Hone.
  - intros t [<- _]%Hone. left. by apply Ht.
  - by intros t _ ?%not_elem_of_nil.
Qed.

Lemma wf_drop A dels :
  cat_wf A → (∀ u t, A SysTables !! u = Some (TableRow t) → tab_schema_uuid t ∈ dels SysSchemas → u ∈ dels SysTables) →
  cat_wf (edit A none dels).
Proof.
  intros Hwf Hd. apply wf_edit; try done; try (by intros k x ?%not_elem_of_nil); try (by intros k x y ?%not_elem_of_nil).
  - intros k. constructor.
  - by intros t ?%not_elem_of_nil.
  - intros t [?%not_elem_of_nil|[Hr Hn]] Hin; [done|]. apply Hn. by eapply Hd.
Qed.

Lemma only_in {X} k (l : list X) k' x : x ∈ only k l k' ↔ k' = k ∧ x ∈ l.
Proof. unfold only. case_decide; [naive_solver|]. rewrite elem_of_nil. naive_solver. Qed.

Lemma both_in {X} k (l : list X) k' l' k0 x : x ∈ both k l k' l' k0 ↔ (k0 = k ∧ x ∈ l) ∨ (k0 = k' ∧ x ∈ l').
Proof. unfold both. by rewrite elem_of_app, !only_in. Qed.

Lemma wf_create_table A u r ixs :
  cat_wf A → row_id r = (SysTables, u) → free A SysTables (name_key r) u →
  (∀ t, r = TableRow t → is_Some (A SysSchemas !! tab_schema_uuid t)) →
  (∀ x, x ∈ ixs → (row_id x).1 = SysIndexes) → NoDup (ids ixs) →
  (∀ x y, x ∈ ixs → y ∈ ixs → name_key x = name_key y → (row_id x).2 = (row_id y).2) →
  (∀ x, x ∈ ixs → unused A SysIndexes (name_key x)) → cat_wf (edit A (both SysTables [r] SysIndexes ixs) none).
Proof.
  intros Hwf Hid Hf Ht Hk Hnd Hself Hun. apply wf_edit; try done.
  - intros []; [apply NoDup_nil_2|apply NoDup_singleton|done].
  - intros k x [[-> ->%list_elem_of_singleton]|[-> Hx]]%both_in; [by rewrite Hid|by apply Hk].
  - intros k x y [[-> ->%list_elem_of_singleton]|[-> Hx]]%both_in [[Hk' ->%list_elem_of_singleton]|[Hk' Hy]]%both_in; try done. by apply Hself.
  - intros k x [[-> ->%list_elem_of_singleton]|[-> Hx]]%both_in; [by rewrite Hid|]. by apply unused_free, Hun.
  - intros t [[_ Hin%list_elem_of_singleton]|[? _]]%both_in; [|done]. left. by apply Ht.
  - by intros t _ ?%not_elem_of_nil.
Qed.

Lemma effect_wf `{H : ContentHash} catalog A q A' :
  cat_wf A → drawn A q → addressed q → effect catalog A q A' → cat_wf A'.
Proof.
  intros Hwf Hd Ha He. destruct He as [uuid name description rc Hu|i s nn d rc [Hs _] _ name Hf _|i s tables [Hs _] _ Htb
    |i s uuid name spec indexes columns [Hs _] _ Hu Hok|si ti t nn spec Ht _ name Hf _|si ti t Ht _
    |si ti t d Ht _ _ Hu|si ti t ii x n Ht _ [Hx Hii] Hf|si ti t ii x Ht _ Hx].
  - apply (wf_put A (SchemaRow _)); [done|by apply unused_free|done].
  - by apply (wf_put A (SchemaRow _)).
  - apply wf_drop; [done|]. intros u t Hr [[_ Heq%list_elem_of_singleton]|[? _]]%both_in; [|done].
    apply both_in. right. split; [done|]. apply Htb. eauto.
  - destruct Hd as (_ & Hown & Hnd & Hix). apply (wf_create_table A uuid); try done.
    + by apply unused_free.
    + intros t [= <-]. simpl. eauto.
    + by intros x (y & -> & _)%list_elem_of_fmap.
    + by rewrite <- list_fmap_compose.
    + intros x y (d & -> & Hd)%list_elem_of_fmap (d' & -> & Hd')%list_elem_of_fmap [= Heq]. simpl.
      by rewrite (NoDup_fmap_eq isp_name indexes d d' (to_names _ _ _ Hok) Hd Hd' Heq).
    + intros x (d & -> & Hd)%list_elem_of_fmap u r Hr Heq. pose proof (cw_typed _ Hwf _ _ _ Hr) as Hid.
      destruct r as [|?|x]; try done. injection Heq as Heq _. by apply (Hown u x).
  - assert (A SysTables !! tab_uuid t = Some (TableRow t)) as Hr.
    { unfold names_table in Ht. destruct (id_uuid ti); [apply Ht|]. destruct Ht as (sc & _ & Hr & _). exact Hr. }
    apply (wf_put A (TableRow _)); [done|done|]. intros t' [= <-]. simpl. by eapply (cw_housed _ Hwf).
  - apply wf_drop; [done|]. by intros u t' _ [? _]%only_in.
  - apply (wf_put A (IndexRow _)); [done|by apply unused_free|done].
  - apply (wf_put A (IndexRow _)); [done| |done]. simpl. destruct (decide (n = ix_name x)) as [->|]; [|by apply Hf].
    simpl in Ha. rewrite Ha in Hii. destruct Hii as [_ <-]. by apply (held_free A SysIndexes _ (IndexRow x)).
  - apply wf_drop; [done|]. by intros u t' _ [? _]%only_in.
Qed.

(** ** What the handlers write *)

Lemma inline_indexes_ok columns defs : ∀ seen, validate_inline_indexes columns seen defs = Ok tt →
  NoDup (isp_name <$> defs) ∧ (∀ n, n ∈ isp_name <$> defs → n ∉ seen) ∧
  Forall (λ d, isp_columns d ≠ [] ∧ Forall (λ col, col ∈ columns) (isp_columns d)) defs.
Proof.
  induction defs as [|d defs IH]; intros seen; simpl; [intros _; split_and!; [constructor|by intros n ?%not_elem_of_nil|constructor]|].
  case_decide as Hc; [done|]. case_decide as Hcols; [|done]. case_decide as Hs; [done|]. intros (Hnd & Hn & Hf)%IH.
  split_and!; [|intros n [->|Hin]%elem_of_cons; [done|set_solver]|by constructor]. constructor; [|done]. intros Hin%Hn. set_solver.
Qed.

Lemma create_spec_ok spec indexes columns :
  validate_create_table spec indexes = Ok tt → tsp_arrow_schema spec = Some columns →
  validate_create_table_primary_keys (tsp_primary_keys spec) columns = Ok tt → table_spec_ok spec indexes columns.
Proof.
  unfold validate_create_table, validate_create_table_primary_keys, validate_column_types. intros Hv Hs Hpk. rewrite Hs in Hv.
  destruct (forallb _ _); [|done]. simpl in Hv. apply inline_indexes_ok in Hv as (Hnd & _ & Hf). by repeat case_decide.
Qed.

Section stores.
Context (version : Z → Z → Z).

Lemma log_upserts_app t x xs ts : log_upserts version t (x :: xs) ts = log_upserts version t xs (log_upserts version t [x] ts).
Proof. unfold log_upserts. destruct x as [r v]. simpl. by case_decide. Qed.

Lemma log_deletes_app t d ds ts : log_deletes version t (d :: ds) ts = log_deletes version t ds (log_deletes version t [d] ts).
Proof. unfold log_deletes. simpl. by case_decide. Qed.

Lemma apply_ups ts xs t :
  xs ≠ [] → NoDup (fst <$> xs) →
  apply_change version ts {| ch_upserts := xs; ch_deletes := [] |} t = Ok (log_tx_table t (log_upserts version t xs ts)).
Proof.
  intros Hne Hnd. unfold apply_change, log_upserts, log_tx_table. rewrite decide_False by naive_solver. simpl.
  rewrite decide_True by done. by destruct (insert_upserts _ _ _ _ _).
Qed.

Lemma apply_dels ts ds t :
  ds ≠ [] → apply_change version ts {| ch_upserts := []; ch_deletes := ds |} t = Ok (log_tx_table t (log_deletes version t ds ts)).
Proof.
  intros Hne. unfold apply_change, log_deletes, log_tx_table. rewrite decide_False by naive_solver. simpl.
  destruct (insert_deletes _ _ _ _ _). done.
Qed.
Lemma evolve_data u a b c c' : evolve_data_log_schema u a b c = Ok c' → ∃ d, c' = set_data c d.
Proof.
  assert (c = set_data c (cat_data c)) as Heq by by destruct c. unfold evolve_data_log_schema.
  destruct (cat_data c !! u) as [[cols pks]|]; destruct (evolve_columns _ _ _) as [?|]; simpl; try done.
  - intros [= <-]. eauto.
  - case_decide; [|done]. intros [= <-]. eauto.
Qed.

Lemma create_data u a pks c c' : create_data_tables u a pks c = Ok c' → ∃ d, c' = set_data c d.
Proof.
  assert (c = set_data c (cat_data c)) as Heq by by destruct c. unfold create_data_tables.
  destruct (forallb _ _); [|done]. destruct (mapM (M := option) _ _); [|done]. destruct (cat_data c !! u); intros [= <-]; eauto.
Qed.

Lemma data_tables_created u columns pks c :
  forallb (λ f, supported (field_type f)) columns = true → Forall (λ pk, pk ∈ field_name <$> columns) pks →
  ∃ c', create_data_tables u columns pks c = Ok c'.
Proof.
  intros Hs Hpk. unfold create_data_tables. rewrite Hs.
  assert (is_Some (mapM (λ pk, field_with_name columns pk) pks)) as [fs ->]; [|destruct (cat_data c !! u); eauto].
  apply mapM_is_Some. eapply Forall_impl; [exact Hpk|]. intros pk (f & -> & Hf)%list_elem_of_fmap. simpl. unfold field_with_name.
  destruct (list_find_elem_of (λ f', field_name f' = field_name f) columns f Hf eq_refl) as [x Hx]. rewrite Hx. by eexists.
Qed.

Context {H : ContentHash} (catalog : Z).

(** The statements of a loop over one table are one statement of all its rows. *)
Lemma fold_put {X} k (u : X → Z) (v : X → sys_row) t xs : ∀ c,
  let c' := foldl (λ c x, insert_sys_row catalog version k (u x) (v x) t c) c xs in
  cat_tx c' = cat_tx c ∧
  ∀ k', store c' k' = if decide (k' = k) then log_upserts version t ((λ x, (sys_row_uuid catalog k (u x), v x)) <$> xs) (store c k) else store c k'.
Proof.
  cbv zeta. induction xs as [|x xs IH]; intros c; cbn [foldl].
  - split; [done|]. intros k'. case_decide as Hk; [subst|done]. unfold log_upserts. simpl. by destruct (store c k).
  - destruct (IH (insert_sys_row catalog version k (u x) (v x) t c)) as [Htx Hst]. split; [by rewrite Htx|].
    intros k'. rewrite Hst. rewrite fmap_cons, log_upserts_app. by destruct k, k'.
Qed.

Lemma fold_drop {X} k (u : X → Z) t xs : ∀ c,
  let c' := foldl (λ c x, delete_sys_row catalog version k (u x) t c) c xs in
  cat_tx c' = cat_tx c ∧
  ∀ k', store c' k' = if decide (k' = k) then log_deletes version t ((λ x, sys_row_uuid catalog k (u x)) <$> xs) (store c k) else store c k'.
Proof.
  cbv zeta. induction xs as [|x xs IH]; intros c; cbn [foldl].
  - split; [done|]. intros k'. case_decide as Hk; [subst|done]. unfold log_deletes. simpl. by destruct (store c k).
  - destruct (IH (delete_sys_row catalog version k (u x) t c)) as [Htx Hst]. split; [by rewrite Htx|].
    intros k'. rewrite Hst. rewrite fmap_cons, log_deletes_app. by destruct k, k'.
Qed.
End stores.

Lemma keys_nodup {H : ContentHash} catalog {known : Z → Prop} {HC : CollisionFree H (catalog_text catalog known)} k ups :
  (∀ r, r ∈ ups → known (row_id r).2) → NoDup (ids ups) → NoDup (((λ r, (sys_row_uuid catalog k (row_id r).2, r)) <$> ups).*1).
Proof.
  intros Hkn Hnd. rewrite <- list_fmap_compose.
  replace (fst ∘ _) with (sys_row_uuid catalog k ∘ (λ r : sys_row, (row_id r).2)) by done. rewrite list_fmap_compose.
  apply NoDup_fmap_2_strong; [|done]. intros u u' (r & -> & Hr)%list_elem_of_fmap (r' & -> & Hr')%list_elem_of_fmap.
  apply (sys_row_uuid_inj catalog (known := known)); by apply Hkn.
Qed.

(** The uuids a request names or draws are among the known ones. *)
Definition known_ddl (known : Z → Prop) (q : ddl) : Prop :=
  match q with
  | CreateSchema uuid _ _ _ => known uuid
  | UpdateSchema i _ _ _ | DeleteSchema i => known_ident (known := known) i
  | CreateTable i uuid _ _ indexes => known_ident (known := known) i ∧ known uuid ∧ Forall known (isp_uuid <$> indexes)
  | UpdateTable si ti _ _ | DeleteTable si ti => known_ident (known := known) si ∧ known_ident (known := known) ti
  | CreateIndex si ti d => known_ident (known := known) si ∧ known_ident (known := known) ti ∧ known (isp_uuid d)
  | UpdateIndex si ti ii _ | DeleteIndex si ti ii =>
      known_ident (known := known) si ∧ known_ident (known := known) ti ∧ known_ident (known := known) ii
  end.

Section handlers.
Context {H : ContentHash} (catalog : Z) {known : Z → Prop} {HC : CollisionFree H (catalog_text catalog known)}.
Context `{CV : ColdBatch sys_row, CU : ColdBatch unit, L : SnapshotLayout sys_row}.
Context (E : sys_table → env sys_row) (Henv : ∀ k, env_ok (E k) sys_value (sys_index_key catalog)).
Context (version : Z → Z → Z) (Hver : ∀ k, e_version_uuid (E k) = version).
Context (may_match : (Z * sys_row → bool) → SnapshotSegment sys_row → bool) (Hprune : prune_sound may_match).

Notation tracks := (tracks catalog (known := known) E).
Notation known_ident := (known_ident (known := known)).

Lemma tracks_same c c' t ws A : (∀ k, sys_view c' k = sys_view c k) → tracks c t ws A → tracks c' t ws A.
Proof. intros Hv [? Hr ? ? ? ?]. split; try done. intros k. by rewrite Hr, Hv. Qed.

Context (c : catalog_state) (t : Z) (ws : sys_table → world sys_row) (A : acat) (Htk : tracks c t ws A) (Hwf : cat_wf A).
Context (now fresh : Z) (Ht : t ≤ now) (Hrange : 0 < now < I64_MAX) (Hfr : fresh_tx (cat_tx c) fresh).

Notation now_at := (LatestSeq (branch_seq_frontier (cat_tx c))).

Lemma begin_ok c1 tx : begin_ddl c now fresh None = Ok (c1, tx) →
  tx = fresh ∧ ∃ l cm, auto_commit_tx (cat_tx c) now fresh = Ok (l, cm) ∧ c1 = set_tx c l.
Proof.
  unfold begin_ddl, resolve_or_auto_commit_tx. destruct (auto_commit_tx _ _ _) as [[l cm]|]; [|done]. simpl.
  intros [= <- <-]. eauto.
Qed.

(** Statements that change the stores by an edit, after the transaction. *)
Lemma edit_written c1 tx c' ups dels :
  begin_ddl c now fresh None = Ok (c1, tx) → (∀ k, NoDup (ids (ups k))) →
  (∀ k r, r ∈ ups k → known (row_id r).2) → (∀ k u, u ∈ dels k → known u) → cat_tx c' = cat_tx c1 →
  (∀ k, apply_change version (store c1 k) (edit_change catalog k (ups k) (dels k)) tx = Ok (store c' k)) →
  ∃ ws', tracks c' now ws' (edit A ups dels).
Proof using HC Henv Hver Htk Ht Hrange Hfr.
  intros (-> & l & cm & Hl & ->)%begin_ok Hnd Hku Hkd Htx Hap.
  by eapply (tracks_write catalog E version Hver Henv c t ws A now fresh l cm c' ups dels).
Qed.

Lemma put_written c1 tx r c' :
  begin_ddl c now fresh None = Ok (c1, tx) → known (row_id r).2 →
  (∀ k, sys_view c' k = sys_view (emit_tx_table_log_for_ddl tx [(row_id r).1]
    (insert_sys_row catalog version (row_id r).1 (row_id r).2 r tx c1)) k) →
  ∃ ws', tracks c' now ws' (edit A (only (row_id r).1 [r]) none).
Proof using HC Henv Hver Htk Ht Hrange Hfr.
  intros Hb Hkn Hv. pose proof (f_equal bs_tx (Hv SysSchemas)) as Htx. simpl in Htx.
  apply (edit_written c1 tx); [done| | |by intros k u ?%not_elem_of_nil|destruct r; done|].
  - intros k. unfold only. case_decide; [apply NoDup_singleton|constructor].
  - intros k r'. unfold only. case_decide; [by intros ->%list_elem_of_singleton|by intros ?%not_elem_of_nil].
  - intros k. pose proof (f_equal bs_table (Hv k)) as Hs. simpl in Hs. rewrite Hs. unfold edit_change, only, none.
    case_decide as Hk; [|by destruct r, k]. subst k. simpl.
    rewrite apply_ups by (done || apply NoDup_singleton). by destruct r.
Qed.

Lemma drop_written c1 tx k u c' :
  begin_ddl c now fresh None = Ok (c1, tx) → known u →
  (∀ k', sys_view c' k' = sys_view (emit_tx_table_log_for_ddl tx [k] (delete_sys_row catalog version k u tx c1)) k') →
  ∃ ws', tracks c' now ws' (edit A none (only k [u])).
Proof using HC Henv Hver Htk Ht Hrange Hfr.
  intros Hb Hkn Hv. pose proof (f_equal bs_tx (Hv SysSchemas)) as Htx. simpl in Htx.
  apply (edit_written c1 tx); [done|intros k'; constructor|by intros k' r ?%not_elem_of_nil| |by destruct k|].
  { intros k' u'. unfold only. case_decide; [by intros ->%list_elem_of_singleton|by intros ?%not_elem_of_nil]. }
  intros k'. pose proof (f_equal bs_table (Hv k')) as Hs. simpl in Hs. rewrite Hs. unfold edit_change, only, none.
  case_decide as Hk; [|by destruct k, k']. subst k'. simpl. rewrite apply_dels by done. by destruct k.
Qed.
(** *** The checks *)

Lemma schema_of u r : A SysSchemas !! u = Some r → ∃ sch, r = SchemaRow sch ∧ sc_uuid sch = u.
Proof using Hwf. intros Hr. pose proof (cw_typed _ Hwf _ _ _ Hr). destruct r; simplify_eq/=. eauto. Qed.

Lemma table_of u r : A SysTables !! u = Some r → ∃ tb, r = TableRow tb ∧ tab_uuid tb = u.
Proof using Hwf. intros Hr. pose proof (cw_typed _ Hwf _ _ _ Hr). destruct r; simplify_eq/=. eauto. Qed.

Lemma index_of_row u r : A SysIndexes !! u = Some r → ∃ x, r = IndexRow x ∧ ix_uuid x = u.
Proof using Hwf. intros Hr. pose proof (cw_typed _ Hwf _ _ _ Hr). destruct r; simplify_eq/=. eauto. Qed.

Lemma nameless n : known_ident {| id_uuid := None; id_name := Some n |}.
Proof using. done. Qed.

Lemma held_known k u r : A k !! u = Some r → known u.
Proof using Htk. apply (tk_known _ _ _ _ _ _ Htk). Qed.

Lemma held_ident k u r : A k !! u = Some r → known_ident {| id_uuid := Some u; id_name := None |}.
Proof using Htk. intros Hr u' [= <-]. by eapply held_known. Qed.

Lemma schema_untaken n :
  exists_row (meta_get_schema catalog may_match c None (Some n) now_at) = Ok false → unused A SysSchemas [n].
Proof using HC Hprune Htk Hwf.
  destruct (get_schema_spec catalog E may_match Hprune c t ws A Htk Hwf {| id_uuid := None; id_name := Some n |} (nameless n)) as (o & Ho & Hel).
  cbn [id_uuid id_name] in Ho. unfold exists_row. rewrite Ho. destruct o; [done|]. intros _ u r Hr.
  destruct (schema_of u r Hr) as (sch & -> & <-). intros [= Hn]. by pose proof (proj2 (Hel sch) (conj Hr (f_equal Some (eq_sym Hn)))).
Qed.

Lemma table_untaken scope n :
  exists_row (meta_get_table catalog may_match c scope None (Some n) now_at) = Ok false → unused A SysTables [scope; n].
Proof using HC Hprune Htk Hwf.
  destruct (get_table_spec catalog E may_match Hprune c t ws A Htk Hwf scope {| id_uuid := None; id_name := Some n |} (nameless n)) as (o & Ho & Hel).
  cbn [id_uuid id_name] in Ho. unfold exists_row. rewrite Ho. destruct o; [done|]. intros _ u r Hr.
  destruct (table_of u r Hr) as (tb & -> & <-). intros [= Hs Hn].
  destruct (proj2 (Hel tb)) as [ixs Hx]; [|done]. split_and!; simpl; congruence.
Qed.

Lemma index_clash tb n o :
  meta_get_index catalog may_match c tb None (Some n) now_at = Ok o →
  ∀ u, (∀ x, o = Some x → ix_uuid x = u) → free A SysIndexes [tb; n] u.
Proof using HC Hprune Htk Hwf.
  destruct (get_index_spec catalog E may_match Hprune c t ws A Htk Hwf tb {| id_uuid := None; id_name := Some n |} (nameless n)) as (o' & Ho & Hel).
  cbn [id_uuid id_name] in Ho. rewrite Ho. intros [= <-] u Hu u' r Hr.
  destruct (index_of_row u' r Hr) as (x & -> & <-). intros [= Ht' Hn]. apply Hu, Hel. split_and!; simpl; [done|split; congruence].
Qed.

Lemma renamed k (key : Z → list Z) u nn old check name :
  rename_or_carry_forward nn old check = Ok name → (∀ n, check n = Ok false → unused A k (key n)) → free A k (key old) u →
  name = default old nn ∧ free A k (key name) u.
Proof using.
  unfold rename_or_carry_forward. intros Hr Hc Hold. destruct nn as [n|]; [|by injection Hr as <-].
  case_decide as Hn; [injection Hr as <-; by subst|]. destruct (check n) as [[]|] eqn:Hck; simplify_eq/=.
  split; [done|]. by apply unused_free, Hc.
Qed.

Lemma write_schema_ok i scope u : known_ident i →
  resolve_schema_scope catalog may_match c now None i = Ok scope → validate_write_target_schema catalog scope = Ok u →
  rs_snapshot scope = now_at ∧ ∃ sch, names_schema A i sch ∧ user_schema catalog sch ∧ u = sc_uuid sch.
Proof using HC Hprune Htk Hwf.
  intros Hi Hs. destruct (schema_scope_ok catalog E may_match Hprune c t ws A Htk Hwf now i scope Hi Hs) as [Hsnap Hu].
  unfold validate_write_target_schema, assert_not_system_schema. destruct (rs_schema_uuid scope) as [u'|]; [|done].
  destruct (Hu u' eq_refl) as (sch & Hn & ->). case_decide; [done|]. intros [= <-]. split; [done|]. by exists sch.
Qed.

Lemma write_table_ok si ti scope u : known_ident si → known_ident ti →
  resolve_table_scope catalog may_match c now None si ti = Ok scope → validate_write_target_table catalog scope = Ok u →
  rs_snapshot scope = now_at ∧ ∃ tb, names_table A si ti tb ∧ user_table catalog tb ∧ u = tab_uuid tb ∧
    rs_schema_uuid scope = Some (tab_schema_uuid tb) ∧ A SysTables !! tab_uuid tb = Some (TableRow tb).
Proof using HC Hprune Htk Hwf.
  intros Hsi Hti Hs. destruct (table_scope_ok catalog E may_match Hprune c t ws A Htk Hwf now si ti scope Hsi Hti Hs) as (Hsnap & tb & ixs & Hr & Hn & Hsu).
  unfold validate_write_target_table, assert_not_system_table. rewrite Hr. case_decide as Hsys; [done|]. cbn [result_bind].
  destruct (match rs_schema_row scope with Some _ => _ | None => _ end); [|done]. intros [= <-]. split; [done|]. exists tb. split_and!; try done.
  - intros k Heq. apply Hsys. destruct k; simpl in Heq; auto.
  - unfold names_table in Hn. destruct (id_uuid ti); [apply Hn|]. by destruct Hn as (sch & _ & Hn & _).
Qed.

(** *** The handlers *)

Notation refined q c' := (∃ A' ws', effect catalog A q A' ∧ tracks c' now ws' A').

#[local] Tactic Notation "unbind" hyp(Hok) "as" simple_intropattern(pat) "eqn" ident(name) :=
  match type of Hok with
  | result_bind ?r _ = Ok _ => destruct r as pat eqn:name; cbn [result_bind] in Hok; try discriminate Hok
  end.

Lemma refine_by q A' c' : effect catalog A q A' → (∃ ws', tracks c' now ws' A') → refined q c'.
Proof using. intros He [ws' Hws]. by exists A', ws'. Qed.

Lemma create_schema_ok uuid name d rc c' out : known uuid →
  create_schema catalog may_match version now fresh None c uuid name d rc = Ok (c', out) → refined (CreateSchema uuid name d rc) c'.
Proof using All.
  intros Hkn. unfold create_schema. intros Hok. unbind Hok as [scope|] eqn Hs.
  destruct (schema_scope_ok catalog E may_match Hprune c t ws A Htk Hwf now no_ident scope ltac:(done) Hs) as [Hsnap _]. rewrite Hsnap in Hok.
  unbind Hok as [[]|] eqn Htaken. unbind Hok as [[c1 tx]|] eqn Hb. injection Hok as <- <-.
  destruct (put_written c1 tx (SchemaRow {| sc_uuid := uuid; sc_name := name; sc_description := d; sc_retention := stored_retention rc |}) _ Hb
    Hkn (λ k, eq_refl)) as [ws' Hws]. eexists _, ws'. split; [|exact Hws]. apply EffCreateSchema. by apply schema_untaken.
Qed.

Lemma update_schema_ok i nn d rc c' out : known_ident i →
  update_schema catalog may_match version now fresh None c i nn d rc = Ok (c', out) → refined (UpdateSchema i nn d rc) c'.
Proof using All.
  intros Hi. unfold update_schema. intros Hok. unbind Hok as [scope|] eqn Hs. unbind Hok as [u|] eqn Hv.
  destruct (write_schema_ok i scope u Hi Hs Hv) as (Hsnap & sch & Hn & Huser & ->). rewrite Hsnap in Hok.
  unbind Hok as [existing|] eqn Hex. assert (existing = sch) as ->.
  { destruct (get_schema_spec catalog E may_match Hprune c t ws A Htk Hwf {| id_uuid := Some (sc_uuid sch); id_name := None |}
      (held_ident _ _ _ (proj1 Hn))) as (o & Ho & Hel).
    cbn [id_uuid id_name] in Ho. unfold found in Hex. rewrite Ho in Hex. destruct o as [x|]; simplify_eq/=.
    destruct (proj1 (Hel existing) eq_refl) as [Hr Heq]. simpl in Heq. rewrite Heq in Hr. destruct Hn as [Hn _]. congruence. }
  unbind Hok as [name|] eqn Hnm. unbind Hok as [[c1 tx]|] eqn Hb. unbind Hok as [[]|] eqn Hret. unbind Hok as [s'|] eqn Hsn.
  unbind Hok as [o|] eqn Hre. injection Hok as <- <-.
  destruct (renamed SysSchemas (λ n, [n]) (sc_uuid sch) nn (sc_name sch) _ name Hnm schema_untaken) as [-> Hfree].
  { apply (held_free A SysSchemas _ (SchemaRow sch)); [done|apply Hn]. }
  edestruct (put_written c1 tx (SchemaRow {| sc_uuid := sc_uuid sch; sc_name := default (sc_name sch) nn; sc_description := d;
    sc_retention := stored_retention rc |}) _ Hb (held_known _ _ _ (proj1 Hn)) (λ k, eq_refl)) as [ws' Hws].
  eexists _, ws'. split; [|exact Hws]. by apply EffUpdateSchema.
Qed.

Lemma delete_table_ok si ti c' out : known_ident si → known_ident ti →
  delete_table catalog may_match version now fresh None c si ti = Ok (c', out) → refined (DeleteTable si ti) c'.
Proof using All.
  intros Hsi Hti. unfold delete_table. intros Hok. unbind Hok as [scope|] eqn Hs. unbind Hok as [u|] eqn Hv.
  destruct (write_table_ok si ti scope u Hsi Hti Hs Hv) as (Hsnap & tb & Hn & Huser & -> & Hsu & Hr). rewrite Hsu in Hok.
  unbind Hok as [[c1 tx]|] eqn Hb. unfold delete_table_metadata_if_visible, delete_sys_row_if_visible in Hok.
  case_decide; [done|]. injection Hok as <- <-.
  destruct (drop_written c1 tx SysTables (tab_uuid tb) _ Hb (held_known _ _ _ Hr) (λ k, eq_refl)) as [ws' Hws]. eexists _, ws'.
  split; [|exact Hws]. by apply EffDeleteTable.
Qed.

Lemma create_index_ok si ti d c' out : known_ident si → known_ident ti → known (isp_uuid d) →
  create_index catalog may_match version now fresh None c si ti d = Ok (c', out) → isp_columns d ≠ [] → refined (CreateIndex si ti d) c'.
Proof using All.
  intros Hsi Hti Hkn. unfold create_index. intros Hok Hcols. unbind Hok as [scope|] eqn Hs. unbind Hok as [u|] eqn Hv.
  destruct (write_table_ok si ti scope u Hsi Hti Hs Hv) as (Hsnap & tb & Hn & Huser & -> & _ & _). rewrite Hsnap in Hok.
  unbind Hok as [[]|] eqn Htaken. unbind Hok as [[c1 tx]|] eqn Hb. injection Hok as <- <-.
  destruct (put_written c1 tx (IndexRow (index_row (tab_uuid tb) d)) _ Hb Hkn (λ k, eq_refl)) as [ws' Hws].
  eexists _, ws'. split; [|exact Hws]. apply EffCreateIndex; try done. unfold exists_row in Htaken.
  destruct (meta_get_index _ _ _ _ _ _ _) as [[x|]|] eqn:Hix; try done. intros u r Hr Hkey.
  (* nobody holds the name, whatever uuid one picks *)
  pose proof (index_clash _ _ _ Hix u ltac:(done) u r Hr Hkey). pose proof (index_clash _ _ _ Hix (u + 1) ltac:(done) u r Hr Hkey). lia.
Qed.

Lemma get_index_ok tb ii x : known_ident ii →
  found (meta_get_index catalog may_match c tb (id_uuid ii) (id_name ii) now_at) = Ok x → names_index A tb ii x.
Proof using HC Hprune Htk Hwf.
  intros Hii. destruct (get_index_spec catalog E may_match Hprune c t ws A Htk Hwf tb ii Hii) as (o & Ho & Hel). unfold found. rewrite Ho.
  destruct o; intros [= <-]. by apply Hel.
Qed.

Lemma update_index_ok si ti ii n c' out : known_ident si → known_ident ti → known_ident ii →
  update_index catalog may_match version now fresh None c si ti ii n = Ok (c', out) → refined (UpdateIndex si ti ii n) c'.
Proof using All.
  intros Hsi Hti Hii. unfold update_index. intros Hok. unbind Hok as [scope|] eqn Hs. unbind Hok as [u|] eqn Hv.
  destruct (write_table_ok si ti scope u Hsi Hti Hs Hv) as (Hsnap & tb & Hn & Huser & -> & _ & _). rewrite Hsnap in Hok.
  unbind Hok as [x|] eqn Hx. apply get_index_ok in Hx; [|done]. unbind Hok as [[]|] eqn Hclash.
  unbind Hok as [[c1 tx]|] eqn Hb. injection Hok as <- <-.
  edestruct (put_written c1 tx (IndexRow {| ix_uuid := ix_uuid x; ix_table_uuid := tab_uuid tb; ix_name := n; ix_columns := ix_columns x;
    ix_type := ix_type x |}) _ Hb (held_known _ _ _ (proj1 Hx)) (λ k, eq_refl)) as [ws' Hws]. eexists _, ws'. split; [|exact Hws]. apply EffUpdateIndex; try done.
  intros Hne. rewrite decide_False in Hclash by done. destruct (meta_get_index _ _ _ _ _ _ _) as [o|] eqn:Ho; [|done].
  apply (index_clash _ _ _ Ho). intros y ->. simpl in Hclash. injection Hclash as Hclash%bool_decide_eq_false. by apply dec_stable.
Qed.

Lemma delete_index_ok si ti ii c' out : known_ident si → known_ident ti → known_ident ii →
  delete_index catalog may_match version now fresh None c si ti ii = Ok (c', out) → refined (DeleteIndex si ti ii) c'.
Proof using All.
  intros Hsi Hti Hii. unfold delete_index. intros Hok. unbind Hok as [scope|] eqn Hs. unbind Hok as [u|] eqn Hv.
  destruct (write_table_ok si ti scope u Hsi Hti Hs Hv) as (Hsnap & tb & Hn & Huser & -> & _ & _). rewrite Hsnap in Hok.
  unbind Hok as [x|] eqn Hx. apply get_index_ok in Hx; [|done]. unbind Hok as [[c1 tx]|] eqn Hb.
  unfold delete_index_metadata_if_visible, delete_sys_row_if_visible in Hok. case_decide; [done|]. injection Hok as <- <-.
  destruct (drop_written c1 tx SysIndexes (ix_uuid x) _ Hb (held_known _ _ _ (proj1 Hx)) (λ k, eq_refl)) as [ws' Hws]. eexists _, ws'.
  split; [|exact Hws]. by eapply EffDeleteIndex.
Qed.

Lemma update_table_ok si ti nn spec c' out : known_ident si → known_ident ti →
  update_table catalog may_match version now fresh None c si ti nn spec = Ok (c', out) → refined (UpdateTable si ti nn spec) c'.
Proof using All.
  intros Hsi Hti. unfold update_table. intros Hok. unbind Hok as [scope|] eqn Hs. unbind Hok as [u|] eqn Hv.
  destruct (write_table_ok si ti scope u Hsi Hti Hs Hv) as (Hsnap & tb & Hn & Huser & -> & Hsu & Hr). rewrite Hsu, Hsnap in Hok.
  unbind Hok as [[existing ixs]|] eqn Hex. assert (existing = tb) as ->.
  { destruct (get_table_spec catalog E may_match Hprune c t ws A Htk Hwf (tab_schema_uuid tb)
      {| id_uuid := Some (tab_uuid tb); id_name := None |} (held_ident _ _ _ Hr)) as (o & Ho & Hel).
    cbn [id_uuid id_name] in Ho. unfold found in Hex. rewrite Ho in Hex. destruct o as [x|]; simplify_eq/=.
    destruct (proj1 (Hel existing) ltac:(eauto)) as (Hr' & _ & Heq). simpl in Heq. rewrite Heq in Hr'. congruence. }
  unbind Hok as [name|] eqn Hnm. unbind Hok as [[c1 tx]|] eqn Hb. unbind Hok as [[]|] eqn Hret.
  unbind Hok as [old|] eqn Hold. unbind Hok as [new|] eqn Hnew. unbind Hok as [c3|] eqn Hev.
  unbind Hok as [s'|] eqn Hsn. unbind Hok as [[tb' ixs']|] eqn Hre. injection Hok as <- <-.
  destruct (renamed SysTables (λ n, [tab_schema_uuid tb; n]) (tab_uuid tb) nn (tab_name tb) _ name Hnm (table_untaken _)) as [-> Hfree].
  { by apply (held_free A SysTables _ (TableRow tb)). }
  apply evolve_data in Hev as [dat ->].
  eapply refine_by; [by apply EffUpdateTable|]. apply (put_written c1 tx (TableRow _) _ Hb); [exact (held_known _ _ _ Hr)|by intros []].
Qed.

Lemma create_table_ok i uuid name spec indexes c' out : known_ident i → known uuid → Forall known (isp_uuid <$> indexes) →
  create_table catalog may_match version now fresh None c i uuid name spec indexes = Ok (c', out) →
  validate_create_table spec indexes = Ok tt → NoDup (isp_uuid <$> indexes) → refined (CreateTable i uuid name spec indexes) c'.
Proof using All.
  intros Hi Hkn Hks. unfold create_table. intros Hok Hval Hnd. unbind Hok as [columns|] eqn Hcols. unbind Hok as [[]|] eqn Hpk.
  unbind Hok as [scope|] eqn Hs. unbind Hok as [u|] eqn Hv.
  destruct (write_schema_ok i scope u Hi Hs Hv) as (Hsnap & sch & Hn & Huser & ->). rewrite Hsnap in Hok.
  unbind Hok as [[]|] eqn Htaken. unbind Hok as [[c1 tx]|] eqn Hb. unbind Hok as [c2|] eqn Hdata. injection Hok as <- <-.
  apply create_data in Hdata as [dat ->]. unfold decoded in Hcols. destruct (tsp_arrow_schema spec) as [columns'|] eqn:Hsch; simplify_eq.
  eapply refine_by; [eapply EffCreateTable; [done|done|by apply table_untaken|by apply create_spec_ok]|].
  set (c3 := insert_table_metadata _ _ _ _ _).
  destruct (fold_put version catalog SysIndexes (λ d, isp_uuid d) (λ d, IndexRow (index_row uuid d)) tx indexes c3) as [Htx Hst].
  change (foldl (λ c x, insert_sys_row _ _ _ _ _ _ _) c3 indexes)
    with (foldl (λ c d, insert_index_metadata catalog version (index_row uuid d) tx c) c3 indexes) in Htx, Hst.
  assert (∀ r, r ∈ (IndexRow ∘ index_row uuid <$> indexes) → known (row_id r).2) as index_known.
  { intros r (d & -> & Hd)%list_elem_of_fmap. rewrite Forall_forall in Hks. apply (Hks (isp_uuid d)). by apply list_elem_of_fmap_2. }
  set (c4 := foldl _ c3 indexes) in *. apply (edit_written c1 tx _ _ _ Hb).
  - intros []; [apply NoDup_nil_2|apply NoDup_singleton|].
    change (NoDup (ids (IndexRow ∘ index_row uuid <$> indexes))). by rewrite <- list_fmap_compose.
  - intros k r [[-> ->%list_elem_of_singleton]|[-> Hin]]%both_in; [done|]. by apply index_known.
  - by intros k u ?%not_elem_of_nil.
  - destruct (decide (indexes = [])); exact Htx.
  - pose proof (Hst SysSchemas) as H1. pose proof (Hst SysTables) as H2. pose proof (Hst SysIndexes) as H3. simpl in H1, H2, H3.
    intros k. unfold edit_change, both, only, none.
    destruct (decide (indexes = [])) as [->|Hne]; destruct k; simpl.
    + done.
    + by rewrite apply_ups by (done || apply NoDup_singleton).
    + done.
    + by rewrite H1.
    + rewrite H2. by rewrite apply_ups by (done || apply NoDup_singleton).
    + rewrite H3. rewrite apply_ups; [by rewrite <- list_fmap_compose|by destruct indexes|].
      apply (keys_nodup catalog (known := known)); [exact index_known|]. by rewrite <- list_fmap_compose.
Qed.

Lemma delete_schema_ok i c' out : known_ident i →
  delete_schema catalog may_match version now fresh None c i = Ok (c', out) → refined (DeleteSchema i) c'.
Proof using All.
  intros Hi. unfold delete_schema. intros Hok. unbind Hok as [scope|] eqn Hs. unbind Hok as [u|] eqn Hv.
  destruct (write_schema_ok i scope u Hi Hs Hv) as (Hsnap & sch & Hn & Huser & ->). rewrite Hsnap in Hok.
  unbind Hok as [c0|] eqn Hc. injection Hok as <- <-. unfold delete_schema_cascade in Hc.
  destruct (list_tables_spec catalog E may_match Hprune c t ws A Htk Hwf (sc_uuid sch)) as (tables & Hl & Hel). rewrite Hl in Hc.
  cbn [result_bind] in Hc. unbind Hc as [[c1 tx]|] eqn Hb. injection Hc as <-.
  eapply refine_by; [apply (EffDeleteSchema catalog A i sch ((λ x, tab_uuid x.1) <$> tables) Hn Huser)|].
  - intros u. rewrite list_elem_of_fmap. split.
    + intros ([tb ixs] & -> & Hin). exists tb. apply Hel. eauto.
    + intros (tb & Hr & Hsc). pose proof (cw_typed _ Hwf _ _ _ Hr) as [= <-]. destruct (proj2 (Hel tb) (conj Hr Hsc)) as [ixs Hin].
      by exists (tb, ixs).
  - destruct (fold_drop version catalog SysTables (λ x : Table * list Index, tab_uuid x.1) tx tables c1) as [Htx Hst].
    change (foldl (λ c x, delete_sys_row _ _ _ _ _ _) c1 tables)
      with (foldl (λ c x, delete_table_metadata catalog version (tab_uuid x.1) tx c) c1 tables) in Htx, Hst.
    set (c2 := foldl _ c1 tables) in *. apply (edit_written c1 tx _ _ _ Hb).
    + intros k. constructor.
    + by intros k r ?%not_elem_of_nil.
    + intros k u [[-> ->%list_elem_of_singleton]|[-> Hin]]%both_in; [by eapply held_known, (proj1 Hn)|].
      apply list_elem_of_fmap in Hin as ([tb ixs] & -> & Hin). eapply (held_known SysTables), (proj1 (Hel tb)). eauto.
    + destruct (decide (tables = [])); exact Htx.
    + pose proof (Hst SysSchemas) as H1. pose proof (Hst SysTables) as H2. pose proof (Hst SysIndexes) as H3. simpl in H1, H2, H3.
      intros k. unfold edit_change, both, only, none. destruct (decide (tables = [])) as [->|Hne]; destruct k; simpl.
      * by rewrite apply_dels by done.
      * done.
      * done.
      * rewrite H1. by rewrite apply_dels by done.
      * rewrite H2. rewrite <- list_fmap_compose. rewrite apply_dels; [done|]. by destruct tables.
      * by rewrite H3.
Qed.

(** Every handler refines its effect. *)
Lemma serve_ok q c' :
  known_ddl known q → drawn A q → serve_ddl catalog may_match version now fresh None c q = Ok c' → refined q c'.
Proof using All.
  intros Hkn Hd Hok. destruct q; simpl in Hok, Hkn.
  - unbind Hok as [[? ?]|] eqn Hq. injection Hok as <-. destruct_and? Hkn. by eapply create_schema_ok.
  - unbind Hok as [[? ?]|] eqn Hq. injection Hok as <-. destruct_and? Hkn. by eapply update_schema_ok.
  - unbind Hok as [[? ?]|] eqn Hq. injection Hok as <-. destruct_and? Hkn. by eapply delete_schema_ok.
  - unbind Hok as [[]|] eqn Hval. unbind Hok as [[? ?]|] eqn Hq. injection Hok as <-. destruct Hd as (_ & _ & Hnd & _).
    destruct_and? Hkn. by eapply create_table_ok.
  - unbind Hok as [[]|] eqn Hval. unbind Hok as [[? ?]|] eqn Hq. injection Hok as <-. destruct_and? Hkn. by eapply update_table_ok.
  - unbind Hok as [[? ?]|] eqn Hq. injection Hok as <-. destruct_and? Hkn. by eapply delete_table_ok.
  - unbind Hok as [[]|] eqn Hval. unbind Hok as [[? ?]|] eqn Hq. injection Hok as <-. unfold validate_create_index in Hval.
    case_decide; [done|]. destruct_and? Hkn. by eapply create_index_ok.
  - unbind Hok as [[? ?]|] eqn Hq. injection Hok as <-. destruct_and? Hkn. by eapply update_index_ok.
  - unbind Hok as [[? ?]|] eqn Hq. injection Hok as <-. destruct_and? Hkn. by eapply delete_index_ok.
Qed.
End handlers.

(** ** Runs *)

Section runs.
Context {H : ContentHash} (catalog : Z) {known : Z → Prop} {HC : CollisionFree H (catalog_text catalog known)}.
Context `{CV : ColdBatch sys_row, CU : ColdBatch unit, L : SnapshotLayout sys_row}.
Context `{!ColdBatchLaws CV, !ColdBatchLaws CU, !SnapshotLayoutLaws L sys_value (sys_index_key catalog)}.
Context (E : sys_table → env sys_row) (Henv : ∀ k, env_ok (E k) sys_value (sys_index_key catalog)).
Context (version : Z → Z → Z) (Hver : ∀ k, e_version_uuid (E k) = version).
Context (may_match : (Z * sys_row → bool) → SnapshotSegment sys_row → bool) (Hprune : prune_sound may_match).

Notation tracks := (tracks catalog (known := known) E).
Notation known_ident := (known_ident (known := known)).
Notation now_at c := (LatestSeq (branch_seq_frontier (cat_tx c))).

(** A client operation that writes no system table: transactions, and the writes
    of other tables as this branch's logs see them. *)
Definition tx_op (o : op sys_row) : Prop :=
  match o with OpBegin _ _ | OpCommit _ | OpAbort _ => True | OpWrite _ _ ch => ch = None | _ => False end.

Definition lifecycle_op (o : op sys_row) : Prop :=
  match o with OpPersist _ | OpSnapshot _ | OpPurge => True | _ => False end.

(** The lookups find no use of the uuids a request draws. *)
Definition unheld (c : catalog_state) (q : ddl) : Prop :=
  match q with
  | CreateSchema uuid _ _ _ => meta_get_schema catalog may_match c (Some uuid) None (now_at c) = Ok None
  | CreateTable _ uuid _ _ indexes =>
      get_table_by_uuid catalog may_match c uuid (now_at c) = Ok None ∧
      resolve_table_indexes catalog may_match c uuid (now_at c) = Ok [] ∧ NoDup (isp_uuid <$> indexes) ∧
      Forall (λ d, meta_get_index catalog may_match c uuid (Some (isp_uuid d)) None (now_at c) = Ok None) indexes
  | CreateIndex _ _ d => meta_get_index catalog may_match c 0 (Some (isp_uuid d)) None (now_at c) = Ok None
  | _ => True
  end.

(** The steps of a branch's catalog: auto-committed DDL that succeeds, transactions of
    the branch, and the lifecycle of the system tables under its schedule.  A request
    draws unused uuids of the [known] ones, and an UpdateIndex names its index
    ([addressed]); the handler also takes the uuid of an index, and
    [rename_moves_index] is what that can do. *)
Inductive cat_step : catalog_state * Z → catalog_state * Z → Prop :=
  | CatDdl c t now fresh q c' :
      t ≤ now → 0 < now < I64_MAX → fresh_tx (cat_tx c) fresh → addressed q → known_ddl known q → unheld c q →
      serve_ddl catalog may_match version now fresh None c q = Ok c' → cat_step (c, t) (c', now)
  | CatTx c t now o :
      t ≤ now → 0 < now < I64_MAX → tx_op o → scheduled (E SysSchemas) (sys_view c SysSchemas) now o →
      cat_step (c, t) (set_tx c (bs_tx (client (E SysSchemas) (sys_view c SysSchemas) now o)), now)
  | CatLife c t now k o :
      t ≤ now → 0 < now < I64_MAX → lifecycle_op o → scheduled (E k) (sys_view c k) now o →
      cat_step (c, t) (set_store c k (bs_table (run (E k) (sys_view c k) now o)), now).

Lemma life_tx k (st : branch_state sys_row) now o : lifecycle_op o → bs_tx (run (E k) st now o) = bs_tx st.
Proof using.
  destruct o; try done; intros _; cbn [run].
  - destruct (persist_locked _ _ _ _ _ _) as [[st' ?]|] eqn:Hp; [|done]. revert Hp. unfold persist_locked.
    destruct (_ <=? _); [by intros [= <- _]|]. destruct (zmax_list _); [|by intros [= <- _]].
    match goal with |- (if ?b then _ else _) = _ → _ => destruct b end; [by intros [= <- _]|].
    destruct (persist_kind _ _ _ _ _ _ _ _ _ _) as [[? ?]|]; [|done]. cbn [result_bind].
    destruct (persist_kind _ _ _ _ _ _ _ _ _ _) as [[? ?]|]; [|done]. by intros [= <- _].
  - destruct (snapshot_locked _ _ _ _ _ _ _ _) as [[st' ?]|] eqn:Hp; [|done]. revert Hp. unfold snapshot_locked.
    destruct (compute_snapshot_window _ _) as [[? ?]|]; [|by intros [= <- _]]. destruct (stream_all_cold _ _); [|done]. by intros [= <- _].
  - unfold purge_locked. by repeat case_match.
Qed.

Lemma tracks_life c t ws A k o now :
  tracks c t ws A → t ≤ now → 0 < now < I64_MAX → lifecycle_op o → scheduled (E k) (sys_view c k) now o →
  ∃ ws', tracks (set_store c k (bs_table (run (E k) (sys_view c k) now o))) now ws' A.
Proof using All.
  intros [Hinv Hreal Hnow Hset Hcon Hkn] Ht Hrange Ho Hsch.
  exists (λ k', {| w_real := if decide (k' = k) then run (E k) (w_real (ws k)) now o else w_real (ws k');
                   w_ideal := w_ideal (ws k'); w_now := now |}).
  assert (∀ k', tick (ws k') now) as Htick by (intros k'; split; [by rewrite Hnow|done]).
  split; simpl; [..|done|done|done|done].
  - intros k'. destruct (Hinv k') as [gone Hi]. case_decide as Hk; [subst k'|exists gone; by apply inv_idle].
    destruct (inv_step (E k) sys_value (sys_index_key catalog) (Henv k) (ws k) (step_world (E k) (ws k) now o) gone Hi) as [gone' Hi'].
    + constructor; [done|]. by rewrite Hreal.
    + exists gone'. unfold step_world in Hi'. by destruct o.
  - intros k'. case_decide as Hk; [subst k'; rewrite Hreal|by rewrite Hreal; destruct k, k'].
    pose proof (life_tx k (sys_view c k) now o Ho) as Htx.
    destruct (run _ _ _ _) as [l ts]. simpl in Htx. subst l. by destruct k.
Qed.

Lemma client_tx k k' (st st' : branch_state sys_row) now o :
  tx_op o → bs_tx st' = bs_tx st → client (E k) st now o = with_tx st (bs_tx (client (E k') st' now o)).
Proof using.
  intros Ho Heq. assert (st = with_tx st (bs_tx st')) as Hst by (rewrite Heq; by destruct st).
  destruct o; try done; cbn [client].
  - rewrite Heq. destruct (begin_tx _ _ _ _) as [[? ?]|]; [done|exact Hst].
  - rewrite Heq. destruct (commit_tx _ _ _) as [[? ?]|]; [done|exact Hst].
  - rewrite Heq. destruct (abort_tx _ _ _) as [[? ?]|]; [done|exact Hst].
  - simpl in Ho. subst. unfold write_data. rewrite Heq. destruct (resolve_or_auto_commit_tx _ _ _ _) as [[? [? ?]]|]; [done|exact Hst].
Qed.

(** The commit log stays, or takes a commit under a new uuid. *)
Lemma tx_client_commits k (st : branch_state sys_row) now o :
  tx_op o →
  let clog := tx_commit_log (bs_tx st) in
  let clog' := tx_commit_log (bs_tx (client (E k) st now o)) in
  clog' = clog ∨ ∃ cm, clog' = clog ++ [cm] ∧ ct_tx_uuid cm ∉ ct_tx_uuid <$> clog.
Proof using.
  cbv zeta. assert (∀ tx l' cm, commit_tx_log_insert (bs_tx st) now tx = Ok (l', cm) →
    ∃ cm, tx_commit_log l' = tx_commit_log (bs_tx st) ++ [cm] ∧ ct_tx_uuid cm ∉ ct_tx_uuid <$> tx_commit_log (bs_tx st)) as Hins.
  { intros tx l' cm (Hc & -> & _ & Hnew)%commit_insert_Ok. exists cm. split; [done|]. rewrite Hc. simpl.
    intros (c' & Heq & Hin)%list_elem_of_fmap. by destruct (Hnew c' Hin) as [[] _]. }
  intros Ho. destruct o as [tx timeout|tx|tx|fresh tx ch| | |]; try done; cbn [client].
  - unfold begin_tx. repeat case_match; simplify_eq; auto.
  - unfold commit_tx, commit_open_tx. destruct (get_tx_status _ _ _) as [[]|]; auto. destruct (begin_tx_log _ !! tx); auto.
    destruct (commit_tx_log_insert _ _ _) as [[? ?]|] eqn:Hc; auto. right. by eapply Hins.
  - unfold abort_tx, hot_abort_tx. repeat case_match; simplify_eq; auto.
  - simpl in Ho. subst ch. unfold write_data, resolve_or_auto_commit_tx, auto_commit_tx. destruct tx as [tx|].
    + destruct (resolve_tx _ _ _); auto.
    + destruct (commit_tx_log_insert _ _ _) as [[? ?]|] eqn:Hc; auto. right. by eapply Hins.
Qed.

(** A commit that wrote nothing here changes nothing here. *)
Lemma settled_commit (st : branch_state sys_row) l' :
  settled st →
  (tx_commit_log l' = tx_commit_log (bs_tx st) ∨
   ∃ cm, tx_commit_log l' = tx_commit_log (bs_tx st) ++ [cm] ∧ ct_tx_uuid cm ∉ ct_tx_uuid <$> tx_commit_log (bs_tx st)) →
  settled (with_tx st l') ∧ ∀ x, content (with_tx st l') x ↔ content st x.
Proof using.
  intros [HU HD] [Heq|(cm & Heq & Hn)].
  - unfold settled, content, historyU, historyD. simpl. by rewrite Heq.
  - split; [unfold settled; simpl; rewrite Heq, fmap_app; split; intros u Hu; apply elem_of_app; left; auto|].
    assert (∀ X (log : list (log_row X)), (∀ u, u ∈ log → lr_tx_uuid u ∈ ct_tx_uuid <$> tx_commit_log (bs_tx st)) →
      same_elems (hot_source None log (tx_commit_log l')) (hot_source None log (tx_commit_log (bs_tx st)))) as Hsame.
    { intros X log Hlog x. rewrite Heq, !source_elem. split.
      - intros (u & c & Hu & [Hc| ->%list_elem_of_singleton]%elem_of_app & Htx & ->); [by eauto 10|].
        destruct Hn. rewrite Htx. by apply Hlog.
      - intros (u & c & Hu & Hc & Htx & ->). exists u, c. split_and!; try done. apply elem_of_app. by left. }
    intros x. unfold content, historyU, historyD. simpl. setoid_rewrite (Hsame _ _ HU). by setoid_rewrite (Hsame _ _ HD).
Qed.

Lemma tracks_tx c t ws A o now :
  tracks c t ws A → t ≤ now → 0 < now < I64_MAX → tx_op o → scheduled (E SysSchemas) (sys_view c SysSchemas) now o →
  ∃ ws', tracks (set_tx c (bs_tx (client (E SysSchemas) (sys_view c SysSchemas) now o))) now ws' A.
Proof using All.
  intros [Hinv Hreal Hnow Hset Hcon Hkn] Ht Hrange Ho Hsch. set (l' := bs_tx (client _ _ _ _)).
  assert (∀ k, ∃ gone, Inv (E k) sys_value (sys_index_key catalog) {| w_real := with_tx (w_real (ws k)) l';
    w_ideal := with_tx (w_ideal (ws k)) l'; w_now := now |} gone) as Hinv'.
  { intros k. destruct (Hinv k) as [gone Hi].
    destruct (inv_step (E k) sys_value (sys_index_key catalog) (Henv k) (ws k) (step_world (E k) (ws k) now o) gone Hi) as [gone' Hi'].
    - constructor; [split; [by rewrite Hnow|done]|]. rewrite Hreal. by destruct o as [| | |? []| | |].
    - exists gone'. unfold step_world in Hi'.
      assert (run (E k) (w_real (ws k)) now o = client (E k) (w_real (ws k)) now o) as Hrun by by destruct o. rewrite Hrun in Hi'.
      rewrite (client_tx k SysSchemas _ (sys_view c SysSchemas)) in Hi' by (done || by rewrite Hreal).
      rewrite (client_tx k SysSchemas (w_ideal (ws k)) (sys_view c SysSchemas)) in Hi' by (done || by rewrite (iv_tx _ _ _ _ _ Hi), Hreal).
      exact Hi'. }
  assert (∀ k, settled (with_tx (w_ideal (ws k)) l') ∧ ∀ x, content (with_tx (w_ideal (ws k)) l') x ↔ content (w_ideal (ws k)) x) as Hsame.
  { intros k. destruct (Hinv k) as [gone Hi]. apply settled_commit; [done|]. rewrite (iv_tx _ _ _ _ _ Hi), Hreal.
    apply (tx_client_commits SysSchemas (sys_view c SysSchemas) now o Ho). }
  exists (λ k, {| w_real := with_tx (w_real (ws k)) l'; w_ideal := with_tx (w_ideal (ws k)) l'; w_now := now |}).
  split; simpl; [done| |done|apply Hsame| |done].
  - intros k. rewrite Hreal. by destruct k.
  - intros k x. rewrite (proj2 (Hsame k) x). apply Hcon.
Qed.

Lemma unheld_drawn c t ws A q : tracks c t ws A → cat_wf A → known_ddl known q → unheld c q → drawn A q.
Proof using All.
  intros Htk Hwf Hkn.
  assert (∀ tb u, known u → meta_get_index catalog may_match c tb (Some u) None (now_at c) = Ok None → A SysIndexes !! u = None) as Hix.
  { intros tb u Hu Hn. destruct (get_index_spec catalog E may_match Hprune c t ws A Htk Hwf tb {| id_uuid := Some u; id_name := None |}
      ltac:(by intros ? [= <-])) as (o & Ho & Hel).
    cbn [id_uuid id_name] in Ho. rewrite Hn in Ho. injection Ho as <-. apply eq_None_not_Some. intros [r Hr].
    pose proof (cw_typed _ Hwf _ _ _ Hr) as Hid. destruct r as [| |x]; simplify_eq/=. by discriminate (proj2 (Hel x) (conj Hr eq_refl)). }
  destruct q; try done; cbn [unheld drawn]; simpl in Hkn.
  - intros Hn. destruct (get_schema_spec catalog E may_match Hprune c t ws A Htk Hwf {| id_uuid := Some uuid; id_name := None |}
      ltac:(by intros ? [= <-])) as (o & Ho & Hel).
    cbn [id_uuid id_name] in Ho. rewrite Hn in Ho. injection Ho as <-. apply eq_None_not_Some. intros [r Hr].
    pose proof (cw_typed _ Hwf _ _ _ Hr) as Hid. destruct r as [s| |]; simplify_eq/=. by discriminate (proj2 (Hel s) (conj Hr eq_refl)).
  - intros (Hn & Hown & Hnd & Hall). split_and!; [| |done|].
    + destruct (get_by_uuid_spec catalog E may_match Hprune c t ws A Htk Hwf uuid (proj1 (proj2 Hkn))) as (o & Ho & Hel). rewrite Hn in Ho. injection Ho as <-.
      apply eq_None_not_Some. intros [r Hr]. pose proof (cw_typed _ Hwf _ _ _ Hr) as Hid. destruct r as [|tb|]; simplify_eq/=.
      by destruct (proj2 (Hel tb) (conj Hr eq_refl)).
    + intros u x Hx Heq. unfold resolve_table_indexes, resolve_index_metadata in Hown. cbn [result_bind fmap option_fmap option_map] in Hown.
      destruct (read_latest_rows catalog E may_match Hprune c t ws A Htk SysIndexes (Scan (Some (table_uuid_in_filter [uuid]))) I) as (rows & Hr & _ & Hel).
      rewrite Hr in Hown. injection Hown as Hown.
      assert (x ∈ omap as_index (snd <$> rows)) as Hin; [|rewrite Hown in Hin; by apply not_elem_of_nil in Hin].
      apply list_elem_of_omap. exists (IndexRow x). split; [|done]. apply list_elem_of_fmap. eexists (_, IndexRow x). split; [done|].
      apply Hel. eexists u, _. split_and!; [done|done|]. intros p [= <-]. apply prefix_residual_spec. exists uuid. split; [by left|].
      by rewrite <- Heq.
    + intros d Hd. eapply Forall_forall in Hall; [|done]. destruct Hkn as (_ & _ & Hks). rewrite Forall_forall in Hks.
      eapply Hix; [|done]. apply Hks. by apply list_elem_of_fmap_2.
  - intros Hn. destruct Hkn as (_ & _ & Hkn). by eapply Hix.
Qed.

Lemma cat_step_ok c t c' t' ws A :
  tracks c t ws A → cat_wf A → cat_step (c, t) (c', t') → ∃ ws' A', tracks c' t' ws' A' ∧ cat_wf A'.
Proof using All.
  intros Htk Hwf Hst. inversion Hst as [c0 t0 now fresh q c1 Ht Hr Hfr Ha Hkn Hu Hok|c0 t0 now o Ht Hr Ho Hs|c0 t0 now k o Ht Hr Ho Hs]; subst.
  - pose proof (unheld_drawn _ _ _ _ _ Htk Hwf Hkn Hu) as Hd.
    destruct (serve_ok catalog E Henv version Hver may_match Hprune c t ws A Htk Hwf t' fresh Ht Hr Hfr q c' Hkn Hd Hok) as (A' & ws' & He & Htk').
    exists ws', A'. split; [done|]. by eapply effect_wf.
  - destruct (tracks_tx c t ws A o t' Htk Ht Hr Ho Hs) as [ws' ?]. eauto.
  - destruct (tracks_life c t ws A k o t' Htk Ht Hr Ho Hs) as [ws' ?]. eauto.
Qed.

(** ** The bootstrap *)

Definition genesis_rows (public_schema_uuid : Z) : sys_table → list sys_row :=
  both SysSchemas [SchemaRow (bootstrap_schema (system_schema_uuid catalog) SYSTEM_SCHEMA_NAME "auto-created system schema (CHA-164)");
                   SchemaRow (bootstrap_schema public_schema_uuid PUBLIC_SCHEMA_NAME "auto-created default schema (CHA-163)")]
       SysTables ((λ k, TableRow (bootstrap_table catalog k)) <$> [SysSchemas; SysTables; SysIndexes]).

Lemma tracks_empty : tracks empty_catalog 0 (λ _, start) (λ _, ∅).
Proof using All.
  split; try done.
  - intros k. exists []. apply inv_start.
  - by intros [].
  - intros k. split; by intros u ?%not_elem_of_nil.
  - intros k x. split; [by intros (u & [Hu%not_elem_of_nil _] & _)|by intros (u & r & ? & _)].
Qed.

(** The bootstrap's own objects are known. *)
Definition genesis_known (public : Z) : Prop :=
  known (system_schema_uuid catalog) ∧ known public ∧ ∀ k, known (sys_table_uuid catalog k).

Lemma genesis_rows_known public k r : genesis_known public → r ∈ genesis_rows public k → known (row_id r).2.
Proof using.
  intros (Hs & Hp & Hk) [[-> Hr]|[-> Hr]]%both_in.
  - by apply elem_of_cons in Hr as [->|Hr%list_elem_of_singleton]; [|subst r].
  - apply list_elem_of_fmap in Hr as (k' & -> & _). apply Hk.
Qed.

Lemma genesis_nodup public k : public ≠ system_schema_uuid catalog → NoDup (ids (genesis_rows public k)).
Proof using HC.
  intros Hp. assert (∀ k k', k ≠ k' → sys_table_uuid catalog k ≠ sys_table_uuid catalog k') as Hne
    by (by intros k1 k2 Hn ?%(sys_table_uuid_inj catalog (known := known))).
  destruct k; [change (NoDup [system_schema_uuid catalog; public])|
    change (NoDup [sys_table_uuid catalog SysSchemas; sys_table_uuid catalog SysTables; sys_table_uuid catalog SysIndexes])|apply NoDup_nil_2].
  - apply NoDup_cons. split; [intros ?%list_elem_of_singleton; by apply Hp|apply NoDup_singleton].
  - rewrite !NoDup_cons, !elem_of_cons. setoid_rewrite elem_of_nil. split_and!; [| |tauto|constructor];
      intros Hin; destruct_or? Hin; try done; by revert Hin; apply Hne.
Qed.

(** Case analysis on a row of a written-out list. *)
#[local] Ltac row_cases Hr := repeat (apply elem_of_cons in Hr as [->|Hr]); try (by apply not_elem_of_nil in Hr).

Lemma genesis_wf public : public ≠ system_schema_uuid catalog → cat_wf (edit (λ _, ∅) (genesis_rows public) none).
Proof using HC.
  intros Hp. apply wf_edit; try done; [by intros k; apply genesis_nodup|..].
  - intros k r [[-> Hr]|[-> Hr]]%both_in; row_cases Hr; done.
  - intros k r r' [[-> Hr]|[-> Hr]]%both_in [[Hk Hr']|[Hk Hr']]%both_in; try done; row_cases Hr; row_cases Hr'; done.
  - intros t [[? _]|[_ Ht]]%both_in; [done|]. right. change (tab_schema_uuid t ∈ [system_schema_uuid catalog; public]).
    apply elem_of_cons. left. by repeat (apply elem_of_cons in Ht as [[= ->]|Ht]; [done|]); apply not_elem_of_nil in Ht.
  - by intros t _ ?%not_elem_of_nil.
Qed.

Lemma bootstrap_ok now public :
  0 < now < I64_MAX → public ≠ system_schema_uuid catalog → genesis_known public →
  ∃ c ws, create_catalog_tables catalog version now public = Ok c ∧ tracks c now ws (edit (λ _, ∅) (genesis_rows public) none).
Proof using All.
  intros Hrange Hp Hg. unfold create_catalog_tables, seed_genesis_and_system_tables.
  destruct (commit_tx_log_insert _ now (genesis_tx_uuid catalog)) as [[l cm]|e] eqn:Hl; [|discriminate Hl]. cbn [result_bind foldl].
  assert (∀ k c, ∃ d, create_data_tables (sys_table_uuid catalog k) (system_arrow_schema k) (system_primary_keys k) c = Ok (set_data c d)) as Hdata.
  { intros k c. destruct (create_data_tables _ _ _ c) as [c'|] eqn:Hc; [apply create_data in Hc as [d ->]; eauto|].
    revert Hc. unfold create_data_tables.
    assert (forallb (λ f, supported (field_type f)) (system_arrow_schema k) = true) as -> by (destruct k; vm_compute; reflexivity).
    assert (∃ pks, mapM (λ pk, field_with_name (system_arrow_schema k) pk) (system_primary_keys k) = Some pks) as [pks ->]
      by (destruct k; vm_compute; eauto).
    by destruct (cat_data c !! _). }
  destruct (Hdata SysSchemas (set_tx empty_catalog l)) as [d1 ->]. cbn [result_bind].
  destruct (Hdata SysTables (set_data (set_tx empty_catalog l) d1)) as [d2 ->]. cbn [result_bind].
  match goal with |- context [create_data_tables _ _ _ ?c] => destruct (Hdata SysIndexes c) as [d3 ->] end. cbn [result_bind].
  eexists. assert (∀ P : catalog_state → (sys_table → world sys_row) → Prop, ∀ c, (∃ ws, P c ws) → ∃ ws, Ok c = Ok (E := ApiError) c ∧ P c ws) as Hex
    by (intros P c0 [ws ?]; eauto).
  apply (Hex (λ c ws, tracks c now ws _)). clear Hex.
  eapply (tracks_write catalog E version Hver Henv empty_catalog 0 (λ _, start) (λ _, ∅) now (genesis_tx_uuid catalog) l cm);
    [apply tracks_empty|lia|done| |done|done|by intros k; apply genesis_nodup|by intros k r; apply genesis_rows_known|
     by intros k u ?%not_elem_of_nil|].
  - split_and!; [done|by intros c' ?%not_elem_of_nil|by intros a ?%not_elem_of_nil].
  - intros []; [| |done]; unfold edit_change; rewrite apply_ups; try done; try (apply (keys_nodup catalog (known := known)); [intros r; by apply (genesis_rows_known public)|by apply genesis_nodup]).
    destruct (fold_put version catalog SysTables (sys_table_uuid catalog) (λ k, TableRow (bootstrap_table catalog k))
      (genesis_tx_uuid catalog) [SysSchemas; SysTables; SysIndexes] empty_catalog) as [_ Hst].
    exact (f_equal (λ ts, Ok (log_tx_table _ ts)) (eq_sym (Hst SysTables))).
Qed.

(** ** Reachable catalogs *)

Definition cat_reachable (c : catalog_state) (t : Z) : Prop :=
  ∃ now public c0, 0 < now < I64_MAX ∧ public ≠ system_schema_uuid catalog ∧ genesis_known public ∧
    create_catalog_tables catalog version now public = Ok c0 ∧ rtc cat_step (c0, now) (c, t).

Lemma reachable_ok c t : cat_reachable c t → ∃ ws A, tracks c t ws A ∧ cat_wf A.
Proof using All.
  intros (now & public & c0 & Hrange & Hp & Hg & Hc & Hr).
  destruct (bootstrap_ok now public Hrange Hp Hg) as (c1 & ws & Hc1 & Htk). rewrite Hc in Hc1. injection Hc1 as <-.
  assert (∃ ws A, tracks c0 now ws A ∧ cat_wf A) as Hstart by eauto using genesis_wf.
  clear Hc Htk ws. remember (c0, now) as x eqn:Hx. remember (c, t) as y eqn:Hy. revert c0 now Hrange Hx Hstart.
  induction Hr as [x|x [c1 t1] z Hst _ IH]; intros c0 now Hrange Hx (ws & A & Htk & Hwf); subst; [by simplify_eq; eauto|].
  destruct (cat_step_ok _ _ _ _ _ _ Htk Hwf Hst) as (ws' & A' & Htk' & Hwf').
  apply (IH eq_refl c1 t1); [by inversion Hst; subst|done|eauto].
Qed.

(** A full scan of each system table returns the catalog [A]. *)
Definition shown (c : catalog_state) (A : acat) : Prop :=
  ∀ k, ∃ rows, read_system_table catalog may_match (sys_view c k) k (Scan None) (now_at c) = Ok rows ∧
    rows ≡ₚ snd <$> map_to_list (A k).

Lemma tracks_shown c t ws A : tracks c t ws A → shown c A.
Proof using HC Hprune.
  intros Htk k. destruct (read_latest_rows catalog E may_match Hprune c t ws A Htk k (Scan None) I) as (rows & Hr & Hnd & Hel).
  exists (snd <$> rows). split; [done|].
  assert (rows ≡ₚ (λ x, (sys_row_uuid catalog k x.1, x.2)) <$> map_to_list (A k)) as ->.
  { apply NoDup_Permutation.
    - by eapply NoDup_fmap_1.
    - apply NoDup_fmap_2_strong; [|apply NoDup_map_to_list]. intros [u r] [u' r'] Hu%elem_of_map_to_list Hu'%elem_of_map_to_list [= Heq ->].
      apply (sys_row_uuid_inj catalog (known := known)) in Heq as ->; [done|by eapply (tk_known _ _ _ _ _ _ Htk)..].
    - intros x. rewrite Hel, list_elem_of_fmap. split.
      + intros (u & r & Hu & -> & _). exists (u, r). split; [done|]. by apply elem_of_map_to_list.
      + intros ([u r] & -> & Hu%elem_of_map_to_list). by exists u, r. }
  by rewrite <- list_fmap_compose.
Qed.

Lemma shown_elem (A : acat) k rows r : rows ≡ₚ snd <$> map_to_list (A k) → r ∈ rows ↔ ∃ u, A k !! u = Some r.
Proof using.
  intros ->. rewrite list_elem_of_fmap. split.
  - intros ([u r'] & -> & Hu%elem_of_map_to_list). eauto.
  - intros [u Hu]. exists (u, r). split; [done|]. by apply elem_of_map_to_list.
Qed.

(** ** The contract *)

(** C9 A DDL request changes the catalog by exactly the object it names.  In every
    state reached from the bootstrap by auto-committed DDL under undrawn uuids
    whose UpdateIndex requests name their index by name (by uuid an index can move
    to another table: [rename_moves_index]), by transactions, and by the persist,
    snapshot and purge of the system tables under the schedule, with a hash that
    does not collide on the texts of the known uuids (those the catalog holds and
    the requests name), the scans of the system tables show a well-formed catalog;
    a request that succeeds, under uuids no lookup finds, took the effect of its
    kind on that catalog: its name was unused or its own, what it names exists and
    is no system object, a dropped schema takes its tables with it, and no other
    row changes. *)
Theorem ddl_refines c t now fresh q c'
    (Hr : cat_reachable c t) (Ht : t ≤ now) (Hrange : 0 < now < I64_MAX) (Hfresh : fresh_tx (cat_tx c) fresh)
    (Hkn : known_ddl known q) (Hu : unheld c q) (Hok : serve_ddl catalog may_match version now fresh None c q = Ok c') :
  ∃ A A', shown c A ∧ cat_wf A ∧ effect catalog A q A' ∧ shown c' A'.
Proof using All.
  destruct (reachable_ok c t Hr) as (ws & A & Htk & Hwf).
  destruct (serve_ok catalog E Henv version Hver may_match Hprune c t ws A Htk Hwf now fresh Ht Hrange Hfresh q c'
    Hkn (unheld_drawn _ _ _ _ _ Htk Hwf Hkn Hu) Hok) as (A' & ws' & He & Htk').
  exists A, A'. split_and!; eauto using tracks_shown.
Qed.

(** C10 The catalog stays consistent.  In every state so reached (UpdateIndex by
    name only, the life cycle of the system tables scheduled) the scan of each
    system table succeeds and holds rows of its own kind, no two of one uuid and
    no two of one name in one scope, and the schema of every table is among the
    schemas. *)
Theorem catalog_consistent c t (Hr : cat_reachable c t) :
  ∃ rows : sys_table → list sys_row,
    (∀ k, read_system_table catalog may_match (sys_view c k) k (Scan None) (now_at c) = Ok (rows k)) ∧
    (∀ k r, r ∈ rows k → (row_id r).1 = k) ∧ (∀ k, NoDup (row_id <$> rows k)) ∧ (∀ k, NoDup (name_key <$> rows k)) ∧
    ∀ tb, TableRow tb ∈ rows SysTables → tab_schema_uuid tb ∈ ids (rows SysSchemas).
Proof using All.
  destruct (reachable_ok c t Hr) as (ws & A & Htk & Hwf). pose proof (each_table _ (tracks_shown c t ws A Htk)) as [rows Hrows].
  assert (∀ k (X : Type) (f : sys_row → X), (∀ u r u' r', A k !! u = Some r → A k !! u' = Some r' → f r = f r' → u = u') →
    NoDup (f <$> rows k)) as Hnd.
  { intros k X f Hf. destruct (Hrows k) as [_ ->]. rewrite <- list_fmap_compose.
    apply NoDup_fmap_2_strong; [|apply NoDup_map_to_list].
    intros [u r] [u' r'] Hu%elem_of_map_to_list Hu'%elem_of_map_to_list Heq. assert (u = u') as <- by by eapply Hf. congruence. }
  exists rows. split_and!.
  - intros k. apply Hrows.
  - intros k r [u Hu]%(shown_elem A k _ r (proj2 (Hrows k))). by rewrite (cw_typed _ Hwf _ _ _ Hu).
  - intros k. apply Hnd. intros u r u' r' Hu Hu' Heq. rewrite (cw_typed _ Hwf _ _ _ Hu), (cw_typed _ Hwf _ _ _ Hu') in Heq. by injection Heq.
  - intros k. apply Hnd. intros u r u' r'. apply (cw_names _ Hwf).
  - intros tb [u Hu]%(shown_elem A SysTables _ _ (proj2 (Hrows SysTables))). destruct (cw_housed _ Hwf u tb Hu) as [r Hs].
    apply list_elem_of_fmap. exists r. split; [by rewrite (cw_typed _ Hwf _ _ _ Hs)|].
    apply (shown_elem A SysSchemas _ _ (proj2 (Hrows SysSchemas))). eauto.
Qed.

(** C11 A lookup finds what a scan finds.  In every state so reached a seek by
    uuids, by names or by owning tables, through whatever index, sidecar, hot log
    or cold segment serves it, returns exactly the rows of the full scan that it
    selects, each once. *)
Theorem catalog_seeks_agree c t k sel (Hr : cat_reachable c t) (Hsel : selection_ok k sel) :
  ∃ all rows, read_system_table catalog may_match (sys_view c k) k (Scan None) (now_at c) = Ok all ∧
    read_system_table catalog may_match (sys_view c k) k sel (now_at c) = Ok rows ∧ NoDup rows ∧
    ∀ r, r ∈ rows ↔ r ∈ all ∧ selects k sel (sys_row_uuid catalog k (row_id r).2, r).
Proof using All.
  destruct (reachable_ok c t Hr) as (ws & A & Htk & Hwf). destruct (tracks_shown c t ws A Htk k) as (all & Hall & Hp).
  destruct (read_latest_rows catalog E may_match Hprune c t ws A Htk k sel Hsel) as (rows & Hrd & Hnd & Hel).
  assert (∀ x, x ∈ rows ↔ ∃ u, A k !! u = Some x.2 ∧ x.1 = sys_row_uuid catalog k u ∧ u = (row_id x.2).2 ∧ selects k sel x) as Hel'.
  { intros x. rewrite Hel. split.
    - intros (u & r & Hu & -> & Hs). exists u. pose proof (cw_typed _ Hwf _ _ _ Hu) as Hid. simpl. by rewrite Hid.
    - intros (u & Hu & Hx & _ & Hs). exists u, x.2. split_and!; [done| |done]. destruct x; simpl in *; congruence. }
  exists all, (snd <$> rows). split_and!; [done|done| |].
  - apply NoDup_fmap_2_strong; [|by eapply NoDup_fmap_1].
    intros [a r] [b r'] (u & _ & Ha & Hid & _)%Hel' (u' & _ & Hb & Hid' & _)%Hel' Heq. simpl in *. congruence.
  - intros r. rewrite (shown_elem A k all r Hp), list_elem_of_fmap. split.
    + intros ([a r'] & -> & (u & Hu & Ha & -> & Hs)%Hel'). simpl in *. subst a. eauto.
    + intros [[u Hu] Hs]. eexists (_, r). split; [done|]. apply Hel'. exists u. pose proof (cw_typed _ Hwf _ _ _ Hu) as Hid.
      rewrite Hid in Hs. split_and!; [done|done|simpl; by rewrite Hid|done].
Qed.

Lemma begin_now c t ws A now fresh :
  tracks c t ws A → t < now → fresh_tx (cat_tx c) fresh → commit_tx_log_seq_num (cat_tx c) < I64_MAX →
  ∃ c1, begin_ddl c now fresh None = Ok (c1, fresh).
Proof using.
  intros Htk Ht (_ & Hfr & _) Hseq. destruct (tk_inv _ _ _ _ _ _ Htk SysSchemas) as [gone Hi].
  pose proof (proj2 (iv_now _ _ _ _ _ Hi)) as Hnow. pose proof (iv_wf _ _ _ _ _ Hi) as Hw.
  rewrite (tk_real _ _ _ _ _ _ Htk), (tk_now _ _ _ _ _ _ Htk) in Hnow. rewrite (tk_real _ _ _ _ _ _ Htk) in Hw. simpl in Hnow, Hw.
  unfold begin_ddl, resolve_or_auto_commit_tx, auto_commit_tx, commit_tx_log_insert.
  destruct (Z.leb_spec I64_MAX (commit_tx_log_seq_num (cat_tx c))); [lia|]. rewrite decide_False; [by eexists|].
  rewrite Exists_exists. intros (c' & Hc' & Hx). specialize (Hnow c' Hc'). specialize (Hfr c' Hc').
  pose proof (wf_commits_range _ Hw c' Hc'). simpl in Hx. destruct Hx as [?|[?|?]]; [done|lia|lia].
Qed.

(** C23 CreateTable fails for a taken name and for nothing else.  In every state so
    reached, for a request whose columns, primary key and inline indexes are valid
    and whose schema resolves to one that is not the system schema, once the clock
    has moved past the last operation and the commit counter is not exhausted, the
    request is answered [AlreadyExists] when the scan of the tables holds its name
    in that schema and succeeds otherwise. *)
Theorem create_table_outcome c t now fresh i sch uuid name spec indexes columns
    (Hr : cat_reachable c t) (Ht : t < now) (Hfresh : fresh_tx (cat_tx c) fresh)
    (Hseq : commit_tx_log_seq_num (cat_tx c) < I64_MAX)
    (Hval : validate_create_table spec indexes = Ok tt) (Hcols : tsp_arrow_schema spec = Some columns)
    (Hpk : validate_create_table_primary_keys (tsp_primary_keys spec) columns = Ok tt)
    (Hsch : resolve_schema catalog may_match c i (now_at c) = Ok sch) (Huser : user_schema catalog sch) :
  ∃ tables, read_system_table catalog may_match (sys_view c SysTables) SysTables (Scan None) (now_at c) = Ok tables ∧
    match serve_ddl catalog may_match version now fresh None c (CreateTable i uuid name spec indexes) with
    | Ok _ => [sc_uuid sch; name] ∉ name_key <$> tables
    | Err e => e = AlreadyExists ∧ [sc_uuid sch; name] ∈ name_key <$> tables
    end.
Proof using All.
  destruct (reachable_ok c t Hr) as (ws & A & Htk & Hwf). destruct (tracks_shown c t ws A Htk SysTables) as (tables & Hall & Hp).
  exists tables. split; [done|]. cbn [serve_ddl]. rewrite Hval. cbn [result_bind]. unfold create_table. rewrite Hcols. cbn [decoded result_bind].
  rewrite Hpk. cbn [result_bind].
  assert (resolve_schema_scope catalog may_match c now None i =
    Ok {| rs_schema_uuid := Some (sc_uuid sch); rs_schema_row := Some sch; rs_table_row := None; rs_snapshot := now_at c |}) as ->.
  { unfold resolve_schema_scope. change (resolve_read_snapshot _ _ _ _ _ _) with (Ok (E := ApiError) (now_at c)). cbn [result_bind].
    rewrite decide_True; [by rewrite Hsch|]. unfold resolve_schema in Hsch. destruct (id_uuid i), (id_name i); try done; eauto. }
  cbn [result_bind rs_snapshot]. unfold validate_write_target_schema, assert_not_system_schema. cbn [rs_schema_uuid].
  rewrite decide_False by done. cbn [result_bind].
  destruct (get_table_spec catalog E may_match Hprune c t ws A Htk Hwf (sc_uuid sch) {| id_uuid := None; id_name := Some name |} ltac:(done)) as (o & Ho & Hel).
  cbn [id_uuid id_name] in Ho. unfold exists_row. rewrite Ho. cbn [result_bind].
  assert (∀ tb, names_table_in A (sc_uuid sch) {| id_uuid := None; id_name := Some name |} tb →
    [sc_uuid sch; name] ∈ name_key <$> tables) as Hin.
  { intros tb (Hu & Hs & [= Hn]). apply list_elem_of_fmap. exists (TableRow tb). split; [simpl; congruence|].
    apply (shown_elem A SysTables); [done|]. eauto. }
  destruct o as [[tb ixs]|]; [split; [done|]; apply (Hin tb), Hel; eauto|].
  destruct (begin_now c t ws A now fresh Htk Ht Hfresh Hseq) as [c1 ->]. cbn [result_bind].
  destruct (create_data_tables uuid columns (tsp_primary_keys spec) c1) as [c2|] eqn:Hd; cbn [result_bind].
  - intros (r & Hkey & [u Hu]%(shown_elem A SysTables _ _ Hp))%list_elem_of_fmap.
    pose proof (cw_typed _ Hwf _ _ _ Hu) as Hid. destruct r as [|tb|]; simplify_eq/=.
    by destruct (proj2 (Hel tb)) as [? [=]].
  - exfalso. destruct (data_tables_created uuid columns (tsp_primary_keys spec) c1) as [c2 Hc2]; [| |congruence].
    + unfold validate_create_table, validate_column_types in Hval. rewrite Hcols in Hval. by destruct (forallb _ _).
    + by apply (to_pk_columns _ _ _ (create_spec_ok spec indexes columns Hval Hcols Hpk)).
Qed.

(** C37 DROP TABLE does not reach a table whose catalog row left the hot log.  When
    a table that is found by its uuid has no version of its row in the hot upsert
    log of the tables table, which is where a snapshot and a purge of that table
    leave every row, the delete by uuid is answered [NotFound], although the doc
    of the visibility check says that [false] means the table does not exist. *)
Theorem purged_table_undeletable c now fresh u c1 tx si tb ixs
    (Hfound : get_table_by_uuid catalog may_match c u (now_at c) = Ok (Some (tb, ixs))) (Huser : user_table catalog tb)
    (Hgone : Forall (λ x, lr_row_uuid x ≠ sys_row_uuid catalog SysTables (tab_uuid tb)) (ts_upserts (cat_tables c)))
    (Hb : begin_ddl c now fresh None = Ok (c1, tx)) :
  serve_ddl catalog may_match version now fresh None c (DeleteTable si {| id_uuid := Some u; id_name := None |}) = Err NotFound.
Proof using.
  cbn [serve_ddl]. unfold delete_table, resolve_table_scope.
  change (resolve_read_snapshot _ _ _ _ _ _) with (Ok (E := ApiError) (now_at c)). cbn [result_bind id_uuid].
  unfold found. rewrite Hfound. cbn [result_bind fst]. unfold validate_write_target_table, assert_not_system_table. cbn [rs_table_row rs_schema_row].
  rewrite decide_False; [|intros [Hs|[Hs|Hs]]; [by apply (Huser SysSchemas)|by apply (Huser SysTables)|by apply (Huser SysIndexes)]].
  cbn [result_bind rs_schema_uuid]. rewrite Hb. cbn [result_bind]. unfold delete_table_metadata_if_visible, delete_sys_row_if_visible.
  rewrite decide_True; [done|]. unfold latest_upserts.
  apply begin_ok in Hb as (_ & l & cm & _ & ->).
  destruct (filter _ _) as [|x l'] eqn:Hx; [done|]. exfalso.
  assert (x ∈ x :: l') as Hin by by left. rewrite <- Hx in Hin.
  apply list_elem_of_filter in Hin as [_ (v & cm' & Hv & _ & _ & Hrow & _)%hot_source_elem].
  apply bool_decide_eq_true, list_elem_of_singleton in Hrow. by apply (proj1 (Forall_forall _ _) Hgone v Hv).
Qed.
End runs.

(** ** A concrete catalog

    A 128-bit hash that does not collide on the texts of this catalog, one segment
    per snapshot with the identity sidecar and the sidecar of the table's name
    index. *)
Module CatalogDemo.

#[local] Instance code : ContentHash := NameDemo.wide_hash.
#[local] Opaque NameDemo.fold_bytes.

Definition catalog : Z := 7.
Definition public : Z := 5.

(** The bootstrap's objects, the table 80 and its index 90. *)
Definition known_uuids : list Z := system_schema_uuid catalog :: (sys_table_uuid catalog <$> [SysSchemas; SysTables; SysIndexes]) ++ [public; 80; 90].
Definition known (u : Z) : Prop := u ∈ known_uuids.

Definition texts_in_play : list string :=
  ((λ k, join_nul [uuid_to_string catalog; system_table_text k]) <$> [SysSchemas; SysTables; SysIndexes]) ++
  ((λ k, join_nul [uuid_to_string (sys_table_uuid catalog k); "name_index"]) <$> [SysSchemas; SysTables; SysIndexes]) ++
  ([SysSchemas; SysTables; SysIndexes] ≫= λ k,
     (λ u, join_nul [uuid_to_string (sys_table_uuid catalog k); uuid_to_string u]) <$> known_uuids).

Lemma every_table k : k ∈ [SysSchemas; SysTables; SysIndexes].
Proof. destruct k; set_solver. Qed.

Lemma texts_listed s : catalog_text catalog known s → s ∈ texts_in_play.
Proof.
  unfold texts_in_play. rewrite !elem_of_app. destruct 1 as [k|k|k u Hu].
  - left. apply list_elem_of_fmap. exists k. split; [done|apply every_table].
  - right. left. apply list_elem_of_fmap. exists k. split; [done|apply every_table].
  - right. right. apply list_elem_of_bind. exists k. split; [|apply every_table].
    apply (list_elem_of_fmap_2 (λ u, join_nul [uuid_to_string (sys_table_uuid catalog k); uuid_to_string u])). exact Hu.
Qed.

Lemma hashes_differ : bool_decide (NoDup (xxh3_128 <$> texts_in_play)) = true.
Proof. vm_compute. reflexivity. Qed.

#[local] Instance code_free : CollisionFree code (catalog_text catalog known).
Proof.
  intros a b Ha%texts_listed Hb%texts_listed Heq. pose proof (bool_decide_eq_true_1 _ hashes_differ) as Hnd.
  apply list_elem_of_lookup in Ha as [i Hi], Hb as [j Hj].
  assert (i = j) as ->; [|congruence].
  apply (NoDup_lookup _ i j (xxh3_128 a) Hnd); rewrite list_lookup_fmap, ?Hi, ?Hj; simpl; [done|]. by rewrite Heq.
Qed.

Lemma known_tail u : u ∈ [public; 80; 90] → known u.
Proof. intros Hu. right. apply elem_of_app. by right. Qed.

Lemma known_80 : known_ident (known := known) {| id_uuid := Some 80; id_name := None |}.
Proof. intros u [= <-]. apply known_tail. right. left. Qed.

Notation index_of k := (system_name_index_uuid (sys_table_uuid catalog k)).

#[local] Instance cold_rows : ColdBatch sys_row := Demo.fixed_batch.
#[local] Instance cold_unit : ColdBatch unit := Demo.fixed_batch.

Lemma cold_rows_laws : ColdBatchLaws cold_rows.
Proof. split; [done|]. intros l. exists (λ _, 9). by intros i _. Qed.
Lemma unit_batch_laws : ColdBatchLaws cold_unit.
Proof. split; [done|]. intros l. exists (λ _, 9). by intros i _. Qed.

Definition sidecar_of (key_cols : list (list cell)) : option sidecar :=
  match build_segment_index key_cols with Ok sc => Some sc | Err _ => None end.

Definition name_sidecar (rows : list (Z * sys_row)) (u : Z) : option sidecar :=
  match list_find (λ k, index_of k = u) [SysSchemas; SysTables; SysIndexes] with
  | Some (_, k) => sidecar_of ((λ n, sys_value (column_id n) <$> rows) <$> name_columns k)
  | None => None
  end.

#[local] Instance layout : SnapshotLayout sys_row :=
  {| lay_out defs rows :=
       [{| table_snapshot_segment_uuid := 0; snapshot_rows := rows; row_uuid_index_sidecar := sidecar_of [(λ x, Some x.1) <$> rows];
           index_sidecars := omap (λ d, (λ sc, (index_uuid d, sc)) <$> name_sidecar rows (index_uuid d)) defs |}] |}.

Lemma sidecar_built (g : SnapshotSegment sys_row) u cols sc :
  sidecar_of cols = Some sc → length (default [] (head cols)) = length (snapshot_rows g) →
  (∀ i x, snapshot_rows g !! i = Some x → key_at cols i = key_of (sys_index_key catalog) u x) → built_for (sys_index_key catalog) g u sc.
Proof.
  unfold sidecar_of. destruct (build_segment_index cols) as [sc'|] eqn:Hb; [|done]. intros [= <-] Hl Hk. by exists cols.
Qed.

Lemma sys_layout_laws : SnapshotLayoutLaws layout sys_value (sys_index_key catalog).
Proof.
  split.
  - intros defs rows. simpl. by rewrite app_nil_r.
  - intros defs rows g ->%list_elem_of_singleton u sc. destruct u as [u|]; cbn [sidecar_for_index row_uuid_index_sidecar index_sidecars].
    + destruct (filter _ _) as [|p l] eqn:Hf; [done|]. intros [= <-].
      assert (p ∈ p :: l) as Hp by by left. rewrite <- Hf in Hp. apply list_elem_of_filter in Hp as [<- (d & _ & Hp)%list_elem_of_omap].
      destruct (name_sidecar rows (index_uuid d)) as [sc|] eqn:Hn; [|done]. injection Hp as <-. cbn [fst snd]. revert Hn. unfold name_sidecar.
      destruct (list_find _ _) as [[i k]|] eqn:Hk; [|done]. apply list_find_Some in Hk as (_ & Hk & _). intros Hn.
      apply (sidecar_built _ _ _ _ Hn); [by destruct k; simpl; rewrite length_fmap|].
      intros j x Hx. cbn [snapshot_rows] in Hx. cbn [key_of]. rewrite <- Hk, (name_index_key catalog (known := known)). unfold key_at. rewrite <- list_fmap_compose.
      apply list_fmap_ext. intros _ n _. simpl. by rewrite list_lookup_fmap, Hx.
    + intros Hs. apply (sidecar_built _ _ _ _ Hs); [by simpl; rewrite length_fmap|].
      intros j x Hx. cbn [snapshot_rows] in Hx. unfold key_at. simpl. by rewrite list_lookup_fmap, Hx.
Qed.

Definition sys_env (k : sys_table) : env sys_row :=
  {| e_version_uuid := Demo.pair_uuid; e_persist_uuid := λ t kd, Demo.pair_uuid t (Demo.kind_code kd);
     e_segment_uuid := Demo.pair_uuid; e_snapshot_uuid := λ t, t; e_max_segment_bytes := 20; e_schema := sys_columns k;
     e_indexes := [{| index_uuid := index_of k; index_key_columns := column_id <$> name_columns k |}]; e_density := None;
     e_may_match := λ _ _, true |}.

Lemma sys_env_ok k : env_ok (sys_env k) sys_value (sys_index_key catalog).
Proof.
  split; simpl.
  - intros r tx r' tx'. apply Demo.pair_uuid_inj.
  - intros t kd t' kd' [? Hk]%Demo.pair_uuid_inj. by destruct kd, kd'.
  - intros p i p' i'. apply Demo.pair_uuid_inj.
  - intros def x ->%list_elem_of_singleton. simpl. by rewrite (name_index_key catalog (known := known)), <- list_fmap_compose.
Qed.

Definition every (p : Z * sys_row → bool) (g : SnapshotSegment sys_row) : bool := true.
Lemma every_sound : prune_sound every.
Proof. by intros p g x. Qed.

Notation pair_uuid := Demo.pair_uuid.
Definition serve (now fresh : Z) (tx : option Z) (c : catalog_state) (q : ddl) : result ApiError catalog_state :=
  serve_ddl catalog every pair_uuid now fresh tx c q.
Definition table_by_uuid (c : catalog_state) (u : Z) : result ApiError (option (Table * list Index)) :=
  get_table_by_uuid catalog every c u (LatestSeq (branch_seq_frontier (cat_tx c))).
Definition rows_of (c : catalog_state) (k : sys_table) (sel : SystemSelection) : result ApiError (list sys_row) :=
  read_system_table catalog every (sys_view c k) k sel (LatestSeq (branch_seq_frontier (cat_tx c))).

Definition booted : catalog_state := match create_catalog_tables catalog pair_uuid 10 public with Ok c => c | Err _ => empty_catalog end.

Definition by_uuid (u : Z) : Ident := {| id_uuid := Some u; id_name := None |}.
Definition by_name (n : Z) : Ident := {| id_uuid := None; id_name := Some n |}.

(** A table of one integer column [1], its primary key, with an index on it. *)
Definition orders : TableSpec :=
  {| tsp_arrow_schema := Some [{| field_name := 1; field_type := DtInt64 |}]; tsp_partition_keys := []; tsp_clustering_keys := [];
     tsp_primary_keys := [1]; tsp_description := 0; tsp_retention := None |}.
Definition on_column : IndexSpec := {| isp_uuid := 90; isp_name := 91; isp_columns := [1]; isp_type := 0 |}.

Definition create_orders (uuid : Z) (indexes : list IndexSpec) : ddl :=
  CreateTable (by_name (column_id PUBLIC_SCHEMA_NAME)) uuid 42 orders indexes.

Definition or_same (c : catalog_state) (r : result ApiError catalog_state) : catalog_state := match r with Ok c' => c' | Err _ => c end.

(** The table is created, then the tables table is persisted, snapshotted and
    purged. *)
Definition created : catalog_state := or_same booted (serve 20 1001 None booted (create_orders 80 [on_column])).
Definition life (now : Z) (o : op sys_row) (c : catalog_state) : catalog_state :=
  set_store c SysTables (bs_table (run (sys_env SysTables) (sys_view c SysTables) now o)).
Definition tiered : catalog_state := life 32 OpPurge (life 31 (OpSnapshot None) (life 30 (OpPersist None) created)).

Definition is_ok {X} (r : result ApiError X) : bool := match r with Ok _ => true | Err _ => false end.

Lemma or_same_ok c r : is_ok r = true → r = Ok (or_same c r).
Proof. by destruct r. Qed.

Notation reachable := (cat_reachable catalog (known := known) sys_env pair_uuid every).

Lemma booted_ok : create_catalog_tables catalog pair_uuid 10 public = Ok booted.
Proof. unfold booted. destruct (create_catalog_tables _ _ _ _) as [c|e] eqn:Hc; [done|]. exfalso. revert Hc. vm_compute. discriminate. Qed.

Lemma fresh_ok c fresh :
  bool_decide (begin_tx_log (cat_tx c) !! fresh = None) && bool_decide (Forall (λ cm, ct_tx_uuid cm ≠ fresh) (tx_commit_log (cat_tx c))) &&
  bool_decide (Forall (λ a, at_tx_uuid a ≠ fresh) (abort_tx_log (cat_tx c))) = true → fresh_tx (cat_tx c) fresh.
Proof. rewrite !andb_true_iff, !bool_decide_eq_true, !Forall_forall. by intros [[? ?] ?]. Qed.

Lemma create_unheld c uuid indexes :
  (match table_by_uuid c uuid with Ok None => true | _ => false end &&
   match resolve_table_indexes catalog every c uuid (LatestSeq (branch_seq_frontier (cat_tx c))) with Ok [] => true | _ => false end &&
   bool_decide (NoDup (isp_uuid <$> indexes)) &&
   forallb (λ d, match meta_get_index catalog every c uuid (Some (isp_uuid d)) None (LatestSeq (branch_seq_frontier (cat_tx c))) with
                 | Ok None => true | _ => false end) indexes) = true →
  unheld catalog every c (create_orders uuid indexes).
Proof.
  rewrite !andb_true_iff, bool_decide_eq_true, forallb_forall. intros [[[Ht Hi] Hn] Hx]. unfold table_by_uuid in Ht. cbn [unheld create_orders].
  split_and!; [by destruct (get_table_by_uuid _ _ _ _ _) as [[]|]|by destruct (resolve_table_indexes _ _ _ _ _) as [[]|]|done|].
  apply Forall_forall. intros d Hd%list_elem_of_In. specialize (Hx d Hd). by destruct (meta_get_index _ _ _ _ _ _ _) as [[]|].
Qed.

Lemma genesis_in : genesis_known catalog (known := known) public.
Proof.
  split_and!; [by left|apply known_tail; by left|]. intros k. right. apply elem_of_app. left. apply list_elem_of_fmap_2, every_table.
Qed.

Lemma created_reachable : reachable created 20.
Proof.
  exists 10, public, booted. split_and!; [done|done|vm_compute; discriminate|apply genesis_in|apply booted_ok|].
  eapply rtc_l; [|apply rtc_refl]. apply (CatDdl _ _ _ _ _ _ _ 1001 (create_orders 80 [on_column])); [lia|done| |done| | |].
  - apply fresh_ok. vm_compute. reflexivity.
  - split_and!; [done|apply known_tail; right; left|]. constructor; [apply known_tail; right; right; left|constructor].
  - apply create_unheld. vm_compute. reflexivity.
  - apply or_same_ok. vm_compute. reflexivity.
Qed.

Lemma nothing_persisted :
  tm_snapshots (ts_meta (cat_tables created)) = [] ∧ tm_persists (ts_meta (cat_tables created)) = [].
Proof. vm_compute. done. Qed.

Lemma persist_scheduled : scheduled (sys_env SysTables) (sys_view created SysTables) 30 (OpPersist None).
Proof.
  destruct nothing_persisted as [Hs Hp]. split.
  - intros sn Hsn. change (ts_meta _) with (ts_meta (cat_tables created)) in Hsn. rewrite Hs in Hsn. exfalso. exact (not_elem_of_nil sn Hsn).
  - intros kd. change (ts_meta _) with (ts_meta (cat_tables created)). rewrite Hp. exact (not_elem_of_nil _).
Qed.

Lemma life_reachable c t now o :
  reachable c t → (t <=? now) && (0 <? now) && (now <? I64_MAX) = true → lifecycle_op o →
  scheduled (sys_env SysTables) (sys_view c SysTables) now o → reachable (life now o c) now.
Proof.
  intros (now0 & pub & c0 & Hn & Hp & Hg & Hc & Hr) Ht Ho Hs. exists now0, pub, c0. split_and!; [apply Hn|apply Hn|done|exact Hg|done|].
  etrans; [exact Hr|]. apply rtc_once. apply (CatLife _ _ _ _ c t now SysTables o); [lia|lia|done|done].
Qed.

Lemma tiered_reachable : reachable tiered 32.
Proof.
  exact (life_reachable _ 31 32 OpPurge (life_reachable _ 30 31 (OpSnapshot None)
    (life_reachable created 20 30 (OpPersist None) created_reachable eq_refl I persist_scheduled) eq_refl I I) eq_refl I I).
Qed.

(** The index is renamed after the tables table went cold. *)
Definition rename_index : ddl := UpdateIndex (by_name 0) (by_uuid 80) (by_name 91) 92.
Definition renamed_index : catalog_state := or_same tiered (serve 40 1002 None tiered rename_index).

Lemma renamed_ok : serve_ddl catalog every pair_uuid 40 1002 None tiered rename_index = Ok renamed_index.
Proof.
  unfold renamed_index, serve.
  destruct (serve_ddl _ _ _ _ _ _ _ _) as [c|e] eqn:Hs; [reflexivity|]. exfalso. revert Hs. vm_compute. discriminate.
Qed.

Lemma rename_known : known_ddl known rename_index.
Proof. split; [intros u Hu; discriminate Hu|]. split; [exact known_80|intros u Hu; discriminate Hu]. Qed.

Lemma tiered_fresh : fresh_tx (cat_tx tiered) 1002.
Proof. apply fresh_ok. vm_compute. reflexivity. Qed.

Lemma ddl_refines_witness :
  ∃ A A', cat_wf A ∧ effect catalog A rename_index A' ∧ shown catalog every renamed_index A'.
Proof.
  destruct (ddl_refines (HC := code_free) catalog (ColdBatchLaws0 := cold_rows_laws) (ColdBatchLaws1 := unit_batch_laws)
    (SnapshotLayoutLaws0 := sys_layout_laws) sys_env sys_env_ok pair_uuid (λ _, eq_refl) every every_sound tiered 32 40 1002
    rename_index renamed_index tiered_reachable ltac:(lia) ltac:(done) tiered_fresh rename_known I renamed_ok) as (A & A' & _ & Hwf & He & Hs).
  by exists A, A'.
Defined.

Lemma catalog_consistent_witness :
  ∃ rows : sys_table → list sys_row, rows_of tiered SysTables (Scan None) = Ok (rows SysTables) ∧ NoDup (name_key <$> rows SysTables).
Proof.
  destruct (catalog_consistent (HC := code_free) catalog (ColdBatchLaws0 := cold_rows_laws) (ColdBatchLaws1 := unit_batch_laws)
    (SnapshotLayoutLaws0 := sys_layout_laws) sys_env sys_env_ok pair_uuid (λ _, eq_refl) every every_sound tiered 32 tiered_reachable)
    as (rows & Hr & _ & _ & Hn & _).
  exists rows. split; [exact (Hr SysTables)|exact (Hn SysTables)].
Defined.

(** The name seek of a table that only the snapshot holds. *)
Lemma catalog_seeks_agree_witness :
  ts_upserts (cat_tables tiered) = [] ∧
  ∃ all rows, rows_of tiered SysTables (Scan None) = Ok all ∧ rows_of tiered SysTables (NameSeek [[public; 42]]) = Ok rows ∧
    NoDup rows ∧ ∀ r, r ∈ rows ↔ r ∈ all ∧ selects SysTables (NameSeek [[public; 42]]) (sys_row_uuid catalog SysTables (row_id r).2, r).
Proof.
  split; [vm_compute; reflexivity|].
  apply (catalog_seeks_agree (HC := code_free) catalog (ColdBatchLaws0 := cold_rows_laws) (ColdBatchLaws1 := unit_batch_laws)
    (SnapshotLayoutLaws0 := sys_layout_laws) sys_env sys_env_ok pair_uuid (λ _, eq_refl) every every_sound tiered 32 SysTables
    (NameSeek [[public; 42]]) tiered_reachable).
  split; [done|by constructor].
Defined.

(** The taken name is refused although its row is cold. *)
Lemma create_table_outcome_witness :
  serve 40 1002 None tiered (create_orders 81 []) = Err AlreadyExists ∧
  ∃ tables, rows_of tiered SysTables (Scan None) = Ok tables ∧ [public; 42] ∈ name_key <$> tables.
Proof.
  assert (∃ sch, resolve_schema catalog every tiered (by_name (column_id PUBLIC_SCHEMA_NAME))
    (LatestSeq (branch_seq_frontier (cat_tx tiered))) = Ok sch ∧ sc_uuid sch = public) as (sch & Hsch & Hid).
  { eexists. split; [vm_compute; reflexivity|reflexivity]. }
  destruct (create_table_outcome (HC := code_free) catalog (ColdBatchLaws0 := cold_rows_laws) (ColdBatchLaws1 := unit_batch_laws)
    (SnapshotLayoutLaws0 := sys_layout_laws) sys_env sys_env_ok pair_uuid (λ _, eq_refl) every every_sound tiered 32 40 1002
    (by_name (column_id PUBLIC_SCHEMA_NAME)) sch 81 42 orders [] [{| field_name := 1; field_type := DtInt64 |}]
    tiered_reachable ltac:(lia) tiered_fresh ltac:(vm_compute; reflexivity)
    ltac:(vm_compute; reflexivity) ltac:(reflexivity) ltac:(vm_compute; reflexivity) Hsch
    ltac:(unfold user_schema; rewrite Hid; vm_compute; discriminate)) as (tables & Ht & Hout).
  assert (serve 40 1002 None tiered (create_orders 81 []) = Err AlreadyExists) as He by (vm_compute; reflexivity).
  split; [exact He|]. exists tables. split; [exact Ht|]. unfold serve, create_orders in He. rewrite He, Hid in Hout. apply Hout.
Defined.

Lemma tiered_found : ∃ tb ixs,
  get_table_by_uuid catalog every tiered 80 (LatestSeq (branch_seq_frontier (cat_tx tiered))) = Ok (Some (tb, ixs)) ∧ tab_uuid tb = 80.
Proof. eexists _, _. split; [vm_compute; reflexivity|reflexivity]. Qed.

Lemma tiered_begins : ∃ c1, begin_ddl tiered 40 1002 None = Ok (c1, 1002).
Proof.
  destruct (begin_ddl tiered 40 1002 None) as [[c1 tx]|] eqn:Hb; [|exfalso; revert Hb; vm_compute; discriminate].
  destruct (begin_ok _ _ _ _ _ Hb) as [-> _]. exists c1. reflexivity.
Qed.

Lemma tiered_purged : ts_upserts (cat_tables tiered) = [].
Proof. vm_compute. reflexivity. Qed.

Lemma user_80 tb : tab_uuid tb = 80 → user_table catalog tb.
Proof. intros Hid k. rewrite Hid. destruct k; vm_compute; discriminate. Qed.

Lemma purged_table_undeletable_witness :
  ∃ tb ixs, get_table_by_uuid catalog every tiered 80 (LatestSeq (branch_seq_frontier (cat_tx tiered))) = Ok (Some (tb, ixs)) ∧
    serve_ddl catalog every pair_uuid 40 1002 None tiered (DeleteTable (by_name 0) {| id_uuid := Some 80; id_name := None |}) = Err NotFound.
Proof.
  destruct tiered_found as (tb & ixs & Hfound & Hid), tiered_begins as [c1 Hb]. exists tb, ixs. split; [exact Hfound|].
  apply (purged_table_undeletable catalog pair_uuid every tiered 40 1002 80 c1 1002 (by_name 0) tb ixs Hfound (user_80 tb Hid)); [|exact Hb].
  rewrite tiered_purged. constructor.
Defined.

(** ** Outside the contract *)

(** Two open transactions create the same name; neither sees the other. *)
Definition with_commits (f : tx_logs → result ApiError tx_logs) (c : catalog_state) : catalog_state :=
  match f (cat_tx c) with Ok l => set_tx c l | Err _ => c end.
Definition begin_at (now tx : Z) : catalog_state → catalog_state := with_commits (λ l, let? '(l', _) := begin_tx l now tx 600 in Ok l').
Definition commit_at (now tx : Z) : catalog_state → catalog_state := with_commits (λ l, let? '(l', _) := commit_tx l now tx in Ok l').
Definition serve_in (now tx : Z) (q : ddl) (c : catalog_state) : catalog_state := or_same c (serve now 0 (Some tx) c q).

Definition collided : catalog_state :=
  commit_at 24 2002 (commit_at 23 2001 (serve_in 22 2002 (create_orders 81 []) (serve_in 21 2001 (create_orders 80 [])
    (begin_at 20 2002 (begin_at 20 2001 booted))))).

Lemma open_creates_collide :
  match rows_of collided SysTables (NameSeek [[public; 42]]) with Ok rows => Some (omap as_table rows) | Err _ => None end =
  Some [table_row 81 public 42 orders; table_row 80 public 42 orders].
Proof. vm_compute. reflexivity. Qed.

(** An index renamed by its uuid under another table moves to that table, beside
    one that has the name already. *)
Definition invoices : ddl := CreateTable (by_uuid public) 82 43 orders [{| isp_uuid := 93; isp_name := 91; isp_columns := [1]; isp_type := 0 |}].
Definition two_tables : catalog_state := or_same created (serve 30 1002 None created invoices).
Definition moved : catalog_state :=
  or_same two_tables (serve 40 1003 None two_tables (UpdateIndex (by_name 0) (by_uuid 82) (by_uuid 90) 91)).

Lemma rename_moves_index :
  match rows_of moved SysIndexes (NameSeek [[82; 91]]) with Ok rows => Some (ix_uuid <$> omap as_index rows) | Err _ => None end = Some [90; 93].
Proof. vm_compute. reflexivity. Qed.
End CatalogDemo.
