(* ===== verification/Dml.v ===== *)
(** * SQL data changes (penca-sql-server/src/dml.rs, penca-api/src/write/mod.rs)

    INSERT, UPDATE and DELETE on one table: the statement's checks, the SELECT
    that finds the rows, the wire change, the probe for colliding keys and the
    write; and the server's reading of the wire change.  A batch is its schema
    and its rows; the IPC bytes of a batch are taken as the batch.  DataFusion's
    execution of a query, Arrow's casts and the catalog lookup are parameters.
    The probe and the write that follow under the table's advisory lock are one
    step, as is the statement. *)

From S2P Require Import Prelude CoreTypes Naming Watermarks ReadSnapshot Dialect MergeSql IndexSeek Plan SnapshotScan IndexSelect TxLog Session TableStore BatchUtil SeekBatch ReadPath Lifecycle ReadLemmas ReadData.
From stdpp Require Import base numbers list option strings gmap sets.

Open Scope Z_scope.
Open Scope result_scope.

Notation row := (list value).

(** ** Statements *)

Inductive ObjectNamePart := Identifier (s : string) | FunctionPart.
Notation ObjectName := (list ObjectNamePart).

Inductive TableFactor := TfTable (name : ObjectName) | TfOther.

Inductive AssignmentTarget := ColumnName (parts : list (option Z)) | Tuple.

Inductive OnInsert := OnConflictDoUpdate | OnConflictDoNothing | DuplicateKeyUpdate | OnOther.

(** A query the executor hands to DataFusion: the source of an INSERT, or a
    SELECT it builds, each item with its alias. *)
Inductive select_expr := SColumn (name : Z) | SExpr (text : string).

Inductive sql_query :=
  | QSource (text : string) (params : option (list ScalarValue))
  | QSelect (items : list (select_expr * Z)) (from : ObjectName) (selection : option string).

Record Insert := {
  ins_returning : bool;
  ins_table : option ObjectName;
  ins_source : option string;
  ins_columns : list Z;
  ins_on : option OnInsert;
}.

Record Update := {
  up_table : TableFactor;
  up_joins : bool;
  up_assignments : list (AssignmentTarget * string);
  up_from : bool;
  up_selection : option string;
  up_returning : bool;
  up_or_limit : bool;
}.

Record Delete := {
  del_tables : list (TableFactor * bool);
  del_modifiers : bool;
  del_selection : option string;
}.

(** ** Names and clauses *)

Fixpoint idents (name : ObjectName) : result Status (list string) :=
  match name with
  | [] => Ok []
  | Identifier s :: rest => let? parts := idents rest in Ok (s :: parts)
  | FunctionPart :: _ => Err StInvalidArgument
  end.

Definition split_object_name (name : ObjectName) : result Status (option string * option string * string) :=
  let? parts := idents name in
  match parts with
  | [t] => Ok (None, None, t)
  | [s; t] => Ok (None, Some s, t)
  | [c; s; t] => Ok (Some c, Some s, t)
  | _ => Err StInvalidArgument
  end.

Definition table_factor_name (f : TableFactor) : result Status ObjectName :=
  match f with TfTable name => Ok name | TfOther => Err StInvalidArgument end.

Definition assignment_column_name (t : AssignmentTarget) : result Status Z :=
  match t with ColumnName [Some c] => Ok c | _ => Err StInvalidArgument end.

Definition is_on_conflict_do_update (on : option OnInsert) : result Status bool :=
  match on with
  | None => Ok false
  | Some OnConflictDoUpdate => Ok true
  | Some _ => Err StUnimplemented
  end.

(** ** Batches *)

Record RowBatch := { rb_fields : schema; rb_rows : list row }.

(** A table of the catalog; [tb_not_null] are its non-nullable columns. *)
Record Table := {
  tb_uuid : Z;
  tb_catalog_uuid : Z;
  tb_schema : schema;
  tb_not_null : list Z;
  tb_primary_keys : list Z;
}.

Definition index_of (s : schema) (name : Z) : option nat := fst <$> list_find (λ f, field_name f = name) s.

Definition slot_of (r : row) (i : nat) : value := default VNull (r !! i).
Definition project (idxs : list nat) (r : row) : row := slot_of r <$> idxs.

(** [arrow::compute::cast] of a column, cell by cell; [None] when the types do
    not cast. *)
Class ColumnCast := column_cast : DataType → DataType → option (value → value).

Definition same_types (batches : list RowBatch) (s : schema) : bool :=
  bool_decide (Forall (λ b, field_type <$> rb_fields b = field_type <$> s) batches).

(** [concat_batches] *)
Definition concat_batches (s : schema) (batches : list RowBatch) : result Status RowBatch :=
  if same_types batches s then Ok {| rb_fields := s; rb_rows := mjoin (rb_rows <$> batches) |} else Err StInternal.

Definition combine_batches (batches : list RowBatch) (columns : list Z) : result Status RowBatch :=
  match batches with
  | [] => Ok {| rb_fields := []; rb_rows := [] |}
  | first :: _ =>
      let? combined := concat_batches (rb_fields first) batches in
      match columns with
      | [] => Ok combined
      | _ =>
          if decide (length columns = length (rb_fields first)) then
            Ok {| rb_fields := zip_with (λ f c, {| field_name := c; field_type := field_type f |}) (rb_fields first) columns;
                  rb_rows := rb_rows combined |}
          else Err StInvalidArgument
      end
  end.

Section casts.
Context {C : ColumnCast}.

(** Columns already of the type are kept. *)
Definition cast_column (from to : DataType) : option (value → value) :=
  if decide (from = to) then Some id else column_cast from to.

Definition cast_columns (from to : list DataType) : option (list (value → value)) :=
  mapM (λ p, cast_column p.1 p.2) (zip from to).

Definition cast_row (fs : list (value → value)) (r : row) : row := zip_with (λ f c, f c) fs r.

(** [RecordBatch::try_new]: no null in a non-nullable column. *)
Definition nulls_ok (s : schema) (not_null : list Z) (rows : list row) : bool :=
  forallb (λ r, forallb (λ p, negb (bool_decide (field_name p.1 ∈ not_null ∧ p.2 = VNull))) (zip s r)) rows.

Definition cast_to_schema (batch : RowBatch) (target : schema) (not_null : list Z) : result Status RowBatch :=
  if decide (length (rb_fields batch) = length target) then
    match cast_columns (field_type <$> rb_fields batch) (field_type <$> target) with
    | None => Err StInternal
    | Some fs =>
        let rows := cast_row fs <$> rb_rows batch in
        if nulls_ok target not_null rows then Ok {| rb_fields := target; rb_rows := rows |} else Err StInternal
    end
  else Err StInvalidArgument.

Fixpoint all_status {X Y} (f : X → result Status Y) (l : list X) : result Status (list Y) :=
  match l with
  | [] => Ok []
  | x :: rest => let? y := f x in let? ys := all_status f rest in Ok (y :: ys)
  end.

Definition of_option {X} (e : Status) (o : option X) : result Status X := match o with Some x => Ok x | None => Err e end.

(** The UPDATE's rows in the order of the user schema; [None] when none matched. *)
Definition concat_user_batches (batches : list RowBatch) (user_schema : schema) : result Status (option RowBatch) :=
  if decide (mjoin (rb_rows <$> batches) = []) then Ok None
  else
    let? projected := all_status (λ b,
      let? idxs := of_option StInternal (mapM (index_of (rb_fields b)) (field_name <$> user_schema)) in
      Ok {| rb_fields := omap (λ i, rb_fields b !! i) idxs; rb_rows := project idxs <$> rb_rows b |}) batches in
    match projected with
    | [] => Ok None
    | first :: _ => let? out := concat_batches (rb_fields first) projected in Ok (Some out)
    end.

(** The primary-key columns of a declared schema, in key order. *)
Definition pk_schema (s : schema) (primary_keys : list Z) : option schema := mapM (field_with_name s) primary_keys.

(** The old keys, read from their aliases, as the batch of deletes. *)
Definition build_old_pk_deletes_batch (batches : list RowBatch) (primary_keys : list Z) (alias : Z → Z)
    (user_schema : schema) : result Status RowBatch :=
  let? pks := of_option StInternal (pk_schema user_schema primary_keys) in
  let? projected := all_status (λ b,
    let? idxs := of_option StInternal (mapM (λ pk, index_of (rb_fields b) (alias pk)) primary_keys) in
    let? fs := of_option StInternal
      (cast_columns (field_type <$> omap (λ i, rb_fields b !! i) idxs) (field_type <$> pks)) in
    Ok {| rb_fields := pks; rb_rows := (λ r, cast_row fs (project idxs r)) <$> rb_rows b |}) batches in
  concat_batches pks projected.

End casts.

(** ** Row identities *)

Section identities.
Context {A : Arrow} {H : ContentHash}.

(** The identity of one row of a batch by its key columns' positions. *)
Definition row_identity (s : schema) (idxs : list nat) (table_uuid : Z) (r : row) : result ApiError Z :=
  row_uuid_for_row (field_type <$> omap (λ i, s !! i) idxs) (project idxs r) table_uuid.

(** [derive_row_uuids] of dml.rs. *)
Definition dml_row_uuids (batch : RowBatch) (table_uuid : Z) (primary_keys : list Z) : result Status (list Z) :=
  if decide (primary_keys = []) then Err StFailedPrecondition
  else
    let? idxs := of_option StInvalidArgument (mapM (index_of (rb_fields batch)) primary_keys) in
    all_status (λ r, match row_identity (rb_fields batch) idxs table_uuid r with Ok u => Ok u | Err _ => Err StInternal end)
      (rb_rows batch).

(** ** The server's side of a change *)

Record WireChange := { wc_upserts : option RowBatch; wc_deletes : option RowBatch }.

(** [insert_rows]: keys present and not null; the identities of the rows. *)
Definition insert_rows (tb : Table) (batch : RowBatch) : result ApiError (list (Z * row)) :=
  if decide (rb_rows batch = []) then Ok []
  else
    match mapM (index_of (rb_fields batch)) (tb_primary_keys tb) with
    | None => Err InvalidRequest
    | Some idxs =>
        if decide (Forall (λ r, VNull ∉ project idxs r) (rb_rows batch)) then
          let? ids := collect (row_identity (rb_fields batch) idxs (tb_uuid tb) <$> rb_rows batch) in
          Ok (zip ids (rb_rows batch))
        else Err InvalidRequest
    end.

(** [insert_delete_pk_batches]: exactly the key columns, of their types. *)
Definition insert_delete_pk_batches (tb : Table) (batch : RowBatch) : result ApiError (list Z) :=
  if decide (rb_rows batch = []) then Ok []
  else if decide (field_name <$> rb_fields batch = tb_primary_keys tb) then
    let? _ := pk_types_match (rb_fields batch) (tb_schema tb) (tb_primary_keys tb) in
    if decide (Forall (λ r, VNull ∉ r) (rb_rows batch)) then
      collect (row_identity (rb_fields batch) (seq 0 (length (rb_fields batch))) (tb_uuid tb) <$> rb_rows batch)
    else Err InvalidRequest
  else Err InvalidRequest.

Definition decode_change (tb : Table) (wc : WireChange) : result ApiError (Change row) :=
  let? deletes := match wc_deletes wc with Some b => insert_delete_pk_batches tb b | None => Ok [] end in
  let? upserts := match wc_upserts wc with Some b => insert_rows tb b | None => Ok [] end in
  Ok {| ch_upserts := upserts; ch_deletes := deletes |}.

(** [write_data] from the wire: the transaction first, then the change. *)
Definition serve_write (version : Z → Z → Z) (st : branch_state row) (now fresh : Z) (tb : Table) (tx : option Z) (wc : WireChange) :
    result ApiError (branch_state row * option Z) :=
  let? _ := resolve_or_auto_commit_tx (bs_tx st) now fresh tx in
  let? change := decode_change tb wc in
  write_data version st now fresh tx (Some change).

End identities.

(** ** The executor *)

Section executor.
Context {A : Arrow} {H : ContentHash} {C : ColumnCast}.

(** The read path's parameters, the version hash, DataFusion and the catalog. *)
Context (value : Z → Z * row → IndexSeek.cell)
        (may_match : (Z * row → bool) → SnapshotSegment row → bool)
        (equality_bindings : (Z * row → bool) → gmap Z (list Z))
        (cfg : QueryConfig) (version : Z → Z → Z)
        (run_sql : branch_state row → option Z → sql_query → result Status (list RowBatch))
        (get_table : string → string → string → option Z → result Status Table).

(** One call: the session, its default schema, the Flight transaction id, the
    clock and the uuid an auto-commit draws. *)
Record Request := {
  rq_session : SessionSnapshot;
  rq_default_schema : string;
  rq_transaction_id : option Z;
  rq_now : Z;
  rq_fresh : Z;
}.

Definition read_latest (st : branch_state row) (now : Z) (tx : option Z) (filter : option (Z * row → bool)) :
    result Status (list (Z * row)) :=
  match resolve_read_snapshot (bs_tx st) now tx None None None with
  | Err e => Err (api_status e)
  | Ok s =>
      match read_data value may_match equality_bindings cfg (ts_meta (bs_table st)) (hot_view st) None now None
              {| rd_snapshot := s; rd_row_uuids := None; rd_filter := filter; rd_index_seek := None |} with
      | Ok rows => Ok rows
      | Err (ReadApi e) => Err (api_status e)
      | Err (ReadMerge _) => Err StInternal
      end
  end.

Definition resolve_target (q : Request) (name : ObjectName) : result Status (Table * option Z) :=
  let? '(catalog_name, schema_name, table_name) := split_object_name name in
  let catalog := default (ss_catalog_name (rq_session q)) catalog_name in
  let? _ := validate_session_catalog_name (rq_session q) catalog in
  let schema := default (rq_default_schema q) schema_name in
  let tx := resolve_tx_uuid_for_dml (rq_session q) (rq_transaction_id q) in
  let? tb := get_table catalog schema table_name tx in
  let? _ := validate_session_catalog (rq_session q) (tb_catalog_uuid tb) in
  Ok (tb, tx).

(** [row_uuid IN (...)] *)
Definition check_pk_collisions (st : branch_state row) (now : Z) (row_uuids : list Z) (tx : option Z) : result Status unit :=
  if decide (row_uuids = []) then Ok tt
  else
    let? found := read_latest st now tx (Some (λ x, bool_decide (x.1 ∈ row_uuids))) in
    if decide (found = []) then Ok tt else Err StAlreadyExists.

Definition send_change (q : Request) (st : branch_state row) (tb : Table) (tx : option Z) (change : WireChange) :
    branch_state row * result Status unit :=
  match serve_write version st (rq_now q) (rq_fresh q) tb tx change with
  | Ok (st', _) => (st', Ok tt)
  | Err e => (st, Err (api_status e))
  end.

Definition check_collisions_and_send (q : Request) (st : branch_state row) (tb : Table) (tx : option Z)
    (collision_targets : list Z) (change : WireChange) : branch_state row * result Status unit :=
  match check_pk_collisions st (rq_now q) collision_targets tx with
  | Err e => (st, Err e)
  | Ok _ => send_change q st tb tx change
  end.

(** Ends a statement whose steps may fail without a write. *)
Definition or_fail {X} (st : branch_state row) (r : result Status X)
    (k : X → branch_state row * result Status Z) : branch_state row * result Status Z :=
  match r with Ok x => k x | Err e => (st, Err e) end.

Definition finish_with (affected : Z) (r : branch_state row * result Status unit) : branch_state row * result Status Z :=
  (r.1, match r.2 with Ok _ => Ok affected | Err e => Err e end).

Definition num (b : RowBatch) : Z := Z.of_nat (length (rb_rows b)).

Definition execute_insert (q : Request) (st : branch_state row) (insert : Insert) (params : option (list ScalarValue)) :
    branch_state row * result Status Z :=
  if ins_returning insert then (st, Err StInvalidArgument) else
  or_fail st (of_option StInvalidArgument (ins_table insert)) (λ name,
  or_fail st (of_option StInvalidArgument (ins_source insert)) (λ source,
  or_fail st (run_sql st (resolve_tx_uuid_for_dml (rq_session q) (rq_transaction_id q)) (QSource source params)) (λ batches,
  or_fail st (combine_batches batches (ins_columns insert)) (λ renamed,
  if decide (rb_rows renamed = []) then (st, Ok 0) else
  or_fail st (is_on_conflict_do_update (ins_on insert)) (λ is_upsert,
  or_fail st (resolve_target q name) (λ '(tb, tx),
  if decide (length (rb_fields renamed) ≠ length (tb_schema tb)) then (st, Err StInvalidArgument) else
  or_fail st (cast_to_schema renamed (tb_schema tb) (tb_not_null tb)) (λ casted,
  let change := {| wc_upserts := Some casted; wc_deletes := None |} in
  if is_upsert : bool then finish_with (num casted) (send_change q st tb tx change)
  else
    or_fail st (dml_row_uuids casted (tb_uuid tb) (tb_primary_keys tb)) (λ row_uuids,
    finish_with (num casted) (check_collisions_and_send q st tb tx row_uuids change))))))))).

(** The SET clause: a later assignment of a column replaces an earlier one. *)
Fixpoint collect_set (assignments : list (AssignmentTarget * string)) (set : gmap Z string) : result Status (gmap Z string) :=
  match assignments with
  | [] => Ok set
  | (target, e) :: rest => let? col := assignment_column_name target in collect_set rest (<[col := e]> set)
  end.

Definition moves_pk (set : gmap Z string) (primary_keys : list Z) : bool :=
  existsb (λ k, bool_decide (is_Some (set !! k))) primary_keys.

Definition set_items (set : gmap Z string) (s : schema) : list (select_expr * Z) :=
  (λ f, (match set !! field_name f with Some e => SExpr e | None => SColumn (field_name f) end, field_name f)) <$> s.

(** The UPDATE arm of [execute], then [execute_update]; [alias] names the old key
    columns of this call by fresh uuids. *)
Definition execute_update (q : Request) (st : branch_state row) (alias : Z → Z) (u : Update) (params : bool) :
    branch_state row * result Status Z :=
  if params then (st, Err StUnimplemented) else
  if up_from u || up_returning u || up_or_limit u || up_joins u then (st, Err StInvalidArgument) else
  or_fail st (table_factor_name (up_table u)) (λ name,
  or_fail st (collect_set (up_assignments u) ∅) (λ set,
  or_fail st (resolve_target q name) (λ '(tb, tx),
  if decide (map_Forall (λ c _, is_Some (field_with_name (tb_schema tb) c)) set) then
    let moves := moves_pk set (tb_primary_keys tb) in
    let items := set_items set (tb_schema tb) ++
      (if moves then (λ pk, (SColumn pk, alias pk)) <$> tb_primary_keys tb else []) in
    or_fail st (run_sql st tx (QSelect items name (up_selection u))) (λ batches,
    or_fail st (concat_user_batches batches (tb_schema tb)) (λ combined,
    match combined with
    | None => (st, Ok 0)
    | Some combined =>
        or_fail st (cast_to_schema combined (tb_schema tb) (tb_not_null tb)) (λ casted,
        if moves then
          or_fail st (build_old_pk_deletes_batch batches (tb_primary_keys tb) alias (tb_schema tb)) (λ old_pk_batch,
          or_fail st (dml_row_uuids casted (tb_uuid tb) (tb_primary_keys tb)) (λ new_uuids,
          or_fail st (dml_row_uuids old_pk_batch (tb_uuid tb) (tb_primary_keys tb)) (λ old_uuids,
          let collision_targets := filter (λ x, x ∉ old_uuids) new_uuids in
          finish_with (num casted) (check_collisions_and_send q st tb tx collision_targets
            {| wc_upserts := Some casted; wc_deletes := Some old_pk_batch |}))))
        else finish_with (num casted) (send_change q st tb tx {| wc_upserts := Some casted; wc_deletes := None |}))
    end))
  else (st, Err StInvalidArgument)))).

Definition execute_delete (q : Request) (st : branch_state row) (d : Delete) (params : bool) :
    branch_state row * result Status Z :=
  if params then (st, Err StUnimplemented) else
  if del_modifiers d then (st, Err StInvalidArgument) else
  match del_tables d with
  | [(factor, false)] =>
      or_fail st (table_factor_name factor) (λ name,
      or_fail st (resolve_target q name) (λ '(tb, tx),
      if decide (tb_primary_keys tb = []) then (st, Err StFailedPrecondition) else
      or_fail st (run_sql st tx (QSelect ((λ pk, (SColumn pk, pk)) <$> tb_primary_keys tb) name (del_selection d))) (λ batches,
      or_fail st (combine_batches batches []) (λ pk_batch,
      if decide (rb_rows pk_batch = []) then (st, Ok 0) else
      finish_with (num pk_batch) (send_change q st tb tx {| wc_upserts := None; wc_deletes := Some pk_batch |})))))
  | _ => (st, Err StInvalidArgument)
  end.

End executor.
