(* ===== verification/DmlTheorems.v ===== *)
(** * What INSERT, UPDATE and DELETE do to a table

    The statements against the table's latest read: an INSERT adds rows under
    new keys, an UPDATE replaces the matching rows, moving them when it changes
    a key, a DELETE removes them; a failed statement changes nothing. *)

From S2P Require Import Prelude CoreTypes Naming Watermarks ReadSnapshot Dialect MergeSql IndexSeek Plan SnapshotScan IndexSelect TxLog Session TableStore Chunker BatchUtil SeekBatch ReadPath Lifecycle ReadLemmas ReadData Tiers ReadCorrect System SystemInv SystemPersist SystemSnapshot SystemTheorems WriteTheorems Dml.
From stdpp Require Import base numbers list option strings pretty gmap sets.

Open Scope Z_scope.
Open Scope result_scope.

(** ** Positions of columns *)

Lemma index_of_name (s : schema) i n :
  NoDup (field_name <$> s) → (field_name <$> s) !! i = Some n → index_of s n = Some i.
Proof.
  intros Hnd Hi. apply list_lookup_fmap_Some in Hi as (f & -> & Hf). unfold index_of.
  assert (list_find (λ g, field_name g = field_name f) s = Some (i, f)) as ->; [|done].
  apply list_find_Some. split_and!; [done|done|]. intros j g Hj Hlt Heq.
  assert (j = i); [|lia]. apply (NoDup_lookup _ _ _ (field_name f) Hnd); rewrite list_lookup_fmap, ?Hj, ?Hf; simpl; congruence.
Qed.

Lemma index_of_field (s : schema) n i : index_of s n = Some i → ∃ f, s !! i = Some f ∧ field_name f = n ∧ field_with_name s n = Some f.
Proof.
  unfold index_of, field_with_name. destruct (list_find _ s) as [[j f]|] eqn:Hf; [|done]. intros [= <-].
  exists f. apply list_find_Some in Hf as (? & ? & _). done.
Qed.

Lemma mapM_index (s : schema) names idxs :
  NoDup (field_name <$> s) → Forall2 (λ n i, (field_name <$> s) !! i = Some n) names idxs → mapM (index_of s) names = Some idxs.
Proof.
  intros Hnd Hf. apply mapM_Some. eapply Forall2_impl; [exact Hf|]. intros n i. by apply index_of_name.
Qed.

Lemma mapM_range {S'} (s : schema) (g : S' → Z) (names : list S') k :
  NoDup (field_name <$> s) → take (length names) (drop k (field_name <$> s)) = g <$> names →
  mapM (λ x, index_of s (g x)) names = Some (seq k (length names)).
Proof.
  intros Hnd Htake. apply mapM_Some, Forall2_same_length_lookup_2; [by rewrite length_seq|].
  intros i x j Hx [-> Hj]%lookup_seq. apply index_of_name; [done|].
  assert ((g <$> names) !! i = Some (g x)) as Hg by by rewrite list_lookup_fmap, Hx.
  rewrite <- Htake, lookup_take_lt, lookup_drop in Hg by done. exact Hg.
Qed.

Lemma project_range a b c k m : length a = k → length b = m → project (seq k m) (a ++ b ++ c) = b.
Proof.
  intros <- <-. apply list_eq. intros i. unfold project. rewrite list_lookup_fmap.
  destruct (decide (i < length b)%nat) as [Hi|Hi].
  - rewrite lookup_seq_lt by done. simpl. unfold slot_of.
    rewrite lookup_app_r by lia. rewrite lookup_app_l by lia. replace (length a + i - length a)%nat with i by lia.
    destruct (lookup_lt_is_Some_2 b i Hi) as [x ->]. done.
  - rewrite lookup_seq_ge by lia. symmetry. apply lookup_ge_None. lia.
Qed.

Lemma omap_range (s : schema) k m : (k + m ≤ length s)%nat → omap (λ i, s !! i) (seq k m) = take m (drop k s).
Proof.
  revert k. induction m as [|m IH]; intros k Hk; [done|]. simpl.
  destruct (lookup_lt_is_Some_2 s k ltac:(lia)) as [f Hf]. rewrite Hf, IH by lia.
  by rewrite (drop_S _ _ _ Hf).
Qed.

(** ** Casts *)

Section casts.
Context {C : ColumnCast}.

Lemma cast_same types : cast_columns types types = Some (replicate (length types) id).
Proof.
  apply mapM_Some. induction types as [|t types IH]; simpl; [constructor|]. constructor; [|done].
  unfold cast_column. simpl. by rewrite decide_True.
Qed.

Lemma cast_row_id (r : row) n : length r = n → cast_row (replicate n id) r = r.
Proof. intros <-. induction r as [|x r IH]; [done|]. simpl. by rewrite IH. Qed.

Lemma cast_columns_id from to fs i t :
  cast_columns from to = Some fs → from !! i = Some t → to !! i = Some t → fs !! i = Some id.
Proof.
  intros Hm%mapM_Some Hf Ht. eapply Forall2_lookup_l in Hm as (f & Hfi & Hcast).
  2:{ apply lookup_zip_Some. split; [exact Hf|exact Ht]. }
  unfold cast_column in Hcast. simpl in Hcast. rewrite decide_True in Hcast by done. congruence.
Qed.

Lemma cast_columns_length from to fs : cast_columns from to = Some fs → length fs = Nat.min (length from) (length to).
Proof. intros Hm%mapM_Some%Forall2_length. by rewrite length_zip_with in Hm. Qed.

Lemma length_cast_row fs r : length (cast_row fs r) = Nat.min (length fs) (length r).
Proof. apply length_zip_with. Qed.

Lemma cast_slot fs (r : row) i : fs !! i = Some id → length fs = length r → slot_of (cast_row fs r) i = slot_of r i.
Proof.
  intros Hf Hlen. unfold slot_of, cast_row. rewrite lookup_zip_with, Hf. simpl.
  pose proof (lookup_lt_Some _ _ _ Hf). destruct (lookup_lt_is_Some_2 r i ltac:(lia)) as [x ->]. done.
Qed.
End casts.

(** ** Identities *)

Section ids.
Context {A : Arrow} {H : ContentHash}.

(** What [CreateTable] accepts: distinct columns; a non-empty list of distinct
    key columns, each declared. *)
Record table_wf (tb : Table) (idxs : list nat) : Prop := {
  tw_columns : NoDup (field_name <$> tb_schema tb);
  tw_keys : tb_primary_keys tb ≠ [];
  tw_distinct : NoDup (tb_primary_keys tb);
  tw_declared : mapM (index_of (tb_schema tb)) (tb_primary_keys tb) = Some idxs;
}.

(** A row's identity by its table's key columns. *)
Definition row_id (tb : Table) (idxs : list nat) (v : row) : result ApiError Z :=
  row_identity (tb_schema tb) idxs (tb_uuid tb) v.

(** Every row is stored under its identity. *)
Definition keyed (tb : Table) (idxs : list nat) (rows : list (Z * row)) : Prop :=
  ∀ r v, (r, v) ∈ rows → row_id tb idxs v = Ok r ∧ length v = length (tb_schema tb).

Lemma collect_Forall2 {X Y} (f : X → result ApiError Y) l ys : collect (f <$> l) = Ok ys → Forall2 (λ x y, f x = Ok y) l ys.
Proof.
  revert ys. induction l as [|x l IH]; intros ys; [by intros [= <-]|]. rewrite fmap_cons. cbn [collect].
  destruct (f x) as [y|] eqn:Hx; simpl; [|done]. destruct (collect (f <$> l)) as [ys'|]; simpl; [|done].
  intros [= <-]. constructor; [done|by apply IH].
Qed.

Lemma all_status_Forall2 {X Y} (f : X → result Status Y) l ys : all_status f l = Ok ys → Forall2 (λ x y, f x = Ok y) l ys.
Proof.
  revert ys. induction l as [|x l IH]; intros ys; simpl; [by intros [= <-]|].
  destruct (f x) as [y|] eqn:Hx; simpl; [|done]. destruct (all_status f l) as [ys'|]; simpl; [|done].
  intros [= <-]. constructor; [done|by apply IH].
Qed.

(** The server and the executor derive the same identities of a full batch. *)
Lemma insert_rows_ids tb idxs rows ups :
  table_wf tb idxs → insert_rows tb {| rb_fields := tb_schema tb; rb_rows := rows |} = Ok ups →
  snd <$> ups = rows ∧ ∀ r v, (r, v) ∈ ups → row_id tb idxs v = Ok r.
Proof.
  intros [_ _ _ Hd]. unfold insert_rows. simpl. rewrite Hd. case_decide as He; [intros [= <-]; rewrite He; split; [done|by intros r v ?%not_elem_of_nil]|].
  case_decide; [|done]. destruct (collect _) as [ids|] eqn:Hc; simpl; [|done]. intros [= <-].
  apply collect_Forall2 in Hc. pose proof (Forall2_length _ _ _ Hc) as Hlen. split; [apply snd_zip; lia|].
  intros r v Hin. apply list_elem_of_lookup in Hin as [i Hi]. apply lookup_zip_Some in Hi as [Hr Hv].
  by destruct (Forall2_lookup_lr _ _ _ _ _ _ Hc Hv Hr).
Qed.

Lemma dml_ids fields rows table_uuid pks idxs ids :
  mapM (index_of fields) pks = Some idxs →
  dml_row_uuids {| rb_fields := fields; rb_rows := rows |} table_uuid pks = Ok ids →
  Forall2 (λ v r, row_identity fields idxs table_uuid v = Ok r) rows ids.
Proof.
  unfold dml_row_uuids. simpl. intros Hd. case_decide; [done|]. rewrite Hd. simpl. intros Hc%all_status_Forall2.
  eapply Forall2_impl; [exact Hc|]. intros v r. simpl. destruct (row_identity fields idxs table_uuid v); congruence.
Qed.

(** The key columns of a declared schema. *)
Definition key_fields (tb : Table) (idxs : list nat) : schema := omap (λ i, tb_schema tb !! i) idxs.

Lemma key_fields_spec tb idxs :
  mapM (index_of (tb_schema tb)) (tb_primary_keys tb) = Some idxs →
  pk_schema (tb_schema tb) (tb_primary_keys tb) = Some (key_fields tb idxs) ∧
  field_name <$> key_fields tb idxs = tb_primary_keys tb ∧ length (key_fields tb idxs) = length idxs ∧
  length idxs = length (tb_primary_keys tb).
Proof.
  unfold pk_schema, key_fields. revert idxs. generalize (tb_primary_keys tb) as pks.
  induction pks as [|pk pks IH]; intros idxs; simpl; [by intros [= <-]|].
  destruct (index_of (tb_schema tb) pk) as [i|] eqn:Hi; simpl; [|done].
  destruct (mapM _ pks) as [idxs'|] eqn:Hm; simpl; [|done]. intros [= <-].
  destruct (index_of_field _ _ _ Hi) as (f & Hf & Hn & Hw). destruct (IH idxs' eq_refl) as (H1 & H2 & H3 & H4).
  rewrite Hw. simpl. rewrite H1, Hf. simpl. split_and!; [done|f_equal; [done|exact H2]|by f_equal|by f_equal].
Qed.

(** The identity of a row of a batch that holds the key columns only. *)
Lemma key_identity tb idxs fields v :
  field_type <$> fields = field_type <$> key_fields tb idxs → length (key_fields tb idxs) = length idxs →
  row_identity fields (seq 0 (length fields)) (tb_uuid tb) (project idxs v) = row_id tb idxs v.
Proof.
  intros Ht Hlen. unfold row_id, row_identity. rewrite (omap_range fields 0) by lia. rewrite drop_0, take_ge by lia.
  rewrite Ht. f_equal. assert (length fields = length idxs) as Hl by (rewrite <- Hlen, <- (length_fmap field_type), Ht; apply length_fmap).
  rewrite Hl. rewrite <- (app_nil_r (project idxs v)) at 1. apply (project_range [] _ []); [done|]. unfold project. apply length_fmap.
Qed.

Lemma delete_ids tb idxs fields hit ids :
  table_wf tb idxs → field_type <$> fields = field_type <$> key_fields tb idxs → keyed tb idxs hit →
  insert_delete_pk_batches tb {| rb_fields := fields; rb_rows := (λ x, project idxs x.2) <$> hit |} = Ok ids →
  ids = fst <$> hit.
Proof.
  intros [_ _ _ Hd] Ht Hk. destruct (key_fields_spec _ _ Hd) as (_ & _ & Hlen & _).
  unfold insert_delete_pk_batches. simpl. case_decide as He.
  { intros [= <-]. apply fmap_nil_inv in He as ->. done. }
  case_decide; [|done]. destruct (pk_types_match _ _ _); simpl; [|done]. case_decide as Hn; [|done].
  intros Hc%collect_Forall2. apply Forall2_fmap_l in Hc. clear He Hn. revert Hk.
  induction Hc as [|[r v] id hit ids Hid Hc IH]; intros Hk; [done|]. simpl in Hid. rewrite key_identity in Hid by done.
  destruct (Hk r v) as [Hr _]; [by left|]. rewrite fmap_cons, <- IH by (intros r' v' Hin; apply Hk; by right).
  simpl. congruence.
Qed.
End ids.

(** ** Selected rows *)

Section select.
Context {C : ColumnCast}.

(** SQL's value of an expression and of a WHERE clause on a row. *)
Context (eval : string → row → value) (holds : option string → row → bool).

Definition eval_item (tb : Table) (v : row) (e : select_expr) : value :=
  match e with
  | SColumn c => match index_of (tb_schema tb) c with Some i => slot_of v i | None => VNull end
  | SExpr t => eval t v
  end.

Definition eval_items (tb : Table) (items : list (select_expr * Z)) (v : row) : row := (λ item, eval_item tb v item.1) <$> items.

(** What a SELECT of a table returns: batches of one schema named by the
    aliases, a plain column of its declared type, and the items' values on the
    rows [hit] that satisfy the selection. *)
Record selected (tb : Table) (items : list (select_expr * Z)) (sel : option string) (rows : list (Z * row))
    (batches : list RowBatch) (hit : list (Z * row)) (fs : schema) : Prop := {
  se_hit : hit ≡ₚ filter (λ x, holds sel x.2 = true) rows;
  se_fields : Forall (λ b, rb_fields b = fs) batches;
  se_names : field_name <$> fs = snd <$> items;
  se_types : Forall2 (λ item f, ∀ c g, item.1 = SColumn c → field_with_name (tb_schema tb) c = Some g →
    field_type f = field_type g) items fs;
  se_rows : mjoin (rb_rows <$> batches) = (λ x, eval_items tb items x.2) <$> hit;
}.

Lemma all_status_map {X Y} (f : X → result Status Y) (g : X → Y) l ys :
  (∀ x, x ∈ l → f x = Ok (g x)) → all_status f l = Ok ys → ys = g <$> l.
Proof.
  intros Hf Hl%all_status_Forall2. induction Hl as [|x y l ys Hx Hl IH]; [done|]. rewrite fmap_cons. f_equal.
  - rewrite Hf in Hx by by left. congruence.
  - apply IH. intros x' Hx'. apply Hf. by right.
Qed.

Lemma join_rows (f : row → row) s batches :
  mjoin (rb_rows <$> ((λ b, {| rb_fields := s; rb_rows := f <$> rb_rows b |}) <$> batches)) = f <$> mjoin (rb_rows <$> batches).
Proof. induction batches as [|b batches IH]; [done|]. rewrite !fmap_cons. simpl mjoin. by rewrite fmap_app, <- IH. Qed.

Lemma concat_rows s batches out : concat_batches s batches = Ok out → out = {| rb_fields := s; rb_rows := mjoin (rb_rows <$> batches) |}.
Proof. unfold concat_batches. destruct (same_types batches s); congruence. Qed.

Lemma set_items_names set s : snd <$> set_items set s = field_name <$> s.
Proof. unfold set_items. rewrite <- list_fmap_compose. by apply list_fmap_ext. Qed.

Lemma length_set_items set s : length (set_items set s) = length s.
Proof. apply length_fmap. Qed.

Lemma length_eval_items tb items v : length (eval_items tb items v) = length items.
Proof. apply length_fmap. Qed.

Lemma eval_items_app tb a b v : eval_items tb (a ++ b) v = eval_items tb a v ++ eval_items tb b v.
Proof. apply fmap_app. Qed.

Lemma user_batch tb set extra sel rows batches hit fs out :
  NoDup (snd <$> set_items set (tb_schema tb) ++ extra) →
  selected tb (set_items set (tb_schema tb) ++ extra) sel rows batches hit fs →
  concat_user_batches batches (tb_schema tb) = Ok out →
  hit = [] ∧ out = None ∨
  out = Some {| rb_fields := take (length (tb_schema tb)) fs;
                rb_rows := (λ x, eval_items tb (set_items set (tb_schema tb)) x.2) <$> hit |}.
Proof.
  intros Hnd [_ Hfs Hnames _ Hrows]. unfold concat_user_batches. case_decide as He.
  { intros [= <-]. left. split; [|done]. rewrite Hrows in He. by apply fmap_nil_inv in He. }
  set (k := length (tb_schema tb)).
  assert (mapM (index_of fs) (field_name <$> tb_schema tb) = Some (seq 0 k)) as Hidx.
  { pose proof (mapM_range fs (λ n, n) (field_name <$> tb_schema tb) 0) as Hm. rewrite length_fmap in Hm. apply Hm.
    - by rewrite Hnames.
    - rewrite drop_0, Hnames, fmap_app, set_items_names, list_fmap_id. rewrite take_app_length'; [done|by rewrite length_fmap]. }
  assert (k ≤ length fs)%nat as Hk.
  { rewrite <- (length_fmap field_name fs), Hnames, length_fmap, length_app, length_set_items. lia. }
  destruct (all_status _ batches) as [projected|] eqn:Hp; simpl; [|done].
  set (G := λ b, {| rb_fields := take k fs; rb_rows := project (seq 0 k) <$> rb_rows b |}).
  apply (all_status_map _ G) in Hp as ->.
  2:{ intros b Hb. rewrite Forall_forall in Hfs. rewrite (Hfs b Hb), Hidx. simpl. by rewrite (omap_range fs 0) by lia. }
  destruct batches as [|b batches]; [done|].
  change ((let? o := concat_batches (take k fs) (G <$> b :: batches) in Ok (Some o)) = Ok out → 
    hit = [] ∧ out = None ∨ out = Some {| rb_fields := take k fs; rb_rows := (λ x, eval_items tb (set_items set (tb_schema tb)) x.2) <$> hit |}).
  destruct (concat_batches _ _) as [o|] eqn:Hc; simpl; [|done]. intros [= <-]. right. apply concat_rows in Hc as ->.
  unfold G. rewrite join_rows, Hrows, <- list_fmap_compose. do 2 f_equal. apply list_fmap_ext. intros i x _. simpl.
  rewrite eval_items_app. apply (project_range [] _ _); [done|]. by rewrite length_eval_items, length_set_items.
Qed.

(** *** Plain key columns *)

Definition key_items (alias : Z → Z) (pks : list Z) : list (select_expr * Z) := (λ pk, (SColumn pk, alias pk)) <$> pks.

Lemma key_items_types tb idxs alias fs :
  mapM (index_of (tb_schema tb)) (tb_primary_keys tb) = Some idxs →
  Forall2 (λ item f, ∀ c g, item.1 = SColumn c → field_with_name (tb_schema tb) c = Some g → field_type f = field_type g)
    (key_items alias (tb_primary_keys tb)) fs →
  field_type <$> fs = field_type <$> key_fields tb idxs.
Proof.
  intros Hd Hf. destruct (key_fields_spec _ _ Hd) as (Hpk & _). apply mapM_Some in Hpk. unfold key_items in Hf. apply Forall2_fmap_l in Hf.
  clear Hd. revert Hpk fs Hf. generalize (key_fields tb idxs) as gs, (tb_primary_keys tb) as pks. intros gs pks Hpk.
  induction Hpk as [|pk g pks gs Hg Hpk IH]; intros fs Hf; inversion Hf as [|? f ? fs' Hty Hf']; subst; [done|].
  rewrite !fmap_cons. f_equal; [exact (Hty pk g eq_refl Hg)|by apply IH].
Qed.

Lemma key_items_eval tb idxs alias v :
  mapM (index_of (tb_schema tb)) (tb_primary_keys tb) = Some idxs → eval_items tb (key_items alias (tb_primary_keys tb)) v = project idxs v.
Proof.
  intros Hd%mapM_Some. unfold eval_items, key_items, project. rewrite <- list_fmap_compose.
  induction Hd as [|pk i pks idxs Hi Hd IH]; [done|]. rewrite !fmap_cons. f_equal; [|done]. simpl. by rewrite Hi.
Qed.

Lemma old_pk_batch tb idxs set alias sel rows batches hit fs out :
  table_wf tb idxs → NoDup (snd <$> set_items set (tb_schema tb) ++ key_items alias (tb_primary_keys tb)) →
  selected tb (set_items set (tb_schema tb) ++ key_items alias (tb_primary_keys tb)) sel rows batches hit fs →
  build_old_pk_deletes_batch batches (tb_primary_keys tb) alias (tb_schema tb) = Ok out →
  out = {| rb_fields := key_fields tb idxs; rb_rows := (λ x, project idxs x.2) <$> hit |}.
Proof.
  intros [_ _ _ Hd] Hnd [_ Hfs Hnames Htypes Hrows]. destruct (key_fields_spec _ _ Hd) as (Hpk & _ & Hlen & Hlen').
  unfold build_old_pk_deletes_batch. rewrite Hpk. simpl.
  apply Forall2_app_inv_l in Htypes as (fs1 & fs2 & H1 & H2 & ->).
  pose proof (key_items_types _ _ _ _ Hd H2) as Hty. apply Forall2_length in H1, H2. rewrite length_set_items in H1.
  unfold key_items in H2. rewrite length_fmap in H2.
  set (k := length (tb_schema tb)) in *. set (m := length (tb_primary_keys tb)) in *.
  assert (mapM (λ pk, index_of (fs1 ++ fs2) (alias pk)) (tb_primary_keys tb) = Some (seq k m)) as Hidx.
  { apply mapM_range; [by rewrite Hnames|]. rewrite Hnames, fmap_app, set_items_names, drop_app_length' by (by rewrite length_fmap).
    unfold key_items. rewrite <- list_fmap_compose, take_ge by (by rewrite length_fmap). done. }
  destruct (all_status _ batches) as [projected|] eqn:Hp; simpl; [|done].
  apply (all_status_map _ (λ b, {| rb_fields := key_fields tb idxs; rb_rows := (λ r, cast_row (replicate m id) (project (seq k m) r)) <$> rb_rows b |})) in Hp as ->.
  2:{ intros b Hb. rewrite Forall_forall in Hfs. rewrite (Hfs b Hb), Hidx. simpl. rewrite omap_range by (rewrite length_app; lia).
      rewrite drop_app_length', take_ge by lia. rewrite Hty, cast_same, length_fmap, Hlen, Hlen'. done. }
  intros ->%concat_rows. rewrite join_rows, Hrows, <- list_fmap_compose. f_equal. apply list_fmap_ext. intros i x _. simpl.
  rewrite eval_items_app, (key_items_eval tb idxs) by done.
  pose proof (project_range (eval_items tb (set_items set (tb_schema tb)) x.2) (project idxs x.2) [] k m) as Hr.
  rewrite app_nil_r in Hr. rewrite Hr.
  - apply cast_row_id. unfold project. by rewrite length_fmap.
  - by rewrite length_eval_items, length_set_items.
  - unfold project. by rewrite length_fmap.
Qed.

(** The rows an UPDATE writes, and the columns it leaves alone. *)
Definition updated (tb : Table) (set : gmap Z string) (casts : list (value → value)) (v : row) : row :=
  cast_row casts (eval_items tb (set_items set (tb_schema tb)) v).

Lemma updated_keep tb set extra types sel rows batches hit fs casts v i f :
  NoDup (field_name <$> tb_schema tb) →
  selected tb (set_items set (tb_schema tb) ++ extra) sel rows batches hit fs →
  types = field_type <$> take (length (tb_schema tb)) fs →
  cast_columns types (field_type <$> tb_schema tb) = Some casts →
  tb_schema tb !! i = Some f → set !! field_name f = None →
  slot_of (updated tb set casts v) i = slot_of v i.
Proof.
  intros Hnd [_ _ _ Htypes _] -> Hc Hf Hset. apply Forall2_app_inv_l in Htypes as (fs1 & fs2 & H1 & _ & ->).
  pose proof (Forall2_length _ _ _ H1) as Hlen. rewrite length_set_items in Hlen. rewrite take_app_length' in Hc by done.
  assert (index_of (tb_schema tb) (field_name f) = Some i) as Hi by (apply index_of_name; [done|by rewrite list_lookup_fmap, Hf]).
  assert (set_items set (tb_schema tb) !! i = Some (SColumn (field_name f), field_name f)) as Hit
    by (unfold set_items; by rewrite list_lookup_fmap, Hf; simpl; rewrite Hset).
  destruct (Forall2_lookup_l _ _ _ _ _ H1 Hit) as (g & Hg & Hty). destruct (index_of_field _ _ _ Hi) as (f' & Hf' & _ & Hw).
  assert (f' = f) as -> by congruence. specialize (Hty (field_name f) f eq_refl Hw).
  unfold updated. rewrite cast_slot.
  - unfold slot_of at 1, eval_items. rewrite list_lookup_fmap, Hit. simpl. by rewrite Hi.
  - eapply cast_columns_id; [exact Hc|by rewrite list_lookup_fmap, Hg|]. rewrite list_lookup_fmap, Hf. simpl. by rewrite Hty.
  - apply cast_columns_length in Hc. rewrite !length_fmap in Hc. rewrite length_eval_items, length_set_items. lia.
Qed.
(** A column of the SET has the value of its expression, cast to the declared
    type. *)
Lemma updated_set tb set (fs : schema) casts v i f e :
  (length (tb_schema tb) ≤ length fs)%nat →
  cast_columns (field_type <$> take (length (tb_schema tb)) fs) (field_type <$> tb_schema tb) = Some casts →
  tb_schema tb !! i = Some f → set !! field_name f = Some e →
  ∃ g cast, fs !! i = Some g ∧ cast_column (field_type g) (field_type f) = Some cast ∧
    slot_of (updated tb set casts v) i = cast (eval e v).
Proof.
  intros Hl Hc%mapM_Some Hf Hset. pose proof (lookup_lt_Some _ _ _ Hf) as Hi.
  destruct (lookup_lt_is_Some_2 fs i ltac:(lia)) as [g Hg].
  eapply Forall2_lookup_l in Hc as (cast & Hci & Hcast).
  2:{ apply lookup_zip_Some. split; rewrite list_lookup_fmap; [rewrite lookup_take_lt by done; by rewrite Hg|by rewrite Hf]. }
  exists g, cast. split_and!; [done|done|]. unfold slot_of, updated, cast_row, eval_items, set_items.
  rewrite lookup_zip_with, Hci. simpl. rewrite !list_lookup_fmap, Hf. simpl. by rewrite Hset.
Qed.
End select.

(** ** Statements against the table *)

Section statements.
Context {A : Arrow} {H : ContentHash} {C : ColumnCast}.
Context `{CV : ColdBatch row, CU : ColdBatch unit, L : SnapshotLayout row}.
Context (E : env row) (value : Z → Z * row → IndexSeek.cell) (index_key : Z → Z * row → list IndexSeek.cell)
  (HCV : ColdBatchLaws CV) (HCU : ColdBatchLaws CU) (HL : SnapshotLayoutLaws L value index_key) (Henv : env_ok E value index_key)
  (may_match : (Z * row → bool) → SnapshotSegment row → bool) (equality_bindings : (Z * row → bool) → gmap Z (list Z))
  (Hprune : prune_sound may_match) (Hbind : bindings_sound value equality_bindings) (cfg : QueryConfig).

Notation read := (read_latest value may_match equality_bindings cfg).

Lemma write_distinct (version : Z → Z → Z) (st : branch_state row) now fresh tx ch out :
  write_data version st now fresh tx (Some ch) = Ok out → NoDup (fst <$> ch_upserts ch).
Proof.
  unfold write_data. destruct (resolve_or_auto_commit_tx _ _ _ _) as [[l [t c]]|]; cbn [result_bind]; [|done].
  unfold apply_change. case_decide as He; [destruct He as [-> _]; intros _; constructor|].
  destruct (insert_deletes _ _ _ _ _). by case_decide.
Qed.

(** A served auto-commit replaces what the decoded change names. *)
Lemma served_rows w gone now fresh tb wc st out :
  Inv E value index_key w gone → tick w now → fresh_tx (bs_tx (w_real w)) fresh →
  serve_write (e_version_uuid E) (w_real w) now fresh tb None wc = Ok (st, out) →
  ∃ ch rows rows', decode_change tb wc = Ok ch ∧ NoDup (fst <$> ch_upserts ch) ∧
    read (w_real w) now None None = Ok rows ∧ read st now None None = Ok rows' ∧
    NoDup (fst <$> rows) ∧ NoDup (fst <$> rows') ∧
    ∀ r v, (r, v) ∈ rows' ↔ (r, v) ∈ ch_upserts ch ∨ ((r, v) ∈ rows ∧ r ∉ fst <$> ch_upserts ch ∧ r ∉ ch_deletes ch).
Proof.
  intros Hi Htick Hfr. unfold serve_write. destruct (resolve_or_auto_commit_tx _ _ _ _) as [[l p]|]; cbn [result_bind]; [|done].
  destruct (decode_change tb wc) as [ch|] eqn:Hch; cbn [result_bind]; [|done]. intros Hw.
  destruct (write_rows E value index_key Henv w gone Hi may_match equality_bindings Hprune Hbind cfg now fresh ch st out Htick Hfr Hw)
    as (rows & rows' & H1 & H2 & Hnd & Hnd' & Hel).
  exists ch, rows, rows'. split_and!; [done|by eapply write_distinct| | |done|done|exact Hel]; unfold read_latest; simpl;
    unfold latest, scan in *; [by rewrite H1|by rewrite H2].
Qed.

Definition latest_request (st : branch_state row) (f : option (Z * row → bool)) : ReadDataRequest row :=
  {| rd_snapshot := LatestSeq (branch_seq_frontier (bs_tx st)); rd_row_uuids := None; rd_filter := f; rd_index_seek := None |}.

Lemma latest_exact w gone now f :
  Inv E value index_key w gone →
  ∃ rows, read (w_real w) now None f = Ok rows ∧ NoDup (fst <$> rows) ∧
    ∀ x, x ∈ rows ↔ table_at (LatestSeq (branch_seq_frontier (bs_tx (w_real w)))) (historyU (w_ideal w)) (historyD (w_ideal w))
      (hot_view (w_real w)) x ∧ ∀ g, f = Some g → g x = true.
Proof.
  intros Hi. destruct (read_exact value index_key may_match equality_bindings _ _ _ _ cfg None now None (latest_request (w_real w) f)
    (inv_coherent _ _ _ _ _ Hi) Hprune Hbind I ltac:(simpl; i64) ltac:(done) ltac:(by intros k)) as (rows & H1 & Hnd & Hel).
  exists rows. split; [unfold read_latest; simpl; unfold latest_request in H1; by rewrite H1|]. split; [done|].
  intros x. rewrite Hel. simpl rd_snapshot. unfold requested, latest_request. simpl. naive_solver.
Qed.

(** The probe sees exactly the table's latest rows. *)
Lemma probe_clear w gone now ids rows :
  Inv E value index_key w gone → read (w_real w) now None None = Ok rows →
  check_pk_collisions value may_match equality_bindings cfg (w_real w) now ids None = Ok tt →
  ∀ r, r ∈ ids → r ∉ fst <$> rows.
Proof.
  intros Hi Hrows. unfold check_pk_collisions. case_decide as He; [intros _ r Hr; rewrite He in Hr; by apply not_elem_of_nil in Hr|].
  destruct (latest_exact w gone now None Hi) as (rows0 & H1 & _ & Hel).
  destruct (latest_exact w gone now (Some (λ x, bool_decide (x.1 ∈ ids))) Hi) as (found & H2 & _ & Hel').
  assert (rows0 = rows) as -> by congruence. rewrite H2. cbn [result_bind]. case_decide as Hf; [|done].
  intros _ r Hr ([r' v] & -> & Hv)%list_elem_of_fmap. simpl in Hr.
  assert ((r', v) ∈ found) as Hin'; [|rewrite Hf in Hin'; by apply not_elem_of_nil in Hin'].
  apply Hel'. apply Hel in Hv as [Hv _]. split; [exact Hv|]. intros f [= <-]. simpl. by apply bool_decide_eq_true.
Qed.

Context (run_sql : branch_state row → option Z → sql_query → result Status (list RowBatch))
        (get_table : string → string → string → option Z → result Status Table).

Lemma or_fail_ok {X} st (r : result Status X) k st' n :
  or_fail st r k = (st', Ok n) → ∃ x, r = Ok x ∧ k x = (st', Ok n).
Proof. destruct r as [x|e]; simpl; [eauto|by intros [= ]]. Qed.

Lemma or_fail_err {X} st (r : result Status X) k st' e :
  (∀ x, k x = (st', Err e) → st' = st) → or_fail st r k = (st', Err e) → st' = st.
Proof. destruct r as [x|e']; simpl; [eauto|by intros _ [= <- _]]. Qed.

Lemma finish_ok n r st' m : finish_with n r = (st', Ok m) → m = n ∧ r.1 = st' ∧ r.2 = Ok tt.
Proof. destruct r as [s [[]|e]]; unfold finish_with; simpl; by intros [= <- <-]. Qed.

Lemma send_ok q st tb tx wc : ∀ st', (send_change (e_version_uuid E) q st tb tx wc).1 = st' →
  (send_change (e_version_uuid E) q st tb tx wc).2 = Ok tt →
  ∃ out, serve_write (e_version_uuid E) st (rq_now q) (rq_fresh q) tb tx wc = Ok (st', out).
Proof.
  intros st'. unfold send_change. destruct (serve_write _ _ _ _ _ _ _) as [[s out]|e]; simpl; [intros <- _; eauto|done].
Qed.

Lemma checked_ok q st tb tx ids wc st' :
  let r := check_collisions_and_send value may_match equality_bindings cfg (e_version_uuid E) q st tb tx ids wc in
  r.1 = st' → r.2 = Ok tt →
  check_pk_collisions value may_match equality_bindings cfg st (rq_now q) ids tx = Ok tt ∧
  ∃ out, serve_write (e_version_uuid E) st (rq_now q) (rq_fresh q) tb tx wc = Ok (st', out).
Proof.
  cbv zeta. unfold check_collisions_and_send. destruct (check_pk_collisions _ _ _ _ _ _ _ _) as [[]|e]; [|done].
  intros H1 H2. split; [done|]. by apply send_ok.
Qed.

(** A statement that fails writes nothing. *)
Ltac fails :=
  repeat first
    [ by intros [= <- _] | by intros [= ] | apply or_fail_err; intros ?
    | progress case_decide | progress case_match
    | unfold finish_with, check_collisions_and_send, send_change ].

Lemma insert_fails q st ins params st' e :
  execute_insert value may_match equality_bindings cfg (e_version_uuid E) run_sql get_table q st ins params = (st', Err e) → st' = st.
Proof. unfold execute_insert. fails. Qed.

Lemma update_fails q st alias u params st' e :
  execute_update value may_match equality_bindings cfg (e_version_uuid E) run_sql get_table q st alias u params = (st', Err e) → st' = st.
Proof. unfold execute_update. fails. Qed.

Lemma delete_fails q st d params st' e :
  execute_delete (e_version_uuid E) run_sql get_table q st d params = (st', Err e) → st' = st.
Proof. unfold execute_delete. fails. Qed.

(** *** INSERT *)

(** The rows an INSERT brings: all the source's rows, in their order and in the
    source's column order, cast to the declared types; none when the source has
    none. *)
Definition inserted (tb : Table) (batches : list RowBatch) (columns : list Z) (new : list row) : Prop :=
  ∃ combined, combine_batches batches columns = Ok combined ∧ rb_rows combined = mjoin (rb_rows <$> batches) ∧
    (mjoin (rb_rows <$> batches) = [] ∧ new = [] ∨
     ∃ casts, length (rb_fields combined) = length (tb_schema tb) ∧
       cast_columns (field_type <$> rb_fields combined) (field_type <$> tb_schema tb) = Some casts ∧
       new = cast_row casts <$> mjoin (rb_rows <$> batches)).

Lemma combine_rows batches columns combined :
  combine_batches batches columns = Ok combined → rb_rows combined = mjoin (rb_rows <$> batches).
Proof.
  unfold combine_batches. destruct batches as [|b bs]; [by intros [= <-]|]. unfold concat_batches.
  destruct (same_types _ _); [|done]. cbn [result_bind]. destruct columns; [by intros [= <-]|]. case_decide; [|done]. by intros [= <-].
Qed.

Lemma target_tx q name tb tx :
  resolve_target get_table q name = Ok (tb, tx) → resolve_tx_uuid_for_dml (rq_session q) (rq_transaction_id q) = tx.
Proof.
  unfold resolve_target. destruct (split_object_name name) as [[[c s] t]|]; cbn [result_bind]; [|done].
  destruct (validate_session_catalog_name _ _); cbn [result_bind]; [|done]. destruct (get_table _ _ _ _) as [tb'|]; cbn [result_bind]; [|done].
  destruct (validate_session_catalog _ _); cbn [result_bind]; [|done]. by intros [= _ <-].
Qed.

Lemma cast_to_schema_rows batch target not_null out :
  cast_to_schema batch target not_null = Ok out → ∃ casts,
    cast_columns (field_type <$> rb_fields batch) (field_type <$> target) = Some casts ∧
    out = {| rb_fields := target; rb_rows := cast_row casts <$> rb_rows batch |} ∧ length (rb_fields batch) = length target.
Proof.
  unfold cast_to_schema. case_decide as Hl; [|done]. destruct (cast_columns _ _) as [fs|]; [|done].
  destruct (nulls_ok _ _ _); [|done]. intros [= <-]. eauto.
Qed.

(** An upsert-only change, decoded. *)
Lemma decode_upserts tb idxs rows deletes ch :
  table_wf tb idxs →
  decode_change tb {| wc_upserts := Some {| rb_fields := tb_schema tb; rb_rows := rows |}; wc_deletes := deletes |} = Ok ch →
  snd <$> ch_upserts ch = rows ∧ (∀ r v, (r, v) ∈ ch_upserts ch → row_id tb idxs v = Ok r) ∧
  match deletes with Some b => insert_delete_pk_batches tb b = Ok (ch_deletes ch) | None => ch_deletes ch = [] end.
Proof.
  intros Hwf. unfold decode_change. simpl.
  destruct (match deletes with Some b => insert_delete_pk_batches tb b | None => Ok [] end) as [ds|] eqn:Hd; simpl; [|done].
  destruct (insert_rows tb _) as [ups|] eqn:Hu; simpl; [|done]. intros [= <-]. simpl.
  destruct (insert_rows_ids _ _ _ _ Hwf Hu) as [H1 H2]. split_and!; [done|done|]. destruct deletes; congruence.
Qed.

(** The identities the executor derives are those the server derives. *)
Lemma ids_agree tb idxs rows (ups : list (Z * row)) ids :
  table_wf tb idxs → snd <$> ups = rows → (∀ r v, (r, v) ∈ ups → row_id tb idxs v = Ok r) →
  dml_row_uuids {| rb_fields := tb_schema tb; rb_rows := rows |} (tb_uuid tb) (tb_primary_keys tb) = Ok ids →
  ids = fst <$> ups.
Proof.
  intros [_ _ _ Hd] <- Hups Hids. apply (dml_ids _ _ _ _ _ _ Hd) in Hids. apply Forall2_fmap_l in Hids. revert Hups.
  induction Hids as [|[r v] id ups ids Hid Hids IH]; intros Hups; [done|]. rewrite fmap_cons. f_equal.
  - pose proof (Hups r v ltac:(by left)) as Hr. simpl in *. unfold row_id in Hr. congruence.
  - apply IH. intros r' v' Hin. apply Hups. by right.
Qed.

(** C6 INSERT adds rows under new keys.  In every reachable state of a table, an
    auto-committing INSERT that fails leaves the table as it was; one that
    succeeds evaluated the statement's source, returns the number of its rows,
    and makes the latest read exactly the rows it had, less those it overwrites,
    and every row of the source, cast to the declared types and under the
    identity of its key.  The new identities are distinct, and without ON
    CONFLICT none of them was in the table: no row is overwritten. *)
Theorem insert_exact w q ins params st' res name tb idxs :
  rtc (wstep E) start w → tick w (rq_now q) → fresh_tx (bs_tx (w_real w)) (rq_fresh q) →
  ins_table ins = Some name → resolve_target get_table q name = Ok (tb, None) → table_wf tb idxs →
  execute_insert value may_match equality_bindings cfg (e_version_uuid E) run_sql get_table q (w_real w) ins params = (st', res) →
  match res with
  | Err _ => st' = w_real w
  | Ok n => ∃ rows rows' new source batches,
      ins_source ins = Some source ∧ run_sql (w_real w) None (QSource source params) = Ok batches ∧
      n = Z.of_nat (length (mjoin (rb_rows <$> batches))) ∧ inserted tb batches (ins_columns ins) (snd <$> new) ∧
      read (w_real w) (rq_now q) None None = Ok rows ∧ read st' (rq_now q) None None = Ok rows' ∧
      NoDup (fst <$> new) ∧ NoDup (fst <$> rows') ∧ (∀ r v, (r, v) ∈ new → row_id tb idxs v = Ok r) ∧
      (ins_on ins = None → ∀ r, r ∈ fst <$> new → r ∉ fst <$> rows) ∧
      ∀ r v, (r, v) ∈ rows' ↔ (r, v) ∈ new ∨ ((r, v) ∈ rows ∧ r ∉ fst <$> new)
  end.
Proof.
  intros Hr Htick Hfr Hname Htb Hwf. destruct (inv_reachable E value index_key Henv w Hr) as [gone Hi].
  destruct res as [n|e]; [|apply insert_fails].
  unfold execute_insert. destruct (ins_returning ins); [done|]. rewrite Hname. cbn [of_option or_fail].
  intros (source & Hsource & (batches & Hrun & (combined & Hcomb & Hx)%or_fail_ok)%or_fail_ok)%or_fail_ok. revert Hx.
  rewrite (target_tx _ _ _ _ Htb) in Hrun. pose proof (combine_rows _ _ _ Hcomb) as Hsrc.
  assert (ins_source ins = Some source) as Hins by (destruct (ins_source ins); simpl in Hsource; congruence). clear Hsource.
  case_decide as He.
  { rewrite He in Hsrc. intros [= <- <-]. destruct (latest_exact w gone (rq_now q) None Hi) as (rows & Hrows & Hnd & _).
    exists rows, rows, [], source, batches.
    split_and!; [done|done|by rewrite <- Hsrc| |done|done|constructor|done|by intros r v ?%not_elem_of_nil|by intros _ r ?%not_elem_of_nil|].
    { exists combined. rewrite He, <- Hsrc. split_and!; [done|done|by left]. }
    intros r v. rewrite elem_of_nil. split; [|naive_solver]. intros Hin. right. split; [done|by intros ?%not_elem_of_nil]. }
  intros (is_upsert & Hon & Hx)%or_fail_ok. rewrite Htb in Hx. cbn [or_fail] in Hx. revert Hx. case_decide; [done|].
  intros (casted & (casts & Hcasts & -> & Hlen)%cast_to_schema_rows & Hx)%or_fail_ok.
  assert (∃ out, serve_write (e_version_uuid E) (w_real w) (rq_now q) (rq_fresh q) tb None
      {| wc_upserts := Some {| rb_fields := tb_schema tb; rb_rows := cast_row casts <$> rb_rows combined |}; wc_deletes := None |} = Ok (st', out) ∧
    n = Z.of_nat (length (rb_rows combined)) ∧ (is_upsert = false → ∃ ids,
      dml_row_uuids {| rb_fields := tb_schema tb; rb_rows := cast_row casts <$> rb_rows combined |} (tb_uuid tb) (tb_primary_keys tb) = Ok ids ∧
      check_pk_collisions value may_match equality_bindings cfg (w_real w) (rq_now q) ids None = Ok tt)) as (out & Hserve & -> & Hstrict).
  { destruct is_upsert.
    - apply finish_ok in Hx as (-> & H1 & H2). destruct (send_ok _ _ _ _ _ _ H1 H2) as [out Hs]. exists out.
      split_and!; [done|unfold num; simpl; by rewrite length_fmap|done].
    - apply or_fail_ok in Hx as (ids & Hids & (-> & H1 & H2)%finish_ok). destruct (checked_ok _ _ _ _ _ _ _ H1 H2) as (Hc & out & Hs).
      exists out. split_and!; [done|unfold num; simpl; by rewrite length_fmap|]. intros _. by exists ids. }
  destruct (served_rows w gone _ _ _ _ _ _ Hi Htick Hfr Hserve) as (ch & rows & rows' & Hch & Hnd & H1 & H2 & _ & Hnd' & Hel).
  destruct (decode_upserts _ _ _ _ _ Hwf Hch) as (Hsnd & Hids & Hdel). rewrite Hdel in Hel.
  exists rows, rows', (ch_upserts ch), source, batches. split_and!; [done|done|by rewrite Hsrc| |done|done|done|done|done| |].
  - exists combined. rewrite <- Hsrc. split_and!; [done|done|]. right. by exists casts.
  - intros Hnone r Hin. rewrite Hnone in Hon. injection Hon as <-. destruct (Hstrict eq_refl) as (ids & Hd & Hc).
    apply (probe_clear w gone (rq_now q) ids rows Hi H1 Hc). by rewrite (ids_agree _ _ _ _ _ Hwf Hsnd Hids Hd).
  - intros r v. rewrite Hel. split; [intros [?|(?&?&_)]; auto|]. intros [?|[? ?]]; [by left|right]. split_and!; [done|done|apply not_elem_of_nil].
Qed.

(** *** UPDATE and DELETE *)

Context (eval : string → row → BatchUtil.value) (holds : option string → row → bool).

(** DataFusion's answer to the SELECT of a table is the SQL one. *)
Definition select_sound (tb : Table) (name : ObjectName) (st : branch_state row) (now : Z) : Prop :=
  ∀ items sel batches rows, run_sql st None (QSelect items name sel) = Ok batches → read st now None None = Ok rows →
    ∃ hit fs, selected eval holds tb items sel rows batches hit fs.

Lemma hit_elem tb items sel rows batches hit fs r v :
  selected eval holds tb items sel rows batches hit fs → (r, v) ∈ hit ↔ (r, v) ∈ rows ∧ holds sel v = true.
Proof. intros [Hp _ _ _ _]. rewrite Hp, list_elem_of_filter. simpl. tauto. Qed.

Lemma row_unique (rows : list (Z * row)) r v v' : NoDup (fst <$> rows) → (r, v) ∈ rows → (r, v') ∈ rows → v = v'.
Proof.
  intros Hnd [i Hi]%list_elem_of_lookup [j Hj]%list_elem_of_lookup.
  assert (i = j) as -> by (apply (NoDup_lookup _ _ _ r Hnd); rewrite list_lookup_fmap, ?Hi, ?Hj; done). congruence.
Qed.

Lemma hit_apart tb items sel rows batches hit fs r v :
  selected eval holds tb items sel rows batches hit fs → NoDup (fst <$> rows) → (r, v) ∈ rows →
  r ∈ fst <$> hit ↔ holds sel v = true.
Proof.
  intros Hs Hnd Hv. split.
  - intros ([r' v'] & -> & Hin)%list_elem_of_fmap. apply (hit_elem _ _ _ _ _ _ _ _ _ Hs) in Hin as [Hin Hh].
    simpl in *. by rewrite (row_unique rows r' v v').
  - intros Hh. apply list_elem_of_fmap. exists (r, v). split; [done|]. by apply (hit_elem _ _ _ _ _ _ _ _ _ Hs).
Qed.

Lemma hit_keyed tb idxs items sel rows batches hit fs :
  selected eval holds tb items sel rows batches hit fs → keyed tb idxs rows → keyed tb idxs hit.
Proof. intros Hs Hk r v Hin. apply Hk. by apply (hit_elem _ _ _ _ _ _ _ _ _ Hs) in Hin as [? _]. Qed.

(** C8 DELETE removes the matching rows.  In every reachable state whose rows are
    stored under their identities, an auto-committing DELETE that fails leaves
    the table as it was; one that succeeds removes from the latest read exactly
    the rows its WHERE clause holds of, and reports their number. *)
Theorem delete_exact w q d st' res name tb idxs factor rows :
  rtc (wstep E) start w → tick w (rq_now q) → fresh_tx (bs_tx (w_real w)) (rq_fresh q) →
  del_tables d = [(factor, false)] → table_factor_name factor = Ok name →
  resolve_target get_table q name = Ok (tb, None) → table_wf tb idxs → select_sound tb name (w_real w) (rq_now q) →
  read (w_real w) (rq_now q) None None = Ok rows → keyed tb idxs rows →
  execute_delete (e_version_uuid E) run_sql get_table q (w_real w) d false = (st', res) →
  match res with
  | Err _ => st' = w_real w
  | Ok n => ∃ rows', read st' (rq_now q) None None = Ok rows' ∧
      n = Z.of_nat (length (filter (λ x, holds (del_selection d) x.2 = true) rows)) ∧
      ∀ r v, (r, v) ∈ rows' ↔ (r, v) ∈ rows ∧ holds (del_selection d) v = false
  end.
Proof.
  intros Hr Htick Hfr Htab Hfac Htb Hwf Hsel Hrows Hk. destruct (inv_reachable E value index_key Henv w Hr) as [gone Hi].
  destruct res as [n|e]; [|apply delete_fails].
  unfold execute_delete. destruct (del_modifiers d); [done|]. rewrite Htab, Hfac. cbn [or_fail]. rewrite Htb. cbn [or_fail].
  case_decide; [done|]. intros (batches & Hrun & (pkb & Hcomb & Hx)%or_fail_ok)%or_fail_ok. revert Hx.
  change ((λ pk, (SColumn pk, pk)) <$> tb_primary_keys tb) with (key_items (λ pk, pk) (tb_primary_keys tb)) in Hrun.
  destruct (Hsel _ _ _ _ Hrun Hrows) as (hit & fs & Hs). pose proof Hs as [Hp Hfs Hn Ht Hall].
  assert (∃ fields, pkb = {| rb_fields := fields; rb_rows := (λ x, project idxs x.2) <$> hit |} ∧
    (hit ≠ [] → field_type <$> fields = field_type <$> key_fields tb idxs)) as (fields & -> & Hty).
  { assert ((λ x : Z * row, eval_items eval tb (key_items (λ pk, pk) (tb_primary_keys tb)) x.2) <$> hit = (λ x, project idxs x.2) <$> hit) as Heq
      by (apply list_fmap_ext; intros i x _; by apply key_items_eval, Hwf).
    rewrite Heq in Hall. destruct batches as [|b batches]; simpl in Hcomb.
    - injection Hcomb as <-. exists []. simpl in Hall. by destruct hit.
    - destruct (concat_batches _ _) as [o|] eqn:Hc; simpl in Hcomb; [|done]. injection Hcomb as <-. apply concat_rows in Hc as ->.
      exists (rb_fields b). split; [f_equal; exact Hall|]. intros _. rewrite Forall_cons in Hfs. destruct Hfs as [-> _].
      by apply (key_items_types tb idxs (λ pk, pk)); [apply Hwf|]. }
  rewrite <- (Permutation_length Hp). cbn [rb_rows]. case_decide as He.
  { apply fmap_nil_inv in He as ->. intros [= <- <-]. exists rows. split_and!; [done|done|]. intros r v. split; [|by intros [? _]].
    intros Hin. split; [done|]. destruct (holds (del_selection d) v) eqn:Hh; [|done].
    assert ((r, v) ∈ @nil (Z * row)) as []%not_elem_of_nil. by apply (hit_elem _ _ _ _ _ _ _ _ _ Hs). }
  intros (-> & H1 & H2)%finish_ok. destruct (send_ok _ _ _ _ _ _ H1 H2) as [out Hserve].
  destruct (served_rows w gone _ _ _ _ _ _ Hi Htick Hfr Hserve) as (ch & rows0 & rows' & Hch & _ & Hr0 & Hr' & Hnd & _ & Hel).
  assert (rows0 = rows) as -> by congruence. exists rows'. split_and!; [done|unfold num; simpl; by rewrite length_fmap|].
  unfold decode_change in Hch. simpl in Hch. destruct (insert_delete_pk_batches tb _) as [ids|] eqn:Hd; simpl in Hch; [|done].
  injection Hch as <-. apply (delete_ids tb idxs) in Hd as ->; [|done|apply Hty; by intros ->|by eapply hit_keyed]. simpl in Hel.
  intros r v. rewrite Hel. rewrite elem_of_nil. split.
  - intros [[]|(Hv & _ & Hn')]. split; [done|]. rewrite (hit_apart _ _ _ _ _ _ _ _ _ Hs Hnd Hv) in Hn'. by destruct (holds _ v).
  - intros [Hv Hf]. right. split_and!; [done|apply not_elem_of_nil|]. rewrite (hit_apart _ _ _ _ _ _ _ _ _ Hs Hnd Hv). by rewrite Hf.
Qed.

(** The rows of a change that rewrites the hit rows. *)
Record rewrites (tb : Table) (idxs : list nat) (upd : row → row) (rows hit : list (Z * row)) (ch : Change row) : Prop := {
  rw_upserts : snd <$> ch_upserts ch = (λ x, upd x.2) <$> hit;
  rw_ids : ∀ r v, (r, v) ∈ ch_upserts ch → row_id tb idxs v = Ok r;
  rw_old : ∀ r, r ∈ fst <$> hit → r ∈ fst <$> ch_upserts ch ∨ r ∈ ch_deletes ch;
  rw_apart : ∀ r v, (r, v) ∈ rows → r ∉ fst <$> hit → r ∉ fst <$> ch_upserts ch ∧ r ∉ ch_deletes ch;
}.

Lemma rewritten tb idxs upd rows hit ch r v :
  rewrites tb idxs upd rows hit ch → (∀ r v, (r, v) ∈ hit → (r, v) ∈ rows) → NoDup (fst <$> rows) →
  (r, v) ∈ ch_upserts ch ∨ ((r, v) ∈ rows ∧ r ∉ fst <$> ch_upserts ch ∧ r ∉ ch_deletes ch) ↔
  (∃ r0 v0, (r0, v0) ∈ hit ∧ v = upd v0 ∧ row_id tb idxs v = Ok r) ∨ ((r, v) ∈ rows ∧ r ∉ fst <$> hit).
Proof.
  intros [Hups Hids Hold Hapart] Hsub Hnd. split.
  - intros [Hin|(Hv & Hu & Hd)].
    + left. assert (v ∈ snd <$> ch_upserts ch) as Hv by (apply list_elem_of_fmap; by exists (r, v)).
      rewrite Hups in Hv. apply list_elem_of_fmap in Hv as ([r0 v0] & -> & Hhit). exists r0, v0. split_and!; [done|done|by apply Hids].
    + right. split; [done|]. intros [?|?]%Hold; done.
  - intros [(r0 & v0 & Hhit & -> & Hid)|[Hv Hn]].
    + left. assert (upd v0 ∈ snd <$> ch_upserts ch) as Hv.
      { rewrite Hups. apply list_elem_of_fmap. by exists (r0, v0). }
      apply list_elem_of_fmap in Hv as ([r' v'] & Heq & Hin). simpl in Heq. subst v'.
      pose proof (Hids _ _ Hin) as Hid'. assert (r' = r) as -> by congruence. done.
    + right. split; [done|by apply (Hapart r v)].
Qed.

(** An UPDATE that leaves the key columns alone rewrites each row in place. *)
Lemma in_place tb idxs set sel rows batches hit fs casts ch :
  table_wf tb idxs → NoDup (fst <$> rows) → keyed tb idxs rows → moves_pk set (tb_primary_keys tb) = false →
  selected eval holds tb (set_items set (tb_schema tb) ++ []) sel rows batches hit fs →
  cast_columns (field_type <$> take (length (tb_schema tb)) fs) (field_type <$> tb_schema tb) = Some casts →
  decode_change tb {| wc_upserts := Some {| rb_fields := tb_schema tb;
    rb_rows := (λ x, updated eval tb set casts x.2) <$> hit |}; wc_deletes := None |} = Ok ch →
  rewrites tb idxs (updated eval tb set casts) rows hit ch.
Proof.
  intros Hwf Hnd Hk Hmove Hs Hc Hch. destruct (decode_upserts _ _ _ _ _ Hwf Hch) as (Hsnd & Hids & Hdel).
  assert (∀ v, project idxs (updated eval tb set casts v) = project idxs v) as Hsame.
  { intros v. unfold project. apply list_fmap_ext. intros j i Hi. pose proof (tw_declared _ _ Hwf) as Hd. apply mapM_Some in Hd.
    destruct (Forall2_lookup_r _ _ _ _ _ Hd Hi) as (pk & Hpk & Hidx). destruct (index_of_field _ _ _ Hidx) as (f & Hf & Hn & _).
    eapply (updated_keep eval holds tb set []); [apply Hwf|exact Hs|done|exact Hc|exact Hf|]. rewrite Hn.
    destruct (set !! pk) eqn:Hset; [|done]. exfalso. assert (moves_pk set (tb_primary_keys tb) = true) as Ht; [|congruence].
    apply existsb_exists. exists pk. split; [apply list_elem_of_In; by eapply list_elem_of_lookup_2|]. apply bool_decide_eq_true. by rewrite Hset. }
  assert (fst <$> ch_upserts ch = fst <$> hit) as Hfst.
  { pose proof (hit_keyed _ _ _ _ _ _ _ _ Hs Hk) as Hkh. clear Hk Hs Hch Hdel. revert Hsnd Hids Hkh. generalize (ch_upserts ch) as ups.
    induction hit as [|[r v] hit IH]; intros [|[r' v'] ups] Hsnd Hids Hkh; try done. rewrite !fmap_cons in *. injection Hsnd as -> Hsnd. f_equal.
    - pose proof (Hids r' (updated eval tb set casts v) ltac:(by left)) as H1. destruct (Hkh r v ltac:(by left)) as [H2 _]. simpl in *.
      unfold row_id, row_identity in *. rewrite Hsame in H1. congruence.
    - apply IH; [done|intros ?? ?; apply Hids; by right|intros ?? ?; apply Hkh; by right]. }
  split; [done|done| |]; rewrite Hfst, Hdel; [by left|]. intros r v _ Hn. split; [done|apply not_elem_of_nil].
Qed.

(** An UPDATE of key columns deletes the old keys and probes the others. *)
Lemma moved w gone now tb idxs set alias sel rows batches hit fs casts old new_ids old_ids ch :
  Inv E value index_key w gone → read (w_real w) now None None = Ok rows →
  table_wf tb idxs → NoDup (fst <$> rows) → keyed tb idxs rows →
  NoDup (snd <$> set_items set (tb_schema tb) ++ key_items alias (tb_primary_keys tb)) →
  selected eval holds tb (set_items set (tb_schema tb) ++ key_items alias (tb_primary_keys tb)) sel rows batches hit fs →
  build_old_pk_deletes_batch batches (tb_primary_keys tb) alias (tb_schema tb) = Ok old →
  let casted := {| rb_fields := tb_schema tb; rb_rows := (λ x, updated eval tb set casts x.2) <$> hit |} in
  dml_row_uuids casted (tb_uuid tb) (tb_primary_keys tb) = Ok new_ids →
  dml_row_uuids old (tb_uuid tb) (tb_primary_keys tb) = Ok old_ids →
  check_pk_collisions value may_match equality_bindings cfg (w_real w) now (filter (λ x, x ∉ old_ids) new_ids) None = Ok tt →
  decode_change tb {| wc_upserts := Some casted; wc_deletes := Some old |} = Ok ch →
  rewrites tb idxs (updated eval tb set casts) rows hit ch.
Proof.
  intros Hi Hrows Hwf Hnd Hk Hnames Hs Hold casted Hnew Hids Hprobe Hch.
  pose proof (hit_keyed _ _ _ _ _ _ _ _ Hs Hk) as Hkh.
  apply (old_pk_batch eval holds tb idxs set alias sel rows batches hit fs) in Hold as ->; [|done|done|done].
  destruct (decode_upserts _ _ _ _ _ Hwf Hch) as (Hsnd & Hup & Hdel).
  apply (delete_ids tb idxs) in Hdel; [|done|done|done].
  pose proof (ids_agree _ _ _ _ _ Hwf Hsnd Hup Hnew) as ->.
  assert (old_ids = fst <$> hit) as ->.
  { destruct (key_fields_spec _ _ (tw_declared _ _ Hwf)) as (_ & Hn & Hlen & Hlen').
    assert (mapM (index_of (key_fields tb idxs)) (tb_primary_keys tb) = Some (seq 0 (length (key_fields tb idxs)))) as Hidx.
    { pose proof (mapM_range (key_fields tb idxs) (λ n, n) (tb_primary_keys tb) 0) as Hm. rewrite <- Hlen', <- Hlen in Hm. apply Hm.
      - rewrite Hn. apply Hwf.
      - rewrite drop_0, take_ge by (rewrite length_fmap; lia). by rewrite Hn, list_fmap_id. }
    apply (dml_ids _ _ _ _ _ _ Hidx) in Hids. apply Forall2_fmap_l in Hids. clear -Hids Hkh Hlen. revert Hkh.
    induction Hids as [|[r v] id hit ids Hid Hids IH]; intros Hkh; [done|]. simpl in Hid. rewrite key_identity in Hid by done.
    destruct (Hkh r v ltac:(by left)) as [Hr _]. rewrite fmap_cons. f_equal; [simpl; congruence|].
    apply IH. intros ?? ?. apply Hkh. by right. }
  split; [done|done|intros r Hr; right; by rewrite Hdel|]. intros r v Hv Hn. rewrite Hdel. split; [|done]. intros Hin.
  apply (probe_clear w gone now _ rows Hi Hrows Hprobe r).
  - apply list_elem_of_filter. done.
  - apply list_elem_of_fmap. by exists (r, v).
Qed.

Lemma alias_names tb set alias (moves : bool) :
  NoDup (field_name <$> tb_schema tb) → NoDup (alias <$> tb_primary_keys tb) → (∀ pk, pk ∈ tb_primary_keys tb → alias pk ∉ field_name <$> tb_schema tb) →
  NoDup (snd <$> set_items set (tb_schema tb) ++ (if moves then key_items alias (tb_primary_keys tb) else [])).
Proof.
  intros Hcols Hal Hout. rewrite fmap_app, set_items_names. destruct moves; [|by rewrite app_nil_r].
  unfold key_items. rewrite <- list_fmap_compose. apply NoDup_app. split_and!; [done| |done].
  intros c Hc (pk & -> & Hpk)%list_elem_of_fmap. by apply (Hout pk).
Qed.

Lemma updated_length tb set casts fields v :
  cast_columns fields (field_type <$> tb_schema tb) = Some casts → length fields = length (tb_schema tb) →
  length (updated eval tb set casts v) = length (tb_schema tb).
Proof.
  intros Hc%cast_columns_length Hl. unfold updated. rewrite length_cast_row, length_eval_items, length_set_items, Hc, length_fmap. lia.
Qed.

(** The write of an UPDATE, in either form. *)
Lemma update_sent w gone q tb idxs set alias sel rows batches hit fs casts casted st' n :
  let moves := moves_pk set (tb_primary_keys tb) in
  let extra := if moves then key_items alias (tb_primary_keys tb) else [] in
  Inv E value index_key w gone → tick w (rq_now q) → fresh_tx (bs_tx (w_real w)) (rq_fresh q) →
  read (w_real w) (rq_now q) None None = Ok rows → table_wf tb idxs → NoDup (fst <$> rows) → keyed tb idxs rows →
  NoDup (snd <$> set_items set (tb_schema tb) ++ extra) →
  selected eval holds tb (set_items set (tb_schema tb) ++ extra) sel rows batches hit fs →
  cast_columns (field_type <$> take (length (tb_schema tb)) fs) (field_type <$> tb_schema tb) = Some casts →
  casted = {| rb_fields := tb_schema tb; rb_rows := (λ x, updated eval tb set casts x.2) <$> hit |} →
  (if moves then
     or_fail (w_real w) (build_old_pk_deletes_batch batches (tb_primary_keys tb) alias (tb_schema tb)) (λ old_pk_batch,
     or_fail (w_real w) (dml_row_uuids casted (tb_uuid tb) (tb_primary_keys tb)) (λ new_uuids,
     or_fail (w_real w) (dml_row_uuids old_pk_batch (tb_uuid tb) (tb_primary_keys tb)) (λ old_uuids,
     finish_with (num casted) (check_collisions_and_send value may_match equality_bindings cfg (e_version_uuid E) q (w_real w) tb None
       (filter (λ x, x ∉ old_uuids) new_uuids) {| wc_upserts := Some casted; wc_deletes := Some old_pk_batch |}))))
   else finish_with (num casted) (send_change (e_version_uuid E) q (w_real w) tb None {| wc_upserts := Some casted; wc_deletes := None |}))
  = (st', Ok n) →
  ∃ ch wc out, n = Z.of_nat (length hit) ∧ decode_change tb wc = Ok ch ∧ rewrites tb idxs (updated eval tb set casts) rows hit ch ∧
    serve_write (e_version_uuid E) (w_real w) (rq_now q) (rq_fresh q) tb None wc = Ok (st', out).
Proof.
  intros moves extra Hi Htick Hfr Hrows Hwf Hnd Hk Hnames Hs Hc Hcasted Hx.
  assert (num casted = Z.of_nat (length hit)) as Hnum by (rewrite Hcasted; unfold num; simpl; by rewrite length_fmap).
  assert (∀ wc out, serve_write (e_version_uuid E) (w_real w) (rq_now q) (rq_fresh q) tb None wc = Ok (st', out) →
    ∃ ch, decode_change tb wc = Ok ch) as Hdec.
  { intros wc out Hw. destruct (served_rows w gone _ _ _ _ _ _ Hi Htick Hfr Hw) as (ch & _ & _ & Hch & _). by exists ch. }
  unfold extra, moves in *. clear extra moves. destruct (moves_pk set (tb_primary_keys tb)) eqn:Hm.
  - apply or_fail_ok in Hx as (old & Hold & (new_ids & Hnew & (old_ids & Hids & (-> & H1 & H2)%finish_ok)%or_fail_ok)%or_fail_ok).
    destruct (checked_ok _ _ _ _ _ _ _ H1 H2) as (Hprobe & out & Hw). destruct (Hdec _ _ Hw) as [ch Hch].
    eexists ch, _, out. split_and!; [done|exact Hch| |exact Hw]. subst casted. by eapply moved.
  - apply finish_ok in Hx as (-> & H1 & H2). destruct (send_ok _ _ _ _ _ _ H1 H2) as [out Hw]. destruct (Hdec _ _ Hw) as [ch Hch].
    eexists ch, _, out. split_and!; [done|exact Hch| |exact Hw]. subst casted. by eapply in_place.
Qed.

(** C7 UPDATE rewrites the matching rows and only those.  In every reachable
    state whose rows are stored under their identities, an auto-committing
    UPDATE that fails leaves the table as it was; one that succeeds makes the
    latest read the rows its WHERE clause does not hold of, unchanged, and for
    each row it holds of the rewritten row under the identity of its key,
    moved when the SET changes the key.  In a rewritten row a column of the SET
    has the value of its expression on the old row, cast from the type the
    query gave it to the declared type, and a column outside the SET keeps its
    value; no other row is overwritten, and the rows are again stored under
    their identities. *)
Theorem update_exact w q alias u st' res name tb idxs rows :
  rtc (wstep E) start w → tick w (rq_now q) → fresh_tx (bs_tx (w_real w)) (rq_fresh q) →
  table_factor_name (up_table u) = Ok name → resolve_target get_table q name = Ok (tb, None) → table_wf tb idxs →
  NoDup (alias <$> tb_primary_keys tb) → (∀ pk, pk ∈ tb_primary_keys tb → alias pk ∉ field_name <$> tb_schema tb) →
  select_sound tb name (w_real w) (rq_now q) →
  read (w_real w) (rq_now q) None None = Ok rows → keyed tb idxs rows →
  execute_update value may_match equality_bindings cfg (e_version_uuid E) run_sql get_table q (w_real w) alias u false = (st', res) →
  match res with
  | Err _ => st' = w_real w
  | Ok n => ∃ rows' set casts items batches fs, read st' (rq_now q) None None = Ok rows' ∧ collect_set (up_assignments u) ∅ = Ok set ∧
      run_sql (w_real w) None (QSelect (set_items set (tb_schema tb) ++ items) name (up_selection u)) = Ok batches ∧
      Forall (λ b, rb_fields b = fs) batches ∧
      n = Z.of_nat (length (filter (λ x, holds (up_selection u) x.2 = true) rows)) ∧
      (∀ r v, (r, v) ∈ rows' ↔
         (∃ r0 v0, (r0, v0) ∈ rows ∧ holds (up_selection u) v0 = true ∧ v = updated eval tb set casts v0 ∧ row_id tb idxs v = Ok r) ∨
         ((r, v) ∈ rows ∧ holds (up_selection u) v = false)) ∧
      (n ≠ 0 → ∀ v i f, tb_schema tb !! i = Some f → set !! field_name f = None →
         slot_of (updated eval tb set casts v) i = slot_of v i) ∧
      (n ≠ 0 → cast_columns (field_type <$> take (length (tb_schema tb)) fs) (field_type <$> tb_schema tb) = Some casts ∧
         ∀ v i f e, tb_schema tb !! i = Some f → set !! field_name f = Some e →
           ∃ g cast, fs !! i = Some g ∧ cast_column (field_type g) (field_type f) = Some cast ∧
             slot_of (updated eval tb set casts v) i = cast (eval e v)) ∧
      NoDup (fst <$> rows') ∧ keyed tb idxs rows'
  end.
Proof.
  intros Hr Htick Hfr Hname Htb Hwf Hal Hout Hsel Hrows Hk. destruct (inv_reachable E value index_key Henv w Hr) as [gone Hi].
  destruct res as [n|e]; [|apply update_fails].
  unfold execute_update. destruct (up_from u || up_returning u || up_or_limit u || up_joins u); [done|]. rewrite Hname. cbn [or_fail].
  intros (set & Hset & Hx)%or_fail_ok. rewrite Htb in Hx. cbn [or_fail] in Hx. revert Hx. case_decide; [|done].
  intros (batches & Hrun & (combined & Hcomb & Hx)%or_fail_ok)%or_fail_ok.
  destruct (Hsel _ _ _ _ Hrun Hrows) as (hit & fs & Hs).
  pose proof (alias_names tb set alias (moves_pk set (tb_primary_keys tb)) (tw_columns _ _ Hwf) Hal Hout) as Hnames.
  assert (NoDup (fst <$> rows)) as Hnd.
  { destruct (latest_exact w gone (rq_now q) None Hi) as (rows0 & H1 & Hnd & _). by assert (rows0 = rows) as -> by congruence. }
  assert (∀ r v, (r, v) ∈ rows → r ∉ fst <$> hit ↔ holds (up_selection u) v = false) as Hmiss.
  { intros r v Hv. rewrite (hit_apart _ _ _ _ _ _ _ _ _ Hs Hnd Hv). by destruct (holds _ v). }
  rewrite <- (Permutation_length (se_hit _ _ _ _ _ _ _ _ _ Hs)).
  destruct (user_batch eval holds tb set _ _ _ _ _ _ _ Hnames Hs Hcomb) as [[-> ->]| ->].
  { injection Hx as <- <-. eexists rows, set, [], _, batches, fs.
    split_and!; [done|done|exact Hrun|apply Hs|done| |done|done|done|done]. intros r v. split.
    - intros Hv. right. split; [done|]. apply (Hmiss r v Hv), not_elem_of_nil.
    - intros [(r0 & v0 & H1 & H2 & _)|[? _]]; [|done]. exfalso.
      assert ((r0, v0) ∈ @nil (Z * row)) as []%not_elem_of_nil. by apply (hit_elem _ _ _ _ _ _ _ _ _ Hs). }
  apply or_fail_ok in Hx as (casted & (casts & Hcasts & -> & Hlen)%cast_to_schema_rows & Hx). simpl in Hcasts, Hlen.
  cbn [rb_rows] in Hx. rewrite <- list_fmap_compose in Hx.
  destruct (update_sent w gone q tb idxs set alias _ rows batches hit fs casts _ st' n Hi Htick Hfr Hrows Hwf Hnd Hk Hnames Hs Hcasts eq_refl Hx)
    as (ch & wc & out & -> & Hch & Hrew & Hw).
  destruct (served_rows w gone _ _ _ _ _ _ Hi Htick Hfr Hw) as (ch' & rows0 & rows' & Hch' & _ & Hr0 & Hr' & _ & Hnd' & Hel).
  assert (ch' = ch) as -> by congruence. assert (rows0 = rows) as -> by congruence.
  assert (∀ r v, (r, v) ∈ rows' ↔ (∃ r0 v0, (r0, v0) ∈ rows ∧ holds (up_selection u) v0 = true ∧
    v = updated eval tb set casts v0 ∧ row_id tb idxs v = Ok r) ∨ ((r, v) ∈ rows ∧ holds (up_selection u) v = false)) as Hspec.
  { intros r v. rewrite Hel, (rewritten tb idxs _ rows hit ch r v Hrew) by (try done; intros ?? ?; by eapply (hit_elem _ _ _ _ _ _ _ _ _ Hs)).
    setoid_rewrite (λ r v, hit_elem _ _ _ _ _ _ _ r v Hs). specialize (Hmiss r v). naive_solver. }
  eexists rows', set, casts, _, batches, fs. split_and!; [done|done|exact Hrun|apply Hs|done|done| | |done|].
  - intros _ v i f. by eapply (updated_keep eval holds tb set); [apply Hwf|exact Hs|done|].
  - intros _. split; [done|]. intros v i f e. eapply updated_set; [|done].
    pose proof (f_equal length (se_names _ _ _ _ _ _ _ _ _ Hs)) as Hfs. rewrite !length_fmap, length_app, length_set_items in Hfs. lia.
  - intros r v [(r0 & v0 & _ & _ & -> & Hid)|[Hv _]]%Hspec; [|by apply Hk]. split; [done|].
    eapply updated_length; [exact Hcasts|]. by rewrite length_fmap.
Qed.
End statements.

(** ** The column list of an INSERT *)

Definition with_columns (ins : Dml.Insert) (columns : list Z) : Dml.Insert :=
  {| ins_returning := ins_returning ins; ins_table := ins_table ins; ins_source := ins_source ins;
     ins_columns := columns; ins_on := ins_on ins |}.

(** Two batches that differ in their column names only. *)
Definition same_but_names (b b' : RowBatch) : Prop :=
  rb_rows b = rb_rows b' ∧ field_type <$> rb_fields b = field_type <$> rb_fields b'.

Lemma combine_columns batches columns columns' :
  columns ≠ [] → length columns = length columns' →
  match combine_batches batches columns, combine_batches batches columns' with
  | Ok b, Ok b' => same_but_names b b'
  | Err e, Err e' => e = e'
  | _, _ => False
  end.
Proof.
  assert (∀ (s : schema) cs, length cs = length s →
    field_type <$> zip_with (λ f c, {| field_name := c; field_type := field_type f |}) s cs = field_type <$> s) as Htypes.
  { induction s as [|f s IH]; intros [|c cs] Hl; simpl in *; try done. f_equal. apply IH. lia. }
  intros Hne Hlen. destruct batches as [|first batches]; [done|]. unfold combine_batches.
  destruct (concat_batches _ _) as [o|]; cbn [result_bind]; [|done].
  destruct columns as [|c cs]; [done|]. destruct columns' as [|c' cs']; [done|]. rewrite <- Hlen.
  case_decide as Hl; [|done]. split; [done|]. cbn [rb_fields]. rewrite !Htypes; congruence.
Qed.

Lemma cast_names `{ColumnCast} b b' target not_null :
  same_but_names b b' → cast_to_schema b target not_null = cast_to_schema b' target not_null ∧
  length (rb_fields b) = length (rb_fields b').
Proof.
  intros [Hrows Htypes].
  assert (length (rb_fields b) = length (rb_fields b')) as Hlen by (rewrite <- !(length_fmap field_type); by rewrite Htypes).
  unfold cast_to_schema. by rewrite Hrows, Htypes, Hlen.
Qed.

(** The column list of an INSERT is not used.  Whatever names and whatever
    order a column list has, the statement does exactly what it does with any
    other list of the same length: values go to the table's columns by
    position, so a list in another order stores each value under the wrong
    column, and names the table does not have are accepted. *)
Theorem insert_ignores_column_list `{Arrow, ContentHash, ColumnCast} value may_match equality_bindings cfg version run_sql get_table
    q st ins params columns columns' :
  columns ≠ [] → length columns = length columns' →
  execute_insert value may_match equality_bindings cfg version run_sql get_table q st (with_columns ins columns) params =
  execute_insert value may_match equality_bindings cfg version run_sql get_table q st (with_columns ins columns') params.
Proof.
  intros Hne Hlen. unfold execute_insert. cbn [ins_returning ins_table ins_source ins_columns ins_on with_columns].
  destruct (ins_returning ins); [done|]. destruct (ins_table ins) as [name|]; [|done]. destruct (ins_source ins) as [source|]; [|done].
  cbn [of_option or_fail]. destruct (run_sql _ _ _) as [batches|]; [|done]. cbn [or_fail].
  pose proof (combine_columns batches columns columns' Hne Hlen) as Hc.
  destruct (combine_batches batches columns) as [b|e], (combine_batches batches columns') as [b'|e']; [|done|done|by subst e'].
  cbn [or_fail]. destruct Hc as [Hrows Htypes]. rewrite <- Hrows. case_decide; [done|].
  destruct (is_on_conflict_do_update _); [|done]. cbn [or_fail]. destruct (resolve_target _ _ _) as [[tb tx]|]; [|done]. cbn [or_fail].
  destruct (cast_names b b' (tb_schema tb) (tb_not_null tb)) as [Hcast Hl]; [done|]. rewrite <- Hl, <- Hcast. done.
Qed.

(** ** Concrete statements

    A table of two integer columns, the first its key. *)
Module DmlDemo.

#[local] Instance arrow : Arrow :=
  {| cast_to := λ s _, Some s; comparison_type := λ _ _, None; eq_kernel := λ _ _, false; encode_batch_ipc := λ _, None; read_ipc := λ _, None;
     array_value_to_string := λ _ v, match v with VInt z => Some (pretty z) | VNull => Some EmptyString | _ => None end |}.
#[local] Instance code : ContentHash := λ s, Zpos (encode s).
#[local] Instance no_casts : ColumnCast := λ _ _, None.
#[local] Instance cold_row : ColdBatch row := Demo.fixed_batch.
#[local] Instance cold_unit : ColdBatch unit := Demo.fixed_batch.

Definition identity_sidecar (rows : list (Z * row)) : option sidecar :=
  match build_segment_index [(λ x, Some x.1) <$> rows] with Ok sc => Some sc | Err _ => None end.

#[local] Instance layout : SnapshotLayout row :=
  {| lay_out := λ _ rows, [{| table_snapshot_segment_uuid := 0; snapshot_rows := rows;
       row_uuid_index_sidecar := identity_sidecar rows; index_sidecars := [] |}] |}.

Definition shown (c : Z) (x : Z * row) : IndexSeek.cell := None.
Definition key_of (u : Z) (x : Z * row) : list IndexSeek.cell := [None].

Definition the_env : env row :=
  {| e_version_uuid := Demo.pair_uuid; e_persist_uuid := λ t k, Demo.pair_uuid t (Demo.kind_code k);
     e_segment_uuid := Demo.pair_uuid; e_snapshot_uuid := λ t, t; e_max_segment_bytes := 20;
     e_schema := [1; 2]; e_indexes := []; e_density := None; e_may_match := λ _ _, true |}.

Lemma cold_row_laws : ColdBatchLaws cold_row.
Proof. split; [done|]. intros l. exists (λ _, 9). by intros i _. Qed.
Lemma cold_none_laws : ColdBatchLaws cold_unit.
Proof. split; [done|]. intros l. exists (λ _, 9). by intros i _. Qed.

Lemma row_layout_laws : SnapshotLayoutLaws layout shown key_of.
Proof.
  split.
  - intros defs rows. simpl. by rewrite app_nil_r.
  - intros defs rows g ->%list_elem_of_singleton u sc. destruct u as [u|]; [done|].
    intros Hsc. assert (identity_sidecar rows = Some sc) as Hid by exact Hsc. revert Hid.
    unfold identity_sidecar. destruct (build_segment_index _) as [sc'|] eqn:Eb; [|done]. intros [= <-].
    exists [(λ x, Some x.1) <$> rows]. split_and!; [done|by simpl; rewrite length_fmap|].
    intros i x Hx. cbn [snapshot_rows] in Hx. unfold key_at. simpl. by rewrite list_lookup_fmap, Hx.
Qed.

Lemma row_env_ok : env_ok the_env shown key_of.
Proof.
  split; simpl.
  - intros r tx r' tx'. apply Demo.pair_uuid_inj.
  - intros t k t' k' [? Hk]%Demo.pair_uuid_inj. by destruct k, k'.
  - intros p i p' i'. apply Demo.pair_uuid_inj.
  - by intros def x ?%not_elem_of_nil.
Qed.

Definition tb : Table :=
  {| tb_uuid := 5; tb_catalog_uuid := 9; tb_schema := [{| field_name := 1; field_type := DtInt64 |}; {| field_name := 2; field_type := DtInt64 |}];
     tb_not_null := [1]; tb_primary_keys := [1] |}.

Definition session (tx : option Z) : SessionSnapshot :=
  {| ss_catalog_uuid := 9; ss_catalog_name := "c"; ss_branch_uuid := 1; ss_branch_name := "main"; ss_open_tx_uuid := tx |}.

Definition request (tx : option Z) (now fresh : Z) : Request :=
  {| rq_session := session tx; rq_default_schema := "s"; rq_transaction_id := None; rq_now := now; rq_fresh := fresh |}.

Definition get_table (c s t : string) (tx : option Z) : result Status Table := if decide (t = "t") then Ok tb else Err StNotFound.

Definition evaluate (text : string) (v : row) : value :=
  if decide (text = "id") then slot_of v 0 else if decide (text = "10 * id") then match slot_of v 0 with VInt z => VInt (10 * z) | x => x end else VNull.

Definition satisfies (sel : option string) (v : row) : bool :=
  match sel with None => true | Some _ => bool_decide (slot_of v 0 = VInt 1) end.

(** The source of an INSERT: the rows of a VALUES list by its text. *)
Definition source_rows (text : string) : list row :=
  if decide (text = "(1, 100)") then [[VInt 1; VInt 100]]
  else if decide (text = "(1, 200)") then [[VInt 1; VInt 200]]
  else if decide (text = "(2, 300), (3, 400)") then [[VInt 2; VInt 300]; [VInt 3; VInt 400]] else [].

Definition cfg : QueryConfig := {| qc_schema := [1; 2]; qc_snapshot_prune_min_segments := 4; qc_index_seek_max_probe_tuples := 16 |}.

Definition rows_of (st : branch_state row) (tx : option Z) : result Status (list (Z * row)) :=
  read_latest shown (λ _ _, true) (λ _, ∅) cfg st 100 tx None.

Definition run_sql (st : branch_state row) (tx : option Z) (query : sql_query) : result Status (list RowBatch) :=
  match query with
  | QSource text _ => Ok [{| rb_fields := tb_schema tb; rb_rows := source_rows text |}]
  | QSelect items _ sel =>
      match rows_of st tx with
      | Ok rows => Ok [{| rb_fields := (λ item, {| field_name := item.2; field_type := DtInt64 |}) <$> items;
                          rb_rows := (λ x, eval_items evaluate tb items x.2) <$> filter (λ x, satisfies sel x.2 = true) rows |}]
      | Err e => Err e
      end
  end.

Definition insert_stmt (source : string) (columns : list Z) : Dml.Insert :=
  {| ins_returning := false; ins_table := Some [Identifier "t"]; ins_source := Some source; ins_columns := columns; ins_on := None |}.

Definition update_stmt (set : string) (sel : option string) : Update :=
  {| up_table := TfTable [Identifier "t"]; up_joins := false; up_assignments := [(ColumnName [Some 1], set)]; up_from := false;
     up_selection := sel; up_returning := false; up_or_limit := false |}.

Definition delete_stmt (sel : option string) : Dml.Delete :=
  {| del_tables := [(TfTable [Identifier "t"], false)]; del_modifiers := false; del_selection := sel |}.

Definition insert (q : Request) (st : branch_state row) (stmt : Dml.Insert) :=
  execute_insert shown (λ _ _, true) (λ _, ∅) cfg Demo.pair_uuid run_sql get_table q st stmt None.
Definition update (q : Request) (st : branch_state row) (stmt : Update) :=
  execute_update shown (λ _ _, true) (λ _, ∅) cfg Demo.pair_uuid run_sql get_table q st (λ pk, pk + 1000) stmt false.

Definition begin (st : branch_state row) (now tx : Z) : branch_state row :=
  match begin_tx (bs_tx st) now tx 3600 with Ok (l, _) => with_tx st l | Err _ => st end.
Definition commit (st : branch_state row) (now tx : Z) : branch_state row :=
  match commit_tx (bs_tx st) now tx with Ok (l, _) => with_tx st l | Err _ => st end.

(** What a client sees of a table: the rows, without their identities. *)
Definition seen (st : branch_state row) (tx : option Z) : result Status (list row) :=
  match rows_of st tx with Ok rows => Ok (snd <$> rows) | Err e => Err e end.

(** Two transactions insert the same key; one transaction inserts a row and
    sets its key to itself. *)
Definition both_open := begin (begin empty_branch 10 201) 11 202.
Definition first_in := insert (request (Some 201) 12 0) both_open (insert_stmt "(1, 100)" []).
Definition second_in := insert (request (Some 202) 13 0) first_in.1 (insert_stmt "(1, 200)" []).
Definition row_in := insert (request (Some 201) 12 0) (begin empty_branch 10 201) (insert_stmt "(1, 100)" []).
Definition key_set := update (request (Some 201) 13 0) row_in.1 (update_stmt "id" None).

(** DML inside open transactions can lose rows.  Two open transactions insert
    a row under the same key: neither probe sees the other's uncommitted row,
    both INSERTs succeed, and after both commits the first one's row is gone.
    And an UPDATE in the transaction that inserted a row, setting the key to its
    own value, deletes the row: its upsert keeps the older write sequence, so
    the delete of the old key wins. *)
Theorem open_tx_dml_loses_rows :
  first_in.2 = Ok 1 ∧ second_in.2 = Ok 1 ∧
  seen (commit (commit second_in.1 14 201) 15 202) None = Ok [[VInt 1; VInt 200]] ∧
  row_in.2 = Ok 1 ∧ seen row_in.1 (Some 201) = Ok [[VInt 1; VInt 100]] ∧
  key_set.2 = Ok 1 ∧ seen key_set.1 (Some 201) = Ok [] ∧ seen (commit key_set.1 14 201) None = Ok [].
Proof. split_and!; vm_compute; reflexivity. Qed.

(** *** One row in the table *)

Definition row_one : row := [VInt 1; VInt 100].
Definition id_one : Z := match row_id tb [0%nat] row_one with Ok r => r | Err _ => 0 end.
Definition one_row : world row :=
  step_world the_env start 10 (OpWrite 101 None (Some {| ch_upserts := [(id_one, row_one)]; ch_deletes := [] |})).

Lemma one_row_reachable : rtc (wstep the_env) start one_row.
Proof.
  apply rtc_once. constructor; [split; [done|unfold I64_MAX; lia]|]. split_and!; [done|by intros c ?%not_elem_of_nil|by intros a ?%not_elem_of_nil].
Qed.

Lemma one_row_fresh : fresh_tx (bs_tx (w_real one_row)) 102.
Proof.
  split_and!; [done| |by intros a ?%not_elem_of_nil]. intros c Hc. vm_compute in Hc.
  apply elem_of_cons in Hc as [-> | []%not_elem_of_nil]. done.
Qed.

Lemma tb_wf : table_wf tb [0%nat].
Proof. split; [|done| |done]; apply (bool_decide_unpack _); by vm_compute. Qed.

Lemma one_row_keyed : keyed tb [0%nat] [(id_one, row_one)].
Proof. intros r v [= -> ->]%list_elem_of_singleton. split; vm_compute; reflexivity. Qed.

Lemma demo_select_sound st : select_sound shown (λ _ _, true) (λ _, ∅) cfg run_sql evaluate satisfies tb [Identifier "t"] st 100.
Proof.
  intros items sel batches rows Hrun Hrows. unfold run_sql, rows_of in Hrun. rewrite Hrows in Hrun. injection Hrun as <-.
  exists (filter (λ x, satisfies sel x.2 = true) rows), ((λ item, {| field_name := item.2; field_type := DtInt64 |}) <$> items). split; [done|by repeat constructor| | |].
  - rewrite <- list_fmap_compose. by apply list_fmap_ext.
  - apply Forall2_fmap_r, Forall_Forall2_diag, Forall_forall. intros item _ c g _ Hg. simpl.
    unfold field_with_name in Hg. destruct (list_find _ _) as [[i f]|] eqn:Hf; [|done]. simpl in Hg. injection Hg as <-.
    apply list_find_Some in Hf as (Hf & _). destruct i as [|[|i]]; simpl in Hf; by simplify_eq.
  - simpl. by rewrite app_nil_r.
Qed.

Lemma insert_exact_witness :
  ∃ st', insert (request None 100 102) (w_real one_row) (insert_stmt "(2, 300), (3, 400)" [2; 1]) = (st', Ok 2) ∧
    seen st' None = Ok [[VInt 1; VInt 100]; [VInt 2; VInt 300]; [VInt 3; VInt 400]] ∧
    ∃ rows', rows_of st' None = Ok rows' ∧ NoDup (fst <$> rows').
Proof.
  destruct (insert (request None 100 102) (w_real one_row) (insert_stmt "(2, 300), (3, 400)" [2; 1])) as [st' res] eqn:Hrun.
  pose proof (insert_exact the_env shown key_of cold_row_laws cold_none_laws row_layout_laws row_env_ok (λ _ _, true) (λ _, ∅)
    ltac:(by intros p g x) ltac:(intros f x _ c vs; by rewrite lookup_empty) cfg run_sql get_table one_row (request None 100 102)
    (insert_stmt "(2, 300), (3, 400)" [2; 1]) None st' res [Identifier "t"] tb [0%nat] one_row_reachable
    ltac:(split; [vm_compute; congruence|simpl; unfold I64_MAX; lia]) one_row_fresh eq_refl eq_refl tb_wf Hrun) as Hspec.
  exists st'. vm_compute in Hrun. injection Hrun as <- <-. split; [done|]. split; [vm_compute; reflexivity|].
  destruct Hspec as (rows & rows' & new & source & batches & _ & _ & _ & _ & _ & Hread & _ & Hnd & _).
  exists rows'. split; [exact Hread|exact Hnd].
Defined.

Lemma delete_exact_witness :
  ∃ st' rows', execute_delete Demo.pair_uuid run_sql get_table (request None 100 102) (w_real one_row) (delete_stmt (Some "id = 1")) false = (st', Ok 1) ∧
    rows_of st' None = Ok rows' ∧ ∀ r v, (r, v) ∈ rows' ↔ (r, v) ∈ [(id_one, row_one)] ∧ satisfies (Some "id = 1") v = false.
Proof.
  destruct (execute_delete Demo.pair_uuid run_sql get_table (request None 100 102) (w_real one_row) (delete_stmt (Some "id = 1")) false) as [st' res] eqn:Hrun.
  pose proof (delete_exact the_env shown key_of cold_row_laws cold_none_laws row_layout_laws row_env_ok (λ _ _, true) (λ _, ∅)
    ltac:(by intros p g x) ltac:(intros f x _ c vs; by rewrite lookup_empty) cfg run_sql get_table evaluate satisfies one_row (request None 100 102)
    (delete_stmt (Some "id = 1")) st' res [Identifier "t"] tb [0%nat] (TfTable [Identifier "t"]) [(id_one, row_one)] one_row_reachable
    ltac:(split; [vm_compute; congruence|simpl; unfold I64_MAX; lia]) one_row_fresh eq_refl eq_refl eq_refl tb_wf
    (demo_select_sound _) ltac:(vm_compute; reflexivity) one_row_keyed Hrun) as Hspec.
  exists st'. assert (res = Ok 1) as -> by (vm_compute in Hrun; by injection Hrun as _ <-).
  destruct Hspec as (rows' & Hread & _ & Hel). exists rows'. split; [done|]. split; [exact Hread|exact Hel].
Defined.

Lemma update_exact_witness :
  ∃ st' rows', update (request None 100 102) (w_real one_row) (update_stmt "10 * id" (Some "id = 1")) = (st', Ok 1) ∧
    rows_of st' None = Ok rows' ∧ snd <$> rows' = [[VInt 10; VInt 100]] ∧ keyed tb [0%nat] rows'.
Proof.
  destruct (update (request None 100 102) (w_real one_row) (update_stmt "10 * id" (Some "id = 1"))) as [st' res] eqn:Hrun.
  pose proof (update_exact the_env shown key_of cold_row_laws cold_none_laws row_layout_laws row_env_ok (λ _ _, true) (λ _, ∅)
    ltac:(by intros p g x) ltac:(intros f x _ c vs; by rewrite lookup_empty) cfg run_sql get_table evaluate satisfies one_row (request None 100 102)
    (λ pk, pk + 1000) (update_stmt "10 * id" (Some "id = 1")) st' res [Identifier "t"] tb [0%nat] [(id_one, row_one)] one_row_reachable
    ltac:(split; [vm_compute; congruence|simpl; unfold I64_MAX; lia]) one_row_fresh eq_refl eq_refl tb_wf
    ltac:(apply (bool_decide_unpack _); by vm_compute) ltac:(intros pk ->%list_elem_of_singleton; apply (bool_decide_unpack _); by vm_compute) (demo_select_sound _) ltac:(vm_compute; reflexivity) one_row_keyed Hrun) as Hspec.
  exists st'. assert (res = Ok 1) as -> by (vm_compute in Hrun; by injection Hrun as _ <-).
  destruct Hspec as (rows' & set & casts & items & batches & fs & Hread & _ & _ & _ & _ & _ & _ & _ & _ & Hk). exists rows'. split; [done|]. split; [exact Hread|]. split; [|exact Hk].
  vm_compute in Hrun. injection Hrun as <-. vm_compute in Hread. by injection Hread as <-.
Defined.

Lemma insert_ignores_column_list_witness :
  insert (request None 100 102) empty_branch (insert_stmt "(1, 100)" [2; 1]) = insert (request None 100 102) empty_branch (insert_stmt "(1, 100)" [1; 2]) ∧
  seen (insert (request None 100 102) empty_branch (insert_stmt "(1, 100)" [2; 1])).1 None = Ok [[VInt 1; VInt 100]].
Proof.
  split; [|vm_compute; reflexivity].
  apply (insert_ignores_column_list shown (λ _ _, true) (λ _, ∅) cfg Demo.pair_uuid run_sql get_table (request None 100 102) empty_branch
    (insert_stmt "(1, 100)" []) None [2; 1] [1; 2]); done.
Defined.

End DmlDemo.
