(* ===== verification/Schedules.v ===== *)
(** * Runs outside the schedule

    The transparency theorem asks that a persist run after the purge has caught
    up with the snapshots and under an unused target, and that a snapshot not
    stop short of the persist watermark.  Nothing in the code enforces either;
    these runs show what happens without them, and what the rewrite of a row
    within one transaction does. *)

From S2P Require Import Prelude ReadSnapshot MergeSql Plan TxLog TableStore Lifecycle ReadData System SystemTheorems.
From stdpp Require Import base numbers list option gmap.

Open Scope Z_scope.

Module Runs.
Import Demo.

(** Row 1 is written, deleted, persisted and snapshotted; before a purge,
    another row is written and persisted. *)
Definition no_purge : list (Z * op Z) :=
  [(10, OpWrite 101 None (put 1 100)); (20, OpWrite 102 None (del 1));
   (25, OpPersist None); (26, OpSnapshot None);
   (30, OpWrite 103 None (put 2 200)); (35, OpPersist None)].

(** The same history persisted at once, then snapshotted as of the delete. *)
Definition snapshot_short : list (Z * op Z) :=
  [(10, OpWrite 101 None (put 1 100)); (20, OpWrite 102 None (del 1));
   (30, OpWrite 103 None (put 2 200)); (35, OpPersist None); (36, OpSnapshot (Some 20))].

(** Two persists under one explicit future target. *)
Definition target_reused : list (Z * op Z) :=
  [(10, OpWrite 101 None (put 1 100)); (11, OpPersist (Some 1000));
   (20, OpWrite 102 None (put 2 200)); (21, OpPersist (Some 1000));
   (22, OpSnapshot None); (23, OpPurge);
   (30, OpWrite 103 None (put 3 300)); (31, OpPersist None); (32, OpSnapshot None); (33, OpPurge)].

(** One transaction upserts, deletes and upserts again. *)
Definition rewrite_in_tx : list (Z * op Z) :=
  [(10, OpBegin 101 60); (11, OpWrite 0 (Some 101) (put 1 100)); (12, OpWrite 0 (Some 101) (del 1));
   (13, OpWrite 0 (Some 101) (put 1 101)); (14, OpCommit 101)].

Definition reads (ops : list (Z * op Z)) (s : ReadSnapshot) :=
  (read (w_real (run_ops start ops)) s, read (w_ideal (run_ops start ops)) s).
End Runs.

(** A deleted row resurfaces.  When a persist runs between a snapshot and its
    purge, or a snapshot is taken as of a point inside a persisted segment, the
    cold read picks up a segment that straddles the snapshot cut and carries the
    old upsert of a deleted row, but not the segment of its tombstone: the latest
    read returns row 1, which the committed history has deleted. *)
Theorem deleted_row_resurfaces :
  Runs.reads Runs.no_purge (LatestSeq 2) = (Ok [(2, 200); (1, 100)], Ok [(2, 200)]) ∧
  Runs.reads Runs.snapshot_short (LatestSeq 2) = (Ok [(1, 100); (2, 200)], Ok [(2, 200)]).
Proof. split; vm_compute; reflexivity. Qed.

(** A reused persist target loses a row.  The second persist under the same
    explicit target rewrites the first one's segment and keeps its bounds, so
    the next snapshot folds nothing of the new rows while its watermark time
    covers them; the one after it starts past them and its purge removes the
    last copy: row 2, committed and never deleted, is gone. *)
Theorem reused_target_loses_row :
  Runs.reads Runs.target_reused (LatestSeq 2) =
    (Ok [(3, 300); (1, 100)], Ok [(1, 100); (2, 200); (3, 300)]).
Proof. vm_compute. reflexivity. Qed.

(** The last write of a transaction loses to an earlier delete.  The second
    upsert of a row in one transaction keeps the write sequence of the first, so
    a delete between them wins and the committed row is absent. *)
Theorem rewrite_in_tx_lost :
  read_data Demo.value (λ _ _, true) (λ _, ∅) Demo.cfg empty_meta
    (hot_view (w_real (Demo.run_ops start Runs.rewrite_in_tx))) None 100 None (Demo.req (LatestSeq 0)) = Ok [] ∧
  (λ u, (lr_row_uuid u, lr_cols u, lr_write_seq_num u)) <$>
    ts_upserts (bs_table (w_real (Demo.run_ops start Runs.rewrite_in_tx))) = [(1, 101, 0)] ∧
  (λ d, (lr_row_uuid d, lr_write_seq_num d)) <$>
    ts_deletes (bs_table (w_real (Demo.run_ops start Runs.rewrite_in_tx))) = [(1, 1)].
Proof. split_and!; vm_compute; reflexivity. Qed.
