(* ===== verification/CompactPlan.v ===== *)
(** * Compaction waves (penca-api/src/lifecycle/compact_plan.rs)

    The planner of one compaction wave over the unsealed segment rows of a
    scope: which rows the next merged file takes, which rows are sealed. *)

From S2P Require Import Prelude.
From stdpp Require Import base numbers list option sets.

Open Scope Z_scope.

Record WavePlan := { input_indices : list nat; seal_indices : list nat }.

Definition size_at (sizes : list Z) (i : nat) : Z := default 0 (sizes !! i).
Definition total_size (sizes : list Z) (idxs : list nat) : Z := foldr (λ i acc, size_at sizes i + acc) 0 idxs.

Definition uri_count (uris : list Z) (u : Z) : nat := length (filter (λ u', u' = u) uris).

Definition positions (uris : list Z) (a : Z) : list nat :=
  filter (λ i, uris !! i = Some a) (seq 0 (length uris)).

(** The walk over the uncompacted rows: fold, stop, cascade-seal or seal in
    place. *)
Fixpoint wave_loop (sizes : list Z) (max_segment_bytes : Z) (idxs current : list nat) (current_size : Z)
    (seal : list nat) (folded : nat) : list nat * list nat * nat :=
  match idxs with
  | [] => (current, seal, folded)
  | idx :: rest =>
      let s := size_at sizes idx in
      if current_size + s <=? max_segment_bytes then
        wave_loop sizes max_segment_bytes rest (current ++ [idx]) (current_size + s) seal (S folded)
      else if (1 <=? folded)%nat && (2 <=? length current)%nat then (current, seal, folded)
      else match current with
           | _ :: _ => wave_loop sizes max_segment_bytes rest [idx] s (seal ++ current) 1
           | [] => wave_loop sizes max_segment_bytes rest [] current_size (seal ++ [idx]) folded
           end
  end.

Section plan.
(** The iteration order of the [HashMap] of URI counts. *)
Context (iter_order : list Z → list Z).

Definition active_uri (uris : list Z) : option Z :=
  head (filter (λ u, (1 < uri_count uris u)%nat) (iter_order (remove_dups uris))).

Definition active_indices (uris : list Z) : list nat :=
  match active_uri uris with Some a => positions uris a | None => [] end.

Definition uncompacted_indices (uris : list Z) : list nat :=
  filter (λ i, i ∉ active_indices uris) (seq 0 (length uris)).

Definition plan_wave_projected (uris sizes : list Z) (max_segment_bytes : Z) : option WavePlan :=
  match uris with
  | [] => None
  | _ =>
      let active := active_indices uris in
      let '(current, seal, folded) :=
        wave_loop sizes max_segment_bytes (uncompacted_indices uris) active (total_size sizes active) [] 0 in
      if (folded =? 0)%nat && (length seal =? 0)%nat then None
      else if (length current <? 2)%nat then
        if (length seal =? 0)%nat then None else Some {| input_indices := []; seal_indices := seal |}
      else Some {| input_indices := current; seal_indices := seal |}
  end.
End plan.

(** ** The walk's invariant *)

Section walk.
Context (sizes : list Z) (cap : Z).

(** What the walk has done when it has processed [active ++ taken]. *)
Record walk_inv (active taken current seal : list nat) (folded : nat) : Prop := {
  wi_split : current ++ seal ≡ₚ active ++ taken;
  wi_none : folded = O → current = active ∧ (active ≠ [] → seal = []);
  wi_fold : (1 ≤ folded)%nat → ∃ i, i ∈ current ∧ i ∈ taken;
  wi_cap : (1 ≤ folded)%nat → (2 ≤ length current)%nat → total_size sizes current ≤ cap;
  wi_active : active `prefix_of` current ∨ active ⊆ seal;
}.

Lemma total_size_app l k : total_size sizes (l ++ k) = total_size sizes l + total_size sizes k.
Proof. induction l as [|i l IH]; simpl; [done|]. rewrite IH. lia. Qed.

Lemma wave_loop_inv active idxs : ∀ taken current seal folded,
  walk_inv active taken current seal folded →
  ∃ taken' rest current' seal' folded',
    wave_loop sizes cap idxs current (total_size sizes current) seal folded = (current', seal', folded') ∧
    idxs = taken' ++ rest ∧ walk_inv active (taken ++ taken') current' seal' folded' ∧
    (rest ≠ [] → (1 ≤ folded')%nat ∧ (2 ≤ length current')%nat).
Proof.
  induction idxs as [|idx idxs IH]; intros taken current seal folded Hinv; cbn [wave_loop].
  { exists [], [], current, seal, folded. rewrite (app_nil_r taken). split_and!; [done|done|exact Hinv|by intros []]. }
  assert (∀ current1 seal1 folded1,
    walk_inv active (taken ++ [idx]) current1 seal1 folded1 →
    ∃ taken' rest current' seal' folded',
      wave_loop sizes cap idxs current1 (total_size sizes current1) seal1 folded1 = (current', seal', folded') ∧
      idx :: idxs = taken' ++ rest ∧ walk_inv active (taken ++ taken') current' seal' folded' ∧
      (rest ≠ [] → (1 ≤ folded')%nat ∧ (2 ≤ length current')%nat)) as Hgo.
  { intros c1 s1 f1 H1. destruct (IH _ _ _ _ H1) as (t & r & c' & s' & f' & Heq & -> & Hi & Hr).
    exists (idx :: t), r, c', s', f'. rewrite <- app_assoc in Hi.
    split_and!; [exact Heq|done|exact Hi|exact Hr]. }
  destruct Hinv as [Hsp H0 H1 Hc Ha].
  destruct (Z.leb_spec (total_size sizes current + size_at sizes idx) cap) as [Hle|Hgt].
  - assert (total_size sizes (current ++ [idx]) = total_size sizes current + size_at sizes idx) as Hts
      by (rewrite total_size_app; simpl; lia).
    rewrite <- Hts. apply Hgo. split.
    + rewrite (app_assoc active), <- Hsp. solve_Permutation.
    + done.
    + intros _. exists idx. set_solver.
    + lia.
    + destruct Ha; [left; by apply prefix_app_r|by right].
  - destruct ((1 <=? folded)%nat && (2 <=? length current)%nat) eqn:Est.
    + apply andb_true_iff in Est as [?%Nat.leb_le ?%Nat.leb_le].
      exists [], (idx :: idxs), current, seal, folded. rewrite (app_nil_r taken). split_and!; [done|done|by split|done].
    + destruct current as [|c0 cs] eqn:Ec.
      * apply Hgo. split.
        -- rewrite (app_assoc active), <- Hsp. done.
        -- intros Hf. destruct (H0 Hf) as [<- _]. done.
        -- intros Hf. destruct (H1 Hf) as (i & Hi & _). by apply not_elem_of_nil in Hi.
        -- simpl. lia.
        -- destruct Ha as [Ha|Ha]; [left; done|right; set_solver].
      * replace (size_at sizes idx) with (total_size sizes [idx]) by (simpl; lia). apply Hgo. split.
        -- rewrite (app_assoc active), <- Hsp. solve_Permutation.
        -- done.
        -- intros _. exists idx. set_solver.
        -- simpl. lia.
        -- right. destruct Ha as [[k ->]|Ha]; set_solver.
Qed.
End walk.

(** ** Rows and their URIs *)

Lemma length_filter_fmap {A B} (f : A → B) (P : B → Prop) `{!∀ x, Decision (P x)} (l : list A) :
  length (filter P (f <$> l)) = length (filter (λ x, P (f x)) l).
Proof.
  induction l as [|x l IH]; [done|]. rewrite fmap_cons, !filter_cons.
  destruct (decide (P (f x))); simpl; by rewrite IH.
Qed.

Section rows.
Context (iter_order : list Z → list Z) (Hiter : ∀ l, iter_order l ≡ₚ l).
Implicit Types (uris sizes : list Z).

Lemma positions_elem uris a i : i ∈ positions uris a ↔ uris !! i = Some a.
Proof using.
  unfold positions. rewrite list_elem_of_filter, elem_of_seq. split; [by intros [? _]|].
  intros H. split; [done|]. apply lookup_lt_Some in H. lia.
Qed.

Lemma positions_nodup uris a : NoDup (positions uris a).
Proof using. apply NoDup_filter, NoDup_seq. Qed.

Lemma positions_length uris a : length (positions uris a) = uri_count uris a.
Proof using.
  unfold positions, uri_count. induction uris as [|u uris IH]; [done|].
  change (seq 0 (length (u :: uris))) with (0%nat :: seq 1 (length uris)).
  rewrite <- fmap_S_seq, !filter_cons. destruct (decide (u = a)) as [->|Hne].
  - rewrite decide_True by done. cbn [length]. by rewrite length_filter_fmap, <- IH.
  - rewrite decide_False by (simpl; congruence). by rewrite length_filter_fmap, <- IH.
Qed.

Lemma active_cases uris :
  (active_indices iter_order uris = [] ∧ ∀ u, (uri_count uris u ≤ 1)%nat) ∨
  ∃ a, active_indices iter_order uris = positions uris a ∧ (2 ≤ uri_count uris a)%nat.
Proof using Hiter.
  unfold active_indices, active_uri.
  destruct (filter _ (iter_order _)) as [|a l] eqn:E; simpl.
  - left. split; [done|]. intros u. destruct (decide (1 < uri_count uris u)%nat) as [Hu|]; [|lia].
    assert (u ∈ filter (λ u, (1 < uri_count uris u)%nat) (iter_order (remove_dups uris))) as Hin.
    { apply list_elem_of_filter. split; [done|]. rewrite Hiter, elem_of_remove_dups.
      unfold uri_count in Hu. destruct (filter (λ u', u' = u) uris) as [|v k] eqn:Ek; [simpl in Hu; lia|].
      assert (v ∈ filter (λ u', u' = u) uris) as Hv by (rewrite Ek; by left).
      by apply list_elem_of_filter in Hv as [-> ?]. }
    rewrite E in Hin. by apply not_elem_of_nil in Hin.
  - right. exists a. split; [done|].
    assert (a ∈ filter (λ u, (1 < uri_count uris u)%nat) (iter_order (remove_dups uris))) as Hin by (rewrite E; by left).
    apply list_elem_of_filter in Hin as [? _]. lia.
Qed.

Lemma active_length uris : active_indices iter_order uris = [] ∨ (2 ≤ length (active_indices iter_order uris))%nat.
Proof using Hiter. destruct (active_cases uris) as [[? _]|(a & -> & ?)]; [by left|right]. by rewrite positions_length. Qed.

Lemma active_in_range uris i : i ∈ active_indices iter_order uris → (i < length uris)%nat.
Proof using.
  unfold active_indices. destruct (active_uri _ _); [|by intros ?%not_elem_of_nil].
  rewrite positions_elem. apply lookup_lt_Some.
Qed.

Lemma active_nodup uris : NoDup (active_indices iter_order uris).
Proof using. unfold active_indices. destruct (active_uri _ _); [apply positions_nodup|constructor]. Qed.

Lemma uncompacted_elem uris i :
  i ∈ uncompacted_indices iter_order uris ↔ (i < length uris)%nat ∧ i ∉ active_indices iter_order uris.
Proof using. unfold uncompacted_indices. rewrite list_elem_of_filter, elem_of_seq. split; intros [??]; split; try done; lia. Qed.

Lemma walked_nodup uris taken rest :
  uncompacted_indices iter_order uris = taken ++ rest → NoDup (active_indices iter_order uris ++ taken).
Proof using.
  intros E. apply NoDup_app. split_and!; [apply active_nodup| |].
  - intros i Hi Ht. assert (i ∈ uncompacted_indices iter_order uris) as Hu by (rewrite E; apply elem_of_app; by left).
    by apply uncompacted_elem in Hu as [_ ?].
  - assert (NoDup (taken ++ rest)) as H by (rewrite <- E; apply NoDup_filter, NoDup_seq).
    by apply NoDup_app in H as [? _].
Qed.

(** The walk from the prior active, and what the plan makes of it. *)
Lemma plan_walk uris sizes cap : uris ≠ [] →
  ∃ taken rest current seal folded,
    uncompacted_indices iter_order uris = taken ++ rest ∧
    walk_inv sizes cap (active_indices iter_order uris) taken current seal folded ∧
    (rest ≠ [] → (1 ≤ folded)%nat ∧ (2 ≤ length current)%nat) ∧
    plan_wave_projected iter_order uris sizes cap =
      if (folded =? 0)%nat && (length seal =? 0)%nat then None
      else if (length current <? 2)%nat then
        if (length seal =? 0)%nat then None else Some {| input_indices := []; seal_indices := seal |}
      else Some {| input_indices := current; seal_indices := seal |}.
Proof using.
  intros Hne. unfold plan_wave_projected. destruct uris as [|u uris]; [done|].
  destruct (wave_loop_inv sizes cap (active_indices iter_order (u :: uris)) (uncompacted_indices iter_order (u :: uris))
    [] (active_indices iter_order (u :: uris)) [] 0) as (t & r & c & s & f & -> & Hs & Hi & Hr).
  { split; [by rewrite !app_nil_r|done|lia|lia|by left]. }
  by exists t, r, c, s, f.
Qed.

(** ** What a wave does *)

(** At most one file is shared by several unsealed rows. *)
Definition one_active uris : Prop :=
  ∀ u v, (1 < uri_count uris u)%nat → (1 < uri_count uris v)%nat → u = v.

Record wave_ok uris sizes (cap : Z) (p : WavePlan) : Prop := {
  wo_nodup : NoDup (input_indices p ++ seal_indices p);
  wo_range : ∀ i, i ∈ input_indices p ++ seal_indices p → (i < length uris)%nat;
  wo_progress : (input_indices p = [] ∧ seal_indices p ≠ []) ∨ (2 ≤ length (input_indices p))%nat;
  wo_cap : input_indices p ≠ [] → total_size sizes (input_indices p) ≤ cap;
  wo_whole : one_active uris → ∀ i j, (i < length uris)%nat → uris !! i = uris !! j →
    (i ∈ input_indices p → j ∈ input_indices p) ∧ (i ∈ seal_indices p → j ∈ seal_indices p);
  wo_active : ∀ i j u, one_active uris → i ≠ j → uris !! i = Some u → uris !! j = Some u →
    i ∈ input_indices p ++ seal_indices p;
  wo_merges : one_active uris → input_indices p ≠ [] →
    ∃ i j, i ∈ input_indices p ∧ j ∈ input_indices p ∧ uris !! i ≠ uris !! j;
}.

Lemma shared_active uris i j u :
  one_active uris → i ≠ j → uris !! i = Some u → uris !! j = Some u →
  active_indices iter_order uris = positions uris u.
Proof using Hiter.
  intros Ho Hne Hi Hj.
  assert (2 ≤ uri_count uris u)%nat as Hc.
  { rewrite <- positions_length. change 2%nat with (length [i; j]). apply submseteq_length, NoDup_submseteq.
    - repeat constructor; set_solver.
    - intros k Hk. apply positions_elem. set_solver. }
  destruct (active_cases uris) as [[_ H]|(a & -> & Ha)]; [specialize (H u); lia|]. f_equal. apply Ho; lia.
Qed.

Lemma walk_subset uris sizes cap taken rest current seal folded i :
  uncompacted_indices iter_order uris = taken ++ rest →
  walk_inv sizes cap (active_indices iter_order uris) taken current seal folded →
  i ∈ current ++ seal → (i < length uris)%nat.
Proof using.
  intros E Hi. rewrite (wi_split _ _ _ _ _ _ _ Hi), elem_of_app. intros [H|H]; [by apply active_in_range|].
  apply (uncompacted_elem uris i). rewrite E. apply elem_of_app. by left.
Qed.

Lemma walk_whole uris sizes cap taken rest current seal folded i j :
  uncompacted_indices iter_order uris = taken ++ rest →
  walk_inv sizes cap (active_indices iter_order uris) taken current seal folded →
  one_active uris → (i < length uris)%nat → uris !! i = uris !! j →
  (i ∈ current → j ∈ current) ∧ (i ∈ seal → j ∈ seal).
Proof using Hiter.
  intros E Hi Ho Hlt Heq. destruct (decide (i = j)) as [->|Hne]; [done|].
  destruct (lookup_lt_is_Some_2 uris i Hlt) as [u Hu]. rewrite Hu in Heq. symmetry in Heq.
  assert (NoDup (current ++ seal)) as Hnd.
  { rewrite (wi_split _ _ _ _ _ _ _ Hi). by eapply walked_nodup. }
  apply NoDup_app in Hnd as (_ & Hdis & _).
  pose proof (shared_active uris i j u Ho Hne Hu Heq) as Ha.
  assert (i ∈ active_indices iter_order uris ∧ j ∈ active_indices iter_order uris) as [Hai Haj]
    by (rewrite Ha; split; by apply positions_elem).
  destruct (wi_active _ _ _ _ _ _ _ Hi) as [[k Hk]|Hs].
  - assert (i ∈ current ∧ j ∈ current) as [? ?] by (rewrite Hk; split; apply elem_of_app; by left).
    split; [done|]. intros Hs. by destruct (Hdis i).
  - split; [|by intros _; apply Hs]. intros Hc. destruct (Hdis i Hc). by apply Hs.
Qed.

Lemma walk_merges uris sizes cap taken rest current seal folded :
  uncompacted_indices iter_order uris = taken ++ rest →
  walk_inv sizes cap (active_indices iter_order uris) taken current seal folded →
  one_active uris → (1 ≤ folded)%nat → (2 ≤ length current)%nat →
  ∃ i j, i ∈ current ∧ j ∈ current ∧ uris !! i ≠ uris !! j.
Proof using Hiter.
  intros E Hi Ho Hf Hlen. destruct (wi_fold _ _ _ _ _ _ _ Hi Hf) as (i & Hic & Hit).
  assert (NoDup (current ++ seal)) as [Hnd _]%NoDup_app.
  { rewrite (wi_split _ _ _ _ _ _ _ Hi). by eapply walked_nodup. }
  assert (∃ j, j ∈ current ∧ j ≠ i) as (j & Hjc & Hne).
  { destruct current as [|x [|y l]]; [simpl in *; lia..|]. apply NoDup_cons in Hnd as [Hx _].
    destruct (decide (x = i)) as [->|]; [|exists x; set_solver].
    exists y. split; [set_solver|]. intros ->. apply Hx. by left. }
  exists i, j. split_and!; [done|done|]. intros Heq.
  assert (i ∈ uncompacted_indices iter_order uris) as [Hlt Hna]%uncompacted_elem by (rewrite E; apply elem_of_app; by left).
  destruct (lookup_lt_is_Some_2 uris i Hlt) as [u Hu]. rewrite Hu in Heq.
  apply Hna. rewrite (shared_active uris i j u Ho (not_eq_sym Hne) Hu (eq_sym Heq)). by apply positions_elem.
Qed.

Lemma plan_wave_ok uris sizes cap p :
  plan_wave_projected iter_order uris sizes cap = Some p → wave_ok uris sizes cap p.
Proof using Hiter.
  intros Hp. destruct (decide (uris = [])) as [->|Hne]; [done|].
  destruct (plan_walk uris sizes cap Hne) as (t & r & c & s & f & E & Hi & Hr & Hpl). rewrite Hpl in Hp. clear Hpl.
  assert (NoDup (c ++ s)) as Hnd by (rewrite (wi_split _ _ _ _ _ _ _ Hi); by eapply walked_nodup).
  destruct (_ && _) eqn:E0 in Hp; [done|].
  assert (length (active_indices iter_order uris) ≠ 1)%nat as Ha1 by (destruct (active_length uris) as [->|]; simpl; lia).
  destruct (Nat.ltb_spec (length c) 2) as [Hlt|Hge].
  - destruct (Nat.eqb_spec (length s) 0) as [|Hs]; [done|]. injection Hp as <-. split; cbn [input_indices seal_indices]; try done.
    + by apply NoDup_app in Hnd as (_ & _ & ?).
    + intros i Hin. apply (walk_subset _ _ _ _ _ _ _ _ _ E Hi), elem_of_app. by right.
    + left. split; [done|]. by intros ->.
    + intros Ho i j Hlt' Heq. split; [by intros ?%not_elem_of_nil|]. by apply (walk_whole _ _ _ _ _ _ _ _ _ _ E Hi).
    + intros i j u Ho Hij Hi1 Hj1. pose proof (shared_active uris i j u Ho Hij Hi1 Hj1) as Hact.
      assert (i ∈ active_indices iter_order uris) as Hia by (rewrite Hact; by apply positions_elem).
      destruct (wi_active _ _ _ _ _ _ _ Hi) as [[k Hk]|Hs']; [|by apply Hs'].
      rewrite Hk, length_app in Hlt. destruct (active_length uris) as [He|]; [|lia]. rewrite He in Hia. by apply not_elem_of_nil in Hia.
  - injection Hp as <-.
    assert (1 ≤ f)%nat as Hf.
    { destruct f; [|lia]. destruct (wi_none _ _ _ _ _ _ _ Hi eq_refl) as [-> Hs0].
      destruct s as [|x s]; [done|]. destruct (active_length uris) as [He|He]; [rewrite He in Hge; simpl in Hge; lia|].
      discriminate Hs0. intros He'. rewrite He' in He. simpl in He. lia. }
    split; cbn [input_indices seal_indices]; try done.
    + intros i. by apply (walk_subset _ _ _ _ _ _ _ _ _ E Hi).
    + by right.
    + intros _. by apply (wi_cap _ _ _ _ _ _ _ Hi).
    + intros Ho i j Hlt' Heq. by apply (walk_whole _ _ _ _ _ _ _ _ _ _ E Hi).
    + intros i j u Ho Hij Hi1 Hj1. rewrite (wi_split _ _ _ _ _ _ _ Hi), (shared_active uris i j u Ho Hij Hi1 Hj1).
      apply elem_of_app. left. by apply positions_elem.
    + intros Ho _. by apply (walk_merges _ _ _ _ _ _ _ _ E Hi).
Qed.

Lemma plan_done uris sizes cap :
  uncompacted_indices iter_order uris = [] → plan_wave_projected iter_order uris sizes cap = None.
Proof using. intros E. unfold plan_wave_projected. rewrite E. by destruct uris. Qed.

Lemma plan_single uris sizes cap i :
  active_indices iter_order uris = [] → uncompacted_indices iter_order uris = [i] →
  plan_wave_projected iter_order uris sizes cap =
    if size_at sizes i <=? cap then None else Some {| input_indices := []; seal_indices := [i] |}.
Proof using.
  intros Ha E. destruct uris as [|u uris]; [done|]. unfold plan_wave_projected. rewrite Ha, E.
  cbn [wave_loop total_size foldr]. rewrite Z.add_0_l. by destruct (_ <=? cap).
Qed.

(** A wave is skipped only when the rows already share one file. *)
Lemma plan_wave_none uris sizes cap :
  plan_wave_projected iter_order uris sizes cap = None ↔
    uncompacted_indices iter_order uris = [] ∨
    (active_indices iter_order uris = [] ∧
     ∃ i, uncompacted_indices iter_order uris = [i] ∧ size_at sizes i ≤ cap).
Proof using Hiter.
  destruct (decide (uris = [])) as [->|Hne]; [split; [by left|done]|]. split.
  - intros Hp0. destruct (plan_walk uris sizes cap Hne) as (t & r & c & s & f & E & Hi & Hr & Hp).
    pose proof (wi_split _ _ _ _ _ _ _ Hi) as Hsp%Permutation_length. rewrite !length_app in Hsp.
    rewrite Hp0 in Hp. symmetry in Hp.
    assert (length s = O ∧ (f = O ∨ (length c < 2)%nat)) as [Hs Hcase].
    { destruct (Nat.eqb_spec f 0), (Nat.eqb_spec (length s) 0), (Nat.ltb_spec (length c) 2); simplify_eq/=; auto. }
    destruct r as [|x r]; [|destruct (Hr ltac:(done)); destruct Hcase; lia]. rewrite app_nil_r in E.
    destruct (active_length uris) as [Ha|Ha].
    + destruct t as [|i [|]]; [by left|right|].
      * split; [done|]. exists i. split; [done|]. rewrite (plan_single _ _ _ i Ha E) in Hp0.
        by destruct (Z.leb_spec (size_at sizes i) cap).
      * rewrite Ha in Hsp. simpl in Hsp. destruct Hcase as [->|]; [|lia].
        destruct (wi_none _ _ _ _ _ _ _ Hi eq_refl) as [-> _]. rewrite Ha in Hsp. simpl in Hsp. lia.
    + left. rewrite E. apply nil_length_inv. destruct Hcase as [->|]; [|lia].
      destruct (wi_none _ _ _ _ _ _ _ Hi eq_refl) as [-> _]. lia.
  - intros [E|(Ha & i & E & Hle)]; [by apply plan_done|]. rewrite (plan_single _ _ _ i Ha E).
    by destruct (Z.leb_spec (size_at sizes i) cap); [|lia].
Qed.

Lemma count_all uris u : (∀ v, v ∈ uris → v = u) → uri_count uris u = length uris.
Proof using. unfold uri_count. induction uris as [|v uris IH]; [done|]. intros H. rewrite filter_cons_True by (apply H; by left). simpl. rewrite IH; [done|]. intros w ?. apply H. by right. Qed.

Lemma uncompacted_nil uris :
  uncompacted_indices iter_order uris = [] ↔
    uris = [] ∨ (2 ≤ length uris)%nat ∧ ∀ u v, u ∈ uris → v ∈ uris → u = v.
Proof using Hiter.
  assert (uncompacted_indices iter_order uris = [] ↔ ∀ i, (i < length uris)%nat → i ∈ active_indices iter_order uris) as ->.
  { split; [|intros H; apply list.elem_of_nil_inv; intros i [? ?]%uncompacted_elem; auto].
    intros E i Hi. destruct (decide (i ∈ active_indices iter_order uris)); [done|].
    assert (i ∈ uncompacted_indices iter_order uris) as Hin by by apply uncompacted_elem.
    rewrite E in Hin. by apply not_elem_of_nil in Hin. }
  split.
  - intros H. destruct uris as [|u uris']; [by left|right]. set (l := u :: uris') in *.
    destruct (active_cases l) as [[E _]|(a & E & Hc)].
    { specialize (H O ltac:(simpl; lia)). rewrite E in H. by apply not_elem_of_nil in H. }
    assert (∀ v, v ∈ l → v = a) as Hall.
    { intros v (i & Hi)%list_elem_of_lookup. specialize (H i (lookup_lt_Some _ _ _ Hi)).
      rewrite E, positions_elem in H. congruence. }
    split; [by rewrite <- (count_all l a Hall)|]. intros v w Hv%Hall Hw%Hall. congruence.
  - intros [->|[Hlen Hall]]; [simpl; lia|]. intros i Hi.
    destruct (lookup_lt_is_Some_2 uris i Hi) as [u Hu].
    assert (uri_count uris u = length uris) as Hc.
    { apply count_all. intros v Hv. apply Hall; [done|]. by eapply list_elem_of_lookup_2. }
    destruct (active_cases uris) as [[_ H]|(a & -> & Ha)]; [specialize (H u); lia|].
    apply positions_elem. rewrite Hu. f_equal.
    assert (a ∈ uris); [|apply Hall; [by eapply list_elem_of_lookup_2|done]].
    unfold uri_count in Ha. destruct (filter (λ u', u' = a) uris) as [|v k] eqn:Ek; [simpl in Ha; lia|].
    assert (v ∈ filter (λ u', u' = a) uris) as Hv by (rewrite Ek; by left). by apply list_elem_of_filter in Hv as [-> ?].
Qed.
End rows.

Lemma uncompacted_single (iter_order : list Z → list Z) uris i :
  active_indices iter_order uris = [] → uncompacted_indices iter_order uris = [i] →
  i = O ∧ length uris = 1%nat.
Proof.
  intros Ha. unfold uncompacted_indices. rewrite Ha.
  destruct uris as [|u [|v uris]]; simpl; [done|..]; rewrite !filter_cons_True by apply not_elem_of_nil;
    [by intros [= <-]|done].
Qed.

Lemma one_row_uncompacted (iter_order : list Z → list Z) (Hiter : ∀ l, iter_order l ≡ₚ l) u :
  active_indices iter_order [u] = [] ∧ uncompacted_indices iter_order [u] = [O].
Proof.
  assert (active_indices iter_order [u] = []) as Ha.
  { destruct (active_length iter_order Hiter [u]) as [?|Hl]; [done|].
    destruct (active_cases iter_order Hiter [u]) as [[? _]|(a & E & Hc)]; [done|].
    unfold uri_count in Hc. rewrite filter_cons in Hc. case_decide; simpl in Hc; lia. }
  split; [done|]. unfold uncompacted_indices. rewrite Ha. simpl. rewrite filter_cons_True by apply not_elem_of_nil. done.
Qed.

(** Every planned wave is sound and makes progress.  Whatever the iteration
    order of the URI counts, the inputs and the sealed rows of a planned wave are
    distinct rows of the scope; the wave writes a merged file of at least two
    rows within the byte cap, or seals at least one row; and while at most one
    file is shared, no file is split (its rows are merged together, sealed
    together or left together), a shared file is never left, and the merged file
    takes from two files. *)
Theorem plan_wave_sound (iter_order : list Z → list Z) (Hiter : ∀ l, iter_order l ≡ₚ l)
    (uris sizes : list Z) (max_segment_bytes : Z) (p : WavePlan)
    (Hp : plan_wave_projected iter_order uris sizes max_segment_bytes = Some p) :
  wave_ok uris sizes max_segment_bytes p.
Proof. by apply (plan_wave_ok iter_order Hiter). Qed.

Lemma plan_wave_sound_witness :
  plan_wave_projected id [7; 8; 7; 9; 5] [30; 20; 30; 10; 90] 100 =
    Some {| input_indices := [0; 2; 1; 3]%nat; seal_indices := [] |} ∧
  wave_ok [7; 8; 7; 9; 5] [30; 20; 30; 10; 90] 100 {| input_indices := [0; 2; 1; 3]%nat; seal_indices := [] |}.
Proof.
  split; [vm_compute; reflexivity|].
  apply (plan_wave_sound id (λ l, Permutation_refl l)). vm_compute. reflexivity.
Defined.

(** The planner idles exactly when there is nothing to merge: the unsealed
    rows all share one file (or there is none), and a lone row is within the cap. *)
Theorem plan_wave_idle_exact (iter_order : list Z → list Z) (Hiter : ∀ l, iter_order l ≡ₚ l)
    (uris sizes : list Z) (max_segment_bytes : Z) (Hlen : length sizes = length uris) :
  plan_wave_projected iter_order uris sizes max_segment_bytes = None ↔
    (∀ u v, u ∈ uris → v ∈ uris → u = v) ∧ (∀ s, sizes = [s] → s ≤ max_segment_bytes).
Proof.
  rewrite (plan_wave_none iter_order Hiter), (uncompacted_nil iter_order Hiter). split.
  - intros [[->|[Hl Hall]]|(Ha & i & E & Hle)].
    + split; [by intros u v ?%not_elem_of_nil|]. by intros s ->.
    + split; [done|]. intros s ->. simpl in Hlen. lia.
    + destruct (uncompacted_single _ _ _ Ha E) as [-> Hl]. destruct uris as [|u [|]]; [done| |done].
      split; [intros v w ->%list_elem_of_singleton ->%list_elem_of_singleton; done|]. by intros s ->.
  - intros [Hall Hs]. destruct uris as [|u [|v uris]]; [by left; left| |left; right; split; [simpl; lia|done]].
    right. destruct (one_row_uncompacted iter_order Hiter u) as [Ha E]. split; [done|]. exists O. split; [done|].
    destruct sizes as [|s [|]]; [done| |done]. by apply Hs.
Qed.

Lemma plan_wave_idle_exact_witness :
  plan_wave_projected id [7; 7; 7] [40; 40; 40] 100 = None ∧
  (∀ u v, u ∈ [7; 7; 7] → v ∈ [7; 7; 7] → u = v) ∧ (∀ s, [40; 40; 40] = [s] → s ≤ 100).
Proof.
  split; [vm_compute; reflexivity|].
  apply (plan_wave_idle_exact id (λ l, Permutation_refl l)); vm_compute; reflexivity.
Defined.
