(* ===== verification/ColdStore.v ===== *)
(** * Cold files: compaction and sweep (penca-api/src/lifecycle/{compact,compact_op,sweep}.rs,
      penca-storage-meta/src/{compact,persist}.rs, penca-storage-cold/src/lib.rs)

    The physical side of the persist tier: segment rows that name a slice of a
    cold file, compaction waves that merge files and re-point the rows, and the
    grace-window sweep that deletes files nothing references.  Lifecycle.v keeps
    the rows of a segment in the segment; here they are in the file. *)

From S2P Require Import Prelude CoreTypes MergeSql Plan IndexSelect Chunker Lifecycle CompactPlan.
From stdpp Require Import base numbers list option sets gmap sorting.

Open Scope Z_scope.

(** A [table_persist_segment_metadata] row, joined with its parent's log kind. *)
Record seg_row := {
  sr_uuid : Z;
  sr_table_persist_uuid : Z;
  sr_log_kind : LogKind;
  sr_chunk_idx : Z;
  sr_min_tx_commit_micros : Z;
  sr_max_tx_commit_micros : Z;
  sr_min_commit_seq_num : Z;
  sr_max_commit_seq_num : Z;
  object_uri : Z;
  sr_offset : option Z;
  sr_length : option Z;
  row_count : Z;
  size_bytes : option Z;
  is_sealed : bool;
  sr_commit_micros : option Z;
}.

(** One table's rows on one branch, the files, [compact_segment_metadata],
    [segment_delete_set], and what else in the catalog names a file (snapshot
    segments, index sidecars, other tables and branches) with the commit stamp
    of the naming row. *)
Record cold_store (A : Type) := {
  cs_segments : list seg_row;
  cs_files : gmap Z (list (src_row A));
  cs_compacts : gmap Z (option Z);
  cs_delete_set : gmap Z Z;
  cs_refs : list (Z * option Z);
}.
Arguments cs_segments {A}. Arguments cs_files {A}. Arguments cs_compacts {A}.
Arguments cs_delete_set {A}. Arguments cs_refs {A}.

(** ** Reads *)

Definition read_segment {A} (files : gmap Z (list (src_row A))) (uri : Z) (offset length : option Z) :
    option (list (src_row A)) :=
  match files !! uri with
  | None => None
  | Some rows =>
      match offset, length with
      | Some o, Some n => Some (slice rows (Z.to_nat o) (Z.to_nat n))
      | _, _ => Some rows
      end
  end.

Definition read_one_persist_segment {A} (files : gmap Z (list (src_row A))) (r : seg_row) :
    option (list (src_row A)) :=
  read_segment files (object_uri r) (sr_offset r) (sr_length r).

(** The concatenated batches of [read_persist_segments]. *)
Definition read_persist_segments {A} (files : gmap Z (list (src_row A))) (rs : list seg_row) :
    option (list (src_row A)) :=
  mjoin <$> mapM (read_one_persist_segment files) rs.

(** ** Metadata statements *)

Definition compact_order (x y : seg_row) : Prop :=
  sr_min_tx_commit_micros x < sr_min_tx_commit_micros y ∨
  (sr_min_tx_commit_micros x = sr_min_tx_commit_micros y ∧ sr_chunk_idx x ≤ sr_chunk_idx y).

#[export] Instance compact_order_dec : RelDecision compact_order.
Proof. intros x y. unfold compact_order. apply _. Defined.

Definition in_persisted_window (min_at max_at : option Z) (c : Z) : bool :=
  match min_at with Some m => m <=? c | None => true end &&
  match max_at with Some m => c <? m | None => true end.

Definition unsealed_in_window (k : LogKind) (min_at max_at : option Z) (r : seg_row) : bool :=
  bool_decide (sr_log_kind r = k) && negb (is_sealed r) &&
  match sr_commit_micros r with Some c => in_persisted_window min_at max_at c | None => false end.

Definition enumerate_unsealed_persist_segments_for_scope (rows : list seg_row) (k : LogKind)
    (min_at max_at : option Z) : list seg_row :=
  merge_sort compact_order (filter (λ r, unsealed_in_window k min_at max_at r = true) rows).

Definition list_unsealed_persist_scopes_on_table (rows : list seg_row) (min_at max_at : option Z) :
    list LogKind :=
  filter (λ k, Exists (λ r, unsealed_in_window k min_at max_at r = true) rows) [DeleteLog; UpsertLog].

Definition repoint_row (uuid uri offset length size : Z) (r : seg_row) : seg_row :=
  if decide (sr_uuid r = uuid) then
    {| sr_uuid := sr_uuid r; sr_table_persist_uuid := sr_table_persist_uuid r; sr_log_kind := sr_log_kind r; sr_chunk_idx := sr_chunk_idx r;
       sr_min_tx_commit_micros := sr_min_tx_commit_micros r; sr_max_tx_commit_micros := sr_max_tx_commit_micros r;
       sr_min_commit_seq_num := sr_min_commit_seq_num r; sr_max_commit_seq_num := sr_max_commit_seq_num r;
       object_uri := uri; sr_offset := Some offset; sr_length := Some length; row_count := row_count r;
       size_bytes := Some size; is_sealed := is_sealed r; sr_commit_micros := sr_commit_micros r |}
  else r.

Definition repoint_table_persist_segment (uuid uri offset length size : Z) (rows : list seg_row) : list seg_row :=
  repoint_row uuid uri offset length size <$> rows.

Definition seal_row (uuids : list Z) (r : seg_row) : seg_row :=
  if decide (sr_uuid r ∈ uuids) then
    {| sr_uuid := sr_uuid r; sr_table_persist_uuid := sr_table_persist_uuid r; sr_log_kind := sr_log_kind r; sr_chunk_idx := sr_chunk_idx r;
       sr_min_tx_commit_micros := sr_min_tx_commit_micros r; sr_max_tx_commit_micros := sr_max_tx_commit_micros r;
       sr_min_commit_seq_num := sr_min_commit_seq_num r; sr_max_commit_seq_num := sr_max_commit_seq_num r;
       object_uri := object_uri r; sr_offset := sr_offset r; sr_length := sr_length r; row_count := row_count r;
       size_bytes := size_bytes r; is_sealed := true; sr_commit_micros := sr_commit_micros r |}
  else r.

Definition seal_table_persist_segments_by_uuids (uuids : list Z) (rows : list seg_row) : list seg_row :=
  seal_row uuids <$> rows.

(** [ON CONFLICT (object_uri) DO UPDATE SET written_at_micros = now]. *)
Definition insert_segment_delete_set_rows (now : Z) (uris : list Z) (ds : gmap Z Z) : gmap Z Z :=
  foldr (λ u acc, <[u := now]> acc) ds uris.

(** ** The compaction wave *)

(** The re-pointing loop: input [i] takes the slice after its predecessors and a
    share of the merged size in proportion to its rows, the product of a release
    build's wrapping [i64].  The content hash and the statistics the loop
    recomputes for a slice are not columns of the model. *)
Fixpoint repoint_loop (merged_uri merged_size total_rows cumulative : Z) (inputs : list seg_row)
    (rows : list seg_row) : list seg_row :=
  match inputs with
  | [] => rows
  | m :: rest =>
      let proportional := if 0 <? total_rows then Z.quot (wrap_i64 (merged_size * row_count m)) total_rows else 0 in
      repoint_loop merged_uri merged_size total_rows (cumulative + row_count m) rest
        (repoint_table_persist_segment (sr_uuid m) merged_uri cumulative (row_count m) proportional rows)
  end.

Definition pick {T} (rows : list T) (idxs : list nat) : list T := omap (λ i, rows !! i) idxs.

Section compact.
Context {A : Type} (batch_of : LogKind → ColdBatch A) (iter_order : list Z → list Z).
Implicit Types (st : cold_store A).

Definition with_segments st (rows : list seg_row) : cold_store A :=
  {| cs_segments := rows; cs_files := cs_files st; cs_compacts := cs_compacts st;
     cs_delete_set := cs_delete_set st; cs_refs := cs_refs st |}.

(** [insert_compact_segment] on its own connection, then the file. *)
Definition stage_merged st (merged_uri : Z) (merged : list (src_row A)) : cold_store A :=
  {| cs_segments := cs_segments st; cs_files := <[merged_uri := merged]> (cs_files st);
     cs_compacts := <[merged_uri := None]> (cs_compacts st);
     cs_delete_set := cs_delete_set st; cs_refs := cs_refs st |}.

Definition uris_to_defer_delete (merged_uri : Z) (inputs : list seg_row) : list Z :=
  remove_dups (filter (λ u, u ≠ merged_uri) (object_uri <$> inputs)).

(** [table_exists]: the table's schema resolves.  An error returns the state the
    already committed statements leave. *)
Definition compact_one_scope (k : LogKind) (min_at max_at : option Z) (max_segment_bytes : Z)
    (table_exists : bool) st (now merged_uri : Z) : cold_store A * result ApiError (option Z) :=
  let rows := enumerate_unsealed_persist_segments_for_scope (cs_segments st) k min_at max_at in
  match plan_wave_projected iter_order (object_uri <$> rows) (default 0 ∘ size_bytes <$> rows) max_segment_bytes with
  | None => (st, Ok None)
  | Some plan =>
      let seal_uuids := sr_uuid <$> pick rows (seal_indices plan) in
      match input_indices plan with
      | [] => (with_segments st (seal_table_persist_segments_by_uuids seal_uuids (cs_segments st)), Ok None)
      | _ =>
          if negb table_exists then (st, Ok None)
          else
            let inputs := pick rows (input_indices plan) in
            match read_persist_segments (cs_files st) inputs with
            | None => (st, Err ColdStorage)
            | Some merged =>
                match cs_compacts st !! merged_uri with
                | Some _ => (st, Err DbUniqueViolation)
                | None =>
                    let st1 := stage_merged st merged_uri merged in
                    match batch_in_memory_bytes (@to_batch A (batch_of k) merged) with
                    | Err e => (st1, Err e)
                    | Ok merged_size =>
                        let total_rows := foldr (λ m acc, row_count m + acc) 0 inputs in
                        let repointed := repoint_loop merged_uri merged_size total_rows 0 inputs (cs_segments st1) in
                        let sealed := match seal_indices plan with
                                      | [] => repointed
                                      | _ => seal_table_persist_segments_by_uuids seal_uuids repointed
                                      end in
                        ({| cs_segments := sealed; cs_files := cs_files st1;
                            cs_compacts := <[merged_uri := Some now]> (cs_compacts st1);
                            cs_delete_set := insert_segment_delete_set_rows now
                              (uris_to_defer_delete merged_uri inputs) (cs_delete_set st1);
                            cs_refs := cs_refs st1 |}, Ok (Some merged_uri))
                    end
                end
            end
      end
  end.

(** One wave per log kind with an unsealed segment; the first error ends the
    cycle.  [merged_uri] draws the file name of a wave. *)
Fixpoint compact_scopes (scopes : list LogKind) (min_at max_at : option Z) (max_segment_bytes : Z)
    (table_exists : bool) st (now : Z) (merged_uri : LogKind → Z) : cold_store A * result ApiError (list Z) :=
  match scopes with
  | [] => (st, Ok [])
  | k :: rest =>
      match compact_one_scope k min_at max_at max_segment_bytes table_exists st now (merged_uri k) with
      | (st', Err e) => (st', Err e)
      | (st', Ok uri) =>
          match compact_scopes rest min_at max_at max_segment_bytes table_exists st' now merged_uri with
          | (st'', Ok uris) => (st'', Ok (option_list uri ++ uris))
          | (st'', Err e) => (st'', Err e)
          end
      end
  end.

Definition compact_persist_segments (min_at max_at : option Z) (max_segment_bytes : Z)
    (table_exists : bool) st (now : Z) (merged_uri : LogKind → Z) : cold_store A * result ApiError (list Z) :=
  compact_scopes (list_unsealed_persist_scopes_on_table (cs_segments st) min_at max_at)
    min_at max_at max_segment_bytes table_exists st now merged_uri.

(** ** Sweep *)

Definition REAP_GRACE_MULTIPLE : Z := 10.

Definition segment_delete_set_referenced (committed_only : bool) st (u : Z) : bool :=
  bool_decide (Exists (λ r, object_uri r = u ∧ (committed_only = true → is_Some (sr_commit_micros r))) (cs_segments st)) ||
  bool_decide (Exists (λ r : Z * option Z, r.1 = u ∧ (committed_only = true → is_Some r.2)) (cs_refs st)).

Definition reap_referenced_segment_delete_set_rows st (now query_timeout : Z) : cold_store A :=
  {| cs_segments := cs_segments st; cs_files := cs_files st; cs_compacts := cs_compacts st;
     cs_delete_set := filter (λ p : Z * Z,
        ¬ (p.2 < now - clamp_i64 (query_timeout * REAP_GRACE_MULTIPLE) ∧
           segment_delete_set_referenced true st p.1 = true)) (cs_delete_set st);
     cs_refs := cs_refs st |}.

Definition eligible_segment_delete_set_rows st (now query_timeout : Z) : list Z :=
  fst <$> filter (λ p : Z * Z, p.2 < now - query_timeout ∧ segment_delete_set_referenced false st p.1 = false)
    (map_to_list (cs_delete_set st)).

(** Delete the file, then its row; [deletable] is the outcome of the file
    delete. *)
Definition sweep_file (deletable : Z → bool) st (u : Z) : cold_store A :=
  if deletable u then
    {| cs_segments := cs_segments st; cs_files := delete u (cs_files st); cs_compacts := cs_compacts st;
       cs_delete_set := delete u (cs_delete_set st); cs_refs := cs_refs st |}
  else st.

Definition sweep_segments (deletable : Z → bool) st (now query_timeout : Z) : cold_store A :=
  let st1 := reap_referenced_segment_delete_set_rows st now query_timeout in
  foldl (sweep_file deletable) st1 (eligible_segment_delete_set_rows st1 now query_timeout).
End compact.
