(* ===== verification/ColdLemmas.v ===== *)
(** * Compaction keeps every segment's rows

    A segment row read through its file slice gives the same rows before and
    after any wave: the merged file is the concatenation of the inputs, and each
    input is re-pointed at its own slice. *)

From S2P Require Import Prelude CoreTypes MergeSql Plan IndexSelect Chunker Lifecycle CompactPlan ColdStore.
From stdpp Require Import base numbers list option sets gmap sorting.

Open Scope Z_scope.

(** ** The logical view *)

Section logical.
Context {A : Type}.
Implicit Types (st : cold_store A) (files : gmap Z (list (src_row A))).

(** The segment a row stands for, its rows read from the file. *)
Definition logical_segment files (r : seg_row) : option (segment_meta A) :=
  (λ rows, {| sg_uuid := sr_uuid r; sg_table_persist_uuid := sr_table_persist_uuid r; sg_chunk_idx := sr_chunk_idx r;
              sg_min_tx_commit_micros := sr_min_tx_commit_micros r;
              sg_max_tx_commit_micros := sr_max_tx_commit_micros r;
              sg_min_commit_seq_num := sr_min_commit_seq_num r;
              sg_max_commit_seq_num := sr_max_commit_seq_num r;
              sg_rows := rows; sg_commit_micros := sr_commit_micros r |}) <$> read_one_persist_segment files r.

Definition logical_segments st (k : LogKind) : option (list (segment_meta A)) :=
  mapM (logical_segment (cs_files st)) (filter (λ r, sr_log_kind r = k) (cs_segments st)).

Record store_wf st : Prop := {
  sw_uuid : NoDup (sr_uuid <$> cs_segments st);
  sw_read : ∀ r, r ∈ cs_segments st →
    ∃ rows, read_one_persist_segment (cs_files st) r = Some rows ∧ row_count r = Z.of_nat (length rows);
}.

(** [r'] is [r] moved: the same segment, read from another place. *)
Definition same_segment files files' (r r' : seg_row) : Prop :=
  sr_uuid r' = sr_uuid r ∧ sr_log_kind r' = sr_log_kind r ∧ row_count r' = row_count r ∧
  logical_segment files' r' = logical_segment files r.

Lemma same_segment_read files files' r r' rows :
  same_segment files files' r r' → read_one_persist_segment files r = Some rows →
  read_one_persist_segment files' r' = Some rows.
Proof.
  intros (_ & _ & _ & Hl) Hr. unfold logical_segment in Hl. rewrite Hr in Hl.
  destruct (read_one_persist_segment files' r'); cbn in Hl; [|done]. injection Hl. by intros _ ->.
Qed.

Lemma moved_store st st' (f : seg_row → seg_row) :
  cs_segments st' = f <$> cs_segments st →
  (∀ r, r ∈ cs_segments st → same_segment (cs_files st) (cs_files st') r (f r)) →
  store_wf st → store_wf st' ∧ ∀ k, logical_segments st' k = logical_segments st k.
Proof.
  intros Hseg Hsame [Hnd Hrd]. split; [split|].
  - rewrite Hseg, <- list_fmap_compose.
    replace (sr_uuid ∘ f <$> cs_segments st) with (sr_uuid <$> cs_segments st); [done|].
    apply list_fmap_ext. intros i r Hr%list_elem_of_lookup_2. symmetry. by apply Hsame.
  - rewrite Hseg. intros r' (r & -> & Hr)%list_elem_of_fmap. destruct (Hrd r Hr) as (rows & Hrows & Hc).
    exists rows. split; [by eapply same_segment_read; [apply Hsame|]|]. rewrite <- Hc. by apply Hsame.
  - intros k. unfold logical_segments. rewrite Hseg. clear Hseg Hnd Hrd.
    induction (cs_segments st) as [|r rs IH]; [done|].
    assert (same_segment (cs_files st) (cs_files st') r (f r)) as (_ & Hk & _ & Hl) by (apply Hsame; by left).
    rewrite fmap_cons, !filter_cons, Hk. specialize (IH ltac:(intros ? ?; apply Hsame; by right)).
    destruct (decide (sr_log_kind r = k)); [|done]. simpl. by rewrite Hl, IH.
Qed.

(** Files may be added and unreferenced ones removed. *)
Lemma kept_store st st' :
  cs_segments st' = cs_segments st →
  (∀ r, r ∈ cs_segments st → cs_files st' !! object_uri r = cs_files st !! object_uri r) →
  store_wf st → store_wf st' ∧ ∀ k, logical_segments st' k = logical_segments st k.
Proof.
  intros Hseg Hf Hwf. apply (moved_store st st' id); [by rewrite list_fmap_id| |done].
  intros r Hr. change (id r) with r. split_and!; [done..|]. unfold logical_segment, read_one_persist_segment, read_segment.
  by rewrite (Hf r Hr).
Qed.
End logical.

(** ** Slices of a concatenation *)

Lemma slice_mjoin {T} (contents : list (list T)) : ∀ j c,
  contents !! j = Some c → slice (mjoin contents) (length (mjoin (take j contents))) (length c) = c.
Proof.
  unfold slice. induction contents as [|x xs IH]; intros [|j] c Hj; simplify_eq/=.
  - by rewrite drop_0, take_app_length.
  - rewrite length_app, drop_app_ge by lia. replace (_ + _ - _)%nat with (length (mjoin (take j xs))) by lia.
    by apply IH.
Qed.

(** ** Picked rows *)

Lemma pick_elem {T} (rows : list T) idxs x : x ∈ pick rows idxs ↔ ∃ i, i ∈ idxs ∧ rows !! i = Some x.
Proof. unfold pick. apply list_elem_of_omap. Qed.

Lemma pick_nodup {T B} (f : T → B) (rows : list T) idxs :
  NoDup idxs → NoDup (f <$> rows) → NoDup (f <$> pick rows idxs).
Proof.
  intros Hi Hr. induction Hi as [|i l Hnot _ IH]; [constructor|]. unfold pick. simpl.
  destruct (rows !! i) as [x|] eqn:E; simpl; [|done]. constructor; [|done].
  intros (y & Hy & (j & Hj & Hyj)%pick_elem)%list_elem_of_fmap. apply Hnot.
  replace i with j; [done|]. eapply (NoDup_lookup _ j i (f x)); [exact Hr|..]; rewrite list_lookup_fmap, ?E, ?Hyj; simpl; by rewrite ?Hy.
Qed.

Lemma pick_nonempty {T} (rows : list T) idxs : idxs ≠ [] → (∀ i, i ∈ idxs → (i < length rows)%nat) → pick rows idxs ≠ [].
Proof.
  destruct idxs as [|i l]; [done|]. intros _ H. destruct (lookup_lt_is_Some_2 rows i) as [x Hx]; [apply H; by left|].
  unfold pick. simpl. by rewrite Hx.
Qed.

(** ** Re-pointing *)

Section repoint.
Context (uri msize total : Z).

Fixpoint repoint_one (cumulative : Z) (inputs : list seg_row) (r : seg_row) : seg_row :=
  match inputs with
  | [] => r
  | m :: rest =>
      repoint_one (cumulative + row_count m) rest
        (repoint_row (sr_uuid m) uri cumulative (row_count m)
           (if 0 <? total then Z.quot (wrap_i64 (msize * row_count m)) total else 0) r)
  end.

Lemma repoint_loop_fmap inputs : ∀ cum rows,
  repoint_loop uri msize total cum inputs rows = repoint_one cum inputs <$> rows.
Proof.
  induction inputs as [|m ms IH]; intros cum rows; cbn [repoint_loop repoint_one]; [by rewrite list_fmap_id|].
  rewrite IH. unfold repoint_table_persist_segment. by rewrite <- list_fmap_compose.
Qed.

Lemma repoint_row_uuid u o l s r : sr_uuid (repoint_row u uri o l s r) = sr_uuid r.
Proof. unfold repoint_row. by case_decide. Qed.

Lemma repoint_one_out inputs : ∀ cum r, sr_uuid r ∉ sr_uuid <$> inputs → repoint_one cum inputs r = r.
Proof.
  induction inputs as [|m ms IH]; intros cum r Hr; cbn [repoint_one]; [done|].
  rewrite fmap_cons, not_elem_of_cons in Hr. destruct Hr as [Hm Hr].
  assert (∀ s, repoint_row (sr_uuid m) uri cum (row_count m) s r = r) as -> by (intros s; unfold repoint_row; by rewrite decide_False).
  by apply IH.
Qed.

Definition rows_total (l : list seg_row) : Z := foldr (λ m acc, row_count m + acc) 0 l.

Lemma repoint_one_in inputs : ∀ cum j r,
  NoDup (sr_uuid <$> inputs) → inputs !! j = Some r →
  ∃ s, repoint_one cum inputs r =
    repoint_row (sr_uuid r) uri (cum + rows_total (take j inputs)) (row_count r) s r.
Proof.
  induction inputs as [|m ms IH]; intros cum [|j] r Hnd Hj; simplify_eq/=; apply NoDup_cons in Hnd as [Hm Hnd].
  - eexists. rewrite Z.add_0_r. apply repoint_one_out. by rewrite repoint_row_uuid.
  - assert (sr_uuid r ≠ sr_uuid m) as Hne.
    { intros E. apply Hm. rewrite <- E. apply list_elem_of_fmap_2. by eapply list_elem_of_lookup_2. }
    assert (∀ s, repoint_row (sr_uuid m) uri cum (row_count m) s r = r) as -> by (intros s; unfold repoint_row; by rewrite decide_False).
    destruct (IH (cum + row_count m) j r Hnd Hj) as [s ->]. exists s. unfold rows_total. simpl. f_equal. lia.
Qed.
End repoint.

(** ** One wave *)

Section wave.
Context {A : Type}.
Implicit Types (st : cold_store A) (files : gmap Z (list (src_row A))).

Lemma enumerate_elem rows k a b r :
  r ∈ enumerate_unsealed_persist_segments_for_scope rows k a b ↔ r ∈ rows ∧ unsealed_in_window k a b r = true.
Proof.
  unfold enumerate_unsealed_persist_segments_for_scope.
  rewrite (merge_sort_Permutation compact_order), list_elem_of_filter. tauto.
Qed.

Lemma enumerate_nodup rows k a b :
  NoDup (sr_uuid <$> rows) → NoDup (sr_uuid <$> enumerate_unsealed_persist_segments_for_scope rows k a b).
Proof.
  intros H. unfold enumerate_unsealed_persist_segments_for_scope.
  rewrite (merge_sort_Permutation compact_order). by apply NoDup_fmap_filter.
Qed.

Lemma mapM_rows_total files inputs contents :
  mapM (read_one_persist_segment files) inputs = Some contents →
  (∀ r, r ∈ inputs → ∃ rows, read_one_persist_segment files r = Some rows ∧ row_count r = Z.of_nat (length rows)) →
  ∀ j, rows_total (take j inputs) = Z.of_nat (length (mjoin (take j contents))).
Proof.
  intros Hm%mapM_Some. induction Hm as [|m c ms cs Hc Hcs IH]; intros Hrd j; [by rewrite !take_nil|].
  destruct j as [|j]; [done|]. simpl.
  destruct (Hrd m) as (rows & Hrows & ->); [by left|]. rewrite Hc in Hrows. simplify_eq.
  fold (rows_total (take j ms)).
  rewrite IH by (intros ? ?; apply Hrd; by right). rewrite length_app. lia.
Qed.

Lemma repointed_same st inputs contents uri msize total r :
  store_wf st → cs_files st !! uri = None →
  NoDup (sr_uuid <$> inputs) → (∀ m, m ∈ inputs → m ∈ cs_segments st) →
  mapM (read_one_persist_segment (cs_files st)) inputs = Some contents → r ∈ cs_segments st →
  same_segment (cs_files st) (<[uri := mjoin contents]> (cs_files st)) r (repoint_one uri msize total 0 inputs r).
Proof.
  intros [Hnd Hrd] Hfresh Hni Hsub Hm Hr.
  destruct (decide (sr_uuid r ∈ sr_uuid <$> inputs)) as [Hin|Hout].
  - apply list_elem_of_fmap in Hin as (m & Hu & Hin).
    assert (m = r) as -> by (apply (NoDup_fmap_eq sr_uuid (cs_segments st)); [done|by apply Hsub|done|by symmetry]).
    apply list_elem_of_lookup in Hin as [j Hj].
    destruct (repoint_one_in uri msize total inputs 0 j r Hni Hj) as [s ->].
    pose proof (mapM_rows_total _ _ _ Hm ltac:(eauto) j) as Htot.
    assert (Forall2 (λ m c, read_one_persist_segment (cs_files st) m = Some c) inputs contents) as Hf2 by by apply mapM_Some.
    destruct (Forall2_lookup_l _ _ _ _ _ Hf2 Hj) as (c & Hc & Hread).
    destruct (Hrd r Hr) as (rows & Hrows & Hcount). rewrite Hread in Hrows. simplify_eq.
    unfold repoint_row. rewrite decide_True by done. split_and!; [done..|].
    unfold logical_segment, read_one_persist_segment, read_segment. cbn [object_uri sr_offset sr_length].
    rewrite lookup_insert_eq, Htot, Hcount, Z.add_0_l, !Nat2Z.id, (slice_mjoin _ _ _ Hc).
    unfold read_one_persist_segment, read_segment in Hread. rewrite Hread. done.
  - rewrite repoint_one_out by done. split_and!; [done..|].
    unfold logical_segment, read_one_persist_segment, read_segment. rewrite lookup_insert_ne; [done|].
    intros ->. destruct (Hrd r Hr) as (rows & Hrows & _). unfold read_one_persist_segment, read_segment in Hrows.
    by rewrite Hfresh in Hrows.
Qed.

Lemma sealed_same files files' uuids r r' :
  same_segment files files' r r' → same_segment files files' r (seal_row uuids r').
Proof. unfold seal_row. by case_decide. Qed.
End wave.

(** ** Effects of the steps *)

Section effects.
Context {A : Type} (batch_of : LogKind → ColdBatch A) (iter_order : list Z → list Z).
Context (Hbatch : ∀ k, ColdBatchLaws (batch_of k)) (Hiter : ∀ l, iter_order l ≡ₚ l).
Implicit Types (st : cold_store A).

(** The merged file's name is a random uuid: unused. *)
Definition fresh_uri st (u : Z) : Prop := cs_files st !! u = None ∧ cs_compacts st !! u = None.

Definition named st (u : Z) : Prop := ∃ r, r ∈ cs_segments st ∧ object_uri r = u.

(** What a step at [now] leaves: the segments as they were, and every file a
    row named still named or queued at [now]. *)
Record effect st st' (now : Z) : Prop := {
  ef_wf : store_wf st';
  ef_logical : ∀ k, logical_segments st' k = logical_segments st k;
  ef_files : ∀ u, is_Some (cs_files st !! u) → cs_files st' !! u = cs_files st !! u;
  ef_named : ∀ u, named st u → named st' u ∨ cs_delete_set st' !! u = Some now;
  ef_queue : ∀ u w, cs_delete_set st !! u = Some w → cs_delete_set st' !! u = Some w ∨ cs_delete_set st' !! u = Some now;
}.

Lemma effect_refl st now : store_wf st → effect st st now.
Proof using. intros H. split; auto. Qed.

Lemma delete_set_insert now uris ds u :
  insert_segment_delete_set_rows now uris ds !! u = if decide (u ∈ uris) then Some now else ds !! u.
Proof using.
  unfold insert_segment_delete_set_rows in *.
  induction uris as [|v uris IH]; cbn [foldr]; [by rewrite decide_False by apply not_elem_of_nil|].
  destruct (decide (u = v)) as [->|Hne].
  - rewrite lookup_insert_eq, decide_True; [done|by left].
  - rewrite lookup_insert_ne by done. rewrite IH. apply decide_ext. rewrite elem_of_cons. tauto.
Qed.

Lemma merged_size_ok k (rows : list (src_row A)) : ∃ n, batch_in_memory_bytes (@to_batch A (batch_of k) rows) = Ok n.
Proof using Hbatch.
  destruct (to_batch_costed (ColdBatchLaws := Hbatch k) rows) as [cost Hc].
  eexists. unfold batch_in_memory_bytes. rewrite (to_batch_rows (ColdBatchLaws := Hbatch k)).
  by apply (batch_bytes_loop_costed _ cost).
Qed.

(** The store a merging wave commits. *)
Definition merged_store st (uri now msize total : Z) (inputs : list seg_row) (seal : list Z)
    (merged : list (src_row A)) : cold_store A :=
  {| cs_segments := seal_row seal <$> (repoint_one uri msize total 0 inputs <$> cs_segments st);
     cs_files := <[uri := merged]> (cs_files st);
     cs_compacts := <[uri := Some now]> (<[uri := None]> (cs_compacts st));
     cs_delete_set := insert_segment_delete_set_rows now (uris_to_defer_delete uri inputs) (cs_delete_set st);
     cs_refs := cs_refs st |}.

Lemma seal_row_nil r : seal_row [] r = r.
Proof using. unfold seal_row. by rewrite decide_False by apply not_elem_of_nil. Qed.

(** A wave does nothing, seals rows, or commits a merged file. *)
Lemma compact_one_scope_cases k a b cap te st now uri (Hwf : store_wf st) (Hfresh : fresh_uri st uri) :
  let rows := enumerate_unsealed_persist_segments_for_scope (cs_segments st) k a b in
  let run := compact_one_scope batch_of iter_order k a b cap te st now uri in
  match plan_wave_projected iter_order (object_uri <$> rows) (default 0 ∘ size_bytes <$> rows) cap with
  | None => run = (st, Ok None)
  | Some p =>
      let seal := sr_uuid <$> pick rows (seal_indices p) in
      let inputs := pick rows (input_indices p) in
      match input_indices p with
      | [] => run = (with_segments st (seal_row seal <$> cs_segments st), Ok None)
      | _ => if te then
          ∃ contents msize, mapM (read_one_persist_segment (cs_files st)) inputs = Some contents ∧
            run = (merged_store st uri now msize (rows_total inputs) inputs seal (mjoin contents), Ok (Some uri))
          else run = (st, Ok None)
      end
  end.
Proof using Hbatch.
  cbv zeta. unfold compact_one_scope.
  set (rows := enumerate_unsealed_persist_segments_for_scope _ _ _ _).
  destruct (plan_wave_projected _ _ _ _) as [p|]; [|done].
  destruct (input_indices p) as [|i0 il] eqn:Ei; [done|]. destruct te; [|done]. cbn [negb].
  set (inputs := pick rows (i0 :: il)).
  assert (∀ m, m ∈ inputs → m ∈ cs_segments st) as Hsub.
  { intros m (i & _ & Hi)%pick_elem. apply list_elem_of_lookup_2 in Hi. by apply enumerate_elem in Hi as [? _]. }
  assert (∃ contents, mapM (read_one_persist_segment (cs_files st)) inputs = Some contents) as [contents Hc].
  { apply mapM_is_Some_2. apply Forall_forall. intros m Hm.
    destruct (sw_read _ Hwf m (Hsub m Hm)) as (r & Hread & _). by exists r. }
  destruct Hfresh as [_ ->]. unfold read_persist_segments. rewrite Hc. cbn [fmap option_fmap option_map].
  destruct (merged_size_ok k (mjoin contents)) as [n ->].
  exists contents, n. split; [done|]. unfold merged_store, stage_merged.
  cbn [cs_segments cs_files cs_compacts cs_delete_set cs_refs]. rewrite repoint_loop_fmap.
  do 2 f_equal. destruct (seal_indices p) as [|s ss] eqn:Es; [|done]. simpl.
  rewrite <- (list_fmap_id (repoint_one _ _ _ _ _ <$> _)) at 1. apply list_fmap_ext. intros i r _. by rewrite seal_row_nil.
Qed.

Lemma seal_effect st uuids now :
  store_wf st → effect st (with_segments st (seal_row uuids <$> cs_segments st)) now.
Proof using.
  intros Hwf. destruct (moved_store st (with_segments st (seal_row uuids <$> cs_segments st)) (seal_row uuids)) as [H1 H2];
    [done| |done|].
  { intros r _. by apply sealed_same. }
  split; [done|done|done| |by left]. intros u (r & Hr & <-). left. exists (seal_row uuids r). split; [by apply list_elem_of_fmap_2|].
  unfold seal_row. by case_decide.
Qed.

Lemma repointed_elsewhere uri msize total inputs seal r :
  sr_uuid r ∉ sr_uuid <$> inputs → object_uri (seal_row seal (repoint_one uri msize total 0 inputs r)) = object_uri r.
Proof using. intros H. rewrite repoint_one_out by done. unfold seal_row. by case_decide. Qed.

Lemma merge_effect st uri now msize total inputs seal contents :
  store_wf st → fresh_uri st uri → NoDup (sr_uuid <$> inputs) → (∀ m, m ∈ inputs → m ∈ cs_segments st) →
  mapM (read_one_persist_segment (cs_files st)) inputs = Some contents →
  effect st (merged_store st uri now msize total inputs seal (mjoin contents)) now.
Proof using.
  intros Hwf [Hfile _] Hnd Hsub Hc.
  destruct (moved_store st (merged_store st uri now msize total inputs seal (mjoin contents))
    (seal_row seal ∘ repoint_one uri msize total 0 inputs)) as [H1 H2]; [|..|done|].
  { unfold merged_store. cbn [cs_segments]. by rewrite <- list_fmap_compose. }
  { intros r Hr. apply sealed_same. by apply repointed_same. }
  split; [done|done|..]; cbn [merged_store cs_files cs_delete_set].
  - intros u [x Hx]. apply lookup_insert_ne. intros ->. by rewrite Hfile in Hx.
  - intros u (r & Hr & <-). destruct (decide (sr_uuid r ∈ sr_uuid <$> inputs)) as [Hin|Hout].
    + right. rewrite delete_set_insert, decide_True; [done|].
      apply list_elem_of_fmap in Hin as (m & Hu & Hm).
      assert (r = m) as -> by (apply (NoDup_fmap_eq sr_uuid (cs_segments st)); [apply Hwf|done|by apply Hsub|done]).
      unfold uris_to_defer_delete. apply elem_of_remove_dups, list_elem_of_filter.
      split; [|by apply list_elem_of_fmap_2]. intros E. destruct (sw_read _ Hwf m Hr) as (x & Hx & _).
      unfold read_one_persist_segment, read_segment in Hx. by rewrite E, Hfile in Hx.
    + left. eexists. split; [|by apply (repointed_elsewhere uri msize total inputs seal)].
      by do 2 apply list_elem_of_fmap_2.
  - intros u w Hw. rewrite delete_set_insert. case_decide; [by right|by left].
Qed.

Lemma compact_effect k a b cap te st now uri :
  store_wf st → fresh_uri st uri →
  effect st (compact_one_scope batch_of iter_order k a b cap te st now uri).1 now.
Proof using Hbatch Hiter.
  intros Hwf Hfresh. pose proof (compact_one_scope_cases k a b cap te st now uri Hwf Hfresh) as Hcase. cbv zeta in Hcase.
  set (rows := enumerate_unsealed_persist_segments_for_scope _ _ _ _) in *.
  destruct (plan_wave_projected _ _ _ _) as [p|] eqn:Hp; [|rewrite Hcase; by apply effect_refl].
  apply (plan_wave_ok iter_order Hiter) in Hp. destruct (input_indices p) as [|i0 il] eqn:Ei.
  { rewrite Hcase. by apply seal_effect. }
  destruct te; [|rewrite Hcase; by apply effect_refl].
  destruct Hcase as (contents & msize & Hc & ->). rewrite <- Ei in *. apply merge_effect; try done.
  - apply pick_nodup; [|apply enumerate_nodup, Hwf]. by destruct (NoDup_app (input_indices p) (seal_indices p)) as [[? _] _]; [apply Hp|].
  - intros m (i & _ & Hi)%pick_elem. apply list_elem_of_lookup_2 in Hi. by apply enumerate_elem in Hi as [? _].
Qed.

Lemma effect_trans st st1 st2 now : effect st st1 now → effect st1 st2 now → effect st st2 now.
Proof using.
  intros [_ L1 F1 N1 Q1] [W2 L2 F2 N2 Q2]. split; [done|..].
  - intros k. by rewrite L2.
  - intros u Hu. rewrite <- (F1 u Hu). apply F2. by rewrite (F1 u Hu).
  - intros u [Hu|Hu]%N1; [by apply N2|]. apply Q2 in Hu. tauto.
  - intros u w [Hu|Hu]%Q1; apply Q2 in Hu; tauto.
Qed.

Lemma compact_fresh k a b cap te st now uri u :
  store_wf st → fresh_uri st uri → fresh_uri st u → u ≠ uri →
  fresh_uri (compact_one_scope batch_of iter_order k a b cap te st now uri).1 u.
Proof using Hbatch.
  intros Hwf Hfresh Hu Hne. pose proof (compact_one_scope_cases k a b cap te st now uri Hwf Hfresh) as Hcase. cbv zeta in Hcase.
  destruct (plan_wave_projected _ _ _ _) as [p|]; [|by rewrite Hcase].
  destruct (input_indices p); [by rewrite Hcase|]. destruct te; [|by rewrite Hcase].
  destruct Hcase as (contents & msize & _ & ->). destruct Hu. split; cbn; by rewrite !lookup_insert_ne.
Qed.

Lemma compact_scopes_effect a b cap te now (merged_uri : LogKind → Z) scopes :
  NoDup scopes → ∀ st, store_wf st → (∀ k, k ∈ scopes → fresh_uri st (merged_uri k)) →
  (∀ k k', k ∈ scopes → k' ∈ scopes → merged_uri k = merged_uri k' → k = k') →
  effect st (compact_scopes batch_of iter_order scopes a b cap te st now merged_uri).1 now.
Proof using Hbatch Hiter.
  induction 1 as [|k ks Hk Hks IH]; intros st Hwf Hfr Hinj; cbn [compact_scopes]; [by apply effect_refl|].
  assert (fresh_uri st (merged_uri k)) as Hfk by (apply Hfr; by left).
  pose proof (compact_effect k a b cap te st now (merged_uri k) Hwf Hfk) as He.
  assert (∀ k', k' ∈ ks → fresh_uri (compact_one_scope batch_of iter_order k a b cap te st now (merged_uri k)).1 (merged_uri k')) as Hfr'.
  { intros k' Hk'. apply compact_fresh; [done|done|apply Hfr; by right|]. intros E. apply Hk.
    rewrite (Hinj k k'); [done|by left|by right|done]. }
  destruct (compact_one_scope _ _ k _ _ _ _ _ _ _) as [st1 [o|e]]; [|exact He]. simpl in He, Hfr'.
  specialize (IH st1 (ef_wf _ _ _ He) Hfr' ltac:(intros ? ? ? ?; apply Hinj; by right)).
  destruct (compact_scopes _ _ ks _ _ _ _ _ _ _) as [st2 [o2|e2]]; by eapply effect_trans.
Qed.
End effects.

Lemma merge_two_size (U U' : gset Z) a b c :
  a ∈ U → b ∈ U → a ≠ b → (∀ u, u ∈ U' → u = c ∨ (u ∈ U ∧ u ≠ a ∧ u ≠ b)) → (size U' < size U)%nat.
Proof.
  intros Ha Hb Hab H.
  assert (U' ⊆ {[c]} ∪ U ∖ {[a; b]}) as Hsub%subseteq_size.
  { intros u Hu. destruct (H u Hu) as [->|(? & ? & ?)]; set_solver. }
  assert (size ({[c]} ∪ U ∖ {[a; b]}) ≤ 1 + size (U ∖ {[a; b]}))%nat.
  { rewrite size_union_alt, size_singleton. apply le_n_S, subseteq_size. set_solver. }
  assert (size (U ∖ {[a; b]}) = size U - size ({[a; b]} : gset Z))%nat by (apply size_difference; set_solver).
  assert (size ({[a; b]} : gset Z) = 2)%nat as E by (rewrite size_union, !size_singleton by set_solver; done).
  assert (2 ≤ size U)%nat by (rewrite <- E; apply subseteq_size; set_solver). lia.
Qed.

(** ** A wave over a whole scope *)

Section drain.
Context {A : Type} (batch_of : LogKind → ColdBatch A) (iter_order : list Z → list Z) (k : LogKind) (cap : Z).
Context (Hbatch : ∀ k, ColdBatchLaws (batch_of k)) (Hiter : ∀ l, iter_order l ≡ₚ l).
Implicit Types (st : cold_store A).

(** The unsealed rows of the scope, no window. *)
Definition unsealed st : list seg_row :=
  enumerate_unsealed_persist_segments_for_scope (cs_segments st) k None None.

Definition unsealed_uris st : gset Z := list_to_set (object_uri <$> unsealed st).

(** The active+sealed invariant of a scope. *)
Definition scope_ok st : Prop := one_active (object_uri <$> unsealed st).

Lemma unsealed_uris_elem st u : u ∈ unsealed_uris st ↔ ∃ r, r ∈ unsealed st ∧ object_uri r = u.
Proof using.
  unfold unsealed_uris. rewrite elem_of_list_to_set, list_elem_of_fmap. split; intros (r & ? & ?); exists r; by split.
Qed.

Lemma shared_rows st u : store_wf st →
  (1 < uri_count (object_uri <$> unsealed st) u)%nat →
  ∃ r1 r2, r1 ∈ unsealed st ∧ r2 ∈ unsealed st ∧ sr_uuid r1 ≠ sr_uuid r2 ∧ object_uri r1 = u ∧ object_uri r2 = u.
Proof using.
  intros Hwf Hc. rewrite <- positions_length in Hc.
  destruct (positions (object_uri <$> unsealed st) u) as [|i [|j l]] eqn:E; [simpl in Hc; lia..|].
  assert (NoDup (i :: j :: l)) as Hnd by (rewrite <- E; apply positions_nodup).
  assert ((object_uri <$> unsealed st) !! i = Some u ∧ (object_uri <$> unsealed st) !! j = Some u) as [Hi Hj].
  { split; apply positions_elem; rewrite E; [by left|right; by left]. }
  rewrite list_lookup_fmap_Some in Hi. rewrite list_lookup_fmap_Some in Hj.
  destruct Hi as (r1 & Hu1 & Hr1), Hj as (r2 & Hu2 & Hr2). exists r1, r2.
  split_and!; [by eapply list_elem_of_lookup_2|by eapply list_elem_of_lookup_2| |done|done].
  intros Eq. apply NoDup_cons in Hnd as [Hij _]. apply Hij. replace i with j; [by left|].
  apply (NoDup_lookup (sr_uuid <$> unsealed st) j i (sr_uuid r1)); [apply enumerate_nodup, Hwf| |].
  - by rewrite list_lookup_fmap, Hr2, Eq.
  - by rewrite list_lookup_fmap, Hr1.
Qed.

(** The scope after rows [uuid ∈ seal] were sealed and the rest moved by [f]. *)
Lemma unsealed_after st st' (f : seg_row → seg_row) (seal : list Z) :
  cs_segments st' = f <$> cs_segments st →
  (∀ r, r ∈ cs_segments st →
     sr_log_kind (f r) = sr_log_kind r ∧ sr_commit_micros (f r) = sr_commit_micros r ∧
     is_sealed (f r) = is_sealed r || bool_decide (sr_uuid r ∈ seal)) →
  ∀ r', r' ∈ unsealed st' ↔ ∃ r, r ∈ unsealed st ∧ r' = f r ∧ sr_uuid r ∉ seal.
Proof using.
  intros Hs Hf r'. unfold unsealed. rewrite enumerate_elem, Hs, list_elem_of_fmap. setoid_rewrite enumerate_elem.
  assert (∀ r, r ∈ cs_segments st →
    unsealed_in_window k None None (f r) = true ↔ unsealed_in_window k None None r = true ∧ sr_uuid r ∉ seal) as Hu.
  { intros r Hr. destruct (Hf r Hr) as (Hk & Hc & Hse). unfold unsealed_in_window. rewrite Hk, Hc, Hse.
    rewrite <- (bool_decide_eq_false (sr_uuid r ∈ seal)).
    destruct (bool_decide (sr_log_kind r = k)), (is_sealed r), (bool_decide (sr_uuid r ∈ seal)); simpl; intuition congruence. }
  split.
  - intros [(r & -> & Hr) H]. apply (Hu r Hr) in H as [? ?]. by exists r.
  - intros (r & [Hr H] & -> & Hn). split; [by exists r|]. by apply Hu.
Qed.

(** ** The plan's rows *)

Section planned.
Context (E : list seg_row) (sizes : list Z) (p : WavePlan).
Context (Hok : wave_ok (object_uri <$> E) sizes cap p) (Hone : one_active (object_uri <$> E)).

Lemma lookup_uri i r : E !! i = Some r → (object_uri <$> E) !! i = Some (object_uri r).
Proof using. intros H. by rewrite list_lookup_fmap, H. Qed.

Lemma whole_rows r1 r2 : r2 ∈ E → object_uri r1 = object_uri r2 →
  (r1 ∈ pick E (input_indices p) → r2 ∈ pick E (input_indices p)) ∧
  (r1 ∈ pick E (seal_indices p) → r2 ∈ pick E (seal_indices p)).
Proof using Hok Hone.
  intros [j Hj]%list_elem_of_lookup Hu. rewrite !pick_elem.
  split; intros (i & Hin & Hi); exists j; (split; [|done]);
    apply (wo_whole _ _ _ _ Hok Hone i j); try done;
    try (rewrite length_fmap; by eapply lookup_lt_Some); rewrite (lookup_uri _ _ Hi), (lookup_uri _ _ Hj); congruence.
Qed.

Lemma active_rows r1 r2 : r1 ∈ E → r2 ∈ E → r1 ≠ r2 → object_uri r1 = object_uri r2 →
  r1 ∈ pick E (input_indices p) ∨ r1 ∈ pick E (seal_indices p).
Proof using Hok Hone.
  intros [i Hi]%list_elem_of_lookup [j Hj]%list_elem_of_lookup Hne Hu.
  assert (i ∈ input_indices p ++ seal_indices p) as [?|?]%elem_of_app.
  { apply (wo_active _ _ _ _ Hok i j (object_uri r1)); [done|intros ->; congruence|by apply lookup_uri|].
    rewrite Hu. by apply lookup_uri. }
  - left. apply pick_elem. eauto.
  - right. apply pick_elem. eauto.
Qed.

Lemma merges_rows : input_indices p ≠ [] →
  ∃ r1 r2, r1 ∈ pick E (input_indices p) ∧ r2 ∈ pick E (input_indices p) ∧ object_uri r1 ≠ object_uri r2.
Proof using Hok Hone.
  intros Hne. destruct (wo_merges _ _ _ _ Hok Hone Hne) as (i & j & Hi & Hj & Hu).
  destruct (lookup_lt_is_Some_2 E i) as [r1 H1].
  { rewrite <- (length_fmap object_uri). apply (wo_range _ _ _ _ Hok), elem_of_app. by left. }
  destruct (lookup_lt_is_Some_2 E j) as [r2 H2].
  { rewrite <- (length_fmap object_uri). apply (wo_range _ _ _ _ Hok), elem_of_app. by left. }
  rewrite (lookup_uri _ _ H1), (lookup_uri _ _ H2) in Hu. exists r1, r2. rewrite !pick_elem.
  split_and!; [by exists i|by exists j|congruence].
Qed.

Lemma pick_seal_nonempty : input_indices p = [] → ∃ r, r ∈ pick E (seal_indices p).
Proof using Hok.
  intros He. destruct (wo_progress _ _ _ _ Hok) as [[_ Hs]|Hl]; [|rewrite He in Hl; simpl in Hl; lia].
  destruct (pick E (seal_indices p)) as [|r l] eqn:Ep; [|exists r; by left]. destruct (pick_nonempty E (seal_indices p) Hs); [|done].
  intros i Hi. rewrite <- (length_fmap object_uri). apply (wo_range _ _ _ _ Hok), elem_of_app. by right.
Qed.
End planned.

(** Sealing [pick E seals] and moving [pick E inputs] to the fresh [uri] keeps at
    most one shared file and leaves fewer files. *)
Lemma wave_shrinks st st' (f : seg_row → seg_row) sizes p uri :
  store_wf st → store_wf st' → scope_ok st → uri ∉ unsealed_uris st →
  wave_ok (object_uri <$> unsealed st) sizes cap p →
  cs_segments st' = f <$> cs_segments st →
  (∀ r, r ∈ cs_segments st →
     sr_uuid (f r) = sr_uuid r ∧ sr_log_kind (f r) = sr_log_kind r ∧ sr_commit_micros (f r) = sr_commit_micros r ∧
     is_sealed (f r) = is_sealed r || bool_decide (sr_uuid r ∈ sr_uuid <$> pick (unsealed st) (seal_indices p)) ∧
     (r ∈ pick (unsealed st) (input_indices p) ∧ object_uri (f r) = uri ∨
      r ∉ pick (unsealed st) (input_indices p) ∧ object_uri (f r) = object_uri r)) →
  scope_ok st' ∧ (size (unsealed_uris st') < size (unsealed_uris st))%nat.
Proof using.
  intros Hwf Hwf' Hone Huri Hok Hs Hf. set (E := unsealed st) in *.
  assert (∀ r', r' ∈ unsealed st' → ∃ r, r ∈ E ∧ r' = f r ∧ r ∉ pick E (seal_indices p) ∧
    (r ∈ pick E (input_indices p) ∧ object_uri r' = uri ∨
     r ∉ pick E (input_indices p) ∧ object_uri r' = object_uri r)) as Hafter.
  { intros r' Hr'. apply (unsealed_after st st' f (sr_uuid <$> pick E (seal_indices p))) in Hr' as (r & Hr & -> & Hn);
      [|done|intros r Hr; by destruct (Hf r Hr) as (_ & ? & ? & ? & _)].
    exists r. split_and!; [done|done|intros Hin; apply Hn; by apply list_elem_of_fmap_2|].
    apply Hf. by apply enumerate_elem in Hr as [? _]. }
  assert (∀ u r', r' ∈ unsealed st' → object_uri r' = u → u = uri ∧ input_indices p ≠ [] ∨ u ∈ unsealed_uris st ∧
    ∀ m, m ∈ pick E (input_indices p) ∨ m ∈ pick E (seal_indices p) → object_uri m ≠ u) as Hleft.
  { intros u r' Hr' Hu. destruct (Hafter r' Hr') as (r & Hr & -> & Hns & [[Hin Ho]|[Hni Ho]]).
    - left. split; [congruence|]. intros He. rewrite He in Hin. by apply not_elem_of_nil in Hin.
    - right. split; [apply unsealed_uris_elem; exists r; split; [done|congruence]|].
      intros m Hm Hmu. destruct (whole_rows E sizes p Hok Hone m r Hr ltac:(congruence)). destruct Hm; auto. }
  split.
  - assert (∀ u, (1 < uri_count (object_uri <$> unsealed st') u)%nat → u = uri) as Hshared.
    { intros u (r1' & r2' & H1 & H2 & Hne & Hu1 & Hu2)%shared_rows; [|done].
      destruct (Hafter r1' H1) as (r1 & Hr1 & -> & Hn1 & [[_ Ho1]|[Hi1 Ho1]]); [congruence|].
      destruct (Hafter r2' H2) as (r2 & Hr2 & -> & Hn2 & [[_ Ho2]|[Hi2 Ho2]]); [congruence|].
      destruct (active_rows E sizes p Hok Hone r1 r2 Hr1 Hr2) as [?|?]; [|congruence|done|done].
      intros ->. by apply Hne. }
    intros u v Hu%Hshared Hv%Hshared. congruence.
  - destruct (decide (input_indices p = [])) as [He|Hne].
    + destruct (pick_seal_nonempty E sizes p Hok He) as [m Hm].
      assert (m ∈ E) as HmE by (apply pick_elem in Hm as (i & _ & Hi); by eapply list_elem_of_lookup_2).
      apply subset_size. split.
      * intros u (r' & Hr' & Hu)%unsealed_uris_elem. destruct (Hleft u r' Hr' Hu) as [[_ ?]|[? _]]; done.
      * intros Hsub. assert (object_uri m ∈ unsealed_uris st) as Hin by (apply unsealed_uris_elem; by exists m).
        apply Hsub, unsealed_uris_elem in Hin as (r' & Hr' & Hu).
        destruct (Hleft _ r' Hr' Hu) as [[_ ?]|[_ H]]; [done|]. by apply (H m); [right|].
    + destruct (merges_rows E sizes p Hok Hone Hne) as (r1 & r2 & H1 & H2 & Hd).
      assert (∀ r, r ∈ pick E (input_indices p) → object_uri r ∈ unsealed_uris st) as Hin.
      { intros r (i & _ & Hi)%pick_elem. apply unsealed_uris_elem. exists r. split; [by eapply list_elem_of_lookup_2|done]. }
      apply (merge_two_size _ _ (object_uri r1) (object_uri r2) uri); [by apply Hin|by apply Hin|done|].
      intros u (r' & Hr' & Hu)%unsealed_uris_elem. destruct (Hleft u r' Hr' Hu) as [[-> _]|[Hu' H]]; [by left|right].
      split_and!; [done|intros ->; by apply (H r1); [left|]|intros ->; by apply (H r2); [left|]].
Qed.

Lemma repoint_one_meta uri msize total inputs : ∀ cum r,
  let r' := repoint_one uri msize total cum inputs r in
  sr_uuid r' = sr_uuid r ∧ sr_log_kind r' = sr_log_kind r ∧ sr_commit_micros r' = sr_commit_micros r ∧ is_sealed r' = is_sealed r.
Proof using.
  induction inputs as [|m ms IH]; intros cum r; cbn [repoint_one]; [done|].
  destruct (IH (cum + row_count m) (repoint_row (sr_uuid m) uri cum (row_count m)
    (if 0 <? total then Z.quot (wrap_i64 (msize * row_count m)) total else 0) r)) as (-> & -> & -> & ->).
  unfold repoint_row. by case_decide.
Qed.

Lemma seal_row_meta seal r :
  sr_uuid (seal_row seal r) = sr_uuid r ∧ sr_log_kind (seal_row seal r) = sr_log_kind r ∧
  sr_commit_micros (seal_row seal r) = sr_commit_micros r ∧ object_uri (seal_row seal r) = object_uri r ∧
  is_sealed (seal_row seal r) = is_sealed r || bool_decide (sr_uuid r ∈ seal).
Proof using.
  unfold seal_row. case_decide; simpl; split_and!; try done.
  - by rewrite bool_decide_true, orb_true_r.
  - by rewrite bool_decide_false, orb_false_r.
Qed.

Lemma moved_row_meta st uri msize total inputs seal r :
  store_wf st → NoDup (sr_uuid <$> inputs) → (∀ m, m ∈ inputs → m ∈ cs_segments st) → r ∈ cs_segments st →
  let r' := seal_row seal (repoint_one uri msize total 0 inputs r) in
  sr_uuid r' = sr_uuid r ∧ sr_log_kind r' = sr_log_kind r ∧ sr_commit_micros r' = sr_commit_micros r ∧
  is_sealed r' = is_sealed r || bool_decide (sr_uuid r ∈ seal) ∧
  (r ∈ inputs ∧ object_uri r' = uri ∨ r ∉ inputs ∧ object_uri r' = object_uri r).
Proof using.
  intros Hwf Hnd Hsub Hr. cbv zeta.
  destruct (seal_row_meta seal (repoint_one uri msize total 0 inputs r)) as (-> & -> & -> & -> & ->).
  destruct (repoint_one_meta uri msize total inputs 0 r) as (-> & -> & -> & ->). split_and!; [done..|].
  destruct (decide (sr_uuid r ∈ sr_uuid <$> inputs)) as [Hin|Hout].
  - left. apply list_elem_of_fmap in Hin as (m & Hu & Hm).
    assert (r = m) as -> by (apply (NoDup_fmap_eq sr_uuid (cs_segments st)); [apply Hwf|done|by apply Hsub|done]).
    split; [done|]. apply list_elem_of_lookup in Hm as [j Hj].
    destruct (repoint_one_in uri msize total inputs 0 j m Hnd Hj) as [s ->]. unfold repoint_row. by rewrite decide_True.
  - right. split; [|by rewrite repoint_one_out]. intros Hin. apply Hout. by apply list_elem_of_fmap_2.
Qed.

(** The wave's plan over the scope. *)
Definition scope_plan st : option WavePlan :=
  plan_wave_projected iter_order (object_uri <$> unsealed st) (default 0 ∘ size_bytes <$> unsealed st) cap.

Lemma wave_progress st now uri :
  store_wf st → scope_ok st → fresh_uri st uri →
  let st' := (compact_one_scope batch_of iter_order k None None cap true st now uri).1 in
  scope_ok st' ∧
  (if scope_plan st then (size (unsealed_uris st') < size (unsealed_uris st))%nat else st' = st).
Proof using Hbatch Hiter.
  intros Hwf Hone Hfresh. cbv zeta.
  pose proof (ef_wf _ _ _ (compact_effect batch_of iter_order Hbatch Hiter k None None cap true st now uri Hwf Hfresh)) as Hwf'.
  pose proof (compact_one_scope_cases batch_of iter_order Hbatch k None None cap true st now uri Hwf Hfresh) as Hcase.
  cbv zeta in Hcase. fold (unsealed st) in Hcase. fold (scope_plan st) in Hcase.
  destruct (scope_plan st) as [p|] eqn:Hp; [|by rewrite Hcase].
  apply (plan_wave_ok iter_order Hiter) in Hp.
  assert (uri ∉ unsealed_uris st) as Huri.
  { intros (r & [Hr _]%enumerate_elem & <-)%unsealed_uris_elem. destruct Hfresh as [Hn _].
    destruct (sw_read _ Hwf r Hr) as (x & Hx & _). unfold read_one_persist_segment, read_segment in Hx. by rewrite Hn in Hx. }
  destruct (input_indices p) as [|i0 il] eqn:Ei.
  - rewrite Hcase in *. apply (wave_shrinks st _ _ (default 0 ∘ size_bytes <$> unsealed st) p uri Hwf Hwf' Hone Huri Hp eq_refl).
    intros r _. destruct (seal_row_meta (sr_uuid <$> pick (unsealed st) (seal_indices p)) r) as (-> & -> & -> & -> & ->).
    split_and!; [done..|]. right. split; [|done]. rewrite Ei. apply not_elem_of_nil.
  - destruct Hcase as (contents & msize & _ & Hrun). rewrite Hrun in *. rewrite <- Ei in *.
    apply (wave_shrinks st _ (seal_row (sr_uuid <$> pick (unsealed st) (seal_indices p)) ∘
      repoint_one uri msize (rows_total (pick (unsealed st) (input_indices p))) 0 (pick (unsealed st) (input_indices p)))
      (default 0 ∘ size_bytes <$> unsealed st) p uri Hwf Hwf' Hone Huri Hp).
    + unfold merged_store. cbn [fst cs_segments]. by rewrite <- list_fmap_compose.
    + intros r Hr. apply (moved_row_meta st); [done| | |done].
      * apply pick_nodup; [|apply enumerate_nodup, Hwf]. by destruct (NoDup_app (input_indices p) (seal_indices p)) as [[? _] _]; [apply Hp|].
      * intros m (i & _ & Hi)%pick_elem. apply list_elem_of_lookup_2 in Hi. by apply enumerate_elem in Hi as [? _].
Qed.
End drain.
