(* ===== verification/ColdTheorems.v ===== *)
(** * Compaction and sweep are safe

    Any interleaving of compaction cycles, sweeps and reference changes
    elsewhere in the catalog keeps every segment's rows, a plan made before it
    stays readable for the query timeout, and waves drain a scope. *)

From S2P Require Import Prelude CoreTypes ReadSnapshot MergeSql Plan IndexSelect Chunker Lifecycle SystemTheorems CompactPlan ColdStore ColdLemmas.
From stdpp Require Import base numbers list option sets gmap sorting.

Open Scope Z_scope.

Section sweep.
Context {A : Type}.
Implicit Types (st : cold_store A).

Lemma sweep_files (deletable : Z → bool) us : ∀ st,
  let st' := foldl (sweep_file deletable) st us in
  cs_segments st' = cs_segments st ∧ cs_refs st' = cs_refs st ∧
  ∀ u, (cs_files st' !! u = cs_files st !! u ∧ cs_delete_set st' !! u = cs_delete_set st !! u) ∨ u ∈ us.
Proof.
  induction us as [|v us IH]; intros st; cbn [foldl]; [by split_and!; [..|left]|].
  destruct (IH (sweep_file deletable st v)) as (H1 & H2 & H3).
  assert (cs_segments (sweep_file deletable st v) = cs_segments st ∧ cs_refs (sweep_file deletable st v) = cs_refs st) as [E1 E2]
    by (unfold sweep_file; by destruct (deletable v)).
  split_and!; [by rewrite H1|by rewrite H2|]. intros u. destruct (decide (u = v)) as [->|Hne]; [right; by left|].
  destruct (H3 u) as [[-> ->]|Hin]; [|right; by right]. left. unfold sweep_file.
  destruct (deletable v); [|done]. cbn. by rewrite !lookup_delete_ne.
Qed.

Lemma referenced_named st u : named st u → segment_delete_set_referenced false st u = true.
Proof.
  intros (r & Hr & Hu). unfold segment_delete_set_referenced. apply orb_true_iff. left. apply bool_decide_eq_true, Exists_exists.
  exists r. by split_and!.
Qed.

Lemma reap_queue st now timeout u w : 0 ≤ timeout ≤ I64_MAX →
  cs_delete_set st !! u = Some w →
  cs_delete_set (reap_referenced_segment_delete_set_rows st now timeout) !! u = Some w ∨ w < now - timeout.
Proof.
  intros Ht Hw. cbn.
  destruct (decide (w < now - clamp_i64 (timeout * REAP_GRACE_MULTIPLE))) as [Hlt|Hge].
  - right. unfold REAP_GRACE_MULTIPLE, clamp_i64, I64_MIN in Hlt. lia.
  - left. apply map_lookup_filter_Some. split; [done|]. simpl. by intros [? _].
Qed.

Lemma reap_queue_inv st now timeout u w :
  cs_delete_set (reap_referenced_segment_delete_set_rows st now timeout) !! u = Some w → cs_delete_set st !! u = Some w.
Proof. cbn. by intros [? _]%map_lookup_filter_Some. Qed.

(** A sweep removes only files no row names and that have been queued longer
    than the query timeout; queue entries within it stay. *)
Lemma sweep_spec deletable st now timeout : 0 ≤ timeout ≤ I64_MAX →
  let st' := sweep_segments deletable st now timeout in
  cs_segments st' = cs_segments st ∧
  (∀ u, cs_files st' !! u = cs_files st !! u ∨
    (¬ named st u ∧ ∃ w, cs_delete_set st !! u = Some w ∧ w < now - timeout)) ∧
  (∀ u w, cs_delete_set st !! u = Some w → cs_delete_set st' !! u = Some w ∨ w < now - timeout).
Proof.
  intros Ht. cbv zeta. unfold sweep_segments.
  set (st1 := reap_referenced_segment_delete_set_rows st now timeout).
  destruct (sweep_files deletable (eligible_segment_delete_set_rows st1 now timeout) st1) as (H1 & _ & H3).
  assert (∀ u, u ∈ eligible_segment_delete_set_rows st1 now timeout →
    ¬ named st u ∧ ∃ w, cs_delete_set st !! u = Some w ∧ w < now - timeout) as Hel.
  { intros u ([v w] & -> & [[Hw Href] Hin%elem_of_map_to_list]%list_elem_of_filter)%list_elem_of_fmap. simpl in *.
    split; [|exists w; split; [by apply (reap_queue_inv st now timeout)|done]].
    intros Hn. assert (named st1 v) as Hn1%referenced_named by done. by rewrite Hn1 in Href. }
  split_and!; [done|..].
  - intros u. destruct (H3 u) as [[-> _]|Hin]; [by left|right; by apply Hel].
  - intros u w Hw. destruct (H3 u) as [[_ ->]|Hin]; [by apply reap_queue|right].
    destruct (Hel u Hin) as (_ & w' & Hw' & ?). by simplify_eq.
Qed.
End sweep.

(** ** Steps *)

Section steps.
Context {A : Type} (batch_of : LogKind → ColdBatch A) (iter_order : list Z → list Z) (query_timeout : Z).

(** The rest of the catalog: other rows come and go, what they release is queued. *)
Definition others (st : cold_store A) (now : Z) (refs : list (Z * option Z)) (released : list Z) : cold_store A :=
  {| cs_segments := cs_segments st; cs_files := cs_files st; cs_compacts := cs_compacts st;
     cs_delete_set := insert_segment_delete_set_rows now released (cs_delete_set st); cs_refs := refs |}.

(** A compaction cycle draws an unused file name per log kind. *)
Inductive cold_step : cold_store A * Z → cold_store A * Z → Prop :=
  | StepCompact st t now min_at max_at cap te merged_uri :
      t ≤ now → (∀ k, fresh_uri st (merged_uri k)) → merged_uri UpsertLog ≠ merged_uri DeleteLog →
      cold_step (st, t) ((compact_persist_segments batch_of iter_order min_at max_at cap te st now merged_uri).1, now)
  | StepSweep st t now deletable :
      t ≤ now → cold_step (st, t) (sweep_segments deletable st now query_timeout, now)
  | StepOthers st t now refs released :
      t ≤ now → cold_step (st, t) (others st now refs released, now).

Context (Hbatch : ∀ k, ColdBatchLaws (batch_of k)) (Hiter : ∀ l, iter_order l ≡ₚ l).
Context (Htimeout : 0 ≤ query_timeout ≤ I64_MAX).

Lemma compact_cycle_effect min_at max_at cap te st now merged_uri :
  store_wf st → (∀ k, fresh_uri st (merged_uri k)) → merged_uri UpsertLog ≠ merged_uri DeleteLog →
  effect st (compact_persist_segments batch_of iter_order min_at max_at cap te st now merged_uri).1 now.
Proof using Hbatch Hiter.
  intros Hwf Hfr Hne. unfold compact_persist_segments. apply compact_scopes_effect; [done|done| |done|by intros ? _|].
  - unfold list_unsealed_persist_scopes_on_table. apply NoDup_filter, NoDup_cons_2; [by rewrite list_elem_of_singleton|apply NoDup_singleton].
  - intros [] [] _ _ E; [done|by apply Hne in E|by symmetry in E; apply Hne in E|done].
Qed.

Lemma cold_step_keeps x y : cold_step x y → store_wf x.1 →
  x.2 ≤ y.2 ∧ store_wf y.1 ∧ ∀ k, logical_segments y.1 k = logical_segments x.1 k.
Proof using Hbatch Hiter Htimeout.
  destruct 1 as [st t now a b cap te mu Ht Hfr Hne|st t now del Ht|st t now refs rel Ht]; intros Hwf; (split; [done|]); simpl.
  - destruct (compact_cycle_effect a b cap te st now mu Hwf Hfr Hne). done.
  - destruct (sweep_spec del st now query_timeout Htimeout) as (Hs & Hf & _).
    apply kept_store; [done| |done]. intros r Hr. destruct (Hf (object_uri r)) as [?|[Hn _]]; [done|].
    destruct Hn. by exists r.
  - by apply kept_store.
Qed.

(** A planned file at time [t]: unchanged, and still named or queued since. *)
Definition pinned (st0 : cold_store A) (t : Z) (x : cold_store A * Z) : Prop :=
  t ≤ x.2 ∧ store_wf x.1 ∧ ∀ u, named st0 u →
    cs_files x.1 !! u = cs_files st0 !! u ∧
    (named x.1 u ∨ ∃ w, cs_delete_set x.1 !! u = Some w ∧ t ≤ w).

Lemma wf_named (st : cold_store A) u : store_wf st → named st u → is_Some (cs_files st !! u).
Proof using.
  intros Hwf (r & Hr & <-). destruct (sw_read _ Hwf r Hr) as (rows & Hrows & _).
  unfold read_one_persist_segment, read_segment in Hrows. destruct (cs_files st !! object_uri r); [done|discriminate].
Qed.

Lemma pinned_step st0 t x y : store_wf st0 → cold_step x y → y.2 ≤ t + query_timeout → pinned st0 t x → pinned st0 t y.
Proof using Hbatch Hiter Htimeout.
  intros Hwf0 Hst Hend (Ht & Hwf & Hp). destruct (cold_step_keeps x y Hst Hwf) as (Hle & Hwfy & _).
  split_and!; [lia|done|]. intros u Hu. destruct (Hp u Hu) as [Hf Hpin].
  destruct Hst as [st t1 now a b cap te mu Hle1 Hfr Hne|st t1 now del Hle1|st t1 now refs rel Hle1]; simpl in *.
  - destruct (compact_cycle_effect a b cap te st now mu Hwf Hfr Hne) as [_ _ F N Q]. split.
    + rewrite F; [done|]. rewrite Hf. by apply wf_named.
    + destruct Hpin as [Hn|(w & Hw & Hge)].
      * destruct (N u Hn); [by left|right]. exists now. split; [done|lia].
      * right. destruct (Q u w Hw); [by exists w|exists now]. split; [done|lia].
  - destruct (sweep_spec del st now query_timeout Htimeout) as (Hs & F & Q). split.
    + destruct (F u) as [->|(Hn & w & Hw & Hlt)]; [done|]. destruct Hpin as [?|(w' & Hw' & ?)]; [done|].
      simplify_eq. lia.
    + destruct Hpin as [(r & Hr & <-)|(w & Hw & Hge)]; [left; exists r; by rewrite Hs|right].
      destruct (Q u w Hw) as [?|?]; [by exists w|lia].
  - split; [done|]. destruct Hpin as [Hn|(w & Hw & Hge)]; [by left|right]. rewrite delete_set_insert.
    case_decide; [exists now; split; [done|lia]|by exists w].
Qed.

Lemma cold_steps_clock x y : rtc cold_step x y → x.2 ≤ y.2.
Proof using. induction 1 as [|x y z Hxy _ IH]; [lia|]. destruct Hxy; simpl in *; lia. Qed.

Lemma cold_steps_keep x y : rtc cold_step x y → store_wf x.1 →
  store_wf y.1 ∧ ∀ k, logical_segments y.1 k = logical_segments x.1 k.
Proof using Hbatch Hiter Htimeout.
  induction 1 as [|x y z Hxy _ IH]; intros Hwf; [done|].
  destruct (cold_step_keeps x y Hxy Hwf) as (_ & Hwfy & Hl). destruct (IH Hwfy) as [? Hl'].
  split; [done|]. intros k. by rewrite Hl'.
Qed.

Lemma cold_steps_pinned st0 t x y : store_wf st0 → rtc cold_step x y → y.2 ≤ t + query_timeout →
  pinned st0 t x → pinned st0 t y.
Proof using Hbatch Hiter Htimeout.
  intros Hwf. induction 1 as [|x y z Hxy Hyz IH]; intros Hend Hp; [done|].
  apply IH; [done|]. eapply pinned_step; [done|exact Hxy| |done]. pose proof (cold_steps_clock _ _ Hyz). lia.
Qed.
End steps.

(** ** Draining a scope *)

Section drain.
Context {A : Type} (batch_of : LogKind → ColdBatch A) (iter_order : list Z → list Z) (k : LogKind) (cap : Z).
Context (Hbatch : ∀ k, ColdBatchLaws (batch_of k)) (Hiter : ∀ l, iter_order l ≡ₚ l).

(** [n] waves over the scope, each with the next file name. *)
Fixpoint waves (n : nat) (now : Z) (names : nat → Z) (st : cold_store A) : cold_store A :=
  match n with
  | O => st
  | S n' => waves n' now (λ i, names (S i)) (compact_one_scope batch_of iter_order k None None cap true st now (names O)).1
  end.

(** The scope is drained: one file, and a lone segment is within the cap. *)
Definition drained (st : cold_store A) : Prop :=
  (∀ r1 r2, r1 ∈ unsealed k st → r2 ∈ unsealed k st → object_uri r1 = object_uri r2) ∧
  (∀ r, unsealed k st = [r] → default 0 (size_bytes r) ≤ cap).

Lemma idle_drained st : scope_plan iter_order k cap st = None → drained st.
Proof using Hiter.
  unfold scope_plan. rewrite (plan_wave_none iter_order Hiter), (uncompacted_nil iter_order Hiter).
  intros [[E%fmap_nil_inv|[Hlen Hall]]|(Ha & i & E & Hle)]; split.
  - rewrite E. by intros r1 r2 ?%not_elem_of_nil.
  - rewrite E. done.
  - intros r1 r2 H1 H2. apply Hall; by apply list_elem_of_fmap_2.
  - intros r Er. rewrite Er in Hlen. simpl in Hlen. lia.
  - destruct (uncompacted_single _ _ _ Ha E) as [_ Hl]. rewrite length_fmap in Hl.
    destruct (unsealed k st) as [|r [|]]; [done| |done]. by intros ? ? ->%list_elem_of_singleton ->%list_elem_of_singleton.
  - intros r Er. destruct (uncompacted_single _ _ _ Ha E) as [-> _]. rewrite Er in Hle. exact Hle.
Qed.

Lemma waves_idle n : ∀ now names st, scope_plan iter_order k cap st = None → waves n now names st = st.
Proof using.
  induction n as [|n IH]; intros now names st Hp; cbn [waves]; [done|].
  assert ((compact_one_scope batch_of iter_order k None None cap true st now (names O)).1 = st) as ->; [|by apply IH].
  unfold compact_one_scope. unfold scope_plan, unsealed in Hp. by rewrite Hp.
Qed.

Lemma waves_drain n : ∀ now (names : nat → Z) (st : cold_store A),
  store_wf st → scope_ok k st → (∀ i, fresh_uri st (names i)) → (∀ i j, names i = names j → i = j) →
  (size (unsealed_uris k st) ≤ n)%nat →
  let st' := waves n now names st in
  drained st' ∧ store_wf st' ∧ ∀ k', logical_segments st' k' = logical_segments st k'.
Proof using Hbatch Hiter.
  induction n as [|n IH]; intros now names st Hwf Hone Hfr Hinj Hsz; cbn [waves].
  - split; [|done]. apply idle_drained. assert (unsealed k st = []) as E.
    { destruct (unsealed k st) as [|r l] eqn:E; [done|]. assert (object_uri r ∈ unsealed_uris k st) as Hin.
      { apply unsealed_uris_elem. exists r. split; [rewrite E; by left|done]. }
      apply Nat.le_0_r, size_empty_inv in Hsz. by apply Hsz, not_elem_of_empty in Hin. }
    unfold scope_plan. by rewrite E.
  - destruct (wave_progress batch_of iter_order k cap Hbatch Hiter st now (names O) Hwf Hone (Hfr O)) as [Hone' Hp].
    pose proof (compact_effect batch_of iter_order Hbatch Hiter k None None cap true st now (names O) Hwf (Hfr O)) as [Hwf' Hl _ _ _].
    assert (∀ i, fresh_uri (compact_one_scope batch_of iter_order k None None cap true st now (names O)).1 (names (S i))) as Hfr'.
    { intros i. apply compact_fresh; [done|done|done|done|]. by intros ?%Hinj. }
    assert (∀ i j, names (S i) = names (S j) → i = j) as Hinj' by (intros i j ?%Hinj; lia).
    destruct (scope_plan iter_order k cap st) eqn:Eplan.
    + destruct (IH now (λ i, names (S i)) _ Hwf' Hone' Hfr' Hinj' ltac:(lia)) as (H1 & H2 & H3).
      split_and!; [done|done|]. intros k'. by rewrite H3.
    + rewrite Hp, waves_idle by done. split; [by apply idle_drained|done].
Qed.
End drain.

(** ** A concrete scope *)

Module ColdDemo.

Definition batches (k : LogKind) : ColdBatch Z := Demo.cold_Z.
Lemma batches_laws k : ColdBatchLaws (batches k).
Proof. exact Demo.cold_Z_laws. Qed.

Definition version (r seq : Z) : src_row Z :=
  {| row_uuid := r; commit_micros := seq * 10; commit_seq_num := seq; write_seq_num := seq; cols := r * 100 |}.

Definition segment (i size : Z) : seg_row :=
  {| sr_uuid := i; sr_table_persist_uuid := 0; sr_log_kind := UpsertLog; sr_chunk_idx := 0;
     sr_min_tx_commit_micros := i * 10; sr_max_tx_commit_micros := i * 10;
     sr_min_commit_seq_num := i; sr_max_commit_seq_num := i; object_uri := i;
     sr_offset := None; sr_length := None; row_count := 1; size_bytes := Some size;
     is_sealed := false; sr_commit_micros := Some (i * 10 + 5) |}.

(** Four one-row segments in files of their own; file 9 is queued and named by
    nothing. *)
Definition store : cold_store Z :=
  {| cs_segments := [segment 1 30; segment 2 30; segment 3 30; segment 4 90];
     cs_files := {[1 := [version 1 1]; 2 := [version 2 2]; 3 := [version 3 3]; 4 := [version 4 4]; 9 := []]};
     cs_compacts := ∅; cs_delete_set := {[9 := 0]}; cs_refs := [] |}.

Lemma store_ok : store_wf store.
Proof.
  split; [by apply (bool_decide_unpack _); vm_compute|].
  apply Forall_forall. repeat constructor; eexists; (split; [vm_compute; reflexivity|done]).
Qed.

Definition names (i : nat) : Z := 100 + Z.of_nat i.

Lemma names_fresh i : fresh_uri store (names i).
Proof.
  split; [|done]. unfold names, store. cbn [cs_files].
  do 4 (rewrite lookup_insert_ne by lia). apply lookup_singleton_ne. lia.
Qed.

(** A decision procedure for [one_active]. *)
Definition one_activeb (uris : list Z) : bool :=
  forallb (λ u, forallb (λ v, negb (1 <? uri_count uris u)%nat || negb (1 <? uri_count uris v)%nat || (u =? v)) uris) uris.

Lemma one_activeb_ok uris : one_activeb uris = true → one_active uris.
Proof.
  unfold one_activeb. rewrite forallb_forall. intros H u v Hu Hv.
  assert (∀ w, (1 < uri_count uris w)%nat → In w uris) as Hin.
  { intros w Hw. unfold uri_count in Hw. destruct (filter (λ u', u' = w) uris) as [|x l] eqn:E; [simpl in Hw; lia|].
    assert (x ∈ filter (λ u', u' = w) uris) as Hx by (rewrite E; by left).
    apply list_elem_of_filter in Hx as [-> Hx]. by apply list_elem_of_In. }
  specialize (H u (Hin u Hu)). rewrite forallb_forall in H. specialize (H v (Hin v Hv)).
  apply Nat.ltb_lt in Hu, Hv. rewrite Hu, Hv in H. simpl in H. by apply Z.eqb_eq.
Qed.

(** A first unrestricted cycle, then one restricted to the persists at 35 and
    later. *)
Definition cycle (min_at : option Z) (cap now uri : Z) (st : cold_store Z) : cold_store Z :=
  (compact_persist_segments batches id min_at None cap true st now (λ k, match k with UpsertLog => uri | DeleteLog => uri + 1 end)).1.
Definition first : cold_store Z := cycle None 100 50 100 store.
Definition windowed : cold_store Z := cycle (Some 35) 200 60 200 first.
End ColdDemo.

(** C12 Cold maintenance is transparent.  Whatever compaction cycles (any window,
    any cap, whatever the hash order), sweeps (whichever file deletes succeed) and
    reference changes elsewhere in the catalog run, in whatever order, from a
    store whose rows read their files, every segment of the table still reads and
    stands for exactly the same rows, bounds and commit stamp, in the same order. *)
Theorem cold_maintenance_transparent {A} (batch_of : LogKind → ColdBatch A) (iter_order : list Z → list Z)
    (query_timeout : Z) (Hbatch : ∀ k, ColdBatchLaws (batch_of k)) (Hiter : ∀ l, iter_order l ≡ₚ l)
    (Htimeout : 0 ≤ query_timeout ≤ I64_MAX) (st st' : cold_store A) (t t' : Z)
    (Hwf : store_wf st) (Hrun : rtc (cold_step batch_of iter_order query_timeout) (st, t) (st', t')) (k : LogKind) :
  ∃ segs, logical_segments st' k = Some segs ∧ logical_segments st k = Some segs.
Proof.
  destruct (cold_steps_keep batch_of iter_order query_timeout Hbatch Hiter Htimeout _ _ Hrun Hwf) as [_ Hl].
  simpl in Hl. rewrite Hl. assert (is_Some (logical_segments st k)) as [segs ->]; [|eauto].
  unfold logical_segments. apply mapM_is_Some_2, Forall_forall. intros r [_ Hr]%list_elem_of_filter.
  destruct (sw_read _ Hwf r Hr) as (rows & Hrows & _).
  change (is_Some (logical_segment (cs_files st) r)). unfold logical_segment. rewrite Hrows. by eexists.
Qed.

Lemma cold_maintenance_transparent_witness :
  let st' := sweep_segments (λ _, true) ColdDemo.first 100 20 in
  cs_files st' !! 1 = None ∧ cs_files st' !! 9 = None ∧
  ∃ segs, logical_segments st' UpsertLog = Some segs ∧ logical_segments ColdDemo.store UpsertLog = Some segs.
Proof.
  cbv zeta. split; [vm_compute; reflexivity|]. split; [vm_compute; reflexivity|].
  apply (cold_maintenance_transparent ColdDemo.batches id 20 ColdDemo.batches_laws (λ l, Permutation_refl l)
    ltac:(unfold I64_MAX; lia) _ _ 50 100 ColdDemo.store_ok).
  eapply rtc_l; [|eapply rtc_once].
  - apply (StepCompact ColdDemo.batches id 20 _ 50 50 None None 100 true
      (λ k, match k with UpsertLog => 100 | DeleteLog => 101 end)); [lia| |done].
    intros []; [apply (ColdDemo.names_fresh 0)|apply (ColdDemo.names_fresh 1)].
  - apply (StepSweep ColdDemo.batches id 20 _ 50 100 (λ _, true)). lia.
Defined.

(** C13 A plan outlives the maintenance under it.  A reader that planned over the
    rows of a store at [t] reads from each of them, up to the query timeout
    later, exactly the rows it planned for, even when the row has since been
    re-pointed, its file queued and sweeps have run: a file a plan names is
    unlinked only once it has been queued longer than the timeout. *)
Theorem plan_outlives_maintenance {A} (batch_of : LogKind → ColdBatch A) (iter_order : list Z → list Z)
    (query_timeout : Z) (Hbatch : ∀ k, ColdBatchLaws (batch_of k)) (Hiter : ∀ l, iter_order l ≡ₚ l)
    (Htimeout : 0 ≤ query_timeout ≤ I64_MAX) (st st' : cold_store A) (t t' : Z)
    (Hwf : store_wf st) (Hrun : rtc (cold_step batch_of iter_order query_timeout) (st, t) (st', t'))
    (Hend : t' ≤ t + query_timeout) (r : seg_row) (Hr : r ∈ cs_segments st) :
  ∃ rows, read_one_persist_segment (cs_files st') r = Some rows ∧
          read_one_persist_segment (cs_files st) r = Some rows.
Proof.
  destruct (cold_steps_pinned batch_of iter_order query_timeout Hbatch Hiter Htimeout st t (st, t) (st', t') Hwf Hrun Hend)
    as (_ & _ & Hp).
  { split_and!; [simpl; lia|done|]. intros u Hu. split; [done|by left]. }
  destruct (sw_read _ Hwf r Hr) as (rows & Hrows & _). exists rows. split; [|done]. rewrite <- Hrows.
  unfold read_one_persist_segment, read_segment. simpl in Hp. destruct (Hp (object_uri r)) as [-> _]; [by exists r|done].
Qed.

Lemma plan_outlives_maintenance_witness :
  let st' := sweep_segments (λ _, true) ColdDemo.first 70 20 in
  cs_files st' !! 9 = None ∧ object_uri <$> cs_segments st' !! 0%nat = Some 100 ∧
  ∃ rows, read_one_persist_segment (cs_files st') (ColdDemo.segment 1 30) = Some rows ∧
          read_one_persist_segment (cs_files ColdDemo.store) (ColdDemo.segment 1 30) = Some rows.
Proof.
  cbv zeta. split; [vm_compute; reflexivity|]. split; [vm_compute; reflexivity|].
  apply (plan_outlives_maintenance ColdDemo.batches id 20 ColdDemo.batches_laws (λ l, Permutation_refl l)
    ltac:(unfold I64_MAX; lia) ColdDemo.store _ 50 70 ColdDemo.store_ok); [|lia|by left].
  eapply rtc_l; [|eapply rtc_once].
  - apply (StepCompact ColdDemo.batches id 20 _ 50 50 None None 100 true
      (λ k, match k with UpsertLog => 100 | DeleteLog => 101 end)); [lia| |done].
    intros []; [apply (ColdDemo.names_fresh 0)|apply (ColdDemo.names_fresh 1)].
  - apply (StepSweep ColdDemo.batches id 20 _ 50 70 (λ _, true)). lia.
Defined.

(** C30 Waves drain a scope.  From a store whose rows read their files and whose
    unsealed rows share at most one file, as many unrestricted waves as the scope
    has files leave its unsealed rows in one file (a lone segment within the
    cap), and every segment of the table as it was. *)
Theorem compact_drains {A} (batch_of : LogKind → ColdBatch A) (iter_order : list Z → list Z) (k : LogKind) (cap : Z)
    (Hbatch : ∀ k, ColdBatchLaws (batch_of k)) (Hiter : ∀ l, iter_order l ≡ₚ l)
    (n : nat) (now : Z) (names : nat → Z) (st : cold_store A)
    (Hwf : store_wf st) (Hone : scope_ok k st)
    (Hfresh : ∀ i, fresh_uri st (names i)) (Hinj : ∀ i j, names i = names j → i = j)
    (Hn : (size (unsealed_uris k st) ≤ n)%nat) :
  let st' := waves batch_of iter_order k cap n now names st in
  drained k cap st' ∧ ∀ k', logical_segments st' k' = logical_segments st k'.
Proof.
  destruct (waves_drain batch_of iter_order k cap Hbatch Hiter n now names st Hwf Hone Hfresh Hinj Hn) as (H1 & _ & H2).
  by split.
Qed.

Lemma compact_drains_witness :
  let st' := waves ColdDemo.batches id UpsertLog 100 4 50 ColdDemo.names ColdDemo.store in
  (λ r, (object_uri r, is_sealed r)) <$> cs_segments st' = [(100, true); (100, true); (100, true); (4, false)] ∧
  drained UpsertLog 100 st' ∧ ∀ k', logical_segments st' k' = logical_segments ColdDemo.store k'.
Proof.
  cbv zeta. split; [vm_compute; reflexivity|].
  assert (scope_ok UpsertLog ColdDemo.store) as Hone by (apply ColdDemo.one_activeb_ok; vm_compute; reflexivity).
  apply (compact_drains ColdDemo.batches id UpsertLog 100 ColdDemo.batches_laws (λ l, Permutation_refl l) 4 50
    ColdDemo.names ColdDemo.store ColdDemo.store_ok Hone ColdDemo.names_fresh).
  - unfold ColdDemo.names. intros i j H. lia.
  - vm_compute. lia.
Defined.

(** A window splits the active file.  A compaction restricted to a range of
    persist times may see one row of the active merged file and fold it into a
    second one: from a scope with one shared file it leaves two, which the
    planner excludes by a debug assertion. *)
Theorem window_splits_active :
  scope_ok UpsertLog ColdDemo.first ∧ ¬ scope_ok UpsertLog ColdDemo.windowed ∧
  object_uri <$> cs_segments ColdDemo.first = [100; 100; 100; 4] ∧
  object_uri <$> cs_segments ColdDemo.windowed = [100; 100; 200; 200].
Proof.
  split_and!; [|intros H|vm_compute; reflexivity..].
  - apply ColdDemo.one_activeb_ok. vm_compute. reflexivity.
  - assert (100 = 200) by (apply H; vm_compute; lia). lia.
Qed.
